(* ===== verification/_CoqProject ===== *)
-Q . S2P
Prelude.v
GoMap.v
GoStrings.v
GoNumbers.v
GoTime.v
GoBytes.v
GoHeap.v
Ring.v
RouteCache.v
MatchCache.v
RouterPath.v
RouterTrie.v
RouterTrieFacts.v
RouterMatch.v
ContractContext.v
Router.v
RouterInv.v
RouterProps.v
RouterURL.v
RouterRace.v
RingBuffer.v
PriorityBuffer.v
PriorityBufferProps.v
TaskQueue.v
MemStore.v
TaskQueueProps.v
GoPath.v
Mqtt.v
BrokerShards.v
BrokerShardsFacts.v
Broker.v
BrokerFacts.v
BrokerInv.v
BrokerProps.v
ConsumerGroup.v
ConsumerGroupFacts.v
ConsumerGroupProps.v
Cron.v
CronFacts.v
CronProps.v
SchedJobs.v
SchedJobsProps.v
SchedState.v
Scheduler.v
SchedFacts.v
SchedDeps.v
SchedMachine.v
SchedInv.v
SchedProps.v
CircuitBreaker.v
Semver.v
SemverFacts.v
KVCodec.v
KVStore.v
KVFacts.v
KVProps.v
KVSnapshot.v
HashRing.v
ShardStrategy.v
ShardStrategyFacts.v
ShardResolver.v
ShardResolverFacts.v
MemoryCache.v
MemoryCacheFacts.v
SkipList.v
SkipListFacts.v
SkipListOps.v
Leaderboard.v
LeaderboardFacts.v
LeaderboardProps.v
WebSocket.v
WebSocketFacts.v
WebSocketProps.v
Quota.v
QuotaFacts.v
QuotaProps.v
QuotaSliding.v
Framing.v
Lifecycle.v
Kernel.v
