(* ===== verification/Prelude.v ===== *)
(** * Plumego: a verification development of the Go web toolkit

    Plumego is a standard-library-first web toolkit. A small stable kernel (an
    application, its router, its middleware chain, the request contract) is
    surrounded by extension families: storage, messaging, resilience, a gateway.
    This library models the parts that carry the program's own logic and proves
    what makes them correct. Definitions keep the names of the Go code; each
    component's file says which source files it translates.

    ** The program and how its parts interact

    - An application ([core/app.go]) owns a [Router] and a middleware chain. While
      it is mutable, [Use] and [Get]/[Post]/... configure it; [Prepare], [Server]
      or the first request freezes it and composes chain and router into one
      handler. Long-running parts are started and stopped by a [LifecycleGroup].
    - The router keeps one trie per method. [AddRoute] validates a pattern and
      files it; [ServeHTTP] normalises the path, consults a bounded match cache,
      walks the trie, stores the match, and hands captured parameters to the
      handler through a [RouteState] of the [contract] package.
    - The key-value engine ([x/data/kvengine]) appends every change to a log
      before it changes memory, and rebuilds memory from a snapshot and the log.
    - The distributed cache places keys on a consistent hash ring; the sharding
      layer turns a parsed SQL statement and its arguments into the shards it must
      run on, through interchangeable strategies.
    - The stable store package keeps an in-memory cache with expiry and a payload
      limit ([store/cache]); the leaderboard cache keeps sorted sets, each a map of
      scores next to a skip list with rank spans.
    - The message queue ([x/messaging/mq]) hands tasks to consumers under leases,
      over an interchangeable store.
    - The scheduler ([x/messaging/scheduler]) keeps cron and delayed jobs in a heap by run
      time. Its run loop pops what is due and hands it to workers under an overlap and a
      backpressure policy; the workers run the tasks, retry or file dead letters,
      reschedule, and start or cancel the jobs that depend on the outcome.
    - The pub/sub broker ([x/messaging/pubsub]) keeps subscriptions to exact topics,
      glob and MQTT patterns in a sharded registry and delivers to bounded queues
      under a backpressure policy, next to pump goroutines, cancellations and [Close]; a
      priority buffer orders messages by urgency; consumer groups split the partitions of topics among their members.
    - A websocket connection ([x/websocket]) sends queued messages as masked frames
      through a writer goroutine and reassembles what it receives.
    - Tenants ([x/tenant]) have request and token quotas per fixed, calendar or sliding
      window, enforced by a middleware over an interchangeable store.
    - Calls to unreliable services go through a circuit breaker; the gateway's IPC layer
      frames messages over byte streams; [internal/semver] compares versions.

    ** Files

    Shared: [Prelude] (Go values, the error monad, tactics, generic lemmas),
    [GoMap], [GoStrings], [GoNumbers], [GoTime], [GoBytes], [GoPath] (what
    the program uses of map iteration, [strings], [sort], [strconv], [time], floating
    point, [encoding/binary], [io], [hash/crc32], [path]), [GoHeap] ([container/heap] over
    an interface with laws: pushing, popping and removing keep a binary heap and its
    elements) and [Ring] (the index arithmetic of the two circular buffers).

    Router ([router/], [contract/context_core.go]): [RouteCache] is the interface
    the dispatcher expects of a cache and [MatchCache] the implementation;
    [RouterPath] the path helpers and validation; [RouterTrie] and
    [RouterTrieFacts] the tries; [RouterMatch] the abstract matching strategy on a
    table of patterns; [ContractContext] the route state; [Router] registration and
    dispatch; [RouterInv] the tie between concrete and abstract router;
    [RouterProps], [RouterURL] and [RouterRace] the theorems on dispatch, on reverse
    routing, and on interleaved dispatches.

    Kernel ([core/], [middleware/middleware.go]): [Kernel] and [Lifecycle].

    Storage: [KVCodec], [KVStore], [KVFacts], [KVProps], [KVSnapshot]
    ([x/data/kvengine]); [HashRing] ([x/data/cache/distributed/hashring.go]);
    [ShardStrategy], [ShardStrategyFacts], [ShardResolver], [ShardResolverFacts]
    ([x/data/sharding]).

    Caches: [MemoryCache] and [MemoryCacheFacts] ([store/cache]); [SkipList],
    [SkipListFacts], [SkipListOps] and [Leaderboard], [LeaderboardFacts],
    [LeaderboardProps] ([x/data/cache/leaderboard]).

    Queue and schedule: [TaskQueue] (the queue over a store class with laws, and the
    worker), [MemStore] (the in-memory store as an instance), [TaskQueueProps]
    ([x/messaging/mq]); [Cron], [CronFacts], [CronProps]
    ([x/messaging/scheduler/cron.go]); the rest of [x/messaging/scheduler]: [SchedJobs] and
    [SchedJobsProps] options, retries, dead letters and the store class, [SchedState] job
    objects, the schedule and the dependency index, [Scheduler] the operations,
    [SchedMachine] the run loop, workers and callers as a machine, [SchedFacts] what each
    operation leaves alone, [SchedDeps] the dependency graph, [SchedInv] the invariant,
    [SchedProps] the theorems and, in its module [Findings], corner cases.

    Pub/sub ([x/messaging/pubsub]): [RingBuffer] and [Mqtt]; [BrokerShards] and
    [BrokerShardsFacts] the registry; [Broker] subscriptions, delivery and the machine of
    goroutines, [BrokerFacts] one subscription, [BrokerInv] the invariant, [BrokerProps]
    the theorems; [PriorityBuffer] and [PriorityBufferProps]; [ConsumerGroup], [ConsumerGroupFacts], [ConsumerGroupProps].

    Connections and tenants: [WebSocket], [WebSocketFacts], [WebSocketProps]
    ([x/websocket]); [Quota], [QuotaFacts], [QuotaProps], [QuotaSliding]
    ([x/tenant/core], [x/tenant/quota], [x/tenant/transport]).

    Others: [CircuitBreaker] ([x/resilience/circuitbreaker]), [Framing] ([x/gateway/ipc/framing.go]),
    [Semver] and [SemverFacts] ([internal/semver]).

    ** What the theorems show

    - Each theorem's comment names the conditions it needs. The specifications are
      written in their own terms, without the helpers of the code they specify.
    - Router, for patterns whose segments start with an ASCII character: after any
      history, matching on tries equals the documented greedy strategy on the list of
      accepted routes, for request paths without a segment that is itself a marker
      ([dispatch_refines]; [literal_colon_segment] shows such a segment); the whole
      answer of [ServeHTTP], cache included, is determined by that list when requests
      run one at a time ([serve_refines]); a failed registration changes no answer
      ([add_route_atomic]); matches capture what the pattern says
      ([match_captures], [params_delivered]); static routes are found
      ([static_route_served]); reverse routing inverts matching ([url_roundtrip]);
      interleaved dispatches are coherent once the router is frozen
      ([frozen_dispatch_coherent]).
    - Kernel: the application answers as its middlewares, in order of [Use], around
      the accepted routes ([kernel_serves]); preparation freezes it for good
      ([kernel_freezes]); components start and stop as a stack
      ([lifecycle_stack]).
    - Key-value engine: loading the snapshot file and replaying the log reproduces the
      acknowledged contents after any history of calls, snapshots included
      ([crash_recovery]), also when the last record is torn
      ([torn_log_recovery]); a written value is read back ([set_get]); codecs and
      snapshots round trip ([codec_roundtrip], [snapshot_restore]).
    - Hash ring: after any history a lookup returns the successor of the key's hash
      ([ring_get_successor]), adding or removing a node moves only the keys it must
      ([ring_minimal_disruption]), replica lists are distinct and complete
      ([getN_replicas]).
    - Sharding: for clauses given by an abstract syntax of comparisons, whose text the
      resolver reads, no shard that can hold a selected row is left out
      ([routing_complete]); range lookups are exact ([range_lookup_exact]).
    - Memory cache: every answer is that of a map of unexpired entries, and only a write
      beyond the payload limit may be refused ([memory_cache_refines]); the counters are exact and the payload limit holds
      ([memory_cache_accounting]).
    - Leaderboard: every operation answers as a plain map ranked by score and member,
      without a panic ([leaderboard_refines]).
    - Task queue: a lease is exclusive ([mq_exclusive_lease]), acknowledged tasks are
      finished ([mq_ack_final]), [Reserve] takes the best eligible tasks
      ([mq_reserve_best]), and expired leases are never recovered
      ([mq_expired_lease_stuck]).
    - Cron: an expression is accepted exactly when it follows the grammar, with the right
      error otherwise ([cron_parse_total]), and a field yields the values its parts stand
      for ([cron_field_values]); [Next] is the earliest match ([cron_next_earliest]);
      printing and parsing round trip ([cron_expr_roundtrip]).
    - Scheduler: whatever the interleaving of the run loop, the workers and the callers, an
      exclusive job never overlaps itself ([sched_no_overlap]), an active cron job is never
      lost unless its expression matches no time of the calendar ([sched_cron_kept]), a cancelled job starts no further run
      ([sched_cancel_final]), the dependency graph stays acyclic and exactly the
      registrations that would close a cycle are refused ([sched_acyclic]), and the run loop
      takes the earliest current item ([sched_pops_earliest]). Dead letters are a bounded
      list in order of first failure ([dlq_refines]); backoff is exact and does not overflow
      ([backoff_exact]); retry policies survive being stored ([retry_roundtrip]).
    - Priority buffer: the two heaps answer as the list of waiting messages, without a panic
      ([priority_buffer_refines]).
    - Broker: whatever the interleaving of publishers, pumps, consumers, cancellations
      and [Close], lookups before [Close] collects select exactly the registered
      subscriptions meant for a topic, each once ([broker_routes]); a single publication
      cannot return before it has tried every subscription that stays registered
      ([broker_reaches_all]); the messages put into a queue are received in that order,
      announced as evicted, or still there, and each is announced once
      ([broker_conserves]); no
      delivery panics unless a subscription blocks publishers or a filter panics
      ([broker_panic_free]); nothing gets stuck ([broker_progress]).
    - Consumer groups: a rebalance gives every partition exactly one live owner
      ([cg_rebalance_assigns]), each message is processed by one member
      ([cg_exactly_once]), and the last membership change is always followed by a
      rebalance ([cg_rebalance_converges]).
    - Websockets: what one side writes the other reads, message by message, for every
      fragmentation, mask and size of the reads ([ws_end_to_end]); the read limit bounds what
      is buffered ([ws_read_bounded]).
    - Quotas: called one at a time, the window managers decide exactly as a log of
      admitted requests would
      ([tenant_windows_refine], [tenant_fixed_refine], [tenant_sliding_refine]), and the
      retry delay of the sliding window is the least sufficient one
      ([tenant_retry_exact]).
    - Messaging, resilience, framing, versions: the queue refines a list
      ([ringbuffer_refines]); pattern matching and the subscription store meet their
      specifications ([mqtt_match_correct], [mqtt_store_correct]); the breaker trips
      exactly when the failure rate reaches its threshold, recovers, and keeps its counters consistent under
      interleaving ([breaker_trips_exactly], [breaker_recovers],
      [breaker_invariant]); framed messages survive any chunking of the stream
      ([framing_roundtrip], [framing_errors]); precedence is a total preorder where
      identifiers have no leading zeros, printing inverts parsing, sorting sorts,
      caret and tilde constraints are intervals.
    - Where the code departs from its intent the departure is a theorem too:
      [skipped_condition_misroutes], [evicts_most_recent], [default_breaker_stuck],
      [stale_cache_entry], [range_upper_bound_missed], [compare_not_transitive],
      [non_ascii_siblings_panic], [literal_colon_segment], [half_open_admits_all],
      [min_int_index_negative], [mod_range_never_ends], [mixed_types_panic],
      [mq_expired_lease_stuck], [mq_dedupe_collision], [cron_step_overflow],
      [cron_expr_changes_schedule], [huge_range_panics], [two_topics_duplicate],
      [unsubscribed_owner_loses], [only_first_topic], [hash_assignment_unstable],
      [negative_partitions_panic], [ws_cut_short_delivered], [client_refunds_tokens],
      [client_wraps_counter], [late_call_resets], [same_window_counts_twice],
      [unlimited_shows_zero], [retry_header_rounds_down], [shared_mqtt_pattern_lost],
      [next_mqtt_pattern_lost], [blocked_publisher_panics],
      [late_subscription_survives], [default_policy_ignored], [cancel_skips_dependent],
      [replaced_dependency_forgotten], [resume_ignores_dependencies],
      [exhausted_retries_never_again], [never_matching_runs_at_once],
      [refused_update_stops_job], [concurrent_runs_not_counted], [persisted_chain_lost],
      [persisted_pause_lost].

    ** Modelling conventions

    - A Go string or byte slice is a list of eight-bit characters. Integers that can
      overflow are [Z] or [N] with the wrap-around written out; elsewhere they are
      [nat] lengths and indices. The breaker's failure rate is IEEE binary64.
    - Errors are values of a sum or an option; a panic is a distinct outcome
      wherever the code can panic (index out of range, failed type assertion,
      unhashable map key, closed channel).
    - State is passed explicitly. One operation is one critical section of the code;
      where the code releases a lock halfway the halves are separate steps and a
      step relation interleaves them ([RouterRace], [CircuitBreaker]). Goroutines are
      steps of a machine: the rebalancing of a consumer group, the writer of a websocket,
      in [SchedMachine] the run loop, each worker and each call of the API, and in [Broker] every publisher, pump, canceller and the closer, one step from one
      point where another goroutine can intervene to the next.
    - What a step takes together although the code does not. Broker: a registry operation
      with its counter; a scan of all shards, and the collection of all subscriptions by
      [Close] with the reset of the counters (the code locks one shard after the other);
      a delivery under the subscriber's lock with its counters and its announcement (a
      delivery that blocks without the lock sends and announces in two steps). Quotas: a
      call of a window manager or of [AllowWindows], although each reservation and release
      locks the store separately, so that concurrent calls could see each other's
      provisional reservations. Router, key-value engine, caches: a call, except in
      [RouterRace].
    - Where the code shares an object the model has a store and pointers: the nodes of the
      skip list, the LRU lists of the key-value engine, the messages two heaps hold, the jobs
      that registry, schedule and workers point to, and the backing arrays of the slices of
      the dependency index, which the code filters while a loop reads them.
    - Time is an argument: each operation gets its own clock reading. Instants of the
      calendar count from the first of January of year 1, and a time zone is a fixed
      offset: zones with daylight saving are not modelled. The order in which Go walks a map is an argument too, and so are the
      random tower heights of the skip list, the mask keys of websocket frames, how
      many bytes the network takes or gives at a time, and the decoder of [encoding/gob].
      [sort.Slice] and [sort.Strings] are insertion sorts; where
      the Go result is unstable no theorem depends on the order of equal elements.
    - Interfaces of the program are classes with a second class of laws
      ([RouteCache], [Serializer], [Strategy], [TaskStore], [QuotaStore], [HeapInterface],
      the IPC [Client]); the scheduler's [Store] has no laws, since nothing relies on any.
    - Code outside the repository is a parameter: hash functions the user supplies,
      certificate loading, the underlying IPC client, handlers and middlewares. A
      middleware is assumed to call the next handler at most once.
    - Loops are structural or carry fuel that is proved sufficient: binary search
      halves an interval, so its length is enough; [GetN] makes one turn of the
      ring; probing stops after the code's own 1024 attempts; a full read of [n]
      bytes needs at most [n] reads that make progress; eviction removes an entry
      per round; [ModStrategy]'s range loop stops after at most as many ids as
      there are shards; a descent of the skip list visits each node at most once per
      level; sifting in a heap moves one level per round; popping the schedule and walking
      dependencies take an item or a job per round, and a cascade of cancellations cancels a
      registered job per level; the search of [Next] keeps the code's own bound of 366*86400 rounds,
      which is proved to reach any match of the 400-year cycle; a stepped cron range
      ends within the field's width, or by wrapping around. Rank arguments of the
      leaderboard lie within 2^62 and sets within 2^45 members, beyond which Go's
      [make] fails. The one loop that does not end is stated as such
      ([mod_range_never_ends]).

    ** Not modelled, and what is planned

    Listening sockets, [Run] and [Shutdown], the connection tracker, static files,
    logging and metrics, JSON bodies, file handling of the log (syncing and
    rotation), compression, the SQL parser's regular expressions and execution
    against databases. The statement parser's result is an input of the resolver,
    and statements are taken to be ASCII. Of the broker: the worker pool's limit,
    [Drain], [PublishMulti] and the metrics sink. Of the scheduler: the queries that only
    read, its HTTP administration, the store over JSON, the contexts and deadlines of tasks
    (what a task returns is an argument) and the callback for dead letters. Left for later,
    in this order: dead letters, acknowledgements and ordering on top of the broker,
    replication and failover of the distributed cache, the token buckets of
    [x/resilience/ratelimit], the concrete middlewares and the error and response
    contract. *)

From stdpp Require Export base gmap list sorting strings.
From Stdlib Require Export Ascii ZArith.
From stdpp Require Import options.

#[global] Set Default Goal Selector "!".

(** ** Go data: bytes, strings, errors *)

Declare Scope plumego_scope.
Delimit Scope plumego_scope with go.

(** A Go [byte] is an [ascii] character (eight bits); a Go [string] and a
    [[]byte] are both finite byte sequences. *)
Abbreviation gobyte := ascii (only parsing).
Abbreviation gostring := (list ascii) (only parsing).

(** A string literal of the source. *)
Definition str (s : String.string) : gostring := String.list_ascii_of_string s.
#[global] Arguments str _ : simpl never.

(** The numeric value of a byte, and the byte conversion of an integer (Go's
    [byte(x)] keeps the low eight bits). *)
Definition byte_val (b : gobyte) : N := N_of_ascii b.
Definition byte_of (n : N) : gobyte := ascii_of_N (n mod 256).

(** Go's [<=] and [==] on bytes, as booleans of the code. *)
Definition byte_leb (a b : gobyte) : bool := (byte_val a <=? byte_val b)%N.
Definition byte_eqb (a b : gobyte) : bool := bool_decide (a = b).
Definition byte_le (a b : gobyte) : Prop := (byte_val a <= byte_val b)%N.

(** Results of fallible Go functions: [(T, error)]. *)
Inductive result (E A : Type) : Type :=
| Ok (a : A)
| Err (e : E).
#[global] Arguments Ok {E A} a.
#[global] Arguments Err {E A} e.

Definition result_bind {E A B} (r : result E A) (f : A → result E B) : result E B :=
  match r with Ok a => f a | Err e => Err e end.

Notation "'let?' x := r 'in' k" := (result_bind r (λ x, k))
  (at level 10, x binder, r at level 100, k at level 200) : plumego_scope.

(** ** Machine integers *)

Definition int64_min : Z := - 2 ^ 63.
Definition int64_max : Z := 2 ^ 63 - 1.
Definition is_int64 (z : Z) : Prop := (int64_min ≤ z ≤ int64_max)%Z.

(** Two's-complement wrap-around of [int64]/[int], [int32], [uint64] and [uint32]. *)
Definition wrap64 (z : Z) : Z := ((z + 2 ^ 63) mod 2 ^ 64 - 2 ^ 63)%Z.
Definition wrap32 (z : Z) : Z := ((z + 2 ^ 31) mod 2 ^ 32 - 2 ^ 31)%Z.
Definition wrapu64 (z : Z) : Z := (z mod 2 ^ 64)%Z.
Definition wrapu32 (z : Z) : Z := (z mod 2 ^ 32)%Z.

(** ** Tactics *)

(** Turn the boolean tests of the code into propositions. *)
Ltac unbool :=
  repeat match goal with
  | H : _ && _ = true |- _ => apply andb_true_iff in H; destruct H
  | H : _ && _ = false |- _ => apply andb_false_iff in H
  | H : _ || _ = false |- _ => apply orb_false_iff in H; destruct H
  | H : _ || _ = true |- _ => apply orb_true_iff in H
  | H : negb _ = true |- _ => apply negb_true_iff in H
  | H : negb _ = false |- _ => apply negb_false_iff in H
  | H : bool_decide _ = true |- _ => apply bool_decide_eq_true in H
  | H : bool_decide _ = false |- _ => apply bool_decide_eq_false in H
  | H : (_ =? _)%Z = true |- _ => apply Z.eqb_eq in H
  | H : (_ =? _)%Z = false |- _ => apply Z.eqb_neq in H
  | H : (_ <? _)%Z = true |- _ => apply Z.ltb_lt in H
  | H : (_ <? _)%Z = false |- _ => apply Z.ltb_ge in H
  | H : (_ <=? _)%Z = true |- _ => apply Z.leb_le in H
  | H : (_ <=? _)%Z = false |- _ => apply Z.leb_gt in H
  | H : (_ <? _) = true |- _ => apply Nat.ltb_lt in H
  | H : (_ <? _) = false |- _ => apply Nat.ltb_ge in H
  | H : (_ <=? _) = true |- _ => apply Nat.leb_le in H
  | H : (_ <=? _) = false |- _ => apply Nat.leb_gt in H
  | H : (_ =? _) = true |- _ => apply Nat.eqb_eq in H
  | H : (_ =? _) = false |- _ => apply Nat.eqb_neq in H
  end.

(** Split on the first [if]/[match] of the goal, keep its equation, simplify. *)
Ltac step_match := case_match; unbool; simplify_eq/=.
Ltac steps := repeat step_match.

(** The development's hint database. *)
Create HintDb plumego.
Ltac plum := eauto with plumego.

(** ** Bytes *)

Lemma byte_val_bound (b : gobyte) : (byte_val b < 256)%N.
Proof. apply N_ascii_bounded. Qed.

Lemma byte_val_of (n : N) : byte_val (byte_of n) = (n mod 256)%N.
Proof.
  unfold byte_val, byte_of. apply N_ascii_embedding.
  pose proof (N.mod_lt n 256). lia.
Qed.

Lemma byte_of_val (b : gobyte) : byte_of (byte_val b) = b.
Proof.
  unfold byte_val, byte_of. rewrite N.mod_small by apply byte_val_bound.
  apply ascii_N_embedding.
Qed.

#[export] Instance byte_val_inj : Inj (=) (=) byte_val.
Proof. intros a b H. by rewrite <-(byte_of_val a), <-(byte_of_val b), H. Qed.

Lemma byte_leb_spec a b : byte_leb a b = true ↔ byte_le a b.
Proof. apply N.leb_le. Qed.

#[export] Instance byte_le_dec : RelDecision byte_le.
Proof. intros a b. unfold byte_le. apply _. Defined.
#[export] Instance byte_le_refl : Reflexive byte_le.
Proof. intros a. unfold byte_le. lia. Qed.
#[export] Instance byte_le_total : Total byte_le.
Proof. intros a b. unfold byte_le. lia. Qed.
#[export] Instance byte_le_trans : Transitive byte_le.
Proof. intros a b c. unfold byte_le. lia. Qed.
#[export] Instance byte_le_antisymm : AntiSymm (=) byte_le.
Proof. intros a b Hab Hba. apply (inj byte_val). unfold byte_le in *. lia. Qed.

(** ** Lists *)

Lemma filter_all {A} (P : A → Prop) `{!∀ x, Decision (P x)} (l : list A) : Forall P l → filter P l = l.
Proof. induction 1; [done|]. rewrite filter_cons_True by done. by f_equal. Qed.
Lemma filter_none {A} (P : A → Prop) `{!∀ x, Decision (P x)} (l : list A) :
  Forall (λ x, ¬ P x) l → filter P l = [].
Proof. induction 1; [done|]. by rewrite filter_cons_False. Qed.

Lemma NoDup_fmap_filter {A B} (f : A → B) (P : A → Prop) `{!∀ x, Decision (P x)} (l : list A) :
  NoDup (f <$> l) → NoDup (f <$> filter P l).
Proof. intros Hnd. eapply sublist_NoDup; [done|]. apply fmap_sublist, sublist_filter. Qed.

Lemma fst_zip_sublist {A B} (l : list A) (k : list B) : (zip l k).*1 `sublist_of` l.
Proof.
  revert k. induction l as [|x l IH]; intros [|y k]; simpl; auto using sublist_nil, sublist_nil_l.
  by apply sublist_skip.
Qed.

Lemma Forall2_with_r {A B} (P : A → B → Prop) (Q : B → Prop) (l : list A) (k : list B) :
  Forall2 P l k → Forall Q k → Forall2 (λ x y, P x y ∧ Q y) l k.
Proof. induction 1; rewrite ?Forall_cons; constructor; naive_solver. Qed.

(** Joining lists that carry their own key never repeats an element. *)
Lemma NoDup_join_keyed {K A} (f : A → K) (l : list (K * list A)) :
  NoDup (fst <$> l) → (∀ k xs, (k, xs) ∈ l → NoDup xs ∧ ∀ x, x ∈ xs → f x = k) →
  NoDup (mjoin (snd <$> l)).
Proof.
  induction l as [|[k xs] l IH]; csimpl; intros Hnd Hl; [constructor|].
  apply NoDup_cons in Hnd as [Hk Hnd]. destruct (Hl k xs) as [Hxs Hf]; [left|].
  apply NoDup_app. split; [done|]. split; [|apply IH; [done|]; intros; apply Hl; by right].
  intros x Hx (ys & Hxy & Hys)%list_elem_of_join. apply Hk.
  apply list_elem_of_fmap in Hys as ([k' ys'] & -> & Hin). apply list_elem_of_fmap.
  exists (k', ys'). split; [|done]. simpl. rewrite <- (Hf x Hx).
  destruct (Hl k' ys') as [_ Hf']; [by right|]. by apply Hf'.
Qed.

(** ** Machine integers *)

Lemma wrap64_small z : is_int64 z → wrap64 z = z.
Proof.
  unfold is_int64, int64_min, int64_max, wrap64. intros H.
  rewrite Z.mod_small; lia.
Qed.

Lemma wrap64_range z : is_int64 (wrap64 z).
Proof.
  unfold is_int64, int64_min, int64_max, wrap64.
  pose proof (Z.mod_pos_bound (z + 2 ^ 63) (2 ^ 64)). lia.
Qed.

Lemma wrap32_small z : (- 2 ^ 31 ≤ z < 2 ^ 31)%Z → wrap32 z = z.
Proof. unfold wrap32. intros H. rewrite Z.mod_small; lia. Qed.

Lemma wrap32_add x y : wrap32 (wrap32 x + y) = wrap32 (x + y).
Proof.
  unfold wrap32. f_equal.
  replace ((x + 2 ^ 31) mod 2 ^ 32 - 2 ^ 31 + y + 2 ^ 31)%Z with ((x + 2 ^ 31) mod 2 ^ 32 + y)%Z by lia.
  rewrite Z.add_mod_idemp_l by lia. f_equal. lia.
Qed.

Lemma wrapu32_small z : (0 ≤ z < 2 ^ 32)%Z → wrapu32 z = z.
Proof. apply Z.mod_small. Qed.

Lemma wrapu32_range z : (0 ≤ wrapu32 z < 2 ^ 32)%Z.
Proof. apply Z.mod_pos_bound. lia. Qed.

#[export] Hint Resolve wrap64_range wrapu32_range byte_val_bound : plumego.
