(* ===== verification/GoMap.v ===== *)
(** * Walking a Go map

    A [range] loop over a map visits every key once, in an order the language leaves
    open. The order is an argument: the keys it names come first, in its order, and
    the remaining keys follow. Every order of the keys is obtained this way. *)

From stdpp Require Import options.
From S2P Require Import Prelude.

Section Walk.
Context {A : Type}.
Implicit Types (m : gmap gostring A) (order : list gostring).

Definition keysIn order m : list gostring :=
  let seen := filter (λ k, is_Some (m !! k)) (remove_dups order) in
  seen ++ filter (λ k, k ∉ seen) ((map_to_list m).*1).

Lemma keysIn_elem order m k : k ∈ keysIn order m ↔ is_Some (m !! k).
Proof.
  unfold keysIn. set (seen := filter _ (remove_dups order)).
  assert (Hseen : k ∈ seen → is_Some (m !! k)) by (unfold seen; rewrite list_elem_of_filter; tauto).
  assert (Hkeys : k ∈ (map_to_list m).*1 ↔ is_Some (m !! k)).
  { rewrite list_elem_of_fmap. split; [intros ([k' r] & -> & H%elem_of_map_to_list); by eexists|].
    intros [r Hr]. exists (k, r). split; [done|]. by apply elem_of_map_to_list. }
  rewrite elem_of_app, list_elem_of_filter, Hkeys. destruct (decide (k ∈ seen)); tauto.
Qed.

Lemma keysIn_nodup order m : NoDup (keysIn order m).
Proof.
  unfold keysIn. apply NoDup_app. split; [apply NoDup_filter, NoDup_remove_dups|]. split.
  - intros x Hx [Hn _]%list_elem_of_filter. done.
  - apply NoDup_filter, NoDup_fst_map_to_list.
Qed.

Lemma keysIn_perm order order' m : keysIn order m ≡ₚ keysIn order' m.
Proof. apply NoDup_Permutation; [apply keysIn_nodup..|]. intros k. by rewrite !keysIn_elem. Qed.
End Walk.
#[export] Hint Resolve keysIn_nodup : plumego.
