(* ===== verification/GoStrings.v ===== *)
(** * The parts of Go's [strings] and [sort] packages the program uses

    Byte-level models of [strings.Split], [Join], [Trim*], [HasPrefix],
    [IndexByte], [TrimSpace], the lexicographic order of Go strings,
    [sort.Strings] and the binary search [sort.Search], with the laws the
    components rely on. *)

From stdpp Require Import options.
From S2P Require Import Prelude.

Section GoStrings.
Implicit Types (c : gobyte) (s : gostring).

(** [strings.Split(s, sep)] for a one-byte separator: never empty. *)
Fixpoint split_on c s : list gostring :=
  match s with
  | [] => [[]]
  | x :: r =>
      if decide (x = c) then [] :: split_on c r
      else match split_on c r with
           | h :: t => (x :: h) :: t
           | [] => [[x]]
           end
  end.

(** [strings.SplitN(s, sep, 2)] for a one-byte separator: the text before the
    first separator and, when there is one, the text after it. *)
Fixpoint split2_on c s : gostring * option gostring :=
  match s with
  | [] => ([], None)
  | x :: r => if decide (x = c) then ([], Some r)
              else let '(a, b) := split2_on c r in (x :: a, b)
  end.

(** [strings.Join(parts, sep)]. *)
Fixpoint join_with c (parts : list gostring) : gostring :=
  match parts with
  | [] => []
  | [p] => p
  | p :: rest => p ++ c :: join_with c rest
  end.

(** [strings.TrimLeft(s, string(c))], [TrimRight] and [Trim] on one byte. *)
Fixpoint trim_left c s : gostring :=
  match s with
  | [] => []
  | x :: r => if decide (x = c) then trim_left c r else s
  end.
Definition trim_right c s : gostring := reverse (trim_left c (reverse s)).
Definition trim c s : gostring := trim_left c (trim_right c s).

(** [strings.HasPrefix(s, string(c))]. *)
Definition has_prefix_byte c s : bool :=
  match s with x :: _ => bool_decide (x = c) | [] => false end.

(** [strings.IndexByte(s, c)], [-1] being [None]. *)
Definition index_byte c s : option nat := fst <$> list_find (c =.) s.

(** [strings.Contains(s, string(c))]. *)
Definition contains_byte c s : bool := bool_decide (c ∈ s).

(** The UTF-8 encodings of the runes [unicode.IsSpace] accepts. *)
Definition space_encodings : list gostring :=
  [[byte_of 9]; [byte_of 10]; [byte_of 11]; [byte_of 12]; [byte_of 13]; [byte_of 32];
   [byte_of 194; byte_of 133]; [byte_of 194; byte_of 160];
   [byte_of 225; byte_of 154; byte_of 128]] ++
  ((λ n, [byte_of 226; byte_of 128; byte_of n]) <$>
     [128; 129; 130; 131; 132; 133; 134; 135; 136; 137; 138; 168; 169; 175]%N) ++
  [[byte_of 226; byte_of 129; byte_of 159]; [byte_of 227; byte_of 128; byte_of 128]].

(** One pass of [strings.TrimSpace] over the front of [s]: drop the encodings of
    white space. Every round drops at least one byte, so [length s] rounds are
    enough fuel. *)
Fixpoint strip_front (fuel : nat) (encs : list gostring) s : gostring :=
  match fuel with
  | O => s
  | S fuel =>
      match list_find (λ e, e `prefix_of` s) encs with
      | Some (_, e) => strip_front fuel encs (drop (length e) s)
      | None => s
      end
  end.
Definition trim_space s : gostring :=
  let front := strip_front (length s) space_encodings s in
  reverse (strip_front (length front) (reverse <$> space_encodings) (reverse front)).

(** [strings.Fields]: the maximal runs of bytes that are not white space, [cur]
    being the run read so far, backwards. *)
Definition flush (cur : gostring) : list gostring :=
  match cur with [] => [] | _ :: _ => [reverse cur] end.
Fixpoint fields_loop (fuel : nat) s (cur : gostring) : list gostring :=
  match fuel, s with
  | S fuel, b :: r =>
      match list_find (λ e, e `prefix_of` s) space_encodings with
      | Some (_, e) => flush cur ++ fields_loop fuel (drop (length e) s) []
      | None => fields_loop fuel r (b :: cur)
      end
  | _, _ => flush cur
  end.
Definition fields s : list gostring := fields_loop (length s) s [].

(** Go's [<] on strings compares bytes left to right. *)
Fixpoint str_cmp (s1 s2 : gostring) : comparison :=
  match s1, s2 with
  | [], [] => Eq
  | [], _ :: _ => Lt
  | _ :: _, [] => Gt
  | x :: r1, y :: r2 =>
      match N.compare (byte_val x) (byte_val y) with
      | Eq => str_cmp r1 r2
      | o => o
      end
  end.
Definition str_ltb (s1 s2 : gostring) : bool :=
  match str_cmp s1 s2 with Lt => true | _ => false end.
Definition str_le (s1 s2 : gostring) : Prop := str_cmp s1 s2 ≠ Gt.

End GoStrings.
#[global] Arguments trim_right c s : simpl never.

#[export] Instance str_le_dec : RelDecision str_le.
Proof. intros s1 s2. unfold str_le. apply _. Defined.

(** [sort.Strings]. *)
Definition sort_strings (l : list gostring) : list gostring := merge_sort str_le l.

(** [sort.Search(n, f)]: the binary search of the standard library,
    [for i < j { h := (i+j)/2; if !f(h) { i = h+1 } else { j = h } }]. The
    interval shrinks in every round, so [n] rounds are enough fuel. *)
Fixpoint search_loop (fuel : nat) (f : nat → bool) (i j : nat) : nat :=
  match fuel with
  | O => i
  | S fuel =>
      if i <? j then
        let h := (i + j) / 2 in
        if f h then search_loop fuel f i h else search_loop fuel f (S h) j
      else i
  end.
Definition sort_search (n : nat) (f : nat → bool) : nat := search_loop n f 0 n.

(** ** Splitting and joining *)

Section split_join.
Implicit Types (c : gobyte) (s : gostring).

Lemma split_on_ne c s : split_on c s ≠ [].
Proof. destruct s; simpl; repeat case_match; done. Qed.

Lemma join_split c s : join_with c (split_on c s) = s.
Proof.
  induction s as [|x s IH]; [done|]. simpl. case_decide as Hx.
  - subst x. simpl. pose proof (split_on_ne c s).
    destruct (split_on c s) eqn:E; [done|]. by rewrite IH.
  - destruct (split_on c s) as [|h t] eqn:E; [by apply split_on_ne in E|].
    rewrite <- IH. destruct t; done.
Qed.

Lemma split_on_no_sep c s : c ∉ s → split_on c s = [s].
Proof.
  induction s as [|x s IH]; [done|]. intros H%not_elem_of_cons. destruct H as [Hx H].
  simpl. rewrite decide_False by done. by rewrite IH.
Qed.

Lemma split_on_app c s1 s2 :
  c ∉ s1 → split_on c (s1 ++ c :: s2) = s1 :: split_on c s2.
Proof.
  induction s1 as [|x s1 IH]; simpl; intros H.
  - by rewrite decide_True.
  - apply not_elem_of_cons in H as [Hx H]. rewrite decide_False by done.
    by rewrite IH.
Qed.

(** Splitting undoes joining when no part contains the separator. *)
Lemma split_join c (parts : list gostring) :
  parts ≠ [] → Forall (λ p, c ∉ p) parts → split_on c (join_with c parts) = parts.
Proof.
  intros Hne Hf. induction parts as [|p parts IH]; [done|].
  apply Forall_cons in Hf as [Hp Hf]. destruct parts as [|q parts].
  - simpl. by apply split_on_no_sep.
  - change (join_with c (p :: q :: parts)) with (p ++ c :: join_with c (q :: parts)).
    rewrite split_on_app by done. by rewrite IH.
Qed.

Lemma split_on_parts c s : Forall (λ p, c ∉ p) (split_on c s).
Proof.
  induction s as [|x s IH]; simpl; [repeat constructor; apply not_elem_of_nil|].
  case_decide as Hx; [constructor; [apply not_elem_of_nil | done]|].
  destruct (split_on c s) as [|h t]; [repeat constructor; set_solver|].
  apply Forall_cons in IH as [Hh Ht]. constructor; [set_solver | done].
Qed.

(** Splitting invents no bytes. *)
Lemma split_no_elem x c s : x ∉ s → Forall (λ p, x ∉ p) (split_on c s).
Proof.
  induction s as [|y s IH]; simpl; [repeat constructor; apply not_elem_of_nil|].
  rewrite not_elem_of_cons. intros [Hx Hs]. specialize (IH Hs).
  case_decide; [constructor; [apply not_elem_of_nil|done]|].
  destruct (split_on c s); [repeat constructor; set_solver|].
  apply Forall_cons in IH as [Hp Hf]. constructor; [|done]. set_solver.
Qed.

Lemma join_cons c p (l : list gostring) :
  l ≠ [] → join_with c (p :: l) = p ++ c :: join_with c l.
Proof. by destruct l. Qed.

Lemma join_app c (l1 l2 : list gostring) :
  l1 ≠ [] → l2 ≠ [] → join_with c (l1 ++ l2) = join_with c l1 ++ c :: join_with c l2.
Proof.
  intros H1 H2. induction l1 as [|p l1 IH]; [done|].
  destruct l1 as [|q l1].
  - simpl. by destruct l2.
  - change ((p :: q :: l1) ++ l2) with (p :: (q :: l1) ++ l2).
    rewrite join_cons by done. rewrite IH by done. simpl.
    by rewrite <- app_assoc.
Qed.

Lemma split2_on_spec c s :
  match split2_on c s with
  | (a, Some b) => s = a ++ c :: b ∧ c ∉ a
  | (a, None) => s = a ∧ c ∉ a
  end.
Proof.
  induction s as [|x s IH]; simpl; [split; [done | apply not_elem_of_nil]|].
  case_decide as Hx; [subst; split; [done | apply not_elem_of_nil]|].
  destruct (split2_on c s) as [a [b|]]; destruct IH as [-> Hn]; set_solver.
Qed.

Lemma split2_on_app c s1 s2 : c ∉ s1 → split2_on c (s1 ++ c :: s2) = (s1, Some s2).
Proof.
  induction s1 as [|x s1 IH]; simpl; intros H.
  - by rewrite decide_True.
  - apply not_elem_of_cons in H as [Hx H]. rewrite decide_False by done. by rewrite IH.
Qed.

Lemma split2_on_no_sep c s : c ∉ s → split2_on c s = (s, None).
Proof.
  induction s as [|x s IH]; simpl; intros H; [done|].
  apply not_elem_of_cons in H as [Hx H]. rewrite decide_False by done. by rewrite IH.
Qed.

End split_join.

(** ** Trimming *)

Section trimming.
Implicit Types (c : gobyte) (s : gostring).

Lemma trim_left_decomp c s : ∃ n, s = replicate n c ++ trim_left c s.
Proof.
  induction s as [|x s [n IH]]; [by exists 0|]. simpl. case_decide.
  - subst. exists (S n). simpl. by f_equal.
  - by exists 0.
Qed.

Lemma trim_left_head c s : head (trim_left c s) ≠ Some c.
Proof. induction s as [|x s IH]; simpl; [done|]. case_decide; [done|]. simpl. congruence. Qed.

Lemma trim_left_id c s : head s ≠ Some c → trim_left c s = s.
Proof. destruct s as [|x s]; simpl; [done|]. intros H. rewrite decide_False; congruence. Qed.

Lemma trim_left_idemp c s : trim_left c (trim_left c s) = trim_left c s.
Proof. apply trim_left_id, trim_left_head. Qed.

Lemma trim_right_decomp c s : ∃ n, s = trim_right c s ++ replicate n c.
Proof.
  destruct (trim_left_decomp c (reverse s)) as [n Hn]. exists n.
  unfold trim_right. apply (inj reverse).
  rewrite reverse_app, reverse_involutive, reverse_replicate. done.
Qed.

Lemma trim_right_last c s : last (trim_right c s) ≠ Some c.
Proof.
  unfold trim_right. rewrite last_reverse. apply trim_left_head.
Qed.

Lemma trim_right_id c s : last s ≠ Some c → trim_right c s = s.
Proof.
  intros H. unfold trim_right. rewrite trim_left_id; [apply reverse_involutive|].
  by rewrite head_reverse.
Qed.

Lemma trim_right_idemp c s : trim_right c (trim_right c s) = trim_right c s.
Proof. apply trim_right_id, trim_right_last. Qed.

Lemma trim_right_nil_iff c s : trim_right c s = [] ↔ Forall (c =.) s.
Proof.
  destruct (trim_right_decomp c s) as [n Hn]. split.
  - intros H. rewrite H in Hn. rewrite Hn. by apply Forall_replicate.
  - intros Hf. destruct (last (trim_right c s)) as [x|] eqn:E; [|by apply last_None].
    exfalso. apply (trim_right_last c s). rewrite E. f_equal.
    apply last_Some in E as [l' Hl]. rewrite Hl in Hn. rewrite Forall_forall in Hf.
    symmetry. apply Hf. rewrite Hn. set_solver.
Qed.

Lemma trim_left_app_ne c s1 s2 :
  trim_left c s1 ≠ [] → trim_left c (s1 ++ s2) = trim_left c s1 ++ s2.
Proof.
  induction s1 as [|x s1 IH]; simpl; [done|]. case_decide; auto.
Qed.

Lemma trim_right_head c s : trim_right c s ≠ [] → head (trim_right c s) = head s.
Proof.
  intros H. destruct (trim_right_decomp c s) as [n Hn]. rewrite Hn at 2.
  by destruct (trim_right c s).
Qed.

Lemma trim_id c s : head s ≠ Some c → last s ≠ Some c → trim c s = s.
Proof. intros H1 H2. unfold trim. rewrite trim_right_id by done. by apply trim_left_id. Qed.

End trimming.

(** ** The order of Go strings *)

Lemma str_cmp_refl s : str_cmp s s = Eq.
Proof. induction s; simpl; [done|]. by rewrite N.compare_refl. Qed.

Lemma str_cmp_eq s1 s2 : str_cmp s1 s2 = Eq ↔ s1 = s2.
Proof.
  split; [|intros ->; apply str_cmp_refl].
  revert s2. induction s1 as [|x s1 IH]; intros [|y s2]; simpl; try done.
  destruct (N.compare_spec (byte_val x) (byte_val y)) as [Hxy| |]; try done.
  intros H. f_equal; [by apply (inj byte_val) | by apply IH].
Qed.

Lemma str_cmp_antisym s1 s2 : str_cmp s2 s1 = CompOpp (str_cmp s1 s2).
Proof.
  revert s2. induction s1 as [|x s1 IH]; intros [|y s2]; simpl; try done.
  rewrite (N.compare_antisym (byte_val x)).
  destruct (N.compare (byte_val x) (byte_val y)); simpl; auto.
Qed.

Lemma str_cmp_lt_trans s1 s2 s3 :
  str_cmp s1 s2 = Lt → str_cmp s2 s3 = Lt → str_cmp s1 s3 = Lt.
Proof.
  revert s2 s3. induction s1 as [|x s1 IH]; intros [|y s2] [|z s3]; simpl; try done.
  destruct (N.compare_spec (byte_val x) (byte_val y)) as [E1|L1|G1]; try done;
    destruct (N.compare_spec (byte_val y) (byte_val z)) as [E2|L2|G2]; try done; intros H1 H2.
  - rewrite E1, E2, N.compare_refl. by eapply IH.
  - rewrite E1. by rewrite (proj2 (N.compare_lt_iff _ _) L2).
  - rewrite <- E2. by rewrite (proj2 (N.compare_lt_iff _ _) L1).
  - rewrite (proj2 (N.compare_lt_iff _ _)); [done | lia].
Qed.

Lemma str_le_alt s1 s2 : str_le s1 s2 ↔ s1 = s2 ∨ str_cmp s1 s2 = Lt.
Proof.
  unfold str_le. rewrite <- str_cmp_eq. destruct (str_cmp s1 s2); naive_solver.
Qed.

#[export] Instance str_le_total : Total str_le.
Proof.
  intros s1 s2. unfold str_le. rewrite (str_cmp_antisym s1 s2).
  destruct (str_cmp s1 s2); simpl; naive_solver.
Qed.
#[export] Instance str_le_trans : Transitive str_le.
Proof.
  intros s1 s2 s3. rewrite !str_le_alt. intros [->|H1] [->|H2]; auto.
  right. by eapply str_cmp_lt_trans.
Qed.
#[export] Instance str_le_antisymm : AntiSymm (=) str_le.
Proof.
  intros s1 s2. rewrite !str_le_alt. intros [->|H1] [H2|H2]; auto.
  rewrite (str_cmp_antisym s1 s2), H1 in H2. done.
Qed.

Lemma sort_strings_perm l : sort_strings l ≡ₚ l.
Proof. apply merge_sort_Permutation. Qed.
Lemma sort_strings_sorted l : StronglySorted str_le (sort_strings l).
Proof. apply StronglySorted_merge_sort; apply _. Qed.

(** ** Binary search *)

Lemma midpoint_bounds i j : i < j → i ≤ (i + j) / 2 < j.
Proof.
  intros H. pose proof (Nat.div_mod_eq (i + j) 2).
  pose proof (Nat.mod_upper_bound (i + j) 2). lia.
Qed.

Section search.
Context (f : nat → bool).

(** The invariant of the loop: everything left of [i] fails, everything from
    [j] on succeeds. *)
Lemma search_loop_spec fuel i j n :
  (∀ a b, a ≤ b → b < n → f a = true → f b = true) →
  i ≤ j → j ≤ n → j - i ≤ fuel →
  (∀ a, a < i → f a = false) → (∀ a, j ≤ a → a < n → f a = true) →
  let k := search_loop fuel f i j in
  i ≤ k ≤ j ∧ (∀ a, a < k → f a = false) ∧ (∀ a, k ≤ a → a < n → f a = true).
Proof.
  intros Hmono. revert i j. induction fuel as [|fuel IH]; intros i j Hij Hjn Hfuel Hlo Hhi;
    cbn [search_loop].
  - split; [lia|]. split; [done|]. intros a Ha Han. apply Hhi; lia.
  - destruct (Nat.ltb_spec i j) as [Hlt|Hge].
    2:{ split; [lia|]. split; [done|]. intros a Ha Han. apply Hhi; lia. }
    destruct (midpoint_bounds i j Hlt) as [Hh1 Hh2].
    set (h := (i + j) / 2) in *. destruct (f h) eqn:E.
    + destruct (IH i h) as (Hk & Hl & Hr); [lia|lia|lia|done| |].
      { intros a Ha Han. eapply Hmono; [|done|done]. lia. }
      split; [lia|]. split; done.
    + destruct (IH (S h) j) as (Hk & Hl & Hr); [lia|lia|lia| |done|].
      { intros a Ha. destruct (f a) eqn:Ea; [|done].
        rewrite <- E. symmetry. apply (Hmono a h); [lia|lia|done]. }
      split; [lia|]. split; done.
Qed.

(** On a monotone predicate, [sort.Search] returns the first index that
    satisfies it, or [n]. *)
Lemma sort_search_spec n :
  (∀ a b, a ≤ b → b < n → f a = true → f b = true) →
  sort_search n f ≤ n ∧
  (∀ a, a < sort_search n f → f a = false) ∧
  (∀ a, sort_search n f ≤ a → a < n → f a = true).
Proof.
  intros Hmono.
  destruct (search_loop_spec n 0 n n) as (H1 & H2 & H3); [done|lia|lia|lia|lia|lia|].
  split; [apply H1 | done].
Qed.

Lemma sort_search_le n : sort_search n f ≤ n.
Proof.
  unfold sort_search.
  assert (∀ fuel i j, i ≤ n → j ≤ n → search_loop fuel f i j ≤ n) as H; [|apply H; lia].
  induction fuel as [|fuel IH]; intros i j Hi Hj; cbn [search_loop]; [done|].
  destruct (Nat.ltb_spec i j) as [Hlt|]; [|done].
  pose proof (midpoint_bounds i j Hlt).
  case_match; apply IH; lia.
Qed.

End search.

(** The first index is unique. *)
Lemma first_index_unique (f : nat → bool) n k1 k2 :
  k1 ≤ n → k2 ≤ n →
  (∀ a, a < k1 → f a = false) → (∀ a, k1 ≤ a → a < n → f a = true) →
  (∀ a, a < k2 → f a = false) → (∀ a, k2 ≤ a → a < n → f a = true) → k1 = k2.
Proof.
  intros. destruct (lt_eq_lt_dec k1 k2) as [[Hlt|]|Hlt]; [|done|]; exfalso.
  - assert (f k1 = true) by (apply H2; lia). rewrite H3 in *; [done|lia].
  - assert (f k2 = true) by (apply H4; lia). rewrite H1 in *; [done|lia].
Qed.

(** ** White space *)

(** Printable ASCII other than the space: no part of any white space. *)
Definition graphic (b : gobyte) : bool := (32 <? byte_val b)%N && (byte_val b <? 127)%N.

Lemma graphic_no_space b s : graphic b = true →
  list_find (λ e, e `prefix_of` b :: s) space_encodings = None ∧
  list_find (λ e, e `prefix_of` b :: s) (reverse <$> space_encodings) = None.
Proof.
  intros Hb. assert (∀ encs, Forall (λ e, option_map graphic (head e) = Some false) encs →
    list_find (λ e, e `prefix_of` b :: s) encs = None) as H.
  { intros encs He. apply list_find_None. eapply Forall_impl; [exact He|]. intros [|x e] Hx [k Hk]; simplify_eq/=.
    by rewrite Hb in Hx. }
  split; apply H; repeat constructor.
Qed.

Lemma trim_space_graphic s : Forall (λ b, graphic b = true) s → trim_space s = s.
Proof.
  intros Hs. unfold trim_space. assert (strip_front (length s) space_encodings s = s) as ->.
  { destruct Hs as [|b s Hb Hs]; [done|]. simpl length. cbn [strip_front]. by destruct (graphic_no_space b s Hb) as [-> _]. }
  apply Forall_reverse in Hs. rewrite <- (length_reverse s). rewrite <- (reverse_involutive s) at 3.
  f_equal. destruct Hs as [|b r Hb Hr]; [done|].
  simpl length. cbn [strip_front]. by destruct (graphic_no_space b r Hb) as [_ ->].
Qed.

Lemma fields_word fuel w s cur : Forall (λ b, graphic b = true) w → length w ≤ fuel →
  fields_loop fuel (w ++ s) cur = fields_loop (fuel - length w) s (reverse w ++ cur).
Proof.
  intros Hw. revert fuel cur. induction Hw as [|b w Hb Hw IH]; intros fuel cur Hf; simpl.
  { by rewrite Nat.sub_0_r. }
  destruct fuel as [|fuel]; simpl in Hf; [lia|]. cbn [fields_loop].
  destruct (graphic_no_space b (w ++ s) Hb) as [E _]. cbn [app]. rewrite E, IH by lia.
  by rewrite reverse_cons, <- app_assoc.
Qed.

(** Words of printable ASCII joined by spaces come back. *)
Lemma fields_join (ws : list gostring) : Forall (λ w, w ≠ [] ∧ Forall (λ b, graphic b = true) w) ws →
  fields (join_with (byte_of 32) ws) = ws.
Proof.
  intros Hws. unfold fields. assert (∀ fuel, length (join_with (byte_of 32) ws) ≤ fuel →
    fields_loop fuel (join_with (byte_of 32) ws) [] = ws) as H; [|by apply H].
  induction Hws as [|w ws [Hne Hw] Hws IH]; intros fuel Hf; [by destruct fuel|].
  assert (Hfl : ∀ s, flush (reverse s) = match s with [] => [] | _ => [s] end).
  { intros s. destruct s as [|b s]; [done|]. unfold flush. destruct (reverse (b :: s)) eqn:E.
    - apply (f_equal reverse) in E. by rewrite reverse_involutive in E.
    - by rewrite <- E, reverse_involutive. }
  destruct ws as [|w' ws]; simpl in Hf |- *.
  - rewrite <- (app_nil_r w) at 1. rewrite fields_word, app_nil_r by done.
    destruct (fuel - length w); simpl; rewrite Hfl; by destruct w.
  - rewrite length_app in Hf. simpl in Hf. rewrite fields_word, app_nil_r by (done || lia).
    destruct (fuel - length w) as [|n] eqn:En; [lia|]. cbn [fields_loop].
    change (list_find (λ e, e `prefix_of` _) space_encodings)
      with (Some (5, [byte_of 32])). cbn [length drop]. rewrite Hfl, IH by (simpl; lia). by destruct w.
Qed.

(** ** UTF-8 ([unicode/utf8])

    [utf8.Valid]: every lead byte is followed by its continuation bytes; the second
    byte of a sequence is restricted further where overlong forms, surrogates or
    values above U+10FFFF could arise. *)
Definition byte_in (lo hi : N) (b : gobyte) : bool := (lo <=? byte_val b)%N && (byte_val b <=? hi)%N.
Definition utf8_cont : gobyte → bool := byte_in 128 191.
Fixpoint utf8_valid (s : gostring) : bool :=
  match s with
  | [] => true
  | b :: s =>
      if byte_in 0 127 b then utf8_valid s
      else if byte_in 194 223 b then
        match s with b1 :: s => utf8_cont b1 && utf8_valid s | _ => false end
      else if byte_in 224 239 b then
        match s with
        | b1 :: b2 :: s =>
            byte_in (if (byte_val b =? 224)%N then 160 else 128) (if (byte_val b =? 237)%N then 159 else 191) b1 &&
            utf8_cont b2 && utf8_valid s
        | _ => false
        end
      else if byte_in 240 244 b then
        match s with
        | b1 :: b2 :: b3 :: s =>
            byte_in (if (byte_val b =? 240)%N then 144 else 128) (if (byte_val b =? 244)%N then 143 else 191) b1 &&
            utf8_cont b2 && utf8_cont b3 && utf8_valid s
        | _ => false
        end
      else false
  end.
