(* ===== verification/GoNumbers.v ===== *)
(** * Go numbers: integers as text, three-way comparisons, [float64]

    [strconv.Atoi], [fmt]'s [%d] and their round trip, and comparison functions
    that return -1, 0 or 1 ([Lt], [Eq], [Gt]), composed lexicographically. *)

From stdpp Require Import options.
From Stdlib Require Import SpecFloat.
From S2P Require Import Prelude GoStrings.

(** ** Decimal text *)

Definition is_digit (b : gobyte) : bool := byte_leb "0" b && byte_leb b "9".
Definition digit (d : N) : gobyte := byte_of (48 + d).

Definition dec_value (ds : gostring) (v : N) : N :=
  foldl (λ v d, v * 10 + (byte_val d - 48))%N v ds.

(** [strconv.Atoi]: optional sign, decimal digits, within int64; [None] is an
    error. *)
Definition Atoi (s : gostring) : option Z :=
  let '(neg, ds) :=
    match s with
    | b :: r => if decide (b = "-"%char) then (true, r)
                else if decide (b = "+"%char) then (false, r) else (false, s)
    | [] => (false, [])
    end in
  if bool_decide (ds = []) || negb (forallb is_digit ds) then None
  else
    let v := Z.of_N (dec_value ds 0) in
    if neg then if (v <=? 2 ^ 63)%Z then Some (- v)%Z else None
    else if (v <? 2 ^ 63)%Z then Some v else None.

Fixpoint print_loop (fuel : nat) (n : N) (acc : gostring) : gostring :=
  match fuel with
  | O => acc
  | S fuel => if (n <? 10)%N then digit n :: acc
              else print_loop fuel (n / 10) (digit (n mod 10) :: acc)
  end.
(** Each division by ten takes off at least one bit, so [log2 n + 1] rounds are
    enough. *)
Definition print_N (n : N) : gostring := print_loop (S (N.to_nat (N.log2 n))) n [].
Definition print_Z (z : Z) : gostring :=
  if (z <? 0)%Z then "-"%char :: print_N (Z.to_N (- z)) else print_N (Z.to_N z).

Lemma digit_value d : (d < 10)%N → (byte_val (digit d) - 48 = d)%N ∧ is_digit (digit d) = true.
Proof.
  intros Hd. unfold digit. rewrite byte_val_of, N.mod_small by lia. split; [lia|].
  unfold is_digit. rewrite andb_true_iff, !byte_leb_spec. unfold byte_le.
  rewrite byte_val_of, N.mod_small by lia. vm_compute (byte_val "0"). vm_compute (byte_val "9"). lia.
Qed.

Lemma print_loop_spec fuel n acc :
  (n < 2 ^ N.of_nat fuel)%N → Forall (λ b, is_digit b = true) acc →
  dec_value (print_loop fuel n acc) 0 = dec_value acc n ∧
  Forall (λ b, is_digit b = true) (print_loop fuel n acc) ∧
  (acc ≠ [] ∨ 0 < fuel → print_loop fuel n acc ≠ []).
Proof.
  revert n acc. induction fuel as [|fuel IH]; intros n acc Hn Hacc; simpl.
  { assert (n = 0)%N as -> by (simpl in Hn; lia). split; [done|]. split; [done|]. intros [?|?]; [done|lia]. }
  destruct (N.ltb_spec n 10).
  - destruct (digit_value n) as [E Hd]; [done|]. split; [|split; [by constructor|done]].
    unfold dec_value. simpl. f_equal. lia.
  - destruct (digit_value (n mod 10)) as [E Hd]; [by apply N.mod_lt|].
    destruct (IH (n / 10)%N (digit (n mod 10) :: acc)) as (H1 & H2 & H3).
    + apply N.Div0.div_lt_upper_bound. rewrite Nat2N.inj_succ, N.pow_succ_r' in Hn. lia.
    + by constructor.
    + split; [|split; [done|intros _; apply H3; by left]]. rewrite H1. unfold dec_value. simpl. f_equal.
      rewrite E. pose proof (N.div_mod n 10). lia.
Qed.

Lemma print_N_spec n :
  dec_value (print_N n) 0 = n ∧ Forall (λ b, is_digit b = true) (print_N n) ∧ print_N n ≠ [].
Proof.
  destruct (print_loop_spec (S (N.to_nat (N.log2 n))) n []) as (H1 & H2 & H3).
  - rewrite Nat2N.inj_succ, N2Nat.id. destruct (N.eq_dec n 0) as [->|]; [done|].
    apply N.log2_spec. lia.
  - constructor.
  - split; [done|]. split; [done|]. apply H3. right. lia.
Qed.

Lemma is_digit_not b c : is_digit b = true → is_digit c = false → b ≠ c.
Proof. congruence. Qed.

(** Printing then reading gives the number back. *)
Lemma Atoi_print z : (0 ≤ z < 2 ^ 63)%Z → Atoi (print_Z z) = Some z.
Proof.
  intros Hz. unfold print_Z. rewrite (proj2 (Z.ltb_ge z 0)) by lia.
  destruct (print_N_spec (Z.to_N z)) as (Hv & Hd & Hne). unfold Atoi.
  destruct (print_N (Z.to_N z)) as [|b r] eqn:E; [done|].
  pose proof Hd as [Hb _]%Forall_cons.
  rewrite !decide_False by (by eapply is_digit_not).
  rewrite bool_decide_false by done. rewrite orb_false_l.
  assert (forallb is_digit (b :: r) = true) as ->.
  { apply forallb_forall. intros x Hx. rewrite Forall_forall in Hd. apply Hd. by apply list_elem_of_In. }
  simpl negb. cbv iota. rewrite Hv, Z2N.id by lia. by rewrite (proj2 (Z.ltb_lt _ _)) by lia.
Qed.

Lemma print_Z_digits z : (0 ≤ z)%Z → Forall (λ b, is_digit b = true) (print_Z z).
Proof.
  intros Hz. unfold print_Z. rewrite (proj2 (Z.ltb_ge z 0)) by lia. apply print_N_spec.
Qed.
Lemma print_Z_ne z : print_Z z ≠ [].
Proof. unfold print_Z. case_match; [done|]. apply print_N_spec. Qed.

(** ** Three-way comparisons *)

(** [f] compares the elements that satisfy [P] consistently. *)
Class ThreeWay {A} (P : A → Prop) (f : A → A → comparison) : Prop := {
  tw_antisym x y : P x → P y → f y x = CompOpp (f x y);
  tw_eq x y z : P x → P y → P z → f x y = Eq → f x z = f y z;
  tw_trans x y z : P x → P y → P z → f x y = Lt → f y z = Lt → f x z = Lt;
}.

Definition lex_cmp {A} (f g : A → A → comparison) (x y : A) : comparison :=
  match f x y with Eq => g x y | o => o end.

Section threeway.
Context {A : Type} (P : A → Prop).
Implicit Types (f g : A → A → comparison).

Lemma tw_refl f `{!ThreeWay P f} x : P x → f x x = Eq.
Proof. intros Hx. pose proof (tw_antisym x x Hx Hx) as E. by destruct (f x x). Qed.

Lemma tw_eq_r f `{!ThreeWay P f} x y z : P x → P y → P z → f x y = Eq → f z x = f z y.
Proof. intros Hx Hy Hz E. rewrite (tw_antisym x z), (tw_antisym y z) by done. by rewrite (tw_eq x y z). Qed.

Lemma tw_eq_sym f `{!ThreeWay P f} x y : P x → P y → f x y = Eq → f y x = Eq.
Proof. intros Hx Hy E. by rewrite (tw_antisym x y), E. Qed.

(** At most, as [<= 0]. *)
Lemma tw_le_trans f `{!ThreeWay P f} x y z :
  P x → P y → P z → f x y ≠ Gt → f y z ≠ Gt → f x z ≠ Gt.
Proof.
  intros Hx Hy Hz H1 H2. destruct (f x y) eqn:E1; [| |done].
  - by rewrite (tw_eq x y z).
  - destruct (f y z) eqn:E2; [| |done].
    + by rewrite <- (tw_eq_r f y z x), E1.
    + by rewrite (tw_trans x y z).
Qed.

#[export] Instance lex_threeway f g : ThreeWay P f → ThreeWay P g → ThreeWay P (lex_cmp f g).
Proof.
  intros Hf Hg. split; unfold lex_cmp.
  - intros x y Hx Hy. rewrite (tw_antisym (f:=f) x y) by done. destruct (f x y); simpl; [|done..].
    by apply (tw_antisym (f:=g)).
  - intros x y z Hx Hy Hz. destruct (f x y) eqn:E; [|done..]. intros Eg.
    rewrite (tw_eq (f:=f) x y z) by done. destruct (f y z); [|done..]. by apply (tw_eq (f:=g)).
  - intros x y z Hx Hy Hz. destruct (f x y) eqn:E1; [| |done].
    + rewrite (tw_eq (f:=f) x y z) by done. intros Eg. destruct (f y z); [|done..].
      by apply (tw_trans (f:=g)).
    + intros _. destruct (f y z) eqn:E2; [| |done].
      * rewrite <- (tw_eq_r f y z x), E1 by done. done.
      * intros _. by rewrite (tw_trans (f:=f) x y z).
Qed.

Lemma Z_threeway (key : A → Z) : ThreeWay P (λ x y, Z.compare (key x) (key y)).
Proof.
  split.
  - intros x y _ _. apply Z.compare_antisym.
  - intros x y z _ _ _ E%Z.compare_eq. by rewrite E.
  - intros x y z _ _ _. rewrite !Z.compare_lt_iff. lia.
Qed.

Lemma str_threeway (key : A → gostring) : ThreeWay P (λ x y, str_cmp (key x) (key y)).
Proof.
  split.
  - intros x y _ _. apply str_cmp_antisym.
  - intros x y z _ _ _ E%str_cmp_eq. by rewrite E.
  - intros x y z _ _ _. apply str_cmp_lt_trans.
Qed.

(** Lists, the shorter first when one is a prefix of the other. *)
Fixpoint list_cmp f (l k : list A) : comparison :=
  match l, k with
  | [], [] => Eq
  | [], _ :: _ => Lt
  | _ :: _, [] => Gt
  | x :: l, y :: k => match f x y with Eq => list_cmp f l k | o => o end
  end.

Lemma list_threeway f : ThreeWay P f → ThreeWay (Forall P) (list_cmp f).
Proof.
  intros Hf. split.
  - intros l k Hl. revert k. induction Hl as [|x l Hx Hl IH]; intros [|y k] Hk; try done.
    apply Forall_cons in Hk as [Hy Hk]. simpl. rewrite (tw_antisym x y) by done.
    destruct (f x y); simpl; auto.
  - intros l k m Hl. revert k m. induction Hl as [|x l Hx Hl IH]; intros [|y k] m Hk Hm; try done.
    apply Forall_cons in Hk as [Hy Hk]. simpl. destruct (f x y) eqn:E; try done. intros El.
    destruct m as [|z m]; [done|]. apply Forall_cons in Hm as [Hz Hm].
    rewrite (tw_eq x y z) by done. destruct (f y z); auto.
  - intros l k m Hl. revert k m. induction Hl as [|x l Hx Hl IH]; intros [|y k] [|z m] Hk Hm; try done.
    apply Forall_cons in Hk as [Hy Hk]. apply Forall_cons in Hm as [Hz Hm]. simpl.
    destruct (f x y) eqn:E1; [| |done].
    + rewrite (tw_eq (f:=f) x y z) by done. destruct (f y z); eauto; done.
    + intros _. destruct (f y z) eqn:E2; [| |done].
      * by rewrite <- (tw_eq_r f y z x), E1.
      * by rewrite (tw_trans (f:=f) x y z).
Qed.

Lemma threeway_ext f g : (∀ x y, P x → P y → f x y = g x y) → ThreeWay P g → ThreeWay P f.
Proof.
  intros E Hg. split.
  - intros x y Hx Hy. rewrite !E by done. by apply tw_antisym.
  - intros x y z Hx Hy Hz. rewrite !E by done. by apply tw_eq.
  - intros x y z Hx Hy Hz. rewrite !E by done. by apply tw_trans.
Qed.

End threeway.

Lemma threeway_map {A B} (P : A → Prop) (Q : B → Prop) (key : A → B) (f : B → B → comparison) :
  (∀ x, P x → Q (key x)) → ThreeWay Q f → ThreeWay P (λ x y, f (key x) (key y)).
Proof.
  intros HPQ Hf. split.
  - intros x y Hx Hy. apply tw_antisym; auto.
  - intros x y z Hx Hy Hz. apply tw_eq; auto.
  - intros x y z Hx Hy Hz. apply tw_trans; auto.
Qed.

(** ** [float64]

    IEEE binary64 numbers are the Standard Library's [SpecFloat] values with 53
    bits of precision. The comparison operators of the language are decided by one
    three-way comparison, which is consistent on everything but NaN. *)

Abbreviation float64 := spec_float (only parsing).

(** The conversion [float64(n)] of an integer, rounded to nearest even. *)
Definition float_of_Z (n : Z) : float64 := binary_normalize 53 1024 n 0 false.
Definition float_add (x y : float64) : float64 := SFadd 53 1024 x y.
Definition float_sub (x y : float64) : float64 := SFsub 53 1024 x y.
Definition float_mul (x y : float64) : float64 := SFmul 53 1024 x y.
Definition float_div (x y : float64) : float64 := SFdiv 53 1024 x y.
Definition float_zero : float64 := S754_zero false.

Definition float_ltb (x y : float64) : bool := SFltb x y.
Definition float_leb (x y : float64) : bool := SFleb x y.
Definition float_eqb (x y : float64) : bool := SFeqb x y.
Definition float_geb (x y : float64) : bool := SFleb y x.
Definition float_gtb (x y : float64) : bool := SFltb y x.

(** [math.IsNaN(x)] and [math.IsInf(x, 0)]. *)
Definition float_isNaN (x : float64) : bool := match x with S754_nan => true | _ => false end.
Definition float_isInf (x : float64) : bool :=
  match x with S754_infinity _ => true | _ => false end.

#[export] Instance float64_eq_dec : EqDecision spec_float.
Proof. solve_decision. Defined.

Definition not_nan (x : float64) : Prop := x ≠ S754_nan.

(** *** The order of floats *)

Definition float_cmp (x y : float64) : comparison := default Eq (SFcompare x y).

(** Sign and class, then exponent, then mantissa. *)
Definition sgn (s : bool) (z : Z) : Z := if s then (- z)%Z else z.
Definition float_class (x : float64) : Z :=
  match x with
  | S754_zero _ | S754_nan => 0
  | S754_infinity s => sgn s 2
  | S754_finite s _ _ => sgn s 1
  end.
Definition float_exp (x : float64) : Z :=
  match x with S754_finite s _ e => sgn s e | _ => 0 end.
Definition float_man (x : float64) : Z :=
  match x with S754_finite s m _ => sgn s (Z.pos m) | _ => 0 end.

#[export] Instance float_threeway : ThreeWay not_nan float_cmp.
Proof.
  apply (threeway_ext _ _ (lex_cmp (λ x y, Z.compare (float_class x) (float_class y))
    (lex_cmp (λ x y, Z.compare (float_exp x) (float_exp y))
       (λ x y, Z.compare (float_man x) (float_man y))))).
  - intros [s| s| |s m e] [s'| s'| |s' m' e'] Hx Hy; try done; try (by destruct s); try (by destruct s');
      try (by destruct s, s').
    unfold float_cmp, lex_cmp, float_class, float_exp, float_man. simpl. destruct s, s'; simpl; try done.
    rewrite Z.compare_opp, (Z.compare_antisym e' e). by destruct (e' ?= e)%Z.
  - apply lex_threeway; [|apply lex_threeway]; apply Z_threeway.
Qed.

Section order.
Implicit Types x y z : float64.

Lemma SFcompare_cmp x y : not_nan x → not_nan y → SFcompare x y = Some (float_cmp x y).
Proof. unfold float_cmp, not_nan. destruct x, y; done. Qed.

Lemma float_ltb_cmp x y : not_nan x → not_nan y → float_ltb x y = true ↔ float_cmp x y = Lt.
Proof. intros Hx Hy. unfold float_ltb, SFltb. rewrite SFcompare_cmp by done. by destruct (float_cmp x y). Qed.
Lemma float_leb_cmp x y : not_nan x → not_nan y → float_leb x y = true ↔ float_cmp x y ≠ Gt.
Proof. intros Hx Hy. unfold float_leb, SFleb. rewrite SFcompare_cmp by done. by destruct (float_cmp x y). Qed.
Lemma float_eqb_cmp x y : not_nan x → not_nan y → float_eqb x y = true ↔ float_cmp x y = Eq.
Proof. intros Hx Hy. unfold float_eqb, SFeqb. rewrite SFcompare_cmp by done. by destruct (float_cmp x y). Qed.

Lemma float_cmp_gt_lt x y : not_nan x → not_nan y → float_cmp x y = Gt ↔ float_cmp y x = Lt.
Proof. intros Hx Hy. rewrite (tw_antisym (f:=float_cmp) x y) by done. by destruct (float_cmp x y). Qed.
End order.
