(* ===== verification/GoTime.v ===== *)
(** * Go's [time] package: the calendar and durations

    An instant is a number of seconds since the zero [time.Time], 1 January of
    year 1 at midnight UTC, in the proleptic Gregorian calendar; a wall clock is an
    instant shifted by the zone's offset. [time.Date] normalises its arguments, so
    every field but year and month enters linearly. *)

From stdpp Require Import options.
From S2P Require Import Prelude GoStrings GoNumbers.
#[local] Open Scope Z_scope.

(** ** Days, months and years *)

Definition isLeap (y : Z) : bool :=
  (y mod 4 =? 0) && (negb (y mod 100 =? 0) || (y mod 400 =? 0)).

(** The days before 1 January of year [y]. *)
Definition daysBeforeYear (y : Z) : Z :=
  let n := y - 1 in 365 * n + n / 4 - n / 100 + n / 400.

(** The days of a year before the first of month [m], 1 to 13. *)
Definition daysBeforeMonth (leap : bool) (m : Z) : Z :=
  let l := if leap then 1 else 0 in
  if m <=? 1 then 0 else if m <=? 2 then 31
  else l + (if m <=? 3 then 59 else if m <=? 4 then 90 else if m <=? 5 then 120 else if m <=? 6 then 151
            else if m <=? 7 then 181 else if m <=? 8 then 212 else if m <=? 9 then 243
            else if m <=? 10 then 273 else if m <=? 11 then 304 else if m <=? 12 then 334 else 365).

(** The average year has 146097/400 days; the estimate is at most one too low. *)
Definition yearOf (d : Z) : Z :=
  let y := d * 400 / 146097 + 1 in
  if daysBeforeYear (y + 1) <=? d then y + 1 else y.

Fixpoint monthFrom (leap : bool) (yd : Z) (m : Z) (fuel : nat) : Z :=
  match fuel with
  | O => m
  | S fuel => if yd <? daysBeforeMonth leap (m + 1) then m else monthFrom leap yd (m + 1) fuel
  end.
Definition monthOf (d : Z) : Z :=
  let y := yearOf d in monthFrom (isLeap y) (d - daysBeforeYear y) 1 11.

Definition dayStart (y m : Z) : Z := daysBeforeYear y + daysBeforeMonth (isLeap y) m.

(** ** Instants *)

Definition secondsPerDay : Z := 86400.
Definition dayOf (t : Z) : Z := t / secondsPerDay.
Definition Year (t : Z) : Z := yearOf (dayOf t).
Definition Month (t : Z) : Z := monthOf (dayOf t).
Definition Day (t : Z) : Z := dayOf t - dayStart (Year t) (Month t) + 1.
(** The zero time is a Monday; Sunday is 0. *)
Definition Weekday (t : Z) : Z := (dayOf t + 1) mod 7.
Definition Hour (t : Z) : Z := t mod secondsPerDay / 3600.
Definition Minute (t : Z) : Z := t mod 3600 / 60.
Definition Second (t : Z) : Z := t mod 60.

(** [time.Date(year, month, day, hour, min, sec, 0, time.UTC)] *)
Definition Date (year month day hour min sec : Z) : Z :=
  let y := year + (month - 1) / 12 in
  let m := (month - 1) mod 12 + 1 in
  (dayStart y m + (day - 1)) * secondsPerDay + hour * 3600 + min * 60 + sec.

(** [t.AddDate(years, months, days)] *)
Definition AddDate (years months days t : Z) : Z :=
  Date (Year t + years) (Month t + months) (Day t + days) (Hour t) (Minute t) (Second t).

(** ** Durations *)

Definition Microsecond : Z := 1000.
Definition Millisecond : Z := 1000 * 1000.
Definition nanosPerSecond : Z := 1000 * 1000 * 1000.

(** [uint64(x)] of a finite float that fits: the fraction is cut off. *)
Definition float_trunc (x : float64) : Z :=
  match x with
  | SpecFloat.S754_finite neg m e =>
      let a := if e <? 0 then Z.pos m / 2 ^ (- e) else Z.pos m * 2 ^ e in if neg then - a else a
  | _ => 0
  end.

Definition digitVal (c : gobyte) : Z := Z.of_N (byte_val c) - 48.

(** Digits up to the first other byte; [None] is an overflow past [2^63]. *)
Fixpoint leadingInt (s : gostring) (x : Z) : option (Z * gostring) :=
  match s with
  | c :: r =>
      if is_digit c then
        if 2 ^ 63 / 10 <? x then None
        else let x := x * 10 + digitVal c in
             if 2 ^ 63 <? x then None else leadingInt r x
      else Some (x, s)
  | [] => Some (x, [])
  end.

Fixpoint leadingFraction (s : gostring) (x : Z) (scale : float64) (overflow : bool) : Z * float64 * gostring :=
  match s with
  | c :: r =>
      if is_digit c then
        if overflow then leadingFraction r x scale true
        else if (2 ^ 63 - 1) / 10 <? x then leadingFraction r x scale true
        else let y := x * 10 + digitVal c in
             if 2 ^ 63 <? y then leadingFraction r x scale true
             else leadingFraction r y (float_mul scale (float_of_Z 10)) false
      else (x, scale, s)
  | [] => (x, scale, [])
  end.

(** The unit name runs to the next digit or point. *)
Fixpoint leadingUnit (s : gostring) : gostring * gostring :=
  match s with
  | c :: r => if bool_decide (c = "."%char) || is_digit c then ([], s)
              else let '(u, r) := leadingUnit r in (c :: u, r)
  | [] => ([], [])
  end.
Definition unitMap (u : gostring) : option Z :=
  if decide (u = str "ns") then Some 1
  else if decide (u = str "us" ∨ u = [byte_of 194; byte_of 181; "s"%char] ∨ u = [byte_of 206; byte_of 188; "s"%char])
  then Some Microsecond
  else if decide (u = str "ms") then Some Millisecond
  else if decide (u = str "s") then Some nanosPerSecond
  else if decide (u = str "m") then Some (60 * nanosPerSecond)
  else if decide (u = str "h") then Some (3600 * nanosPerSecond)
  else None.

(** One number with its unit, in nanoseconds, and the rest of the text. *)
Definition durationPart (s : gostring) : option (Z * gostring) :=
  '(v, s1) ← leadingInt s 0;
  let pre := negb (bool_decide (length s1 = length s)) in
  let '(f, scale, s2, post) :=
    match s1 with
    | c :: r => if decide (c = "."%char) then
                  let '(f, scale, r') := leadingFraction r 0 (float_of_Z 1) false in
                  (f, scale, r', negb (bool_decide (length r' = length r)))
                else (0, float_of_Z 1, s1, false)
    | [] => (0, float_of_Z 1, s1, false)
    end in
  if negb pre && negb post then None
  else
    let '(u, rest) := leadingUnit s2 in
    if decide (u = []) then None
    else
      unit ← unitMap u;
      if 2 ^ 63 / unit <? v then None
      else
        let v := v * unit in
        if 0 <? f then
          let v := v + float_trunc (float_mul (float_of_Z f) (float_div (float_of_Z unit) scale)) in
          if 2 ^ 63 <? v then None else Some (v, rest)
        else Some (v, rest).

(** Every part takes at least one byte, so the length of the text is enough fuel. *)
Fixpoint durationParts (fuel : nat) (s : gostring) (d : Z) : option Z :=
  match fuel, s with
  | _, [] => Some d
  | S fuel, c :: _ =>
      if bool_decide (c = "."%char) || is_digit c then
        '(v, rest) ← durationPart s;
        let d := d + v in
        if 2 ^ 63 <? d then None else durationParts fuel rest d
      else None
  | O, _ => None
  end.

(** [time.ParseDuration]; [None] is an error. *)
Definition ParseDuration (s : gostring) : option Z :=
  let '(neg, s) :=
    match s with
    | c :: r => if decide (c = "-"%char) then (true, r) else if decide (c = "+"%char) then (false, r) else (false, s)
    | [] => (false, s)
    end in
  if decide (s = str "0") then Some 0
  else if decide (s = []) then None
  else
    d ← durationParts (length s) s 0;
    if neg then Some (- d) else if 2 ^ 63 - 1 <? d then None else Some d.

(** [fmtFrac] and [Duration.String]: the text is built from its end, [acc]. *)
Fixpoint fmtFrac (prec : nat) (v : Z) (print : bool) (acc : gostring) : gostring * Z :=
  match prec with
  | O => (if print then "."%char :: acc else acc, v)
  | S prec =>
      let d := v mod 10 in
      let print := print || negb (d =? 0) in
      fmtFrac prec (v / 10) print (if print then digit (Z.to_N d) :: acc else acc)
  end.
Definition DurationString (d : Z) : gostring :=
  let u := Z.abs d in
  let body :=
    if u <? nanosPerSecond then
      if u =? 0 then str "0s"
      else
        let '(prec, unit) :=
          if u <? Microsecond then (0%nat, str "ns")
          else if u <? Millisecond then (3%nat, [byte_of 194; byte_of 181; "s"%char])
          else (6%nat, str "ms") in
        let '(acc, v) := fmtFrac prec u false unit in print_Z v ++ acc
    else
      let '(acc, secs) := fmtFrac 9 u false (str "s") in
      let acc := print_Z (secs mod 60) ++ acc in
      let mins := secs / 60 in
      if 0 <? mins then
        let acc := print_Z (mins mod 60) ++ "m"%char :: acc in
        let hours := mins / 60 in
        if 0 <? hours then print_Z hours ++ "h"%char :: acc else acc
      else acc in
  if d <? 0 then "-"%char :: body else body.

(** ** Facts *)

Ltac euclid := Z.to_euclidean_division_equations; lia.

(** Years against their average length. *)
Lemma daysBeforeYear_bounds y :
  146097 * (y - 1) - 591 ≤ 400 * daysBeforeYear y ≤ 146097 * (y - 1) + 288.
Proof.
  unfold daysBeforeYear. set (n := y - 1). clearbody n.
  pose proof (Z.div_mod n 400 ltac:(lia)) as E. pose proof (Z.mod_pos_bound n 400 ltac:(lia)) as Hr.
  set (q := n / 400) in *. set (r := n mod 400) in *. clearbody q r. subst n.
  replace ((400 * q + r) / 4) with (100 * q + r / 4) by euclid.
  replace ((400 * q + r) / 100) with (4 * q + r / 100) by euclid. euclid.
Qed.

Lemma daysBeforeYear_succ y : daysBeforeYear (y + 1) = daysBeforeYear y + (if isLeap y then 366 else 365).
Proof.
  unfold daysBeforeYear, isLeap. replace (y + 1 - 1) with y by lia.
  destruct (y mod 4 =? 0) eqn:E4; destruct (y mod 100 =? 0) eqn:E1; destruct (y mod 400 =? 0) eqn:E2;
    simpl; unbool; euclid.
Qed.

Lemma daysBeforeYear_mono y1 y2 : y1 ≤ y2 → daysBeforeYear y1 ≤ daysBeforeYear y2.
Proof. unfold daysBeforeYear. intros. euclid. Qed.

Lemma yearOf_bounds d : daysBeforeYear (yearOf d) ≤ d < daysBeforeYear (yearOf d + 1).
Proof.
  unfold yearOf. set (y := d * 400 / 146097 + 1).
  assert (146097 * (y - 1) ≤ 400 * d < 146097 * y) as Hy by (unfold y; euclid). clearbody y.
  pose proof (daysBeforeYear_bounds y). pose proof (daysBeforeYear_bounds (y + 1)).
  pose proof (daysBeforeYear_bounds (y + 1 + 1)).
  destruct (daysBeforeYear (y + 1) <=? d) eqn:E; unbool; lia.
Qed.

Lemma yearOf_unique d y : daysBeforeYear y ≤ d < daysBeforeYear (y + 1) → yearOf d = y.
Proof.
  intros H. pose proof (yearOf_bounds d).
  assert (¬ yearOf d + 1 ≤ y) by (intros Hc%daysBeforeYear_mono; lia).
  assert (¬ y + 1 ≤ yearOf d) by (intros Hc%daysBeforeYear_mono; lia). lia.
Qed.

Lemma monthFrom_spec leap yd m fuel : daysBeforeMonth leap m ≤ yd →
  let r := monthFrom leap yd m fuel in
  m ≤ r ≤ m + Z.of_nat fuel ∧ daysBeforeMonth leap r ≤ yd ∧
  (r < m + Z.of_nat fuel → yd < daysBeforeMonth leap (r + 1)).
Proof.
  revert m. induction fuel as [|fuel IH]; intros m Hm; cbn [monthFrom]; [lia|].
  destruct (yd <? daysBeforeMonth leap (m + 1)) eqn:E; unbool; [lia|]. specialize (IH (m + 1) E). cbv zeta in IH.
  destruct IH as (? & ? & ?). split_and!; [lia..|]. intros. lia.
Qed.

Lemma daysBeforeMonth_13 leap : daysBeforeMonth leap (12 + 1) = if leap then 366 else 365.
Proof. by destruct leap. Qed.

Lemma daysBeforeMonth_mono leap a b : 1 ≤ a → a ≤ b → b ≤ 13 → daysBeforeMonth leap a ≤ daysBeforeMonth leap b.
Proof.
  intros Ha Hab. pattern b. apply Zlt_lower_bound_ind with (z := a); [|done]. clear b Hab.
  intros b IH Hab Hb. destruct (decide (b = a)) as [->|]; [done|].
  etrans; [apply (IH (b - 1)); lia|]. assert (2 ≤ b) as H2 by lia. clear IH Hab Ha n a.
  assert (b = 2 ∨ b = 3 ∨ b = 4 ∨ b = 5 ∨ b = 6 ∨ b = 7 ∨ b = 8 ∨ b = 9 ∨ b = 10 ∨ b = 11 ∨ b = 12 ∨ b = 13)
    as Hcases by lia.
  by destruct leap; destruct_or! Hcases; subst b.
Qed.

Lemma monthOf_bounds d : 1 ≤ monthOf d ≤ 12 ∧
  dayStart (yearOf d) (monthOf d) ≤ d < daysBeforeYear (yearOf d) + daysBeforeMonth (isLeap (yearOf d)) (monthOf d + 1).
Proof.
  unfold dayStart. pose proof (yearOf_bounds d) as Hy. rewrite daysBeforeYear_succ in Hy.
  set (y := yearOf d) in *.
  destruct (monthFrom_spec (isLeap y) (d - daysBeforeYear y) 1 11) as (H1 & H2 & H3); [cbn; lia|].
  change (monthFrom _ _ _ _) with (monthOf d) in *. split; [lia|]. split; [lia|].
  destruct (decide (monthOf d = 12)) as [->|]; [|lia]. rewrite daysBeforeMonth_13. lia.
Qed.

Lemma dayStart_eq y m : dayStart y m = daysBeforeYear y + daysBeforeMonth (isLeap y) m.
Proof. reflexivity. Qed.

Lemma monthOf_unique d m : 1 ≤ m ≤ 12 → dayStart (yearOf d) m ≤ d →
  d < daysBeforeYear (yearOf d) + daysBeforeMonth (isLeap (yearOf d)) (m + 1) → monthOf d = m.
Proof.
  intros Hm H1 H2. destruct (monthOf_bounds d) as (Hb & Hl & Hu). rewrite dayStart_eq in *.
  pose proof (daysBeforeMonth_mono (isLeap (yearOf d))) as Hmono.
  destruct (Z.lt_trichotomy (monthOf d) m) as [?|[?|?]]; [|assumption|].
  - specialize (Hmono (monthOf d + 1) m). lia.
  - specialize (Hmono (m + 1) (monthOf d)). lia.
Qed.

(** ** Moving along the calendar *)

Lemma Hour_bounds t : 0 ≤ Hour t < 24.
Proof. unfold Hour, secondsPerDay. euclid. Qed.
Lemma Minute_bounds t : 0 ≤ Minute t < 60.
Proof. unfold Minute. euclid. Qed.
Lemma Second_bounds t : 0 ≤ Second t < 60.
Proof. unfold Second. euclid. Qed.

(** The clock fields determine the time of day. *)
Lemma clock_split t : t = dayOf t * 86400 + Hour t * 3600 + Minute t * 60 + Second t.
Proof. unfold dayOf, Hour, Minute, Second, secondsPerDay. euclid. Qed.
Lemma clock_fields d h m s : 0 ≤ h < 24 → 0 ≤ m < 60 → 0 ≤ s < 60 →
  let t := d * 86400 + h * 3600 + m * 60 + s in dayOf t = d ∧ Hour t = h ∧ Minute t = m ∧ Second t = s.
Proof. intros ? ? ? t. unfold t, dayOf, Hour, Minute, Second, secondsPerDay. split_and!; euclid. Qed.

(** [time.Date] on the date of [t] moves within the day of [t]. *)
Lemma Date_same_month t day h m s :
  Date (Year t) (Month t) (Day t + day) h m s = (dayOf t + day) * 86400 + h * 3600 + m * 60 + s.
Proof.
  unfold Date. destruct (monthOf_bounds (dayOf t)) as [Hm _]. fold (Month t) in Hm.
  rewrite Z.div_small, Z.mod_small by lia. replace (Month t - 1 + 1) with (Month t) by lia.
  rewrite Z.add_0_r. unfold Day, secondsPerDay. lia.
Qed.

(** The first of the next month. *)
Definition nextMonth (d : Z) : Z :=
  daysBeforeYear (yearOf d) + daysBeforeMonth (isLeap (yearOf d)) (monthOf d + 1).

Lemma nextMonth_eq d :
  nextMonth d = daysBeforeYear (yearOf d) + daysBeforeMonth (isLeap (yearOf d)) (monthOf d + 1).
Proof. reflexivity. Qed.

Lemma Date_next_month t : Date (Year t) (Month t + 1) 1 0 0 0 = nextMonth (dayOf t) * 86400.
Proof.
  unfold Date, nextMonth, Year, Month. destruct (monthOf_bounds (dayOf t)) as [Hm _].
  set (y := yearOf (dayOf t)). set (m := monthOf (dayOf t)) in *.
  replace (m + 1 - 1) with m by lia. unfold secondsPerDay, dayStart. destruct (decide (m = 12)) as [->|].
  - change (12 / 12) with 1. change (12 mod 12 + 1) with 1. rewrite daysBeforeYear_succ, daysBeforeMonth_13.
    change (daysBeforeMonth (isLeap (y + 1)) 1) with 0. lia.
  - rewrite Z.div_small, Z.mod_small, (Z.add_0_r y) by lia. lia.
Qed.

Lemma nextMonth_gt d : d < nextMonth d.
Proof. apply monthOf_bounds. Qed.

(** All days up to the first of the next month are in the same month. *)
Lemma same_month d d' : d ≤ d' < nextMonth d → yearOf d' = yearOf d ∧ monthOf d' = monthOf d.
Proof.
  intros H. destruct (monthOf_bounds d) as (Hm & Hl & _). rewrite nextMonth_eq in H. rewrite dayStart_eq in Hl.
  assert (Hy : yearOf d' = yearOf d).
  { apply yearOf_unique. pose proof (yearOf_bounds d) as Hb. rewrite daysBeforeYear_succ in *.
    pose proof (daysBeforeMonth_mono (isLeap (yearOf d)) (monthOf d + 1) (12 + 1)) as Hm13.
    rewrite daysBeforeMonth_13 in Hm13.
    lia. }
  split; [exact Hy|]. apply monthOf_unique; [exact Hm|rewrite Hy, dayStart_eq; lia|rewrite Hy; lia].
Qed.

(** The calendar repeats every 400 years: months, days and weekdays. *)
Lemma isLeap_400 y : isLeap (y + 400) = isLeap y.
Proof.
  unfold isLeap. replace ((y + 400) mod 4) with (y mod 4) by euclid.
  replace ((y + 400) mod 100) with (y mod 100) by euclid. by replace ((y + 400) mod 400) with (y mod 400) by euclid.
Qed.
Lemma daysBeforeYear_400 y : daysBeforeYear (y + 400) = daysBeforeYear y + 146097.
Proof. unfold daysBeforeYear. euclid. Qed.

Lemma yearOf_400 d : yearOf (d + 146097) = yearOf d + 400.
Proof.
  apply yearOf_unique. pose proof (yearOf_bounds d).
  replace (yearOf d + 400 + 1) with (yearOf d + 1 + 400) by lia. rewrite !daysBeforeYear_400. lia.
Qed.
Lemma monthOf_400 d : monthOf (d + 146097) = monthOf d.
Proof.
  destruct (monthOf_bounds d) as (Hm & Hl & Hu). rewrite dayStart_eq in Hl.
  apply monthOf_unique; [exact Hm|..]; rewrite ?dayStart_eq, yearOf_400, isLeap_400, daysBeforeYear_400; lia.
Qed.

Definition cycle : Z := 146097 * 86400.
Lemma cycle_fields t : Month (t + cycle) = Month t ∧ Day (t + cycle) = Day t ∧ Weekday (t + cycle) = Weekday t ∧
  Hour (t + cycle) = Hour t ∧ Minute (t + cycle) = Minute t ∧ Second (t + cycle) = Second t.
Proof.
  assert (dayOf (t + cycle) = dayOf t + 146097) as Ed by (unfold dayOf, cycle, secondsPerDay; euclid).
  unfold Month, Day, Weekday, Year, Month. rewrite Ed, yearOf_400, monthOf_400. split; [done|]. split.
  { unfold dayStart. rewrite isLeap_400, daysBeforeYear_400. lia. }
  split; [euclid|]. unfold Hour, Minute, Second, cycle, secondsPerDay. split_and!; euclid.
Qed.

(** The text forms agree with the package's documentation. *)
Example duration_text :
  ParseDuration (str "1h30m") = Some (5400 * nanosPerSecond) ∧ ParseDuration (str "1.5s") = Some (1500 * Millisecond) ∧
  ParseDuration (str "-2us") = Some (-2000) ∧ ParseDuration (str "5") = None ∧
  DurationString (5400 * nanosPerSecond) = str "1h30m0s" ∧ DurationString (1500 * Millisecond) = str "1.5s".
Proof. vm_compute. done. Qed.
