(* ===== verification/GoBytes.v ===== *)
(** * Bytes on the wire

    Big-endian integers ([encoding/binary]), exact reads from a byte stream
    ([io.ReadFull]) with their two end-of-input errors, and the IEEE CRC-32
    ([hash/crc32]). Used by the key-value engine's files and by the IPC framing. *)

From stdpp Require Import options.
From S2P Require Import Prelude.

(** ** Big-endian integers *)

(** The [k] low bytes of [n], most significant first ([PutUint32], [PutUint64]). *)
Fixpoint be_put (k : nat) (n : N) : gostring :=
  match k with
  | O => []
  | S k => be_put k (n / 256) ++ [byte_of n]
  end.

Definition be_get (bs : gostring) : N := foldl (λ v b, v * 256 + byte_val b)%N 0%N bs.

Lemma be_put_length k n : length (be_put k n) = k.
Proof. revert n. induction k as [|k IH]; intros n; simpl; [done|]. rewrite length_app, IH. simpl. lia. Qed.

Lemma be_get_put k n : (n < 256 ^ N.of_nat k)%N → be_get (be_put k n) = n.
Proof.
  revert n. induction k as [|k IH]; intros n Hn; simpl.
  { simpl in Hn. unfold be_get. simpl. lia. }
  unfold be_get in *. rewrite foldl_app. simpl. rewrite IH, byte_val_of.
  - pose proof (N.div_mod n 256). lia.
  - apply N.Div0.div_lt_upper_bound. rewrite Nat2N.inj_succ, N.pow_succ_r' in Hn. lia.
Qed.

Lemma be_get_bound bs : (be_get bs < 256 ^ N.of_nat (length bs))%N.
Proof.
  unfold be_get. induction bs as [|b bs IH] using rev_ind; [done|].
  rewrite foldl_app, length_app, Nat.add_1_r, Nat2N.inj_succ, N.pow_succ_r'. simpl.
  pose proof (byte_val_bound b). lia.
Qed.

(** [uint32(len)], [uint64(x)] and back ([int64(u)]) for signed values. *)
Definition put_u32 (n : N) : gostring := be_put 4 (n mod 2 ^ 32).
Definition put_i64 (z : Z) : gostring := be_put 8 (Z.to_N (wrapu64 z)).
Definition get_i64 (bs : gostring) : Z := wrap64 (Z.of_N (be_get bs)).

#[global] Arguments put_u32 : simpl never.
#[global] Arguments put_i64 : simpl never.
#[global] Arguments get_i64 : simpl never.
#[global] Arguments be_get : simpl never.

Lemma get_put_u32 n : (n < 2 ^ 32)%N → be_get (put_u32 n) = n.
Proof. intros Hn. unfold put_u32. rewrite N.mod_small by done. by apply be_get_put. Qed.

Lemma get_put_i64 z : is_int64 z → get_i64 (put_i64 z) = z.
Proof.
  intros Hz. unfold get_i64, put_i64, wrapu64. pose proof (Z.mod_pos_bound z (2 ^ 64)) as Hb.
  rewrite be_get_put by (change (256 ^ N.of_nat 8)%N with (Z.to_N (2 ^ 64)); lia).
  rewrite Z2N.id by lia. unfold wrap64. rewrite Z.add_mod_idemp_l by lia.
  by apply wrap64_small.
Qed.

(** ** Reading *)

(** [io.EOF] (nothing left) and [io.ErrUnexpectedEOF] (something left, but not
    enough), or a decoder's own complaint. *)
Inductive readErr := EOF | UnexpectedEOF | BadData.

Definition ReadFull (n : nat) (input : gostring) : result readErr (gostring * gostring) :=
  if n <=? length input then Ok (take n input, drop n input)
  else match input with [] => Err EOF | _ => Err UnexpectedEOF end.

Lemma ReadFull_app x rest n : n = length x → ReadFull n (x ++ rest) = Ok (x, rest).
Proof.
  intros ->. unfold ReadFull. rewrite length_app. rewrite (proj2 (Nat.leb_le _ _)) by lia.
  by rewrite take_app_length, drop_app_length.
Qed.

Lemma ReadFull_ok n input x rest :
  ReadFull n input = Ok (x, rest) → input = x ++ rest ∧ length x = n.
Proof.
  unfold ReadFull. destruct (Nat.leb_spec n (length input)); [|by destruct input].
  intros [= <- <-]. rewrite take_drop, length_take. split; [done|lia].
Qed.

(** ** CRC-32 *)

(** One bit of the reflected algorithm with polynomial 0xEDB88320. *)
Definition crc_bit (c : N) : N :=
  if N.testbit c 0 then N.lxor (N.shiftr c 1) 3988292384 else N.shiftr c 1.
Definition crc_byte (c : N) (b : gobyte) : N := Nat.iter 8 crc_bit (N.lxor c (byte_val b)).
Definition ChecksumIEEE (bs : gostring) : N :=
  N.lxor (foldl crc_byte 4294967295%N bs) 4294967295.

(** The check value of the algorithm. *)
Example crc32_check : ChecksumIEEE (str "123456789") = 3421780262%N.
Proof. vm_compute. reflexivity. Qed.

Lemma lxor_bound a b k : (a < 2 ^ k)%N → (b < 2 ^ k)%N → (N.lxor a b < 2 ^ k)%N.
Proof.
  intros Ha Hb. destruct (N.eq_dec (N.lxor a b) 0) as [->|Hne]; [lia|].
  apply N.log2_lt_pow2; [lia|]. eapply N.le_lt_trans; [apply N.log2_lxor|].
  destruct (N.eq_dec k 0) as [->|Hk].
  { destruct Hne. assert (a = b) as -> by (simpl in *; lia). apply N.lxor_nilpotent. }
  apply N.max_lub_lt; [destruct (N.eq_dec a 0) as [->|]|destruct (N.eq_dec b 0) as [->|]];
    try (simpl; lia); apply N.log2_lt_pow2; lia.
Qed.

Lemma crc_bit_bound c : (c < 2 ^ 32)%N → (crc_bit c < 2 ^ 32)%N.
Proof.
  intros Hc. assert (N.shiftr c 1 < 2 ^ 32)%N.
  { rewrite N.shiftr_div_pow2. eapply N.le_lt_trans; [|done]. apply N.Div0.div_le_upper_bound. lia. }
  unfold crc_bit. case_match; [|done]. by apply lxor_bound.
Qed.

Lemma ChecksumIEEE_bound bs : (ChecksumIEEE bs < 2 ^ 32)%N.
Proof.
  unfold ChecksumIEEE. apply lxor_bound; [|done].
  assert (∀ c, (c < 2 ^ 32)%N → (foldl crc_byte c bs < 2 ^ 32)%N) as H; [|by apply H].
  induction bs as [|b bs IH]; intros c Hc; simpl; [done|]. apply IH. unfold crc_byte.
  assert (N.lxor c (byte_val b) < 2 ^ 32)%N as H0.
  { apply lxor_bound; [done|]. pose proof (byte_val_bound b). lia. }
  revert H0. generalize (N.lxor c (byte_val b)). intros x Hx.
  generalize 8. intros n. induction n as [|n IHn]; simpl; [done|]. by apply crc_bit_bound.
Qed.

(** ** FNV-1a ([hash/fnv.New32a]) *)

Definition fnv32a (data : gostring) : Z :=
  foldl (λ h b, wrapu32 (Z.lxor h (Z.of_N (byte_val b)) * 16777619))%Z 2166136261%Z data.

Lemma fnv32a_bound data : (0 ≤ fnv32a data < 2 ^ 32)%Z.
Proof. unfold fnv32a. destruct data as [|b data] using rev_ind; [done|]. rewrite foldl_app. apply wrapu32_range. Qed.

Example fnv32a_check : fnv32a (str "a") = 3826002220%Z.
Proof. vm_compute. reflexivity. Qed.
