(* ===== verification/GoHeap.v ===== *)
(** * Binary heaps ([container/heap])

    What the program uses of the standard library's heap package: [Push], [Pop] and
    [Remove] over any type with the operations of [heap.Interface]. The operations are a
    class, as the Go interface is; a second class says what they mean on the list of
    elements. The theorems are stated on that list: the operations keep the heap order,
    add or remove one element, and the root is a least one.

    Loops carry the index as fuel: sifting up halves the index, sifting down at least
    doubles it below [n]; out of fuel the loop's own exit condition holds. *)

From stdpp Require Import options.
From S2P Require Import Prelude.

(** [heap.Interface]; the element [Pop] takes off is what the caller keeps. *)
Class HeapInterface (H A : Type) := {
  hLen : H → nat;
  hLess : nat → nat → H → bool;
  hSwap : nat → nat → H → H;
  hPush : A → H → H;
  hPop : H → option (A * H);
}.

Section ops.
Context {H A : Type} {interface : HeapInterface H A}.

Definition parent (j : nat) : nat := (j - 1) / 2.

Fixpoint upLoop (fuel j : nat) (h : H) : H :=
  match fuel with
  | O => h
  | S fuel =>
      let i := parent j in
      if (i =? j) || negb (hLess j i h) then h else upLoop fuel i (hSwap i j h)
  end.
Definition heapUp (j : nat) (h : H) : H := upLoop j j h.

(** The new position of the element and the heap. *)
Fixpoint downLoop (fuel i n : nat) (h : H) : nat * H :=
  match fuel with
  | O => (i, h)
  | S fuel =>
      let j1 := 2 * i + 1 in
      if n <=? j1 then (i, h)
      else
        let j2 := j1 + 1 in
        let j := if (j2 <? n) && hLess j2 j1 h then j2 else j1 in
        if negb (hLess j i h) then (i, h) else downLoop fuel j n (hSwap i j h)
  end.
Definition heapDown (i0 n : nat) (h : H) : bool * H :=
  let '(i, h) := downLoop n i0 n h in (i0 <? i, h).

Definition heapPush (x : A) (h : H) : H :=
  let h := hPush x h in heapUp (hLen h - 1) h.

(** [None] is an index panic: the heap is empty, or the index out of range. *)
Definition heapPop (h : H) : option (A * H) :=
  if hLen h =? 0 then None
  else let n := hLen h - 1 in hPop (heapDown 0 n (hSwap 0 n h)).2.

Definition heapRemove (i : nat) (h : H) : option (A * H) :=
  if hLen h <=? i then None
  else
    let n := hLen h - 1 in
    let h := if n =? i then h
             else let '(moved, h) := heapDown i n (hSwap i n h) in
                  if moved then h else heapUp i h in
    hPop h.
End ops.

(** ** Exchanging two elements of a list *)

Definition exchange {A} (i j : nat) (l : list A) : list A :=
  match l !! i, l !! j with
  | Some x, Some y => <[i := y]> (<[j := x]> l)
  | _, _ => l
  end.

(** Where the element now at [k] was. *)
Definition flip (i j k : nat) : nat := if decide (k = i) then j else if decide (k = j) then i else k.

Section exchange.
Context {A : Type}.
Implicit Types (l : list A).

Lemma exchange_lookup i j l k : i < length l → j < length l → exchange i j l !! k = l !! flip i j k.
Proof.
  intros Hi Hj. unfold exchange, flip.
  destruct (lookup_lt_is_Some_2 l i Hi) as [x Ex], (lookup_lt_is_Some_2 l j Hj) as [y Ey]. rewrite Ex, Ey.
  destruct (decide (k = i)) as [->|Hki]; [by rewrite list_lookup_insert_eq by (by rewrite length_insert)|].
  rewrite list_lookup_insert_ne by done.
  destruct (decide (k = j)) as [->|]; [by rewrite list_lookup_insert_eq|by rewrite list_lookup_insert_ne].
Qed.

Lemma exchange_length i j l : length (exchange i j l) = length l.
Proof. unfold exchange. repeat case_match; rewrite ?length_insert; done. Qed.

Lemma exchange_perm i j l : exchange i j l ≡ₚ l.
Proof.
  unfold exchange. destruct (l !! i) as [x|] eqn:Ei, (l !! j) as [y|] eqn:Ej; try done.
  destruct (decide (i = j)) as [->|Hij].
  { simplify_eq. rewrite list_insert_insert_eq, list_insert_id; done. }
  apply Permutation_inj. split; [by rewrite !length_insert|].
  exists (flip i j). split.
  - intros a b. unfold flip. repeat case_decide; lia.
  - intros k. pose proof (lookup_lt_Some _ _ _ Ei). pose proof (lookup_lt_Some _ _ _ Ej).
    pose proof (exchange_lookup i j l k) as E. unfold exchange in E. rewrite Ei, Ej in E. rewrite E by done. done.
Qed.
End exchange.

(** ** What the operations mean *)

(** [lt] orders elements; ties are allowed. *)
Class WeakOrder {A} (lt : A → A → bool) : Prop := {
  lt_asym x y : lt x y = true → lt y x = false;
  nlt_trans x y z : lt y x = false → lt z y = false → lt z x = false;
}.

Class HeapLaws {H A} `{!HeapInterface H A} (lt : A → A → bool) (cells : H → list A) : Prop := {
  hLen_cells h : hLen h = length (cells h);
  hLess_cells i j h x y : cells h !! i = Some x → cells h !! j = Some y → hLess i j h = lt x y;
  hSwap_cells i j h : i < length (cells h) → j < length (cells h) → cells (hSwap i j h) = exchange i j (cells h);
  hPush_cells x h : cells (hPush x h) = cells h ++ [x];
  hPop_cells h l x : cells h = l ++ [x] → ∃ h', hPop h = Some (x, h') ∧ cells h' = l;
}.

Set Default Proof Using "Type*".
Section facts.
Context {H A : Type} `{!HeapInterface H A} (lt : A → A → bool) (cells : H → list A).
Context `{!WeakOrder lt} `{!HeapLaws lt cells}.
Implicit Types (h : H) (l : list A).

(** The element at [i] does not come after the one at [j]. *)
Definition before l i j : Prop := ∀ x y, l !! i = Some x → l !! j = Some y → lt y x = false.

(** The first [n] elements are a heap. *)
Definition ordered (n : nat) l : Prop := ∀ k, 0 < k < n → before l (parent k) k.

Definition heapOrdered h : Prop := ordered (length (cells h)) (cells h).

(** A heap but for the element at [j], which may be too small for its place. *)
Definition ordered_up (n j : nat) l : Prop :=
  (∀ k, 0 < k < n → k ≠ j → before l (parent k) k) ∧
  (∀ k, 0 < k < n → parent k = j → 0 < j → before l (parent j) k).
(** The same for one that may be too large. *)
Definition ordered_down (n i : nat) l : Prop :=
  (∀ k, 0 < k < n → parent k ≠ i → before l (parent k) k) ∧
  (∀ k, 0 < k < n → parent k = i → 0 < i → before l (parent i) k).

Lemma before_refl l i : before l i i.
Proof. intros x y E E'. simplify_eq. destruct (lt x x) eqn:F; [|done]. by apply lt_asym in F as F'; congruence. Qed.
Lemma before_trans l i j k : j < length l → before l i j → before l j k → before l i k.
Proof. intros [y Ey]%lookup_lt_is_Some_2 H1 H2 x z Ex Ez. eapply nlt_trans; [by apply H1|by apply H2]. Qed.
Lemma before_flip l i j a b : i < length l → j < length l →
  before (exchange i j l) a b ↔ before l (flip i j a) (flip i j b).
Proof. intros Hi Hj. unfold before. by rewrite !exchange_lookup. Qed.

Lemma hLess_before h i j : i < length (cells h) → j < length (cells h) →
  if hLess i j h then before (cells h) i j else before (cells h) j i.
Proof.
  intros [x Ex]%lookup_lt_is_Some_2 [y Ey]%lookup_lt_is_Some_2. rewrite (hLess_cells _ _ _ _ _ Ex Ey).
  destruct (lt x y) eqn:F; intros ? ? ? ?; simplify_eq; [by apply lt_asym|done].
Qed.

Lemma parent_lt k : 0 < k → parent k < k.
Proof. intros Hk. unfold parent. apply Nat.Div0.div_lt_upper_bound. lia. Qed.
Lemma parent_children k i : 0 < k → parent k = i ↔ k = 2 * i + 1 ∨ k = 2 * i + 2.
Proof.
  intros Hk. unfold parent. pose proof (Nat.div_mod_eq (k - 1) 2). pose proof (Nat.mod_upper_bound (k - 1) 2).
  lia.
Qed.

(** Whatever exchanges among the first [n] elements preserve, sifting preserves. *)
Definition swap_closed (n : nat) (P : H → Prop) : Prop :=
  ∀ h i j, P h → i < n → j < n → n ≤ length (cells h) → P (hSwap i j h).

Lemma swap_shape n P h i j : swap_closed n P → P h → n ≤ length (cells h) → i < n → j < n →
  P (hSwap i j h) ∧ cells (hSwap i j h) ≡ₚ cells h ∧ n ≤ length (cells (hSwap i j h)).
Proof.
  intros HP Ph Hn Hi Hj. split; [by apply HP|]. rewrite hSwap_cells, exchange_length by lia.
  split; [apply exchange_perm|done].
Qed.

Lemma upLoop_closed n P fuel j h : swap_closed n P → P h → n ≤ length (cells h) → j < n →
  P (upLoop fuel j h) ∧ cells (upLoop fuel j h) ≡ₚ cells h.
Proof.
  intros HP. revert j h. induction fuel as [|fuel IH]; intros j h Ph Hn Hj; simpl; [done|].
  case_match eqn:E; [done|]. apply orb_false_iff in E as [E%Nat.eqb_neq _].
  assert (Hp : parent j < j) by (apply parent_lt; destruct j; [done|lia]).
  destruct (swap_shape n P h (parent j) j) as (P1 & P2 & P3); [done..|lia|done|].
  destruct (IH (parent j) (hSwap (parent j) j h)) as [IH1 IH2]; [done..|lia|]. by rewrite IH2.
Qed.

Lemma child_lt n i h : 2 * i + 1 < n → let j := if (2 * i + 1 + 1 <? n) && hLess (2 * i + 1 + 1) (2 * i + 1) h
  then 2 * i + 1 + 1 else 2 * i + 1 in i < j < n.
Proof. intros Hn j. unfold j. case_match eqn:E; [|lia]. apply andb_true_iff in E as [E%Nat.ltb_lt _]. lia. Qed.

Lemma downLoop_closed n P fuel i h : swap_closed n P → P h → n ≤ length (cells h) → i < n →
  P (downLoop fuel i n h).2 ∧ cells (downLoop fuel i n h).2 ≡ₚ cells h.
Proof.
  intros HP. revert i h. induction fuel as [|fuel IH]; intros i h Ph Hn Hi; [done|]. cbn [downLoop].
  case_match eqn:E1; [done|]. apply Nat.leb_gt in E1. pose proof (child_lt n i h E1) as Hj. cbv zeta in Hj |- *.
  set (j := if _ : bool then _ else _) in *. case_match; [done|].
  destruct (swap_shape n P h i j) as (P1 & P2 & P3); [done..|lia|].
  destruct (IH j (hSwap i j h)) as [IH1 IH2]; [done..|lia|]. by rewrite IH2.
Qed.

(** ** Sifting restores the order *)

Lemma up_step n j h : 0 < j < n → n ≤ length (cells h) → ordered_up n j (cells h) → before (cells h) j (parent j) →
  ordered_up n (parent j) (cells (hSwap (parent j) j h)).
Proof.
  intros Hj Hn [O1 O2] Hb. pose proof (parent_lt j) as Hp. rewrite hSwap_cells by lia.
  set (l := cells h) in *. split.
  - intros k Hk Hkj. rewrite before_flip by lia. unfold flip at 2. rewrite decide_False by done.
    case_decide as Ekj; [subst k; unfold flip; by rewrite decide_True|]. unfold flip.
    case_decide as E; [|case_decide as E'].
    + apply (before_trans _ _ (parent j)); [lia|done|]. rewrite <-E. by apply O1.
    + apply O2; [done..|lia].
    + by apply O1.
  - intros k Hk Ek Hpj. rewrite before_flip by lia. pose proof (parent_lt (parent j)).
    unfold flip at 1. rewrite !decide_False by lia. pose proof (parent_lt k). unfold flip. rewrite decide_False by lia.
    case_decide; [apply O1; lia|]. apply (before_trans _ _ (parent j)); [lia|apply O1; lia|].
    rewrite <-Ek. apply O1; lia.
Qed.

Lemma upLoop_ordered n fuel j h : j ≤ fuel → j < n → n ≤ length (cells h) → ordered_up n j (cells h) →
  ordered n (cells (upLoop fuel j h)).
Proof.
  revert j h. induction fuel as [|fuel IH]; intros j h Hf Hj Hn Ho; simpl.
  { intros k Hk. apply Ho; lia. }
  case_match eqn:E.
  - intros k Hk. destruct (decide (k = j)) as [->|]; [|by apply Ho]. apply orb_true_iff in E as [E%Nat.eqb_eq|E].
    + pose proof (parent_lt j). lia.
    + pose proof (hLess_before h j (parent j)) as Hb. rewrite (proj1 (negb_true_iff _) E) in Hb.
      pose proof (parent_lt j). apply Hb; lia.
  - apply orb_false_iff in E as [E1%Nat.eqb_neq E2%negb_false_iff]. pose proof (hLess_before h j (parent j)) as Hb.
    rewrite E2 in Hb. assert (0 < j) by (destruct j; [done|lia]). pose proof (parent_lt j).
    apply IH; [lia..| |apply up_step; [lia..|done|apply Hb; lia]]. rewrite hSwap_cells, exchange_length; lia.
Qed.

(** A heap but for the element at [i], which may be too small or too large. *)
Definition ordered_at (n i : nat) l : Prop :=
  (∀ k, 0 < k < n → k ≠ i → parent k ≠ i → before l (parent k) k) ∧
  (∀ k, 0 < k < n → parent k = i → 0 < i → before l (parent i) k).

Lemma down_step n i j h : i < j < n → n ≤ length (cells h) → parent j = i → ordered_at n i (cells h) →
  before (cells h) j i → (∀ k, 0 < k < n → parent k = i → before (cells h) j k) →
  ordered_down n j (cells (hSwap i j h)).
Proof.
  intros Hj Hn Ej [O1 O2] Hb Hs. rewrite hSwap_cells by lia. set (l := cells h) in *. split.
  - intros k Hk Hp. rewrite before_flip by lia. unfold flip at 1. case_decide as E; [|].
    + unfold flip. rewrite decide_False by (pose proof (parent_lt k); lia). case_decide; [done|by apply Hs].
    + rewrite decide_False by done. unfold flip. case_decide as E'; [rewrite E'; apply O2; [lia|done|lia]|].
      rewrite decide_False by congruence. by apply O1.
  - intros k Hk Ek _. rewrite before_flip by lia. pose proof (parent_lt k). unfold flip.
    rewrite decide_True by done. rewrite !decide_False by lia. rewrite <-Ek. apply O1; lia.
Qed.

(** The child the loop compares with is a least one. *)
Lemma child_least n i h : 2 * i + 1 < n → n ≤ length (cells h) →
  let j := if (2 * i + 1 + 1 <? n) && hLess (2 * i + 1 + 1) (2 * i + 1) h then 2 * i + 1 + 1 else 2 * i + 1 in
  parent j = i ∧ ∀ k, 0 < k < n → parent k = i → before (cells h) j k.
Proof.
  intros Hi Hn j. split; [apply parent_children; unfold j; case_match; lia|].
  intros k Hk [-> | ->]%parent_children; [..|lia].
  - unfold j. case_match eqn:E; [|apply before_refl]. apply andb_true_iff in E as [E1%Nat.ltb_lt E2].
    pose proof (hLess_before h (2 * i + 1 + 1) (2 * i + 1)) as Hb. rewrite E2 in Hb. apply Hb; lia.
  - replace (2 * i + 2) with (2 * i + 1 + 1) by lia. unfold j. case_match eqn:E; [apply before_refl|].
    apply andb_false_iff in E as [E%Nat.ltb_ge|E]; [lia|].
    pose proof (hLess_before h (2 * i + 1 + 1) (2 * i + 1)) as Hb. rewrite E in Hb. apply Hb; lia.
Qed.

(** One round: it stops with the element above its children, or moves it. *)
Lemma down_round n fuel i h : n ≤ length (cells h) → i < n → ordered_at n i (cells h) →
  (downLoop (S fuel) i n h = (i, h) ∧ ordered_up n i (cells h)) ∨
  ∃ j, i < j < n ∧ downLoop (S fuel) i n h = downLoop fuel j n (hSwap i j h) ∧
       ordered_down n j (cells (hSwap i j h)).
Proof.
  intros Hn Hi Ho. cbn [downLoop]. case_match eqn:E1.
  { apply Nat.leb_le in E1. left. split; [done|]. destruct Ho as [O1 O2]. split; [|done].
    intros k Hk Hki. apply O1; [done..|]. intros [-> | ->]%parent_children; lia. }
  apply Nat.leb_gt in E1. pose proof (child_lt n i h E1) as Hj. pose proof (child_least n i h E1 Hn) as [Hp Hs].
  cbv zeta in *. set (j := if _ : bool then _ else _) in *. pose proof (hLess_before h j i) as Hb. destruct (hLess j i h); cbn [negb].
  2:{ left. split; [done|]. destruct Ho as [O1 O2]. split; [|done].
    intros k Hk Hki. destruct (decide (parent k = i)) as [Hpk|]; [|by apply O1].
    rewrite Hpk. apply (before_trans _ _ j); [lia|apply Hb; lia|by apply Hs]. }
  right. exists j. split; [done|]. split; [done|]. apply down_step; [done..|apply Hb; lia|done].
Qed.

Lemma ordered_down_at n i l : ordered_down n i l → ordered_at n i l.
Proof. intros [O1 O2]. split; [|done]. intros k Hk _. by apply O1. Qed.

Lemma downLoop_ordered n fuel i h : n ≤ fuel + i → i < n → n ≤ length (cells h) → ordered_down n i (cells h) →
  ordered n (cells (downLoop fuel i n h).2) ∧ i ≤ (downLoop fuel i n h).1.
Proof.
  revert i h. induction fuel as [|fuel IH]; intros i h Hf Hi Hn Ho; [lia|].
  destruct (down_round n fuel i h Hn Hi (ordered_down_at _ _ _ Ho)) as [[-> Hu]|(j & Hj & -> & Hd)].
  - split; [|done]. intros k Hk. destruct (decide (k = i)) as [->|]; [|by apply (proj1 Hu)].
    apply (proj1 Ho); [done|]. pose proof (parent_lt i). lia.
  - destruct (IH j (hSwap i j h)) as [IH1 IH2]; [lia..| |done|].
    + rewrite hSwap_cells, exchange_length; lia.
    + split; [done|lia].
Qed.

(** Sifting down an element of any size: moved, the order is restored; not moved, it is
    only too small. *)
Lemma heapDown_at n i h : n ≤ length (cells h) → i < n → ordered_at n i (cells h) →
  let '(moved, h') := heapDown i n h in
  if moved : bool then ordered n (cells h') else h' = h ∧ ordered_up n i (cells h).
Proof.
  intros Hn Hi Ho. unfold heapDown. destruct n as [|n]; [lia|].
  destruct (down_round (S n) n i h Hn Hi Ho) as [[-> Hu]|(j & Hj & -> & Hd)].
  - by rewrite Nat.ltb_irrefl.
  - destruct (downLoop_ordered (S n) n j (hSwap i j h)) as [IH1 IH2]; [lia..| |done|].
    { rewrite hSwap_cells, exchange_length; lia. }
    destruct (downLoop n j (S n) (hSwap i j h)) as [i' h']. simpl in *. by rewrite (proj2 (Nat.ltb_lt i i')) by lia.
Qed.

(** ** The operations *)

Lemma heapOrdered_root h x : heapOrdered h → head (cells h) = Some x → ∀ y, y ∈ cells h → lt y x = false.
Proof.
  intros Ho Ex y [k Ek]%list_elem_of_lookup. rewrite head_lookup in Ex.
  cut (before (cells h) 0 k); [intros Hb; by apply Hb|]. apply lookup_lt_Some in Ek. clear y. revert Ek.
  induction (lt_wf k) as [k _ IH]. intros Hk. destruct (decide (k = 0)) as [->|]; [apply before_refl|].
  pose proof (parent_lt k). apply (before_trans _ _ (parent k)); [lia|apply IH; lia|apply Ho; lia].
Qed.

Lemma before_app l k i j : i < length l → j < length l → before (l ++ k) i j ↔ before l i j.
Proof. intros Hi Hj. unfold before. by rewrite !lookup_app_l. Qed.

Lemma ordered_take n l k : n ≤ length l → ordered n (l ++ k) ↔ ordered n l.
Proof.
  intros Hn. split; intros Ho i Hi; specialize (Ho i Hi); pose proof (parent_lt i);
    apply (before_app l k) in Ho || apply (before_app l k); done || lia.
Qed.

Lemma hPush_length x h : hLen (hPush x h) = S (length (cells h)) ∧ length (cells (hPush x h)) = S (length (cells h)).
Proof. rewrite hLen_cells, hPush_cells, length_app. simpl. lia. Qed.

Lemma heapPush_perm x h : cells (heapPush x h) ≡ₚ x :: cells h.
Proof.
  unfold heapPush, heapUp. destruct (hPush_length x h) as [-> El]. replace (S (length (cells h)) - 1) with (length (cells h)) by lia.
  destruct (upLoop_closed (S (length (cells h))) (λ _, True) (length (cells h)) (length (cells h)) (hPush x h)) as [_ ->];
    [done|done|lia|lia|]. rewrite hPush_cells. solve_Permutation.
Qed.

Lemma heapPush_ok x h : heapOrdered h → heapOrdered (heapPush x h) ∧ cells (heapPush x h) ≡ₚ x :: cells h.
Proof.
  intros Ho. split; [|apply heapPush_perm]. unfold heapOrdered. rewrite (Permutation_length (heapPush_perm x h)).
  unfold heapPush, heapUp. destruct (hPush_length x h) as [-> El]. replace (S (length (cells h)) - 1) with (length (cells h)) by lia.
  apply upLoop_ordered; [done|simpl; lia|rewrite El; simpl; lia|]. rewrite hPush_cells.
  split; intros k Hk Hk2; pose proof (parent_lt k); simpl in Hk.
  - apply before_app; [lia..|]. apply Ho. lia.
  - lia.
Qed.

Lemma heapPush_closed P x h : (∀ n, swap_closed n P) → P (hPush x h) → P (heapPush x h).
Proof.
  intros HP Ph. unfold heapPush, heapUp. rewrite hLen_cells.
  apply (upLoop_closed (length (cells (hPush x h))) P); [done..|]. rewrite hPush_cells, length_app. simpl. lia.
Qed.

(** The element out of the way at the end stays there. *)
Lemma last_closed n x : swap_closed n (λ h, cells h !! n = Some x).
Proof.
  intros h i j E Hi Hj Hn. rewrite hSwap_cells, exchange_lookup by lia. unfold flip. by rewrite !decide_False by lia.
Qed.

Lemma and_closed n P Q : swap_closed n P → swap_closed n Q → swap_closed n (λ h, P h ∧ Q h).
Proof. intros HP HQ h i j [] ???. split; eauto. Qed.

Lemma pop_last h h2 n x : cells h2 ≡ₚ cells h → length (cells h) = S n → cells h2 !! n = Some x →
  ordered n (cells h2) → ∃ h', hPop h2 = Some (x, h') ∧ heapOrdered h' ∧ cells h ≡ₚ x :: cells h'.
Proof.
  intros Hp Hl Ex Ho. destruct (exists_last (l := cells h2)) as (l & y & E).
  { intros E. by rewrite E in Ex. }
  assert (El : length l = n). { apply Permutation_length in Hp. rewrite E, length_app in Hp. simpl in Hp. lia. }
  rewrite E, lookup_app_r, El, Nat.sub_diag in Ex by lia. simplify_eq/=.
  destruct (hPop_cells h2 l x E) as (h' & E1 & E2). exists h'. split; [done|].
  rewrite E in Ho. apply ordered_take in Ho; [|done]. split; [unfold heapOrdered; by rewrite E2|].
  rewrite <-Hp, E, E2. solve_Permutation.
Qed.

Lemma swap_last_at h i n : heapOrdered h → length (cells h) = S n → i < n → ordered_at n i (cells (hSwap i n h)).
Proof.
  intros Ho Hl Hi. rewrite hSwap_cells by lia. unfold heapOrdered in Ho. rewrite Hl in Ho. set (l := cells h) in *.
  split.
  - intros k Hk Hki Hpi. pose proof (parent_lt k). rewrite before_flip by lia.
    unfold flip. rewrite !decide_False by lia. apply Ho. lia.
  - intros k Hk <- Hp. pose proof (parent_lt k). pose proof (parent_lt (parent k)). rewrite before_flip by lia.
    unfold flip. rewrite !decide_False by lia. apply (before_trans _ _ (parent k)); [lia|apply Ho; lia..].
Qed.

Lemma swap_last_lookup h i n x : length (cells h) = S n → i ≤ n → cells h !! i = Some x →
  cells (hSwap i n h) !! n = Some x.
Proof.
  intros Hl Hi Ex. rewrite hSwap_cells, exchange_lookup by lia. unfold flip.
  destruct (decide (n = i)) as [->|]; [done|]. by rewrite decide_True.
Qed.

(** [Remove] takes out the element at the index; [P] is whatever the caller keeps about
    the elements and their places. *)
Lemma heapRemove_ok P i h x : (∀ n, swap_closed n P) → P h → heapOrdered h → cells h !! i = Some x →
  ∃ h2 h', heapRemove i h = Some (x, h') ∧ heapOrdered h' ∧ cells h ≡ₚ x :: cells h' ∧ P h2 ∧ hPop h2 = Some (x, h').
Proof.
  intros HP Ph Ho Ex. pose proof (lookup_lt_Some _ _ _ Ex) as Hi. unfold heapRemove. rewrite hLen_cells.
  case_match eqn:E; [apply Nat.leb_le in E; lia|]. clear E. set (n := length (cells h) - 1).
  assert (Hl : length (cells h) = S n) by lia. case_match eqn:E.
  { apply Nat.eqb_eq in E. destruct (pop_last h h n x) as (h' & E1 & E2 & E3); [done..|by rewrite E| |].
    { intros k Hk. apply Ho. lia. } by exists h, h'. }
  apply Nat.eqb_neq in E. set (h1 := hSwap i n h).
  assert (H1 : P h1 ∧ cells h1 !! n = Some x).
  { split; [apply (HP (S n)); [done|lia..]|apply swap_last_lookup; [done|lia|done]]. }
  assert (Hp1 : cells h1 ≡ₚ cells h) by (unfold h1; rewrite hSwap_cells by lia; apply exchange_perm).
  assert (Hl1 : length (cells h1) = S n) by (by rewrite (Permutation_length Hp1)).
  pose proof (swap_last_at h i n Ho Hl ltac:(lia)) as Hat. fold h1 in Hat.
  pose proof (and_closed n P _ (HP n) (last_closed n x)) as Hc.
  pose proof (heapDown_at n i h1 ltac:(lia) ltac:(lia) Hat) as Hd.
  destruct (downLoop_closed n _ n i h1 Hc H1) as [[D1 D2] D3]; [lia..|]. unfold heapDown in Hd |- *.
  destruct (downLoop n i n h1) as [i' h2]. cbn [fst snd] in *. destruct (i <? i').
  - destruct (pop_last h h2 n x) as (h' & E1 & E2 & E3); [by rewrite D3|done..|]. by exists h2, h'.
  - destruct Hd as [-> Hu]. destruct (upLoop_closed n _ i i h1 Hc H1) as [[U1 U2] U3]; [lia..|].
    destruct (pop_last h (heapUp i h1) n x) as (h' & E1 & E2 & E3); [by unfold heapUp; rewrite U3|done..| |].
    + apply upLoop_ordered; [lia..|done].
    + by exists (heapUp i h1), h'.
Qed.

Lemma heapPop_ok P h x : (∀ n, swap_closed n P) → P h → heapOrdered h → head (cells h) = Some x →
  ∃ h2 h', heapPop h = Some (x, h') ∧ heapOrdered h' ∧ cells h ≡ₚ x :: cells h' ∧ P h2 ∧ hPop h2 = Some (x, h').
Proof.
  intros HP Ph Ho Ex. rewrite head_lookup in Ex. pose proof (lookup_lt_Some _ _ _ Ex) as Hi. unfold heapPop.
  rewrite hLen_cells. case_match eqn:E; [apply Nat.eqb_eq in E; lia|]. clear E. set (n := length (cells h) - 1).
  assert (Hl : length (cells h) = S n) by lia. set (h1 := hSwap 0 n h).
  assert (H1 : P h1 ∧ cells h1 !! n = Some x).
  { split; [apply (HP (S n)); [done|lia..]|apply swap_last_lookup; [done|lia|done]]. }
  assert (Hp1 : cells h1 ≡ₚ cells h) by (unfold h1; rewrite hSwap_cells by lia; apply exchange_perm).
  assert (Hl1 : length (cells h1) = S n) by (by rewrite (Permutation_length Hp1)).
  destruct (decide (n = 0)) as [En|Hn].
  { unfold heapDown. rewrite En. cbn [downLoop fst snd].
    destruct (pop_last h h1 n x) as (h' & E1 & E2 & E3); [done..|apply H1|intros k Hk; lia|]. exists h1, h'. naive_solver. }
  pose proof (swap_last_at h 0 n Ho Hl ltac:(lia)) as Hat. fold h1 in Hat.
  pose proof (and_closed n P _ (HP n) (last_closed n x)) as Hc.
  destruct (downLoop_closed n _ n 0 h1 Hc H1) as [[D1 D2] D3]; [lia..|].
  destruct (downLoop_ordered n n 0 h1) as [D4 _]; [lia..| |].
  { destruct Hat as [O1 O2]. split; [|done]. intros k Hk Hpk. apply O1; [done|lia|done]. }
  unfold heapDown. destruct (downLoop n 0 n h1) as [i' h2]. cbn [fst snd] in *.
  destruct (pop_last h h2 n x) as (h' & E1 & E2 & E3); [by rewrite D3|done..|]. by exists h2, h'.
Qed.

Lemma heapPop_empty h : cells h = [] → heapPop h = None.
Proof. intros E. unfold heapPop. by rewrite hLen_cells, E. Qed.
End facts.
