(* ===== verification/Ring.v ===== *)
(** * Circular buffers

    The index arithmetic shared by the two circular buffers of the program, the
    router's match cache ([router/cache.go]) and the pub/sub message queue
    ([x/messaging/pubsub/ringbuffer.go]): the list a ring denotes, and what
    writing at the tail, advancing the head and overwriting the oldest slot do
    to it. *)

From stdpp Require Import options.
From S2P Require Import Prelude.

Section ring.
Context {A : Type}.
Implicit Types (buf : list A) (x : A).

(** The [n] live slots of [buf] from index [h] on, oldest first. *)
Fixpoint ring_list buf (cap h n : nat) : list A :=
  match n with
  | O => []
  | S n => match buf !! h with
           | Some x => x :: ring_list buf cap ((h + 1) mod cap) n
           | None => []
           end
  end.

Definition ring_ok buf (cap h n : nat) : Prop :=
  0 < cap ∧ length buf = cap ∧ h < cap ∧ n ≤ cap.

Lemma ring_ok_next buf cap h n : ring_ok buf cap h (S n) → ring_ok buf cap ((h + 1) mod cap) n.
Proof.
  intros (Hc & Hl & Hh & Hn). repeat split; try lia. apply Nat.mod_upper_bound. lia.
Qed.

Lemma ring_list_lookup buf cap h n i :
  ring_ok buf cap h n → i < n → ring_list buf cap h n !! i = buf !! ((h + i) mod cap).
Proof.
  revert h i. induction n as [|n IH]; intros h i Hok Hi; [lia|].
  pose proof Hok as (Hc & Hl & Hh & Hn). simpl.
  destruct (lookup_lt_is_Some_2 buf h) as [x Hx]; [lia|]. rewrite Hx.
  destruct i as [|i]; simpl.
  - by rewrite Nat.add_0_r, Nat.mod_small.
  - rewrite IH by (eauto using ring_ok_next || lia). f_equal.
    rewrite Nat.Div0.add_mod_idemp_l. f_equal. lia.
Qed.

Lemma ring_list_length buf cap h n : ring_ok buf cap h n → length (ring_list buf cap h n) = n.
Proof.
  revert h. induction n as [|n IH]; intros h Hok; [done|].
  pose proof Hok as (Hc & Hl & Hh & Hn). simpl.
  destruct (lookup_lt_is_Some_2 buf h) as [x Hx]; [lia|]. rewrite Hx. simpl.
  by rewrite IH by eauto using ring_ok_next.
Qed.

Lemma ring_list_ext buf1 buf2 cap h n :
  ring_ok buf1 cap h n → ring_ok buf2 cap h n →
  (∀ i, i < n → buf1 !! ((h + i) mod cap) = buf2 !! ((h + i) mod cap)) →
  ring_list buf1 cap h n = ring_list buf2 cap h n.
Proof.
  intros H1 H2 Heq. apply list_eq. intros i.
  destruct (decide (i < n)) as [Hi|Hi].
  - rewrite !ring_list_lookup by done. by apply Heq.
  - rewrite !lookup_ge_None_2; rewrite ?ring_list_length by done; lia || done.
Qed.

(** Distinct live positions occupy distinct slots. *)
Lemma ring_index_inj cap h i j :
  h < cap → i < cap → j < cap → (h + i) mod cap = (h + j) mod cap → i = j.
Proof.
  intros Hh Hi Hj E.
  assert (∀ k, k < cap → (h + k) mod cap = if h + k <? cap then h + k else h + k - cap) as Hm.
  { intros k Hk. destruct (Nat.ltb_spec (h + k) cap); [by apply Nat.mod_small|].
    rewrite <- (Nat.mod_small (h + k - cap) cap) by lia.
    rewrite <- (Nat.Div0.mod_add (h + k - cap) 1 cap). f_equal. lia. }
  rewrite !Hm in E by done.
  destruct (Nat.ltb_spec (h + i) cap), (Nat.ltb_spec (h + j) cap); lia.
Qed.

(** Writing the slot after the last live one appends. *)
Lemma ring_list_push buf cap h n x :
  ring_ok buf cap h n → n < cap →
  ring_list (<[(h + n) mod cap := x]> buf) cap h (S n) = ring_list buf cap h n ++ [x].
Proof.
  intros Hok Hlt. pose proof Hok as (Hc & Hl & Hh & Hn).
  assert (ring_ok (<[(h + n) mod cap := x]> buf) cap h (S n)) as Hok'.
  { repeat split; rewrite ?length_insert; lia. }
  apply list_eq. intros i. destruct (decide (i < S n)) as [Hi|Hi].
  2:{ rewrite !lookup_ge_None_2; [done|..];
      rewrite ?length_app, ?ring_list_length by done; simpl; lia. }
  rewrite ring_list_lookup by done.
  destruct (decide (i = n)) as [->|Hne].
  - rewrite list_lookup_insert_eq by (rewrite Hl; apply Nat.mod_upper_bound; lia).
    rewrite lookup_app_r by (rewrite ring_list_length by done; lia).
    by rewrite ring_list_length, Nat.sub_diag by done.
  - rewrite list_lookup_insert_ne.
    2:{ intros E. apply Hne. symmetry. apply (ring_index_inj cap h); lia. }
    rewrite lookup_app_l by (rewrite ring_list_length by done; lia).
    by rewrite ring_list_lookup by (done || lia).
Qed.

(** The oldest live element sits at the head. *)
Lemma ring_list_pop buf cap h n :
  ring_ok buf cap h (S n) →
  ∃ x, buf !! h = Some x ∧ ring_list buf cap h (S n) = x :: ring_list buf cap ((h + 1) mod cap) n.
Proof.
  intros (Hc & Hl & Hh & Hn). destruct (lookup_lt_is_Some_2 buf h) as [x Hx]; [lia|].
  exists x. simpl. by rewrite Hx.
Qed.

(** Overwriting a slot that is not live changes nothing. *)
Lemma ring_list_write_dead buf cap h n i x :
  ring_ok buf cap h n → n ≤ i → i < cap →
  ring_list (<[(h + i) mod cap := x]> buf) cap h n = ring_list buf cap h n.
Proof.
  intros Hok Hni Hi. pose proof Hok as (Hc & Hl & Hh & Hn).
  apply ring_list_ext; [repeat split; rewrite ?length_insert; lia | done |].
  intros j Hj. rewrite list_lookup_insert_ne; [done|].
  intros E. apply (ring_index_inj cap h) in E; lia.
Qed.

(** After the head moved on, its old slot is the free slot in front of it. *)
Lemma ring_next_prev cap h : 0 < cap → h < cap → ((h + 1) mod cap + (cap - 1)) mod cap = h.
Proof.
  intros Hc Hh. rewrite Nat.Div0.add_mod_idemp_l.
  replace (h + 1 + (cap - 1)) with (h + 1 * cap) by lia.
  rewrite Nat.Div0.mod_add. by apply Nat.mod_small.
Qed.

End ring.
