(* ===== verification/RouteCache.v ===== *)
(** * What the router expects of its match cache

    The dispatcher ([router/dispatch.go]) and the registration code
    ([router/registration.go]) use the match cache through three operations.
    [RouteCache] names them and [RouteCacheLaws] states what they promise; the
    router's theorems are proved against this interface and [MatchCache]
    discharges it for the ring-buffer implementation of [router/cache.go]. *)

From stdpp Require Import options.
From S2P Require Import Prelude.

Class RouteCache (C V : Type) := {
  rc_get : gostring → C → option V;
  rc_set : gostring → V → C → C;
  rc_clear : C → C;
}.

Class RouteCacheLaws (C V : Type) `{RouteCache C V} := {
  rc_ok : C → Prop;
  rc_set_ok k v c : rc_ok c → rc_ok (rc_set k v c);
  rc_clear_ok c : rc_ok c → rc_ok (rc_clear c);
  (** an emptied cache answers nothing *)
  rc_get_clear k c : rc_ok c → rc_get k (rc_clear c) = None;
  (** the entry just written can be read back *)
  rc_get_set_eq k v c : rc_ok c → rc_get k (rc_set k v c) = Some v;
  (** writing one key never invents or changes the entry of another; it may
      only evict it *)
  rc_get_set_ne k k' v v' c :
    rc_ok c → k ≠ k' → rc_get k' (rc_set k v c) = Some v' → rc_get k' c = Some v';
}.

#[export] Hint Resolve rc_set_ok rc_clear_ok : plumego.
