(* ===== verification/MatchCache.v ===== *)
(** * The router's match cache ([router/cache.go])

    A map from cache keys to match results together with a ring of the keys in
    insertion order. The invariant ties the two together; the operations are
    shown to implement a FIFO-evicting map and to satisfy the interface
    [RouteCache] the dispatcher relies on. *)

From stdpp Require Import options.
From S2P Require Import Prelude Ring RouteCache.

Module MatchCache.

(** [defaultCacheCapacity]. *)
Definition defaultCacheCapacity : nat := 100.

Section cache.
Context {V : Type}.
Implicit Types (key : gostring) (value : V).

(** The struct [matchCache]; the mutex has no counterpart, every operation being
    one critical section. *)
Record matchCache := mkCache {
  capacity : nat;
  data : gmap gostring V;
  ring : list gostring;
  head : nat;
  size : nat;
}.
Implicit Types (rc : matchCache).

Definition newMatchCache (cap : Z) : matchCache :=
  let cap := if (cap <=? 0)%Z then defaultCacheCapacity else Z.to_nat cap in
  {| capacity := cap; data := ∅; ring := replicate cap []; head := 0; size := 0 |}.

Definition Get key rc : option V := data rc !! key.

(** [Set]. The read [rc.ring[rc.head]] is in range by the invariant below; the
    [None] branch stands for Go's index panic. *)
Definition Set_ key value rc : matchCache :=
  match data rc !! key with
  | Some _ =>
      {| capacity := capacity rc; data := <[key := value]> (data rc);
         ring := ring rc; head := head rc; size := size rc |}
  | None =>
      if capacity rc <=? size rc then
        match ring rc !! head rc with
        | Some oldest =>
            {| capacity := capacity rc;
               data := <[key := value]> (delete oldest (data rc));
               ring := <[head rc := key]> (ring rc);
               head := (head rc + 1) mod capacity rc;
               size := size rc |}
        | None => rc
        end
      else
        let tail := (head rc + size rc) mod capacity rc in
        {| capacity := capacity rc;
           data := <[key := value]> (data rc);
           ring := <[tail := key]> (ring rc);
           head := head rc;
           size := S (size rc) |}
  end.

Definition Clear rc : matchCache :=
  {| capacity := capacity rc; data := ∅; ring := replicate (capacity rc) [];
     head := 0; size := 0 |}.

(** The live keys, oldest first. *)
Definition fifo rc : list gostring := ring_list (ring rc) (capacity rc) (head rc) (size rc).

(** The ring lists exactly the keys of the map, once each. *)
Definition cache_ok rc : Prop :=
  ring_ok (ring rc) (capacity rc) (head rc) (size rc) ∧
  NoDup (fifo rc) ∧
  (∀ k, k ∈ fifo rc ↔ is_Some (data rc !! k)).

(** ** The invariant *)

Lemma new_ok cap : cache_ok (newMatchCache cap).
Proof.
  unfold newMatchCache, cache_ok, fifo; simpl.
  assert (0 < (if (cap <=? 0)%Z then defaultCacheCapacity else Z.to_nat cap)).
  { destruct (Z.leb_spec cap 0); unfold defaultCacheCapacity; lia. }
  split; [|split].
  - repeat split; rewrite ?length_replicate; lia.
  - constructor.
  - intros k. rewrite lookup_empty, is_Some_alt. set_solver.
Qed.

Lemma Clear_ok rc : cache_ok rc → cache_ok (Clear rc).
Proof.
  intros [(Hc & _) _]. unfold Clear, cache_ok, fifo; simpl. split; [|split].
  - repeat split; rewrite ?length_replicate; lia.
  - constructor.
  - intros k. rewrite lookup_empty, is_Some_alt. set_solver.
Qed.

(** What one [Set] does to the queue of keys. *)
Definition fifo_set (cap : nat) key (q : list gostring) : list gostring :=
  if decide (key ∈ q) then q
  else if cap <=? length q then tail q ++ [key]
  else q ++ [key].

Lemma size_fifo rc : cache_ok rc → length (fifo rc) = size rc.
Proof. intros [Hr _]. by apply ring_list_length. Qed.

(** Overwriting the head of a full ring moves the queue on by one. *)
Lemma ring_list_replace (buf : list gostring) cap h x :
  ring_ok buf cap h cap →
  ring_list (<[h := x]> buf) cap ((h + 1) mod cap) cap = tail (ring_list buf cap h cap) ++ [x].
Proof.
  intros Hok. pose proof Hok as (Hc & Hl & Hh & _).
  destruct cap as [|n]; [lia|].
  destruct (ring_list_pop _ _ _ _ Hok) as (y & Hy & ->). simpl tail.
  rewrite <- (ring_next_prev (S n) h) at 1 by lia.
  replace (S n - 1) with n by lia.
  rewrite ring_list_push; [done | by apply ring_ok_next | lia].
Qed.

Lemma Set_fifo key value rc :
  cache_ok rc → fifo (Set_ key value rc) = fifo_set (capacity rc) key (fifo rc).
Proof.
  intros Hok. pose proof Hok as (Hr & Hnd & Hdom). unfold fifo_set.
  rewrite size_fifo by done. unfold Set_. destruct (data rc !! key) as [v|] eqn:E.
  - rewrite decide_True by (apply Hdom; eauto). done.
  - rewrite decide_False by (rewrite Hdom, E; apply is_Some_None).
    destruct (Nat.leb_spec (capacity rc) (size rc)) as [Hfull|Hroom].
    + pose proof Hr as (Hc & Hl & Hh & Hs).
      assert (size rc = capacity rc) as Hsz by lia.
      destruct (lookup_lt_is_Some_2 (ring rc) (head rc)) as [o Ho]; [lia|]. rewrite Ho.
      unfold fifo; simpl. rewrite Hsz in *. by apply ring_list_replace.
    + unfold fifo; simpl. by apply ring_list_push.
Qed.

Lemma Set_ring_ok key value rc :
  cache_ok rc →
  let rc' := Set_ key value rc in
  ring_ok (ring rc') (capacity rc') (head rc') (size rc').
Proof.
  intros ((Hc & Hl & Hh & Hs) & _). unfold Set_. repeat case_match; unbool; simpl;
    repeat split; rewrite ?length_insert; try lia.
  apply Nat.mod_upper_bound. lia.
Qed.

(** Every write keeps the map and the ring in step. *)
Lemma Set_ok key value rc : cache_ok rc → cache_ok (Set_ key value rc).
Proof.
  intros Hok. pose proof Hok as (Hr & Hnd & Hdom).
  split; [by apply Set_ring_ok|]. rewrite Set_fifo by done. unfold fifo_set.
  rewrite size_fifo by done. unfold Set_.
  destruct (data rc !! key) as [v|] eqn:E.
  { rewrite decide_True by (apply Hdom; eauto). split; [done|]. intros k. simpl.
    rewrite Hdom, lookup_insert. case_decide; subst; naive_solver. }
  assert (key ∉ fifo rc) as Hnew by (rewrite Hdom, E; apply is_Some_None).
  rewrite decide_False by done.
  destruct (Nat.leb_spec (capacity rc) (size rc)) as [Hfull|Hroom].
  - pose proof Hr as (Hc & Hl & Hh & Hs). assert (size rc = capacity rc) as Hsz by lia.
    destruct (capacity rc) as [|n] eqn:Hcap; [lia|].
    assert (ring_ok (ring rc) (S n) (head rc) (S n)) as Hr' by (by rewrite <- Hsz at 2).
    destruct (ring_list_pop _ _ _ _ Hr') as (o & Ho & Hq). rewrite Ho. simpl.
    unfold fifo in *. rewrite Hcap, Hsz, Hq in *. simpl.
    apply NoDup_cons in Hnd as [Hno Hnd]. split.
    + apply NoDup_app. split; [done|]. split; [set_solver | apply NoDup_singleton].
    + intros k. rewrite elem_of_app, list_elem_of_singleton, lookup_insert.
      case_decide as Hk; [naive_solver|]. rewrite lookup_delete.
      case_decide as Hok'; [subst; rewrite is_Some_alt; set_solver|].
      specialize (Hdom k). rewrite elem_of_cons in Hdom. naive_solver.
  - simpl. split.
    + apply NoDup_app. split; [done|]. split; [set_solver | apply NoDup_singleton].
    + intros k. rewrite elem_of_app, list_elem_of_singleton, lookup_insert, Hdom.
      case_decide; naive_solver.
Qed.

(** ** Reading back *)

Lemma Get_Clear key rc : Get key (Clear rc) = None.
Proof. apply lookup_empty. Qed.

Lemma Get_Set_eq key value rc : cache_ok rc → Get key (Set_ key value rc) = Some value.
Proof.
  intros ((Hc & Hl & Hh & Hs) & _). unfold Get, Set_. repeat case_match; simpl;
    try apply lookup_insert_eq.
  destruct (lookup_lt_is_Some_2 (ring rc) (head rc)); [lia|congruence].
Qed.

Lemma Get_Set_ne key key' value rc v :
  key ≠ key' → Get key' (Set_ key value rc) = Some v → Get key' rc = Some v.
Proof.
  intros Hne. unfold Get, Set_. repeat case_match; simpl; rewrite ?lookup_insert_ne by done; try done.
  intros H'. by apply lookup_delete_Some in H' as [_ ?].
Qed.

(** Capacity never changes, so the number of entries stays bounded by it. *)
Lemma Set_capacity key value rc : capacity (Set_ key value rc) = capacity rc.
Proof. unfold Set_. by repeat case_match. Qed.

Lemma data_size_fifo rc : cache_ok rc → base.size (data rc) = length (fifo rc).
Proof.
  intros (Hr & Hnd & Hdom). rewrite <- size_dom.
  assert (dom (data rc) = list_to_set (fifo rc)) as ->.
  { apply set_eq. intros k. by rewrite elem_of_dom, elem_of_list_to_set, Hdom. }
  by rewrite size_list_to_set.
Qed.

#[global] Instance matchCache_cache : RouteCache matchCache V :=
  {| rc_get := Get; rc_set := Set_; rc_clear := Clear |}.

#[global] Instance matchCache_laws : RouteCacheLaws matchCache V.
Proof.
  refine {| rc_ok := cache_ok |}; simpl;
    eauto using Set_ok, Clear_ok, Get_Clear, Get_Set_eq, Get_Set_ne.
Defined.

End cache.
#[global] Arguments matchCache : clear implicits.

End MatchCache.
