(* ===== verification/RouterPath.v ===== *)
(** * Route paths ([router/path.go], [router/pool.go], [router/router.go],
      [router/registration.go])

    The path helpers of the router: normalising request paths on the dispatch
    side, joining and canonicalising route patterns on the registration side,
    splitting a path into segments, compiling a pattern into segments, and the
    validation of methods and patterns. *)

From stdpp Require Import options.
From S2P Require Import Prelude GoStrings.

Definition slash : gobyte := "/"%char.
Definition colon : gobyte := ":"%char.
Definition star : gobyte := "*"%char.

(** Go's slice expression [s[a:b]]. *)
Definition slice (a b : nat) (s : gostring) : gostring := take (b - a) (drop a s).

(** ** Dispatch side *)

(** [for end > 1 && path[end-1] == '/' { end-- }]. *)
Fixpoint strip_end (path : gostring) (end_ : nat) : nat :=
  match end_ with
  | S ((S k) as e) => if decide (path !! e = Some slash) then strip_end path e else end_
  | _ => end_
  end.

(** [for start < end && path[start] == '/' { start++ }], with [end - start]
    rounds of fuel. *)
Fixpoint skip_slashes (fuel : nat) (path : gostring) (start end_ : nat) : nat :=
  match fuel with
  | O => start
  | S fuel =>
      if (start <? end_) && bool_decide (path !! start = Some slash)
      then skip_slashes fuel path (S start) end_ else start
  end.

Definition fastNormalizePath (path : gostring) : gostring :=
  if decide (path = []) then [slash] else
  let end_ := strip_end path (length path) in
  if (2 <=? length path) && bool_decide (path !! 0 = Some slash)
     && bool_decide (path !! 1 = Some slash)
  then
    let start := skip_slashes (end_ - 1) path 1 end_ in
    if end_ <=? start then [slash] else slice (start - 1) end_ path
  else if end_ =? length path then path
  else take end_ path.

(** The loop of [splitPathToParts]: [n] bytes from [i] on are left, the current
    segment began at [start]. *)
Fixpoint split_loop (path : gostring) (n i start : nat) (parts : list gostring)
    : list gostring * nat :=
  match n with
  | O => (parts, start)
  | S n =>
      if decide (path !! i = Some slash)
      then split_loop path n (S i) (S i) (parts ++ [slice start i path])
      else split_loop path n (S i) start parts
  end.

Definition splitPathToParts (path : gostring) : list gostring :=
  if decide (path = [] ∨ path = [slash]) then [] else
  let start := if decide (path !! 0 = Some slash) then 1 else 0 in
  let end_ :=
    if (start <? length path) && bool_decide (path !! (length path - 1) = Some slash)
    then length path - 1 else length path in
  let '(parts, start) := split_loop path (end_ - start) start start [] in
  if start <=? end_ then parts ++ [slice start end_ path] else parts.

(** ** Registration side *)

(** [for firstNonSlash < len(path) && path[firstNonSlash] == '/' { ... }]. *)
Fixpoint firstNonSlash (path : gostring) : nat :=
  match path with
  | x :: r => if decide (x = slash) then S (firstNonSlash r) else 0
  | [] => 0
  end.

Definition canonicalRoutePath (path : gostring) : gostring :=
  let path := trim_right slash path in
  if decide (path = []) then [slash] else
  let path := if has_prefix_byte slash path then path else slash :: path in
  let k := firstNonSlash path in
  let path := if 1 <? k then slash :: drop k path else path in
  if decide (path = []) then [slash] else path.

Definition joinRoutePath (prefix path : gostring) : gostring :=
  let prefix := trim_right slash prefix in
  let path :=
    if bool_decide (path ≠ []) && negb (has_prefix_byte slash path) then slash :: path
    else if bool_decide (prefix ≠ []) && has_prefix_byte slash path
    then slash :: trim_left slash path
    else path in
  let path := trim_right slash path in
  canonicalRoutePath (prefix ++ path).

(** [(r *Router) fullPath]. *)
Definition fullPath (prefix path : gostring) : gostring :=
  let full := joinRoutePath prefix path in
  if decide (full = []) then [slash] else full.

Definition normalizeGroupPrefix (parent child : gostring) : gostring :=
  let combined := joinRoutePath parent child in
  if decide (combined = [slash]) then [] else combined.

(** ** Segments of a pattern *)

Record segment := mkSegment {
  raw : gostring;
  isParam : bool;
  isWild : bool;
  paramName : gostring;
}.

Definition compileSegment (part : gostring) : segment :=
  if has_prefix_byte colon part then
    {| raw := part; isParam := true; isWild := false; paramName := drop 1 part |}
  else if has_prefix_byte star part then
    {| raw := part; isParam := false; isWild := true; paramName := drop 1 part |}
  else {| raw := part; isParam := false; isWild := false; paramName := [] |}.

Definition compilePathSegments (path : gostring) : list segment :=
  if decide (path = [slash]) then []
  else compileSegment <$> split_on slash (trim slash path).

Definition isParamNameStart (b : gobyte) : bool :=
  byte_eqb b "_" || (byte_leb "A" b && byte_leb b "Z") || (byte_leb "a" b && byte_leb b "z").
Definition isParamNameChar (b : gobyte) : bool :=
  isParamNameStart b || (byte_leb "0" b && byte_leb b "9").
Definition isRouteParamName (name : gostring) : bool :=
  match name with
  | [] => false
  | b :: rest => isParamNameStart b && forallb isParamNameChar rest
  end.

(** The errors registration reports, by the message that names them. *)
Inductive routeErr :=
| ErrNotInitialized
| ErrFrozen
| ErrEmptyMethod
| ErrMethodSurroundingSpace
| ErrMethodWhitespace
| ErrMethodInvalidChar (b : gobyte)
| ErrNilHandler
| ErrPathNoSlash
| ErrDuplicateRouteName
| ErrEmptySegment
| ErrEmptyParamName
| ErrInvalidParamName
| ErrEmptyWildcardName
| ErrInvalidWildcardName
| ErrNonTerminalWildcard
| ErrDuplicateParamName
| ErrParamMismatch (existing new : gostring)
| ErrWildcardMismatch (existing new : gostring)
| ErrDuplicateRoute
| PanicIndexOutOfRange.

Definition validateRoutePath (path : gostring) : option routeErr :=
  if bool_decide (path ≠ []) && negb (has_prefix_byte slash path)
  then Some ErrPathNoSlash else None.

Definition isHTTPTokenChar (b : gobyte) : bool :=
  (byte_leb "0" b && byte_leb b "9") || (byte_leb "A" b && byte_leb b "Z")
  || (byte_leb "a" b && byte_leb b "z")
  || bool_decide (b ∈ str "!#$%&'*+-.^_`|~").

(** The byte loop of [validateMethod]. *)
Fixpoint validateMethodBytes (m : gostring) : option routeErr :=
  match m with
  | [] => None
  | b :: rest =>
      if bool_decide (b ∈ [byte_of 32; byte_of 9; byte_of 10; byte_of 13])
      then Some ErrMethodWhitespace
      else if negb (isHTTPTokenChar b) then Some (ErrMethodInvalidChar b)
      else validateMethodBytes rest
  end.

Definition validateMethod (method : gostring) : option routeErr :=
  if decide (method = []) then Some ErrEmptyMethod
  else if decide (trim_space method ≠ method) then Some ErrMethodSurroundingSpace
  else validateMethodBytes method.

(** [validateRouteSegments]: [i] counts the segments already seen, [seen] the
    names already used. *)
Fixpoint validateSegments (n i : nat) (seen : list gostring) (segs : list segment)
    : option routeErr :=
  match segs with
  | [] => None
  | seg :: rest =>
      if decide (raw seg = []) then Some ErrEmptySegment
      else if isParam seg && bool_decide (paramName seg = []) then Some ErrEmptyParamName
      else if isParam seg && negb (isRouteParamName (paramName seg)) then Some ErrInvalidParamName
      else if isWild seg && bool_decide (paramName seg = []) then Some ErrEmptyWildcardName
      else if isWild seg && negb (isRouteParamName (paramName seg)) then Some ErrInvalidWildcardName
      else if isWild seg && negb (i =? n - 1) then Some ErrNonTerminalWildcard
      else if isParam seg || isWild seg then
        if decide (paramName seg ∈ seen) then Some ErrDuplicateParamName
        else validateSegments n (S i) (paramName seg :: seen) rest
      else validateSegments n (S i) seen rest
  end.
Definition validateRouteSegments (segs : list segment) : option routeErr :=
  validateSegments (length segs) 0 [] segs.

(** ** Slices *)

Lemma slice_length a b s : b ≤ length s → length (slice a b s) = b - a.
Proof. intros H. unfold slice. rewrite length_take, length_drop. lia. Qed.

Lemma slice_cons a b s x :
  s !! a = Some x → a < b → slice a b s = x :: slice (S a) b s.
Proof.
  intros Hx Hab. unfold slice. rewrite (drop_S s x a) by done.
  replace (b - a) with (S (b - S a)) by lia. done.
Qed.

Lemma slice_app a b c s :
  a ≤ b → b ≤ c → c ≤ length s → slice a c s = slice a b s ++ slice b c s.
Proof.
  intros Hab Hbc Hc. unfold slice.
  replace (drop b s) with (drop (b - a) (drop a s)) by (rewrite drop_drop; f_equal; lia).
  rewrite take_take_drop. f_equal. lia.
Qed.

Lemma slice_nil a s : slice a a s = [].
Proof. unfold slice. by rewrite Nat.sub_diag. Qed.

(** ** The splitting loop is [strings.Split] *)

Lemma split_loop_spec path n i start acc :
  start ≤ i → i + n ≤ length path → slash ∉ slice start i path →
  let '(parts, start') := split_loop path n i start acc in
  start' ≤ i + n ∧
  parts ++ [slice start' (i + n) path] = acc ++ split_on slash (slice start (i + n) path).
Proof.
  revert i start acc. induction n as [|n IH]; intros i start acc Hs Hn Hno; simpl.
  - rewrite Nat.add_0_r. split; [done|]. by rewrite split_on_no_sep.
  - destruct (lookup_lt_is_Some_2 path i) as [x Hx]; [lia|].
    rewrite (slice_app start i (i + S n)) by lia.
    rewrite (slice_cons i (i + S n) path x) by (done || lia).
    rewrite Hx. destruct (decide (Some x = Some slash)) as [[= ->]|Hne].
    + specialize (IH (S i) (S i) (acc ++ [slice start i path])).
      rewrite slice_nil in IH.
      destruct (split_loop path n (S i) (S i) _) as [parts start'].
      destruct IH as [IH1 IH2]; [lia|lia|apply not_elem_of_nil|].
      split; [lia|]. replace (i + S n) with (S i + n) by lia. rewrite IH2.
      rewrite split_on_app by done. by rewrite <- app_assoc.
    + specialize (IH (S i) start acc).
      destruct (split_loop path n (S i) start acc) as [parts start'].
      destruct IH as [IH1 IH2]; [lia|lia| |].
      { rewrite (slice_app start i (S i)) by lia. rewrite (slice_cons i (S i) path x) by (done || lia).
        rewrite slice_nil. set_solver. }
      split; [lia|]. replace (i + S n) with (S i + n) by lia. rewrite IH2.
      rewrite (slice_app start i (S i + n)) by lia.
      rewrite (slice_cons i (S i + n) path x) by (done || lia). done.
Qed.

(** ** Normalisation *)

Lemma trim_right_snoc c s x :
  trim_right c (s ++ [x]) = if decide (x = c) then trim_right c s else s ++ [x].
Proof.
  unfold trim_right. rewrite reverse_snoc. simpl. case_decide; [done|].
  by rewrite reverse_cons, reverse_involutive.
Qed.

Lemma strip_end_spec path e :
  1 ≤ e → e ≤ length path →
  strip_end path e = Nat.max 1 (length (trim_right slash (take e path))).
Proof.
  induction e as [|[|k] IH]; intros H1 He; [lia| |].
  - simpl. destruct path as [|x path]; [simpl in He; lia|]. simpl.
    rewrite take_0. change [x] with ([] ++ [x]) at 1. rewrite trim_right_snoc. by case_decide.
  - cbn [strip_end]. destruct (lookup_lt_is_Some_2 path (S k)) as [x Hx]; [lia|].
    rewrite (take_S_r path (S k) x) by done. rewrite trim_right_snoc, Hx.
    destruct (decide (x = slash)) as [->|Hne].
    + rewrite decide_True by done. apply IH; lia.
    + rewrite decide_False by congruence. rewrite length_app, length_take. cbn [length]. lia.
Qed.

Lemma strip_end_take path :
  path ≠ [] →
  let e := strip_end path (length path) in
  e = Nat.max 1 (length (trim_right slash path)) ∧ e ≤ length path.
Proof.
  intros Hne. cbv zeta.
  assert (1 ≤ length path) by (destruct path; simpl; [done|lia]).
  rewrite strip_end_spec by lia. rewrite firstn_all. split; [done|].
  destruct (trim_right_decomp slash path) as [n Hn].
  apply (f_equal length) in Hn. rewrite length_app in Hn. lia.
Qed.

Lemma take_trim_right c s : take (length (trim_right c s)) s = trim_right c s.
Proof.
  destruct (trim_right_decomp c s) as [n Hn]. rewrite Hn at 2. by rewrite take_app_length.
Qed.

Lemma drop_firstNonSlash s : drop (firstNonSlash s) s = trim_left slash s.
Proof. induction s as [|x s IH]; simpl; [done|]. by case_decide. Qed.

Lemma firstNonSlash_le s : firstNonSlash s ≤ length s.
Proof. induction s; simpl; [done|]. case_decide; lia. Qed.

Lemma skip_slashes_spec fuel path start end_ :
  end_ ≤ length path → end_ - start ≤ fuel → start ≤ end_ →
  skip_slashes fuel path start end_ = start + firstNonSlash (slice start end_ path).
Proof.
  revert start. induction fuel as [|fuel IH]; intros start He Hf Hs; simpl.
  - assert (start = end_) as -> by lia. rewrite slice_nil. simpl. lia.
  - destruct (Nat.ltb_spec start end_) as [Hlt|Hge]; simpl.
    + destruct (lookup_lt_is_Some_2 path start) as [x Hx]; [lia|].
      rewrite (slice_cons start end_ path x) by done. rewrite Hx. simpl.
      destruct (decide (x = slash)) as [->|Hne].
      * rewrite bool_decide_true by done. rewrite IH by lia. lia.
      * rewrite bool_decide_false by congruence. lia.
    + assert (start = end_) as -> by lia. rewrite slice_nil. simpl. lia.
Qed.

(** The registration helper in one line: one leading slash, none at the end. *)
Lemma canonicalRoutePath_alt path : canonicalRoutePath path = slash :: trim slash path.
Proof.
  unfold canonicalRoutePath, trim. generalize (trim_right slash path). intros t.
  destruct (decide (t = [])) as [->|Ht]; [done|].
  destruct t as [|x t']; [done|]. simpl has_prefix_byte.
  destruct (decide (x = slash)) as [->|Hx].
  - rewrite bool_decide_true by done.
    replace (if 1 <? firstNonSlash (slash :: t')
             then slash :: drop (firstNonSlash (slash :: t')) (slash :: t')
             else slash :: t') with (slash :: trim_left slash (slash :: t')).
    { by rewrite decide_False by done. }
    rewrite <- drop_firstNonSlash. destruct (Nat.ltb_spec 1 (firstNonSlash (slash :: t'))) as [|Hle];
      [done|].
    assert (firstNonSlash (slash :: t') = 1) as ->; [|done].
    simpl in *. lia.
  - rewrite bool_decide_false by congruence.
    assert (firstNonSlash (slash :: x :: t') = 1) as ->.
    { simpl. by rewrite decide_False by congruence. }
    simpl. rewrite (decide_False (P := x = slash)) by congruence.
    done.
Qed.

(** A string that does not end in a slash has a first byte that is not one. *)
Lemma firstNonSlash_lt s : last (slash :: s) ≠ Some slash → firstNonSlash s < length s.
Proof.
  intros Hlast. pose proof (firstNonSlash_le s).
  destruct (decide (firstNonSlash s = length s)) as [Hk|]; [|lia].
  exfalso. apply Hlast. pose proof (drop_firstNonSlash s) as Hd. rewrite Hk, drop_all in Hd.
  destruct (trim_left_decomp slash s) as [n Hn]. rewrite <- Hd, app_nil_r in Hn.
  rewrite Hn. change (slash :: replicate n slash) with (replicate (S n) slash).
  by rewrite replicate_S_end, last_snoc.
Qed.

Lemma drop_slash_firstNonSlash s :
  drop (firstNonSlash s) (slash :: s) = slash :: trim_left slash s.
Proof.
  rewrite <- (drop_firstNonSlash s).
  induction s as [|y s IH]; simpl in *; [done|]. case_decide; [|done]. by subst.
Qed.

(** No duplicate leading slash: cutting the tail is all there is to do. *)
Lemma take_single_slash p :
  head p ≠ Some slash →
  take (strip_end (slash :: p) (length (slash :: p))) (slash :: p)
  = slash :: trim slash (slash :: p).
Proof.
  intros Hp. destruct (strip_end_take (slash :: p)) as [-> _]; [done|]. unfold trim.
  destruct p as [|y p]; [done|].
  assert (trim_right slash (slash :: y :: p) ≠ []) as Htn.
  { intros E. apply trim_right_nil_iff in E. rewrite !Forall_cons in E. simpl in Hp. naive_solver. }
  rewrite Nat.max_r by (destruct (trim_right _ _); simpl; lia || done).
  rewrite take_trim_right. pose proof (trim_right_last slash (slash :: y :: p)) as Hl.
  pose proof (trim_right_head slash (slash :: y :: p) Htn) as Hh.
  destruct (trim_right_decomp slash (slash :: y :: p)) as [n Hn].
  destruct (trim_right slash (slash :: y :: p)) as [|a [|b l]]; [done| |].
  - simpl in *. naive_solver.
  - simpl in *. simplify_eq. rewrite decide_True by done. by rewrite decide_False by congruence.
Qed.

(** Duplicate leading slashes: the slice keeps the last of them. *)
Lemma slice_double_slash p :
  let e := strip_end (slash :: p) (length (slash :: p)) in
  let start := skip_slashes (e - 1) (slash :: p) 1 e in
  (if e <=? start then [slash] else slice (start - 1) e (slash :: p))
  = slash :: trim slash (slash :: p).
Proof.
  cbv zeta. destruct (strip_end_take (slash :: p)) as [He Hle]; [done|].
  set (e := strip_end _ _) in *. unfold trim.
  rewrite (skip_slashes_spec (e - 1)) by lia.
  assert (slice 1 e (slash :: p) = drop 1 (take e (slash :: p))) as ->.
  { unfold slice. by rewrite skipn_firstn_comm. }
  destruct (trim_right slash (slash :: p)) as [|a t] eqn:Et; simpl in He; rewrite He.
  { done. }
  assert (take (S (length t)) (slash :: p) = a :: t) as Htk.
  { rewrite <- Et. change (S (length t)) with (length (a :: t)). rewrite <- Et.
    apply take_trim_right. }
  assert (a = slash) as -> by (simpl in Htk; by injection Htk).
  replace (1 `max` S (length t)) with (S (length t)) by lia. rewrite Htk.
  change (drop 1 (slash :: t)) with t.
  pose proof (firstNonSlash_lt t) as Hk. rewrite <- Et in Hk.
  specialize (Hk (trim_right_last _ _)).
  destruct (Nat.leb_spec (S (length t)) (1 + firstNonSlash t)); [lia|].
  transitivity (drop (firstNonSlash t) (slash :: t)); [|simpl trim_left; apply drop_slash_firstNonSlash].
  unfold slice. rewrite <- Htk, skipn_firstn_comm. f_equal; [lia|]. f_equal. lia.
Qed.

(** The zero-allocation dispatch helper computes the same thing on every path
    that starts with a slash, and on the empty path. *)
Lemma fastNormalizePath_slash path :
  path = [] ∨ has_prefix_byte slash path = true →
  fastNormalizePath path = slash :: trim slash path.
Proof.
  intros Hp. unfold fastNormalizePath. destruct (decide (path = [])) as [->|Hne]; [done|].
  destruct Hp as [|Hp]; [done|].
  destruct path as [|c p]; [done|]. simpl in Hp. apply bool_decide_eq_true in Hp as ->.
  case_match eqn:E; unbool; [apply slice_double_slash|].
  rewrite <- take_single_slash; [|destruct p; simpl in *; naive_solver].
  destruct (Nat.eqb_spec (strip_end (slash :: p) (length (slash :: p))) (length (slash :: p)))
    as [->|]; [|done]. by rewrite firstn_all.
Qed.

Lemma fastNormalizePath_canonical path :
  path = [] ∨ has_prefix_byte slash path = true →
  fastNormalizePath path = canonicalRoutePath path.
Proof. intros H. by rewrite fastNormalizePath_slash, canonicalRoutePath_alt. Qed.

(** A canonical path: one leading slash, then a body without slashes at its
    ends (empty for the root). *)
Definition canonical (path : gostring) : Prop :=
  ∃ q, path = slash :: q ∧ head q ≠ Some slash ∧ last q ≠ Some slash.

Lemma trim_ends c s : head (trim c s) ≠ Some c ∧ last (trim c s) ≠ Some c.
Proof.
  unfold trim. split; [apply trim_left_head|].
  destruct (trim_left_decomp c (trim_right c s)) as [n Hn].
  pose proof (trim_right_last c s) as Hl.
  destruct (trim_left c (trim_right c s)) as [|x t] eqn:E; [done|].
  rewrite Hn, last_app_cons in Hl. done.
Qed.

Lemma trim_idemp c s : trim c (trim c s) = trim c s.
Proof. destruct (trim_ends c s). by apply trim_id. Qed.

Lemma canonicalRoutePath_canonical path : canonical (canonicalRoutePath path).
Proof. rewrite canonicalRoutePath_alt. exists (trim slash path). split; [done|]. apply trim_ends. Qed.

Lemma trim_canonical q :
  head q ≠ Some slash → last q ≠ Some slash → trim slash (slash :: q) = q.
Proof.
  intros Hh Hl. unfold trim. destruct (decide (q = [])) as [->|Hq]; [done|].
  rewrite trim_right_id.
  - simpl. by apply trim_left_id.
  - destruct q; [done|]. by rewrite last_cons_cons.
Qed.

Lemma canonical_fixed path : canonical path → canonicalRoutePath path = path.
Proof. intros (q & -> & Hh & Hl). by rewrite canonicalRoutePath_alt, trim_canonical. Qed.

Lemma canonicalRoutePath_idemp path :
  canonicalRoutePath (canonicalRoutePath path) = canonicalRoutePath path.
Proof. apply canonical_fixed, canonicalRoutePath_canonical. Qed.

Lemma fullPath_canonical prefix path : canonical (fullPath prefix path).
Proof.
  unfold fullPath. case_decide as E.
  - exists []. done.
  - unfold joinRoutePath in *. apply canonicalRoutePath_canonical.
Qed.

(** The trailing-slash cut of [splitPathToParts] never fires on a canonical path,
    and the loop is [strings.Split]. *)
Lemma splitPathToParts_canonical q :
  q ≠ [] → last q ≠ Some slash → splitPathToParts (slash :: q) = split_on slash q.
Proof.
  intros Hq Hl. unfold splitPathToParts.
  rewrite decide_False by naive_solver. rewrite decide_True by done.
  assert ((slash :: q) !! (length (slash :: q) - 1) = last q) as ->.
  { simpl. rewrite last_lookup, Nat.sub_0_r. destruct q; [done|]. done. }
  rewrite (bool_decide_false (last q = Some slash)) by done. rewrite andb_false_r.
  pose proof (split_loop_spec (slash :: q) (length (slash :: q) - 1) 1 1 []) as Hs.
  destruct (split_loop _ _ _ _ _) as [parts start].
  rewrite slice_nil in Hs. destruct Hs as [Hs1 Hs2]; [done|simpl; lia|apply not_elem_of_nil|].
  replace (1 + (length (slash :: q) - 1)) with (length (slash :: q)) in * by (simpl; lia).
  destruct (Nat.leb_spec start (length (slash :: q))); [|lia].
  rewrite Hs2. simpl. f_equal. unfold slice. simpl. by rewrite Nat.sub_0_r, firstn_all.
Qed.

Lemma compilePathSegments_canonical q :
  q ≠ [] → head q ≠ Some slash → last q ≠ Some slash →
  compilePathSegments (slash :: q) = compileSegment <$> split_on slash q.
Proof.
  intros Hq Hh Hl. unfold compilePathSegments. rewrite decide_False by naive_solver.
  by rewrite trim_canonical.
Qed.

(** ** Compiled and validated segments *)

(** The key under which a segment's node is filed in the trie. *)
Definition seg_key (seg : segment) : gostring :=
  if isParam seg then [colon] else if isWild seg then [star] else raw seg.

(** What [compileSegment] guarantees of each segment. *)
Definition seg_wf (seg : segment) : Prop :=
  (isParam seg = true → raw seg = colon :: paramName seg) ∧
  (isWild seg = true → raw seg = star :: paramName seg ∧ isParam seg = false) ∧
  (isParam seg = false → isWild seg = false →
     head (raw seg) ≠ Some colon ∧ head (raw seg) ≠ Some star).

Lemma compileSegment_wf part : seg_wf (compileSegment part).
Proof.
  unfold compileSegment. destruct part as [|x part]; simpl; [by repeat split|].
  destruct (decide (x = colon)) as [->|Hc]; [by repeat split|].
  rewrite (bool_decide_false (x = colon)) by done.
  destruct (decide (x = star)) as [->|Hs]; [by repeat split|].
  rewrite (bool_decide_false (x = star)) by done.
  split; [done|]. split; [done|]. simpl. split; congruence.
Qed.

Lemma compilePathSegments_wf path : Forall seg_wf (compilePathSegments path).
Proof.
  unfold compilePathSegments. case_decide; [constructor|].
  apply Forall_fmap, Forall_true. intros. apply compileSegment_wf.
Qed.

Lemma isRouteParamName_ne name : isRouteParamName name = true → name ≠ [].
Proof. by destruct name. Qed.

(** What passing validation guarantees: no segment is empty, every parameter and
    wildcard is named, and a wildcard is last. *)
Definition seg_valid (seg : segment) : Prop :=
  raw seg ≠ [] ∧ ((isParam seg || isWild seg) = true → paramName seg ≠ []).

Lemma validateSegments_valid n i seen segs :
  validateSegments n i seen segs = None → Forall seg_valid segs.
Proof.
  revert i seen. induction segs as [|seg segs IH]; intros i seen; simpl; [constructor|].
  unfold seg_valid.
  destruct (isParam seg) eqn:Ep, (isWild seg) eqn:Ew; simpl;
    repeat case_match; unbool; intros; try done; constructor; eauto.
  all: split; [done|]; rewrite Ep, Ew; eauto using isRouteParamName_ne; done.
Qed.

Lemma validateSegments_wild_last n i seen segs :
  validateSegments n i seen segs = None → n = i + length segs →
  ∀ j seg, segs !! j = Some seg → isWild seg = true → S j = length segs.
Proof.
  revert i seen. induction segs as [|seg segs IH]; intros i seen; simpl; [done|].
  intros Hv Hn [|j] seg' Hj Hw; simpl in Hj; simplify_eq/=.
  - rewrite Hw in Hv. simpl in Hv. repeat case_match; unbool; try done; f_equal; lia.
  - destruct (isParam seg) eqn:Ep, (isWild seg) eqn:Ew; simpl in Hv;
      repeat case_match; unbool; try done; f_equal; eapply IH; eauto; lia.
Qed.

(** The names captured by a validated pattern are pairwise distinct. *)
Definition seg_names (segs : list segment) : list gostring :=
  paramName <$> filter (λ s, isParam s || isWild s = true) segs.

Lemma validateSegments_names n i seen segs :
  validateSegments n i seen segs = None →
  NoDup (seg_names segs) ∧ Forall (λ x, x ∉ seen) (seg_names segs).
Proof.
  unfold seg_names.
  revert i seen. induction segs as [|seg segs IH]; intros i seen; simpl.
  { intros _. split; constructor. }
  rewrite filter_cons.
  destruct (isParam seg) eqn:Ep, (isWild seg) eqn:Ew; simpl;
    repeat case_match; unbool; intros Hv; try done;
    destruct (IH _ _ Hv) as [Hn Hf]; try done; simpl;
    (split; constructor; [| |done|]); try done.
  all: rewrite Forall_forall in Hf; rewrite ?Forall_forall; set_solver.
Qed.
