(* ===== verification/RouterTrie.v ===== *)
(** * The route trie ([router/router.go], [router/matcher.go],
      [router/registration.go])

    Nodes, child lookup through the byte index, child insertion, the walk of
    [AddRoute] that files a pattern, and the greedy matching of [matchNode]. The
    handler is a value of an arbitrary type [H] ([http.Handler] is an interface);
    [None] is Go's [nil] handler. *)

From stdpp Require Import options.
From S2P Require Import Prelude GoStrings RouterPath.

Section trie.
Context {H : Type}.

(** The struct [node]. *)
Inductive node := Node {
  n_path : gostring;
  n_paramName : gostring;
  n_fullPath : gostring;
  n_indices : gostring;
  n_children : list node;
  n_handler : option H;
  n_paramKeys : list gostring;
  n_routeName : gostring;
}.

(** [&node{}] and [&node{path: p, paramName: q}]. *)
Definition new_node (path pname : gostring) : node :=
  {| n_path := path; n_paramName := pname; n_fullPath := []; n_indices := [];
     n_children := []; n_handler := None; n_paramKeys := []; n_routeName := [] |}.

Definition with_children (n : node) (idx : gostring) (cs : list node) : node :=
  {| n_path := n_path n; n_paramName := n_paramName n; n_fullPath := n_fullPath n;
     n_indices := idx; n_children := cs; n_handler := n_handler n;
     n_paramKeys := n_paramKeys n; n_routeName := n_routeName n |}.
Definition with_paramName (n : node) (pname : gostring) : node :=
  {| n_path := n_path n; n_paramName := pname; n_fullPath := n_fullPath n;
     n_indices := n_indices n; n_children := n_children n; n_handler := n_handler n;
     n_paramKeys := n_paramKeys n; n_routeName := n_routeName n |}.

(** Writing through the pointer [parent.children[i]]. *)
Definition upd_child (n : node) (i : nat) (c : node) : node :=
  with_children n (n_indices n) (<[i := c]> (n_children n)).

(** ** Child lookup *)

(** The linear scan [for i := range children { if children[i].path == path }]; a
    found child is returned with its position, which stands for the pointer. *)
Definition scan_children (cs : list node) (path : gostring) : option (nat * node) :=
  list_find (λ c, n_path c = path) cs.

(** [for i := idx; i < numChildren && parent.indices[i] == firstChar; i++]. *)
Fixpoint scan_bucket (fuel : nat) (n : node) (b : gobyte) (path : gostring) (i : nat)
    : option (nat * node) :=
  match fuel with
  | O => None
  | S fuel =>
      if (i <? length (n_children n)) && bool_decide (n_indices n !! i = Some b) then
        match n_children n !! i with
        | Some c => if decide (n_path c = path) then Some (i, c)
                    else scan_bucket fuel n b path (S i)
        | None => None
        end
      else None
  end.

Definition findStaticChild (parent : node) (path : gostring) : option (nat * node) :=
  if decide (n_children parent = []) then None
  else if length (n_children parent) <=? 2 then scan_children (n_children parent) path
  else match n_indices parent, path with
       | _ :: _, firstChar :: _ =>
           match index_byte firstChar (n_indices parent) with
           | None => None
           | Some idx =>
               scan_bucket (length (n_children parent)) parent firstChar path idx
           end
       | _, _ => scan_children (n_children parent) path
       end.

Definition findChildByByte (parent : node) (b : gobyte) : option (nat * node) :=
  if decide (n_children parent = []) then None
  else match n_indices parent with
       | _ :: _ =>
           match index_byte b (n_indices parent) with
           | Some idx => (λ c, (idx, c)) <$> n_children parent !! idx
           | None => None
           end
       | [] => list_find (λ c, head (n_path c) = Some b) (n_children parent)
       end.

Definition findParamChild (parent : node) : option (nat * node) := findChildByByte parent colon.
Definition findWildChild (parent : node) : option (nat * node) := findChildByByte parent star.

(** ** Child insertion *)

(** Go's [string(b)] of a byte is the UTF-8 encoding of the code point [b]: one
    byte below 128, two bytes from 128 on. *)
Definition string_of_byte (b : gobyte) : gostring :=
  let v := byte_val b in
  if (v <? 128)%N then [b]
  else [byte_of (192 + v / 64); byte_of (128 + v mod 64)].

(** [for i < len(indices) && indices[i] <= b { i++ }]. *)
Fixpoint insert_pos (idx : gostring) (b : gobyte) : nat :=
  match idx with
  | x :: r => if byte_leb x b then S (insert_pos r b) else 0
  | [] => 0
  end.

(** [insertChild]: the new parent and the position of the child in it. [None] is
    a run-time panic: [child.path[0]] of an empty path, or [children[i+1:]] with
    [i] beyond the children. *)
Definition insertChild (parent child : node) : option (node * nat) :=
  match n_path child with
  | [] => None
  | b :: _ =>
      let i := insert_pos (n_indices parent) b in
      let idx := take i (n_indices parent) ++ string_of_byte b ++ drop i (n_indices parent) in
      if i <=? length (n_children parent)
      then Some (with_children parent idx
                   (take i (n_children parent) ++ child :: drop i (n_children parent)), i)
      else None
  end.

(** ** Registration: the walk of [AddRoute] *)

(** [finalizeRouteRegistrationLocked], the part that concerns the node. *)
Definition finalizeNode (h : H) (full name : gostring) (keys : list gostring) (cur : node)
    : node * option routeErr :=
  match n_handler cur with
  | Some _ => (cur, Some ErrDuplicateRoute)
  | None =>
      ({| n_path := n_path cur; n_paramName := n_paramName cur; n_fullPath := full;
          n_indices := n_indices cur; n_children := n_children cur; n_handler := Some h;
          n_paramKeys := keys; n_routeName := name |}, None)
  end.

(** The loop over the segments. The Go code follows the pointer [current] into
    the tree; here each step returns the updated subtree, also on errors. *)
Fixpoint addSegments (fin : list gostring → node → node * option routeErr)
    (segs : list segment) (keys : list gostring) (cur : node) : node * option routeErr :=
  match segs with
  | [] => fin keys cur
  | seg :: rest =>
      let descend keys parent i child :=
        let '(child', e) := addSegments fin rest keys child in (upd_child parent i child', e) in
      let insert_and_descend keys child :=
        match insertChild cur child with
        | Some (parent, i) => descend keys parent i child
        | None => (cur, Some PanicIndexOutOfRange)
        end in
      if isParam seg then
        let keys := keys ++ [paramName seg] in
        match findParamChild cur with
        | Some (i, child) =>
            if decide (n_paramName child = []) then
              descend keys cur i (with_paramName child (paramName seg))
            else if decide (n_paramName child ≠ paramName seg) then
              (cur, Some (ErrParamMismatch (n_paramName child) (paramName seg)))
            else descend keys cur i child
        | None => insert_and_descend keys (new_node [colon] (paramName seg))
        end
      else if isWild seg then
        let keys := keys ++ [paramName seg] in
        match findWildChild cur with
        | Some (i, child) =>
            if decide (n_paramName child = []) then
              descend keys cur i (with_paramName child (paramName seg))
            else if decide (n_paramName child ≠ paramName seg) then
              (cur, Some (ErrWildcardMismatch (n_paramName child) (paramName seg)))
            else descend keys cur i child
        | None => insert_and_descend keys (new_node [star] (paramName seg))
        end
      else
        match findStaticChild cur (raw seg) with
        | Some (i, child) => descend keys cur i child
        | None => insert_and_descend keys (new_node (raw seg) [])
        end
  end.

(** ** Matching *)

(** The struct [matchResult]. *)
Record matchResult := mkMatch {
  Handler : H;
  ParamValues : list gostring;
  ParamKeys : list gostring;
  RoutePattern : gostring;
  RouteMethod : gostring;
  RouteName : gostring;
}.

(** [off := 1; for j < i { off += len(parts[j]) + 1 }]. *)
Definition wildcardOffset (parts : list gostring) (i : nat) : nat :=
  1 + sum_list ((λ p, length p + 1) <$> take i parts).

(** The loop of [matchNode] over [parts] from position [i] on. *)
Fixpoint matchLoop (parts : list gostring) (rawPath : gostring) (rest : list gostring)
    (i : nat) (cur : node) (vals : list gostring) : option (node * list gostring) :=
  match rest with
  | [] => Some (cur, vals)
  | pathSegment :: rest =>
      if decide (pathSegment = []) then None
      else match findStaticChild cur pathSegment with
      | Some (_, child) => matchLoop parts rawPath rest (S i) child vals
      | None =>
          match findParamChild cur with
          | Some (_, child) => matchLoop parts rawPath rest (S i) child (vals ++ [pathSegment])
          | None =>
              match findWildChild cur with
              | Some (_, child) => Some (child, vals ++ [drop (wildcardOffset parts i) rawPath])
              | None => None
              end
          end
      end
  end.

(** [matchNode]; the field [RouteMethod] is filled in by the caller. The slices
    [rawPath[off:]] are in range for the [parts] of [rawPath]
    ([wildcardOffset_suffix] below). The parameter-value pool only recycles
    memory. *)
Definition matchNode (root : node) (parts : list gostring) (rawPath : gostring)
    : option matchResult :=
  match matchLoop parts rawPath parts 0 root [] with
  | Some (cur, vals) =>
      match n_handler cur with
      | Some h => Some {| Handler := h; ParamValues := vals; ParamKeys := n_paramKeys cur;
                          RoutePattern := n_fullPath cur; RouteMethod := [];
                          RouteName := n_routeName cur |}
      | None => None
      end
  | None => None
  end.

(** ** The trie as a map from key paths to nodes *)

Definition child (n : node) (k : gostring) : option node :=
  snd <$> scan_children (n_children n) k.

Fixpoint lookup_node (n : node) (ks : list gostring) : option node :=
  match ks with
  | [] => Some n
  | k :: ks => c ← child n k; lookup_node c ks
  end.

Definition child_shape (c : node) : Prop :=
  n_path c ≠ [] ∧
  (head (n_path c) = Some colon → n_path c = [colon] ∧ n_paramName c ≠ []) ∧
  (head (n_path c) = Some star → n_path c = [star] ∧ n_paramName c ≠ []).

(** The well-formedness of one node: the index lists the first bytes of the
    children in order, paths are distinct, capture children are named. *)
Definition node_ok (n : node) : Prop :=
  Forall2 (λ b c, head (n_path c) = Some b) (n_indices n) (n_children n) ∧
  StronglySorted byte_le (n_indices n) ∧
  NoDup (n_path <$> n_children n) ∧
  Forall child_shape (n_children n).

Definition tree_ok (n : node) : Prop :=
  ∀ ks m, lookup_node n ks = Some m → node_ok m.

(** The route stored at a key path. *)
Definition route_at (n : node) (ks : list gostring)
    : option (H * list gostring * gostring * gostring) :=
  m ← lookup_node n ks; h ← n_handler m;
  Some (h, n_paramKeys m, n_fullPath m, n_routeName m).

(** ** Lookup through the index is linear search *)

Lemma scan_unique n i c k :
  node_ok n → n_children n !! i = Some c → n_path c = k →
  scan_children (n_children n) k = Some (i, c).
Proof.
  intros (_ & _ & Hnd & _) Hi Hk. apply list_find_Some. split; [done|]. split; [done|].
  intros j y Hj Hlt Hy. assert (j = i); [|lia].
  eapply (NoDup_lookup _ _ _ k Hnd); rewrite list_lookup_fmap, ?Hj, ?Hi; simpl; by f_equal.
Qed.

Lemma scan_Some n i c k :
  scan_children (n_children n) k = Some (i, c) → n_children n !! i = Some c ∧ n_path c = k.
Proof. intros Hs. apply list_find_Some in Hs. naive_solver. Qed.

Lemma node_ok_index n i c b :
  node_ok n → n_children n !! i = Some c → n_indices n !! i = Some b ↔ head (n_path c) = Some b.
Proof.
  intros (Hf & _) Hi. destruct (Forall2_lookup_r _ _ _ _ _ Hf Hi) as (b' & Hb' & Hh).
  rewrite Hb'. naive_solver.
Qed.

Lemma scan_bucket_sound fuel n b k i j c :
  scan_bucket fuel n b k i = Some (j, c) → n_children n !! j = Some c ∧ n_path c = k.
Proof.
  revert i. induction fuel as [|fuel IH]; intros i; simpl; [done|].
  repeat case_match; naive_solver.
Qed.

Lemma scan_bucket_complete fuel n b k i j c :
  n_children n !! j = Some c → n_path c = k → i ≤ j → j - i < fuel →
  (∀ a, i ≤ a ≤ j → n_indices n !! a = Some b) →
  is_Some (scan_bucket fuel n b k i).
Proof.
  revert i. induction fuel as [|fuel IH]; intros i Hj Hk Hij Hf Hb; [lia|]. simpl.
  pose proof (lookup_lt_Some _ _ _ Hj) as Hlt.
  destruct (Nat.ltb_spec i (length (n_children n))); [|lia]. simpl.
  rewrite bool_decide_true by (apply Hb; lia).
  destruct (lookup_lt_is_Some_2 (n_children n) i) as [ci Hi]; [lia|]. rewrite Hi.
  case_decide as Hp; [eauto|].
  destruct (decide (i = j)) as [->|]; [naive_solver|].
  apply IH; try done; [lia|lia|]. intros a Ha. apply Hb. lia.
Qed.

Lemma sorted_between (l : gostring) i a j b :
  StronglySorted byte_le l → l !! i = Some b → l !! j = Some b → i ≤ a ≤ j → l !! a = Some b.
Proof.
  intros Hs Hi Hj Ha. pose proof (lookup_lt_Some _ _ _ Hj).
  destruct (lookup_lt_is_Some_2 l a) as [x Hx]; [lia|]. rewrite Hx. f_equal.
  assert (∀ p q y z, p ≤ q → l !! p = Some y → l !! q = Some z → byte_le y z) as Hle.
  { clear -Hs. induction Hs as [|w l Hs IH Hf]; intros p q y z Hpq Hp Hq; [done|].
    destruct p as [|p], q as [|q]; simpl in *; simplify_eq; [reflexivity| |lia|].
    - rewrite Forall_forall in Hf. apply Hf. by eapply list_elem_of_lookup_2.
    - eapply (IH p q); [lia|done|done]. }
  apply (anti_symm byte_le); [by eapply (Hle a j); [lia|..] | by eapply (Hle i a); [lia|..]].
Qed.

(** On a well-formed node the three-way lookup of [findStaticChild] is the plain
    linear search, whatever the number of children. *)
Lemma findStaticChild_scan n k :
  node_ok n → findStaticChild n k = scan_children (n_children n) k.
Proof.
  intros Hok. pose proof Hok as (Hf & Hs & Hnd & Hsh). unfold findStaticChild.
  case_decide as Hc; [by rewrite Hc|]. destruct (_ <=? 2); [done|].
  destruct (n_indices n) as [|b0 idx] eqn:Ei; [done|].
  destruct k as [|b k]; [done|]. rewrite <- Ei in *. unfold index_byte.
  destruct (list_find (b =.) (n_indices n)) as [[i x]|] eqn:El; simpl.
  - apply list_find_Some in El as (Hi & <- & Hfirst).
    destruct (scan_bucket _ _ _ _ _) as [[j c]|] eqn:Eb.
    + apply scan_bucket_sound in Eb as [Hj Hp]. symmetry. by apply scan_unique.
    + destruct (scan_children (n_children n) (b :: k)) as [[j c]|] eqn:E; [|done].
      apply scan_Some in E as [Hj Hp].
      assert (n_indices n !! j = Some b) as Hjb by (eapply node_ok_index; [done..|by rewrite Hp]).
      assert (i ≤ j) as Hij.
      { destruct (decide (i ≤ j)); [done|]. exfalso. eapply (Hfirst j); [done|lia|done]. }
      destruct (scan_bucket_complete (length (n_children n)) n b (b :: k) i j c)
        as [? Hx]; [done|done|done| |intros a Ha; by apply (sorted_between _ i a j)|congruence].
      pose proof (lookup_lt_Some _ _ _ Hj). lia.
  - apply list_find_None in El.
    destruct (scan_children (n_children n) (b :: k)) as [[j c]|] eqn:E; [|done].
    apply scan_Some in E as [Hj Hp].
    assert (n_indices n !! j = Some b) as Hjb by (eapply node_ok_index; [done..|by rewrite Hp]).
    rewrite Forall_lookup in El. by destruct (El _ _ Hjb).
Qed.

(** Likewise the capture children: the child filed under the byte is the node
    whose whole path is that byte. *)
Lemma findChildByByte_scan n b :
  node_ok n → b = colon ∨ b = star →
  findChildByByte n b = scan_children (n_children n) [b].
Proof.
  intros Hok Hb. pose proof Hok as (Hf & Hs & Hnd & Hsh). unfold findChildByByte.
  case_decide as Hc; [by rewrite Hc|].
  destruct (n_indices n) as [|b0 idx] eqn:Ei.
  { exfalso. apply Hc. by apply Forall2_nil_inv_l in Hf. }
  rewrite <- Ei in *. unfold index_byte.
  destruct (list_find (b =.) (n_indices n)) as [[i x]|] eqn:El; simpl.
  - apply list_find_Some in El as (Hi & <- & Hfirst).
    destruct (Forall2_lookup_l _ _ _ _ _ Hf Hi) as (c & Hci & Hh). rewrite Hci. simpl.
    symmetry. apply scan_unique; [done..|].
    destruct (Forall_lookup_1 _ _ _ _ Hsh Hci) as (_ & H1 & H2). naive_solver.
  - apply list_find_None in El.
    destruct (scan_children (n_children n) [b]) as [[j c]|] eqn:E; [|done].
    apply scan_Some in E as [Hj Hp].
    assert (n_indices n !! j = Some b) as Hjb by (eapply node_ok_index; [done..|by rewrite Hp]).
    rewrite Forall_lookup in El. by destruct (El _ _ Hjb).
Qed.

End trie.
#[global] Arguments node : clear implicits.
#[global] Arguments matchResult : clear implicits.
