(* ===== verification/RouterTrieFacts.v ===== *)
(** * The trie files and finds routes

    Inserting and updating children keeps a node well formed; the walk of
    [AddRoute] either files exactly one new route or leaves the tree as it was;
    greedy matching on the trie is greedy matching on the table of registered
    patterns. *)

From stdpp Require Import options.
From S2P Require Import Prelude GoStrings RouterPath RouterTrie.

Section facts.
Context {H : Type}.
Implicit Types (n c cur : node H) (k b : gostring) (ks K : list gostring).

(** ** Children as a finite map *)

Lemma child_Some n k c :
  node_ok n → child n k = Some c ↔ c ∈ n_children n ∧ n_path c = k.
Proof.
  intros Hok. unfold child. split.
  - intros ([i c'] & Hs & ->)%fmap_Some. apply scan_Some in Hs as [Hi Hp].
    split; [by eapply list_elem_of_lookup_2 | done].
  - intros [Hin Hp]. apply list_elem_of_lookup in Hin as [i Hi].
    by rewrite (scan_unique n i c k).
Qed.

Lemma child_path n k c : child n k = Some c → n_path c = k.
Proof. intros ([i c'] & Hs & ->)%fmap_Some. by apply scan_Some in Hs as [_ ?]. Qed.

Lemma child_ext n n' c' k0 :
  node_ok n → node_ok n' → n_path c' = k0 →
  (∀ c, n_path c ≠ k0 → c ∈ n_children n' ↔ c ∈ n_children n) → c' ∈ n_children n' →
  ∀ k, child n' k = if decide (k = k0) then Some c' else child n k.
Proof.
  intros Hok Hok' Hp Hne Hin k. case_decide as Hk.
  - subst k. by apply child_Some.
  - apply option_eq. intros c. rewrite !child_Some by done. split; intros [? <-]; split; try done;
      by apply Hne.
Qed.

Lemma insert_pos_le (idx : gostring) x : insert_pos idx x ≤ length idx.
Proof. induction idx; simpl; [done|]. case_match; lia. Qed.

Lemma insert_pos_sorted (idx : gostring) x :
  StronglySorted byte_le idx →
  StronglySorted byte_le (take (insert_pos idx x) idx ++ x :: drop (insert_pos idx x) idx).
Proof.
  induction 1 as [|y l Hs IH Hf]; simpl; [repeat constructor|].
  destruct (byte_leb y x) eqn:E; simpl.
  - apply byte_leb_spec in E. constructor; [done|].
    rewrite <- (take_drop (insert_pos l x) l) in Hf.
    rewrite Forall_app in Hf |- *. rewrite Forall_cons. naive_solver.
  - assert (byte_le x y) as Hxy.
    { destruct (byte_le_total x y) as [|Hyx]; [done|]. apply byte_leb_spec in Hyx. congruence. }
    constructor; [by constructor|]. constructor; [done|].
    eapply Forall_impl; [done|]. intros z. by apply byte_le_trans.
Qed.

(** Inserting a child whose path starts with an ASCII byte. *)
Lemma insertChild_ok n c x r :
  node_ok n → child_shape c → n_path c = x :: r → (byte_val x < 128)%N →
  child n (n_path c) = None →
  ∃ n' i, insertChild n c = Some (n', i) ∧ node_ok n' ∧ n_children n' !! i = Some c ∧
    (∀ k, child n' k = if decide (k = n_path c) then Some c else child n k) ∧
    n_path n' = n_path n ∧ n_paramName n' = n_paramName n ∧ n_handler n' = n_handler n ∧
    n_paramKeys n' = n_paramKeys n ∧ n_fullPath n' = n_fullPath n ∧ n_routeName n' = n_routeName n.
Proof.
  intros Hok Hsh Hp Hx Hnone. pose proof Hok as (Hf & Hs & Hnd & Hshs).
  pose proof (Forall2_length _ _ _ Hf) as Hlen.
  pose proof (insert_pos_le (n_indices n) x) as Hle.
  unfold insertChild. rewrite Hp. set (i := insert_pos (n_indices n) x) in *.
  destruct (Nat.leb_spec i (length (n_children n))) as [Hi|]; [|lia].
  unfold string_of_byte. destruct (N.ltb_spec (byte_val x) 128) as [_|]; [|lia]. simpl.
  eexists _, i. split; [done|].
  assert (∀ y, y ∈ take i (n_children n) ++ c :: drop i (n_children n) ↔ y = c ∨ y ∈ n_children n) as Hin.
  { intros y. rewrite <- (take_drop i (n_children n)) at 3.
    rewrite !elem_of_app, elem_of_cons. naive_solver. }
  assert (node_ok (with_children n (take i (n_indices n) ++ x :: drop i (n_indices n))
            (take i (n_children n) ++ c :: drop i (n_children n)))) as Hok'.
  { repeat split; simpl.
    - apply Forall2_app; [by apply Forall2_take|]. constructor; [by rewrite Hp|].
      by apply Forall2_drop.
    - by apply insert_pos_sorted.
    - rewrite fmap_app, fmap_cons, <- Permutation_middle, <- fmap_app, take_drop.
      apply NoDup_cons. split; [|done]. intros (y & Hy & Hin')%list_elem_of_fmap.
      assert (child n (n_path c) = Some y) by (apply child_Some; naive_solver). congruence.
    - rewrite <- (take_drop i (n_children n)) in Hshs. rewrite Forall_app in Hshs |- *.
      rewrite Forall_cons. naive_solver. }
  split; [done|]. split.
  { simpl. rewrite lookup_app_r by (rewrite length_take; lia).
    rewrite length_take. by replace (i - i `min` length (n_children n)) with 0 by lia. }
  split; [|done].
  rewrite <- Hp. apply child_ext; try done; simpl; [|rewrite Hin; by left].
  intros y Hy. rewrite Hin. naive_solver.
Qed.

(** Writing a child back in place. *)
Lemma upd_child_ok n i c c' :
  node_ok n → n_children n !! i = Some c → n_path c' = n_path c → child_shape c' →
  node_ok (upd_child n i c') ∧
  (∀ k, child (upd_child n i c') k = if decide (k = n_path c) then Some c' else child n k).
Proof.
  intros Hok Hi Hp Hsh. pose proof Hok as (Hf & Hs & Hnd & Hshs).
  pose proof (lookup_lt_Some _ _ _ Hi) as Hlt.
  assert (node_ok (upd_child n i c')) as Hok'.
  { repeat split; simpl; try done.
    - destruct (Forall2_lookup_r _ _ _ _ _ Hf Hi) as (x & Hx & Hh).
      rewrite <- (list_insert_id (n_indices n) i x) by done.
      apply Forall2_insert; [done|congruence].
    - rewrite list_fmap_insert, list_insert_id; [done|].
      rewrite list_lookup_fmap, Hi. simpl. by f_equal.
    - by apply Forall_insert. }
  split; [done|]. apply child_ext; try done; simpl.
  - intros y Hy. rewrite !list_elem_of_lookup. split; intros [j Hj].
    + destruct (decide (i = j)) as [->|Hne].
      * rewrite list_lookup_insert_eq in Hj by done. congruence.
      * rewrite list_lookup_insert_ne in Hj by done. eauto.
    + exists j. rewrite list_lookup_insert_ne; [done|]. intros ->. congruence.
  - apply list_elem_of_lookup. exists i. by rewrite list_lookup_insert_eq.
Qed.

(** ** Trees *)

Lemma tree_ok_unfold n :
  tree_ok n ↔ node_ok n ∧ ∀ k c, child n k = Some c → tree_ok c.
Proof.
  split.
  - intros Ht. split; [by apply (Ht [])|]. intros k c Hc ks m Hm.
    apply (Ht (k :: ks)). simpl. by rewrite Hc.
  - intros [Hn Hc] [|k ks] m Hm; simpl in Hm; [by simplify_eq|].
    apply bind_Some in Hm as (c & Hk & Hm). by eapply Hc.
Qed.

Lemma tree_ok_node n : tree_ok n → node_ok n.
Proof. intros Ht. by apply tree_ok_unfold in Ht as [? _]. Qed.
Lemma tree_ok_child n k c : tree_ok n → child n k = Some c → tree_ok c.
Proof. intros Ht. apply tree_ok_unfold in Ht as [_ ?]. eauto. Qed.

Lemma child_shape_of n k c : node_ok n → child n k = Some c → child_shape c.
Proof.
  intros Hok Hc. apply child_Some in Hc as [Hin _]; [|done].
  destruct Hok as (_ & _ & _ & Hsh). rewrite Forall_forall in Hsh. by apply Hsh.
Qed.

Lemma leaf_ok path pname : tree_ok (new_node (H:=H) path pname).
Proof.
  apply tree_ok_unfold. split; [|done]. repeat split; constructor.
Qed.

Lemma lookup_leaf path pname ks :
  is_Some (lookup_node (new_node (H:=H) path pname) ks) ↔ ks = [].
Proof. destruct ks; simpl; [naive_solver|]. split; [intros [? ?]|]; done. Qed.

Lemma route_at_leaf path pname ks : route_at (new_node (H:=H) path pname) ks = None.
Proof. by destruct ks. Qed.

Lemma route_at_nil n :
  route_at n [] = h ← n_handler n; Some (h, n_paramKeys n, n_fullPath n, n_routeName n).
Proof. done. Qed.

Lemma route_at_cons n k ks : route_at n (k :: ks) = c ← child n k; route_at c ks.
Proof. unfold route_at. simpl. by destruct (child n k). Qed.

(** Two nodes with the same own data and children. *)
Definition same_data n n' : Prop :=
  n_handler n' = n_handler n ∧ n_paramKeys n' = n_paramKeys n ∧
  n_fullPath n' = n_fullPath n ∧ n_routeName n' = n_routeName n.

Lemma route_at_same n n' : same_data n n' → route_at n' [] = route_at n [].
Proof. intros (E1 & E2 & E3 & E4). rewrite !route_at_nil. by rewrite E1, E2, E3, E4. Qed.

Definition route_data : Type := H * list gostring * gostring * gostring.

(** [filed n n' K r]: [n'] is [n] with the one new route [r] stored at key path
    [K], every other route as before, and the nodes of [K] added. *)
Record filed (n n' : node H) (K : list gostring) (r : route_data) : Prop := {
  filed_ok : tree_ok n';
  filed_path : n_path n' = n_path n;
  filed_pname : n_paramName n' = n_paramName n;
  filed_nodes ks : is_Some (lookup_node n' ks) ↔ is_Some (lookup_node n ks) ∨ ks `prefix_of` K;
  filed_routes ks : route_at n' ks = if decide (ks = K) then Some r else route_at n ks;
  filed_new : route_at n K = None;
}.

Lemma child_shape_ext c c' :
  n_path c' = n_path c → n_paramName c' = n_paramName c → child_shape c → child_shape c'.
Proof. unfold child_shape. by intros -> ->. Qed.

Lemma tree_ok_upd n n' k0 c' :
  tree_ok n → node_ok n' → tree_ok c' →
  (∀ k, child n' k = if decide (k = k0) then Some c' else child n k) → tree_ok n'.
Proof.
  intros Ht Hok Hc Hch. apply tree_ok_unfold. split; [done|]. intros k c. rewrite Hch.
  case_decide; [naive_solver|]. by apply tree_ok_child.
Qed.

(** Filing below an existing child files at the longer key path. *)
Lemma filed_descend n i c c' K r :
  tree_ok n → n_children n !! i = Some c → filed c c' K r →
  filed n (upd_child n i c') (n_path c :: K) r.
Proof.
  intros Ht Hi Hf. pose proof (tree_ok_node _ Ht) as Hok.
  assert (child n (n_path c) = Some c) as Hc.
  { unfold child. by rewrite (scan_unique n i c (n_path c)). }
  assert (child_shape c') as Hsh.
  { eapply child_shape_ext; [apply Hf|apply Hf|by eapply child_shape_of]. }
  destruct (upd_child_ok n i c c') as [Hok' Hch]; try done; [apply Hf|].
  assert (same_data n (upd_child n i c')) as Hsame by done.
  split; try done.
  - eapply tree_ok_upd; [done|done|apply Hf|done].
  - intros [|k ks].
    { simpl. split; intros; [left|]; eauto using prefix_nil. }
    simpl. rewrite Hch. case_decide as Hk.
    + subst k. rewrite Hc. simpl. rewrite (filed_nodes _ _ _ _ Hf).
      split; intros [?|Hpre]; auto.
      * right. by apply prefix_cons.
      * right. by eapply prefix_cons_inv_2.
    + split; [by left|]. intros [?|Hpre]; [done|]. by apply prefix_cons_inv_1 in Hpre.
  - intros [|k ks].
    { rewrite decide_False by done. by apply route_at_same. }
    rewrite !route_at_cons, Hch. case_decide as Hk.
    + subst k. rewrite Hc. simpl. rewrite (filed_routes _ _ _ _ Hf).
      repeat case_decide; naive_solver.
    + rewrite decide_False by naive_solver. done.
  - rewrite route_at_cons, Hc. apply Hf.
Qed.

(** Filing through a freshly inserted leaf. *)
Lemma filed_insert n c x r' c' K r :
  tree_ok n → child_shape c → n_path c = x :: r' → (byte_val x < 128)%N →
  (∃ p q, c = new_node p q) → child n (n_path c) = None → filed c c' K r →
  ∃ n' i, insertChild n c = Some (n', i) ∧ filed n (upd_child n' i c') (n_path c :: K) r.
Proof.
  intros Ht Hsh Hp Hx (p & q & ->) Hnone Hf. pose proof (tree_ok_node _ Ht) as Hok.
  destruct (insertChild_ok n (new_node p q) x r') as
    (n' & i & Hins & Hok' & Hi & Hch & E1 & E2 & E3 & E4 & E5 & E6); try done.
  exists n', i. split; [done|].
  assert (tree_ok n') as Ht' by (eapply (tree_ok_upd n n'); [done|done|apply leaf_ok|done]).
  destruct (filed_descend n' i _ c' K r Ht' Hi Hf) as [F1 F2 F3 F4 F5 F6].
  split; try done; try congruence.
  - intros [|k ks].
    { rewrite F4. simpl. naive_solver eauto using prefix_nil. }
    rewrite F4. simpl. rewrite Hch. case_decide as Hk; [|done]. subst k. simpl.
    simpl in Hnone. rewrite Hnone. simpl. rewrite lookup_leaf. split.
    + intros [->|?]; right; [|done]. apply prefix_cons, prefix_nil.
    + intros [[? [=]]|?]; auto.
  - intros ks. rewrite F5. case_decide; [done|]. destruct ks as [|k ks].
    { apply route_at_same. done. }
    rewrite !route_at_cons, Hch. case_decide; [|done]. subst. simpl.
    simpl in Hnone. rewrite Hnone. simpl. apply route_at_leaf.
  - rewrite route_at_cons. simpl in *. by rewrite Hnone.
Qed.

(** ** The walk of [AddRoute] *)

(** A segment that validation accepts and whose first byte is ASCII. *)
Definition seg_ascii (seg : segment) : Prop :=
  match raw seg with x :: _ => (byte_val x < 128)%N | [] => True end.
Definition seg_good (seg : segment) : Prop := seg_wf seg ∧ seg_valid seg ∧ seg_ascii seg.

Definition add_error n K (e : routeErr) : Prop :=
  (e = ErrDuplicateRoute ∧ is_Some (route_at n K)) ∨
  (∃ x y, x ≠ y ∧ (e = ErrParamMismatch x y ∨ e = ErrWildcardMismatch x y)).

(** A registration files exactly one route, or reports a conflict and leaves the
    tree untouched. *)
Definition add_outcome n K (r : route_data) (p : node H * option routeErr) : Prop :=
  match p with
  | (n', None) => filed n n' K r
  | (n', Some e) => n' = n ∧ add_error n K e
  end.

Lemma finalize_outcome h full name keys cur :
  tree_ok cur → add_outcome cur [] (h, keys, full, name) (finalizeNode h full name keys cur).
Proof.
  intros Ht. unfold finalizeNode. destruct (n_handler cur) as [h'|] eqn:Eh; simpl.
  - split; [done|]. left. split; [done|]. rewrite route_at_nil, Eh. simpl. eauto.
  - split; simpl; try done.
    + apply tree_ok_unfold in Ht as [Hok Hc]. by apply tree_ok_unfold.
    + intros [|k ks]; simpl.
      * split; [intros _; right; apply prefix_nil|eauto].
      * split; [by left|]. intros [?|Hpre]; [done|]. by apply prefix_nil_not in Hpre.
    + intros [|k ks]; [done|]. by rewrite decide_False.
    + by rewrite route_at_nil, Eh.
Qed.

Lemma upd_child_id n i c : n_children n !! i = Some c → upd_child n i c = n.
Proof. intros Hi. unfold upd_child. rewrite list_insert_id by done. by destruct n. Qed.

Lemma descend_outcome cur i c K r p :
  tree_ok cur → n_children cur !! i = Some c → add_outcome c K r p →
  add_outcome cur (n_path c :: K) r (let '(c', e) := p in (upd_child cur i c', e)).
Proof.
  intros Ht Hi. destruct p as [c' [e|]]; simpl; [|by apply filed_descend].
  intros [-> He]. split; [by apply upd_child_id|].
  destruct He as [[-> Hr]|He]; [left|by right]. split; [done|].
  rewrite route_at_cons. unfold child.
  by rewrite (scan_unique cur i c (n_path c)) by eauto using tree_ok_node.
Qed.

(** Below a fresh leaf there is nothing to conflict with. *)
Lemma insert_outcome cur p q x r' K r res :
  tree_ok cur → child_shape (new_node (H:=H) p q) → p = x :: r' → (byte_val x < 128)%N →
  child cur p = None → snd res = None → add_outcome (new_node p q) K r res →
  add_outcome cur (p :: K) r
    (match insertChild cur (new_node p q) with
     | Some (parent, i) => let '(c', e) := res in (upd_child parent i c', e)
     | None => (cur, Some PanicIndexOutOfRange)
     end).
Proof.
  intros Ht Hsh Hp Hx Hnone Hres Hout. destruct res as [c' e]. simpl in Hres. subst e.
  destruct (filed_insert cur (new_node p q) x r' c' K r) as (n' & i & -> & Hf); eauto.
Qed.

Lemma new_node_shape p q :
  p ≠ [] → (head p = Some colon → p = [colon] ∧ q ≠ []) → (head p = Some star → p = [star] ∧ q ≠ []) →
  child_shape (new_node (H:=H) p q).
Proof. done. Qed.

(** The facts about one good segment the walk needs. *)
Lemma seg_good_key seg :
  seg_good seg →
  ∃ x r, seg_key seg = x :: r ∧ (byte_val x < 128)%N ∧
  child_shape (new_node (H:=H) (seg_key seg) (if isParam seg || isWild seg then paramName seg else [])).
Proof.
  intros ((W1 & W2 & W3) & (V1 & V2) & A). unfold seg_key, seg_ascii in *.
  destruct (isParam seg) eqn:Ep; [|destruct (isWild seg) eqn:Ew]; simpl.
  - exists colon, []. repeat split; try done. by apply V2.
  - exists star, []. repeat split; try done. by apply V2.
  - destruct (raw seg) as [|x r]; [done|]. exists x, r. destruct W3; [done..|].
    repeat split; try done; simpl in *; congruence.
Qed.

Lemma findParamChild_scan n : node_ok n → findParamChild n = scan_children (n_children n) [colon].
Proof. intros. apply findChildByByte_scan; auto. Qed.
Lemma findWildChild_scan n : node_ok n → findWildChild n = scan_children (n_children n) [star].
Proof. intros. apply findChildByByte_scan; auto. Qed.

Lemma add_fresh h full name segs keys p q :
  Forall seg_good segs →
  snd (addSegments (finalizeNode h full name) segs keys (new_node (H:=H) p q)) = None.
Proof.
  revert keys p q. induction segs as [|seg segs IH]; intros keys p q Hg; [done|].
  apply Forall_cons in Hg as [Hseg Hg]. destruct (seg_good_key seg Hseg) as (x & r & Hk & Hx & Hsh).
  assert (∀ keys, snd (match insertChild (new_node (H:=H) p q)
      (new_node (seg_key seg) (if isParam seg || isWild seg then paramName seg else [])) with
     | Some (parent, i) => let '(c', e) := addSegments (finalizeNode h full name) segs keys
        (new_node (seg_key seg) (if isParam seg || isWild seg then paramName seg else [])) in
        (upd_child parent i c', e)
     | None => (new_node p q, Some PanicIndexOutOfRange)
     end) = None) as Hins.
  { intros keys'. destruct (insertChild_ok (new_node p q)
      (new_node (seg_key seg) (if isParam seg || isWild seg then paramName seg else [])) x r)
      as (n' & i & -> & _); try done.
    { apply tree_ok_node, leaf_ok. }
    specialize (IH keys' (seg_key seg) (if isParam seg || isWild seg then paramName seg else []) Hg).
    destruct (addSegments _ _ _ _). done. }
  simpl. unfold seg_key in Hins. destruct (isParam seg); [apply Hins|].
  destruct (isWild seg); [apply Hins|]. apply Hins.
Qed.

Lemma scan_child n k : child n k = snd <$> scan_children (n_children n) k.
Proof. done. Qed.

(** Descending into the capture child [k] that exists already: its name is never
    empty, and it must agree. *)
Lemma capture_outcome cur seg i c K r (rest : list gostring → node H → node H * option routeErr) keys mism k :
  tree_ok cur → scan_children (n_children cur) k = Some (i, c) → k = [colon] ∨ k = [star] →
  (mism = ErrParamMismatch ∨ mism = ErrWildcardMismatch) →
  add_outcome c K r (rest keys c) →
  add_outcome cur (k :: K) r
    (if decide (n_paramName c = []) then
       let '(c', e) := rest keys (with_paramName c (paramName seg)) in (upd_child cur i c', e)
     else if decide (n_paramName c ≠ paramName seg) then
       (cur, Some (mism (n_paramName c) (paramName seg)))
     else let '(c', e) := rest keys c in (upd_child cur i c', e)).
Proof.
  intros Ht Hs Hk Hm Hout. pose proof (tree_ok_node _ Ht) as Hok.
  pose proof Hs as [Hi Hp]%scan_Some.
  assert (child cur k = Some c) as Hc by (by rewrite scan_child, Hs).
  pose proof (child_shape_of _ _ _ Hok Hc) as (_ & S1 & S2).
  assert (n_paramName c ≠ []) as Hpn.
  { destruct Hk as [Hk|Hk]; rewrite Hk in Hp; rewrite Hp in S1, S2; naive_solver. }
  rewrite decide_False by done.
  case_decide as Hne.
  - simpl. split; [done|]. right. exists (n_paramName c), (paramName seg). naive_solver.
  - rewrite <- Hp. by apply descend_outcome.
Qed.

Lemma seg_names_cons seg segs :
  seg_names (seg :: segs) =
  (if isParam seg || isWild seg then [paramName seg] else []) ++ seg_names segs.
Proof.
  unfold seg_names. rewrite filter_cons.
  destruct (isParam seg || isWild seg) eqn:E; [by rewrite decide_True|].
  by rewrite decide_False by congruence.
Qed.

Lemma add_outcome_segments h full name segs keys cur :
  tree_ok cur → Forall seg_good segs →
  add_outcome cur (seg_key <$> segs) (h, keys ++ seg_names segs, full, name)
    (addSegments (finalizeNode h full name) segs keys cur).
Proof.
  revert keys cur. induction segs as [|seg segs IH]; intros keys cur Ht Hg.
  { simpl. rewrite app_nil_r. by apply finalize_outcome. }
  apply Forall_cons in Hg as [Hseg Hg]. pose proof (tree_ok_node _ Ht) as Hok.
  destruct (seg_good_key seg Hseg) as (x & r' & Hk & Hx & Hsh).
  rewrite fmap_cons, seg_names_cons, (assoc (++)).
  unfold seg_key in *. simpl. destruct (isParam seg) eqn:Ep; [|destruct (isWild seg) eqn:Ew]; simpl.
  - rewrite findParamChild_scan by done.
    destruct (scan_children (n_children cur) [colon]) as [[i c]|] eqn:Es.
    + apply (capture_outcome cur seg i c _ _
        (λ keys c, addSegments (finalizeNode h full name) segs keys c)); auto.
      apply IH; [|done]. eapply tree_ok_child; [done|]. by rewrite scan_child, Es.
    + eapply insert_outcome; eauto using leaf_ok, add_fresh. by rewrite scan_child, Es.
  - rewrite findWildChild_scan by done.
    destruct (scan_children (n_children cur) [star]) as [[i c]|] eqn:Es.
    + apply (capture_outcome cur seg i c _ _
        (λ keys c, addSegments (finalizeNode h full name) segs keys c)); auto.
      apply IH; [|done]. eapply tree_ok_child; [done|]. by rewrite scan_child, Es.
    + eapply insert_outcome; eauto using leaf_ok, add_fresh. by rewrite scan_child, Es.
  - rewrite findStaticChild_scan by done. rewrite app_nil_r.
    destruct (scan_children (n_children cur) (raw seg)) as [[i c]|] eqn:Es.
    + pose proof Es as [Hi Hp]%scan_Some. rewrite <- Hp. apply descend_outcome; [done..|].
      apply IH; [|done]. eapply tree_ok_child; [done|]. by rewrite scan_child, Es.
    + eapply insert_outcome; eauto using leaf_ok, add_fresh. by rewrite scan_child, Es.
Qed.

End facts.
