(* ===== verification/RouterMatch.v ===== *)
(** * Greedy matching against the table of registered routes

    The abstract specification of one method's routes is a table: the key paths
    of the registered patterns with their data. [keyMatch] walks the keys greedily,
    and [matchNode] on the trie does the same. [specWalk] states the documented
    strategy (static segment first, then parameter, then wildcard, without
    backtracking) on what the segments of patterns stand for; the two walks agree on
    requests without a segment that is literally [:] or [*]. *)

From stdpp Require Import options.
From S2P Require Import Prelude GoStrings RouterPath RouterTrie RouterTrieFacts.

Section match_spec.
Context {H : Type}.
Implicit Types (n cur : node H) (ks K parts vals : list gostring).

Definition table : Type := list (list gostring * route_data (H := H)).

Fixpoint table_lookup (T : table) ks : option route_data :=
  match T with
  | [] => None
  | (K, r) :: T => if decide (K = ks) then Some r else table_lookup T ks
  end.

(** Some registered pattern continues along [ks]. *)
Definition has_branch (T : table) ks : bool :=
  bool_decide (Exists (λ e, ks `prefix_of` fst e) T).

(** The greedy walk along keys: the key path reached and the values captured on the
    way. A request segment equal to the key of a parameter or wildcard goes there. *)
Fixpoint keyWalk (T : table) (done_ : list gostring) parts vals
    : option (list gostring * list gostring) :=
  match parts with
  | [] => Some (done_, vals)
  | p :: rest =>
      if decide (p = []) then None
      else if has_branch T (done_ ++ [p]) then keyWalk T (done_ ++ [p]) rest vals
      else if has_branch T (done_ ++ [[colon]])
      then keyWalk T (done_ ++ [[colon]]) rest (vals ++ [p])
      else if has_branch T (done_ ++ [[star]])
      then Some (done_ ++ [[star]], vals ++ [join_with slash (p :: rest)])
      else None
  end.

Definition keyMatch (T : table) parts : option (matchResult H) :=
  '(ks, vals) ← keyWalk T [] parts [];
  '(h, pkeys, full, name) ← table_lookup T ks;
  Some {| Handler := h; ParamValues := vals; ParamKeys := pkeys; RoutePattern := full;
          RouteMethod := []; RouteName := name |}.

(** A trie represents a table. *)
Record represents n (T : table) : Prop := {
  rep_ok : tree_ok n;
  rep_nodes ks : is_Some (lookup_node n ks) ↔ ks = [] ∨ Exists (λ e, ks `prefix_of` fst e) T;
  rep_routes ks : route_at n ks = table_lookup T ks;
}.

(** ** The wildcard suffix *)

Lemma wildcardOffset_S p parts i :
  wildcardOffset (p :: parts) (S i) = length p + 1 + wildcardOffset parts i.
Proof. unfold wildcardOffset. cbn [take]. rewrite fmap_cons. cbn [sum_list sum_list_with id]. lia. Qed.

(** The byte offset computed from the segment lengths is in range and cuts off
    exactly the segments already consumed. *)
Lemma wildcardOffset_suffix parts i :
  i < length parts →
  wildcardOffset parts i ≤ length (slash :: join_with slash parts) ∧
  drop (wildcardOffset parts i) (slash :: join_with slash parts)
  = join_with slash (drop i parts).
Proof.
  revert i. induction parts as [|p parts IH]; intros i Hi; [simpl in Hi; lia|].
  destruct i as [|i].
  { unfold wildcardOffset. simpl. rewrite drop_0. split; [lia|done]. }
  simpl in Hi. destruct (IH i) as [IH1 IH2]; [lia|]. rewrite wildcardOffset_S.
  rewrite join_cons by (destruct parts; simpl in Hi; [lia|done]).
  simpl drop at 2. rewrite <- IH2. split.
  - simpl. rewrite length_app. simpl. simpl in IH1. lia.
  - replace (length p + 1 + wildcardOffset parts i) with
      (S (length p + wildcardOffset parts i)) by lia. simpl.
    by rewrite drop_app_add.
Qed.

(** ** Refinement *)

Lemma lookup_node_app n ks1 ks2 :
  lookup_node n (ks1 ++ ks2) = m ← lookup_node n ks1; lookup_node m ks2.
Proof.
  revert n. induction ks1 as [|k ks1 IH]; intros n; simpl; [done|].
  destruct (child n k) as [c|]; simpl; [apply IH|done].
Qed.

Lemma rep_child n T done_ cur k :
  represents n T → lookup_node n done_ = Some cur →
  match scan_children (n_children cur) k with
  | Some (_, c) => lookup_node n (done_ ++ [k]) = Some c ∧ has_branch T (done_ ++ [k]) = true
  | None => has_branch T (done_ ++ [k]) = false
  end.
Proof.
  intros Hr Hl.
  assert (lookup_node n (done_ ++ [k]) = child cur k) as Hk.
  { rewrite lookup_node_app, Hl. simpl. by destruct (child cur k). }
  pose proof (rep_nodes _ _ Hr (done_ ++ [k])) as Hn. rewrite Hk, scan_child in Hn.
  rewrite Hk, scan_child. unfold has_branch.
  destruct (scan_children (n_children cur) k) as [[i c]|]; simpl in *.
  - split; [done|]. apply bool_decide_eq_true. destruct Hn as [Hn _].
    destruct Hn as [Hn|Hn]; [eauto| |done]. by destruct done_.
  - apply bool_decide_eq_false. intros He. destruct Hn as [_ Hn].
    destruct Hn as [? [=]]. by right.
Qed.

Lemma matchLoop_refines n T parts rest done_ cur vals :
  represents n T → lookup_node n done_ = Some cur → rest = drop (length done_) parts →
  length done_ ≤ length parts →
  match matchLoop parts (slash :: join_with slash parts) rest (length done_) cur vals,
        keyWalk T done_ rest vals with
  | Some (m, vs), Some (ks, vs') => lookup_node n ks = Some m ∧ vs = vs'
  | None, None => True
  | _, _ => False
  end.
Proof.
  intros Hr. revert done_ cur vals. induction rest as [|p rest IH]; intros done_ cur vals Hl Hrest Hlen.
  { simpl. done. }
  assert (node_ok cur) as Hok by (by eapply (rep_ok _ _ Hr)).
  assert (length done_ < length parts) as Hlt.
  { destruct (decide (length done_ < length parts)); [done|].
    rewrite drop_ge in Hrest by lia. done. }
  assert (∀ k, length (done_ ++ [k]) = S (length done_)) as Hlen'
    by (intros; rewrite length_app; simpl; lia).
  assert (rest = drop (S (length done_)) parts) as Hrest'.
  { rewrite <- Nat.add_1_r, <- drop_drop, <- Hrest. done. }
  simpl. case_decide; [done|].
  rewrite findStaticChild_scan, findParamChild_scan, findWildChild_scan by done.
  pose proof (rep_child n T done_ cur p Hr Hl) as Hp.
  destruct (scan_children (n_children cur) p) as [[? c]|]; [destruct Hp as [Hc ->]|rewrite Hp].
  { specialize (IH (done_ ++ [p]) c vals Hc). rewrite !Hlen' in IH. by apply IH. }
  pose proof (rep_child n T done_ cur [colon] Hr Hl) as Hq.
  destruct (scan_children (n_children cur) [colon]) as [[? c]|]; [destruct Hq as [Hc ->]|rewrite Hq].
  { specialize (IH (done_ ++ [[colon]]) c (vals ++ [p]) Hc). rewrite !Hlen' in IH. by apply IH. }
  pose proof (rep_child n T done_ cur [star] Hr Hl) as Hw.
  destruct (scan_children (n_children cur) [star]) as [[? c]|]; [destruct Hw as [Hc ->]|by rewrite Hw].
  split; [done|]. f_equal. f_equal. change (match rest with [] => p | _ => _ end) with
    (join_with slash (p :: rest)). rewrite Hrest. by apply wildcardOffset_suffix.
Qed.

Lemma matchNode_refines n T parts :
  represents n T → matchNode n parts (slash :: join_with slash parts) = keyMatch T parts.
Proof.
  intros Hr. unfold matchNode, keyMatch.
  pose proof (matchLoop_refines n T parts parts [] n [] Hr) as Hm. simpl length in Hm.
  specialize (Hm eq_refl eq_refl (Nat.le_0_l _)).
  destruct (matchLoop _ _ _ _ _ _) as [[m vs]|], (keyWalk _ _ _ _) as [[ks vs']|]; try done.
  destruct Hm as [Hl <-]. simpl. rewrite <- (rep_routes _ _ Hr ks). unfold route_at.
  rewrite Hl. simpl. by destruct (n_handler m).
Qed.

(** ** The table grows by one entry per successful registration *)

Lemma represents_empty : represents (new_node [] []) [].
Proof.
  split.
  - apply leaf_ok.
  - intros ks. rewrite lookup_leaf. rewrite Exists_nil. naive_solver.
  - intros ks. apply route_at_leaf.
Qed.

Lemma table_lookup_app (T : table) K r ks :
  table_lookup T K = None →
  table_lookup (T ++ [(K, r)]) ks = if decide (ks = K) then Some r else table_lookup T ks.
Proof.
  induction T as [|[K' r'] T IH]; simpl.
  - intros _. repeat case_decide; naive_solver.
  - destruct (decide (K' = K)); [done|]. intros Hnone. rewrite IH by done. repeat case_decide; naive_solver.
Qed.

Lemma table_lookup_elem (T : table) ks r : table_lookup T ks = Some r → (ks, r) ∈ T.
Proof.
  induction T as [|[K' r'] T IH]; simpl; [done|]. rewrite elem_of_cons.
  case_decide; naive_solver.
Qed.

Lemma table_lookup_unique (T : table) ks r :
  NoDup (fst <$> T) → (ks, r) ∈ T → table_lookup T ks = Some r.
Proof.
  induction T as [|[K' r'] T IH]; simpl; [set_solver|]. rewrite NoDup_cons, elem_of_cons.
  intros [Hnot Hnd] [?|Hin]; simplify_eq/=; [by rewrite decide_True|].
  rewrite decide_False; [by apply IH|]. intros ->. apply Hnot, list_elem_of_fmap. by exists (ks, r).
Qed.

Lemma table_lookup_None (T : table) ks : table_lookup T ks = None ↔ ks ∉ fst <$> T.
Proof.
  induction T as [|[K' r'] T IH]; simpl; [split; [set_solver|done]|]. rewrite not_elem_of_cons.
  case_decide; naive_solver.
Qed.

Lemma represents_filed n n' T K r :
  represents n T → filed n n' K r → represents n' (T ++ [(K, r)]).
Proof.
  intros Hr Hf. split.
  - apply Hf.
  - intros ks. rewrite (filed_nodes _ _ _ _ Hf), (rep_nodes _ _ Hr), Exists_app, Exists_cons,
      Exists_nil. simpl. naive_solver.
  - intros ks. rewrite (filed_routes _ _ _ _ Hf), table_lookup_app.
    + by rewrite (rep_routes _ _ Hr).
    + rewrite <- (rep_routes _ _ Hr). apply Hf.
Qed.

(** ** What a match means *)

(** [fill segs vals]: the request segments a pattern stands for when its
    parameters and wildcard take the given values. *)
Fixpoint fill (segs : list segment) vals : option (list gostring) :=
  match segs, vals with
  | [], [] => Some []
  | seg :: segs, _ =>
      if isParam seg then
        match vals with v :: vals => cons v <$> fill segs vals | [] => None end
      else if isWild seg then
        match segs, vals with [], [v] => Some (split_on slash v) | _, _ => None end
      else cons (raw seg) <$> fill segs vals
  | _, _ => None
  end.

(** The same on key paths. *)
Fixpoint fill_keys ks vals : option (list gostring) :=
  match ks, vals with
  | [], [] => Some []
  | k :: ks, _ =>
      if decide (k = [colon]) then
        match vals with v :: vals => cons v <$> fill_keys ks vals | [] => None end
      else if decide (k = [star]) then
        match ks, vals with [], [v] => Some (split_on slash v) | _, _ => None end
      else cons k <$> fill_keys ks vals
  | _, _ => None
  end.

Lemma fill_seg_keys segs vals : Forall seg_good segs → fill_keys (seg_key <$> segs) vals = fill segs vals.
Proof.
  revert vals. induction segs as [|seg segs IH]; intros vals; [done|].
  intros [((_ & _ & W) & _) Hg]%Forall_cons. specialize (λ vals, IH vals Hg).
  assert (seg_key seg = if isParam seg then [colon] else if isWild seg then [star] else raw seg)
    as Hk by done.
  rewrite fmap_cons. cbn [fill_keys fill]. generalize dependent (seg_key seg). intros k Hk.
  destruct (isParam seg); [subst k; rewrite decide_True by done; destruct vals; [done|]; by rewrite IH|].
  destruct (isWild seg).
  { subst k. rewrite decide_False by done. rewrite decide_True by done. by destruct segs. }
  destruct W as [W1 W2]; [done..|]. subst k.
  rewrite !decide_False by (intros E; by rewrite E in *). by rewrite IH.
Qed.

(** A request segment that could be mistaken for a pattern node. *)
Definition plain_part (p : gostring) : Prop := p ≠ [colon] ∧ p ≠ [star] ∧ slash ∉ p.

#[export] Instance plain_part_dec p : Decision (plain_part p).
Proof. unfold plain_part. apply _. Defined.

Lemma keyWalk_fill T done_ parts vals ks vs :
  Forall plain_part parts → keyWalk T done_ parts vals = Some (ks, vs) →
  ∃ ks' vs', ks = done_ ++ ks' ∧ vs = vals ++ vs' ∧ fill_keys ks' vs' = Some parts.
Proof.
  revert done_ vals. induction parts as [|p parts IH]; intros done_ vals Hpl Hw; cbn [keyWalk] in Hw.
  { simplify_eq. exists [], []. by rewrite !app_nil_r. }
  pose proof Hpl as [(Hc & Hs & Hsl) Hpl']%Forall_cons.
  case_decide; [done|].
  destruct (has_branch T (done_ ++ [p])); [|destruct (has_branch T (done_ ++ [[colon]]));
    [|destruct (has_branch T (done_ ++ [[star]])); [|done]]].
  - apply IH in Hw as (ks' & vs' & -> & -> & Hf); [|done].
    exists (p :: ks'), vs'. rewrite <- app_assoc. simpl. rewrite !decide_False, Hf by done. done.
  - apply IH in Hw as (ks' & vs' & -> & -> & Hf); [|done].
    exists ([colon] :: ks'), (p :: vs'). rewrite <- !app_assoc. simpl.
    by rewrite Hf.
  - simplify_eq. exists [[star]], [join_with slash (p :: parts)]. split; [done|]. split; [done|].
    cbn [fill_keys]. rewrite decide_False by done. rewrite decide_True by done. f_equal.
    apply split_join; [done|]. eapply Forall_impl; [done|]. by intros x (_ & _ & ?).
Qed.

(** A pattern without captures is found under its own segments, whatever else is
    registered. *)
Lemma keyWalk_static T done_ parts vals :
  Forall (λ p, p ≠ []) parts → Exists (λ e, (done_ ++ parts) `prefix_of` fst e) T →
  keyWalk T done_ parts vals = Some (done_ ++ parts, vals).
Proof.
  revert done_. induction parts as [|p parts IH]; intros done_ Hne Hex; simpl.
  { by rewrite app_nil_r. }
  apply Forall_cons in Hne as [Hp Hne]. rewrite decide_False by done.
  assert (done_ ++ p :: parts = (done_ ++ [p]) ++ parts) as E by (by rewrite <- app_assoc).
  rewrite E in *. unfold has_branch. rewrite bool_decide_true; [by apply IH|].
  eapply Exists_impl; [done|]. intros e He. simpl in *. by eapply prefix_app_l.
Qed.

End match_spec.

(** ** The documented strategy *)

(** What a segment of a pattern stands for. *)
Inductive shape := Static (s : gostring) | Param | Wild.
#[export] Instance shape_eq_dec : EqDecision shape.
Proof. solve_decision. Defined.

Definition shape_of (s : gostring) : shape :=
  match s with
  | [] => Static []
  | c :: _ => if decide (c = colon) then Param else if decide (c = star) then Wild else Static s
  end.

Section documented.
Implicit Types (sh : shape) (ks K : list shape) (Ps : list (list shape)) (parts vals : list gostring).

(** Some pattern goes on along [ks]. *)
Definition goes_on Ps ks : bool := bool_decide (Exists (λ P, ks `prefix_of` P) Ps).

(** A static segment first, then a parameter, then the wildcard, without
    backtracking: the pattern reached and the values captured on the way. *)
Fixpoint specWalk Ps ks parts vals : option (list shape * list gostring) :=
  match parts with
  | [] => Some (ks, vals)
  | p :: rest =>
      if decide (p = []) then None
      else if goes_on Ps (ks ++ [Static p]) then specWalk Ps (ks ++ [Static p]) rest vals
      else if goes_on Ps (ks ++ [Param]) then specWalk Ps (ks ++ [Param]) rest (vals ++ [p])
      else if goes_on Ps (ks ++ [Wild]) then Some (ks ++ [Wild], vals ++ [join_with slash (p :: rest)])
      else None
  end.

(** The key of the node a shape is filed under. *)
Definition shape_key sh : gostring := match sh with Static s => s | Param => [colon] | Wild => [star] end.
Definition shape_keys ks : list gostring := shape_key <$> ks.
Definition marker (p : gostring) : Prop := p = [colon] ∨ p = [star].
#[export] Instance marker_dec p : Decision (marker p).
Proof. unfold marker. apply _. Defined.
Definition shape_ok sh : Prop := match sh with Static s => ¬ marker s | _ => True end.

Lemma shape_key_inj sh sh' : shape_ok sh → shape_ok sh' → shape_key sh = shape_key sh' → sh = sh'.
Proof. unfold marker. destruct sh, sh'; simpl; unfold marker; naive_solver. Qed.

Lemma shape_keys_prefix ks K : Forall shape_ok ks → Forall shape_ok K →
  (shape_key <$> ks) `prefix_of` (shape_key <$> K) ↔ ks `prefix_of` K.
Proof.
  revert K. induction ks as [|sh ks IH]; intros K Hks HK; [split; intros _; apply prefix_nil|].
  destruct K as [|sh' K]; [split; intros H; by apply prefix_nil_not in H|]. rewrite !fmap_cons.
  apply Forall_cons in Hks as [Hsh Hks]. apply Forall_cons in HK as [Hsh' HK]. split; intros Hp.
  - apply prefix_cons_inv_1 in Hp as E. apply shape_key_inj in E as ->; [|done..].
    apply prefix_cons, IH; [done..|]. by eapply prefix_cons_inv_2.
  - apply prefix_cons_inv_1 in Hp as E. subst sh'. apply prefix_cons, IH; [done..|]. by eapply prefix_cons_inv_2.
Qed.

Context {H : Type}.

Lemma goes_on_keys (T : table (H := H)) Ps ks : Forall (Forall shape_ok) Ps → T.*1 = shape_keys <$> Ps →
  Forall shape_ok ks → has_branch T (shape_key <$> ks) = goes_on Ps ks.
Proof.
  intros HPs HT Hks. unfold has_branch, goes_on. apply bool_decide_ext.
  trans (Exists (λ L : list gostring, (shape_key <$> ks) `prefix_of` L) T.*1); [by rewrite Exists_fmap|].
  rewrite HT, Exists_fmap, !Exists_exists. rewrite Forall_forall in HPs.
  split; intros (P & HP & Hp); exists P; (split; [done|]); by apply shape_keys_prefix; auto.
Qed.

(** On requests without a literal marker the greedy walk along keys is the documented one. *)
Lemma specWalk_keys (T : table (H := H)) Ps ks parts vals :
  Forall (Forall shape_ok) Ps → T.*1 = shape_keys <$> Ps → Forall shape_ok ks →
  Forall (λ p, ¬ marker p) parts →
  keyWalk T (shape_key <$> ks) parts vals = prod_map shape_keys id <$> specWalk Ps ks parts vals.
Proof.
  intros HPs HT. revert ks vals. induction parts as [|p parts IH]; intros ks vals Hks Hpl; [done|].
  apply Forall_cons in Hpl as [Hp Hpl]. cbn [keyWalk specWalk]. case_decide; [done|].
  assert (Happ : ∀ sh, shape_ok sh → Forall shape_ok (ks ++ [sh])) by (intros; by apply Forall_app_2; [|constructor]).
  assert (Hb : ∀ sh, shape_ok sh → (shape_key <$> ks) ++ [shape_key sh] = shape_key <$> (ks ++ [sh])) by (intros; by rewrite fmap_app).
  assert (shape_ok (Static p) ∧ shape_ok Param ∧ shape_ok Wild) as (? & ? & ?) by done.
  change p with (shape_key (Static p)) at 1 2. change [colon] with (shape_key Param). change [star] with (shape_key Wild).
  rewrite (Hb (Static p)), (Hb Param), (Hb Wild), (goes_on_keys T Ps (ks ++ [Static p])), (goes_on_keys T Ps (ks ++ [Param])), (goes_on_keys T Ps (ks ++ [Wild])) by auto.
  destruct (goes_on Ps (ks ++ [Static p])); [by apply IH; auto|].
  destruct (goes_on Ps (ks ++ [Param])); [by apply IH; auto|]. by destruct (goes_on Ps (ks ++ [Wild])).
Qed.
End documented.
