(* ===== verification/ContractContext.v ===== *)
(** * The per-request route state ([contract/context_core.go])

    The router hands matched parameters to handlers through a [RouteState] with
    inline storage for eight parameters; handlers read them back by name. *)

From stdpp Require Import options.
From S2P Require Import Prelude.

Definition maxInlineParams : nat := 8.

(** [RouteState]: the first [paramN] cells of the two arrays are the list
    [params]. *)
Record RouteState := mkRouteState {
  params : list (gostring * gostring);
  pattern : gostring;
  name : gostring;
}.

Definition emptyRouteState : RouteState := {| params := []; pattern := []; name := [] |}.

Definition SetPattern (p : gostring) (rs : RouteState) : RouteState :=
  {| params := params rs; pattern := p; name := name rs |}.
Definition SetName (n : gostring) (rs : RouteState) : RouteState :=
  {| params := params rs; pattern := pattern rs; name := n |}.

Definition AddParam (key val : gostring) (rs : RouteState) : RouteState :=
  if length (params rs) <? maxInlineParams
  then {| params := params rs ++ [(key, val)]; pattern := pattern rs; name := name rs |}
  else rs.

Definition Reset (rs : RouteState) : RouteState := emptyRouteState.

(** The linear scan of [RequestParamFromContext] over the inline state. *)
Definition RequestParamFromContext (rs : RouteState) (key : gostring) : gostring :=
  if decide (key = []) then []
  else match list_find (λ p, fst p = key) (params rs) with
       | Some (_, p) => snd p
       | None => []
       end.

(** The loop [for i, k := range ParamKeys { if i >= len(ParamValues) { break }; ... }]
    of [attachRouteContextAndServe]. *)
Fixpoint addParams (keys vals : list gostring) (rs : RouteState) : RouteState :=
  match keys, vals with
  | k :: keys, v :: vals => addParams keys vals (AddParam k v rs)
  | _, _ => rs
  end.

Lemma addParams_params keys vals rs :
  length (params rs) ≤ maxInlineParams →
  params (addParams keys vals rs) = take maxInlineParams (params rs ++ zip keys vals).
Proof.
  revert vals rs. induction keys as [|k keys IH]; intros [|v vals] rs Hl; simpl;
    rewrite ?app_nil_r; try (by rewrite take_ge).
  unfold AddParam. destruct (Nat.ltb_spec (length (params rs)) maxInlineParams) as [Hlt|Hge].
  - rewrite IH by (simpl; rewrite length_app; simpl; lia). simpl. by rewrite <- app_assoc.
  - rewrite IH by done. rewrite !take_app_le by done. done.
Qed.

(** Reading back a parameter by name. *)
Lemma RequestParam_lookup rs i key val :
  params rs !! i = Some (key, val) → NoDup (fst <$> params rs) → key ≠ [] →
  RequestParamFromContext rs key = val.
Proof.
  intros Hi Hnd Hk. unfold RequestParamFromContext. rewrite decide_False by done.
  assert (list_find (λ p, fst p = key) (params rs) = Some (i, (key, val))) as ->; [|done].
  apply list_find_Some. split; [done|]. split; [done|]. intros j y Hj Hlt Hy.
  assert (j = i); [|lia].
  eapply (NoDup_lookup _ _ _ key Hnd); rewrite list_lookup_fmap, ?Hj, ?Hi; simpl; by f_equal.
Qed.

Lemma addParams_meta keys vals rs :
  pattern (addParams keys vals rs) = pattern rs ∧ name (addParams keys vals rs) = name rs.
Proof.
  revert vals rs. induction keys as [|k keys IH]; intros [|v vals] rs; simpl; try done.
  destruct (IH vals (AddParam k v rs)) as [-> ->]. unfold AddParam. by case_match.
Qed.
