(* ===== verification/Router.v ===== *)
(** * The router ([router/router.go], [router/registration.go],
      [router/dispatch.go], [router/metadata.go])

    The shared [routerState], registration, freezing, route groups, dispatch with
    the match cache, the [Allow] computation and reverse URLs. The state is
    passed explicitly; every operation below is one critical section of the code
    (the interleaving that splits a dispatch is modelled in [RouterRace]). *)

From stdpp Require Import options.
From S2P Require Import Prelude GoStrings RouteCache ContractContext.
From S2P Require Import RouterPath RouterTrie.

Definition MethodAny : gostring := str "ANY".
Definition MethodGet : gostring := str "GET".
Definition MethodHead : gostring := str "HEAD".

(** ** Data *)

Record RouteMeta := mkMeta { Name : gostring; Tags : list gostring }.
Record route := mkRoute { r_Method : gostring; r_Path : gostring; r_Meta : RouteMeta }.
Record NamedRoute := mkNamed {
  nr_Method : gostring;
  nr_Pattern : gostring;
  ParamPos : gmap gostring nat;
}.

(** [RouteOption]: a function on the metadata; [None] is a nil option. *)
Definition RouteOption : Type := option (RouteMeta → RouteMeta).
Definition WithRouteName (name : gostring) : RouteOption :=
  Some (λ meta, {| Name := name; Tags := Tags meta |}).
Definition WithTags (tags : list gostring) : RouteOption :=
  Some (λ meta, {| Name := Name meta; Tags := Tags meta ++ tags |}).

Definition routeMetaFromOptions (opts : list RouteOption) : RouteMeta :=
  foldl (λ meta opt, match opt with Some f => f meta | None => meta end)
    {| Name := []; Tags := [] |} opts.

(** A [Router] value: a prefix, and whether it and its state are non-nil (the
    state itself is shared by all groups and passed separately). *)
Record RouterRef := mkRouter { prefix : gostring; ready : bool }.

Definition or_else {A} (a b : option A) : option A :=
  match a with Some x => Some x | None => b end.

Section router.
Context {H C : Type} `{!RouteCache C (matchResult H)}.

Record routerState := mkState {
  trees : gmap gostring (node H);
  routes : gmap gostring (list route);
  matchCache : C;
  namedRoutes : gmap gostring NamedRoute;
  methodNotAllowed : bool;
  frozen : bool;
}.
Implicit Types (st : routerState) (r : RouterRef) (method path : gostring).

(** [NewRouter], given the fresh cache of [newMatchCache(defaultCacheCapacity)]. *)
Definition NewRouter (cache : C) : RouterRef * routerState :=
  ({| prefix := []; ready := true |},
   {| trees := ∅; routes := ∅; matchCache := cache; namedRoutes := ∅;
      methodNotAllowed := false; frozen := false |}).

Definition SetMethodNotAllowed r (enabled : bool) st : routerState :=
  if negb (ready r) then st
  else if frozen st then st
  else {| trees := trees st; routes := routes st; matchCache := matchCache st;
          namedRoutes := namedRoutes st; methodNotAllowed := enabled; frozen := frozen st |}.

Definition MethodNotAllowedEnabled r st : bool := ready r && methodNotAllowed st.

Definition Freeze r st : routerState :=
  if negb (ready r) then st
  else {| trees := trees st; routes := routes st; matchCache := matchCache st;
          namedRoutes := namedRoutes st; methodNotAllowed := methodNotAllowed st; frozen := true |}.

(** [Group]: [None] is the panic of [mustValidateGroupPrefix]. *)
Definition Group r (pfx : gostring) : option RouterRef :=
  match validateRoutePath pfx with
  | Some _ => None
  | None =>
      Some (if negb (ready r) then {| prefix := normalizeGroupPrefix [] pfx; ready := false |}
            else {| prefix := normalizeGroupPrefix (prefix r) pfx; ready := true |})
  end.

(** ** Registration *)

Definition validateRouteMetaLocked (meta : RouteMeta) st : option routeErr :=
  if decide (Name meta = []) then None
  else match namedRoutes st !! Name meta with
       | Some _ => Some ErrDuplicateRouteName
       | None => None
       end.

(** The position loop of [registerNamedRoute]. *)
Fixpoint paramPositions (parts : list gostring) (pos : nat) (m : gmap gostring nat)
    : gmap gostring nat :=
  match parts with
  | [] => m
  | part :: rest =>
      if has_prefix_byte colon part || has_prefix_byte star part
      then paramPositions rest (S pos) (<[drop 1 part := pos]> m)
      else paramPositions rest pos m
  end.

Definition registerNamedRoute (name method pattern : gostring)
    (named : gmap gostring NamedRoute) : gmap gostring NamedRoute :=
  <[name := {| nr_Method := method; nr_Pattern := pattern;
               ParamPos := paramPositions (split_on slash (trim slash pattern)) 0 ∅ |}]> named.

Definition set_tree method (t : node H) st : routerState :=
  {| trees := <[method := t]> (trees st); routes := routes st; matchCache := matchCache st;
     namedRoutes := namedRoutes st; methodNotAllowed := methodNotAllowed st; frozen := frozen st |}.

(** [finalizeRouteRegistrationLocked] after the node has been filled in: name the
    route, list it, drop the cached matches. *)
Definition recordRoute method (full : gostring) (meta : RouteMeta) st : routerState :=
  {| trees := trees st;
     routes := <[method := default [] (routes st !! method) ++
                           [{| r_Method := method; r_Path := full; r_Meta := meta |}]]> (routes st);
     matchCache := rc_clear (matchCache st);
     namedRoutes := if decide (Name meta = []) then namedRoutes st
                    else registerNamedRoute (Name meta) method full (namedRoutes st);
     methodNotAllowed := methodNotAllowed st; frozen := frozen st |}.

Definition AddRoute r method path (handler : option H) (opts : list RouteOption) st
    : routerState * option routeErr :=
  if negb (ready r) then (st, Some ErrNotInitialized)
  else if frozen st then (st, Some ErrFrozen)
  else match validateMethod method with
  | Some e => (st, Some e)
  | None =>
  match handler with
  | None => (st, Some ErrNilHandler)
  | Some h =>
  match validateRoutePath path with
  | Some e => (st, Some e)
  | None =>
  let meta := routeMetaFromOptions opts in
  let full := fullPath (prefix r) path in
  match validateRouteMetaLocked meta st with
  | Some e => (st, Some e)
  | None =>
  let root := default (new_node [] []) (trees st !! method) in
  let st := set_tree method root st in
  let finish res :=
    let '(root', e) := res in
    match e with
    | Some e => (set_tree method root' st, Some e)
    | None => (recordRoute method full meta (set_tree method root' st), None)
    end in
  if decide (full = [slash]) then finish (finalizeNode h full (Name meta) [] root)
  else
    let segs := compilePathSegments full in
    match validateRouteSegments segs with
    | Some e => (st, Some e)
    | None => finish (addSegments (finalizeNode h full (Name meta)) segs [] root)
    end
  end end end end.

(** ** Dispatch *)

Definition with_method (m : gostring) (res : matchResult H) : matchResult H :=
  {| Handler := Handler res; ParamValues := ParamValues res; ParamKeys := ParamKeys res;
     RoutePattern := RoutePattern res; RouteMethod := m; RouteName := RouteName res |}.

(** The result built for the root path from a tree's root node. *)
Definition rootResult (m : gostring) (tree : node H) : option (matchResult H) :=
  match n_handler tree with
  | Some h => Some {| Handler := h; ParamValues := []; ParamKeys := []; RoutePattern := [slash];
                      RouteMethod := m; RouteName := n_routeName tree |}
  | None => None
  end.

Definition matchRoute method path st : option (matchResult H) :=
  if decide (path = [slash]) then
    or_else (if decide (method ≠ MethodAny) then trees st !! method ≫= rootResult method else None)
   (or_else (if decide (method = MethodHead) then trees st !! MethodGet ≫= rootResult MethodGet
             else None)
            (trees st !! MethodAny ≫= rootResult MethodAny))
  else
    let parts := splitPathToParts path in
    let nodeResult m tree := with_method m <$> matchNode tree parts path in
    or_else (if decide (method ≠ MethodAny) then trees st !! method ≫= nodeResult method else None)
   (or_else (if decide (method = MethodHead) then trees st !! MethodGet ≫= nodeResult MethodGet
             else None)
            (trees st !! MethodAny ≫= nodeResult MethodAny)).

Definition appendImplicitHeadMethod (methods : list gostring) : list gostring :=
  if bool_decide (MethodGet ∈ methods) && negb (bool_decide (MethodHead ∈ methods))
  then sort_strings (methods ++ [MethodHead]) else methods.

Definition allowedMethods path st : list gostring :=
  let normalized := if decide (path = []) then [slash] else path in
  let matches tree :=
    if decide (normalized = [slash]) then bool_decide (is_Some (n_handler tree))
    else bool_decide (is_Some (matchNode tree (splitPathToParts normalized) normalized)) in
  let allowed :=
    fst <$> filter (λ '(m, tree), m ≠ MethodAny ∧ matches tree = true) (map_to_list (trees st)) in
  let allowed := if 1 <? length allowed then sort_strings allowed else allowed in
  appendImplicitHeadMethod allowed.

(** A request as far as the router reads it: [None] is a nil request, [req_Path]
    is [None] for a nil URL. *)
Record request := mkRequest { req_Method : gostring; req_Path : option gostring }.

(** What [ServeHTTP] does to the response: an error page, or the matched handler
    run with the route state, its body discarded for HEAD. *)
Inductive response :=
| RUnavailable
| RBadRequest
| RMethodNotAllowed (allow : list gostring)
| RNotFound
| RServed (h : H) (noBody : bool) (rs : RouteState).

Definition cacheKey method path : gostring := method ++ colon :: path.

(** [attachRouteContextAndServe] behind [responseWriterForMatch]. *)
Definition serveMatch method (result : matchResult H) : response :=
  let rs := addParams (ParamKeys result) (ParamValues result)
              (SetName (RouteName result) (SetPattern (RoutePattern result) emptyRouteState)) in
  RServed (Handler result) (bool_decide (method = MethodHead)) rs.

Definition ServeHTTP r (req : option request) st : routerState * response :=
  if negb (ready r) then (st, RUnavailable)
  else match req with
  | None => (st, RUnavailable)
  | Some {| req_Method := method; req_Path := None |} => (st, RBadRequest)
  | Some {| req_Method := method; req_Path := Some urlPath |} =>
      let path := fastNormalizePath urlPath in
      let key := cacheKey method path in
      match rc_get key (matchCache st) with
      | Some cached => (st, serveMatch method cached)
      | None =>
          match matchRoute method path st with
          | Some result =>
              ({| trees := trees st; routes := routes st;
                  matchCache := rc_set key result (matchCache st);
                  namedRoutes := namedRoutes st; methodNotAllowed := methodNotAllowed st;
                  frozen := frozen st |}, serveMatch method result)
          | None =>
              if methodNotAllowed st then
                match allowedMethods path st with
                | [] => (st, RNotFound)
                | allowed => (st, RMethodNotAllowed allowed)
                end
              else (st, RNotFound)
          end
      end
  end.

End router.
#[global] Arguments routerState : clear implicits.
#[global] Arguments response : clear implicits.
