(* ===== verification/RouterInv.v ===== *)
(** * The router against its abstract specification

    The abstract router is the list of registered routes per method, in order of
    registration. [router_inv] ties a concrete state (one trie per method, the
    route lists, the named routes, the match cache) to it; every operation
    preserves the tie, and dispatch is determined by the abstract routes. *)

From stdpp Require Import options.
From S2P Require Import Prelude GoStrings RouteCache RouterPath RouterTrie RouterTrieFacts.
From S2P Require Import RouterMatch ContractContext Router.

(** The abstract state: each method's routes with their handlers. *)
Abbreviation registry H := (gmap gostring (list (route * H))).

Section inv.
Context {H C : Type} `{!RouteCache C (matchResult H)} `{!RouteCacheLaws C (matchResult H)}.
Implicit Types (st : routerState H C) (r : RouterRef) (method path m : gostring).

Implicit Types (a : registry H).

Definition of_method a m : list (route * H) := default [] (a !! m).

Definition path_key (path : gostring) : list gostring := seg_key <$> compilePathSegments path.
Definition path_names (path : gostring) : list gostring := seg_names (compilePathSegments path).

Definition table_entry (e : route * H) : list gostring * route_data (H := H) :=
  (path_key (r_Path (fst e)),
   (snd e, path_names (r_Path (fst e)), r_Path (fst e), Name (r_Meta (fst e)))).
Definition table_of (l : list (route * H)) : table := table_entry <$> l.

(** The segments of a normalized request path. *)
Definition request_parts (path : gostring) : list gostring :=
  if decide (path = [slash]) then [] else split_on slash (drop 1 path).

Definition keyResult a m path : option (matchResult H) :=
  with_method m <$> keyMatch (table_of (of_method a m)) (request_parts path).

(** Method resolution: the exact method, then GET for HEAD, then ANY. *)
Definition keyRoute a method path : option (matchResult H) :=
  or_else (if decide (method ≠ MethodAny) then keyResult a method path else None)
 (or_else (if decide (method = MethodHead) then keyResult a MethodGet path else None)
          (keyResult a MethodAny path)).

(** The same by the documented strategy, on the routes themselves: the shapes of a
    pattern's segments, the names of its captures, and the route registered under the
    pattern the walk ends at. *)
Definition shapes (path : gostring) : list shape := shape_of <$> request_parts path.
Definition capture_names (path : gostring) : list gostring :=
  drop 1 <$> filter (λ s, shape_of s = Param ∨ shape_of s = Wild) (request_parts path).
Definition specMatch (l : list (route * H)) (parts : list gostring) : option (matchResult H) :=
  '(ks, vals) ← specWalk (shapes ∘ r_Path ∘ fst <$> l) [] parts [];
  '(rt, h) ← head (filter (λ e, shapes (r_Path (fst e)) = ks) l);
  Some {| Handler := h; ParamValues := vals; ParamKeys := capture_names (r_Path rt); RoutePattern := r_Path rt;
          RouteMethod := []; RouteName := Name (r_Meta rt) |}.
Definition specResult a m path : option (matchResult H) :=
  with_method m <$> specMatch (of_method a m) (request_parts path).
Definition specRoute a method path : option (matchResult H) :=
  or_else (if decide (method ≠ MethodAny) then specResult a method path else None)
 (or_else (if decide (method = MethodHead) then specResult a MethodGet path else None)
          (specResult a MethodAny path)).

(** Requests without a segment that is literally the marker of a parameter or wildcard. *)
Definition unmarked path : Prop := Forall (λ p, ¬ marker p) (request_parts path).
#[export] Instance unmarked_dec path : Decision (unmarked path).
Proof. unfold unmarked. apply _. Defined.

Definition named_of (rt : route) : NamedRoute :=
  {| nr_Method := r_Method rt; nr_Pattern := r_Path rt;
     ParamPos := paramPositions (split_on slash (trim slash (r_Path rt))) 0 ∅ |}.

(** The name index is exactly the named routes of the registry. *)
Definition named_spec (named : gmap gostring NamedRoute) a : Prop :=
  ∀ n nr, named !! n = Some nr ↔
    n ≠ [] ∧ ∃ m rt h, (rt, h) ∈ of_method a m ∧ Name (r_Meta rt) = n ∧ nr = named_of rt.

Record router_inv st a : Prop := {
  inv_trees m t : trees st !! m = Some t → represents t (table_of (of_method a m));
  inv_none m : trees st !! m = None → of_method a m = [];
  inv_routes m : default [] (routes st !! m) = fst <$> of_method a m;
  inv_wf m rt h : (rt, h) ∈ of_method a m →
    r_Method rt = m ∧ canonical (r_Path rt) ∧ Forall seg_good (compilePathSegments (r_Path rt)) ∧
    validateRouteSegments (compilePathSegments (r_Path rt)) = None;
  inv_keys m : NoDup (path_key ∘ r_Path ∘ fst <$> of_method a m);
  inv_named : named_spec (namedRoutes st) a;
  inv_cache_ok : rc_ok (matchCache st);
  inv_cache m p v : colon ∉ m → rc_get (cacheKey m p) (matchCache st) = Some v →
    matchRoute m p st = Some v;
}.

(** ** Dispatch refines the abstract routes *)

Lemma path_key_nil path : canonical path → path_key path = [] → path = [slash].
Proof.
  intros (q & -> & Hh & Hl) Hk. destruct (decide (q = [])) as [->|Hq]; [done|].
  unfold path_key in Hk. rewrite compilePathSegments_canonical in Hk by done.
  destruct (split_on slash q) eqn:E; [|done]. by destruct (split_on_ne slash q).
Qed.

Lemma validated_names path :
  validateRouteSegments (compilePathSegments path) = None → NoDup (path_names path).
Proof. intros Hv. by apply validateSegments_names in Hv as [? _]. Qed.

Lemma rootResult_spec st a m t :
  router_inv st a → trees st !! m = Some t → rootResult m t = keyResult a m [slash].
Proof.
  intros Hi Ht. pose proof (inv_trees _ _ Hi _ _ Ht) as Hr.
  unfold rootResult, keyResult, request_parts. rewrite decide_True by done.
  unfold keyMatch. simpl. rewrite <- (rep_routes _ _ Hr []), route_at_nil.
  destruct (n_handler t) as [h|] eqn:Eh; simpl; [|done].
  pose proof (rep_routes _ _ Hr []) as He. rewrite route_at_nil, Eh in He. simpl in He.
  symmetry in He. apply table_lookup_elem in He. apply list_elem_of_fmap in He as ([rt h'] & Heq & Hin).
  destruct (inv_wf _ _ Hi _ _ _ Hin) as (_ & Hc & _). unfold table_entry in Heq. simplify_eq/=.
  assert (r_Path rt = [slash]) as Hp by (by apply path_key_nil). rewrite Hp in *. simpl.
  unfold with_method. simpl. by rewrite H1, H2.
Qed.

Lemma nodeResult_spec st a m t path :
  router_inv st a → trees st !! m = Some t → canonical path → path ≠ [slash] →
  with_method m <$> matchNode t (splitPathToParts path) path = keyResult a m path.
Proof.
  intros Hi Ht (q & -> & Hh & Hl) Hne. unfold keyResult, request_parts.
  rewrite decide_False by done. simpl drop.
  rewrite splitPathToParts_canonical by (try done; congruence).
  f_equal. rewrite <- (join_split slash q) at 2. by apply matchNode_refines, (inv_trees _ _ Hi).
Qed.

Lemma keyResult_none st a m path :
  router_inv st a → trees st !! m = None → keyResult a m path = None.
Proof.
  intros Hi Ht. unfold keyResult. rewrite (inv_none _ _ Hi m Ht). unfold keyMatch. simpl.
  destruct (request_parts path) as [|p l]; simpl; [done|]. by case_decide.
Qed.

Lemma or_else_ext {A} (x x' y y' : option A) : x = x' → y = y' → or_else x y = or_else x' y'.
Proof. by intros -> ->. Qed.

(** *** Keys and shapes *)

Lemma shape_of_key part : shape_ok (shape_of part) ∧ shape_key (shape_of part) = seg_key (compileSegment part) ∧
  ((shape_of part = Param ∨ shape_of part = Wild) ↔ isParam (compileSegment part) || isWild (compileSegment part) = true) ∧
  (shape_of part = Param ∨ shape_of part = Wild → drop 1 part = paramName (compileSegment part)).
Proof.
  unfold compileSegment, seg_key. destruct part as [|c part]; simpl; unfold marker; [naive_solver|].
  repeat case_decide; repeat case_bool_decide; simplify_eq/=; unfold marker; naive_solver.
Qed.

Lemma canonical_parts path : canonical path → compilePathSegments path = compileSegment <$> request_parts path.
Proof.
  intros (q & -> & Hh & Hl). unfold request_parts. case_decide as Hq; [by simplify_eq|].
  change (drop 1 (slash :: q)) with q. apply compilePathSegments_canonical; [|done..]. congruence.
Qed.

Lemma shapes_keys path : canonical path → shape_keys (shapes path) = path_key path.
Proof.
  intros Hc. unfold path_key, shapes, shape_keys. rewrite canonical_parts by done. rewrite <- !list_fmap_compose.
  apply list_fmap_ext. intros i part _. apply shape_of_key.
Qed.
Lemma capture_names_spec path : canonical path → capture_names path = path_names path.
Proof.
  intros Hc. unfold path_names, seg_names, capture_names. rewrite canonical_parts by done.
  induction (request_parts path) as [|part parts IH]; [done|]. destruct (shape_of_key part) as (_ & _ & Hiff & Hn).
  rewrite fmap_cons, !filter_cons. destruct (decide (shape_of part = _ ∨ _)) as [Hs|Hs], (decide (isParam _ || _ = true)) as [Hb|Hb];
    [|by rewrite Hiff in Hs..|done]. rewrite !fmap_cons, IH, Hn by done. done.
Qed.
Lemma shapes_ok path : Forall shape_ok (shapes path).
Proof. apply Forall_fmap, Forall_true. intros part. simpl. apply shape_of_key. Qed.
Lemma shape_keys_inj ks ks' : Forall shape_ok ks → Forall shape_ok ks' → shape_keys ks = shape_keys ks' → ks = ks'.
Proof.
  intros Hk Hk' E. apply (anti_symm list.prefix); apply shape_keys_prefix; try done; fold (shape_keys ks) (shape_keys ks'); by rewrite E.
Qed.

Lemma specWalk_ok Ps ks parts vals ks' vs : Forall shape_ok ks → Forall (λ p, ¬ marker p) parts →
  specWalk Ps ks parts vals = Some (ks', vs) → Forall shape_ok ks'.
Proof.
  revert ks vals. induction parts as [|p parts IH]; intros ks vals Hk Hp; simpl; [by intros [= <- _]|].
  apply Forall_cons in Hp as [Hm Hp]. assert (∀ sh, shape_ok sh → Forall shape_ok (ks ++ [sh])) as Happ by (intros; by apply Forall_app_2; [|constructor]).
  repeat case_match; try done; [by apply IH, Hp; apply Happ..|]. intros [= <- _]. by apply Happ.
Qed.

Lemma table_lookup_head l ks : Forall (λ e : route * H, canonical (r_Path e.1)) l → Forall shape_ok ks →
  table_lookup (table_of l) (shape_keys ks)
  = (λ e, (table_entry e).2) <$> head (filter (λ e, shapes (r_Path e.1) = ks) l).
Proof.
  intros Hl Hk. induction Hl as [|[rt h] l Hc _ IH]; [done|]. cbn [table_of fmap list_fmap table_lookup table_entry].
  rewrite filter_cons. simpl in *. rewrite <- shapes_keys by done. case_decide as E1; case_decide as E2; simpl; [done| | |done].
  - destruct E2. apply shape_keys_inj; [apply shapes_ok|done..].
  - by destruct E1; rewrite E2.
Qed.

Lemma specMatch_keys l parts : Forall (λ e : route * H, canonical (r_Path e.1)) l → Forall (λ p, ¬ marker p) parts →
  keyMatch (table_of l) parts = specMatch l parts.
Proof.
  intros Hl Hp. unfold keyMatch, specMatch.
  pose proof (specWalk_keys (table_of l) (shapes ∘ r_Path ∘ fst <$> l) [] parts []) as E. simpl in E. rewrite E; [|..|done|done].
  - destruct (specWalk _ [] parts []) as [[ks vs]|] eqn:Ew; [|done]. simpl.
    apply specWalk_ok in Ew; [|done..]. rewrite table_lookup_head by done.
    destruct (head (filter _ l)) as [[rt h]|] eqn:Eh; [|done]. simpl. rewrite capture_names_spec; [done|].
    apply head_Some_elem_of, list_elem_of_filter in Eh as [_ Hin]. by apply (proj1 (Forall_forall _ l) Hl (rt, h)).
  - apply Forall_fmap, Forall_true. intros e. apply shapes_ok.
  - unfold table_of. rewrite <- !list_fmap_compose. apply list_fmap_ext. intros i e Hi. simpl.
    symmetry. apply shapes_keys. by apply (proj1 (Forall_forall _ l) Hl e), list_elem_of_lookup_2 with i.
Qed.

(** The documented strategy and the walk along keys give the same results. *)
Lemma specResult_keys st a m path : router_inv st a → unmarked path → keyResult a m path = specResult a m path.
Proof.
  intros Hi Hu. unfold keyResult, specResult. rewrite specMatch_keys; [done| |done].
  apply Forall_forall. intros [rt h] Hin. by destruct (inv_wf _ _ Hi _ _ _ Hin) as (_ & ? & _).
Qed.
Lemma specRoute_keys st a method path : router_inv st a → unmarked path → keyRoute a method path = specRoute a method path.
Proof. intros Hi Hu. unfold keyRoute, specRoute. by rewrite !(specResult_keys st) by done. Qed.

(** The tries answer exactly as the walk along the keys of the registered routes. *)
Lemma matchRoute_spec st a method path :
  router_inv st a → canonical path → matchRoute method path st = keyRoute a method path.
Proof.
  intros Hi Hc. unfold matchRoute, keyRoute.
  assert (∀ m, trees st !! m ≫= rootResult m = keyResult a m [slash]) as Hroot.
  { intros m. destruct (trees st !! m) as [t|] eqn:Et; simpl; [by eapply rootResult_spec|].
    by erewrite keyResult_none. }
  assert (∀ m, path ≠ [slash] →
    trees st !! m ≫= (λ tree, with_method m <$> matchNode tree (splitPathToParts path) path)
    = keyResult a m path) as Hnode.
  { intros m Hp. destruct (trees st !! m) as [t|] eqn:Et; simpl; [by eapply nodeResult_spec|].
    by erewrite keyResult_none. }
  case_decide as Hp; [subst path|];
    repeat apply or_else_ext; repeat case_decide; auto.
Qed.

(** ** Registration *)

Definition add_entry a m (e : route * H) : registry H := <[m := of_method a m ++ [e]]> a.

Lemma of_method_add a m e m' :
  of_method (add_entry a m e) m' = if decide (m' = m) then of_method a m ++ [e] else of_method a m'.
Proof.
  unfold of_method, add_entry. case_decide; subst; [by rewrite lookup_insert_eq|].
  by rewrite lookup_insert_ne.
Qed.

Definition root_of method st : node H := default (new_node [] []) (trees st !! method).

Lemma root_represents st a m : router_inv st a → represents (root_of m st) (table_of (of_method a m)).
Proof.
  intros Hi. unfold root_of. destruct (trees st !! m) as [t|] eqn:Et; simpl.
  - by eapply inv_trees.
  - rewrite (inv_none _ _ Hi m Et). apply represents_empty.
Qed.

Lemma set_tree_twice m t t' st : set_tree m t (set_tree m t' st) = set_tree m t st.
Proof. unfold set_tree. simpl. by rewrite insert_insert_eq. Qed.

(** What [AddRoute] can do: refuse early, refuse after creating the method's
    (empty) tree, or file one route. *)
Inductive add_result r method path (handler : option H) opts st
    : routerState H C * option routeErr → Prop :=
| add_early e :
    e ≠ PanicIndexOutOfRange → add_result r method path handler opts st (st, Some e)
| add_late e :
    frozen st = false → e ≠ PanicIndexOutOfRange →
    add_result r method path handler opts st
      (set_tree method (root_of method st) st, Some e)
| add_filed h t' :
    handler = Some h → ready r = true → frozen st = false → validateMethod method = None →
    validateRouteSegments (compilePathSegments (fullPath (prefix r) path)) = None →
    validateRouteMetaLocked (routeMetaFromOptions opts) st = None →
    filed (root_of method st) t' (path_key (fullPath (prefix r) path))
      (h, path_names (fullPath (prefix r) path), fullPath (prefix r) path,
       Name (routeMetaFromOptions opts)) →
    add_result r method path handler opts st
      (recordRoute method (fullPath (prefix r) path) (routeMetaFromOptions opts)
         (set_tree method t' st), None).

(** The pattern a registration would file starts every segment with an ASCII
    byte. *)
Definition ascii_pattern r path : Prop :=
  Forall seg_ascii (compilePathSegments (fullPath (prefix r) path)).

Lemma segs_good path :
  validateRouteSegments (compilePathSegments path) = None →
  Forall seg_ascii (compilePathSegments path) → Forall seg_good (compilePathSegments path).
Proof.
  intros Hv Ha. pose proof (compilePathSegments_wf path) as Hw.
  apply validateSegments_valid in Hv. unfold seg_good. rewrite !Forall_and. done.
Qed.

Lemma add_error_no_panic n K e : add_error (H:=H) n K e → e ≠ PanicIndexOutOfRange.
Proof. intros [[-> _]|(x & y & _ & [->| ->])]; done. Qed.

Lemma validateMethodBytes_no_panic b : validateMethodBytes b ≠ Some PanicIndexOutOfRange.
Proof. induction b; simpl; repeat case_match; congruence. Qed.

Lemma validateSegments_no_panic n i seen segs :
  validateSegments n i seen segs ≠ Some PanicIndexOutOfRange.
Proof. revert i seen. induction segs; intros; simpl; repeat case_match; try congruence; eauto. Qed.

Lemma AddRoute_result r method path handler opts st :
  (∀ t, trees st !! method = Some t → tree_ok t) → ascii_pattern r path →
  add_result r method path handler opts st (AddRoute r method path handler opts st).
Proof.
  intros Hok Ha. unfold AddRoute.
  destruct (ready r) eqn:Er; simpl; [|by constructor].
  destruct (frozen st) eqn:Ef; [by constructor|].
  destruct (validateMethod method) as [e|] eqn:Em.
  { constructor. intros ->. revert Em. unfold validateMethod.
    repeat case_decide; try done. apply validateMethodBytes_no_panic. }
  destruct handler as [h|]; [|by constructor].
  destruct (validateRoutePath path) as [e|] eqn:Ep.
  { constructor. intros ->. revert Ep. unfold validateRoutePath. by case_match. }
  set (meta := routeMetaFromOptions opts). set (full := fullPath (prefix r) path).
  destruct (validateRouteMetaLocked meta st) as [e|] eqn:Emeta.
  { constructor. intros ->. revert Emeta. unfold validateRouteMetaLocked. repeat case_match; done. }
  change (default (new_node [] []) (trees st !! method)) with (root_of method st).
  assert (tree_ok (root_of method st)) as Ht.
  { unfold root_of. destruct (trees st !! method) eqn:Et; [by apply Hok|apply leaf_ok]. }
  assert (∀ p, validateRouteSegments (compilePathSegments full) = None →
    add_outcome (root_of method st) (path_key full) (h, path_names full, full, Name meta) p →
    add_result r method path (Some h) opts st (let '(root', e) := p in
      match e with
      | Some e => (set_tree method root' (set_tree method (root_of method st) st), Some e)
      | None => (recordRoute method full meta
                   (set_tree method root' (set_tree method (root_of method st) st)), None)
      end)) as Hfin.
  { intros [t' [e|]] Hv Hout; rewrite set_tree_twice; simpl in Hout.
    - destruct Hout as [-> He]. apply add_late; [done|]. by eapply add_error_no_panic.
    - by apply (add_filed _ _ _ _ _ _ h). }
  case_decide as Hfull.
  { apply Hfin; rewrite Hfull; [done|]. by apply finalize_outcome. }
  destruct (validateRouteSegments (compilePathSegments full)) as [e|] eqn:Ev.
  { apply add_late; [done|]. intros ->. by apply validateSegments_no_panic in Ev. }
  apply Hfin; [done|]. apply add_outcome_segments; [done|]. by apply segs_good.
Qed.

(** ** The invariant is preserved *)

Lemma new_router_inv cache :
  rc_ok cache → (∀ k, rc_get k cache = None) → router_inv (snd (NewRouter (H:=H) cache)) ∅.
Proof.
  intros Hok Hempty. split; simpl; try done.
  - intros m rt h Hin. by apply elem_of_nil in Hin.
  - intros m. constructor.
  - intros n nr. rewrite lookup_empty. split; [done|]. intros (_ & m & rt & h & Hin & _).
    by apply elem_of_nil in Hin.
  - intros m p v _. by rewrite Hempty.
Qed.

Lemma matchNode_leaf parts path : matchNode (new_node (H:=H) [] []) parts path = None.
Proof. unfold matchNode. destruct parts; simpl; [done|]. by case_decide. Qed.

(** Creating an empty tree for a method changes no answer. *)
Lemma matchRoute_fresh method m path st :
  matchRoute m path (set_tree method (root_of method st) st) = matchRoute m path st.
Proof.
  assert (∀ m (f : node H → option (matchResult H)), f (new_node [] []) = None →
    <[method := root_of method st]> (trees st) !! m ≫= f = trees st !! m ≫= f) as Hf.
  { intros m' f Hnone. rewrite lookup_insert. case_decide; [|done]. subst. unfold root_of.
    destruct (trees st !! m'); [done|]. simpl. done. }
  unfold matchRoute. simpl.
  case_decide; repeat apply or_else_ext; repeat case_decide; try done;
    apply Hf; rewrite ?matchNode_leaf; done.
Qed.

Lemma set_root_inv method st a :
  router_inv st a → router_inv (set_tree method (root_of method st) st) a.
Proof.
  intros Hi. pose proof (root_represents _ _ method Hi) as Hroot. destruct Hi. split; simpl; try done.
  - intros m t. rewrite lookup_insert. case_decide; naive_solver.
  - intros m. rewrite lookup_insert. case_decide; naive_solver.
  - intros m p v Hm Hv. rewrite matchRoute_fresh. auto.
Qed.

Lemma validateMethod_no_colon m : validateMethod m = None → colon ∉ m.
Proof.
  unfold validateMethod. repeat case_decide; try done.
  assert (∀ b, validateMethodBytes b = None → colon ∉ b) as Hb; [|auto].
  induction b as [|x b IH]; simpl; [set_solver|]. repeat case_match; try done.
  unbool. intros. apply not_elem_of_cons. split; [|auto]. intros <-. done.
Qed.

(** The route a successful registration adds. *)
Definition new_route r method path (opts : list RouteOption) : route :=
  {| r_Method := method; r_Path := fullPath (prefix r) path; r_Meta := routeMetaFromOptions opts |}.

Lemma elem_of_method_add a m e m' x :
  x ∈ of_method (add_entry a m e) m' ↔ x ∈ of_method a m' ∨ (m' = m ∧ x = e).
Proof.
  rewrite of_method_add. case_decide as Hm; [subst|naive_solver].
  rewrite elem_of_app, list_elem_of_singleton. naive_solver.
Qed.

Lemma named_add named a m rt h :
  named_spec named a → (Name (r_Meta rt) = [] ∨ named !! Name (r_Meta rt) = None) → r_Method rt = m →
  named_spec (if decide (Name (r_Meta rt) = []) then named
              else registerNamedRoute (Name (r_Meta rt)) m (r_Path rt) named)
    (add_entry a m (rt, h)).
Proof.
  intros Hs Hnew Hm n nr. setoid_rewrite elem_of_method_add. case_decide as Hn.
  - rewrite (Hs n nr). naive_solver.
  - destruct Hnew as [?|Hnew]; [done|]. unfold registerNamedRoute.
    change {| nr_Method := m; nr_Pattern := r_Path rt; ParamPos := _ |} with
      (named_of {| r_Method := m; r_Path := r_Path rt; r_Meta := r_Meta rt |}).
    assert ({| r_Method := m; r_Path := r_Path rt; r_Meta := r_Meta rt |} = rt) as ->
      by (destruct rt; simpl in *; congruence).
    rewrite lookup_insert. case_decide as Hk; [|rewrite (Hs n nr); naive_solver].
    subst n. split; [intros [= <-]; split; [done|]; exists m, rt, h; auto|].
    intros (_ & m' & rt' & h' & [Hin|[-> [= -> ->]]] & Hname & ->); [|done].
    assert (named !! Name (r_Meta rt) = Some (named_of rt')) as E; [|congruence].
    apply Hs. naive_solver.
Qed.

Lemma record_inv r method path h opts t' st a :
  router_inv st a → ascii_pattern r path →
  validateRouteSegments (compilePathSegments (fullPath (prefix r) path)) = None →
  validateRouteMetaLocked (routeMetaFromOptions opts) st = None →
  filed (root_of method st) t' (path_key (fullPath (prefix r) path))
    (h, path_names (fullPath (prefix r) path), fullPath (prefix r) path,
     Name (routeMetaFromOptions opts)) →
  router_inv (recordRoute method (fullPath (prefix r) path) (routeMetaFromOptions opts)
                (set_tree method t' st))
    (add_entry a method (new_route r method path opts, h)).
Proof.
  intros Hi Ha Hv Hm Hf. pose proof (root_represents _ _ method Hi) as Hroot.
  set (full := fullPath (prefix r) path) in *. set (meta := routeMetaFromOptions opts) in *.
  assert (table_lookup (table_of (of_method a method)) (path_key full) = None) as Hnew.
  { rewrite <- (rep_routes _ _ Hroot). apply Hf. }
  destruct Hi as [I1 I2 I3 I4 I5 I6 I7 I8]. split; simpl.
  - intros m t. rewrite of_method_add, lookup_insert. case_decide as Hmm.
    + subst m. rewrite decide_True by done. intros [= <-]. unfold table_of. rewrite fmap_app.
      by apply (represents_filed (root_of method st)).
    + rewrite decide_False by done. apply I1.
  - intros m. rewrite of_method_add, lookup_insert. case_decide; [done|].
    rewrite decide_False by done. apply I2.
  - intros m. rewrite of_method_add, lookup_insert. case_decide as Hmm.
    + subst. rewrite decide_True by done. simpl. by rewrite fmap_app, I3.
    + by rewrite decide_False.
  - intros m rt h'. rewrite of_method_add. case_decide; [|apply I4]. subst m.
    rewrite elem_of_app, list_elem_of_singleton. intros [Hin|[= -> ->]]; [by apply (I4 _ _ h')|].
    split; [done|]. split; [apply fullPath_canonical|]. split; [by apply segs_good|done].
  - intros m. rewrite of_method_add. case_decide; [|apply I5]. rewrite fmap_app.
    apply NoDup_app. split; [apply I5|]. split; [|apply NoDup_singleton].
    intros K HK ->%list_elem_of_singleton. apply table_lookup_None in Hnew.
    apply Hnew. unfold table_of. by rewrite <- list_fmap_compose.
  - eapply (named_add _ _ _ (new_route r method path opts)); [done| |done].
    revert Hm. unfold validateRouteMetaLocked. simpl. repeat case_match; auto; done.
  - by apply rc_clear_ok.
  - intros m p v _. by rewrite rc_get_clear.
Qed.

(** [AddRoute] on a good state: the registry gains exactly the one new route, or
    an error is returned and the registry is unchanged. *)
Lemma AddRoute_inv r method path handler opts st a :
  router_inv st a → ascii_pattern r path →
  match AddRoute r method path handler opts st with
  | (st', None) =>
      ∃ h, handler = Some h ∧ validateMethod method = None ∧
           router_inv st' (add_entry a method (new_route r method path opts, h))
  | (st', Some e) => router_inv st' a ∧ e ≠ PanicIndexOutOfRange
  end.
Proof.
  intros Hi Ha.
  destruct (AddRoute_result r method path handler opts st) as [e|e|h t']; try done.
  - intros t Ht. by eapply rep_ok, inv_trees.
  - split; [|done]. by apply set_root_inv.
  - exists h. split; [done|]. split; [done|]. by apply record_inv.
Qed.

(** Changing flags leaves matching alone. *)
Lemma matchRoute_ext m p st st' : trees st = trees st' → matchRoute m p st = matchRoute m p st'.
Proof. intros E. unfold matchRoute. by rewrite E. Qed.

Lemma flags_inv st st' a :
  trees st' = trees st → routes st' = routes st → namedRoutes st' = namedRoutes st →
  matchCache st' = matchCache st → router_inv st a → router_inv st' a.
Proof.
  intros E1 E2 E3 E4 []. split; rewrite ?E1, ?E2, ?E3, ?E4; try done.
  intros m p v Hm Hv. rewrite (matchRoute_ext _ _ st' st) by done. auto.
Qed.

Lemma SetMethodNotAllowed_inv r b st a :
  router_inv st a → router_inv (SetMethodNotAllowed r b st) a.
Proof. apply flags_inv; unfold SetMethodNotAllowed; by repeat case_match. Qed.
Lemma Freeze_inv r st a : router_inv st a → router_inv (Freeze r st) a.
Proof. apply flags_inv; unfold Freeze; by repeat case_match. Qed.

Lemma cacheKey_inj m m' p p' :
  colon ∉ m → colon ∉ m' → cacheKey m p = cacheKey m' p' → m = m' ∧ p = p'.
Proof.
  unfold cacheKey. revert m'. induction m as [|x m IH]; intros [|y m'] Hm Hm' E; simplify_eq/=;
    try (by exfalso; set_solver).
  - done.
  - destruct (IH m') as [-> ->]; [set_solver..|done|done].
Qed.

(** A request whose method is an HTTP token, as [net/http] delivers it. *)
Definition good_request (req : option request) : Prop :=
  match req with Some q => colon ∉ req_Method q | None => True end.

Lemma ServeHTTP_inv r req st a :
  good_request req → router_inv st a → router_inv (fst (ServeHTTP r req st)) a.
Proof.
  intros Hg Hi. unfold ServeHTTP. destruct (ready r); simpl; [|done].
  destruct req as [[m [p|]]|]; simpl; try done.
  destruct (rc_get _ _) as [v|]; [done|].
  destruct (matchRoute m (fastNormalizePath p) st) as [v|] eqn:Em; [|by repeat case_match].
  simpl in Hg. destruct Hi as [I1 I2 I3 I4 I5 I6 I7 I8]. split; simpl; try done.
  - by apply rc_set_ok.
  - intros m' p' v' Hm'. rewrite (matchRoute_ext _ _ _ st) by done.
    destruct (decide (cacheKey m (fastNormalizePath p) = cacheKey m' p')) as [E|E].
    + apply cacheKey_inj in E as [<- <-]; [|done..]. rewrite rc_get_set_eq by done. congruence.
    + intros Hv. eapply I8; [done|]. by eapply rc_get_set_ne.
Qed.

(** ** Reachable states *)

Inductive router_op :=
| OpAdd r method path (handler : option H) (opts : list RouteOption)
| OpMethodNotAllowed r (enabled : bool)
| OpFreeze r
| OpServe r (req : option request).

Definition run_op (op : router_op) st : routerState H C :=
  match op with
  | OpAdd r method path handler opts => fst (AddRoute r method path handler opts st)
  | OpMethodNotAllowed r b => SetMethodNotAllowed r b st
  | OpFreeze r => Freeze r st
  | OpServe r req => fst (ServeHTTP r req st)
  end.

(** The inputs the theorems cover: patterns whose segments start with an ASCII
    byte and requests with token methods. *)
Definition op_ok (op : router_op) : Prop :=
  match op with
  | OpAdd r _ path _ _ => ascii_pattern r path
  | OpServe _ req => good_request req
  | _ => True
  end.

Definition run_ops (ops : list router_op) st : routerState H C := foldl (λ st op, run_op op st) st ops.

Lemma run_op_inv op st a : op_ok op → router_inv st a → ∃ a', router_inv (run_op op st) a'.
Proof.
  intros Hok Hi. destruct op; simpl in *.
  - pose proof (AddRoute_inv r method path handler opts st a Hi Hok) as Ha.
    destruct (AddRoute _ _ _ _ _ _) as [st' [e|]]; naive_solver.
  - eauto using SetMethodNotAllowed_inv.
  - eauto using Freeze_inv.
  - eauto using ServeHTTP_inv.
Qed.

Lemma run_ops_inv ops st a : Forall op_ok ops → router_inv st a → ∃ a', router_inv (run_ops ops st) a'.
Proof.
  revert st a. induction ops as [|op ops IH]; intros st a; simpl; [eauto|].
  intros [Hop Hops]%Forall_cons Hi. destruct (run_op_inv op st a Hop Hi) as [a' Hi']. eauto.
Qed.

(** These conditions are decidable. *)
#[export] Instance seg_ascii_dec seg : Decision (seg_ascii seg).
Proof. unfold seg_ascii. destruct (raw seg); apply _. Defined.
#[export] Instance good_request_dec req : Decision (good_request req).
Proof. unfold good_request. destruct req; apply _. Defined.
#[export] Instance op_ok_dec op : Decision (op_ok op).
Proof. destruct op; unfold op_ok, ascii_pattern; apply _. Defined.

End inv.
#[global] Arguments router_op : clear implicits.
