(* ===== verification/RouterProps.v ===== *)
(** * Theorems about the router

    Every theorem quantifies over the states an application can reach from
    [NewRouter] by registering routes, setting flags, freezing and serving
    requests ([run_ops]); the abstract registry [accepted] lists the routes whose
    [AddRoute] returned nil. *)

From stdpp Require Import options.
From S2P Require Import Prelude GoStrings RouteCache MatchCache RouterPath RouterTrie.
From S2P Require Import RouterTrieFacts RouterMatch ContractContext Router RouterInv.

(** ** The registry of accepted routes *)

Section accepted.
Context {H C : Type} `{!RouteCache C (matchResult H)} `{!RouteCacheLaws C (matchResult H)}.
Implicit Types (st : routerState H C) (a : registry H).

Definition accept_op (op : router_op H) st a : registry H :=
  match op with
  | OpAdd r method path (Some h) opts =>
      match snd (AddRoute r method path (Some h) opts st) with
      | None => add_entry a method (new_route r method path opts, h)
      | Some _ => a
      end
  | _ => a
  end.

Fixpoint accepted (ops : list (router_op H)) st a : registry H :=
  match ops with
  | [] => a
  | op :: ops => accepted ops (run_op op st) (accept_op op st a)
  end.

Lemma accept_op_inv op st a :
  op_ok op → router_inv st a → router_inv (run_op op st) (accept_op op st a).
Proof.
  intros Hok Hi. destruct op; simpl in *; eauto using SetMethodNotAllowed_inv, Freeze_inv, ServeHTTP_inv.
  pose proof (AddRoute_inv r method path handler opts st a Hi Hok) as Ha.
  destruct handler as [h|]; destruct (AddRoute _ _ _ _ _ _) as [st' [e|]]; simpl;
    [naive_solver..|]. by destruct Ha as (h & [=] & _).
Qed.

Lemma accepted_inv ops st a :
  Forall op_ok ops → router_inv st a → router_inv (run_ops ops st) (accepted ops st a).
Proof.
  revert st a. induction ops as [|op ops IH]; intros st a; simpl; [done|].
  intros [Hop Hops]%Forall_cons Hi. by apply IH, accept_op_inv.
Qed.

End accepted.

(** ** Serving *)

Section serve.
Context {H C : Type} `{!RouteCache C (matchResult H)} `{!RouteCacheLaws C (matchResult H)}.
Implicit Types (st : routerState H C) (a : registry H).

(** The methods other than ANY that have a route for the path, whose result per method is
    given. *)
Definition allowed_by (result : gostring → option (matchResult H)) a : list gostring :=
  filter (λ m, m ≠ MethodAny ∧ is_Some (result m)) (elements (dom a)).
Definition allow_list_by (result : gostring → option (matchResult H)) a : list gostring :=
  let ms := sort_strings (allowed_by result a) in
  if bool_decide (MethodGet ∈ ms ∧ MethodHead ∉ ms) then sort_strings (ms ++ [MethodHead]) else ms.

(** What the router must answer to a request whose route is given. *)
Definition serve_by (result : gostring → option (matchResult H)) (route : option (matchResult H)) a (mna : bool) method : response H :=
  match route with
  | Some result => serveMatch method result
  | None =>
      match allow_list_by result a with
      | [] => RNotFound
      | allow => if mna then RMethodNotAllowed allow else RNotFound
      end
  end.

Definition keyAllowed a path : list gostring := allowed_by (λ m, keyResult a m path) a.
Definition key_serve a (mna : bool) method path : response H :=
  serve_by (λ m, keyResult a m path) (keyRoute a method path) a mna method.
(** By the documented strategy, from the registered routes alone. *)
Definition spec_serve a (mna : bool) method path : response H :=
  serve_by (λ m, specResult a m path) (specRoute a method path) a mna method.

Lemma spec_serve_keys st a mna method path : router_inv st a → unmarked path →
  key_serve a mna method path = spec_serve a mna method path.
Proof.
  intros Hi Hu. unfold key_serve, spec_serve, serve_by, allow_list_by, allowed_by. rewrite (specRoute_keys st) by done.
  assert (E : ∀ m, keyResult a m path = specResult a m path) by (intros; by eapply specResult_keys).
  assert (El : filter (λ m, m ≠ MethodAny ∧ is_Some (keyResult a m path)) (elements (dom a))
    = filter (λ m, m ≠ MethodAny ∧ is_Some (specResult a m path)) (elements (dom a))).
  { apply list_filter_iff. intros m. by rewrite E. }
  by rewrite El.
Qed.

(** [allowedMethods] computes the specified list: map iteration order does not
    matter because the result is sorted. *)
Lemma sort_strings_ext l l' : l ≡ₚ l' → sort_strings l = sort_strings l'.
Proof.
  intros Hp. eapply (StronglySorted_unique str_le); try apply sort_strings_sorted.
  by rewrite !sort_strings_perm.
Qed.

Lemma sort_strings_short l : length l ≤ 1 → sort_strings l = l.
Proof.
  intros Hl. assert (sort_strings l ≡ₚ l) as Hp by apply sort_strings_perm.
  destruct l as [|x [|y l]]; simpl in Hl; [| |lia].
  - by apply Permutation_nil_r in Hp.
  - by apply Permutation_singleton_r in Hp.
Qed.

Lemma sort_if_long l : (if 1 <? length l then sort_strings l else l) = sort_strings l.
Proof. destruct (Nat.ltb_spec 1 (length l)); [done|]. by rewrite sort_strings_short by lia. Qed.

(** The per-tree test of [allowedMethods] is the abstract one. *)
Lemma allowed_test st a m t path :
  router_inv st a → trees st !! m = Some t → canonical path →
  (if decide (path = [slash]) then bool_decide (is_Some (n_handler t))
   else bool_decide (is_Some (matchNode t (splitPathToParts path) path))) = true
  ↔ is_Some (keyResult a m path).
Proof.
  intros Hi Ht Hc. case_decide as Hp; rewrite bool_decide_eq_true.
  - subst path. rewrite <- (rootResult_spec st a m t) by done. unfold rootResult.
    destruct (n_handler t); split; intros [? ?]; eauto; done.
  - rewrite <- (nodeResult_spec st a m t) by done. by rewrite fmap_is_Some.
Qed.

Lemma allowed_perm st a path :
  router_inv st a → canonical path →
  (fst <$> filter (λ '(m, t), m ≠ MethodAny ∧
     (if decide (path = [slash]) then bool_decide (is_Some (n_handler t))
      else bool_decide (is_Some (matchNode t (splitPathToParts path) path))) = true)
     (map_to_list (trees st))) ≡ₚ keyAllowed a path.
Proof.
  intros Hi Hc. apply NoDup_Permutation.
  - apply NoDup_fmap_filter, NoDup_fst_map_to_list.
  - apply NoDup_filter, NoDup_elements.
  - intros m. unfold keyAllowed, allowed_by.
    rewrite list_elem_of_filter, elem_of_elements, elem_of_dom, list_elem_of_fmap.
    setoid_rewrite list_elem_of_filter. split.
    + intros ([m' t] & -> & [Hne Hm] & Hin%elem_of_map_to_list). simpl in *.
      eapply allowed_test in Hm; [|done..]. split; [done|].
      destruct (a !! m') eqn:Ea; [eauto|]. destruct Hm as [x Hx]. exfalso.
      unfold keyResult, of_method in Hx. rewrite Ea in Hx. simpl in Hx.
      unfold keyMatch in Hx. destruct (request_parts path) as [|q l]; simpl in Hx; [done|].
      by case_decide.
    + intros [[Hne Hm] _]. destruct (trees st !! m) as [t|] eqn:Et.
      * exists (m, t). rewrite elem_of_map_to_list. split; [done|]. split; [|done]. split; [done|].
        by eapply allowed_test.
      * rewrite (keyResult_none st) in Hm by done. by destruct Hm.
Qed.

Lemma allowedMethods_spec st a path :
  router_inv st a → canonical path → allowedMethods path st = allow_list_by (λ m, keyResult a m path) a.
Proof.
  intros Hi Hc. unfold allowedMethods, allow_list_by. fold (keyAllowed a path).
  rewrite (decide_False (P := path = [])) by (intros ->; by destruct Hc as (q & [=] & _)).
  rewrite sort_if_long, (sort_strings_ext _ _ (allowed_perm st a path Hi Hc)).
  unfold appendImplicitHeadMethod. rewrite bool_decide_and, bool_decide_not. done.
Qed.

(** The answer to a request with a URL path, through the cache or not. *)
Lemma ServeHTTP_spec st a r method url :
  router_inv st a → ready r = true → colon ∉ method →
  url = [] ∨ has_prefix_byte slash url = true →
  snd (ServeHTTP r (Some {| req_Method := method; req_Path := Some url |}) st)
  = key_serve a (methodNotAllowed st) method (canonicalRoutePath url).
Proof.
  intros Hi Hr Hm Hu. pose proof (canonicalRoutePath_canonical url) as Hc.
  unfold ServeHTTP. rewrite Hr. simpl. rewrite fastNormalizePath_canonical by done.
  set (path := canonicalRoutePath url) in *. unfold key_serve, serve_by.
  rewrite <- (matchRoute_spec st) by done.
  destruct (rc_get _ _) as [v|] eqn:Ec.
  { apply (inv_cache _ _ Hi) in Ec as ->; done. }
  destruct (matchRoute method path st); [done|].
  rewrite <- (allowedMethods_spec st) by done. by repeat case_match.
Qed.

End serve.

(** ** The application's router *)

(** A router over the ring-buffer cache, as [NewRouter] builds it. *)
Abbreviation AppCache H := (MatchCache.matchCache (matchResult H)).
Abbreviation AppState H := (routerState H (AppCache H)).
Definition NewAppRouter (H : Type) : RouterRef * AppState H :=
  NewRouter (MatchCache.newMatchCache (V := matchResult H) (Z.of_nat MatchCache.defaultCacheCapacity)).

Definition reach {H} (ops : list (router_op H)) : AppState H := run_ops ops (snd (NewAppRouter H)).
Definition routes_of {H} (ops : list (router_op H)) : registry H :=
  accepted ops (snd (NewAppRouter H)) ∅.

Lemma reach_inv {H} (ops : list (router_op H)) :
  Forall op_ok ops → router_inv (reach ops) (routes_of ops).
Proof.
  intros Hok. apply accepted_inv; [done|]. apply new_router_inv.
  - apply MatchCache.new_ok.
  - intros k. simpl. unfold MatchCache.Get. apply lookup_empty.
Qed.

Section claims.
Context {H : Type}.
Implicit Types (ops : list (router_op H)).

(** ** Dispatch *)

(** C1: after any history of registrations, flag changes, freezing and served requests in
    which the segments of patterns start with an ASCII byte (others can make [AddRoute]
    panic) and methods hold no colon, matching a normalized path on the tries answers
    exactly what the documented strategy (exact method, then GET for HEAD, then ANY;
    static over parameter over wildcard, no backtracking) says about the routes whose
    registration succeeded, provided that no segment of the path is literally [:] or [*]
    (those are mistaken for the nodes of captures). *)
Theorem dispatch_refines ops method path :
  Forall op_ok ops → canonical path → unmarked path →
  matchRoute method path (reach ops) = specRoute (routes_of ops) method path.
Proof.
  intros Hok Hc Hu. pose proof (reach_inv ops Hok) as Hi.
  rewrite <- (specRoute_keys (reach ops)) by done. by apply matchRoute_spec.
Qed.

(** C2: after such a history (patterns whose segments start with an ASCII byte, methods
    without a colon) in which requests are served one after the other, the whole
    response of [ServeHTTP] (matched handler with its route state, 404, or 405 with its
    sorted [Allow] list) to a request is a function of the registered routes and the
    normalized path by the documented strategy, so the match cache does not change it.
    The request's method holds no colon, its path is empty or begins with a slash, and
    no segment of it is literally [:] or [*]. *)
Theorem serve_refines ops r method url :
  Forall op_ok ops → ready r = true → colon ∉ method →
  url = [] ∨ has_prefix_byte slash url = true → unmarked (canonicalRoutePath url) →
  snd (ServeHTTP r (Some {| req_Method := method; req_Path := Some url |}) (reach ops))
  = spec_serve (routes_of ops) (methodNotAllowed (reach ops)) method (canonicalRoutePath url).
Proof.
  intros Hok Hr Hm Hu Hp. pose proof (reach_inv ops Hok) as Hi.
  rewrite <- (spec_serve_keys (reach ops)) by done. by apply ServeHTTP_spec.
Qed.

(** C30: on a router whose registered patterns, like the new one, have segments that start
    with an ASCII byte, a failed [AddRoute] (validation error, duplicate name, duplicate
    route or parameter-name conflict) returns an error value instead of panicking, and is
    atomic: route list, names, cache and every match are as before. (A segment that
    starts with another byte can make it panic.) *)
Theorem add_route_atomic ops r method path handler opts st' e :
  Forall op_ok ops → ascii_pattern r path →
  AddRoute r method path handler opts (reach ops) = (st', Some e) →
  e ≠ PanicIndexOutOfRange ∧
  routes st' = routes (reach ops) ∧ namedRoutes st' = namedRoutes (reach ops) ∧
  matchCache st' = matchCache (reach ops) ∧
  ∀ m p, matchRoute m p st' = matchRoute m p (reach ops).
Proof.
  intros Hok Ha E. pose proof (reach_inv ops Hok) as Hi.
  pose proof (AddRoute_result r method path handler opts (reach ops)) as Hres.
  rewrite E in Hres. specialize (Hres (λ t Ht, rep_ok _ _ (inv_trees _ _ Hi _ t Ht)) Ha).
  inversion Hres; subst; [done|]. repeat split; try done. intros. apply matchRoute_fresh.
Qed.

(** ** Registered routes are found *)

Definition static_path (path : gostring) : Prop :=
  Forall (λ s, isParam s = false ∧ isWild s = false) (compilePathSegments path).

#[local] Instance static_path_dec path : Decision (static_path path).
Proof. unfold static_path. apply _. Defined.

Lemma static_key path :
  canonical path → static_path path → path_key path = request_parts path ∧ path_names path = [].
Proof.
  intros (q & -> & Hh & Hl) Hs. unfold request_parts, path_key, path_names, static_path in *.
  case_decide as Hq; [by simplify_eq|]. change (drop 1 (slash :: q)) with q.
  rewrite compilePathSegments_canonical in * by (try done; congruence).
  generalize dependent (split_on slash q). intros parts Hs. clear Hh Hl Hq.
  induction parts as [|p parts IH]; [done|]. rewrite !fmap_cons in *.
  apply Forall_cons in Hs as [[Hp Hw] Hs]. destruct (IH Hs) as [-> Hn]. split.
  - f_equal. unfold seg_key. rewrite Hp, Hw. unfold compileSegment in *. by repeat case_match.
  - unfold seg_names in *. rewrite filter_cons_False by (by rewrite Hp, Hw). done.
Qed.

Lemma good_segs_nonempty path :
  Forall seg_good (compilePathSegments path) → Forall (λ p, p ≠ []) (path_key path).
Proof.
  intros Hg. apply Forall_fmap. eapply Forall_impl; [done|].
  intros s (_ & (V & _) & _). simpl. unfold seg_key. repeat case_match; done.
Qed.

(** Insert/lookup: every accepted route without parameters is served under
    its own path by its own handler, whatever parameter or wildcard routes
    were registered before or after it. *)
Theorem static_route_served ops m rt h :
  Forall op_ok ops → (rt, h) ∈ of_method (routes_of ops) m → m ≠ MethodAny →
  static_path (r_Path rt) →
  matchRoute m (r_Path rt) (reach ops) =
  Some {| Handler := h; ParamValues := []; ParamKeys := []; RoutePattern := r_Path rt;
          RouteMethod := m; RouteName := Name (r_Meta rt) |}.
Proof.
  intros Hok Hin Hm Hs. pose proof (reach_inv ops Hok) as Hi.
  destruct (inv_wf _ _ Hi _ _ _ Hin) as (_ & Hc & Hg & _).
  rewrite (matchRoute_spec _ _ _ _ Hi Hc). unfold keyRoute, keyResult. rewrite decide_True by done.
  destruct (static_key _ Hc Hs) as [Hk Hn]. apply good_segs_nonempty in Hg.
  assert (table_entry (rt, h) ∈ table_of (of_method (routes_of ops) m)) as Hte
    by (by apply list_elem_of_fmap_2).
  unfold keyMatch. rewrite <- Hk, keyWalk_static; [|done|].
  - simpl. erewrite table_lookup_unique; [|  |done]; simpl.
    + rewrite Hn. done.
    + unfold table_of. rewrite <- list_fmap_compose. apply (inv_keys _ _ Hi).
  - apply Exists_exists. exists (table_entry (rt, h)). split; [done|]. done.
Qed.

(** ** What a match delivers *)

(** The route behind a match. *)
Lemma keyMatch_route (l : list (route * H)) parts res :
  keyMatch (table_of l) parts = Some res →
  ∃ rt h, (rt, h) ∈ l ∧ Handler res = h ∧ RoutePattern res = r_Path rt ∧
    RouteName res = Name (r_Meta rt) ∧ ParamKeys res = path_names (r_Path rt) ∧
    keyWalk (table_of l) [] parts [] = Some (path_key (r_Path rt), ParamValues res).
Proof.
  unfold keyMatch. destruct (keyWalk _ _ _ _) as [[ks vs]|]; simpl; [|done].
  destruct (table_lookup (table_of l) ks) as [[[[h keys] full] nm]|] eqn:El; simpl; [|done].
  intros [= <-]. apply table_lookup_elem, list_elem_of_fmap in El as ([rt h'] & Heq & Hin).
  unfold table_entry in Heq. simplify_eq/=. exists rt, h'. done.
Qed.

Lemma keyRoute_inv (a : registry H) method path res :
  keyRoute a method path = Some res → keyResult a (RouteMethod res) path = Some res.
Proof.
  assert (∀ m, keyResult a m path = Some res → keyResult a (RouteMethod res) path = Some res) as Hm.
  { intros m E. unfold keyResult in E. destruct (keyMatch _ _) eqn:Es; simplify_eq/=.
    unfold keyResult. by rewrite Es. }
  unfold keyRoute, or_else. repeat case_match; intros; simplify_eq; eauto.
Qed.

Lemma match_route ops method path res :
  Forall op_ok ops → canonical path → matchRoute method path (reach ops) = Some res →
  ∃ rt h, (rt, h) ∈ of_method (routes_of ops) (RouteMethod res) ∧ Handler res = h ∧
    RoutePattern res = r_Path rt ∧ RouteName res = Name (r_Meta rt) ∧
    ParamKeys res = path_names (r_Path rt) ∧
    keyWalk (table_of (of_method (routes_of ops) (RouteMethod res))) [] (request_parts path) []
    = Some (path_key (r_Path rt), ParamValues res).
Proof.
  intros Hok Hc. rewrite (matchRoute_spec _ _ _ _ (reach_inv ops Hok) Hc).
  intros E%keyRoute_inv. unfold keyResult in E. destruct (keyMatch _ _) as [res'|] eqn:Es; [|done].
  simpl in E. injection E as E. apply keyMatch_route in Es. rewrite <- E in *. exact Es.
Qed.

(** A match is sound: the matched pattern, with its parameters and wildcard
    replaced by the captured values, is the request path segment by segment. The
    only request segments excluded are the literal [:] and [*]. *)
Theorem match_captures ops method path res :
  Forall op_ok ops → canonical path → Forall plain_part (request_parts path) →
  matchRoute method path (reach ops) = Some res →
  ∃ rt h, (rt, h) ∈ of_method (routes_of ops) (RouteMethod res) ∧
    Handler res = h ∧ RoutePattern res = r_Path rt ∧
    fill (compilePathSegments (r_Path rt)) (ParamValues res) = Some (request_parts path).
Proof.
  intros Hok Hc Hpl Hm. destruct (match_route _ _ _ _ Hok Hc Hm) as (rt & h & Hin & Hh & Hp & _ & _ & Hw).
  exists rt, h. split; [done|]. split; [done|]. split; [done|].
  destruct (inv_wf _ _ (reach_inv ops Hok) _ _ _ Hin) as (_ & _ & Hg & _).
  apply keyWalk_fill in Hw as (ks & vs & Ek & -> & Hf); [|done]. simpl in Ek.
  rewrite <- fill_seg_keys by done. fold (path_key (r_Path rt)). by rewrite Ek.
Qed.

Lemma addParams_zip keys vals rs :
  params rs = [] → params (addParams keys vals rs) = take maxInlineParams (zip keys vals).
Proof. intros E. rewrite addParams_params; rewrite E; [done|]. simpl. unfold maxInlineParams. lia. Qed.

Lemma path_names_ne path :
  Forall seg_good (compilePathSegments path) → Forall (λ n, n ≠ []) (path_names path).
Proof.
  intros Hg. unfold path_names, seg_names. apply Forall_fmap, Forall_forall. intros s Hs.
  apply list_elem_of_filter in Hs as [Hs Hin]. rewrite Forall_forall in Hg.
  destruct (Hg s Hin) as (_ & (_ & V) & _). by apply V.
Qed.

(** A handler reads each of the first eight captured values back under the
    parameter name of its route. *)
Theorem params_delivered ops method path res i k v :
  Forall op_ok ops → canonical path → matchRoute method path (reach ops) = Some res →
  ParamKeys res !! i = Some k → ParamValues res !! i = Some v → i < maxInlineParams →
  ∃ h nobody rs, serveMatch method res = RServed h nobody rs ∧
    pattern rs = RoutePattern res ∧ name rs = RouteName res ∧ RequestParamFromContext rs k = v.
Proof.
  intros Hok Hc Hm Hk Hv Hi. unfold serveMatch.
  destruct (match_route _ _ _ _ Hok Hc Hm) as (rt & h & Hin & _ & _ & _ & Hkeys & _).
  destruct (inv_wf _ _ (reach_inv ops Hok) _ _ _ Hin) as (_ & _ & Hg%path_names_ne & Hnd%validated_names).
  rewrite <- Hkeys in *. do 3 eexists. split; [done|].
  match goal with |- context [addParams ?ks ?vs ?rs0] =>
    destruct (addParams_meta ks vs rs0) as [-> ->] end.
  split; [done|]. split; [done|].
  apply (RequestParam_lookup _ i); rewrite ?addParams_zip by done.
  - rewrite lookup_take_lt by done. rewrite lookup_zip_with, Hk. simpl. by rewrite Hv.
  - rewrite fmap_take. eapply sublist_NoDup; [done|].
    etrans; [apply sublist_take|]. apply fst_zip_sublist.
  - rewrite Forall_forall in Hg. apply Hg. by eapply list_elem_of_lookup_2.
Qed.

(** ** Freezing *)

(** Once frozen, no sequence of operations changes the tries, the route list,
    the names, the flags, or any match, and every further registration is refused. *)
Theorem frozen_immutable (st : AppState H) ops :
  frozen st = true →
  let st' := run_ops ops st in
  trees st' = trees st ∧ routes st' = routes st ∧ namedRoutes st' = namedRoutes st ∧
  methodNotAllowed st' = methodNotAllowed st ∧ frozen st' = true ∧
  ∀ r method path handler opts, ready r = true →
    AddRoute r method path handler opts st' = (st', Some ErrFrozen).
Proof.
  intros Hf. cbv zeta. revert st Hf. induction ops as [|op ops IH]; intros st Hf; simpl.
  { repeat split; [done|]. intros r m p hd opts Hr. unfold AddRoute. by rewrite Hr, Hf. }
  assert (trees (run_op op st) = trees st ∧ routes (run_op op st) = routes st ∧
    namedRoutes (run_op op st) = namedRoutes st ∧
    methodNotAllowed (run_op op st) = methodNotAllowed st ∧ frozen (run_op op st) = true)
    as (E1 & E2 & E3 & E4 & E5).
  { destruct op; simpl; unfold AddRoute, SetMethodNotAllowed, Freeze, ServeHTTP; rewrite ?Hf;
      by repeat case_match. }
  specialize (IH _ E5). by rewrite E1, E2, E3, E4 in IH.
Qed.

(** HEAD without a matching HEAD route behaves as GET on every path: the same
    match (hence the same handler and captured values, or the same miss), run
    with its body discarded. *)
Theorem head_mirrors_get ops path :
  Forall op_ok ops → canonical path → keyResult (routes_of ops) MethodHead path = None →
  matchRoute MethodHead path (reach ops) = matchRoute MethodGet path (reach ops) ∧
  ∀ res : matchResult H, ∃ rs, serveMatch MethodGet res = RServed (Handler res) false rs ∧
        serveMatch MethodHead res = RServed (Handler res) true rs.
Proof.
  intros Hok Hc Hnone. rewrite !(matchRoute_spec _ _ _ _ (reach_inv ops Hok) Hc).
  unfold keyRoute. rewrite Hnone. split; [|by eexists].
  rewrite !decide_True by done. done.
Qed.

End claims.

(** ** A concrete application *)

Definition demo_ref : RouterRef := {| prefix := []; ready := true |}.
Definition demo_get (path : String.string) (h : nat) (opts : list RouteOption) : router_op nat :=
  OpAdd demo_ref MethodGet (str path) (Some h) opts.
Definition demo_serve (method path : String.string) : router_op nat :=
  OpServe demo_ref (Some {| req_Method := str method; req_Path := Some (str path) |}).
Definition demo_ops : list (router_op nat) :=
  [demo_get "/users/:id" 2 []; demo_get "/users/me" 1 [WithRouteName (str "me")];
   demo_get "/files/*path" 3 []; OpMethodNotAllowed demo_ref true;
   demo_serve "GET" "/users/42"; demo_serve "GET" "/users/me/"].

Lemma demo_ok : Forall op_ok demo_ops.
Proof. apply (bool_decide_unpack _). vm_compute. exact I. Qed.

Lemma demo_canonical (s : String.string) :
  canonicalRoutePath (str s) = str s → canonical (str s).
Proof. intros <-. apply canonicalRoutePath_canonical. Qed.

Lemma dispatch_refines_witness :
  matchRoute MethodGet (str "/users/42") (reach demo_ops)
  = specRoute (routes_of demo_ops) MethodGet (str "/users/42") ∧
  (Handler <$> matchRoute MethodGet (str "/users/42") (reach demo_ops)) = Some 2.
Proof.
  split; [apply (dispatch_refines demo_ops MethodGet (str "/users/42"))|vm_compute; reflexivity].
  - apply demo_ok.
  - apply demo_canonical. reflexivity.
  - apply (bool_decide_unpack _). vm_compute. exact I.
Defined.

Lemma serve_refines_witness :
  snd (ServeHTTP demo_ref (Some {| req_Method := str "POST"; req_Path := Some (str "//users/42/") |})
         (reach demo_ops)) = RMethodNotAllowed [MethodGet; MethodHead].
Proof.
  etransitivity.
  - apply (serve_refines demo_ops demo_ref (str "POST") (str "//users/42/")).
    + apply demo_ok.
    + reflexivity.
    + apply (bool_decide_unpack _). vm_compute. exact I.
    + right. reflexivity.
    + apply (bool_decide_unpack _). vm_compute. exact I.
  - vm_compute. reflexivity.
Defined.

Lemma add_route_atomic_witness :
  matchRoute MethodGet (str "/users/42")
    (fst (AddRoute demo_ref MethodGet (str "/users/:name") (Some 9) [] (reach demo_ops)))
  = matchRoute MethodGet (str "/users/42") (reach demo_ops).
Proof.
  apply (add_route_atomic demo_ops demo_ref MethodGet (str "/users/:name") (Some 9) [] _
           (ErrParamMismatch (str "id") (str "name"))).
  - apply demo_ok.
  - apply (bool_decide_unpack _). vm_compute. exact I.
  - vm_compute. reflexivity.
Defined.

Lemma static_route_served_witness :
  Handler <$> matchRoute MethodGet (str "/users/me") (reach demo_ops) = Some 1.
Proof.
  assert (Hin : (mkRoute MethodGet (str "/users/me") (mkMeta (str "me") []), 1)
    ∈ of_method (routes_of demo_ops) MethodGet).
  { vm_compute. right. left. }
  pose proof (static_route_served demo_ops MethodGet _ 1 demo_ok Hin) as Hs. simpl in Hs.
  rewrite Hs; [reflexivity|discriminate|].
  apply (bool_decide_unpack _). vm_compute. exact I.
Defined.

Lemma match_captures_witness :
  ∃ rt h res, matchRoute MethodGet (str "/files/a/b") (reach demo_ops) = Some res ∧
    Handler res = h ∧ RoutePattern res = r_Path rt ∧
    fill (compilePathSegments (r_Path rt)) (ParamValues res) = Some [str "files"; str "a"; str "b"].
Proof.
  destruct (matchRoute MethodGet (str "/files/a/b") (reach demo_ops)) as [res|] eqn:E.
  2:{ vm_compute in E. discriminate. }
  destruct (match_captures demo_ops MethodGet (str "/files/a/b") res) as (rt & h & _ & Hh & Hp & Hf).
  - apply demo_ok.
  - apply demo_canonical. reflexivity.
  - apply (bool_decide_unpack _). vm_compute. exact I.
  - exact E.
  - exists rt, h, res. split; [reflexivity|]. split; [exact Hh|]. split; [exact Hp|exact Hf].
Defined.

Lemma params_delivered_witness :
  ∃ res h nobody rs, matchRoute MethodGet (str "/users/42") (reach demo_ops) = Some res ∧
    serveMatch MethodGet res = RServed h nobody rs ∧
    RequestParamFromContext rs (str "id") = str "42".
Proof.
  destruct (matchRoute MethodGet (str "/users/42") (reach demo_ops)) as [res|] eqn:E.
  2:{ vm_compute in E. discriminate. }
  destruct (params_delivered demo_ops MethodGet (str "/users/42") res 0 (str "id") (str "42"))
    as (h & nb & rs & Hs & _ & _ & Hr).
  - apply demo_ok.
  - apply demo_canonical. reflexivity.
  - exact E.
  - vm_compute in E. injection E as <-. reflexivity.
  - vm_compute in E. injection E as <-. reflexivity.
  - unfold maxInlineParams. lia.
  - exists res, h, nb, rs. split; [reflexivity|]. split; [exact Hs|exact Hr].
Defined.

Lemma frozen_immutable_witness :
  trees (run_ops demo_ops (Freeze demo_ref (reach demo_ops))) = trees (reach demo_ops).
Proof. apply (frozen_immutable (Freeze demo_ref (reach demo_ops)) demo_ops). reflexivity. Defined.

Lemma head_mirrors_get_witness :
  matchRoute MethodHead (str "/users/7") (reach demo_ops)
  = matchRoute MethodGet (str "/users/7") (reach demo_ops).
Proof.
  apply (head_mirrors_get demo_ops (str "/users/7")).
  - apply demo_ok.
  - apply demo_canonical. reflexivity.
  - vm_compute. reflexivity.
Defined.
