(* ===== verification/RouterURL.v ===== *)
(** * Reverse routing and introspection ([router/metadata.go])

    [URL] fills the pattern of a named route with percent-escaped parameters;
    [HasRoute], [NamedRoutes] and [Routes] read the registry. Path escaping is
    the standard library's [url.PathEscape]/[url.PathUnescape]. *)

From stdpp Require Import options.
From S2P Require Import Prelude GoStrings RouteCache MatchCache RouterPath RouterTrie.
From S2P Require Import RouterTrieFacts RouterMatch ContractContext Router RouterInv RouterProps.

(** ** [url.PathEscape] *)

Definition percent : gobyte := "%"%char.

(** [shouldEscape] in the mode [encodePathSegment]. *)
Definition shouldEscape (b : gobyte) : bool :=
  negb ((byte_leb "a" b && byte_leb b "z") || (byte_leb "A" b && byte_leb b "Z")
        || (byte_leb "0" b && byte_leb b "9") || bool_decide (b ∈ str "-_.~$&+:=@")).

Definition upperhex (n : N) : gobyte :=
  if (n <? 10)%N then byte_of (48 + n) else byte_of (55 + n).

Definition escape_byte (b : gobyte) : gostring :=
  if shouldEscape b then [percent; upperhex (byte_val b / 16); upperhex (byte_val b mod 16)]
  else [b].
Definition PathEscape (s : gostring) : gostring := mjoin (escape_byte <$> s).

Definition unhex (b : gobyte) : option N :=
  let v := byte_val b in
  if byte_leb "0" b && byte_leb b "9" then Some (v - 48)%N
  else if byte_leb "a" b && byte_leb b "f" then Some (v - 97 + 10)%N
  else if byte_leb "A" b && byte_leb b "F" then Some (v - 65 + 10)%N
  else None.

(** [url.PathUnescape]; [None] is an [EscapeError]. *)
Fixpoint PathUnescape (s : gostring) : option gostring :=
  match s with
  | [] => Some []
  | c :: s' =>
      if decide (c = percent) then
        match s' with
        | x :: y :: s'' =>
            hi ← unhex x; lo ← unhex y; cons (byte_of (hi * 16 + lo)) <$> PathUnescape s''
        | _ => None
        end
      else cons c <$> PathUnescape s'
  end.

(** ** Building a URL *)

Inductive urlErr :=
| UNotInitialized
| UNotFound
| UUnpaired (key : gostring)
| UDuplicateKey (key : gostring)
| UUnknownKey (key : gostring)
| UEmptyParam (name : gostring)
| UMissingParam (name : gostring).

(** The loop that pairs up [params]. *)
Fixpoint paramPairs (pos : gmap gostring nat) (params : list gostring) (m : gmap gostring gostring)
    : result urlErr (gmap gostring gostring) :=
  match params with
  | key :: val :: rest =>
      match m !! key with
      | Some _ => Err (UDuplicateKey key)
      | None =>
          match pos !! key with
          | None => Err (UUnknownKey key)
          | Some _ => paramPairs pos rest (<[key := val]> m)
          end
      end
  | _ => Ok m
  end.

Definition urlPart (m : gmap gostring gostring) (part : gostring) : result urlErr gostring :=
  let paramName := drop 1 part in
  if has_prefix_byte colon part then
    match m !! paramName with
    | Some val => if decide (val = []) then Err (UEmptyParam paramName) else Ok (PathEscape val)
    | None => Err (UMissingParam paramName)
    end
  else if has_prefix_byte star part then
    match m !! paramName with
    | Some val =>
        if decide (val = []) then Err (UEmptyParam paramName)
        else Ok (join_with slash (PathEscape <$> split_on slash val))
    | None => Err (UMissingParam paramName)
    end
  else Ok part.

Fixpoint urlParts (m : gmap gostring gostring) (parts : list gostring)
    : result urlErr (list gostring) :=
  match parts with
  | [] => Ok []
  | part :: rest =>
      (let? p := urlPart m part in let? ps := urlParts m rest in Ok (p :: ps))%go
  end.

Section url.
Context {H C : Type} `{!RouteCache C (matchResult H)}.
Implicit Types (st : routerState H C) (r : RouterRef).

Definition urlForNamedRoute r (name : gostring) (params : list gostring) st
    : result urlErr gostring :=
  if negb (ready r) then Err UNotInitialized
  else match namedRoutes st !! name with
  | None => Err UNotFound
  | Some namedRoute =>
      if negb (length params mod 2 =? 0) then Err (UUnpaired (default [] (last params)))
      else
        (let? paramMap := paramPairs (ParamPos namedRoute) params ∅ in
         let? resultParts := urlParts paramMap (split_on slash (trim slash (nr_Pattern namedRoute))) in
         Ok (slash :: join_with slash resultParts))%go
  end.

Definition URL r name params st : result urlErr gostring := urlForNamedRoute r name params st.
(** [None] is the panic. *)
Definition URLMust r name params st : option gostring :=
  match urlForNamedRoute r name params st with Ok u => Some u | Err _ => None end.

Definition HasRoute r (name : gostring) st : bool :=
  ready r && bool_decide (is_Some (namedRoutes st !! name)).

Definition NamedRoutes r st : gmap gostring NamedRoute :=
  if negb (ready r) then ∅ else namedRoutes st.

(** The order of [Routes] and [printRoutesSnapshot]: by method, then path. *)
Definition route_le (x y : route) : Prop :=
  if decide (r_Method x = r_Method y) then str_le (r_Path x) (r_Path y)
  else str_le (r_Method x) (r_Method y).
#[export] Instance route_le_dec : RelDecision route_le.
Proof. intros x y. unfold route_le. case_decide; apply _. Defined.

Definition Routes r st : list route :=
  if negb (ready r) then [] else merge_sort route_le (mjoin (snd <$> map_to_list (routes st))).

End url.

(** ** Escaping round trip *)

(** [x] decodes to [y] in front of any text. *)
Definition decodes (x y : gostring) : Prop :=
  ∀ t, PathUnescape (x ++ t) = app y <$> PathUnescape t.

Lemma decodes_nil : decodes [] [].
Proof. intros t. simpl. by destruct (PathUnescape t). Qed.

Lemma decodes_app x y x' y' : decodes x y → decodes x' y' → decodes (x ++ x') (y ++ y').
Proof.
  intros Hx Hx' t. rewrite <- app_assoc, Hx, Hx'. destruct (PathUnescape t); simpl; [|done].
  by rewrite app_assoc.
Qed.

Lemma decodes_done x y : decodes x y → PathUnescape x = Some y.
Proof. intros Hx. specialize (Hx []). rewrite app_nil_r in Hx. rewrite Hx. simpl. by rewrite app_nil_r. Qed.

Lemma decodes_plain b : b ≠ percent → decodes [b] [b].
Proof. intros Hb t. simpl. by rewrite decide_False. Qed.

(** All 256 bytes survive the trip. *)
Lemma unhex_escape b :
  shouldEscape b = true →
  unhex (upperhex (byte_val b / 16)) = Some (byte_val b / 16)%N ∧
  unhex (upperhex (byte_val b mod 16)) = Some (byte_val b mod 16)%N.
Proof. intros _. destruct b as [[] [] [] [] [] [] [] []]; vm_compute; done. Qed.

Lemma decodes_byte b : decodes (escape_byte b) [b].
Proof.
  unfold escape_byte. destruct (shouldEscape b) eqn:E.
  - intros t. simpl. destruct (unhex_escape b E) as [-> ->]. simpl.
    replace (byte_val b / 16 * 16 + byte_val b mod 16)%N with (byte_val b)
      by (pose proof (N.div_mod (byte_val b) 16); lia).
    by rewrite byte_of_val.
  - apply decodes_plain. intros ->. by vm_compute in E.
Qed.

Lemma decodes_escape s : decodes (PathEscape s) s.
Proof.
  induction s as [|b s IH]; [apply decodes_nil|].
  change (PathEscape (b :: s)) with (escape_byte b ++ PathEscape s).
  apply (decodes_app _ [b]); [apply decodes_byte|done].
Qed.

Lemma decodes_verbatim s : percent ∉ s → decodes s s.
Proof.
  induction s as [|b s IH]; [intros; apply decodes_nil|]. rewrite not_elem_of_cons. intros [Hb Hs].
  apply (decodes_app [b] [b]); [by apply decodes_plain|auto].
Qed.

Lemma decodes_join xs ys :
  Forall2 decodes xs ys → decodes (join_with slash xs) (join_with slash ys).
Proof.
  induction 1 as [|x y xs ys Hx Hxs IH]; [apply decodes_nil|].
  destruct Hxs; [done|]. rewrite !join_cons by done. apply decodes_app; [done|].
  apply (decodes_app [slash] [slash]); [by apply decodes_plain|done].
Qed.

(** ** The parts of a URL *)

Definition url_fills m parts vals : Prop :=
  ∃ rps parts', urlParts m parts = Ok rps ∧ fill (compileSegment <$> parts) vals = Some parts' ∧
    (parts ≠ [] → rps ≠ [] ∧ parts' ≠ []) ∧
    decodes (join_with slash rps) (join_with slash parts').

(** One more part in front, consuming the values [vs]. *)
Lemma url_fills_cons m p x y vs parts vals :
  urlPart m p = Ok x → decodes x y →
  (∀ segs, fill (compileSegment p :: segs) (vs ++ vals) = cons y <$> fill segs vals) →
  url_fills m parts vals → url_fills m (p :: parts) (vs ++ vals).
Proof.
  intros Hp Hd Hf (rps & parts' & Hu & Hfill & Hne & Hdec).
  exists (x :: rps), (y :: parts'). simpl urlParts. rewrite Hp, Hu. simpl result_bind.
  rewrite fmap_cons, Hf, Hfill. split; [done|]. split; [done|]. split; [done|].
  destruct parts as [|p' parts].
  - simpl in Hu, Hfill. simplify_eq. destruct vals; [|done]. by simplify_eq.
  - destruct Hne as [Hr Hp']; [done|]. rewrite !join_cons by done.
    apply decodes_app; [done|]. apply (decodes_app [slash] [slash]); [by apply decodes_plain|done].
Qed.

Lemma compileSegment_param p :
  has_prefix_byte colon p = true → isParam (compileSegment p) = true ∧ paramName (compileSegment p) = drop 1 p.
Proof. intros E. unfold compileSegment. by rewrite E. Qed.
Lemma compileSegment_wild p :
  has_prefix_byte colon p = false → has_prefix_byte star p = true →
  isParam (compileSegment p) = false ∧ isWild (compileSegment p) = true ∧
  paramName (compileSegment p) = drop 1 p.
Proof. intros E1 E2. unfold compileSegment. by rewrite E1, E2. Qed.
Lemma compileSegment_static p :
  has_prefix_byte colon p = false → has_prefix_byte star p = false →
  isParam (compileSegment p) = false ∧ isWild (compileSegment p) = false ∧ raw (compileSegment p) = p.
Proof. intros E1 E2. unfold compileSegment. by rewrite E1, E2. Qed.

Lemma urlParts_fill m parts vals :
  Forall2 (λ n v, m !! n = Some v ∧ v ≠ []) (seg_names (compileSegment <$> parts)) vals →
  (∀ j s, (compileSegment <$> parts) !! j = Some s → isWild s = true → S j = length parts) →
  Forall (λ p, percent ∉ p) parts → url_fills m parts vals.
Proof.
  revert vals. induction parts as [|p parts IH]; intros vals Hv Hw Hpc.
  { inversion Hv. subst. exists [], []. repeat split; try done. apply decodes_nil. }
  apply Forall_cons in Hpc as [Hp Hpc].
  assert (∀ vals, Forall2 (λ n v, m !! n = Some v ∧ v ≠ []) (seg_names (compileSegment <$> parts)) vals →
    url_fills m parts vals) as IH'.
  { intros vals' Hv'. apply IH; [done| |done]. intros j s Hj Hs. specialize (Hw (S j) s Hj Hs).
    simpl in Hw. lia. }
  clear IH. rewrite fmap_cons, seg_names_cons in Hv.
  destruct (has_prefix_byte colon p) eqn:Ec; [|destruct (has_prefix_byte star p) eqn:Es].
  - destruct (compileSegment_param p Ec) as [Hpar Hn]. rewrite Hpar, Hn in Hv. simpl in Hv.
    apply Forall2_cons_inv_l in Hv as (v & vals' & [Hm Hne] & Hv & ->).
    apply (url_fills_cons m p (PathEscape v) v [v]); auto using decodes_escape.
    + unfold urlPart. rewrite Ec, Hm. by rewrite decide_False.
    + intros segs. simpl. by rewrite Hpar.
  - destruct (compileSegment_wild p Ec Es) as (Hpar & Hwild & Hn). rewrite Hpar, Hwild, Hn in Hv. simpl in Hv.
    specialize (Hw 0 (compileSegment p) eq_refl Hwild). destruct parts; [|done]. simpl in Hv.
    apply Forall2_cons_inv_l in Hv as (v & vals' & [Hm Hne] & Hv & ->). inversion Hv. subst.
    exists [join_with slash (PathEscape <$> split_on slash v)], (split_on slash v). simpl.
    unfold urlPart. rewrite Ec, Es, Hm, Hpar, Hwild, decide_False by done. split; [done|].
    split; [done|]. split; [intros _; split; [done|apply split_on_ne]|].
    apply decodes_join, Forall2_fmap_l, Forall_Forall2_diag, Forall_true, decodes_escape.
  - destruct (compileSegment_static p Ec Es) as (Hpar & Hwild & Hr). rewrite Hpar, Hwild in Hv. simpl in Hv.
    apply (url_fills_cons m p p p []); auto using decodes_verbatim.
    + unfold urlPart. by rewrite Ec, Es.
    + intros segs. simpl. by rewrite Hpar, Hwild, Hr.
Qed.

(** ** The parameter map *)

Fixpoint interleave (names vals : list gostring) : list gostring :=
  match names, vals with
  | n :: names, v :: vals => n :: v :: interleave names vals
  | _, _ => []
  end.

Lemma paramPositions_names parts pos m n :
  is_Some (paramPositions parts pos m !! n) ↔
  is_Some (m !! n) ∨ n ∈ seg_names (compileSegment <$> parts).
Proof.
  revert pos m. induction parts as [|p parts IH]; intros pos m; [simpl; set_solver|].
  rewrite fmap_cons, seg_names_cons, elem_of_app. cbn [paramPositions].
  destruct (has_prefix_byte colon p) eqn:Ec; [|destruct (has_prefix_byte star p) eqn:Es]; simpl.
  - destruct (compileSegment_param p Ec) as [-> ->]. simpl.
    rewrite IH, lookup_insert, list_elem_of_singleton. case_decide; naive_solver.
  - destruct (compileSegment_wild p Ec Es) as (-> & -> & ->). simpl.
    rewrite IH, lookup_insert, list_elem_of_singleton. case_decide; naive_solver.
  - destruct (compileSegment_static p Ec Es) as (-> & -> & _). simpl. rewrite IH. set_solver.
Qed.

Lemma paramPairs_ok pos names vals m :
  NoDup names → length names = length vals → Forall (λ n, is_Some (pos !! n)) names →
  Forall (λ n, m !! n = None) names →
  ∃ m', paramPairs pos (interleave names vals) m = Ok m' ∧
    (∀ n, n ∉ names → m' !! n = m !! n) ∧ Forall2 (λ n v, m' !! n = Some v) names vals.
Proof.
  revert vals m. induction names as [|n names IH]; intros [|v vals] m Hnd Hl Hpos Hm; try done.
  { exists m. split; [done|]. split; [done|constructor]. }
  apply NoDup_cons in Hnd as [Hn Hnd]. apply Forall_cons in Hpos as [[k Hk] Hpos].
  apply Forall_cons in Hm as [Hmn Hm]. simpl. rewrite Hmn, Hk.
  destruct (IH vals (<[n := v]> m)) as (m' & -> & Ho & Hv); try done.
  { simpl in Hl. lia. }
  { rewrite Forall_forall in *. intros x Hx. rewrite lookup_insert_ne; [auto|]. by intros ->. }
  exists m'. split; [done|]. split.
  - intros x Hx. rewrite Ho, lookup_insert_ne; set_solver.
  - constructor; [|done]. by rewrite Ho, lookup_insert_eq.
Qed.

Lemma interleave_even names vals : length (interleave names vals) mod 2 = 0.
Proof.
  revert vals. induction names as [|n names IH]; intros [|v vals]; try done.
  change (length (interleave (n :: names) (v :: vals))) with (2 + length (interleave names vals)).
  by rewrite Nat.Div0.add_mod, IH.
Qed.

(** ** Theorems *)

Section url_claims.
Context {H : Type}.
Implicit Types (ops : list (router_op H)).

Lemma pattern_parts path :
  canonical path → compilePathSegments path = compileSegment <$> split_on slash (trim slash path)
  ∨ (path = [slash] ∧ split_on slash (trim slash path) = [[]]).
Proof. intros _. unfold compilePathSegments. case_decide; [right|by left]. by subst. Qed.

(** Reverse routing inverts matching: for a named route of a reachable router
    and a non-empty value for each of its parameters, [URL] succeeds, and
    percent-decoding the URL gives exactly the request path whose segments are
    the pattern filled with those values. *)
Theorem url_roundtrip ops r m rt h vals :
  Forall op_ok ops → ready r = true → (rt, h) ∈ of_method (routes_of ops) m →
  Name (r_Meta rt) ≠ [] → percent ∉ r_Path rt →
  length vals = length (path_names (r_Path rt)) → Forall (λ v, v ≠ []) vals →
  ∃ u parts, URL r (Name (r_Meta rt)) (interleave (path_names (r_Path rt)) vals) (reach ops) = Ok u ∧
    fill (compilePathSegments (r_Path rt)) vals = Some parts ∧
    PathUnescape u = Some (slash :: join_with slash parts).
Proof.
  intros Hok Hr Hin Hname Hpct Hlen Hvals. pose proof (reach_inv ops Hok) as Hi.
  destruct (inv_wf _ _ Hi _ _ _ Hin) as (_ & Hc & Hg & Hv).
  assert (namedRoutes (reach ops) !! Name (r_Meta rt) = Some (named_of rt)) as Hnamed.
  { apply (inv_named _ _ Hi). split; [done|]. by exists m, rt, h. }
  unfold URL, urlForNamedRoute. rewrite Hr, Hnamed, interleave_even. simpl.
  destruct (pattern_parts _ Hc) as [Hs|[Hroot Hsp]].
  2:{ rewrite Hroot in *. destruct vals; [|done]. simpl. by exists [slash], []. }
  destruct (paramPairs_ok (ParamPos (named_of rt)) (path_names (r_Path rt)) vals ∅)
    as (pm & Hpm & _ & Hall); [by apply validated_names|done| | |].
  { apply Forall_forall. intros n Hn. simpl. apply paramPositions_names. right. by rewrite <- Hs. }
  { apply Forall_forall. intros n _. apply lookup_empty. }
  simpl in Hpm. rewrite Hpm. simpl.
  destruct (urlParts_fill pm (split_on slash (trim slash (r_Path rt))) vals)
    as (rps & parts & Hu & Hf & _ & Hd).
  - rewrite <- Hs. by apply Forall2_with_r.
  - intros j s Hj Hw. rewrite <- Hs in Hj. rewrite <- (length_fmap compileSegment), <- Hs.
    eapply validateSegments_wild_last; [exact Hv|done..].
  - apply split_no_elem. destruct Hc as (q & Hq & Hh & Hl). rewrite Hq in *.
    rewrite trim_canonical by done. by apply not_elem_of_cons in Hpct as [_ ?].
  - rewrite Hu. simpl. exists (slash :: join_with slash rps), parts. rewrite Hs. split; [done|].
    split; [done|]. apply decodes_done, (decodes_app [slash] [slash]); [by apply decodes_plain|done].
Qed.

#[local] Instance route_le_total : Total route_le.
Proof.
  intros x y. unfold route_le. destruct (decide (r_Method x = r_Method y)) as [E|E].
  - rewrite decide_True by done. apply total, _.
  - rewrite decide_False by done. apply total, _.
Qed.
#[local] Instance route_le_trans : Transitive route_le.
Proof.
  intros x y z. unfold route_le.
  destruct (decide (r_Method x = r_Method y)) as [E1|E1], (decide (r_Method y = r_Method z)) as [E2|E2],
    (decide (r_Method x = r_Method z)) as [E3|E3]; try congruence; intros Hxy Hyz;
    try (by etrans); try (by rewrite ?E1, <- ?E2).
  destruct E1. apply (anti_symm str_le); congruence.
Qed.

Lemma accepted_routes_elem ops rt :
  Forall op_ok ops →
  rt ∈ mjoin (snd <$> map_to_list (routes (reach ops))) ↔
  ∃ m h, (rt, h) ∈ of_method (routes_of ops) m.
Proof.
  intros Hok. pose proof (reach_inv ops Hok) as Hi. rewrite list_elem_of_join. split.
  - intros (l & Hl & ([m l'] & -> & Hin%elem_of_map_to_list)%list_elem_of_fmap).
    exists m. pose proof (inv_routes _ _ Hi m) as Hr. rewrite Hin in Hr. simpl in *. rewrite Hr in Hl.
    apply list_elem_of_fmap in Hl as ([rt' h] & -> & ?). by exists h.
  - intros (m & h & Hin). pose proof (inv_routes _ _ Hi m) as Hr.
    destruct (routes (reach ops) !! m) as [l|] eqn:El; simpl in Hr.
    + exists l. rewrite Hr. split; [by apply (list_elem_of_fmap_2 fst) in Hin|].
      apply list_elem_of_fmap. exists (m, l). rewrite elem_of_map_to_list. by rewrite <- Hr.
    + destruct (of_method (routes_of ops) m); [by apply elem_of_nil in Hin|done].
Qed.

(** [Routes] lists every accepted route exactly once and nothing else, sorted
    by method and path. *)
Theorem routes_listing ops r :
  Forall op_ok ops → ready r = true →
  (∀ rt, rt ∈ Routes r (reach ops) ↔ ∃ m h, (rt, h) ∈ of_method (routes_of ops) m) ∧
  NoDup (Routes r (reach ops)) ∧ StronglySorted route_le (Routes r (reach ops)).
Proof.
  intros Hok Hr. pose proof (reach_inv ops Hok) as Hi. unfold Routes. rewrite Hr. simpl.
  split; [|split].
  - intros rt. rewrite merge_sort_Permutation. by apply accepted_routes_elem.
  - rewrite merge_sort_Permutation. apply (NoDup_join_keyed r_Method); [apply NoDup_fst_map_to_list|].
    intros m l Hl%elem_of_map_to_list. pose proof (inv_routes _ _ Hi m) as Hl'.
    rewrite Hl in Hl'. simpl in Hl'. subst l. split.
    + pose proof (inv_keys _ _ Hi m) as Hk.
      apply (NoDup_fmap_1 (path_key ∘ r_Path)). by rewrite <- list_fmap_compose.
    + intros rt ([rt' h] & -> & Hin)%list_elem_of_fmap. by apply (inv_wf _ _ Hi _ _ h).
  - apply StronglySorted_merge_sort; apply _.
Qed.

End url_claims.

(** ** Witnesses *)

Lemma url_roundtrip_witness :
  ∃ u parts, URL demo_ref (str "file") [str "path"; str "a b/c"]
      (reach [demo_get "/files/*path" 3 [WithRouteName (str "file")]]) = Ok u ∧
    fill (compilePathSegments (str "/files/*path")) [str "a b/c"] = Some parts ∧
    PathUnescape u = Some (slash :: join_with slash parts).
Proof.
  apply (url_roundtrip [demo_get "/files/*path" 3 [WithRouteName (str "file")]] demo_ref MethodGet
    (mkRoute MethodGet (str "/files/*path") (mkMeta (str "file") [])) 3 [str "a b/c"]);
    first [reflexivity | discriminate | apply (bool_decide_unpack _); vm_compute; exact I | idtac].
  vm_compute. left.
Defined.

Lemma routes_listing_witness : NoDup (Routes demo_ref (reach demo_ops)).
Proof.
  apply (routes_listing demo_ops demo_ref); [apply demo_ok|reflexivity].
Defined.
