(* ===== verification/RouterRace.v ===== *)
(** * Concurrent dispatch

    [ServeHTTP] ([router/dispatch.go]) is not one critical section: it matches
    under the read lock, releases it, and stores the result in the cache later.
    Here a dispatch is two steps and steps of different requests and of
    registrations interleave freely. *)

From stdpp Require Import relations options.
From S2P Require Import Prelude GoStrings RouteCache MatchCache RouterPath RouterTrie.
From S2P Require Import RouterTrieFacts RouterMatch ContractContext Router RouterInv RouterProps.

Section race.
Context {H C : Type} `{!RouteCache C (matchResult H)} `{!RouteCacheLaws C (matchResult H)}.
Implicit Types (st : routerState H C) (r : RouterRef).

(** A dispatch between its match and its cache write. *)
Record pending := mkPending { p_method : gostring; p_path : gostring; p_result : matchResult H }.
Definition config : Type := routerState H C * list pending.

(** [r.state.matchCache.Set(cacheKey, result)]. *)
Definition store (p : pending) st : routerState H C :=
  {| trees := trees st; routes := routes st;
     matchCache := rc_set (cacheKey (p_method p) (p_path p)) (p_result p) (matchCache st);
     namedRoutes := namedRoutes st; methodNotAllowed := methodNotAllowed st;
     frozen := frozen st |}.

Inductive cstep : config → config → Prop :=
| c_match st ps method path result :
    colon ∉ method → rc_get (cacheKey method path) (matchCache st) = None →
    matchRoute method path st = Some result →
    cstep (st, ps) (st, ps ++ [mkPending method path result])
| c_store st ps1 p ps2 : cstep (st, ps1 ++ p :: ps2) (store p st, ps1 ++ ps2)
| c_op st ps op : op_ok op → cstep (st, ps) (run_op op st, ps).

(** Without interleaving, a match followed by its own store is [ServeHTTP]. *)
Lemma serve_two_steps r method url st result :
  ready r = true → rc_get (cacheKey method (fastNormalizePath url)) (matchCache st) = None →
  matchRoute method (fastNormalizePath url) st = Some result →
  ServeHTTP r (Some {| req_Method := method; req_Path := Some url |}) st
  = (store (mkPending method (fastNormalizePath url) result) st, serveMatch method result).
Proof. intros Hr Hc Hm. unfold ServeHTTP. rewrite Hr. simpl. by rewrite Hc, Hm. Qed.

Definition pending_ok st (p : pending) : Prop :=
  colon ∉ p_method p ∧ matchRoute (p_method p) (p_path p) st = Some (p_result p).

Lemma store_inv p st a : pending_ok st p → router_inv st a → router_inv (store p st) a.
Proof.
  intros [Hm Hp] [I1 I2 I3 I4 I5 I6 I7 I8]. split; simpl; try done.
  - by apply rc_set_ok.
  - intros m' p' v' Hm'. rewrite (matchRoute_ext _ _ _ st) by done.
    destruct (decide (cacheKey (p_method p) (p_path p) = cacheKey m' p')) as [E|E].
    + apply cacheKey_inj in E as [<- <-]; [|done..]. rewrite rc_get_set_eq by done. congruence.
    + intros Hv. eapply I8; [done|]. by eapply rc_get_set_ne.
Qed.

(** A frozen configuration whose outstanding results are all current. *)
Definition frozen_ok (a : registry H) (mna : bool) (c : config) : Prop :=
  router_inv (fst c) a ∧ frozen (fst c) = true ∧ methodNotAllowed (fst c) = mna ∧
  Forall (pending_ok (fst c)) (snd c).

Lemma frozen_op op st :
  frozen st = true →
  trees (run_op op st) = trees st ∧ frozen (run_op op st) = true ∧
  methodNotAllowed (run_op op st) = methodNotAllowed st.
Proof.
  intros Hf. destruct op; simpl; unfold AddRoute, SetMethodNotAllowed, Freeze, ServeHTTP;
    rewrite ?Hf; by repeat case_match.
Qed.

Lemma frozen_op_inv op st a :
  frozen st = true → op_ok op → router_inv st a → router_inv (run_op op st) a.
Proof.
  intros Hf Hok Hi. destruct op; simpl in *;
    eauto using SetMethodNotAllowed_inv, Freeze_inv, ServeHTTP_inv.
  unfold AddRoute. rewrite Hf. by case_match.
Qed.

Lemma pending_ok_ext st st' p : trees st' = trees st → pending_ok st p → pending_ok st' p.
Proof. intros E [Hm Hp]. split; [done|]. by rewrite (matchRoute_ext _ _ _ st). Qed.

Lemma frozen_ok_step a b c c' : cstep c c' → frozen_ok a b c → frozen_ok a b c'.
Proof.
  intros Hstep (Hi & Hf & Hb & Hps). destruct Hstep as [st ps m p res Hm Hg Hr|st ps1 p ps2|st ps op Hop]; simpl in *.
  - do 3 (split; [done|]). simpl. apply Forall_app. split; [done|]. by constructor.
  - apply Forall_app in Hps as [H1 [Hp H2]%Forall_cons]. split; [by apply store_inv|]. do 2 (split; [done|]). simpl.
    apply Forall_app. split; eapply Forall_impl; eauto; intros q; by apply pending_ok_ext.
  - destruct (frozen_op op st Hf) as (Ht & Hf' & Hb'). split; [by apply frozen_op_inv|].
    split; [done|]. split; [simpl; congruence|].
    eapply Forall_impl; [done|]. intros q. by apply pending_ok_ext.
Qed.

Lemma frozen_ok_steps a b c c' : rtc cstep c c' → frozen_ok a b c → frozen_ok a b c'.
Proof. induction 1; eauto using frozen_ok_step. Qed.

End race.

Section race_claims.
Context {H : Type}.

(** C32: once the router is frozen, any interleaving of concurrent dispatches
    (matches and late cache writes in any order) and further operations keeps
    every answer equal to what the registered routes determine. Dispatches may be
    under way at the freeze if they have matched since the last registration
    ([pending_ok]). Patterns have segments that start with an ASCII byte, methods hold
    no colon, the request's path is empty or begins with a slash, and none of its
    segments is literally [:] or [*]. *)
Theorem frozen_dispatch_coherent (ops : list (router_op H)) r ps0 st ps method url :
  Forall op_ok ops → ready r = true → Forall (pending_ok (reach ops)) ps0 →
  rtc cstep (Freeze r (reach ops), ps0) (st, ps) →
  colon ∉ method → url = [] ∨ has_prefix_byte slash url = true → unmarked (canonicalRoutePath url) →
  snd (ServeHTTP r (Some {| req_Method := method; req_Path := Some url |}) st)
  = spec_serve (routes_of ops) (methodNotAllowed (reach ops)) method (canonicalRoutePath url).
Proof.
  intros Hok Hr Hps Hsteps Hm Hu Hp.
  assert (frozen_ok (routes_of ops) (methodNotAllowed (reach ops)) (Freeze r (reach ops), ps0)) as H0.
  { split; [by apply Freeze_inv, reach_inv|]. unfold Freeze. rewrite Hr. split; [done|]. split; [done|].
    eapply Forall_impl; [done|]. intros q. by apply pending_ok_ext. }
  pose proof (frozen_ok_steps _ _ _ _ Hsteps H0) as (Hi & _ & Hb & _). simpl in Hb, Hi.
  by rewrite (ServeHTTP_spec _ _ _ _ _ Hi), <- Hb, (spec_serve_keys st) by done.
Qed.

End race_claims.

(** ** Before freezing, the late write can store an outdated match *)

Definition race_path : gostring := str "/users/42".
Definition race_before : list (router_op nat) := [demo_get "/users/:id" 2 []].

(** A request matches [/users/:id], then [/users/42] is registered (clearing the
    cache), then the first request stores its result. *)
Definition race_state : option (AppState nat) :=
  result ← matchRoute MethodGet race_path (reach race_before);
  Some (store (mkPending MethodGet race_path result)
          (run_op (demo_get "/users/42" 1 []) (reach race_before))).

(** While routes are still being registered, a dispatch that matched before a
    registration and stores its result after it leaves an outdated cache entry:
    the next request for the newly registered path is served by the old handler
    although the trie already selects the new one. *)
Theorem stale_cache_entry :
  ∃ st rs, rtc cstep (reach race_before, []) (st, []) ∧
    Handler <$> matchRoute MethodGet race_path st = Some 1 ∧
    snd (ServeHTTP demo_ref (Some {| req_Method := MethodGet; req_Path := Some race_path |}) st)
    = RServed 2 false rs.
Proof.
  destruct race_state as [st|] eqn:E; [|by vm_compute in E].
  destruct (matchRoute MethodGet race_path (reach race_before)) as [res|] eqn:Em; [|by vm_compute in Em].
  unfold race_state in E. rewrite Em in E. simpl in E. injection E as E. subst st.
  eexists _, _. split; [|split].
  - eapply rtc_l; [apply (c_match _ [] MethodGet race_path res)|].
    + apply (bool_decide_unpack _). by vm_compute.
    + by vm_compute.
    + done.
    + eapply rtc_l; [apply (c_op _ _ (demo_get "/users/42" 1 []))|].
      { apply (bool_decide_unpack _). by vm_compute. }
      apply rtc_once. apply (c_store _ [] (mkPending MethodGet race_path res) []).
  - by vm_compute.
  - vm_compute in Em. injection Em as <-. by vm_compute.
Qed.

(** ** Two limits of the trie *)

(** A request segment that is literally [:] is taken for the parameter node as
    if it were a static child: the handler of [/users/:id] runs with no value for
    [id]. *)
Theorem literal_colon_segment :
  ∃ res, matchRoute MethodGet (str "/users/:") (reach race_before) = Some res ∧
    RoutePattern res = str "/users/:id" ∧ ParamKeys res = [str "id"] ∧ ParamValues res = [].
Proof. eexists. split; [vm_compute; reflexivity|]. done. Qed.

Definition utf8_path (b : N) : gostring := slash :: [byte_of b; byte_of 128; byte_of 128].

(** Registering two sibling static segments that start with different
    non-ASCII bytes panics, because the index string gets the UTF-8 encoding of the
    byte (two bytes per child) while the child list has one entry per child. *)
Theorem non_ascii_siblings_panic :
  snd (AddRoute demo_ref MethodGet (utf8_path 232) (Some 2) []
    (reach [OpAdd demo_ref MethodGet (utf8_path 231) (Some 1) []])) = Some PanicIndexOutOfRange.
Proof. vm_compute. reflexivity. Qed.

(** One dispatch is under way when the router is frozen, another one matches afterwards; a
    late registration is refused; the later dispatch stores its result first. *)
Definition inflight (path : String.string) : pending :=
  mkPending MethodGet (str path)
    (default {| Handler := 0; ParamValues := []; ParamKeys := []; RoutePattern := []; RouteMethod := []; RouteName := [] |}
       (matchRoute MethodGet (str path) (reach demo_ops))).
Definition afterRace : AppState nat :=
  store (inflight "/users/9") (store (inflight "/files/a") (run_op (demo_get "/users/9" 7 []) (Freeze demo_ref (reach demo_ops)))).

Lemma frozen_dispatch_coherent_witness :
  snd (ServeHTTP demo_ref (Some {| req_Method := MethodGet; req_Path := Some (str "/users/9") |}) afterRace)
  = spec_serve (routes_of demo_ops) (methodNotAllowed (reach demo_ops)) MethodGet (str "/users/9") ∧
  is_Some (rc_get (cacheKey MethodGet (str "/users/9")) (matchCache afterRace)).
Proof.
  split; [|vm_compute; by eexists].
  apply (frozen_dispatch_coherent demo_ops demo_ref [inflight "/users/9"] afterRace [] MethodGet (str "/users/9")).
  - apply demo_ok.
  - reflexivity.
  - constructor; [|constructor]. split; [apply (bool_decide_unpack _); by vm_compute|vm_compute; reflexivity].
  - eapply rtc_l; [apply (c_match _ [inflight "/users/9"] MethodGet (str "/files/a") (p_result (inflight "/files/a")))|].
    { apply (bool_decide_unpack _). by vm_compute. }
    { vm_compute. reflexivity. }
    { vm_compute. reflexivity. }
    eapply rtc_l; [apply (c_op _ _ (demo_get "/users/9" 7 [])); apply (bool_decide_unpack _); by vm_compute|].
    eapply rtc_l; [apply (c_store _ [inflight "/users/9"] (inflight "/files/a") [])|].
    apply rtc_once, (c_store _ [] (inflight "/users/9") []).
  - apply (bool_decide_unpack _). vm_compute. exact I.
  - right. reflexivity.
  - apply (bool_decide_unpack _). vm_compute. exact I.
Defined.
