(* ===== verification/RingBuffer.v ===== *)
(** * The pub/sub message queue ([x/messaging/pubsub/ringbuffer.go])

    A bounded queue that drops its oldest message when full, with a one-slot
    notification channel. The abstract queue is a plain list; every sequence of
    operations on the ring gives the same results as on the list, and no
    operation panics (index out of range, send on or close of a closed
    channel). *)

From stdpp Require Import options.
From S2P Require Import Prelude Ring.

Module RingBuffer.

Section ringbuffer.
Context {Message : Type} (zero : Message).
Implicit Types (msg : Message).

(** [notify] is the buffered token of the channel, [notifyClosed] whether the
    channel is closed; [atomicCount] is the int32 mirror of [count]. *)
Record ringBuffer := mkRing {
  buf : list Message;
  head : nat;
  tail : nat;
  count : nat;
  capacity : nat;
  closed : bool;
  atomicCount : Z;
  notify : bool;
  notifyClosed : bool;
}.
Implicit Types (rb : ringBuffer).

Definition newRingBuffer (cap : Z) : ringBuffer :=
  let cap := Z.to_nat (if (cap <? 1)%Z then 1 else cap) in
  {| buf := replicate cap zero; head := 0; tail := 0; count := 0; capacity := cap;
     closed := false; atomicCount := 0; notify := false; notifyClosed := false |}.

(** The step shared by the full case of [Push] and by [Pop]: read the oldest
    message, clear its slot, advance. [None] is an index panic. *)
Definition dropHead rb : option (Message * ringBuffer) :=
  match buf rb !! head rb with
  | None => None
  | Some m =>
      Some (m, {| buf := <[head rb := zero]> (buf rb); head := (head rb + 1) mod capacity rb;
                  tail := tail rb; count := count rb - 1; capacity := capacity rb;
                  closed := closed rb; atomicCount := wrap32 (atomicCount rb - 1);
                  notify := notify rb; notifyClosed := notifyClosed rb |})
  end.

(** The second half of [Push]: write at the tail and post the token without
    blocking. *)
Definition writeTail msg rb : option ringBuffer :=
  match buf rb !! tail rb with
  | None => None
  | Some _ =>
      if notifyClosed rb then None
      else Some {| buf := <[tail rb := msg]> (buf rb); head := head rb;
                   tail := (tail rb + 1) mod capacity rb; count := count rb + 1;
                   capacity := capacity rb; closed := closed rb;
                   atomicCount := wrap32 (atomicCount rb + 1); notify := true;
                   notifyClosed := notifyClosed rb |}
  end.

Definition Push msg rb : option (option Message * ringBuffer) :=
  if closed rb then Some (None, rb)
  else if count rb =? capacity rb then
    '(dropped, rb) ← dropHead rb; rb ← writeTail msg rb; Some (Some dropped, rb)
  else rb ← writeTail msg rb; Some (None, rb).

Definition Pop rb : option (option Message * ringBuffer) :=
  if count rb =? 0 then Some (None, rb)
  else '(m, rb) ← dropHead rb; Some (Some m, rb).

Definition Len rb : Z := atomicCount rb.
Definition Cap rb : nat := capacity rb.
Definition IsClosed rb : bool := closed rb.

Definition Close rb : option ringBuffer :=
  if closed rb then Some rb
  else if notifyClosed rb then None
  else Some {| buf := buf rb; head := head rb; tail := tail rb; count := count rb;
               capacity := capacity rb; closed := true; atomicCount := atomicCount rb;
               notify := notify rb; notifyClosed := true |}.

(** The loop of [Drain]: [n] iterations left, the next one at offset [i]. *)
Fixpoint drainLoop (n i h cap : nat) (b : list Message) (msgs : list Message)
    : option (list Message * list Message) :=
  match n with
  | O => Some (msgs, b)
  | S n =>
      let idx := (h + i) mod cap in
      m ← b !! idx; drainLoop n (S i) h cap (<[idx := zero]> b) (msgs ++ [m])
  end.

Definition Drain rb : option (list Message * ringBuffer) :=
  if count rb =? 0 then Some ([], rb)
  else
    '(msgs, b) ← drainLoop (count rb) 0 (head rb) (capacity rb) (buf rb) [];
    Some (msgs, {| buf := b; head := 0; tail := 0; count := 0; capacity := capacity rb;
                   closed := closed rb; atomicCount := 0; notify := notify rb;
                   notifyClosed := notifyClosed rb |}).

(** A consumer's receive from [Notify]: takes the token when there is one. *)
Definition Receive rb : bool * ringBuffer :=
  (notify rb,
   {| buf := buf rb; head := head rb; tail := tail rb; count := count rb;
      capacity := capacity rb; closed := closed rb; atomicCount := atomicCount rb;
      notify := false; notifyClosed := notifyClosed rb |}).

(** ** The representation invariant *)

Definition queue rb : list Message := ring_list (buf rb) (capacity rb) (head rb) (count rb).

Record rb_ok rb : Prop := {
  ok_ring : ring_ok (buf rb) (capacity rb) (head rb) (count rb);
  ok_tail : tail rb = (head rb + count rb) mod capacity rb;
  ok_atomic : atomicCount rb = wrap32 (Z.of_nat (count rb));
  ok_closed : notifyClosed rb = closed rb;
}.

Lemma new_rb_ok cap : rb_ok (newRingBuffer cap).
Proof.
  unfold newRingBuffer. set (n := Z.to_nat _).
  assert (0 < n) by (unfold n; destruct (Z.ltb_spec cap 1); lia).
  split; simpl; [|by rewrite Nat.mod_small by lia|done|done].
  repeat split; rewrite ?length_replicate; lia.
Qed.

Lemma dropHead_ok rb :
  rb_ok rb → count rb ≠ 0 →
  ∃ m rb', dropHead rb = Some (m, rb') ∧ rb_ok rb' ∧ queue rb = m :: queue rb' ∧
    capacity rb' = capacity rb ∧ closed rb' = closed rb ∧ count rb' = count rb - 1.
Proof.
  intros [Hr Ht Ha Hcl] Hc. destruct (count rb) as [|n] eqn:En; [done|].
  pose proof Hr as (Hcap & Hl & Hh & Hn).
  destruct (ring_list_pop _ _ _ _ Hr) as (m & Hm & Hq).
  unfold dropHead. rewrite Hm, En. do 2 eexists. split; [done|].
  assert (ring_ok (<[head rb := zero]> (buf rb)) (capacity rb) ((head rb + 1) mod capacity rb) n) as Hr'.
  { pose proof (ring_ok_next _ _ _ _ Hr) as (? & ? & ? & ?). repeat split; rewrite ?length_insert; lia. }
  split; [|split; [|simpl; repeat split; lia]].
  - split; simpl; rewrite ?Nat.sub_0_r; [done| |rewrite Ha; unfold Z.sub; rewrite wrap32_add; f_equal; lia|done].
    rewrite Ht, Nat.Div0.add_mod_idemp_l. f_equal. lia.
  - unfold queue. simpl. rewrite En, Nat.sub_0_r, Hq. f_equal.
    rewrite <- (ring_next_prev (capacity rb) (head rb)) at 2 by lia.
    rewrite ring_list_write_dead; [done|by apply ring_ok_next|lia|lia].
Qed.

Lemma writeTail_ok msg rb :
  rb_ok rb → count rb < capacity rb → closed rb = false →
  ∃ rb', writeTail msg rb = Some rb' ∧ rb_ok rb' ∧ queue rb' = queue rb ++ [msg] ∧
    capacity rb' = capacity rb ∧ closed rb' = false ∧ notify rb' = true.
Proof.
  intros [Hr Ht Ha Hcl] Hlt Hc. pose proof Hr as (Hcap & Hl & Hh & Hn).
  destruct (lookup_lt_is_Some_2 (buf rb) (tail rb)) as [x Hx].
  { rewrite Ht, Hl. apply Nat.mod_upper_bound. lia. }
  unfold writeTail. rewrite Hx, Hcl, Hc. eexists. split; [done|]. split.
  - split; simpl; [|rewrite Ht, Nat.Div0.add_mod_idemp_l; f_equal; lia|rewrite Ha, wrap32_add; f_equal; lia|done].
    repeat split; rewrite ?length_insert; lia.
  - unfold queue. simpl. rewrite Nat.add_1_r, Ht, ring_list_push by done. done.
Qed.

Lemma queue_length rb : rb_ok rb → length (queue rb) = count rb.
Proof. intros []. by apply ring_list_length. Qed.

Lemma drainLoop_ok n i h cap b msgs :
  ring_ok b cap ((h + i) mod cap) n →
  ∃ b', drainLoop n i h cap b msgs = Some (msgs ++ ring_list b cap ((h + i) mod cap) n, b') ∧
        length b' = length b.
Proof.
  revert i b msgs. induction n as [|n IH]; intros i b msgs Hr; simpl.
  { exists b. by rewrite app_nil_r. }
  pose proof Hr as (Hcap & Hl & Hh & Hn).
  destruct (ring_list_pop _ _ _ _ Hr) as (m & Hm & _). rewrite Hm. simpl.
  set (h' := (h + i) mod cap) in *.
  assert ((h + S i) mod cap = (h' + 1) mod cap) as E.
  { unfold h'. rewrite Nat.Div0.add_mod_idemp_l. f_equal. lia. }
  assert (ring_ok b cap ((h' + 1) mod cap) n) as Hr' by (by apply ring_ok_next).
  destruct (IH (S i) (<[h' := zero]> b) (msgs ++ [m])) as (b' & -> & Hl').
  { rewrite E. destruct Hr' as (? & ? & ? & ?). repeat split; rewrite ?length_insert; lia. }
  exists b'. rewrite length_insert in Hl'. split; [|done]. rewrite E, <- app_assoc. simpl.
  do 4 f_equal. rewrite <- (ring_next_prev cap h') at 1 by lia.
  apply ring_list_write_dead; [done|lia|lia].
Qed.

(** ** The abstract queue *)

Inductive op := OPush msg | OPop | ODrain | OClose | OLen | OReceive.
Inductive out := RPush (dropped : option Message) | RPop (m : option Message)
  | RDrain (ms : list Message) | RClose | RLen (n : Z) | RReceive (token : bool).

Definition run1 (o : op) rb : option (out * ringBuffer) :=
  match o with
  | OPush m => '(d, rb) ← Push m rb; Some (RPush d, rb)
  | OPop => '(m, rb) ← Pop rb; Some (RPop m, rb)
  | ODrain => '(ms, rb) ← Drain rb; Some (RDrain ms, rb)
  | OClose => rb ← Close rb; Some (RClose, rb)
  | OLen => Some (RLen (Len rb), rb)
  | OReceive => let '(t, rb) := Receive rb in Some (RReceive t, rb)
  end.

Fixpoint run (ops : list op) rb : option (list out * ringBuffer) :=
  match ops with
  | [] => Some ([], rb)
  | o :: ops => '(x, rb) ← run1 o rb; '(xs, rb) ← run ops rb; Some (x :: xs, rb)
  end.

(** The specification: messages oldest first, whether closed, and whether a
    push happened since the last receive. *)
Record abs := mkAbs { a_queue : list Message; a_closed : bool; a_token : bool }.

Definition spec1 (cap : nat) (o : op) (a : abs) : out * abs :=
  match o with
  | OPush m =>
      if a_closed a then (RPush None, a)
      else if cap <=? length (a_queue a)
      then (RPush (hd_error (a_queue a)), mkAbs (drop 1 (a_queue a) ++ [m]) false true)
      else (RPush None, mkAbs (a_queue a ++ [m]) false true)
  | OPop => (RPop (hd_error (a_queue a)), mkAbs (drop 1 (a_queue a)) (a_closed a) (a_token a))
  | ODrain => (RDrain (a_queue a), mkAbs [] (a_closed a) (a_token a))
  | OClose => (RClose, mkAbs (a_queue a) true (a_token a))
  | OLen => (RLen (Z.of_nat (length (a_queue a))), a)
  | OReceive => (RReceive (a_token a), mkAbs (a_queue a) (a_closed a) false)
  end.

Fixpoint spec_run (cap : nat) (ops : list op) (a : abs) : list out :=
  match ops with
  | [] => []
  | o :: ops => let '(x, a) := spec1 cap o a in x :: spec_run cap ops a
  end.

Definition abs_of rb : abs := mkAbs (queue rb) (closed rb) (notify rb).

(** One operation simulates the abstract one. *)
Definition simulates o rb : Prop :=
  ∃ x rb', run1 o rb = Some (x, rb') ∧ rb_ok rb' ∧ capacity rb' = capacity rb ∧
    spec1 (capacity rb) o (abs_of rb) = (x, abs_of rb').

Lemma queue_nil rb : rb_ok rb → count rb = 0 → queue rb = [].
Proof. intros Hok Hc. apply nil_length_inv. by rewrite queue_length. Qed.

Lemma push_simulates msg rb : rb_ok rb → simulates (OPush msg) rb.
Proof.
  intros Hok. pose proof (ok_ring _ Hok) as (Hcap & Hl & Hh & Hn). unfold simulates. simpl. unfold Push.
  destruct (closed rb) eqn:Ec; [by do 2 eexists|].
  rewrite queue_length by done.
  destruct (Nat.eqb_spec (count rb) (capacity rb)) as [Hfull|Hroom].
  - rewrite (proj2 (Nat.leb_le _ _)) by lia.
    destruct (dropHead_ok rb) as (m & rb1 & -> & Hok1 & Hq & Hc1 & Hcl1 & Hn1); [done|lia|].
    destruct (writeTail_ok msg rb1) as (rb2 & Hw & Hok2 & Hq2 & Hc2 & Hcl2 & Ht2); [done|lia|congruence|].
    simpl. rewrite Hw. simpl. do 2 eexists. split; [done|]. split; [done|]. split; [congruence|].
    unfold abs_of. rewrite Hq, Hq2, Hcl2, Ht2. simpl. by rewrite drop_0.
  - rewrite (proj2 (Nat.leb_gt _ _)) by lia.
    destruct (writeTail_ok msg rb) as (rb2 & Hw & Hok2 & Hq2 & Hc2 & Hcl2 & Ht2); [done|lia|done|].
    rewrite Hw. simpl. do 2 eexists. split; [done|]. split; [done|]. split; [done|].
    unfold abs_of. by rewrite Hq2, Hcl2, Ht2.
Qed.

Lemma pop_simulates rb : rb_ok rb → simulates OPop rb.
Proof.
  intros Hok. unfold simulates. simpl. unfold Pop.
  destruct (Nat.eqb_spec (count rb) 0) as [Hz|Hz].
  { do 2 eexists. split; [done|]. unfold abs_of. by rewrite queue_nil. }
  destruct (dropHead_ok rb) as (m & rb1 & Hd & Hok1 & Hq & Hc1 & Hcl1 & Hn1); [done|lia|].
  rewrite Hd. simpl. do 2 eexists. split; [done|]. split; [done|]. split; [done|].
  unfold abs_of. rewrite Hq, Hcl1. simpl. rewrite drop_0.
  assert (notify rb1 = notify rb) as ->; [|done].
  unfold dropHead in Hd. by case_match; simplify_eq/=.
Qed.

Lemma drain_simulates rb : rb_ok rb → simulates ODrain rb.
Proof.
  intros Hok. unfold simulates. simpl. unfold Drain.
  destruct (Nat.eqb_spec (count rb) 0) as [Hz|Hz].
  { do 2 eexists. split; [done|]. unfold abs_of. by rewrite queue_nil. }
  destruct Hok as [Hr Ht Ha Hcl]. pose proof Hr as (Hcap & Hl & Hh & Hn).
  destruct (drainLoop_ok (count rb) 0 (head rb) (capacity rb) (buf rb) []) as (b' & -> & Hl').
  { by rewrite Nat.add_0_r, Nat.mod_small. }
  rewrite Nat.add_0_r, Nat.mod_small by done. simpl. do 2 eexists. split; [done|]. split; [|done].
  split; simpl; [|by rewrite Nat.mod_small by lia|done|done]. repeat split; lia.
Qed.

Lemma step_simulates o rb :
  (Z.of_nat (capacity rb) < 2 ^ 31)%Z → rb_ok rb → simulates o rb.
Proof.
  intros Hcap Hok. destruct o; auto using push_simulates, pop_simulates, drain_simulates.
  - destruct Hok as [Hr Ht Ha Hcl]. unfold simulates. simpl. unfold Close.
    destruct (closed rb) eqn:Ec; [|rewrite Hcl]; do 2 eexists; split; try done.
    unfold abs_of. rewrite Ec. split; [|done]. split; congruence.
  - do 2 eexists. split; [done|]. split; [done|]. split; [done|]. simpl.
    rewrite queue_length by done. unfold Len. rewrite (ok_atomic _ Hok), wrap32_small; [done|].
    destruct (ok_ring _ Hok) as (_ & _ & _ & ?). lia.
  - do 2 eexists. split; [done|]. by destruct Hok.
Qed.

Lemma run_simulates ops rb :
  (Z.of_nat (capacity rb) < 2 ^ 31)%Z → rb_ok rb →
  ∃ rb', run ops rb = Some (spec_run (capacity rb) ops (abs_of rb), rb') ∧ rb_ok rb'.
Proof.
  revert rb. induction ops as [|o ops IH]; intros rb Hcap Hok; simpl; [eauto|].
  destruct (step_simulates o rb Hcap Hok) as (x & rb1 & -> & Hok1 & Hc1 & ->). simpl.
  destruct (IH rb1) as (rb2 & Hrun & Hok2); [by rewrite Hc1|done|]. rewrite Hrun, Hc1. simpl. eauto.
Qed.

(** C34: every sequence of [Push], [Pop], [Drain], [Close], [Len] and receives on a
    new ring buffer runs without panicking and returns exactly the results of a
    bounded list queue that drops its oldest element when full, refuses pushes
    once closed and can still be drained; a receive sees a token iff a push
    happened since the last one. *)
Theorem ringbuffer_refines cap ops :
  (cap < 2 ^ 31)%Z →
  ∃ rb', run ops (newRingBuffer cap)
    = Some (spec_run (Z.to_nat (Z.max 1 cap)) ops (mkAbs [] false false), rb') ∧ rb_ok rb'.
Proof.
  intros Hcap. assert (capacity (newRingBuffer cap) = Z.to_nat (Z.max 1 cap)) as Hc.
  { simpl. destruct (Z.ltb_spec cap 1); lia. }
  rewrite <- Hc. apply run_simulates; [lia|apply new_rb_ok].
Qed.

End ringbuffer.

Lemma ringbuffer_refines_witness :
  ∃ rb', run 0 [OPush 1; OPush 2; OPush 3; OLen; OPop; OClose; OPush 4; ODrain] (newRingBuffer 0 2)
    = Some ([RPush None; RPush None; RPush (Some 1); RLen 2; RPop (Some 2); RClose; RPush None;
             RDrain [3]], rb') ∧ rb_ok rb'.
Proof.
  apply (ringbuffer_refines 0 2
    [OPush 1; OPush 2; OPush 3; OLen; OPop; OClose; OPush 4; ODrain]). lia.
Defined.

End RingBuffer.
