(* ===== verification/PriorityBuffer.v ===== *)
(** * Priority buffers ([x/messaging/pubsub/priority.go])

    A bounded buffer that hands out messages by priority, and within a priority in the
    order of arrival. Two heaps hold the same messages: one ordered for delivery, one for
    eviction. A message carries its place in each, so that what leaves one heap can be
    removed from the other. The abstract buffer is the list of messages in the order of
    arrival. *)

From stdpp Require Import options.
From S2P Require Import Prelude GoHeap.
#[local] Open Scope Z_scope.

Module PriorityBuffer.

Section buffer.
Context {Message : Type}.
Implicit Types (msg : Message).

(** [ptr] is the identity of the object; the fields that change ([index], [rindex]) are
    kept with the heap whose places they are, by identity. *)
Record PriorityMessage := MkMsg { ptr : nat; Msg : Message; Priority : Z; Sequence : Z }.
Implicit Types (pm : PriorityMessage).

(** A heap of messages and the place each of them remembers. *)
Record tracked := MkHeap { items : list PriorityMessage; place : gmap nat Z }.
Implicit Types (h : tracked).

Definition pqLess (a b : PriorityMessage) : bool :=
  if Priority a =? Priority b then Sequence a <? Sequence b else Priority a <? Priority b.
Definition eqLess (a b : PriorityMessage) : bool :=
  if Priority a =? Priority b then Sequence a <? Sequence b else Priority b <? Priority a.

(** [h[i], h[j] = h[j], h[i]; h[i].index = i; h[j].index = j]; out of range it panics,
    which no caller here reaches. *)
Definition Swap (i j : nat) h : tracked :=
  let l := exchange i j (items h) in
  match l !! i, l !! j with
  | Some a, Some b => MkHeap l (<[ptr b := Z.of_nat j]> (<[ptr a := Z.of_nat i]> (place h)))
  | _, _ => h
  end.

Definition PushItem pm h : tracked :=
  MkHeap (items h ++ [pm]) (<[ptr pm := Z.of_nat (length (items h))]> (place h)).

Definition PopItem h : option (PriorityMessage * tracked) :=
  match reverse (items h) with
  | [] => None
  | pm :: rest => Some (pm, MkHeap (reverse rest) (<[ptr pm := -1]> (place h)))
  end.

Definition trackedHeap (less : PriorityMessage → PriorityMessage → bool) : HeapInterface tracked PriorityMessage := {|
  hLen h := length (items h);
  hLess i j h := match items h !! i, items h !! j with Some a, Some b => less a b | _, _ => false end;
  hSwap := Swap;
  hPush := PushItem;
  hPop := PopItem;
|}.
Definition priorityQueue : HeapInterface tracked PriorityMessage := trackedHeap pqLess.
Definition evictionQueue : HeapInterface tracked PriorityMessage := trackedHeap eqLess.

Record PriorityBuffer := MkPB {
  pq : tracked;
  eq : tracked;
  capacity : Z;
  sequence : Z;
  notify : bool;
  notifyClosed : bool;
  closed : bool;
  nextPtr : nat;
}.
Implicit Types (pb : PriorityBuffer).

(** [heap.Init] on an empty heap does nothing. *)
Definition NewPriorityBuffer (cap : Z) : PriorityBuffer :=
  {| pq := MkHeap [] ∅; eq := MkHeap [] ∅; capacity := if cap <=? 0 then 16 else cap;
     sequence := 0; notify := false; notifyClosed := false; closed := false; nextPtr := 0 |}.

(** [heap.Remove(&h, pm.index)]; a negative index panics. *)
Definition removeAt (less : PriorityMessage → PriorityMessage → bool) pm h : option (PriorityMessage * tracked) :=
  i ← place h !! ptr pm;
  if i <? 0 then None else heapRemove (interface := trackedHeap less) (Z.to_nat i) h.

(** The end of [Push]: both heaps get the message and a token is posted. *)
Definition pushBoth pm pb : option PriorityBuffer :=
  if notifyClosed pb then None
  else Some {| pq := heapPush (interface := priorityQueue) pm (pq pb);
               eq := heapPush (interface := evictionQueue) pm (eq pb);
               capacity := capacity pb; sequence := sequence pb; notify := true;
               notifyClosed := notifyClosed pb; closed := closed pb; nextPtr := nextPtr pb |}.

Definition withHeaps p e pb : PriorityBuffer :=
  {| pq := p; eq := e; capacity := capacity pb; sequence := sequence pb; notify := notify pb;
     notifyClosed := notifyClosed pb; closed := closed pb; nextPtr := nextPtr pb |}.

(** The dropped message, if any; [None] is a panic. *)
Definition Push msg (priority : Z) pb : option (option Message * PriorityBuffer) :=
  if closed pb then Some (None, pb)
  else
    let seq := wrapu64 (sequence pb + 1) in
    let pm := {| ptr := nextPtr pb; Msg := msg; Priority := priority; Sequence := seq |} in
    let pb := {| pq := pq pb; eq := eq pb; capacity := capacity pb; sequence := seq; notify := notify pb;
                 notifyClosed := notifyClosed pb; closed := closed pb; nextPtr := S (nextPtr pb) |} in
    if capacity pb <=? Z.of_nat (length (items (pq pb))) then
      worst ← head (items (eq pb));
      if priority <=? Priority worst then
        '(_, e) ← heapRemove (interface := evictionQueue) 0 (eq pb);
        '(_, p) ← removeAt pqLess worst (pq pb);
        pb ← pushBoth pm (withHeaps p e pb);
        Some (Some (Msg worst), pb)
      else Some (Some msg, pb)
    else pb ← pushBoth pm pb; Some (None, pb).

Definition Pop pb : option (option (Message * Z) * PriorityBuffer) :=
  if (length (items (pq pb)) =? 0)%nat || closed pb then Some (None, pb)
  else
    '(pm, p) ← heapPop (interface := priorityQueue) (pq pb);
    '(_, e) ← removeAt eqLess pm (eq pb);
    Some (Some (Msg pm, Priority pm), withHeaps p e pb).

Definition Peek pb : option (option (Message * Z)) :=
  if (length (items (pq pb)) =? 0)%nat || closed pb then Some None
  else pm ← head (items (pq pb)); Some (Some (Msg pm, Priority pm)).

Definition Len pb : nat := length (items (pq pb)).
Definition Cap pb : Z := capacity pb.
Definition IsClosed pb : bool := closed pb.

Definition Close pb : option PriorityBuffer :=
  if closed pb then Some pb
  else if notifyClosed pb then None
  else Some {| pq := pq pb; eq := eq pb; capacity := capacity pb; sequence := sequence pb; notify := notify pb;
               notifyClosed := true; closed := true; nextPtr := nextPtr pb |}.

(** The loop of [Drain] pops one message per round, so as many rounds as there are
    messages are enough. *)
Fixpoint drainLoop (fuel : nat) (h : tracked) : option (list Message * tracked) :=
  match fuel with
  | O => Some ([], h)
  | S fuel =>
      if (length (items h) =? 0)%nat then Some ([], h)
      else
        '(pm, h) ← heapPop (interface := priorityQueue) h;
        '(msgs, h) ← drainLoop fuel h;
        Some (Msg pm :: msgs, h)
  end.
Definition Drain pb : option (list Message * PriorityBuffer) :=
  '(msgs, p) ← drainLoop (length (items (pq pb))) (pq pb);
  Some (msgs, withHeaps p (MkHeap [] (place (eq pb))) pb).

(** [Size], [Capacity] and [ByPriority] as a function. *)
Definition countPriority (l : list PriorityMessage) (p : Z) : nat := length (filter (λ pm, Priority pm = p) l).
Definition Stats pb : nat * Z * (Z → nat) := (length (items (pq pb)), capacity pb, countPriority (items (pq pb))).

End buffer.

(** ** Priorities in metadata *)

Definition PriorityHighest : Z := 0.
Definition PriorityHigh : Z := 1.
Definition PriorityNormal : Z := 2.
Definition PriorityLow : Z := 3.
Definition PriorityLowest : Z := 4.
Definition PriorityDefault : Z := PriorityNormal.
Definition priorityKey : gostring := str "X-Priority".

(** [nil] metadata is [None]. *)
Definition GetMessagePriority (meta : option (gmap gostring gostring)) : Z :=
  match meta with
  | None => PriorityDefault
  | Some m =>
      match m !! priorityKey with
      | None => PriorityDefault
      | Some s =>
          if decide (s = str "highest" ∨ s = str "0") then PriorityHighest
          else if decide (s = str "high" ∨ s = str "1") then PriorityHigh
          else if decide (s = str "normal" ∨ s = str "2") then PriorityNormal
          else if decide (s = str "low" ∨ s = str "3") then PriorityLow
          else if decide (s = str "lowest" ∨ s = str "4") then PriorityLowest
          else PriorityDefault
      end
  end.

Definition SetMessagePriority (meta : option (gmap gostring gostring)) (priority : Z) : gmap gostring gostring :=
  let s := if priority =? PriorityHighest then str "highest"
           else if priority =? PriorityHigh then str "high"
           else if priority =? PriorityNormal then str "normal"
           else if priority =? PriorityLow then str "low"
           else if priority =? PriorityLowest then str "lowest"
           else str "normal" in
  <[priorityKey := s]> (default ∅ meta).
End PriorityBuffer.
