(* ===== verification/PriorityBufferProps.v ===== *)
(** * Priority buffers: refinement of the list of waiting messages

    The abstract buffer is the list of waiting messages in the order of arrival. Every
    operation on the two heaps answers as the list does, and none of them panics. *)

From stdpp Require Import options.
From S2P Require Import Prelude GoHeap PriorityBuffer.
Import PriorityBuffer.
#[local] Open Scope Z_scope.
Set Default Proof Using "Type*".

(** ** The abstract buffer *)

(** Takes out the first element no later one beats. *)
Fixpoint pick {E} (beats : E → E → bool) (l : list E) : option (E * list E) :=
  match l with
  | [] => None
  | x :: l =>
      match pick beats l with
      | None => Some (x, [])
      | Some (y, rest) => if beats y x then Some (y, x :: rest) else Some (x, l)
      end
  end.

Section spec.
Context {Message : Type}.
Implicit Types (l : list (Message * Z)).

Record waiting := MkWaiting { msgs : list (Message * Z); limit : Z; shut : bool }.
Implicit Types (w : waiting).

Definition urgent (a b : Message * Z) : bool := a.2 <? b.2.
Definition worse (a b : Message * Z) : bool := b.2 <? a.2.

Definition newWaiting (cap : Z) : waiting := MkWaiting [] (if cap <=? 0 then 16 else cap) false.

Definition push (msg : Message) (p : Z) w : option Message * waiting :=
  if shut w then (None, w)
  else if limit w <=? Z.of_nat (length (msgs w)) then
    match pick worse (msgs w) with
    | Some (out, rest) => if p <=? out.2 then (Some out.1, MkWaiting (rest ++ [(msg, p)]) (limit w) false) else (Some msg, w)
    | None => (None, w)
    end
  else (None, MkWaiting (msgs w ++ [(msg, p)]) (limit w) false).

Definition pop w : option (Message * Z) * waiting :=
  if shut w then (None, w)
  else match pick urgent (msgs w) with
       | Some (m, rest) => (Some m, MkWaiting rest (limit w) false)
       | None => (None, w)
       end.

Fixpoint drain (fuel : nat) l : list Message :=
  match fuel, pick urgent l with
  | S fuel, Some (m, rest) => m.1 :: drain fuel rest
  | _, _ => []
  end.

(** ** The operations, and what they answer *)

Inductive op := OPush (msg : Message) (p : Z) | OPop | OPeek | OLen | ODrain | OClose | OStats (p : Z).
Inductive answer :=
  | ADropped (m : option Message) | AMsg (m : option (Message * Z)) | ANum (n : nat)
  | AAll (ms : list Message) | ADone | AStats (n : nat) (cap : Z) (count : nat).

Definition spec_step (o : op) w : answer * waiting :=
  match o with
  | OPush m p => let '(d, w) := push m p w in (ADropped d, w)
  | OPop => let '(m, w) := pop w in (AMsg m, w)
  | OPeek => (AMsg (pop w).1, w)
  | OLen => (ANum (length (msgs w)), w)
  | ODrain => (AAll (drain (length (msgs w)) (msgs w)), MkWaiting [] (limit w) (shut w))
  | OClose => (ADone, MkWaiting (msgs w) (limit w) true)
  | OStats p => (AStats (length (msgs w)) (limit w) (length (filter (λ m, m.2 = p) (msgs w))), w)
  end.

Definition code_step (o : op) (pb : PriorityBuffer) : option (answer * PriorityBuffer) :=
  match o with
  | OPush m p => '(d, pb) ← Push m p pb; Some (ADropped d, pb)
  | OPop => '(m, pb) ← Pop pb; Some (AMsg m, pb)
  | OPeek => m ← Peek pb; Some (AMsg m, pb)
  | OLen => Some (ANum (Len pb), pb)
  | ODrain => '(ms, pb) ← Drain pb; Some (AAll ms, pb)
  | OClose => pb ← Close pb; Some (ADone, pb)
  | OStats p => let '(n, cap, count) := Stats pb in Some (AStats n cap (count p), pb)
  end.

Fixpoint spec_run (ops : list op) w : list answer :=
  match ops with
  | [] => []
  | o :: ops => let '(a, w) := spec_step o w in a :: spec_run ops w
  end.
Fixpoint code_run (ops : list op) (pb : PriorityBuffer) : option (list answer) :=
  match ops with
  | [] => Some []
  | o :: ops => '(a, pb) ← code_step o pb; rest ← code_run ops pb; Some (a :: rest)
  end.
End spec.

(** ** The list picks what the heap has at its root *)

Lemma pick_unique {E} (beats : E → E → bool) l1 x l2 :
  (∀ y, y ∈ l1 → beats x y = true) → (∀ y, y ∈ l2 → beats y x = false) →
  pick beats (l1 ++ x :: l2) = Some (x, l1 ++ l2).
Proof.
  intros H1 H2. induction l1 as [|a l1 IH]; simpl.
  - destruct (pick beats l2) as [[y rest]|] eqn:F.
    + rewrite H2; [done|]. clear -F. revert y rest F. induction l2 as [|b l2 IH]; intros y rest F; [done|].
      simpl in F. destruct (pick beats l2) as [[z r]|]; [|simplify_eq; by left].
      case_match; simplify_eq; [right; by eapply IH|by left].
    + destruct l2 as [|b l2]; [done|]. simpl in F. by repeat case_match.
  - rewrite IH by (intros; apply H1; by right). by rewrite H1 by left.
Qed.

Section refine.
Context {Message : Type}.
Implicit Types (h : tracked (Message := Message)) (pm : PriorityMessage (Message := Message)) (pb : PriorityBuffer (Message := Message)).

#[local] Instance tracked_laws less : HeapLaws (HeapInterface0 := trackedHeap (Message := Message) less) less items.
Proof.
  split; simpl; try done.
  - intros i j h x y Ex Ey. by rewrite Ex, Ey.
  - intros i j h Hi Hj. unfold Swap.
    destruct (lookup_lt_is_Some_2 (exchange i j (items h)) i) as [x Ex]; [by rewrite exchange_length|].
    destruct (lookup_lt_is_Some_2 (exchange i j (items h)) j) as [y Ey]; [by rewrite exchange_length|]. by rewrite Ex, Ey.
  - intros h l x E. unfold PopItem. rewrite E, reverse_snoc. eexists. split; [done|]. simpl. by rewrite reverse_involutive.
Qed.

#[local] Instance pqLess_order : WeakOrder (pqLess (Message := Message)).
Proof. split; unfold pqLess; intros; repeat case_match; unbool; lia. Qed.
#[local] Instance eqLess_order : WeakOrder (eqLess (Message := Message)).
Proof. split; unfold eqLess; intros; repeat case_match; unbool; lia. Qed.

(** Every message knows its place. *)
Definition placed h : Prop :=
  NoDup (ptr <$> items h) ∧ ∀ k pm, items h !! k = Some pm → place h !! ptr pm = Some (Z.of_nat k).

Lemma placed_closed less n : swap_closed (HeapInterface0 := trackedHeap less) items n placed.
Proof.
  intros h i j [Hd Hp] Hi Hj Hn. simpl. unfold Swap. set (l := exchange i j (items h)).
  assert (Hl : ∀ k, l !! k = items h !! flip i j k) by (intros k; apply exchange_lookup; lia).
  destruct (lookup_lt_is_Some_2 l i) as [x Ex]; [unfold l; rewrite exchange_length; lia|].
  destruct (lookup_lt_is_Some_2 l j) as [y Ey]; [unfold l; rewrite exchange_length; lia|]. rewrite Ex, Ey.
  assert (Hd' : NoDup (ptr <$> l)) by (unfold l; by rewrite exchange_perm). split; [done|]. simpl.
  assert (Hinj : ∀ a b u v, l !! a = Some u → l !! b = Some v → ptr u = ptr v → a = b).
  { intros a b u v Ea Eb E. eapply (NoDup_lookup _ _ _ (ptr u) Hd'); rewrite list_lookup_fmap; [by rewrite Ea|by rewrite Eb, E]. }
  intros k pm Ek. destruct (decide (k = j)) as [->|Hkj]; [simplify_eq; by rewrite lookup_insert_eq|].
  rewrite lookup_insert_ne by (intros E; apply Hkj; by eapply Hinj).
  destruct (decide (k = i)) as [->|Hki]; [simplify_eq; by rewrite lookup_insert_eq|].
  rewrite lookup_insert_ne by (intros E; apply Hki; by eapply Hinj).
  apply Hp. rewrite <-Ek, Hl. unfold flip. by rewrite !decide_False.
Qed.

Lemma placed_push pm h : placed h → ptr pm ∉ ptr <$> items h → placed (PushItem pm h).
Proof.
  intros [Hd Hp] Hn. split; simpl.
  - rewrite fmap_app. apply NoDup_app. split; [done|]. split; [|apply NoDup_singleton].
    intros x Hx ->%list_elem_of_singleton. done.
  - intros k x [Ek|[Hk Ek]]%lookup_app_Some.
    + rewrite lookup_insert_ne; [by apply Hp|]. intros E. apply Hn. rewrite E. apply list_elem_of_fmap_2.
      by eapply list_elem_of_lookup_2.
    + apply list_lookup_singleton_Some in Ek as [Ek <-]. rewrite lookup_insert_eq. f_equal. lia.
Qed.

Lemma placed_pop pm h h' : placed h → PopItem h = Some (pm, h') → placed h'.
Proof.
  intros [Hd Hp]. unfold PopItem. destruct (reverse (items h)) as [|x r] eqn:E; [done|]. intros [= <- <-].
  assert (El : items h = reverse r ++ [x]) by (by rewrite <-(reverse_involutive (items h)), E, reverse_cons).
  rewrite El in Hd. rewrite fmap_app in Hd. apply NoDup_app in Hd as (Hd & Hx & _). split; [done|]. simpl.
  intros k y Ek. rewrite lookup_insert_ne.
  - apply Hp. rewrite El. by apply lookup_app_l_Some.
  - intros E'. apply (Hx (ptr y)); [apply list_elem_of_fmap_2; by eapply list_elem_of_lookup_2|].
    rewrite <-E'. by left.
Qed.

(** ** A heap that holds the messages of [l] *)

Definition holds (less : PriorityMessage → PriorityMessage → bool) h (l : list PriorityMessage) : Prop :=
  items h ≡ₚ l ∧ heapOrdered less items h ∧ placed h.

Section holds.
Context (less : PriorityMessage (Message := Message) → PriorityMessage → bool) `{!WeakOrder less}.
#[local] Instance theHeap : HeapInterface tracked PriorityMessage := trackedHeap less.
Implicit Types (l : list (PriorityMessage (Message := Message))).

Lemma heap_holds_nil m : holds less (MkHeap [] m) [].
Proof. split; [done|]. split; [intros k Hk; simpl in Hk; lia|]. split; [apply NoDup_nil_2|done]. Qed.

Lemma holds_push h l pm : holds less h l → ptr pm ∉ ptr <$> l → holds less (heapPush pm h) (l ++ [pm]).
Proof.
  intros (Hl & Ho & Hp) Hn. destruct (heapPush_ok less items pm h Ho) as [Ho' Hl']. split; [|split; [done|]].
  - rewrite Hl', Hl. solve_Permutation.
  - apply (heapPush_closed less items); [apply placed_closed|]. apply placed_push; [done|]. by rewrite Hl.
Qed.

Lemma holds_root h l x : holds less h l → head (items h) = Some x →
  (∃ l1 l2, l = l1 ++ x :: l2) ∧ ∀ y, y ∈ l → less y x = false.
Proof.
  intros (Hl & Ho & _) Ex. split.
  - apply list_elem_of_split. rewrite <-Hl. rewrite head_lookup in Ex. by eapply list_elem_of_lookup_2.
  - intros y Hy. rewrite <-Hl in Hy. by eapply (heapOrdered_root less items).
Qed.

Lemma holds_rest h h2 h' l1 x l2 : holds less h (l1 ++ x :: l2) → heapOrdered less items h' →
  items h ≡ₚ x :: items h' → placed h2 → hPop h2 = Some (x, h') → holds less h' (l1 ++ l2).
Proof.
  intros (Hl & _ & _) Ho Hx Hp2 Hpop. split; [|split; [done|by eapply placed_pop]].
  apply (Permutation_cons_inv (a := x)). rewrite <-Hx, Hl. solve_Permutation.
Qed.

Lemma holds_pop h l1 x l2 : holds less h (l1 ++ x :: l2) → head (items h) = Some x →
  ∃ h', heapPop h = Some (x, h') ∧ holds less h' (l1 ++ l2).
Proof.
  intros Hh Ex. destruct Hh as (Hl & Ho & Hp) eqn:E. clear E.
  destruct (heapPop_ok less items placed h x) as (h2 & h' & E1 & E2 & E3 & E4 & E5); [apply placed_closed|done..|].
  exists h'. split; [done|]. by eapply holds_rest.
Qed.

Lemma holds_remove h l1 x l2 i : holds less h (l1 ++ x :: l2) → items h !! i = Some x →
  ∃ h', heapRemove i h = Some (x, h') ∧ holds less h' (l1 ++ l2).
Proof.
  intros Hh Ex. destruct Hh as (Hl & Ho & Hp) eqn:E. clear E.
  destruct (heapRemove_ok less items placed i h x) as (h2 & h' & E1 & E2 & E3 & E4 & E5); [apply placed_closed|done..|].
  exists h'. split; [done|]. by eapply holds_rest.
Qed.

Lemma holds_removeAt h l1 x l2 : holds less h (l1 ++ x :: l2) →
  ∃ h', removeAt less x h = Some (x, h') ∧ holds less h' (l1 ++ l2).
Proof.
  intros Hh. destruct (list_elem_of_lookup_1 (items h) x) as [i Ei].
  { rewrite (proj1 Hh). set_solver. }
  unfold removeAt. rewrite (proj2 (proj2 (proj2 Hh)) i x Ei). simpl. rewrite (proj2 (Z.ltb_ge _ _)) by lia.
  rewrite Nat2Z.id. by apply holds_remove.
Qed.

Lemma holds_length h l : holds less h l → length (items h) = length l.
Proof. intros (Hl & _ & _). by apply Permutation_length. Qed.

Lemma holds_head h l : holds less h l → l ≠ [] → ∃ x, head (items h) = Some x.
Proof.
  intros Hh Hl. destruct (items h) as [|x r] eqn:E; [|by exists x].
  destruct l; [done|]. apply holds_length in Hh. by rewrite E in Hh.
Qed.
End holds.

Definition abs pm : Message * Z := (Msg pm, Priority pm).

Definition arrived (l : list (PriorityMessage (Message := Message))) : Prop := StronglySorted (λ a b, Sequence a < Sequence b) l.

Lemma arrived_split l1 x l2 : arrived (l1 ++ x :: l2) →
  (∀ y, y ∈ l1 → Sequence y < Sequence x) ∧ arrived (l1 ++ l2).
Proof.
  intros H. split.
  - intros y Hy. apply StronglySorted_app in H as (H & _ & _). apply (H y x); [done|by left].
  - induction l1 as [|a l1 IH]; simpl in *; inversion_clear H as [|? ? H1 H2]; [done|].
    constructor; [by apply IH|]. apply Forall_app in H2 as [H2 H3]. inversion_clear H3. by apply Forall_app.
Qed.

(** What the delivery heap has at its root is the oldest message of the best priority,
    what the eviction heap has the oldest of the worst. *)
Lemma pick_urgent l1 x l2 : arrived (l1 ++ x :: l2) → (∀ y, y ∈ l1 ++ x :: l2 → pqLess y x = false) →
  pick urgent (abs <$> l1 ++ x :: l2) = Some (abs x, abs <$> l1 ++ l2).
Proof.
  intros Ha Hx. apply arrived_split in Ha as [Ha _]. rewrite !fmap_app. simpl. apply pick_unique.
  - intros ? (y & -> & Hy)%list_elem_of_fmap. specialize (Ha y Hy). specialize (Hx y ltac:(set_solver)).
    unfold pqLess in Hx. unfold urgent. simpl. case_match; unbool; lia.
  - intros ? (y & -> & Hy)%list_elem_of_fmap. specialize (Hx y ltac:(set_solver)).
    unfold pqLess in Hx. unfold urgent. simpl. case_match; unbool; lia.
Qed.
Lemma pick_worse l1 x l2 : arrived (l1 ++ x :: l2) → (∀ y, y ∈ l1 ++ x :: l2 → eqLess y x = false) →
  pick worse (abs <$> l1 ++ x :: l2) = Some (abs x, abs <$> l1 ++ l2).
Proof.
  intros Ha Hx. apply arrived_split in Ha as [Ha _]. rewrite !fmap_app. simpl. apply pick_unique.
  - intros ? (y & -> & Hy)%list_elem_of_fmap. specialize (Ha y Hy). specialize (Hx y ltac:(set_solver)).
    unfold eqLess in Hx. unfold worse. simpl. case_match; unbool; lia.
  - intros ? (y & -> & Hy)%list_elem_of_fmap. specialize (Hx y ltac:(set_solver)).
    unfold eqLess in Hx. unfold worse. simpl. case_match; unbool; lia.
Qed.

(** ** The refinement relation *)

Record repr (w : waiting (Message := Message)) pb (l : list (PriorityMessage (Message := Message))) : Prop := {
  r_msgs : msgs w = abs <$> l;
  r_limit : limit w = capacity pb;
  r_room : 0 < capacity pb;
  r_shut : shut w = closed pb;
  r_notify : notifyClosed pb = closed pb;
  r_arrived : arrived l;
  r_seq : 0 ≤ sequence pb ∧ ∀ pm, pm ∈ l → Sequence pm ≤ sequence pb;
  r_ptr : ∀ pm, pm ∈ l → (ptr pm < nextPtr pb)%nat;
  r_pq : holds pqLess (pq pb) l;
  r_eq : holds eqLess (eq pb) l;
}.

Lemma repr_new cap : repr (newWaiting cap) (NewPriorityBuffer cap) [].
Proof.
  split; simpl; try done; try apply SSorted_nil; try (apply heap_holds_nil; apply _).
  - case_match; unbool; lia.
  - split; [done|set_solver].
  - set_solver.
Qed.

Lemma arrived_snoc l pm : arrived l → (∀ x, x ∈ l → Sequence x < Sequence pm) → arrived (l ++ [pm]).
Proof.
  intros Ha Hl. apply StronglySorted_app. split; [|split; [done|repeat constructor]].
  intros x y Hx ->%list_elem_of_singleton. by apply Hl.
Qed.

(** The end of [Push] adds the message to whatever the heaps hold by then. *)
Lemma repr_pushBoth w pb l pm : repr w pb l → closed pb = false → Sequence pm = sequence pb + 1 → ptr pm = nextPtr pb →
  ∃ pb', pushBoth pm (withHeaps (pq pb) (eq pb) {| pq := pq pb; eq := eq pb; capacity := capacity pb;
      sequence := sequence pb + 1; notify := notify pb; notifyClosed := notifyClosed pb; closed := closed pb;
      nextPtr := S (nextPtr pb) |}) = Some pb' ∧ sequence pb' = sequence pb + 1 ∧
    repr (MkWaiting (msgs w ++ [abs pm]) (limit w) false) pb' (l ++ [pm]).
Proof.
  intros [Hm Hl Hr Hs Hn Ha [Hq0 Hq] Hp Hpq Heq] Hc Eseq Eptr. unfold pushBoth, withHeaps. simpl. rewrite Hn, Hc.
  eexists. split; [done|]. split; [done|].
  assert (Hfresh : ptr pm ∉ ptr <$> l).
  { intros (x & E & Hx)%list_elem_of_fmap. specialize (Hp x Hx). lia. }
  split; simpl; try done.
  - by rewrite Hm, fmap_app.
  - apply arrived_snoc; [done|]. intros x Hx. specialize (Hq x Hx). lia.
  - split; [lia|]. intros x [Hx| ->%list_elem_of_singleton]%elem_of_app; [specialize (Hq x Hx); lia|lia].
  - intros x [Hx| ->%list_elem_of_singleton]%elem_of_app; [specialize (Hp x Hx); lia|lia].
  - by apply holds_push; [apply _|..].
  - by apply holds_push; [apply _|..].
Qed.

Lemma repr_drop w pb l1 x l2 p e : repr w pb (l1 ++ x :: l2) → holds pqLess p (l1 ++ l2) → holds eqLess e (l1 ++ l2) →
  repr (MkWaiting (abs <$> l1 ++ l2) (limit w) (shut w)) (withHeaps p e pb) (l1 ++ l2).
Proof.
  intros [Hm Hl Hr Hs Hn Ha [Hq0 Hq] Hp Hpq Heq] H1 H2. split; simpl; try done.
  - by apply arrived_split in Ha as [_ Ha].
  - split; [done|]. intros y Hy. apply Hq. set_solver.
  - intros y Hy. apply Hp. set_solver.
Qed.

Lemma repr_Push w pb l msg p : repr w pb l → sequence pb + 1 < 2 ^ 64 → ∃ pb' l',
  Push msg p pb = Some ((push msg p w).1, pb') ∧ repr (push msg p w).2 pb' l' ∧ sequence pb' ≤ sequence pb + 1.
Proof.
  intros R Hs64. unfold Push, push. rewrite (r_shut _ _ _ R). destruct (closed pb) eqn:Ec; [exists pb, l; split; [done|]; split; [done|lia]|].
  pose proof (r_seq _ _ _ R) as [Hq0 _].
  assert (Ew : wrapu64 (sequence pb + 1) = sequence pb + 1) by (unfold wrapu64; apply Z.mod_small; lia).
  rewrite Ew. cbv zeta. cbn [capacity pq eq]. rewrite (r_limit _ _ _ R), (r_msgs _ _ _ R), length_fmap.
  rewrite (holds_length _ _ _ (r_pq _ _ _ R)). set (pm := MkMsg _ _ _ _).
  destruct (capacity pb <=? Z.of_nat (length l)) eqn:Efull.
  - apply Z.leb_le in Efull. pose proof (r_room _ _ _ R) as Hroom. assert (Hne : l ≠ []) by (intros ->; simpl in Efull; lia).
    destruct (holds_head eqLess _ _ (r_eq _ _ _ R) Hne) as [x Ex]. rewrite Ex. cbn [mbind option_bind].
    destruct (holds_root eqLess _ _ x (r_eq _ _ _ R) Ex) as [(l1 & l2 & ->) Hleast].
    rewrite (pick_worse _ _ _ (r_arrived _ _ _ R) Hleast). cbn [fst snd abs].
    destruct (p <=? Priority x).
    + destruct (holds_remove eqLess _ _ _ _ 0 (r_eq _ _ _ R)) as (e & E1 & E2); [by rewrite <-head_lookup|].
      destruct (holds_removeAt pqLess _ _ _ _ (r_pq _ _ _ R)) as (q & E3 & E4).
      pose proof (repr_drop _ _ _ _ _ _ _ R E4 E2) as R2.
      unfold theHeap in E1. unfold evictionQueue at 1. rewrite E1. cbn [mbind option_bind]. rewrite E3. cbn [mbind option_bind].
      destruct (repr_pushBoth _ _ _ pm R2 Ec eq_refl eq_refl) as (pb' & E5 & E6 & E7).
      unfold withHeaps in E5 |- *. cbn [pq eq capacity sequence notify notifyClosed closed nextPtr] in E5 |- *.
      rewrite Ec in E5. rewrite E5. cbn [mbind option_bind]. eexists _, _. split; [done|]. cbn [msgs limit] in E7.
      rewrite (r_limit _ _ _ R) in E7. split; [exact E7|]. simpl in E6. lia.
    + eexists _, (l1 ++ x :: l2). split; [done|]. destruct R as [R1 R2 R3 R4 R5 R6 [R7 R7'] R8 R9 R10].
      split; [|simpl; lia]. split; simpl; try done; [congruence|congruence| |].
      * split; [lia|]. intros y Hy. specialize (R7' y Hy). lia.
      * intros y Hy. specialize (R8 y Hy). lia.
  - destruct (repr_pushBoth _ _ _ pm R Ec eq_refl eq_refl) as (pb' & E5 & E6 & E7).
    unfold withHeaps in E5. cbn [pq eq capacity sequence notify notifyClosed closed nextPtr] in E5. rewrite Ec in E5. rewrite E5.
    cbn [mbind option_bind]. eexists _, _. split; [done|]. rewrite (r_msgs _ _ _ R), (r_limit _ _ _ R) in E7.
    split; [exact E7|lia].
Qed.

Lemma repr_empty w pb l : repr w pb l → (length (items (pq pb)) =? 0)%nat = bool_decide (l = []).
Proof.
  intros R. rewrite (holds_length _ _ _ (r_pq _ _ _ R)). destruct l; [done|]. by rewrite bool_decide_eq_false_2.
Qed.

Lemma repr_pop_root w pb l : repr w pb l → l ≠ [] → ∃ x l1 l2, l = l1 ++ x :: l2 ∧ head (items (pq pb)) = Some x ∧
  pick urgent (msgs w) = Some (abs x, abs <$> l1 ++ l2).
Proof.
  intros R Hne. destruct (holds_head pqLess _ _ (r_pq _ _ _ R) Hne) as [x Ex].
  destruct (holds_root pqLess _ _ x (r_pq _ _ _ R) Ex) as [(l1 & l2 & ->) Hleast]. exists x, l1, l2.
  split; [done|]. split; [done|]. rewrite (r_msgs _ _ _ R). by apply pick_urgent; [apply (r_arrived _ _ _ R)|].
Qed.

Lemma repr_Pop w pb l : repr w pb l → ∃ pb' l', Pop pb = Some ((pop w).1, pb') ∧ repr (pop w).2 pb' l' ∧
  sequence pb' = sequence pb.
Proof.
  intros R. unfold Pop, pop. rewrite (repr_empty _ _ _ R), (r_shut _ _ _ R).
  destruct (closed pb) eqn:Ec; [rewrite orb_true_r; by exists pb, l|]. rewrite orb_false_r.
  destruct (decide (l = [])) as [->|Hne].
  { rewrite (r_msgs _ _ _ R). by exists pb, []. }
  rewrite bool_decide_eq_false_2 by done. destruct (repr_pop_root _ _ _ R Hne) as (x & l1 & l2 & -> & Ex & ->).
  destruct (holds_pop pqLess _ _ _ _ (r_pq _ _ _ R) Ex) as (p & E1 & E2).
  destruct (holds_removeAt eqLess _ _ _ _ (r_eq _ _ _ R)) as (e & E3 & E4).
  unfold theHeap in E1. unfold priorityQueue. rewrite E1. cbn [mbind option_bind]. rewrite E3. cbn [mbind option_bind].
  eexists _, (l1 ++ l2). split; [done|]. split; [|done]. cbn [snd]. rewrite <-Ec, <-(r_shut _ _ _ R). by eapply repr_drop.
Qed.

Lemma repr_Peek w pb l : repr w pb l → Peek pb = Some (pop w).1.
Proof.
  intros R. unfold Peek, pop. rewrite (repr_empty _ _ _ R), (r_shut _ _ _ R).
  destruct (closed pb) eqn:Ec; [by rewrite orb_true_r|]. rewrite orb_false_r.
  destruct (decide (l = [])) as [->|Hne]; [by rewrite (r_msgs _ _ _ R)|].
  rewrite bool_decide_eq_false_2 by done. by destruct (repr_pop_root _ _ _ R Hne) as (x & l1 & l2 & -> & -> & ->).
Qed.

Lemma repr_drainLoop h l fuel : holds pqLess h l → arrived l → (length l ≤ fuel)%nat →
  ∃ h', drainLoop fuel h = Some (drain fuel (abs <$> l), h') ∧ holds pqLess h' [].
Proof.
  revert h l. induction fuel as [|fuel IH]; intros h l Hh Ha Hf.
  { destruct l; [|simpl in Hf; lia]. by exists h. }
  cbn [drainLoop]. rewrite (holds_length _ _ _ Hh). destruct (decide (l = [])) as [->|Hne]; [by exists h|].
  destruct (length l =? 0)%nat eqn:E; [apply Nat.eqb_eq in E; by destruct l|].
  destruct (holds_head pqLess _ _ Hh Hne) as [x Ex]. destruct (holds_root pqLess _ _ x Hh Ex) as [(l1 & l2 & ->) Hleast].
  destruct (holds_pop pqLess _ _ _ _ Hh Ex) as (p & E1 & E2). unfold theHeap in E1. unfold priorityQueue at 1.
  rewrite E1. cbn [mbind option_bind drain]. rewrite (pick_urgent _ _ _ Ha Hleast).
  destruct (IH p (l1 ++ l2)) as (h' & E3 & E4); [done|by apply arrived_split in Ha as [_ Ha]| |].
  - rewrite !length_app in *. simpl in Hf. lia.
  - exists h'. by rewrite E3.
Qed.

Lemma repr_Drain w pb l : repr w pb l → ∃ pb', Drain pb = Some (drain (length (msgs w)) (msgs w), pb') ∧
  repr (MkWaiting [] (limit w) (shut w)) pb' [] ∧ sequence pb' = sequence pb.
Proof.
  intros R. unfold Drain. destruct (repr_drainLoop (pq pb) l (length l)) as (h' & E1 & E2);
    [apply (r_pq _ _ _ R)|apply (r_arrived _ _ _ R)|done|].
  rewrite (holds_length _ _ _ (r_pq _ _ _ R)), E1, (r_msgs _ _ _ R), length_fmap. cbn [mbind option_bind].
  eexists. split; [done|]. split; [|done]. destruct R as [R1 R2 R3 R4 R5 R6 [R7 R7'] R8 R9 R10].
  split; simpl; try done; [apply SSorted_nil|split; [done|set_solver]|set_solver|apply heap_holds_nil; apply _].
Qed.

Lemma repr_Close w pb l : repr w pb l → ∃ pb', Close pb = Some pb' ∧
  repr (MkWaiting (msgs w) (limit w) true) pb' l ∧ sequence pb' = sequence pb.
Proof.
  intros R. unfold Close. rewrite (r_notify _ _ _ R). destruct (closed pb) eqn:Ec; eexists; (split; [done|]); (split; [|done]);
    destruct R as [R1 R2 R3 R4 R5 R6 R7 R8 R9 R10]; split; simpl; congruence || done.
Qed.

Lemma count_priority w pb l p : repr w pb l →
  countPriority (items (pq pb)) p = length (filter (λ m, m.2 = p) (msgs w)).
Proof.
  intros R. rewrite (r_msgs _ _ _ R). unfold countPriority. destruct (r_pq _ _ _ R) as (-> & _ & _). clear R.
  induction l as [|x l IH]; [done|]. rewrite fmap_cons, !filter_cons. simpl. case_decide; simpl; congruence.
Qed.

Lemma repr_step w pb l o : repr w pb l → sequence pb + 1 < 2 ^ 64 → ∃ pb' l',
  code_step o pb = Some ((spec_step o w).1, pb') ∧ repr (spec_step o w).2 pb' l' ∧ sequence pb' ≤ sequence pb + 1.
Proof.
  intros R Hs. destruct o; simpl.
  - destruct (repr_Push w pb l msg p R Hs) as (pb' & l' & -> & ? & ?). destruct (push msg p w). by exists pb', l'.
  - destruct (repr_Pop w pb l R) as (pb' & l' & -> & ? & ?). destruct (pop w). exists pb', l'. split_and!; [done..|lia].
  - rewrite (repr_Peek w pb l R). exists pb, l. split_and!; [done..|lia].
  - exists pb, l. unfold Len. rewrite (holds_length _ _ _ (r_pq _ _ _ R)), (r_msgs _ _ _ R), length_fmap. split_and!; [done..|lia].
  - destruct (repr_Drain w pb l R) as (pb' & -> & ? & ?). exists pb', []. split_and!; [done..|lia].
  - destruct (repr_Close w pb l R) as (pb' & -> & ? & ?). exists pb', l. split_and!; [done..|lia].
  - exists pb, l. rewrite (count_priority w pb l p R), (holds_length _ _ _ (r_pq _ _ _ R)), (r_msgs _ _ _ R), length_fmap, (r_limit _ _ _ R).
    split_and!; [done..|lia].
Qed.

Lemma repr_run ops w pb l : repr w pb l → sequence pb + Z.of_nat (length ops) < 2 ^ 64 →
  code_run ops pb = Some (spec_run ops w).
Proof.
  revert w pb l. induction ops as [|o ops IH]; intros w pb l R Hs; [done|]. cbn [length] in Hs.
  destruct (repr_step w pb l o R) as (pb' & l' & E & R' & Hs'); [lia|]. cbn [code_run spec_run]. rewrite E.
  destruct (spec_step o w) as [a w']. cbn [mbind option_bind fst snd] in *. by rewrite (IH w' pb' l') by (done || lia).
Qed.
End refine.

(** C13: for every capacity and every sequence of operations (fewer than 2^64, the range of
    the sequence counter), the priority buffer of two index-linked heaps never panics and
    answers exactly as the list of waiting messages in order of arrival does: [Pop], [Peek]
    and [Drain] take the oldest message of the best priority, a push into a full buffer
    drops the oldest message of the worst priority, or the new message if it is strictly
    worse than all that wait. *)
Theorem priority_buffer_refines {Message} (cap : Z) (ops : list (op (Message := Message))) :
  Z.of_nat (length ops) < 2 ^ 64 →
  code_run ops (NewPriorityBuffer cap) = Some (spec_run ops (newWaiting cap)).
Proof. intros Hl. by apply (repr_run ops _ _ [] (repr_new cap)). Qed.

Lemma priority_buffer_refines_witness :
  let ops := [OPush 1%nat 2; OPush 2%nat 0; OPush 3%nat 2; OPush 4%nat 1; OPush 5%nat 7; OPop; OStats 2; ODrain; OPop] in
  code_run ops (NewPriorityBuffer 3) = Some (spec_run ops (newWaiting 3)) ∧
  spec_run ops (newWaiting 3) =
    [ADropped None; ADropped None; ADropped None; ADropped (Some 1%nat); ADropped (Some 5%nat); AMsg (Some (2%nat, 0));
     AStats 2 3 1; AAll [4%nat; 3%nat]; AMsg None].
Proof. split; [apply priority_buffer_refines; vm_compute; reflexivity|vm_compute; reflexivity]. Defined.

(** Priorities survive the trip through metadata; what is not a priority becomes normal. *)
Lemma message_priority_roundtrip meta p :
  GetMessagePriority (Some (SetMessagePriority meta p)) = if (0 <=? p) && (p <=? 4) then p else PriorityNormal.
Proof.
  unfold GetMessagePriority, SetMessagePriority. rewrite lookup_insert_eq.
  destruct (decide (p = 0)) as [->|]; [done|]. destruct (decide (p = 1)) as [->|]; [done|].
  destruct (decide (p = 2)) as [->|]; [done|]. destruct (decide (p = 3)) as [->|]; [done|].
  destruct (decide (p = 4)) as [->|]; [done|].
  rewrite !(proj2 (Z.eqb_neq _ _)) by done. destruct ((0 <=? p) && (p <=? 4)) eqn:E; [unbool; lia|done].
Qed.
