(* ===== verification/TaskQueue.v ===== *)
(** * The task queue ([x/messaging/mq/queue*.go])

    Tasks with priorities, leases and attempts. [TaskStore] is the interface to the
    store that keeps them; its laws are stated on an abstract view, the status of
    every task, and the queue's guarantees are proved from them. Times are
    nanoseconds, the zero [time.Time] is 0; [now] is what the queue's clock returns. *)

From stdpp Require Import options.
From stdpp Require Import sorting.
From S2P Require Import Prelude GoStrings GoNumbers.
#[local] Open Scope Z_scope.

Module MQ.

Definition DefaultTaskMaxAttempts : Z := 5.
Definition second : Z := 1000000000.
Definition DefaultLeaseDuration : Z := 30 * second.
Definition MaxTopicLength : Z := 1024.
Definition PriorityNormal : Z := 20.

Inductive TaskStatus := TaskStatusQueued | TaskStatusLeased | TaskStatusDone | TaskStatusDead | TaskStatusExpired.
#[export] Instance TaskStatus_eq_dec : EqDecision TaskStatus.
Proof. solve_decision. Defined.

Inductive mqErr :=
| ErrDuplicateTask | ErrTaskNotFound | ErrLeaseLost | ErrTaskExpired | ErrInvalidConfig | ErrInvalidTopic
| ErrStore.
#[export] Instance mqErr_eq_dec : EqDecision mqErr.
Proof. solve_decision. Defined.

Record Task := MkTask {
  ID : gostring;
  Topic : gostring;
  TenantID : gostring;
  Payload : gostring;
  Meta : list (gostring * gostring);
  Priority : Z;
  ExpiresAt : Z;
  DedupeKey : gostring;
  AvailableAt : Z;
  Attempts : Z;
  MaxAttempts : Z;
  LeaseOwner : gostring;
  LeaseUntil : Z;
  CreatedAt : Z;
  UpdatedAt : Z;
}.

Record EnqueueOptions := MkEnqueue {
  eoDedupeKey : gostring;
  eoAvailableAt : Z;
  eoExpiresAt : Z;
  eoPriority : option Z;
  eoMaxAttempts : Z;
}.
Record ReserveOptions := MkReserve {
  Topics : list gostring;
  Limit : Z;
  Lease : Z;
  ConsumerID : gostring;
  roNow : Z;
}.
Record ReleaseOptions := MkRelease { RetryAt : Z; Reason : gostring; relNow : Z }.
Record Stats := MkStats { Queued : Z; Leased : Z; Dead : Z; Expired : Z }.

Definition IsZero (t : Z) : bool := t =? 0.

(** ** The store interface *)

Section types.
Implicit Types (id consumer : gostring) (now : Z).

(** [Reserve] iterates over the store in an order of its own and may ask the store's
    clock for the time, both arguments here. *)
Class TaskStore (S : Type) := {
  Insert : Task → S → S * option mqErr;
  Reserve : ReserveOptions → list gostring → Z → S → S * result mqErr (list Task);
  Ack : gostring → gostring → Z → S → S * option mqErr;
  Release : gostring → gostring → ReleaseOptions → S → S * option mqErr;
  MoveToDLQ : gostring → gostring → gostring → Z → S → S * option mqErr;
  ExtendLease : gostring → gostring → Z → Z → S → S * option mqErr;
  statsOf : S → Stats;
}.

(** What a client sees of a task: queued, leased by a consumer, or finished. *)
Inductive view := VQueued | VLeased (owner : gostring) | VDone | VDead | VExpired.

(** [DLQReplayer]: how many dead tasks were queued again, and how many remain. *)
Record ReplayOptions := MkReplay { Max : Z; rpNow : Z; rpAvailableAt : Z; ResetAttempts : bool }.
Class DLQReplayer (S : Type) := ReplayDLQ : ReplayOptions → list gostring → Z → S → S * (Z * Z).

(** A holder of the lease moves the task to [v]; everyone else changes nothing. *)
Definition holder_moves (vs vs' : gmap gostring view) id consumer (v : view) (e : option mqErr) : Prop :=
  match e with
  | None => vs !! id = Some (VLeased consumer) ∧ vs' = <[id := v]> vs
  | Some _ => vs' = vs
  end.

(** The laws: who may change a task, and how. *)
Class TaskStoreLaws (S : Type) `{!TaskStore S, !DLQReplayer S} := {
  views : S → gmap gostring view;
  store_ok : S → Prop;
  insert_law t s : store_ok s → let '(s', e) := Insert t s in store_ok s' ∧
    match e with
    | None => views s !! ID t = None ∧ views s' = <[ID t := VQueued]> (views s)
    | Some _ => views s' = views s
    end;
  reserve_law o order now s : store_ok s → let '(s', r) := Reserve o order now s in store_ok s' ∧
    match r with
    | Ok ts =>
        NoDup (ID <$> ts) ∧ Z.of_nat (length ts) ≤ Z.max 0 (Limit o) ∧
        (∀ id, id ∈ ID <$> ts → views s !! id = Some VQueued ∧ views s' !! id = Some (VLeased (ConsumerID o))) ∧
        (∀ id, id ∉ ID <$> ts → views s' !! id = views s !! id ∨
                                views s !! id = Some VQueued ∧ views s' !! id = Some VExpired)
    | Err _ => views s' = views s
    end;
  ack_law id c now s : store_ok s → let '(s', e) := Ack id c now s in
    store_ok s' ∧ holder_moves (views s) (views s') id c VDone e;
  release_law id c o s : store_ok s → let '(s', e) := Release id c o s in
    store_ok s' ∧ holder_moves (views s) (views s') id c VQueued e;
  dlq_law id c why now s : store_ok s → let '(s', e) := MoveToDLQ id c why now s in
    store_ok s' ∧ holder_moves (views s) (views s') id c VDead e;
  extend_law id c lease now s : store_ok s → let '(s', e) := ExtendLease id c lease now s in
    store_ok s' ∧ holder_moves (views s) (views s') id c (VLeased c) e;
  replay_law o order now s : store_ok s → let '(s', _) := ReplayDLQ o order now s in store_ok s' ∧
    ∀ id, views s' !! id = views s !! id ∨ views s !! id = Some VDead ∧ views s' !! id = Some VQueued;
}.
End types.

(** ** The queue *)

Section queue.
Context {S : Type} `{!TaskStore S}.
Implicit Types (s : S) (id consumer : gostring) (now : Z).

Definition validateTopic (topic : gostring) : option mqErr :=
  let topic := trim_space topic in
  if decide (topic = []) then Some ErrInvalidTopic
  else if MaxTopicLength <? Z.of_nat (length topic) then Some ErrInvalidTopic
  else None.

(** The defaults [Enqueue] fills in. *)
Definition prepare (t : Task) (o : EnqueueOptions) now : Task :=
  MkTask (ID t) (Topic t) (TenantID t) (Payload t) (Meta t)
    (match eoPriority o with Some p => p | None => if Priority t =? 0 then PriorityNormal else Priority t end)
    (if IsZero (eoExpiresAt o) then ExpiresAt t else eoExpiresAt o)
    (if decide (eoDedupeKey o = []) then DedupeKey t else eoDedupeKey o)
    (if IsZero (eoAvailableAt o) then if IsZero (AvailableAt t) then now else AvailableAt t else eoAvailableAt o)
    (Attempts t)
    (let m := if 0 <? eoMaxAttempts o then eoMaxAttempts o else MaxAttempts t in
     if m <=? 0 then DefaultTaskMaxAttempts else m)
    (LeaseOwner t) (LeaseUntil t)
    (if IsZero (CreatedAt t) then now else CreatedAt t) now.

Definition Enqueue (t : Task) (o : EnqueueOptions) now s : S * option mqErr :=
  if decide (trim_space (ID t) = []) then (s, Some ErrInvalidConfig)
  else match validateTopic (Topic t) with
  | Some e => (s, Some e)
  | None =>
      let t := prepare t o now in
      if negb (IsZero (ExpiresAt t)) && (ExpiresAt t <=? now) then (s, Some ErrTaskExpired)
      else Insert t s
  end.

Definition ReserveTasks (o : ReserveOptions) (order : list gostring) now s : S * result mqErr (list Task) :=
  if decide (trim_space (ConsumerID o) = []) then (s, Err ErrInvalidConfig)
  else if Limit o <=? 0 then (s, Ok [])
  else Reserve (MkReserve (Topics o) (Limit o) (if Lease o <=? 0 then DefaultLeaseDuration else Lease o)
                  (ConsumerID o) (if IsZero (roNow o) then now else roNow o)) order now s.

Definition AckTask id consumer (at_ now : Z) s : S * option mqErr :=
  Ack id consumer (if IsZero at_ then now else at_) s.

Definition ReleaseTask id consumer (o : ReleaseOptions) now s : S * option mqErr :=
  let n := if IsZero (relNow o) then now else relNow o in
  Release id consumer (MkRelease (if IsZero (RetryAt o) then n else RetryAt o) (Reason o) n) s.

Definition MoveTaskToDLQ id consumer (why : gostring) (at_ now : Z) s : S * option mqErr :=
  MoveToDLQ id consumer why (if IsZero at_ then now else at_) s.

Definition ExtendTaskLease id consumer (lease at_ now : Z) s : S * option mqErr :=
  ExtendLease id consumer (if lease <=? 0 then DefaultLeaseDuration else lease) (if IsZero at_ then now else at_) s.

(** ** The worker *)

(** [w.config.RetryPolicy.NextDelay], as a parameter of the worker. *)
Context (nextDelay : Task → Z).

Definition failTask consumer (t : Task) (why : gostring) now s : S :=
  let maxAttempts := if MaxAttempts t <=? 0 then DefaultTaskMaxAttempts else MaxAttempts t in
  if maxAttempts <=? Attempts t then fst (MoveTaskToDLQ (ID t) consumer why now now s)
  else fst (ReleaseTask (ID t) consumer (MkRelease (now + nextDelay t) why now) now s).

(** What a handler did: nothing, or ran with a result ([None] is success). *)
Inductive outcome := Skipped | Handled (err : option gostring).

Definition maxAttemptsExceeded : gostring := str "max attempts exceeded".
Definition noHandler (topic : gostring) : gostring := str "no handler registered for topic " ++ topic.

(** [handleTask]: [completed] is the answer of the deduper, [handler] the registered
    handler with its result, [leaseLost] what the lease extension loop found. *)
Definition handleTask consumer (completed : bool) (handler : option (option gostring)) (leaseLost : bool)
    (t : Task) now s : S * outcome :=
  if (0 <? MaxAttempts t) && (MaxAttempts t <? Attempts t) then
    (fst (MoveTaskToDLQ (ID t) consumer maxAttemptsExceeded now now s), Skipped)
  else if completed then (fst (AckTask (ID t) consumer now now s), Skipped)
  else match handler with
  | None => (failTask consumer t (noHandler (Topic t)) now s, Skipped)
  | Some err =>
      if leaseLost then (s, Handled err)
      else match err with
      | None => (fst (AckTask (ID t) consumer now now s), Handled None)
      | Some why => (failTask consumer t why now s, Handled (Some why))
      end
  end.
End queue.
End MQ.
