(* ===== verification/MemStore.v ===== *)
(** * The in-memory task store ([x/messaging/mq/store/mem_store.go])

    The records by task id and the dedupe index. [Reserve] walks a Go map in an
    arbitrary order, an argument here, and [sort.Slice] is not stable: the stable sort
    of an arbitrary order yields every result it can have. *)

From stdpp Require Import options.
From stdpp Require Import sorting.
From S2P Require Import Prelude GoMap GoStrings GoNumbers TaskQueue.
Import MQ.
#[local] Open Scope Z_scope.

Module MemStore.

Record memRecord := MkRec {
  task : Task;
  status : TaskStatus;
  lastError : gostring;
  lastErrorAt : Z;
}.
Record MemStore := MkStore {
  tasks : gmap gostring memRecord;
  dedupe : gmap gostring gostring;
}.
Implicit Types (m : MemStore) (id consumer : gostring) (now : Z) (rec : memRecord).

Definition NewMemory : MemStore := MkStore ∅ ∅.

Definition dedupeKey (tenantID dedupe : gostring) : gostring := tenantID ++ ":"%char :: dedupe.

Definition setRecs m (ts : gmap gostring memRecord) : MemStore := MkStore ts (dedupe m).
Definition putRec id rec m : MemStore := setRecs m (<[id := rec]> (tasks m)).

(** A task whose lease fields, schedule or attempts change. *)
Definition setTask (t : Task) (available attempts : Z) (owner : gostring) (until updated : Z) : Task :=
  MkTask (ID t) (Topic t) (TenantID t) (Payload t) (Meta t) (Priority t) (ExpiresAt t) (DedupeKey t)
    available attempts (MaxAttempts t) owner until (CreatedAt t) updated.

Definition Insert (t : Task) m : MemStore * option mqErr :=
  match tasks m !! ID t with
  | Some _ => (m, Some ErrDuplicateTask)
  | None =>
      let ins m := putRec (ID t) (MkRec t TaskStatusQueued [] 0) m in
      if decide (DedupeKey t = []) then (ins m, None)
      else
        let key := dedupeKey (TenantID t) (DedupeKey t) in
        match dedupe m !! key with
        | Some _ => (m, Some ErrDuplicateTask)
        | None => (ins (MkStore (tasks m) (<[key := ID t]> (dedupe m))), None)
        end
  end.

(** ** Reserving *)

Definition topicAllowed (topic : gostring) (topics : list gostring) : bool := existsb (λ t, bool_decide (t = topic)) topics.

Definition expiredAt rec now : bool :=
  negb (IsZero (ExpiresAt (task rec))) && (ExpiresAt (task rec) <=? now).

(** What the loop does to one record: keep it, mark it expired, or take it. *)
Definition candidate (topics : list gostring) now rec : bool :=
  bool_decide (status rec = TaskStatusQueued) && negb (expiredAt rec now) &&
  (AvailableAt (task rec) <=? now) && (bool_decide (topics = []) || topicAllowed (Topic (task rec)) topics).

Definition markExpired now rec : memRecord :=
  if bool_decide (status rec = TaskStatusQueued) && expiredAt rec now
  then MkRec (task rec) TaskStatusExpired (lastError rec) (lastErrorAt rec) else rec.

(** The order of [sort.Slice]: higher priority first, then older first. *)
Definition taskBefore (a b : Task) : bool :=
  if Priority a =? Priority b then CreatedAt a <? CreatedAt b else Priority b <? Priority a.
Definition notAfter (a b : gostring * memRecord) : Prop := taskBefore (task b.2) (task a.2) = false.
#[export] Instance notAfter_dec : RelDecision notAfter.
Proof. intros a b. unfold notAfter. apply _. Defined.

(** The keys of the map, each once, in the order given. *)
Definition mapOrder (order : list gostring) m : list gostring := keysIn order (tasks m).

(** The records of the map that pass a test, in the order of the walk. *)
Definition walk (P : memRecord → bool) (order : list gostring) m : list (gostring * memRecord) :=
  omap (λ id, rec ← tasks m !! id; if P rec then Some (id, rec) else None) (mapOrder order m).

Definition leaseRec (o : ReserveOptions) rec : memRecord :=
  MkRec (setTask (task rec) (AvailableAt (task rec)) (Attempts (task rec) + 1) (ConsumerID o)
           (roNow o + Lease o) (roNow o))
    TaskStatusLeased (lastError rec) (lastErrorAt rec).

Definition Reserve (o : ReserveOptions) (order : list gostring) (now : Z) m : MemStore * result mqErr (list Task) :=
  if Limit o <=? 0 then (m, Ok [])
  else
    let o := MkReserve (Topics o) (Limit o) (if Lease o <=? 0 then DefaultLeaseDuration else Lease o) (ConsumerID o)
               (if IsZero (roNow o) then now else roNow o) in
    let sorted := merge_sort notAfter (walk (candidate (Topics o) (roNow o)) order m) in
    let selected := (λ c, (c.1, leaseRec o c.2)) <$> take (Z.to_nat (Limit o)) sorted in
    (setRecs m (list_to_map selected ∪ (markExpired (roNow o) <$> tasks m)), Ok (task ∘ snd <$> selected)).

(** ** Finishing *)

(** The guard of [Ack], [Release], [MoveToDLQ] and [ExtendLease]. *)
Definition leaseHeld id consumer now m : result mqErr memRecord :=
  match tasks m !! id with
  | None => Err ErrTaskNotFound
  | Some rec =>
      if negb (bool_decide (status rec = TaskStatusLeased)) || negb (bool_decide (LeaseOwner (task rec) = consumer)) ||
         (negb (IsZero (LeaseUntil (task rec))) && (LeaseUntil (task rec) <? now))
      then Err ErrLeaseLost else Ok rec
  end.

Definition Ack id consumer now m : MemStore * option mqErr :=
  match leaseHeld id consumer now m with
  | Err e => (m, Some e)
  | Ok rec =>
      let t := task rec in
      (putRec id (MkRec (setTask t (AvailableAt t) (Attempts t) [] 0 now) TaskStatusDone (lastError rec) (lastErrorAt rec)) m,
       None)
  end.

Definition Release id consumer (o : ReleaseOptions) m : MemStore * option mqErr :=
  match leaseHeld id consumer (relNow o) m with
  | Err e => (m, Some e)
  | Ok rec =>
      let t := task rec in
      (putRec id (MkRec (setTask t (RetryAt o) (Attempts t) [] 0 (relNow o)) TaskStatusQueued (Reason o) (relNow o)) m,
       None)
  end.

Definition MoveToDLQ id consumer (reason : gostring) now m : MemStore * option mqErr :=
  match leaseHeld id consumer now m with
  | Err e => (m, Some e)
  | Ok rec =>
      let t := task rec in
      (putRec id (MkRec (setTask t (AvailableAt t) (Attempts t) [] 0 now) TaskStatusDead reason now) m, None)
  end.

Definition ExtendLease id consumer (lease now : Z) m : MemStore * option mqErr :=
  match leaseHeld id consumer now m with
  | Err e => (m, Some e)
  | Ok rec =>
      let t := task rec in
      (putRec id (MkRec (setTask t (AvailableAt t) (Attempts t) (LeaseOwner t) (now + lease) now) TaskStatusLeased
                    (lastError rec) (lastErrorAt rec)) m,
       None)
  end.

Definition countStatus (st : TaskStatus) m : Z :=
  Z.of_nat (length (filter (λ kr, status kr.2 = st) (map_to_list (tasks m)))).
Definition StatsMem m : Stats :=
  MkStats (countStatus TaskStatusQueued m) (countStatus TaskStatusLeased m) (countStatus TaskStatusDead m)
    (countStatus TaskStatusExpired m).

(** ** Replaying dead tasks *)

Definition olderUpdate (a b : gostring * memRecord) : Prop :=
  UpdatedAt (task a.2) ≤ UpdatedAt (task b.2).
#[export] Instance olderUpdate_dec : RelDecision olderUpdate.
Proof. intros a b. unfold olderUpdate. apply _. Defined.

Definition replayRec (reset : bool) (now available : Z) rec : memRecord :=
  MkRec (setTask (task rec) available (if reset then 0 else Attempts (task rec)) [] 0 now) TaskStatusQueued
    (lastError rec) (lastErrorAt rec).

(** The result is how many were replayed and how many remain. *)
Definition ReplayDLQ (o : ReplayOptions) (order : list gostring) (now : Z) m : MemStore * (Z * Z) :=
  let now := if IsZero (rpNow o) then now else rpNow o in
  let available := if IsZero (rpAvailableAt o) then now else rpAvailableAt o in
  let dead := walk (λ rec, bool_decide (status rec = TaskStatusDead)) order m in
  if decide (dead = []) then (m, (0, 0))
  else
    let n := Z.of_nat (length dead) in
    let limit := if (Max o <=? 0) || (n <? Max o) then n else Max o in
    let chosen := (λ c, (c.1, replayRec (ResetAttempts o) now available c.2)) <$>
                    take (Z.to_nat limit) (merge_sort olderUpdate dead) in
    (setRecs m (list_to_map chosen ∪ tasks m), (limit, n - limit)).

#[global] Instance MemTaskStore : TaskStore MemStore := {
  MQ.Insert := Insert;
  MQ.Reserve := Reserve;
  MQ.Ack := Ack;
  MQ.Release := Release;
  MQ.MoveToDLQ := MoveToDLQ;
  MQ.ExtendLease := ExtendLease;
  statsOf := StatsMem;
}.
#[global] Instance MemReplayer : DLQReplayer MemStore := ReplayDLQ.
End MemStore.

(** ** The store keeps the laws *)

Section laws.
Import MemStore.
Implicit Types (m : MemStore) (id consumer : gostring) (rec : memRecord).

Definition view_of rec : view :=
  match status rec with
  | TaskStatusQueued => VQueued
  | TaskStatusLeased => VLeased (LeaseOwner (task rec))
  | TaskStatusDone => VDone
  | TaskStatusDead => VDead
  | TaskStatusExpired => VExpired
  end.
Definition mem_views m : gmap gostring view := view_of <$> tasks m.
(** Every record is filed under its own id. *)
Definition mem_ok m : Prop := ∀ id rec, tasks m !! id = Some rec → ID (task rec) = id.

Lemma put_views id rec m : mem_views (putRec id rec m) = <[id := view_of rec]> (mem_views m).
Proof. unfold mem_views. simpl. apply fmap_insert. Qed.

Lemma put_ok id rec m : mem_ok m → ID (task rec) = id → mem_ok (putRec id rec m).
Proof. intros Hm Hid k r. simpl. rewrite lookup_insert_Some. intros [[<- <-]|[_ Hk]]; [done|by apply Hm]. Qed.

Lemma held_spec id consumer now m : match leaseHeld id consumer now m with
  | Ok rec => tasks m !! id = Some rec ∧ status rec = TaskStatusLeased ∧ LeaseOwner (task rec) = consumer ∧
      (LeaseUntil (task rec) = 0 ∨ now ≤ LeaseUntil (task rec))
  | Err _ => True
  end.
Proof.
  unfold leaseHeld. destruct (tasks m !! id) as [rec|]; [|done]. destruct (_ || _) eqn:E; [done|].
  unfold IsZero in E. unbool. split_and!; try done. destruct (LeaseUntil (task rec) =? 0) eqn:E0; unbool; [by left|].
  right. simpl in *. unbool. lia.
Qed.

(** The four operations of a lease holder. *)
Lemma holder_law id consumer now m (f : memRecord → memRecord) v : mem_ok m →
  (∀ rec, ID (task (f rec)) = ID (task rec)) →
  (∀ rec, LeaseOwner (task rec) = consumer → view_of (f rec) = v) →
  let '(m', e) := match leaseHeld id consumer now m with Err e => (m, Some e) | Ok rec => (putRec id (f rec) m, None) end in
  mem_ok m' ∧ holder_moves (mem_views m) (mem_views m') id consumer v e.
Proof.
  intros Hm Hid Hv. pose proof (held_spec id consumer now m) as H.
  destruct (leaseHeld id consumer now m) as [rec|e]; [|done]. destruct H as (Hk & Hs & Ho & _). split.
  - apply put_ok; [done|]. rewrite Hid. by apply Hm.
  - unfold holder_moves. rewrite put_views, Hv by done. split; [|done].
    unfold mem_views. rewrite lookup_fmap, Hk. simpl. unfold view_of. by rewrite Hs, Ho.
Qed.

(** *** Walking the map *)

Lemma mapOrder_elem order m id : id ∈ mapOrder order m ↔ is_Some (tasks m !! id).
Proof. apply keysIn_elem. Qed.

Lemma mapOrder_nodup order m : NoDup (mapOrder order m).
Proof. apply keysIn_nodup. Qed.

Lemma walk_elem P order m id rec : (id, rec) ∈ walk P order m ↔ tasks m !! id = Some rec ∧ P rec = true.
Proof.
  unfold walk. rewrite list_elem_of_omap. split.
  - intros (k & Hk & E). destruct (tasks m !! k) as [r|] eqn:Er; [|done]. simpl in E.
    destruct (P r) eqn:Ep; [|done]. by injection E as -> ->.
  - intros [Hr Hp]. exists id. split; [apply mapOrder_elem; by eexists|]. rewrite Hr. simpl. by rewrite Hp.
Qed.

Lemma walk_nodup P order m : NoDup (walk P order m).*1.
Proof.
  unfold walk. induction (mapOrder_nodup order m) as [|id l Hid Hnd IH]; simpl; [constructor|].
  destruct (tasks m !! id) as [rec|]; simpl; [|done]. destruct (P rec); [|done]. csimpl. constructor; [|done].
  intros ([k r] & -> & Hin)%list_elem_of_fmap. simpl in Hid. apply Hid.
  apply list_elem_of_omap in Hin as (k' & Hk' & E). destruct (tasks m !! k') as [r'|]; [|done]. simpl in E.
  destruct (P r'); [|done]. by injection E as -> _.
Qed.

(** Updating the first [n] of the sorted walk. *)
Section update.
Context (P : memRecord → bool) (R : relation (gostring * memRecord)) `{!RelDecision R}
  (f : memRecord → memRecord) (order : list gostring) (n : nat) (m : MemStore).

Definition chosen : list (gostring * memRecord) := take n (merge_sort R (walk P order m)).
Definition updated : gmap gostring memRecord := list_to_map ((λ c, (c.1, f c.2)) <$> chosen).

Lemma chosen_elem id rec : (id, rec) ∈ chosen → tasks m !! id = Some rec ∧ P rec = true.
Proof.
  intros H. apply (walk_elem P order). rewrite <- (merge_sort_Permutation R).
  by eapply elem_of_sublist; [exact H|apply sublist_take].
Qed.

Lemma chosen_nodup : NoDup chosen.*1.
Proof.
  unfold chosen. rewrite fmap_take. eapply sublist_NoDup; [|apply sublist_take].
  rewrite merge_sort_Permutation. apply walk_nodup.
Qed.

Lemma updated_fst : ((λ c : gostring * memRecord, (c.1, f c.2)) <$> chosen).*1 = chosen.*1.
Proof. rewrite <- list_fmap_compose. by apply list_fmap_ext. Qed.

Lemma updated_in id rec : (id, rec) ∈ chosen → updated !! id = Some (f rec).
Proof.
  intros H. apply elem_of_list_to_map_1; [rewrite updated_fst; apply chosen_nodup|].
  apply list_elem_of_fmap. by exists (id, rec).
Qed.
Lemma updated_out id : id ∉ chosen.*1 → updated !! id = None.
Proof. intros H. apply not_elem_of_list_to_map_1. by rewrite updated_fst. Qed.
Lemma chosen_cases id : (∃ rec, (id, rec) ∈ chosen) ∨ id ∉ chosen.*1.
Proof.
  destruct (decide (id ∈ chosen.*1)) as [H|H]; [left|by right].
  apply list_elem_of_fmap in H as ([k r] & -> & H). by exists r.
Qed.
End update.

(** *** Reserve and replay *)

(** The options with the defaults of [Reserve] filled in. *)
Definition effective (o : ReserveOptions) (now : Z) : ReserveOptions :=
  MkReserve (Topics o) (Limit o) (if Lease o <=? 0 then DefaultLeaseDuration else Lease o) (ConsumerID o)
    (if IsZero (roNow o) then now else roNow o).

(** The records [Reserve] selects, before their update. *)
Definition selection (o : ReserveOptions) (order : list gostring) (now : Z) m : list (gostring * memRecord) :=
  chosen (candidate (Topics o) (roNow (effective o now))) notAfter order (Z.to_nat (Limit o)) m.

Lemma Reserve_eq o order now m : 0 < Limit o → Reserve o order now m =
  (setRecs m (updated (candidate (Topics o) (roNow (effective o now))) notAfter (leaseRec (effective o now)) order
                (Z.to_nat (Limit o)) m ∪ (markExpired (roNow (effective o now)) <$> tasks m)),
   Ok ((λ c, task (leaseRec (effective o now) c.2)) <$> selection o order now m)).
Proof.
  intros Hl. unfold Reserve. rewrite (proj2 (Z.leb_gt _ _)) by done. cbv zeta. f_equal. f_equal.
  by rewrite <- list_fmap_compose.
Qed.

Lemma selection_ids o order now m : mem_ok m →
  ID <$> ((λ c, task (leaseRec (effective o now) c.2)) <$> selection o order now m) = (selection o order now m).*1.
Proof.
  intros Hm. rewrite <- list_fmap_compose. apply list_fmap_ext. intros i [id rec] Hi. simpl.
  apply list_elem_of_lookup_2, chosen_elem in Hi as [Hi _]. by apply Hm.
Qed.

Lemma candidate_queued topics now rec : candidate topics now rec = true → status rec = TaskStatusQueued.
Proof. unfold candidate. rewrite !andb_true_iff. intros [[[H _] _] _]. by unbool. Qed.

Lemma mem_reserve_law o order now m : mem_ok m → let '(m', r) := Reserve o order now m in mem_ok m' ∧
  match r with
  | Ok ts =>
      NoDup (ID <$> ts) ∧ Z.of_nat (length ts) ≤ Z.max 0 (Limit o) ∧
      (∀ id, id ∈ ID <$> ts → mem_views m !! id = Some VQueued ∧ mem_views m' !! id = Some (VLeased (ConsumerID o))) ∧
      (∀ id, id ∉ ID <$> ts → mem_views m' !! id = mem_views m !! id ∨
                              mem_views m !! id = Some VQueued ∧ mem_views m' !! id = Some VExpired)
  | Err _ => mem_views m' = mem_views m
  end.
Proof.
  intros Hm. destruct (decide (0 < Limit o)) as [Hl|Hl].
  2: { unfold Reserve. rewrite (proj2 (Z.leb_le _ _)) by lia. split; [done|]. simpl.
       split; [constructor|]. split; [lia|]. split; [intros ? []%not_elem_of_nil|by left]. }
  rewrite Reserve_eq by done. rewrite selection_ids by done. unfold selection.
  set (P := candidate _ _). set (f := leaseRec _). set (ex := markExpired _).
  assert (Hpost : ∀ id, (∃ rec, (id, rec) ∈ chosen P notAfter order (Z.to_nat (Limit o)) m ∧
      (updated P notAfter f order (Z.to_nat (Limit o)) m ∪ (ex <$> tasks m)) !! id = Some (f rec)) ∨
    id ∉ (chosen P notAfter order (Z.to_nat (Limit o)) m).*1 ∧
      (updated P notAfter f order (Z.to_nat (Limit o)) m ∪ (ex <$> tasks m)) !! id = ex <$> tasks m !! id).
  { intros id. destruct (chosen_cases P notAfter order (Z.to_nat (Limit o)) m id) as [[rec Hin]|Hout].
    - left. exists rec. split; [done|]. apply lookup_union_Some_l. by apply updated_in.
    - right. split; [done|]. rewrite lookup_union_r by by apply updated_out. apply lookup_fmap. }
  split_and!.
  - intros id rec. simpl. destruct (Hpost id) as [(r & Hin & ->)|[_ ->]].
    + intros [= <-]. apply chosen_elem in Hin as [Hin _]. by apply Hm in Hin.
    + destruct (tasks m !! id) as [r|] eqn:Er; [|done]. intros [= <-]. apply Hm in Er. unfold ex, markExpired.
      by case_match.
  - apply chosen_nodup.
  - rewrite length_fmap. unfold chosen. rewrite length_take. lia.
  - intros id ([k rec] & -> & Hin)%list_elem_of_fmap. simpl. unfold mem_views at 1. rewrite lookup_fmap.
    pose proof (chosen_elem _ _ _ _ _ _ _ Hin) as [Hk Hp]. rewrite Hk. simpl. split.
    + unfold view_of. by rewrite (candidate_queued _ _ _ Hp).
    + unfold mem_views. rewrite lookup_fmap. simpl. rewrite lookup_union_Some_l with (x := f rec); [done|].
      by apply updated_in.
  - intros id Hout. unfold mem_views. rewrite !lookup_fmap. simpl.
    destruct (Hpost id) as [(r & Hin & _)|[_ ->]]; [destruct Hout; apply list_elem_of_fmap; by exists (id, r)|].
    destruct (tasks m !! id) as [r|]; simpl; [|by left]. unfold ex, markExpired.
    destruct (bool_decide _) eqn:Es; simpl; [|by left]. case_match; [|by left]. right. unbool. unfold view_of.
    by rewrite Es.
Qed.

Lemma mem_replay_law o order now m : mem_ok m → let '(m', _) := ReplayDLQ o order now m in mem_ok m' ∧
  ∀ id, mem_views m' !! id = mem_views m !! id ∨ mem_views m !! id = Some VDead ∧ mem_views m' !! id = Some VQueued.
Proof.
  intros Hm. unfold ReplayDLQ. case_decide; [split; [done|by left]|]. set (n := Z.to_nat _).
  set (P := λ rec, bool_decide (status rec = TaskStatusDead)). set (f := replayRec _ _ _).
  change (list_to_map _) with (updated P olderUpdate f order n m).
  assert (Hpost : ∀ id, (∃ rec, tasks m !! id = Some rec ∧ status rec = TaskStatusDead ∧
      (updated P olderUpdate f order n m ∪ tasks m) !! id = Some (f rec)) ∨
    (updated P olderUpdate f order n m ∪ tasks m) !! id = tasks m !! id).
  { intros id. destruct (chosen_cases P olderUpdate order n m id) as [[rec Hin]|Hout].
    - left. exists rec. pose proof (chosen_elem _ _ _ _ _ _ _ Hin) as [Hk Hp]. unfold P in Hp. unbool.
      split; [done|]. split; [done|]. apply lookup_union_Some_l. by apply updated_in.
    - right. by rewrite lookup_union_r by by apply updated_out. }
  split.
  - intros id rec. simpl. destruct (Hpost id) as [(r & Hr & _ & ->)| -> ]; [|apply Hm]. intros [= <-]. by apply Hm in Hr.
  - intros id. unfold mem_views. rewrite !lookup_fmap. simpl.
    destruct (Hpost id) as [(r & Hr & Hs & ->)| -> ]; [right|by left]. rewrite Hr. simpl. unfold view_of at 1. by rewrite Hs.
Qed.

#[global] Instance mem_laws : TaskStoreLaws MemStore.
Proof.
  refine {| views := mem_views; store_ok := mem_ok |}; simpl.
  - intros t m Hm. unfold Insert. destruct (tasks m !! ID t) eqn:Et; [done|].
    assert (Hv : mem_views m !! ID t = None) by (unfold mem_views; by rewrite lookup_fmap, Et).
    case_decide; [|destruct (dedupe m !! _); [done|]]; (split; [by apply put_ok|]; split; [done|]; by rewrite put_views).
  - apply mem_reserve_law.
  - intros id c now m Hm. by apply (holder_law id c now m (λ rec, MkRec (setTask (task rec) _ _ [] 0 now) _ _ _)).
  - intros id c o m Hm. by apply (holder_law id c (relNow o) m (λ rec, MkRec (setTask (task rec) _ _ [] 0 _) _ _ _)).
  - intros id c why now m Hm. by apply (holder_law id c now m (λ rec, MkRec (setTask (task rec) _ _ [] 0 now) _ _ _)).
  - intros id c lease now m Hm.
    apply (holder_law id c now m (λ rec, MkRec (setTask (task rec) _ _ (LeaseOwner (task rec)) _ now) _ _ _)); [done|done|].
    intros rec <-. done.
  - apply mem_replay_law.
Defined.
End laws.
