(* ===== verification/TaskQueueProps.v ===== *)
(** * Guarantees of the task queue

    Histories of queue operations and worker steps, over any store that keeps the
    laws: a lease is exclusive, an acknowledged task is never delivered again. For
    the in-memory store also the order of delivery, and the fate of expired leases. *)

From stdpp Require Import options.
From stdpp Require Import sorting.
From S2P Require Import Prelude GoStrings GoNumbers TaskQueue MemStore.
Import MQ.
#[local] Open Scope Z_scope.

Inductive qop :=
| QEnqueue (t : Task) (o : EnqueueOptions)
| QReserve (o : ReserveOptions) (order : list gostring)
| QAck (id consumer : gostring) (at_ : Z)
| QRelease (id consumer : gostring) (o : ReleaseOptions)
| QMoveToDLQ (id consumer why : gostring) (at_ : Z)
| QExtend (id consumer : gostring) (lease at_ : Z)
| QReplay (o : ReplayOptions) (order : list gostring)
| QHandle (consumer : gostring) (completed : bool) (handler : option (option gostring)) (leaseLost : bool) (t : Task).

Inductive qres :=
| RErr (e : option mqErr) | RTasks (r : result mqErr (list Task)) | RReplayed (n : Z * Z) | RHandled (o : outcome).

(** The tasks an operation hands out. *)
Definition delivered (r : qres) : list gostring :=
  match r with RTasks (Ok ts) => ID <$> ts | _ => [] end.

(** The operations with which a consumer may give a task back; whether it did shows in the
    state of the task ([returned]). *)
Definition gives_back (o : qop) (c id : gostring) : Prop :=
  match o with
  | QRelease id' c' _ | QMoveToDLQ id' c' _ _ => id' = id ∧ c' = c
  | QHandle c' _ _ _ t => ID t = id ∧ c' = c
  | _ => False
  end.

Section histories.
Context {St : Type} `{!TaskStore St, !DLQReplayer St, !TaskStoreLaws St} (nextDelay : Task → Z).
Implicit Types (s : St) (id c : gostring) (now : Z).

Definition qstep (o : qop) now s : St * qres :=
  match o with
  | QEnqueue t o => let '(s, e) := Enqueue t o now s in (s, RErr e)
  | QReserve o order => let '(s, r) := ReserveTasks o order now s in (s, RTasks r)
  | QAck id c at_ => let '(s, e) := AckTask id c at_ now s in (s, RErr e)
  | QRelease id c o => let '(s, e) := ReleaseTask id c o now s in (s, RErr e)
  | QMoveToDLQ id c why at_ => let '(s, e) := MoveTaskToDLQ id c why at_ now s in (s, RErr e)
  | QExtend id c lease at_ => let '(s, e) := ExtendTaskLease id c lease at_ now s in (s, RErr e)
  | QReplay o order => let '(s, n) := ReplayDLQ o order now s in (s, RReplayed n)
  | QHandle c completed handler leaseLost t =>
      let '(s, r) := handleTask nextDelay c completed handler leaseLost t now s in (s, RHandled r)
  end.

Fixpoint qrun (es : list (qop * Z)) s : St * list qres :=
  match es with
  | [] => (s, [])
  | (o, now) :: es => let '(s, r) := qstep o now s in let '(s, rs) := qrun es s in (s, r :: rs)
  end.

(** ** One step *)

(** A move changes only the task it names, and only for the holder of its lease. *)
Lemma moves_cases (vs vs' : gmap gostring view) id' c' v e id w : holder_moves vs vs' id' c' v e →
  vs !! id = Some w → vs' !! id = Some w ∨ (id' = id ∧ w = VLeased c' ∧ vs' !! id = Some v).
Proof.
  unfold holder_moves. destruct e; [intros ->; by left|]. intros [Hl ->] Hw.
  destruct (decide (id' = id)) as [->|Hne]; [right|left; by rewrite lookup_insert_ne].
  rewrite Hw in Hl. injection Hl as ->. by rewrite lookup_insert_eq.
Qed.

(** The task is queued again or among the dead letters. *)
Definition returned s id : Prop := views s !! id = Some VQueued ∨ views s !! id = Some VDead.

(** The task is still with its holder or done, or the holder gave it back. *)
Definition keeps (o : qop) s' id w : Prop :=
  views s' !! id = Some w ∨ ∃ c, w = VLeased c ∧ (views s' !! id = Some VDone ∨ gives_back o c id ∧ returned s' id).

Section step.
Context s id w (Hs : store_ok s) (Hw : views s !! id = Some w) (Hleft : w = VDone ∨ ∃ c, w = VLeased c).

Lemma enqueue_keeps o t eo now : let '(s', e) := Enqueue t eo now s in store_ok s' ∧ keeps o s' id w.
Proof using Hs Hw.
  assert (Hsame : store_ok s ∧ keeps o s id w) by (split; [done|by left]).
  unfold Enqueue. case_decide as Hid; [done|]. destruct (validateTopic _); [done|]. destruct (_ && _); [done|].
  pose proof (insert_law (prepare t eo now) s Hs) as H. destruct (Insert _ s) as [s' [e|]]; destruct H as [Hs' H];
    (split; [done|]; left).
  - by rewrite H.
  - destruct H as [Hnone ->]. rewrite lookup_insert_ne; [done|]. intros E. rewrite <- E, Hnone in Hw. done.
Qed.

Lemma reserve_keeps o ro order now : let '(s', r) := ReserveTasks ro order now s in
  store_ok s' ∧ keeps o s' id w ∧ id ∉ delivered (RTasks r).
Proof using Hs Hw Hleft.
  assert (Hsame : store_ok s ∧ keeps o s id w ∧ id ∉ []) by (split; [done|split; [by left|apply not_elem_of_nil]]).
  unfold ReserveTasks. case_decide as Hcons; [done|]. destruct (_ <=? 0); [done|]. set (ro' := MkReserve _ _ _ _ _).
  pose proof (reserve_law ro' order now s Hs) as H. destruct (Reserve ro' order now s) as [s' [ts|e]]; destruct H as [Hs' H].
  - destruct H as (_ & _ & Hin & Hout). split; [done|]. simpl. assert (Hnin : id ∉ ID <$> ts).
    { intros Hin'. apply Hin in Hin' as [Hq _]. rewrite Hw in Hq. injection Hq as ->. destruct Hleft as [?|[? ?]]; done. }
    split; [|done]. left. destruct (Hout id Hnin) as [->|[Hq _]]; [done|].
    rewrite Hw in Hq. injection Hq as ->. destruct Hleft as [?|[? ?]]; done.
  - split; [done|]. split; [left; by rewrite H|apply not_elem_of_nil].
Qed.

(** The outcome of a lease holder's operation [op], which moves the task to [v]. *)
Lemma holder_keeps o id' c' v (op : St * option mqErr) :
  (let '(s', e) := op in store_ok s' ∧ holder_moves (views s) (views s') id' c' v e) →
  (v = VDone ∨ v = VLeased c' ∨ (v = VQueued ∨ v = VDead) ∧ (id' = id → gives_back o c' id)) →
  store_ok op.1 ∧ keeps o op.1 id w.
Proof using Hw Hleft.
  destruct op as [s' e]. intros [Hs' Hm] Hv. split; [done|].
  destruct (moves_cases _ _ _ _ _ _ id w Hm Hw) as [Hsame|(-> & -> & Hnew)]; [by left|].
  destruct Hv as [->|[->|[Hv Hg]]]; [right|by left|right]; exists c'; (split; [done|]); [by left|right].
  split; [by apply Hg|]. destruct Hv as [->| ->]; [by left|by right].
Qed.

Lemma fail_keeps c' b h ll t why now :
  store_ok (failTask nextDelay c' t why now s) ∧ keeps (QHandle c' b h ll t) (failTask nextDelay c' t why now s) id w.
Proof using Hs Hw Hleft.
  unfold failTask. destruct (_ <=? _).
  - apply (holder_keeps _ (ID t) c' VDead); [by apply dlq_law|]. right. right. split; [auto|]. intros E. simpl. by rewrite E.
  - apply (holder_keeps _ (ID t) c' VQueued); [by apply release_law|]. right. right. split; [auto|]. intros E. simpl. by rewrite E.
Qed.

Lemma step_safe o now : let '(s', r) := qstep o now s in store_ok s' ∧ keeps o s' id w ∧ id ∉ delivered r.
Proof using Hs Hw Hleft.
  assert (Hnil : ∀ (s' : St), store_ok s' ∧ keeps o s' id w → store_ok s' ∧ keeps o s' id w ∧ id ∉ []).
  { intros s' [? ?]. split_and!; [done..|apply not_elem_of_nil]. }
  destruct o as [t eo|ro order|id' c' at_|id' c' lo|id' c' why at_|id' c' lease at_|po order|c' b h ll t]; simpl.
  - pose proof (enqueue_keeps (QEnqueue t eo) t eo now) as H. destruct (Enqueue t eo now s). by apply Hnil.
  - pose proof (reserve_keeps (QReserve ro order) ro order now) as H. by destruct (ReserveTasks ro order now s).
  - pose proof (holder_keeps (QAck id' c' at_) id' c' VDone (AckTask id' c' at_ now s) (ack_law _ _ _ _ Hs)) as H.
    destruct (AckTask id' c' at_ now s). apply Hnil, H. by left.
  - pose proof (holder_keeps (QRelease id' c' lo) id' c' VQueued (ReleaseTask id' c' lo now s) (release_law _ _ _ _ Hs)) as H.
    destruct (ReleaseTask id' c' lo now s). apply Hnil, H. right. right. split; [auto|]. by intros ->.
  - pose proof (holder_keeps (QMoveToDLQ id' c' why at_) id' c' VDead (MoveTaskToDLQ id' c' why at_ now s)
      (dlq_law _ _ _ _ _ Hs)) as H.
    destruct (MoveTaskToDLQ id' c' why at_ now s). apply Hnil, H. right. right. split; [auto|]. by intros ->.
  - pose proof (holder_keeps (QExtend id' c' lease at_) id' c' (VLeased c') (ExtendTaskLease id' c' lease at_ now s)
      (extend_law _ _ _ _ _ Hs)) as H.
    destruct (ExtendTaskLease id' c' lease at_ now s). apply Hnil, H. right. by left.
  - pose proof (replay_law po order now s Hs) as H. destruct (ReplayDLQ po order now s) as [s' n]. destruct H as [Hs' H].
    apply Hnil. split; [done|]. left. destruct (H id) as [->|[Hd _]]; [done|]. rewrite Hw in Hd. injection Hd as ->.
    destruct Hleft as [?|[? ?]]; done.
  - unfold handleTask. destruct (_ && _); [|destruct b; [|destruct h as [err|]; [destruct ll; [|destruct err as [why|]]|]]]; apply Hnil.
    + apply (holder_keeps _ (ID t) c' VDead); [by apply dlq_law|]. right. right. split; [auto|]. intros E. simpl. by rewrite E.
    + apply (holder_keeps _ (ID t) c' VDone); [by apply ack_law|by left].
    + split; [done|by left].
    + apply fail_keeps.
    + apply (holder_keeps _ (ID t) c' VDone); [by apply ack_law|by left].
    + apply fail_keeps.
Qed.
End step.

(** ** Histories *)

Lemma qrun_length es s : length (qrun es s).2 = length es.
Proof.
  revert s. induction es as [|[o now] es IH]; intros s; simpl; [done|]. destruct (qstep o now s) as [s1 r].
  specialize (IH s1). destruct (qrun es s1). simpl in *. by rewrite IH.
Qed.

Lemma law_fst {A} (p : St * A) (Q : St → A → Prop) : (let '(s', a) := p in store_ok s' ∧ Q s' a) → store_ok p.1.
Proof. destruct p. by intros [? _]. Qed.

Lemma ops_store_ok s : store_ok s →
  (∀ t o now, store_ok (Enqueue t o now s).1) ∧ (∀ o order now, store_ok (ReserveTasks o order now s).1) ∧
  (∀ id c at_ now, store_ok (AckTask id c at_ now s).1) ∧ (∀ id c o now, store_ok (ReleaseTask id c o now s).1) ∧
  (∀ id c why at_ now, store_ok (MoveTaskToDLQ id c why at_ now s).1) ∧
  (∀ id c lease at_ now, store_ok (ExtendTaskLease id c lease at_ now s).1) ∧
  (∀ o order now, store_ok (ReplayDLQ o order now s).1).
Proof.
  intros Hs. split_and!; intros.
  - unfold Enqueue. case_decide; [done|]. destruct (validateTopic _); [done|]. destruct (_ && _); [done|].
    by eapply law_fst, insert_law.
  - unfold ReserveTasks. case_decide; [done|]. destruct (_ <=? 0); [done|]. by eapply law_fst, reserve_law.
  - by eapply law_fst, ack_law.
  - by eapply law_fst, release_law.
  - by eapply law_fst, dlq_law.
  - by eapply law_fst, extend_law.
  - by eapply law_fst, replay_law.
Qed.

Lemma step_store_ok o now s : store_ok s → store_ok (qstep o now s).1.
Proof.
  intros Hs. destruct (ops_store_ok s Hs) as (H1 & H2 & H3 & H4 & H5 & H6 & H7).
  destruct o as [t eo|ro order|id' c' at_|id' c' lo|id' c' why at_|id' c' lease at_|po order|c' b h ll t]; simpl.
  - specialize (H1 t eo now). by destruct (Enqueue t eo now s).
  - specialize (H2 ro order now). by destruct (ReserveTasks ro order now s).
  - specialize (H3 id' c' at_ now). by destruct (AckTask id' c' at_ now s).
  - specialize (H4 id' c' lo now). by destruct (ReleaseTask id' c' lo now s).
  - specialize (H5 id' c' why at_ now). by destruct (MoveTaskToDLQ id' c' why at_ now s).
  - specialize (H6 id' c' lease at_ now). by destruct (ExtendTaskLease id' c' lease at_ now s).
  - specialize (H7 po order now). by destruct (ReplayDLQ po order now s).
  - unfold handleTask, failTask. repeat case_match; simplify_eq/=; auto.
Qed.

(** What a client sees of the task before step [l]. *)
Definition seenAt es s id (l : nat) : option view := views (qrun (take l es) s).1 !! id.

Lemma seenAt_S o now es s id l : seenAt ((o, now) :: es) s id (S l) = seenAt es (qstep o now s).1 id l.
Proof. unfold seenAt. simpl. destruct (qstep o now s) as [s1 r]. simpl. by destruct (qrun (take l es) s1). Qed.

(** The consumer holds the lease up to step [k], which gives the task back. *)
Definition givenBack es s id c (k : nat) : Prop :=
  (∃ o now, es !! k = Some (o, now) ∧ gives_back o c id) ∧ (∀ l, (l ≤ k)%nat → seenAt es s id l = Some (VLeased c)) ∧
  (seenAt es s id (S k) = Some VQueued ∨ seenAt es s id (S k) = Some VDead).

(** From the lease to the next delivery of a task, its holder gives it back. *)
Lemma run_exclusive es s id c w j r : store_ok s → views s !! id = Some w → w = VLeased c ∨ w = VDone →
  (qrun es s).2 !! j = Some r → id ∈ delivered r → w = VLeased c ∧ ∃ k, (k < j)%nat ∧ givenBack es s id c k.
Proof.
  revert s w j. induction es as [|[o now] es IH]; intros s w j Hs Hw Hcase; [done|].
  pose proof (step_safe s id w Hs Hw) as Hstep.
  assert (w = VDone ∨ ∃ c, w = VLeased c) as Hl by naive_solver. specialize (Hstep Hl o now).
  pose proof (λ l, seenAt_S o now es s id l) as HS.
  assert (H0 : seenAt ((o, now) :: es) s id 0 = Some w) by done. cbn [qrun].
  destruct (qstep o now s) as [s1 r1]. destruct Hstep as (Hs1 & Hk & Hd). simpl in HS.
  specialize (IH s1). destruct (qrun es s1) as [s2 rs]. simpl. destruct j as [|j]; simpl; [by intros [= <-]|].
  intros Hj Hin. destruct Hk as [Hsame|(c' & -> & [Hdone|[Hg Hret]])].
  - destruct (IH w j Hs1 Hsame Hcase Hj Hin) as (-> & k & Hlt & (o' & now' & He & Hg) & Hheld & Hret).
    split; [done|]. exists (S k). split; [lia|]. split; [by exists o', now'|]. rewrite HS. split; [|done].
    intros [|l] Hle; [done|]. rewrite HS. apply Hheld. lia.
  - by destruct (IH VDone j Hs1 Hdone (or_intror eq_refl) Hj Hin) as [Hc _].
  - destruct Hcase as [[= ->]|]; [|done]. split; [done|]. exists 0%nat. split; [lia|]. split; [by exists o, now|].
    split; [|by rewrite HS]. intros l Hle. by replace l with 0%nat by lia.
Qed.

Lemma qrun_app es es' s : qrun (es ++ es') s =
  let '(s1, rs) := qrun es s in let '(s2, rs') := qrun es' s1 in (s2, rs ++ rs').
Proof.
  revert s. induction es as [|[o now] es IH]; intros s; simpl; [by destruct (qrun es' s)|].
  destruct (qstep o now s) as [s1 r]. rewrite IH. destruct (qrun es s1) as [s2 rs]. by destruct (qrun es' s2).
Qed.

Lemma qrun_ok es s : store_ok s → store_ok (qrun es s).1.
Proof.
  revert s. induction es as [|[o now] es IH]; intros s Hs; simpl; [done|].
  pose proof (step_store_ok o now s Hs) as H1. destruct (qstep o now s) as [s1 r]. specialize (IH s1 H1).
  by destruct (qrun es s1).
Qed.

(** The state and the rest of the history after the step at position [i]. *)
Lemma qrun_split es s i o now r : store_ok s → es !! i = Some (o, now) → (qrun es s).2 !! i = Some r →
  ∃ s1 s2, store_ok s1 ∧ store_ok s2 ∧ qstep o now s1 = (s2, r) ∧
    (∀ j, (qrun es s).2 !! (i + 1 + j)%nat = (qrun (drop (i + 1) es) s2).2 !! j) ∧
    ∀ j id, seenAt es s id (i + 1 + j) = seenAt (drop (i + 1) es) s2 id j.
Proof.
  intros Hs He Hr.  pose proof (drop_S es _ _ He) as Hdrop. assert (E : qrun es s = qrun (take i es ++ (o, now) :: drop (S i) es) s) by (by rewrite take_drop_middle).
  rewrite E in Hr |- *. clear E.
  assert (Hlen : length (take i es) = i) by (apply length_take_le; apply lookup_lt_Some in He; lia).
  assert (Hl1 : length (qrun (take i es) s).2 = i) by (by rewrite qrun_length).
  pose proof (qrun_ok (take i es) s Hs) as Hok. rewrite qrun_app in Hr |- *.
  destruct (qrun (take i es) s) as [s1 rs1] eqn:Ei. simpl in *. pose proof (step_store_ok o now s1 Hok) as Hok2.
  destruct (qstep o now s1) as [s2 r'] eqn:Est. exists s1, s2. rewrite Nat.add_1_r.
  assert (Hseen : ∀ j id, seenAt es s id (S i + j) = seenAt (drop (S i) es) s2 id j).
  { intros j id. unfold seenAt. replace (S i + j)%nat with (i + S j)%nat by lia.
    rewrite <- (take_drop i es) at 1. rewrite take_app_add' by done. rewrite Hdrop, qrun_app.
    simpl. rewrite Ei. rewrite Est. by destruct (qrun (take j (drop (S i) es)) s2). }
  destruct (qrun (drop (S i) es) s2) as [s3 rs3]. simpl in *. rewrite lookup_app_r in Hr by lia.
  rewrite Hl1, Nat.sub_diag in Hr. injection Hr as ->. split_and!; [done..| |done]. intros j. rewrite lookup_app_r by lia.
  rewrite Hl1. by replace (S (i + j) - i)%nat with (S j) by lia.
Qed.

(** C6: a lease is exclusive: in any history of queue operations and worker steps one at a
    time, over any store that keeps the laws, with any clocks and any order of walking the
    store, when a task is handed out to a consumer and later handed out again, then in
    between that very consumer has released it or moved it to the dead letters, itself or
    through its worker, with success; up to that moment the task was leased to it without
    interruption. (This holds also when the lease time has run out: nothing takes an
    expired lease back.) *)
Theorem mq_exclusive_lease es s i j o order now ri rj id : store_ok s → (i < j)%nat →
  es !! i = Some (QReserve o order, now) → (qrun es s).2 !! i = Some ri → (qrun es s).2 !! j = Some rj →
  id ∈ delivered ri → id ∈ delivered rj →
  ∃ k op now', (i < k < j)%nat ∧ es !! k = Some (op, now') ∧ gives_back op (ConsumerID o) id ∧
    (∀ l, (i < l ≤ k)%nat → seenAt es s id l = Some (VLeased (ConsumerID o))) ∧
    (seenAt es s id (S k) = Some VQueued ∨ seenAt es s id (S k) = Some VDead).
Proof.
  intros Hs Hij He Hri Hrj Hi Hj. destruct (qrun_split es s i _ _ _ Hs He Hri) as (s1 & s2 & H1 & H2 & Est & Hlater & Hseen).
  replace j with (i + 1 + (j - i - 1))%nat in Hrj by lia. rewrite Hlater in Hrj.
  assert (Hv : views s2 !! id = Some (VLeased (ConsumerID o))).
  { simpl in Est. unfold ReserveTasks in Est. case_decide; [by simplify_eq/=; apply not_elem_of_nil in Hi|].
    destruct (_ <=? 0); [by simplify_eq/=; apply not_elem_of_nil in Hi|].
    pose proof (reserve_law (MkReserve (Topics o) (Limit o) (if Lease o <=? 0 then DefaultLeaseDuration else Lease o)
      (ConsumerID o) (if IsZero (roNow o) then now else roNow o)) order now s1 H1) as Hl.
    destruct (Reserve _ order now s1) as [s' [ts|e]]; simplify_eq/=; [|by apply not_elem_of_nil in Hi].
    destruct Hl as (_ & _ & _ & Hin & _). by apply Hin. }
  destruct (run_exclusive _ s2 id (ConsumerID o) _ _ _ H2 Hv (or_introl eq_refl) Hrj Hj)
    as (_ & k & Hk & (op & now' & Hop & Hg) & Hheld & Hret).
  rewrite lookup_drop in Hop. exists (i + 1 + k)%nat, op, now'. split; [lia|]. split; [done|]. split; [done|]. split.
  - intros l Hl. replace l with (i + 1 + (l - i - 1))%nat by lia. rewrite Hseen. apply Hheld. lia.
  - replace (S (i + 1 + k)) with (i + 1 + S k)%nat by lia. by rewrite Hseen.
Qed.

(** An acknowledged task is finished: once [Ack] has succeeded, no later operation
    hands the task out again. *)
Theorem mq_ack_final es s i j id c at_ now rj : store_ok s → (i < j)%nat →
  es !! i = Some (QAck id c at_, now) → (qrun es s).2 !! i = Some (RErr None) →
  (qrun es s).2 !! j = Some rj → id ∉ delivered rj.
Proof.
  intros Hs Hij He Hri Hrj Hj. destruct (qrun_split es s i _ _ _ Hs He Hri) as (s1 & s2 & H1 & H2 & Est & Hlater & _).
  replace j with (i + 1 + (j - i - 1))%nat in Hrj by lia. rewrite Hlater in Hrj. simpl in Est.
  unfold AckTask in Est. pose proof (ack_law id c (if IsZero at_ then now else at_) s1 H1) as Hl.
  destruct (Ack _ _ _ s1) as [s' e]. simplify_eq/=. destruct Hl as [_ [_ Hv]].
  assert (Hd : views s2 !! id = Some VDone) by by rewrite Hv, lookup_insert_eq.
  by destruct (run_exclusive _ s2 id c VDone _ _ H2 Hd (or_intror eq_refl) Hrj Hj) as [Hc _].
Qed.
End histories.

(** ** The in-memory store *)

Section memory.
Import MemStore.
Implicit Types (m : MemStore) (id : gostring) (rec : memRecord) (now : Z).

#[local] Instance notAfter_total : Total notAfter.
Proof. intros a b. unfold notAfter, taskBefore. repeat case_match; unbool; lia. Qed.
#[local] Instance notAfter_trans : Transitive notAfter.
Proof. intros a b c. unfold notAfter, taskBefore. repeat case_match; unbool; try done; lia. Qed.

(** A task may be handed out: queued, not expired, due, and of a requested topic. *)
Definition eligible (o : ReserveOptions) now rec : Prop :=
  status rec = TaskStatusQueued ∧ (ExpiresAt (task rec) = 0 ∨ roNow (effective o now) < ExpiresAt (task rec)) ∧
  AvailableAt (task rec) ≤ roNow (effective o now) ∧ (Topics o = [] ∨ Topic (task rec) ∈ Topics o).

Lemma candidate_spec o now rec : candidate (Topics o) (roNow (effective o now)) rec = true ↔ eligible o now rec.
Proof.
  assert (Ht : topicAllowed (Topic (task rec)) (Topics o) = true ↔ Topic (task rec) ∈ Topics o).
  { unfold topicAllowed. rewrite existsb_exists. split; [|intros H; exists (Topic (task rec)); split; [by apply list_elem_of_In|by apply bool_decide_eq_true]].
    intros (t & Hin%list_elem_of_In & E). unbool. by subst. }
  unfold candidate, eligible, expiredAt, IsZero.
  rewrite !andb_true_iff, orb_true_iff, !bool_decide_eq_true, negb_true_iff, andb_false_iff, negb_false_iff, Z.eqb_eq, Z.leb_gt,
    Z.leb_le, Ht. tauto.
Qed.

(** [Reserve] hands out the best tasks: exactly as many as the limit allows of the
    eligible ones, in order of priority and then age, and no eligible task that is
    left behind comes before one that is handed out. *)
Theorem mq_reserve_best o order now m m' ts : mem_ok m → 0 < Limit o → Reserve o order now m = (m', Ok ts) →
  StronglySorted (λ a b, taskBefore b a = false) ts ∧
  (∀ t, t ∈ ts → ∃ rec, tasks m !! ID t = Some rec ∧ eligible o now rec) ∧
  (∀ id rec, tasks m !! id = Some rec → eligible o now rec → id ∈ ID <$> ts ∨
    (Z.of_nat (length ts) = Limit o ∧ ∀ t, t ∈ ts → taskBefore (task rec) t = false)).
Proof.
  intros Hm Hl. rewrite Reserve_eq by done. intros [= <- <-].
  set (cs := walk (candidate (Topics o) (roNow (effective o now))) order m).
  assert (Hsort : StronglySorted notAfter (merge_sort notAfter cs)) by apply (StronglySorted_merge_sort notAfter).
  assert (Hperm : merge_sort notAfter cs ≡ₚ cs) by apply merge_sort_Permutation.
  unfold selection, chosen. fold cs. rewrite <- (take_drop (Z.to_nat (Limit o)) (merge_sort notAfter cs)) in Hsort, Hperm.
  set (sel := take _ _) in *. set (rest := drop _ _) in *. apply StronglySorted_app in Hsort as (Hcross & Hsel & _).
  split_and!.
  - clear -Hsel. induction Hsel as [|c l Hs IH Hc]; csimpl; [constructor|]. constructor; [done|].
    apply Forall_fmap. eapply Forall_impl; [exact Hc|]. intros d Hd. exact Hd.
  - intros t ([id rec] & -> & Hin)%list_elem_of_fmap. exists rec.
    assert ((id, rec) ∈ cs) as Hcs by (rewrite <- Hperm, elem_of_app; by left).
    apply walk_elem in Hcs as [Hk Hc]. split; [simpl; by rewrite (Hm _ _ Hk)|by apply candidate_spec].
  - intros id rec Hk He. assert ((id, rec) ∈ cs) as Hcs by (apply walk_elem; split; [done|by apply candidate_spec]).
    rewrite <- Hperm, elem_of_app in Hcs. destruct Hcs as [Hin|Hin]; [left|right].
    + rewrite <- list_fmap_compose. apply list_elem_of_fmap. exists (id, rec). split; [simpl; by rewrite (Hm _ _ Hk)|done].
    + rewrite length_fmap. split.
      * unfold sel. rewrite length_take. assert (rest ≠ []) as Hne by (intros E; by rewrite E in Hin; apply not_elem_of_nil in Hin).
        unfold rest in Hne. assert ((Z.to_nat (Limit o) < length (merge_sort notAfter cs))%nat); [|lia].
        destruct (decide (Z.to_nat (Limit o) < length (merge_sort notAfter cs))%nat); [done|].
        destruct Hne. apply drop_ge. lia.
      * intros t (c & -> & Hc)%list_elem_of_fmap. specialize (Hcross c (id, rec) Hc Hin). exact Hcross.
Qed.

(** ** Expired leases *)

(** The time an operation acts at is after [u]. *)
Definition acts_after (u : Z) (e : qop * Z) : Prop :=
  let eff t := if IsZero t then e.2 else t in
  match e.1 with
  | QAck _ _ t | QMoveToDLQ _ _ _ t | QExtend _ _ _ t => u < eff t
  | QRelease _ _ o => u < eff (relNow o)
  | QHandle _ _ _ _ _ => u < e.2
  | _ => True
  end.

Section stuck.
Context (nextDelay : Task → Z) (id : gostring) (rec : memRecord).
Context (Hleased : status rec = TaskStatusLeased) (Hu : LeaseUntil (task rec) ≠ 0).

Definition stuck m : Prop := tasks m !! id = Some rec.

Lemma held_stuck id' c t m : stuck m → LeaseUntil (task rec) < t →
  match leaseHeld id' c t m with Ok _ => id' ≠ id | Err _ => True end.
Proof using Hleased Hu.
  intros Hm Ht. destruct (decide (id' = id)) as [->|]; [|by case_match].
  unfold leaseHeld. rewrite Hm, Hleased. rewrite bool_decide_eq_true_2 by done. simpl. unfold IsZero.
  rewrite (proj2 (Z.eqb_neq _ _) Hu), (proj2 (Z.ltb_lt _ _) Ht), orb_true_r. done.
Qed.

(** The operations of a lease holder do not reach the record. *)
Lemma holders_stuck id' c t m : stuck m → LeaseUntil (task rec) < t →
  stuck (Ack id' c t m).1 ∧ (∀ why, stuck (MoveToDLQ id' c why t m).1) ∧ (∀ lease, stuck (ExtendLease id' c lease t m).1) ∧
  (∀ o, relNow o = t → stuck (Release id' c o m).1).
Proof using Hleased Hu.
  intros Hm Ht. pose proof (held_stuck id' c t m Hm Ht) as H. unfold Ack, MoveToDLQ, ExtendLease, Release.
  split_and!; [|intros ?|intros ?|intros o ->]; (destruct (leaseHeld id' c t m); [unfold stuck; simpl; by rewrite lookup_insert_ne|done]).
Qed.

Lemma update_stuck P R `{!RelDecision R} f order n (g : memRecord → memRecord) m : stuck m → P rec = false → g rec = rec →
  (updated P R f order n m ∪ (g <$> tasks m)) !! id = Some rec ∧ id ∉ (chosen P R order n m).*1.
Proof using.
  intros Hm Hp Hg. assert (Hout : id ∉ (chosen P R order n m).*1).
  { intros ([k r] & E & Hin)%list_elem_of_fmap. simpl in E. subst k. apply chosen_elem in Hin as [Hk Hp'].
    unfold stuck in Hm. congruence. }
  split; [|done]. rewrite lookup_union_r by by apply updated_out. rewrite lookup_fmap, Hm. simpl. by rewrite Hg.
Qed.

Lemma handle_stuck c' b h ll t now m : stuck m → LeaseUntil (task rec) < now →
  stuck (handleTask nextDelay c' b h ll t now m).1.
Proof using Hleased Hu.
  intros Hm Ht. destruct (holders_stuck (ID t) c' now m Hm Ht) as (H1 & H2 & _ & H3).
  assert (E : (if IsZero now then now else now) = now) by (by destruct (IsZero now)).
  assert (Hfail : ∀ why, stuck (failTask nextDelay c' t why now m)).
  { intros why. unfold failTask, MoveTaskToDLQ, ReleaseTask. simpl. rewrite E. destruct (_ <=? _); [apply H2|by apply H3]. }
  unfold handleTask, AckTask, MoveTaskToDLQ. simpl. rewrite E.
  destruct (_ && _); simpl; [apply H2|]. destruct b; [done|]. destruct h as [err|]; [|apply Hfail].
  destruct ll; [done|]. destruct err; [apply Hfail|done].
Qed.

Lemma step_stuck o now m : mem_ok m → stuck m → acts_after (LeaseUntil (task rec)) (o, now) →
  let '(m', r) := qstep nextDelay o now m in stuck m' ∧ id ∉ delivered r.
Proof using Hleased Hu.
  intros Hok Hm Hlate. assert (Hnil : ∀ m', stuck m' → stuck m' ∧ id ∉ []) by (intros; split; [done|apply not_elem_of_nil]).
  destruct o as [t eo|ro order|id' c' at_|id' c' lo|id' c' why at_|id' c' lease at_|po order|c' b h ll t]; simpl in *.
  - unfold Enqueue. case_decide; [by apply Hnil|]. destruct (validateTopic _); [by apply Hnil|].
    destruct (_ && _); [by apply Hnil|]. simpl. unfold Insert. destruct (tasks m !! _) eqn:Et; [by apply Hnil|].
    assert (ID (prepare t eo now) ≠ id) as Hne by (intros E; unfold stuck in Hm; rewrite E in Et; congruence).
    case_decide; [|destruct (dedupe m !! _); [by apply Hnil|]]; apply Hnil; unfold stuck; simpl; by rewrite lookup_insert_ne.
  - unfold ReserveTasks. case_decide; [by apply Hnil|]. destruct (_ <=? 0) eqn:El; [by apply Hnil|]. unbool. simpl.
    rewrite Reserve_eq by done. cbn [delivered]. rewrite selection_ids by done. unfold selection. apply update_stuck; [done| |].
    + unfold candidate. by rewrite Hleased.
    + unfold markExpired. by rewrite Hleased.
  - destruct (holders_stuck id' c' _ m Hm Hlate) as (H1 & _). unfold AckTask. simpl.
    destruct (Ack _ _ _ m). by apply Hnil.
  - destruct (holders_stuck id' c' _ m Hm Hlate) as (_ & _ & _ & H1).
    specialize (H1 (MkRelease (if IsZero (RetryAt lo) then if IsZero (relNow lo) then now else relNow lo else RetryAt lo)
      (Reason lo) (if IsZero (relNow lo) then now else relNow lo)) eq_refl).
    unfold ReleaseTask. simpl. destruct (Release _ _ _ m). by apply Hnil.
  - destruct (holders_stuck id' c' _ m Hm Hlate) as (_ & H1 & _). unfold MoveTaskToDLQ. simpl. specialize (H1 why).
    destruct (MoveToDLQ _ _ _ _ m). by apply Hnil.
  - destruct (holders_stuck id' c' _ m Hm Hlate) as (_ & _ & H1 & _). unfold ExtendTaskLease. simpl.
    specialize (H1 (if lease <=? 0 then DefaultLeaseDuration else lease)). destruct (ExtendLease _ _ _ _ m). by apply Hnil.
  - unfold MQ.ReplayDLQ, MemReplayer, ReplayDLQ. case_decide; [by apply Hnil|]. apply Hnil. unfold stuck. simpl.
    rewrite <- (map_fmap_id (tasks m)).
    apply (update_stuck (λ r, bool_decide (status r = TaskStatusDead)) olderUpdate); [done|by rewrite Hleased|done].
  - pose proof (handle_stuck c' b h ll t now m Hm Hlate) as H1.
    destruct (handleTask nextDelay c' b h ll t now m). by apply Hnil.
Qed.

Lemma run_stuck es m : mem_ok m → stuck m → Forall (acts_after (LeaseUntil (task rec))) es →
  stuck (qrun nextDelay es m).1 ∧ ∀ j r, (qrun nextDelay es m).2 !! j = Some r → id ∉ delivered r.
Proof using Hleased Hu.
  intros Hok Hm Hes. revert m Hok Hm. induction Hes as [|[o now] es Ho Hes IH]; intros m Hok Hm; simpl; [done|].
  pose proof (step_store_ok nextDelay o now m Hok) as Hok1. pose proof (step_stuck o now m Hok Hm Ho) as H1.
  destruct (qstep nextDelay o now m) as [m1 r1]. destruct H1 as [Hm1 Hd]. destruct (IH m1 Hok1 Hm1) as [H2 H3].
  destruct (qrun nextDelay es m1) as [m2 rs]. split; [done|]. intros [|j] r; simpl; [by intros [= <-]|apply H3].
Qed.
End stuck.

(** An expired lease is never recovered: once the lease of a task has run out, no
    sequence of later operations of any consumer or worker (acknowledging, releasing,
    extending, moving to the dead letters, reserving, replaying) changes the task or
    hands it out again. *)
Theorem mq_expired_lease_stuck nextDelay m id rec es : mem_ok m → tasks m !! id = Some rec →
  status rec = TaskStatusLeased → LeaseUntil (task rec) ≠ 0 → Forall (acts_after (LeaseUntil (task rec))) es →
  tasks (qrun nextDelay es m).1 !! id = Some rec ∧
  ∀ j r, (qrun nextDelay es m).2 !! j = Some r → id ∉ delivered r.
Proof. intros Hok Hm Hl Hu Hes. by apply (run_stuck nextDelay id rec Hl Hu es m Hok Hm Hes). Qed.
End memory.

(** ** Witnesses *)

Definition mk_task (id tenant dk : gostring) (prio created : Z) : Task :=
  MkTask id (str "orders") tenant [] [] prio 0 dk 0 0 0 [] 0 created 0.
Definition no_opts : EnqueueOptions := MkEnqueue [] 0 0 None 0.
Definition take_one (c : gostring) : ReserveOptions := MkReserve [str "orders"] 1 0 c 0.
Definition w1 : gostring := str "w1".
Definition w2 : gostring := str "w2".
Definition t_low : gostring := str "low".
Definition t_high : gostring := str "high".
Definition delay0 : Task → Z := λ _, second.

(** Two tasks; the more urgent one is taken, fails, is retried by another worker and
    acknowledged. *)
Definition failed_high : Task := MkTask t_high (str "orders") [] [] [] 30 0 [] 1 1 5 w1 0 1 1.
Definition mq_history : list (qop * Z) :=
  [(QEnqueue (mk_task t_low [] [] 10 0) no_opts, 1);
   (QEnqueue (mk_task t_high [] [] 30 0) no_opts, 2);
   (QReserve (take_one w1) [], 3);
   (QHandle w1 false (Some (Some (str "boom"))) false failed_high, 4);
   (QReserve (take_one w2) [], 4 + 2 * second);
   (QAck t_high w2 0, 5 + 2 * second);
   (QReserve (take_one w2) [], 6 + 2 * second)].
Definition mq_results : list qres := (qrun delay0 mq_history MemStore.NewMemory).2.

Lemma new_mem_ok : store_ok MemStore.NewMemory.
Proof. change (mem_ok MemStore.NewMemory). intros id rec. unfold MemStore.NewMemory. simpl. by rewrite lookup_empty. Qed.

Lemma mq_exclusive_lease_witness : ∃ k op now', (2 < k < 4)%nat ∧ mq_history !! k = Some (op, now') ∧ gives_back op w1 t_high ∧
  (∀ l, (2 < l ≤ k)%nat → seenAt delay0 mq_history MemStore.NewMemory t_high l = Some (VLeased w1)) ∧
  (seenAt delay0 mq_history MemStore.NewMemory t_high (S k) = Some VQueued ∨
   seenAt delay0 mq_history MemStore.NewMemory t_high (S k) = Some VDead).
Proof.
  destruct (mq_results !! 2%nat) as [r2|] eqn:E2; [|vm_compute in E2; discriminate].
  destruct (mq_results !! 4%nat) as [r4|] eqn:E4; [|vm_compute in E4; discriminate].
  apply (mq_exclusive_lease delay0 mq_history MemStore.NewMemory 2 4 (take_one w1) [] 3 r2 r4 t_high new_mem_ok ltac:(lia)
    eq_refl E2 E4).
  - vm_compute in E2. injection E2 as <-. left.
  - vm_compute in E4. injection E4 as <-. left.
Defined.

Lemma mq_ack_final_witness : ∃ r, mq_results !! 6%nat = Some r ∧ delivered r = [t_low] ∧ t_high ∉ delivered r.
Proof.
  destruct (mq_results !! 6%nat) as [r6|] eqn:E6; [|vm_compute in E6; discriminate]. exists r6. split; [reflexivity|]. split.
  - vm_compute in E6. injection E6 as <-. reflexivity.
  - apply (mq_ack_final delay0 mq_history MemStore.NewMemory 5 6 t_high w2 0 (5 + 2 * second) r6 new_mem_ok ltac:(lia) eq_refl
      ltac:(vm_compute; reflexivity) E6).
Defined.

Definition two_tasks : MemStore.MemStore := (qrun delay0 (take 2 mq_history) MemStore.NewMemory).1.
Lemma two_tasks_ok : mem_ok two_tasks.
Proof. apply (qrun_ok delay0 (take 2 mq_history) MemStore.NewMemory new_mem_ok). Qed.

Lemma mq_reserve_best_witness : ∃ m' ts, MemStore.Reserve (take_one w1) [] 3 two_tasks = (m', Ok ts) ∧
  (ID <$> ts) = [t_high] ∧ StronglySorted (λ a b, MemStore.taskBefore b a = false) ts.
Proof.
  destruct (MemStore.Reserve (take_one w1) [] 3 two_tasks) as [m' [ts|]] eqn:E; [|vm_compute in E; discriminate].
  exists m', ts. split; [reflexivity|]. split.
  - vm_compute in E. injection E as <- <-. reflexivity.
  - destruct (mq_reserve_best (take_one w1) [] 3 two_tasks m' ts two_tasks_ok ltac:(reflexivity) E) as [H _]. exact H.
Defined.

(** A worker takes a task and never comes back. *)
Definition abandoned : MemStore.MemStore := (qrun delay0 (take 3 mq_history) MemStore.NewMemory).1.
Definition later : list (qop * Z) :=
  [(QReserve (MkReserve [] 10 0 w2 0) [], 100 * second); (QRelease t_high w1 (MkRelease 0 [] 0), 101 * second);
   (QReserve (MkReserve [] 10 0 w2 0) [], 102 * second)].
Lemma mq_expired_lease_stuck_witness : ∃ rec, MemStore.tasks abandoned !! t_high = Some rec ∧
  MemStore.tasks (qrun delay0 later abandoned).1 !! t_high = Some rec.
Proof.
  destruct (MemStore.tasks abandoned !! t_high) as [rec|] eqn:E; [|vm_compute in E; discriminate]. exists rec. split; [reflexivity|].
  apply (mq_expired_lease_stuck delay0 abandoned t_high rec later).
  - apply (qrun_ok delay0 (take 3 mq_history) MemStore.NewMemory new_mem_ok).
  - exact E.
  - vm_compute in E. injection E as <-. reflexivity.
  - vm_compute in E. injection E as <-. discriminate.
  - vm_compute in E. injection E as <-. repeat constructor.
Defined.

(** The dedupe keys of different tenants can collide: the second task is refused. *)
Lemma mq_dedupe_collision :
  let m := fst (MemStore.Insert (mk_task t_low (str "a:b") (str "c") 10 0) MemStore.NewMemory) in
  MemStore.Insert (mk_task t_high (str "a") (str "b:c") 10 0) m = (m, Some ErrDuplicateTask).
Proof. vm_compute. reflexivity. Qed.
