(* ===== verification/GoPath.v ===== *)
(** * Glob patterns ([path.Match] of Go's standard library)

    [path.Match] works chunk by chunk: a chunk is the part of the pattern up to the
    next star_byte outside a character class. A chunk that fails keeps being read, so that
    a malformed pattern is reported whatever the name. [PathMatch_valid] turns that into a
    fact about names: whether a pattern is malformed does not depend on the name it is
    matched with. *)

From stdpp Require Import options.
From S2P Require Import Prelude GoStrings.

Module GoPath.

Definition slash_byte : gobyte := "/"%char.
Definition star_byte : gobyte := "*"%char.
Definition question : gobyte := "?"%char.
Definition lbracket : gobyte := "["%char.
Definition rbracket : gobyte := "]"%char.
Definition backslash : gobyte := "\"%char.
Definition caret : gobyte := "^"%char.
Definition dash : gobyte := "-"%char.

(** ** One rune ([utf8.DecodeRuneInString]): the rune and its size in bytes; an
    encoding that is not valid reads as U+FFFD of size 1, the empty string as size 0. *)
Definition RuneError : N := 65533.
Definition DecodeRune (s : gostring) : N * nat :=
  let bad := (RuneError, 1) in
  match s with
  | [] => (RuneError, 0)
  | b :: s =>
      let low (k : N) (c : gobyte) := (byte_val c mod k)%N in
      if byte_in 0 127 b then (byte_val b, 1)
      else if byte_in 194 223 b then
        match s with
        | b1 :: _ => if utf8_cont b1 then ((low 32 b * 64 + low 64 b1)%N, 2) else bad
        | _ => bad
        end
      else if byte_in 224 239 b then
        match s with
        | b1 :: b2 :: _ =>
            if byte_in (if (byte_val b =? 224)%N then 160 else 128) (if (byte_val b =? 237)%N then 159 else 191) b1
               && utf8_cont b2
            then ((low 16 b * 4096 + low 64 b1 * 64 + low 64 b2)%N, 3) else bad
        | _ => bad
        end
      else if byte_in 240 244 b then
        match s with
        | b1 :: b2 :: b3 :: _ =>
            if byte_in (if (byte_val b =? 240)%N then 144 else 128) (if (byte_val b =? 244)%N then 143 else 191) b1
               && utf8_cont b2 && utf8_cont b3
            then ((low 8 b * 262144 + low 64 b1 * 4096 + low 64 b2 * 64 + low 64 b3)%N, 4) else bad
        | _ => bad
        end
      else bad
  end.

(** ** Chunks *)

(** The scan of a chunk: an escaped byte is skipped, a star outside a class stops. *)
Fixpoint scanLoop (inrange : bool) (pattern : gostring) : gostring * gostring :=
  match pattern with
  | [] => ([], [])
  | c :: rest =>
      if decide (c = backslash) then
        match rest with
        | [] => ([c], [])
        | d :: rest => let '(chunk, rest) := scanLoop inrange rest in (c :: d :: chunk, rest)
        end
      else if decide (c = star_byte) then
        if inrange then let '(chunk, rest) := scanLoop inrange rest in (c :: chunk, rest)
        else ([], pattern)
      else
        let inrange := if decide (c = lbracket) then true
                       else if decide (c = rbracket) then false else inrange in
        let '(chunk, rest) := scanLoop inrange rest in (c :: chunk, rest)
  end.

Definition scanChunk (pattern : gostring) : bool * gostring * gostring :=
  let isStar := bool_decide (head pattern = Some star_byte) in
  let '(chunk, rest) := scanLoop false (trim_left star_byte pattern) in
  (isStar, chunk, rest).

(** [getEsc]: one character of a class; [None] is [ErrBadPattern]. *)
Definition getEsc (chunk : gostring) : option (N * gostring) :=
  match chunk with
  | [] => None
  | c :: rest =>
      if decide (c = dash ∨ c = rbracket) then None
      else
        chunk ← (if decide (c = backslash) then match rest with [] => None | _ => Some rest end else Some chunk);
        let '(r, n) := DecodeRune chunk in
        if (r =? RuneError)%N && (n =? 1) then None
        else match drop n chunk with [] => None | nchunk => Some (r, nchunk) end
  end.

(** The ranges of a class, up to its closing bracket: whether one holds [r], and what
    follows. Every range takes at least one byte. *)
Fixpoint classLoop (fuel : nat) (r : N) (first matched : bool) (chunk : gostring) : option (bool * gostring) :=
  match fuel with
  | O => None
  | S fuel =>
      let ranges :=
        '(lo, chunk) ← getEsc chunk;
        '(hi, chunk) ← (if decide (head chunk = Some dash) then getEsc (drop 1 chunk) else Some (lo, chunk));
        classLoop fuel r false (matched || ((lo <=? r)%N && (r <=? hi)%N)) chunk in
      match chunk with
      | c :: rest => if decide (c = rbracket) then (if first then ranges else Some (matched, rest)) else ranges
      | [] => ranges
      end
  end.

(** [matchChunk]: [None] is [ErrBadPattern]; otherwise what is left of the string when
    the chunk matches a prefix of it. [failed] keeps the rest of the chunk checked. *)
Fixpoint matchLoop (fuel : nat) (failed : bool) (chunk s : gostring) : option (option gostring) :=
  match fuel, chunk with
  | _, [] => Some (if failed then None else Some s)
  | O, _ => None
  | S fuel, c :: rest =>
      let failed := failed || bool_decide (s = []) in
      if decide (c = lbracket) then
        let '(r, n) := if failed then (0%N, 0) else DecodeRune s in
        let s := drop n s in
        let negated := bool_decide (head rest = Some caret) in
        let rest := if negated then drop 1 rest else rest in
        '(matched, rest) ← classLoop (length rest + 1) r true false rest;
        matchLoop fuel (failed || bool_decide (matched = negated)) rest s
      else if decide (c = question) then
        let failed' := failed || bool_decide (head s = Some slash_byte) in
        let s := if failed then s else drop (DecodeRune s).2 s in
        matchLoop fuel failed' rest s
      else
        '(c, rest) ← (if decide (c = backslash) then match rest with [] => None | d :: rest => Some (d, rest) end
                      else Some (c, rest));
        let failed' := failed || bool_decide (head s ≠ Some c) in
        let s := if failed then s else drop 1 s in
        matchLoop fuel failed' rest s
  end.
Definition matchChunk (chunk s : gostring) : option (option gostring) := matchLoop (length chunk) false chunk s.

(** ** The whole pattern *)

Inductive step := Matched (name : gostring) | NoMatch | BadPattern.

(** The search of a starred chunk: skip one more byte at a time, never past a slash. *)
Fixpoint skipLoop (last : bool) (chunk name : gostring) : step :=
  match name with
  | [] => NoMatch
  | c :: rest =>
      if decide (c = slash_byte) then NoMatch
      else match matchChunk chunk rest with
           | None => BadPattern
           | Some (Some t) => if last && bool_decide (t ≠ []) then skipLoop last chunk rest else Matched t
           | Some None => skipLoop last chunk rest
           end
  end.

(** The chunks that remain after a failed match are read with the empty name. *)
Fixpoint validRest (fuel : nat) (pattern : gostring) : bool :=
  match fuel, pattern with
  | _, [] => true
  | O, _ => false
  | S fuel, _ =>
      let '(_, chunk, rest) := scanChunk pattern in
      bool_decide (is_Some (matchChunk chunk [])) && validRest fuel rest
  end.

(** [None] is [ErrBadPattern]. Every chunk with its stars takes at least one byte. *)
Fixpoint patternLoop (fuel : nat) (pattern name : gostring) : option bool :=
  match fuel, pattern with
  | _, [] => Some (bool_decide (name = []))
  | O, _ => None
  | S fuel, _ =>
      let '(isStar, chunk, rest) := scanChunk pattern in
      if isStar && bool_decide (chunk = []) then Some (bool_decide (slash_byte ∉ name))
      else
        let last := bool_decide (rest = []) in
        let fail := if validRest (length rest) rest then Some false else None in
        let skip := if isStar then skipLoop last chunk name else NoMatch in
        let search := match skip with
                      | Matched t => patternLoop fuel rest t
                      | BadPattern => None
                      | NoMatch => fail
                      end in
        match matchChunk chunk name with
        | None => None
        | Some (Some t) => if bool_decide (t = []) || negb last then patternLoop fuel rest t else search
        | Some None => search
        end
  end.
Definition PathMatch (pattern name : gostring) : option bool := patternLoop (length pattern) pattern name.

Example match_checks :
  [PathMatch (str "user.*") (str "user.created"); PathMatch (str "user.*") (str "user/created");
   PathMatch (str "a?c[0-9]") (str "abc7"); PathMatch (str "a[^x-z]*") (str "ayz"); PathMatch (str "a\*") (str "a*");
   PathMatch (str "[a") (str "probe"); PathMatch (str "*x[") (str "p"); PathMatch (str "*a*b") (str "xxaxxb");
   PathMatch (str "a") (str "ab"); PathMatch (str "*[]a]") (str "x]"); PathMatch (str "a]") (str "a]")]
  = [Some true; Some false; Some true; Some false; Some true; None; None; Some true; Some false; None; Some true].
Proof. vm_compute. reflexivity. Qed.

(** ** Whether a pattern is malformed does not depend on the name *)

Lemma DecodeRune_size s : s ≠ [] → 1 ≤ (DecodeRune s).2 ≤ length s.
Proof.
  destruct s as [|b s]; [done|]. intros _. unfold DecodeRune.
  repeat (case_match; simpl); lia.
Qed.

Lemma getEsc_shrinks chunk r rest : getEsc chunk = Some (r, rest) → length rest < length chunk ∧ rest ≠ [].
Proof.
  unfold getEsc. destruct chunk as [|c t]; [done|]. case_decide; [done|]. intros E.
  apply bind_Some in E as (ch & Ec & E). assert (ch ≠ [] ∧ length ch ≤ length (c :: t)) as [Hne Hle].
  { case_decide; [destruct t|]; simplify_eq/=; split; [done|lia|done|lia]. }
  pose proof (DecodeRune_size ch Hne). destruct (DecodeRune ch) as [r' n] eqn:Ed. simpl in *.
  case_match; [done|]. destruct (drop n ch) eqn:Edr; simplify_eq.
  split; [|done]. apply (f_equal length) in Edr. rewrite length_drop in Edr. simpl in *. lia.
Qed.

Lemma classLoop_valid fuel r r' first m m' chunk :
  snd <$> classLoop fuel r first m chunk = snd <$> classLoop fuel r' first m' chunk.
Proof.
  revert first m m' chunk. induction fuel as [|fuel IH]; intros first m m' chunk; [done|].
  assert (∀ f m, classLoop (S fuel) r f m chunk = classLoop (S fuel) r f m chunk) by done.
  simpl. destruct chunk as [|c t]; [done|].
  case_decide; [destruct first; [|done]|];
    (destruct (getEsc (c :: t)) as [[lo t1]|]; [|done]; simpl;
     destruct (if decide (head t1 = Some dash) then _ else _) as [[hi t2]|]; [apply IH|done]).
Qed.

Lemma matchLoop_valid fuel failed failed' chunk s s' :
  is_Some (matchLoop fuel failed chunk s) ↔ is_Some (matchLoop fuel failed' chunk s').
Proof.
  revert failed failed' chunk s s'. induction fuel as [|fuel IH]; intros f f' [|c t] s s'; simpl; try by split; eauto.
  case_decide; [|case_decide].
  - destruct (if f || _ then _ else _) as [r n]. destruct (if f' || _ then _ else _) as [r' n'].
    pose proof (classLoop_valid (length (if bool_decide (head t = Some caret) then drop 1 t else t) + 1) r r' true false false
      (if bool_decide (head t = Some caret) then drop 1 t else t)) as Hc.
    destruct (classLoop _ r _ _ _) as [[m u]|], (classLoop _ r' _ _ _) as [[m' u']|]; simplify_eq/=; [apply IH|].
    split; by intros [].
  - apply IH.
  - destruct (if decide (c = backslash) then _ else _) as [[d u]|]; simpl; [apply IH|]. split; by intros [].
Qed.

Definition chunk_ok (chunk : gostring) : Prop := is_Some (matchChunk chunk []).
Lemma matchChunk_ok chunk s : is_Some (matchChunk chunk s) ↔ chunk_ok chunk.
Proof. apply matchLoop_valid. Qed.

Lemma skipLoop_ok last chunk name : chunk_ok chunk → skipLoop last chunk name ≠ BadPattern.
Proof.
  intros Hok. induction name as [|c name IH]; simpl; [done|]. case_decide; [done|].
  destruct (proj2 (matchChunk_ok chunk name) Hok) as [o ->]. destruct o as [t|]; [|done]. by case_match.
Qed.

Lemma scanLoop_app inrange p : p = (scanLoop inrange p).1 ++ (scanLoop inrange p).2.
Proof.
  revert inrange. induction p as [p IH] using (well_founded_induction (Wf_nat.well_founded_ltof _ length)).
  unfold ltof in IH. intros inrange. destruct p as [|c p]; [done|]. simpl. case_decide as Hb; [|case_decide as Hs].
  - destruct p as [|d p]; [done|]. pose proof (IH p ltac:(simpl; lia) inrange) as E.
    destruct (scanLoop inrange p). simpl in *. by rewrite E at 1.
  - destruct inrange; [|done]. pose proof (IH p ltac:(simpl; lia) true) as E.
    destruct (scanLoop true p). simpl in *. by rewrite E at 1.
  - set (i := if decide (c = lbracket) then _ else _). pose proof (IH p ltac:(simpl; lia) i) as E.
    destruct (scanLoop i p). simpl in *. by rewrite E at 1.
Qed.

Lemma scanLoop_ne p : p ≠ [] → head p ≠ Some star_byte → (scanLoop false p).1 ≠ [].
Proof.
  destruct p as [|c p]; [done|]. intros _ Hh. simpl. case_decide; [destruct p; [done|by case_match]|].
  rewrite decide_False by (intros ->; done). by case_match.
Qed.

(** A chunk with its stars is never empty, and an empty chunk is the last one. *)
Lemma scanChunk_spec pattern isStar chunk rest :
  scanChunk pattern = (isStar, chunk, rest) → pattern ≠ [] →
  length rest < length pattern ∧ (chunk = [] → rest = []) ∧ (isStar = true ↔ head pattern = Some star_byte).
Proof.
  unfold scanChunk. intros E Hne. destruct (scanLoop false (trim_left star_byte pattern)) as [ch rs] eqn:Es.
  simplify_eq. destruct (trim_left_decomp star_byte pattern) as [n Hn].
  pose proof (scanLoop_app false (trim_left star_byte pattern)) as Ha. rewrite Es in Ha. simpl in Ha.
  pose proof (scanLoop_ne (trim_left star_byte pattern)) as Hc. rewrite Es in Hc. simpl in Hc.
  pose proof (trim_left_head star_byte pattern) as Hh.
  assert (length pattern = n + length chunk + length rest) as Hl.
  { rewrite Hn, Ha, !length_app, length_replicate. lia. }
  split; [|split].
  - destruct (decide (trim_left star_byte pattern = [])) as [Ht|Ht].
    + rewrite Ht in Ha. symmetry in Ha. apply app_eq_nil in Ha as [-> ->]. simpl in *.
      destruct pattern; simpl in *; [done|lia].
    + destruct chunk; [by destruct (Hc Ht Hh)|]. simpl in Hl. lia.
  - intros ->. destruct rest; [done|]. destruct (trim_left star_byte pattern); [done|]. by destruct Hc.
  - by rewrite bool_decide_eq_true.
Qed.

(** [valid pattern]: every chunk of the pattern is well formed. *)
Definition valid (pattern : gostring) : bool := validRest (length pattern) pattern.

Lemma validRest_fuel fuel pattern : length pattern ≤ fuel → validRest fuel pattern = valid pattern.
Proof.
  unfold valid. enough (∀ f f' p, length p ≤ f → length p ≤ f' → validRest f p = validRest f' p) by eauto.
  clear. induction f as [|f IH]; intros f' p Hf Hf'; [by destruct p; [destruct f'|simpl in *; lia]|].
  destruct p as [|c p]; [by destruct f'|]. destruct f' as [|f']; [simpl in *; lia|]. unfold validRest. fold validRest.
  destruct (scanChunk (c :: p)) as [[i ch] rs] eqn:Es.
  pose proof (scanChunk_spec _ _ _ _ Es ltac:(done)) as (? & _ & _). f_equal. simpl in *. apply IH; lia.
Qed.

Lemma patternLoop_valid fuel pattern name :
  length pattern ≤ fuel → is_Some (patternLoop fuel pattern name) ↔ valid pattern = true.
Proof.
  revert pattern name. induction fuel as [|fuel IH]; intros pattern name Hf.
  { destruct pattern; [|simpl in Hf; lia]. simpl. by split; eauto. }
  destruct pattern as [|c p]; [simpl; by split; eauto|]. unfold patternLoop. fold patternLoop.
  rewrite <- (validRest_fuel (S fuel)) by done. unfold validRest. fold validRest.
  destruct (scanChunk (c :: p)) as [[i ch] rs] eqn:Es.
  pose proof (scanChunk_spec _ _ _ _ Es ltac:(done)) as (Hl & Hemp & _). simpl in Hl, Hf.
  rewrite (validRest_fuel fuel) by lia.
  destruct (i && bool_decide (ch = [])) eqn:Ei.
  { apply andb_true_iff in Ei as [_ ->%bool_decide_eq_true]. rewrite Hemp by done. simpl. by split; eauto. }
  rewrite andb_true_iff, bool_decide_eq_true. fold (chunk_ok ch).
  rewrite <- (matchChunk_ok ch name). destruct (matchChunk ch name) as [o|] eqn:Em; [|split; [by intros []|by intros [[] _]]].
  assert (is_Some (Some o)) as Ho by eauto. assert (chunk_ok ch) as Hok by (apply (matchChunk_ok _ name); by rewrite Em).
  assert (∀ t, is_Some (patternLoop fuel rs t) ↔ valid rs = true) as Hrec by (intros; apply IH; lia).
  assert (is_Some (match (if i then skipLoop (bool_decide (rs = [])) ch name else NoMatch) with
    | Matched t => patternLoop fuel rs t | NoMatch => if validRest (length rs) rs then Some false else None
    | BadPattern => None end) ↔ valid rs = true) as Hsearch.
  { destruct (if i then _ else _) eqn:Esk; [apply Hrec| |].
    - change (validRest (length rs) rs) with (valid rs). destruct (valid rs); split; eauto; [by intros []|done].
    - destruct i; [|done]. by apply skipLoop_ok in Esk. }
  destruct o as [t|]; [|tauto]. destruct (bool_decide (t = []) || negb (bool_decide (rs = []))); [rewrite Hrec|]; tauto.
Qed.

Lemma PathMatch_valid pattern name : is_Some (PathMatch pattern name) ↔ valid pattern = true.
Proof. apply patternLoop_valid. done. Qed.

(** ** A pattern without metacharacters matches itself only *)

Definition plain (c : gobyte) : Prop := c ∉ [star_byte; question; lbracket; backslash].

Lemma scanLoop_plain p inrange : Forall plain p → scanLoop inrange p = (p, []).
Proof.
  intros Hp. revert inrange. induction Hp as [|c p Hc Hp IH]; intros inrange; [done|]. simpl. unfold plain in Hc.
  rewrite !decide_False by set_solver. by rewrite IH.
Qed.

Lemma matchLoop_plain fuel failed p s : Forall plain p → length p ≤ fuel →
  matchLoop fuel failed p s = Some (if failed then None else
    if decide (p `prefix_of` s) then Some (drop (length p) s) else None).
Proof.
  intros Hp. revert fuel failed s. induction Hp as [|c p Hc Hp IH]; intros fuel failed s Hf.
  { destruct fuel; simpl; destruct failed; try done; (rewrite decide_True by apply prefix_nil; by rewrite drop_0). }
  destruct fuel as [|fuel]; [simpl in Hf; lia|]. unfold matchLoop. fold matchLoop. unfold plain in Hc.
  rewrite !(decide_False (P := c = _)) by set_solver. simpl. rewrite IH by (simpl in *; lia).
  destruct failed; [done|]. simpl. destruct s as [|d s]; simpl.
  { done. }
  case_bool_decide as Hd; simpl.
  - rewrite decide_False; [done|]. intros ->%prefix_cons_inv_1. done.
  - assert (c = d) as -> by (apply dec_stable; congruence). rewrite drop_0.
    destruct (decide (p `prefix_of` s)); [rewrite decide_True by by apply prefix_cons|
      rewrite decide_False by by intros ?%prefix_cons_inv_2]; done.
Qed.

Lemma PathMatch_plain pattern name : Forall plain pattern → PathMatch pattern name = Some (bool_decide (pattern = name)).
Proof.
  intros Hp. unfold PathMatch. destruct pattern as [|c p]; [simpl; f_equal; apply bool_decide_ext; naive_solver|].
  assert (scanChunk (c :: p) = (false, c :: p, [])) as Es.
  { pose proof (Forall_cons_1 _ _ _ Hp) as [Hc _]. unfold plain in Hc. unfold scanChunk.
    rewrite trim_left_id by (simpl; intros [=->]; set_solver). rewrite scanLoop_plain by done.
    rewrite bool_decide_false; [done|]. simpl. intros [=->]. set_solver. }
  change (length (c :: p)) with (S (length p)). unfold patternLoop. fold patternLoop. rewrite Es.
  set (q := c :: p) in *. cbn [andb]. unfold matchChunk. rewrite matchLoop_plain by done. case_decide as Hpre.
  - destruct Hpre as [k ->]. rewrite drop_app_length. destruct k as [|a k].
    + rewrite app_nil_r. simpl. rewrite (bool_decide_true (q = q)) by done. by destruct (length p).
    + simpl. rewrite bool_decide_false; [done|]. intros E%(f_equal length). unfold q in E. simpl in E. rewrite length_app in E. simpl in E. lia.
  - rewrite bool_decide_false; [done|]. by intros ->.
Qed.

End GoPath.
