(* ===== verification/Mqtt.v ===== *)
(** * MQTT topic patterns ([x/messaging/pubsub/mqtt_pattern.go])

    The matcher is a two-index loop over the levels of a pattern and a topic; it
    is compared with the inductive definition of matching. The subscriber store
    is a map of maps; it is compared with one flat map of subscriptions. *)

From stdpp Require Import options.
From S2P Require Import Prelude GoStrings.

Module Mqtt.

Definition MQTTSeparator : gobyte := "/"%char.
Definition plus : gobyte := "+"%char.
Definition hash : gobyte := "#"%char.
Definition MQTTSingleLevelWildcard : gostring := [plus].
Definition MQTTMultiLevelWildcard : gostring := [hash].

(** The loop of [matchParts]; every iteration that continues advances [pi], so
    [length patternParts - pi] iterations are enough. *)
Fixpoint matchLoop (fuel : nat) (patternParts topicParts : list gostring) (pi ti : nat) : bool :=
  match fuel with
  | O => ti =? length topicParts
  | S fuel =>
      match patternParts !! pi with
      | None => ti =? length topicParts
      | Some part =>
          if decide (part = MQTTMultiLevelWildcard) then pi =? length patternParts - 1
          else if decide (part = MQTTSingleLevelWildcard) then
            if length topicParts <=? ti then false
            else matchLoop fuel patternParts topicParts (pi + 1) (ti + 1)
          else
            if (length topicParts <=? ti) || bool_decide (topicParts !! ti ≠ Some part) then false
            else matchLoop fuel patternParts topicParts (pi + 1) (ti + 1)
      end
  end.

Definition matchParts (patternParts topicParts : list gostring) : bool :=
  matchLoop (length patternParts) patternParts topicParts 0 0.

Definition MQTTMatch (pattern topic : gostring) : bool :=
  if decide (pattern = []) then bool_decide (topic = [])
  else if decide (pattern = MQTTMultiLevelWildcard) then true
  else matchParts (split_on MQTTSeparator pattern) (split_on MQTTSeparator topic).

Inductive patternErr := EmptyPattern | HashNotLast | MixedWildcard.

(** The loop of [ValidateMQTTPattern] from level [i] on. *)
Fixpoint validateParts (n i : nat) (parts : list gostring) : option patternErr :=
  match parts with
  | [] => None
  | part :: rest =>
      if bool_decide (part = MQTTMultiLevelWildcard) && negb (i =? n - 1) then Some HashNotLast
      else if bool_decide (part ≠ MQTTSingleLevelWildcard) && bool_decide (part ≠ MQTTMultiLevelWildcard)
              && (contains_byte plus part || contains_byte hash part)
      then Some MixedWildcard
      else validateParts n (S i) rest
  end.

Definition ValidateMQTTPattern (pattern : gostring) : option patternErr :=
  if decide (pattern = []) then Some EmptyPattern
  else let parts := split_on MQTTSeparator pattern in validateParts (length parts) 0 parts.

Definition ContainsMQTTWildcard (pattern : gostring) : bool :=
  contains_byte plus pattern || contains_byte hash pattern.

(** ** Matching, specified *)

Inductive matches : list gostring → list gostring → Prop :=
| m_nil : matches [] []
| m_hash ts : matches [MQTTMultiLevelWildcard] ts
| m_plus ps t ts : matches ps ts → matches (MQTTSingleLevelWildcard :: ps) (t :: ts)
| m_literal p ps ts :
    p ≠ MQTTMultiLevelWildcard → p ≠ MQTTSingleLevelWildcard →
    matches ps ts → matches (p :: ps) (p :: ts).

Lemma matches_done tps ti :
  ti ≤ length tps → (ti =? length tps) = true ↔ matches [] (drop ti tps).
Proof.
  intros Ht. rewrite Nat.eqb_eq. split.
  - intros ->. rewrite drop_all. constructor.
  - intros Hm. destruct (drop ti tps) eqn:E; [|by inversion Hm].
    apply (f_equal length) in E. rewrite length_drop in E. simpl in E. lia.
Qed.

Lemma matchLoop_matches fuel pps tps pi ti :
  length pps - pi ≤ fuel → pi ≤ length pps → ti ≤ length tps →
  matchLoop fuel pps tps pi ti = true ↔ matches (drop pi pps) (drop ti tps).
Proof.
  revert pi ti. induction fuel as [|fuel IH]; intros pi ti Hf Hp Ht; simpl.
  { rewrite drop_ge by lia. by apply matches_done. }
  destruct (pps !! pi) as [part|] eqn:Ep.
  2:{ apply lookup_ge_None in Ep. rewrite drop_ge by lia. by apply matches_done. }
  pose proof (lookup_lt_Some _ _ _ Ep) as Hlt. rewrite (drop_S _ _ _ Ep).
  case_decide as Hh; [|case_decide as Hpl].
  - subst part. rewrite Nat.eqb_eq. split.
    + intros ->. rewrite (drop_ge pps) by lia. constructor.
    + inversion 1 as [|ts E|ps t ts Hm E|p ps ts H1 H2 Hm E]; subst; [|done].
      apply (f_equal length) in E. rewrite length_drop in E. simpl in E. lia.
  - subst part. destruct (Nat.leb_spec (length tps) ti).
    { rewrite (drop_ge tps) by lia. split; [done|]. by inversion 1. }
    destruct (lookup_lt_is_Some_2 tps ti) as [t Et]; [done|]. rewrite (drop_S _ _ _ Et).
    rewrite IH, !Nat.add_1_r by lia. split; [by constructor|]. inversion 1; subst; done.
  - destruct (Nat.leb_spec (length tps) ti); simpl.
    { rewrite (drop_ge tps) by lia. split; [done|]. inversion 1; subst; done. }
    destruct (lookup_lt_is_Some_2 tps ti) as [t Et]; [done|]. rewrite (drop_S _ _ _ Et), Et.
    case_bool_decide as Hne.
    { split; [done|]. inversion 1; subst; done. }
    assert (t = part) as -> by (apply dec_stable; congruence).
    rewrite IH, !Nat.add_1_r by lia. split; [by constructor|]. inversion 1; subst; done.
Qed.

Lemma MQTTMatch_spec pattern topic :
  MQTTMatch pattern topic = true ↔
  matches (split_on MQTTSeparator pattern) (split_on MQTTSeparator topic).
Proof.
  unfold MQTTMatch. case_decide as He; [|case_decide as Hh].
  - subst. rewrite bool_decide_eq_true. simpl. split.
    + intros ->. by repeat constructor.
    + intros Hm. inversion Hm as [|ts E|ps t ts Hm' E|p ps ts H1 H2 Hm' E]; subst.
      inversion Hm'; subst. rewrite <- (join_split MQTTSeparator topic). by rewrite <- H0.
  - subst. change (split_on MQTTSeparator MQTTMultiLevelWildcard) with [MQTTMultiLevelWildcard].
    split; [constructor|done].
  - unfold matchParts. by rewrite matchLoop_matches by lia.
Qed.

(** A pattern without wildcard characters matches itself and nothing else. *)
Lemma matches_literal ps ts :
  Forall (λ p, p ≠ MQTTMultiLevelWildcard ∧ p ≠ MQTTSingleLevelWildcard) ps → matches ps ts ↔ ps = ts.
Proof.
  revert ts. induction ps as [|p ps IH]; intros ts Hf.
  { split; [by inversion 1|]. intros <-. constructor. }
  apply Forall_cons in Hf as [[Hh Hp] Hf]. split.
  - inversion 1 as [|ts' E|ps' t ts' Hm E|p' ps' ts' H1 H2 Hm E]; subst; try done.
    f_equal. by apply IH.
  - intros <-. constructor; [done..|]. by apply IH.
Qed.

Lemma MQTTMatch_literal pattern topic :
  ContainsMQTTWildcard pattern = true ∨ (MQTTMatch pattern topic = true ↔ pattern = topic).
Proof.
  unfold ContainsMQTTWildcard, contains_byte.
  destruct (decide (plus ∈ pattern)) as [Hp|Hp]; [left; by rewrite bool_decide_true|].
  destruct (decide (hash ∈ pattern)) as [Hh|Hh]; [left; by rewrite (bool_decide_true (hash ∈ _)), orb_true_r|].
  right. rewrite MQTTMatch_spec, matches_literal.
  - split; [|by intros ->]. intros E. by rewrite <- (join_split MQTTSeparator pattern), E, join_split.
  - pose proof (split_no_elem plus MQTTSeparator pattern Hp) as F1.
    pose proof (split_no_elem hash MQTTSeparator pattern Hh) as F2. rewrite Forall_forall in *.
    intros q Hq. specialize (F1 q Hq). specialize (F2 q Hq). split; intros ->; set_solver.
Qed.

(** [validateParts] accepts exactly the well-formed patterns. *)
Definition level_ok (n i : nat) (part : gostring) : Prop :=
  (part = MQTTMultiLevelWildcard ∧ S i = n) ∨ part = MQTTSingleLevelWildcard ∨
  (plus ∉ part ∧ hash ∉ part).

Lemma validateParts_ok n i parts :
  0 < n → (validateParts n i parts = None) ↔ ∀ j part, parts !! j = Some part → level_ok n (i + j) part.
Proof.
  intros Hn. revert i. induction parts as [|part parts IH]; intros i; simpl; [done|].
  assert (level_ok n i part ↔
    (bool_decide (part = MQTTMultiLevelWildcard) && negb (i =? n - 1)) = false ∧
    (bool_decide (part ≠ MQTTSingleLevelWildcard) && bool_decide (part ≠ MQTTMultiLevelWildcard)
       && (contains_byte plus part || contains_byte hash part)) = false) as Hl.
  { unfold level_ok. destruct (decide (part = MQTTMultiLevelWildcard)) as [->|Hh].
    - rewrite bool_decide_true by done. simpl. destruct (Nat.eqb_spec i (n - 1)); simpl.
      + split; [done|]. intros _. left. split; [done|lia].
      + split; [|by intros [? _]]. intros [[_ ?]|[?|[_ Hnot]]]; [lia|done|]. set_solver.
    - rewrite (bool_decide_false (part = _)) by done. rewrite (bool_decide_true (part ≠ MQTTMultiLevelWildcard)) by done.
      destruct (decide (part = MQTTSingleLevelWildcard)) as [->|Hp].
      + rewrite (bool_decide_false (MQTTSingleLevelWildcard ≠ _)) by (intros ?; done). simpl. naive_solver.
      + rewrite bool_decide_true by done. simpl. rewrite orb_false_iff.
        unfold contains_byte. rewrite !bool_decide_eq_false. naive_solver. }
  split.
  - intros Hv [|j] p Hj; simpl in Hj; simplify_eq.
    + rewrite Nat.add_0_r. apply Hl. by repeat case_match.
    + rewrite Nat.add_succ_r. change (S (i + j)) with (S i + j). apply (IH (S i)); [|done].
      by repeat case_match.
  - intros Hall. pose proof (Hall 0 part eq_refl) as H0. rewrite Nat.add_0_r in H0.
    apply Hl in H0 as [-> ->]. apply IH. intros j p Hj.
    specialize (Hall (S j) p Hj). by rewrite Nat.add_succ_r in Hall.
Qed.

(** C35: the two-index matching loop (with its special cases for the empty pattern
    and a lone hash) decides exactly the inductive definition of MQTT matching: a
    plus level matches one level, a final hash matches any number of levels
    including none, any other level matches itself; and validation accepts
    exactly the non-empty patterns whose wildcards stand alone in their level, with
    hash only last; a pattern without wildcard characters matches only itself. *)
Theorem mqtt_match_correct pattern topic :
  (MQTTMatch pattern topic = true ↔
   matches (split_on MQTTSeparator pattern) (split_on MQTTSeparator topic)) ∧
  (ValidateMQTTPattern pattern = None ↔
   pattern ≠ [] ∧ ∀ j part, split_on MQTTSeparator pattern !! j = Some part →
     level_ok (length (split_on MQTTSeparator pattern)) j part) ∧
  (ContainsMQTTWildcard pattern = true ∨ (MQTTMatch pattern topic = true ↔ pattern = topic)).
Proof.
  split; [apply MQTTMatch_spec|]. split; [|apply MQTTMatch_literal]. unfold ValidateMQTTPattern. case_decide as He; [naive_solver|].
  rewrite validateParts_ok; [naive_solver|].
  pose proof (split_on_ne MQTTSeparator pattern). destruct (split_on _ _); simpl; [done|lia].
Qed.

(** ** The subscriber store *)

Section store.
Context {subscriber : Type}.

Record mqttPatternSubscribers := mkSubs { patterns : gmap gostring (gmap N subscriber) }.
Implicit Types (mps : mqttPatternSubscribers) (sub : subscriber).

Definition newMQTTPatternSubscribers : mqttPatternSubscribers := mkSubs ∅.

Definition Add (pattern : gostring) (id : N) sub mps : mqttPatternSubscribers :=
  mkSubs (<[pattern := <[id := sub]> (default ∅ (patterns mps !! pattern))]> (patterns mps)).

Definition Remove (pattern : gostring) (id : N) mps : bool * mqttPatternSubscribers :=
  match patterns mps !! pattern with
  | Some subs =>
      let subs := delete id subs in
      (true, mkSubs (if decide (size subs = 0) then delete pattern (patterns mps)
                     else <[pattern := subs]> (patterns mps)))
  | None => (false, mps)
  end.

(** Go's map iteration order is arbitrary: the result stands for any permutation
    of it. *)
Definition Match (topic : gostring) mps : list subscriber :=
  '(pattern, subs) ← map_to_list (patterns mps);
  if MQTTMatch pattern topic then snd <$> map_to_list subs else [].

Definition List_ mps : list gostring := fst <$> map_to_list (patterns mps).
Definition Count (pattern : gostring) mps : nat := size (default ∅ (patterns mps !! pattern)).
Definition All mps : list subscriber :=
  '(_, subs) ← map_to_list (patterns mps); snd <$> map_to_list subs.
Definition Clear mps : mqttPatternSubscribers := mkSubs ∅.

(** The abstract store: one subscription per pattern and identifier. *)
Definition flat mps : gmap (gostring * N) subscriber := map_uncurry (M1 := gmap gostring) (M2 := gmap N) (patterns mps).

(** No pattern is kept without subscribers. *)
Definition store_ok mps : Prop := ∀ pattern, patterns mps !! pattern ≠ Some ∅.

Lemma flat_lookup mps pattern id :
  flat mps !! (pattern, id) = patterns mps !! pattern ≫= (.!! id).
Proof. apply lookup_map_uncurry. Qed.

Lemma Add_flat pattern id sub mps : flat (Add pattern id sub mps) = <[(pattern, id) := sub]> (flat mps).
Proof.
  apply map_eq. intros [p i]. rewrite lookup_insert, !flat_lookup. simpl. rewrite lookup_insert.
  destruct (decide (pattern = p)) as [<-|Hp].
  - simpl. rewrite lookup_insert. destruct (decide (id = i)) as [<-|Hi].
    + by rewrite decide_True.
    + rewrite decide_False by congruence. by destruct (patterns mps !! pattern).
  - by rewrite decide_False by congruence.
Qed.

Lemma Remove_flat pattern id mps : flat (snd (Remove pattern id mps)) = delete (pattern, id) (flat mps).
Proof.
  apply map_eq. intros [p i]. rewrite lookup_delete, !flat_lookup. unfold Remove.
  destruct (patterns mps !! pattern) as [subs|] eqn:Es; simpl.
  - case_decide as Hz.
    + apply map_size_empty_inv in Hz. rewrite lookup_delete.
      destruct (decide (pattern = p)) as [<-|Hp]; simpl; [|by rewrite decide_False by congruence].
      rewrite Es. simpl. destruct (decide (id = i)) as [<-|Hi]; [by rewrite decide_True|].
      rewrite decide_False by congruence.
      rewrite <- (lookup_delete_ne subs id i) by done. rewrite Hz. by rewrite lookup_empty.
    + rewrite lookup_insert. destruct (decide (pattern = p)) as [<-|Hp]; simpl;
        [|by rewrite decide_False by congruence].
      rewrite Es, lookup_delete. simpl. repeat case_decide; naive_solver.
  - case_decide as E; [|done]. simplify_eq. by rewrite Es.
Qed.

Lemma Add_ok pattern id sub mps : store_ok mps → store_ok (Add pattern id sub mps).
Proof.
  intros Hok p. simpl. rewrite lookup_insert. case_decide; [|apply Hok].
  intros [=E]. by apply insert_non_empty in E.
Qed.

Lemma Remove_ok pattern id mps : store_ok mps → store_ok (snd (Remove pattern id mps)).
Proof.
  intros Hok p. unfold Remove. destruct (patterns mps !! pattern) as [subs|] eqn:Es; simpl; [|apply Hok].
  case_decide as Hz.
  - rewrite lookup_delete. case_decide; [done|apply Hok].
  - rewrite lookup_insert. case_decide; [|apply Hok]. intros [=E]. by rewrite E, map_size_empty in Hz.
Qed.

Lemma Match_elem topic mps sub :
  sub ∈ Match topic mps ↔
  ∃ pattern id, flat mps !! (pattern, id) = Some sub ∧
    matches (split_on MQTTSeparator pattern) (split_on MQTTSeparator topic).
Proof.
  unfold Match. rewrite list_elem_of_bind. setoid_rewrite flat_lookup. split.
  - intros ([p subs] & Hin & Hp%elem_of_map_to_list).
    destruct (MQTTMatch p topic) eqn:Em; [|by apply elem_of_nil in Hin].
    apply list_elem_of_fmap in Hin as ([i s] & -> & Hi%elem_of_map_to_list).
    exists p, i. rewrite Hp. split; [done|]. by apply MQTTMatch_spec.
  - intros (p & i & (subs & Hp & Hi)%bind_Some & Hm). exists (p, subs).
    rewrite elem_of_map_to_list. split; [|done]. apply MQTTMatch_spec in Hm as ->.
    apply list_elem_of_fmap. exists (i, sub). by rewrite elem_of_map_to_list.
Qed.

(** ** Sequences of store operations *)

Inductive sub_op := SAdd (pattern : gostring) (id : N) sub | SRemove (pattern : gostring) (id : N) | SClear.

Definition sub_run (op : sub_op) mps : mqttPatternSubscribers :=
  match op with
  | SAdd p i s => Add p i s mps
  | SRemove p i => snd (Remove p i mps)
  | SClear => Clear mps
  end.
Definition sub_spec (op : sub_op) (m : gmap (gostring * N) subscriber) : gmap (gostring * N) subscriber :=
  match op with
  | SAdd p i s => <[(p, i) := s]> m
  | SRemove p i => delete (p, i) m
  | SClear => ∅
  end.

Lemma sub_runs_flat ops mps m :
  store_ok mps → flat mps = m →
  let mps' := foldl (λ s op, sub_run op s) mps ops in
  store_ok mps' ∧ flat mps' = foldl (λ m op, sub_spec op m) m ops.
Proof.
  revert mps m. induction ops as [|op ops IH]; intros mps m Hok Hf; simpl; [done|].
  apply IH; destruct op; simpl; eauto using Add_ok, Remove_ok.
  - intros p. simpl. by rewrite lookup_empty.
  - by rewrite Add_flat, Hf.
  - by rewrite Remove_flat, Hf.
Qed.

(** After any sequence of subscriptions, unsubscriptions and clears, the
    subscribers selected for a topic are exactly those of the live
    (pattern, id) subscriptions whose pattern matches it, and no pattern is
    listed without a live subscription. *)
Theorem mqtt_store_correct ops topic :
  let mps := foldl (λ s op, sub_run op s) newMQTTPatternSubscribers ops in
  let live := foldl (λ m op, sub_spec op m) ∅ ops in
  (∀ sub, sub ∈ Match topic mps ↔
     ∃ pattern id, live !! (pattern, id) = Some sub ∧
       matches (split_on MQTTSeparator pattern) (split_on MQTTSeparator topic)) ∧
  (∀ pattern, pattern ∈ List_ mps ↔ ∃ id, is_Some (live !! (pattern, id))).
Proof.
  destruct (sub_runs_flat ops newMQTTPatternSubscribers ∅) as [Hok Hf].
  { intros p. simpl. by rewrite lookup_empty. }
  { apply map_eq. intros [p i]. by rewrite flat_lookup, !lookup_empty. }
  cbv zeta. rewrite <- Hf. set (mps := foldl _ _ _) in *. split; [apply Match_elem|].
  intros p. unfold List_. rewrite list_elem_of_fmap. setoid_rewrite flat_lookup. split.
  - intros ([p' subs] & -> & Hp%elem_of_map_to_list). simpl. rewrite Hp. simpl.
    destruct (map_choose subs) as (i & s & Hi); [intros ->; by eapply Hok|]. exists i. eauto.
  - intros (i & s & (subs & Hp & _)%bind_Some). exists (p, subs). by rewrite elem_of_map_to_list.
Qed.

End store.
End Mqtt.
