(* ===== verification/BrokerShards.v ===== *)
(** * The subscription registry of the broker ([x/messaging/pubsub/shard.go])

    Topics and patterns are spread over shards by a hash of their name; two counters
    tell a publisher whether any glob or MQTT pattern exists. The registry is compared
    with one flat map from (kind, topic, id) to subscriptions; the glob counter counts
    the patterns of that map, the MQTT counter only does while no pattern is shared. *)

From stdpp Require Import options.
From S2P Require Import Prelude GoStrings GoPath Mqtt.

Module Shards.

(** [subKind] ([subscriber.go]). *)
Inductive subKind := subKindTopic | subKindPattern | subKindMQTT.
#[export] Instance subKind_eq_dec : EqDecision subKind.
Proof. solve_decision. Defined.

(** ** Hashing to a power of two of shards *)

Definition nextPowerOf2 (n : Z) : Z :=
  if (n <=? 1)%Z then 1%Z
  else
    let n := (n - 1)%Z in
    let n := Z.lor n (Z.shiftr n 1) in
    let n := Z.lor n (Z.shiftr n 2) in
    let n := Z.lor n (Z.shiftr n 4) in
    let n := Z.lor n (Z.shiftr n 8) in
    let n := Z.lor n (Z.shiftr n 16) in
    (n + 1)%Z.

Fixpoint fnv32aLoop (h : Z) (key : gostring) : Z :=
  match key with
  | [] => h
  | c :: key => fnv32aLoop (wrapu32 (Z.lxor h (Z.of_N (byte_val c)) * 16777619)) key
  end.
Definition fnv32a (key : gostring) : Z := fnv32aLoop 2166136261 key.

Section registry.
Context {subscriber : Type}.
Implicit Types (sub : subscriber) (id : N) (topic pattern key : gostring) (kind : subKind).

Abbreviation subscriptions := (gmap gostring (gmap N subscriber)) (only parsing).

Record shard := mkShard {
  topics : subscriptions;
  patterns : subscriptions;
  mqttPatterns : Mqtt.mqttPatternSubscribers (subscriber := subscriber);
}.

Record shardedMap := mkSharded {
  shards : list shard;
  shardCount : Z;
  shardMask : Z;
  patternCount : Z;
  mqttPatternCount : Z;
}.
Implicit Types (s : shard) (sm : shardedMap).

Definition newShard : shard := mkShard ∅ ∅ Mqtt.newMQTTPatternSubscribers.

Definition newShardedMap (count : Z) : shardedMap :=
  let count := if (count <=? 0)%Z then 16%Z else count in
  let count := nextPowerOf2 count in
  {| shards := replicate (Z.to_nat count) newShard; shardCount := count;
     shardMask := wrapu32 (count - 1); patternCount := 0; mqttPatternCount := 0 |}.

Definition getShardIndex key sm : Z := Z.land (fnv32a key) (shardMask sm).

(** [getShard], and its update in place: the index is always in range
    ([getShardIndex_range]). *)
Definition getShard key sm : shard := default newShard (shards sm !! Z.to_nat (getShardIndex key sm)).
Definition setShard key s sm : shardedMap :=
  mkSharded (<[Z.to_nat (getShardIndex key sm) := s]> (shards sm)) (shardCount sm) (shardMask sm)
    (patternCount sm) (mqttPatternCount sm).

Definition addCounts (glob mqtt : Z) sm : shardedMap :=
  mkSharded (shards sm) (shardCount sm) (shardMask sm)
    (patternCount sm + glob)%Z (mqttPatternCount sm + mqtt)%Z.

(** ** Adding *)

Definition addSub (m : subscriptions) key id sub : subscriptions :=
  <[key := <[id := sub]> (default ∅ (m !! key))]> m.

Definition addTopic topic id sub sm : shardedMap :=
  let s := getShard topic sm in
  setShard topic (mkShard (addSub (topics s) topic id sub) (patterns s) (mqttPatterns s)) sm.

Definition addPattern pattern id sub sm : shardedMap :=
  let s := getShard pattern sm in
  let isNew := bool_decide (patterns s !! pattern = None) in
  let sm := setShard pattern (mkShard (topics s) (addSub (patterns s) pattern id sub) (mqttPatterns s)) sm in
  if isNew then addCounts 1 0 sm else sm.

Definition addMQTTPattern pattern id sub sm : shardedMap :=
  let s := getShard pattern sm in
  let isNew := Mqtt.Count pattern (mqttPatterns s) =? 0 in
  let sm := setShard pattern (mkShard (topics s) (patterns s) (Mqtt.Add pattern id sub (mqttPatterns s))) sm in
  if isNew then addCounts 0 1 sm else sm.

(** ** Removing *)

(** Delete an id, and the key with its last id; whether the key has no subscriber
    any more. *)
Definition removeSub (m : subscriptions) key id : bool * subscriptions :=
  match m !! key with
  | None => (true, m)
  | Some subs =>
      let subs := delete id subs in
      if size subs =? 0 then (true, delete key m) else (false, <[key := subs]> m)
  end.

Definition removeTopic topic id sm : bool * shardedMap :=
  let s := getShard topic sm in
  let '(isEmpty, m) := removeSub (topics s) topic id in
  (isEmpty, setShard topic (mkShard m (patterns s) (mqttPatterns s)) sm).

Definition removePattern pattern id sm : bool * shardedMap :=
  let s := getShard pattern sm in
  match patterns s !! pattern with
  | None => (true, sm)
  | Some _ =>
      let '(isEmpty, m) := removeSub (patterns s) pattern id in
      let sm := setShard pattern (mkShard (topics s) m (mqttPatterns s)) sm in
      (isEmpty, if isEmpty then addCounts (-1) 0 sm else sm)
  end.

Definition removeMQTTPattern pattern id sm : bool * shardedMap :=
  let s := getShard pattern sm in
  let '(isEmpty, mps) := Mqtt.Remove pattern id (mqttPatterns s) in
  let sm := setShard pattern (mkShard (topics s) (patterns s) mps) sm in
  (isEmpty, if isEmpty then addCounts 0 (-1) sm else sm).

(** The registration of [subscribeInternal] and [subscribeMQTTInternal], and
    [removeSubscriber]. *)
Definition addSubscriber kind topic id sub sm : shardedMap :=
  match kind with
  | subKindPattern => addPattern topic id sub sm
  | subKindMQTT => addMQTTPattern topic id sub sm
  | subKindTopic => addTopic topic id sub sm
  end.
Definition removeSubscriber kind topic id sm : shardedMap :=
  match kind with
  | subKindPattern => snd (removePattern topic id sm)
  | subKindMQTT => snd (removeMQTTPattern topic id sm)
  | subKindTopic => snd (removeTopic topic id sm)
  end.

(** ** Reading; a map is walked in some order, so the lists stand for any permutation
    of themselves *)

Definition subsOf (subs : gmap N subscriber) : list subscriber := snd <$> map_to_list subs.

Definition getTopicSubscribersIfAny topic sm : list subscriber :=
  subsOf (default ∅ (topics (getShard topic sm) !! topic)).
Definition getTopicSubscriberCount topic sm : nat := size (default ∅ (topics (getShard topic sm) !! topic)).
Definition getPatternSubscriberCount pattern sm : nat := size (default ∅ (patterns (getShard pattern sm) !! pattern)).
Definition getMQTTPatternSubscriberCount pattern sm : nat := Mqtt.Count pattern (mqttPatterns (getShard pattern sm)).
Definition topicExists topic sm : bool := 0 <? getTopicSubscriberCount topic sm.
Definition patternExists pattern sm : bool := 0 <? getPatternSubscriberCount pattern sm.
Definition mqttPatternExists pattern sm : bool := 0 <? getMQTTPatternSubscriberCount pattern sm.
Definition hasAnyPatterns sm : bool := (0 <? patternCount sm)%Z.
Definition hasAnyMQTTPatterns sm : bool := (0 <? mqttPatternCount sm)%Z.

Record patternSnapshot := mkSnapshot { ps_pattern : gostring; isGlob : bool; ps_subs : list subscriber }.

Definition globChars : list gobyte :=
  [GoPath.star_byte; GoPath.question; GoPath.lbracket; GoPath.rbracket; GoPath.backslash].
Definition ContainsAnyGlob pattern : bool := existsb (λ c, bool_decide (c ∈ globChars)) pattern.

Definition snapshotShard s : list patternSnapshot :=
  '(pattern, subs) ← map_to_list (patterns s);
  if decide (size subs = 0) then [] else [mkSnapshot pattern (ContainsAnyGlob pattern) (subsOf subs)].
Definition getAllPatterns sm : list patternSnapshot := shards sm ≫= snapshotShard.

Definition getMQTTPatternMatches topic sm : list subscriber :=
  shards sm ≫= (λ s, Mqtt.Match topic (mqttPatterns s)).

Definition keysOf (m : subscriptions) : list gostring := fst <$> map_to_list m.
Definition listTopics sm : list gostring := shards sm ≫= (λ s, keysOf (topics s)).
Definition listPatterns sm : list gostring := shards sm ≫= (λ s, keysOf (patterns s)).
Definition listMQTTPatterns sm : list gostring := shards sm ≫= (λ s, Mqtt.List_ (mqttPatterns s)).

Definition allSubs (m : subscriptions) : list subscriber := '(_, subs) ← map_to_list m; subsOf subs.
Definition collectShard s : list subscriber :=
  allSubs (topics s) ++ allSubs (patterns s) ++ Mqtt.All (mqttPatterns s).

Definition collectAllSubscribers sm : list subscriber * shardedMap :=
  (shards sm ≫= collectShard,
   mkSharded ((λ s, mkShard ∅ ∅ (Mqtt.Clear (mqttPatterns s))) <$> shards sm) (shardCount sm) (shardMask sm) 0 0).

Record ShardStat := mkStat { Index : nat; TopicCount : nat; PatternCount : nat; SubscriberCount : nat }.

Definition shardStats sm : list ShardStat :=
  imap (λ i s,
    mkStat i (size (topics s)) (size (patterns s) + size (Mqtt.patterns (mqttPatterns s)))
      (sum_list_with size (snd <$> map_to_list (topics s)) + sum_list_with size (snd <$> map_to_list (patterns s))
       + length (Mqtt.All (mqttPatterns s)))) (shards sm).

Definition topicShardMapping sm : gmap gostring Z :=
  foldl (λ m key, <[key := getShardIndex key sm]> m) ∅
    (shards sm ≫= λ s, keysOf (topics s) ++ keysOf (patterns s) ++ Mqtt.List_ (mqttPatterns s)).

(** ** Which patterns a message reaches ([deliverToPatterns]) *)

Definition entryMatches topic (entry : patternSnapshot) : bool :=
  if isGlob entry then default false (GoPath.PathMatch (ps_pattern entry) topic)
  else bool_decide (ps_pattern entry = topic).
Definition globTargets topic (entries : list patternSnapshot) : list subscriber :=
  entries ≫= λ entry, if entryMatches topic entry then ps_subs entry else [].

End registry.
#[global] Arguments shard : clear implicits.
#[global] Arguments shardedMap : clear implicits.
#[global] Arguments patternSnapshot : clear implicits.
End Shards.
