(* ===== verification/BrokerShardsFacts.v ===== *)
(** * Facts about the subscription registry

    The invariant of the sharded maps, the flat map they stand for, and what the
    reads of a publisher return in terms of it. *)

From stdpp Require Import options.
From S2P Require Import Prelude GoStrings GoPath Mqtt BrokerShards.
Import Shards.

(** ** The smallest power of two *)

Lemma smear_bits n k i : (0 ≤ k)%Z → (0 ≤ i)%Z →
  Z.testbit (Z.lor n (Z.shiftr n k)) i = Z.testbit n i || Z.testbit n (i + k).
Proof. intros. by rewrite Z.lor_spec, Z.shiftr_spec. Qed.

(** A bit of the smeared number is set when one of the 32 bits from it upwards is. *)
Lemma smear_all n i : (0 ≤ i)%Z →
  let n1 := Z.lor n (Z.shiftr n 1) in let n2 := Z.lor n1 (Z.shiftr n1 2) in
  let n3 := Z.lor n2 (Z.shiftr n2 4) in let n4 := Z.lor n3 (Z.shiftr n3 8) in
  let n5 := Z.lor n4 (Z.shiftr n4 16) in
  Z.testbit n5 i = true ↔ ∃ j, (i ≤ j < i + 32)%Z ∧ Z.testbit n j = true.
Proof.
  intros Hi. cbv zeta.
  assert (∀ m w k, (0 ≤ k)%Z → (0 < w)%Z → (k ≤ w)%Z →
    (∀ i, (0 ≤ i)%Z → Z.testbit m i = true ↔ ∃ j, (i ≤ j < i + w)%Z ∧ Z.testbit n j = true) →
    (∀ i, (0 ≤ i)%Z → Z.testbit (Z.lor m (Z.shiftr m k)) i = true ↔ ∃ j, (i ≤ j < i + (w + k))%Z ∧ Z.testbit n j = true)) as Hstep.
  { intros m w k Hk Hw Hkw Hm i' Hi'. rewrite smear_bits, orb_true_iff, !Hm by lia. split.
    - intros [(j & Hj & Hb)|(j & Hj & Hb)]; exists j; (split; [lia|done]).
    - intros (j & Hj & Hb). destruct (Z.lt_ge_cases j (i' + w)); [left|right]; exists j; (split; [lia|done]). }
  apply (Hstep _ 16 16)%Z; [lia..| |done].
  apply (Hstep _ 8 8)%Z; [lia..|]. apply (Hstep _ 4 4)%Z; [lia..|].
  apply (Hstep _ 2 2)%Z; [lia..|]. apply (Hstep _ 1 1)%Z; [lia..|].
  intros i' _. split.
  - intros Hb. exists i'. split; [lia|done].
  - intros (j & Hj & Hb). by replace i' with j by lia.
Qed.

Lemma nextPowerOf2_spec n : (2 ≤ n ≤ 2 ^ 32)%Z → nextPowerOf2 n = (2 ^ (Z.log2 (n - 1) + 1))%Z.
Proof.
  intros Hn. unfold nextPowerOf2. rewrite (proj2 (Z.leb_gt _ _)) by lia. cbv zeta.
  set (m := (n - 1)%Z) in *. set (k := Z.log2 m).
  assert (0 ≤ k < 32)%Z as Hk.
  { unfold k. split; [apply Z.log2_nonneg|]. apply Z.log2_lt_pow2; lia. }
  match goal with |- (?x + 1)%Z = _ => enough (x = Z.ones (k + 1)) as -> end.
  { rewrite Z.ones_equiv. lia. }
  apply Z.bits_inj'. intros i Hi. apply eq_true_iff_eq. rewrite (smear_all m i Hi).
  rewrite Z.ones_spec_iff by lia. split.
  - intros (j & Hj & Hb). split; [lia|]. destruct (Z.lt_ge_cases k j) as [Hkj|]; [|lia].
    rewrite Z.bits_above_log2 in Hb; [done|lia|done].
  - intros [_ Hik]. exists k. split; [lia|]. apply Z.bit_log2. lia.
Qed.

(** The result is a power of two, at least [n], and less than twice [n]. *)
Lemma nextPowerOf2_least n : (1 ≤ n ≤ 2 ^ 32)%Z →
  ∃ k, (0 ≤ k ≤ 32)%Z ∧ nextPowerOf2 n = (2 ^ k)%Z ∧ (n ≤ 2 ^ k < 2 * n)%Z.
Proof.
  intros Hn. destruct (Z.eq_dec n 1) as [->|]; [exists 0%Z; split; [lia|]; split; [done|lia]|].
  exists (Z.log2 (n - 1) + 1)%Z. pose proof (Z.log2_spec (n - 1) ltac:(lia)) as [H1 H2].
  pose proof (Z.log2_nonneg (n - 1)). assert (Z.log2 (n - 1) < 32)%Z by (apply Z.log2_lt_pow2; lia).
  split; [lia|]. split; [by apply nextPowerOf2_spec; lia|].
  rewrite Z.pow_add_r by lia. unfold Z.succ in H2. rewrite Z.pow_add_r in H2 by lia. lia.
Qed.

Lemma fnv32aLoop_bound h key : (0 ≤ h < 2 ^ 32)%Z → (0 ≤ fnv32aLoop h key < 2 ^ 32)%Z.
Proof.
  revert h. induction key as [|c key IH]; intros h Hh; simpl; [done|]. apply IH, wrapu32_range.
Qed.

Lemma land_range a b : (0 ≤ a)%Z → (0 ≤ b)%Z → (0 ≤ Z.land a b ≤ b)%Z.
Proof.
  intros Ha Hb. split; [apply Z.land_nonneg; lia|].
  rewrite <- (Z2N.id a), <- (Z2N.id b), <- N2Z.inj_land by done. apply N2Z.inj_le, N.land_le_r.
Qed.

(** ** The invariant and the flat view *)

Section facts.
Context {subscriber : Type}.
Implicit Types (sub : subscriber) (id : N) (topic pattern key : gostring) (kind : subKind).
Implicit Types (s : shard subscriber) (sm : shardedMap subscriber).
Abbreviation subscriptions := (gmap gostring (gmap N subscriber)) (only parsing).

Definition kindMap kind s : subscriptions :=
  match kind with
  | subKindTopic => topics s
  | subKindPattern => patterns s
  | subKindMQTT => Mqtt.patterns (mqttPatterns s)
  end.
Definition withKind kind (m : subscriptions) s : shard subscriber :=
  match kind with
  | subKindTopic => mkShard m (patterns s) (mqttPatterns s)
  | subKindPattern => mkShard (topics s) m (mqttPatterns s)
  | subKindMQTT => mkShard (topics s) (patterns s) (Mqtt.mkSubs m)
  end.
Lemma kindMap_with kind kind' m s :
  kindMap kind' (withKind kind m s) = if decide (kind = kind') then m else kindMap kind' s.
Proof. by destruct kind, kind'. Qed.

Definition flatLookup (m : subscriptions) key id : option subscriber := m !! key ≫= (.!! id).
Definition lookupSub sm kind key id : option subscriber := flatLookup (kindMap kind (getShard key sm)) key id.

Definition indexOf key sm : nat := Z.to_nat (getShardIndex key sm).
Definition patternsIn kind sm : nat := sum_list_with (λ s, size (kindMap kind s)) (shards sm).

Record sm_ok sm : Prop := {
  ok_count : (1 ≤ shardCount sm ≤ 2 ^ 32)%Z;
  ok_mask : shardMask sm = (shardCount sm - 1)%Z;
  ok_len : length (shards sm) = Z.to_nat (shardCount sm);
  ok_home : ∀ i s kind key, shards sm !! i = Some s → is_Some (kindMap kind s !! key) → i = indexOf key sm;
  ok_nonempty : ∀ i s kind key, shards sm !! i = Some s → kindMap kind s !! key ≠ Some ∅;
  ok_globs : patternCount sm = Z.of_nat (patternsIn subKindPattern sm);
}.

Lemma getShardIndex_range key sm : sm_ok sm → indexOf key sm < length (shards sm).
Proof.
  intros Hok. rewrite (ok_len _ Hok). pose proof (ok_count _ Hok). unfold indexOf, getShardIndex.
  rewrite (ok_mask _ Hok). pose proof (fnv32aLoop_bound 2166136261 key ltac:(lia)).
  assert (0 ≤ Z.land (fnv32a key) (shardCount sm - 1) ≤ shardCount sm - 1)%Z; [|lia].
  apply land_range; [apply H0|lia].
Qed.

Lemma registry_shard_lookup key sm : sm_ok sm → shards sm !! indexOf key sm = Some (getShard key sm).
Proof.
  intros Hok. unfold getShard. fold (indexOf key sm).
  destruct (lookup_lt_is_Some_2 _ _ (getShardIndex_range key sm Hok)) as [s ->]. done.
Qed.

(** A key is found in a shard only when the shard is the key's own. *)
Lemma lookup_home i s kind key subs sm :
  sm_ok sm → shards sm !! i = Some s → kindMap kind s !! key = Some subs → s = getShard key sm.
Proof.
  intros Hok Hi Hk. pose proof (ok_home _ Hok i s kind key Hi ltac:(eauto)) as ->.
  rewrite registry_shard_lookup in Hi by done. congruence.
Qed.

(** ** One shard changes *)

Lemma shards_set key s sm : shards (setShard key s sm) = <[indexOf key sm := s]> (shards sm).
Proof. done. Qed.
Lemma indexOf_set key key' s sm : indexOf key' (setShard key s sm) = indexOf key' sm.
Proof. done. Qed.
Lemma indexOf_counts key a b sm : indexOf key (addCounts a b sm) = indexOf key sm.
Proof. done. Qed.

Lemma sum_insert {A} (f : A → nat) (l : list A) i x y :
  l !! i = Some x → sum_list_with f (<[i := y]> l) + f x = sum_list_with f l + f y.
Proof.
  revert i. induction l as [|z l IH]; intros [|i] Hi; simplify_eq/=; [lia|]. specialize (IH i Hi). lia.
Qed.

Lemma patternsIn_set kind key s sm : sm_ok sm →
  patternsIn kind (setShard key s sm) + size (kindMap kind (getShard key sm))
  = patternsIn kind sm + size (kindMap kind s).
Proof.
  intros Hok. unfold patternsIn. rewrite shards_set.
  apply (sum_insert (λ s, size (kindMap kind s))), registry_shard_lookup, Hok.
Qed.

Lemma getShard_set key key' s sm : sm_ok sm →
  getShard key' (setShard key s sm) = if decide (indexOf key sm = indexOf key' sm) then s else getShard key' sm.
Proof.
  intros Hok. unfold getShard. fold (indexOf key' (setShard key s sm)) (indexOf key' sm). rewrite shards_set, indexOf_set.
  case_decide as Hi; [rewrite <- Hi, list_lookup_insert_eq by (by apply getShardIndex_range); done|].
  by rewrite list_lookup_insert_ne.
Qed.

(** Changing one map at one key of its shard. *)
Definition setKey kind key (o : option (gmap N subscriber)) sm : shardedMap subscriber :=
  let s := getShard key sm in
  setShard key (withKind kind (partial_alter (λ _, o) key (kindMap kind s)) s) sm.

Lemma setKey_lookup kind key o sm kind' key' : sm_ok sm →
  kindMap kind' (getShard key' (setKey kind key o sm)) !! key' =
  if decide (kind = kind' ∧ key = key') then o else kindMap kind' (getShard key' sm) !! key'.
Proof.
  intros Hok. unfold setKey. rewrite getShard_set by done. case_decide as Hi.
  - rewrite kindMap_with. destruct (decide (kind = kind')) as [<-|Hk]; [|rewrite decide_False by tauto].
    + destruct (decide (key = key')) as [<-|Hne]; [by rewrite decide_True, lookup_partial_alter_eq|].
      rewrite decide_False, lookup_partial_alter_ne by tauto.
      assert (getShard key sm = getShard key' sm) as ->; [|done].
      apply (inj Some). rewrite <- !registry_shard_lookup by done. by rewrite Hi.
    + assert (getShard key sm = getShard key' sm) as ->; [|done].
      apply (inj Some). rewrite <- !registry_shard_lookup by done. by rewrite Hi.
  - rewrite decide_False; [done|]. intros [_ ->]. done.
Qed.

Lemma setKey_size kind key o sm : sm_ok sm →
  patternsIn kind (setKey kind key o sm) + (if kindMap kind (getShard key sm) !! key is Some _ then 1 else 0) =
  patternsIn kind sm + (if o is Some _ then 1 else 0).
Proof.
  intros Hok. unfold setKey. set (s := getShard key sm).
  pose proof (patternsIn_set kind key (withKind kind (partial_alter (λ _, o) key (kindMap kind s)) s) sm Hok) as Hs.
  fold s in Hs. rewrite kindMap_with, decide_True in Hs by done. set (m := kindMap kind s) in *. clearbody m.
  assert (size (partial_alter (λ _, o) key m) + (if m !! key is Some _ then 1 else 0) = size m + (if o is Some _ then 1 else 0)); [|lia].
  destruct o as [x|].
  - change (partial_alter (λ _, Some x) key m) with (<[key := x]> m). rewrite map_size_insert.
    destruct (m !! key); simpl; lia.
  - change (partial_alter (λ _, None) key m) with (delete key m). rewrite map_size_delete.
    destruct (m !! key) eqn:E; simpl; [|lia].
    assert (size m ≠ 0); [|lia]. intros Hz%map_size_empty_inv. by rewrite Hz, lookup_empty in E.
Qed.

Lemma setKey_size_ne kind kind' key o sm : sm_ok sm → kind ≠ kind' →
  patternsIn kind' (setKey kind key o sm) = patternsIn kind' sm.
Proof.
  intros Hok Hne. unfold setKey. set (s := getShard key sm).
  pose proof (patternsIn_set kind' key (withKind kind (partial_alter (λ _, o) key (kindMap kind s)) s) sm Hok) as Hs.
  rewrite kindMap_with, decide_False in Hs by done. fold s in Hs. lia.
Qed.

(** The invariant survives when the glob counter follows. *)
Lemma setKey_ok kind key o a b sm : sm_ok sm → o ≠ Some ∅ →
  patternCount (addCounts a b sm) = Z.of_nat (patternsIn subKindPattern (setKey kind key o sm)) →
  sm_ok (addCounts a b (setKey kind key o sm)).
Proof.
  intros Hok Ho Hc. pose proof (getShardIndex_range key sm Hok) as Hr.
  assert (∀ i s', shards (setKey kind key o sm) !! i = Some s' →
    (i = indexOf key sm ∧ ∀ k x, kindMap k s' !! x = if decide (kind = k ∧ key = x) then o
      else kindMap k (getShard key sm) !! x) ∨ shards sm !! i = Some s') as Hsh.
  { intros i s' Hi. unfold setKey in Hi. rewrite shards_set in Hi.
    apply list_lookup_insert_Some in Hi as [(<- & <- & _)|[_ Hi]]; [|by right]. left. split; [done|].
    intros k x. rewrite kindMap_with. destruct (decide (kind = k)) as [<-|]; [|by rewrite decide_False by tauto].
    destruct (decide (key = x)) as [<-|]; [by rewrite decide_True, lookup_partial_alter_eq|].
    by rewrite decide_False, lookup_partial_alter_ne by tauto. }
  split.
  - apply (ok_count _ Hok).
  - apply (ok_mask _ Hok).
  - simpl. rewrite length_insert. apply (ok_len _ Hok).
  - intros i s' k x Hi Hx. change (i = indexOf x sm). change (shards (setKey kind key o sm) !! i = Some s') in Hi.
    destruct (Hsh i s' Hi) as [[-> Hk]|Hi']; [|by eapply (ok_home _ Hok)].
    rewrite Hk in Hx. case_decide as Hd; [by destruct Hd as [_ ->]|].
    eapply (ok_home _ Hok); [apply registry_shard_lookup, Hok|done].
  - intros i s' k x Hi Hx. change (shards (setKey kind key o sm) !! i = Some s') in Hi.
    destruct (Hsh i s' Hi) as [[-> Hk]|Hi']; [|by eapply (ok_nonempty _ Hok)].
    rewrite Hk in Hx. case_decide as Hd; [done|].
    eapply (ok_nonempty _ Hok); [apply registry_shard_lookup, Hok|done].
  - done.
Qed.

Lemma getShard_counts key a b sm : getShard key (addCounts a b sm) = getShard key sm.
Proof. done. Qed.

(** ** Adding and removing *)

Definition currentOf kind key sm : option (gmap N subscriber) := kindMap kind (getShard key sm) !! key.

Lemma addCounts_0 sm : addCounts 0 0 sm = sm.
Proof. destruct sm. unfold addCounts. simpl. by rewrite !Z.add_0_r. Qed.

(** How much a counter changes when a key is added. *)
Definition addDelta (kind kind' : subKind) (cur : option (gmap N subscriber)) : Z :=
  if decide (kind = kind') then (if cur is Some subs then (if decide (subs = ∅) then 1 else 0) else 1)%Z else 0%Z.

Lemma addSubscriber_eq kind key id sub sm : sm_ok sm →
  addSubscriber kind key id sub sm =
  addCounts (addDelta subKindPattern kind (currentOf kind key sm)) (addDelta subKindMQTT kind (currentOf kind key sm))
    (setKey kind key (Some (<[id := sub]> (default ∅ (currentOf kind key sm)))) sm).
Proof.
  intros Hok. pose proof (ok_nonempty _ Hok _ _ kind key (registry_shard_lookup key sm Hok)) as Hne.
  unfold currentOf. destruct kind; simpl in *.
  - unfold addDelta. simpl. by rewrite addCounts_0.
  - unfold addPattern, addDelta, setKey, addSub. simpl.
    destruct (patterns (getShard key sm) !! key) as [subs|] eqn:E; simpl; [|done].
    rewrite decide_False by congruence. by rewrite addCounts_0.
  - unfold addMQTTPattern, addDelta, setKey, Mqtt.Count, Mqtt.Add. simpl.
    destruct (Mqtt.patterns (mqttPatterns (getShard key sm)) !! key) as [subs|] eqn:E; simpl; [|done].
    assert (subs ≠ ∅) by congruence. rewrite decide_False by done.
    rewrite (proj2 (Nat.eqb_neq _ _)) by by rewrite map_size_empty_iff. by rewrite addCounts_0.
Qed.

Definition removed id (cur : option (gmap N subscriber)) : option (gmap N subscriber) :=
  subs ← cur; if size (delete id subs) =? 0 then None else Some (delete id subs).
(** How much a counter changes when an id is removed: the glob counter follows the
    patterns, the MQTT counter goes down whenever the pattern was known. *)
Definition removeDelta (kind kind' : subKind) id (cur : option (gmap N subscriber)) : Z :=
  if decide (kind = kind') then
    match cur with
    | Some subs => if decide (kind = subKindMQTT) then -1 else if (size (delete id subs) =? 0)%nat then -1 else 0
    | None => 0
    end%Z
  else 0%Z.

Lemma setShard_id key s sm : sm_ok sm → s = getShard key sm → setShard key s sm = sm.
Proof.
  intros Hok ->. unfold setShard. rewrite list_insert_id by by apply registry_shard_lookup. by destruct sm.
Qed.

Lemma withKind_id kind s : withKind kind (kindMap kind s) s = s.
Proof. destruct kind, s as [a b []]; done. Qed.

Lemma setKey_none kind key sm : sm_ok sm → currentOf kind key sm = None → setKey kind key None sm = sm.
Proof.
  intros Hok Hc. apply setShard_id; [done|]. change (partial_alter (λ _, None) key ?m) with (delete key m).
  rewrite delete_id by done. apply withKind_id.
Qed.

Lemma removeSubscriber_eq kind key id sm : sm_ok sm →
  removeSubscriber kind key id sm =
  addCounts (removeDelta subKindPattern kind id (currentOf kind key sm)) (removeDelta subKindMQTT kind id (currentOf kind key sm))
    (setKey kind key (removed id (currentOf kind key sm)) sm).
Proof.
  intros Hok. destruct (currentOf kind key sm) as [subs|] eqn:E.
  2:{ simpl. unfold removeDelta. rewrite setKey_none by done. repeat case_decide; rewrite addCounts_0.
      all: destruct kind; simpl; unfold removeTopic, removePattern, removeMQTTPattern, removeSub, Mqtt.Remove, currentOf in *;
        simpl in *; rewrite ?E; simpl; try done; by apply setShard_id; [|destruct (getShard key sm)]. }
  destruct kind; unfold removeDelta; simpl; rewrite ?addCounts_0;
    unfold removeTopic, removePattern, removeMQTTPattern, removeSub, Mqtt.Remove, currentOf in *; simpl in *; rewrite E; simpl.
  - unfold setKey. simpl. destruct (Nat.eqb_spec (size (delete id subs)) 0); done.
  - unfold setKey. simpl. destruct (Nat.eqb_spec (size (delete id subs)) 0); simpl; [done|]. by rewrite addCounts_0.
  - unfold setKey. simpl. case_decide as Hd; destruct (Nat.eqb_spec (size (delete id subs)) 0); done.
Qed.

(** ** The two operations on the flat view, and the invariant *)

Lemma lookupSub_set kind key o a b sm kind' key' id' : sm_ok sm →
  lookupSub (addCounts a b (setKey kind key o sm)) kind' key' id' =
  if decide (kind = kind' ∧ key = key') then o ≫= (.!! id') else lookupSub sm kind' key' id'.
Proof.
  intros Hok. unfold lookupSub, flatLookup. rewrite getShard_counts, setKey_lookup by done. by case_decide.
Qed.

Lemma addSubscriber_lookup kind key id sub sm kind' key' id' : sm_ok sm →
  lookupSub (addSubscriber kind key id sub sm) kind' key' id' =
  if decide ((kind, key, id) = (kind', key', id')) then Some sub else lookupSub sm kind' key' id'.
Proof.
  intros Hok. rewrite addSubscriber_eq, lookupSub_set by done.
  destruct (decide (kind = kind' ∧ key = key')) as [[<- <-]|Hn]; [|by rewrite decide_False by naive_solver].
  simpl. rewrite lookup_insert. destruct (decide (id = id')) as [<-|]; [by rewrite decide_True|].
  rewrite decide_False by congruence. unfold lookupSub, flatLookup, currentOf. by destruct (_ !! key).
Qed.

Lemma removed_lookup id cur id' : removed id cur ≫= (.!! id') = if decide (id = id') then None else cur ≫= (.!! id').
Proof.
  destruct cur as [subs|]; simpl; [|by case_decide].
  destruct (Nat.eqb_spec (size (delete id subs)) 0) as [Hz|Hz]; simpl.
  - apply map_size_empty_inv in Hz. case_decide; [done|].
    rewrite <- (lookup_delete_ne subs id id') by done. by rewrite Hz, lookup_empty.
  - rewrite lookup_delete. by case_decide.
Qed.

Lemma removeSubscriber_lookup kind key id sm kind' key' id' : sm_ok sm →
  lookupSub (removeSubscriber kind key id sm) kind' key' id' =
  if decide ((kind, key, id) = (kind', key', id')) then None else lookupSub sm kind' key' id'.
Proof.
  intros Hok. rewrite removeSubscriber_eq, lookupSub_set by done.
  destruct (decide (kind = kind' ∧ key = key')) as [[<- <-]|Hn]; [|by rewrite decide_False by naive_solver].
  rewrite removed_lookup. destruct (decide (id = id')) as [<-|]; [by rewrite decide_True|].
  by rewrite decide_False by congruence.
Qed.

Lemma currentOf_ne kind key sm : sm_ok sm → currentOf kind key sm ≠ Some ∅.
Proof. intros Hok. eapply (ok_nonempty _ Hok), registry_shard_lookup, Hok. Qed.

Lemma removed_ne id cur : removed id cur ≠ Some ∅.
Proof.
  destruct cur as [subs|]; simpl; [|done]. destruct (Nat.eqb_spec (size (delete id subs)) 0) as [|Hz]; [done|].
  intros [=E]. by rewrite E, map_size_empty in Hz.
Qed.

Lemma addSubscriber_ok kind key id sub sm : sm_ok sm → sm_ok (addSubscriber kind key id sub sm).
Proof.
  intros Hok. rewrite addSubscriber_eq by done. apply setKey_ok; [done|intros [=E]; by apply insert_non_empty in E|].
  simpl. rewrite (ok_globs _ Hok). pose proof (currentOf_ne kind key sm Hok) as Hc. unfold addDelta.
  destruct (decide (kind = subKindPattern)) as [->|Hk].
  - rewrite decide_True by done.
    pose proof (setKey_size subKindPattern key (Some (<[id := sub]> (default ∅ (currentOf subKindPattern key sm)))) sm Hok) as Hs.
    fold (currentOf subKindPattern key sm) in Hs. destruct (currentOf subKindPattern key sm) as [subs|]; [|lia].
    rewrite decide_False by congruence. lia.
  - rewrite setKey_size_ne, decide_False by congruence. lia.
Qed.

Lemma removeSubscriber_ok kind key id sm : sm_ok sm → sm_ok (removeSubscriber kind key id sm).
Proof.
  intros Hok. rewrite removeSubscriber_eq by done. apply setKey_ok; [done|apply removed_ne|].
  simpl. rewrite (ok_globs _ Hok). unfold removeDelta.
  destruct (decide (kind = subKindPattern)) as [->|Hk].
  - rewrite decide_True by done.
    pose proof (setKey_size subKindPattern key (removed id (currentOf subKindPattern key sm)) sm Hok) as Hs.
    fold (currentOf subKindPattern key sm) in Hs. destruct (currentOf subKindPattern key sm) as [subs|]; simpl in *; [|lia].
    destruct (size (delete id subs) =? 0); simpl in *; lia.
  - rewrite setKey_size_ne, decide_False by congruence. lia.
Qed.

(** ** A new registry, and the clearing one *)

Lemma lookup_new i s count kind key :
  shards (newShardedMap (subscriber := subscriber) count) !! i = Some s → kindMap kind s !! key = None.
Proof. intros [-> _]%lookup_replicate. by destruct kind. Qed.

Lemma sum_replicate {A} (f : A → nat) n (x : A) : f x = 0 → sum_list_with f (replicate n x) = 0.
Proof. intros Hx. induction n as [|n IH]; simpl; lia. Qed.

Lemma registry_new_ok count : (count ≤ 2 ^ 32)%Z → sm_ok (newShardedMap (subscriber := subscriber) count).
Proof.
  intros Hc. set (c := if (count <=? 0)%Z then 16%Z else count).
  assert (1 ≤ c ≤ 2 ^ 32)%Z as Hc' by (unfold c; destruct (Z.leb_spec count 0); lia).
  destruct (nextPowerOf2_least c Hc') as (k & Hk & E & Hr).
  assert (1 ≤ 2 ^ k ≤ 2 ^ 32)%Z as Hp by (split; [lia|apply Z.pow_le_mono_r; lia]).
  split; unfold newShardedMap; fold c; cbv zeta; simpl; rewrite ?E.
  - done.
  - apply wrapu32_small. lia.
  - by rewrite length_replicate.
  - intros i s kind key [-> _]%lookup_replicate. destruct kind; simpl; rewrite lookup_empty; by intros [].
  - intros i s kind key [-> _]%lookup_replicate. by destruct kind.
  - unfold patternsIn. simpl. rewrite sum_replicate; done.
Qed.

Lemma new_lookup count kind key id : (count ≤ 2 ^ 32)%Z →
  lookupSub (newShardedMap (subscriber := subscriber) count) kind key id = None.
Proof.
  intros Hc. unfold lookupSub, flatLookup.
  rewrite (lookup_new _ _ count kind key (registry_shard_lookup key _ (registry_new_ok count Hc))). done.
Qed.

Lemma registry_collect_ok sm : sm_ok sm → sm_ok (collectAllSubscribers sm).2.
Proof.
  intros Hok. split; simpl; [apply (ok_count _ Hok)|apply (ok_mask _ Hok)|rewrite length_fmap; apply (ok_len _ Hok)| | |].
  - intros i s kind key (s' & -> & _)%list_lookup_fmap_Some. destruct kind; simpl; rewrite lookup_empty; by intros [].
  - intros i s kind key (s' & -> & _)%list_lookup_fmap_Some. by destruct kind.
  - unfold patternsIn. simpl. induction (shards sm) as [|s l IH]; simpl; [done|]. by rewrite map_size_empty.
Qed.

Lemma collect_lookup sm kind key id : sm_ok sm → lookupSub (collectAllSubscribers sm).2 kind key id = None.
Proof.
  intros Hok. pose proof (registry_shard_lookup key _ (registry_collect_ok sm Hok)) as Hs. simpl in Hs.
  apply list_lookup_fmap_Some in Hs as (s' & Hs & _). unfold lookupSub, flatLookup, collectAllSubscribers. simpl.
  rewrite Hs. by destruct kind.
Qed.

(** ** What a publisher reads *)

Lemma subsOf_elem (subs : gmap N subscriber) sub : sub ∈ subsOf subs ↔ ∃ id, subs !! id = Some sub.
Proof.
  unfold subsOf. rewrite list_elem_of_fmap. split.
  - intros ([i x] & -> & Hi%elem_of_map_to_list). eauto.
  - intros [i Hi]. exists (i, sub). by rewrite elem_of_map_to_list.
Qed.

(** Reading every shard is reading the flat view. *)
Lemma shards_lookup sm (kind : subKind) key id sub : sm_ok sm →
  (∃ s, s ∈ shards sm ∧ flatLookup (kindMap kind s) key id = Some sub) ↔ lookupSub sm kind key id = Some sub.
Proof.
  intros Hok. unfold lookupSub, flatLookup. split.
  - intros (s & [i Hi]%list_elem_of_lookup & (subs & Hk & Hs)%bind_Some).
    rewrite <- (lookup_home i s kind key subs sm Hok Hi Hk). by rewrite Hk.
  - intros Hl. exists (getShard key sm). split; [|done]. eapply list_elem_of_lookup_2, registry_shard_lookup, Hok.
Qed.

Lemma topic_targets_elem topic sm sub :
  sub ∈ getTopicSubscribersIfAny topic sm ↔ ∃ id, lookupSub sm subKindTopic topic id = Some sub.
Proof.
  unfold getTopicSubscribersIfAny, lookupSub, flatLookup. rewrite subsOf_elem. simpl.
  destruct (topics (getShard topic sm) !! topic); simpl; [done|]. split; intros [? H]; [by rewrite lookup_empty in H|done].
Qed.

Lemma mqtt_targets_elem topic sm sub : sm_ok sm →
  sub ∈ getMQTTPatternMatches topic sm ↔
  ∃ pattern id, lookupSub sm subKindMQTT pattern id = Some sub ∧ Mqtt.MQTTMatch pattern topic = true.
Proof.
  intros Hok. unfold getMQTTPatternMatches. rewrite list_elem_of_bind. setoid_rewrite Mqtt.Match_elem.
  setoid_rewrite <- Mqtt.MQTTMatch_spec. setoid_rewrite Mqtt.flat_lookup. split.
  - intros (s & (p & i & Hl & Hm) & Hs). exists p, i. split; [|done]. apply shards_lookup; [done|]. eauto.
  - intros (p & i & Hl & Hm). apply (shards_lookup sm subKindMQTT) in Hl as (s & Hs & Hl); [|done]. eauto 8.
Qed.

Definition patternMatches topic pattern : bool :=
  if ContainsAnyGlob pattern then default false (GoPath.PathMatch pattern topic) else bool_decide (pattern = topic).

Lemma snapshot_elem s topic sub :
  sub ∈ globTargets topic (snapshotShard s) ↔
  ∃ pattern id, flatLookup (patterns s) pattern id = Some sub ∧ patternMatches topic pattern = true.
Proof.
  unfold globTargets, snapshotShard. rewrite list_elem_of_bind. setoid_rewrite list_elem_of_bind. split.
  - intros (e & Hin & [p subs] & He & Hp%elem_of_map_to_list). case_decide; [by apply elem_of_nil in He|].
    apply list_elem_of_singleton in He as ->. unfold entryMatches in Hin. simpl in Hin. fold (patternMatches topic p) in Hin.
    destruct (patternMatches topic p) eqn:Em; [|by apply elem_of_nil in Hin].
    apply subsOf_elem in Hin as [i Hi]. exists p, i. unfold flatLookup. by rewrite Hp.
  - intros (p & i & (subs & Hp & Hi)%bind_Some & Hm). exists (mkSnapshot p (ContainsAnyGlob p) (subsOf subs)).
    unfold entryMatches. simpl. fold (patternMatches topic p). rewrite Hm. split; [apply subsOf_elem; eauto|].
    exists (p, subs). rewrite elem_of_map_to_list. split; [|done]. rewrite decide_False; [by apply list_elem_of_singleton|].
    intros Hz%map_size_empty_inv. subst. by rewrite lookup_empty in Hi.
Qed.

Lemma globTargets_bind topic (l : list (shard subscriber)) :
  globTargets topic (l ≫= snapshotShard) = l ≫= (λ s, globTargets topic (snapshotShard s)).
Proof.
  unfold globTargets. induction l as [|s l IH]; [done|]. by rewrite !bind_cons, bind_app, IH.
Qed.

Lemma glob_targets_elem topic sm sub : sm_ok sm →
  sub ∈ globTargets topic (getAllPatterns sm) ↔
  ∃ pattern id, lookupSub sm subKindPattern pattern id = Some sub ∧ patternMatches topic pattern = true.
Proof.
  intros Hok. unfold getAllPatterns. rewrite globTargets_bind, list_elem_of_bind. setoid_rewrite snapshot_elem. split.
  - intros (s & (p & i & Hl & Hm) & Hs). exists p, i. split; [|done]. apply shards_lookup; [done|]. eauto.
  - intros (p & i & Hl & Hm). apply (shards_lookup sm subKindPattern) in Hl as (s & Hs & Hl); [|done]. eauto 8.
Qed.

(** A pattern without metacharacters is compared directly: the same answer as
    [path.Match]. *)
Lemma patternMatches_PathMatch topic pattern :
  GoPath.valid pattern = true → GoPath.PathMatch pattern topic = Some (patternMatches topic pattern).
Proof.
  intros Hv. unfold patternMatches. destruct (ContainsAnyGlob pattern) eqn:E.
  - destruct (proj2 (GoPath.PathMatch_valid pattern topic) Hv) as [b ->]. done.
  - apply GoPath.PathMatch_plain. apply Forall_forall. intros c Hc. unfold GoPath.plain.
    assert (c ∉ globChars) as Hn; [|unfold globChars in Hn; set_solver].
    intros Hg. apply not_true_iff_false in E. destruct E. apply existsb_exists. exists c.
    split; [by apply list_elem_of_In|by rewrite bool_decide_true].
Qed.

(** ** Every subscription once *)

Lemma subsOf_nodup (subs : gmap N subscriber) :
  (∀ i j x, subs !! i = Some x → subs !! j = Some x → i = j) → NoDup (subsOf subs).
Proof.
  intros Hinj. unfold subsOf. apply NoDup_fmap_2_strong; [|apply NoDup_map_to_list].
  intros [i x] [j y] Hi%elem_of_map_to_list Hj%elem_of_map_to_list E. simpl in E. subst. f_equal. by eapply Hinj.
Qed.

(** Subscriptions are registered under one kind, key and id. *)
Definition registered_once sm : Prop :=
  ∀ kind key id kind' key' id' sub,
    lookupSub sm kind key id = Some sub → lookupSub sm kind' key' id' = Some sub →
    kind = kind' ∧ key = key' ∧ id = id'.

Lemma bind_nodup {A B} (f : A → list B) (l : list A) :
  (∀ i1 i2 x1 x2 y, l !! i1 = Some x1 → l !! i2 = Some x2 → y ∈ f x1 → y ∈ f x2 → i1 = i2) →
  (∀ x, x ∈ l → NoDup (f x)) → NoDup (l ≫= f).
Proof.
  induction l as [|x l IH]; intros Hinj Hnd; simpl; [constructor|]. apply NoDup_app. split_and!.
  - apply Hnd. left.
  - intros y Hy (x' & Hy' & [i Hi]%list_elem_of_lookup)%list_elem_of_bind.
    by specialize (Hinj 0 (S i) x x' y eq_refl Hi Hy Hy').
  - apply IH; [|intros x' ?; apply Hnd; by right].
    intros i1 i2 x1 x2 y H1 H2 Hy1 Hy2. by pose proof (Hinj (S i1) (S i2) x1 x2 y H1 H2 Hy1 Hy2) as [=].
Qed.

(** A walk of every shard, key by key, that yields subscriptions of that key meets no
    subscription twice. *)
Lemma registry_walk_nodup sm kind (f : gostring → gmap N subscriber → list subscriber) :
  sm_ok sm → registered_once sm →
  (∀ key subs, NoDup (subsOf subs) → NoDup (f key subs)) → (∀ key subs x, x ∈ f key subs → x ∈ subsOf subs) →
  NoDup (shards sm ≫= λ s, '(key, subs) ← map_to_list (kindMap kind s); f key subs).
Proof.
  intros Hok Hone Hnd Hsub.
  assert (∀ i s key subs id x, shards sm !! i = Some s → kindMap kind s !! key = Some subs → subs !! id = Some x →
    lookupSub sm kind key id = Some x) as Hlk.
  { intros i s key subs id x Hi Hk Hx. apply shards_lookup; [done|]. exists s.
    split; [by eapply list_elem_of_lookup_2|]. unfold flatLookup. by rewrite Hk. }
  apply bind_nodup.
  - intros i1 i2 s1 s2 x Hi1 Hi2 Hx1 Hx2.
    apply list_elem_of_bind in Hx1 as ([k1 m1] & Hx1 & Hk1%elem_of_map_to_list).
    apply list_elem_of_bind in Hx2 as ([k2 m2] & Hx2 & Hk2%elem_of_map_to_list).
    apply Hsub, subsOf_elem in Hx1 as [j1 Hx1]. apply Hsub, subsOf_elem in Hx2 as [j2 Hx2].
    destruct (Hone _ _ _ _ _ _ _ (Hlk _ _ _ _ _ _ Hi1 Hk1 Hx1) (Hlk _ _ _ _ _ _ Hi2 Hk2 Hx2)) as (_ & <- & _).
    rewrite (ok_home _ Hok i1 s1 kind k1), (ok_home _ Hok i2 s2 kind k1); eauto.
  - intros s [i Hi]%list_elem_of_lookup. apply bind_nodup.
    + intros i1 i2 [k1 m1] [k2 m2] x H1 H2 Hx1 Hx2.
      pose proof H1 as Hk1%list_elem_of_lookup_2%elem_of_map_to_list.
      pose proof H2 as Hk2%list_elem_of_lookup_2%elem_of_map_to_list.
      apply Hsub, subsOf_elem in Hx1 as [j1 Hx1]. apply Hsub, subsOf_elem in Hx2 as [j2 Hx2].
      destruct (Hone _ _ _ _ _ _ _ (Hlk _ _ _ _ _ _ Hi Hk1 Hx1) (Hlk _ _ _ _ _ _ Hi Hk2 Hx2)) as (_ & <- & _).
      assert (m1 = m2) as <- by congruence. exact (NoDup_lookup _ _ _ _ (NoDup_map_to_list (kindMap kind s)) H1 H2).
    + intros [k m] Hk%elem_of_map_to_list. apply Hnd, subsOf_nodup. intros j1 j2 x Hj1 Hj2.
      by destruct (Hone _ _ _ _ _ _ _ (Hlk _ _ _ _ _ _ Hi Hk Hj1) (Hlk _ _ _ _ _ _ Hi Hk Hj2)) as (_ & _ & ->).
Qed.

(** ** The targets of a message *)

(** Whether a subscription of a kind and key is meant for a topic. *)
Definition reaches topic kind key : bool :=
  match kind with
  | subKindTopic => bool_decide (key = topic)
  | subKindPattern => patternMatches topic key
  | subKindMQTT => Mqtt.MQTTMatch key topic
  end.

Lemma no_patterns kind sm key id : sm_ok sm → patternsIn kind sm = 0 → lookupSub sm kind key id = None.
Proof.
  intros Hok Hz. unfold lookupSub, flatLookup.
  pose proof (sum_list_with_in (getShard key sm) (λ s, size (kindMap kind s)) (shards sm)) as Hin.
  unfold patternsIn in Hz. rewrite Hz in Hin.
  assert (size (kindMap kind (getShard key sm)) = 0) as He.
  { apply Nat.le_0_r, Hin. eapply list_elem_of_lookup_2, registry_shard_lookup, Hok. }
  apply map_size_empty_inv in He. by rewrite He, lookup_empty.
Qed.

Lemma hasAnyPatterns_spec sm : sm_ok sm →
  hasAnyPatterns sm = true ∨ ∀ key id, lookupSub sm subKindPattern key id = None.
Proof.
  intros Hok. unfold hasAnyPatterns. rewrite (ok_globs _ Hok). destruct (Z.ltb_spec 0 (Z.of_nat (patternsIn subKindPattern sm))); [by left|].
  right. intros. apply no_patterns; [done|lia].
Qed.

Lemma topic_targets_nodup topic sm : registered_once sm → NoDup (getTopicSubscribersIfAny topic sm).
Proof.
  intros Hone. apply subsOf_nodup. intros i j x Hi Hj.
  destruct (topics (getShard topic sm) !! topic) as [subs|] eqn:E; simpl in *; [|by rewrite lookup_empty in Hi].
  eapply (Hone subKindTopic topic i subKindTopic topic j x); unfold lookupSub, flatLookup; simpl; by rewrite E.
Qed.

Lemma snapshot_targets topic s : globTargets topic (snapshotShard s) =
  '(key, subs) ← map_to_list (kindMap subKindPattern s); if patternMatches topic key then subsOf subs else [].
Proof.
  unfold globTargets, snapshotShard. simpl. induction (map_to_list (patterns s)) as [|[p subs] l IH]; [done|].
  rewrite !bind_cons, bind_app, IH. f_equal. case_decide as Hz.
  - apply map_size_empty_inv in Hz. subst. unfold subsOf. rewrite map_to_list_empty. by case_match.
  - simpl. by rewrite app_nil_r.
Qed.

Lemma glob_targets_nodup topic sm : sm_ok sm → registered_once sm → NoDup (globTargets topic (getAllPatterns sm)).
Proof.
  intros Hok Hone. unfold getAllPatterns. rewrite globTargets_bind.
  erewrite list_bind_ext; [|apply snapshot_targets|done].
  apply (registry_walk_nodup sm subKindPattern (λ key subs, if patternMatches topic key then subsOf subs else [])); [done..| |].
  - intros key subs ?. case_match; [done|constructor].
  - intros key subs x. case_match; [done|]. by intros ?%elem_of_nil.
Qed.

Lemma mqtt_targets_nodup topic sm : sm_ok sm → registered_once sm → NoDup (getMQTTPatternMatches topic sm).
Proof.
  intros Hok Hone. unfold getMQTTPatternMatches, Mqtt.Match.
  apply (registry_walk_nodup sm subKindMQTT (λ key subs, if Mqtt.MQTTMatch key topic then subsOf subs else [])); [done..| |].
  - intros key subs ?. case_match; [done|constructor].
  - intros key subs x. case_match; [done|]. by intros ?%elem_of_nil.
Qed.

(** Every subscription is collected once. *)
Lemma collect_elem sm sub : sm_ok sm →
  sub ∈ (collectAllSubscribers sm).1 ↔ ∃ kind key id, lookupSub sm kind key id = Some sub.
Proof.
  intros Hok. simpl. rewrite list_elem_of_bind.
  assert (∀ s, sub ∈ collectShard s ↔ ∃ kind key id, flatLookup (kindMap kind s) key id = Some sub) as Hs.
  { intros s. assert (∀ m : subscriptions, sub ∈ allSubs m ↔ ∃ key id, flatLookup m key id = Some sub) as Hall.
    { intros m. unfold allSubs. rewrite list_elem_of_bind. split.
      - intros ([k subs] & [i Hi]%subsOf_elem & Hk%elem_of_map_to_list). exists k, i. unfold flatLookup. by rewrite Hk.
      - intros (k & i & (subs & Hk & Hi)%bind_Some). exists (k, subs). rewrite subsOf_elem, elem_of_map_to_list. eauto. }
    unfold collectShard. change (Mqtt.All (mqttPatterns s)) with (allSubs (Mqtt.patterns (mqttPatterns s))).
    rewrite !elem_of_app, !Hall. split.
    - intros [(k & i & H)|[(k & i & H)|(k & i & H)]]; [exists subKindTopic|exists subKindPattern|exists subKindMQTT]; eauto.
    - intros ([] & k & i & H); [left|right; left|right; right]; eauto. }
  setoid_rewrite Hs. setoid_rewrite <- (shards_lookup sm _ _ _ _ Hok). naive_solver.
Qed.

(** ** The MQTT counter *)

(** It counts the patterns as long as a pattern loses its only subscriber. *)
Definition mqttExact sm : Prop := mqttPatternCount sm = Z.of_nat (patternsIn subKindMQTT sm).

Lemma mqttExact_add kind key id sub sm : sm_ok sm → mqttExact sm → mqttExact (addSubscriber kind key id sub sm).
Proof.
  intros Hok He. unfold mqttExact in *. rewrite addSubscriber_eq by done. simpl. rewrite He.
  pose proof (currentOf_ne kind key sm Hok) as Hc. unfold addDelta.
  change (patternsIn subKindMQTT (addCounts ?a ?b ?x)) with (patternsIn subKindMQTT x).
  destruct (decide (kind = subKindMQTT)) as [->|Hk].
  - rewrite decide_True by done.
    pose proof (setKey_size subKindMQTT key (Some (<[id := sub]> (default ∅ (currentOf subKindMQTT key sm)))) sm Hok) as Hs.
    fold (currentOf subKindMQTT key sm) in Hs. destruct (currentOf subKindMQTT key sm) as [subs|]; [|lia].
    rewrite decide_False by congruence. lia.
  - rewrite setKey_size_ne, decide_False by congruence. lia.
Qed.

Lemma mqttExact_remove kind key id sm : sm_ok sm → mqttExact sm →
  (kind = subKindMQTT → getMQTTPatternSubscriberCount key sm ≤ 1) →
  (kind = subKindMQTT → is_Some (lookupSub sm kind key id)) → mqttExact (removeSubscriber kind key id sm).
Proof.
  intros Hok He Hsh Hin. unfold mqttExact in *. rewrite removeSubscriber_eq by done. simpl. rewrite He. unfold removeDelta.
  change (patternsIn subKindMQTT (addCounts ?a ?b ?x)) with (patternsIn subKindMQTT x).
  destruct (decide (kind = subKindMQTT)) as [->|Hk].
  - rewrite decide_True by done.
    pose proof (setKey_size subKindMQTT key (removed id (currentOf subKindMQTT key sm)) sm Hok) as Hs.
    destruct (Hin eq_refl) as [x Hx]. specialize (Hsh eq_refl). unfold getMQTTPatternSubscriberCount, Mqtt.Count in Hsh.
    unfold lookupSub, flatLookup in Hx. unfold currentOf in *. simpl in *.
    destruct (Mqtt.patterns (mqttPatterns (getShard key sm)) !! key) as [subs|]; simpl in *; [|done].
    assert (size (delete id subs) = 0) as Hz by (rewrite map_size_delete, Hx; simpl; lia). rewrite Hz in *. simpl in *. lia.
  - rewrite setKey_size_ne, decide_False by congruence. lia.
Qed.

Lemma hasAnyMQTTPatterns_spec sm : sm_ok sm → mqttExact sm →
  hasAnyMQTTPatterns sm = true ∨ ∀ key id, lookupSub sm subKindMQTT key id = None.
Proof.
  intros Hok He. unfold hasAnyMQTTPatterns. rewrite He.
  destruct (Z.ltb_spec 0 (Z.of_nat (patternsIn subKindMQTT sm))); [by left|].
  right. intros. apply no_patterns; [done|lia].
Qed.

End facts.
#[export] Hint Resolve registry_new_ok addSubscriber_ok removeSubscriber_ok registry_collect_ok : plumego.
