(* ===== verification/Broker.v ===== *)
(** * The in-process broker ([x/messaging/pubsub])

    [InProcBroker] with its subscriptions: publishers, subscribers, the pump goroutine
    of a ring-buffered subscription, cancellation and [Close] run side by side. The
    broker is a machine whose steps are what one goroutine does between two points
    where another can intervene: a registry lookup, a delivery under the subscriber's
    lock, one alternative of a [select], the locked part of [Cancel]. [step] runs one
    labelled step; a label that waits gives [None].

    What a step takes together: a delivery under the subscriber's lock counts and
    announces its message in the step that sends it (in the code the consumer or the
    pump can run in between; neither reads the counters), while a delivery that blocks
    without the lock sends in one step and counts and announces in a later one; a scan
    of all shards for patterns, and [collectAllSubscribers] of [Close] with the reset of
    its counters, are one step each (the code locks one shard after the other). [EvSent]
    is a mark of the model at the send itself; the other events are what the observers
    and the consumers see.

    Messages are values: the defensive copies of [cloneMessage] are what makes them so.
    Observers are called with the events of the trace, in order; the metrics count the
    same events. Filters are functions of the message that may panic. The subscription
    counter and the pattern counters are not bounded here. *)

From stdpp Require Import options.
From S2P Require Import Prelude GoStrings GoPath RingBuffer Mqtt BrokerShards.
Import Shards.

Module Broker.

Definition ms (n : Z) : Z := (n * 1000000)%Z.

(** ** Options ([types.go], [options.go]) *)

(** [BackpressurePolicy] is an integer: other values than the four constants exist. *)
Inductive BackpressurePolicy := DropOldest | DropNewest | BlockWithTimeout | CloseSubscriber | OtherPolicy (n : Z).
#[export] Instance policy_eq_dec : EqDecision BackpressurePolicy.
Proof. solve_decision. Defined.

Definition policyString (p : BackpressurePolicy) : gostring :=
  match p with
  | DropOldest => str "drop_oldest"
  | DropNewest => str "drop_newest"
  | BlockWithTimeout => str "block_with_timeout"
  | CloseSubscriber => str "close_subscriber"
  | OtherPolicy _ => str "unknown"
  end.

(** [observers] and the other callbacks appear as the events of the trace. *)
Record Config := mkConfig {
  ShardCount : Z;
  DefaultBufferSize : Z;
  DefaultPolicy : BackpressurePolicy;
  DefaultBlockTimeout : Z;
  WorkerPoolSize : Z;
  EnablePanicRecovery : bool;
}.

Definition DefaultConfig : Config := mkConfig 16 16 DropOldest (ms 50) 1024 true.

Inductive Option_ :=
| WithShardCount (count : Z) | WithDefaultBufferSize (size : Z) | WithDefaultPolicy (policy : BackpressurePolicy)
| WithDefaultBlockTimeout (timeout : Z) | WithWorkerPoolSize (size : Z) | WithPanicRecovery (enable : bool).

Definition applyOption (o : Option_) (c : Config) : Config :=
  let '(mkConfig sc bs pol bt wp pr) := c in
  match o with
  | WithShardCount count => mkConfig (if (0 <? count)%Z then count else sc) bs pol bt wp pr
  | WithDefaultBufferSize size => mkConfig sc (if (0 <? size)%Z then size else bs) pol bt wp pr
  | WithDefaultPolicy policy => mkConfig sc bs policy bt wp pr
  | WithDefaultBlockTimeout timeout => mkConfig sc bs pol (if (0 <? timeout)%Z then timeout else bt) wp pr
  | WithWorkerPoolSize size => mkConfig sc bs pol bt size pr
  | WithPanicRecovery enable => mkConfig sc bs pol bt wp enable
  end.

Inductive ErrorCode := ErrCodeClosed | ErrCodeInvalidTopic | ErrCodeInvalidPattern | ErrCodeInvalidOptions | ErrCancelled.

(** The alternatives of the timed [select] of a blocked delivery, and of the pump. *)
Inductive blockChoice := BSend | BTimeout | BContext.
#[export] Instance blockChoice_eq_dec : EqDecision blockChoice.
Proof. solve_decision. Defined.
Inductive pumpChoice := PGo | PDone.

Section broker.
(** The payload of a message ([any]) and its [nil]. *)
Context {D : Type} (nilD : D).

Record Message := mkMessage {
  ID : gostring;
  Topic : gostring;
  Type_ : gostring;
  Time : option Z;
  Data : D;
  Meta : gmap gostring gostring;
}.
Implicit Types (msg : Message) (id : N) (topic : gostring).

Definition zeroMessage : Message := mkMessage [] [] [] None nilD ∅.

(** The topic and, when it has none, the time are set on publishing. *)
Definition stamp topic (now : Z) msg : Message :=
  mkMessage (ID msg) topic (Type_ msg) (Some (default now (Time msg))) (Data msg) (Meta msg).

(** A filter returns [None] when it panics. *)
Record SubOptions := mkSubOptions {
  BufferSize : Z;
  Policy : BackpressurePolicy;
  BlockTimeout : Z;
  ZeroCopy : bool;
  Filter : option (Message → option bool);
  UseRingBuffer : bool;
}.
Definition DefaultSubOptions : SubOptions := mkSubOptions 16 DropOldest (ms 50) false None false.

Definition normalizeSubOptions (cfg : Config) (opts : SubOptions) : SubOptions :=
  let size := if (BufferSize opts <=? 0)%Z then DefaultBufferSize cfg else BufferSize opts in
  let policy := match Policy opts with OtherPolicy _ => DefaultPolicy cfg | p => p end in
  let timeout := if bool_decide (policy = BlockWithTimeout) && (BlockTimeout opts <=? 0)%Z
                 then DefaultBlockTimeout cfg else BlockTimeout opts in
  let ring := if decide (policy = DropOldest) then true else UseRingBuffer opts in
  mkSubOptions size policy timeout (ZeroCopy opts) (Filter opts) ring.

(** ** Events and metrics ([broker_support.go], [metrics.go]) *)

Inductive event :=
| EvPublish topic msg
| EvSubscribe topic id
| EvUnsubscribe topic id
| EvSent id msg
| EvDeliver topic id msg
| EvDrop topic id msg (policy : BackpressurePolicy)
| EvPanic topic id
| EvReceive id msg.

Record topicMetrics := mkMetrics {
  publishTotal : N;
  deliveredTotal : N;
  subsGauge : Z;
  droppedBy : gmap gostring N;
}.
Abbreviation metrics := (gmap gostring topicMetrics) (only parsing).

Definition incr64 (n : N) : N := ((n + 1) mod 2 ^ 64)%N.
Definition ensureTopic topic (m : metrics) : topicMetrics := default (mkMetrics 0 0 0 ∅) (m !! topic).

Definition incPublish topic (m : metrics) : metrics :=
  let tm := ensureTopic topic m in
  <[topic := mkMetrics (incr64 (publishTotal tm)) (deliveredTotal tm) (subsGauge tm) (droppedBy tm)]> m.
Definition incDelivered topic (m : metrics) : metrics :=
  let tm := ensureTopic topic m in
  <[topic := mkMetrics (publishTotal tm) (incr64 (deliveredTotal tm)) (subsGauge tm) (droppedBy tm)]> m.
Definition addSubs topic (delta : Z) (m : metrics) : metrics :=
  let tm := ensureTopic topic m in
  let next := (subsGauge tm + delta)%Z in
  let next := if (0 <=? delta)%Z then next else if (next <? 0)%Z then 0%Z else next in
  <[topic := mkMetrics (publishTotal tm) (deliveredTotal tm) next (droppedBy tm)]> m.
Definition incDropped topic (policy : BackpressurePolicy) (m : metrics) : metrics :=
  let tm := ensureTopic topic m in
  let key := policyString policy in
  <[topic := mkMetrics (publishTotal tm) (deliveredTotal tm) (subsGauge tm)
               (<[key := incr64 (default 0%N (droppedBy tm !! key))]> (droppedBy tm))]> m.

(** Each notification comes with its metric. *)
Definition countEvent (m : metrics) (e : event) : metrics :=
  match e with
  | EvPublish topic _ => incPublish topic m
  | EvSubscribe topic _ => addSubs topic 1 m
  | EvUnsubscribe topic _ => addSubs topic (-1) m
  | EvDeliver topic _ _ => incDelivered topic m
  | EvDrop topic _ _ policy => incDropped topic policy m
  | EvSent _ _ | EvPanic _ _ | EvReceive _ _ => m
  end.

(** ** Subscriptions ([subscriber.go]) *)

Record channel := mkChannel { ch_buf : list Message; ch_cap : nat; ch_closed : bool }.

(** The pump goroutine: about to pop, holding a message it offers on the channel,
    waiting for a notification, or returned (with the message it held, if any). *)
Inductive pump := NoPump | Popping | Holding msg | Waiting | Stopped (held : option Message).

(** [locked] is whether a publisher holds [mu] across steps; [removed] whether the body
    of [Cancel] has run to its end. *)
Record subscriber := mkSubscriber {
  s_id : N;
  s_topic : gostring;
  s_kind : subKind;
  s_opts : SubOptions;
  s_ch : channel;
  s_closed : bool;
  s_done : bool;
  s_locked : bool;
  s_removed : bool;
  s_ringBuf : option (@RingBuffer.ringBuffer Message);
  s_pump : pump;
  s_received : N;
  s_dropped : N;
}.
Implicit Types (s : subscriber).

Definition setCh ch s : subscriber :=
  mkSubscriber (s_id s) (s_topic s) (s_kind s) (s_opts s) ch (s_closed s) (s_done s) (s_locked s) (s_removed s)
    (s_ringBuf s) (s_pump s) (s_received s) (s_dropped s).
Definition setRing rb s : subscriber :=
  mkSubscriber (s_id s) (s_topic s) (s_kind s) (s_opts s) (s_ch s) (s_closed s) (s_done s) (s_locked s) (s_removed s)
    (Some rb) (s_pump s) (s_received s) (s_dropped s).
Definition setPump p s : subscriber :=
  mkSubscriber (s_id s) (s_topic s) (s_kind s) (s_opts s) (s_ch s) (s_closed s) (s_done s) (s_locked s) (s_removed s)
    (s_ringBuf s) p (s_received s) (s_dropped s).
Definition setLocked b s : subscriber :=
  mkSubscriber (s_id s) (s_topic s) (s_kind s) (s_opts s) (s_ch s) (s_closed s) (s_done s) b (s_removed s)
    (s_ringBuf s) (s_pump s) (s_received s) (s_dropped s).
Definition setRemoved s : subscriber :=
  mkSubscriber (s_id s) (s_topic s) (s_kind s) (s_opts s) (s_ch s) (s_closed s) (s_done s) (s_locked s) true
    (s_ringBuf s) (s_pump s) (s_received s) (s_dropped s).
Definition addStats (received dropped : bool) s : subscriber :=
  mkSubscriber (s_id s) (s_topic s) (s_kind s) (s_opts s) (s_ch s) (s_closed s) (s_done s) (s_locked s) (s_removed s)
    (s_ringBuf s) (s_pump s)
    (if received then incr64 (s_received s) else s_received s) (if dropped then incr64 (s_dropped s) else s_dropped s).

(** [initSubscriberChannel], on the subscriber the broker has just built. *)
Definition newSubscriber id topic (kind : subKind) (opts : SubOptions) : subscriber :=
  if UseRingBuffer opts && bool_decide (Policy opts = DropOldest) then
    mkSubscriber id topic kind opts (mkChannel [] 0 false) false false false false
      (Some (RingBuffer.newRingBuffer zeroMessage (BufferSize opts))) Popping 0 0
  else
    mkSubscriber id topic kind opts (mkChannel [] (Z.to_nat (BufferSize opts)) false) false false false false
      None NoPump 0 0.

Record SubscriptionStats := mkStats { Received : N; Dropped : N; QueueLen : Z; QueueCap : Z }.
Definition Stats s : SubscriptionStats :=
  match s_ringBuf s with
  | Some rb => mkStats (s_received s) (s_dropped s) (RingBuffer.Len rb) (Z.of_nat (RingBuffer.Cap rb))
  | None => mkStats (s_received s) (s_dropped s) (Z.of_nat (length (ch_buf (s_ch s)))) (Z.of_nat (ch_cap (s_ch s)))
  end.

(** A send that does not wait: room, a full buffer, or a closed channel (a panic). *)
Inductive sendResult := Sent (ch : channel) | Full | SendPanics.
Definition trySend msg (ch : channel) : sendResult :=
  if ch_closed ch then SendPanics
  else if length (ch_buf ch) <? ch_cap ch then Sent (mkChannel (ch_buf ch ++ [msg]) (ch_cap ch) false)
  else Full.

(** The locked part of [Cancel]: [None] while the lock is taken, and after the first
    call ([once]); a second close of a channel would be a panic, which [once] rules out. *)
Definition cancelLocked s : option subscriber :=
  if s_locked s || s_closed s then None
  else
    ch_rb ← match s_ringBuf s with
            | Some rb => rb ← RingBuffer.Close rb; Some (s_ch s, Some rb)
            | None => if ch_closed (s_ch s) then None
                      else Some (mkChannel (ch_buf (s_ch s)) (ch_cap (s_ch s)) true, None)
            end;
    let '(ch, rb) := ch_rb in
    Some (mkSubscriber (s_id s) (s_topic s) (s_kind s) (s_opts s) ch true true (s_locked s) (s_removed s)
            rb (s_pump s) (s_received s) (s_dropped s)).

(** The rest of [Cancel] runs once the pump, if any, has returned. *)
Definition canRemove s : bool :=
  s_closed s && negb (s_removed s) && match s_pump s with NoPump | Stopped _ => true | _ => false end.

(** One step of [pumpRingBuffer]. Returning closes [pumpDone] and the channel. *)
Definition stopPump (held : option Message) s : subscriber :=
  setPump (Stopped held) (setCh (mkChannel (ch_buf (s_ch s)) (ch_cap (s_ch s)) true) s).
Definition pumpRingBuffer (c : pumpChoice) s : option subscriber :=
  rb ← s_ringBuf s;
  match s_pump s, c with
  | Popping, PGo =>
      '(m, rb) ← RingBuffer.Pop zeroMessage rb;
      Some (setPump (match m with Some m => Holding m | None => Waiting end) (setRing rb s))
  | Waiting, PGo =>
      let '(token, rb') := RingBuffer.Receive rb in
      if token then Some (setPump Popping (setRing rb' s))
      else if RingBuffer.notifyClosed rb then Some (stopPump None s) else None
  | Holding m, PDone => if s_done s then Some (stopPump (Some m) s) else None
  | Waiting, PDone => if s_done s then Some (stopPump None s) else None
  | _, _ => None
  end.

(** A receive by the subscriber's consumer: from the buffer, or from the pump. *)
Definition consumerReceive s : option (Message * subscriber) :=
  match s_pump s with
  | Holding m => Some (m, setPump Popping s)
  | NoPump =>
      match ch_buf (s_ch s) with
      | m :: buf => Some (m, setCh (mkChannel buf (ch_cap (s_ch s)) (ch_closed (s_ch s))) s)
      | [] => None
      end
  | _ => None
  end.

(** ** Delivery to one subscription ([broker_deliver.go]) *)

Definition metricTopic s msg : gostring :=
  if decide (s_kind s = subKindTopic) then s_topic s else Topic msg.

(** A delivery finishes (and may ask for [Cancel]), waits, panics, goes on in the timed
    [select] or in the loop that holds the lock, or has sent and still has to report. *)
Inductive outcome :=
| Finished s (evs : list event) (cancelSub : bool)
| Waits
| Panics
| Blocks
| Spins s
| Reports s (evs : list event).

Definition announced s msg : list event := [EvDeliver (metricTopic s msg) (s_id s) msg].
Definition delivered s msg : list event := EvSent (s_id s) msg :: announced s msg.
Definition dropped_ s mt msg (policy : BackpressurePolicy) : list event := [EvDrop mt (s_id s) msg policy].

Definition deliverDropOldest s msg : outcome :=
  match s_ringBuf s with
  | Some rb =>
      match RingBuffer.Push zeroMessage msg rb with
      | None => Panics
      | Some (d, rb) =>
          Finished (addStats true (bool_decide (is_Some d)) (setRing rb s))
            (match d with Some m => dropped_ s (metricTopic s msg) m DropOldest | None => [] end ++ delivered s msg) false
      end
  | None => Spins (setLocked true s)
  end.

(** [DropNewest] and [CloseSubscriber] differ in what a full buffer means. *)
Definition deliverOrDrop (policy : BackpressurePolicy) (close : bool) s msg : outcome :=
  match trySend msg (s_ch s) with
  | Sent ch => Finished (addStats true false (setCh ch s)) (delivered s msg) false
  | Full => Finished (addStats false true s) (dropped_ s (metricTopic s msg) msg policy) close
  | SendPanics => Panics
  end.
Definition deliverDropNewest := deliverOrDrop DropNewest false.
Definition deliverCloseSubscriber := deliverOrDrop CloseSubscriber true.

Definition filterVerdict s msg : option bool :=
  match Filter (s_opts s) with Some f => f msg | None => Some true end.

Definition deliver s msg : outcome :=
  match filterVerdict s msg with
  | None => Panics
  | Some false => Finished s [] false
  | Some true =>
      if s_closed s then Finished s [] false
      else if decide (Policy (s_opts s) = BlockWithTimeout) then Blocks
      else if s_locked s then Waits
      else match Policy (s_opts s) with
           | DropNewest => deliverDropNewest s msg
           | CloseSubscriber => deliverCloseSubscriber s msg
           | _ => deliverDropOldest s msg
           end
  end.

(** The timed [select] of [deliverBlockWithTimeout]: it runs without the lock, and what
    follows the send is a step of its own. *)
Definition blockStep (c : blockChoice) s msg : outcome :=
  match c with
  | BSend => match trySend msg (s_ch s) with
             | Sent ch => Reports (setCh ch s) [EvSent (s_id s) msg]
             | Full => Waits
             | SendPanics => Panics
             end
  | BTimeout | BContext => Finished (addStats false true s) (dropped_ s (metricTopic s msg) msg BlockWithTimeout) false
  end.

(** The loop of [deliverDropOldest] without a ring buffer, one [select] at a time; the
    first tries to send, the second to drop the oldest. *)
Definition spinSend s msg : outcome :=
  if s_closed s then Finished (setLocked false s) [] false
  else match trySend msg (s_ch s) with
       | Sent ch => Finished (setLocked false (addStats true false (setCh ch s))) (delivered s msg) false
       | Full => Spins s
       | SendPanics => Panics
       end.
Definition spinDrop s msg : subscriber * list event :=
  match ch_buf (s_ch s) with
  | m :: buf => (addStats false true (setCh (mkChannel buf (ch_cap (s_ch s)) (ch_closed (s_ch s))) s),
                 dropped_ s (metricTopic s msg) m DropOldest)
  | [] => (s, [])
  end.

End broker.
#[global] Arguments Message : clear implicits.
#[global] Arguments SubOptions : clear implicits.
#[global] Arguments event : clear implicits.
#[global] Arguments subscriber : clear implicits.
#[global] Arguments outcome : clear implicits.
#[global] Arguments channel : clear implicits.
#[global] Arguments pump : clear implicits.

(** ** The broker and the goroutines around it *)

Section machine.
Context {D : Type} (nilD : D).
Implicit Types (msg : Message D) (id : N) (topic : gostring) (s : subscriber D).

(** What a publisher still has to do: notify, deliver to a subscription, or look up the
    glob or MQTT subscriptions. *)
Inductive work := WPublish msg | WDeliver id msg | WGlobs msg | WMqtt msg.

(** Where it is: before [doPublish], between two deliveries, inside one (after the send
    of one that blocked: [InReport]), or in a call of [Cancel]. *)
Inductive pc := Fresh | Next | InBlock id msg | InReport id msg | InSpin id msg (full : bool) | InCancel id.

(** [t_ctx] is whether the context is done; [context.Background] never is. *)
Record task := mkTask {
  t_topic : gostring;
  t_msg : Message D;
  t_work : list work;
  t_pc : pc;
  t_ctx : bool;
  t_background : bool;
}.
Implicit Types (t : task).

(** [Close]: not called, called, cancelling the subscriptions it collected. *)
Inductive closing := NotClosed | Closing | Cancelling (all rest : list N).

Record broker := mkBroker {
  b_config : Config;
  b_shards : shardedMap N;
  b_subs : gmap N (subscriber D);
  b_nextID : N;
  b_closing : closing;
  b_subscribing : gmap nat (subKind * gostring * SubOptions D);
  b_tasks : gmap nat task;
  b_metrics : gmap gostring topicMetrics;
  b_trace : list (event D);
  b_crashed : bool;
}.
Implicit Types (b : broker).

Definition New (opts : list Option_) : broker :=
  let config := foldl (λ c o, applyOption o c) DefaultConfig opts in
  mkBroker config (newShardedMap (ShardCount config)) ∅ 0 NotClosed ∅ ∅ ∅ [] false.

Definition isClosed b : bool := match b_closing b with NotClosed => false | _ => true end.

(** Notifications with their metrics. *)
Definition emit (evs : list (event D)) b : broker :=
  mkBroker (b_config b) (b_shards b) (b_subs b) (b_nextID b) (b_closing b) (b_subscribing b) (b_tasks b)
    (foldl countEvent (b_metrics b) evs) (b_trace b ++ evs) (b_crashed b).
Definition setSub s b : broker :=
  mkBroker (b_config b) (b_shards b) (<[s_id s := s]> (b_subs b)) (b_nextID b) (b_closing b) (b_subscribing b) (b_tasks b)
    (b_metrics b) (b_trace b) (b_crashed b).
Definition setShards sm b : broker :=
  mkBroker (b_config b) sm (b_subs b) (b_nextID b) (b_closing b) (b_subscribing b) (b_tasks b)
    (b_metrics b) (b_trace b) (b_crashed b).
Definition setClosing c b : broker :=
  mkBroker (b_config b) (b_shards b) (b_subs b) (b_nextID b) c (b_subscribing b) (b_tasks b)
    (b_metrics b) (b_trace b) (b_crashed b).
Definition setTasks ts b : broker :=
  mkBroker (b_config b) (b_shards b) (b_subs b) (b_nextID b) (b_closing b) (b_subscribing b) ts
    (b_metrics b) (b_trace b) (b_crashed b).
Definition setTask (tid : nat) t b : broker := setTasks (<[tid := t]> (b_tasks b)) b.
Definition setSubscribing m b : broker :=
  mkBroker (b_config b) (b_shards b) (b_subs b) (b_nextID b) (b_closing b) m (b_tasks b)
    (b_metrics b) (b_trace b) (b_crashed b).
Definition crash b : broker :=
  mkBroker (b_config b) (b_shards b) (b_subs b) (b_nextID b) (b_closing b) (b_subscribing b) (b_tasks b)
    (b_metrics b) (b_trace b) true.

(** ** Subscribing ([subscribeInternal], [subscribeMQTTInternal]): the checks, then the
    registration *)

Definition subscribeCheck b (kind : subKind) topic (opts : SubOptions D) : result ErrorCode (gostring * SubOptions D) :=
  if isClosed b then Err ErrCodeClosed
  else
    let topic := trim_space topic in
    let invalid := match kind with
                   | subKindTopic => false
                   | subKindPattern => bool_decide (GoPath.PathMatch topic (str "probe") = None)
                   | subKindMQTT => bool_decide (Mqtt.ValidateMQTTPattern topic ≠ None)
                   end in
    if decide (topic = []) then
      Err (if decide (kind = subKindTopic) then ErrCodeInvalidTopic else ErrCodeInvalidPattern)
    else if invalid then Err ErrCodeInvalidPattern
    else
      let opts := normalizeSubOptions (b_config b) opts in
      if (BufferSize opts <? 1)%Z then Err ErrCodeInvalidOptions else Ok (topic, opts).

Definition register (kind : subKind) topic (opts : SubOptions D) b : broker :=
  let id := (b_nextID b + 1)%N in
  let s := newSubscriber nilD id topic kind opts in
  emit [EvSubscribe topic id]
    (mkBroker (b_config b) (addSubscriber kind topic id id (b_shards b)) (<[id := s]> (b_subs b)) id
       (b_closing b) (b_subscribing b) (b_tasks b) (b_metrics b) (b_trace b) (b_crashed b)).

(** ** Publishing ([publishInternal], [PublishBatch]) *)

Definition publishCheck b (ctxDone : bool) topic : result ErrorCode gostring :=
  if ctxDone then Err ErrCancelled
  else if isClosed b then Err ErrCodeClosed
  else let topic := trim_space topic in
       if decide (topic = []) then Err ErrCodeInvalidTopic else Ok topic.

Definition topicTargets b topic : list N := getTopicSubscribersIfAny topic (b_shards b).
Definition patternTargets b topic : list N := globTargets topic (getAllPatterns (b_shards b)).
Definition mqttTargets b topic : list N := getMQTTPatternMatches topic (b_shards b).

Definition deliveries (ids : list N) msg : list work := (λ id, WDeliver id msg) <$> ids.

(** The work of [doPublish]: the flags are read first, the patterns when their turn
    comes. *)
Definition publishWork b topic msg : list work :=
  deliveries (topicTargets b topic) msg
    ++ (if hasAnyPatterns (b_shards b) then [WGlobs msg] else [])
    ++ (if hasAnyMQTTPatterns (b_shards b) then [WMqtt msg] else []).

(** A batch looks everything up once, before its first message. *)
Definition batchWork b topic (msgs : list (Message D)) : list work :=
  let subs := topicTargets b topic in
  let globs := if hasAnyPatterns (b_shards b) then patternTargets b topic else [] in
  let mqtts := if hasAnyMQTTPatterns (b_shards b) then mqttTargets b topic else [] in
  msgs ≫= λ msg, WPublish msg :: deliveries (subs ++ globs ++ mqtts) msg.

(** A panic inside [deliver]: recovered, reported and answered with [Cancel], or the
    end of the process. *)
Definition onPanic (tid : nat) t s b : broker :=
  if EnablePanicRecovery (b_config b) then
    setTask tid (mkTask (t_topic t) (t_msg t) (t_work t) (InCancel (s_id s)) (t_ctx t) (t_background t))
      (emit [EvPanic (s_topic s) (s_id s)] b)
  else crash b.

(** What a delivery means for its publisher. *)
Definition advance (tid : nat) t s msg (o : outcome D) b : option broker :=
  let at_pc p := mkTask (t_topic t) (t_msg t) (t_work t) p (t_ctx t) (t_background t) in
  match o with
  | Finished s' evs cancelSub =>
      Some (setTask tid (at_pc (if cancelSub then InCancel (s_id s) else Next)) (emit evs (setSub s' b)))
  | Waits => None
  | Panics => Some (onPanic tid t s b)
  | Blocks => Some (setTask tid (at_pc (InBlock (s_id s) msg)) b)
  | Spins s' => Some (setTask tid (at_pc (InSpin (s_id s) msg false)) (setSub s' b))
  | Reports s' evs => Some (setTask tid (at_pc (InReport (s_id s) msg)) (emit evs (setSub s' b)))
  end.

Definition taskStep (tid : nat) (c : blockChoice) t b : option broker :=
  let upd w p := mkTask (t_topic t) (t_msg t) w p (t_ctx t) (t_background t) in
  match t_pc t with
  | Fresh => Some (setTask tid (upd (if t_ctx t then [] else publishWork b (t_topic t) (t_msg t)) Next) b)
  | Next =>
      match t_work t with
      | [] => Some (setTasks (delete tid (b_tasks b)) b)
      | WPublish m :: w => Some (setTask tid (upd w Next) (emit [EvPublish (t_topic t) m] b))
      | WGlobs m :: w => Some (setTask tid (upd (deliveries (patternTargets b (t_topic t)) m ++ w) Next) b)
      | WMqtt m :: w => Some (setTask tid (upd (deliveries (mqttTargets b (t_topic t)) m ++ w) Next) b)
      | WDeliver id m :: w =>
          if t_ctx t then Some (setTask tid (upd [] Next) b)
          else s ← b_subs b !! id; advance tid (upd w Next) s m (deliver nilD s m) b
      end
  | InBlock id m =>
      s ← b_subs b !! id;
      if bool_decide (c = BContext) && negb (t_ctx t) then None else advance tid t s m (blockStep c s m) b
  | InReport id m =>
      s ← b_subs b !! id;
      Some (setTask tid (upd (t_work t) Next) (emit (announced s m) (setSub (addStats true false s) b)))
  | InSpin id m full =>
      s ← b_subs b !! id;
      if full then
        let '(s', evs) := spinDrop s m in
        Some (setTask tid (upd (t_work t) (InSpin id m false)) (emit evs (setSub s' b)))
      else match spinSend s m with
           | Spins s' => Some (setTask tid (upd (t_work t) (InSpin id m true)) (setSub s' b))
           | o => advance tid t s m o b
           end
  | InCancel id => s ← b_subs b !! id; if s_removed s then Some (setTask tid (upd (t_work t) Next) b) else None
  end.

(** ** Steps *)

(** [LCollect] is the whole of [collectAllSubscribers]. *)
Inductive label :=
| LSubscribe (rid : nat) (kind : subKind) topic (opts : SubOptions D)
| LRegister (rid : nat)
| LPublish (tid : nat) topic msg (now : Z) (background : bool)
| LBatch (tid : nat) topic (msgs : list (Message D)) (nows : list Z)
| LContext (tid : nat)
| LTask (tid : nat) (c : blockChoice)
| LPump id (c : pumpChoice)
| LReceive id
| LCancel id
| LRemove id
| LClose
| LCollect
| LCloser.

(** [removeSubscriber] with the notification before it. *)
Definition finishCancel s b : broker :=
  setShards (removeSubscriber (s_kind s) (s_topic s) (s_id s) (b_shards b))
    (emit [EvUnsubscribe (s_topic s) (s_id s)] (setSub (setRemoved s) b)).

Definition step (l : label) b : option broker :=
  if b_crashed b then None
  else match l with
  | LSubscribe rid kind topic opts =>
      match subscribeCheck b kind topic opts, b_subscribing b !! rid with
      | Ok (topic, opts), None => Some (setSubscribing (<[rid := (kind, topic, opts)]> (b_subscribing b)) b)
      | _, _ => None
      end
  | LRegister rid =>
      '(kind, topic, opts) ← b_subscribing b !! rid;
      Some (setSubscribing (delete rid (b_subscribing b)) (register kind topic opts b))
  | LPublish tid topic msg now background =>
      match publishCheck b false topic, b_tasks b !! tid with
      | Ok topic, None =>
          let msg := stamp topic now msg in
          Some (setTask tid (mkTask topic msg [] Fresh false background) (emit [EvPublish topic msg] b))
      | _, _ => None
      end
  | LBatch tid topic msgs nows =>
      match publishCheck b false topic, b_tasks b !! tid with
      | Ok topic, None =>
          let msgs := zip_with (λ m now, stamp topic now m) msgs nows in
          Some (setTask tid (mkTask topic (zeroMessage nilD) (batchWork b topic msgs) Next false true) b)
      | _, _ => None
      end
  | LContext tid =>
      t ← b_tasks b !! tid;
      if t_background t then None
      else Some (setTask tid (mkTask (t_topic t) (t_msg t) (t_work t) (t_pc t) true false) b)
  | LTask tid c => t ← b_tasks b !! tid; taskStep tid c t b
  | LPump id c => s ← b_subs b !! id; s' ← pumpRingBuffer nilD c s; Some (setSub s' b)
  | LReceive id =>
      s ← b_subs b !! id; '(m, s') ← consumerReceive s; Some (emit [EvReceive id m] (setSub s' b))
  | LCancel id => s ← b_subs b !! id; s' ← cancelLocked s; Some (setSub s' b)
  | LRemove id => s ← b_subs b !! id; if canRemove s then Some (finishCancel s b) else None
  | LClose => match b_closing b with NotClosed => Some (setClosing Closing b) | _ => None end
  | LCollect =>
      match b_closing b with
      | Closing => let '(all, sm) := collectAllSubscribers (b_shards b) in Some (setClosing (Cancelling all all) (setShards sm b))
      | _ => None
      end
  | LCloser =>
      match b_closing b with
      | Cancelling all (id :: rest) =>
          s ← b_subs b !! id; if s_removed s then Some (setClosing (Cancelling all rest) b) else None
      | _ => None
      end
  end.

Fixpoint run (ls : list label) b : option broker :=
  match ls with
  | [] => Some b
  | l :: ls => b ← step l b; run ls b
  end.

(** ** Queries ([broker_internal.go]) *)

Definition HasSubscribers b topic : bool :=
  topicExists topic (b_shards b)
  || (hasAnyPatterns (b_shards b) && existsb (entryMatches topic) (getAllPatterns (b_shards b)))
  || (hasAnyMQTTPatterns (b_shards b) && (0 <? length (mqttTargets b topic))).
Definition ListTopics b : list gostring := sort_strings (listTopics (b_shards b)).
Definition ListPatterns b : list gostring := sort_strings (listPatterns (b_shards b)).
Definition ListMQTTPatterns b : list gostring := sort_strings (listMQTTPatterns (b_shards b)).

End machine.
#[global] Arguments broker : clear implicits.
#[global] Arguments task : clear implicits.
#[global] Arguments work : clear implicits.
#[global] Arguments pc : clear implicits.
#[global] Arguments label : clear implicits.
End Broker.
