(* ===== verification/BrokerFacts.v ===== *)
(** * Facts about the broker's subscriptions

    What the operations of one subscription do to the messages that reach it: every
    message sent to it is received, evicted, held by the pump or still queued, in the
    order of the sends. *)

From stdpp Require Import options.
From S2P Require Import Prelude GoStrings GoPath RingBuffer Mqtt BrokerShards BrokerShardsFacts Broker.
Import Shards Broker.

Section subscriptions.
Context {D : Type} (nilD : D).
Implicit Types (msg : Message D) (id : N) (s : subscriber D) (tr evs : list (event D)).

(** ** The messages of one subscription in a trace *)

Definition sending id (e : event D) : option (Message D) :=
  match e with EvSent i m => if decide (i = id) then Some m else None | _ => None end.
Definition delivery id (e : event D) : option (Message D) :=
  match e with EvDeliver _ i m => if decide (i = id) then Some m else None | _ => None end.
Definition drop_ id (e : event D) : option (Message D) :=
  match e with EvDrop _ i m _ => if decide (i = id) then Some m else None | _ => None end.
Definition reception id (e : event D) : option (Message D) :=
  match e with EvReceive i m => if decide (i = id) then Some m else None | _ => None end.

Definition sentTo id tr : list (Message D) := omap (sending id) tr.
Definition deliveredTo id tr : list (Message D) := omap (delivery id) tr.
Definition droppedFor id tr : list (Message D) := omap (drop_ id) tr.
Definition receivedBy id tr : list (Message D) := omap (reception id) tr.

(** The subscription whose messages an event moves. *)
Definition subject (e : event D) : option N :=
  match e with EvSent i _ | EvDeliver _ i _ | EvDrop _ i _ _ | EvReceive i _ => Some i | _ => None end.
Definition leaves id evs : Prop := Forall (λ e, subject e ≠ Some id) evs.

Lemma leaves_omap (f : N → event D → option (Message D)) id evs :
  (∀ e, subject e ≠ Some id → f id e = None) → leaves id evs → omap (f id) evs = [].
Proof. intros Hf. induction 1 as [|e evs He _ IH]; simpl; [done|]. by rewrite Hf. Qed.

Lemma leaves_all id tr evs : leaves id evs →
  sentTo id (tr ++ evs) = sentTo id tr ∧ deliveredTo id (tr ++ evs) = deliveredTo id tr ∧ droppedFor id (tr ++ evs) = droppedFor id tr ∧
  receivedBy id (tr ++ evs) = receivedBy id tr.
Proof.
  intros Hl. unfold sentTo, deliveredTo, droppedFor, receivedBy. rewrite !omap_app.
  assert (∀ f : N → event D → option (Message D), (∀ e, subject e ≠ Some id → f id e = None) → omap (f id) evs = []) as Hf.
  { intros f ?. by apply leaves_omap. }
  rewrite (Hf sending), (Hf delivery), (Hf drop_), (Hf reception), !app_nil_r; [done|..];
    (intros [] He; simpl in *; try done; by rewrite decide_False by congruence).
Qed.

(** ** What a subscription holds *)

Definition evicts s : bool := match Policy (s_opts s) with DropOldest | OtherPolicy _ => true | _ => false end.
Definition queued s : list (Message D) :=
  match s_ringBuf s with Some rb => RingBuffer.queue rb | None => ch_buf (s_ch s) end.
Definition held s : list (Message D) :=
  match s_pump s with Holding m | Stopped (Some m) => [m] | _ => [] end.
Definition isStopped (p : pump D) : bool := match p with Stopped _ => true | _ => false end.

(** Where the messages sent to it are, and what its counters count. *)
Record flow_ok s (sl dl dr rc : list (Message D)) : Prop := {
  f_perm : sl ≡ₚ rc ++ (if evicts s then dr else []) ++ held s ++ queued s;
  f_order : (rc ++ held s ++ queued s) `sublist_of` sl;
  f_received : s_received s = (N.of_nat (length dl) mod 2 ^ 64)%N;
  f_dropped : s_dropped s = (N.of_nat (length dr) mod 2 ^ 64)%N;
}.

(** The two forms of a subscription: a ring buffer with its pump, or a buffered
    channel. A pump that waits has been told of every message. *)
Record ring_shape s (rb : @RingBuffer.ringBuffer (Message D)) : Prop := {
  r_ok : RingBuffer.rb_ok rb;
  r_policy : Policy (s_opts s) = DropOldest;
  r_unlocked : s_locked s = false;
  r_buf : ch_buf (s_ch s) = [];
  r_closed : RingBuffer.closed rb = s_closed s;
  r_pump : s_pump s ≠ NoPump;
  r_chan : ch_closed (s_ch s) = isStopped (s_pump s);
  r_stopped : isStopped (s_pump s) = true → s_closed s = true;
  r_cap : RingBuffer.capacity rb = Z.to_nat (BufferSize (s_opts s));
  r_wake : s_pump s = Waiting → RingBuffer.queue rb = [] ∨ RingBuffer.notify rb = true;
}.
Record chan_shape s : Prop := {
  c_pump : s_pump s = NoPump;
  c_policy : Policy (s_opts s) ≠ DropOldest;
  c_cap : ch_cap (s_ch s) = Z.to_nat (BufferSize (s_opts s));
  c_len : length (ch_buf (s_ch s)) ≤ ch_cap (s_ch s);
  c_chan : ch_closed (s_ch s) = s_closed s;
  c_locked : s_locked s = true → s_closed s = false ∧ evicts s = true;
}.
Record shape_ok s : Prop := {
  sh_form : match s_ringBuf s with Some rb => ring_shape s rb | None => chan_shape s end;
  sh_size : (1 ≤ BufferSize (s_opts s))%Z;
  sh_done : s_done s = s_closed s;
  sh_removed : s_removed s = true → s_closed s = true ∧ (s_pump s = NoPump ∨ isStopped (s_pump s) = true);
}.
Definition sub_ok tr s : Prop :=
  shape_ok s ∧ flow_ok s (sentTo (s_id s) tr) (deliveredTo (s_id s) tr) (droppedFor (s_id s) tr) (receivedBy (s_id s) tr).

Lemma sub_ok_leaves tr evs s : leaves (s_id s) evs → sub_ok tr s → sub_ok (tr ++ evs) s.
Proof. intros Hl [Hs Hf]. unfold sub_ok. destruct (leaves_all (s_id s) tr evs Hl) as (-> & -> & -> & ->). done. Qed.

(** What no operation on a subscription changes. *)
Record keeps s s' : Prop := {
  k_id : s_id s' = s_id s;
  k_topic : s_topic s' = s_topic s;
  k_kind : s_kind s' = s_kind s;
  k_opts : s_opts s' = s_opts s;
  k_removed : s_removed s' = s_removed s;
}.
Lemma keeps_refl s : keeps s s.
Proof. done. Qed.

Lemma incr64_len {A} (l : list A) (x : A) n : n = (N.of_nat (length l) mod 2 ^ 64)%N →
  incr64 n = (N.of_nat (length (l ++ [x])) mod 2 ^ 64)%N.
Proof.
  intros ->. unfold incr64. rewrite length_app, Nat2N.inj_add. simpl. by rewrite N.Div0.add_mod_idemp_l.
Qed.

Lemma evicts_keeps s s' : keeps s s' → evicts s' = evicts s.
Proof. intros K. unfold evicts. by rewrite (k_opts _ _ K). Qed.

(** ** Lists in order *)

Lemma sublist_snoc (l k : list (Message D)) x : l `sublist_of` k → (l ++ [x]) `sublist_of` (k ++ [x]).
Proof. intros. by apply sublist_app. Qed.

Lemma sublist_all (l k : list (Message D)) : l `sublist_of` k → length k ≤ length l → l = k.
Proof.
  induction 1 as [|x l k _ IH|x l k Hs IH]; simpl; intros Hl; [done|f_equal; apply IH; lia|].
  apply sublist_length in Hs. lia.
Qed.

(** Dropping the oldest queued message and adding a new one. *)
Lemma flow_shift (rc ev held q : list (Message D)) dl x y :
  dl ≡ₚ rc ++ ev ++ held ++ x :: q → (rc ++ held ++ x :: q) `sublist_of` dl →
  dl ++ [y] ≡ₚ rc ++ (ev ++ [x]) ++ held ++ q ++ [y] ∧ (rc ++ held ++ q ++ [y]) `sublist_of` (dl ++ [y]).
Proof.
  intros Hp Hs. split.
  - rewrite Hp. solve_Permutation.
  - rewrite !app_assoc. apply sublist_snoc. etrans; [|apply Hs]. rewrite <- !app_assoc.
    apply sublist_app; [done|]. apply sublist_app; [done|]. by apply sublist_cons.
Qed.

Lemma flow_push (rc ev held q : list (Message D)) dl y :
  dl ≡ₚ rc ++ ev ++ held ++ q → (rc ++ held ++ q) `sublist_of` dl →
  dl ++ [y] ≡ₚ rc ++ ev ++ held ++ q ++ [y] ∧ (rc ++ held ++ q ++ [y]) `sublist_of` (dl ++ [y]).
Proof. intros Hp Hs. split; [rewrite Hp; solve_Permutation|]. rewrite !app_assoc in *. by apply sublist_snoc. Qed.

Lemma flow_evict (rc ev held q : list (Message D)) dl x :
  dl ≡ₚ rc ++ ev ++ held ++ x :: q → (rc ++ held ++ x :: q) `sublist_of` dl →
  dl ≡ₚ rc ++ (ev ++ [x]) ++ held ++ q ∧ (rc ++ held ++ q) `sublist_of` dl.
Proof.
  intros Hp Hs. split; [rewrite Hp; solve_Permutation|]. etrans; [|apply Hs].
  apply sublist_app; [done|]. apply sublist_app; [done|]. by apply sublist_cons.
Qed.

(** ** The ring buffer's operations, as the subscription uses them *)

Abbreviation zero := (zeroMessage nilD).

Lemma ring_push (rb : RingBuffer.ringBuffer) msg : RingBuffer.rb_ok rb → RingBuffer.closed rb = false →
  ∃ d rb', RingBuffer.Push zero msg rb = Some (d, rb') ∧ RingBuffer.rb_ok rb' ∧
    RingBuffer.capacity rb' = RingBuffer.capacity rb ∧ RingBuffer.closed rb' = false ∧ RingBuffer.notify rb' = true ∧
    match d with
    | None => RingBuffer.queue rb' = RingBuffer.queue rb ++ [msg]
    | Some x => ∃ q, RingBuffer.queue rb = x :: q ∧ RingBuffer.queue rb' = q ++ [msg]
    end.
Proof.
  intros Hok Hc. destruct (RingBuffer.push_simulates zero msg rb Hok) as (x & rb' & Hr & Hok' & Hcap & Hs).
  unfold RingBuffer.run1 in Hr. apply bind_Some in Hr as ([d rb1] & HP & E). simplify_eq.
  simpl in Hs. rewrite Hc in Hs. unfold RingBuffer.abs_of in Hs.
  exists d, rb'. split; [done|]. split; [done|]. split; [done|].
  destruct (RingBuffer.capacity rb <=? length (RingBuffer.queue rb)) eqn:El.
  - destruct (RingBuffer.queue rb) as [|y q] eqn:Eq.
    { pose proof (RingBuffer.ok_ring _ Hok) as (? & _). apply Nat.leb_le in El. simpl in El. lia. }
    injection Hs as <- Hq <- <-. simpl in Hq. rewrite drop_0 in Hq. split; [done|]. split; [done|]. by exists q.
  - injection Hs as <- Hq <- <-. split; [done|]. by split.
Qed.

Lemma ring_pop (rb : RingBuffer.ringBuffer) : RingBuffer.rb_ok rb →
  ∃ m rb', RingBuffer.Pop zero rb = Some (m, rb') ∧ RingBuffer.rb_ok rb' ∧
    RingBuffer.capacity rb' = RingBuffer.capacity rb ∧ RingBuffer.closed rb' = RingBuffer.closed rb ∧
    RingBuffer.notify rb' = RingBuffer.notify rb ∧
    match m with
    | None => RingBuffer.queue rb = [] ∧ RingBuffer.queue rb' = []
    | Some x => RingBuffer.queue rb = x :: RingBuffer.queue rb'
    end.
Proof.
  intros Hok. destruct (RingBuffer.pop_simulates zero rb Hok) as (x & rb' & Hr & Hok' & Hcap & Hs).
  unfold RingBuffer.run1 in Hr. apply bind_Some in Hr as ([d rb1] & HP & E). simplify_eq.
  simpl in Hs. unfold RingBuffer.abs_of in Hs. exists d, rb'. do 3 (split; [done|]).
  destruct (RingBuffer.queue rb) as [|y q]; injection Hs as <- Hq <- <-; simpl in Hq; [by rewrite <- Hq|].
  rewrite drop_0 in Hq. by rewrite <- Hq.
Qed.

Lemma ring_close (rb : RingBuffer.ringBuffer (Message := Message D)) : RingBuffer.rb_ok rb → RingBuffer.closed rb = false →
  ∃ rb', RingBuffer.Close rb = Some rb' ∧ RingBuffer.rb_ok rb' ∧ RingBuffer.capacity rb' = RingBuffer.capacity rb ∧
    RingBuffer.closed rb' = true ∧ RingBuffer.notify rb' = RingBuffer.notify rb ∧ RingBuffer.queue rb' = RingBuffer.queue rb.
Proof.
  intros [Hr Ht Ha Hcl] Hc. unfold RingBuffer.Close. rewrite Hc, Hcl, Hc. eexists. split; [done|].
  split; [by split|done].
Qed.

(** ** Each operation keeps the subscription right *)

Lemma new_sub_ok tr id topic kind (opts : SubOptions D) :
  (1 ≤ BufferSize opts)%Z → (Policy opts = DropOldest → UseRingBuffer opts = true) →
  sentTo id tr = [] → deliveredTo id tr = [] → droppedFor id tr = [] → receivedBy id tr = [] →
  sub_ok tr (newSubscriber nilD id topic kind opts).
Proof.
  intros Hb Hu H0 H1 H2 H3. assert (s_id (newSubscriber nilD id topic kind opts) = id) as Hid.
  { unfold newSubscriber. by case_match. }
  unfold sub_ok. rewrite Hid, H0, H1, H2, H3. unfold newSubscriber.
  destruct (UseRingBuffer opts && bool_decide (Policy opts = DropOldest)) eqn:E.
  - apply andb_true_iff in E as [_ Hp%bool_decide_eq_true]. split.
    + split; simpl; [|done|done|done]. split; simpl; try done; [apply RingBuffer.new_rb_ok|].
      destruct (Z.ltb_spec (BufferSize opts) 1); lia.
    + split; simpl; [|done|done|done]. by destruct (evicts _).
  - split.
    + split; simpl; [|done|done|done]. split; simpl; try done; [|lia]. intros Hp. rewrite Hu, Hp in E by done.
      by rewrite bool_decide_true in E.
    + split; simpl; [|done|done|done]. by destruct (evicts _).
Qed.

(** The events of an operation on a subscription are its own. *)
Definition own id evs : Prop := Forall (λ e, subject e = Some id) evs.
Lemma own_leaves id id' evs : own id evs → id ≠ id' → leaves id' evs.
Proof. intros Ho Hne. eapply Forall_impl; [apply Ho|]. simpl. congruence. Qed.

(** The result of a finished operation. *)
Definition finished_ok tr s s' evs : Prop :=
  sub_ok (tr ++ evs) s' ∧ keeps s s' ∧ own (s_id s) evs ∧ s_closed s' = s_closed s.

Ltac project :=
  unfold sentTo, deliveredTo, droppedFor, receivedBy, delivered, announced, dropped_ in *; rewrite ?omap_app; simpl;
  rewrite ?decide_True by done; rewrite ?app_nil_r.

Lemma push_ok tr s msg : sub_ok tr s → s_closed s = false → s_locked s = false → is_Some (s_ringBuf s) →
  match deliverDropOldest nilD s msg with
  | Finished s' evs c => finished_ok tr s s' evs ∧ c = false ∧ s_locked s' = false
  | _ => False
  end.
Proof.
  intros [Hsh Hfl] Hc Hl [rb Erb]. unfold deliverDropOldest. pose proof (sh_form _ Hsh) as Hf. rewrite Erb in *.
  destruct (ring_push rb msg) as (d & rb' & -> & Hok' & Hcap & Hcl & Hnt & Hq);
    [apply (r_ok _ _ Hf)|rewrite (r_closed _ _ Hf); done|].
  assert (evicts s = true) as Hev by (unfold evicts; by rewrite (r_policy _ _ Hf)).
  destruct Hfl as [F1 F2 F3 F4]. unfold queued in F1, F2. rewrite Erb, Hev in *.
  split; [|done]. split; [|split; [done|split; [|done]]].
  - split.
    + destruct Hf. split; simpl; [|apply (sh_size _ Hsh)|apply (sh_done _ Hsh)|apply (sh_removed _ Hsh)].
      split; simpl; try done; [congruence|congruence|by right].
    + destruct d as [x|].
      * destruct Hq as (q & Eq & Eq'). rewrite Eq in F1, F2. destruct (flow_shift _ _ _ _ _ _ msg F1 F2) as [G1 G2].
        rewrite bool_decide_true by eauto. simpl. project.
        split; simpl; unfold evicts, queued, held in *; simpl; rewrite ?Hev, ?Eq'; [done|done|by apply incr64_len..].
      * destruct (flow_push _ _ _ _ _ msg F1 F2) as [G1 G2]. rewrite bool_decide_false by (by intros []). simpl. project.
        split; simpl; unfold evicts, queued, held in *; simpl; rewrite ?Hev, ?Hq; [done|done|by apply incr64_len|done].
  - destruct d; repeat constructor.
Qed.

Lemma trySend_ok msg (ch : channel D) :
  match trySend msg ch with
  | Sent ch' => ch_closed ch = false ∧ length (ch_buf ch) < ch_cap ch ∧ ch' = mkChannel (ch_buf ch ++ [msg]) (ch_cap ch) false
  | Full => ch_closed ch = false ∧ ch_cap ch ≤ length (ch_buf ch)
  | SendPanics => ch_closed ch = true
  end.
Proof. unfold trySend. destruct (ch_closed ch); [done|]. by destruct (Nat.ltb_spec (length (ch_buf ch)) (ch_cap ch)). Qed.

(** A message enters a buffered channel. *)
Lemma sent_ok tr s msg : sub_ok tr s → s_ringBuf s = None → s_closed s = false →
  length (ch_buf (s_ch s)) < ch_cap (s_ch s) →
  finished_ok tr s (addStats true false (setCh (mkChannel (ch_buf (s_ch s) ++ [msg]) (ch_cap (s_ch s)) false) s)) (delivered s msg).
Proof.
  intros [Hsh [F1 F2 F3 F4]] Erb Hc Hlen. pose proof (sh_form _ Hsh) as Hf. rewrite Erb in Hf. destruct Hf.
  unfold queued in F1, F2. rewrite Erb in F1, F2. destruct (flow_push _ _ _ _ _ msg F1 F2) as [G1 G2].
  split; [|split; [done|split; [by repeat constructor|done]]]. split.
  - split; simpl; [|apply (sh_size _ Hsh)|apply (sh_done _ Hsh)|apply (sh_removed _ Hsh)]. rewrite Erb.
    split; simpl; try done. rewrite length_app. simpl. lia.
  - project. split; simpl; unfold evicts, queued, held in *; simpl; rewrite ?Erb; [done|done|by apply incr64_len|done].
Qed.

(** A message is refused: the subscription never had it. *)
Lemma refused_ok tr s msg policy : sub_ok tr s → evicts s = false →
  finished_ok tr s (addStats false true s) (dropped_ s (metricTopic s msg) msg policy).
Proof.
  intros [Hsh [F1 F2 F3 F4]] Hev. split; [|split; [done|split; [by repeat constructor|done]]]. split.
  - destruct Hsh as [Hf ? ? ?]. split; simpl; try done. destruct (s_ringBuf s); destruct Hf; by split.
  - project. split; simpl; unfold evicts, queued, held in *; simpl; rewrite ?Hev in *; [done|done|done|by apply incr64_len].
Qed.

Lemma finished_refl tr s : sub_ok tr s → finished_ok tr s s [].
Proof. intros. split; [by rewrite app_nil_r|]. split; [done|]. split; [constructor|done]. Qed.

Lemma deliverOrDrop_ok tr s msg policy c : sub_ok tr s → s_closed s = false → s_ringBuf s = None → evicts s = false →
  match deliverOrDrop policy c s msg with
  | Finished s' evs _ => finished_ok tr s s' evs ∧ s_locked s' = s_locked s
  | _ => False
  end.
Proof.
  intros Hok Hc Erb Hev. unfold deliverOrDrop. pose proof (trySend_ok msg (s_ch s)) as Ht.
  destruct (trySend msg (s_ch s)) as [ch| |].
  - destruct Ht as (_ & Hlen & ->). split; [|done]. by apply sent_ok.
  - split; [|done]. by apply refused_ok.
  - destruct Hok as [Hsh _]. pose proof (sh_form _ Hsh) as Hf. rewrite Erb in Hf. rewrite (c_chan _ Hf) in Ht. congruence.
Qed.

Lemma locked_ok tr s b : sub_ok tr s → s_ringBuf s = None → s_closed s = false → evicts s = true → sub_ok tr (setLocked b s).
Proof.
  intros [Hsh [F1 F2 F3 F4]] Erb Hc Hev. split; [|by split].
  destruct Hsh as [Hf ? ? ?]. rewrite Erb in Hf. split; simpl; try done. rewrite Erb. destruct Hf. by split.
Qed.

Lemma no_ring tr s : sub_ok tr s → Policy (s_opts s) ≠ DropOldest → s_ringBuf s = None.
Proof.
  intros [Hsh _] Hp. pose proof (sh_form _ Hsh) as Hf. destruct (s_ringBuf s); [|done]. by destruct Hf.
Qed.

(** What [deliver] leaves behind; it panics only when the filter does. *)
Lemma deliver_ok tr s msg : sub_ok tr s →
  match deliver nilD s msg with
  | Finished s' evs _ => finished_ok tr s s' evs ∧ s_locked s' = s_locked s
  | Waits => s_locked s = true
  | Panics => filterVerdict s msg = None
  | Blocks => Policy (s_opts s) = BlockWithTimeout
  | Spins s' => sub_ok tr s' ∧ keeps s s' ∧ s_locked s = false ∧ s_locked s' = true ∧ s_closed s' = false ∧ s_closed s = false
  | Reports _ _ => False
  end.
Proof.
  intros Hok. unfold deliver. destruct (filterVerdict s msg) as [[]|] eqn:Ef; [|by split; [apply finished_refl|]|done].
  destruct (s_closed s) eqn:Hc; [by split; [apply finished_refl|]|]. case_decide as Hb; [done|].
  destruct (s_locked s) eqn:Hl; [done|].
  destruct (Policy (s_opts s)) eqn:Hp; try done.
  - destruct (s_ringBuf s) eqn:Erb.
    + pose proof (push_ok tr s msg Hok Hc Hl ltac:(by rewrite Erb)) as H.
      destruct (deliverDropOldest nilD s msg) as [s' evs c| | | | |]; try done. tauto.
    + destruct Hok as [Hsh _]. pose proof (sh_form _ Hsh) as Hf. rewrite Erb in Hf. by destruct Hf.
  - pose proof (deliverOrDrop_ok tr s msg DropNewest false Hok Hc) as H. unfold deliverDropNewest.
    rewrite (no_ring tr s Hok) in H by congruence. unfold evicts in H. rewrite Hp in H. specialize (H eq_refl eq_refl).
    destruct (deliverOrDrop DropNewest false s msg); try done. rewrite Hl in H. tauto.
  - pose proof (deliverOrDrop_ok tr s msg CloseSubscriber true Hok Hc) as H. unfold deliverCloseSubscriber.
    rewrite (no_ring tr s Hok) in H by congruence. unfold evicts in H. rewrite Hp in H. specialize (H eq_refl eq_refl).
    destruct (deliverOrDrop CloseSubscriber true s msg); try done. rewrite Hl in H. tauto.
  - unfold deliverDropOldest. assert (s_ringBuf s = None) as Erb by (apply (no_ring tr); [done|congruence]).
    rewrite Erb. split; [|done]. apply locked_ok; [done..|]. unfold evicts. by rewrite Hp.
Qed.

(** The two halves of a delivery that blocked: the send, and the report of it. *)
Lemma halfSent_ok tr s msg : sub_ok tr s → s_ringBuf s = None → s_closed s = false →
  length (ch_buf (s_ch s)) < ch_cap (s_ch s) →
  finished_ok tr s (setCh (mkChannel (ch_buf (s_ch s) ++ [msg]) (ch_cap (s_ch s)) false) s) [EvSent (s_id s) msg].
Proof.
  intros [Hsh [F1 F2 F3 F4]] Erb Hc Hlen. pose proof (sh_form _ Hsh) as Hf. rewrite Erb in Hf. destruct Hf.
  unfold queued in F1, F2. rewrite Erb in F1, F2. destruct (flow_push _ _ _ _ _ msg F1 F2) as [G1 G2].
  split; [|split; [done|split; [by repeat constructor|done]]]. split.
  - split; simpl; [|apply (sh_size _ Hsh)|apply (sh_done _ Hsh)|apply (sh_removed _ Hsh)]. rewrite Erb.
    split; simpl; try done. rewrite length_app. simpl. lia.
  - project. split; simpl; unfold evicts, queued, held in *; simpl; rewrite ?Erb; done.
Qed.

Lemma reported_ok tr s msg : sub_ok tr s → finished_ok tr s (addStats true false s) (announced s msg).
Proof.
  intros [Hsh [F1 F2 F3 F4]]. split; [|split; [done|split; [by repeat constructor|done]]]. split.
  - destruct Hsh as [Hf ? ? ?]. split; simpl; try done. destruct (s_ringBuf s); destruct Hf; by split.
  - project. split; simpl; unfold evicts, queued, held in *; simpl; [done|done|by apply incr64_len|done].
Qed.

Lemma blockStep_ok tr c s msg : sub_ok tr s → Policy (s_opts s) = BlockWithTimeout →
  match blockStep c s msg with
  | Finished s' evs cancelSub => finished_ok tr s s' evs ∧ s_locked s' = s_locked s ∧ cancelSub = false
  | Reports s' evs => finished_ok tr s s' evs ∧ s_locked s' = s_locked s
  | Waits => True
  | Panics => s_closed s = true
  | Blocks | Spins _ => False
  end.
Proof.
  intros Hok Hp. assert (s_ringBuf s = None) as Erb by (apply (no_ring tr); [done|congruence]).
  pose proof (proj1 Hok) as Hsh. pose proof (sh_form _ Hsh) as Hf. rewrite Erb in Hf.
  assert (evicts s = false) as Hev by (unfold evicts; by rewrite Hp).
  destruct c; simpl; [|by split; [apply refused_ok|]..].
  pose proof (trySend_ok msg (s_ch s)) as Ht. destruct (trySend msg (s_ch s)) as [ch| |]; [|done|].
  - destruct Ht as (Hc & Hlen & ->). rewrite (c_chan _ Hf) in Hc. split; [|done]. by apply halfSent_ok.
  - by rewrite (c_chan _ Hf) in Ht.
Qed.

(** The loop that evicts by hand: it holds the lock, so the channel stays open. *)
Lemma spinSend_ok tr s msg : sub_ok tr s → s_locked s = true →
  match spinSend s msg with
  | Finished s' evs cancelSub => finished_ok tr s s' evs ∧ s_locked s' = false ∧ cancelSub = false
  | Spins s' => s' = s
  | _ => False
  end.
Proof.
  intros Hok Hl. pose proof (proj1 Hok) as Hsh. pose proof (sh_form _ Hsh) as Hf.
  destruct (s_ringBuf s) as [rb|] eqn:Erb; [destruct Hf; congruence|].
  destruct (c_locked _ Hf Hl) as [Hc Hev]. unfold spinSend. rewrite Hc.
  pose proof (trySend_ok msg (s_ch s)) as Ht. destruct (trySend msg (s_ch s)) as [ch| |]; [|done|].
  - destruct Ht as (Hc' & Hlen & ->). split; [|done].
    destruct (sent_ok tr s msg Hok Erb Hc Hlen) as ((Hsh' & Hfl') & Hk & Ho & Hcl). split; [|done]. split; [|by destruct Hfl'; split].
    destruct Hsh' as [Hf' ? ? ?]. simpl in *. rewrite Erb in *. split; simpl; try done. rewrite Erb. destruct Hf'. by split.
  - rewrite (c_chan _ Hf) in Ht. congruence.
Qed.

Lemma spinDrop_ok tr s msg : sub_ok tr s → s_locked s = true →
  let '(s', evs) := spinDrop s msg in finished_ok tr s s' evs ∧ s_locked s' = true.
Proof.
  intros Hok Hl. pose proof (proj1 Hok) as Hsh. pose proof (sh_form _ Hsh) as Hf.
  destruct (s_ringBuf s) as [rb|] eqn:Erb; [destruct Hf; congruence|].
  destruct (c_locked _ Hf Hl) as [Hc Hev]. unfold spinDrop.
  destruct (ch_buf (s_ch s)) as [|m buf] eqn:Eb; [split; [by apply finished_refl|done]|]. split; [|done].
  destruct Hok as [_ [F1 F2 F3 F4]]. unfold queued in F1, F2. rewrite Erb, Eb, ?Hev in *.
  destruct (flow_evict _ _ _ _ _ _ F1 F2) as [G1 G2].
  split; [|split; [done|split; [by repeat constructor|done]]]. split.
  - split; simpl; [|apply (sh_size _ Hsh)|apply (sh_done _ Hsh)|apply (sh_removed _ Hsh)]. rewrite Erb. destruct Hf.
    rewrite Eb in c_len0. simpl in c_len0. split; simpl; try done. lia.
  - project. split; simpl; unfold evicts, queued, held in *; simpl; rewrite ?Erb, ?Hev; [done|done|done|by apply incr64_len].
Qed.

Lemma stopPump_ok tr s (rb : RingBuffer.ringBuffer) o : sub_ok tr s → s_ringBuf s = Some rb → s_closed s = true →
  held s = (match o with Some m => [m] | None => [] end) → sub_ok tr (stopPump o s).
Proof.
  intros [Hsh [F1 F2 F3 F4]] Erb Hc Ho. split.
  - destruct Hsh as [Hf ? ? ?]. rewrite Erb in Hf. destruct Hf. split; simpl; try done; [rewrite Erb; by split|tauto].
  - unfold queued in *. rewrite Erb in *. split; simpl; unfold evicts, queued, held in *; simpl in *; rewrite ?Erb, ?Ho in *; by destruct o.
Qed.

(** The pump moves a message from the queue to its hand, and stops only after [Cancel]. *)
Lemma pumpRingBuffer_ok tr c s s' : sub_ok tr s → pumpRingBuffer nilD c s = Some s' →
  finished_ok tr s s' [] ∧ s_locked s' = s_locked s ∧ s_pump s ≠ NoPump.
Proof.
  intros Hok Hs. pose proof (proj1 Hok) as Hsh. pose proof (sh_form _ Hsh) as Hf. unfold pumpRingBuffer in Hs.
  destruct (s_ringBuf s) as [rb|] eqn:Erb; [|done]. simpl in Hs.
  assert (sub_ok tr s' ∧ keeps s s' ∧ s_closed s' = s_closed s ∧ s_locked s' = s_locked s ∧ s_pump s ≠ NoPump) as (H1 & H2 & H3 & H4 & H5);
    [|split; [|done]; split; [by rewrite app_nil_r|split; [done|split; [constructor|done]]]].
  destruct (s_pump s) as [| |m| |o] eqn:Ep; try (by destruct c).
  - destruct c; [|done]. destruct (ring_pop rb (r_ok _ _ Hf)) as (m & rb' & HP & Hok' & Hcap & Hcl & Hnt & Hq).
    rewrite HP in Hs. simpl in Hs. simplify_eq. split; [|done]. destruct Hok as [_ [F1 F2 F3 F4]].
    unfold queued, held in F1, F2. rewrite Erb, Ep in F1, F2. split.
    + destruct Hf. split; simpl; [|apply (sh_size _ Hsh)|apply (sh_done _ Hsh)|].
      * split; simpl; try done; [congruence|by destruct m|by rewrite r_chan0, Ep; destruct m|by destruct m|congruence|].
        destruct m; [done|]. intros _. left. tauto.
      * intros Hr. destruct (sh_removed _ Hsh Hr) as [? [?|Hst]]; rewrite Ep in *; done.
    + split; simpl; unfold evicts, queued, held in *; simpl; [| |done|done];
        (destruct m as [m|]; [by rewrite Hq in *|destruct Hq as [Hq ->]; by rewrite Hq in *]).
  - destruct c; [done|]. destruct (s_done s) eqn:Ed; [|done]. simplify_eq. split; [|done].
    rewrite (sh_done _ Hsh) in Ed. eapply stopPump_ok; [done..|]. unfold held. by rewrite Ep.
  - destruct c.
    + destruct (RingBuffer.Receive rb) as [token rb'] eqn:Er. unfold RingBuffer.Receive in Er. simplify_eq.
      destruct (RingBuffer.notify rb) eqn:En.
      * simplify_eq. split; [|done]. destruct Hok as [_ [F1 F2 F3 F4]]. unfold queued, held in F1, F2. rewrite Erb, Ep in F1, F2. split.
        -- destruct Hf. split; simpl; [|apply (sh_size _ Hsh)|apply (sh_done _ Hsh)|].
           ++ split; simpl; try done; [by destruct r_ok0|by rewrite r_chan0, Ep].
           ++ intros Hr. destruct (sh_removed _ Hsh Hr) as [? [?|Hst]]; rewrite Ep in *; done.
        -- by split.
      * destruct (RingBuffer.notifyClosed rb) eqn:Ec; [|done]. simplify_eq. split; [|done].
        rewrite (RingBuffer.ok_closed _ (r_ok _ _ Hf)), (r_closed _ _ Hf) in Ec.
        eapply stopPump_ok; [done..|]. unfold held. by rewrite Ep.
    + destruct (s_done s) eqn:Ed; [|done]. simplify_eq. split; [|done].
      rewrite (sh_done _ Hsh) in Ed. eapply stopPump_ok; [done..|]. unfold held. by rewrite Ep.
Qed.

(** A receive takes the oldest message. *)
Lemma consumerReceive_ok tr s m s' : sub_ok tr s → consumerReceive s = Some (m, s') →
  finished_ok tr s s' [EvReceive (s_id s) m] ∧ s_locked s' = s_locked s ∧ head (held s ++ queued s) = Some m.
Proof.
  intros Hok Hr. pose proof (proj1 Hok) as Hsh. pose proof (sh_form _ Hsh) as Hf. unfold consumerReceive in Hr.
  destruct Hok as [_ [F1 F2 F3 F4]].
  destruct (s_pump s) as [| |m'| |o] eqn:Ep; try done.
  - destruct (ch_buf (s_ch s)) as [|m' buf] eqn:Eb; [done|]. simplify_eq.
    destruct (s_ringBuf s) as [rb|] eqn:Erb; [by destruct Hf|]. unfold queued, held in *. rewrite Erb, Ep, Eb in *. simpl in *.
    split; [|done]. split; [|split; [done|split; [by repeat constructor|done]]]. split.
    + split; simpl; [|apply (sh_size _ Hsh)|apply (sh_done _ Hsh)|apply (sh_removed _ Hsh)]. rewrite Erb. destruct Hf.
      rewrite Eb in c_len0. simpl in c_len0. split; simpl; try done. lia.
    + project. split; simpl; unfold evicts, queued, held in *; simpl; rewrite ?Erb, ?Ep in *; simpl; [|by rewrite <- app_assoc|done|done].
      rewrite F1. solve_Permutation.
  - simplify_eq. destruct (s_ringBuf s) as [rb|] eqn:Erb; [|destruct Hf; congruence].
    unfold queued, held in *. rewrite Erb, Ep in *. simpl in *.
    split; [|done]. split; [|split; [done|split; [by repeat constructor|done]]]. split.
    + destruct Hf. split; simpl; [|apply (sh_size _ Hsh)|apply (sh_done _ Hsh)|].
      * rewrite Erb. split; simpl; try done; by rewrite r_chan0, Ep.
      * intros Hr. destruct (sh_removed _ Hsh Hr) as [? [?|Hst]]; rewrite Ep in *; done.
    + project. split; simpl; unfold evicts, queued, held in *; simpl; rewrite ?Erb in *; simpl; [|by rewrite <- app_assoc|done|done].
      rewrite F1. solve_Permutation.
Qed.

Lemma cancelLocked_ok tr s s' : sub_ok tr s → cancelLocked s = Some s' →
  sub_ok tr s' ∧ keeps s s' ∧ s_closed s = false ∧ s_closed s' = true ∧ s_locked s = false ∧ s_locked s' = false.
Proof.
  intros [Hsh [F1 F2 F3 F4]] Hc. pose proof (sh_form _ Hsh) as Hf. unfold cancelLocked in Hc.
  destruct (s_locked s || s_closed s) eqn:E; [done|]. apply orb_false_iff in E as [El Ec].
  destruct (s_ringBuf s) as [rb|] eqn:Erb.
  - destruct (ring_close rb) as (rb' & HC & Hok' & Hcap & Hcl & Hnt & Hq); [apply (r_ok _ _ Hf)|by rewrite (r_closed _ _ Hf)|].
    rewrite HC in Hc. simpl in Hc. simplify_eq. split; [|done]. unfold queued in F1, F2. rewrite Erb in F1, F2. split.
    + split; simpl; [|apply (sh_size _ Hsh)|done|intros Hr; destruct (sh_removed _ Hsh Hr); congruence].
      destruct Hf. split; simpl; try done; [congruence|]. intros Hw. destruct (r_wake0 Hw); [left|right]; congruence.
    + split; simpl; unfold evicts, queued, held in *; simpl; rewrite ?Hq; done.
  - destruct (ch_closed (s_ch s)) eqn:Ech; [done|]. simpl in Hc. simplify_eq. split; [|done]. unfold queued in *. rewrite Erb in *. split.
    + split; simpl; [|apply (sh_size _ Hsh)|done|intros Hr; destruct (sh_removed _ Hsh Hr); congruence].
      destruct Hf. split; simpl; try done. congruence.
    + by split.
Qed.

(** [Cancel] never fails for another reason than the lock or an earlier call. *)
Lemma cancelLocked_enabled tr s : sub_ok tr s → s_locked s = false → s_closed s = false → is_Some (cancelLocked s).
Proof.
  intros [Hsh _] Hl Hc. pose proof (sh_form _ Hsh) as Hf. unfold cancelLocked. rewrite Hl, Hc. simpl.
  destruct (s_ringBuf s) as [rb|].
  - destruct (ring_close rb) as (rb' & -> & _); [apply (r_ok _ _ Hf)|by rewrite (r_closed _ _ Hf)|]. simpl. eauto.
  - rewrite (c_chan _ Hf), Hc. simpl. eauto.
Qed.

Lemma setRemoved_ok tr s : sub_ok tr s → canRemove s = true → sub_ok tr (setRemoved s).
Proof.
  intros [Hsh [F1 F2 F3 F4]] Hc. unfold canRemove in Hc. apply andb_true_iff in Hc as [[Hc _]%andb_true_iff Hp].
  split; [|by split]. destruct Hsh as [Hf ? ? ?]. split; simpl; try done.
  - destruct (s_ringBuf s); destruct Hf; by split.
  - intros _. split; [done|]. destruct (s_pump s); try done; [by left|by right].
Qed.

End subscriptions.
