(* ===== verification/BrokerInv.v ===== *)
(** * The broker's invariant

    Every step keeps the registry, the subscriptions and the publishers consistent:
    [reachable_inv]. *)

From stdpp Require Import options.
From S2P Require Import Prelude GoStrings GoPath RingBuffer Mqtt BrokerShards BrokerShardsFacts Broker BrokerFacts.
Import Shards Broker.

Section invariant.
Context {D : Type} (nilD : D).
Implicit Types (msg : Message D) (id : N) (s : subscriber D) (tr evs : list (event D)) (t : task D) (b : broker D).
Implicit Types (ts : gmap nat (task D)) (subs : gmap N (subscriber D)) (topic : gostring).

(** What the checks of subscribing establish. *)
Definition key_ok (kind : subKind) topic : Prop :=
  topic ≠ [] ∧
  match kind with
  | subKindTopic => True
  | subKindPattern => GoPath.valid topic = true
  | subKindMQTT => Mqtt.ValidateMQTTPattern topic = None
  end.
Definition opts_ok (opts : SubOptions D) : Prop :=
  (1 ≤ BufferSize opts)%Z ∧ (Policy opts = DropOldest → UseRingBuffer opts = true).

(** A subscription whose delivery can panic: its filter does, or its channel is sent to
    without the lock. *)
Definition mayPanic s : Prop := Policy (s_opts s) = BlockWithTimeout ∨ ∃ msg, filterVerdict s msg = None.

Record core_ok (sm : shardedMap N) subs (nextID : N) (closing : closing) (subscribing : gmap nat (subKind * gostring * SubOptions D))
    (metrics : gmap gostring topicMetrics) tr (crashed : bool) : Prop := {
  co_shards : sm_ok sm;
  co_ids : ∀ id s, subs !! id = Some s → s_id s = id ∧ (id ≤ nextID)%N;
  co_subs : ∀ id s, subs !! id = Some s → sub_ok tr s;
  co_keys : ∀ id s, subs !! id = Some s → key_ok (s_kind s) (s_topic s);
  co_trace : ∀ id, (nextID < id)%N → leaves id tr;
  co_reg : ∀ kind key id p, lookupSub sm kind key id = Some p →
    p = id ∧ ∃ s, subs !! id = Some s ∧ s_kind s = kind ∧ s_topic s = key ∧ s_removed s = false;
  co_live : ∀ id s, subs !! id = Some s → s_removed s = false →
    lookupSub sm (s_kind s) (s_topic s) id = Some id ∨ ∃ all rest, closing = Cancelling all rest ∧ id ∈ rest;
  co_closing : ∀ all rest, closing = Cancelling all rest →
    ∀ id, id ∈ all → ∃ s, subs !! id = Some s ∧ (id ∈ rest ∨ s_removed s = true);
  co_rest : ∀ all rest, closing = Cancelling all rest → rest ⊆ all;
  co_pending : ∀ rid kind topic opts, subscribing !! rid = Some (kind, topic, opts) → key_ok kind topic ∧ opts_ok opts;
  co_metrics : metrics = foldl countEvent ∅ tr;
  co_panics : ∀ topic id, EvPanic topic id ∈ tr → ∃ s, subs !! id = Some s ∧ mayPanic s;
  co_crash : crashed = true → ∃ id s, subs !! id = Some s ∧ mayPanic s;
}.
Definition core b : Prop :=
  core_ok (b_shards b) (b_subs b) (b_nextID b) (b_closing b) (b_subscribing b) (b_metrics b) (b_trace b) (b_crashed b).

Definition spinOf (p : pc D) : option N := match p with InSpin id _ _ => Some id | _ => None end.

Record tasks_ok ts subs : Prop := {
  to_spin : ∀ tid t id, ts !! tid = Some t → spinOf (t_pc t) = Some id → ∃ s, subs !! id = Some s ∧ s_locked s = true;
  to_once : ∀ tid tid' t t' id, ts !! tid = Some t → ts !! tid' = Some t' →
    spinOf (t_pc t) = Some id → spinOf (t_pc t') = Some id → tid = tid';
  to_block : ∀ tid t id m, ts !! tid = Some t → t_pc t = InBlock id m →
    ∃ s, subs !! id = Some s ∧ Policy (s_opts s) = BlockWithTimeout;
  to_report : ∀ tid t id m, ts !! tid = Some t → t_pc t = InReport id m → is_Some (subs !! id);
  to_cancel : ∀ tid t id, ts !! tid = Some t → t_pc t = InCancel id → is_Some (subs !! id);
  to_work : ∀ tid t id m, ts !! tid = Some t → WDeliver id m ∈ t_work t → is_Some (subs !! id);
}.
Definition inv b : Prop := core b ∧ tasks_ok (b_tasks b) (b_subs b).

(** ** One subscription changes *)

Lemma keeps_panic s s' : keeps s s' → mayPanic s → mayPanic s'.
Proof.
  intros K [H|[m H]]; [left|right]; [by rewrite (k_opts _ _ K)|]. exists m. unfold filterVerdict. by rewrite (k_opts _ _ K).
Qed.

Lemma core_sub b s s' evs : core b → b_subs b !! s_id s = Some s →
  sub_ok (b_trace b ++ evs) s' → keeps s s' → own (s_id s) evs → core (emit evs (setSub s' b)).
Proof.
  intros C Hs Hok K Ho. pose proof (k_id _ _ K) as Hid. unfold core. simpl.
  assert (Forall (λ e, ∀ topic id, e ≠ EvPanic topic id) evs) as Hnp.
  { eapply Forall_impl; [apply Ho|]. by intros [] ?. }
  destruct C. split; simpl.
  - done.
  - intros id x. rewrite lookup_insert. case_decide as E; [|apply co_ids0]. intros [=<-]. subst. split; [done|].
    rewrite Hid. by apply (co_ids0 _ _ Hs).
  - intros id x. rewrite lookup_insert. case_decide as E; [by intros [=<-]|]. intros Hx.
    apply sub_ok_leaves; [|by apply (co_subs0 _ _ Hx)]. destruct (co_ids0 _ _ Hx) as [-> _].
    eapply own_leaves; [done|]. congruence.
  - intros id x. rewrite lookup_insert. case_decide as E; [|apply co_keys0]. intros [=<-].
    rewrite (k_kind _ _ K), (k_topic _ _ K). by apply (co_keys0 _ _ Hs).
  - intros id Hlt. apply Forall_app. split; [by apply co_trace0|]. eapply own_leaves; [done|].
    destruct (co_ids0 _ _ Hs). lia.
  - intros kind key id p Hl. destruct (co_reg0 _ _ _ _ Hl) as (-> & x & Hx & Hk & Ht & Hr). split; [done|].
    rewrite lookup_insert. case_decide as E; [|eauto]. exists s'. subst id. rewrite Hid in Hx. simplify_eq.
    by rewrite (k_kind _ _ K), (k_topic _ _ K), (k_removed _ _ K).
  - intros id x. rewrite lookup_insert. case_decide as E; [|apply co_live0]. intros [=<-].
    rewrite (k_kind _ _ K), (k_topic _ _ K), (k_removed _ _ K). subst id. rewrite Hid. by apply co_live0.
  - intros all rest Hc id Hin. destruct (co_closing0 _ _ Hc id Hin) as (x & Hx & Hr).
    rewrite lookup_insert. case_decide as E; [|eauto]. exists s'. subst id. rewrite Hid in *. simplify_eq.
    by rewrite (k_removed _ _ K).
  - done.
  - done.
  - rewrite co_metrics0. by rewrite foldl_app.
  - intros topic id [Hin|Hin]%elem_of_app; [|by rewrite Forall_forall in Hnp; destruct (Hnp _ Hin topic id)].
    destruct (co_panics0 _ _ Hin) as (x & Hx & Hp). rewrite lookup_insert. case_decide as E; [|eauto].
    subst id. rewrite Hid in Hx. simplify_eq. eauto using keeps_panic.
  - intros Hc. destruct (co_crash0 Hc) as (id & x & Hx & Hp). exists id. rewrite lookup_insert. case_decide as E; [|eauto].
    subst id. rewrite Hid in Hx. simplify_eq. eauto using keeps_panic.
Qed.

Lemma emit_nil b : emit [] b = b.
Proof. destruct b. unfold emit. simpl. by rewrite app_nil_r. Qed.

(** A change without events. *)
Lemma core_set b s s' : core b → b_subs b !! s_id s = Some s → sub_ok (b_trace b) s' → keeps s s' → core (setSub s' b).
Proof.
  intros. rewrite <- (emit_nil (setSub s' b)). eapply core_sub; [done..|by rewrite app_nil_r|done|constructor].
Qed.

(** Events that move no message. *)
Lemma core_quiet b evs : core b → Forall (λ e, subject e = None) evs →
  (∀ topic id, EvPanic topic id ∈ evs → ∃ s, b_subs b !! id = Some s ∧ mayPanic s) → core (emit evs b).
Proof.
  intros C Hq Hp. assert (∀ id, leaves id evs) as Hl.
  { intros id. eapply Forall_impl; [apply Hq|]. simpl. congruence. }
  unfold core in *. simpl. destruct C. split; simpl; try done.
  - intros id s Hs. apply sub_ok_leaves; [apply Hl|by eapply co_subs0].
  - intros id Hlt. apply Forall_app. split; [by apply co_trace0|apply Hl].
  - rewrite co_metrics0. by rewrite foldl_app.
  - intros topic id [Hin|Hin]%elem_of_app; [by eapply co_panics0|by eapply Hp].
Qed.

Ltac core_same C := unfold core in *; simpl in *; exact C.

(** ** Publishers *)

Lemma tasks_update ts subs id s s' tid t' :
  tasks_ok ts subs → subs !! id = Some s → keeps s s' →
  (∀ tid' t, tid' ≠ tid → ts !! tid' = Some t → spinOf (t_pc t) = Some id →
     s_locked s' = true ∧ spinOf (t_pc t') ≠ Some id) →
  (∀ i, spinOf (t_pc t') = Some i → i = id ∧ s_locked s' = true) →
  (∀ i m, t_pc t' = InBlock i m → i = id ∧ Policy (s_opts s) = BlockWithTimeout) →
  (∀ i m, t_pc t' = InReport i m → is_Some (subs !! i)) →
  (∀ i, t_pc t' = InCancel i → is_Some (subs !! i)) →
  (∀ i m, WDeliver i m ∈ t_work t' → is_Some (subs !! i)) →
  tasks_ok (<[tid := t']> ts) (<[id := s']> subs).
Proof.
  intros T Hs K Hoth Hsp Hbl Hre Hca Hwk. destruct T as [T1 T2 T3 T6 T4 T5].
  assert (∀ i, is_Some (subs !! i) → is_Some (<[id := s']> subs !! i)) as Hdom.
  { intros i [x Hx]. rewrite lookup_insert. case_decide; eauto. }
  split.
  - intros tid1 t1 i. rewrite lookup_insert. case_decide as E1.
    + intros [=<-] Hi. destruct (Hsp i Hi) as [-> Hl]. exists s'. by rewrite lookup_insert_eq.
    + intros H1 Hi. destruct (T1 _ _ _ H1 Hi) as (x & Hx & Hl). rewrite lookup_insert. case_decide as E2; [|eauto].
      subst i. exists s'. split; [done|]. by eapply Hoth.
  - intros tid1 tid2 t1 t2 i. rewrite !lookup_insert. repeat case_decide; intros ?? H1 H2; simplify_eq; try done.
    + destruct (Hsp i H1) as [-> _]. by destruct (Hoth tid2 t2 ltac:(done) ltac:(done) H2) as [_ []].
    + destruct (Hsp i H2) as [-> _]. by destruct (Hoth tid1 t1 ltac:(done) ltac:(done) H1) as [_ []].
    + by eapply T2.
  - intros tid1 t1 i m. rewrite lookup_insert. case_decide as E1.
    + intros [=<-] Hi. destruct (Hbl i m Hi) as [-> Hl]. exists s'. rewrite lookup_insert_eq. by rewrite (k_opts _ _ K).
    + intros H1 Hi. destruct (T3 _ _ _ _ H1 Hi) as (x & Hx & Hl). rewrite lookup_insert. case_decide as E2; [|eauto].
      subst i. simplify_eq. exists s'. by rewrite (k_opts _ _ K).
  - intros tid1 t1 i m. rewrite (lookup_insert ts). case_decide as E1; [intros [=<-] ?; by eapply Hdom, Hre|].
    intros ??. eapply Hdom, T6; eauto.
  - intros tid1 t1 i. rewrite (lookup_insert ts). case_decide as E1; [intros [=<-] ?; by apply Hdom, Hca|].
    intros ??. eapply Hdom, T4; eauto.
  - intros tid1 t1 i m. rewrite (lookup_insert ts). case_decide as E1; [intros [=<-] ?; by eapply Hdom, Hwk|].
    intros ??. eapply Hdom, T5; eauto.
Qed.

Lemma tasks_sub ts subs id s s' : tasks_ok ts subs → subs !! id = Some s → s_opts s' = s_opts s →
  (s_locked s = true → s_locked s' = true) → tasks_ok ts (<[id := s']> subs).
Proof.
  intros [T1 T2 T3 T6 T4 T5] Hs K Hl.
  assert (∀ i, is_Some (subs !! i) → is_Some (<[id := s']> subs !! i)) as Hdom.
  { intros i [x Hx]. rewrite lookup_insert. case_decide; eauto. }
  split; [| |intros|intros; eapply Hdom; eauto..].
  - intros tid t i Ht Hi. destruct (T1 _ _ _ Ht Hi) as (x & Hx & Hx'). rewrite lookup_insert. case_decide; [|eauto].
    subst. simplify_eq. eauto.
  - done.
  - destruct (T3 _ _ _ _ H H0) as (x & Hx & Hx'). rewrite lookup_insert. case_decide; [|eauto].
    subst. simplify_eq. exists s'. by rewrite K.
Qed.

(** A task that is not in the middle of a delivery. *)
Lemma tasks_idle ts subs tid t' : tasks_ok ts subs →
  (t_pc t' = Fresh ∨ t_pc t' = Next ∨ ∃ i, t_pc t' = InCancel i ∧ is_Some (subs !! i)) →
  (∀ i m, WDeliver i m ∈ t_work t' → is_Some (subs !! i)) → tasks_ok (<[tid := t']> ts) subs.
Proof.
  intros [T1 T2 T3 T6 T4 T5] Hpc Hwk. split; intros tid1.
  - intros t1 i. rewrite lookup_insert. case_decide; [|eauto]. intros [=<-]. destruct Hpc as [->|[->|(? & -> & _)]]; done.
  - intros tid2 t1 t2 i. rewrite !lookup_insert. repeat case_decide; intros ?? H1 H2; simplify_eq; try done;
      try (by destruct Hpc as [Hp|[Hp|(? & Hp & _)]]; rewrite Hp in *). by eapply T2.
  - intros t1 i m. rewrite lookup_insert. case_decide; [|eauto]. intros [=<-]. destruct Hpc as [->|[->|(? & -> & _)]]; done.
  - intros t1 i m. rewrite lookup_insert. case_decide; [|eauto]. intros [=<-]. destruct Hpc as [->|[->|(? & -> & _)]]; done.
  - intros t1 i. rewrite lookup_insert. case_decide; [|eauto]. intros [=<-]. destruct Hpc as [->|[->|(? & -> & ?)]]; try done.
    by intros [=<-].
  - intros t1 i m. rewrite lookup_insert. case_decide; [|eauto]. intros [=<-]. apply Hwk.
Qed.

(** The same task with a part of its work, when only its context or position changes. *)
Lemma tasks_delete ts subs tid : tasks_ok ts subs → tasks_ok (delete tid ts) subs.
Proof.
  intros [T1 T2 T3 T6 T4 T5]. split; intros tid1 *; rewrite ?lookup_delete_Some; naive_solver.
Qed.

(** More subscriptions. *)
Lemma tasks_more ts subs id s : tasks_ok ts subs → subs !! id = None → tasks_ok ts (<[id := s]> subs).
Proof.
  intros [T1 T2 T3 T6 T4 T5] Hn.
  assert (∀ i x, subs !! i = Some x → <[id := s]> subs !! i = Some x) as Hk.
  { intros i x Hx. rewrite lookup_insert_ne; [done|]. congruence. }
  split; [naive_solver|done|naive_solver|..].
  - intros tid t i m Ht Hi. destruct (T6 _ _ _ _ Ht Hi) as [x Hx]. eauto.
  - intros tid t i Ht Hi. destruct (T4 _ _ _ Ht Hi) as [x Hx]. eauto.
  - intros tid t i m Ht Hi. destruct (T5 _ _ _ _ Ht Hi) as [x Hx]. eauto.
Qed.

(** ** Steps of a publisher *)

Lemma inv_sub b id s : inv b → b_subs b !! id = Some s → s_id s = id ∧ sub_ok (b_trace b) s.
Proof. intros [C _] Hs. split; [by apply (co_ids _ _ _ _ _ _ _ _ C)|by eapply (co_subs _ _ _ _ _ _ _ _ C)]. Qed.

Lemma onPanic_inv tid t s b : inv b → b_subs b !! s_id s = Some s → mayPanic s →
  (∀ i m, WDeliver i m ∈ t_work t → is_Some (b_subs b !! i)) → inv (onPanic tid t s b).
Proof.
  intros [C T] Hs Hp Hw. unfold onPanic. destruct (EnablePanicRecovery _).
  - split.
    + change (core (emit [EvPanic (s_topic s) (s_id s)] b)). apply core_quiet; [done|by repeat constructor|].
      intros topic id [=-> ->]%list_elem_of_singleton. eauto.
    + simpl. apply tasks_idle; [done|right; right; eauto|done].
  - split; [|done]. unfold core in *. simpl. destruct C. split; try done. eauto.
Qed.

(** The end of a delivery, for the publisher [tid] alone in the subscription's loop, or
    outside of it. *)
Lemma finish_inv tid t s s' evs p b : inv b → b_subs b !! s_id s = Some s → finished_ok (b_trace b) s s' evs →
  (s_locked s' = s_locked s ∨ ∃ t0, b_tasks b !! tid = Some t0 ∧ spinOf (t_pc t0) = Some (s_id s)) →
  (p = Next ∨ p = InCancel (s_id s) ∨ ∃ m, p = InReport (s_id s) m) →
  (∀ i m, WDeliver i m ∈ t_work t → is_Some (b_subs b !! i)) →
  inv (setTask tid (mkTask (t_topic t) (t_msg t) (t_work t) p (t_ctx t) (t_background t)) (emit evs (setSub s' b))).
Proof.
  intros [C T] Hs (Hok & K & Ho & Hcl) Hl Hp Hw. split.
  - change (core (emit evs (setSub s' b))). by eapply core_sub.
  - simpl. rewrite (k_id _ _ K). eapply tasks_update; [done..| | | | | |].
    + simpl. intros tid' t' Hne Ht' Hsp. split; [|by destruct Hp as [->|[->|[? ->]]]].
      destruct Hl as [->|(t0 & Ht0 & Hsp0)]; [|by destruct Hne; eapply (to_once _ _ T)].
      destruct (to_spin _ _ T _ _ _ Ht' Hsp) as (x & Hx & Hxl). congruence.
    + simpl. intros i Hi. by destruct Hp as [->|[->|[? ->]]].
    + simpl. intros i m Hi. by destruct Hp as [->|[->|[? ->]]].
    + simpl. intros i m Hi. destruct Hp as [->|[->|[? ->]]]; [done|done|]. injection Hi as <- <-. eauto.
    + simpl. intros i Hi. destruct Hp as [->|[->|[? ->]]]; [done| |done]. injection Hi as <-. eauto.
    + done.
Qed.

Lemma advance_deliver_inv tid t s msg b b' : inv b → b_subs b !! s_id s = Some s → 
  (∀ t0, b_tasks b !! tid = Some t0 → spinOf (t_pc t0) = None) →
  (∀ i m, WDeliver i m ∈ t_work t → is_Some (b_subs b !! i)) →
  advance tid t s msg (deliver nilD s msg) b = Some b' → inv b'.
Proof.
  intros Hinv Hs Hns Hw Ha. destruct (inv_sub b _ s Hinv Hs) as [_ Hok].
  pose proof (deliver_ok nilD (b_trace b) s msg Hok) as Hd.
  destruct (deliver nilD s msg) as [s' evs c| | | |s'|]; simpl in Ha; simplify_eq; [..|done].
  - destruct Hd as [Hf Hl]. eapply finish_inv; [done..|by left|destruct c; naive_solver|done].
  - apply onPanic_inv; [done..|right; eauto|done].
  - destruct Hinv as [C T]. split; [exact C|]. simpl. rewrite <- (insert_id (b_subs b) (s_id s) s) by done.
    eapply tasks_update; [done..| | | | | |].
    + simpl. intros tid' t' Hne Ht' Hsp. split; [|done]. destruct (to_spin _ _ T _ _ _ Ht' Hsp) as (x & Hx & Hxl). congruence.
    + done.
    + simpl. intros i m [=<- <-]. done.
    + done.
    + done.
    + done.
  - destruct Hd as (Hok' & K & Hl & Hl' & Hc' & Hc). destruct Hinv as [C T]. split.
    + change (core (setSub s' b)). by eapply core_set.
    + simpl. rewrite (k_id _ _ K). eapply tasks_update; [done..| | | | | |].
      * simpl. intros tid' t' Hne Ht' Hsp. destruct (to_spin _ _ T _ _ _ Ht' Hsp) as (x & Hx & Hxl). congruence.
      * simpl. by intros i [=<-].
      * done.
      * done.
      * done.
      * done.
Qed.

Lemma deliveries_elem i m (ids : list N) msg : WDeliver i m ∈ deliveries ids msg ↔ i ∈ ids ∧ m = msg.
Proof. unfold deliveries. rewrite list_elem_of_fmap. naive_solver. Qed.

(** Targets are subscriptions. *)
Lemma target_sub b kind key id p : inv b → lookupSub (b_shards b) kind key id = Some p → is_Some (b_subs b !! p).
Proof. intros [C _] Hl. destruct (co_reg _ _ _ _ _ _ _ _ C _ _ _ _ Hl) as (-> & s & Hs & _). eauto. Qed.

Lemma topicTargets_sub b topic p : inv b → p ∈ topicTargets b topic → is_Some (b_subs b !! p).
Proof. intros Hi [id Hl]%topic_targets_elem. by eapply target_sub. Qed.
Lemma patternTargets_sub b topic p : inv b → p ∈ patternTargets b topic → is_Some (b_subs b !! p).
Proof.
  intros Hi. unfold patternTargets. rewrite glob_targets_elem by apply Hi. intros (key & id & Hl & _). by eapply target_sub.
Qed.
Lemma mqttTargets_sub b topic p : inv b → p ∈ mqttTargets b topic → is_Some (b_subs b !! p).
Proof.
  intros Hi. unfold mqttTargets. rewrite mqtt_targets_elem by apply Hi. intros (key & id & Hl & _). by eapply target_sub.
Qed.

Lemma inv_task b tid t' : inv b → (t_pc t' = Fresh ∨ t_pc t' = Next) →
  (∀ i m, WDeliver i m ∈ t_work t' → is_Some (b_subs b !! i)) → inv (setTask tid t' b).
Proof. intros [C T] Hp Hw. split; [exact C|]. apply tasks_idle; [done|tauto|done]. Qed.

Lemma taskStep_inv tid c t b b' : inv b → b_tasks b !! tid = Some t → taskStep nilD tid c t b = Some b' → inv b'.
Proof.
  intros Hinv Ht Hst. pose proof Hinv as [C T]. pose proof (to_work _ _ T tid t) as Hw.
  assert (∀ i m, WDeliver i m ∈ t_work t → is_Some (b_subs b !! i)) as Hw' by eauto. clear Hw.
  unfold taskStep in Hst. destruct (t_pc t) as [| |id m|id m|id m full|id] eqn:Hpc.
  - simplify_eq. apply inv_task; [done|by right|]. simpl. intros i m. case_match; [by intros ?%elem_of_nil|].
    unfold publishWork. rewrite !elem_of_app, deliveries_elem. intros [[? _]|[Hx|Hx]].
    + by eapply topicTargets_sub.
    + case_match; set_solver.
    + case_match; set_solver.
  - destruct (t_work t) as [|[m|id m|m|m] w] eqn:Hwk; simplify_eq/=.
    + split; [exact C|]. by apply tasks_delete.
    + assert (inv (emit [EvPublish (t_topic t) m] b)) as Hi'.
      { split; [|exact T]. apply core_quiet; [done|by repeat constructor|]. intros ?? ?%list_elem_of_singleton. done. }
      apply (inv_task _ tid _ Hi'); [by right|]. simpl. intros. eapply Hw'. by right.
    + destruct (t_ctx t).
      { simplify_eq. apply inv_task; [done|by right|]. simpl. by intros ?? ?%elem_of_nil. }
      apply bind_Some in Hst as (s & Hs & Ha). pose proof (inv_sub b id s Hinv Hs) as [<- _].
      eapply advance_deliver_inv; [done|done| | |done].
      * intros t0 Ht0. rewrite Ht in Ht0. simplify_eq. by rewrite Hpc.
      * simpl. intros. eapply Hw'. by right.
    + apply inv_task; [done|by right|]. simpl. intros i m'. rewrite elem_of_app, deliveries_elem.
      intros [[? _]|?]; [by eapply patternTargets_sub|]. eapply Hw'. by right.
    + apply inv_task; [done|by right|]. simpl. intros i m'. rewrite elem_of_app, deliveries_elem.
      intros [[? _]|?]; [by eapply mqttTargets_sub|]. eapply Hw'. by right.
  - apply bind_Some in Hst as (s & Hs & Hst). case_match; [done|].
    destruct (to_block _ _ T _ _ _ _ Ht Hpc) as (x & Hx & Hp). simplify_eq.
    destruct (inv_sub b id s Hinv Hs) as [<- Hok]. pose proof (blockStep_ok (b_trace b) c s m Hok Hp) as Hb.
    destruct (blockStep c s m) as [s' evs cs| | | | |s' evs]; simplify_eq/=; [| |done..|].
    + destruct Hb as (Hf & Hl & ->). eapply finish_inv; [done..|by left|by left|done].
    + apply onPanic_inv; [done..|by left|done].
    + destruct Hb as (Hf & Hl). eapply finish_inv; [done..|by left|eauto|done].
  - apply bind_Some in Hst as (s & Hs & Hst). simplify_eq. destruct (inv_sub b id s Hinv Hs) as [<- Hok].
    eapply (finish_inv tid t s); [done|done|by apply reported_ok|by left|by left|done].
  - apply bind_Some in Hst as (s & Hs & Hst). destruct (to_spin _ _ T tid t id Ht) as (x & Hx & Hl); [by rewrite Hpc|].
    simplify_eq. destruct (inv_sub b id s Hinv Hs) as [<- Hok]. destruct full.
    + pose proof (spinDrop_ok (b_trace b) s m Hok Hl) as Hd. destruct (spinDrop s m) as [s' evs].
      destruct Hd as [(Hok' & K & Ho & _) Hl']. simplify_eq. split.
      * change (core (emit evs (setSub s' b))). by eapply core_sub.
      * simpl. rewrite (k_id _ _ K). eapply tasks_update; [done..| | | | | |done].
        -- intros tid' t' Hne Ht' Hsp. destruct Hne. eapply (to_once _ _ T); eauto. by rewrite Hpc.
        -- simpl. by intros i [=<-].
        -- done.
        -- done.
        -- done.
    + pose proof (spinSend_ok (b_trace b) s m Hok Hl) as Hd.
      destruct (spinSend s m) as [s' evs cs| | | |s'|]; simplify_eq/=; try done.
      * destruct Hd as (Hf & Hl' & ->). eapply finish_inv; [done..| |by left|done].
        right. exists t. by rewrite Hpc.
      * split; [change (core (setSub s b)); by eapply core_set|]. simpl.
        eapply tasks_update; [done..| | | | | |done].
        -- intros tid' t' Hne Ht' Hsp. destruct Hne. eapply (to_once _ _ T); eauto. by rewrite Hpc.
        -- simpl. by intros i [=<-].
        -- done.
        -- done.
        -- done.
  - apply bind_Some in Hst as (s & Hs & Hst). case_match; simplify_eq. apply inv_task; [done|by right|done].
Qed.

(** ** Subscribing *)

Lemma subscribeCheck_ok b kind topic topic' opts opts' :
  subscribeCheck b kind topic opts = Ok (topic', opts') → key_ok kind topic' ∧ opts_ok opts'.
Proof.
  unfold subscribeCheck. case_match; [done|]. case_decide as Hne; [done|].
  destruct (match kind with subKindTopic => _ | _ => _ end) eqn:Ev; [done|].
  destruct (Z.ltb_spec (BufferSize (normalizeSubOptions (b_config b) opts)) 1) as [|Hb]; [done|]. intros [=<- <-]. split.
  - split; [done|]. destruct kind; [done| |].
    + apply bool_decide_eq_false in Ev. apply (GoPath.PathMatch_valid (trim_space topic) (str "probe")), not_eq_None_Some, Ev.
    + apply bool_decide_eq_false in Ev. by apply dec_stable in Ev.
  - split; [done|]. unfold normalizeSubOptions. simpl. intros ->. by rewrite decide_True.
Qed.

Lemma leaves_none id tr : leaves id tr → sentTo id tr = [] ∧ deliveredTo id tr = [] ∧ droppedFor id tr = [] ∧ receivedBy id tr = [].
Proof. intros Hl. by apply (leaves_all id [] tr) in Hl. Qed.

Lemma new_fields id topic kind (opts : SubOptions D) (s := newSubscriber nilD id topic kind opts) :
  s_id s = id ∧ s_topic s = topic ∧ s_kind s = kind ∧ s_opts s = opts ∧ s_removed s = false.
Proof. unfold s, newSubscriber. by case_match. Qed.

Lemma register_inv kind topic opts b : inv b → key_ok kind topic → opts_ok opts → inv (register nilD kind topic opts b).
Proof.
  intros [C T] Hk [Hb Hu]. set (id := (b_nextID b + 1)%N).
  destruct (new_fields id topic kind opts) as (Hid & Htp & Hkd & Hop & Hrm).
  pose proof C as [C1 C2 C3 C4 C5 C6 C7 C8 C9 C10 C11 C12 C13].
  assert (leaves id (b_trace b)) as Hl by (apply C5; lia).
  assert (b_subs b !! id = None) as Hn.
  { destruct (b_subs b !! id) as [x|] eqn:E; [|done]. destruct (C2 _ _ E). lia. }
  destruct (leaves_none _ _ Hl) as (L0 & L1 & L2 & L3).
  unfold register. fold id. split; [|by apply tasks_more].
  apply core_quiet; [|by repeat constructor|by intros ?? ?%list_elem_of_singleton].
  unfold core. simpl. split; simpl.
  - by apply addSubscriber_ok.
  - intros i x. rewrite lookup_insert. case_decide; [intros [=<-]; subst; split; [done|lia]|].
    intros Hx. destruct (C2 _ _ Hx). split; [done|lia].
  - intros i x. rewrite lookup_insert. case_decide; [intros [=<-]|by apply C3]. by apply new_sub_ok.
  - intros i x. rewrite lookup_insert. case_decide; [intros [=<-]|by apply C4]. by rewrite Hkd, Htp.
  - intros i Hi. apply C5. lia.
  - intros k key i p. rewrite addSubscriber_lookup by done. case_decide as E.
    + intros [=<-]. simplify_eq. split; [done|]. eexists. by rewrite lookup_insert_eq.
    + intros Hlk. destruct (C6 _ _ _ _ Hlk) as (-> & x & Hx & Hrest). split; [done|]. exists x.
      rewrite lookup_insert_ne; [done|]. congruence.
  - intros i x. rewrite lookup_insert. case_decide as E; [intros [=<-]|].
    + intros _. left. rewrite addSubscriber_lookup by done. rewrite Hkd, Htp. subst i. by rewrite decide_True.
    + intros Hx Hr. rewrite addSubscriber_lookup by done. destruct (C7 _ _ Hx Hr) as [Hlk|]; [|by right]. left.
      rewrite decide_False; [done|]. congruence.
  - intros all rest Hc i Hi. destruct (C8 _ _ Hc i Hi) as (x & Hx & Hrest). exists x.
    rewrite lookup_insert_ne; [done|]. congruence.
  - done.
  - done.
  - done.
  - intros tp i Hp. destruct (C12 _ _ Hp) as (x & Hx & Hmp). exists x. rewrite lookup_insert_ne; [done|]. congruence.
  - intros Hc. destruct (C13 Hc) as (i & x & Hx & Hmp). exists i, x. rewrite lookup_insert_ne; [done|]. congruence.
Qed.

(** ** Cancelling and closing *)

Lemma finishCancel_inv s b : inv b → b_subs b !! s_id s = Some s → canRemove s = true → inv (finishCancel s b).
Proof.
  intros [C T] Hs Hc. pose proof C as [C1 C2 C3 C4 C5 C6 C7 C8 C9 C10 C11 C12 C13].
  pose proof (setRemoved_ok (b_trace b) s (C3 _ _ Hs) Hc) as Hok. split; [|by apply (tasks_sub _ _ _ s)].
  assert (∀ i, leaves (D := D) i [EvUnsubscribe (s_topic s) (s_id s)]) as Hq by (intros i; by repeat constructor).
  unfold core, finishCancel. simpl. split; simpl.
  - by apply removeSubscriber_ok.
  - intros i x. rewrite lookup_insert. case_decide; [intros [=<-]; subst; simpl; by apply C2|apply C2].
  - intros i x. rewrite lookup_insert. case_decide; [intros [=<-]|intros Hx]; (apply sub_ok_leaves; [apply Hq|]); eauto.
  - intros i x. rewrite lookup_insert. case_decide; [intros [=<-]; by apply (C4 _ _ Hs)|apply C4].
  - intros i Hi. apply Forall_app. split; [by apply C5|apply Hq].
  - intros k key i p. rewrite removeSubscriber_lookup by done. case_decide as E; [done|]. intros Hl.
    destruct (C6 _ _ _ _ Hl) as (-> & x & Hx & Hk & Ht & Hr). split; [done|]. exists x. rewrite lookup_insert_ne; [done|].
    intros <-. simplify_eq.
  - intros i x. rewrite lookup_insert. case_decide as E; [by intros [=<-]|]. intros Hx Hr.
    destruct (C7 _ _ Hx Hr) as [Hl|]; [|by right]. left. rewrite removeSubscriber_lookup, decide_False by (done || congruence). done.
  - intros all rest Hcl i Hi. destruct (C8 _ _ Hcl i Hi) as (x & Hx & Hr). rewrite lookup_insert. case_decide; [|eauto].
    exists (setRemoved s). split; [done|]. by right.
  - done.
  - done.
  - by rewrite foldl_app, <- C11.
  - intros tp i [Hp|Hp%list_elem_of_singleton]%elem_of_app; [|done]. destruct (C12 _ _ Hp) as (x & Hx & Hmp).
    rewrite lookup_insert. case_decide; [|eauto]. subst i. simplify_eq. exists (setRemoved s). split; [done|]. by destruct Hmp; [left|right].
  - intros Hcr. destruct (C13 Hcr) as (i & x & Hx & Hmp). exists i.
    rewrite lookup_insert. case_decide; [|eauto]. subst i. simplify_eq. exists (setRemoved s). split; [done|]. by destruct Hmp; [left|right].
Qed.

Lemma collect_inv b : inv b → b_closing b = Closing →
  inv (setClosing (Cancelling (collectAllSubscribers (b_shards b)).1 (collectAllSubscribers (b_shards b)).1)
         (setShards (collectAllSubscribers (b_shards b)).2 b)).
Proof.
  intros [C T] Hc. split; [|exact T]. unfold core in *. rewrite Hc in C. destruct C as [C1 C2 C3 C4 C5 C6 C7 C8 C9 C10 C11 C12 C13].
  assert (∀ id, id ∈ (collectAllSubscribers (b_shards b)).1 → ∃ s, b_subs b !! id = Some s) as Hin.
  { intros id (kind & key & i & Hl)%collect_elem; [|done]. destruct (C6 _ _ _ _ Hl) as (-> & x & Hx & _). eauto. }
  split; cbn [b_shards b_subs b_nextID b_closing b_subscribing b_metrics b_trace b_crashed setClosing setShards]; try done.
  - by apply registry_collect_ok.
  - intros kind key id p. by rewrite collect_lookup.
  - intros id s Hs Hr. right. eexists _, _. split; [done|]. apply collect_elem; [done|].
    destruct (C7 _ _ Hs Hr) as [Hl|(all & rest & ? & _)]; [eauto|done].
  - intros all rest [=<- <-] id Hid. destruct (Hin id Hid) as [s Hs]. exists s. split; [done|by left].
  - by intros all rest [=<- <-].
Qed.

Lemma closer_inv b all id rest s : inv b → b_closing b = Cancelling all (id :: rest) →
  b_subs b !! id = Some s → s_removed s = true → inv (setClosing (Cancelling all rest) b).
Proof.
  intros [C T] Hc Hs Hr. split; [|exact T]. unfold core in *. simpl. rewrite Hc in C. destruct C as [C1 C2 C3 C4 C5 C6 C7 C8 C9 C10 C11 C12 C13].
  split; try done.
  - intros i x Hx Hxr. destruct (C7 _ _ Hx Hxr) as [Hl|(a & r & [=<- <-] & Hi)]; [by left|]. right. eexists _, _. split; [done|].
    apply elem_of_cons in Hi as [->|]; [congruence|done].
  - intros a r [=<- <-] i Hi. destruct (C8 _ _ eq_refl i Hi) as (x & Hx & [Hin|Hxr]); [|eauto].
    apply elem_of_cons in Hin as [->|]; [|eauto]. simplify_eq. eauto.
  - intros a r [=<- <-]. specialize (C9 _ _ eq_refl). set_solver.
Qed.

(** ** Every step *)

Lemma emitPublish_inv b topic msg : inv b → inv (emit [EvPublish topic msg] b).
Proof.
  intros [C T]. split; [|exact T]. apply core_quiet; [done|by repeat constructor|]. by intros ?? ?%list_elem_of_singleton.
Qed.

Lemma batchWork_sub b topic msgs i m : inv b → WDeliver i m ∈ batchWork b topic msgs → is_Some (b_subs b !! i).
Proof.
  intros Hi (x & [?|[[H|[H|H]%elem_of_app]%elem_of_app _]%deliveries_elem]%elem_of_cons & _)%list_elem_of_bind; [done|..].
  - by eapply topicTargets_sub.
  - case_match; [by eapply patternTargets_sub|by apply elem_of_nil in H].
  - case_match; [by eapply mqttTargets_sub|by apply elem_of_nil in H].
Qed.

Lemma context_inv b tid t : inv b → b_tasks b !! tid = Some t →
  inv (setTask tid (mkTask (t_topic t) (t_msg t) (t_work t) (t_pc t) true false) b).
Proof.
  intros [C T] Ht. split; [exact C|]. simpl. destruct T as [T1 T2 T3 T6 T4 T5]. split.
  - intros tid1 t1 i. rewrite lookup_insert. case_decide; [intros [=<-]; exact (T1 _ _ _ Ht)|apply T1].
  - intros tid1 tid2 t1 t2 i. rewrite !lookup_insert.
    repeat case_decide; intros Ha Hb H1 H2; simplify_eq; try done;
      [exact (T2 _ _ _ _ _ Ht Hb H1 H2)|exact (T2 _ _ _ _ _ Ha Ht H1 H2)|by eapply T2].
  - intros tid1 t1 i m. rewrite lookup_insert. case_decide; [intros [=<-]; exact (T3 _ _ _ _ Ht)|apply T3].
  - intros tid1 t1 i m. rewrite lookup_insert. case_decide; [intros [=<-]; exact (T6 _ _ _ _ Ht)|apply T6].
  - intros tid1 t1 i. rewrite lookup_insert. case_decide; [intros [=<-]; exact (T4 _ _ _ Ht)|apply T4].
  - intros tid1 t1 i m. rewrite lookup_insert. case_decide; [intros [=<-]; exact (T5 _ _ _ _ Ht)|apply T5].
Qed.

Lemma broker_step_inv l b b' : inv b → step nilD l b = Some b' → inv b'.
Proof.
  intros Hinv Hst. pose proof Hinv as [C T]. unfold step in Hst. destruct (b_crashed b) eqn:Hcr; [done|].
  destruct l as [rid kind topic opts|rid|tid topic msg now bg|tid topic msgs nows|tid|tid c|id c|id|id|id| | |].
  - destruct (subscribeCheck b kind topic opts) as [[tp op]|] eqn:Ec; [|done]. destruct (b_subscribing b !! rid) eqn:Er; [done|].
    simplify_eq. apply subscribeCheck_ok in Ec as [Hk Ho]. split; [|exact T]. unfold core in *. simpl. destruct C. split; try done.
    intros r k tp' op'. rewrite lookup_insert. case_decide; [by intros [=<- <- <-]|by apply co_pending0].
  - apply bind_Some in Hst as ([[kind topic] opts] & Hr & Hst). simplify_eq.
    destruct (co_pending _ _ _ _ _ _ _ _ C _ _ _ _ Hr) as [Hk Ho]. destruct (register_inv kind topic opts b Hinv Hk Ho) as [C' T'].
    split; [|exact T']. unfold core in *. simpl in *. destruct C'. split; try done.
    intros r k tp op [_ Hl]%lookup_delete_Some. by eapply co_pending0.
  - destruct (publishCheck b false topic) as [tp|]; [|done]. destruct (b_tasks b !! tid); [done|]. simplify_eq.
    apply inv_task; [by apply emitPublish_inv|by left|]. by intros ?? ?%elem_of_nil.
  - destruct (publishCheck b false topic) as [tp|]; [|done]. destruct (b_tasks b !! tid); [done|]. simplify_eq.
    apply inv_task; [done|by right|]. simpl. intros i m. by apply batchWork_sub.
  - apply bind_Some in Hst as (t & Ht & Hst). case_match; simplify_eq. by apply context_inv.
  - apply bind_Some in Hst as (t & Ht & Hst). by eapply taskStep_inv.
  - apply bind_Some in Hst as (s & Hs & (s' & Hp & Hst)%bind_Some). simplify_eq. destruct (inv_sub b id s Hinv Hs) as [<- Hok].
    destruct (pumpRingBuffer_ok nilD (b_trace b) c s s' Hok Hp) as ((Hok' & K & _ & _) & Hl & _). rewrite app_nil_r in Hok'.
    split; [by eapply core_set|]. simpl. rewrite (k_id _ _ K). eapply tasks_sub; [done..|apply (k_opts _ _ K)|congruence].
  - apply bind_Some in Hst as (s & Hs & ([m s'] & Hp & Hst)%bind_Some). simplify_eq. destruct (inv_sub b id s Hinv Hs) as [<- Hok].
    destruct (consumerReceive_ok (b_trace b) s m s' Hok Hp) as ((Hok' & K & Ho & _) & Hl & _).
    split; [by eapply core_sub|]. simpl. rewrite (k_id _ _ K). eapply tasks_sub; [done..|apply (k_opts _ _ K)|congruence].
  - apply bind_Some in Hst as (s & Hs & (s' & Hp & Hst)%bind_Some). simplify_eq. destruct (inv_sub b id s Hinv Hs) as [<- Hok].
    destruct (cancelLocked_ok (b_trace b) s s' Hok Hp) as (Hok' & K & _ & _ & Hl & Hl').
    split; [by eapply core_set|]. simpl. rewrite (k_id _ _ K). eapply tasks_sub; [done..|apply (k_opts _ _ K)|congruence].
  - apply bind_Some in Hst as (s & Hs & Hst). case_match; simplify_eq. destruct (inv_sub b id s Hinv Hs) as [<- Hok].
    by apply finishCancel_inv.
  - destruct (b_closing b) eqn:Ec; simplify_eq. split; [|exact T]. unfold core in *. simpl. rewrite Ec in C. destruct C. split; try done.
    intros i x Hx Hr. destruct (co_live0 _ _ Hx Hr) as [|(? & ? & ? & _)]; [by left|done].
  - destruct (b_closing b) eqn:Ec; try done. destruct (collectAllSubscribers (b_shards b)) as [all sm] eqn:E. simplify_eq.
    pose proof (collect_inv b Hinv Ec) as H. by rewrite E in H.
  - destruct (b_closing b) as [| |all [|id rest]] eqn:Ec; try done. apply bind_Some in Hst as (s & Hs & Hst).
    case_match; simplify_eq. by eapply closer_inv.
Qed.

Lemma run_inv ls b b' : inv b → run nilD ls b = Some b' → inv b'.
Proof.
  revert b. induction ls as [|l ls IH]; intros b Hi Hr; simpl in Hr; [by simplify_eq|].
  apply bind_Some in Hr as (b1 & H1 & Hr). eauto using broker_step_inv.
Qed.

(** A configuration with at most [2^32] shards. *)
Definition shards_fit (opts : list Option_) : Prop :=
  (ShardCount (foldl (λ c o, applyOption o c) DefaultConfig opts) ≤ 2 ^ 32)%Z.

Lemma New_inv opts : shards_fit opts → inv (New (D := D) opts).
Proof.
  intros Hf. split.
  - unfold core. simpl. split; try done.
    + by apply registry_new_ok.
    + intros id ?. constructor.
    + intros kind key id p. by rewrite new_lookup.
    + intros tp id ?%elem_of_nil. done.
  - split; done.
Qed.

Definition reachable (opts : list Option_) b : Prop := ∃ ls, run nilD ls (New opts) = Some b.

Lemma reachable_inv opts b : shards_fit opts → reachable opts b → inv b.
Proof. intros Hf [ls Hr]. eapply run_inv; [by apply New_inv|done]. Qed.

End invariant.
