(* ===== verification/BrokerProps.v ===== *)
(** * Properties of the broker

    Routing, conservation and order of messages, panics, progress, and three runs in
    which a subscription is lost, a publisher panics, or a subscription outlives
    [Close]. *)

From stdpp Require Import options.
From S2P Require Import Prelude GoStrings GoPath RingBuffer Mqtt BrokerShards BrokerShardsFacts Broker BrokerFacts BrokerInv.
Import Shards Broker.

Section properties.
Context {D : Type} (nilD : D).
Implicit Types (msg : Message D) (id : N) (s : subscriber D) (t : task D) (b : broker D) (topic : gostring).

(** ** Routing *)

(** The subscriptions a message on [topic] is meant for. *)
Definition meantFor topic s : Prop :=
  match s_kind s with
  | subKindTopic => s_topic s = topic
  | subKindPattern => GoPath.PathMatch (s_topic s) topic = Some true
  | subKindMQTT => Mqtt.matches (split_on Mqtt.MQTTSeparator (s_topic s)) (split_on Mqtt.MQTTSeparator topic)
  end.

Lemma meantFor_reaches topic s : key_ok (s_kind s) (s_topic s) → meantFor topic s ↔ reaches topic (s_kind s) (s_topic s) = true.
Proof.
  intros [_ Hk]. unfold meantFor, reaches. destruct (s_kind s).
  - by rewrite bool_decide_eq_true.
  - rewrite patternMatches_PathMatch by done. split; [by intros [=]|by intros ->].
  - by rewrite Mqtt.MQTTMatch_spec.
Qed.

(** Every target of a message, looked up at once. *)
Definition targets b topic : list N :=
  topicTargets b topic
    ++ (if hasAnyPatterns (b_shards b) then patternTargets b topic else [])
    ++ (if hasAnyMQTTPatterns (b_shards b) then mqttTargets b topic else []).

Lemma inv_once b : inv b → registered_once (b_shards b).
Proof.
  intros [C _] kind key id kind' key' id' p H1 H2.
  destruct (co_reg _ _ _ _ _ _ _ _ C _ _ _ _ H1) as (-> & s & Hs & Hk & Ht & _).
  destruct (co_reg _ _ _ _ _ _ _ _ C _ _ _ _ H2) as (-> & s' & Hs' & Hk' & Ht' & _). simplify_eq. naive_solver.
Qed.

Lemma kinds_apart b kind kind' key key' id id' p : inv b →
  lookupSub (b_shards b) kind key id = Some p → lookupSub (b_shards b) kind' key' id' = Some p → kind = kind'.
Proof. intros Hi H1 H2. by destruct (inv_once b Hi _ _ _ _ _ _ _ H1 H2). Qed.

Lemma targets_nodup b topic : inv b → NoDup (targets b topic).
Proof.
  intros Hi. pose proof Hi as [C _]. pose proof (co_shards _ _ _ _ _ _ _ _ C) as Hok. pose proof (inv_once b Hi) as Hone.
  assert (∀ p, p ∈ topicTargets b topic → ∃ key id, lookupSub (b_shards b) subKindTopic key id = Some p) as Ht.
  { intros p [id Hl]%topic_targets_elem. eauto. }
  assert (∀ p, p ∈ (if hasAnyPatterns (b_shards b) then patternTargets b topic else []) →
    ∃ key id, lookupSub (b_shards b) subKindPattern key id = Some p) as Hp.
  { intros p Hp. case_match; [|by apply elem_of_nil in Hp]. apply glob_targets_elem in Hp as (k & i & Hl & _); eauto. }
  assert (∀ p, p ∈ (if hasAnyMQTTPatterns (b_shards b) then mqttTargets b topic else []) →
    ∃ key id, lookupSub (b_shards b) subKindMQTT key id = Some p) as Hm.
  { intros p Hp'. case_match; [|by apply elem_of_nil in Hp']. apply mqtt_targets_elem in Hp' as (k & i & Hl & _); eauto. }
  unfold targets. apply NoDup_app. split; [by apply topic_targets_nodup|]. split.
  { intros p (k & i & H1)%Ht [(k' & i' & H2)%Hp|(k' & i' & H2)%Hm]%elem_of_app; by pose proof (kinds_apart b _ _ _ _ _ _ _ Hi H1 H2). }
  apply NoDup_app. split; [destruct (hasAnyPatterns _); [by apply glob_targets_nodup|constructor]|]. split.
  { intros p (k & i & H1)%Hp (k' & i' & H2)%Hm. by pose proof (kinds_apart b _ _ _ _ _ _ _ Hi H1 H2). }
  destruct (hasAnyMQTTPatterns _); [by apply mqtt_targets_nodup|constructor].
Qed.

Lemma target_elem b kind key id topic : inv b → lookupSub (b_shards b) kind key id = Some id → reaches topic kind key = true →
  match kind with
  | subKindTopic => id ∈ topicTargets b topic
  | subKindPattern => hasAnyPatterns (b_shards b) = true ∧ id ∈ patternTargets b topic
  | subKindMQTT => id ∈ mqttTargets b topic
  end.
Proof.
  intros Hi Hl Hr. pose proof Hi as [C _]. pose proof (co_shards _ _ _ _ _ _ _ _ C) as Hok. destruct kind; simpl in Hr.
  - apply bool_decide_eq_true in Hr as ->. apply topic_targets_elem. eauto.
  - split; [destruct (hasAnyPatterns_spec _ Hok) as [|Hn]; [done|by rewrite Hn in Hl]|]. apply glob_targets_elem; eauto.
  - apply mqtt_targets_elem; eauto.
Qed.

Lemma targets_elem b topic id : inv b →
  id ∈ targets b topic ↔ ∃ s, b_subs b !! id = Some s ∧ lookupSub (b_shards b) (s_kind s) (s_topic s) id = Some id ∧
    meantFor topic s ∧ (s_kind s = subKindMQTT → hasAnyMQTTPatterns (b_shards b) = true).
Proof.
  intros Hi. pose proof Hi as [C _]. pose proof (co_shards _ _ _ _ _ _ _ _ C) as Hok.
  assert (∀ kind key i, lookupSub (b_shards b) kind key i = Some id → reaches topic kind key = true →
    (kind = subKindMQTT → hasAnyMQTTPatterns (b_shards b) = true) →
    ∃ s, b_subs b !! id = Some s ∧ lookupSub (b_shards b) (s_kind s) (s_topic s) id = Some id ∧
      meantFor topic s ∧ (s_kind s = subKindMQTT → hasAnyMQTTPatterns (b_shards b) = true)) as Hin.
  { intros kind key i Hl Hr Hm. destruct (co_reg _ _ _ _ _ _ _ _ C _ _ _ _ Hl) as (-> & s & Hs & <- & <- & _).
    exists s. split; [done|]. split; [done|]. split; [|done].
    apply meantFor_reaches; [by apply (co_keys _ _ _ _ _ _ _ _ C _ _ Hs)|done]. }
  unfold targets. rewrite !elem_of_app. split.
  - intros [[i Hl]%topic_targets_elem|[Hp|Hm]].
    + eapply Hin; [done|by apply bool_decide_eq_true|done].
    + case_match; [|by apply elem_of_nil in Hp]. apply glob_targets_elem in Hp as (k & i & Hl & Hr); [|done]. by eapply Hin.
    + case_match; [|by apply elem_of_nil in Hm]. apply mqtt_targets_elem in Hm as (k & i & Hl & Hr); [|done]. by eapply Hin.
  - intros (s & Hs & Hl & Hm & Hq). apply meantFor_reaches in Hm; [|by apply (co_keys _ _ _ _ _ _ _ _ C _ _ Hs)].
    pose proof (target_elem b _ _ id topic Hi Hl Hm) as Ht. destruct (s_kind s).
    + by left.
    + right. left. destruct Ht as [-> ?]. done.
    + right. right. by rewrite Hq.
Qed.

(** ** Runs with a property of every state *)

Fixpoint run_all (P : broker D → Prop) (ls : list (label D)) b : Prop :=
  P b ∧ match ls with
        | [] => True
        | l :: ls => match step nilD l b with Some b' => run_all P ls b' | None => False end
        end.

(** [Close] has not collected the subscriptions yet, and no two subscriptions share an
    MQTT pattern. *)
Definition collected b : Prop := match b_closing b with Cancelling _ _ => True | _ => False end.
Definition unshared b : Prop := ¬ collected b ∧ ∀ pattern, getMQTTPatternSubscriberCount pattern (b_shards b) ≤ 1.

Lemma live_registered b id s : inv b → ¬ collected b → b_subs b !! id = Some s → s_removed s = false →
  lookupSub (b_shards b) (s_kind s) (s_topic s) id = Some id.
Proof.
  intros [C _] Hc Hs Hr. destruct (co_live _ _ _ _ _ _ _ _ C _ _ Hs Hr) as [|(all & rest & E & _)]; [done|].
  destruct Hc. unfold collected. by rewrite E.
Qed.

(** A publisher touches neither the registry nor the closing. *)
Lemma advance_frame tid t s msg o b b' : advance tid t s msg o b = Some b' →
  b_shards b' = b_shards b ∧ b_closing b' = b_closing b.
Proof. unfold advance, onPanic. intros H. repeat case_match; simplify_eq; done. Qed.

Lemma taskStep_frame tid c t b b' : taskStep nilD tid c t b = Some b' →
  b_shards b' = b_shards b ∧ b_closing b' = b_closing b.
Proof.
  unfold taskStep. destruct (t_pc t) as [| |id m|id m|id m full|id]; [by intros [=<-]| |..].
  - destruct (t_work t) as [|[m|id m|m|m] w]; try by intros [=<-]. destruct (t_ctx t); [by intros [=<-]|].
    intros (s & _ & Ha)%bind_Some. by apply advance_frame in Ha.
  - intros (s & _ & Ha)%bind_Some. case_match; [done|]. by apply advance_frame in Ha.
  - intros (s & _ & Ha)%bind_Some. by simplify_eq.
  - intros (s & _ & Ha)%bind_Some. destruct full; [by destruct (spinDrop s m); simplify_eq|].
    destruct (spinSend s m) eqn:E; simplify_eq; try done; by apply advance_frame in Ha.
  - intros (s & _ & Ha)%bind_Some. case_match; by simplify_eq.
Qed.

(** The steps that change the registry. *)
Lemma step_shards l b b' : inv b → step nilD l b = Some b' →
  b_shards b' = b_shards b ∨
  (∃ kind topic, b_shards b' = addSubscriber kind topic (b_nextID b + 1)%N (b_nextID b + 1)%N (b_shards b)) ∨
  (∃ id s, b_subs b !! id = Some s ∧ s_removed s = false ∧
     b_shards b' = removeSubscriber (s_kind s) (s_topic s) id (b_shards b)) ∨
  collected b'.
Proof.
  intros Hi Hst. unfold step in Hst. case_match; [done|].
  destruct l as [rid kind topic opts|rid|tid topic msg now bg|tid topic msgs nows|tid|tid c|id c|id|id|id| | |].
  - repeat case_match; simplify_eq. by left.
  - apply bind_Some in Hst as ([[kind topic] opts] & _ & Hst). simplify_eq. right. left. by exists kind, topic.
  - repeat case_match; simplify_eq. by left.
  - repeat case_match; simplify_eq. by left.
  - apply bind_Some in Hst as (t & _ & Hst). case_match; simplify_eq. by left.
  - apply bind_Some in Hst as (t & _ & Hst). left. by apply taskStep_frame in Hst as [-> _].
  - apply bind_Some in Hst as (s & _ & (s' & _ & Hst)%bind_Some). simplify_eq. by left.
  - apply bind_Some in Hst as (s & _ & ([m s'] & _ & Hst)%bind_Some). simplify_eq. by left.
  - apply bind_Some in Hst as (s & _ & (s' & _ & Hst)%bind_Some). simplify_eq. by left.
  - apply bind_Some in Hst as (s & Hs & Hst). case_match eqn:Ec; simplify_eq. right. right. left. exists id, s.
    unfold canRemove in Ec. destruct (s_removed s); [by rewrite andb_false_r in Ec|]. split; [done|]. split; [done|].
    simpl. by destruct (inv_sub b id s Hi Hs) as [<- _].
  - case_match; simplify_eq. by left.
  - case_match; try done. destruct (collectAllSubscribers _). simplify_eq. by right; right; right.
  - case_match; try done. case_match; try done. apply bind_Some in Hst as (s & Hs & Hst). case_match; simplify_eq. by left.
Qed.

Lemma step_exact l b b' : inv b → step nilD l b = Some b' → unshared b → ¬ collected b' →
  mqttExact (b_shards b) → mqttExact (b_shards b').
Proof.
  intros Hi Hst [Hc Hu] Hc' He. pose proof Hi as [C _]. pose proof (co_shards _ _ _ _ _ _ _ _ C) as Hok.
  destruct (step_shards l b b' Hi Hst) as [->|[(k & tp & ->)|[(id & s & Hs & Hr & ->)|Hcc]]]; [done| | |done].
  - by apply mqttExact_add.
  - apply mqttExact_remove; [done..|by intros _|]. intros Hk. rewrite live_registered by done. eauto.
Qed.

Lemma run_all_exact ls b b' : inv b → mqttExact (b_shards b) → run_all unshared ls b → run nilD ls b = Some b' →
  mqttExact (b_shards b') ∧ unshared b'.
Proof.
  revert b. induction ls as [|l ls IH]; intros b Hi He [Hu Hrest] Hr; simpl in Hr; [by simplify_eq|].
  destruct (step nilD l b) as [b1|] eqn:Es; [|done]. simpl in Hr.
  assert (unshared b1) as Hu1 by (destruct ls; apply Hrest).
  eapply IH; [by eapply broker_step_inv| |done|done]. eapply step_exact; [done..|apply Hu1|done].
Qed.

(** C10: in every reachable state of a broker with at most [2^32] shards in which [Close]
    has not begun to collect the subscriptions, the lookups of a publisher (the topic's
    shard, a scan of all shards for glob and for MQTT patterns, each behind its counter),
    taken in that state, yield no subscription twice, and exactly the registered ones
    that are meant for the topic: registered are those whose [Cancel] has not run to its
    end (one that is closed and not removed yet is still found); exact topics match by
    equality, globs by [path.Match] (whose error case cannot occur for an accepted
    pattern, and whose result the shortcut for patterns without metacharacters agrees
    with), MQTT patterns by MQTT matching. An MQTT subscription is found only if the
    counter of MQTT patterns is positive, which it is in every run in which no MQTT
    pattern ever had two subscriptions at a time. *)
Theorem broker_routes opts ls b topic :
  shards_fit opts → run nilD ls (New opts) = Some b → ¬ collected b →
  NoDup (targets b topic) ∧
  (∀ id, id ∈ targets b topic ↔ ∃ s, b_subs b !! id = Some s ∧ s_removed s = false ∧ meantFor topic s ∧
     (s_kind s = subKindMQTT → hasAnyMQTTPatterns (b_shards b) = true)) ∧
  (run_all unshared ls (New opts) →
   ∀ id, id ∈ targets b topic ↔ ∃ s, b_subs b !! id = Some s ∧ s_removed s = false ∧ meantFor topic s).
Proof.
  intros Hf Hr Hc. assert (inv b) as Hi by (eapply reachable_inv; [done|by exists ls]). pose proof Hi as [C _].
  assert (∀ id s, b_subs b !! id = Some s →
    lookupSub (b_shards b) (s_kind s) (s_topic s) id = Some id ↔ s_removed s = false) as Hlive.
  { intros id s Hs. split; [|by apply live_registered]. intros Hl.
    destruct (co_reg _ _ _ _ _ _ _ _ C _ _ _ _ Hl) as (_ & s' & Hs' & _ & _ & Hrm). simplify_eq. done. }
  assert (∀ id, id ∈ targets b topic ↔ ∃ s, b_subs b !! id = Some s ∧ s_removed s = false ∧ meantFor topic s ∧
     (s_kind s = subKindMQTT → hasAnyMQTTPatterns (b_shards b) = true)) as Ht.
  { intros id. rewrite targets_elem by done. split; intros (s & Hs & Hl & Hrest); exists s;
      (split; [done|]; split; [by apply (Hlive id s Hs)|done]). }
  split; [by apply targets_nodup|]. split; [done|]. intros Hall id. rewrite Ht.
  destruct (run_all_exact ls (New opts) b) as [He _]; [by apply New_inv| |done|done|].
  { unfold mqttExact, patternsIn. simpl. by rewrite sum_replicate. }
  split; intros (s & Hs & Hrm & Hm); exists s; [tauto|]. do 3 (split; [done|]). intros Hk.
  destruct (hasAnyMQTTPatterns_spec (b_shards b)) as [|Hn]; [apply C|done|done|].
  apply (Hlive id s Hs) in Hrm. by rewrite Hk, Hn in Hrm.
Qed.

(** ** A publisher reaches everyone *)

(** The step that attempts the delivery to [id]. *)
Definition attempts tid id (l : label D) b : Prop :=
  (∃ c, l = LTask tid c) ∧ ∃ t m w, b_tasks b !! tid = Some t ∧ t_pc t = Next ∧ t_work t = WDeliver id m :: w.

(** [id], of a given kind, is subscribed for the publisher's topic, and the publisher's
    context is not done. *)
Definition waitingFor tid id (kind : subKind) topic b : Prop :=
  ¬ collected b ∧
  (∃ s, b_subs b !! id = Some s ∧ s_kind s = kind ∧ s_removed s = false ∧ meantFor topic s) ∧
  (kind = subKindMQTT → hasAnyMQTTPatterns (b_shards b) = true) ∧
  (∀ t, b_tasks b !! tid = Some t → t_ctx t = false).

Inductive noAttempt tid id kind topic : broker D → broker D → Prop :=
| na_refl b : waitingFor tid id kind topic b → noAttempt tid id kind topic b b
| na_step b l b' b'' : waitingFor tid id kind topic b → ¬ attempts tid id l b → step nilD l b = Some b' →
    noAttempt tid id kind topic b' b'' → noAttempt tid id kind topic b b''.

(** What the publisher still owes [id]. *)
Definition owes id (kind : subKind) (w : work D) : Prop :=
  match w with
  | WDeliver i _ => i = id
  | WGlobs _ => kind = subKindPattern
  | WMqtt _ => kind = subKindMQTT
  | WPublish _ => False
  end.
Definition owed tid id topic (kind : subKind) b : Prop :=
  ∃ t, b_tasks b !! tid = Some t ∧ t_topic t = topic ∧ (t_pc t = Fresh ∨ Exists (owes id kind) (t_work t)).

(** Another goroutine's step leaves the publisher alone. *)
Lemma advance_tasks tid t s msg o b b' tid' : advance tid t s msg o b = Some b' → tid' ≠ tid →
  b_tasks b' !! tid' = b_tasks b !! tid'.
Proof.
  unfold advance, onPanic. intros H Hne. repeat case_match; simplify_eq; simpl; by rewrite ?lookup_insert_ne.
Qed.
Lemma taskStep_tasks tid c t b b' tid' : taskStep nilD tid c t b = Some b' → tid' ≠ tid →
  b_tasks b' !! tid' = b_tasks b !! tid'.
Proof.
  unfold taskStep. intros Hst Hne. destruct (t_pc t) as [| |id m|id m|id m full|id].
  - simplify_eq. simpl. by rewrite lookup_insert_ne.
  - destruct (t_work t) as [|[m|id m|m|m] w]; simplify_eq; simpl; rewrite ?lookup_insert_ne, ?lookup_delete_ne by done; try done.
    destruct (t_ctx t); simplify_eq; simpl; rewrite ?lookup_insert_ne by done; [done|].
    apply bind_Some in Hst as (s & _ & Ha). by eapply advance_tasks.
  - apply bind_Some in Hst as (s & _ & Ha). case_match; [done|]. by eapply advance_tasks.
  - apply bind_Some in Hst as (s & _ & Ha). simplify_eq. simpl. by rewrite lookup_insert_ne.
  - apply bind_Some in Hst as (s & _ & Ha). destruct full.
    { destruct (spinDrop s m). simplify_eq. simpl. by rewrite lookup_insert_ne. }
    destruct (spinSend s m) eqn:E; try by eapply advance_tasks. simplify_eq. simpl. by rewrite lookup_insert_ne.
  - apply bind_Some in Hst as (s & _ & Ha). case_match; simplify_eq. simpl. by rewrite lookup_insert_ne.
Qed.

Lemma step_tasks l b b' tid t : step nilD l b = Some b' → b_tasks b !! tid = Some t →
  b_tasks b' !! tid = Some t ∨ (∃ c, l = LTask tid c ∧ taskStep nilD tid c t b = Some b') ∨
  b_tasks b' !! tid = Some (mkTask (t_topic t) (t_msg t) (t_work t) (t_pc t) true false).
Proof.
  intros Hst Ht. unfold step in Hst. case_match; [done|].
  destruct l as [rid kind topic opts|rid|tid' topic msg now bg|tid' topic msgs nows|tid'|tid' c|id c|id|id|id| | |].
  - repeat case_match; simplify_eq. by left.
  - apply bind_Some in Hst as ([[kind topic] opts] & _ & Hst). simplify_eq. by left.
  - repeat case_match; simplify_eq. left. simpl. rewrite lookup_insert_ne; [done|]. congruence.
  - repeat case_match; simplify_eq. left. simpl. rewrite lookup_insert_ne; [done|]. congruence.
  - apply bind_Some in Hst as (t' & Ht' & Hst). case_match; simplify_eq. simpl.
    destruct (decide (tid = tid')) as [->|]; [|left; by rewrite lookup_insert_ne]. right. right. rewrite lookup_insert_eq. congruence.
  - apply bind_Some in Hst as (t' & Ht' & Hst). destruct (decide (tid = tid')) as [->|Hne].
    + simplify_eq. right. left. eauto.
    + left. rewrite (taskStep_tasks _ _ _ _ _ tid Hst) by done. done.
  - apply bind_Some in Hst as (s & _ & (s' & _ & Hst)%bind_Some). simplify_eq. by left.
  - apply bind_Some in Hst as (s & _ & ([m s'] & _ & Hst)%bind_Some). simplify_eq. by left.
  - apply bind_Some in Hst as (s & _ & (s' & _ & Hst)%bind_Some). simplify_eq. by left.
  - apply bind_Some in Hst as (s & Hs & Hst). case_match; simplify_eq. by left.
  - case_match; simplify_eq. by left.
  - case_match; try done. destruct (collectAllSubscribers _). simplify_eq. by left.
  - case_match; try done. case_match; try done. apply bind_Some in Hst as (s & Hs & Hst). case_match; simplify_eq. by left.
Qed.

Lemma advance_self tid t s msg o b b' : advance tid t s msg o b = Some b' →
  (∃ t', b_tasks b' !! tid = Some t' ∧ t_topic t' = t_topic t ∧ t_work t' = t_work t) ∨ b_tasks b' = b_tasks b.
Proof.
  unfold advance, onPanic. intros H.
  repeat case_match; simplify_eq; simpl; (by right) || (left; eexists; by rewrite lookup_insert_eq).
Qed.

(** A step of the publisher that is not the attempt keeps the debt. *)
Lemma taskStep_owed tid c t b b' id s : inv b → b_tasks b !! tid = Some t → taskStep nilD tid c t b = Some b' →
  ¬ attempts tid id (LTask tid c) b → t_ctx t = false → b_subs b !! id = Some s →
  lookupSub (b_shards b) (s_kind s) (s_topic s) id = Some id → reaches (t_topic t) (s_kind s) (s_topic s) = true →
  (s_kind s = subKindMQTT → hasAnyMQTTPatterns (b_shards b) = true) →
  owed tid id (t_topic t) (s_kind s) b → owed tid id (t_topic t) (s_kind s) b'.
Proof.
  intros Hi Ht Hst Hna Hctx Hs Hl Hm Hq (t0 & Ht0 & _ & Ho). simplify_eq.
  pose proof (target_elem b _ _ id (t_topic t) Hi Hl Hm) as Htg.
  assert (∀ t', b_tasks b' !! tid = Some t' → t_topic t' = t_topic t → Exists (owes id (s_kind s)) (t_work t') →
    owed tid id (t_topic t) (s_kind s) b') as Hown by (intros t' ? ? ?; exists t'; auto).
  assert (∀ s0 m o t1, advance tid t1 s0 m o b = Some b' → t_topic t1 = t_topic t → Exists (owes id (s_kind s)) (t_work t1) →
    owed tid id (t_topic t) (s_kind s) b') as Hadv.
  { intros s0 m o t1 Ha Htp Hex. apply advance_self in Ha as [(t' & Ht' & E1 & E2)|E].
    - eapply Hown; [done|congruence|by rewrite E2].
    - exists t. rewrite E. auto. }
  assert (∀ l m, id ∈ l → Exists (owes id (s_kind s)) (deliveries l m)) as Hdel.
  { intros l m Hin. apply Exists_exists. exists (WDeliver id m). split; [by apply deliveries_elem|done]. }
  unfold taskStep in Hst. destruct (t_pc t) as [| |i m|i m|i m full|i] eqn:Hpc.
  - simplify_eq. eapply Hown; [simpl; by rewrite lookup_insert_eq|done|]. simpl. rewrite Hctx. unfold publishWork.
    rewrite !Exists_app. destruct (s_kind s).
    + left. by apply Hdel.
    + right. left. destruct Htg as [-> _]. by constructor.
    + right. right. rewrite Hq by done. by constructor.
  - destruct Ho as [|Ho]; [done|]. destruct (t_work t) as [|w0 w] eqn:Hw; [by apply Exists_nil in Ho|].
    apply Exists_cons in Ho. destruct w0 as [m|i m|m|m]; simpl in Ho.
    + simplify_eq. eapply Hown; [simpl; by rewrite lookup_insert_eq|done|]. simpl. tauto.
    + rewrite Hctx in Hst. apply bind_Some in Hst as (x & Hx & Ha).
      destruct (decide (i = id)) as [->|Hne].
      { destruct Hna. split; [eauto|]. exists t, m, w. done. }
      eapply Hadv; [done|done|]. simpl. tauto.
    + simplify_eq. eapply Hown; [simpl; by rewrite lookup_insert_eq|done|]. simpl. apply Exists_app.
      destruct Ho as [Hk|?]; [left|by right]. rewrite Hk in Htg. apply Hdel, Htg.
    + simplify_eq. eapply Hown; [simpl; by rewrite lookup_insert_eq|done|]. simpl. apply Exists_app.
      destruct Ho as [Hk|?]; [left|by right]. rewrite Hk in Htg. apply Hdel, Htg.
  - destruct Ho as [|Ho]; [done|]. apply bind_Some in Hst as (x & Hx & Ha). destruct (bool_decide _ && _); [done|]. by eapply Hadv.
  - destruct Ho as [|Ho]; [done|]. apply bind_Some in Hst as (x & Hx & Ha). simplify_eq.
    eapply Hown; [simpl; by rewrite lookup_insert_eq|done|done].
  - destruct Ho as [|Ho]; [done|]. apply bind_Some in Hst as (x & Hx & Ha). destruct full.
    { destruct (spinDrop x m). simplify_eq. eapply Hown; [simpl; by rewrite lookup_insert_eq|done|done]. }
    destruct (spinSend x m) eqn:E; try by eapply Hadv.
    simplify_eq. eapply Hown; [simpl; by rewrite lookup_insert_eq|done|done].
  - destruct Ho as [|Ho]; [done|]. apply bind_Some in Hst as (x & Hx & Ha). destruct (s_removed x); simplify_eq.
    eapply Hown; [simpl; by rewrite lookup_insert_eq|done|done].
Qed.

Lemma noAttempt_owed tid id kind topic b b' : inv b → noAttempt tid id kind topic b b' →
  owed tid id topic kind b → owed tid id topic kind b'.
Proof.
  intros Hi Hn. induction Hn as [b Hw|b l b1 b2 Hw Hna Hst Hn IH]; [done|]. intros Ho.
  apply IH; [by eapply broker_step_inv|]. clear IH. destruct Hw as (Hc & (s & Hs & Hk & Hr & Hm) & Hq & Hctx).
  pose proof Ho as (t & Ht & Htp & Hw). pose proof (live_registered b id s Hi Hc Hs Hr) as Hl. pose proof Hi as [C _].
  apply meantFor_reaches in Hm; [|by apply (co_keys _ _ _ _ _ _ _ _ C _ _ Hs)].
  destruct (step_tasks l b b1 tid t Hst Ht) as [Ht1|[(c & -> & Hts)|Ht1]].
  - exists t. auto.
  - subst topic kind. eapply taskStep_owed; [done..|by apply Hctx|done|done|done|done|done].
  - assert (waitingFor tid id kind topic b1) as (_ & _ & _ & Hctx1) by (by inversion Hn).
    by specialize (Hctx1 _ Ht1).
Qed.

(** C18: a single publication ([Publish] and its variants, not [PublishBatch]) that has
    passed its checks and has looked nothing up yet cannot return before it has attempted
    the delivery to a subscription for which the following holds in every state from
    there on: it is registered ([Cancel] has not run to its end) and meant for the topic,
    [Close] has not begun to collect the subscriptions, the publisher's context is not
    done, and, for an MQTT subscription, the counter of MQTT patterns is positive. As
    long as this lasts and the attempt has not been made, the publisher is still running,
    however subscribers, cancellations, receives and other publishers interleave with it
    and although it looks topics, globs and MQTT patterns up at different times. The
    broker has at most [2^32] shards. *)
Theorem broker_reaches_all opts b b' tid t id kind topic :
  shards_fit opts → reachable nilD opts b → b_tasks b !! tid = Some t → t_pc t = Fresh → t_topic t = topic →
  noAttempt tid id kind topic b b' → is_Some (b_tasks b' !! tid).
Proof.
  intros Hf Hr Ht Hpc Htp Hn. assert (inv b) as Hi by by eapply reachable_inv.
  destruct (noAttempt_owed tid id kind topic b b' Hi Hn) as (t' & -> & _); [|eauto]. exists t. auto.
Qed.

(** ** Messages *)

(** The messages that publishers have sent to [id] and not announced yet. *)
Definition reportOf id t : option (Message D) :=
  match t_pc t with InReport i m => if decide (i = id) then Some m else None | _ => None end.
Definition reporting id (ts : gmap nat (task D)) : list (Message D) := omap (reportOf id ∘ snd) (map_to_list ts).

Lemma reporting_perm id tid ts :
  reporting id ts ≡ₚ option_list (ts !! tid ≫= reportOf id) ++ reporting id (delete tid ts).
Proof.
  unfold reporting. destruct (ts !! tid) as [t|] eqn:E; simpl; [|by rewrite delete_id].
  rewrite <- (insert_delete_id ts tid t E) at 1. rewrite map_to_list_insert by apply lookup_delete_eq. simpl.
  by destruct (reportOf id t).
Qed.

Lemma reporting_insert id tid t' ts :
  reporting id (<[tid := t']> ts) ≡ₚ option_list (reportOf id t') ++ reporting id (delete tid ts).
Proof. by rewrite (reporting_perm id tid), lookup_insert_eq, delete_insert_eq. Qed.

(** What is announced and what is still to be announced is what was sent. *)
Definition reports_ok b : Prop :=
  ∀ id, sentTo id (b_trace b) ≡ₚ deliveredTo id (b_trace b) ++ reporting id (b_tasks b).

(** A publisher that adds [evs] to the trace and becomes [t']. *)
Lemma reports_task b b' tid t' evs : reports_ok b → b_trace b' = b_trace b ++ evs → b_tasks b' = <[tid := t']> (b_tasks b) →
  (∀ id, option_list (b_tasks b !! tid ≫= reportOf id) ++ sentTo id evs ≡ₚ deliveredTo id evs ++ option_list (reportOf id t')) →
  reports_ok b'.
Proof.
  intros Hb Etr Ets He id. specialize (Hb id). specialize (He id). rewrite Etr, Ets, reporting_insert.
  rewrite (reporting_perm id tid) in Hb. unfold sentTo, deliveredTo in *. rewrite !omap_app, Hb, <- !app_assoc.
  f_equiv. rewrite (Permutation_app_comm (reporting _ _)), !app_assoc. f_equiv. exact He.
Qed.

(** A step that sends and announces nothing, and moves no publisher. *)
Lemma reports_frame b b' evs : reports_ok b → b_trace b' = b_trace b ++ evs → b_tasks b' = b_tasks b →
  (∀ id, sentTo id evs = [] ∧ deliveredTo id evs = []) → reports_ok b'.
Proof.
  intros Hb Etr Ets He id. destruct (He id) as [H1 H2]. rewrite Etr, Ets. unfold sentTo, deliveredTo in *.
  rewrite !omap_app, H1, H2, !app_nil_r. exact (Hb id).
Qed.

(** Deliveries that finish announce what they send. *)
Definition balanced evs : Prop := ∀ id, sentTo id evs = deliveredTo (D := D) id evs.

Lemma deliver_balanced s msg s' evs c : deliver nilD s msg = Finished s' evs c → balanced evs.
Proof.
  unfold deliver, deliverDropNewest, deliverCloseSubscriber, deliverOrDrop, deliverDropOldest. intros H id.
  repeat case_match; simplify_eq; done.
Qed.
Lemma spinSend_balanced s msg s' evs c : spinSend s msg = Finished s' evs c → balanced evs.
Proof. unfold spinSend. intros H id. repeat case_match; simplify_eq; done. Qed.

Lemma balanced_task b b' tid t' evs : reports_ok b → b_trace b' = b_trace b ++ evs → b_tasks b' = <[tid := t']> (b_tasks b) →
  (∀ id, b_tasks b !! tid ≫= reportOf id = None) → (∀ id, reportOf id t' = None) → balanced evs → reports_ok b'.
Proof.
  intros Hb Etr Ets Ho Hn He. eapply reports_task; [done..|]. intros id. by rewrite Ho, Hn, He, app_nil_r.
Qed.

(** A delivery that does not report later. *)
Lemma advance_reports tid t s msg o b b' : reports_ok b → (∀ id, b_tasks b !! tid ≫= reportOf id = None) →
  (∀ s' evs c, o = Finished s' evs c → balanced evs) → (∀ s' evs, o ≠ Reports s' evs) →
  advance tid t s msg o b = Some b' → reports_ok b'.
Proof.
  intros Hb Ho Hbal Hnr Ha. unfold advance, onPanic in Ha.
  destruct o as [s' evs c| | | |s'|s' evs]; [..|by destruct (Hnr s' evs)]; simplify_eq.
  - eapply balanced_task; [done|done|done|done|by destruct c|by eapply Hbal].
  - case_match; [|done]. by eapply balanced_task.
  - eapply (balanced_task _ _ _ _ []); [done|by rewrite app_nil_r|done..].
  - eapply (balanced_task _ _ _ _ []); [done|by rewrite app_nil_r|done..].
Qed.

Lemma taskStep_reports tid c t b b' : reports_ok b → b_tasks b !! tid = Some t → inv b → taskStep nilD tid c t b = Some b' →
  reports_ok b'.
Proof.
  intros Hb Ht Hi Hst. unfold taskStep in Hst.
  assert (∀ w p, (∀ id, reportOf id t = None) → (∀ i m, p ≠ InReport i m) → ∀ b1, b_trace b1 = b_trace b →
    b_tasks b1 = <[tid := mkTask (t_topic t) (t_msg t) w p (t_ctx t) (t_background t)]> (b_tasks b) → reports_ok b1) as Hquiet.
  { intros w p Ho Hp b1 E1 E2. eapply (balanced_task b b1 tid _ []); [done|by rewrite app_nil_r|done|by rewrite Ht| |done].
    intros id. unfold reportOf. simpl. destruct p; try done. by destruct (Hp id0 msg). }
  assert (∀ id, reportOf id t = match t_pc t with InReport i m => if decide (i = id) then Some m else None | _ => None end) as Ho by done.
  destruct (t_pc t) as [| |i m|i m|i m full|i] eqn:Hpc.
  - simplify_eq. eapply Hquiet; [exact Ho| |done|reflexivity]; done.
  - destruct (t_work t) as [|[m|i m|m|m] w]; simplify_eq.
    + intros id. rewrite (Hb id), (reporting_perm id tid), Ht. simpl. by rewrite Ho.
    + eapply balanced_task; [done|done|done|by rewrite Ht|done|done].
    + destruct (t_ctx t); simplify_eq; [eapply Hquiet; [exact Ho| |done|reflexivity]; done|]. apply bind_Some in Hst as (s & Hs & Ha).
      eapply advance_reports; [done|by rewrite Ht|by intros ??? ?%deliver_balanced| |done].
      intros s' evs Hd. destruct (inv_sub b _ s Hi Hs) as [_ Hok]. pose proof (deliver_ok nilD _ s m Hok) as H. by rewrite Hd in H.
    + eapply Hquiet; [exact Ho| |done|reflexivity]; done.
    + eapply Hquiet; [exact Ho| |done|reflexivity]; done.
  - apply bind_Some in Hst as (s & Hs & Ha). case_match; [done|].
    destruct (inv_sub b _ s Hi Hs) as [Hid _]. destruct (blockStep c s m) eqn:Eb; [..|].
    6:{ unfold blockStep in Eb. repeat case_match; simplify_eq/=. eapply reports_task; [done..|].
        intros id. rewrite Ht. simpl. rewrite Ho. unfold reportOf, sentTo, deliveredTo. simpl. by case_decide. }
    all: eapply advance_reports; [..|exact Ha]; [done|by rewrite Ht| |done]; try done.
    intros s' evs' c' [=<- <- <-]. unfold blockStep in Eb. intros id. repeat case_match; by simplify_eq.
  - apply bind_Some in Hst as (s & Hs & Ha). destruct (inv_sub b _ s Hi Hs) as [Hid _]. simplify_eq.
    eapply reports_task; [done..|]. intros id. rewrite Ht. simpl. rewrite Ho. unfold reportOf, sentTo, deliveredTo. simpl.
    by case_decide.
  - apply bind_Some in Hst as (s & Hs & Ha). destruct full.
    + unfold spinDrop in Ha. destruct (ch_buf (s_ch s)); simplify_eq; [eapply Hquiet; [exact Ho| |by simpl; rewrite app_nil_r|reflexivity]; done|].
      eapply balanced_task; [done|done|done|by rewrite Ht|done|done].
    + destruct (spinSend s m) eqn:Eb.
      5:{ simplify_eq. eapply Hquiet; [exact Ho| |done|reflexivity]; done. }
      all: eapply advance_reports; [..|exact Ha]; [done|by rewrite Ht| |]; try done.
      * intros s' evs' c' [=<- <- <-]. by apply spinSend_balanced in Eb.
      * unfold spinSend in Eb. repeat case_match; done.
  - apply bind_Some in Hst as (s & Hs & Ha). case_match; simplify_eq. eapply Hquiet; [exact Ho| |done|reflexivity]; done.
Qed.

Lemma step_reports l b b' : inv b → reports_ok b → step nilD l b = Some b' → reports_ok b'.
Proof.
  intros Hi Hb Hst. unfold step in Hst. case_match; [done|].
  assert (b_trace b' = b_trace b → b_tasks b' = b_tasks b → reports_ok b') as Hsame.
  { intros E1 E2. by eapply (reports_frame b b' []); [|by rewrite app_nil_r|..]. }
  destruct l as [rid kind topic opts|rid|tid topic msg now bg|tid topic msgs nows|tid|tid c|id c|id|id|id| | |].
  - repeat case_match; simplify_eq. by apply Hsame.
  - apply bind_Some in Hst as ([[kind topic] opts] & _ & Hst). simplify_eq. by eapply reports_frame.
  - repeat case_match; simplify_eq. eapply balanced_task; try done. intros id. by simplify_option_eq.
  - repeat case_match; simplify_eq. eapply (balanced_task b _ _ _ []); try done; [by rewrite app_nil_r|]. intros id. by simplify_option_eq.
  - apply bind_Some in Hst as (t & Ht & Hst). case_match; simplify_eq.
    eapply (reports_task b _ _ _ []); [done|by rewrite app_nil_r|done|]. intros id. rewrite Ht. simpl. by rewrite app_nil_r.
  - apply bind_Some in Hst as (t & Ht & Hst). by eapply taskStep_reports.
  - apply bind_Some in Hst as (s & _ & (s' & _ & Hst)%bind_Some). simplify_eq. by apply Hsame.
  - apply bind_Some in Hst as (s & _ & ([m s'] & _ & Hst)%bind_Some). simplify_eq. by eapply reports_frame.
  - apply bind_Some in Hst as (s & _ & (s' & _ & Hst)%bind_Some). simplify_eq. by apply Hsame.
  - apply bind_Some in Hst as (s & Hs & Hst). case_match; simplify_eq. by eapply reports_frame.
  - case_match; simplify_eq. by apply Hsame.
  - case_match; try done. destruct (collectAllSubscribers _). simplify_eq. by apply Hsame.
  - case_match; try done. case_match; try done. apply bind_Some in Hst as (s & Hs & Hst). case_match; simplify_eq. by apply Hsame.
Qed.

Lemma reachable_reports opts b : shards_fit opts → reachable nilD opts b → reports_ok b.
Proof.
  intros Hf [ls Hr]. assert (inv (New (D := D) opts) ∧ reports_ok (New (D := D) opts)) as [Hi Hb].
  { split; [by apply New_inv|]. intros id. unfold reporting. simpl. by rewrite map_to_list_empty. }
  revert Hr Hi Hb. generalize (New (D := D) opts). clear Hf. induction ls as [|l ls IH]; intros b0 Hr Hi Hb; simpl in Hr; [by simplify_eq|].
  apply bind_Some in Hr as (b1 & H1 & Hr). eapply IH; [done|by eapply broker_step_inv|by eapply step_reports].
Qed.

Lemma queued_bound tr s : sub_ok tr s → length (queued s) ≤ Z.to_nat (BufferSize (s_opts s)).
Proof.
  intros [Hsh _]. pose proof (sh_form _ Hsh) as Hf. unfold queued. destruct (s_ringBuf s) as [rb|].
  - rewrite RingBuffer.queue_length by apply Hf. rewrite <- (r_cap _ _ Hf).
    by destruct (RingBuffer.ok_ring _ (r_ok _ _ Hf)) as (_ & _ & _ & ?).
  - rewrite <- (c_cap _ Hf). apply Hf.
Qed.

(** C11: under every interleaving (with at most [2^32] shards), each message sent to a
    subscription, that is put into its buffer, is received by its consumer, evicted by
    the drop-oldest policy (and announced as dropped), held by the pump, or still queued;
    none is lost or duplicated, and what the consumer has received, followed by what is
    held and queued, keeps the order of the sends. Under the policies that do not evict,
    what was received followed by what is queued is exactly what was sent, also after
    cancellation. The queue stays within the buffer size. Every sent message is announced
    to the observers exactly once or still to be announced by a publisher that blocked
    and has just sent it (the announcements need not follow the order of the sends); the
    dropped counter counts the announced drops, and once nothing is left to be announced
    the received counter is the number of messages sent, both modulo [2^64]. *)
Theorem broker_conserves opts b id s :
  shards_fit opts → reachable nilD opts b → b_subs b !! id = Some s →
  let sent := sentTo id (b_trace b) in
  let dropped := droppedFor id (b_trace b) in
  let received := receivedBy id (b_trace b) in
  sent ≡ₚ received ++ (if evicts s then dropped else []) ++ held s ++ queued s ∧
  (received ++ held s ++ queued s) `sublist_of` sent ∧
  (evicts s = false → sent = received ++ queued s) ∧
  length (queued s) ≤ Z.to_nat (BufferSize (s_opts s)) ∧
  sent ≡ₚ deliveredTo id (b_trace b) ++ reporting id (b_tasks b) ∧
  s_dropped s = (N.of_nat (length dropped) mod 2 ^ 64)%N ∧
  (reporting id (b_tasks b) = [] → s_received s = (N.of_nat (length sent) mod 2 ^ 64)%N).
Proof.
  intros Hf Hr Hs. assert (inv b) as Hi by by eapply reachable_inv. destruct (inv_sub b id s Hi Hs) as [Hid Hok].
  pose proof (queued_bound _ s Hok) as Hb. destruct Hok as [Hsh [F1 F2 F3 F4]]. rewrite Hid in *. cbv zeta.
  pose proof (reachable_reports opts b Hf Hr id) as Hrep.
  split; [done|]. split; [done|].
  split; [|split; [done|split; [done|split; [done|intros Hn; rewrite Hrep, Hn, app_nil_r; exact F3]]]].
  intros Hev. rewrite Hev in F1. pose proof (sh_form _ Hsh) as Hform.
  assert (s_pump s = NoPump) as Hp.
  { destruct (s_ringBuf s) as [rb|]; [|apply Hform]. unfold evicts in Hev. by rewrite (r_policy _ _ Hform) in Hev. }
  assert (held s = []) as Hh by (unfold held; by rewrite Hp). rewrite Hh in F1, F2. simpl in F1, F2.
  symmetry. apply sublist_all; [done|]. by rewrite F1.
Qed.

(** C12: as long as no subscription blocks its publishers and no filter panics, no
    delivery panics: no send on a closed channel, no second close, no index out of range,
    whatever the interleaving of publishers, pumps, cancellations and [Close]; the
    process does not crash and no panic is ever recovered. *)
Theorem broker_panic_free opts b :
  shards_fit opts → reachable nilD opts b →
  (∀ id s, b_subs b !! id = Some s → Policy (s_opts s) ≠ BlockWithTimeout ∧ ∀ msg, filterVerdict s msg ≠ None) →
  b_crashed b = false ∧ ∀ topic id, EvPanic topic id ∉ b_trace b.
Proof.
  intros Hf Hr Hno. assert (inv b) as [C _] by by eapply reachable_inv.
  assert (∀ id s, b_subs b !! id = Some s → ¬ mayPanic s) as Hn.
  { intros id s Hs [Hp|[m Hm]]; destruct (Hno _ _ Hs) as [H1 H2]; [done|by eapply H2]. }
  split.
  - destruct (b_crashed b) eqn:Hc; [|done]. destruct (co_crash _ _ _ _ _ _ _ _ C Hc) as (id & s & Hs & Hp). by destruct (Hn _ _ Hs).
  - intros topic id Hin. destruct (co_panics _ _ _ _ _ _ _ _ C _ _ Hin) as (s & Hs & Hp). by destruct (Hn _ _ Hs).
Qed.

(** ** Progress *)

Lemma run_app ls1 ls2 b : run nilD (ls1 ++ ls2) b = run nilD ls1 b ≫= run nilD ls2.
Proof. revert b. induction ls1 as [|l ls IH]; intros b; simpl; [done|]. destruct (step nilD l b); simpl; [apply IH|done]. Qed.

Lemma pump_run id c s s' b ls : b_crashed b = false → b_subs b !! id = Some s → pumpRingBuffer nilD c s = Some s' →
  run nilD (LPump id c :: ls) b = run nilD ls (setSub s' b).
Proof. intros Hc Hs Hp. simpl. unfold step. rewrite Hc, Hs. simpl. by rewrite Hp. Qed.

Lemma receive_run id m s s' b : b_crashed b = false → b_subs b !! id = Some s → consumerReceive s = Some (m, s') →
  run nilD [LReceive id] b = Some (emit [EvReceive id m] (setSub s' b)).
Proof. intros Hc Hs Hp. simpl. unfold step. rewrite Hc, Hs. simpl. by rewrite Hp. Qed.

Lemma setSub_lookup s b id : s_id s = id → b_subs (setSub s b) !! id = Some s.
Proof. intros <-. apply lookup_insert_eq. Qed.

(** An open subscription offers its oldest message: at most two steps of the pump, then
    the receive. *)
Lemma oldest_offered b id s m rest : inv b → b_crashed b = false → b_subs b !! id = Some s → s_closed s = false →
  held s ++ queued s = m :: rest →
  ∃ n b', n ≤ 2 ∧ run nilD (replicate n (LPump id PGo) ++ [LReceive id]) b = Some b' ∧ b_trace b' = b_trace b ++ [EvReceive id m].
Proof.
  intros Hi Hcr Hs Hc Hq. destruct (inv_sub b id s Hi Hs) as [Hid [Hsh _]]. pose proof (sh_form _ Hsh) as Hf.
  unfold held, queued in Hq. destruct (s_ringBuf s) as [rb|] eqn:Erb.
  - assert (∀ s1 b1 rb1, b_crashed b1 = false → b_trace b1 = b_trace b → b_subs b1 !! id = Some s1 → s_id s1 = id →
      s_ringBuf s1 = Some rb1 → RingBuffer.rb_ok rb1 → s_pump s1 = Popping → RingBuffer.queue rb1 = m :: rest →
      ∃ b', run nilD (LPump id PGo :: [LReceive id]) b1 = Some b' ∧ b_trace b' = b_trace b ++ [EvReceive id m]) as Hpop.
    { intros s1 b1 rb1 Hcr1 Htr1 Hs1 Hid1 Erb1 Hok1 Hp1 Hq1. destruct (ring_pop nilD rb1 Hok1) as (o & rb' & HP & _ & _ & _ & _ & Hm).
      destruct o as [x|]; [|destruct Hm; congruence]. rewrite Hq1 in Hm. injection Hm as <- _.
      assert (pumpRingBuffer nilD PGo s1 = Some (setPump (Holding m) (setRing rb' s1))) as Hst.
      { unfold pumpRingBuffer. rewrite Erb1. simpl. rewrite Hp1, HP. done. }
      rewrite (pump_run id PGo s1 _ b1 _ Hcr1 Hs1 Hst).
      rewrite (receive_run id m (setPump (Holding m) (setRing rb' s1)) (setPump Popping (setPump (Holding m) (setRing rb' s1))));
        [|done|by apply setSub_lookup|done].
      eexists. split; [done|]. simpl. by rewrite Htr1. }
    destruct (s_pump s) as [| |x| |o] eqn:Ep.
    + by destruct Hf.
    + destruct (Hpop s b rb) as (b' & Hr & Ht); try done; [apply Hf|]. exists 1, b'. split; [lia|done].
    + simpl in Hq. injection Hq as -> _. exists 0. rewrite (receive_run id m s (setPump Popping s)); [|done|done|by unfold consumerReceive; rewrite Ep].
      eexists. split; [lia|done].
    + simpl in Hq. destruct (r_wake _ _ Hf Ep) as [E|Hn]; [congruence|].
      set (rb' := (RingBuffer.Receive rb).2). set (s1 := setPump Popping (setRing rb' s)).
      assert (pumpRingBuffer nilD PGo s = Some s1) as Hst.
      { unfold pumpRingBuffer. rewrite Erb. simpl. rewrite Ep. by rewrite Hn. }
      destruct (Hpop s1 (setSub s1 b) rb') as (b' & Hr & Ht); try done; [by apply setSub_lookup|by destruct (r_ok _ _ Hf)|].
      exists 2, b'. split; [lia|]. split; [|done]. cbn [replicate app].
      by rewrite (pump_run id PGo s s1).
    + pose proof (r_stopped _ _ Hf) as Hst. rewrite Ep in Hst. by rewrite Hst in Hc.
  - rewrite (c_pump _ Hf) in Hq. simpl in Hq. exists 0. unfold held in Hq.
    rewrite (receive_run id m s (setCh (mkChannel rest (ch_cap (s_ch s)) (ch_closed (s_ch s))) s));
      [eexists; split; [lia|done]|done|done|]. unfold consumerReceive. by rewrite (c_pump _ Hf), Hq.
Qed.

(** After the locked part of [Cancel], the pump stops and the subscription leaves. *)
Lemma cancel_completes b id s : inv b → b_crashed b = false → b_subs b !! id = Some s → s_closed s = true → s_removed s = false →
  ∃ ps b' s', length ps ≤ 2 ∧ run nilD ((LPump id <$> ps) ++ [LRemove id]) b = Some b' ∧
    b_subs b' !! id = Some s' ∧ s_removed s' = true ∧ lookupSub (b_shards b') (s_kind s) (s_topic s) id = None.
Proof.
  intros Hi Hcr Hs Hc Hr. destruct (inv_sub b id s Hi Hs) as [Hid [Hsh _]]. pose proof (sh_form _ Hsh) as Hf.
  pose proof Hi as [C _]. pose proof (co_shards _ _ _ _ _ _ _ _ C) as Hok.
  assert (∀ s1 b1, b_crashed b1 = false → b_shards b1 = b_shards b → b_subs b1 !! id = Some s1 → s_id s1 = id →
    s_kind s1 = s_kind s → s_topic s1 = s_topic s → canRemove s1 = true →
    ∃ b' s', run nilD [LRemove id] b1 = Some b' ∧ b_subs b' !! id = Some s' ∧ s_removed s' = true ∧
      lookupSub (b_shards b') (s_kind s) (s_topic s) id = None) as Hrem.
  { intros s1 b1 Hcr1 Hsh1 Hs1 Hid1 Hk1 Ht1 Hcan. exists (finishCancel s1 b1), (setRemoved s1). simpl. unfold step.
    rewrite Hcr1, Hs1. simpl. rewrite Hcan. simpl. split; [done|]. rewrite Hid1, lookup_insert_eq. do 2 (split; [done|]).
    rewrite Hsh1, Hk1, Ht1, removeSubscriber_lookup by done. by rewrite decide_True. }
  assert (∀ o s1 b1, b_crashed b1 = false → b_shards b1 = b_shards b → s_id s1 = id → s_kind s1 = s_kind s → s_topic s1 = s_topic s →
    s_closed s1 = true → s_removed s1 = false →
    ∃ b' s', run nilD [LRemove id] (setSub (stopPump o s1) b1) = Some b' ∧ b_subs b' !! id = Some s' ∧ s_removed s' = true ∧
      lookupSub (b_shards b') (s_kind s) (s_topic s) id = None) as Hstop.
  { intros o s1 b1 Hcr1 Hsh1 Hid1 Hk1 Ht1 Hc1 Hr1. eapply (Hrem (stopPump o s1)); try done; [by apply setSub_lookup|].
    unfold canRemove. simpl. by rewrite Hc1, Hr1. }
  assert (s_done s = true) as Hd by (by rewrite (sh_done _ Hsh)).
  destruct (s_pump s) as [| |x| |o] eqn:Ep.
  - destruct (Hrem s b) as (b' & s' & Hrest); try done; [unfold canRemove; by rewrite Hc, Hr, Ep|].
    exists [], b', s'. split; [simpl; lia|done].
  - destruct (s_ringBuf s) as [rb|] eqn:Erb; [|destruct Hf; congruence].
    destruct (ring_pop nilD rb (r_ok _ _ Hf)) as (o & rb' & HP & _).
    set (s1 := setPump (match o with Some m => Holding m | None => Waiting end) (setRing rb' s)).
    assert (pumpRingBuffer nilD PGo s = Some s1) as H1 by (unfold pumpRingBuffer; rewrite Erb; simpl; by rewrite Ep, HP).
    assert (pumpRingBuffer nilD PDone s1 = Some (stopPump o s1)) as H2.
    { unfold pumpRingBuffer, s1. simpl. rewrite Hd. by destruct o. }
    destruct (Hstop o s1 (setSub s1 b)) as (b' & s' & Hrest); try done.
    exists [PGo; PDone], b', s'. split; [simpl; lia|]. cbn [fmap list_fmap app].
    rewrite (pump_run id PGo s s1 b) by done. rewrite (pump_run id PDone s1 (stopPump o s1)); [done|done|by apply setSub_lookup|done].
  - destruct (s_ringBuf s) as [rb|] eqn:Erb; [|destruct Hf; congruence].
    destruct (Hstop (Some x) s b) as (b' & s' & Hrest); try done.
    exists [PDone], b', s'. split; [simpl; lia|]. cbn [fmap list_fmap app].
    rewrite (pump_run id PDone s (stopPump (Some x) s)); [done..|]. unfold pumpRingBuffer. rewrite Erb. simpl. by rewrite Ep, Hd.
  - destruct (s_ringBuf s) as [rb|] eqn:Erb; [|destruct Hf; congruence].
    destruct (Hstop None s b) as (b' & s' & Hrest); try done.
    exists [PDone], b', s'. split; [simpl; lia|]. cbn [fmap list_fmap app].
    rewrite (pump_run id PDone s (stopPump None s)); [done..|]. unfold pumpRingBuffer. rewrite Erb. simpl. by rewrite Ep, Hd.
  - destruct (Hrem s b) as (b' & s' & Hrest); try done; [unfold canRemove; by rewrite Hc, Hr, Ep|].
    exists [], b', s'. split; [simpl; lia|done].
Qed.

(** C17: no subscription gets stuck. In every reachable state of a running process: an open
    subscription with messages can hand its oldest one to its consumer after at most two
    steps of its own pump (a waiting pump has always been notified), without help from
    other goroutines; an open subscription whose lock is free can be cancelled; and a
    cancelled one is unregistered after at most two steps of its pump, so [Cancel] and
    [Close] do not wait for ever on it. *)
Theorem broker_progress opts b id s :
  shards_fit opts → reachable nilD opts b → b_crashed b = false → b_subs b !! id = Some s →
  (∀ m rest, s_closed s = false → held s ++ queued s = m :: rest →
     ∃ n b', n ≤ 2 ∧ run nilD (replicate n (LPump id PGo) ++ [LReceive id]) b = Some b' ∧
       b_trace b' = b_trace b ++ [EvReceive id m]) ∧
  (s_closed s = false → s_locked s = false → is_Some (step nilD (LCancel id) b)) ∧
  (s_closed s = true → s_removed s = false →
     ∃ ps b' s', length ps ≤ 2 ∧ run nilD ((LPump id <$> ps) ++ [LRemove id]) b = Some b' ∧
       b_subs b' !! id = Some s' ∧ s_removed s' = true ∧ lookupSub (b_shards b') (s_kind s) (s_topic s) id = None).
Proof.
  intros Hf Hr Hcr Hs. assert (inv b) as Hi by by eapply reachable_inv. split; [|split].
  - intros m rest. by apply oldest_offered.
  - intros Hc Hl. destruct (inv_sub b id s Hi Hs) as [_ Hok]. destruct (cancelLocked_enabled _ s Hok Hl Hc) as [s' E].
    unfold step. rewrite Hcr, Hs. simpl. rewrite E. simpl. eauto.
  - by apply cancel_completes.
Qed.

End properties.

(** ** Concrete runs; payloads are numbers *)

Section runs.
Implicit Types (ls : list (label nat)).

Definition opt (policy : BackpressurePolicy) (size : Z) : SubOptions nat := mkSubOptions size policy 0 false None false.
Definition subscribe (rid : nat) (kind : subKind) (topic : gostring) (opts : SubOptions nat) : list (label nat) :=
  [LSubscribe rid kind topic opts; LRegister rid].
Definition payload (n : nat) : Message nat := mkMessage [] [] [] None n ∅.
(** Publish, look the topic up, and make [n] steps more. *)
Definition publish (tid : nat) (topic : gostring) (n k : nat) : list (label nat) :=
  LPublish tid topic (payload n) 0 true :: replicate k (LTask tid BSend).

Definition after (opts : list Option_) ls : broker nat := default (New []) (run 0 ls (New opts)).

(** Three kinds of subscriptions for one topic, a message delivered to all, received by
    the first. *)
Definition mixed : list (label nat) :=
  subscribe 0 subKindTopic (str "a/b") (opt DropOldest 2) ++ subscribe 1 subKindPattern (str "a/*") (opt DropNewest 1)
  ++ subscribe 2 subKindMQTT (str "a/+") (opt CloseSubscriber 1) ++ publish 7 (str "a/b") 5 7
  ++ [LPump 1%N PGo; LReceive 1%N].

Lemma broker_routes_witness :
  NoDup (targets (after [] mixed) (str "a/b")) ∧
  (∀ id, id ∈ targets (after [] mixed) (str "a/b") ↔
     ∃ s, b_subs (after [] mixed) !! id = Some s ∧ s_removed s = false ∧ meantFor (str "a/b") s ∧
       (s_kind s = subKindMQTT → hasAnyMQTTPatterns (b_shards (after [] mixed)) = true)) ∧
  targets (after [] mixed) (str "a/b") = [1%N; 2%N; 3%N].
Proof.
  assert (run 0 mixed (New []) = Some (after [] mixed)) as Hr by (vm_compute; reflexivity).
  destruct (broker_routes 0 [] mixed (after [] mixed) (str "a/b")) as (H1 & H2 & _);
    [vm_compute; discriminate|exact Hr|vm_compute; intros []|].
  split; [exact H1|]. split; [exact H2|]. vm_compute. reflexivity.
Defined.

(** Two publishers block on one subscription: the first to send has not announced its
    message when the second has, and the consumer has received it already. *)
Definition overtaken : list (label nat) :=
  subscribe 0 subKindTopic (str "a") (opt BlockWithTimeout 2) ++ publish 7 (str "a") 1 3 ++ publish 8 (str "a") 2 4
  ++ [LReceive 1%N].

Lemma broker_conserves_witness :
  let b := after [] overtaken in
  let m1 := stamp (str "a") 0 (payload 1) in
  let m2 := stamp (str "a") 0 (payload 2) in
  sentTo 1 (b_trace b) = [m1; m2] ∧ receivedBy 1 (b_trace b) = [m1] ∧
  deliveredTo 1 (b_trace b) = [m2] ∧ reporting 1 (b_tasks b) = [m1] ∧
  ∃ s, b_subs b !! 1%N = Some s ∧ queued s = [m2] ∧
  sentTo 1 (b_trace b) = receivedBy 1 (b_trace b) ++ queued s ∧
  sentTo 1 (b_trace b) ≡ₚ deliveredTo 1 (b_trace b) ++ reporting 1 (b_tasks b).
Proof.
  cbv zeta. do 4 (split; [vm_compute; reflexivity|]).
  destruct (b_subs (after [] overtaken) !! 1%N) as [s|] eqn:Hs; [|vm_compute in Hs; discriminate].
  exists s. split; [reflexivity|].
  destruct (broker_conserves 0 [] (after [] overtaken) 1%N s) as (_ & _ & H3 & _ & H5 & _);
    [vm_compute; discriminate|exists overtaken; vm_compute; reflexivity|exact Hs|].
  split; [vm_compute in Hs; injection Hs as <-; reflexivity|].
  split; [|exact H5]. apply H3. vm_compute in Hs. injection Hs as <-. reflexivity.
Defined.

Lemma broker_panic_free_witness : b_crashed (after [] mixed) = false ∧ ∀ topic id, EvPanic topic id ∉ b_trace (after [] mixed).
Proof.
  apply (broker_panic_free 0 [] (after [] mixed)); [vm_compute; discriminate|exists mixed; vm_compute; reflexivity|].
  intros id s Hs.
  assert (id = 1%N ∨ id = 2%N ∨ id = 3%N) as Hid.
  { assert (map_Forall (λ i _, i = 1%N ∨ i = 2%N ∨ i = 3%N) (b_subs (after [] mixed))) as Hall;
      [|exact (Hall _ _ Hs)].
    apply map_Forall_to_list. vm_compute.
    repeat (apply List.Forall_cons; [auto|]). constructor. }
  destruct Hid as [->|[->| ->]]; vm_compute in Hs; injection Hs as <-; (split; [vm_compute; discriminate|]); intros; discriminate.
Defined.

(** A message waits in the queue of the first subscription. *)
Definition waiting : list (label nat) :=
  subscribe 0 subKindTopic (str "a") (opt DropOldest 2) ++ [LPump 1%N PGo] ++ publish 7 (str "a") 5 3.

Lemma broker_progress_witness :
  ∃ n b', n ≤ 2 ∧ run 0 (replicate n (LPump 1%N PGo) ++ [LReceive 1%N]) (after [] waiting) = Some b' ∧
    b_trace b' = b_trace (after [] waiting) ++ [EvReceive 1%N (stamp (str "a") 0 (payload 5))].
Proof.
  destruct (b_subs (after [] waiting) !! 1%N) as [s|] eqn:Hs; [|vm_compute in Hs; discriminate].
  destruct (broker_progress 0 [] (after [] waiting) 1%N s) as (H1 & _);
    [vm_compute; discriminate|exists waiting; vm_compute; reflexivity|vm_compute; reflexivity|exact Hs|].
  vm_compute in Hs. injection Hs as <-. apply (H1 _ []); vm_compute; reflexivity.
Defined.

(** The publisher of this run has looked nothing up yet. *)
Definition starting : list (label nat) :=
  subscribe 0 subKindTopic (str "a") (opt DropNewest 2) ++ [LPublish 7 (str "a") (payload 5) 0 true].

Lemma broker_reaches_all_witness :
  is_Some (b_tasks (after [] (starting ++ [LTask 7 BSend])) !! 7).
Proof.
  destruct (b_tasks (after [] starting) !! 7) as [t|] eqn:Ht; [|vm_compute in Ht; discriminate].
  apply (broker_reaches_all 0 [] (after [] starting) (after [] (starting ++ [LTask 7 BSend])) 7 t 1%N subKindTopic (str "a"));
    [vm_compute; discriminate|exists starting; vm_compute; reflexivity|exact Ht|vm_compute in Ht; injection Ht as <-; reflexivity|
     vm_compute in Ht; injection Ht as <-; reflexivity|].
  assert (∀ b : broker nat, (¬ collected b) → (∃ s, b_subs b !! 1%N = Some s ∧ s_kind s = subKindTopic ∧ s_removed s = false ∧ meantFor (str "a") s) →
    (∃ t, b_tasks b !! 7 = Some t ∧ t_ctx t = false) → waitingFor 7 1%N subKindTopic (str "a") b) as Hw.
  { intros b H1 H2 (t0 & Ht0 & Hc). split; [exact H1|]. split; [exact H2|]. split; [discriminate|]. intros t1 Ht1. congruence. }
  assert (waitingFor 7 1%N subKindTopic (str "a") (after [] starting)) as W1.
  { apply Hw; [vm_compute; intros []|eexists; repeat split; vm_compute; reflexivity|eexists; split; vm_compute; reflexivity]. }
  assert (waitingFor 7 1%N subKindTopic (str "a") (after [] (starting ++ [LTask 7 BSend]))) as W2.
  { apply Hw; [vm_compute; intros []|eexists; repeat split; vm_compute; reflexivity|eexists; split; vm_compute; reflexivity]. }
  apply (na_step 0 7 1%N subKindTopic (str "a") _ (LTask 7 BSend) (after [] (starting ++ [LTask 7 BSend])));
    [exact W1| |vm_compute; reflexivity|apply na_refl; exact W2].
  intros [_ (t0 & m & w & Ht0 & Hpc & _)]. vm_compute in Ht0. injection Ht0 as <-. discriminate Hpc.
Defined.

(** ** Where the code falls short *)

(** Two subscriptions of one MQTT pattern: cancelling the first takes the counter to
    zero, and the second gets nothing any more although it is registered. *)
Definition sharedPattern : list (label nat) :=
  subscribe 0 subKindMQTT (str "a/+") (opt DropNewest 4) ++ subscribe 1 subKindMQTT (str "a/+") (opt DropNewest 4)
  ++ [LCancel 1%N; LRemove 1%N].

Lemma shared_mqtt_pattern_lost :
  let b := after [] sharedPattern in
  getMQTTPatternSubscriberCount (str "a/+") (b_shards b) = 1 ∧ mqttPatternCount (b_shards b) = 0%Z ∧
  targets b (str "a/b") = [] ∧ HasSubscribers b (str "a/b") = false.
Proof. vm_compute. repeat split. Qed.

(** Cancelling the second too makes the counter negative: the next subscription of any
    MQTT pattern gets nothing either. *)
Lemma next_mqtt_pattern_lost :
  let b := after [] (sharedPattern ++ [LCancel 2%N; LRemove 2%N] ++ subscribe 2 subKindMQTT (str "q/#") (opt DropNewest 4)) in
  getMQTTPatternSubscriberCount (str "q/#") (b_shards b) = 1 ∧ mqttPatternCount (b_shards b) = 0%Z ∧ targets b (str "q/x") = [].
Proof. vm_compute. repeat split. Qed.

(** A publisher blocked on a full subscription panics when the subscription is cancelled;
    the message is neither delivered nor reported as dropped. Without recovery the
    process crashes. *)
Definition blockedCancel : list (label nat) :=
  subscribe 0 subKindTopic (str "a") (opt BlockWithTimeout 1) ++ publish 7 (str "a") 1 4 ++ publish 8 (str "a") 2 2
  ++ [LCancel 1%N; LTask 8 BSend].

Lemma blocked_publisher_panics :
  (EvPanic (str "a") 1%N ∈ b_trace (after [] blockedCancel)) ∧
  droppedFor 1%N (b_trace (after [] blockedCancel)) = [] ∧
  b_crashed (after [WithPanicRecovery false] blockedCancel) = true.
Proof.
  split; [|vm_compute; split; reflexivity]. apply list_elem_of_lookup. exists 5. vm_compute. reflexivity.
Qed.

(** A subscription that passed the closed check before [Close] and registers after it has
    collected the others stays open for ever. *)
Definition lateSubscribe : list (label nat) :=
  [LSubscribe 0 subKindTopic (str "a") (opt DropNewest 1); LClose; LCollect; LRegister 0].

Lemma late_subscription_survives :
  let b := after [] lateSubscribe in
  b_closing b = Cancelling [] [] ∧ (s_closed <$> b_subs b !! 1%N) = Some false ∧ topicTargets b (str "a") = [1%N].
Proof. vm_compute. repeat split. Qed.

(** The default policy is not applied to the zero value of the options, which is
    drop-oldest itself. *)
Lemma default_policy_ignored :
  Policy (normalizeSubOptions (applyOption (WithDefaultPolicy DropNewest) DefaultConfig) (opt DropOldest 1)) = DropOldest.
Proof. reflexivity. Qed.

End runs.
