(* ===== verification/ConsumerGroup.v ===== *)
(** * Consumer groups ([x/messaging/pubsub/consumergroup.go])

    A group spreads the virtual partitions of its topics over its consumers. Joining
    and leaving start a goroutine each that asks for a rebalance; one of them runs it
    and runs it again when another request came in meanwhile. A rebalance collects the
    topics, creates their partitions, assigns them by one of four strategies and hands
    every consumer its share. A message is taken by the consumers that own the
    partition of its id.

    The state of a group includes the requests that have not started yet and the point
    the running rebalance has reached, so that the goroutines' interleavings are
    sequences of steps. The order in which the maps are walked is an argument. *)

From stdpp Require Import options.
From stdpp Require Import sorting.
From S2P Require Import Prelude GoMap GoStrings GoNumbers GoBytes.

Module ConsumerGroup.

Inductive AssignmentStrategy := RoundRobin | Sticky | Range | ConsistentHash | OtherStrategy (n : Z).

Record ConsumerGroupConfig := MkConfig {
  GroupID : gostring; Strategy : AssignmentStrategy; SessionTimeout : Z; HeartbeatInterval : Z;
  RebalanceTimeout : Z; MaxPartitions : Z; AutoCommit : bool; AutoCommitInterval : Z }.

Definition secs (n : Z) : Z := (n * 1000000000)%Z.
Definition DefaultConsumerGroupConfig (groupID : gostring) : ConsumerGroupConfig :=
  MkConfig groupID RoundRobin (secs 10) (secs 3) (secs 60) 16 true (secs 5).

Inductive cgErr :=
| ErrGroupIDRequired | ErrGroupExists | ErrGroupNotFound | ErrConsumerIDRequired | ErrNoTopics
| ErrConsumerExists | ErrConsumerNotFound | ErrSubscribe | ErrInvalidAssignment | ErrContext.

(** A consumer listens to the subscription of one topic. *)
Record groupConsumer := MkConsumer {
  topics : list gostring; subscription : gostring; assignedParts : gmap gostring (list Z); lastHeartbeat : Z }.

(** Where the goroutine that runs the rebalance is in its loop. *)
Inductive runnerPhase := NotRunning | Starting | Rebalancing | Finishing.

Record consumerGroup := MkGroup {
  config : ConsumerGroupConfig;
  consumers : gmap gostring groupConsumer;
  partitions : gmap gostring (list Z);
  assignments : gmap gostring (gmap Z gostring);
  offsets : gmap gostring (gmap Z Z);
  requests : nat;
  runner : runnerPhase;
  rebalancePending : bool;
  generation : Z
}.

Implicit Types (g : consumerGroup) (order : list gostring).

Definition setConsumers (cs : gmap gostring groupConsumer) (requested : nat) g : consumerGroup :=
  MkGroup (config g) cs (partitions g) (assignments g) (offsets g) (requested + requests g) (runner g)
    (rebalancePending g) (generation g).
Definition setAssign (ps : gmap gostring (list Z)) (a : gmap gostring (gmap Z gostring)) cs g : consumerGroup :=
  MkGroup (config g) cs ps a (offsets g) (requests g) (runner g) (rebalancePending g) (generation g).
Definition setRunner (n : nat) (r : runnerPhase) (pending : bool) (gen : Z) g : consumerGroup :=
  MkGroup (config g) (consumers g) (partitions g) (assignments g) (offsets g) n r pending gen.
Definition setOffsets (o : gmap gostring (gmap Z Z)) g : consumerGroup :=
  MkGroup (config g) (consumers g) (partitions g) (assignments g) o (requests g) (runner g) (rebalancePending g)
    (generation g).

(** ** Assignment *)

Definition sortedIDs (cs : gmap gostring groupConsumer) : list gostring := sort_strings (map_to_list cs).*1.

(** The loop over the partitions of a topic, round robin from a running index. *)
Fixpoint roundRobin (ids : list gostring) (parts : list Z) (idx : nat) (a : gmap Z gostring) : gmap Z gostring * nat :=
  match parts with
  | [] => (a, idx)
  | p :: parts => roundRobin ids parts ((idx + 1) mod length ids) (<[p := nth idx ids []]> a)
  end.
Fixpoint roundRobinTopics (ids : list gostring) (ps : gmap gostring (list Z)) (ts : list gostring) (idx : nat)
    (a : gmap gostring (gmap Z gostring)) : gmap gostring (gmap Z gostring) :=
  match ts with
  | [] => a
  | t :: ts =>
      let '(m, idx) := roundRobin ids (default [] (ps !! t)) idx (default ∅ (a !! t)) in
      roundRobinTopics ids ps ts idx (<[t := m]> a)
  end.
Definition assignRoundRobin (order : list gostring) g : gmap gostring (gmap Z gostring) :=
  let ids := sortedIDs (consumers g) in
  if decide (ids = []) then assignments g
  else roundRobinTopics ids (partitions g) (keysIn order (partitions g)) 0 (assignments g).

(** The other strategies treat each topic on its own. *)
Definition eachTopic (f : gostring → gmap Z gostring → list Z → gmap Z gostring) (order : list gostring) g :
    gmap gostring (gmap Z gostring) :=
  foldl (λ a t, <[t := f t (default ∅ (a !! t)) (default [] (partitions g !! t))]> a)
    (assignments g) (keysIn order (partitions g)).

(** Counters in Go maps read as 0 when missing. *)
Definition at_ (m : gmap gostring nat) (id : gostring) : nat := default 0 (m !! id).
Definition bump (m : gmap gostring nat) (id : gostring) : gmap gostring nat := <[id := S (at_ m id)]> m.
Definition drop1 (m : gmap gostring nat) (id : gostring) : gmap gostring nat := <[id := at_ m id - 1]> m.

(** Phase 1: assignments whose owner is still there. *)
Fixpoint retain (ids : list gostring) (prev : gmap Z gostring) (parts : list Z) (kept : gmap Z gostring)
    (counts : gmap gostring nat) : gmap Z gostring * gmap gostring nat :=
  match parts with
  | [] => (kept, counts)
  | p :: parts =>
      match prev !! p with
      | Some owner =>
          if bool_decide (owner ∈ ids) then retain ids prev parts (<[p := owner]> kept) (bump counts owner)
          else retain ids prev parts kept counts
      | None => retain ids prev parts kept counts
      end
  end.

(** The order of [sort.Slice]: more partitions first, then by id. *)
Definition countBefore (counts : gmap gostring nat) (a b : gostring) : Prop :=
  at_ counts b < at_ counts a ∨ (at_ counts a = at_ counts b ∧ str_le a b).
#[export] Instance countBefore_dec counts : RelDecision (countBefore counts).
Proof. intros a b. unfold countBefore. apply _. Defined.

Definition targets (ids : list gostring) (counts : gmap gostring nat) (minParts extraSlots : nat) : gmap gostring nat :=
  let base := foldl (λ m id, <[id := minParts]> m) (∅ : gmap gostring nat) ids in
  if 0 <? extraSlots
  then foldl (λ m id, <[id := minParts + 1]> m) base (take extraSlots (merge_sort (countBefore counts) ids))
  else base.

(** Phase 2: what is over the target becomes unassigned. *)
Fixpoint revoke (target : gmap gostring nat) (parts : list Z) (kept : gmap Z gostring) (counts : gmap gostring nat)
    (unassigned : list Z) : gmap Z gostring * gmap gostring nat * list Z :=
  match parts with
  | [] => (kept, counts, unassigned)
  | p :: parts =>
      match kept !! p with
      | None => revoke target parts kept counts (unassigned ++ [p])
      | Some owner =>
          if at_ target owner <? at_ counts owner
          then revoke target parts (delete p kept) (drop1 counts owner) (unassigned ++ [p])
          else revoke target parts kept counts unassigned
      end
  end.

(** Phase 3: the rest goes to the least loaded, the first of them in a tie. *)
Fixpoint leastLoaded (counts : gmap gostring nat) (best : gostring) (bestCount : nat) (ids : list gostring) : gostring :=
  match ids with
  | [] => best
  | id :: ids =>
      if at_ counts id <? bestCount then leastLoaded counts id (at_ counts id) ids
      else leastLoaded counts best bestCount ids
  end.
Fixpoint distribute (first : gostring) (rest : list gostring) (unassigned : list Z) (kept : gmap Z gostring)
    (counts : gmap gostring nat) : gmap Z gostring :=
  match unassigned with
  | [] => kept
  | p :: unassigned =>
      let best := leastLoaded counts first (at_ counts first) rest in
      distribute first rest unassigned (<[p := best]> kept) (bump counts best)
  end.

Definition stickyTopic (first : gostring) (rest : list gostring) (prev : gmap Z gostring) (parts : list Z) : gmap Z gostring :=
  let ids := first :: rest in
  let minParts := length parts / length ids in
  let extraSlots := length parts mod length ids in
  let '(kept, counts) := retain ids prev parts ∅ ∅ in
  let target := targets ids counts minParts extraSlots in
  let '(kept, counts, unassigned) := revoke target parts kept counts [] in
  distribute first rest (merge_sort Z.le unassigned) kept counts.

Definition assignSticky (order : list gostring) g : gmap gostring (gmap Z gostring) :=
  match sortedIDs (consumers g) with
  | [] => (λ _, ∅) <$> assignments g
  | first :: rest => eachTopic (λ _, stickyTopic first rest) order g
  end.

(** Contiguous blocks; [parts] are the partitions not handed out yet. *)
Fixpoint rangeBlocks (ids : list gostring) (consumerIdx perConsumer remainder : nat) (parts : list Z)
    (a : gmap Z gostring) : gmap Z gostring :=
  match ids with
  | [] => a
  | id :: ids =>
      let count := perConsumer + (if consumerIdx <? remainder then 1 else 0) in
      rangeBlocks ids (S consumerIdx) perConsumer remainder (drop count parts)
        (foldl (λ a p, <[p := id]> a) a (take count parts))
  end.
Definition assignRange (order : list gostring) g : gmap gostring (gmap Z gostring) :=
  let ids := sortedIDs (consumers g) in
  if decide (ids = []) then assignments g
  else eachTopic (λ _ prev parts,
         rangeBlocks ids 0 (length parts / length ids) (length parts mod length ids) parts prev) order g.

(** The ids are taken in the order of the map here, not sorted. *)
Definition hashOwner (ids : list gostring) (t : gostring) (p : Z) : gostring :=
  nth (Z.to_nat (fnv32a (t ++ ":"%char :: print_Z p) mod Z.of_nat (length ids))) ids [].
Definition assignConsistentHash (order idOrder : list gostring) g : gmap gostring (gmap Z gostring) :=
  let ids := keysIn idOrder (consumers g) in
  if decide (ids = []) then assignments g
  else eachTopic (λ t prev parts, foldl (λ a p, <[p := hashOwner ids t p]> a) prev parts) order g.

(** ** Rebalancing *)

(** The points where the maps are walked, and when the context expires: after how many
    of the checks, if at all. *)
Record run := MkRun { topicOrder : list gostring; idOrder : list gostring; expires : option nat }.
Definition alive (r : run) (check : nat) : bool :=
  match expires r with Some n => check <? n | None => true end.

Definition allTopics (cs : gmap gostring groupConsumer) : list gostring := mjoin (topics <$> (map_to_list cs).*2).

(** The share of one consumer, topic by topic. *)
Definition partsOf (a : gmap gostring (gmap Z gostring)) (id : gostring) : gmap gostring (list Z) :=
  omap (λ m, let ps := (filter (λ kv : Z * gostring, kv.2 = id) (map_to_list m)).*1 in
             if decide (ps = []) then None else Some ps) a.

(** [None] is the panic of [make] on a negative number of partitions. *)
Definition rebalance (r : run) g : option (consumerGroup * option cgErr) :=
  if negb (alive r 0) then Some (g, Some ErrContext)
  else
    let ts := allTopics (consumers g) in
    if negb (alive r 1) then Some (g, Some ErrContext)
    else if (MaxPartitions (config g) <? 0)%Z && negb (bool_decide (ts = [])) then None
    else
      let parts := seqZ 0 (MaxPartitions (config g)) in
      let g := setAssign (foldl (λ m t, <[t := parts]> m) (partitions g) ts) (assignments g) (consumers g) g in
      if negb (alive r 2) then Some (g, Some ErrContext)
      else
        let assigned :=
          match Strategy (config g) with
          | RoundRobin => Some (assignRoundRobin (topicOrder r) g)
          | Sticky => Some (assignSticky (topicOrder r) g)
          | Range => Some (assignRange (topicOrder r) g)
          | ConsistentHash => Some (assignConsistentHash (topicOrder r) (idOrder r) g)
          | OtherStrategy _ => None
          end in
        match assigned with
        | None => Some (g, Some ErrInvalidAssignment)
        | Some a =>
            if negb (alive r 3) then Some (setAssign (partitions g) a (consumers g) g, Some ErrContext)
            else
              let cs := map_imap (λ id c, Some (MkConsumer (topics c) (subscription c) (partsOf a id) (lastHeartbeat c)))
                          (consumers g) in
              Some (setAssign (partitions g) a cs g, None)
        end.

(** [triggerRebalance]: a request that starts, and the three parts of the loop. *)
Definition startRequest g : consumerGroup :=
  match requests g with
  | O => g
  | S n =>
      match runner g with
      | NotRunning => setRunner n Starting (rebalancePending g) (generation g) g
      | r => setRunner n r true (generation g) g
      end
  end.
Definition runnerStep (r : run) g : option consumerGroup :=
  match runner g with
  | NotRunning => Some g
  | Starting => Some (setRunner (requests g) Rebalancing false (generation g) g)
  | Rebalancing =>
      '(g, e) ← rebalance r g;
      Some (setRunner (requests g) Finishing (rebalancePending g)
              (match e with None => wrapu64 (generation g + 1) | Some _ => generation g end) g)
  | Finishing =>
      Some (setRunner (requests g) (if rebalancePending g then Starting else NotRunning) (rebalancePending g)
              (generation g) g)
  end.

(** [checkHeartbeats]: dead consumers leave, and one rebalance is asked for. *)
Definition checkHeartbeats (now : Z) g : consumerGroup :=
  let deadline := (now - SessionTimeout (config g))%Z in
  let dead := filter (λ kv : gostring * groupConsumer, (lastHeartbeat kv.2 < deadline)%Z) (map_to_list (consumers g)) in
  if decide (dead = []) then g
  else setConsumers (foldl (λ cs kv, delete kv.1 cs) (consumers g) dead) 1 g.

Definition Heartbeat (id : gostring) (now : Z) g : consumerGroup :=
  setConsumers (alter (λ c, MkConsumer (topics c) (subscription c) (assignedParts c) now) id (consumers g)) 0 g.

(** [shouldProcess]: the partition comes from the message id; any of the consumer's
    topics may own it. *)
Definition partitionOf (cfg : ConsumerGroupConfig) (msgID : gostring) : Z := Z.rem (fnv32a msgID) (MaxPartitions cfg).
Definition shouldProcess (id : gostring) (c : groupConsumer) (msgID : gostring) g : bool :=
  existsb (λ t, match assignments g !! t with
                | Some a => bool_decide (a !! partitionOf (config g) msgID = Some id)
                | None => false
                end) (topics c).

(** ** The manager *)

Record ConsumerGroupManager := MkManager { groups : gmap gostring consumerGroup; commits : Z }.
Implicit Types (cgm : ConsumerGroupManager).
Definition NewConsumerGroupManager : ConsumerGroupManager := MkManager ∅ 0.

Definition orDefault (d v : Z) : Z := if (v =? 0)%Z then d else v.
Definition CreateGroup (c : ConsumerGroupConfig) cgm : ConsumerGroupManager * option cgErr :=
  if decide (GroupID c = []) then (cgm, Some ErrGroupIDRequired)
  else
    let c := MkConfig (GroupID c) (Strategy c) (orDefault (secs 10) (SessionTimeout c)) (orDefault (secs 3) (HeartbeatInterval c))
               (orDefault (secs 60) (RebalanceTimeout c)) (orDefault 16 (MaxPartitions c)) (AutoCommit c)
               (orDefault (secs 5) (AutoCommitInterval c)) in
    match groups cgm !! GroupID c with
    | Some _ => (cgm, Some ErrGroupExists)
    | None => (MkManager (<[GroupID c := MkGroup c ∅ ∅ ∅ ∅ 0 NotRunning false 0]> (groups cgm)) (commits cgm), None)
    end.

Definition onGroup (groupID : gostring) cgm (f : consumerGroup → consumerGroup * option cgErr) :
    ConsumerGroupManager * option cgErr :=
  match groups cgm !! groupID with
  | None => (cgm, Some ErrGroupNotFound)
  | Some g => let '(g, e) := f g in (MkManager (<[groupID := g]> (groups cgm)) (commits cgm), e)
  end.

(** [JoinGroup]; [subErr] is what the broker's [Subscribe] answers for the first topic. *)
Definition join (consumerID : gostring) (ts : list gostring) (subErr : bool) (now : Z) g : consumerGroup * option cgErr :=
  if decide (consumerID = []) then (g, Some ErrConsumerIDRequired)
  else match ts with
       | [] => (g, Some ErrNoTopics)
       | t :: _ =>
           match consumers g !! consumerID with
           | Some _ => (g, Some ErrConsumerExists)
           | None =>
               if subErr then (g, Some ErrSubscribe)
               else (setConsumers (<[consumerID := MkConsumer ts t ∅ now]> (consumers g)) 1 g, None)
           end
       end.
Definition JoinGroup (groupID consumerID : gostring) ts subErr now cgm :=
  onGroup groupID cgm (join consumerID ts subErr now).

Definition leave (consumerID : gostring) g : consumerGroup * option cgErr :=
  match consumers g !! consumerID with
  | None => (g, Some ErrConsumerNotFound)
  | Some _ => (setConsumers (delete consumerID (consumers g)) 1 g, None)
  end.
Definition LeaveGroup (groupID consumerID : gostring) cgm := onGroup groupID cgm (leave consumerID).

Definition CommitOffset (groupID topic : gostring) (partition offset : Z) cgm : ConsumerGroupManager * option cgErr :=
  match groups cgm !! groupID with
  | None => (cgm, Some ErrGroupNotFound)
  | Some g =>
      let m := <[partition := offset]> (default ∅ (offsets g !! topic)) in
      (MkManager (<[groupID := setOffsets (<[topic := m]> (offsets g)) g]> (groups cgm)) (wrapu64 (commits cgm + 1)), None)
  end.
Definition GetOffset (groupID topic : gostring) (partition : Z) cgm : result cgErr Z :=
  match groups cgm !! groupID with
  | None => Err ErrGroupNotFound
  | Some g => Ok (match offsets g !! topic with None => 0 | Some m => default 0 (m !! partition) end)%Z
  end.
Definition DeleteGroup (groupID : gostring) cgm : ConsumerGroupManager * option cgErr :=
  match groups cgm !! groupID with
  | None => (cgm, Some ErrGroupNotFound)
  | Some _ => (MkManager (delete groupID (groups cgm)) (commits cgm), None)
  end.
End ConsumerGroup.
