(* ===== verification/ConsumerGroupFacts.v ===== *)
(** * How the strategies assign partitions

    For each strategy: every partition of a topic gets an owner among the consumers;
    round robin, range and sticky keep the loads of any two consumers within one of
    each other; sticky leaves with each consumer as many of its previous partitions as
    a fair share allows. *)

From stdpp Require Import options.
From stdpp Require Import sorting.
From S2P Require Import Prelude GoMap GoStrings GoNumbers GoBytes ConsumerGroup.
Import ConsumerGroup.

(** ** Loads *)

(** How many of the partitions [parts] belong to [id]. *)
Definition load (m : gmap Z gostring) (parts : list Z) (id : gostring) : nat :=
  length (filter (λ p, m !! p = Some id) parts).
Definition covers (ids : list gostring) (parts : list Z) (m : gmap Z gostring) : Prop :=
  ∀ p, p ∈ parts → ∃ id, m !! p = Some id ∧ id ∈ ids.
Definition balanced (ids : list gostring) (parts : list Z) (m : gmap Z gostring) : Prop :=
  ∀ id, id ∈ ids → length parts / length ids ≤ load m parts id ≤ length parts / length ids + 1.

Lemma load_cons m p parts id : load m (p :: parts) id = (if decide (m !! p = Some id) then 1 else 0) + load m parts id.
Proof. unfold load. rewrite filter_cons. by case_decide. Qed.

Lemma load_app m l1 l2 id : load m (l1 ++ l2) id = load m l1 id + load m l2 id.
Proof. unfold load. by rewrite filter_app, length_app. Qed.

(** Filters compared element by element. *)
Lemma filter_length_mono {A} (P Q : A → Prop) `{!∀ x, Decision (P x), !∀ x, Decision (Q x)} (l : list A) :
  (∀ x, x ∈ l → P x → Q x) → length (filter P l) ≤ length (filter Q l).
Proof.
  induction l as [|x l IH]; intros Hl; [done|]. rewrite !filter_cons.
  specialize (IH ltac:(intros y Hy; apply Hl; by right)). pose proof (Hl x ltac:(by left)).
  repeat case_decide; simpl; first [lia | tauto].
Qed.

Lemma load_iff m m' parts id : (∀ p, p ∈ parts → m !! p = Some id ↔ m' !! p = Some id) → load m parts id = load m' parts id.
Proof. intros H. apply Nat.le_antisymm; apply filter_length_mono; naive_solver. Qed.
Lemma load_ext m m' parts id : (∀ p, p ∈ parts → m !! p = m' !! p) → load m parts id = load m' parts id.
Proof. intros H. apply load_iff. intros p Hp. by rewrite H. Qed.

Lemma load_zero m parts id : (∀ p, p ∈ parts → m !! p ≠ Some id) → load m parts id = 0.
Proof.
  induction parts as [|p parts IH]; intros H; [done|]. rewrite load_cons, IH by (intros; apply H; by right).
  by rewrite decide_False by (apply H; by left).
Qed.

Lemma load_delete m parts p id : NoDup parts → p ∈ parts →
  load m parts id = load (delete p m) parts id + (if decide (m !! p = Some id) then 1 else 0).
Proof.
  intros Hnd Hp. apply list_elem_of_split in Hp as (l1 & l2 & ->).
  apply NoDup_app in Hnd as (_ & H1 & [H2 _]%NoDup_cons).
  rewrite !load_app, !load_cons, lookup_delete_eq, (decide_False (P := None = Some id)) by done.
  assert (Hout : ∀ l, p ∉ l → load (delete p m) l id = load m l id).
  { intros l Hl. apply load_ext. intros q Hq. apply lookup_delete_ne. by intros <-. }
  rewrite !Hout; [lia|done|]. intros Hl. apply (H1 p Hl). by left.
Qed.

Lemma load_insert m parts p o id : NoDup parts → p ∈ parts →
  load (<[p := o]> m) parts id = load (delete p m) parts id + (if decide (o = id) then 1 else 0).
Proof.
  intros Hnd Hp. rewrite (load_delete _ parts p) by done. rewrite delete_insert_eq, lookup_insert_eq.
  by rewrite (decide_ext _ (o = id)) by naive_solver.
Qed.

Lemma load_fresh m parts p o id : NoDup parts → p ∈ parts → m !! p = None →
  load (<[p := o]> m) parts id = load m parts id + (if decide (o = id) then 1 else 0).
Proof. intros Hnd Hp Hm. by rewrite load_insert, delete_id. Qed.

(** The loads add up to the number of assigned partitions. *)
Lemma sum_indicator (ids : list gostring) id : NoDup ids →
  sum_list_with (λ i, if decide (id = i) then 1 else 0) ids = if decide (id ∈ ids) then 1 else 0.
Proof.
  induction 1 as [|i ids Hi Hnd IH]; [done|]. simpl. rewrite IH.
  repeat case_decide; set_solver.
Qed.

Lemma sum_list_with_plus {A} (f g : A → nat) l : sum_list_with (λ x, f x + g x) l = sum_list_with f l + sum_list_with g l.
Proof. induction l as [|x l IH]; simpl; lia. Qed.
Lemma sum_list_with_ext {A} (f g : A → nat) l : (∀ x, x ∈ l → f x = g x) → sum_list_with f l = sum_list_with g l.
Proof. induction l as [|x l IH]; intros H; simpl; [done|]. rewrite H, IH; [done|intros; apply H; by right|by left]. Qed.

Lemma sum_loads ids m parts : NoDup ids → (∀ p id, m !! p = Some id → id ∈ ids) →
  sum_list_with (load m parts) ids = length (filter (λ p, is_Some (m !! p)) parts).
Proof.
  intros Hnd Hm. induction parts as [|p parts IH].
  { simpl. clear. by induction ids. }
  rewrite (sum_list_with_ext _ (λ id, (if decide (m !! p = Some id) then 1 else 0) + load m parts id)) by (intros; apply load_cons).
  rewrite sum_list_with_plus, IH, filter_cons. destruct (m !! p) as [o|] eqn:Ho.
  - rewrite (sum_list_with_ext _ (λ i, if decide (o = i) then 1 else 0)), sum_indicator by
      (done || intros; apply decide_ext; naive_solver).
    rewrite decide_True by (by eapply Hm). by rewrite decide_True by (by eexists).
  - rewrite decide_False by (by intros [? ?]). rewrite (sum_list_with_ext _ (λ _, 0)); [|by intros; rewrite decide_False].
    clear. by induction ids.
Qed.

(** ** Round robin *)

Lemma roundRobin_lookup ids parts idx a p : idx < length ids → NoDup parts →
  (roundRobin ids parts idx a).2 < length ids ∧
  (p ∉ parts → (roundRobin ids parts idx a).1 !! p = a !! p) ∧
  ∀ i, parts !! i = Some p → (roundRobin ids parts idx a).1 !! p = Some (nth ((idx + i) mod length ids) ids []).
Proof.
  intros Hidx Hnd. revert idx a Hidx. induction Hnd as [|q parts Hq Hnd IH]; intros idx a Hidx; simpl; [done|].
  assert (Hlt : (idx + 1) mod length ids < length ids) by (apply Nat.mod_upper_bound; lia).
  destruct (IH ((idx + 1) mod length ids) (<[q := nth idx ids []]> a) Hlt) as (Hr & Hout & Hin).
  split; [done|]. split.
  - intros Hp. rewrite Hout by set_solver. apply lookup_insert_ne. set_solver.
  - intros [|i] Hi; simpl in Hi.
    + simplify_eq. rewrite Hout by done. rewrite lookup_insert_eq, Nat.add_0_r, Nat.mod_small by done. done.
    + rewrite (Hin i Hi). rewrite Nat.Div0.add_mod_idemp_l. do 3 f_equal. lia.
Qed.

(** The partitions at positions [idx], [idx + 1], ... of the circle that fall on [j]. *)
Definition hits (n idx k j : nat) : nat := length (filter (λ i, (idx + i) mod n = j) (seq 0 k)).

Lemma hits_exact n idx k j : idx < n → j < n →
  hits n idx k j = k / n + (if (j + (n - idx)) mod n <? k mod n then 1 else 0).
Proof.
  intros Hidx Hj. induction k as [|k IH].
  { unfold hits. simpl. rewrite Nat.Div0.div_0_l, Nat.Div0.mod_0_l. done. }
  unfold hits in *. rewrite seq_S, filter_app, length_app, IH. simpl. clear IH.
  set (x := (j + (n - idx)) mod n). assert (Hx : x < n) by (apply Nat.mod_upper_bound; lia).
  assert (Hiff : (idx + k) mod n = j ↔ x = k mod n).
  { unfold x. split.
    - intros <-. rewrite Nat.Div0.add_mod_idemp_l. replace (idx + k + (n - idx)) with (k + 1 * n) by lia.
      by rewrite Nat.Div0.mod_add.
    - intros Heq. rewrite <- Nat.Div0.add_mod_idemp_r, <- Heq, Nat.Div0.add_mod_idemp_r.
      replace (idx + (j + (n - idx))) with (j + 1 * n) by lia. rewrite Nat.Div0.mod_add. by apply Nat.mod_small. }
  pose proof (Nat.div_mod k n ltac:(lia)) as Hk. pose proof (Nat.mod_upper_bound k n ltac:(lia)) as Hr.
  rewrite filter_cons, filter_nil. rewrite (decide_ext _ (x = k mod n)) by done.
  destruct (decide (S (k mod n) = n)) as [Hwrap|Hwrap].
  - assert (S k / n = S (k / n) ∧ S k mod n = 0) as [-> ->].
    { assert (Hsk : S k = n * S (k / n)) by nia. split.
      - rewrite Hsk. rewrite Nat.mul_comm. by rewrite Nat.div_mul by lia.
      - rewrite Hsk, Nat.mul_comm. apply Nat.Div0.mod_mul. }
    destruct (Nat.ltb_spec x (k mod n)), (Nat.ltb_spec x 0); case_decide; simpl; lia.
  - assert (S k / n = k / n ∧ S k mod n = S (k mod n)) as [-> ->].
    { split; symmetry; [apply (Nat.div_unique _ _ _ (S (k mod n)))|apply (Nat.mod_unique _ _ (k / n))]; lia. }
    destruct (Nat.ltb_spec x (k mod n)), (Nat.ltb_spec x (S (k mod n))); case_decide; simpl; lia.
Qed.

Lemma nodup_nth (ids : list gostring) i j : NoDup ids → i < length ids → j < length ids →
  nth i ids [] = nth j ids [] → i = j.
Proof. intros Hnd Hi Hj. apply (proj1 (List.NoDup_nth ids []) ltac:(by apply NoDup_ListNoDup)); done. Qed.

Lemma load_as_hits ids m parts idx id j : NoDup ids → ids !! j = Some id → idx < length ids →
  (∀ i p, parts !! i = Some p → m !! p = Some (nth ((idx + i) mod length ids) ids [])) →
  load m parts id = hits (length ids) idx (length parts) j.
Proof.
  intros Hnd Hj Hidx. induction parts as [|p parts IH] using rev_ind; intros Hm; [done|].
  pose proof (lookup_lt_Some _ _ _ Hj) as Hlt.
  rewrite load_app, IH by (intros i q Hi; apply Hm; rewrite lookup_app_l; [done|by eapply lookup_lt_Some]).
  unfold hits. rewrite length_app, Nat.add_1_r, seq_S, filter_app, length_app. f_equal. simpl.
  rewrite load_cons, filter_cons, (Hm (length parts) p) by (by rewrite lookup_app_r, Nat.sub_diag).
  assert (Hiff : Some (nth ((idx + length parts) mod length ids) ids []) = Some id ↔ (idx + length parts) mod length ids = j).
  { assert (Hb : (idx + length parts) mod length ids < length ids) by (apply Nat.mod_upper_bound; lia).
    assert (Hid : id = nth j ids []) by (symmetry; by apply nth_lookup_Some). split; [|by intros ->; rewrite Hid].
    intros [= Heq]. apply (nodup_nth ids); congruence. }
  rewrite (decide_ext _ _ _ _ Hiff). by case_decide.
Qed.

Lemma roundRobin_ok ids parts idx a : NoDup ids → NoDup parts → idx < length ids →
  covers ids parts (roundRobin ids parts idx a).1 ∧ balanced ids parts (roundRobin ids parts idx a).1.
Proof.
  intros Hids Hnd Hidx. split.
  - intros p [i Hi]%list_elem_of_lookup. destruct (roundRobin_lookup ids parts idx a p Hidx Hnd) as (_ & _ & Hin).
    rewrite (Hin i Hi). eexists. split; [done|].
    apply list_elem_of_In, nth_In, Nat.mod_upper_bound. lia.
  - intros id [j Hj]%list_elem_of_lookup. pose proof (lookup_lt_Some _ _ _ Hj).
    rewrite (load_as_hits ids _ parts idx id j); try done.
    + rewrite hits_exact by done. case_match; lia.
    + intros i p Hi. destruct (roundRobin_lookup ids parts idx a p Hidx Hnd) as (_ & _ & Hin). by apply Hin.
Qed.

(** ** Range and consistent hashing *)

Lemma foldl_insert_lookup (f : Z → gostring) (parts : list Z) (a : gmap Z gostring) (p : Z) :
  foldl (λ a p, <[p := f p]> a) a parts !! p = if decide (p ∈ parts) then Some (f p) else a !! p.
Proof.
  revert a. induction parts as [|q parts IH]; intros a; simpl; [done|].
  rewrite IH. destruct (decide (p ∈ parts)).
  - rewrite decide_True; [done|]. by right.
  - destruct (decide (p = q)) as [->|].
    + rewrite decide_True by left. by rewrite lookup_insert_eq.
    + rewrite decide_False by set_solver. by rewrite lookup_insert_ne by congruence.
Qed.

Lemma load_const m parts o id : (∀ p, p ∈ parts → m !! p = Some o) →
  load m parts id = if decide (o = id) then length parts else 0.
Proof.
  induction parts as [|p parts IH]; intros Hm; [by case_decide|]. rewrite load_cons, IH by (intros; apply Hm; by right).
  rewrite Hm by left. repeat case_decide; simplify_eq/=; congruence.
Qed.

Lemma rangeBlocks_ok ids ci q r parts a : NoDup ids → NoDup parts → r ≤ ci + length ids →
  length parts = q * length ids + (r - ci) →
  (∀ p, p ∉ parts → rangeBlocks ids ci q r parts a !! p = a !! p) ∧
  covers ids parts (rangeBlocks ids ci q r parts a) ∧
  ∀ i id, ids !! i = Some id → load (rangeBlocks ids ci q r parts a) parts id = q + (if ci + i <? r then 1 else 0).
Proof.
  intros Hids. revert ci parts a. induction Hids as [|id ids Hid Hids IH]; intros ci parts a Hnd Hr Hlen.
  { simpl in *. assert (parts = []) as -> by (apply nil_length_inv; lia). by split_and!; [|intros p Hp%not_elem_of_nil|]. }
  cbn [rangeBlocks]. set (count := q + (if ci <? r then 1 else 0)). simpl length in *.
  assert (Hcount : count + (q * length ids + (r - S ci)) = length parts).
  { unfold count. destruct (Nat.ltb_spec ci r); lia. }
  assert (Hsplit : NoDup (take count parts ++ drop count parts)) by by rewrite take_drop.
  apply NoDup_app in Hsplit as (Hnd1 & Hdisj & Hnd2).
  destruct (IH (S ci) (drop count parts) (foldl (λ a p, <[p := id]> a) a (take count parts)) Hnd2) as (Hout & Hcov & Hload);
    [lia|rewrite length_drop; lia|].
  set (m := rangeBlocks _ _ _ _ _ _) in *.
  assert (Hfirst : ∀ p, p ∈ take count parts → m !! p = Some id).
  { intros p Hp. rewrite Hout by (by apply Hdisj). rewrite (foldl_insert_lookup (λ _, id)). by rewrite decide_True. }
  assert (Hparts : ∀ p, p ∈ parts ↔ p ∈ take count parts ∨ p ∈ drop count parts).
  { intros p. by rewrite <- elem_of_app, take_drop. }
  split_and!.
  - intros p Hp. rewrite Hparts in Hp. rewrite Hout by tauto. rewrite (foldl_insert_lookup (λ _, id)).
    rewrite decide_False; [done|tauto].
  - intros p [Hp|Hp]%Hparts.
    + exists id. split; [by apply Hfirst|by left].
    + destruct (Hcov p Hp) as (o & Ho & Hin). exists o. split; [done|by right].
  - intros i id' Hi. rewrite <- (take_drop count parts) at 1. rewrite load_app, (load_const _ (take count parts) id) by done.
    destruct i as [|i]; simpl in Hi.
    + simplify_eq. rewrite decide_True, length_take by done.
      assert (load m (drop count parts) id' = 0) as ->; [|rewrite !Nat.add_0_r; fold count; lia].
      apply load_zero. intros p Hp Heq. destruct (Hcov p Hp) as (o & Ho & Hin). by simplify_eq.
    + rewrite decide_False; [|intros ->; apply Hid, list_elem_of_lookup; by eexists]. simpl.
      rewrite (Hload i id' Hi). f_equal. by rewrite Nat.add_succ_r.
Qed.

Lemma hashOwner_elem ids t p : ids ≠ [] → hashOwner ids t p ∈ ids.
Proof.
  intros Hne. assert (length ids ≠ 0) by (by intros ?%nil_length_inv). apply list_elem_of_In, nth_In.
  pose proof (Z.mod_pos_bound (fnv32a (t ++ ":"%char :: print_Z p)) (Z.of_nat (length ids)) ltac:(lia)). lia.
Qed.

(** ** Sticky *)

(** The counters agree with the map, whose owners are consumers. *)
Definition agree (ids : list gostring) (all : list Z) (counts : gmap gostring nat) (kept : gmap Z gostring) : Prop :=
  (∀ id, id ∈ ids → at_ counts id = load kept all id) ∧
  ∀ p id, kept !! p = Some id → p ∈ all ∧ id ∈ ids.

Lemma at_bump counts o id : at_ (bump counts o) id = at_ counts id + (if decide (o = id) then 1 else 0).
Proof.
  unfold bump, at_. case_decide as H; [subst; rewrite lookup_insert_eq; simpl; lia|]. rewrite lookup_insert_ne by done. lia.
Qed.
Lemma at_drop1 counts o id : at_ (drop1 counts o) id = at_ counts id - (if decide (o = id) then 1 else 0).
Proof.
  unfold drop1, at_. case_decide as H; [subst; by rewrite lookup_insert_eq|]. rewrite lookup_insert_ne by done. lia.
Qed.

Lemma agree_insert ids all counts kept p o : NoDup all → agree ids all counts kept → p ∈ all → kept !! p = None → o ∈ ids →
  agree ids all (bump counts o) (<[p := o]> kept).
Proof.
  intros Hnd [Hc Hk] Hp Hn Ho. split.
  - intros id Hid. by rewrite at_bump, load_fresh, Hc.
  - intros q id. destruct (decide (p = q)) as [->|]; [rewrite lookup_insert_eq; naive_solver|].
    rewrite lookup_insert_ne by done. apply Hk.
Qed.

Lemma agree_delete ids all counts kept p o : NoDup all → agree ids all counts kept → kept !! p = Some o →
  agree ids all (drop1 counts o) (delete p kept).
Proof.
  intros Hnd [Hc Hk] Hp. destruct (Hk p o Hp) as [Hin Ho]. split.
  - intros id Hid. rewrite at_drop1, Hc by done. rewrite (load_delete kept all p) by done. rewrite Hp.
    rewrite (decide_ext (Some o = Some id) (o = id)) by naive_solver. case_decide; lia.
  - intros q id. rewrite lookup_delete_Some. naive_solver.
Qed.

(** Phase 1 keeps exactly the assignments to consumers that are still there. *)
Lemma retain_ok ids prev all parts kept counts : NoDup all → NoDup parts → (∀ p, p ∈ parts → p ∈ all ∧ kept !! p = None) →
  agree ids all counts kept →
  let '(kept', counts') := retain ids prev parts kept counts in
  agree ids all counts' kept' ∧
  ∀ p, kept' !! p = if decide (p ∈ parts) then o ← prev !! p; if bool_decide (o ∈ ids) then Some o else None else kept !! p.
Proof.
  intros Hall Hnd. revert kept counts. induction Hnd as [|q parts Hq Hnd IH]; intros kept counts Hp Hag; simpl; [done|].
  destruct (Hp q) as [Hqa Hqk]; [left|].
  assert (Hskip : (o ← prev !! q; if bool_decide (o ∈ ids) then Some o else None) = None →
    let '(kept', counts') := retain ids prev parts kept counts in agree ids all counts' kept' ∧
    ∀ p, kept' !! p = if decide (p ∈ q :: parts) then o ← prev !! p; if bool_decide (o ∈ ids) then Some o else None else kept !! p).
  { intros Hnone. specialize (IH kept counts). destruct (retain ids prev parts kept counts) as [kept' counts'].
    destruct IH as [Hag' Hk']; [intros p Hpp; apply Hp; by right|done|]. split; [done|]. intros p. rewrite Hk'.
    destruct (decide (p = q)) as [->|]; [|rewrite (decide_ext (p ∈ q :: parts) (p ∈ parts)) by set_solver; done].
    rewrite decide_False, decide_True by (done || left). by rewrite Hnone. }
  destruct (prev !! q) as [o|] eqn:Hprev; [|by apply Hskip]. simpl in Hskip.
  destruct (bool_decide (o ∈ ids)) eqn:Ho; [|by apply Hskip]. apply bool_decide_eq_true in Ho.
  specialize (IH (<[q := o]> kept) (bump counts o)). destruct (retain ids prev parts _ _) as [kept' counts'].
  destruct IH as [Hag' Hk'].
  { intros p Hpp. destruct (Hp p) as [? ?]; [by right|]. rewrite lookup_insert_ne by (by intros ->). done. }
  { by apply agree_insert. }
  split; [done|]. intros p. rewrite Hk'. destruct (decide (p = q)) as [->|].
  - rewrite decide_False, decide_True by (done || left). rewrite lookup_insert_eq, Hprev. simpl. by rewrite bool_decide_true.
  - rewrite lookup_insert_ne by done. by rewrite (decide_ext (p ∈ q :: parts) (p ∈ parts)) by set_solver.
Qed.

(** Phase 2 revokes only, down to the target but not below it. *)
Lemma revoke_ok ids target all parts kept counts un : NoDup all → NoDup parts → (∀ p, p ∈ parts → p ∈ all) →
  agree ids all counts kept →
  let '(kept', counts', un') := revoke target parts kept counts un in
  agree ids all counts' kept' ∧ kept' ⊆ kept ∧
  (∀ p, p ∉ parts → kept' !! p = kept !! p) ∧
  (∃ l, un' = un ++ l ∧ NoDup l ∧ ∀ p, p ∈ l ↔ p ∈ parts ∧ kept' !! p = None) ∧
  ∀ id, id ∈ ids → at_ counts id `min` at_ target id ≤ at_ counts' id ∧
    at_ counts' id ≤ at_ target id `max` (at_ counts id - load kept parts id).
Proof.
  intros Hall Hnd. revert kept counts un. induction Hnd as [|q parts Hq Hnd IH]; intros kept counts un Hp Hag; simpl.
  { split_and!; try done.
    - exists []. rewrite app_nil_r. split_and!; [done|constructor|]. intros p. split; [by intros ?%not_elem_of_nil|].
      intros [?%not_elem_of_nil _]. done.
    - intros id _. unfold load. simpl. lia. }
  assert (Hp' : ∀ p, p ∈ parts → p ∈ all) by (intros; apply Hp; by right).
  destruct (kept !! q) as [o|] eqn:Hk.
  - destruct (proj2 Hag q o Hk) as [_ Ho].
    destruct (Nat.ltb_spec (at_ target o) (at_ counts o)) as [Hlt|Hge].
    + specialize (IH (delete q kept) (drop1 counts o) (un ++ [q]) Hp').
      destruct (revoke _ _ _ _ _) as [[kept' counts'] un'].
      destruct IH as (Hag' & Hsub & Hout & (l & -> & Hl & Hun) & Hb); [by apply agree_delete|].
      assert (Hkq : kept' !! q = None) by (rewrite Hout by done; apply lookup_delete_eq).
      split_and!; [done|by etrans; [|apply delete_subseteq]| | |].
      * intros p Hpp. rewrite Hout by set_solver. apply lookup_delete_ne. set_solver.
      * exists (q :: l). rewrite <- app_assoc. split_and!; [done| |].
        { constructor; [|done]. rewrite Hun. tauto. }
        intros p. rewrite !elem_of_cons, Hun. naive_solver.
      * intros id Hid. destruct (Hb id Hid) as [H1 H2]. rewrite at_drop1 in *. rewrite load_cons, Hk.
        rewrite (decide_ext (Some o = Some id) (o = id)) by naive_solver.
        assert (load (delete q kept) parts id = load kept parts id) as Hld.
        { apply load_ext. intros p Hpp. apply lookup_delete_ne. by intros ->. }
        rewrite Hld in H2. case_decide; subst; lia.
    + specialize (IH kept counts un Hp' Hag). destruct (revoke _ _ _ _ _) as [[kept' counts'] un'].
      destruct IH as (Hag' & Hsub & Hout & (l & -> & Hl & Hun) & Hb).
      assert (Hkq : kept' !! q = Some o) by (by rewrite Hout).
      split_and!; [done|done|intros p Hpp; apply Hout; set_solver| |].
      * exists l. split_and!; [done|done|]. intros p. rewrite Hun, elem_of_cons. split; [naive_solver|].
        intros [[->|?] ?]; [congruence|done].
      * intros id Hid. destruct (Hb id Hid) as [H1 H2]. rewrite load_cons, Hk. case_decide; simplify_eq; lia.
  - specialize (IH kept counts (un ++ [q]) Hp' Hag). destruct (revoke _ _ _ _ _) as [[kept' counts'] un'].
    destruct IH as (Hag' & Hsub & Hout & (l & -> & Hl & Hun) & Hb).
    split_and!; [done|done|intros p Hpp; apply Hout; set_solver| |].
    + exists (q :: l). rewrite <- app_assoc. split_and!; [done|constructor; [rewrite Hun; tauto|done]|].
      intros p. rewrite !elem_of_cons, Hun. split; [|naive_solver]. intros [->|?]; [|naive_solver]. by rewrite Hout; auto.
    + intros id Hid. destruct (Hb id Hid) as [H1 H2]. rewrite load_cons, Hk. simpl. lia.
Qed.

Lemma filter_total {A} (P : A → Prop) `{!∀ x, Decision (P x)} (l : list A) : (∀ x, x ∈ l → P x) → filter P l = l.
Proof.
  induction l as [|x l IH]; intros Hl; [done|]. rewrite filter_cons, decide_True by (apply Hl; left).
  f_equal. apply IH. intros y Hy. apply Hl. by right.
Qed.

(** Phase 3. *)
Lemma leastLoaded_ok counts best rest :
  leastLoaded counts best (at_ counts best) rest ∈ best :: rest ∧
  ∀ id, id ∈ best :: rest → at_ counts (leastLoaded counts best (at_ counts best) rest) ≤ at_ counts id.
Proof.
  revert best. induction rest as [|i rest IH]; intros best; simpl.
  { split; [by left|]. by intros id ->%list_elem_of_singleton. }
  destruct (Nat.ltb_spec (at_ counts i) (at_ counts best)).
  - destruct (IH i) as [Hin Hle]. split; [by right|]. intros id [->|Hid]%elem_of_cons; [|by apply Hle].
    etrans; [apply (Hle i); left|lia].
  - destruct (IH best) as [Hin Hle]. split; [set_solver|]. intros id [->|[->|Hid]%elem_of_cons]%elem_of_cons.
    + apply Hle. by left.
    + etrans; [apply (Hle best); left|lia].
    + apply Hle. by right.
Qed.

(** Loads that can still be evened out: nobody above [q + 1], and either nobody below
    [q] or no more than [e] at [q + 1]. *)
Definition above (q : nat) (counts : gmap gostring nat) (ids : list gostring) : nat :=
  length (filter (λ id, at_ counts id = q + 1) ids).
Definition level (q e : nat) (ids : list gostring) (counts : gmap gostring nat) : Prop :=
  (∀ id, id ∈ ids → at_ counts id ≤ q + 1) ∧ ((∀ id, id ∈ ids → q ≤ at_ counts id) ∨ above q counts ids ≤ e).

Lemma sum_low q counts ids : (∀ id, id ∈ ids → q + 1 ≤ at_ counts id) → (q + 1) * length ids ≤ sum_list_with (at_ counts) ids.
Proof.
  induction ids as [|i ids IH]; intros H; simpl; [lia|]. pose proof (H i ltac:(by left)).
  assert (∀ id, id ∈ ids → q + 1 ≤ at_ counts id) by (intros; apply H; by right). specialize (IH ltac:(done)). lia.
Qed.

Lemma sum_high q counts ids : (∀ id, id ∈ ids → at_ counts id ≤ q + 1) →
  sum_list_with (at_ counts) ids + length (filter (λ id, at_ counts id < q) ids) ≤ q * length ids + above q counts ids.
Proof.
  unfold above. induction ids as [|i ids IH]; intros H; [simpl; lia|]. pose proof (H i ltac:(by left)).
  assert (∀ id, id ∈ ids → at_ counts id ≤ q + 1) by (intros; apply H; by right). specialize (IH ltac:(done)).
  rewrite !filter_cons. simpl. repeat case_decide; simpl; lia.
Qed.

Lemma level_bump q e ids counts best : level q e ids counts → best ∈ ids →
  (∀ id, id ∈ ids → at_ counts best ≤ at_ counts id) → sum_list_with (at_ counts) ids < q * length ids + e → e < length ids →
  level q e ids (bump counts best).
Proof.
  intros [Hub Hlow] Hin Hmin Hsum He.
  assert (Hb : at_ counts best ≤ q).
  { destruct (decide (at_ counts best ≤ q)); [done|]. pose proof (sum_low q counts ids) as Hs.
    assert (∀ id, id ∈ ids → q + 1 ≤ at_ counts id) by (intros id Hid; specialize (Hmin id Hid); lia).
    specialize (Hs ltac:(done)). lia. }
  split.
  - intros id Hid. rewrite at_bump. specialize (Hub id Hid). case_decide; subst; lia.
  - destruct (decide (at_ counts best < q)) as [Hlt|Hge]; cycle 1.
    { left. intros id Hid. rewrite at_bump. specialize (Hmin id Hid). lia. }
    right. destruct Hlow as [Hlow|Hlow]; [specialize (Hlow best Hin); lia|].
    etrans; [|done]. unfold above. apply Nat.eq_le_incl. f_equal. apply list_filter_iff. intros id. rewrite at_bump.
    case_decide; subst; lia.
Qed.

Lemma distribute_ok first rest all un kept counts q e : let ids := first :: rest in
  NoDup ids → NoDup all → NoDup un → (∀ p, p ∈ un ↔ p ∈ all ∧ kept !! p = None) → agree ids all counts kept →
  level q e ids counts → length all = q * length ids + e → e < length ids →
  covers ids all (distribute first rest un kept counts) ∧ kept ⊆ distribute first rest un kept counts ∧
  ∀ id, id ∈ ids → q ≤ load (distribute first rest un kept counts) all id ≤ q + 1.
Proof.
  intros ids Hids Hall Hnd. revert kept counts. induction Hnd as [|p un Hp Hnd IH]; intros kept counts Hun Hag Hlev Hlen He; simpl.
  - assert (Hsome : ∀ p, p ∈ all → is_Some (kept !! p)).
    { intros p Hp. destruct (kept !! p) eqn:Hk; [by eexists|]. exfalso. apply (not_elem_of_nil p), Hun. done. }
    split; [intros p Hp; destruct (Hsome p Hp) as [id Hid]; exists id; split; [done|by eapply Hag]|]. split; [done|].
    destruct Hlev as [Hub Hlow]. destruct Hag as [Hc Hk]. intros id Hid. rewrite <- Hc by done. split; [|by apply Hub].
    assert (Hsum : sum_list_with (at_ counts) ids = length all).
    { rewrite (sum_list_with_ext _ (load kept all)) by done. rewrite sum_loads by (done || naive_solver).
      f_equal. by apply filter_total. }
    destruct Hlow as [Hlow|Hlow]; [by apply Hlow|]. destruct (decide (q ≤ at_ counts id)); [done|]. exfalso.
    pose proof (sum_high q counts ids Hub).
    assert (0 < length (filter (λ id, at_ counts id < q) ids)); [|lia].
    destruct (filter (λ id, at_ counts id < q) ids) eqn:Hf; [|simpl; lia].
    exfalso. apply (not_elem_of_nil id). rewrite <- Hf. apply list_elem_of_filter. split; [lia|done].
  - destruct (proj1 (Hun p) ltac:(by left)) as [Hpa Hpk].
    set (best := leastLoaded counts first (at_ counts first) rest).
    destruct (leastLoaded_ok counts first rest) as [Hbest Hmin]. fold best ids in Hbest, Hmin.
    destruct (IH (<[p := best]> kept) (bump counts best)) as (Hcov & Hsub & Hload); try done.
    + intros p'. destruct (decide (p = p')) as [<-|].
      * rewrite lookup_insert_eq. naive_solver.
      * rewrite lookup_insert_ne by done. rewrite <- Hun. set_solver.
    + by apply agree_insert.
    + apply level_bump; try done. destruct Hag as [Hc Hk].
      rewrite (sum_list_with_ext _ (load kept all)) by done. rewrite sum_loads by (done || naive_solver). rewrite <- Hlen.
      apply (length_filter_lt _ all p Hpa). rewrite Hpk. by intros [? ?].
    + split; [done|]. split; [|done]. etrans; [|done]. by apply insert_subseteq.
Qed.

Lemma foldl_set_lookup (v : nat) (l : list gostring) (m : gmap gostring nat) id :
  foldl (λ m id, <[id := v]> m) m l !! id = if decide (id ∈ l) then Some v else m !! id.
Proof.
  revert m. induction l as [|i l IH]; intros m; simpl; [done|]. rewrite IH. destruct (decide (id ∈ l)).
  - rewrite decide_True; [done|by right].
  - destruct (decide (id = i)) as [->|].
    + rewrite decide_True by left. by rewrite lookup_insert_eq.
    + rewrite decide_False by set_solver. by rewrite lookup_insert_ne by congruence.
Qed.

Lemma targets_ok ids counts q e : NoDup ids → e ≤ length ids →
  (∀ id, id ∈ ids → q ≤ at_ (targets ids counts q e) id ≤ q + 1) ∧ above q (targets ids counts q e) ids ≤ e.
Proof.
  intros Hnd He. set (chosen := if 0 <? e then take e (merge_sort (countBefore counts) ids) else []).
  assert (Hat : ∀ id, id ∈ ids → at_ (targets ids counts q e) id = if decide (id ∈ chosen) then q + 1 else q).
  { intros id Hid. unfold targets, chosen, at_. destruct (0 <? e); rewrite !foldl_set_lookup.
    - case_decide; [done|]. by rewrite decide_True.
    - by rewrite decide_True. }
  split; [intros id Hid; rewrite Hat by done; case_decide; lia|].
  unfold above.
  assert (Hsub : filter (λ id, at_ (targets ids counts q e) id = q + 1) ids ⊆+ chosen).
  { apply NoDup_submseteq; [by apply NoDup_filter|]. intros id [Heq Hid]%list_elem_of_filter.
    rewrite Hat in Heq by done. case_decide; [done|lia]. }
  apply submseteq_length in Hsub. etrans; [done|]. unfold chosen. destruct (Nat.ltb_spec 0 e); [|simpl; lia].
  rewrite length_take. lia.
Qed.

(** The whole of it: everything assigned, evenly, and no consumer loses a partition it
    had unless it had more than a fair share. *)
Lemma stickyTopic_ok first rest prev parts : let ids := first :: rest in NoDup ids → NoDup parts →
  covers ids parts (stickyTopic first rest prev parts) ∧ balanced ids parts (stickyTopic first rest prev parts) ∧
  ∀ id, id ∈ ids → load prev parts id `min` (length parts / length ids) ≤
    length (filter (λ p, prev !! p = Some id ∧ stickyTopic first rest prev parts !! p = Some id) parts).
Proof.
  intros ids Hids Hnd. unfold stickyTopic. fold ids. set (q := length parts / length ids). set (e := length parts mod length ids).
  assert (He : e < length ids) by (apply Nat.mod_upper_bound; done).
  assert (Hlen : length parts = q * length ids + e).
  { unfold q, e. rewrite Nat.mul_comm. by apply Nat.div_mod. }
  pose proof (retain_ok ids prev parts parts ∅ ∅ Hnd Hnd) as Hret.
  destruct (retain ids prev parts ∅ ∅) as [kept counts]. destruct Hret as [Hag Hkept].
  { intros p Hp. by rewrite lookup_empty. }
  { split; [intros id _; unfold at_; rewrite lookup_empty; by rewrite load_zero|intros p id; by rewrite lookup_empty]. }
  destruct (targets_ok ids counts q e Hids) as [Htar Habove]; [lia|]. set (target := targets ids counts q e) in *.
  pose proof (revoke_ok ids target parts parts kept counts [] Hnd Hnd ltac:(done) Hag) as Hrev.
  destruct (revoke target parts kept counts []) as [[kept' counts'] un].
  destruct Hrev as (Hag' & Hsub & Hout & (l & -> & Hl & Hun) & Hb). simpl.
  assert (Hcnt : ∀ id, id ∈ ids → at_ counts' id ≤ at_ target id).
  { intros id Hid. destruct (Hb id Hid) as [_ H2]. rewrite (proj1 Hag id Hid), Nat.sub_diag in H2. lia. }
  destruct (distribute_ok first rest parts (merge_sort Z.le l) kept' counts' q e) as (Hcov & Hsub2 & Hload); try done.
  - by rewrite merge_sort_Permutation.
  - intros p. by rewrite merge_sort_Permutation, Hun.
  - split.
    + intros id Hid. pose proof (Hcnt id Hid). pose proof (Htar id Hid). lia.
    + right. etrans; [|exact Habove]. unfold above. apply submseteq_length, NoDup_submseteq; [by apply NoDup_filter|].
      intros id [Heq Hid]%list_elem_of_filter. apply list_elem_of_filter. split; [|done].
      pose proof (Hcnt id Hid). pose proof (Htar id Hid). lia.
  - split; [done|]. split; [done|]. intros id Hid. destruct (Hb id Hid) as [H1 _]. pose proof (Htar id Hid).
    assert (Hold : load prev parts id = at_ counts id).
    { rewrite (proj1 Hag id Hid). apply load_iff. intros p Hp. rewrite Hkept, decide_True by done.
      destruct (prev !! p) as [o|]; [|done]. simpl. case_bool_decide; naive_solver. }
    rewrite Hold. trans (load kept' parts id); [rewrite <- (proj1 Hag' id Hid); lia|].
    apply filter_length_mono. intros p Hp Hk'. split; [|by eapply lookup_weaken].
    eapply lookup_weaken in Hk'; [|exact Hsub]. rewrite Hkept, decide_True in Hk' by done.
    destruct (prev !! p) as [o|]; [|done]. simpl in Hk'. by case_bool_decide.
Qed.
