(* ===== verification/ConsumerGroupProps.v ===== *)
(** * What a consumer group promises

    A rebalance gives every partition one live owner and spreads them evenly; a
    message to a group on one topic is taken by exactly one consumer; whatever
    requests come in while a rebalance runs, once the goroutines are done the
    assignments reflect the consumers that are there. *)

From stdpp Require Import options.
From stdpp Require Import sorting.
From S2P Require Import Prelude GoMap GoStrings GoNumbers GoBytes ConsumerGroup ConsumerGroupFacts.
Import ConsumerGroup.

Implicit Types (g : consumerGroup) (r : run).

(** ** Topics *)

Lemma sortedIDs_elem cs id : id ∈ sortedIDs cs ↔ is_Some (cs !! id).
Proof.
  unfold sortedIDs. rewrite sort_strings_perm, list_elem_of_fmap. split.
  - intros ([k c] & -> & H%elem_of_map_to_list). by eexists.
  - intros [c Hc]. exists (id, c). split; [done|]. by apply elem_of_map_to_list.
Qed.
Lemma sortedIDs_nodup cs : NoDup (sortedIDs cs).
Proof. unfold sortedIDs. rewrite sort_strings_perm. apply NoDup_fst_map_to_list. Qed.
Lemma sortedIDs_nil cs : sortedIDs cs = [] ↔ cs = ∅.
Proof.
  split.
  - intros H. apply map_eq. intros id. rewrite lookup_empty. destruct (cs !! id) eqn:E; [|done].
    exfalso. apply (not_elem_of_nil id). rewrite <- H. apply sortedIDs_elem. by eexists.
  - intros ->. done.
Qed.

Lemma eachTopic_lookup f order g t : eachTopic f order g !! t =
  match partitions g !! t with
  | Some parts => Some (f t (default ∅ (assignments g !! t)) parts)
  | None => assignments g !! t
  end.
Proof.
  unfold eachTopic. pose proof (keysIn_elem order (partitions g) t) as Hin.
  assert (Hgen : ∀ l (a : gmap gostring (gmap Z gostring)), NoDup l →
    foldl (λ a t, <[t := f t (default ∅ (a !! t)) (default [] (partitions g !! t))]> a) a l !! t =
    if decide (t ∈ l) then Some (f t (default ∅ (a !! t)) (default [] (partitions g !! t))) else a !! t).
  { intros l a Hnd. revert a. induction Hnd as [|x l Hx Hnd IH]; intros a; simpl; [done|]. rewrite IH.
    destruct (decide (t = x)) as [->|].
    - rewrite decide_False, decide_True by (done || left). by rewrite lookup_insert_eq.
    - rewrite lookup_insert_ne by congruence. by rewrite (decide_ext (t ∈ x :: l) (t ∈ l)) by set_solver. }
  rewrite Hgen by apply keysIn_nodup. destruct (partitions g !! t) as [parts|].
  - rewrite decide_True by (apply Hin; by eexists). done.
  - rewrite decide_False; [done|]. rewrite Hin. by intros [? ?].
Qed.

Lemma roundRobinTopics_lookup ids ps ts idx a t : NoDup ts → idx < length ids → (∀ t, NoDup (default [] (ps !! t))) →
  (t ∈ ts → ∃ i, i < length ids ∧ roundRobinTopics ids ps ts idx a !! t =
    Some (roundRobin ids (default [] (ps !! t)) i (default ∅ (a !! t))).1) ∧
  (t ∉ ts → roundRobinTopics ids ps ts idx a !! t = a !! t).
Proof.
  intros Hnd Hidx Hps. revert idx a Hidx. induction Hnd as [|x ts Hx Hnd IH]; intros idx a Hidx; simpl.
  { split; [by intros ?%not_elem_of_nil|done]. }
  destruct (roundRobin_lookup ids (default [] (ps !! x)) idx (default ∅ (a !! x)) 0 Hidx (Hps x)) as (Hlt & _ & _).
  destruct (roundRobin ids (default [] (ps !! x)) idx (default ∅ (a !! x))) as [m i] eqn:Hrr.
  destruct (IH i (<[x := m]> a) Hlt) as [Hin Hout]. split.
  - intros [->|Ht]%elem_of_cons.
    + exists idx. split; [done|]. rewrite Hout by done. rewrite lookup_insert_eq, Hrr. done.
    + destruct (Hin Ht) as (j & Hj & ->). exists j. split; [done|]. by rewrite lookup_insert_ne by set_solver.
  - intros Ht. rewrite Hout by set_solver. apply lookup_insert_ne. set_solver.
Qed.

(** ** One rebalance *)

(** The partitions of every topic are those of the configuration. *)
Definition group_ok g : Prop := ∀ t parts, partitions g !! t = Some parts → parts = seqZ 0 (MaxPartitions (config g)).

(** What a strategy owes to one topic. *)
Definition topic_ok (s : AssignmentStrategy) (ids : list gostring) (prev : gmap Z gostring) (parts : list Z)
    (m : gmap Z gostring) : Prop :=
  covers ids parts m ∧ (s ≠ ConsistentHash → balanced ids parts m) ∧
  (s = Sticky → ∀ id, id ∈ ids → load prev parts id `min` (length parts / length ids) ≤
     length (filter (λ p, prev !! p = Some id ∧ m !! p = Some id) parts)).

Definition assign_with r g : option (gmap gostring (gmap Z gostring)) :=
  match Strategy (config g) with
  | RoundRobin => Some (assignRoundRobin (topicOrder r) g)
  | Sticky => Some (assignSticky (topicOrder r) g)
  | Range => Some (assignRange (topicOrder r) g)
  | ConsistentHash => Some (assignConsistentHash (topicOrder r) (idOrder r) g)
  | OtherStrategy _ => None
  end.

Lemma assign_ok r g a t parts : group_ok g → consumers g ≠ ∅ → assign_with r g = Some a → partitions g !! t = Some parts →
  ∃ m, a !! t = Some m ∧ topic_ok (Strategy (config g)) (sortedIDs (consumers g)) (default ∅ (assignments g !! t)) parts m.
Proof.
  intros Hok Hne Ha Ht. pose proof (sortedIDs_nodup (consumers g)) as Hids.
  assert (Hids_ne : sortedIDs (consumers g) ≠ []) by (by rewrite sortedIDs_nil).
  assert (Hnd : NoDup parts) by (rewrite (Hok t parts Ht); apply NoDup_seqZ).
  assert (Hnds : ∀ t, NoDup (default [] (partitions g !! t))).
  { intros t'. destruct (partitions g !! t') eqn:E; simpl; [rewrite (Hok _ _ E); apply NoDup_seqZ|constructor]. }
  assert (Hlen : 0 < length (sortedIDs (consumers g))) by (destruct (sortedIDs (consumers g)); [done|simpl; lia]).
  unfold assign_with in Ha. destruct (Strategy (config g)) eqn:Hs; [..|done]; injection Ha as <-.
  - unfold assignRoundRobin. rewrite decide_False by done.
    destruct (roundRobinTopics_lookup (sortedIDs (consumers g)) (partitions g) (keysIn (topicOrder r) (partitions g)) 0
      (assignments g) t (keysIn_nodup _ _) Hlen Hnds) as [Hin _].
    destruct Hin as (i & Hi & ->); [apply keysIn_elem; by eexists|]. rewrite Ht. simpl. eexists. split; [done|].
    destruct (roundRobin_ok (sortedIDs (consumers g)) parts i (default ∅ (assignments g !! t)) Hids Hnd Hi). by split_and!.
  - unfold assignSticky. destruct (sortedIDs (consumers g)) as [|first rest] eqn:E; [done|].
    rewrite eachTopic_lookup, Ht. eexists. split; [done|].
    destruct (stickyTopic_ok first rest (default ∅ (assignments g !! t)) parts Hids Hnd) as (? & ? & ?). by split_and!.
  - unfold assignRange. rewrite decide_False by done. rewrite eachTopic_lookup, Ht. eexists. split; [done|].
    set (ids := sortedIDs (consumers g)) in *.
    destruct (rangeBlocks_ok ids 0 (length parts / length ids) (length parts mod length ids) parts
      (default ∅ (assignments g !! t)) Hids Hnd) as (_ & Hcov & Hload).
    { pose proof (Nat.mod_upper_bound (length parts) (length ids)). lia. }
    { rewrite Nat.sub_0_r, Nat.mul_comm. apply Nat.div_mod. lia. }
    split_and!; [done| |done]. intros _ id [i Hi]%list_elem_of_lookup. rewrite (Hload i id Hi). case_match; lia.
  - unfold assignConsistentHash.
    assert (Hkeys : ∀ id, id ∈ keysIn (idOrder r) (consumers g) ↔ id ∈ sortedIDs (consumers g)).
    { intros id. by rewrite keysIn_elem, sortedIDs_elem. }
    assert (Hkne : keysIn (idOrder r) (consumers g) ≠ []).
    { intros E. destruct (sortedIDs (consumers g)) as [|x l] eqn:E2; [done|]. apply (not_elem_of_nil x). rewrite <- E, Hkeys. by left. }
    rewrite decide_False by done. rewrite eachTopic_lookup, Ht. eexists. split; [done|]. split_and!; [|done|done].
    intros p Hp. rewrite (foldl_insert_lookup (hashOwner (keysIn (idOrder r) (consumers g)) t)), decide_True by done.
    eexists. split; [done|]. apply Hkeys. by apply hashOwner_elem.
Qed.

Lemma foldl_topics (ts : list gostring) (parts : list Z) (m : gmap gostring (list Z)) t :
  foldl (λ m t, <[t := parts]> m) m ts !! t = if decide (t ∈ ts) then Some parts else m !! t.
Proof.
  revert m. induction ts as [|x ts IH]; intros m; simpl; [done|]. rewrite IH. destruct (decide (t ∈ ts)).
  - rewrite decide_True; [done|by right].
  - destruct (decide (t = x)) as [->|]; [rewrite decide_True by left; by rewrite lookup_insert_eq|].
    rewrite decide_False by set_solver. by rewrite lookup_insert_ne by congruence.
Qed.

Lemma allTopics_elem (cs : gmap gostring groupConsumer) t :
  t ∈ allTopics cs ↔ ∃ id c, cs !! id = Some c ∧ t ∈ topics c.
Proof.
  unfold allTopics. rewrite list_elem_of_join. split.
  - intros (l & Hl & Ht). apply list_elem_of_fmap in Ht as (c & -> & Hc). apply list_elem_of_fmap in Hc as ([id c'] & -> & Hc).
    apply elem_of_map_to_list in Hc. by exists id, c'.
  - intros (id & c & Hc & Ht). exists (topics c). split; [done|]. apply list_elem_of_fmap. exists c. split; [done|].
    apply list_elem_of_fmap. exists (id, c). split; [done|]. by apply elem_of_map_to_list.
Qed.

(** What a rebalance leaves alone, whether it succeeds or not. *)
Definition same_group g g' : Prop :=
  config g' = config g ∧ requests g' = requests g ∧ rebalancePending g' = rebalancePending g ∧ generation g' = generation g ∧
  ∀ id, topics <$> consumers g' !! id = topics <$> consumers g !! id.

Lemma same_group_refl g : same_group g g.
Proof. done. Qed.
Lemma same_group_assign ps a g : same_group g (setAssign ps a (consumers g) g).
Proof. done. Qed.
#[local] Hint Resolve same_group_refl same_group_assign : plumego.

Lemma share_lookup a id t : default [] (partsOf a id !! t) = default [] ((λ m, (filter (λ kv : Z * gostring, kv.2 = id) (map_to_list m)).*1) <$> a !! t).
Proof.
  unfold partsOf. rewrite lookup_omap. destruct (a !! t) as [m|]; [|done]. simpl. by case_decide as H; simpl; rewrite ?H.
Qed.

Lemma share_elem a id t p : p ∈ default [] (partsOf a id !! t) ↔ ∃ m, a !! t = Some m ∧ m !! p = Some id.
Proof.
  rewrite share_lookup. destruct (a !! t) as [m|]; simpl.
  - rewrite list_elem_of_fmap. split.
    + intros ([q o] & -> & [Ho Hq]%list_elem_of_filter). apply elem_of_map_to_list in Hq. simpl in *. subst. by eexists.
    + intros (m' & [= <-] & Hp). exists (p, id). split; [done|]. apply list_elem_of_filter. split; [done|].
      by apply elem_of_map_to_list.
  - split; [by intros ?%not_elem_of_nil|naive_solver].
Qed.

Lemma rebalance_ok r g g' e : group_ok g → rebalance r g = Some (g', e) → group_ok g' ∧ same_group g g' ∧
  (e = None →
    (∀ t, t ∈ allTopics (consumers g) → partitions g' !! t = Some (seqZ 0 (MaxPartitions (config g)))) ∧
    (consumers g ≠ ∅ → ∀ t parts, partitions g' !! t = Some parts → ∃ m, assignments g' !! t = Some m ∧
       topic_ok (Strategy (config g)) (sortedIDs (consumers g)) (default ∅ (assignments g !! t)) parts m) ∧
    ∀ id c t p, consumers g' !! id = Some c → p ∈ default [] (assignedParts c !! t) ↔
      ∃ m, assignments g' !! t = Some m ∧ m !! p = Some id).
Proof.
  intros Hok H. unfold rebalance in H.
  destruct (alive r 0); [|simplify_eq/=; split_and!; solve [done | plum]]. destruct (alive r 1); [|simplify_eq/=; split_and!; solve [done | plum]]. cbn [negb] in H.
  destruct (_ && _); [done|]. set (ps := foldl _ (partitions g) (allTopics (consumers g))) in H.
  set (g1 := setAssign ps (assignments g) (consumers g) g) in H.
  assert (Hg1 : group_ok g1).
  { intros t parts. simpl. unfold ps. rewrite foldl_topics. case_decide; [naive_solver|apply Hok]. }
  destruct (alive r 2); [|simplify_eq/=; split_and!; solve [done | plum]]. cbn [negb] in H.
  change (match Strategy (config g1) with RoundRobin => _ | Sticky => _ | Range => _ | ConsistentHash => _ | OtherStrategy _ => _ end)
    with (assign_with r g1) in H.
  destruct (assign_with r g1) as [a|] eqn:Ha; [|simplify_eq/=; split_and!; solve [done | plum]].
  destruct (alive r 3); [|simplify_eq/=; split_and!; solve [done | plum]]. cbn [negb] in H. simplify_eq.
  split; [done|]. split.
  { split_and!; try done. intros id. simpl. rewrite map_lookup_imap. by destruct (consumers g !! id). }
  intros _. split_and!.
  - intros t Ht. simpl. unfold ps. rewrite foldl_topics. by rewrite decide_True.
  - intros Hne t parts Ht. simpl in *. by apply (assign_ok r g1 a t parts Hg1 Hne Ha).
  - intros id c t p. simpl. rewrite map_lookup_imap. destruct (consumers g !! id); [|done]. intros [= <-]. simpl.
    apply share_elem.
Qed.

(** ** Histories of a group *)

Inductive cgEvent :=
| EJoin (id : gostring) (ts : list gostring) (subErr : bool) (now : Z)
| ELeave (id : gostring)
| EBeat (id : gostring) (now : Z)
| ECheck (now : Z)
| EStart
| ERun (r : run).

Definition cgStep (e : cgEvent) g : option consumerGroup :=
  match e with
  | EJoin id ts subErr now => Some (join id ts subErr now g).1
  | ELeave id => Some (leave id g).1
  | EBeat id now => Some (Heartbeat id now g)
  | ECheck now => Some (checkHeartbeats now g)
  | EStart => Some (startRequest g)
  | ERun r => runnerStep r g
  end.
Fixpoint cgRun (es : list cgEvent) g : option consumerGroup :=
  match es with [] => Some g | e :: es => g ← cgStep e g; cgRun es g end.

(** The group [CreateGroup] makes. *)
Definition newGroup (c : ConsumerGroupConfig) : consumerGroup := MkGroup c ∅ ∅ ∅ ∅ 0 NotRunning false 0.

Lemma join_cases id ts subErr now g : (join id ts subErr now g).1 = g ∨
  ∃ cs, (join id ts subErr now g).1 = setConsumers cs 1 g.
Proof. unfold join. repeat case_match; simpl; eauto. Qed.
Lemma leave_cases id g : (leave id g).1 = g ∨ ∃ cs, (leave id g).1 = setConsumers cs 1 g.
Proof. unfold leave. case_match; simpl; eauto. Qed.
Lemma check_cases now g : checkHeartbeats now g = g ∨ ∃ cs, checkHeartbeats now g = setConsumers cs 1 g.
Proof. unfold checkHeartbeats. case_decide; eauto. Qed.

Lemma cgStep_ok e g g' : group_ok g → cgStep e g = Some g' → group_ok g' ∧ config g' = config g.
Proof.
  intros Hok. destruct e as [id ts se now|id|id now|now| |r]; simpl; intros H.
  - injection H as <-. by destruct (join_cases id ts se now g) as [->|[cs ->]].
  - injection H as <-. by destruct (leave_cases id g) as [->|[cs ->]].
  - by simplify_eq.
  - injection H as <-. by destruct (check_cases now g) as [->|[cs ->]].
  - injection H as <-. unfold startRequest. by repeat case_match.
  - unfold runnerStep in H. destruct (runner g); try by simplify_eq.
    destruct (rebalance r g) as [[g1 e]|] eqn:E; [|done]. simplify_eq/=.
    destruct (rebalance_ok _ _ _ _ Hok E) as (? & (? & _) & _). done.
Qed.

Lemma cgRun_ok es g g' : group_ok g → cgRun es g = Some g' → group_ok g' ∧ config g' = config g.
Proof.
  revert g. induction es as [|e es IH]; intros g Hok H; simpl in H; [by simplify_eq|].
  destruct (cgStep e g) as [g1|] eqn:E; [|done]. destruct (cgStep_ok e g g1 Hok E) as [Hok1 Hc1].
  destruct (IH g1 Hok1 H) as [? Hc2]. split; [done|]. by rewrite Hc2.
Qed.

Lemma newGroup_ok c : group_ok (newGroup c).
Proof. intros t parts. simpl. by rewrite lookup_empty. Qed.

(** C19: a rebalance assigns everything, evenly. After any history of a group, when a
    rebalance succeeds with at least one consumer there, whatever the strategy and the
    order of walking the maps, every partition of every topic has an owner among the
    consumers; except for consistent hashing no consumer has more than one partition
    of a topic beyond another; sticky assignment leaves every consumer at least its
    fair share of the partitions it had; and every consumer is told exactly the
    partitions it owns. *)
Theorem cg_rebalance_assigns c es g r g' : cgRun es (newGroup c) = Some g → rebalance r g = Some (g', None) →
  consumers g ≠ ∅ → let ids := sortedIDs (consumers g) in
  (∀ t parts, partitions g' !! t = Some parts → ∃ m, assignments g' !! t = Some m ∧
    (∀ p, p ∈ parts → ∃ id, m !! p = Some id ∧ is_Some (consumers g !! id)) ∧
    (Strategy c ≠ ConsistentHash → ∀ id id', id ∈ ids → id' ∈ ids → load m parts id ≤ load m parts id' + 1) ∧
    (Strategy c = Sticky → ∀ id, id ∈ ids →
       load (default ∅ (assignments g !! t)) parts id `min` (length parts / length ids) ≤
       length (filter (λ p, default ∅ (assignments g !! t) !! p = Some id ∧ m !! p = Some id) parts))) ∧
  ∀ id con t p, consumers g' !! id = Some con →
    p ∈ default [] (assignedParts con !! t) ↔ ∃ m, assignments g' !! t = Some m ∧ m !! p = Some id.
Proof.
  intros Hrun Hreb Hne ids. destruct (cgRun_ok es _ g (newGroup_ok c) Hrun) as [Hok Hcfg].
  destruct (rebalance_ok r g g' None Hok Hreb) as (_ & _ & Hres). destruct (Hres eq_refl) as (_ & Hassign & Hshare).
  split; [|done]. intros t parts Ht. destruct (Hassign Hne t parts Ht) as (m & Hm & Hcov & Hbal & Hst). rewrite Hcfg in *.
  exists m. split_and!; [done| | |done].
  - intros p Hp. destruct (Hcov p Hp) as (id & Hid & Hin). exists id. split; [done|]. by apply sortedIDs_elem.
  - intros Hs id id' Hid Hid'. pose proof (Hbal Hs id Hid). pose proof (Hbal Hs id' Hid'). lia.
Qed.

(** ** Settled groups *)

(** The assignments reflect the consumers that are there. *)
Definition settled g : Prop :=
  ∀ id c t, consumers g !! id = Some c → t ∈ topics c →
    ∃ m, assignments g !! t = Some m ∧
      ∀ p, (0 ≤ p < MaxPartitions (config g))%Z → ∃ o, m !! p = Some o ∧ is_Some (consumers g !! o).

Lemma topics_lookup g g' id c : same_group g g' → consumers g' !! id = Some c →
  ∃ c0, consumers g !! id = Some c0 ∧ topics c = topics c0.
Proof.
  intros (_ & _ & _ & _ & Ht) Hc. specialize (Ht id). rewrite Hc in Ht. destruct (consumers g !! id) as [c0|]; [|done].
  exists c0. simpl in Ht. split; congruence.
Qed.

Lemma rebalance_settles r g g' : group_ok g → rebalance r g = Some (g', None) → settled g'.
Proof.
  intros Hok Hreb. destruct (rebalance_ok r g g' None Hok Hreb) as (_ & Hsame & Hres). destruct (Hres eq_refl) as (Htop & Hassign & _).
  intros id c t Hc Ht. destruct (topics_lookup g g' id c Hsame Hc) as (c0 & Hc0 & Heq). rewrite Heq in Ht.
  destruct (Hassign ltac:(intros E; by rewrite E in Hc0) t (seqZ 0 (MaxPartitions (config g)))) as (m & Hm & Hcov & _).
  { apply Htop, allTopics_elem. by exists id, c0. }
  exists m. split; [done|]. pose proof Hsame as (Hcfg & _). rewrite Hcfg. intros p Hp.
  destruct (Hcov p) as (o & Ho & Hin); [apply elem_of_seqZ; lia|]. exists o. split; [done|].
  apply sortedIDs_elem in Hin as [co Hco]. destruct Hsame as (_ & _ & _ & _ & Hts). specialize (Hts o).
  rewrite Hco in Hts. destruct (consumers g' !! o); [by eexists|done].
Qed.

(** A message is processed once. In a settled group whose consumers all listen to
    the same single topic, for every message there is exactly one consumer that takes
    it. *)
Theorem cg_exactly_once g t msgID : settled g → (0 < MaxPartitions (config g))%Z → consumers g ≠ ∅ →
  (∀ id c, consumers g !! id = Some c → topics c = [t]) →
  ∃ id c, consumers g !! id = Some c ∧ shouldProcess id c msgID g = true ∧
    ∀ id' c', consumers g !! id' = Some c' → shouldProcess id' c' msgID g = true → id' = id.
Proof.
  intros Hset Hmax Hne Htop. apply map_choose in Hne as (id0 & c0 & Hc0).
  destruct (Hset id0 c0 t Hc0) as (m & Hm & Hown); [rewrite (Htop id0 c0 Hc0); by left|].
  assert (Hp : (0 ≤ partitionOf (config g) msgID < MaxPartitions (config g))%Z).
  { apply Z.rem_bound_pos; [|done]. apply fnv32a_bound. }
  destruct (Hown _ Hp) as (o & Ho & [co Hco]). exists o, co. split; [done|].
  assert (Hproc : ∀ id c, consumers g !! id = Some c → shouldProcess id c msgID g = bool_decide (Some o = Some id)).
  { intros id c Hc. unfold shouldProcess. rewrite (Htop id c Hc). simpl. by rewrite Hm, Ho, orb_false_r. }
  rewrite (Hproc o co Hco). split; [by apply bool_decide_eq_true|]. intros id' c' Hc'. rewrite (Hproc id' c' Hc').
  intros H%bool_decide_eq_true. congruence.
Qed.

(** ** Convergence of the rebalancing goroutines *)

(** The assignments are settled, or a goroutine is on its way to see to it. *)
Definition on_the_way g : Prop :=
  settled g ∨ 0 < requests g ∨
  match runner g with
  | NotRunning => False
  | Starting | Rebalancing => True
  | Finishing => rebalancePending g = true
  end.

Definition good_config (c : ConsumerGroupConfig) : Prop :=
  (0 < MaxPartitions c)%Z ∧ ∀ n, Strategy c ≠ OtherStrategy n.
Definition unexpired (e : cgEvent) : Prop := match e with ERun r => expires r = None | _ => True end.

Lemma rebalance_succeeds r g : good_config (config g) → expires r = None → ∃ g', rebalance r g = Some (g', None).
Proof.
  intros [Hmax Hs] Hr. unfold rebalance, alive. rewrite Hr. cbn [negb].
  rewrite (proj2 (Z.ltb_ge _ _)) by lia. cbn [andb]. simpl.
  destruct (Strategy (config g)) eqn:E; [by eexists..|]. by destruct (Hs n).
Qed.

Lemma settled_requests g cs' n : settled g → (∀ id, topics <$> cs' !! id = topics <$> consumers g !! id) →
  settled (setConsumers cs' n g).
Proof.
  intros Hset Hcs id c t Hc Ht. simpl in *.
  pose proof (Hcs id) as Hid. rewrite Hc in Hid. destruct (consumers g !! id) as [c0|] eqn:Hc0; [|done].
  injection Hid as Hid. rewrite Hid in Ht. destruct (Hset id c0 t Hc0 Ht) as (m & Hm & Hown).
  exists m. split; [done|]. intros p Hp. destruct (Hown p Hp) as (o & Ho & [co Hco]). exists o. split; [done|].
  specialize (Hcs o). rewrite Hco in Hcs. destruct (cs' !! o); [by eexists|done].
Qed.

Lemma cgStep_way e g g' : group_ok g → good_config (config g) → unexpired e → on_the_way g → cgStep e g = Some g' →
  on_the_way g'.
Proof.
  intros Hok Hcfg He Hway. destruct e as [id ts se now|id|id now|now| |r]; simpl; intros H.
  - injection H as <-. destruct (join_cases id ts se now g) as [->|[cs ->]]; [done|]. right. left. simpl. lia.
  - injection H as <-. destruct (leave_cases id g) as [->|[cs ->]]; [done|]. right. left. simpl. lia.
  - injection H as <-. destruct Hway as [Hset|Hrest]; [|by right]. left. apply settled_requests; [done|].
    intros id'. rewrite lookup_alter. case_decide; [|done]. subst. by destruct (consumers g !! id').
  - injection H as <-. destruct (check_cases now g) as [->|[cs ->]]; [done|]. right. left. simpl. lia.
  - injection H as <-. unfold startRequest. destruct (requests g) as [|n]; [done|].
    right. right. by destruct (runner g).
  - unfold runnerStep in H. destruct (runner g) eqn:Hr.
    + by simplify_eq.
    + simplify_eq. right. by right.
    + destruct (rebalance_succeeds r g Hcfg He) as [g1 Hg1]. rewrite Hg1 in H. simplify_eq/=.
      left. exact (rebalance_settles r g g1 Hok Hg1).
    + simplify_eq. unfold on_the_way in *. simpl. rewrite Hr in Hway.
      destruct (rebalancePending g); [right; by right|]. destruct Hway as [?|[?|?]]; [by left|right; by left|done].
Qed.

(** The goroutines' own steps: a request that starts, the loop that goes on. *)
Inductive istep : relation consumerGroup :=
| istep_start g : 0 < requests g → istep g (startRequest g)
| istep_run g r g' : runner g ≠ NotRunning → expires r = None → runnerStep r g = Some g' → istep g g'.

(** What is left to do. *)
Definition work g : nat :=
  5 * requests g +
  match runner g with
  | NotRunning => 0
  | Starting => 3
  | Rebalancing => 2 + (if rebalancePending g then 4 else 0)
  | Finishing => 1 + (if rebalancePending g then 4 else 0)
  end.

Lemma istep_work g g' : group_ok g → istep g g' → work g' < work g.
Proof.
  intros Hok Hst. destruct Hst as [g Hreq|g r g' Hrun Hr Hstep].
  - unfold startRequest. destruct (requests g) as [|n] eqn:En; [lia|]. unfold work. rewrite En.
    destruct (runner g); simpl; destruct (rebalancePending g); simpl; lia.
  - unfold runnerStep in Hstep. destruct (runner g) eqn:Er; [done|..].
    + simplify_eq. unfold work. rewrite Er. simpl. lia.
    + destruct (rebalance r g) as [[g1 e]|] eqn:E; [|done]. simplify_eq/=.
      destruct (rebalance_ok _ _ _ _ Hok E) as (_ & (_ & Hq & Hp & _) & _). unfold work. simpl. rewrite Er, Hq, Hp. lia.
    + simplify_eq. unfold work. rewrite Er. simpl. destruct (rebalancePending g); simpl; lia.
Qed.

Lemma istep_event g g' : istep g g' → ∃ e, unexpired e ∧ cgStep e g = Some g'.
Proof. intros [g0 _|g0 r g1 _ Hr Hs]; [by exists EStart|by exists (ERun r)]. Qed.

Lemma istep_can g : good_config (config g) → 0 < requests g ∨ runner g ≠ NotRunning → ∃ g', istep g g'.
Proof.
  intros Hcfg [Hr|Hr]; [eexists; by apply istep_start|].
  destruct (rebalance_succeeds (MkRun [] [] None) g Hcfg eq_refl) as [g1 Hg1].
  destruct (runner g) eqn:E; [done|..].
  all: eexists; eapply (istep_run g (MkRun [] [] None)); [by rewrite E|done|]; unfold runnerStep; rewrite E; try done.
  rewrite Hg1. done.
Qed.

Definition way_inv (c : ConsumerGroupConfig) g : Prop := group_ok g ∧ config g = c ∧ on_the_way g.

Lemma way_step c e g g' : good_config c → unexpired e → way_inv c g → cgStep e g = Some g' → way_inv c g'.
Proof.
  intros Hcfg He (Hok & Hc & Hway) Hstep. destruct (cgStep_ok e g g' Hok Hstep) as [Hok' Hc'].
  split_and!; [done|congruence|]. apply (cgStep_way e g g'); congruence || done.
Qed.

Lemma way_run c es g g' : good_config c → Forall unexpired es → way_inv c g → cgRun es g = Some g' → way_inv c g'.
Proof.
  intros Hcfg Hes. revert g. induction Hes as [|e es He _ IH]; intros g Hinv Hrun; simpl in Hrun; [by simplify_eq|].
  destruct (cgStep e g) as [g1|] eqn:E; [|done]. apply (IH g1); [|done]. by eapply way_step.
Qed.

Lemma way_istep c g g' : good_config c → way_inv c g → istep g g' → way_inv c g'.
Proof. intros Hcfg Hinv (e & He & Hs)%istep_event. by eapply way_step. Qed.

Lemma way_new c : way_inv c (newGroup c).
Proof. split_and!; [apply newGroup_ok|done|]. left. intros id c' t. simpl. by rewrite lookup_empty. Qed.

(** C28: every join and leave is reflected in the end. For a group with a positive number
    of partitions and one of the four known assignment strategies: after any history of
    joins, leaves, heartbeats, expiries of dead consumers and steps of the rebalancing
    goroutines in any interleaving, with no rebalance timing out: the goroutines on
    their own come to rest in every order of their steps, and when they do, every
    partition of every consumer's topics is owned by a consumer that is there. *)
Theorem cg_rebalance_converges c es g : good_config c → Forall unexpired es → cgRun es (newGroup c) = Some g →
  sn istep g ∧ ∀ g', rtc istep g g' → nf istep g' → settled g'.
Proof.
  intros Hcfg Hes Hrun. pose proof (way_run c es _ g Hcfg Hes (way_new c) Hrun) as Hinv. clear es Hes Hrun. split.
  - remember (work g) as w eqn:Hw. revert g Hw Hinv. induction (lt_wf w) as [w _ IH]. intros g -> Hinv.
    constructor. intros g' Hst. apply (IH (work g')); [|done|by eapply way_istep]. apply istep_work; [|done]. by destruct Hinv.
  - intros g' Hst. revert Hinv. induction Hst as [g|g g1 g' Hst _ IH]; intros Hinv Hnf; [|apply IH; [by eapply way_istep|done]].
    destruct Hinv as (Hok & Hc & Hway). assert (Hq : ¬ (0 < requests g ∨ runner g ≠ NotRunning)).
    { intros Hcan. apply Hnf. apply istep_can; [by rewrite Hc|done]. }
    destruct Hway as [Hset|[Hreq|Hrun]]; [done|tauto|]. destruct (runner g); [done|..]; by destruct Hq; right.
Qed.

(** ** Where the code falls short *)

Definition demoConfig (s : AssignmentStrategy) (n : Z) : ConsumerGroupConfig :=
  MkConfig (str "g") s (secs 10) (secs 3) (secs 60) n true (secs 5).
Definition anyRun (order ids : list gostring) : run := MkRun order ids None.

Definition rebalanced (s : AssignmentStrategy) (n : Z) (ids : list gostring) (a b : list gostring) : consumerGroup :=
  default (newGroup (demoConfig s n))
    (cgRun [EJoin (str "a") a false 0; EJoin (str "b") b false 0; EStart;
            ERun (anyRun [] ids); ERun (anyRun [] ids); ERun (anyRun [] ids); EStart;
            ERun (anyRun [] ids); ERun (anyRun [] ids); ERun (anyRun [] ids)]
       (newGroup (demoConfig s n))).
Definition takes (g : consumerGroup) (id msgID : gostring) : bool :=
  match consumers g !! id with Some c => shouldProcess id c msgID g | None => false end.
Definition listens (g : consumerGroup) (id : gostring) : gostring :=
  match consumers g !! id with Some c => subscription c | None => [] end.

(** With two topics every message can be taken by two consumers: the partition is
    computed from the message id alone, and any of a consumer's topics may own it. *)
Lemma two_topics_duplicate (msgID : gostring) :
  let g := rebalanced RoundRobin 1 [] [str "t"; str "u"] [str "t"; str "u"] in
  listens g (str "a") = str "t" ∧ listens g (str "b") = str "t" ∧
  takes g (str "a") msgID = true ∧ takes g (str "b") msgID = true.
Proof.
  intros g. assert (Hp : partitionOf (config g) msgID = 0%Z).
  { unfold partitionOf. replace (MaxPartitions (config g)) with 1%Z by (vm_compute; reflexivity). apply Z.rem_1_r. }
  split; [vm_compute; reflexivity|]. split; [vm_compute; reflexivity|]. unfold takes, shouldProcess. rewrite Hp.
  split; vm_compute; reflexivity.
Qed.

(** Partitions of a topic go to consumers that do not listen to it, and then nobody
    takes their messages. *)
Lemma unsubscribed_owner_loses :
  let g := rebalanced RoundRobin 2 [] [str "t"] [str "u"] in
  listens g (str "a") = str "t" ∧ listens g (str "b") = str "u" ∧ takes g (str "a") (str "m1") = false.
Proof. vm_compute. auto. Qed.

(** Only the first topic of a consumer is subscribed to. *)
Lemma only_first_topic g id t u now g' c : join id [t; u] false now g = (g', None) → consumers g' !! id = Some c →
  subscription c = t ∧ topics c = [t; u].
Proof.
  unfold join. case_decide; [done|]. destruct (consumers g !! id); [done|]. intros [= <-]. simpl. rewrite lookup_insert_eq.
  by intros [= <-].
Qed.

(** Consistent hashing depends on the order in which the map of consumers is walked. *)
Lemma hash_assignment_unstable :
  assignments (rebalanced ConsistentHash 2 [str "a"; str "b"] [str "t"] [str "t"]) ≠
  assignments (rebalanced ConsistentHash 2 [str "b"; str "a"] [str "t"] [str "t"]).
Proof.
  intros H. apply (f_equal (λ a, (a !! str "t") ≫= (λ m, m !! 0%Z))) in H. vm_compute in H. discriminate H.
Qed.

(** A negative number of partitions makes the rebalance panic. *)
Lemma negative_partitions_panic r g : (MaxPartitions (config g) < 0)%Z → allTopics (consumers g) ≠ [] →
  alive r 0 = true → alive r 1 = true → rebalance r g = None.
Proof.
  intros Hneg Hne H0 H1. unfold rebalance. rewrite H0, H1. cbn [negb]. rewrite (proj2 (Z.ltb_lt _ _)) by done.
  by rewrite bool_decide_false.
Qed.

(** ** Concrete instances *)

Definition demoEvents : list cgEvent :=
  [EJoin (str "a") [str "t"] false 0; EStart; EJoin (str "b") [str "t"] false 0; ERun (anyRun [] []); EStart].

(** The goroutine alone, until it stops. *)
Fixpoint drive (n : nat) g : option consumerGroup :=
  match n with
  | 0 => Some g
  | S n => match runner g with NotRunning => Some g | _ => runnerStep (anyRun [] []) g ≫= drive n end
  end.
Lemma drive_steps n g g' : drive n g = Some g' → rtc istep g g'.
Proof.
  revert g. induction n as [|n IH]; intros g Hd; simpl in Hd; [by simplify_eq|].
  destruct (runner g) eqn:Er; [by simplify_eq|..]; destruct (runnerStep (anyRun [] []) g) as [g1|] eqn:E; try done;
    (eapply rtc_l; [by eapply (istep_run g (anyRun [] [])); [rewrite Er| |]|by apply IH]).
Qed.
Lemma idle_rests g : requests g = 0 → runner g = NotRunning → nf istep g.
Proof. intros Hq Hr [g' Hs]. inv Hs; try lia; congruence. Qed.

Definition settledGroup : option consumerGroup := cgRun demoEvents (newGroup (demoConfig Sticky 4)) ≫= drive 20.
Lemma cg_rebalance_converges_witness : ∃ g g', cgRun demoEvents (newGroup (demoConfig Sticky 4)) = Some g ∧ sn istep g ∧
  rtc istep g g' ∧ nf istep g' ∧ is_Some (consumers g' !! str "a") ∧ is_Some (consumers g' !! str "b") ∧ settled g'.
Proof.
  destruct (cgRun demoEvents (newGroup (demoConfig Sticky 4))) as [g|] eqn:E; [|vm_compute in E; discriminate E].
  destruct (drive 20 g) as [g'|] eqn:Ed; [|vm_compute in E; injection E as <-; vm_compute in Ed; discriminate Ed].
  assert (Hd : settledGroup = Some g') by (unfold settledGroup; rewrite E; exact Ed).
  assert (Hidle : requests g' = 0 ∧ runner g' = NotRunning ∧ is_Some (consumers g' !! str "a") ∧ is_Some (consumers g' !! str "b")).
  { vm_compute in Hd. injection Hd as <-. split_and!; [reflexivity|reflexivity|by eexists|by eexists]. }
  destruct Hidle as (Hq & Hr & Ha & Hb). pose proof (drive_steps _ _ _ Ed) as Hsteps. pose proof (idle_rests _ Hq Hr) as Hnf.
  destruct (cg_rebalance_converges (demoConfig Sticky 4) demoEvents g) as [Hsn Hset].
  - split; [vm_compute; reflexivity|done].
  - repeat constructor.
  - exact E.
  - exists g, g'. split; [done|]. split; [exact Hsn|]. split; [exact Hsteps|]. split; [exact Hnf|]. split; [exact Ha|].
    split; [exact Hb|]. exact (Hset g' Hsteps Hnf).
Defined.

Lemma cg_rebalance_assigns_witness : ∃ g g', cgRun demoEvents (newGroup (demoConfig Sticky 4)) = Some g ∧
  rebalance (anyRun [] []) g = Some (g', None) ∧
  ∃ m, assignments g' !! str "t" = Some m ∧ load m [0; 1; 2; 3]%Z (str "a") ≤ load m [0; 1; 2; 3]%Z (str "b") + 1.
Proof.
  destruct (cgRun demoEvents (newGroup (demoConfig Sticky 4))) as [g|] eqn:E; [|vm_compute in E; discriminate E].
  destruct (rebalance (anyRun [] []) g) as [[g' [e|]]|] eqn:Er.
  1, 3: exfalso; vm_compute in E; injection E as <-; vm_compute in Er; discriminate Er.
  exists g, g'. split; [done|]. split; [done|].
  destruct (cg_rebalance_assigns (demoConfig Sticky 4) demoEvents g (anyRun [] []) g') as [Hall _]; [done|done| |].
  { vm_compute in E. injection E as <-. intros H. apply (f_equal (λ cs, cs !! str "a")) in H. vm_compute in H. discriminate H. }
  destruct (Hall (str "t") [0; 1; 2; 3]%Z) as (m & Hm & _ & Hbal & _).
  { vm_compute in E. injection E as <-. vm_compute in Er. injection Er as <-. reflexivity. }
  exists m. split; [done|]. apply Hbal; [done|..]; apply sortedIDs_elem; vm_compute in E; injection E as <-; by eexists.
Defined.

Definition demoConsumer : groupConsumer := MkConsumer [str "t"] (str "t") ∅ 0.
Definition demoGroup : consumerGroup :=
  setConsumers (<[str "a" := demoConsumer]> (<[str "b" := demoConsumer]> ∅)) 0 (newGroup (demoConfig Range 4)).

Lemma demo_topics id c : consumers demoGroup !! id = Some c → topics c = [str "t"].
Proof.
  change (consumers demoGroup) with (<[str "a" := demoConsumer]> (<[str "b" := demoConsumer]> (∅ : gmap gostring groupConsumer))).
  rewrite !lookup_insert_Some, lookup_empty. by intros [[_ <-]|[_ [[_ <-]|[_ ?]]]].
Qed.

Lemma cg_exactly_once_witness : ∃ g, rebalance (anyRun [] []) demoGroup = Some (g, None) ∧
  ∃ id c, consumers g !! id = Some c ∧ shouldProcess id c (str "hello") g = true.
Proof.
  destruct (rebalance_succeeds (anyRun [] []) demoGroup) as [g Hg]; [split; [vm_compute; reflexivity|done]|done|].
  exists g. split; [done|].
  assert (Hok : group_ok demoGroup) by (intros t parts; change (partitions demoGroup) with (∅ : gmap gostring (list Z)); by rewrite lookup_empty).
  destruct (rebalance_ok _ _ _ _ Hok Hg) as (_ & Hsame & _). pose proof Hsame as (Hcfg & _ & _ & _ & Htop).
  destruct (cg_exactly_once g (str "t") (str "hello")) as (id & c & Hc & Hp & _).
  - exact (rebalance_settles _ _ _ Hok Hg).
  - rewrite Hcfg. vm_compute. reflexivity.
  - intros H. specialize (Htop (str "a")). rewrite H, lookup_empty in Htop. vm_compute in Htop. discriminate Htop.
  - intros id c Hc. destruct (topics_lookup _ _ _ _ Hsame Hc) as (c0 & Hc0 & ->). by apply (demo_topics id).
  - exists id, c. split; [exact Hc|exact Hp].
Defined.
