(* ===== verification/Cron.v ===== *)
(** * Cron schedules ([x/messaging/scheduler/cron.go])

    Parsing cron expressions into sets of allowed values, printing them back, and
    the search for the next matching second. A location is a fixed offset from UTC
    in seconds (zones with daylight saving are outside the model); instants are
    nanoseconds since the zero time. *)

From stdpp Require Import options.
From stdpp Require Import sorting.
From S2P Require Import Prelude GoStrings GoNumbers GoTime.
#[local] Open Scope Z_scope.

(** [for i := 0; i < n; i++ { body }] with an early return: [inl] continues with the
    next state, [inr] returns. *)
Fixpoint until {A B} (f : A → A + B) (n : positive) (a : A) : A + B :=
  match n with
  | xH => f a
  | xO n => match until f n a with inl a => until f n a | r => r end
  | xI n => match f a with
            | inl a => match until f n a with inl a => until f n a | r => r end
            | r => r
            end
  end.

Module Cron.

Inductive cronErr := ErrInvalidEveryDuration | ErrInvalidCronExpr | ErrInvalidCronField.

Record CronSpec := MkSpec {
  seconds : list Z;
  minutes : list Z;
  hours : list Z;
  dom : list Z;
  months : list Z;
  dow : list Z;
  domStar : bool;
  dowStar : bool;
  location : option Z;
  interval : Z;
}.

Definition CronHourly : gostring := str "0 * * * *".
Definition CronDaily : gostring := str "0 0 * * *".
Definition CronWeekly : gostring := str "0 0 * * 0".
Definition CronMonthly : gostring := str "0 0 1 * *".
Definition CronYearly : gostring := str "0 0 1 1 *".

(** ** Fields *)

(** [for v := start; v <= end; v += step], on [int]; [None] is running out of
    fuel. *)
Fixpoint stepLoop (fuel : nat) (v last step : Z) : option (list Z) :=
  if v <=? last then
    match fuel with
    | O => None
    | S fuel => rest ← stepLoop fuel (wrap64 (v + step)) last step; Some (v :: rest)
    end
  else Some [].
(** The loop makes at most [2 * last + 4] rounds, see [stepLoop_total]. *)
Definition stepRange (start last step : Z) : option (list Z) :=
  stepLoop (Z.to_nat (2 * last + 4)) start last step.

Definition buildRange (mn mx step : Z) : option (list Z) := stepRange mn mx step.

Definition star : gostring := ["*"%char].

(** The bounds of a part without its step. *)
Definition partBounds (part : gostring) (mn mx : Z) : option (Z * Z) :=
  if decide (part = [] ∨ part = star) then Some (mn, mx)
  else if contains_byte "-" part then
    match split_on "-" part with
    | [a; b] => start ← Atoi a; last ← Atoi b; Some (start, last)
    | _ => None
    end
  else v ← Atoi part; Some (v, v).

Definition partStep (part : gostring) : option (gostring * Z) :=
  if contains_byte "/" part then
    match split_on "/" part with
    | [a; b] => step ← Atoi b; if step <=? 0 then None else Some (a, step)
    | _ => None
    end
  else Some (part, 1).

(** One comma-separated part: start, end and step. *)
Definition parsePart (part : gostring) (mn mx : Z) : option (Z * Z * Z) :=
  let part := trim_space part in
  if decide (part = []) then None
  else
    '(part, step) ← partStep part;
    '(start, last) ← partBounds part mn mx;
    if (start <? mn) || (mx <? last) || (last <? start) then None else Some (start, last, step).

(** The loop over the parts; the outer [None] is running out of fuel. *)
Fixpoint parseParts (parts : list gostring) (mn mx : Z) (values : gset Z) : option (result cronErr (gset Z)) :=
  match parts with
  | [] => Some (Ok values)
  | part :: parts =>
      match parsePart part mn mx with
      | None => Some (Err ErrInvalidCronField)
      | Some (start, last, step) =>
          vs ← stepRange start last step;
          parseParts parts mn mx (list_to_set vs ∪ values)
      end
  end.

Definition sortInts (l : list Z) : list Z := merge_sort Z.le l.

Definition parseCronField (field : gostring) (mn mx : Z) : option (result cronErr (list Z)) :=
  if decide (field = star) then Ok <$> buildRange mn mx 1
  else
    r ← parseParts (split_on "," field) mn mx ∅;
    Some match r with Ok values => Ok (sortInts (elements values)) | Err e => Err e end.

(** ** Expressions *)

(** [v, err := parseCronField(f, mn, mx); if err != nil { return err }; k] *)
Definition withField {A} (f : gostring) (mn mx : Z) (k : list Z → option (result cronErr A)) : option (result cronErr A) :=
  r ← parseCronField f mn mx;
  match r with Ok v => k v | Err e => Some (Err e) end.

(** The five fields after the seconds [s], stopping at the first error. *)
Definition parseFive (loc : option Z) (mi ho dm mo dw : gostring) (s : list Z) : option (result cronErr CronSpec) :=
  withField mi 0 59 (λ m,
  withField ho 0 23 (λ h,
  withField dm 1 31 (λ d,
  withField mo 1 12 (λ mo,
  withField dw 0 6 (λ w,
    Some (Ok (MkSpec s m h d mo w (bool_decide (trim_space dm = star)) (bool_decide (trim_space dw = star)) loc 0))))))).
Definition parseFields (sec : option gostring) (mi ho dm mo dw : gostring) (loc : option Z) :
    option (result cronErr CronSpec) :=
  match sec with
  | Some f => withField f 0 59 (parseFive loc mi ho dm mo dw)
  | None => parseFive loc mi ho dm mo dw [0]
  end.

Definition every : gostring := str "@every ".

Definition descriptor (expr : gostring) : gostring :=
  if decide (expr = str "@hourly") then CronHourly
  else if decide (expr = str "@daily" ∨ expr = str "@midnight") then CronDaily
  else if decide (expr = str "@weekly") then CronWeekly
  else if decide (expr = str "@monthly") then CronMonthly
  else if decide (expr = str "@yearly" ∨ expr = str "@annually") then CronYearly
  else expr.

(** A nil location is UTC. *)
Definition ParseCronSpecWithLocation (expr : gostring) (loc : option Z) : option (result cronErr CronSpec) :=
  let loc := Some (default 0 loc) in
  if decide (every `prefix_of` expr) then
    Some match ParseDuration (drop (length every) expr) with
    | None => Err ErrInvalidEveryDuration
    | Some d => if d <=? 0 then Err ErrInvalidEveryDuration
                else Ok (MkSpec [] [] [] [] [] [] false false loc d)
    end
  else
    match fields (descriptor expr) with
    | [mi; ho; dm; mo; dw] => parseFields None mi ho dm mo dw loc
    | [se; mi; ho; dm; mo; dw] => parseFields (Some se) mi ho dm mo dw loc
    | _ => Some (Err ErrInvalidCronExpr)
    end.
Definition ParseCronSpec (expr : gostring) : option (result cronErr CronSpec) :=
  ParseCronSpecWithLocation expr (Some 0).

(** ** Printing *)

Definition cronFieldStr (values : list Z) (mn mx : Z) : option gostring :=
  full ← buildRange mn mx 1;
  Some (if decide (values = full) then star else join_with "," (print_Z <$> values)).

Definition Expr (c : CronSpec) : option gostring :=
  if 0 <? interval c then Some (every ++ DurationString (interval c))
  else if decide (minutes c = []) then Some []
  else
    mi ← cronFieldStr (minutes c) 0 59;
    ho ← cronFieldStr (hours c) 0 23;
    dm ← cronFieldStr (dom c) 1 31;
    mo ← cronFieldStr (months c) 1 12;
    dw ← cronFieldStr (dow c) 0 6;
    let five := [mi; ho; dm; mo; dw] in
    if decide (seconds c = [] ∨ seconds c = [0]) then Some (join_with " " five)
    else se ← cronFieldStr (seconds c) 0 59; Some (join_with " " (se :: five)).

(** ** The next match *)

(** [sort.SearchInts]: the first index whose element is at least [v]. *)
Definition SearchInts (l : list Z) (v : Z) : nat := sort_search (length l) (λ i, v <=? default 0 (l !! i)).

Definition containsInt (l : list Z) (v : Z) : bool :=
  match l !! SearchInts l v with Some x => x =? v | None => false end.

(** The value to use and whether it wraps to the next unit. *)
Definition nextAllowed (current : Z) (allowed : list Z) : Z * bool :=
  match allowed with
  | [] => (current, false)
  | first :: _ =>
      match allowed !! SearchInts allowed current with
      | Some x => (x, false)
      | None => (first, true)
      end
  end.

Definition dayMatch (c : CronSpec) (l : Z) : bool :=
  let domMatch := containsInt (dom c) (Day l) in
  let dowMatch := containsInt (dow c) (Weekday l) in
  if domStar c && dowStar c then true
  else if domStar c then dowMatch
  else if dowStar c then domMatch
  else domMatch || dowMatch.

(** [c.hours[0]]; reached only when the list is not empty. *)
Definition first (l : list Z) : Z := default 0 (head l).

(** One round of the search; [l] is the wall clock of [next], in seconds. *)
Definition nextStep (c : CronSpec) (l : Z) : Z + Z :=
  if negb (containsInt (months c) (Month l)) then inl (Date (Year l) (Month l + 1) 1 0 0 0)
  else if negb (dayMatch c l) then inl (AddDate 0 0 1 (Date (Year l) (Month l) (Day l) 0 0 0))
  else
    let '(hour, carry) := nextAllowed (Hour l) (hours c) in
    if carry then inl (Date (Year l) (Month l) (Day l + 1) (first (hours c)) 0 0)
    else if negb (hour =? Hour l) then inl (Date (Year l) (Month l) (Day l) hour 0 0)
    else
      let '(minute, carry) := nextAllowed (Minute l) (minutes c) in
      if carry then inl (Date (Year l) (Month l) (Day l) (Hour l + 1) (first (minutes c)) 0)
      else if negb (minute =? Minute l) then inl (Date (Year l) (Month l) (Day l) (Hour l) minute 0)
      else
        let '(second, carry) := nextAllowed (Second l) (seconds c) in
        if carry then inl (Date (Year l) (Month l) (Day l) (Hour l) (Minute l + 1) (first (seconds c)))
        else if negb (second =? Second l) then inl (Date (Year l) (Month l) (Day l) (Hour l) (Minute l) second)
        else inr l.

Definition maxRounds : positive := 366 * 24 * 60 * 60.
Definition zeroTime : Z := 0.

(** [after] and the result are nanoseconds since the zero time. *)
Definition Next (c : CronSpec) (after : Z) : Z :=
  if 0 <? interval c then after + interval c
  else
    let off := default 0 (location c) in
    let next := after / nanosPerSecond + 1 in
    match until (nextStep c) maxRounds (next + off) with
    | inr l => (l - off) * nanosPerSecond
    | inl _ => zeroTime
    end.
End Cron.
