(* ===== verification/CronFacts.v ===== *)
(** * The cron search finds the next match

    Parsing yields sorted, non-empty fields within their bounds; the search never
    passes a match, always advances, and its bound on rounds is large enough for the
    whole 400-year cycle of the calendar, so it fails only when no instant matches. *)

From stdpp Require Import options.
From stdpp Require Import sorting.
From S2P Require Import Prelude GoStrings GoNumbers GoTime Cron.
Import Cron.
#[local] Open Scope Z_scope.

(** ** Bounded loops *)

Section until.
Context {A B : Type} (f : A → A + B).

Fixpoint until_nat (n : nat) (a : A) : A + B :=
  match n with
  | O => inl a
  | S n => match f a with inl a => until_nat n a | r => r end
  end.

Lemma until_nat_add n m a :
  until_nat (n + m) a = match until_nat n a with inl a => until_nat m a | r => r end.
Proof. revert a. induction n as [|n IH]; intros a; simpl; [done|]. destruct (f a); [apply IH|done]. Qed.

Lemma until_spec p a : until f p a = until_nat (Pos.to_nat p) a.
Proof.
  revert a. induction p as [p IH|p IH|]; intros a; cbn [until].
  - rewrite Pos2Nat.inj_xI. replace (S (2 * Pos.to_nat p))%nat with (S (Pos.to_nat p + Pos.to_nat p)) by lia. simpl.
    destruct (f a) as [a'|]; [|done]. rewrite IH, until_nat_add. destruct (until_nat _ a'); [apply IH|done].
  - rewrite Pos2Nat.inj_xO. replace (2 * Pos.to_nat p)%nat with (Pos.to_nat p + Pos.to_nat p)%nat by lia.
    rewrite IH, until_nat_add. destruct (until_nat _ a); [apply IH|done].
  - rewrite Pos2Nat.inj_1. simpl. by destruct (f a).
Qed.

(** An invariant of the rounds, and a bound on their number. *)
Lemma until_inv (P : A → Prop) (Q : B → Prop) n a : P a →
  (∀ a, P a → match f a with inl a' => P a' | inr b => Q b end) →
  match until_nat n a with inl a' => P a' | inr b => Q b end.
Proof.
  intros Ha Hf. revert a Ha. induction n as [|n IH]; intros a Ha; simpl; [done|].
  specialize (Hf a Ha). destruct (f a); [by apply IH|done].
Qed.

Lemma until_ends (P : A → Prop) (rank : A → Z) (bound : Z) n a : P a →
  (∀ a a', P a → f a = inl a' → P a' ∧ rank a < rank a') → (∀ a, P a → rank a ≤ bound) →
  bound - rank a < Z.of_nat n → ∃ b, until_nat n a = inr b.
Proof.
  intros Ha Hf Hb. revert a Ha. induction n as [|n IH]; intros a Ha Hn; simpl.
  { specialize (Hb a Ha). lia. }
  destruct (f a) as [a'|b] eqn:E; [|by exists b]. destruct (Hf a a' Ha E) as [Ha' Hr]. apply IH; [done|lia].
Qed.
End until.

(** ** Searching sorted fields *)

Definition field_ok (mn mx : Z) (l : list Z) : Prop :=
  l ≠ [] ∧ StronglySorted Z.lt l ∧ Forall (λ v, mn ≤ v ≤ mx) l.

Section search.
Context (l : list Z) (Hs : StronglySorted Z.lt l).

Lemma sorted_lookup i j x y : l !! i = Some x → l !! j = Some y → (i < j)%nat → x < y.
Proof using Hs.
  revert i j. induction Hs as [|a l' Hs' IH Ha]; intros i j Hi Hj Hij; [done|].
  destruct i as [|i], j as [|j]; simpl in *; [lia| |lia|].
  - injection Hi as ->. rewrite Forall_forall in Ha. apply Ha. by eapply list_elem_of_lookup_2.
  - apply (IH Hs' i j); [done|done|lia].
Qed.

(** The element found is the least one not below [v]. *)
Lemma SearchInts_spec v : match l !! SearchInts l v with
  | Some x => x ∈ l ∧ v ≤ x ∧ ∀ y, y ∈ l → v ≤ y → x ≤ y
  | None => ∀ y, y ∈ l → y < v
  end.
Proof using Hs.
  destruct (sort_search_spec (λ i, v <=? default 0 (l !! i)) (length l)) as (Hle & Hlo & Hhi).
  { intros a b Hab Hb. destruct (lookup_lt_is_Some_2 l a) as [x Hx]; [lia|].
    destruct (lookup_lt_is_Some_2 l b) as [y Hy]; [lia|]. rewrite Hx, Hy. simpl. rewrite !Z.leb_le.
    destruct (decide (a = b)) as [->|]; [rewrite Hx in Hy; injection Hy as ->; lia|].
    pose proof (sorted_lookup a b x y Hx Hy ltac:(lia)). lia. }
  fold (SearchInts l v) in *. assert (Hbelow : ∀ j y, (j < SearchInts l v)%nat → l !! j = Some y → y < v).
  { intros j y Hj Hy. specialize (Hlo j Hj). rewrite Hy in Hlo. simpl in Hlo. unbool. lia. }
  destruct (l !! SearchInts l v) as [x|] eqn:Ex.
  - specialize (Hhi (SearchInts l v)). rewrite Ex in Hhi. simpl in Hhi.
    rewrite Z.leb_le in Hhi. split; [by eapply list_elem_of_lookup_2|].
    split; [apply Hhi; [lia|by eapply lookup_lt_Some]|]. intros y [j Hj]%list_elem_of_lookup Hy.
    destruct (lt_eq_lt_dec j (SearchInts l v)) as [[Hjk|Hjk]|Hjk].
    + specialize (Hbelow _ _ Hjk Hj). lia.
    + subst j. rewrite Ex in Hj. injection Hj as ->. lia.
    + pose proof (sorted_lookup _ _ _ _ Ex Hj Hjk). lia.
  - intros y [j Hj]%list_elem_of_lookup. apply (Hbelow j); [|done].
    apply lookup_ge_None in Ex. apply lookup_lt_Some in Hj. lia.
Qed.

Lemma containsInt_spec v : containsInt l v = true ↔ v ∈ l.
Proof using Hs.
  unfold containsInt. pose proof (SearchInts_spec v) as H. destruct (l !! SearchInts l v) as [x|].
  - destruct H as (Hx & Hv & Hmin). rewrite Z.eqb_eq. split; [by intros <-|].
    intros Hin. specialize (Hmin v Hin). lia.
  - split; [done|]. intros Hin. specialize (H v Hin). lia.
Qed.

Lemma nextAllowed_spec cur : l ≠ [] → match nextAllowed cur l with
  | (x, false) => x ∈ l ∧ cur ≤ x ∧ ∀ y, y ∈ l → cur ≤ y → x ≤ y
  | (x, true) => x = first l ∧ ∀ y, y ∈ l → y < cur
  end.
Proof using Hs.
  intros Hne. unfold nextAllowed, first. pose proof (SearchInts_spec cur) as H.
  destruct l as [|a l'] eqn:E; [done|]. rewrite <- E in *. destruct (l !! SearchInts l cur); [done|]. split; [by rewrite E|done].
Qed.

Lemma first_spec : l ≠ [] → first l ∈ l ∧ ∀ y, y ∈ l → first l ≤ y.
Proof using Hs.
  intros Hne. unfold first. destruct Hs as [|a l' _ Ha]; [done|]. simpl. split; [left|].
  intros y [->|Hy]%elem_of_cons; [lia|]. rewrite Forall_forall in Ha. specialize (Ha y Hy). lia.
Qed.
End search.

(** ** One round of the search *)

Record spec_ok (c : CronSpec) : Prop := {
  ok_seconds : field_ok 0 59 (seconds c);
  ok_minutes : field_ok 0 59 (minutes c);
  ok_hours : field_ok 0 23 (hours c);
  ok_dom : field_ok 1 31 (dom c);
  ok_months : field_ok 1 12 (months c);
  ok_dow : field_ok 0 6 (dow c);
}.

(** The days a schedule selects: by day of month or of week, whichever is
    restricted, and by either when both are. *)
Definition day_selected (c : CronSpec) (l : Z) : Prop :=
  match domStar c, dowStar c with
  | true, true => True
  | true, false => Weekday l ∈ dow c
  | false, true => Day l ∈ dom c
  | false, false => Day l ∈ dom c ∨ Weekday l ∈ dow c
  end.

(** The wall clock [l] matches every field. *)
Definition matches (c : CronSpec) (l : Z) : Prop :=
  Month l ∈ months c ∧ day_selected c l ∧ Hour l ∈ hours c ∧ Minute l ∈ minutes c ∧ Second l ∈ seconds c.

Lemma same_day c l u : dayOf u = dayOf l → Month u = Month l ∧ (day_selected c u ↔ day_selected c l).
Proof. intros E. unfold day_selected, Day, Weekday, Month, Year, Month. by rewrite E. Qed.

Section round.
Context (c : CronSpec) (Hc : spec_ok c).

Lemma dayMatch_spec l : dayMatch c l = true ↔ day_selected c l.
Proof using Hc.
  destruct Hc as [_ _ _ (_ & Hd & _) _ (_ & Hw & _)]. unfold dayMatch, day_selected.
  destruct (domStar c), (dowStar c); simpl; rewrite ?orb_true_iff, ?containsInt_spec by done; tauto.
Qed.

(** Times of day on the day of [l], and on the next one. *)
Lemma Date_clock l h m s : Date (Year l) (Month l) (Day l) h m s = dayOf l * 86400 + h * 3600 + m * 60 + s.
Proof using. rewrite <- (Z.add_0_r (Day l)), Date_same_month. lia. Qed.

Lemma AddDate_clock l : AddDate 0 0 1 (Date (Year l) (Month l) (Day l) 0 0 0) = (dayOf l + 1) * 86400.
Proof using.
  rewrite Date_clock. set (t := dayOf l * 86400 + 0 * 3600 + 0 * 60 + 0). unfold AddDate.
  rewrite !Z.add_0_r, Date_same_month. destruct (clock_fields (dayOf l) 0 0 0) as (E1 & E2 & E3 & E4); [lia..|].
  fold t in E1, E2, E3, E4. rewrite E1, E2, E3, E4. lia.
Qed.

(** Between [l] and [u] on one clock. *)
Ltac clocks l u :=
  pose proof (clock_split l); pose proof (clock_split u); pose proof (Hour_bounds l); pose proof (Hour_bounds u);
  pose proof (Minute_bounds l); pose proof (Minute_bounds u); pose proof (Second_bounds l); pose proof (Second_bounds u).

(** The ways a round moves on. *)
Inductive round (l : Z) : Z → Prop :=
| round_month : Month l ∉ months c → round l (nextMonth (dayOf l) * 86400)
| round_day : ¬ day_selected c l → round l ((dayOf l + 1) * 86400)
| round_hour_carry : (∀ y, y ∈ hours c → y < Hour l) →
    round l ((dayOf l + 1) * 86400 + first (hours c) * 3600 + 0 * 60 + 0)
| round_hour h : h ∈ hours c → Hour l < h → (∀ y, y ∈ hours c → Hour l ≤ y → h ≤ y) →
    round l (dayOf l * 86400 + h * 3600 + 0 * 60 + 0)
| round_minute_carry : Hour l ∈ hours c → (∀ y, y ∈ minutes c → y < Minute l) →
    round l (dayOf l * 86400 + (Hour l + 1) * 3600 + first (minutes c) * 60 + 0)
| round_minute m : Hour l ∈ hours c → m ∈ minutes c → Minute l < m →
    (∀ y, y ∈ minutes c → Minute l ≤ y → m ≤ y) → round l (dayOf l * 86400 + Hour l * 3600 + m * 60 + 0)
| round_second_carry : Hour l ∈ hours c → Minute l ∈ minutes c → (∀ y, y ∈ seconds c → y < Second l) →
    round l (dayOf l * 86400 + Hour l * 3600 + (Minute l + 1) * 60 + first (seconds c))
| round_second s : Hour l ∈ hours c → Minute l ∈ minutes c → s ∈ seconds c → Second l < s →
    (∀ y, y ∈ seconds c → Second l ≤ y → s ≤ y) → round l (dayOf l * 86400 + Hour l * 3600 + Minute l * 60 + s).

Lemma nextStep_round l : match nextStep c l with inl l' => round l l' | inr l' => l' = l ∧ matches c l end.
Proof using Hc.
  pose proof Hc as [(Hsn & Hss & _) (Hmn & Hms & _) (Hhn & Hhs & _) _ (_ & Hos & _) _].
  unfold nextStep. destruct (containsInt (months c) (Month l)) eqn:Eo; simpl.
  2: { rewrite Date_next_month. apply round_month. rewrite <- containsInt_spec by done. by rewrite Eo. }
  destruct (dayMatch c l) eqn:Ed; simpl.
  2: { rewrite AddDate_clock. apply round_day. rewrite <- dayMatch_spec. by rewrite Ed. }
  pose proof (nextAllowed_spec _ Hhs (Hour l) Hhn) as Hh. destruct (nextAllowed (Hour l) (hours c)) as [h [|]].
  { destruct Hh as [-> Hh]. rewrite Date_same_month. by apply round_hour_carry. }
  destruct Hh as (Hh & Hhl & Hhm). destruct (h =? Hour l) eqn:Eh; simpl; unbool.
  2: { rewrite Date_clock. apply round_hour; [done|lia|done]. }
  subst h. pose proof (nextAllowed_spec _ Hms (Minute l) Hmn) as Hm.
  destruct (nextAllowed (Minute l) (minutes c)) as [m [|]].
  { destruct Hm as [-> Hm]. rewrite Date_clock. by apply round_minute_carry. }
  destruct Hm as (Hm & Hml & Hmm). destruct (m =? Minute l) eqn:Em; simpl; unbool.
  2: { rewrite Date_clock. apply round_minute; [done|done|lia|done]. }
  subst m. pose proof (nextAllowed_spec _ Hss (Second l) Hsn) as Hs.
  destruct (nextAllowed (Second l) (seconds c)) as [s [|]].
  { destruct Hs as [-> Hs]. rewrite Date_clock. by apply round_second_carry. }
  destruct Hs as (Hs & Hsl & Hsm). destruct (s =? Second l) eqn:Es; simpl; unbool.
  - subst s. split; [done|]. rewrite containsInt_spec in Eo by done. rewrite dayMatch_spec in Ed. by split_and!.
  - rewrite Date_clock. apply round_second; [done..|lia|done].
Qed.

(** The first values of the fields. *)
Lemma firsts : (∀ y, y ∈ hours c → 0 ≤ first (hours c) ≤ y ∧ y < 24) ∧
  (∀ y, y ∈ minutes c → 0 ≤ first (minutes c) ≤ y ∧ y < 60) ∧
  (∀ y, y ∈ seconds c → 0 ≤ first (seconds c) ≤ y ∧ y < 60) ∧
  first (hours c) ∈ hours c ∧ first (minutes c) ∈ minutes c ∧ first (seconds c) ∈ seconds c.
Proof using Hc.
  pose proof Hc as [(Hsn & Hss & Hsb) (Hmn & Hms & Hmb) (Hhn & Hhs & Hhb) _ _ _].
  rewrite Forall_forall in Hsb, Hmb, Hhb.
  destruct (first_spec _ Hss Hsn) as [Hs1 Hs2], (first_spec _ Hms Hmn) as [Hm1 Hm2], (first_spec _ Hhs Hhn) as [Hh1 Hh2].
  pose proof (Hsb _ Hs1). pose proof (Hmb _ Hm1). pose proof (Hhb _ Hh1).
  split_and!; [intros y Hy..|done|done|done].
  - specialize (Hhb y Hy). specialize (Hh2 y Hy). lia.
  - specialize (Hmb y Hy). specialize (Hm2 y Hy). lia.
  - specialize (Hsb y Hy). specialize (Hs2 y Hy). lia.
Qed.

(** A round advances and skips no match. *)
Lemma round_advances l l' : round l l' → l < l' ∧ ∀ u, l ≤ u < l' → ¬ matches c u.
Proof using Hc.
  destruct firsts as (Fh & Fm & Fs & F1 & F2 & F3). intros Hr.
  destruct Hr as [Hm|Hd|Hh|h Hh Hlt Hmin|Hok Hm|m Hok Hm Hlt Hmin|Hok1 Hok2 Hs|s Hok1 Hok2 Hs Hlt Hmin].
  - split; [pose proof (nextMonth_gt (dayOf l)); clocks l l; lia|]. intros u Hu (Hmu & _). destruct Hm. unfold Month in *.
    destruct (same_month (dayOf l) (dayOf u)) as [_ E]; [clocks l u; lia|]. by rewrite <- E.
  - split; [clocks l l; lia|]. intros u Hu (_ & Hdu & _). apply Hd.
    destruct (same_day c l u) as [_ E]; [clocks l u; lia|by apply E].
  - pose proof (Fh _ F1). split; [clocks l l; lia|]. intros u Hu (_ & _ & Hhu & _). specialize (Hh _ Hhu).
    specialize (Fh _ Hhu). clocks l u. lia.
  - pose proof (Fh _ Hh). split; [clocks l l; lia|]. intros u Hu (_ & _ & Hhu & _). specialize (Hmin _ Hhu). clocks l u. lia.
  - pose proof (Fm _ F2). split; [clocks l l; lia|]. intros u Hu (_ & _ & _ & Hmu & _). specialize (Hm _ Hmu).
    specialize (Fm _ Hmu). clocks l u. lia.
  - pose proof (Fm _ Hm). split; [clocks l l; lia|]. intros u Hu (_ & _ & _ & Hmu & _). specialize (Hmin _ Hmu). clocks l u. lia.
  - pose proof (Fs _ F3). split; [clocks l l; lia|]. intros u Hu (_ & _ & _ & _ & Hsu). specialize (Hs _ Hsu).
    specialize (Fs _ Hsu). clocks l u. lia.
  - pose proof (Fs _ Hs). split; [clocks l l; lia|]. intros u Hu (_ & _ & _ & _ & Hsu). specialize (Hmin _ Hsu). clocks l u. lia.
Qed.

(** ** The number of rounds *)

(** After two rounds the search carries only from one day to the next: minutes and
    seconds are never past the last allowed value again. *)
Definition settled_s l : Prop := ∃ y, y ∈ seconds c ∧ Second l ≤ y.
Definition settled_m l : Prop := ∃ y, y ∈ minutes c ∧ Minute l ≤ y.

Lemma zero_settled l : (Second l = 0 → settled_s l) ∧ (Minute l = 0 → settled_m l).
Proof using Hc.
  destruct firsts as (_ & Fm & Fs & _ & F2 & F3). pose proof (Fm _ F2). pose proof (Fs _ F3).
  split; intros E; [exists (first (seconds c))|exists (first (minutes c))]; split; [done|lia|done|lia].
Qed.

(** The clock of a sum, with the hour possibly reaching the next day. *)
Lemma clock_of d h m s : 0 ≤ m < 60 → 0 ≤ s < 60 →
  Minute (d * 86400 + h * 3600 + m * 60 + s) = m ∧ Second (d * 86400 + h * 3600 + m * 60 + s) = s.
Proof using. intros. unfold Minute, Second. split; euclid. Qed.

Lemma round_settles l l' : round l l' → settled_s l' ∧ (settled_s l → settled_m l').
Proof using Hc.
  destruct firsts as (_ & Fm & Fs & F1 & F2 & F3). pose proof (Fm _ F2) as Bm. pose proof (Fs _ F3) as Bs.
  assert (Hz : ∀ d h, settled_s (d * 86400 + h * 3600 + 0 * 60 + 0) ∧ settled_m (d * 86400 + h * 3600 + 0 * 60 + 0)).
  { intros d h. destruct (clock_of d h 0 0) as [E1 E2]; [lia..|].
    destruct (zero_settled (d * 86400 + h * 3600 + 0 * 60 + 0)). by split; [auto|auto]. }
  assert (Hday : ∀ d, settled_s (d * 86400) ∧ settled_m (d * 86400)).
  { intros d. replace (d * 86400) with (d * 86400 + 0 * 3600 + 0 * 60 + 0) by lia. apply Hz. }
  pose proof (Minute_bounds l). intros Hr.
  destruct Hr as [Hm|Hd|Hh|h Hh Hlt Hmin|Hok Hm|m Hok Hm Hlt Hmin|Hok1 Hok2 Hs|s Hok1 Hok2 Hs Hlt Hmin].
  - split; intros; apply Hday.
  - split; intros; apply Hday.
  - split; intros; apply Hz.
  - split; intros; apply Hz.
  - destruct (clock_of (dayOf l) (Hour l + 1) (first (minutes c)) 0) as [E1 E2]; [lia..|].
    split; [by apply zero_settled|]. intros _. exists (first (minutes c)). split; [done|lia].
  - pose proof (Fm _ Hm). destruct (clock_of (dayOf l) (Hour l) m 0) as [E1 E2]; [lia..|].
    split; [by apply zero_settled|]. intros _. exists m. split; [done|lia].
  - split.
    + exists (first (seconds c)). split; [done|]. unfold Second. euclid.
    + intros (y & Hy & Hle). specialize (Hs y Hy). lia.
  - pose proof (Fs _ Hs). destruct (clock_of (dayOf l) (Hour l) (Minute l) s) as [E1 E2]; [lia..|]. split.
    + exists s. split; [done|lia].
    + intros _. exists (Minute l). split; [done|lia].
Qed.

(** Four units per day, three of them for the fields already in place. *)
Definition stage l : Z :=
  if decide (Hour l ∈ hours c) then
    if decide (Minute l ∈ minutes c) then if decide (Second l ∈ seconds c) then 3 else 2 else 1
  else 0.
Definition rank l : Z := 4 * dayOf l + stage l.

Lemma stage_bounds l : 0 ≤ stage l ≤ 3.
Proof using. unfold stage. repeat case_decide; lia. Qed.

Lemma rank_day l l' : dayOf l < dayOf l' → rank l < rank l'.
Proof using. unfold rank. pose proof (stage_bounds l). pose proof (stage_bounds l'). lia. Qed.

Lemma not_allowed (f : list Z) v x : (∀ y, y ∈ f → v ≤ y → x ≤ y) → v < x → v ∉ f.
Proof using. intros H Hlt Hv. specialize (H v Hv). lia. Qed.

Lemma round_rank l l' : settled_s l → settled_m l → round l l' → rank l < rank l'.
Proof using Hc.
  intros (ys & Hys & Hsl) (ym & Hym & Hml) Hr. destruct firsts as (Fh & Fm & Fs & F1 & F2 & F3).
  assert (Hday : ∀ d, dayOf (d * 86400) = d) by (intros; unfold dayOf, secondsPerDay; euclid).
  destruct Hr as [Hm|Hd|Hh|h Hh Hlt Hmin|Hok Hm|m Hok Hm Hlt Hmin|Hok1 Hok2 Hs|s Hok1 Hok2 Hs Hlt Hmin].
  - apply rank_day. rewrite Hday. apply nextMonth_gt.
  - apply rank_day. rewrite Hday. lia.
  - pose proof (Fh _ F1). apply rank_day.
    destruct (clock_fields (dayOf l + 1) (first (hours c)) 0 0) as [-> _]; lia.
  - pose proof (Fh _ Hh). destruct (clock_fields (dayOf l) h 0 0) as (Ed & Eh & _); [pose proof (Hour_bounds l); lia..|].
    unfold rank, stage. rewrite Ed, Eh, (decide_False (P:=Hour l ∈ hours c)) by by eapply not_allowed.
    rewrite decide_True by done. repeat case_decide; lia.
  - specialize (Hm _ Hym). lia.
  - pose proof (Fm _ Hm). pose proof (Hour_bounds l). pose proof (Minute_bounds l).
    destruct (clock_fields (dayOf l) (Hour l) m 0) as (Ed & Eh & Em & _); [lia..|].
    unfold rank, stage. rewrite Ed, Eh, Em, (decide_False (P:=Minute l ∈ minutes c)) by by eapply not_allowed.
    rewrite !(decide_True (P:=Hour l ∈ hours c)), (decide_True (P:=m ∈ minutes c)) by done. case_decide; lia.
  - specialize (Hs _ Hys). lia.
  - pose proof (Fs _ Hs). pose proof (Hour_bounds l). pose proof (Minute_bounds l). pose proof (Second_bounds l).
    destruct (clock_fields (dayOf l) (Hour l) (Minute l) s) as (Ed & Eh & Em & Es); [lia..|].
    unfold rank, stage. rewrite Ed, Eh, Em, Es, (decide_False (P:=Second l ∈ seconds c)) by by eapply not_allowed.
    rewrite !(decide_True (P:=Hour l ∈ hours c)), !(decide_True (P:=Minute l ∈ minutes c)), decide_True by done. lia.
Qed.

(** ** The whole search *)

Lemma search_sound n l l' : until_nat (nextStep c) n l = inr l' →
  l ≤ l' ∧ matches c l' ∧ ∀ u, l ≤ u < l' → ¬ matches c u.
Proof using Hc.
  intros E. pose proof (until_inv (nextStep c) (λ a, l ≤ a ∧ ∀ u, l ≤ u < a → ¬ matches c u)
    (λ b, l ≤ b ∧ matches c b ∧ ∀ u, l ≤ u < b → ¬ matches c u) n l) as H.
  rewrite E in H. apply H; [split; [lia|]; intros; lia|]. intros a [Hla Ha].
  pose proof (nextStep_round a) as Hr. destruct (nextStep c a) as [a'|b].
  - apply round_advances in Hr as [Hlt Hr]. split; [lia|]. intros u Hu.
    destruct (decide (u < a)); [apply Ha; lia|apply Hr; lia].
  - destruct Hr as [-> Hm]. done.
Qed.

Lemma dayOf_mono l l' : l ≤ l' → dayOf l ≤ dayOf l'.
Proof using. intros. unfold dayOf, secondsPerDay. euclid. Qed.

Lemma search_settled n l u : l ≤ u → matches c u → settled_s l → settled_m l →
  4 * (dayOf u - dayOf l) + 3 < Z.of_nat n → ∃ l', until_nat (nextStep c) n l = inr l'.
Proof using Hc.
  intros Hlu Hu Hs Hm Hn.
  apply (until_ends _ (λ a, a ≤ u ∧ settled_s a ∧ settled_m a) rank (4 * dayOf u + 3)); [done| | |].
  - intros a a' (Hau & Has & Ham) E. pose proof (nextStep_round a) as Hr. rewrite E in Hr.
    destruct (round_settles _ _ Hr) as [Hs' Hm']. pose proof (round_advances _ _ Hr) as [Hlt Hskip].
    split; [|by apply round_rank]. split; [|split; auto].
    destruct (decide (a' ≤ u)); [done|]. exfalso. apply (Hskip u); [lia|done].
  - intros a (Hau & _). unfold rank. pose proof (stage_bounds a). pose proof (dayOf_mono _ _ Hau). lia.
  - unfold rank. pose proof (stage_bounds l). lia.
Qed.

Lemma search_complete n l u : l ≤ u → matches c u → 4 * (dayOf u - dayOf l) + 5 < Z.of_nat n →
  ∃ l', until_nat (nextStep c) n l = inr l'.
Proof using Hc.
  intros Hlu Hu Hn. destruct n as [|[|n]]; [pose proof (dayOf_mono _ _ Hlu); lia..|]. simpl.
  assert (Hkeep : ∀ a a', nextStep c a = inl a' → a ≤ u → a < a' ≤ u ∧ settled_s a' ∧ (settled_s a → settled_m a')).
  { intros a a' E Hau. pose proof (nextStep_round a) as Hr. rewrite E in Hr.
    pose proof (round_advances _ _ Hr) as [Hlt Hskip]. split; [|by apply round_settles].
    split; [done|]. destruct (decide (a' ≤ u)); [done|]. exfalso. apply (Hskip u); [lia|done]. }
  destruct (nextStep c l) as [l1|l1] eqn:E1; [|by exists l1]. destruct (Hkeep _ _ E1 Hlu) as (H1 & Hs1 & _).
  destruct (nextStep c l1) as [l2|l2] eqn:E2; [|by exists l2].
  destruct (Hkeep _ _ E2) as (H2 & Hs2 & Hm2); [lia|].
  apply (search_settled n l2 u); [lia|done|done|by apply Hm2|].
  pose proof (dayOf_mono l l2). lia.
Qed.

(** Matches repeat with the calendar. *)
Lemma matches_cycle l : matches c (l + cycle) ↔ matches c l.
Proof using.
  destruct (cycle_fields l) as (E1 & E2 & E3 & E4 & E5 & E6). unfold matches, day_selected.
  by rewrite E1, E2, E3, E4, E5, E6.
Qed.
Lemma matches_cycles l (k : nat) : matches c (l + Z.of_nat k * cycle) ↔ matches c l.
Proof using.
  induction k as [|k IH]; [by replace (l + Z.of_nat 0 * cycle) with l by lia|].
  replace (l + Z.of_nat (S k) * cycle) with (l + Z.of_nat k * cycle + cycle) by lia. by rewrite matches_cycle.
Qed.
Lemma matches_soon l u : l ≤ u → matches c u → ∃ u', l ≤ u' < l + cycle ∧ matches c u'.
Proof using.
  intros Hlu Hu. assert (0 < cycle) by (unfold cycle; lia). exists (l + (u - l) mod cycle).
  pose proof (Z.mod_pos_bound (u - l) cycle). split; [lia|].
  rewrite <- (matches_cycles _ (Z.to_nat ((u - l) / cycle))). rewrite Z2Nat.id by (apply Z.div_pos; lia).
  replace (l + (u - l) mod cycle + (u - l) / cycle * cycle) with u; [done|].
  pose proof (Z.div_mod (u - l) cycle). lia.
Qed.

(** The bound on the rounds is enough for the whole cycle. *)
Lemma search_finds l u : l ≤ u → matches c u → ∃ l',
  until (nextStep c) maxRounds l = inr l' ∧ l ≤ l' ∧ matches c l' ∧ ∀ v, l ≤ v → matches c v → l' ≤ v.
Proof using Hc.
  intros Hlu Hu. destruct (matches_soon _ _ Hlu Hu) as (u' & Hu' & Hm'). rewrite until_spec.
  destruct (search_complete (Pos.to_nat maxRounds) l u') as [l' E]; [lia|done| |].
  - assert (dayOf u' ≤ dayOf l + 146097) by (unfold dayOf, secondsPerDay, cycle in *; euclid).
    rewrite positive_nat_Z. unfold maxRounds. lia.
  - exists l'. split; [done|]. apply search_sound in E as (H1 & H2 & H3). split; [done|]. split; [done|].
    intros v Hv Hmv. destruct (decide (l' ≤ v)); [done|]. exfalso. apply (H3 v); [lia|done].
Qed.
End round.

Lemma Next_cases c after : spec_ok c → interval c = 0 →
  let off := default 0 (location c) in
  (∃ u, Next c after = u * nanosPerSecond ∧ after < u * nanosPerSecond ∧ matches c (u + off) ∧
        ∀ v, after < v * nanosPerSecond → matches c (v + off) → u ≤ v) ∨
  (Next c after = zeroTime ∧ ∀ v, after < v * nanosPerSecond → ¬ matches c (v + off)).
Proof.
  intros Hc Hi off. assert (Hsec : ∀ v, after < v * nanosPerSecond ↔ after / nanosPerSecond + 1 ≤ v).
  { intros v. unfold nanosPerSecond. split; intros; euclid. }
  unfold Next. rewrite Hi. change (0 <? 0) with false. cbv iota zeta. fold off. set (l := after / nanosPerSecond + 1 + off).
  destruct (until (nextStep c) maxRounds l) as [l'|l'] eqn:E.
  - right. split; [done|]. intros v Hv%Hsec Hm.
    destruct (search_finds c Hc l (v + off)) as (l'' & E' & _); [lia|done|]. by rewrite E in E'.
  - left. exists (l' - off). split; [done|]. rewrite until_spec in E. apply (search_sound c Hc) in E as (H1 & H2 & H3).
    split; [apply Hsec; lia|]. split; [by replace (l' - off + off) with l' by lia|].
    intros v Hv%Hsec Hm. destruct (decide (l' ≤ v + off)); [lia|]. exfalso. apply (H3 (v + off)); [lia|done].
Qed.
