(* ===== verification/CronProps.v ===== *)
(** * Cron expressions: parsing, printing and scheduling *)

From stdpp Require Import options.
From stdpp Require Import sorting.
From S2P Require Import Prelude GoStrings GoNumbers GoTime Cron CronFacts.
Import Cron.
#[local] Open Scope Z_scope.

(** ** The loop over a stepped range *)

Lemma Atoi_range s n : Atoi s = Some n → is_int64 n.
Proof. unfold Atoi, is_int64, int64_min, int64_max. intros H. repeat case_match; simplify_eq; unbool; lia. Qed.

Lemma wrap64_over z : 2 ^ 63 ≤ z < 2 ^ 64 → wrap64 z = z - 2 ^ 64.
Proof. intros H. unfold wrap64. rewrite <- (Z.mod_add (z + 2 ^ 63) (-1)) by lia. rewrite Z.mod_small by lia. lia. Qed.

(** Without overflow: the multiples of the step from [v] to [last]. *)
Lemma stepLoop_small fuel v last step : 0 < step → 0 ≤ v ≤ last + step → last + step < 2 ^ 63 →
  last - v < Z.of_nat fuel → ∃ vs, stepLoop fuel v last step = Some vs ∧
    (∀ x, x ∈ vs ↔ ∃ k, 0 ≤ k ∧ x = v + k * step ∧ x ≤ last) ∧ StronglySorted Z.lt vs.
Proof.
  intros Hst. revert v. induction fuel as [|fuel IH]; intros v Hv Hw Hf; cbn [stepLoop];
    destruct (v <=? last) eqn:E; unbool; try lia.
  2: { rewrite wrap64_small by (unfold is_int64, int64_min, int64_max; lia).
       destruct (IH (v + step)) as (vs & -> & Hvs & Hs); [lia..|]. simpl. exists (v :: vs). split; [done|]. split.
       2: { constructor; [done|]. apply Forall_forall. intros x (k & Hk & -> & _)%Hvs. nia. }
       intros x. rewrite elem_of_cons, Hvs. split.
       - intros [->|(k & Hk & -> & Hx)]; [exists 0; lia|exists (k + 1); lia].
       - intros (k & Hk & -> & Hx). destruct (decide (k = 0)) as [->|]; [left; lia|]. right. exists (k - 1). lia. }
  all: exists []; split; [done|]; split; [|constructor]; intros x; rewrite elem_of_nil; split; [done|]; intros (k & Hk & -> & Hx); nia.
Qed.

(** With overflow: two rounds take the value down, until it no longer wraps. *)
Lemma stepLoop_wraps fuel v last step : 2 ^ 63 ≤ last + step → step < 2 ^ 63 → 0 ≤ v ≤ last → last < 2 ^ 61 →
  2 * v + 4 ≤ Z.of_nat fuel → ∃ vs, stepLoop fuel v last step = Some vs.
Proof.
  intros Hw Hst. remember (Z.to_nat v) as n eqn:En. revert fuel v En.
  induction (lt_wf n) as [n _ IH]. intros fuel v -> Hv Hl Hf.
  assert (Hstop : ∀ f x, last < x → stepLoop f x last step = Some []).
  { intros f x Hx. destruct f; cbn [stepLoop]; by rewrite (proj2 (Z.leb_gt _ _)) by lia. }
  destruct fuel as [|[|[|fuel]]]; try lia. cbn [stepLoop]. rewrite (proj2 (Z.leb_le v last)) by lia.
  destruct (decide (v + step < 2 ^ 63)) as [Hlt|Hge].
  { rewrite wrap64_small by (unfold is_int64, int64_min, int64_max; lia).
    rewrite (proj2 (Z.leb_gt (v + step) last)) by lia. by eexists. }
  rewrite wrap64_over by lia. rewrite (proj2 (Z.leb_le (v + step - 2 ^ 64) last)) by lia.
  rewrite (wrap64_small (v + step - 2 ^ 64 + step)) by (unfold is_int64, int64_min, int64_max; lia).
  set (v' := v + step - 2 ^ 64 + step). destruct (decide (0 ≤ v')) as [Hp|Hn].
  - destruct (IH (Z.to_nat v')) with (S fuel) v' as [vs Hvs]; [unfold v' in *; lia|done|unfold v' in *; lia..|].
    cbn [stepLoop] in Hvs. rewrite Hvs. by eexists.
  - rewrite (proj2 (Z.leb_le v' last)) by lia.
    rewrite wrap64_small by (unfold is_int64, int64_min, int64_max, v' in *; lia).
    rewrite Hstop by (unfold v' in *; lia). by eexists.
Qed.

Lemma stepRange_total start last step : 0 < step < 2 ^ 63 → 0 ≤ start ≤ last → last < 2 ^ 61 →
  ∃ vs, stepRange start last step = Some vs.
Proof.
  intros Hst Hs Hl. unfold stepRange. destruct (decide (last + step < 2 ^ 63)).
  - destruct (stepLoop_small (Z.to_nat (2 * last + 4)) start last step) as (vs & E & _); [lia..|]. by exists vs.
  - apply stepLoop_wraps; lia.
Qed.

Lemma parsePart_range part mn mx start last step : parsePart part mn mx = Some (start, last, step) →
  mn ≤ start ≤ last ∧ last ≤ mx ∧ 0 < step < 2 ^ 63.
Proof.
  unfold parsePart. case_decide; [done|]. destruct (partStep _) as [[p st]|] eqn:Es; [|done]. simpl.
  destruct (partBounds p mn mx) as [[a b]|]; [|done]. simpl. destruct (_ || _) eqn:E; [done|]. intros [= -> -> ->].
  unbool. split; [lia|]. split; [lia|]. unfold partStep in Es.
  destruct (contains_byte _ _); [|injection Es as _ <-; lia].
  destruct (split_on _ _) as [|x [|y [|]]]; try done. destruct (Atoi y) as [n|] eqn:Ea; [|done]. simpl in Es.
  apply Atoi_range in Ea. unfold is_int64, int64_min, int64_max in Ea.
  destruct (n <=? 0) eqn:En; [done|]. unbool. injection Es as _ <-. lia.
Qed.

(** ** Fields *)

Lemma buildRange_spec mn mx : 0 ≤ mn ≤ mx → mx < 2 ^ 61 →
  ∃ vs, buildRange mn mx 1 = Some vs ∧ (∀ x, x ∈ vs ↔ mn ≤ x ≤ mx) ∧ StronglySorted Z.lt vs.
Proof.
  intros Hmn Hmx. unfold buildRange, stepRange.
  destruct (stepLoop_small (Z.to_nat (2 * mx + 4)) mn mx 1) as (vs & E & Hvs & Hs); [lia..|].
  exists vs. split; [done|]. split; [|done]. intros x. rewrite Hvs. split; [intros (k & ? & ? & ?); lia|]. intros. exists (x - mn). lia.
Qed.

Lemma forallb_Forall {A} (f : A → bool) l : forallb f l = true ↔ Forall (λ x, f x = true) l.
Proof. induction l as [|x l IH]; simpl; [split; [constructor|done]|]. by rewrite andb_true_iff, IH, Forall_cons. Qed.

(** *** The grammar of fields, independent of the parser *)

(** What is written before a step: nothing or a star is the whole interval, then a range
    and a single value. A number is what [strconv.Atoi] reads. *)
Inductive reads_base (mn mx : Z) : gostring → Z → Z → Prop :=
| base_nothing : reads_base mn mx [] mn mx
| base_star : reads_base mn mx (str "*") mn mx
| base_range a b x y : "-"%char ∉ a → "-"%char ∉ b → Atoi a = Some x → Atoi b = Some y → reads_base mn mx (a ++ "-"%char :: b) x y
| base_value a x : "-"%char ∉ a → Atoi a = Some x → reads_base mn mx a x x.
(** A part: first value, last value, step. *)
Inductive reads_part (mn mx : Z) : gostring → Z → Z → Z → Prop :=
| part_plain p x y : p ≠ [] → "/"%char ∉ p → reads_base mn mx p x y → reads_part mn mx p x y 1
| part_step p s x y n : "/"%char ∉ p → "/"%char ∉ s → Atoi s = Some n → 0 < n → reads_base mn mx p x y →
    reads_part mn mx (p ++ "/"%char :: s) x y n.
(** A part that is accepted, and the values it stands for. *)
Definition part_means (mn mx : Z) (part : gostring) (x y n : Z) : Prop :=
  reads_part mn mx (trim_space part) x y n ∧ mn ≤ x ≤ y ∧ y ≤ mx.
Definition part_value (mn mx : Z) (part : gostring) (v : Z) : Prop :=
  ∃ x y n k, part_means mn mx part x y n ∧ 0 ≤ k ∧ v = x + k * n ∧ v ≤ y.
Definition field_wf (mn mx : Z) (field : gostring) : Prop :=
  field = str "*" ∨ ∀ part, part ∈ split_on "," field → ∃ x y n, part_means mn mx part x y n.

Lemma split_two c s x y : split_on c s = [x; y] ↔ s = x ++ c :: y ∧ c ∉ x ∧ c ∉ y.
Proof.
  split.
  - intros E. pose proof (join_split c s) as Hj. pose proof (split_on_parts c s) as Hp. rewrite E in Hj, Hp.
    inv Hp. match goal with H : Forall _ [y] |- _ => inv H end. done.
  - intros (-> & Hx & Hy). by rewrite split_on_app, split_on_no_sep.
Qed.
Lemma contains_spec c s : contains_byte c s = true ↔ c ∈ s.
Proof. apply bool_decide_eq_true. Qed.
Lemma contains_false c s : contains_byte c s = false ↔ c ∉ s.
Proof. apply bool_decide_eq_false. Qed.
Lemma contains_app c x y : contains_byte c (x ++ c :: y) = true.
Proof. apply contains_spec. set_solver. Qed.

Lemma partBounds_iff p mn mx x y : partBounds p mn mx = Some (x, y) ↔ reads_base mn mx p x y.
Proof.
  assert (Hstar : ∀ n, Atoi star ≠ Some n) by (intros n H; vm_compute in H; discriminate). split.
  - unfold partBounds. case_decide as Hd; [intros [= <- <-]; destruct Hd as [->| ->]; constructor|].
    destruct (contains_byte "-" p) eqn:Ec.
    + destruct (split_on "-" p) as [|a [|b [|]]] eqn:Es; try done. apply split_two in Es as (-> & Ha & Hb).
      destruct (Atoi a) eqn:Ea; [|done]. destruct (Atoi b) eqn:Eb; [|done]. intros [= <- <-]. by constructor.
    + apply contains_false in Ec. destruct (Atoi p) eqn:Ea; [|done]. intros [= <- <-]. by constructor.
  - intros H. unfold partBounds. destruct H as [| |a b x y Ha Hb Ea Eb|a x Ha Ea].
    + by rewrite decide_True by (by left).
    + by rewrite decide_True by (by right).
    + rewrite decide_False by (intros [E|E]; [by destruct a|]; destruct a as [|? [|]]; by simplify_eq/=).
      rewrite contains_app, (proj2 (split_two "-" (a ++ "-"%char :: b) a b)) by done. by rewrite Ea, Eb.
    + rewrite decide_False by (intros [-> | ->]; [done|by apply (Hstar x)]). rewrite (proj2 (contains_false _ _)) by done. by rewrite Ea.
Qed.
Lemma partStep_iff p q n : partStep p = Some (q, n) ↔
  ("/"%char ∉ p ∧ q = p ∧ n = 1) ∨ ∃ s, p = q ++ "/"%char :: s ∧ "/"%char ∉ q ∧ "/"%char ∉ s ∧ Atoi s = Some n ∧ 0 < n.
Proof.
  unfold partStep. destruct (contains_byte "/" p) eqn:Ec.
  - apply contains_spec in Ec. split.
    + destruct (split_on "/" p) as [|a [|b [|]]] eqn:Es; try done. apply split_two in Es as (-> & Ha & Hb).
      destruct (Atoi b) eqn:Eb; [|done]. simpl. case_match; [done|]. intros [= <- <-]. unbool. right. by exists b.
    + intros [[? _]|(s & -> & Hq & Hs & Ea & Hn)]; [done|]. rewrite (proj2 (split_two "/" (q ++ "/"%char :: s) q s)) by done.
      rewrite Ea. simpl. by rewrite (proj2 (Z.leb_gt n 0)) by lia.
  - apply contains_false in Ec. split; [intros [= <- <-]; by left|]. intros [(_ & -> & ->)|(s & -> & _)]; [done|set_solver].
Qed.
(** The parser accepts exactly the parts of the grammar. *)
Lemma parsePart_iff part mn mx x y n : parsePart part mn mx = Some (x, y, n) ↔ part_means mn mx part x y n.
Proof.
  unfold parsePart, part_means. generalize (trim_space part). intros p. split.
  - case_decide as Hne; [done|]. destruct (partStep p) as [[q st]|] eqn:Es; [|done]. simpl.
    destruct (partBounds q mn mx) as [[a b]|] eqn:Eb; [|done]. simpl. destruct (_ || _) eqn:E; [done|]. intros [= -> -> ->].
    unbool. split; [|lia]. apply partBounds_iff in Eb. apply partStep_iff in Es as [(Hs & -> & ->)|(s & -> & ? & ? & ? & ?)]; by constructor.
  - intros (Hr & Hb & Hm). destruct Hr as [p x y Hne Hs Hbase|p s x y n H1 H2 H3 H4 Hbase]; apply partBounds_iff in Hbase.
    + rewrite decide_False by done. rewrite (proj2 (partStep_iff p p 1)) by (by left). simpl. rewrite Hbase. simpl.
      by rewrite (proj2 (Z.ltb_ge x mn)), (proj2 (Z.ltb_ge mx y)), (proj2 (Z.ltb_ge y x)) by lia.
    + rewrite decide_False by (by destruct p). rewrite (proj2 (partStep_iff _ p n)) by (right; by exists s). simpl. rewrite Hbase. simpl.
      by rewrite (proj2 (Z.ltb_ge x mn)), (proj2 (Z.ltb_ge mx y)), (proj2 (Z.ltb_ge y x)) by lia.
Qed.

(** No step so large that adding it to a value overflows. *)
Definition step_fits (part : gostring) : bool :=
  match partStep (trim_space part) with Some (_, step) => step <? 2 ^ 62 | None => true end.
Definition steps_fit (field : gostring) : bool := forallb step_fits (split_on "," field).

Lemma parsePart_fits part mn mx start last step : step_fits part = true →
  parsePart part mn mx = Some (start, last, step) → step < 2 ^ 62.
Proof.
  intros Hf. unfold parsePart. case_decide; [done|]. unfold step_fits in Hf.
  destruct (partStep _) as [[p st]|]; [|done]. simpl.
  destruct (partBounds p mn mx) as [[a b]|]; [|done]. simpl. destruct (_ || _); [done|]. intros [= _ _ <-]. by unbool.
Qed.

Lemma parseParts_values parts mn mx values r : 0 ≤ mn → mx < 2 ^ 61 →
  forallb step_fits parts = true →
  parseParts parts mn mx values = Some (Ok r) →
  Forall (λ part, ∃ v, part_value mn mx part v) parts ∧
  ∀ v, v ∈ r ↔ v ∈ values ∨ ∃ part, part ∈ parts ∧ part_value mn mx part v.
Proof.
  intros Hmn Hmx Hf%forallb_Forall. revert values. induction Hf as [|part parts Hp Hf IH]; intros values; simpl.
  { intros [= ->]. split; [constructor|]. intros v. split; [by left|]. intros [?|(? & []%not_elem_of_nil & _)]; done. }
  destruct (parsePart part mn mx) as [[[start last] step]|] eqn:E; [|done].
  pose proof (parsePart_range _ _ _ _ _ _ E) as (H1 & H2 & H3). pose proof (parsePart_fits _ _ _ _ _ _ Hp E). unfold stepRange.
  destruct (stepLoop_small (Z.to_nat (2 * last + 4)) start last step) as (vs & -> & Hvs & _); [lia..|]. simpl.
  intros Hr. destruct (IH _ Hr) as [Hall Hmem].
  assert (Hpv : ∀ v, part_value mn mx part v ↔ v ∈ vs).
  { intros v. rewrite Hvs. unfold part_value. setoid_rewrite <- parsePart_iff. rewrite E. naive_solver. }
  split.
  - constructor; [|done]. exists start. apply Hpv, Hvs. exists 0. lia.
  - intros v. rewrite Hmem, elem_of_union, elem_of_list_to_set, <- Hpv. setoid_rewrite elem_of_cons. naive_solver.
Qed.

Lemma sortInts_ok (X : gset Z) : StronglySorted Z.lt (sortInts (elements X)) ∧ ∀ v, v ∈ sortInts (elements X) ↔ v ∈ X.
Proof.
  unfold sortInts. assert (Hp : merge_sort Z.le (elements X) ≡ₚ elements X) by apply merge_sort_Permutation.
  split; [|intros v; by rewrite Hp, elem_of_elements].
  assert (Hnd : NoDup (merge_sort Z.le (elements X))) by (rewrite Hp; apply NoDup_elements).
  pose proof (StronglySorted_merge_sort Z.le (elements X)) as Hs. revert Hs Hnd.
  generalize (merge_sort Z.le (elements X)). intros l Hs Hnd. induction Hs as [|a l Hs IH Ha]; [constructor|].
  apply NoDup_cons in Hnd as [Hn Hnd]. constructor; [by apply IH|]. rewrite Forall_forall in *.
  intros y Hy. specialize (Ha y Hy). assert (a ≠ y) by (by intros ->). lia.
Qed.

Lemma sorted_ext (l k : list Z) : StronglySorted Z.lt l → StronglySorted Z.lt k → (∀ v, v ∈ l ↔ v ∈ k) → l = k.
Proof.
  intros Hl Hk He. assert (Hnd : ∀ l, StronglySorted Z.lt l → NoDup l).
  { intros m Hm. induction Hm as [|a m Hm IH Ha]; constructor; [|done]. intros Hin. rewrite Forall_forall in Ha.
    specialize (Ha a Hin). lia. }
  apply (StronglySorted_unique_strong Z.lt); [intros; lia|done|done|]. apply NoDup_Permutation; auto.
Qed.

Lemma parsed_field field mn mx vs : 0 ≤ mn ≤ mx → mx < 2 ^ 61 → steps_fit field = true →
  parseCronField field mn mx = Some (Ok vs) →
  field_ok mn mx vs ∧ ∀ v, v ∈ vs ↔ if decide (field = star) then mn ≤ v ≤ mx
                                   else ∃ part, part ∈ split_on "," field ∧ part_value mn mx part v.
Proof.
  intros Hmn Hmx Hst. unfold parseCronField. case_decide as Hs.
  - destruct (buildRange_spec mn mx) as (l & E & Hl & Hsort); [lia..|]. rewrite E. intros [= <-]. split; [|done].
    split; [|split; [done|by apply Forall_forall; intros; apply Hl]].
    intros ->. apply (not_elem_of_nil mn), Hl. lia.
  - destruct (parseParts _ _ _ _) as [[values|]|] eqn:E; [|done..]. simpl. intros [= <-].
    destruct (parseParts_values _ _ _ _ _ (proj1 Hmn) Hmx Hst E) as [Hall Hv].
    destruct (sortInts_ok values) as [Hsort Hmem].
    assert (Hiff : ∀ v, v ∈ sortInts (elements values) ↔ ∃ part, part ∈ split_on "," field ∧ part_value mn mx part v).
    { intros v. rewrite Hmem, Hv. set_solver. }
    split; [|done]. split; [|split; [done|]].
    + intros En. destruct (split_on "," field) as [|p ps] eqn:Esp; [by apply (split_on_ne "," field)|].
      apply Forall_cons in Hall as [[v Hpv] _]. apply (not_elem_of_nil v). rewrite <- En. apply Hiff. exists p.
      split; [left|done].
    + apply Forall_forall. intros v (part & _ & start & last & step & k & Hp & Hk & -> & Hle)%Hiff.
      apply parsePart_iff, parsePart_range in Hp. nia.
Qed.

(** A field is accepted exactly when it follows the grammar. *)
Lemma parseParts_accepts parts mn mx values : 0 ≤ mn → mx < 2 ^ 61 → ∃ r, parseParts parts mn mx values = Some r ∧
  match r with
  | Ok _ => ∀ part, part ∈ parts → ∃ x y n, part_means mn mx part x y n
  | Err e => e = ErrInvalidCronField ∧ ∃ part, part ∈ parts ∧ ∀ x y n, ¬ part_means mn mx part x y n
  end.
Proof.
  intros Hmn Hmx. revert values. induction parts as [|part parts IH]; intros values; simpl.
  { eexists. split; [done|]. by intros ? ?%not_elem_of_nil. }
  destruct (parsePart part mn mx) as [[[x y] n]|] eqn:E.
  - destruct (stepRange_total x y n) as [vs ->]; [apply parsePart_range in E; lia..|]. simpl.
    destruct (IH (list_to_set vs ∪ values)) as (r & -> & Hr). exists r. split; [done|]. destruct r as [|e].
    + intros p [->|Hp]%elem_of_cons; [|auto]. eexists _, _, _. by apply parsePart_iff.
    + destruct Hr as (-> & p & Hp & Hno). split; [done|]. exists p. split; [by right|done].
  - eexists. split; [done|]. split; [done|]. exists part. split; [left|]. intros x y n Hm%parsePart_iff. congruence.
Qed.
Lemma parseCronField_accepts f mn mx : 0 ≤ mn ≤ mx → mx < 2 ^ 61 → ∃ r, parseCronField f mn mx = Some r ∧
  match r with Ok _ => field_wf mn mx f | Err e => e = ErrInvalidCronField ∧ ¬ field_wf mn mx f end.
Proof.
  intros Hmn Hmx. unfold parseCronField, field_wf. case_decide as Hs.
  - destruct (buildRange_spec mn mx) as (l & -> & _); [lia..|]. eexists. split; [done|]. by left.
  - destruct (parseParts_accepts (split_on "," f) mn mx ∅) as (r & -> & Hr); [lia..|]. eexists. split; [done|].
    destruct r as [|e]; [by right|]. destruct Hr as (-> & p & Hp & Hno). split; [done|].
    intros [?|Hall]; [done|]. destruct (Hall p Hp) as (x & y & n & Hm). by apply (Hno x y n).
Qed.

(** *** The grammar of expressions *)

Definition bounds5 : list (Z * Z) := [(0, 59); (0, 23); (1, 31); (1, 12); (0, 6)].
Definition bounds6 : list (Z * Z) := (0, 59) :: bounds5.
Definition fields_wf (fs : list gostring) (bounds : list (Z * Z)) : Prop := Forall2 (λ f b, field_wf b.1 b.2 f) fs bounds.
Definition aliases : list (gostring * gostring) :=
  [(str "@hourly", str "0 * * * *"); (str "@daily", str "0 0 * * *"); (str "@midnight", str "0 0 * * *");
   (str "@weekly", str "0 0 * * 0"); (str "@monthly", str "0 0 1 * *"); (str "@yearly", str "0 0 1 1 *"); (str "@annually", str "0 0 1 1 *")].
Definition expansion (expr : gostring) : gostring := default expr (snd <$> head (filter (λ a, a.1 = expr) aliases)).
(** What is wrong with an expression, if anything: not a positive duration after [@every],
    not five or six fields, or a field outside the grammar. *)
Definition verdict (expr : gostring) (r : result cronErr CronSpec) : Prop :=
  let fs := fields (expansion expr) in
  match r with
  | Ok c =>
      (∃ text d, expr = str "@every " ++ text ∧ ParseDuration text = Some d ∧ 0 < d ∧ interval c = d) ∨
      (¬ str "@every " `prefix_of` expr ∧ interval c = 0 ∧ (fields_wf fs bounds5 ∨ fields_wf fs bounds6))
  | Err ErrInvalidEveryDuration => ∃ text, expr = str "@every " ++ text ∧ ∀ d, ParseDuration text = Some d → d ≤ 0
  | Err ErrInvalidCronExpr => ¬ str "@every " `prefix_of` expr ∧ length fs ≠ 5%nat ∧ length fs ≠ 6%nat
  | Err ErrInvalidCronField =>
      ¬ str "@every " `prefix_of` expr ∧
      ((length fs = 5%nat ∧ ¬ fields_wf fs bounds5) ∨ (length fs = 6%nat ∧ ¬ fields_wf fs bounds6))
  end.

Lemma expansion_descriptor expr : expansion expr = descriptor expr.
Proof.
  unfold expansion, aliases, descriptor. rewrite !filter_cons, filter_nil. cbn [fst].
  repeat match goal with |- context [decide (?w = expr)] => destruct (decide (w = expr)) as [<-|?] end; try reflexivity.
  cbn. repeat rewrite decide_False; try done; naive_solver.
Qed.

(** The fields are read from left to right, and the first malformed one is reported. *)
Lemma withField_accepts {A} f mn mx (k : list Z → option (result cronErr A)) (Q : A → Prop) (R : Prop) : 0 ≤ mn ≤ mx → mx < 2 ^ 61 →
  (∀ v, ∃ r, k v = Some r ∧ match r with Ok c => Q c ∧ R | Err e => e = ErrInvalidCronField ∧ ¬ R end) →
  ∃ r, withField f mn mx k = Some r ∧ match r with Ok c => Q c ∧ (field_wf mn mx f ∧ R) | Err e => e = ErrInvalidCronField ∧ ¬ (field_wf mn mx f ∧ R) end.
Proof.
  intros Hmn Hmx Hk. unfold withField. destruct (parseCronField_accepts f mn mx) as ([v|e] & -> & Hf); [lia..| |].
  - destruct (Hk v) as (r & E & Hr). exists r. split; [exact E|]. destruct r; tauto.
  - exists (Err e). split; [done|]. tauto.
Qed.
Lemma parseFive_accepts loc mi ho dm mo dw s : ∃ r, parseFive loc mi ho dm mo dw s = Some r ∧
  match r with Ok c => interval c = 0 ∧ fields_wf [mi; ho; dm; mo; dw] bounds5 | Err e => e = ErrInvalidCronField ∧ ¬ fields_wf [mi; ho; dm; mo; dw] bounds5 end.
Proof.
  unfold parseFive.
  destruct (withField_accepts mi 0 59 (λ m, withField ho 0 23 (λ h, withField dm 1 31 (λ d, withField mo 1 12 (λ mo, withField dw 0 6 (λ w,
    Some (Ok (MkSpec s m h d mo w (bool_decide (trim_space dm = star)) (bool_decide (trim_space dw = star)) loc 0)))))))
    (λ c, interval c = 0) (field_wf 0 23 ho ∧ field_wf 1 31 dm ∧ field_wf 1 12 mo ∧ field_wf 0 6 dw ∧ True)) as (r & E & Hr); [lia..| |].
  { intros m. repeat (apply (withField_accepts _ _ _ _ (λ c, interval c = 0)); [lia..|intros ?]). eexists. split; done. }
  exists r. split; [exact E|]. assert (Hwf : fields_wf [mi; ho; dm; mo; dw] bounds5 ↔
    field_wf 0 59 mi ∧ field_wf 0 23 ho ∧ field_wf 1 31 dm ∧ field_wf 1 12 mo ∧ field_wf 0 6 dw ∧ True).
  { unfold fields_wf, bounds5. rewrite !Forall2_cons, Forall2_nil. done. }
  destruct r; rewrite Hwf; exact Hr.
Qed.

(** C39: parsing an expression always returns, even when a huge step overflows the loop counter, and it returns a schedule
    exactly when the expression follows the grammar: [@every] and a positive duration, or an alias, or five or six fields
    separated by white space, each a star or a comma-separated list of parts [a], [a-b], [*] or nothing, optionally with
    [/n], n > 0, whose first and last values are in order and within the bounds of the field. Any other expression is the
    error that fits: a bad duration after [@every], a wrong number of fields, or a field outside the grammar. (What the
    values of an accepted field are, and what an overflowing step does to them, is the subject of [cron_field_values] and
    [cron_step_overflow].) *)
Theorem cron_parse_total expr loc : ∃ r, ParseCronSpecWithLocation expr loc = Some r ∧ verdict expr r.
Proof.
  unfold verdict. rewrite expansion_descriptor. unfold ParseCronSpecWithLocation. change (str "@every ") with every.
  case_decide as Hp.
  { destruct Hp as [text ->]. rewrite drop_app_length. eexists. split; [done|].
    destruct (ParseDuration text) as [d|] eqn:E; [|exists text; split; [done|]; congruence].
    destruct (d <=? 0) eqn:Ed; unbool; [|left; by exists text, d]. exists text. split; [done|]. congruence. }
  generalize (fields (descriptor expr)). intros fs.
  destruct fs as [|f1 [|f2 [|f3 [|f4 [|f5 [|f6 [|f7 fs]]]]]]]; try (eexists; split; [done|]; simpl; (split; [done|lia])).
  - cbn [parseFields]. destruct (parseFive_accepts (Some (default 0 loc)) f1 f2 f3 f4 f5 [0]) as (r & -> & Hr).
    exists r. split; [done|]. destruct r as [c|e]; [right; split; [done|]; tauto|]. destruct Hr as [-> Hr]. split; [done|]. by left.
  - cbn [parseFields]. destruct (withField_accepts f1 0 59 (parseFive (Some (default 0 loc)) f2 f3 f4 f5 f6) (λ c, interval c = 0)
      (fields_wf [f2; f3; f4; f5; f6] bounds5)) as (r & -> & Hr); [lia..|apply parseFive_accepts|].
    assert (Hwf : fields_wf [f1; f2; f3; f4; f5; f6] bounds6 ↔ field_wf 0 59 f1 ∧ fields_wf [f2; f3; f4; f5; f6] bounds5)
      by (unfold fields_wf, bounds6; by rewrite Forall2_cons).
    exists r. split; [done|]. destruct r as [c|e]; [right; split; [done|]; rewrite Hwf; tauto|]. destruct Hr as [-> Hr].
    split; [done|]. right. by rewrite Hwf.
Qed.

(** ** Parsed schedules *)

(** Every field of the expression has small steps. *)
Definition expr_steps_fit (expr : gostring) : bool := forallb steps_fit (fields (descriptor expr)).

Lemma withField_ok {A} f mn mx (k : list Z → option (result cronErr A)) (c : A) : 0 ≤ mn ≤ mx → mx < 2 ^ 61 →
  steps_fit f = true → withField f mn mx k = Some (Ok c) → ∃ v, field_ok mn mx v ∧ k v = Some (Ok c).
Proof.
  intros Hmn Hmx Hf. unfold withField. destruct (parseCronField f mn mx) as [[v|]|] eqn:E; [|done..]. simpl.
  intros Hk. exists v. split; [|done]. by apply (parsed_field f).
Qed.

Lemma parsedFive loc mi ho dm mo dw s c : Forall (λ f, steps_fit f = true) [mi; ho; dm; mo; dw] → field_ok 0 59 s →
  parseFive loc mi ho dm mo dw s = Some (Ok c) → location c = loc ∧ interval c = 0 ∧ spec_ok c.
Proof.
  intros Hfs Hs Es. repeat (apply Forall_cons in Hfs as [? Hfs]). unfold parseFive in Es.
  apply withField_ok in Es as (m & Hm & Es); [|lia..|done]. apply withField_ok in Es as (h & Hh & Es); [|lia..|done].
  apply withField_ok in Es as (d & Hd & Es); [|lia..|done]. apply withField_ok in Es as (o & Ho & Es); [|lia..|done].
  apply withField_ok in Es as (w & Hw & Es); [|lia..|done]. injection Es as <-. done.
Qed.

Lemma zero_second_ok : field_ok 0 59 [0].
Proof. split; [done|]. split; [repeat constructor|]. repeat constructor; lia. Qed.

Lemma parsed_spec expr loc c : expr_steps_fit expr = true → ParseCronSpecWithLocation expr loc = Some (Ok c) →
  location c = Some (default 0 loc) ∧ (0 < interval c ∨ interval c = 0 ∧ spec_ok c).
Proof.
  intros Hf. unfold ParseCronSpecWithLocation. case_decide.
  { intros E. repeat case_match; simplify_eq/=. unbool. split; [done|]. by left. }
  apply forallb_Forall in Hf.
  generalize dependent (fields (descriptor expr)). intros fs Hf.
  destruct fs as [|f1 [|f2 [|f3 [|f4 [|f5 [|f6 [|]]]]]]]; try done; simpl; intros E.
  - apply parsedFive in E; [tauto|done|apply zero_second_ok].
  - apply Forall_cons in Hf as [Hf1 Hf]. apply withField_ok in E as (s & Hs & E); [|lia..|done].
    apply parsedFive in E; [tauto|done..].
Qed.

(** ** Printing *)

Section print.
Context (mn mx : Z) (Hmn : 0 ≤ mn ≤ mx) (Hmx : mx < 2 ^ 61).

Lemma digit_byte b : is_digit b = true → graphic b = true ∧ b ≠ ","%char ∧ b ≠ "/"%char ∧ b ≠ "-"%char ∧ b ≠ "*"%char.
Proof using.
  intros Hb. split; [|split_and!; by apply is_digit_not].
  unfold is_digit in Hb. apply andb_true_iff in Hb as [H1%byte_leb_spec H2%byte_leb_spec]. unfold byte_le in *.
  unfold graphic. apply andb_true_iff. rewrite !N.ltb_lt. revert H1 H2.
  vm_compute (byte_val "0"). vm_compute (byte_val "9"). lia.
Qed.

Lemma print_absent v c : 0 ≤ v → is_digit c = false → c ∉ print_Z v.
Proof using. intros Hv Hc Hin. pose proof (print_Z_digits v Hv) as H. rewrite Forall_forall in H. by rewrite (H c Hin) in Hc. Qed.

Lemma print_graphic v : 0 ≤ v → Forall (λ b, graphic b = true) (print_Z v).
Proof using. intros Hv. eapply Forall_impl; [by apply print_Z_digits|]. intros b Hb. by apply digit_byte. Qed.

Lemma parsePart_print v : mn ≤ v ≤ mx → parsePart (print_Z v) mn mx = Some (v, v, 1).
Proof using Hmn Hmx.
  intros Hv. unfold parsePart. rewrite trim_space_graphic by (apply print_graphic; lia).
  rewrite decide_False by apply print_Z_ne. unfold partStep, contains_byte.
  rewrite bool_decide_eq_false_2 by (by apply print_absent; [lia|]). simpl. unfold partBounds.
  rewrite decide_False.
  2: { intros [?|E]; [by apply (print_Z_ne v)|]. apply (print_absent v "*"); [lia|done|]. rewrite E. left. }
  unfold contains_byte. rewrite bool_decide_eq_false_2 by (by apply print_absent; [lia|]).
  rewrite Atoi_print by lia. simpl.
  by rewrite (proj2 (Z.ltb_ge v mn)), (proj2 (Z.ltb_ge mx v)), Z.ltb_irrefl by lia.
Qed.

Lemma parseParts_print vs X : Forall (λ v, mn ≤ v ≤ mx) vs →
  ∃ Y, parseParts (print_Z <$> vs) mn mx X = Some (Ok Y) ∧ ∀ v, v ∈ Y ↔ v ∈ vs ∨ v ∈ X.
Proof using Hmn Hmx.
  intros Hvs. revert X. induction Hvs as [|v vs Hv Hvs IH]; intros X; csimpl.
  { exists X. split; [done|]. set_solver. }
  rewrite parsePart_print by done. unfold stepRange.
  destruct (stepLoop_small (Z.to_nat (2 * v + 4)) v v 1) as (l & -> & Hl & _); [lia..|]. simpl.
  destruct (IH (list_to_set l ∪ X)) as (Y & -> & HY). exists Y. split; [done|]. intros x.
  rewrite HY, elem_of_union, elem_of_list_to_set, elem_of_cons, Hl.
  assert ((∃ k, 0 ≤ k ∧ x = v + k * 1 ∧ x ≤ v) ↔ x = v) as ->; [|tauto].
  split; [intros (k & ? & ? & ?); lia|]. intros ->. exists 0. lia.
Qed.

Lemma sorted_nodup_elements vs (Y : gset Z) : StronglySorted Z.lt vs → (∀ v, v ∈ Y ↔ v ∈ vs) → sortInts (elements Y) = vs.
Proof using. intros Hs HY. destruct (sortInts_ok Y) as [H1 H2]. apply sorted_ext; [done|done|]. intros v. by rewrite H2. Qed.

(** A printed field parses back, and is a star exactly when it is the whole interval. *)
Lemma print_field vs : field_ok mn mx vs → ∃ f, cronFieldStr vs mn mx = Some f ∧
  parseCronField f mn mx = Some (Ok vs) ∧ (f = star ↔ buildRange mn mx 1 = Some vs) ∧
  f ≠ [] ∧ Forall (λ b, graphic b = true) f ∧ head f ≠ Some "@"%char.
Proof using Hmn Hmx.
  intros (Hne & Hs & Hb). unfold cronFieldStr.
  destruct (buildRange_spec mn mx) as (full & Ef & Hfull & Hsf); [lia..|]. rewrite Ef. simpl.
  case_decide as Hd.
  { subst full. exists star. unfold parseCronField. rewrite decide_True, Ef by done. simpl. split_and!; try done. by repeat constructor. }
  assert (Hparts : split_on "," (join_with "," (print_Z <$> vs)) = print_Z <$> vs).
  { apply split_join; [by destruct vs|]. apply Forall_fmap. eapply Forall_impl; [exact Hb|]. intros v Hv. simpl in Hv |- *.
    apply print_absent; [lia|done]. }
  assert (Hg : Forall (λ b, graphic b = true ∧ b ≠ "*"%char ∧ b ≠ "@"%char) (join_with "," (print_Z <$> vs))).
  { clear -Hb Hmn. induction Hb as [|v vs Hv Hb IH]; [constructor|].
    assert (Forall (λ b, graphic b = true ∧ b ≠ "*"%char ∧ b ≠ "@"%char) (print_Z v)) as Hp.
    { eapply Forall_impl; [apply print_Z_digits; lia|]. intros b Hd. destruct (digit_byte b Hd) as (? & _ & _ & _ & ?).
      split_and!; [done|done|]. by apply is_digit_not. }
    rewrite fmap_cons. destruct vs as [|v' vs]; [done|]. simpl in *. apply Forall_app. split; [done|].
    constructor; [|done]. done. }
  assert (Hjne : join_with "," (print_Z <$> vs) ≠ []).
  { intros E. rewrite E in Hparts. destruct vs as [|v vs]; [done|]. simpl in Hparts. injection Hparts as Ev _.
    by apply (print_Z_ne v). }
  assert (Hstar : join_with "," (print_Z <$> vs) ≠ star).
  { intros E. rewrite E in Hg. apply Forall_cons in Hg as [(_ & ? & _) _]. done. }
  eexists. split; [done|]. split; [|split; [naive_solver|split; [done|split]]].
  - unfold parseCronField. rewrite decide_False, Hparts by done.
    destruct (parseParts_print vs ∅ Hb) as (Y & -> & HY). simpl. do 2 f_equal. apply sorted_nodup_elements; [done|].
    intros v. rewrite HY. set_solver.
  - eapply Forall_impl; [exact Hg|]. by intros b [? _].
  - destruct Hg as [|b l (_ & _ & Hb') _]; [done|]. simpl. congruence.
Qed.
End print.

Lemma spec_eta c off : interval c = 0 → location c = Some off → ∀ s, s = seconds c →
  MkSpec s (minutes c) (hours c) (dom c) (months c) (dow c) (domStar c) (dowStar c) (Some off) 0 = c.
Proof. destruct c. cbn. by intros -> -> ? ->. Qed.

Definition word (w : gostring) : Prop := w ≠ [] ∧ Forall (λ b, graphic b = true) w.

(** An expression of printed fields is split into them again. *)
Lemma expr_fields ws : Forall word ws → head (join_with " " ws) ≠ Some "@"%char →
  ¬ every `prefix_of` join_with " " ws ∧ fields (descriptor (join_with " " ws)) = ws.
Proof.
  intros Hw Hh. split.
  - intros [k E]. by rewrite E in Hh.
  - assert (descriptor (join_with " " ws) = join_with " " ws) as ->.
    { assert (∀ s, head s = Some "@"%char → join_with " " ws ≠ s) as Hne by (intros s Hs E; by rewrite E in Hh).
      unfold descriptor. repeat (case_decide as Hd; [exfalso; repeat destruct Hd as [Hd|Hd]; by eapply Hne, Hd|clear Hd]).
      done. }
    by apply (fields_join ws).
Qed.

Lemma withField_eq {A} f mn mx v (k : list Z → option (result cronErr A)) :
  parseCronField f mn mx = Some (Ok v) → withField f mn mx k = k v.
Proof. intros E. unfold withField. by rewrite E. Qed.

(** C40: parsing a field of bounds [mn..mx] (both within 0..2^61) none of whose steps is 2^62 or more succeeds exactly when
    the field follows the grammar, with an error otherwise, and then yields exactly the values its comma-separated parts
    stand for: [a] is the value a, [a-b] the values from a to b, a star or nothing the whole interval, and [/n] keeps
    every n-th of them from the first on. The values are listed once each, in increasing order, there is at least one,
    and all are within the bounds. *)
Theorem cron_field_values field mn mx : 0 ≤ mn ≤ mx → mx < 2 ^ 61 → steps_fit field = true →
  if parseCronField field mn mx is Some (Ok vs) then
    field_wf mn mx field ∧ field_ok mn mx vs ∧
    ∀ v, v ∈ vs ↔ (field = str "*" ∧ mn ≤ v ≤ mx) ∨ (field ≠ str "*" ∧ ∃ part, part ∈ split_on "," field ∧ part_value mn mx part v)
  else parseCronField field mn mx = Some (Err ErrInvalidCronField) ∧ ¬ field_wf mn mx field.
Proof.
  intros Hmn Hmx Hf. destruct (parseCronField_accepts field mn mx) as ([vs|e] & E & Hr); [lia..| |]; rewrite E.
  - split; [done|]. destruct (parsed_field field mn mx vs) as [H1 H2]; [done..|]. split; [done|]. intros v. rewrite H2.
    change (str "*") with star. case_decide; tauto.
  - destruct Hr as [-> Hr]. done.
Qed.

(** C22: for a schedule read from an expression with fields (not [@every]) in which no step is 2^62 or more, in a zone
    with a fixed offset from UTC (zones with daylight saving are outside the model), the next run is the earliest one:
    [Next] returns a whole second after the given instant that matches every field on the zone's clock (either day field
    when both are restricted), and no earlier second after the instant matches; it returns the zero time only when no
    later instant matches at all, the bound on its rounds notwithstanding. *)
Theorem cron_next_earliest expr loc c after : expr_steps_fit expr = true →
  ParseCronSpecWithLocation expr loc = Some (Ok c) → interval c = 0 →
  let off := default 0 loc in
  (∃ u, Next c after = u * nanosPerSecond ∧ after < u * nanosPerSecond ∧ matches c (u + off) ∧
        ∀ v, after < v * nanosPerSecond → matches c (v + off) → u ≤ v) ∨
  (Next c after = zeroTime ∧ ∀ v, after < v * nanosPerSecond → ¬ matches c (v + off)).
Proof.
  intros Hf Hp Hi off. destruct (parsed_spec _ _ _ Hf Hp) as [Hl [?|[_ Hok]]]; [lia|].
  pose proof (Next_cases c after Hok Hi) as H. by rewrite Hl in H.
Qed.

(** A schedule with the standard fields prints as an expression that parses back to
    the same schedule, as long as its day fields count as unrestricted exactly when
    they hold every day. *)
Theorem cron_expr_roundtrip c off : spec_ok c → interval c = 0 → location c = Some off →
  domStar c = bool_decide (buildRange 1 31 1 = Some (dom c)) →
  dowStar c = bool_decide (buildRange 0 6 1 = Some (dow c)) →
  ∃ e, Expr c = Some e ∧ ParseCronSpecWithLocation e (location c) = Some (Ok c).
Proof.
  intros [Hs Hm Hh Hd Ho Hw] Hi Hl Hds Hws. unfold Expr. rewrite Hi.
  change (0 <? 0) with false. cbv iota.
  rewrite decide_False by apply Hm.
  destruct (print_field 0 59 ltac:(lia) ltac:(lia) _ Hs) as (fs & Es & Ps & _ & Ns & Gs & Ats).
  destruct (print_field 0 59 ltac:(lia) ltac:(lia) _ Hm) as (fm & Em & Pm & _ & Nm & Gm & Atm).
  destruct (print_field 0 23 ltac:(lia) ltac:(lia) _ Hh) as (fh & Eh & Ph & _ & Nh & Gh & _).
  destruct (print_field 1 31 ltac:(lia) ltac:(lia) _ Hd) as (fd & Ed & Pd & Sd & Nd & Gd & _).
  destruct (print_field 1 12 ltac:(lia) ltac:(lia) _ Ho) as (fo & Eo & Po & _ & No & Go & _).
  destruct (print_field 0 6 ltac:(lia) ltac:(lia) _ Hw) as (fw & Ew & Pw & Sw & Nw & Gw & _).
  rewrite Em, Eh, Ed, Eo, Ew. cbn [mbind option_bind].
  assert (Hfive : ∀ s, parseFive (Some off) fm fh fd fo fw s = Some (Ok (MkSpec s (minutes c) (hours c) (dom c) (months c)
    (dow c) (domStar c) (dowStar c) (Some off) 0))).
  { intros s. unfold parseFive. do 5 (erewrite withField_eq by eassumption). do 2 f_equal.
    rewrite !trim_space_graphic by done. by rewrite Hds, Hws, (bool_decide_ext _ _ Sd), (bool_decide_ext _ _ Sw). }
  pose proof (spec_eta c off Hi Hl) as Hc.
  assert (Hwords : Forall word [fm; fh; fd; fo; fw]) by (by repeat constructor).
  clear Hds Hws Sd Sw. case_decide as Hz; [|rewrite Es]; cbn [mbind option_bind]; eexists; (split; [reflexivity|]);
    unfold ParseCronSpecWithLocation; rewrite Hl; clear Hl.
  - destruct (expr_fields [fm; fh; fd; fo; fw]) as [H1 H2]; [done| |].
    { simpl. by destruct fm. }
    rewrite decide_False, H2 by done. cbn [parseFields default]. rewrite Hfive, Hc; [done|].
    destruct Hz as [Hz|Hz]; [destruct (proj1 Hs Hz)|exact (eq_sym Hz)].
  - destruct (expr_fields [fs; fm; fh; fd; fo; fw]) as [H1 H2]; [constructor; [exact (conj Ns Gs)|exact Hwords]| |].
    { simpl. by destruct fs. }
    rewrite decide_False, H2 by done. cbn [parseFields default]. erewrite withField_eq by eassumption. by rewrite Hfive, Hc.
Qed.

(** ** Witnesses *)

Lemma cron_field_values_witness :
  parseCronField (str "1-5/2,30") 0 59 = Some (Ok [1; 3; 5; 30]) ∧ field_ok 0 59 [1; 3; 5; 30] ∧
  parseCronField (str "5-") 0 59 = Some (Err ErrInvalidCronField) ∧ ¬ field_wf 0 59 (str "5-").
Proof.
  assert (E : parseCronField (str "1-5/2,30") 0 59 = Some (Ok [1; 3; 5; 30])) by (vm_compute; reflexivity).
  assert (E' : parseCronField (str "5-") 0 59 = Some (Err ErrInvalidCronField)) by (vm_compute; reflexivity).
  split; [exact E|].
  pose proof (cron_field_values (str "1-5/2,30") 0 59 ltac:(lia) ltac:(lia) ltac:(vm_compute; reflexivity)) as H. rewrite E in H.
  pose proof (cron_field_values (str "5-") 0 59 ltac:(lia) ltac:(lia) ltac:(vm_compute; reflexivity)) as H'. rewrite E' in H'.
  split; [exact (proj1 (proj2 H))|exact H'].
Defined.

(** Half past nine on working days, in a zone eight hours ahead: from a Friday after
    that time, the next run is on Monday. *)
Definition office : gostring := str "30 9 * * 1-5".
Definition friday_noon : Z := (Date 2024 3 1 12 0 0 - 8 * 3600) * nanosPerSecond.
Definition monday_run : Z := Date 2024 3 4 9 30 0 - 8 * 3600.
Lemma cron_next_earliest_witness : ∃ c, ParseCronSpecWithLocation office (Some (8 * 3600)) = Some (Ok c) ∧
  Next c friday_noon = monday_run * nanosPerSecond ∧ matches c (monday_run + 8 * 3600) ∧
  ∀ v, friday_noon < v * nanosPerSecond → matches c (v + 8 * 3600) → monday_run ≤ v.
Proof.
  destruct (ParseCronSpecWithLocation office (Some (8 * 3600))) as [[c|]|] eqn:E; [|vm_compute in E; discriminate..].
  exists c. split; [reflexivity|]. assert (En : Next c friday_noon = monday_run * nanosPerSecond).
  { vm_compute in E. injection E as <-. vm_compute. reflexivity. }
  split; [exact En|].
  destruct (cron_next_earliest office (Some (8 * 3600)) c friday_noon) as [(u & E1 & _ & H2 & H3)|[E1 _]].
  - vm_compute. reflexivity.
  - exact E.
  - vm_compute in E. injection E as <-. reflexivity.
  - rewrite E1 in En. assert (u = monday_run) as <- by (unfold nanosPerSecond in En; lia). split; [exact H2|exact H3].
  - rewrite E1 in En. vm_compute in En. discriminate.
Defined.

Fixpoint increasing (a : Z) (l : list Z) : bool :=
  match l with [] => true | x :: l => (a <? x) && increasing x l end.
Definition field_okb (mn mx : Z) (l : list Z) : bool :=
  increasing (mn - 1) l && forallb (λ v, v <=? mx) l && negb (bool_decide (l = [])).
Lemma increasing_sorted a l : increasing a l = true → StronglySorted Z.lt (a :: l).
Proof.
  intros H. apply Sorted_StronglySorted; [intros ???; lia|]. revert a H. induction l as [|x l IH]; intros a H; simpl in H.
  - repeat constructor.
  - apply andb_true_iff in H as [H1 H2]. unbool. constructor; [by apply IH|by constructor].
Qed.
Lemma field_ok_check mn mx l : field_okb mn mx l = true → field_ok mn mx l.
Proof.
  unfold field_okb. rewrite !andb_true_iff, forallb_Forall, negb_true_iff, bool_decide_eq_false.
  intros [[H1%increasing_sorted H2] H3]. apply StronglySorted_cons in H1 as [Ha Hs].
  split; [done|]. split; [done|]. rewrite Forall_forall in *. intros v Hv. specialize (Ha v Hv). specialize (H2 v Hv).
  simpl in H2. unbool. lia.
Qed.

Definition twice_daily : CronSpec :=
  MkSpec [0] [0] [6; 18] (seqZ 1 31) (seqZ 1 12) (seqZ 0 7) true true (Some 0) 0.
Lemma cron_expr_roundtrip_witness : ∃ e, Expr twice_daily = Some e ∧
  ParseCronSpecWithLocation e (Some 0) = Some (Ok twice_daily).
Proof.
  destruct (cron_expr_roundtrip twice_daily 0) as (e & E1 & E2); [|reflexivity..|exists e; split; assumption].
  split; apply field_ok_check; vm_compute; reflexivity.
Defined.

(** ** Two divergences *)

(** A huge step wraps the loop counter, and values outside the field are accepted. *)
Lemma cron_step_overflow :
  parseCronField (str "1/9223372036854775807") 0 23 = Some (Ok [- 2 ^ 63; -1; 1]).
Proof. vm_compute. reflexivity. Qed.

(** A day field that lists every day is printed as a star, which turns "either day
    field" into "day of week only": the printed expression has another schedule. *)
Lemma cron_expr_changes_schedule : ∃ c e c',
  ParseCronSpec (str "0 0 1-31 * 1") = Some (Ok c) ∧ Expr c = Some e ∧ e = str "0 0 * * 1" ∧
  ParseCronSpec e = Some (Ok c') ∧ Next c 0 ≠ Next c' 0.
Proof.
  destruct (ParseCronSpec (str "0 0 1-31 * 1")) as [[c|]|] eqn:E; [|vm_compute in E; discriminate..].
  vm_compute in E. injection E as <-. eexists _, _, _. split; [done|]. split; [vm_compute; done|]. split; [done|].
  split; [vm_compute; done|]. vm_compute. discriminate.
Qed.
