(* ===== verification/SchedJobs.v ===== *)
(** * The job scheduler: options, retries, dead letters
    ([x/messaging/scheduler/types.go], [dlq.go], [store.go], [store_memory.go])

    The data of the scheduler: policies, job options and the functions that set them,
    retry policies with their delays, the dead letter queue, and persisted jobs with the
    in-memory store. Durations and instants are [Z] nanoseconds; instants count from the
    zero time. *)

From stdpp Require Import options.
From S2P Require Import Prelude GoStrings GoTime GoMap.
#[local] Open Scope Z_scope.

Module SchedJobs.

Abbreviation JobID := gostring (only parsing).

(** ** Policies *)

Inductive OverlapPolicy := AllowConcurrent | SkipIfRunning | SerialQueue.
Inductive BackpressurePolicy := BackpressureDrop | BackpressureBlock | BackpressureBlockTimeout.
Inductive DependencyFailurePolicy := DependencyFailureSkip | DependencyFailureCancel | DependencyFailureContinue.
Inductive jobKind := jobKindCron | jobKindDelay.

(** [JobStateNone] is the zero value of a job that has no state yet. *)
Inductive JobState :=
  | JobStateNone | JobStateQueued | JobStateScheduled | JobStateRunning | JobStateFailed
  | JobStateRetrying | JobStateCanceled | JobStateCompleted.

#[export] Instance OverlapPolicy_eq_dec : EqDecision OverlapPolicy.
Proof. solve_decision. Defined.
#[export] Instance jobKind_eq_dec : EqDecision jobKind.
Proof. solve_decision. Defined.
#[export] Instance JobState_eq_dec : EqDecision JobState.
Proof. solve_decision. Defined.

Definition isTerminalState (state : JobState) : bool :=
  match state with JobStateCompleted | JobStateFailed | JobStateCanceled => true | _ => false end.

(** ** Retry policies *)

(** [Backoff] is [None] for a nil function. *)
Record RetryPolicy := MkRetry {
  MaxAttempts : Z;
  Backoff : option (Z → Z);
  MaxBackoff : Z;
  Kind : gostring;
  BaseDelay : Z;
}.
Definition noRetry : RetryPolicy := MkRetry 0 None 0 [] 0.

Definition safeExponentialBackoff (base maxBackoff attempt : Z) : Z :=
  if attempt <=? 1 then base
  else
    let shift := attempt - 1 in
    if (63 <=? shift) || (2 ^ 62 / 2 ^ shift <? base) then
      if 0 <? maxBackoff then maxBackoff else base
    else
      let backoff := wrap64 (Z.shiftl base shift) in
      if backoff <=? 0 then if 0 <? maxBackoff then maxBackoff else base
      else if (0 <? maxBackoff) && (maxBackoff <? backoff) then maxBackoff
      else backoff.

Definition RetryFixed (maxAttempts delay : Z) : RetryPolicy :=
  MkRetry maxAttempts (Some (λ _, delay)) 0 (str "fixed") delay.
Definition RetryExponential (maxAttempts base maxBackoff : Z) : RetryPolicy :=
  MkRetry maxAttempts (Some (safeExponentialBackoff base maxBackoff)) maxBackoff (str "exponential") base.

(** The delay before the next attempt, as [handleFailure] computes it. *)
Definition cap (maxBackoff backoff : Z) : Z :=
  if (0 <? maxBackoff) && (maxBackoff <? backoff) then maxBackoff else backoff.
Definition retryDelay (policy : RetryPolicy) (attempt : Z) : Z :=
  match Backoff policy with
  | Some f => cap (MaxBackoff policy) (f (wrap64 (attempt + 1)))
  | None =>
      if decide (Kind policy = []) then 0
      else
        let backoff :=
          if decide (Kind policy = str "fixed") then BaseDelay policy
          else if decide (Kind policy = str "exponential") then
            if 0 <? BaseDelay policy then safeExponentialBackoff (BaseDelay policy) (MaxBackoff policy) attempt else 0
          else 0 in
        cap (MaxBackoff policy) backoff
  end.

Record RetrySpec := MkRetrySpec { sMaxAttempts : Z; sMaxBackoff : Z; sKind : gostring; sBaseDelay : Z }.
Definition serializeRetry (policy : RetryPolicy) : RetrySpec :=
  MkRetrySpec (MaxAttempts policy) (MaxBackoff policy) (Kind policy) (BaseDelay policy).
Definition hydrateRetry (spec : RetrySpec) : RetryPolicy :=
  let policy f := MkRetry (sMaxAttempts spec) f (sMaxBackoff spec) (sKind spec) (sBaseDelay spec) in
  if decide (sKind spec = []) then policy None
  else if decide (sKind spec = str "fixed") then
    if sBaseDelay spec <=? 0 then policy None else policy (Some (λ _, sBaseDelay spec))
  else if decide (sKind spec = str "exponential") then
    if sBaseDelay spec <=? 0 then policy None
    else policy (Some (safeExponentialBackoff (sBaseDelay spec) (sMaxBackoff spec)))
  else policy None.

(** ** Job options *)

(** The dead letter callback is user code that the scheduler only calls; it is left out. *)
Record JobOptions := MkOptions {
  Timeout : Z;
  Overlap : OverlapPolicy;
  Retry : RetryPolicy;
  Paused : bool;
  Group : gostring;
  Tags : list gostring;
  Replace : bool;
  TaskName : gostring;
  Dependencies : list JobID;
  DependencyPolicy : DependencyFailurePolicy;
  Jitter : Z;
  MaxRuns : Z;
}.
Implicit Types (o : JobOptions).

Definition defaultJobOptions : JobOptions :=
  MkOptions 0 AllowConcurrent noRetry false [] [] false [] [] DependencyFailureSkip 0 0.

Definition WithTimeout (v : Z) o := MkOptions v (Overlap o) (Retry o) (Paused o) (Group o) (Tags o) (Replace o) (TaskName o) (Dependencies o) (DependencyPolicy o) (Jitter o) (MaxRuns o).
Definition WithOverlapPolicy v o := MkOptions (Timeout o) v (Retry o) (Paused o) (Group o) (Tags o) (Replace o) (TaskName o) (Dependencies o) (DependencyPolicy o) (Jitter o) (MaxRuns o).
Definition WithRetryPolicy v o := MkOptions (Timeout o) (Overlap o) v (Paused o) (Group o) (Tags o) (Replace o) (TaskName o) (Dependencies o) (DependencyPolicy o) (Jitter o) (MaxRuns o).
Definition WithPaused o := MkOptions (Timeout o) (Overlap o) (Retry o) true (Group o) (Tags o) (Replace o) (TaskName o) (Dependencies o) (DependencyPolicy o) (Jitter o) (MaxRuns o).
Definition WithGroup v o := MkOptions (Timeout o) (Overlap o) (Retry o) (Paused o) v (Tags o) (Replace o) (TaskName o) (Dependencies o) (DependencyPolicy o) (Jitter o) (MaxRuns o).
Definition WithTags v o := MkOptions (Timeout o) (Overlap o) (Retry o) (Paused o) (Group o) v (Replace o) (TaskName o) (Dependencies o) (DependencyPolicy o) (Jitter o) (MaxRuns o).
Definition ReplaceExisting o := MkOptions (Timeout o) (Overlap o) (Retry o) (Paused o) (Group o) (Tags o) true (TaskName o) (Dependencies o) (DependencyPolicy o) (Jitter o) (MaxRuns o).
Definition WithTaskName v o := MkOptions (Timeout o) (Overlap o) (Retry o) (Paused o) (Group o) (Tags o) (Replace o) v (Dependencies o) (DependencyPolicy o) (Jitter o) (MaxRuns o).
Definition WithDependsOn p v o := MkOptions (Timeout o) (Overlap o) (Retry o) (Paused o) (Group o) (Tags o) (Replace o) (TaskName o) v p (Jitter o) (MaxRuns o).
Definition WithJitter (d : Z) o :=
  if 0 <? d then MkOptions (Timeout o) (Overlap o) (Retry o) (Paused o) (Group o) (Tags o) (Replace o) (TaskName o) (Dependencies o) (DependencyPolicy o) d (MaxRuns o) else o.
Definition WithMaxRuns (n : Z) o :=
  if 0 <=? n then MkOptions (Timeout o) (Overlap o) (Retry o) (Paused o) (Group o) (Tags o) (Replace o) (TaskName o) (Dependencies o) (DependencyPolicy o) (Jitter o) n else o.

Definition hasAllTags (jobTags required : list gostring) : bool :=
  if decide (required = []) then false else forallb (λ req, bool_decide (req ∈ jobTags)) required.

(** ** The dead letter queue *)

Section dlq.
Context {Error : Type}.

Record DeadLetterEntry := MkEntry {
  eJobID : JobID;
  eError : option Error;
  eMessage : gostring;
  eAttempts : Z;
  eFirstFailed : Z;
  eLastFailed : Z;
  eTaskName : gostring;
  eGroup : gostring;
  eTags : list gostring;
}.
Implicit Types (entry : DeadLetterEntry).

Record DeadLetterQueue := MkDLQ { entries : gmap JobID DeadLetterEntry; order : list JobID; maxSize : Z }.
Implicit Types (d : DeadLetterQueue).

Definition NewDeadLetterQueue (maxSize : Z) : DeadLetterQueue := MkDLQ ∅ [] maxSize.

(** [for len(d.order) > 0 { ... }]: drops stale ids and the first id that has an entry. *)
Fixpoint evictOldest (order : list JobID) (entries : gmap JobID DeadLetterEntry) : list JobID * gmap JobID DeadLetterEntry :=
  match order with
  | [] => ([], entries)
  | oldest :: order =>
      match entries !! oldest with
      | Some _ => (order, delete oldest entries)
      | None => evictOldest order entries
      end
  end.

Definition updateEntry existing entry : DeadLetterEntry :=
  MkEntry (eJobID existing) (eError entry) (eMessage entry) (eAttempts entry) (eFirstFailed existing) (eLastFailed entry)
          (eTaskName entry) (eGroup entry) (eTags entry).

Definition dlqAdd entry d : DeadLetterQueue :=
  match entries d !! eJobID entry with
  | Some existing => MkDLQ (<[eJobID entry := updateEntry existing entry]> (entries d)) (order d) (maxSize d)
  | None =>
      let '(ord, ents) :=
        if (0 <? maxSize d) && (maxSize d <=? Z.of_nat (size (entries d))) then evictOldest (order d) (entries d)
        else (order d, entries d) in
      MkDLQ (<[eJobID entry := entry]> ents) (ord ++ [eJobID entry]) (maxSize d)
  end.

Definition dlqGet (id : JobID) d : option DeadLetterEntry := entries d !! id.
Definition dlqList d : list DeadLetterEntry := omap (λ id, entries d !! id) (order d).

(** Removes the first occurrence. *)
Fixpoint removeFirst (id : JobID) (l : list JobID) : list JobID :=
  match l with
  | [] => []
  | x :: l => if decide (x = id) then l else x :: removeFirst id l
  end.
Definition dlqDelete (id : JobID) d : bool * DeadLetterQueue :=
  match entries d !! id with
  | None => (false, d)
  | Some _ => (true, MkDLQ (delete id (entries d)) (removeFirst id (order d)) (maxSize d))
  end.
Definition dlqClear d : nat * DeadLetterQueue := (size (entries d), MkDLQ ∅ [] (maxSize d)).
Definition dlqSize d : nat := size (entries d).
End dlq.

(** ** Persisted jobs *)

Record StoredJob := MkStored {
  stID : JobID;
  stRunAt : Z;
  stTaskName : gostring;
  stGroup : gostring;
  stTags : list gostring;
  stTimeout : Z;
  stOverlap : OverlapPolicy;
  stRetry : RetrySpec;
  stCreatedAt : Z;
  stDependencies : list JobID;
  stDependencyPolicy : DependencyFailurePolicy;
}.

(** The [Store] interface. [Save] and [Delete] report errors that the scheduler ignores;
    [List] is [None] when it fails. *)
Class Store (St : Type) := {
  Save : StoredJob → St → St;
  Delete : JobID → St → St;
  List : St → option (list StoredJob);
}.

(** [MemoryStore]; [walk] is the order in which [List] visits the map. *)
Record MemoryStore := MkMemStore { stored : gmap JobID StoredJob; walk : list JobID }.
Definition NewMemoryStore (walk : list JobID) : MemoryStore := MkMemStore ∅ walk.
Definition memSave (j : StoredJob) (m : MemoryStore) : MemoryStore := MkMemStore (<[stID j := j]> (stored m)) (walk m).
Definition memDelete (id : JobID) (m : MemoryStore) : MemoryStore := MkMemStore (delete id (stored m)) (walk m).
Definition memList (m : MemoryStore) : list StoredJob := omap (λ id, stored m !! id) (keysIn (walk m) (stored m)).
#[export] Instance memoryStore : Store MemoryStore := {| Save := memSave; Delete := memDelete; List m := Some (memList m) |}.

End SchedJobs.
