(* ===== verification/SchedJobsProps.v ===== *)
(** * The job scheduler: dead letters and retry delays

    The dead letter queue, a map next to an order list, is a bounded list of entries;
    exponential delays are exact and never overflow; a retry policy survives persistence. *)

From stdpp Require Import options.
From S2P Require Import Prelude GoStrings GoTime GoMap SchedJobs.
Import SchedJobs.
#[local] Open Scope Z_scope.

(** ** The dead letter queue as a list *)

Section dlq.
Context {Error : Type}.
Implicit Types (e : DeadLetterEntry (Error := Error)) (l : list (DeadLetterEntry (Error := Error))) (d : DeadLetterQueue (Error := Error)).

Inductive dlqOp := DAdd (e : DeadLetterEntry (Error := Error)) | DGet (id : JobID) | DList | DDelete (id : JobID) | DClear | DSize.
Inductive dlqAnswer :=
  | ANone | AEntry (e : option (DeadLetterEntry (Error := Error))) | AEntries (l : list (DeadLetterEntry (Error := Error)))
  | ABool (b : bool) | ACount (n : nat).

(** What is known of a job that failed before and has failed again: the time of the first
    failure stays, everything else is the latest failure's. *)
Definition refailed e (latest : DeadLetterEntry (Error := Error)) : DeadLetterEntry := {|
  eJobID := eJobID latest; eError := eError latest; eMessage := eMessage latest; eAttempts := eAttempts latest;
  eFirstFailed := eFirstFailed e; eLastFailed := eLastFailed latest;
  eTaskName := eTaskName latest; eGroup := eGroup latest; eTags := eTags latest |}.

(** Entries in the order in which their jobs first failed. *)
Definition addEntry (maxSize : Z) e l : list DeadLetterEntry :=
  if decide (eJobID e ∈ eJobID <$> l) then
    (λ x, if decide (eJobID x = eJobID e) then refailed x e else x) <$> l
  else (if (0 <? maxSize) && (maxSize <=? Z.of_nat (length l)) then tail l else l) ++ [e].
Definition findEntry (id : JobID) l : option DeadLetterEntry := head (filter (λ e, eJobID e = id) l).

Definition listOp (maxSize : Z) (o : dlqOp) l : dlqAnswer * list DeadLetterEntry :=
  match o with
  | DAdd e => (ANone, addEntry maxSize e l)
  | DGet id => (AEntry (findEntry id l), l)
  | DList => (AEntries l, l)
  | DDelete id => (ABool (bool_decide (id ∈ eJobID <$> l)), filter (λ e, eJobID e ≠ id) l)
  | DClear => (ACount (length l), [])
  | DSize => (ACount (length l), l)
  end.
Definition queueOp (o : dlqOp) d : dlqAnswer * DeadLetterQueue :=
  match o with
  | DAdd e => (ANone, dlqAdd e d)
  | DGet id => (AEntry (dlqGet id d), d)
  | DList => (AEntries (dlqList d), d)
  | DDelete id => let '(b, d) := dlqDelete id d in (ABool b, d)
  | DClear => let '(n, d) := dlqClear d in (ACount n, d)
  | DSize => (ACount (dlqSize d), d)
  end.
Fixpoint listRun (maxSize : Z) (ops : list dlqOp) l : list dlqAnswer * list DeadLetterEntry :=
  match ops with
  | [] => ([], l)
  | o :: ops => let '(a, l) := listOp maxSize o l in let '(rest, l) := listRun maxSize ops l in (a :: rest, l)
  end.
Fixpoint queueRun (ops : list dlqOp) d : list dlqAnswer * DeadLetterQueue :=
  match ops with
  | [] => ([], d)
  | o :: ops => let '(a, d) := queueOp o d in let '(rest, d) := queueRun ops d in (a :: rest, d)
  end.

Definition asMap l : gmap JobID DeadLetterEntry := list_to_map ((λ e, (eJobID e, e)) <$> l).
Record represents (maxSize_ : Z) d l : Prop := {
  rep_order : order d = eJobID <$> l;
  rep_nodup : NoDup (eJobID <$> l);
  rep_entries : entries d = asMap l;
  rep_max : maxSize d = maxSize_;
}.

Lemma keys_asMap l : ((λ e, (eJobID e, e)) <$> l).*1 = eJobID <$> l.
Proof. by rewrite <-list_fmap_compose. Qed.
Lemma asMap_Some l i e : NoDup (eJobID <$> l) → asMap l !! i = Some e ↔ e ∈ l ∧ eJobID e = i.
Proof.
  intros Hn. unfold asMap. rewrite <-elem_of_list_to_map by (by rewrite keys_asMap). rewrite list_elem_of_fmap. split.
  - intros (x & [= -> ->] & Hx). done.
  - intros [He <-]. by exists e.
Qed.
Lemma asMap_None l i : asMap l !! i = None ↔ i ∉ eJobID <$> l.
Proof. unfold asMap. by rewrite <-not_elem_of_list_to_map, keys_asMap. Qed.
Lemma asMap_size l : NoDup (eJobID <$> l) → size (asMap l) = length l.
Proof.
  intros Hn. rewrite <-size_dom. unfold asMap. rewrite dom_list_to_map_L, keys_asMap, size_list_to_set by done.
  by rewrite length_fmap.
Qed.
Lemma asMap_snoc l e : eJobID e ∉ eJobID <$> l → asMap (l ++ [e]) = <[eJobID e := e]> (asMap l).
Proof.
  intros Hn. unfold asMap. rewrite fmap_app. simpl. rewrite list_to_map_snoc; [done|]. by rewrite keys_asMap.
Qed.

(** An entry map by ids is determined by its entries. *)
Lemma asMap_ext (m : gmap JobID DeadLetterEntry) l : NoDup (eJobID <$> l) →
  (∀ i e, m !! i = Some e ↔ e ∈ l ∧ eJobID e = i) → m = asMap l.
Proof. intros Hn Hm. apply map_eq. intros i. apply option_eq. intros e. by rewrite Hm, asMap_Some. Qed.

Lemma rep_list m d l : represents m d l → dlqList d = l.
Proof.
  intros [E1 E2 E3 E4]. unfold dlqList. rewrite E1, E3. assert (H : ∀ e, e ∈ l → asMap l !! eJobID e = Some e) by (intros e He; by apply asMap_Some).
  revert H. generalize (asMap l). clear. intros mp. induction l as [|x l IH]; intros H; [done|]. cbn [fmap list_fmap omap list_omap].
  rewrite (H x) by left. f_equal. apply IH. intros e He. apply H. by right.
Qed.
Lemma rep_get m d l i : represents m d l → dlqGet i d = findEntry i l.
Proof.
  intros [E1 E2 E3 E4]. unfold dlqGet, findEntry. rewrite E3. destruct (filter (λ e, eJobID e = i) l) as [|e r] eqn:Ef; simpl.
  - apply asMap_None. intros (e & -> & He)%list_elem_of_fmap. assert (e ∈ filter (λ x, eJobID x = eJobID e) l) by (by apply list_elem_of_filter).
    rewrite Ef in H. by apply elem_of_nil in H.
  - apply asMap_Some; [done|]. assert (He : e ∈ filter (λ e, eJobID e = i) l) by (rewrite Ef; left). by apply list_elem_of_filter in He as [? ?].
Qed.

Lemma rep_delete m d l i : represents m d l → i ∈ eJobID <$> l →
  represents m (MkDLQ (delete i (entries d)) (removeFirst i (order d)) (maxSize d)) (filter (λ e, eJobID e ≠ i) l).
Proof.
  intros [E1 E2 E3 E4] Hi. assert (Hn : NoDup (eJobID <$> filter (λ e, eJobID e ≠ i) l)).
  { by apply NoDup_fmap_filter. }
  split; simpl; [|done| |done].
  - rewrite E1. clear -E2. induction l as [|x l IH]; [done|]. cbn [fmap list_fmap] in *. apply NoDup_cons in E2 as [H1 H2].
    rewrite filter_cons. cbn [removeFirst]. destruct (decide (eJobID x = i)) as [Ex|Ex].
    + rewrite decide_False by (by intros []). rewrite filter_all; [done|]. apply Forall_forall. intros e He <-.
      apply H1. rewrite Ex. by apply list_elem_of_fmap_2.
    + rewrite decide_True by done. cbn [fmap list_fmap]. f_equal. by apply IH.
  - rewrite E3. apply asMap_ext; [done|]. intros k e. rewrite lookup_delete_Some, asMap_Some, list_elem_of_filter by done. naive_solver.
Qed.

Lemma evict_cons x l (E2 : NoDup (eJobID <$> (x :: l))) :
  evictOldest (eJobID <$> x :: l) (asMap (x :: l)) = (eJobID <$> l, asMap l).
Proof.
  cbn [fmap list_fmap] in *. apply NoDup_cons in E2 as [H1 H2]. cbn [evictOldest].
  assert (E : asMap (x :: l) = <[eJobID x := x]> (asMap l)) by done. rewrite E, lookup_insert_eq, delete_insert_eq, delete_id; [done|].
  by apply asMap_None.
Qed.

Lemma rep_add m d l e : represents m d l → represents m (dlqAdd e d) (addEntry m e l).
Proof.
  intros [E1 E2 E3 E4]. unfold dlqAdd, addEntry. rewrite E1, E3, E4. destruct (asMap l !! eJobID e) as [x|] eqn:Ex.
  - assert (Hx : x ∈ l ∧ eJobID x = eJobID e) by (by apply asMap_Some). destruct Hx as [Hx Eid].
    rewrite decide_True by (rewrite <-Eid; by apply list_elem_of_fmap_2).
    assert (Hu : ∀ y, eJobID y = eJobID e → refailed y e = updateEntry y e) by (intros y Hy; unfold refailed, updateEntry; by rewrite Hy).
    set (f := λ y, if decide (eJobID y = eJobID e) then refailed y e else y).
    assert (Hf : eJobID <$> (f <$> l) = eJobID <$> l).
    { rewrite <-list_fmap_compose. apply list_fmap_ext. intros i y _. simpl. unfold f. case_decide as Hy; [by rewrite Hu|done]. }
    split; simpl; [by rewrite Hf|by rewrite Hf| |done].
    apply asMap_ext; [by rewrite Hf|]. intros k y. rewrite lookup_insert_Some, asMap_Some, list_elem_of_fmap by done. split.
    + intros [[<- <-]|(Hk & Hy & <-)].
      * split; [|by rewrite <-Eid]. exists x. unfold f. by rewrite decide_True, Hu.
      * split; [|done]. exists y. unfold f. by rewrite decide_False.
    + intros [(z & -> & Hz) <-]. unfold f. destruct (decide (eJobID z = eJobID e)) as [Ez|Ez]; [left|by right].
      assert (z = x) as ->; [|by rewrite Hu]. assert (H1 : asMap l !! eJobID e = Some z) by (by apply asMap_Some). congruence.
  - apply asMap_None in Ex. rewrite decide_False by done. rewrite asMap_size by done.
    destruct ((0 <? m) && (m <=? Z.of_nat (length l))) eqn:Efull.
    + destruct l as [|x l]; [exfalso; unbool; simpl in *; lia|]. rewrite evict_cons by done. cbn [tail].
      cbn [fmap list_fmap] in *. apply NoDup_cons in E2 as [H1 H2]. rewrite not_elem_of_cons in Ex. destruct Ex as [_ Ex].
      split; simpl; [by rewrite fmap_app| |by rewrite asMap_snoc|done].
      rewrite fmap_app. apply NoDup_app. split_and!; [done|set_solver|apply NoDup_singleton].
    + split; simpl; [by rewrite fmap_app| |by rewrite asMap_snoc|done].
      rewrite fmap_app. apply NoDup_app. split_and!; [done|set_solver|apply NoDup_singleton].
Qed.

Lemma rep_op m d l o : represents m d l →
  (queueOp o d).1 = (listOp m o l).1 ∧ represents m (queueOp o d).2 (listOp m o l).2.
Proof.
  intros R. destruct o; simpl.
  - split; [done|by apply rep_add].
  - by rewrite (rep_get _ _ _ _ R).
  - by rewrite (rep_list _ _ _ R).
  - unfold dlqDelete. rewrite (rep_entries _ _ _ R). destruct (asMap l !! id) as [e|] eqn:E; simpl.
    + assert (Hin : id ∈ eJobID <$> l).
      { apply asMap_Some in E as [He <-]; [by apply list_elem_of_fmap_2|apply R]. }
      rewrite bool_decide_eq_true_2 by done. split; [done|]. rewrite <-(rep_entries _ _ _ R). by apply rep_delete.
    + apply asMap_None in E. rewrite bool_decide_eq_false_2 by done. split; [done|]. rewrite filter_all; [done|].
      apply Forall_forall. intros e He <-. apply E. by apply list_elem_of_fmap_2.
  - rewrite (rep_entries _ _ _ R), asMap_size by apply R. split; [done|]. destruct R. split; simpl; try done. apply NoDup_nil_2.
  - unfold dlqSize. by rewrite (rep_entries _ _ _ R), asMap_size by apply R.
Qed.

(** C26: every sequence of operations on the dead letter queue answers as on the list of
    entries in the order in which their jobs first failed: a repeated failure replaces the
    entry in place except for the time of the first failure, which is kept, a new one beyond the capacity evicts
    the oldest entry, and the capacity is never exceeded. *)
Theorem dlq_refines (maxSize : Z) (ops : list dlqOp) :
  (queueRun ops (NewDeadLetterQueue maxSize)).1 = (listRun maxSize ops []).1 ∧
  (0 < maxSize → Z.of_nat (dlqSize (queueRun ops (NewDeadLetterQueue maxSize)).2) ≤ maxSize).
Proof.
  assert (Hbound : ∀ o l, 0 < maxSize → Z.of_nat (length l) ≤ maxSize → Z.of_nat (length (listOp maxSize o l).2) ≤ maxSize).
  { intros o l Hm Hl. destruct o; simpl; try done; [|by etrans; [apply inj_le, length_filter|]|lia]. unfold addEntry.
    case_decide; [by rewrite length_fmap|]. rewrite length_app. simpl. case_match eqn:E; [|unbool; lia].
    destruct l; simpl in *; unbool; lia. }
  assert (Hrun : ∀ d l, represents maxSize d l → (0 < maxSize → Z.of_nat (length l) ≤ maxSize) →
    (queueRun ops d).1 = (listRun maxSize ops l).1 ∧ (0 < maxSize → Z.of_nat (dlqSize (queueRun ops d).2) ≤ maxSize)).
  { induction ops as [|o ops IH]; intros d l R Hl; simpl.
    - split; [done|]. intros Hm. unfold dlqSize. rewrite (rep_entries _ _ _ R), asMap_size by apply R. auto.
    - destruct (rep_op maxSize d l o R) as [Ha Hr]. pose proof (Hbound o l) as Hb.
      destruct (queueOp o d) as [a d'], (listOp maxSize o l) as [a' l']. simpl in *. subst a'.
      destruct (IH d' l' Hr) as [H1 H2]; [auto|]. destruct (queueRun ops d'), (listRun maxSize ops l'). simpl in *. by subst. }
  apply Hrun; [|simpl; lia]. split; simpl; try done. apply NoDup_nil_2.
Qed.
End dlq.

(** ** Retry delays *)

(** Exponential backoff is exact and never overflows: for a positive base the delay
    before attempt [n] is [base * 2^(n-1)] capped at the maximum as long as that is at most
    [2^62] ns, beyond that it is the maximum (or the base, when there is none); it is always
    a positive 64-bit duration. *)
Theorem backoff_exact base maxBackoff attempt : 0 < base ≤ int64_max → 0 ≤ maxBackoff ≤ int64_max → 1 ≤ attempt →
  let exact := base * 2 ^ (attempt - 1) in
  let delay := safeExponentialBackoff base maxBackoff attempt in
  0 < delay ≤ int64_max ∧
  delay = if attempt =? 1 then base
          else if exact <=? 2 ^ 62 then (if maxBackoff =? 0 then exact else Z.min exact maxBackoff)
          else if maxBackoff =? 0 then base else maxBackoff.
Proof.
  intros Hb Hm Ha exact delay. unfold int64_max in *. cut (delay = if attempt =? 1 then base
          else if exact <=? 2 ^ 62 then (if maxBackoff =? 0 then exact else Z.min exact maxBackoff)
          else if maxBackoff =? 0 then base else maxBackoff).
  { intros E. split; [|done]. rewrite E. assert (0 < exact) by (unfold exact; apply Z.mul_pos_pos; [lia|apply Z.pow_pos_nonneg; lia]).
    repeat case_match; unbool; lia. }
  unfold delay, safeExponentialBackoff. destruct (attempt =? 1) eqn:E1; unbool.
  { by rewrite (proj2 (Z.leb_le attempt 1)) by lia. }
  rewrite (proj2 (Z.leb_gt attempt 1)) by lia. cbv zeta. fold exact.
  assert (Hp : 0 < 2 ^ (attempt - 1)) by (apply Z.pow_pos_nonneg; lia).
  assert (Hover : (63 <=? attempt - 1) || (2 ^ 62 / 2 ^ (attempt - 1) <? base) = negb (exact <=? 2 ^ 62)).
  { unfold exact. destruct (63 <=? attempt - 1) eqn:E63; simpl; unbool.
    - symmetry. apply negb_true_iff, Z.leb_gt. assert (2 ^ 63 ≤ 2 ^ (attempt - 1)) by (apply Z.pow_le_mono_r; lia). nia.
    - destruct (2 ^ 62 / 2 ^ (attempt - 1) <? base) eqn:Eb; unbool; symmetry.
      + apply negb_true_iff, Z.leb_gt.
        destruct (Z.lt_ge_cases (2 ^ 62) (base * 2 ^ (attempt - 1))) as [|Hle]; [done|]. exfalso.
        assert (base ≤ 2 ^ 62 / 2 ^ (attempt - 1)) by (apply Z.div_le_lower_bound; lia). lia.
      + apply negb_false_iff, Z.leb_le. assert (2 ^ (attempt - 1) * (2 ^ 62 / 2 ^ (attempt - 1)) ≤ 2 ^ 62) by (apply Z.mul_div_le; lia). nia. }
  rewrite Hover. destruct (exact <=? 2 ^ 62) eqn:Ee; simpl; unbool.
  - assert (Hx : wrap64 (Z.shiftl base (attempt - 1)) = exact).
    { rewrite Z.shiftl_mul_pow2 by lia. apply wrap64_small. unfold is_int64, int64_min, int64_max. fold exact.
      assert (0 < exact) by (unfold exact; apply Z.mul_pos_pos; lia). lia. }
    rewrite Hx. assert (0 < exact) by (unfold exact; apply Z.mul_pos_pos; lia).
    rewrite (proj2 (Z.leb_gt exact 0)) by lia. repeat case_match; unbool; lia.
  - repeat case_match; unbool; lia.
Qed.

(** A persisted retry policy gives the same delays and attempts after a restart, when it
    was built by the constructors with a positive delay. *)
Lemma retry_roundtrip n base mx a : 0 < base →
  let fixed := RetryFixed n base in
  let expo := RetryExponential n base mx in
  retryDelay (hydrateRetry (serializeRetry fixed)) a = retryDelay fixed a ∧
  retryDelay (hydrateRetry (serializeRetry expo)) a = retryDelay expo a.
Proof.
  intros Hb fixed expo. unfold hydrateRetry, serializeRetry, fixed, expo, RetryFixed, RetryExponential. simpl.
  by rewrite (proj2 (Z.leb_gt base 0)) by lia.
Qed.

Definition letter (id : String.string) (attempts at_ : Z) : DeadLetterEntry (Error := unit) :=
  MkEntry (str id) None [] attempts at_ at_ [] [] [].
Lemma dlq_refines_witness : let ops := [DAdd (letter "a" 1 10); DAdd (letter "b" 1 11); DAdd (letter "a" 2 12); DGet (str "a"); DAdd (letter "c" 1 13); DGet (str "a"); DList; DSize] in
  Z.of_nat (dlqSize (queueRun ops (NewDeadLetterQueue 2)).2) ≤ 2 ∧
  (listRun 2 ops []).1 = [ANone; ANone; ANone; AEntry (Some (MkEntry (str "a") None [] 2 10 12 [] [] [])); ANone; AEntry None; AEntries [letter "b" 1 11; letter "c" 1 13]; ACount 2].
Proof. split; [apply dlq_refines; reflexivity|vm_compute; reflexivity]. Defined.

Lemma backoff_exact_witness : safeExponentialBackoff 1000 60000 5 = 16000 ∧ safeExponentialBackoff 1000 60000 80 = 60000 ∧
  (0 < safeExponentialBackoff 1000 60000 80 ≤ int64_max).
Proof. split; [reflexivity|]. split; [reflexivity|]. apply (backoff_exact 1000 60000 80); unfold int64_max; lia. Defined.
