(* ===== verification/SchedState.v ===== *)
(** * The job scheduler: state ([x/messaging/scheduler/heap.go], [scheduler.go])

    Jobs are shared objects: the registry, the queue, the work channel and the workers
    hold pointers to them, and a job that was replaced lives on while others still point
    to it. So the state has a store of job objects by pointer next to the registry from
    ids to pointers. The slices of the reverse dependency index share backing arrays with
    the loops that walk them, so the index has a store of arrays. *)

From stdpp Require Import options.
From S2P Require Import Prelude GoStrings GoTime GoMap GoHeap Cron SchedJobs.
Import Cron SchedJobs.
#[local] Open Scope Z_scope.

Module SchedState.

Section state.
Context {Task St : Type}.

(** The error of a run: its text and which context error it wraps. *)
Record taskErr := MkErr { errText : gostring; isDeadline : bool; isCanceled : bool }.

(** [version] is [job.scheduleVersion], [uint64]; [pending] and [running] are atomic flags. *)
Record job := MkJob {
  jid : JobID;
  kind : jobKind;
  cron : CronSpec;
  cronExpr : gostring;
  runAt : Z;
  fn : Task;
  opts : JobOptions;
  paused : bool;
  canceled : bool;
  nextAttempt : Z;
  running : bool;
  lastRun : Z;
  lastError : option taskErr;
  pending : bool;
  state : JobState;
  stateAt : Z;
  runCount : Z;
  version : Z;
}.
Definition set_cron (v : CronSpec) (x : job) : job :=
  {| jid := jid x; kind := kind x; cron := v; cronExpr := cronExpr x; runAt := runAt x; fn := fn x; opts := opts x; paused := paused x; canceled := canceled x; nextAttempt := nextAttempt x; running := running x; lastRun := lastRun x; lastError := lastError x; pending := pending x; state := state x; stateAt := stateAt x; runCount := runCount x; version := version x |}.
Definition set_cronExpr (v : gostring) (x : job) : job :=
  {| jid := jid x; kind := kind x; cron := cron x; cronExpr := v; runAt := runAt x; fn := fn x; opts := opts x; paused := paused x; canceled := canceled x; nextAttempt := nextAttempt x; running := running x; lastRun := lastRun x; lastError := lastError x; pending := pending x; state := state x; stateAt := stateAt x; runCount := runCount x; version := version x |}.
Definition set_runAt (v : Z) (x : job) : job :=
  {| jid := jid x; kind := kind x; cron := cron x; cronExpr := cronExpr x; runAt := v; fn := fn x; opts := opts x; paused := paused x; canceled := canceled x; nextAttempt := nextAttempt x; running := running x; lastRun := lastRun x; lastError := lastError x; pending := pending x; state := state x; stateAt := stateAt x; runCount := runCount x; version := version x |}.
Definition set_paused (v : bool) (x : job) : job :=
  {| jid := jid x; kind := kind x; cron := cron x; cronExpr := cronExpr x; runAt := runAt x; fn := fn x; opts := opts x; paused := v; canceled := canceled x; nextAttempt := nextAttempt x; running := running x; lastRun := lastRun x; lastError := lastError x; pending := pending x; state := state x; stateAt := stateAt x; runCount := runCount x; version := version x |}.
Definition set_canceled (v : bool) (x : job) : job :=
  {| jid := jid x; kind := kind x; cron := cron x; cronExpr := cronExpr x; runAt := runAt x; fn := fn x; opts := opts x; paused := paused x; canceled := v; nextAttempt := nextAttempt x; running := running x; lastRun := lastRun x; lastError := lastError x; pending := pending x; state := state x; stateAt := stateAt x; runCount := runCount x; version := version x |}.
Definition set_nextAttempt (v : Z) (x : job) : job :=
  {| jid := jid x; kind := kind x; cron := cron x; cronExpr := cronExpr x; runAt := runAt x; fn := fn x; opts := opts x; paused := paused x; canceled := canceled x; nextAttempt := v; running := running x; lastRun := lastRun x; lastError := lastError x; pending := pending x; state := state x; stateAt := stateAt x; runCount := runCount x; version := version x |}.
Definition set_running (v : bool) (x : job) : job :=
  {| jid := jid x; kind := kind x; cron := cron x; cronExpr := cronExpr x; runAt := runAt x; fn := fn x; opts := opts x; paused := paused x; canceled := canceled x; nextAttempt := nextAttempt x; running := v; lastRun := lastRun x; lastError := lastError x; pending := pending x; state := state x; stateAt := stateAt x; runCount := runCount x; version := version x |}.
Definition set_lastRun (v : Z) (x : job) : job :=
  {| jid := jid x; kind := kind x; cron := cron x; cronExpr := cronExpr x; runAt := runAt x; fn := fn x; opts := opts x; paused := paused x; canceled := canceled x; nextAttempt := nextAttempt x; running := running x; lastRun := v; lastError := lastError x; pending := pending x; state := state x; stateAt := stateAt x; runCount := runCount x; version := version x |}.
Definition set_lastError (v : option taskErr) (x : job) : job :=
  {| jid := jid x; kind := kind x; cron := cron x; cronExpr := cronExpr x; runAt := runAt x; fn := fn x; opts := opts x; paused := paused x; canceled := canceled x; nextAttempt := nextAttempt x; running := running x; lastRun := lastRun x; lastError := v; pending := pending x; state := state x; stateAt := stateAt x; runCount := runCount x; version := version x |}.
Definition set_pending (v : bool) (x : job) : job :=
  {| jid := jid x; kind := kind x; cron := cron x; cronExpr := cronExpr x; runAt := runAt x; fn := fn x; opts := opts x; paused := paused x; canceled := canceled x; nextAttempt := nextAttempt x; running := running x; lastRun := lastRun x; lastError := lastError x; pending := v; state := state x; stateAt := stateAt x; runCount := runCount x; version := version x |}.
Definition set_state (v : JobState) (x : job) : job :=
  {| jid := jid x; kind := kind x; cron := cron x; cronExpr := cronExpr x; runAt := runAt x; fn := fn x; opts := opts x; paused := paused x; canceled := canceled x; nextAttempt := nextAttempt x; running := running x; lastRun := lastRun x; lastError := lastError x; pending := pending x; state := v; stateAt := stateAt x; runCount := runCount x; version := version x |}.
Definition set_stateAt (v : Z) (x : job) : job :=
  {| jid := jid x; kind := kind x; cron := cron x; cronExpr := cronExpr x; runAt := runAt x; fn := fn x; opts := opts x; paused := paused x; canceled := canceled x; nextAttempt := nextAttempt x; running := running x; lastRun := lastRun x; lastError := lastError x; pending := pending x; state := state x; stateAt := v; runCount := runCount x; version := version x |}.
Definition set_runCount (v : Z) (x : job) : job :=
  {| jid := jid x; kind := kind x; cron := cron x; cronExpr := cronExpr x; runAt := runAt x; fn := fn x; opts := opts x; paused := paused x; canceled := canceled x; nextAttempt := nextAttempt x; running := running x; lastRun := lastRun x; lastError := lastError x; pending := pending x; state := state x; stateAt := stateAt x; runCount := v; version := version x |}.
Definition set_version (v : Z) (x : job) : job :=
  {| jid := jid x; kind := kind x; cron := cron x; cronExpr := cronExpr x; runAt := runAt x; fn := fn x; opts := opts x; paused := paused x; canceled := canceled x; nextAttempt := nextAttempt x; running := running x; lastRun := lastRun x; lastError := lastError x; pending := pending x; state := state x; stateAt := stateAt x; runCount := runCount x; version := v |}.

(** ** The schedule heap *)

(** The field [index], which nothing reads, is left out. *)
Record scheduleItem := MkItem { siRunAt : Z; siJob : nat; siVersion : Z }.

Definition itemLess (a b : scheduleItem) : bool := siRunAt a <? siRunAt b.
Definition scheduleLess (i j : nat) (h : list scheduleItem) : bool :=
  match h !! i, h !! j with Some a, Some b => itemLess a b | _, _ => false end.
Definition schedulePop (h : list scheduleItem) : option (scheduleItem * list scheduleItem) :=
  match reverse h with [] => None | x :: rest => Some (x, reverse rest) end.
#[export] Instance scheduleHeap : HeapInterface (list scheduleItem) scheduleItem := {|
  hLen := length; hLess := scheduleLess; hSwap := exchange; hPush x h := h ++ [x]; hPop := schedulePop |}.

Definition PushSchedule (it : scheduleItem) (h : list scheduleItem) : list scheduleItem := heapPush it h.
(** [None] when nothing is due. *)
Definition PopDue (now : Z) (h : list scheduleItem) : option (scheduleItem * list scheduleItem) :=
  match h with
  | [] => None
  | it :: _ => if now <? siRunAt it then None else heapPop h
  end.

Record runRequest := MkReq { reqJob : nat; enqueuedAt : Z }.

(** ** Reverse dependencies *)

(** A slice that starts its backing array; the array's length is the capacity. *)
Record slice := MkSlice { arr : nat; slen : nat }.
Record depTables := MkDeps {
  dependents : gmap JobID slice;
  arrays : gmap nat (list JobID);
  nextArr : nat;
  dependencyStatus : gmap JobID bool;
}.

(** What a walk of the slice reads at [i], at the moment it gets there. *)
Definition readSlice (sl : slice) (i : nat) (d : depTables) : JobID := default [] (arrays d !! arr sl ≫= λ l, l !! i).
Definition sliceValues (sl : slice) (d : depTables) : list JobID := take (slen sl) (default [] (arrays d !! arr sl)).
Definition dependentsOf (id : JobID) (d : depTables) : list JobID :=
  match dependents d !! id with None => [] | Some sl => sliceValues sl d end.

(** [d.dependents[id] = append(d.dependents[id], v)]: in place while there is capacity,
    else a new array with [spare] more cells, the runtime's choice. *)
Definition appendDependent (spare : nat → nat) (id v : JobID) (d : depTables) : depTables :=
  let '(old, n) := match dependents d !! id with
                   | Some sl => (default [] (arrays d !! arr sl), slen sl)
                   | None => ([], O)
                   end in
  match dependents d !! id with
  | Some sl =>
      if (n <? length old)%nat then
        MkDeps (<[id := MkSlice (arr sl) (S n)]> (dependents d)) (<[arr sl := <[n := v]> old]> (arrays d))
               (nextArr d) (dependencyStatus d)
      else
        MkDeps (<[id := MkSlice (nextArr d) (S n)]> (dependents d))
               (<[nextArr d := take n old ++ v :: replicate (spare n) []]> (arrays d)) (S (nextArr d)) (dependencyStatus d)
  | None =>
      MkDeps (<[id := MkSlice (nextArr d) 1]> (dependents d))
             (<[nextArr d := v :: replicate (spare 0%nat) []]> (arrays d)) (S (nextArr d)) (dependencyStatus d)
  end.

(** [filtered := deps[:0]; for _, d := range deps { if keep(d) { filtered = append(filtered, d) } }]:
    the kept values overwrite the front of the shared array; an empty result deletes the key. *)
Definition filterDependents (keep : JobID → bool) (id : JobID) (d : depTables) : depTables :=
  match dependents d !! id with
  | None => d
  | Some sl =>
      let kept := filter (λ x, keep x = true) (sliceValues sl d) in
      let old := default [] (arrays d !! arr sl) in
      let arrays' := <[arr sl := kept ++ drop (length kept) old]> (arrays d) in
      match kept with
      | [] => MkDeps (delete id (dependents d)) (arrays d) (nextArr d) (dependencyStatus d)
      | _ => MkDeps (<[id := MkSlice (arr sl) (length kept)]> (dependents d)) arrays' (nextArr d) (dependencyStatus d)
      end
  end.

Definition deleteDependents (id : JobID) (d : depTables) : depTables :=
  MkDeps (delete id (dependents d)) (arrays d) (nextArr d) (dependencyStatus d).
Definition setStatus (id : JobID) (v : bool) (d : depTables) : depTables :=
  MkDeps (dependents d) (arrays d) (nextArr d) (<[id := v]> (dependencyStatus d)).
Definition deleteStatus (id : JobID) (d : depTables) : depTables :=
  MkDeps (dependents d) (arrays d) (nextArr d) (delete id (dependencyStatus d)).

(** ** Counters and configuration *)

Record schedulerStats := MkStats {
  queued : Z; dropped : Z; success : Z; failure : Z; retry : Z; timeout : Z; canceledRuns : Z; queueDelayTotalNs : Z }.
Definition noStats : schedulerStats := MkStats 0 0 0 0 0 0 0 0.
Implicit Types (c : schedulerStats).
Definition incQueued c := MkStats (wrap64 (queued c + 1)) (dropped c) (success c) (failure c) (retry c) (timeout c) (canceledRuns c) (queueDelayTotalNs c).
Definition incDropped c := MkStats (queued c) (wrap64 (dropped c + 1)) (success c) (failure c) (retry c) (timeout c) (canceledRuns c) (queueDelayTotalNs c).
Definition incSuccess c := MkStats (queued c) (dropped c) (wrap64 (success c + 1)) (failure c) (retry c) (timeout c) (canceledRuns c) (queueDelayTotalNs c).
Definition incFailure c := MkStats (queued c) (dropped c) (success c) (wrap64 (failure c + 1)) (retry c) (timeout c) (canceledRuns c) (queueDelayTotalNs c).
Definition incRetry c := MkStats (queued c) (dropped c) (success c) (failure c) (wrap64 (retry c + 1)) (timeout c) (canceledRuns c) (queueDelayTotalNs c).
Definition incTimeout c := MkStats (queued c) (dropped c) (success c) (failure c) (retry c) (wrap64 (timeout c + 1)) (canceledRuns c) (queueDelayTotalNs c).
Definition incCanceled c := MkStats (queued c) (dropped c) (success c) (failure c) (retry c) (timeout c) (wrap64 (canceledRuns c + 1)) (queueDelayTotalNs c).
Definition addQueueDelay (d : Z) c := MkStats (queued c) (dropped c) (success c) (failure c) (retry c) (timeout c) (canceledRuns c) (wrap64 (queueDelayTotalNs c + d)).

(** What the options of [New] fix; [spare] is the runtime's choice of slice capacity. *)
Record config := MkConf { workerCount : Z; workCap : nat; policy : BackpressurePolicy; bpTimeout : Z; spare : nat → nat }.

(** ** The scheduler *)

Record Scheduler := MkSched {
  objs : gmap nat job;
  nextPtr : nat;
  jobs : gmap JobID nat;
  queue : list scheduleItem;
  wake : bool;
  closed : bool;
  started : bool;
  workCh : list runRequest;
  st : option St;
  registry : gmap gostring Task;
  deps : depTables;
  dlq : option (DeadLetterQueue (Error := taskErr));
  stats : schedulerStats;
  conf : config;
}.
Definition set_objs (v : gmap nat job) (x : Scheduler) : Scheduler :=
  {| objs := v; nextPtr := nextPtr x; jobs := jobs x; queue := queue x; wake := wake x; closed := closed x; started := started x; workCh := workCh x; st := st x; registry := registry x; deps := deps x; dlq := dlq x; stats := stats x; conf := conf x |}.
Definition set_nextPtr (v : nat) (x : Scheduler) : Scheduler :=
  {| objs := objs x; nextPtr := v; jobs := jobs x; queue := queue x; wake := wake x; closed := closed x; started := started x; workCh := workCh x; st := st x; registry := registry x; deps := deps x; dlq := dlq x; stats := stats x; conf := conf x |}.
Definition set_jobs (v : gmap JobID nat) (x : Scheduler) : Scheduler :=
  {| objs := objs x; nextPtr := nextPtr x; jobs := v; queue := queue x; wake := wake x; closed := closed x; started := started x; workCh := workCh x; st := st x; registry := registry x; deps := deps x; dlq := dlq x; stats := stats x; conf := conf x |}.
Definition set_queue (v : list scheduleItem) (x : Scheduler) : Scheduler :=
  {| objs := objs x; nextPtr := nextPtr x; jobs := jobs x; queue := v; wake := wake x; closed := closed x; started := started x; workCh := workCh x; st := st x; registry := registry x; deps := deps x; dlq := dlq x; stats := stats x; conf := conf x |}.
Definition set_wake (v : bool) (x : Scheduler) : Scheduler :=
  {| objs := objs x; nextPtr := nextPtr x; jobs := jobs x; queue := queue x; wake := v; closed := closed x; started := started x; workCh := workCh x; st := st x; registry := registry x; deps := deps x; dlq := dlq x; stats := stats x; conf := conf x |}.
Definition set_closed (v : bool) (x : Scheduler) : Scheduler :=
  {| objs := objs x; nextPtr := nextPtr x; jobs := jobs x; queue := queue x; wake := wake x; closed := v; started := started x; workCh := workCh x; st := st x; registry := registry x; deps := deps x; dlq := dlq x; stats := stats x; conf := conf x |}.
Definition set_started (v : bool) (x : Scheduler) : Scheduler :=
  {| objs := objs x; nextPtr := nextPtr x; jobs := jobs x; queue := queue x; wake := wake x; closed := closed x; started := v; workCh := workCh x; st := st x; registry := registry x; deps := deps x; dlq := dlq x; stats := stats x; conf := conf x |}.
Definition set_workCh (v : list runRequest) (x : Scheduler) : Scheduler :=
  {| objs := objs x; nextPtr := nextPtr x; jobs := jobs x; queue := queue x; wake := wake x; closed := closed x; started := started x; workCh := v; st := st x; registry := registry x; deps := deps x; dlq := dlq x; stats := stats x; conf := conf x |}.
Definition set_st (v : option St) (x : Scheduler) : Scheduler :=
  {| objs := objs x; nextPtr := nextPtr x; jobs := jobs x; queue := queue x; wake := wake x; closed := closed x; started := started x; workCh := workCh x; st := v; registry := registry x; deps := deps x; dlq := dlq x; stats := stats x; conf := conf x |}.
Definition set_registry (v : gmap gostring Task) (x : Scheduler) : Scheduler :=
  {| objs := objs x; nextPtr := nextPtr x; jobs := jobs x; queue := queue x; wake := wake x; closed := closed x; started := started x; workCh := workCh x; st := st x; registry := v; deps := deps x; dlq := dlq x; stats := stats x; conf := conf x |}.
Definition set_deps (v : depTables) (x : Scheduler) : Scheduler :=
  {| objs := objs x; nextPtr := nextPtr x; jobs := jobs x; queue := queue x; wake := wake x; closed := closed x; started := started x; workCh := workCh x; st := st x; registry := registry x; deps := v; dlq := dlq x; stats := stats x; conf := conf x |}.
Definition set_dlq (v : option (DeadLetterQueue (Error := taskErr))) (x : Scheduler) : Scheduler :=
  {| objs := objs x; nextPtr := nextPtr x; jobs := jobs x; queue := queue x; wake := wake x; closed := closed x; started := started x; workCh := workCh x; st := st x; registry := registry x; deps := deps x; dlq := v; stats := stats x; conf := conf x |}.
Definition set_stats (v : schedulerStats) (x : Scheduler) : Scheduler :=
  {| objs := objs x; nextPtr := nextPtr x; jobs := jobs x; queue := queue x; wake := wake x; closed := closed x; started := started x; workCh := workCh x; st := st x; registry := registry x; deps := deps x; dlq := dlq x; stats := v; conf := conf x |}.

(** ** Pointers *)

Implicit Types (s : Scheduler) (j : job) (p : nat).
Definition updJob p (f : job → job) s : Scheduler := set_objs (alter f p (objs s)) s.
Definition updDeps (f : depTables → depTables) s : Scheduler := set_deps (f (deps s)) s.
Definition updStats (f : schedulerStats → schedulerStats) s : Scheduler := set_stats (f (stats s)) s.

(** [New] with its options applied. *)
Definition New (c : config) (store : option St) (maxDeadLetters : option Z) : Scheduler :=
  {| objs := ∅; nextPtr := 0; jobs := ∅; queue := []; wake := false; closed := false; started := false; workCh := [];
     st := store; registry := ∅; deps := MkDeps ∅ ∅ 0 ∅; dlq := NewDeadLetterQueue <$> maxDeadLetters;
     stats := noStats; conf := c |}.
Definition DefaultWorkChannelBuffer : nat := 256.
Definition WithWorkers (n : Z) (c : config) : config :=
  if 0 <? n then MkConf n (workCap c) (policy c) (bpTimeout c) (spare c) else c.
Definition WithQueueSize (n : Z) (c : config) : config :=
  if 0 <? n then MkConf (workerCount c) (Z.to_nat n) (policy c) (bpTimeout c) (spare c) else c.
Definition WithBackpressure (p : BackpressurePolicy) (d : Z) (c : config) : config :=
  MkConf (workerCount c) (workCap c) p d (spare c).
Definition defaultConf (spare : nat → nat) : config := MkConf 4 DefaultWorkChannelBuffer BackpressureDrop 0 spare.
End state.
End SchedState.
