(* ===== verification/Scheduler.v ===== *)
(** * The job scheduler: operations
    ([x/messaging/scheduler/scheduler_api.go], [scheduler_executor.go], [scheduler_deps.go],
    [executor_runner.go], [executor_retry.go], [scheduler_query.go])

    One definition per critical section of the code, with the clock reading, the random
    jitter and the map order it uses as arguments. Following a pointer that is not in the
    object store, which never happens, does nothing. Logging, metrics and user callbacks
    are left out. *)

From stdpp Require Import options.
From S2P Require Import Prelude GoStrings GoNumbers GoTime GoMap GoHeap Cron SchedJobs SchedState.
Import Cron SchedJobs SchedState.
#[local] Open Scope Z_scope.

Module Scheduler.

Inductive schedErr :=
  | ErrSchedulerClosed | ErrJobExists | ErrJobNotFound | ErrTaskNil | ErrTaskNameEmpty | ErrRunAtRequired
  | ErrSelfDependency | ErrDependencyNotFound (id : JobID) | ErrDependencyCycle (id : JobID) | ErrCron (e : cronErr)
  | ErrJobCompleted | ErrJobPaused | ErrNotCron | ErrNoFutureRun.

Section ops.
Context {Task St : Type} `{!Store St}.
Abbreviation Sched := (Scheduler (Task := Task) (St := St)) (only parsing).
Abbreviation Job := (job (Task := Task)) (only parsing).
Implicit Types (s : Sched) (j : Job) (p : nat) (now : Z) (id : JobID).

(** ** Job states *)

Definition setState (v : JobState) now j : Job :=
  if decide (state j = v) then j else set_stateAt now (set_state v j).
Definition setJobStateLocked p (v : JobState) now s : Sched := updJob p (setState v now) s.
Definition setStateIfIdle (v : JobState) now j : Job :=
  if running j then j else if decide (state j = JobStateRetrying) then j else setState v now j.
Definition setJobStateIfIdleLocked p (v : JobState) now s : Sched := updJob p (setStateIfIdle v now) s.

Definition wakeScheduler s : Sched := set_wake true s.

(** ** The schedule *)

Definition pushScheduleItemLocked p (at_ : Z) (invalidateExisting : bool) s : Sched :=
  match objs s !! p with
  | None => s
  | Some j =>
      if invalidateExisting then
        let v := wrapu64 (version j + 1) in
        let s := updJob p (set_version v) s in
        set_queue (PushSchedule (MkItem at_ p v) (queue s)) s
      else set_queue (PushSchedule (MkItem at_ p 0) (queue s)) s
  end.

Definition pushScheduleLocked p (at_ : Z) now s : Sched :=
  let s := match objs s !! p with
           | Some j => if canceled j then s else setJobStateIfIdleLocked p JobStateScheduled now s
           | None => s
           end in
  wakeScheduler (pushScheduleItemLocked p at_ true s).

(** [s.queue.Peek()] under the read lock. *)
Definition nextDue s : option scheduleItem := if closed s then None else head (queue s).

(** An item is stale when the job was rescheduled since. *)
Definition stale (it : scheduleItem) s : bool :=
  match objs s !! siJob it with
  | None => true
  | Some j => (0 <? siVersion it) && negb (version j =? siVersion it)
  end.

(** Every round takes an item off the queue, so its length is fuel enough. *)
Fixpoint popDueLoop (fuel : nat) now s : option scheduleItem * Sched :=
  match fuel with
  | O => (None, s)
  | S fuel =>
      match PopDue now (queue s) with
      | None => (None, s)
      | Some (it, q) =>
          let s := set_queue q s in
          if stale it s then popDueLoop fuel now s else (Some it, s)
      end
  end.
Definition popDue now s : option scheduleItem * Sched :=
  if closed s then (None, s) else popDueLoop (S (length (queue s))) now s.

(** [rng.Int63n(max)] for the random number [r]. *)
Definition nextJitter (max r : Z) : Z := if max <=? 0 then 0 else r mod max.

Definition scheduleNext p (base now r : Z) s : Sched :=
  match objs s !! p with
  | None => s
  | Some j =>
      if closed s || canceled j then s
      else match kind j with
           | jobKindDelay => s
           | jobKindCron =>
               let next := Next (cron j) base in
               if next =? zeroTime then s
               else
                 let next := if 0 <? Jitter (opts j) then next + nextJitter (Jitter (opts j)) r else next in
                 let s := updJob p (set_runAt next) s in
                 let s := setJobStateIfIdleLocked p JobStateScheduled now s in
                 wakeScheduler (pushScheduleItemLocked p next true s)
           end
  end.

(** [resumeJobLocked]. *)
Definition resumeJobLocked p now s : Sched :=
  match objs s !! p with
  | None => s
  | Some j =>
      let s := updJob p (set_paused false) s in
      match kind j with
      | jobKindCron =>
          let next := Next (cron j) now in
          pushScheduleLocked p next now (updJob p (set_runAt next) s)
      | jobKindDelay => pushScheduleLocked p (runAt j) now s
      end
  end.

(** ** Dependencies *)

Definition depsOf s id : option (list JobID) :=
  p ← jobs s !! id; j ← objs s !! p; Some (Dependencies (opts j)).

(** [for _, depID := range dependencies]: stops at the first that is found. *)
Definition walkDeps (visit : JobID → gset JobID → bool * gset JobID) : list JobID → gset JobID → bool * gset JobID :=
  fix walk ds visited :=
    match ds with
    | [] => (false, visited)
    | d :: ds => let '(found, visited) := visit d visited in if found then (true, visited) else walk ds visited
    end.

(** Depth-first search; the visited map is shared by the whole search. The fuel bounds
    the depth: every level visits a registered job that no level above has. *)
Fixpoint depPathExistsLocked (fuel : nat) (current target : JobID) (visited : gset JobID) s : bool * gset JobID :=
  if decide (current = target) then (true, visited)
  else if decide (current ∈ visited) then (false, visited)
  else
    let visited := {[current]} ∪ visited in
    match depsOf s current, fuel with
    | Some ds, S fuel =>
        walkDeps (λ d visited, depPathExistsLocked fuel d target visited s) ds visited
    | _, _ => (false, visited)
    end.

Definition wouldCreateDependencyCycleLocked (newID : JobID) (dependencies : list JobID) s : bool :=
  existsb (λ d, bool_decide (d = newID) || (depPathExistsLocked (S (size (jobs s))) d newID ∅ s).1) dependencies.

Definition allDependenciesMetLocked j s : bool :=
  forallb (λ d, match dependencyStatus (deps s) !! d with Some ok => ok | None => false end) (Dependencies (opts j)).
Definition allDependenciesMetExceptLocked j (exceptID : JobID) s : bool :=
  forallb (λ d, bool_decide (d = exceptID) ||
                match dependencyStatus (deps s) !! d with Some ok => ok | None => false end) (Dependencies (opts j)).

Definition cleanupDependencyLinksLocked id j s : Sched :=
  let s := updDeps (deleteDependents id) s in
  foldl (λ s depID, updDeps (filterDependents (λ d, negb (bool_decide (d = id))) depID) s) s (Dependencies (opts j)).
Definition cleanupDependencyTrackingLocked id j s : Sched :=
  updDeps (deleteStatus id) (cleanupDependencyLinksLocked id j s).

Definition storeDelete id s : Sched :=
  match st s with None => s | Some x => set_st (Some (Delete id x)) s end.

Definition skipDependentJobLocked (depID : JobID) p now s : Sched :=
  match objs s !! p with
  | None => s
  | Some j =>
      match kind j with
      | jobKindCron =>
          let next := Next (cron j) now in
          let s := updJob p (set_runAt next) s in
          let s := setJobStateIfIdleLocked p JobStateScheduled now s in
          wakeScheduler (pushScheduleItemLocked p next true s)
      | jobKindDelay => storeDelete depID (setJobStateLocked p JobStateFailed now s)
      end
  end.

(** [cancel] is [cancelJobLocked], which calls this again. *)
Definition applyDependentPolicyLocked (cancel : JobID → nat → Sched → Sched) (depID : JobID) p (triggerID : JobID) now s : Sched :=
  match objs s !! p with
  | None => s
  | Some j =>
      match DependencyPolicy (opts j) with
      | DependencyFailureSkip => skipDependentJobLocked depID p now s
      | DependencyFailureCancel => cancel depID p s
      | DependencyFailureContinue =>
          if allDependenciesMetExceptLocked j triggerID s then
            let s := setJobStateIfIdleLocked p JobStateScheduled now s in
            wakeScheduler (pushScheduleItemLocked p (runAt j) true s)
          else s
      end
  end.

(** One round of the loops over dependents: cell [i] of the slice [sl], as it is now. *)
Definition notifyDependent (cancel : JobID → nat → Sched → Sched) (triggerID : JobID) (sl : slice) now s (i : nat) : Sched :=
  let depID := readSlice sl i (deps s) in
  match jobs s !! depID with
  | None => s
  | Some p =>
      match objs s !! p with
      | Some j => if canceled j then s else applyDependentPolicyLocked cancel depID p triggerID now s
      | None => s
      end
  end.

(** Cancelling a job can cancel its dependents, and theirs. Each level cancels a job that
    was live, so one more than the number of registered jobs is fuel enough. *)
Fixpoint cancelLoop (fuel : nat) now id p s : Sched :=
  match fuel with
  | O => s
  | S fuel =>
      match objs s !! p with
      | None => s
      | Some j =>
          let s := updJob p (set_canceled true) s in
          let s := setJobStateLocked p JobStateCanceled now s in
          let s := storeDelete id s in
          let s := match dependents (deps s) !! id with
                   | None => s
                   | Some sl => foldl (notifyDependent (cancelLoop fuel now) id sl now) s (seq 0 (slen sl))
                   end in
          cleanupDependencyTrackingLocked id j s
      end
  end.
Definition cancelJobLocked id p now s : Sched := cancelLoop (S (size (jobs s))) now id p s.

Definition retireJobLocked id p s : Sched :=
  match objs s !! p with
  | None => s
  | Some j => cleanupDependencyTrackingLocked id j (storeDelete id (updJob p (set_canceled true) s))
  end.

Definition handleDependentJobsOnFailure (failedID : JobID) now s : Sched :=
  match dependents (deps s) !! failedID with
  | None => s
  | Some sl => foldl (notifyDependent (λ id p, cancelJobLocked id p now) failedID sl now) s (seq 0 (slen sl))
  end.

Definition triggerDependent (sl : slice) now s (i : nat) : Sched :=
  match jobs s !! readSlice sl i (deps s) with
  | None => s
  | Some p =>
      match objs s !! p with
      | None => s
      | Some j =>
          if canceled j || paused j then s
          else if allDependenciesMetLocked j s then
            let s := setJobStateIfIdleLocked p JobStateScheduled now s in
            wakeScheduler (pushScheduleItemLocked p (runAt j) true s)
          else s
      end
  end.
Definition triggerDependentJobs (completed : JobID) now s : Sched :=
  match dependents (deps s) !! completed with
  | None => s
  | Some sl => foldl (triggerDependent sl now) s (seq 0 (slen sl))
  end.

(** Keeps the live dependents; tells whether there are any. *)
Definition liveDependent s (d : JobID) : bool :=
  match jobs s !! d with
  | None => false
  | Some p => match objs s !! p with
              | None => false
              | Some j => negb (canceled j || isTerminalState (state j))
              end
  end.
Definition hasLiveDependentsLocked id s : bool * Sched :=
  match dependentsOf id (deps s) with
  | [] => (false, s)
  | ds => (existsb (liveDependent s) ds, updDeps (filterDependents (liveDependent s) id) s)
  end.

(** ** Registration *)

Definition persistJobLocked p now s : Sched :=
  match st s, objs s !! p with
  | Some x, Some j =>
      match kind j with
      | jobKindCron => s
      | jobKindDelay =>
          if decide (TaskName (opts j) = []) then s
          else set_st (Some (Save (MkStored (jid j) (runAt j) (TaskName (opts j)) (Group (opts j)) (Tags (opts j))
                 (Timeout (opts j)) (Overlap (opts j)) (serializeRetry (Retry (opts j))) now
                 (Dependencies (opts j)) (DependencyPolicy (opts j))) x)) s
      end
  | _, _ => s
  end.

(** [time.Time.UnixNano]. *)
Definition unixNano (t : Z) : Z := wrap64 (t - 62135596800 * nanosPerSecond).

(** The dependencies in order, each an existing job other than the new one. *)
Fixpoint checkDependencies id (ds : list JobID) s : option schedErr :=
  match ds with
  | [] => None
  | d :: ds =>
      if decide (d = id) then Some ErrSelfDependency
      else match jobs s !! d with
           | None => Some (ErrDependencyNotFound d)
           | Some _ => checkDependencies id ds s
           end
  end.

Definition newJob id (k : jobKind) (task : Task) (spec : CronSpec) (at_ : Z) (o : JobOptions) now : Job :=
  let r := match k with
           | jobKindCron => Next spec now
           | jobKindDelay => if at_ <? now then now else at_
           end in
  {| jid := id; kind := k; cron := spec;
     cronExpr := match k with jobKindCron => default [] (Expr spec) | jobKindDelay => [] end; runAt := r; fn := task;
     opts := o; paused := Paused o; canceled := false; nextAttempt := 1; running := false; lastRun := zeroTime;
     lastError := None; pending := false; state := JobStateQueued; stateAt := now; runCount := 0; version := 0 |}.

(** The end of [addJob]: the checks have passed. *)
Definition registerJob id j now s : Sched :=
  let p := nextPtr s in
  let s := set_nextPtr (S p) (set_objs (<[p := j]> (objs s)) s) in
  let s := match jobs s !! id with Some old => cancelJobLocked id old now s | None => s end in
  let s := set_jobs (<[id := p]> (jobs s)) s in
  let s := foldl (λ s d, updDeps (appendDependent (spare (conf s)) d id) s) s (Dependencies (opts j)) in
  let s := if negb (paused j) && bool_decide (Dependencies (opts j) = []) then pushScheduleLocked p (runAt j) now s else s in
  persistJobLocked p now s.

Definition addJob id (k : jobKind) (task : option Task) (spec : CronSpec) (at_ : Z) (options : list (JobOptions → JobOptions))
    now s : result schedErr JobID * Sched :=
  match task with
  | None => (Err ErrTaskNil, s)
  | Some task =>
      let id := if decide (id = []) then str "job-" ++ print_Z (unixNano now) else id in
      let o := foldl (λ o f, f o) defaultJobOptions options in
      if closed s then (Err ErrSchedulerClosed, s)
      else
        let exists_ := match jobs s !! id with
                       | Some old => match objs s !! old with
                                     | Some e => negb (Replace o) && negb (canceled e)
                                     | None => false
                                     end
                       | None => false
                       end in
        if exists_ then (Err ErrJobExists, s)
        else match checkDependencies id (Dependencies o) s with
             | Some e => (Err e, s)
             | None =>
                 if wouldCreateDependencyCycleLocked id (Dependencies o) s then (Err (ErrDependencyCycle id), s)
                 else (Ok id, registerJob id (newJob id k task spec at_ o now) now s)
             end
  end.

Definition zeroSpec : CronSpec := MkSpec [] [] [] [] [] [] false false None 0.

(** [None] is a parser out of fuel, which does not happen ([cron_parse_total]). *)
Definition AddCron id (spec : gostring) (task : option Task) options now s : option (result schedErr JobID * Sched) :=
  match ParseCronSpec spec with
  | None => None
  | Some (Err e) => Some (Err (ErrCron e), s)
  | Some (Ok c) => Some (addJob id jobKindCron task c zeroTime options now s)
  end.
Definition AddCronWithLocation id (spec : gostring) (task : option Task) (location : option Z) options now s :
    option (result schedErr JobID * Sched) :=
  match ParseCronSpecWithLocation spec (Some (default 0 location)) with
  | None => None
  | Some (Err e) => Some (Err (ErrCron e), s)
  | Some (Ok c) => Some (addJob id jobKindCron task c zeroTime options now s)
  end.

Definition Schedule id (at_ : Z) (task : option Task) options now s : result schedErr JobID * Sched :=
  if at_ =? zeroTime then (Err ErrRunAtRequired, s) else addJob id jobKindDelay task zeroSpec at_ options now s.
Definition Delay id (delay : Z) (task : option Task) options now s : result schedErr JobID * Sched :=
  Schedule id (now + delay) task options now s.

Definition RegisterTask (name : gostring) (task : option Task) s : option schedErr * Sched :=
  if decide (name = []) then (Some ErrTaskNameEmpty, s)
  else match task with
       | None => (Some ErrTaskNil, s)
       | Some t => (None, set_registry (<[name := t]> (registry s)) s)
       end.

(** ** Control *)

(** The registered job and its pointer. *)
Definition findJob id s : option (nat * Job) := p ← jobs s !! id; j ← objs s !! p; Some (p, j).

Definition TriggerNow id now s : option schedErr * Sched :=
  if closed s then (Some ErrSchedulerClosed, s)
  else match findJob id s with
       | None => (Some ErrJobNotFound, s)
       | Some (p, j) =>
           if canceled j then (Some ErrJobNotFound, s)
           else if decide (kind j = jobKindDelay ∧ state j = JobStateCompleted) then (Some ErrJobCompleted, s)
           else if paused j then (Some ErrJobPaused, s)
           else (None, wakeScheduler (pushScheduleItemLocked p now (bool_decide (kind j = jobKindDelay)) s))
       end.

Definition UpdateCron id (spec : gostring) now s : option (option schedErr * Sched) :=
  if closed s then Some (Some ErrSchedulerClosed, s)
  else match findJob id s with
       | None => Some (Some ErrJobNotFound, s)
       | Some (p, j) =>
           if canceled j then Some (Some ErrJobNotFound, s)
           else if decide (kind j = jobKindDelay) then Some (Some ErrNotCron, s)
           else match ParseCronSpecWithLocation spec (location (cron j)) with
                | None => None
                | Some (Err e) => Some (Some (ErrCron e), s)
                | Some (Ok c) =>
                    let s := updJob p (λ j, set_cronExpr (default [] (Expr c)) (set_cron c j)) s in
                    let next := Next c now in
                    if next =? zeroTime then Some (Some ErrNoFutureRun, s)
                    else
                      let s := updJob p (set_runAt next) s in
                      if paused j then Some (None, s)
                      else Some (None, wakeScheduler (pushScheduleItemLocked p next true s))
                end
       end.

Definition Cancel id now s : bool * Sched :=
  match findJob id s with None => (false, s) | Some (p, j) => (true, cancelJobLocked id p now s) end.
Definition Pause id s : bool * Sched :=
  match findJob id s with None => (false, s) | Some (p, j) => (true, updJob p (set_paused true) s) end.
Definition Resume id now s : bool * Sched :=
  match findJob id s with
  | None => (false, s)
  | Some (p, j) => if canceled j then (false, s) else if negb (paused j) then (true, s) else (true, resumeJobLocked p now s)
  end.

(** [walk] is the order in which the loop visits the map; the registry does not change
    while it runs. *)
Definition applyBatchLocked (walk : list JobID) (matches : Job → bool) (mutate : JobID → nat → Sched → Sched) s : nat * Sched :=
  foldl (λ '(count, s) id,
    match findJob id s with
    | None => (count, s)
    | Some (p, j) => if matches j then (S count, mutate id p s) else (count, s)
    end) (O, s) (keysIn walk (jobs s)).

Definition PauseByGroup walk (group : gostring) s : nat * Sched :=
  if decide (group = []) then (O, s)
  else applyBatchLocked walk (λ j, bool_decide (Group (opts j) = group) && negb (paused j)) (λ _ p, updJob p (set_paused true)) s.
Definition PauseByTags walk (tags : list gostring) s : nat * Sched :=
  if decide (tags = []) then (O, s)
  else applyBatchLocked walk (λ j, hasAllTags (Tags (opts j)) tags && negb (paused j)) (λ _ p, updJob p (set_paused true)) s.
Definition ResumeByGroup walk (group : gostring) now s : nat * Sched :=
  if decide (group = []) then (O, s)
  else applyBatchLocked walk (λ j, bool_decide (Group (opts j) = group) && paused j && negb (canceled j)) (λ _ p, resumeJobLocked p now) s.
Definition ResumeByTags walk (tags : list gostring) now s : nat * Sched :=
  if decide (tags = []) then (O, s)
  else applyBatchLocked walk (λ j, hasAllTags (Tags (opts j)) tags && paused j && negb (canceled j)) (λ _ p, resumeJobLocked p now) s.
Definition CancelByGroup walk (group : gostring) now s : nat * Sched :=
  if decide (group = []) then (O, s)
  else applyBatchLocked walk (λ j, bool_decide (Group (opts j) = group)) (λ id p, cancelJobLocked id p now) s.
Definition CancelByTags walk (tags : list gostring) now s : nat * Sched :=
  if decide (tags = []) then (O, s)
  else applyBatchLocked walk (λ j, hasAllTags (Tags (opts j)) tags) (λ id p, cancelJobLocked id p now) s.

(** Removes terminal jobs without live dependents; deleting the visited key during the
    walk does not disturb it. [limit <= 0] means no limit. *)
Definition pruneOne (limit : Z) (acc : nat * Sched) id : nat * Sched :=
  let '(pruned, s) := acc in
  if (0 <? limit) && (limit <=? Z.of_nat pruned) then acc
  else match findJob id s with
       | None => acc
       | Some (p, j) =>
           if running j || negb (isTerminalState (state j)) then acc
           else
             let '(live, s) := hasLiveDependentsLocked id s in
             if live then (pruned, s)
             else
               let s := updJob p (set_canceled true) s in
               let s := set_jobs (delete id (jobs s)) s in
               (S pruned, cleanupDependencyTrackingLocked id j s)
       end.
Definition PruneTerminalJobs walk (limit : Z) s : nat * Sched := foldl (pruneOne limit) (O, s) (keysIn walk (jobs s)).

(** [Stop], up to waiting for the goroutines. *)
Definition Stop s : Sched := set_closed true s.

(** ** Running jobs *)

(** [execute] up to the call of the task: the attempt the task is told. *)
Definition executeBegin p (enqueued now : Z) s : Z * Sched :=
  let s := updStats (addQueueDelay (now - enqueued)) s in
  (match objs s !! p with Some j => nextAttempt j | None => 0 end, setJobStateLocked p JobStateRunning now s).

Definition guarded j : bool := match Overlap (opts j) with AllowConcurrent => false | _ => true end.
(** The task has returned: the running flag goes down. *)
Definition releaseRunning p s : Sched := updJob p (λ j, if guarded j then set_running false j else j) s.
Definition recordRun p (start : Z) (err : option taskErr) s : Sched :=
  updJob p (λ j, set_lastError err (set_lastRun start j)) s.

Definition countFailure (err : taskErr) s : Sched :=
  updStats (λ c, incFailure (if isDeadline err then incTimeout c else if isCanceled err then incCanceled c else c)) s.

(** The critical section after a success, up to taking the pending flag: whether a
    pending run was found and whether the job has had its last run. *)
Definition executeSuccess p now s : bool * bool * Sched :=
  let s := updStats incSuccess s in
  match objs s !! p with
  | None => (false, false, s)
  | Some j =>
      let runs := wrap64 (runCount j + 1) in
      let maxRunsReached := (0 <? MaxRuns (opts j)) && (MaxRuns (opts j) <=? runs) in
      let s := updJob p (λ j, set_runCount runs (set_nextAttempt 1 j)) s in
      let s := if bool_decide (kind j = jobKindDelay) || maxRunsReached then setJobStateLocked p JobStateCompleted now s else s in
      let s := updDeps (setStatus (jid j) true) s in
      let serial := bool_decide (Overlap (opts j) = SerialQueue) in
      (serial && pending j, maxRunsReached, if serial then updJob p (set_pending false) s else s)
  end.
(** The rest of the section: the dispatcher can raise the running flag in between. *)
Definition queuePending p (pend maxRunsReached : bool) now s : Sched :=
  match objs s !! p with
  | None => s
  | Some j =>
      if pend && negb maxRunsReached && negb (running j) then
        wakeScheduler (pushScheduleItemLocked p now true (setJobStateIfIdleLocked p JobStateScheduled now s))
      else s
  end.

(** [handleFailure], first section: the attempt that failed, and whether it was the last. *)
Definition failAttempt p s : Z * bool * Sched :=
  match objs s !! p with
  | None => (0, true, s)
  | Some j =>
      let attempt := nextAttempt j in
      let mx := MaxAttempts (Retry (opts j)) in
      let s := if (1 <? mx) && (attempt <? mx) then updJob p (set_nextAttempt (wrap64 (attempt + 1))) s else s in
      (attempt, (mx <=? 1) || (mx <=? attempt), s)
  end.
(** The section that schedules the retry. *)
Definition pushRetry p (attempt now : Z) s : Sched :=
  match objs s !! p with
  | None => s
  | Some j => updStats incRetry (wakeScheduler (pushScheduleItemLocked p (now + retryDelay (Retry (opts j)) attempt) true s))
  end.

Definition addToDeadLetterQueue p (err : taskErr) (attempts now : Z) s : Sched :=
  match dlq s, objs s !! p with
  | Some d, Some j =>
      set_dlq (Some (dlqAdd (MkEntry (jid j) (Some err) (errText err) attempts now now (TaskName (opts j)) (Group (opts j)) (Tags (opts j))) d)) s
  | _, _ => s
  end.

Definition kindIs (k : jobKind) p s : bool :=
  match objs s !! p with Some j => bool_decide (kind j = k) | None => false end.
Definition idOf p s : JobID := match objs s !! p with Some j => jid j | None => [] end.

(** [handleRetriesExhausted], [handleFailure] and [execute], run without interruption by
    a worker; their critical sections are the steps of the machine of goroutines. *)
Definition handleRetriesExhausted p (err : taskErr) (attempts now r : Z) s : Sched :=
  let s := if kindIs jobKindDelay p s then setJobStateLocked p JobStateFailed now s else s in
  let s := addToDeadLetterQueue p err attempts now s in
  let s := if kindIs jobKindCron p s then scheduleNext p now now r s else s in
  let s := if kindIs jobKindDelay p s then storeDelete (idOf p s) s else s in
  let s := updDeps (setStatus (idOf p s) false) s in
  handleDependentJobsOnFailure (idOf p s) now s.

Definition finalAttempt p (attempt : Z) s : Z :=
  match objs s !! p with Some j => if MaxAttempts (Retry (opts j)) <=? 1 then 1 else attempt | None => attempt end.

Definition handleFailure p (err : taskErr) (now r : Z) s : Sched :=
  let '(attempt, exhausted, s) := failAttempt p s in
  if exhausted : bool then handleRetriesExhausted p err (finalAttempt p attempt s) now r s
  else pushRetry p attempt now (setJobStateLocked p JobStateRetrying now s).

Definition execute p (enqueued start now r : Z) (err : option taskErr) s : Sched :=
  let '(_, s) := executeBegin p enqueued start s in
  let s := recordRun p start err (releaseRunning p s) in
  match err with
  | Some e => handleFailure p e now r (countFailure e s)
  | None =>
      let '(pend, maxed, s) := executeSuccess p now s in
      let s := queuePending p pend maxed now s in
      let s := if kindIs jobKindCron p s && negb pend && negb maxed then scheduleNext p start now r s else s in
      let s := if kindIs jobKindDelay p s then storeDelete (idOf p s) s else s in
      let s := triggerDependentJobs (idOf p s) now s in
      if maxed then retireJobLocked (idOf p s) p s else s
  end.

(** [handleBackpressure] up to rescheduling. *)
Definition dropRun p s : Sched := releaseRunning p (updStats incDropped s).

(** ** Dead letters and persistence *)

Definition RequeueDeadLetter id (task : option Task) options now s : result schedErr JobID * Sched :=
  match dlq s with
  | None => (Err ErrJobNotFound, s)
  | Some d =>
      match dlqGet id d with
      | None => (Err ErrJobNotFound, s)
      | Some entry =>
          match Delay (eJobID entry) 0 task (options ++ [ReplaceExisting]) now s with
          | (Err e, s) => (Err e, s)
          | (Ok id', s) =>
              (Ok id', match dlq s with Some d => set_dlq (Some (dlqDelete id d).2) s | None => s end)
          end
      end
  end.

Definition buildLoadOpts (item : StoredJob) : list (JobOptions → JobOptions) :=
  [WithTimeout (stTimeout item); WithOverlapPolicy (stOverlap item); WithRetryPolicy (hydrateRetry (stRetry item));
   WithGroup (stGroup item); WithTags (stTags item); WithTaskName (stTaskName item); ReplaceExisting].

Definition restore (item : StoredJob) (extra : list (JobOptions → JobOptions)) now s : Sched :=
  match registry s !! stTaskName item with
  | None => s
  | Some task => (Schedule (stID item) (stRunAt item) (Some task) (buildLoadOpts item ++ extra) now s).2
  end.
Definition loadPersisted now s : Sched :=
  match st s with
  | None => s
  | Some x =>
      match List x with
      | None => s
      | Some items =>
          let known := filter (λ it, stTaskName it ≠ [] ∧ is_Some (registry s !! stTaskName it)) items in
          let s := foldl (λ s it, restore it [] now s) s (filter (λ it, stDependencies it = []) known) in
          foldl (λ s it, restore it [WithDependsOn (stDependencyPolicy it) (stDependencies it)] now s) s
                (filter (λ it, stDependencies it ≠ []) known)
      end
  end.
End ops.
End Scheduler.
