(* ===== verification/SchedFacts.v ===== *)
(** * The job scheduler: what every critical section keeps

    A preorder [frame] says what a locked operation may do to the jobs: their identity,
    options and running flag stay, cancellation is final, new jobs start idle, and no cron
    job loses its place in the schedule. Every operation of the scheduler is shown to be
    in it; the machine of goroutines builds on that. *)

From stdpp Require Import options.
From S2P Require Import Prelude GoStrings GoNumbers GoTime GoMap GoHeap Cron SchedJobs SchedState Scheduler.
Import Cron SchedJobs SchedState Scheduler.
#[local] Open Scope Z_scope.

#[export] Instance itemLess_order : WeakOrder itemLess.
Proof. split; unfold itemLess; intros; unbool; lia. Qed.

#[export] Instance schedule_laws : HeapLaws itemLess (λ h : list scheduleItem, h).
Proof.
  split; simpl; try done.
  - intros i j h x y Ex Ey. unfold scheduleLess. by rewrite Ex, Ey.
  - intros h l x ->. unfold schedulePop. rewrite reverse_snoc. eexists. split; [done|]. by rewrite reverse_involutive.
Qed.

Definition queueOrdered (q : list scheduleItem) : Prop := heapOrdered itemLess (λ h, h) q.

Lemma PushSchedule_ok it q : queueOrdered q → queueOrdered (PushSchedule it q) ∧ PushSchedule it q ≡ₚ it :: q.
Proof. apply (heapPush_ok itemLess (λ h, h)). Qed.

Lemma PushSchedule_elem it q x : x ∈ PushSchedule it q ↔ x = it ∨ x ∈ q.
Proof. rewrite <-elem_of_cons. unfold PushSchedule. by rewrite (heapPush_perm itemLess (λ h : list scheduleItem, h)). Qed.

(** [PopDue] takes an earliest item, if it is due. *)
Lemma PopDue_ok now q : queueOrdered q →
  match PopDue now q with
  | Some (it, q') => queueOrdered q' ∧ q ≡ₚ it :: q' ∧ siRunAt it ≤ now ∧ ∀ x, x ∈ q → siRunAt it ≤ siRunAt x
  | None => ∀ x, x ∈ q → now < siRunAt x
  end.
Proof.
  intros Ho. unfold PopDue. destruct q as [|it q]; [set_solver|].
  assert (Hmin : ∀ x, x ∈ it :: q → siRunAt it ≤ siRunAt x).
  { intros x Hx. pose proof (heapOrdered_root itemLess (λ h : list scheduleItem, h) (it :: q) it Ho eq_refl x Hx) as H.
    unfold itemLess in H. unbool. lia. }
  destruct (now <? siRunAt it) eqn:Ed; unbool.
  - intros x Hx. specialize (Hmin x Hx). lia.
  - destruct (heapPop_ok itemLess (λ h : list scheduleItem, h) (λ _, True) (it :: q) it) as (h2 & h' & E1 & E2 & E3 & _); [done..|].
    rewrite E1. split_and!; [done..|lia|done].
Qed.

(** The readings of the clock that occur in the runs considered. *)
Class Clock := reads : Z → Prop.

Section facts.
Context {Task St : Type} `{!Store St} {clk : Clock}.
Abbreviation Sched := (Scheduler (Task := Task) (St := St)) (only parsing).
Abbreviation Job := (job (Task := Task)) (only parsing).
Implicit Types (s : Sched) (j : Job) (p : nat) (now : Z) (id : JobID).

(** ** Well-formed states *)

Record wf s : Prop := {
  wf_ptr p : is_Some (objs s !! p) → (p < nextPtr s)%nat;
  wf_jobs id p : jobs s !! id = Some p → ∃ j, objs s !! p = Some j ∧ jid j = id;
  wf_items it : it ∈ queue s → is_Some (objs s !! siJob it);
  wf_heap : queueOrdered (queue s);
}.

(** The job has an item in the queue that is not stale. *)
Definition scheduled p s : Prop := ∃ it, it ∈ queue s ∧ siJob it = p ∧ stale it s = false.

(** A cron job without dependencies that is neither cancelled nor paused is in the
    schedule, unless its expression had no time after some reading of the clock. *)
Definition ok p s : Prop := ∀ j, objs s !! p = Some j → closed s = false → canceled j = false → paused j = false →
  kind j = jobKindCron → Dependencies (opts j) = [] → scheduled p s ∨ ∃ t, reads t ∧ Next (cron j) t = zeroTime.

(** ** Dependency graphs *)

Definition edge s (a b : JobID) : Prop := ∃ ds, depsOf s a = Some ds ∧ b ∈ ds.
Definition acyclic s : Prop := ∀ id, ¬ tc (edge s) id id.

Lemma acyclic_sub s s' : (∀ a b, edge s' a b → edge s a b) → acyclic s → acyclic s'.
Proof. intros He Ha i Hi. apply (Ha i). by apply (tc_congruence (λ x, x) (edge s)) in Hi. Qed.
Lemma acyclic_ext s s' : (∀ i, depsOf s' i = depsOf s i) → acyclic s → acyclic s'.
Proof. intros He. apply acyclic_sub. intros a b (ds & E & Hb). exists ds. by rewrite <-He. Qed.

(** ** Frames *)

Record keeps j j' : Prop := {
  k_jid : jid j' = jid j;
  k_kind : kind j' = kind j;
  k_opts : opts j' = opts j;
  k_canceled : canceled j = true → canceled j' = true;
}.

(** The jobs in [X] are exempt from keeping their running flag and their place in the
    schedule. *)
Record framex (X : nat → Prop) s s' : Prop := {
  fr_wf : wf s → wf s';
  fr_obj p j : objs s !! p = Some j → ∃ j', objs s' !! p = Some j' ∧ keeps j j' ∧ (¬ X p → running j' = running j);
  fr_new p j' : objs s' !! p = Some j' → objs s !! p = None → ¬ X p → running j' = false ∧ ok p s';
  fr_ok p : is_Some (objs s !! p) → ¬ X p → ok p s → ok p s';
  fr_closed : closed s' = false → closed s = false;
  fr_jobs : jobs s' = jobs s;
  fr_conf : conf s' = conf s;
  fr_work : workCh s' = workCh s;
}.
Abbreviation frame := (framex (λ _, False)).

Lemma job_keeps_refl j : keeps j j.
Proof. by split. Qed.
Lemma keeps_trans j1 j2 j3 : keeps j1 j2 → keeps j2 j3 → keeps j1 j3.
Proof. intros [] []. split; try congruence; tauto. Qed.

#[export] Instance frame_preorder X : PreOrder (framex X).
Proof.
  split.
  - intros s. split; try done; [intros p j E; exists j; split_and!; [done|apply job_keeps_refl|done]|intros p j' E E'; congruence].
  - intros s1 s2 s3 F G. split.
    + intros. by apply (fr_wf _ _ _ G), (fr_wf _ _ _ F).
    + intros p j E. destruct (fr_obj _ _ _ F p j E) as (j2 & E2 & K2 & R2).
      destruct (fr_obj _ _ _ G p j2 E2) as (j3 & E3 & K3 & R3). exists j3. split_and!; [done|by eapply keeps_trans|].
      intros H. by rewrite (R3 H), (R2 H).
    + intros p j3 E3 E1 HX. destruct (objs s2 !! p) as [j2|] eqn:E2; [|by apply (fr_new _ _ _ G)].
      destruct (fr_new _ _ _ F p j2 E2 E1 HX) as [R2 O2]. destruct (fr_obj _ _ _ G p j2 E2) as (j3' & E3' & K3 & R3). simplify_eq.
      split; [by rewrite (R3 HX)|by apply (fr_ok _ _ _ G)].
    + intros p [j E] HX Ho. destruct (fr_obj _ _ _ F p j E) as (j2 & E2 & K2 & _). apply (fr_ok _ _ _ G); [by eexists|done|].
      by apply (fr_ok _ _ _ F); [by eexists|..].
    + intros. by apply (fr_closed _ _ _ F), (fr_closed _ _ _ G).
    + by rewrite (fr_jobs _ _ _ G), (fr_jobs _ _ _ F).
    + by rewrite (fr_conf _ _ _ G), (fr_conf _ _ _ F).
    + by rewrite (fr_work _ _ _ G), (fr_work _ _ _ F).
Qed.

Lemma framex_weaken (X Y : nat → Prop) s s' : (∀ p, X p → Y p) → framex X s s' → framex Y s s'.
Proof.
  intros HXY F. split; try apply F.
  - intros p j E. destruct (fr_obj _ _ _ F p j E) as (j' & E' & K & R). exists j'. split_and!; [done..|]. intros HY. apply R. auto.
  - intros p j' E E' HY. apply (fr_new _ _ _ F p j' E E'). auto.
  - intros p H HY. apply (fr_ok _ _ _ F p H). auto.
Qed.

(** An exempt job that is fine in the end was never a problem. *)
Lemma framex_closed p s s' : framex (λ q, q = p) s s' → (ok p s → ok p s') →
  (∀ j j', objs s !! p = Some j → objs s' !! p = Some j' → running j' = running j) → is_Some (objs s !! p) → frame s s'.
Proof.
  intros F Ho Hr Hp. split; try apply F.
  - intros q j E. destruct (fr_obj _ _ _ F q j E) as (j' & E' & K & R). exists j'. split_and!; [done..|].
    intros _. destruct (decide (q = p)) as [->|]; [by eapply Hr|by apply R].
  - intros q j' E E' _. destruct (decide (q = p)) as [->|Hq]; [rewrite E' in Hp; by destruct Hp|]. by apply (fr_new _ _ _ F q j' E E').
  - intros q H _ Hq. destruct (decide (q = p)) as [->|]; [by apply Ho|by apply (fr_ok _ _ _ F q H)].
Qed.

Lemma frame_foldl {B} (f : Sched → B → Sched) l s : (∀ s b, frame s (f s b)) → frame s (foldl f s l).
Proof. intros Hf. revert s. induction l as [|b l IH]; intros s; simpl; [done|]. by transitivity (f s b). Qed.

(** Parts of the state that frames do not look at. *)
Lemma frame_same s s' : objs s' = objs s → nextPtr s' = nextPtr s → jobs s' = jobs s → queue s' = queue s →
  closed s' = closed s → conf s' = conf s → workCh s' = workCh s → frame s s'.
Proof.
  intros E1 E2 E3 E4 E5 E6 E7. assert (Hsch : ∀ p, scheduled p s' ↔ scheduled p s).
  { intros p. unfold scheduled, stale. by rewrite E4, E1. }
  split; try done.
  - intros [W1 W2 W3 W4]. split; rewrite ?E1, ?E2, ?E3, ?E4; done.
  - intros p j E. exists j. rewrite E1. split_and!; [done|apply job_keeps_refl|done].
  - intros p j' E E'. rewrite E1 in E. congruence.
  - intros p _ _ Ho j. rewrite E1, E5, Hsch. apply Ho.
  - by rewrite E5.
Qed.

(** ** Updating a job *)

Record benign j j' : Prop := {
  b_keeps : keeps j j';
  b_running : running j' = running j;
  b_cron : cron j' = cron j;
  b_version : version j' = version j;
  b_paused : paused j' = paused j;
}.

Lemma updJob_lookup p f s q : objs (updJob p f s) !! q = (if decide (p = q) then f else id) <$> objs s !! q.
Proof.
  simpl. rewrite lookup_alter. case_decide as E; [by subst|]. by destruct (objs s !! q).
Qed.
Lemma updJob_Some p f s j : objs s !! p = Some j → objs (updJob p f s) !! p = Some (f j).
Proof. intros E. by rewrite updJob_lookup, E, decide_True. Qed.

(** An update that keeps identity and options keeps well-formedness and the graph. *)
Lemma updJob_wf p f s : (∀ j, jid (f j) = jid j) → wf s → wf (updJob p f s).
Proof.
  intros Hf [W1 W2 W3 W4]. split.
  - intros q. rewrite updJob_lookup, fmap_is_Some. apply W1.
  - intros i q E. destruct (W2 i q E) as (j & Ej & <-). rewrite updJob_lookup, Ej. eexists. split; [done|].
    case_decide; [apply Hf|done].
  - intros it Hit. rewrite updJob_lookup, fmap_is_Some. by apply W3.
  - done.
Qed.

Lemma stale_upd p f s it : (∀ j, version (f j) = version j) → stale it (updJob p f s) = stale it s.
Proof.
  intros Hf. unfold stale. rewrite updJob_lookup. destruct (objs s !! siJob it) as [j|]; [|done]. simpl.
  case_decide; simpl; [by rewrite Hf|done].
Qed.
Lemma scheduled_upd p f s q : (∀ j, version (f j) = version j) → scheduled q (updJob p f s) ↔ scheduled q s.
Proof. intros Hf. unfold scheduled. by setoid_rewrite (stale_upd p f s _ Hf). Qed.

(** An update that only keeps identity exempts the job from the rest. *)
Lemma framex_upd p f s : (∀ j, keeps j (f j) ∧ version (f j) = version j) → framex (λ q, q = p) s (updJob p f s).
Proof.
  intros Hf. split; try done.
  - apply updJob_wf. intros. by apply (Hf j).
  - intros q j E. rewrite updJob_lookup, E. eexists. split; [done|]. case_decide as Epq; [|by split; [apply job_keeps_refl|]].
    split; [apply Hf|]. congruence.
  - intros q j' E E'. by rewrite updJob_lookup, E' in E.
  - intros q _ Hq Ho j. rewrite updJob_lookup, decide_False by congruence. rewrite option_fmap_id.
    rewrite scheduled_upd by (intros; by apply (Hf j0)). apply Ho.
Qed.
Lemma frame_upd p f s : (∀ j, benign j (f j)) → frame s (updJob p f s).
Proof.
  intros Hf. destruct (objs s !! p) as [j0|] eqn:E0.
  2:{ assert (E : updJob p f s = s); [|by rewrite E]. unfold updJob. rewrite alter_id; [by destruct s|].
      intros x Hx. congruence. }
  apply (framex_closed p); [apply framex_upd; intros j; split; apply (Hf j)| | |by eexists].
  - intros Ho j E Hc Hca Hpa Hki Hde. rewrite (updJob_Some _ _ _ _ E0) in E. simplify_eq. destruct (Hf j0) as [[B1 B2 B3 B5] B4 B6 B7 B8].
    rewrite scheduled_upd by (intros; apply (Hf j)). rewrite B6. apply (Ho j0); try done; try congruence.
    destruct (canceled j0); [by rewrite B5 in Hca|done].
  - intros j j' E E'. rewrite (updJob_Some _ _ _ _ E) in E'. simplify_eq. apply (Hf j0).
Qed.

(** ** Adding to the schedule *)

Lemma frame_version p v s : (∀ q, q ≠ p → scheduled q s → scheduled q (updJob p (set_version v) s)).
Proof.
  intros q Hq (it & H1 & H2 & H3). exists it. split; [done|]. split; [done|]. revert H3. unfold stale. rewrite updJob_lookup.
  rewrite decide_False by congruence. by destruct (objs s !! siJob it).
Qed.

Lemma push_scheduled p at_ b s : is_Some (objs s !! p) → scheduled p (pushScheduleItemLocked p at_ b s).
Proof.
  intros [j E]. unfold pushScheduleItemLocked. rewrite E. destruct b.
  - exists (MkItem at_ p (wrapu64 (version j + 1))). split_and!; [|done|].
    + apply PushSchedule_elem. by left.
    + unfold stale. cbn [siJob siVersion]. change (objs (set_queue ?q ?x)) with (objs x). rewrite (updJob_Some _ _ _ _ E).
      simpl. by rewrite Z.eqb_refl, andb_false_r.
  - exists (MkItem at_ p 0). split_and!; [|done|].
    + apply PushSchedule_elem. by left.
    + unfold stale. simpl. by rewrite E.
Qed.

Lemma pushed_queue p at_ b s : ∃ v, ∀ it, it ∈ queue (pushScheduleItemLocked p at_ b s) →
  it ∈ queue s ∨ (it = MkItem at_ p v ∧ is_Some (objs s !! p)).
Proof.
  unfold pushScheduleItemLocked. destruct (objs s !! p) as [j|] eqn:E; [|exists 0; tauto]. destruct b; eexists;
    intros it [->|H]%PushSchedule_elem; eauto.
Qed.

Lemma push_lookup p at_ b s q j' : objs (pushScheduleItemLocked p at_ b s) !! q = Some j' →
  ∃ j v, objs s !! q = Some j ∧ j' = set_version v j.
Proof.
  assert (Hid : ∀ j : Job, set_version (version j) j = j) by (by intros []).
  unfold pushScheduleItemLocked. destruct (objs s !! p) as [j|] eqn:E; [|intros E'; exists j', (version j'); by rewrite Hid].
  destruct b; [|intros E'; exists j', (version j'); by rewrite Hid].
  change (objs (set_queue ?q ?x)) with (objs x). rewrite updJob_lookup. destruct (objs s !! q) as [j0|] eqn:E0; [|done].
  simpl. intros [= <-]. case_decide; [by eexists _, _|]. exists j0, (version j0). by rewrite Hid.
Qed.
Lemma push_other p at_ b s q : q ≠ p → scheduled q s → scheduled q (pushScheduleItemLocked p at_ b s).
Proof.
  intros Hq Hs. unfold pushScheduleItemLocked. destruct (objs s !! p) as [j|] eqn:E; [|done].
  assert (Hmono : ∀ x it, scheduled q x → scheduled q (set_queue (PushSchedule it (queue x)) x)).
  { intros x it (i & H1 & H2 & H3). exists i. split; [apply PushSchedule_elem; by right|]. done. }
  destruct b; [|by apply Hmono]. by apply Hmono, frame_version.
Qed.
Lemma push_sched p at_ b s : let s' := pushScheduleItemLocked p at_ b s in
  jobs s' = jobs s ∧ nextPtr s' = nextPtr s ∧ closed s' = closed s ∧ conf s' = conf s ∧ workCh s' = workCh s ∧
  (∀ q, is_Some (objs s' !! q) ↔ is_Some (objs s !! q)).
Proof.
  unfold pushScheduleItemLocked. destruct (objs s !! p) as [j|] eqn:E; [|done]. destruct b; [|done].
  cbv zeta. split_and!; try done.
  intros q. change (objs (set_queue ?q ?x)) with (objs x). by rewrite updJob_lookup, fmap_is_Some.
Qed.

Lemma frame_push p at_ b s : frame s (pushScheduleItemLocked p at_ b s).
Proof.
  destruct (push_sched p at_ b s) as (E1 & E2 & E3 & E4 & E5 & E6). set (s' := pushScheduleItemLocked p at_ b s) in *.
  split; try done.
  - intros [W1 W2 W3 W4]. split.
    + intros q. rewrite E6, E2. apply W1.
    + intros i q. rewrite E1. intros E. destruct (W2 i q E) as (j & Ej & Hi). destruct (objs s' !! q) as [j'|] eqn:Ej'.
      * destruct (push_lookup _ _ _ _ _ _ Ej') as (j0 & v & E0 & ->). exists (set_version v j0). simplify_eq. done.
      * apply eq_None_not_Some in Ej'. rewrite E6, Ej in Ej'. by destruct Ej'.
    + destruct (pushed_queue p at_ b s) as [v Hq]. intros it Hit. rewrite E6.
      destruct (Hq it Hit) as [H|[-> H]]; [by apply W3|done].
    + unfold s', pushScheduleItemLocked. destruct (objs s !! p); [|done]. destruct b; by apply PushSchedule_ok.
  - intros q j E. destruct (objs s' !! q) as [j'|] eqn:Ej'.
    + destruct (push_lookup _ _ _ _ _ _ Ej') as (j0 & v & E0 & ->). simplify_eq. eexists. split; [done|]. by split; [split|].
    + apply eq_None_not_Some in Ej'. rewrite E6, E in Ej'. by destruct Ej'.
  - intros q j' E E'. destruct (push_lookup _ _ _ _ _ _ E) as (j0 & v & E0 & _). congruence.
  - intros q Hq _ Ho j' E Hc Hca Hpa Hki Hde. destruct (decide (q = p)) as [->|Hqp]; [left; by apply push_scheduled|].
    destruct (push_lookup _ _ _ _ _ _ E) as (j0 & v & E0 & ->). rewrite E3 in Hc.
    destruct (Ho j0 E0 Hc Hca Hpa Hki Hde) as [H|H]; [left; by apply push_other|by right].
  - by rewrite E3.
Qed.

(** ** Every operation is in the frame *)

Lemma setState_benign v now j : benign j (setState v now j).
Proof. unfold setState. case_decide; [|by split]. by split. Qed.
Lemma setStateIfIdle_benign v now j : benign j (setStateIfIdle v now j).
Proof. unfold setStateIfIdle. case_match; [by split|]. case_decide; [by split|]. apply setState_benign. Qed.

Lemma frame_wake s : frame s (wakeScheduler s).
Proof. by apply frame_same. Qed.
Lemma frame_deps f s : frame s (updDeps f s).
Proof. by apply frame_same. Qed.
Lemma frame_stats f s : frame s (updStats f s).
Proof. by apply frame_same. Qed.
Lemma frame_setState p v now s : frame s (setJobStateLocked p v now s).
Proof. apply frame_upd. intros. apply setState_benign. Qed.
Lemma frame_setIdle p v now s : frame s (setJobStateIfIdleLocked p v now s).
Proof. apply frame_upd. intros. apply setStateIfIdle_benign. Qed.
Lemma frame_canceled p s : frame s (updJob p (set_canceled true) s).
Proof. apply frame_upd. intros j. by split. Qed.
Lemma frame_runAt p v s : frame s (updJob p (set_runAt v) s).
Proof. apply frame_upd. intros j. by split. Qed.
Lemma frame_recordRun p start err s : frame s (recordRun p start err s).
Proof. apply frame_upd. intros j. by split. Qed.
Lemma frame_storeDelete i s : frame s (storeDelete i s).
Proof. unfold storeDelete. destruct (st s); [|done]. by apply frame_same. Qed.

Create HintDb sched.
#[local] Hint Resolve frame_push frame_wake frame_deps frame_stats frame_setState frame_setIdle frame_canceled frame_runAt
  frame_recordRun frame_storeDelete : sched.
(** Peels the last update off the right-hand state. *)
Ltac peel := repeat first [ reflexivity | solve [eauto 1 with sched] |
  match goal with
  | |- framex _ ?s (?f _ _ _ _ ?x) => transitivity x; [|solve [eauto 1 with sched]]
  | |- framex _ ?s (?f _ _ _ ?x) => transitivity x; [|solve [eauto 1 with sched]]
  | |- framex _ ?s (?f _ _ ?x) => transitivity x; [|solve [eauto 1 with sched]]
  | |- framex _ ?s (?f _ ?x) => transitivity x; [|solve [eauto 1 with sched]]
  | |- framex _ ?s (?f ?x) => transitivity x; [|solve [eauto 1 with sched]]
  | |- framex _ _ (match ?x with _ => _ end) => destruct x
  end ].

Lemma frame_pushSchedule p at_ now s : frame s (pushScheduleLocked p at_ now s).
Proof. unfold pushScheduleLocked. peel. Qed.
Lemma wake_scheduled p s : scheduled p (wakeScheduler s) ↔ scheduled p s.
Proof. done. Qed.
Lemma frame_live p s s' : frame s s' → is_Some (objs s !! p) → is_Some (objs s' !! p).
Proof. intros F [j E]. destruct (fr_obj _ _ _ F p j E) as (j' & -> & _). by eexists. Qed.
Lemma pushSchedule_scheduled p at_ now s : is_Some (objs s !! p) → scheduled p (pushScheduleLocked p at_ now s).
Proof using St Task clk.
  intros Hp. unfold pushScheduleLocked. apply wake_scheduled, push_scheduled. destruct (objs s !! p) as [j|] eqn:E; [|by rewrite E].
  destruct (canceled j); [by rewrite E|]. eapply frame_live; [apply frame_setIdle|]. by rewrite E.
Qed.

Lemma frame_scheduleNext p base now r s : frame s (scheduleNext p base now r s).
Proof. unfold scheduleNext. peel. Qed.
Lemma scheduleNext_ok p base now r s : reads base → ok p (scheduleNext p base now r s).
Proof.
  intros Hb j' E Hc Hca Hpa Hki Hde. pose proof (frame_scheduleNext p base now r s) as F. revert E Hc Hca Hpa Hki Hde F.
  unfold scheduleNext. destruct (objs s !! p) as [j|] eqn:E; [|congruence].
  destruct (closed s || canceled j) eqn:Ec.
  { intros E' Hc Hca. simplify_eq. by rewrite Hc, Hca in Ec. }
  destruct (kind j) eqn:Ek; [|congruence]. case_match eqn:Ez.
  { intros E' _ _ _ _ _ _. simplify_eq. right. exists base. split; [done|]. by apply Z.eqb_eq. }
  intros _ _ _ _ _ _ _. left. apply wake_scheduled, push_scheduled. eapply frame_live; [apply frame_setIdle|].
  eapply frame_live; [apply frame_runAt|]. by rewrite E.
Qed.

Lemma frame_skipDependent d p now s : frame s (skipDependentJobLocked d p now s).
Proof. unfold skipDependentJobLocked. peel. Qed.

Lemma frame_cleanup i j s : frame s (cleanupDependencyTrackingLocked i j s).
Proof.
  unfold cleanupDependencyTrackingLocked, cleanupDependencyLinksLocked.
  etrans; [|apply frame_deps]. etrans; [apply (frame_deps (deleteDependents i))|]. apply frame_foldl. intros. apply frame_deps.
Qed.

Lemma frame_applyPolicy cancel d p t now s : (∀ i q s, frame s (cancel i q s)) →
  frame s (applyDependentPolicyLocked cancel d p t now s).
Proof.
  intros Hc. unfold applyDependentPolicyLocked. destruct (objs s !! p); [|done].
  destruct (DependencyPolicy _); [apply frame_skipDependent|apply Hc|]. peel.
Qed.
Lemma frame_notify cancel t sl now s i : (∀ i q s, frame s (cancel i q s)) → frame s (notifyDependent cancel t sl now s i).
Proof.
  intros Hc. unfold notifyDependent. destruct (jobs s !! _); [|done]. destruct (objs s !! _) as [j|]; [|done].
  destruct (canceled j); [done|]. by apply frame_applyPolicy.
Qed.
Lemma frame_cancelLoop fuel now i p s : frame s (cancelLoop fuel now i p s).
Proof.
  revert i p s. induction fuel as [|fuel IH]; intros i p s; [done|]. cbn [cancelLoop].
  destruct (objs s !! p) as [j|]; [|done]. etrans; [|apply frame_cleanup]. set (s1 := storeDelete _ _).
  assert (F1 : frame s s1).
  { unfold s1. etrans; [|apply frame_storeDelete]. etrans; [|apply frame_setState]. apply frame_canceled. }
  destruct (dependents _ !! i); [|done]. etrans; [exact F1|]. apply frame_foldl. intros. by apply frame_notify.
Qed.
Lemma frame_cancel i p now s : frame s (cancelJobLocked i p now s).
Proof. apply frame_cancelLoop. Qed.
Lemma frame_retire i p s : frame s (retireJobLocked i p s).
Proof.
  unfold retireJobLocked. destruct (objs s !! p); [|done]. etrans; [|apply frame_cleanup]. peel.
Qed.
Lemma frame_dependentsFail i now s : frame s (handleDependentJobsOnFailure i now s).
Proof.
  unfold handleDependentJobsOnFailure. destruct (dependents _ !! i); [|done]. apply frame_foldl. intros. apply frame_notify.
  intros. apply frame_cancel.
Qed.
Lemma frame_trigger i now s : frame s (triggerDependentJobs i now s).
Proof.
  unfold triggerDependentJobs. destruct (dependents _ !! i); [|done]. apply frame_foldl. intros s' k.
  unfold triggerDependent. peel.
Qed.
Lemma frame_hasLive i s : frame s (hasLiveDependentsLocked i s).2.
Proof. unfold hasLiveDependentsLocked. destruct (dependentsOf i (deps s)); [done|]. apply frame_deps. Qed.
Lemma frame_persist p now s : frame s (persistJobLocked p now s).
Proof.
  unfold persistJobLocked. destruct (st s); [|done]. destruct (objs s !! p) as [j|]; [|done].
  destruct (kind j); [done|]. case_decide; [done|]. by apply frame_same.
Qed.

(** ** What the operations that change the registry keep *)

Lemma frame_depsOf X s s' i : framex X s s' → wf s → depsOf s' i = depsOf s i.
Proof.
  intros F W. unfold depsOf. rewrite (fr_jobs _ _ _ F). destruct (jobs s !! i) as [p|] eqn:E; [|done]. cbn [mbind option_bind].
  destruct (wf_jobs _ W i p E) as (j & Ej & _). rewrite Ej. destruct (fr_obj _ _ _ F p j Ej) as (j' & -> & K & _).
  simpl. by rewrite (k_opts _ _ K).
Qed.

Record evolves s s' : Prop := {
  ev_wf : wf s → wf s';
  ev_obj p j : objs s !! p = Some j → ∃ j', objs s' !! p = Some j' ∧ keeps j j' ∧ running j' = running j;
  ev_new p j' : objs s' !! p = Some j' → objs s !! p = None → running j' = false ∧ ok p s';
  ev_ok p : is_Some (objs s !! p) → ok p s → ok p s';
  ev_closed : closed s' = false → closed s = false;
  ev_acyclic : wf s → acyclic s → acyclic s';
  ev_conf : conf s' = conf s;
  ev_work : workCh s' = workCh s;
}.

Lemma frame_evolves s s' : frame s s' → evolves s s'.
Proof.
  intros F. split; try apply F; auto.
  - intros p j E. destruct (fr_obj _ _ _ F p j E) as (j' & E' & K & R). exists j'. auto.
  - intros p j' E E'. exact (fr_new _ _ _ F p j' E E' (λ x, x)).
  - intros p Hp. exact (fr_ok _ _ _ F p Hp (λ x, x)).
  - intros W. apply acyclic_ext. intros i. by apply (frame_depsOf (λ _, False)).
Qed.

#[export] Instance evolves_preorder : PreOrder evolves.
Proof.
  split; [intros s; by apply frame_evolves|]. intros s1 s2 s3 F G. split.
  - intros. by apply (ev_wf _ _ G), (ev_wf _ _ F).
  - intros p j E. destruct (ev_obj _ _ F p j E) as (j2 & E2 & K2 & R2).
    destruct (ev_obj _ _ G p j2 E2) as (j3 & E3 & K3 & R3). exists j3. split_and!; [done|by eapply keeps_trans|congruence].
  - intros p j3 E3 E1. destruct (objs s2 !! p) as [j2|] eqn:E2; [|by apply (ev_new _ _ G)].
    destruct (ev_new _ _ F p j2 E2 E1) as [R2 O2]. destruct (ev_obj _ _ G p j2 E2) as (j3' & E3' & K3 & R3). simplify_eq.
    split; [by rewrite R3|by apply (ev_ok _ _ G)].
  - intros p [j E] Ho. destruct (ev_obj _ _ F p j E) as (j2 & E2 & K2 & _). apply (ev_ok _ _ G); [by eexists|].
    by apply (ev_ok _ _ F); [by eexists|].
  - intros. by apply (ev_closed _ _ F), (ev_closed _ _ G).
  - intros Hw Ha. apply (ev_acyclic _ _ G); [by apply (ev_wf _ _ F)|by apply (ev_acyclic _ _ F)].
  - by rewrite (ev_conf _ _ G), (ev_conf _ _ F).
  - by rewrite (ev_work _ _ G), (ev_work _ _ F).
Qed.

(** A change of one job that is made good in the end. *)
Lemma frame_fix p f s s' : (∀ j, keeps j (f j) ∧ version (f j) = version j ∧ running (f j) = running j) →
  frame (updJob p f s) s' → (ok p s → ok p s') → is_Some (objs s !! p) → frame s s'.
Proof.
  intros Hf F Ho Hp. apply (framex_closed p); [|done| |done].
  - etrans; [apply (framex_upd p f); intros j; split; apply (Hf j)|]. by apply (framex_weaken (λ _, False)).
  - intros j j' E E'. destruct (fr_obj _ _ _ F p (f j)) as (j1 & E1 & _ & R); [by apply updJob_Some|]. simplify_eq.
    rewrite R by tauto. apply Hf.
Qed.

Lemma scheduled_ok p s : scheduled p s → ok p s.
Proof. intros H j _ _ _ _ _ _. by left. Qed.

Lemma frame_paused p s : frame s (updJob p (set_paused true) s).
Proof.
  destruct (objs s !! p) as [j|] eqn:E.
  - apply (frame_fix p (set_paused true)); [intros; by split_and!|done| |by eexists].
    intros _ j' E' _ _ Hp. rewrite (updJob_Some _ _ _ _ E) in E'. by simplify_eq.
  - assert (Eq : updJob p (set_paused true) s = s); [|by rewrite Eq]. unfold updJob. rewrite alter_id; [by destruct s|].
    intros x Hx. congruence.
Qed.

Lemma frame_resume p now s : frame s (resumeJobLocked p now s).
Proof.
  unfold resumeJobLocked. destruct (objs s !! p) as [j|] eqn:E; [|done].
  assert (Hl : is_Some (objs (updJob p (set_paused false) s) !! p)) by (rewrite (updJob_Some _ _ _ _ E); by eexists).
  apply (frame_fix p (set_paused false)); [intros; by split_and!| | |by eexists].
  - destruct (kind j); [|apply frame_pushSchedule]. etrans; [|apply frame_pushSchedule]. apply frame_runAt.
  - intros _. apply scheduled_ok. destruct (kind j); apply pushSchedule_scheduled; [|done].
    by eapply frame_live; [apply frame_runAt|].
Qed.

Lemma frame_TriggerNow i now s : frame s (TriggerNow i now s).2.
Proof.
  unfold TriggerNow. destruct (closed s); [done|]. destruct (findJob i s) as [[p j]|]; [|done]. destruct (canceled j); [done|].
  case_decide; [done|]. destruct (paused j); [done|]. simpl. peel.
Qed.

Lemma findJob_Some i s p j : findJob i s = Some (p, j) → jobs s !! i = Some p ∧ objs s !! p = Some j.
Proof.
  unfold findJob. destruct (jobs s !! i) as [q|]; [|done]. cbn [mbind option_bind]. destruct (objs s !! q) eqn:E; [|done].
  cbn [mbind option_bind]. by intros [= <- <-].
Qed.

Lemma frame_UpdateCron i spec now s r : reads now → UpdateCron i spec now s = Some r → frame s r.2.
Proof.
  intros Hn. unfold UpdateCron. destruct (closed s); [by intros [= <-]|]. destruct (findJob i s) as [[p j]|] eqn:Ef; [|by intros [= <-]].
  apply findJob_Some in Ef as [_ E]. destruct (canceled j); [by intros [= <-]|]. case_decide; [by intros [= <-]|].
  destruct (ParseCronSpecWithLocation _ _) as [[c|e]|]; [|by intros [= <-]|done]. set (f := λ j, set_cronExpr _ _).
  assert (Hf : ∀ j, keeps j (f j) ∧ version (f j) = version j ∧ running (f j) = running j) by (intros; by split_and!).
  assert (E1 : objs (updJob p f s) !! p = Some (f j)) by (by apply updJob_Some).
  case_match eqn:Ez; [|destruct (paused j) eqn:Epa]; intros [= <-]; simpl.
  - apply (frame_fix p f); [done..| |by eexists]. intros _ j' E' _ _ _ _ _. right. exists now. split; [done|]. simplify_eq. simpl. by apply Z.eqb_eq.
  - apply (frame_fix p f); [done|apply frame_runAt| |by eexists]. intros _ j' E' _ _ Hp.
    rewrite (updJob_Some _ _ _ _ E1) in E'. simplify_eq. simpl in Hp. congruence.
  - apply (frame_fix p f); [done|peel| |by eexists]. intros _. apply scheduled_ok, wake_scheduled, push_scheduled.
    eapply frame_live; [apply frame_runAt|]. rewrite E1. by eexists.
Qed.

(** ** Running jobs *)

Lemma frame_begin p enq now s : frame s (executeBegin p enq now s).2.
Proof. unfold executeBegin. simpl. etrans; [|apply frame_setState]. apply frame_stats. Qed.
Lemma frame_countFailure e s : frame s (countFailure e s).
Proof. apply frame_stats. Qed.
Lemma frame_failAttempt p s : frame s (failAttempt p s).2.
Proof.
  unfold failAttempt. destruct (objs s !! p) as [j|]; [|done]. simpl. case_match; [|done]. apply frame_upd. intros j'. by split.
Qed.
Lemma frame_pushRetry p a now s : frame s (pushRetry p a now s).
Proof. unfold pushRetry. destruct (objs s !! p); [|done]. etrans; [|apply frame_stats]. peel. Qed.
Lemma pushRetry_ok p a now s : ok p (pushRetry p a now s).
Proof.
  unfold pushRetry. destruct (objs s !! p) as [j|] eqn:E; [|intros j' E'; congruence].
  apply scheduled_ok. change (scheduled p (updStats incRetry ?x)) with (scheduled p x). apply wake_scheduled, push_scheduled. by eexists.
Qed.
Lemma frame_dead p e a now s : frame s (addToDeadLetterQueue p e a now s).
Proof. unfold addToDeadLetterQueue. destruct (dlq s); [|done]. destruct (objs s !! p); [|done]. by apply frame_same. Qed.

Lemma frame_success p now s : frame s (executeSuccess p now s).2.
Proof.
  unfold executeSuccess. change (objs (updStats incSuccess s)) with (objs s). destruct (objs s !! p) as [j|]; [|apply frame_stats].
  cbn [snd]. set (mx := _ && _). set (runs := wrap64 _). set (s1 := updJob p (λ j, set_runCount runs _) _).
  assert (F1 : frame s s1).
  { etrans; [apply (frame_stats incSuccess)|]. apply frame_upd. intros j'. by split. }
  set (s2 := if _ || _ then _ else s1). assert (F2 : frame s s2).
  { etrans; [exact F1|]. unfold s2. destruct (_ || _); [apply frame_setState|done]. }
  clearbody s2. destruct (bool_decide _); [|etrans; [exact F2|apply frame_deps]].
  etrans; [exact F2|]. etrans; [apply (frame_deps (setStatus (jid j) true))|]. apply frame_upd. intros j'. by split.
Qed.
Lemma frame_queuePending p pend maxed now s : frame s (queuePending p pend maxed now s).
Proof. unfold queuePending. destruct (objs s !! p) as [j|]; [|done]. destruct (pend && _ && _); [|done]. peel. Qed.
(** A pending run is queued, unless a dispatch has taken the flag. *)
Lemma queuePending_ok p now s j : objs s !! p = Some j → running j = false → ok p (queuePending p true false now s).
Proof.
  intros E Hr. unfold queuePending. rewrite E, Hr. simpl. apply scheduled_ok, wake_scheduled, push_scheduled.
  eapply frame_live; [apply frame_setIdle|]. by eexists.
Qed.
Lemma retire_ok i p s : ok p (retireJobLocked i p s).
Proof.
  unfold retireJobLocked. destruct (objs s !! p) as [j|] eqn:E; [|intros j' E'; congruence].
  apply (fr_ok _ _ _ (frame_cleanup i j _)); [|auto|].
  - eapply frame_live; [apply frame_storeDelete|]. rewrite (updJob_Some _ _ _ _ E). by eexists.
  - apply (fr_ok _ _ _ (frame_storeDelete i _)); [rewrite (updJob_Some _ _ _ _ E); by eexists|auto|].
    intros j' E' _ Hc. rewrite (updJob_Some _ _ _ _ E) in E'. by simplify_eq.
Qed.

Lemma evolves_stop s : evolves s (Stop s).
Proof.
  split; try done.
  - intros [W1 W2 W3 W4]. by split.
  - intros p j E. exists j. split_and!; [done|apply job_keeps_refl|done].
  - intros p j' E E'. simpl in E. congruence.
Qed.

(** ** Taking due items off the schedule *)

(** Stale items go; what comes out is current, due, and the earliest of the current ones;
    nothing comes out only when no current item is due. *)
Lemma popDueLoop_spec fuel now s : queueOrdered (queue s) → (length (queue s) < fuel)%nat →
  let '(it, s1) := popDueLoop fuel now s in ∃ q, s1 = set_queue q s ∧ queueOrdered q ∧ (∀ x, x ∈ q → x ∈ queue s) ∧
    (∀ x, x ∈ queue s → x ∈ q ∨ stale x s = true ∨ it = Some x) ∧
    match it with
    | Some x => x ∈ queue s ∧ stale x s = false ∧ siRunAt x ≤ now ∧ ∀ y, y ∈ queue s → stale y s = false → siRunAt x ≤ siRunAt y
    | None => ∀ y, y ∈ queue s → stale y s = false → now < siRunAt y
    end.
Proof.
  revert s. induction fuel as [|fuel IH]; intros s Ho Hf; [lia|]. cbn [popDueLoop].
  assert (Heta : set_queue (queue s) s = s) by (by destruct s).
  pose proof (PopDue_ok now (queue s) Ho) as Hpop. destruct (PopDue now (queue s)) as [[it q]|].
  2:{ exists (queue s). split_and!; auto. }
  destruct Hpop as (Hoq & Hperm & Hdue & Hmin). pose proof (Permutation_length Hperm) as Hlen. simpl in Hlen.
  assert (Hst : ∀ x, stale x (set_queue q s) = stale x s) by done. rewrite Hst. destruct (stale it s) eqn:Es.
  - specialize (IH (set_queue q s) Hoq ltac:(simpl; lia)). destruct (popDueLoop fuel now (set_queue q s)) as [it' s1].
    destruct IH as (q' & -> & Ho' & Hsub & Hcov & Hres). simpl in *.
    exists q'. split_and!; [done|done| | |].
    + intros x Hx. rewrite Hperm. right. by apply Hsub.
    + intros x Hx. rewrite Hperm in Hx. apply elem_of_cons in Hx as [->|Hx]; [by right; left|].
      destruct (Hcov x Hx) as [H|[H|H]]; [by left|right; left; by rewrite <-Hst|by right; right].
    + assert (Hin : ∀ y, y ∈ queue s → stale y s = false → y ∈ q).
      { intros y Hy Hys. rewrite Hperm in Hy. apply elem_of_cons in Hy as [->|Hy]; [congruence|done]. }
      destruct it' as [x|].
      * destruct Hres as (H1 & H2 & H3 & H4). split_and!; [rewrite Hperm; by right|done|done|]. intros y Hy Hys. apply H4; auto.
      * intros y Hy Hys. apply Hres; auto.
  - exists q. split_and!; [done|done| | | |done|done|].
    + intros x Hx. rewrite Hperm. by right.
    + intros x Hx. rewrite Hperm in Hx. apply elem_of_cons in Hx as [->|Hx]; [by right; right|by left].
    + rewrite Hperm. by left.
    + intros y Hy _. by apply Hmin.
Qed.
End facts.
Abbreviation frame := (framex (λ _, False)).
