(* ===== verification/SchedDeps.v ===== *)
(** * The job scheduler: the dependency graph

    The depth-first search finds a path exactly when there is one, so a registration is
    refused for a cycle exactly when it would close one, and the graph of registered jobs
    stays acyclic. With it, the operations that change the registry keep what [SchedFacts]
    says. *)

From stdpp Require Import options.
From S2P Require Import Prelude GoStrings GoNumbers GoTime GoMap GoHeap Cron SchedJobs SchedState Scheduler SchedFacts.
Import SchedJobs SchedState Scheduler.
#[local] Open Scope Z_scope.

Section deps.
Context {Task St : Type} `{!Store St} {clk : Clock}.
Abbreviation Sched := (Scheduler (Task := Task) (St := St)) (only parsing).
Abbreviation Job := (job (Task := Task)) (only parsing).
Implicit Types (s : Sched) (j : Job) (p : nat) (now : Z) (id : JobID) (v : gset JobID).

(** ** Depth-first search *)

(** Registered jobs the search has not seen. *)
Definition unseen s v : nat := size (dom (jobs s) ∖ v).

Lemma unseen_mono s v v' : v ⊆ v' → (unseen s v' ≤ unseen s v)%nat.
Proof. intros H. apply subseteq_size. set_solver. Qed.
Lemma unseen_add s v x ds : depsOf s x = Some ds → x ∉ v → (unseen s ({[x]} ∪ v) < unseen s v)%nat.
Proof.
  intros E Hx. apply subset_size. assert (x ∈ dom (jobs s)); [|set_solver].
  unfold depsOf in E. apply elem_of_dom. destruct (jobs s !! x); [by eexists|done].
Qed.

(** What the search has newly seen is not the target, and leads only to what was seen. *)
Definition explored s (t : JobID) v v' : Prop :=
  v ⊆ v' ∧ ∀ x, x ∈ v' → x ∉ v → x ≠ t ∧ ∀ y, edge s x y → y ∈ v'.

Lemma explored_trans s t v1 v2 v3 : explored s t v1 v2 → explored s t v2 v3 → explored s t v1 v3.
Proof.
  intros [S1 E1] [S2 E2]. split; [set_solver|]. intros x Hx Hn. destruct (decide (x ∈ v2)) as [H2|H2].
  - destruct (E1 x H2 Hn) as [? E]. split; [done|]. intros y Hy. set_solver.
  - by apply E2.
Qed.

Lemma dfs_walk_spec s t visit ds v :
  (∀ d v', (unseen s v' ≤ unseen s v)%nat →
     match visit d v' with (true, _) => rtc (edge s) d t | (false, v'') => explored s t v' v'' ∧ d ∈ v'' end) →
  match walkDeps visit ds v with
  | (true, _) => ∃ d, d ∈ ds ∧ rtc (edge s) d t
  | (false, v') => explored s t v v' ∧ ∀ d, d ∈ ds → d ∈ v'
  end.
Proof.
  revert v. induction ds as [|d ds IH]; intros v Hv; simpl.
  { split; [split; [done|]; set_solver|set_solver]. }
  specialize (Hv d v (le_n _)) as Hd. destruct (visit d v) as [[] v1]; [exists d; split; [by left|done]|].
  destruct Hd as [Hex Hdv]. specialize (IH v1). destruct (walkDeps visit ds v1) as [[] v2].
  - destruct IH as (d' & Hd' & Hp); [|exists d'; split; [by right|done]].
    intros d0 v0 Hle. apply Hv. pose proof (unseen_mono s v v1 (proj1 Hex)). lia.
  - destruct IH as [Hex' Hds].
    { intros d0 v0 Hle. apply Hv. pose proof (unseen_mono s v v1 (proj1 Hex)). lia. }
    split; [by eapply explored_trans|]. intros d' [->|Hd']%elem_of_cons; [|by apply Hds].
    destruct Hex' as [Hsub _]. set_solver.
Qed.

Lemma dfs_spec s t fuel cur v : (unseen s v ≤ fuel)%nat →
  match depPathExistsLocked fuel cur t v s with
  | (true, _) => rtc (edge s) cur t
  | (false, v') => explored s t v v' ∧ cur ∈ v'
  end.
Proof.
  revert cur v. induction fuel as [|fuel IH]; intros cur v Hu; cbn [depPathExistsLocked];
    (destruct (decide (cur = t)) as [->|Hct]; [done|]);
    (destruct (decide (cur ∈ v)) as [Hcv|Hcv]; [split; [split; [done|]; set_solver|done]|]).
  all: destruct (depsOf s cur) as [ds|] eqn:Ed.
  2,4: split; [|set_solver]; split; [set_solver|]; intros x Hx Hnx; assert (x = cur) as -> by set_solver;
       split; [done|]; intros y (ds & E & _); congruence.
  { pose proof (unseen_add s v cur ds Ed Hcv). lia. }
  pose proof (unseen_add s v cur ds Ed Hcv) as Hlt.
  pose proof (dfs_walk_spec s t (λ d v, depPathExistsLocked fuel d t v s) ds ({[cur]} ∪ v)) as Hw.
  destruct (walkDeps _ ds _) as [[] v'].
  - destruct Hw as (d & Hd & Hp); [intros d0 v0 Hle; apply IH; lia|]. eapply rtc_l; [|done]. by exists ds.
  - destruct Hw as [[Hsub Hex] Hds]; [intros d0 v0 Hle; apply IH; lia|]. split; [|set_solver]. split; [set_solver|].
    intros x Hx Hnx. destruct (decide (x = cur)) as [->|]; [|apply Hex; set_solver].
    split; [done|]. intros y (ds' & E & Hy). simplify_eq. by apply Hds.
Qed.

(** The search answers exactly whether there is a path. *)
Lemma dfs_exact s cur t : (depPathExistsLocked (S (size (jobs s))) cur t ∅ s).1 = true ↔ rtc (edge s) cur t.
Proof.
  pose proof (dfs_spec s t (S (size (jobs s))) cur ∅) as H. destruct (depPathExistsLocked _ cur t ∅ s) as [[] v']; simpl.
  - split; [intros _; apply H|done]. unfold unseen. rewrite difference_empty_L, size_dom. lia.
  - split; [done|]. intros Hp. exfalso. destruct H as [[_ Hex] Hc].
    { unfold unseen. rewrite difference_empty_L, size_dom. lia. }
    clear -Hex Hc Hp. induction Hp as [x|x y z Hxy _ IH].
    + by destruct (Hex x Hc ltac:(set_solver)).
    + apply IH; [done|]. by apply (Hex x Hc ltac:(set_solver)).
Qed.

(** Giving [id] the dependencies [ds] closes a cycle. *)
Definition closes_cycle s id (ds : list JobID) : Prop := ∃ d, d ∈ ds ∧ rtc (edge s) d id.

Lemma cycle_check_exact s id ds : wouldCreateDependencyCycleLocked id ds s = true ↔ closes_cycle s id ds.
Proof.
  unfold wouldCreateDependencyCycleLocked, closes_cycle. rewrite existsb_exists. split.
  - intros (d & Hd%list_elem_of_In & H). exists d. split; [done|]. apply orb_true_iff in H as [H%bool_decide_eq_true|H].
    + subst. apply rtc_refl.
    + by apply dfs_exact.
  - intros (d & Hd & H). exists d. split; [by apply list_elem_of_In|]. apply orb_true_iff. right. by apply dfs_exact.
Qed.

Lemma tc_first {A} (R : A → A → Prop) x z : tc R x z → ∃ y, R x y ∧ rtc R y z.
Proof. inversion 1; subst; eauto using tc_rtc, rtc_refl. Qed.

(** A new cycle passes through [id]; its part up to the first return is an old path. *)
Lemma acyclic_insert s s' id ds : depsOf s' id = Some ds → (∀ x, x ≠ id → depsOf s' x = depsOf s x) →
  ¬ closes_cycle s id ds → acyclic s → acyclic s'.
Proof.
  intros Eid Eo Hn Ha. assert (Hold : ∀ x y, x ≠ id → edge s' x y → edge s x y).
  { intros x y Hx (l & E & Hy). exists l. by rewrite <-Eo. }
  assert (Hpath : ∀ x y, tc (edge s') x y → tc (edge s) x y ∨ rtc (edge s') x id ∧ rtc (edge s') id y).
  { induction 1 as [x y Hxy|x y z Hxy Hyz IH].
    - destruct (decide (x = id)) as [->|Hx]; [right; split; [done|by apply rtc_once]|left; apply tc_once; by apply Hold].
    - destruct (decide (x = id)) as [->|Hx]; [right; split; [done|]; eapply rtc_l; [done|by apply tc_rtc]|].
      destruct IH as [IH|[IH1 IH2]]; [left; eapply tc_l; [by apply Hold|done]|right; split; [by eapply rtc_l|done]]. }
  assert (Hret : ∀ x, rtc (edge s') x id → rtc (edge s) x id).
  { apply (rtc_ind_l (λ x, rtc (edge s) x id)); [done|]. intros x y Hxy _ IH.
    destruct (decide (x = id)) as [->|]; [done|]. eapply rtc_l; [by apply Hold|done]. }
  intros x Hx. destruct (Hpath x x Hx) as [H|[H1 H2]]; [by apply (Ha x)|].
  assert (Hc : tc (edge s') id id) by (eapply tc_rtc_l; [done|]; by eapply tc_rtc_r).
  apply Hn. destruct (tc_first _ _ _ Hc) as (d & (ds' & E & Hd) & Hp). simplify_eq. exists d. split; [done|by apply Hret].
Qed.

(** ** Registration *)

Lemma frame_alloc j s : wf s → running j = false →
  framex (λ q, q = nextPtr s) s (set_nextPtr (S (nextPtr s)) (set_objs (<[nextPtr s := j]> (objs s)) s)).
Proof.
  intros W Hr. set (p := nextPtr s). assert (Hfresh : objs s !! p = None).
  { apply eq_None_not_Some. intros H%(wf_ptr _ W). unfold p in H. lia. }
  assert (Hne : ∀ q j0, objs s !! q = Some j0 → q ≠ p) by (intros q j0 E ->; congruence).
  split; try done.
  - intros [W1 W2 W3 W4]. split; simpl; try done.
    + intros q. destruct (decide (q = p)) as [->|]; [unfold p; lia|]. rewrite lookup_insert_ne by done.
      intros Hq. specialize (W1 q Hq). lia.
    + intros i q E. destruct (W2 i q E) as (j0 & E0 & Hi). exists j0. by rewrite lookup_insert_ne by (apply not_eq_sym; by eapply Hne).
    + intros it Hit. destruct (W3 it Hit) as [j0 E0]. rewrite lookup_insert_ne by (apply not_eq_sym; by eapply Hne). by rewrite E0.
  - intros q j0 E. exists j0. simpl. rewrite lookup_insert_ne by (apply not_eq_sym; by eapply Hne). split_and!; [done|apply job_keeps_refl|done].
  - simpl. intros q j' E E' Hq. rewrite lookup_insert_ne in E by done. congruence.
  - simpl. intros q [j0 E0] Hq Ho j1 E1 Hc Hca Hpa Hki Hde. cbn in E1. rewrite lookup_insert_ne in E1 by done.
    destruct (Ho j1 E1 Hc Hca Hpa Hki Hde) as [(it & H1 & H2 & H3)|H]; [left|by right]. exists it. split_and!; [done..|].
    unfold stale in *. simpl. rewrite lookup_insert_ne by congruence. done.
Qed.

(** The state in which the new job is filed: the old job with its id, if any, cancelled. *)
Definition allocated id j now s : Sched :=
  let s := set_nextPtr (S (nextPtr s)) (set_objs (<[nextPtr s := j]> (objs s)) s) in
  match jobs s !! id with Some old => cancelJobLocked id old now s | None => s end.

Lemma frame_allocated id j now s : wf s → running j = false → framex (λ q, q = nextPtr s) s (allocated id j now s).
Proof.
  intros W Hr. etrans; [by apply (frame_alloc j)|]. unfold allocated. destruct (jobs _ !! id); [|done].
  eapply framex_weaken; [|apply frame_cancel]. done.
Qed.
Lemma allocated_job id j now s : running j = false → ∃ j', objs (allocated id j now s) !! nextPtr s = Some j' ∧ keeps j j' ∧
  running j' = false.
Proof using St Store0 Task clk.
  intros Hr. unfold allocated. set (s1 := set_nextPtr _ _).
  assert (E : objs s1 !! nextPtr s = Some j) by (simpl; by rewrite lookup_insert_eq).
  destruct (jobs s1 !! id) as [old|]; [|exists j; split_and!; [done|apply job_keeps_refl|done]].
  destruct (fr_obj _ _ _ (frame_cancel id old now s1) _ _ E) as (j' & E' & K & R). exists j'. split_and!; [done..|]. rewrite R by tauto. done.
Qed.

(** What [registerJob] does after filing the job. *)
Definition filed id j now s : Sched := set_jobs (<[id := nextPtr s]> (jobs (allocated id j now s))) (allocated id j now s).

Lemma registerJob_eq id j now s : registerJob id j now s =
  let s1 := filed id j now s in
  let s2 := foldl (λ s d, updDeps (appendDependent (spare (conf s)) d id) s) s1 (Dependencies (opts j)) in
  persistJobLocked (nextPtr s) now
    (if negb (paused j) && bool_decide (Dependencies (opts j) = []) then pushScheduleLocked (nextPtr s) (runAt j) now s2 else s2).
Proof. done. Qed.

Lemma frame_register_rest id j now s : frame (filed id j now s) (registerJob id j now s).
Proof.
  rewrite registerJob_eq. cbv zeta. etrans; [|apply frame_persist]. set (s1 := filed id j now s). set (s2 := foldl _ s1 _).
  assert (F : frame s1 s2) by (apply frame_foldl; intros; apply frame_deps).
  destruct (negb (paused j) && _); [|done]. etrans; [exact F|apply frame_pushSchedule].
Qed.

Lemma filed_wf id j now s : wf s → jid j = id → running j = false → wf (filed id j now s).
Proof using St Store0 Task clk.
  intros W Hid Hr. destruct (fr_wf _ _ _ (frame_allocated id j now s W Hr) W) as [W1 W2 W3 W4].
  destruct (allocated_job id j now s Hr) as (j' & Ej & K & _). split; simpl; try done.
  intros i q [(<- & <-)|(Hne & E)]%lookup_insert_Some; [|by apply W2]. exists j'. split; [done|]. by rewrite (k_jid _ _ K).
Qed.

Lemma registered_ok id j now s : wf s → running j = false → canceled j = false → ok (nextPtr s) (registerJob id j now s).
Proof.
  intros W Hr Hca. set (p := nextPtr s). destruct (negb (paused j) && bool_decide (Dependencies (opts j) = [])) eqn:Ep.
  - rewrite registerJob_eq. cbv zeta. rewrite Ep. set (s2 := foldl _ _ _).
    destruct (allocated_job id j now s Hr) as (j' & Ej & K & _).
    assert (F : frame (filed id j now s) s2) by (apply frame_foldl; intros; apply frame_deps).
    assert (Hl : is_Some (objs s2 !! p)) by (eapply frame_live; [exact F|]; exists j'; exact Ej).
    assert (Hs : scheduled p (pushScheduleLocked p (runAt j) now s2)) by (by apply pushSchedule_scheduled).
    eapply (fr_ok _ _ _ (frame_persist p now _)); [|by auto|by apply scheduled_ok].
    eapply frame_live; [apply frame_pushSchedule|done].
  - apply (fr_ok _ _ _ (frame_register_rest id j now s)).
    { destruct (allocated_job id j now s Hr) as (j' & Ej & _). exists j'. exact Ej. } { auto. }
    assert (Hok : ok p (allocated id j now s)).
    { unfold allocated. set (s1 := set_nextPtr _ _). assert (E : objs s1 !! p = Some j) by (simpl; by rewrite lookup_insert_eq).
      assert (H1 : ok p s1).
      { intros j1 E1 _ _ Hpa _ Hde. simplify_eq. rewrite Hpa, bool_decide_eq_true_2 in Ep by done. done. }
      destruct (jobs s1 !! id); [|done]. apply (fr_ok _ _ _ (frame_cancel id _ now s1)); [by eexists|auto|done]. }
    intros j1 E1. apply (Hok j1 E1).
Qed.

Lemma evolves_register id j now s : wf s → jid j = id → running j = false → canceled j = false →
  ¬ closes_cycle s id (Dependencies (opts j)) → evolves s (registerJob id j now s).
Proof.
  intros W Hid Hr Hca Hcy. pose proof (frame_allocated id j now s W Hr) as F. pose proof (frame_register_rest id j now s) as G.
  set (s' := registerJob id j now s) in *. destruct (allocated_job id j now s Hr) as (j' & Ej & K & Rj).
  assert (Hold : ∀ q j0, objs s !! q = Some j0 → q ≠ nextPtr s).
  { intros q j0 E ->. assert (nextPtr s < nextPtr s)%nat by (apply (wf_ptr _ W); by eexists). lia. }
  split.
  - intros _. apply (fr_wf _ _ _ G). by apply filed_wf.
  - intros q j0 E. destruct (fr_obj _ _ _ F q j0 E) as (j1 & E1 & K1 & R1).
    destruct (fr_obj _ _ _ G q j1 E1) as (j2 & E2 & K2 & R2). exists j2. split_and!; [done|by eapply keeps_trans|].
    rewrite R2, R1; [done|by eapply Hold|auto].
  - intros q j2 E2 E. destruct (decide (q = nextPtr s)) as [->|Hq].
    + split; [|by apply registered_ok]. destruct (fr_obj _ _ _ G _ j' Ej) as (j2' & E2' & _ & R). simplify_eq.
      rewrite R by auto. done.
    + destruct (objs (filed id j now s) !! q) as [j1|] eqn:E1.
      * destruct (fr_new _ _ _ F q j1 E1 E Hq) as [R1 O1]. destruct (fr_obj _ _ _ G q j1 E1) as (j2' & E2' & _ & R). simplify_eq.
        split; [rewrite R by auto; done|]. apply (fr_ok _ _ _ G q); [by eexists|auto|]. intros j3 E3. apply (O1 j3 E3).
      * apply (fr_new _ _ _ G q j2 E2 E1). auto.
  - intros q [j0 E0] Ho. destruct (fr_obj _ _ _ F q j0 E0) as (j1 & E1 & _). apply (fr_ok _ _ _ G q); [by eexists|auto|].
    intros j3 E3. apply (fr_ok _ _ _ F q); [by eexists|by eapply Hold|done|done].
  - intros Hc. apply (fr_closed _ _ _ F). apply (fr_closed _ _ _ G) in Hc. done.
  - intros _ Ha. assert (Hsame : ∀ x, depsOf s' x = depsOf (filed id j now s) x).
    { intros x. apply (frame_depsOf _ _ _ x G). by apply filed_wf. }
    apply (acyclic_insert s _ id (Dependencies (opts j))); [| |done|done].
    + rewrite Hsame. unfold depsOf. simpl. rewrite lookup_insert_eq. cbn [mbind option_bind]. rewrite Ej. simpl. by rewrite (k_opts _ _ K).
    + intros x Hx. rewrite Hsame, <-(frame_depsOf _ _ _ x F W). unfold depsOf. simpl. by rewrite lookup_insert_ne by done.
  - by rewrite (fr_conf _ _ _ G), <-(fr_conf _ _ _ F).
  - by rewrite (fr_work _ _ _ G), <-(fr_work _ _ _ F).
Qed.

Lemma evolves_addJob id k task spec at_ options now s : wf s → evolves s (addJob id k task spec at_ options now s).2.
Proof.
  intros W. unfold addJob. destruct task as [task|]; [|done]. set (i := if decide (id = []) then _ else id).
  destruct (closed s); [done|]. destruct (match jobs s !! i with Some _ => _ | None => false end); [done|].
  destruct (checkDependencies _ _ _); [done|]. destruct (wouldCreateDependencyCycleLocked _ _ _) eqn:Ec; [done|].
  apply evolves_register; try done. intros Hc%cycle_check_exact. simpl in Hc. congruence.
Qed.
Lemma evolves_Schedule id at_ task options now s : wf s → evolves s (Schedule id at_ task options now s).2.
Proof. intros W. unfold Schedule. case_match; [done|]. by apply evolves_addJob. Qed.

(** ** Batches, pruning, dead letters, persistence *)

Lemma frame_batch walk matches mutate s : (∀ i p s, frame s (mutate i p s)) → frame s (applyBatchLocked walk matches mutate s).2.
Proof.
  intros Hm. unfold applyBatchLocked. generalize (keysIn walk (jobs s)), O. intros l n. revert n s.
  induction l as [|i l IH]; intros n s; [done|]. cbn [foldl]. destruct (findJob i s) as [[p j]|]; [|apply IH].
  destruct (matches j); [|apply IH]. etrans; [apply Hm|apply IH].
Qed.

Lemma evolves_unfile id s : evolves s (set_jobs (delete id (jobs s)) s).
Proof.
  split; try done.
  - intros [W1 W2 W3 W4]. split; simpl; try done. intros i p [_ E]%lookup_delete_Some. by apply W2.
  - intros p j E. exists j. split_and!; [done|apply job_keeps_refl|done].
  - intros p j' E E'. simpl in E. congruence.
  - intros _. apply acyclic_sub. intros a b (ds & E & Hb). exists ds. split; [|done]. unfold depsOf in *. simpl in E.
    destruct (decide (a = id)) as [->|]; [by rewrite lookup_delete_eq in E|by rewrite lookup_delete_ne in E].
Qed.

Lemma evolves_prune walk limit s : evolves s (PruneTerminalJobs walk limit s).2.
Proof.
  unfold PruneTerminalJobs. generalize (keysIn walk (jobs s)), O. intros l n. revert n s.
  induction l as [|i l IH]; intros n s; [done|]. cbn [foldl].
  assert (H : evolves s (pruneOne limit (n, s) i).2).
  { unfold pruneOne. case_match; [done|]. destruct (findJob i s) as [[p j]|]; [|done]. case_match; [done|].
    pose proof (frame_hasLive i s) as Fl. destruct (hasLiveDependentsLocked i s) as [live s1]. destruct live; [by apply frame_evolves|].
    simpl. etrans; [apply frame_evolves, Fl|]. etrans; [apply frame_evolves, frame_canceled|].
    etrans; [apply (evolves_unfile i)|]. apply frame_evolves, frame_cleanup. }
  etrans; [exact H|]. destruct (pruneOne limit (n, s) i) as [n' s']. apply IH.
Qed.

Lemma evolves_requeue id task options now s : wf s → evolves s (RequeueDeadLetter id task options now s).2.
Proof.
  intros W. unfold RequeueDeadLetter. destruct (dlq s) as [d|]; [|done]. destruct (dlqGet id d) as [e|]; [|done].
  pose proof (evolves_Schedule (eJobID e) (now + 0) task (options ++ [ReplaceExisting]) now s W) as H.
  unfold Delay. destruct (Schedule _ _ _ _ _ _) as [[i|err] s1]; [|done]. simpl in *. destruct (dlq s1); [|done].
  etrans; [exact H|]. apply frame_evolves. by apply frame_same.
Qed.

Lemma evolves_foldl {B} (f : Sched → B → Sched) l s : (∀ s b, wf s → evolves s (f s b)) → wf s → evolves s (foldl f s l).
Proof.
  intros Hf. revert s. induction l as [|b l IH]; intros s W; simpl; [done|]. etrans; [by apply Hf|].
  apply IH. by apply (ev_wf _ _ (Hf s b W)).
Qed.
Lemma evolves_load now s : wf s → evolves s (loadPersisted now s).
Proof.
  intros W. unfold loadPersisted. destruct (st s) as [x|]; [|done]. destruct (List x) as [items|]; [|done].
  assert (H : ∀ it extra s, wf s → evolves s (restore it extra now s)).
  { intros it extra s0 W0. unfold restore. destruct (registry s0 !! _); [|done]. by apply evolves_Schedule. }
  set (s1 := foldl _ s _). assert (E1 : evolves s s1) by (apply evolves_foldl; auto).
  etrans; [exact E1|]. apply evolves_foldl; [auto|]. by apply (ev_wf _ _ E1).
Qed.

(** ** Cascades of cancellations end *)

Definition liveJob s id : bool := match findJob id s with Some (_, j) => negb (canceled j) | None => false end.
Definition liveJobs s : gset JobID := filter (λ id, liveJob s id = true) (dom (jobs s)).

Lemma liveJob_frame s s' id : wf s → frame s s' → liveJob s' id = true → liveJob s id = true.
Proof.
  intros W F. unfold liveJob, findJob. rewrite (fr_jobs _ _ _ F). destruct (jobs s !! id) as [p|] eqn:Ep; [|done]. cbn [mbind option_bind].
  destruct (wf_jobs _ W id p Ep) as (j & Ej & _). destruct (fr_obj _ _ _ F p j Ej) as (j' & Ej' & K & _). rewrite Ej, Ej'. simpl.
  destruct (canceled j) eqn:Ec; [|done]. by rewrite (k_canceled _ _ K Ec).
Qed.
Lemma liveJobs_frame s s' : wf s → frame s s' → liveJobs s' ⊆ liveJobs s.
Proof.
  intros W F id [Hl Hd]%elem_of_filter. apply elem_of_filter. split; [by eapply liveJob_frame|]. by rewrite (fr_jobs _ _ _ F) in Hd.
Qed.
(** Cancelling a live job leaves fewer live ones. *)
Lemma liveJobs_cancel s id p j : wf s → jobs s !! id = Some p → objs s !! p = Some j → canceled j = false →
  (size (liveJobs (updJob p (set_canceled true) s)) < size (liveJobs s))%nat.
Proof using St Task clk.
  intros W Ep Ej Hc. apply subset_size. split; [by apply liveJobs_frame, frame_canceled|]. intros Hsub.
  assert (Hin : id ∈ liveJobs s).
  { apply elem_of_filter. split; [|by apply elem_of_dom_2 in Ep]. unfold liveJob, findJob. rewrite Ep. cbn [mbind option_bind]. rewrite Ej. simpl. by rewrite Hc. }
  apply Hsub, elem_of_filter in Hin as [Hl _]. revert Hl. unfold liveJob, findJob. change (jobs (updJob p (set_canceled true) s)) with (jobs s).
  rewrite Ep. cbn [mbind option_bind]. by rewrite (updJob_Some _ _ _ _ Ej).
Qed.

Lemma foldl_ext_inv {A B} (I : A → Prop) (f g : A → B → A) l a : I a → (∀ a b, I a → f a b = g a b ∧ I (f a b)) → foldl f a l = foldl g a l.
Proof.
  intros Ha H. revert a Ha. induction l as [|b l IH]; intros a Ha; simpl; [done|]. destruct (H a b Ha) as [E Hf]. rewrite <-E. by apply IH.
Qed.

(** More fuel than live jobs makes no difference. *)
Lemma cancelLoop_fuel n k now id p s : wf s → (size (liveJobs (updJob p (set_canceled true) s)) ≤ n)%nat →
  (size (liveJobs (updJob p (set_canceled true) s)) ≤ k)%nat → cancelLoop (S n) now id p s = cancelLoop (S k) now id p s.
Proof using St Store0 Task clk.
  revert k id p s. induction n as [n IH] using lt_wf_ind. intros k id p s W Hn Hk. cbn [cancelLoop].
  destruct (objs s !! p) as [j|]; [|done]. f_equal. set (s0 := updJob p (set_canceled true) s) in *.
  assert (W0 : wf s0) by (by apply (fr_wf _ _ _ (frame_canceled p s))). set (s1 := storeDelete id _).
  assert (F1 : frame s0 s1) by (unfold s1; etrans; [|apply frame_storeDelete]; apply frame_setState).
  destruct (dependents (deps s1) !! id) as [sl|]; [|done].
  apply (foldl_ext_inv (λ a, wf a ∧ liveJobs a ⊆ liveJobs s0)).
  { split; [by apply (fr_wf _ _ _ F1)|by apply liveJobs_frame]. }
  intros a b [Wa Ha]. assert (Fn : frame a (notifyDependent (cancelLoop n now) id sl now a b)) by (apply frame_notify; intros; apply frame_cancelLoop).
  split; [|split; [by apply (fr_wf _ _ _ Fn)|by etrans; [apply liveJobs_frame|]]].
  unfold notifyDependent. destruct (jobs a !! _) as [q|] eqn:Eq; [|done]. destruct (objs a !! q) as [jq|] eqn:Ejq; [|done].
  destruct (canceled jq) eqn:Ecq; [done|]. unfold applyDependentPolicyLocked. rewrite Ejq. destruct (DependencyPolicy (opts jq)); [done| |done].
  pose proof (liveJobs_cancel a _ q jq Wa Eq Ejq Ecq) as Hlt. pose proof (subseteq_size _ _ Ha) as Hle.
  destruct n as [|n]; [lia|]. destruct k as [|k]; [lia|]. apply IH; [lia|done|lia|lia].
Qed.

Lemma cancel_fuel_enough fuel now id p s : wf s → (S (size (jobs s)) ≤ fuel)%nat →
  cancelLoop fuel now id p s = cancelJobLocked id p now s.
Proof using St Store0 Task clk.
  intros W Hf. unfold cancelJobLocked. destruct fuel as [|fuel]; [lia|].
  assert (Hs : (size (liveJobs (updJob p (set_canceled true) s)) ≤ size (jobs s))%nat).
  { rewrite <-size_dom. apply subseteq_size. intros x [_ Hx]%elem_of_filter. done. }
  apply cancelLoop_fuel; [done|lia|lia].
Qed.
End deps.
