(* ===== verification/SchedMachine.v ===== *)
(** * The job scheduler: the machine of goroutines
    ([x/messaging/scheduler/executor_runner.go], [executor_retry.go])

    The run loop with [dispatch], the workers with [execute] and [handleFailure], and the
    callers of the API, one step from one point where another goroutine can intervene to
    the next. The clock, the random numbers, the outcome of a task and the choices of a
    [select] are arguments of a step. *)

From stdpp Require Import options.
From S2P Require Import Prelude GoStrings GoNumbers GoTime GoMap GoHeap Cron SchedJobs SchedState Scheduler.
Import Cron SchedJobs SchedState Scheduler.
#[local] Open Scope Z_scope.

Module SchedMachine.

Section machine.
Context {Task St : Type} `{!Store St}.
Abbreviation Sched := (Scheduler (Task := Task) (St := St)) (only parsing).
Implicit Types (s : Sched) (p : nat) (now r : Z).

(** ** The run loop *)

(** Where the run loop is: about to pop; in [dispatch], about to look at [canceled], at
    [paused], at the overlap policy; about to note a pending run, to reschedule a skipped
    run, to send the request; in [handleBackpressure]. *)
Inductive dispatcher :=
  | DLoop | DDispatch (p : nat) | DPaused (p : nat) | DClaim (p : nat) | DPend (p : nat) | DSkip (p : nat)
  | DSend (p : nat) (enqueued : Z) | DDrop (p : nat).

(** The branch a [select] takes. *)
Inductive branch := BSend | BStop | BDrop.

Definition full s : bool := (workCap (conf s) <=? length (workCh s))%nat.
(** The default branch is taken when no other is ready; a timer may fire at any time. *)
Definition canDrop s : bool :=
  match policy (conf s) with
  | BackpressureDrop => full s && negb (closed s)
  | BackpressureBlock => false
  | BackpressureBlockTimeout => if bpTimeout (conf s) <=? 0 then full s && negb (closed s) else true
  end.

Definition claim p now s : dispatcher * Sched :=
  match objs s !! p with
  | None => (DLoop, s)
  | Some j =>
      match Overlap (opts j) with
      | AllowConcurrent => (DSend p now, s)
      | SkipIfRunning => if running j then (DSkip p, s) else (DSend p now, updJob p (set_running true) s)
      | SerialQueue => if running j then (DPend p, s) else (DSend p now, updJob p (set_running true) s)
      end
  end.

Definition dstep now r (b : branch) (d : dispatcher) s : option (dispatcher * Sched) :=
  match d with
  | DLoop => let '(it, s) := popDue now s in
             Some (match it with Some it => DDispatch (siJob it) | None => DLoop end, s)
  | DDispatch p => Some (match objs s !! p with Some j => if canceled j then DLoop else DPaused p | None => DLoop end, s)
  | DPaused p => Some (match objs s !! p with Some j => if paused j then DLoop else DClaim p | None => DLoop end, s)
  | DClaim p => Some (claim p now s)
  | DPend p => Some (DLoop, updJob p (set_pending true) s)
  | DSkip p => Some (DLoop, scheduleNext p now now r s)
  | DSend p enq =>
      match b with
      | BSend => if full s then None
                 else Some (DLoop, updStats incQueued (set_workCh (workCh s ++ [MkReq p enq]) s))
      | BStop => if closed s then Some (DLoop, s) else None
      | BDrop => if canDrop s then Some (DDrop p, s) else None
      end
  | DDrop p => Some (if kindIs jobKindCron p s then DSkip p else DLoop, dropRun p s)
  end.

(** ** Workers *)

(** Where a worker is: waiting; in [execute] before, during and after the task; past the
    release of the running flag; in [handleFailure]; in the stages of
    [handleRetriesExhausted]; on the success path. *)
Inductive worker :=
  | WIdle
  | WBegin (p : nat) (enqueued : Z) | WRun (p : nat) (start : Z) | WRet (p : nat) (start : Z) (err : option taskErr)
  | WRec (p : nat) (start : Z) (err : option taskErr)
  | WFail (p : nat) (err : taskErr) | WRetrying (p : nat) (attempt : Z) | WPush (p : nat) (attempt : Z)
  | WFailed (p : nat) (err : taskErr) (attempts : Z) | WDead (p : nat) (err : taskErr) (attempts : Z)
  | WNextRun (p : nat) | WForget (p : nat) | WStatus (p : nat) | WTell (p : nat)
  | WOk (p : nat) (start : Z) | WPend (p : nat) (start : Z) (pend maxed : bool) | WNext (p : nat) (start : Z) (pend maxed : bool)
  | WDone (p : nat) (maxed : bool) | WTrig (p : nat) (maxed : bool) | WRetire (p : nat).

Definition wstep now r (err : option taskErr) (w : worker) s : option (worker * Sched) :=
  match w with
  | WIdle => match workCh s with
             | [] => None
             | q :: rest => Some (WBegin (reqJob q) (enqueuedAt q), set_workCh rest s)
             end
  | WBegin p enq => Some (WRun p now, (executeBegin p enq now s).2)
  | WRun p start => Some (WRet p start err, s)
  | WRet p start e => Some (WRec p start e, releaseRunning p s)
  | WRec p start e => Some (match e with Some e => WFail p e | None => WOk p start end, recordRun p start e s)
  | WFail p e =>
      let '(attempt, exhausted, s) := failAttempt p (countFailure e s) in
      Some (if exhausted : bool then WFailed p e (finalAttempt p attempt s) else WRetrying p attempt, s)
  | WRetrying p a => Some (WPush p a, setJobStateLocked p JobStateRetrying now s)
  | WPush p a => Some (WIdle, pushRetry p a now s)
  | WFailed p e a => Some (WDead p e a, if kindIs jobKindDelay p s then setJobStateLocked p JobStateFailed now s else s)
  | WDead p e a => Some (WNextRun p, addToDeadLetterQueue p e a now s)
  | WNextRun p => Some (WForget p, if kindIs jobKindCron p s then scheduleNext p now now r s else s)
  | WForget p => Some (WStatus p, if kindIs jobKindDelay p s then storeDelete (idOf p s) s else s)
  | WStatus p => Some (WTell p, updDeps (setStatus (idOf p s) false) s)
  | WTell p => Some (WIdle, handleDependentJobsOnFailure (idOf p s) now s)
  | WOk p start => let '(pend, maxed, s) := executeSuccess p now s in Some (WPend p start pend maxed, s)
  | WPend p start pend maxed => Some (WNext p start pend maxed, queuePending p pend maxed now s)
  | WNext p start pend maxed =>
      Some (WDone p maxed, if kindIs jobKindCron p s && negb pend && negb maxed then scheduleNext p start now r s else s)
  | WDone p maxed => Some (WTrig p maxed, if kindIs jobKindDelay p s then storeDelete (idOf p s) s else s)
  | WTrig p maxed => Some (if maxed then WRetire p else WIdle, triggerDependentJobs (idOf p s) now s)
  | WRetire p => Some (WIdle, retireJobLocked (idOf p s) p s)
  end.

(** ** Callers *)

Inductive call :=
  | CAdd (id : JobID) (k : jobKind) (task : option Task) (spec : CronSpec) (at_ : Z) (options : list (JobOptions → JobOptions))
  | CTrigger (id : JobID) | CUpdateCron (id : JobID) (spec : gostring)
  | CCancel (id : JobID) | CPause (id : JobID) | CResume (id : JobID)
  | CPauseByGroup (walk : list JobID) (group : gostring) | CPauseByTags (walk : list JobID) (tags : list gostring)
  | CResumeByGroup (walk : list JobID) (group : gostring) | CResumeByTags (walk : list JobID) (tags : list gostring)
  | CCancelByGroup (walk : list JobID) (group : gostring) | CCancelByTags (walk : list JobID) (tags : list gostring)
  | CPrune (walk : list JobID) (limit : Z)
  | CRequeue (id : JobID) (task : option Task) (options : list (JobOptions → JobOptions))
  | CDeleteDeadLetter (id : JobID) | CClearDeadLetters
  | CRegister (name : gostring) (task : option Task) | CLoad | CStart | CStop.

Definition api now (c : call) s : Sched :=
  match c with
  | CAdd id k task spec at_ options => (addJob id k task spec at_ options now s).2
  | CTrigger id => (TriggerNow id now s).2
  | CUpdateCron id spec => match UpdateCron id spec now s with Some r => r.2 | None => s end
  | CCancel id => (Cancel id now s).2
  | CPause id => (Pause id s).2
  | CResume id => (Resume id now s).2
  | CPauseByGroup walk g => (PauseByGroup walk g s).2
  | CPauseByTags walk t => (PauseByTags walk t s).2
  | CResumeByGroup walk g => (ResumeByGroup walk g now s).2
  | CResumeByTags walk t => (ResumeByTags walk t now s).2
  | CCancelByGroup walk g => (CancelByGroup walk g now s).2
  | CCancelByTags walk t => (CancelByTags walk t now s).2
  | CPrune walk limit => (PruneTerminalJobs walk limit s).2
  | CRequeue id task options => (RequeueDeadLetter id task options now s).2
  | CDeleteDeadLetter id => match dlq s with Some d => set_dlq (Some (dlqDelete id d).2) s | None => s end
  | CClearDeadLetters => match dlq s with Some d => set_dlq (Some (dlqClear d).2) s | None => s end
  | CRegister name task => (RegisterTask name task s).2
  | CLoad => loadPersisted now s
  | CStart => if started s || closed s then s else set_started true s
  | CStop => Stop s
  end.

(** ** The machine *)

Record machine := MkM { sch : Sched; disp : dispatcher; workers : list worker }.
Implicit Types (m : machine).

(** A step whose reading of the clock is [now]. *)
Inductive step_at now m : machine → Prop :=
  | step_api c : step_at now m (MkM (api now c (sch m)) (disp m) (workers m))
  | step_disp r b d' s' : started (sch m) = true → dstep now r b (disp m) (sch m) = Some (d', s') →
      step_at now m (MkM s' d' (workers m))
  | step_worker i r err w w' s' : started (sch m) = true → workers m !! i = Some w →
      wstep now r err w (sch m) = Some (w', s') → step_at now m (MkM s' (disp m) (<[i := w']> (workers m))).
Definition step m m' : Prop := ∃ now, step_at now m m'.

Definition initial (c : config) (store : option St) (maxDeadLetters : option Z) : machine :=
  MkM (New c store maxDeadLetters) DLoop (replicate (Z.to_nat (workerCount c)) WIdle).
Definition reachable (c : config) (store : option St) (maxDeadLetters : option Z) : machine → Prop :=
  rtc step (initial c store maxDeadLetters).
(** Runs in which the clock is never before the zero time. *)
Definition reachable_timed (c : config) (store : option St) (maxDeadLetters : option Z) : machine → Prop :=
  rtc (λ m m', ∃ now, zeroTime ≤ now ∧ step_at now m m') (initial c store maxDeadLetters).

(** A worker is inside the task of the job. *)
Definition runs p (w : worker) : bool := match w with WRun q _ => bool_decide (q = p) | _ => false end.
End machine.
End SchedMachine.
