(* ===== verification/SchedInv.v ===== *)
(** * The job scheduler: the invariant of the machine

    For a job that must not overlap itself, at most one request or run is under way, and
    its running flag says so; and no live cron job is lost: it is in the schedule or some
    goroutine has it in hand. *)

From stdpp Require Import options.
From S2P Require Import Prelude GoStrings GoNumbers GoTime GoMap GoHeap Cron SchedJobs SchedState Scheduler SchedFacts SchedDeps SchedMachine.
Import SchedJobs SchedState Scheduler SchedMachine.
#[local] Open Scope Z_scope.

Section inv.
Context {Task St : Type} `{!Store St} {clk : Clock}.
Abbreviation Sched := (Scheduler (Task := Task) (St := St)) (only parsing).
Abbreviation Job := (job (Task := Task)) (only parsing).
Implicit Types (s : Sched) (j : Job) (p : nat) (now r : Z) (d : dispatcher) (w : worker) (ws : list worker).

(** ** Who has a job in hand *)

Definition dptr d : option nat :=
  match d with
  | DLoop => None
  | DDispatch p | DPaused p | DClaim p | DPend p | DSkip p | DSend p _ | DDrop p => Some p
  end.
Definition wptr w : option nat :=
  match w with
  | WIdle => None
  | WBegin p _ | WRun p _ | WRet p _ _ | WRec p _ _ | WFail p _ | WRetrying p _ | WPush p _ | WFailed p _ _ | WDead p _ _
  | WNextRun p | WForget p | WStatus p | WTell p | WOk p _ | WPend p _ _ _ | WNext p _ _ _ | WDone p _ | WTrig p _ | WRetire p => Some p
  end.

(** It owns the running flag. *)
Definition downs d : bool := match d with DSend _ _ | DDrop _ => true | _ => false end.
Definition wowns w : bool := match w with WBegin _ _ | WRun _ _ | WRet _ _ _ => true | _ => false end.
Definition b2n (b : bool) : nat := if b then 1%nat else 0%nat.
Definition dslot p d : nat := b2n (downs d && bool_decide (dptr d = Some p)).
Definition wslot p w : nat := b2n (wowns w && bool_decide (wptr w = Some p)).
Definition rslot p q : nat := sum_list_with (λ x, b2n (bool_decide (reqJob x = p))) q.
Definition slots p d q ws : nat := (dslot p d + rslot p q + sum_list_with (wslot p) ws)%nat.

(** It will still put the job back into the schedule. *)
Definition dkeeps d : bool := match d with DLoop | DPend _ => false | _ => true end.
Definition wkeeps w : bool :=
  match w with
  | WIdle | WForget _ | WStatus _ | WTell _ => false
  | WNext _ _ pend maxed => negb pend || maxed
  | WDone _ maxed | WTrig _ maxed => maxed
  | _ => true
  end.
Definition inHand p d (q : list runRequest) ws : Prop :=
  (dptr d = Some p ∧ dkeeps d = true) ∨ (∃ x, x ∈ q ∧ reqJob x = p) ∨ (∃ w, w ∈ ws ∧ wptr w = Some p ∧ wkeeps w = true).

(** ** The invariant *)

Definition live s p : Prop := is_Some (objs s !! p).
Record pointers s d (q : list runRequest) ws : Prop := {
  pt_disp p : dptr d = Some p → live s p;
  pt_work x : x ∈ q → live s (reqJob x);
  pt_worker w p : w ∈ ws → wptr w = Some p → live s p;
}.

(** For a job that must not overlap itself: the flag and its owner. *)
Definition exclusive s j (n : nat) : Prop :=
  if guarded j then (n ≤ 1)%nat ∧ (n = 1%nat → running j = true) ∧ (running j = true → closed s = true ∨ n = 1%nat)
  else running j = false.

Record inv s d ws : Prop := {
  in_wf : wf s;
  in_acyclic : acyclic s;
  in_ptr : pointers s d (workCh s) ws;
  in_excl p j : objs s !! p = Some j → exclusive s j (slots p d (workCh s) ws);
  in_kept p : live s p → ok p s ∨ inHand p d (workCh s) ws;
}.

(** ** Lists of workers *)

Lemma worker_sum_insert (f : worker → nat) ws i w w' : ws !! i = Some w →
  (sum_list_with f (<[i := w']> ws) + f w = sum_list_with f ws + f w')%nat.
Proof.
  revert i. induction ws as [|x ws IH]; intros [|i] E; simplify_eq/=; [lia|]. specialize (IH i E). lia.
Qed.
Lemma elem_insert ws i w w' x : ws !! i = Some w → x ∈ <[i := w']> ws → x = w' ∨ x ∈ ws.
Proof.
  intros E [k Hk]%list_elem_of_lookup. destruct (decide (k = i)) as [->|Hne].
  - rewrite list_lookup_insert_eq in Hk by (by eapply lookup_lt_Some). left. congruence.
  - rewrite list_lookup_insert_ne in Hk by done. right. by eapply list_elem_of_lookup_2.
Qed.
Lemma insert_elem ws i w w' x : ws !! i = Some w → x ∈ ws → x = w ∨ x ∈ <[i := w']> ws.
Proof.
  intros E [k Hk]%list_elem_of_lookup. destruct (decide (k = i)) as [->|Hne]; [left; congruence|right].
  apply list_elem_of_lookup. exists k. by rewrite list_lookup_insert_ne.
Qed.
Lemma insert_self ws i w w' : ws !! i = Some w → w' ∈ <[i := w']> ws.
Proof.
  intros E. apply list_elem_of_lookup. exists i. rewrite list_lookup_insert_eq; [done|]. by eapply lookup_lt_Some.
Qed.

Lemma slots_pos p d q ws : (0 < slots p d q ws)%nat → inHand p d q ws.
Proof.
  unfold slots, inHand. intros H. assert (0 < dslot p d ∨ 0 < rslot p q ∨ 0 < sum_list_with (wslot p) ws)%nat as [H1|[H1|H1]] by lia.
  - left. unfold dslot, b2n in H1. destruct (downs d) eqn:E; simpl in H1; [|lia]. case_bool_decide; [|lia]. split; [done|].
    by destruct d.
  - right; left. clear -H1. induction q as [|x q IH]; simpl in H1; [lia|]. unfold b2n in H1. case_bool_decide.
    + exists x. split; [by left|done].
    + destruct IH as (y & Hy & E); [done|]. exists y. split; [by right|done].
  - right; right. clear -H1. induction ws as [|x ws IH]; simpl in H1; [lia|]. destruct (decide (0 < wslot p x)%nat) as [Hx|].
    + exists x. split; [by left|]. unfold wslot, b2n in Hx. destruct (wowns x) eqn:E; simpl in Hx; [|lia].
      case_bool_decide; [|lia]. split; [done|]. by destruct x.
    + destruct IH as (y & Hy & E); [lia|]. exists y. split; [by right|done].
Qed.
Lemma slots_dead s p d q ws : pointers s d q ws → objs s !! p = None → slots p d q ws = 0%nat.
Proof.
  intros [P1 P2 P3] E. assert (Hn : ¬ live s p) by (unfold live; rewrite E; by intros [? ?]).
  destruct (decide (slots p d q ws = 0)%nat) as [|Hne]; [done|]. exfalso. apply Hn.
  destruct (slots_pos p d q ws) as [[H _]|[(x & Hx & <-)|(w & Hw & H & _)]]; [lia|by apply P1|by apply P2|by eapply P3].
Qed.

(** ** Steps that leave the running flags alone *)

(** [q] is the work channel after the step. *)
Lemma inv_go_le s d ws q s' d' ws' : inv s d ws → evolves (set_workCh q s) s' →
  (∀ p j, objs s !! p = Some j → guarded j = true →
     slots p d' q ws' = slots p d (workCh s) ws ∨ closed s = true ∧ (slots p d' q ws' ≤ slots p d (workCh s) ws)%nat) →
  (∀ p, live s p → inHand p d (workCh s) ws → ok p s' ∨ inHand p d' q ws') →
  pointers s d' q ws' → inv s' d' ws'.
Proof.
  intros [I1 I2 I3 I4 I5] Ev Hsl Hh Hp. pose proof (ev_work _ _ Ev) as Eq. simpl in Eq.
  assert (W0 : wf (set_workCh q s)) by (destruct I1; by split).
  assert (Hl : ∀ p, live s p → live s' p).
  { intros p [j E]. destruct (ev_obj _ _ Ev p j E) as (j' & E' & _). by exists j'. }
  split.
  - by apply (ev_wf _ _ Ev).
  - by apply (ev_acyclic _ _ Ev).
  - rewrite Eq. destruct Hp as [P1 P2 P3]. split; eauto.
  - intros p j' E'. rewrite Eq. unfold exclusive. destruct (objs s !! p) as [j|] eqn:E.
    + destruct (ev_obj _ _ Ev p j E) as (j1 & E1 & K & R). rewrite E' in E1. injection E1 as <-.
      specialize (I4 p j E). unfold exclusive, guarded in *. rewrite (k_opts _ _ K), R.
      destruct (match Overlap (opts j) with AllowConcurrent => false | _ => true end) eqn:Eg; [|done].
      pose proof (ev_closed _ _ Ev) as Hcl. simpl in Hcl. destruct I4 as (H1 & H2 & H3).
      destruct (Hsl p j E Eg) as [->|[Hc Hle]]; split_and!; try lia; try done.
      * intros H. destruct (H3 H) as [Hc|Hc]; [left|by right]. destruct (closed s'); [done|]. by rewrite Hcl in Hc.
      * intros H. apply H2. lia.
      * intros _. left. destruct (closed s'); [done|]. by rewrite Hcl in Hc.
    + destruct (ev_new _ _ Ev p j' E' E) as [R _]. rewrite (slots_dead s p _ _ _ Hp E), R. destruct (guarded j'); [|done].
      split_and!; [lia|lia|done].
  - intros p [j' E']. rewrite Eq. destruct (objs s !! p) as [j|] eqn:E; [|left; by apply (ev_new _ _ Ev p j')].
    destruct (I5 p) as [H|H]; [by eexists| |apply Hh; [by eexists|done]]. left. apply (ev_ok _ _ Ev p); [by eexists|done].
Qed.

Lemma inv_go s d ws q s' d' ws' : inv s d ws → evolves (set_workCh q s) s' →
  (∀ p j, objs s !! p = Some j → guarded j = true → slots p d' q ws' = slots p d (workCh s) ws) →
  (∀ p, live s p → inHand p d (workCh s) ws → ok p s' ∨ inHand p d' q ws') →
  pointers s d' q ws' → inv s' d' ws'.
Proof. intros I Ev Hs. apply (inv_go_le s d ws q); [done..|]. intros p j E Hg. left. by eapply Hs. Qed.

Lemma workCh_eta s : set_workCh (workCh s) s = s.
Proof. by destruct s. Qed.

Lemma inv_api s d ws s' : inv s d ws → evolves s s' → inv s' d ws.
Proof.
  intros I Ev. apply (inv_go s d ws (workCh s) s' d ws); [done|by rewrite workCh_eta|done|by right|apply I].
Qed.

(** A worker moves on: the job it had in hand is kept by someone. *)
Lemma inv_worker s d ws i w w' s' : inv s d ws → ws !! i = Some w → evolves s s' →
  (∀ p, wslot p w' = wslot p w) → (∀ p, wptr w' = Some p → wptr w = Some p) →
  (∀ p, wptr w = Some p → wkeeps w = true →
     ok p s' ∨ (wptr w' = Some p ∧ wkeeps w' = true) ∨ (0 < slots p d (workCh s) ws)%nat ∧ wslot p w = 0%nat) →
  inv s' d (<[i := w']> ws).
Proof.
  intros I Ew Ev Hs Hp Hk. assert (Hslots : ∀ p, slots p d (workCh s) (<[i := w']> ws) = slots p d (workCh s) ws).
  { intros p. pose proof (worker_sum_insert (wslot p) ws i w w' Ew) as E. unfold slots. specialize (Hs p). lia. }
  apply (inv_go s d ws (workCh s)); [done|by rewrite workCh_eta|intros p j _ _; apply Hslots| |].
  - intros p _ [H|[H|(x & Hx & Hpx & Hkx)]]; [right; by left|right; right; by left|].
    destruct (insert_elem ws i w w' x Ew Hx) as [->|Hx']; [|right; right; right; by exists x].
    destruct (Hk p Hpx Hkx) as [H|[[H1 H2]|[H1 H2]]]; [by left|right; right; right; exists w'; split; [by eapply insert_self|done]|].
    right. apply slots_pos. by rewrite Hslots.
  - destruct (in_ptr _ _ _ I) as [P1 P2 P3]. split; [done..|]. intros x p Hx Hpx.
    destruct (elem_insert ws i w w' x Ew Hx) as [->|Hx']; [|by eapply P3].
    apply (P3 w); [by eapply list_elem_of_lookup_2|by apply Hp].
Qed.

Lemma inv_disp s d ws d' s' : inv s d ws → evolves s s' →
  (∀ p, dslot p d' = dslot p d) → (∀ p, dptr d' = Some p → dptr d = Some p) →
  (∀ p, dptr d = Some p → dkeeps d = true →
     ok p s' ∨ (dptr d' = Some p ∧ dkeeps d' = true) ∨ (0 < slots p d' (workCh s) ws)%nat) →
  inv s' d' ws.
Proof.
  intros I Ev Hs Hp Hk. apply (inv_go s d ws (workCh s)); [done|by rewrite workCh_eta| | |].
  - intros p j _ _. unfold slots. by rewrite Hs.
  - intros p _ [[H1 H2]|H]; [|right; by right]. destruct (Hk p H1 H2) as [H|[H|H]]; [by left|right; by left|right; by apply slots_pos].
  - destruct (in_ptr _ _ _ I) as [P1 P2 P3]. split; eauto.
Qed.

(** ** Steps that raise or lower a running flag *)

Lemma running_ok p b s q : ok q (updJob p (set_running b) s) ↔ ok q s.
Proof.
  unfold ok. setoid_rewrite (scheduled_upd p (set_running b) s q); [|done]. split; intros H j E.
  - destruct (decide (p = q)) as [->|Hne].
    + apply (H (set_running b j)). by rewrite (updJob_Some _ _ _ _ E).
    + apply H. rewrite updJob_lookup, E, decide_False by done. done.
  - rewrite updJob_lookup in E. destruct (objs s !! q) as [j0|] eqn:E0; [|done]. simpl in E. injection E as <-.
    specialize (H j0 eq_refl). by destruct (decide (p = q)).
Qed.

Lemma inv_flag s d ws d' ws' p j b : inv s d ws → objs s !! p = Some j → guarded j = true →
  (∀ q, q ≠ p → slots q d' (workCh s) ws' = slots q d (workCh s) ws) → slots p d' (workCh s) ws' = b2n b →
  (∀ q, live s q → inHand q d (workCh s) ws → ok q s ∨ inHand q d' (workCh s) ws') →
  pointers s d' (workCh s) ws' → inv (updJob p (set_running b) s) d' ws'.
Proof.
  intros [I1 I2 I3 I4 I5] E Hg Hq Hp Hh Hpt. pose proof (framex_upd p (set_running b) s ltac:(intros; by split)) as F.
  assert (Hl : ∀ q, live (updJob p (set_running b) s) q ↔ live s q).
  { intros q. unfold live. by rewrite updJob_lookup, fmap_is_Some. }
  split.
  - by apply (fr_wf _ _ _ F).
  - apply (acyclic_ext s); [|done]. intros x. by apply (frame_depsOf _ _ _ x F).
  - destruct Hpt as [P1 P2 P3]. split; setoid_rewrite Hl; eauto.
  - intros q j' E'. change (workCh (updJob p (set_running b) s)) with (workCh s). destruct (decide (q = p)) as [->|Hne].
    + rewrite (updJob_Some _ _ _ _ E) in E'. injection E' as <-. unfold exclusive.
      change (guarded (set_running b j)) with (guarded j). rewrite Hg, Hp. destruct b; simpl; split_and!; lia || done || by right.
    + rewrite updJob_lookup, decide_False, option_fmap_id in E' by congruence. rewrite Hq by done. by apply I4.
  - intros q Hlq. rewrite running_ok. change (workCh (updJob p (set_running b) s)) with (workCh s). apply Hl in Hlq.
    destruct (I5 q Hlq) as [H|H]; [by left|by apply Hh].
Qed.

(** ** Every step keeps the invariant *)

Lemma evolves_api now c s : reads now → wf s → evolves s (api now c s).
Proof.
  intros Hn W.
  destruct c; simpl; try (by apply evolves_addJob); try apply evolves_prune; try (by apply evolves_requeue);
    try (by apply evolves_load); try apply evolves_stop; apply frame_evolves.
  - apply frame_TriggerNow.
  - destruct (UpdateCron id spec now s) eqn:E; [by eapply frame_UpdateCron|done].
  - unfold Cancel. destruct (findJob id s) as [[p j]|]; [apply frame_cancel|done].
  - unfold Pause. destruct (findJob id s) as [[p j]|]; [apply frame_paused|done].
  - unfold Resume. destruct (findJob id s) as [[p j]|]; [|done]. destruct (canceled j); [done|].
    destruct (negb (paused j)); [done|apply frame_resume].
  - unfold PauseByGroup. case_decide; [done|]. apply frame_batch. intros. apply frame_paused.
  - unfold PauseByTags. case_decide; [done|]. apply frame_batch. intros. apply frame_paused.
  - unfold ResumeByGroup. case_decide; [done|]. apply frame_batch. intros. apply frame_resume.
  - unfold ResumeByTags. case_decide; [done|]. apply frame_batch. intros. apply frame_resume.
  - unfold CancelByGroup. case_decide; [done|]. apply frame_batch. intros. apply frame_cancel.
  - unfold CancelByTags. case_decide; [done|]. apply frame_batch. intros. apply frame_cancel.
  - destruct (dlq s); [|done]. by apply frame_same.
  - destruct (dlq s); [|done]. by apply frame_same.
  - unfold RegisterTask. case_decide; [done|]. destruct task; [|done]. by apply frame_same.
  - destruct (started s || closed s); [done|]. by apply frame_same.
Qed.

(** The popped job passes from the schedule into the hand of the run loop. *)
Lemma inv_pop s ws now : inv s DLoop ws →
  let '(it, s') := popDue now s in inv s' (match it with Some it => DDispatch (siJob it) | None => DLoop end) ws.
Proof.
  intros I. unfold popDue. destruct (closed s); [done|].
  pose proof (popDueLoop_spec (S (length (queue s))) now s (wf_heap _ (in_wf _ _ _ I)) ltac:(lia)) as H.
  destruct (popDueLoop _ now s) as [it s1]. destruct H as (q & -> & Ho & Hsub & Hcov & Hit).
  destruct I as [[W1 W2 W3 W4] I2 [P1 P2 P3] I4 I5]. set (d' := match it with Some it => DDispatch (siJob it) | None => DLoop end).
  assert (Hd : ∀ p, dslot p d' = 0%nat) by (intros p; unfold d'; by destruct it).
  split; try done.
  - split; simpl; auto.
  - split; [|done|done]. intros p. unfold d'. destruct it as [it|]; [|done]. intros [= <-]. apply W3, Hit.
  - intros p j E. specialize (I4 p j E). unfold slots in *. by rewrite Hd.
  - intros p Hp. destruct (I5 p Hp) as [H|[[H _]|H]]; [|done|right; by right].
    destruct (decide (siJob <$> it = Some p)) as [Hx|Hn].
    { destruct it as [x|]; [|done]. simplify_eq/=. right. by left. } left.
    intros j E Hc Hca Hpa Hki Hde. destruct (H j E Hc Hca Hpa Hki Hde) as [(x & Hx & Hxp & Hxs)|Hz]; [left|by right].
    exists x. split_and!; [|done|done]. destruct (Hcov x Hx) as [Hq|[Hq|Hq]]; [done|congruence|].
    destruct Hn. rewrite Hq. simpl. congruence.
Qed.

Lemma inHand_weaken p d q ws d' : (dptr d = Some p → dkeeps d = true → dptr d' = Some p ∧ dkeeps d' = true) →
  inHand p d q ws → inHand p d' q ws.
Proof. intros H [[H1 H2]|H1]; [left; auto|by right]. Qed.

Lemma inv_claim s ws p now : inv s (DClaim p) ws → let '(d', s') := claim p now s in inv s' d' ws.
Proof.
  intros I. unfold claim. destruct (pt_disp _ _ _ _ (in_ptr _ _ _ I) p eq_refl) as [j E]. rewrite E.
  assert (Hsame : ∀ d', downs d' = false → dptr d' = Some p → dkeeps d' = true → inv s d' ws).
  { intros d' H1 H2 H3. apply (inv_disp s (DClaim p)); [done|done|intros q; unfold dslot; by rewrite H1|intros q; by rewrite H2|].
    intros q [= ->] _. right; left. by rewrite H2. }
  pose proof (in_excl _ _ _ I p j E) as Hx. unfold exclusive in Hx.
  assert (Hclaim : guarded j = true → running j = false → inv (updJob p (set_running true) s) (DSend p now) ws).
  { intros Hg Hr. rewrite Hg in Hx. destruct Hx as (H1 & H2 & _). assert (H0 : slots p (DClaim p) (workCh s) ws = 0%nat).
    { destruct (slots p (DClaim p) (workCh s) ws) as [|[|n]] eqn:En; [done| |lia]. by rewrite H2 in Hr. }
    apply (inv_flag s (DClaim p) ws _ _ p j true I E Hg).
    - intros q Hq. unfold slots, dslot. simpl. by rewrite bool_decide_eq_false_2 by congruence.
    - revert H0. unfold slots, dslot. simpl. rewrite bool_decide_eq_true_2 by done. simpl. lia.
    - intros q _ H. right. revert H. by apply inHand_weaken.
    - destruct (in_ptr _ _ _ I) as [P1 P2 P3]. by split. }
  unfold guarded in *. destruct (Overlap (opts j)) eqn:Eo.
  - apply (inv_go s (DClaim p) ws (workCh s)); [done|by rewrite workCh_eta| | |].
    + intros q j' E' Hg. unfold slots, dslot. simpl. rewrite bool_decide_eq_false_2; [done|]. intros [= ->]. rewrite E in E'.
      injection E' as <-. unfold guarded in Hg. by rewrite Eo in Hg.
    + intros q _ H. right. revert H. by apply inHand_weaken.
    + destruct (in_ptr _ _ _ I) as [P1 P2 P3]. by split.
  - destruct (running j) eqn:Er; [by apply Hsame|by apply Hclaim].
  - destruct (running j) eqn:Er; [|by apply Hclaim]. destruct Hx as (_ & _ & H3).
    apply (inv_disp s (DClaim p)); [done|done|done|done|]. intros q [= <-] _.
    destruct (H3 eq_refl) as [Hc|Hn].
    + left. intros j' E' Hc'. congruence.
    + right; right. change (slots p (DPend p) (workCh s) ws) with (slots p (DClaim p) (workCh s) ws). lia.
Qed.

(** A finished or dropped run gives up its flag. *)
Lemma release_eq p s j : objs s !! p = Some j →
  releaseRunning p s = if guarded j then updJob p (set_running false) s else s.
Proof.
  intros E. unfold releaseRunning, updJob. destruct (guarded j) eqn:Hg.
  - f_equal. apply map_eq. intros q. destruct (decide (q = p)) as [->|]; [by rewrite !lookup_alter, !decide_True, E by done; simpl; rewrite Hg|].
    by rewrite !lookup_alter_ne.
  - rewrite alter_id; [by destruct s|]. intros x Hx. rewrite E in Hx. injection Hx as <-. by rewrite Hg.
Qed.

Lemma inv_drop s ws p : inv s (DDrop p) ws →
  inv (dropRun p s) (if kindIs jobKindCron p s then DSkip p else DLoop) ws.
Proof.
  intros I. destruct (pt_disp _ _ _ _ (in_ptr _ _ _ I) p eq_refl) as [j E]. unfold dropRun.
  assert (I1 : inv (updStats incDropped s) (DDrop p) ws) by (eapply inv_api; [exact I|apply frame_evolves, frame_stats]).
  set (s1 := updStats incDropped s) in *. assert (E1 : objs s1 !! p = Some j) by done. rewrite (release_eq p s1 j E1).
  set (d' := if kindIs jobKindCron p s then DSkip p else DLoop). assert (Hd' : ∀ q, dslot q d' = 0%nat) by (intros q; unfold d'; by case_match).
  assert (Hpt : pointers s1 d' (workCh s1) ws).
  { destruct (in_ptr _ _ _ I1) as [P1 P2 P3]. split; [|done|done]. intros q. unfold d'. case_match; [|done]. intros [= <-]. by eexists. }
  assert (Hh : ∀ q, live s1 q → inHand q (DDrop p) (workCh s1) ws → ok q s1 ∨ inHand q d' (workCh s1) ws).
  { intros q _ [[[= <-] _]|H]; [|right; by right]. unfold d', kindIs. rewrite E. case_bool_decide as Ek; [right; by left|left].
    intros j' E' _ _ _ Hki. rewrite E1 in E'. injection E' as <-. congruence. }
  destruct (guarded j) eqn:Hg.
  - apply (inv_flag s1 (DDrop p) ws _ _ p j false I1 E1 Hg); [..|done|done].
    + intros q Hq. unfold slots. rewrite Hd'. unfold dslot. simpl. by rewrite bool_decide_eq_false_2 by congruence.
    + pose proof (in_excl _ _ _ I1 p j E1) as Hx. unfold exclusive in Hx. rewrite Hg in Hx. destruct Hx as (Hle & _ & _).
      revert Hle. unfold slots. rewrite Hd'. unfold dslot. simpl. rewrite bool_decide_eq_true_2 by done. simpl. lia.
  - apply (inv_go s1 (DDrop p) ws (workCh s1)); [done|by rewrite workCh_eta| |done|done].
    intros q j' E' Hg'. unfold slots. rewrite Hd'. unfold dslot. simpl. rewrite bool_decide_eq_false_2; [done|]. intros [= ->].
    rewrite E1 in E'. injection E' as <-. congruence.
Qed.

Lemma inv_dstep s ws now r b d d' s' : reads now → inv s d ws → dstep now r b d s = Some (d', s') → inv s' d' ws.
Proof.
  intros Hn I. destruct d as [|p|p|p|p|p|p enq|p]; simpl.
  - pose proof (inv_pop s ws now I) as H. destruct (popDue now s) as [it s1]. by intros [= <- <-].
  - intros [= <- <-]. destruct (pt_disp _ _ _ _ (in_ptr _ _ _ I) p eq_refl) as [j E]. rewrite E.
    apply (inv_disp s (DDispatch p)); [done|done|intros q; by case_match|intros q; by case_match|].
    intros q [= <-] _. destruct (canceled j) eqn:Ec; [left|right; by left]. intros j' E' _ Hc. congruence.
  - intros [= <- <-]. destruct (pt_disp _ _ _ _ (in_ptr _ _ _ I) p eq_refl) as [j E]. rewrite E.
    apply (inv_disp s (DPaused p)); [done|done|intros q; by case_match|intros q; by case_match|].
    intros q [= <-] _. destruct (paused j) eqn:Ec; [left|right; by left]. intros j' E' _ _ Hc. congruence.
  - pose proof (inv_claim s ws p now I) as H. destruct (claim p now s) as [d1 s1]. by intros [= <- <-].
  - intros [= <- <-]. apply (inv_disp s (DPend p)); [done| |done|done|done]. apply frame_evolves, frame_upd. intros j. by split.
  - intros [= <- <-]. apply (inv_disp s (DSkip p)); [done| |done|done|].
    + apply frame_evolves, frame_scheduleNext.
    + intros q [= <-] _. left. by apply scheduleNext_ok.
  - destruct b; case_match; try done; intros [= <- <-].
    + apply (inv_go s (DSend p enq) ws (workCh s ++ [MkReq p enq])); [done|apply frame_evolves, frame_stats| | |].
      * intros q j' _ _. unfold slots, dslot, rslot. rewrite sum_list_with_app. simpl.
        destruct (decide (p = q)) as [->|]; [rewrite !bool_decide_eq_true_2 by done|rewrite !bool_decide_eq_false_2 by congruence];
          simpl; lia.
      * intros q _ [[[= <-] _]|[(x & Hx & <-)|Hw]]; right; right; [left; exists (MkReq p enq)|left; exists x|by right]; set_solver.
      * destruct (in_ptr _ _ _ I) as [P1 P2 P3]. split; [done| |done].
        intros x [Hx|Hx]%elem_of_app; [by apply P2|]. apply list_elem_of_singleton in Hx as ->. by apply P1.
    + apply (inv_go_le s (DSend p enq) ws (workCh s)); [done|by rewrite workCh_eta| | |].
      * intros q j' _ _. right. split; [done|]. unfold slots, dslot. simpl. lia.
      * intros q _ _. left. intros j' _ Hc. congruence.
      * destruct (in_ptr _ _ _ I) as [P1 P2 P3]. by split.
    + apply (inv_disp s (DSend p enq)); [done|done|done|done|]. intros q [= <-] _. right; by left.
  - intros [= <- <-]. by apply inv_drop.
Qed.

Lemma inv_receive s d ws i x rest : inv s d ws → ws !! i = Some WIdle → workCh s = x :: rest →
  inv (set_workCh rest s) d (<[i := WBegin (reqJob x) (enqueuedAt x)]> ws).
Proof.
  intros I Ew Eq. set (w' := WBegin _ _). apply (inv_go s d ws rest); [done|done| | |].
  - intros p j _ _. pose proof (worker_sum_insert (wslot p) ws i WIdle w' Ew) as E. unfold slots, rslot. rewrite Eq. simpl.
    assert (Ew1 : wslot p w' = b2n (bool_decide (reqJob x = p))).
    { unfold wslot, w'. simpl. f_equal. by apply bool_decide_ext; split; congruence. }
    assert (Ew0 : wslot p WIdle = 0%nat) by done. lia.
  - intros p _ [H|[(y & Hy & E)|(w & Hw & Hp & Hk)]]; right.
    + by left.
    + rewrite Eq in Hy. apply elem_of_cons in Hy as [->|Hy].
      * right; right. exists w'. split; [by eapply insert_self|]. simpl. by rewrite E.
      * right; left. by exists y.
    + destruct (insert_elem ws i WIdle w' w Ew Hw) as [->|Hw']; [done|]. right; right. by exists w.
  - destruct (in_ptr _ _ _ I) as [P1 P2 P3]. rewrite Eq in P2. split; [done|intros y Hy; apply P2; by right|].
    intros w p Hw Hp. destruct (elem_insert ws i WIdle w' w Ew Hw) as [->|Hw']; [|by eapply P3].
    simpl in Hp. injection Hp as <-. apply P2. by left.
Qed.

Lemma inv_release s d ws i p start e : inv s d ws → ws !! i = Some (WRet p start e) →
  inv (releaseRunning p s) d (<[i := WRec p start e]> ws).
Proof.
  intros I Ew. set (w' := WRec p start e). assert (Hin : WRet p start e ∈ ws) by (by eapply list_elem_of_lookup_2).
  destruct (pt_worker _ _ _ _ (in_ptr _ _ _ I) _ p Hin eq_refl) as [j E]. rewrite (release_eq p s j E).
  pose proof (λ q, worker_sum_insert (wslot q) ws i _ w' Ew) as Hsum.
  assert (Hw : ∀ q, wslot q w' = 0%nat) by done.
  assert (Hw0 : ∀ q, wslot q (WRet p start e) = b2n (bool_decide (p = q))).
  { intros q. unfold wslot. simpl. f_equal. apply bool_decide_ext. split; congruence. }
  assert (Hh : ∀ q, live s q → inHand q d (workCh s) ws → ok q s ∨ inHand q d (workCh s) (<[i := w']> ws)).
  { intros q _ [H|[H|(w & H1 & H2 & H3)]]; right; [by left|right; by left|]. right; right.
    destruct (insert_elem ws i _ w' w Ew H1) as [->|H1']; [exists w'; split; [by eapply insert_self|done]|by exists w]. }
  assert (Hpt : pointers s d (workCh s) (<[i := w']> ws)).
  { destruct (in_ptr _ _ _ I) as [P1 P2 P3]. split; [done..|]. intros w q Hw' Hq.
    destruct (elem_insert ws i _ w' w Ew Hw') as [->|H]; [|by eapply P3]. simpl in Hq. injection Hq as <-. by eexists. }
  destruct (guarded j) eqn:Hg.
  - apply (inv_flag s d ws _ _ p j false I E Hg); [..|done|done].
    + intros q Hq. specialize (Hsum q). rewrite Hw, Hw0, bool_decide_eq_false_2 in Hsum by congruence. unfold slots. simpl in Hsum. lia.
    + pose proof (in_excl _ _ _ I p j E) as Hx. unfold exclusive in Hx. rewrite Hg in Hx. destruct Hx as (Hle & _ & _).
      specialize (Hsum p). rewrite Hw, Hw0, bool_decide_eq_true_2 in Hsum by done. unfold slots in *. simpl in *. lia.
  - apply (inv_go s d ws (workCh s)); [done|by rewrite workCh_eta| |done|done].
    intros q j' E' Hg'. specialize (Hsum q). rewrite Hw, Hw0, bool_decide_eq_false_2 in Hsum; [unfold slots; simpl in Hsum; lia|].
    intros ->. rewrite E in E'. injection E' as <-. congruence.
Qed.

Lemma kindIs_other p s : kindIs jobKindCron p s = false → ok p s.
Proof. intros H j E _ _ _ Hk. unfold kindIs in H. rewrite E in H. by rewrite bool_decide_eq_true_2 in H. Qed.

(** The worker that found a pending run: it queues it, or the flag is up and its owner has
    the job in hand. *)
Lemma inv_pending s d ws i p start pend maxed now : inv s d ws → ws !! i = Some (WPend p start pend maxed) →
  inv (queuePending p pend maxed now s) d (<[i := WNext p start pend maxed]> ws).
Proof.
  intros I Ew. apply (inv_worker s d ws i _ _ _ I Ew); [apply frame_evolves, frame_queuePending|done|done|].
  intros q [= <-] _. simpl. destruct pend; simpl; [|right; by left]. destruct maxed; [right; by left|].
  assert (Hin : WPend p start true false ∈ ws) by (by eapply list_elem_of_lookup_2).
  destruct (pt_worker _ _ _ _ (in_ptr _ _ _ I) _ p Hin eq_refl) as [j E]. destruct (running j) eqn:Er.
  - pose proof (in_excl _ _ _ I p j E) as Hx. unfold exclusive in Hx. rewrite Er in Hx. destruct (guarded j); [|done].
    destruct Hx as (_ & _ & H3). destruct (H3 eq_refl) as [Hc|Hn]; [left|right; right; split; [lia|done]].
    intros j' _ Hc'. apply (fr_closed _ _ _ (frame_queuePending p true false now s)) in Hc'. congruence.
  - left. by eapply queuePending_ok.
Qed.

(** A worker on a run remembers a reading of the clock. *)
Definition timely w : Prop :=
  match w with
  | WRun _ t | WRet _ t _ | WRec _ t _ | WOk _ t | WPend _ t _ _ | WNext _ t _ _ => reads t
  | _ => True
  end.
Lemma timely_wstep now r err w s w' s' : reads now → timely w → wstep now r err w s = Some (w', s') → timely w'.
Proof. intros Hn Hw Hst. destruct w; simpl in *; repeat case_match; by simplify_eq. Qed.

Lemma inv_wstep s d ws i now r err w w' s' : reads now → timely w → inv s d ws → ws !! i = Some w → wstep now r err w s = Some (w', s') →
  inv s' d (<[i := w']> ws).
Proof.
  intros Hn Ht I Ew.
  assert (Hgo : ∀ w1 s1, frame s s1 → (∀ p, wslot p w1 = wslot p w) → (∀ p, wptr w1 = Some p → wptr w = Some p) →
    (∀ p, wptr w = Some p → wkeeps w = true → ok p s1 ∨ (wptr w1 = Some p ∧ wkeeps w1 = true)) → inv s1 d (<[i := w1]> ws)).
  { intros w1 s1 F H1 H2 H3. apply (inv_worker s d ws i w w1 s1 I Ew); [by apply frame_evolves|done|done|].
    intros p Hp Hk. destruct (H3 p Hp Hk) as [H|H]; [by left|right; by left]. }
  destruct w; simpl.
  - destruct (workCh s) as [|x rest] eqn:Eq; [done|]. intros [= <- <-]. by apply inv_receive.
  - intros [= <- <-]. apply Hgo; [apply frame_begin|done|done|auto].
  - intros [= <- <-]. apply Hgo; [done|done|done|auto].
  - intros [= <- <-]. by apply inv_release.
  - intros [= <- <-]. apply Hgo; [apply frame_recordRun|intros q; by destruct err0|intros q; by destruct err0|]. intros q Hq _. right. by destruct err0.
  - pose proof (frame_failAttempt p (countFailure err0 s)) as F. destruct (failAttempt p (countFailure err0 s)) as [[a ex] s1].
    intros [= <- <-]. apply Hgo; [etrans; [apply (frame_countFailure err0)|exact F]|intros q; by destruct ex|intros q; by destruct ex|].
    intros q Hq _. right. by destruct ex.
  - intros [= <- <-]. apply Hgo; [apply frame_setState|done|done|auto].
  - intros [= <- <-]. apply Hgo; [apply frame_pushRetry|done|done|]. intros q [= <-] _. left. apply pushRetry_ok.
  - intros [= <- <-]. apply Hgo; [case_match; [apply frame_setState|done]|done|done|auto].
  - intros [= <- <-]. apply Hgo; [apply frame_dead|done|done|auto].
  - intros [= <- <-]. apply Hgo; [case_match; [apply frame_scheduleNext|done]|done|done|]. intros q [= <-] _. left.
    destruct (kindIs jobKindCron p s) eqn:Ek; [by apply scheduleNext_ok|by apply kindIs_other].
  - intros [= <- <-]. apply Hgo; [case_match; [apply frame_storeDelete|done]|done|done|done].
  - intros [= <- <-]. apply Hgo; [apply frame_deps|done|done|done].
  - intros [= <- <-]. apply Hgo; [apply frame_dependentsFail|done|done|done].
  - pose proof (frame_success p now s) as F. destruct (executeSuccess p now s) as [[pend maxed] s1]. intros [= <- <-].
    apply Hgo; [done|done|done|auto].
  - intros [= <- <-]. by apply inv_pending.
  - intros [= <- <-]. apply Hgo; [case_match; [apply frame_scheduleNext|done]|done|done|]. intros q [= <-] Hk. simpl in *.
    destruct maxed; [by right|]. destruct pend; [done|]. left. destruct (kindIs jobKindCron p s) eqn:Ek; simpl; [by apply scheduleNext_ok|by apply kindIs_other].
  - intros [= <- <-]. apply Hgo; [case_match; [apply frame_storeDelete|done]|done|done|auto].
  - intros [= <- <-]. apply Hgo; [apply frame_trigger|by destruct maxed|by destruct maxed|]. intros q Hq Hk. simpl in *. subst. auto.
  - intros [= <- <-]. apply Hgo; [apply frame_retire|done|done|]. intros q [= <-] _. left. apply retire_ok.
Qed.

Lemma inv_step now m m' : reads now → inv (sch m) (disp m) (workers m) → Forall timely (workers m) → step_at now m m' →
  inv (sch m') (disp m') (workers m') ∧ Forall timely (workers m').
Proof.
  intros Hn I Ht [c|r b d' s' Hst E|i r err w w' s' Hst Ew E]; simpl.
  - split; [|done]. eapply inv_api; [exact I|]. by apply evolves_api, I.
  - split; [|done]. by eapply inv_dstep.
  - assert (timely w) as Hw by (by eapply Forall_lookup_1). split; [by eapply inv_wstep|].
    apply Forall_insert; [done|]. by eapply timely_wstep.
Qed.

Lemma inv_initial c store dl : inv (New (Task := Task) c store dl) DLoop (replicate (Z.to_nat (workerCount c)) WIdle).
Proof.
  assert (Hw : ∀ w, w ∈ replicate (Z.to_nat (workerCount c)) WIdle → w = WIdle) by (intros w Hw; by apply elem_of_replicate in Hw as [-> _]).
  split.
  - split; simpl; try done; try (by intros ? [? ?]); try (by intros ? ?%elem_of_nil); intros k Hk; simpl in Hk; lia.
  - intros x Hx. apply tc_first in Hx as (y & (ds & E & _) & _). done.
  - split; [done|by intros ? ?%elem_of_nil|]. intros w p ->%Hw. done.
  - done.
  - by intros p [j E].
Qed.

Lemma inv_timed c store dl m : rtc (λ m m', ∃ now, reads now ∧ step_at (Task := Task) now m m') (initial c store dl) m →
  inv (sch m) (disp m) (workers m).
Proof.
  intros H. apply (rtc_ind_r (λ m, inv (sch m) (disp m) (workers m) ∧ Forall timely (workers m)) (initial c store dl)) in H;
    [apply H| |].
  - split; [apply inv_initial|]. by apply Forall_replicate.
  - intros m1 m2 _ (now & Hn & Hs) [I Ht]. by eapply inv_step.
Qed.
End inv.

(** The runs with any readings, and those with a clock past the zero time. *)
Definition any_clock : Clock := λ _, True.
Definition after_zero : Clock := λ t, Cron.zeroTime ≤ t.

Section reachable.
Context {Task St : Type} `{!Store St}.

Lemma inv_reachable c store dl (m : machine (Task := Task) (St := St)) : reachable c store dl m →
  inv (clk := any_clock) (sch m) (disp m) (workers m).
Proof.
  intros H. apply (inv_timed (clk := any_clock) c store dl). refine (rtc_subrel _ _ _ _ _ H).
  intros m1 m2 [now Hs]. by exists now.
Qed.
End reachable.
