(* ===== verification/SchedProps.v ===== *)
(** * The job scheduler: theorems

    What holds in every state the goroutines can reach, and, in [Findings], concrete runs
    in which the code departs from its intent. *)

From stdpp Require Import options.
From S2P Require Import Prelude GoStrings GoNumbers GoTime GoMap GoHeap Cron CronFacts CronProps SchedJobs SchedState Scheduler SchedFacts SchedDeps SchedMachine SchedInv.
Import SchedJobs SchedState Scheduler SchedMachine.
#[local] Open Scope Z_scope.

#[local] Existing Instance any_clock.

Section runs.
Context {Task St : Type} `{!Store St}.
Implicit Types (m : machine (Task := Task) (St := St)) (p : nat) (s : Scheduler (Task := Task) (St := St)).

(** ** One run at a time *)

(** Runs of the job under way: inside the task, or queued for a worker. *)
Definition running_now p m : nat := length (filter (λ w, runs p w = true) (workers m)).
Definition queued_now p m : nat := length (filter (λ x, reqJob x = p) (workCh (sch m))).

Lemma running_le p (ws : list worker) : (length (filter (λ w, runs p w = true) ws) ≤ sum_list_with (wslot p) ws)%nat.
Proof.
  induction ws as [|w ws IH]; [done|]. rewrite filter_cons. cbn [sum_list_with]. case_decide as Hw; cbn [length]; [|lia].
  destruct w; try done. simpl in Hw. apply bool_decide_eq_true in Hw as ->.
  assert (E : wslot p (WRun p start) = 1%nat); [|lia]. unfold wslot. simpl. by rewrite bool_decide_eq_true_2.
Qed.
Lemma queued_eq p (q : list runRequest) : length (filter (λ x, reqJob x = p) q) = rslot p q.
Proof.
  induction q as [|x q IH]; [done|]. rewrite filter_cons. unfold rslot in *. cbn [sum_list_with].
  case_decide as Hx; [rewrite bool_decide_eq_true_2 by done|rewrite bool_decide_eq_false_2 by done]; simpl; by rewrite IH.
Qed.

(** C8: a job whose overlap policy is not [AllowConcurrent] never overlaps itself: in every
    state that the run loop, the workers and the callers of the API can reach, however they
    interleave, at most one run of it is queued or inside its task. *)
Theorem sched_no_overlap c store dl m p j : reachable c store dl m →
  objs (sch m) !! p = Some j → Overlap (opts j) ≠ AllowConcurrent → (running_now p m + queued_now p m ≤ 1)%nat.
Proof.
  intros Hr E Ho. pose proof (in_excl _ _ _ (inv_reachable c store dl m Hr) p j E) as Hx. unfold exclusive, guarded in Hx.
  assert (Hs : (slots p (disp m) (workCh (sch m)) (workers m) ≤ 1)%nat) by (destruct (Overlap (opts j)); [done|apply Hx..]).
  unfold running_now, queued_now, slots in *. rewrite queued_eq. pose proof (running_le p (workers m)). lia.
Qed.

(** ** No cron job is lost *)

(** A schedule read from an expression has no next time only if it has none at all: the
    calendar repeats after 400 years. *)
Lemma no_next_time e loc c t : expr_steps_fit e = true → Cron.ParseCronSpecWithLocation e loc = Some (Ok c) →
  Cron.zeroTime ≤ t → Cron.Next c t = Cron.zeroTime → Cron.interval c = 0 ∧ ∀ v, ¬ matches c v.
Proof.
  unfold Cron.zeroTime. intros Hf Hp Ht Hn. destruct (parsed_spec e loc c Hf Hp) as [Hl [Hi|[Hi Hok]]].
  { unfold Cron.Next in Hn. rewrite (proj2 (Z.ltb_lt 0 _) Hi) in Hn. lia. }
  split; [done|]. intros v Hm. destruct (Next_cases c t Hok Hi) as [(u & E & Hu & _)|[_ Hno]]; [lia|].
  set (off := default 0 (Cron.location c)) in Hno. set (k := Z.to_nat (Z.abs v + Z.abs off + t + 1)).
  apply (Hno (v + Z.of_nat k * cycle - off)).
  - unfold nanosPerSecond, cycle, k. rewrite Z2Nat.id by lia. nia.
  - replace (v + Z.of_nat k * cycle - off + off) with (v + Z.of_nat k * cycle) by lia. by apply matches_cycles.
Qed.

(** C9: a cron job without dependencies, whose schedule was read from an expression in
    which no step is [2^62] or more, is never lost while the scheduler runs. In every state
    that the run loop, the workers and the callers of the API can reach with a clock that
    is never before year 1, and in which the scheduler is not stopped and the job is
    neither cancelled nor paused: the job has an item in the schedule that is not
    superseded; or the run loop, the work channel or a worker has it in hand, at a point
    from which it reschedules the job, retires it after its last allowed run, or finds it
    cancelled, paused or the scheduler stopped; or its expression is not an [@every] and
    matches no second of the calendar at all (as a 30th of February). *)
Theorem sched_cron_kept c store dl m p j e loc : reachable_timed c store dl m → closed (sch m) = false →
  objs (sch m) !! p = Some j → kind j = jobKindCron → Dependencies (opts j) = [] → canceled j = false → paused j = false →
  Cron.ParseCronSpecWithLocation e loc = Some (Ok (cron j)) → expr_steps_fit e = true →
  scheduled p (sch m) ∨ inHand p (disp m) (workCh (sch m)) (workers m) ∨
  (Cron.interval (cron j) = 0 ∧ ∀ v, ¬ matches (cron j) v).
Proof.
  intros Hr Hc E Hk Hd Hca Hpa Hp Hf.
  destruct (in_kept _ _ _ (inv_timed (clk := after_zero) c store dl m Hr) p) as [H|H]; [by eexists| |by right; left].
  destruct (H j E Hc Hca Hpa Hk Hd) as [Hs|(t & Ht & Hz)]; [by left|]. right; right. by eapply no_next_time.
Qed.

(** ** The schedule *)

(** C16: in every reachable state, what the run loop takes off the queue is an item that is
    due and not superseded, and the earliest of those; it takes nothing exactly when none
    is due, and what it drops on the way is superseded. *)
Theorem sched_pops_earliest c store dl m now : reachable c store dl m → closed (sch m) = false →
  let '(it, s') := popDue now (sch m) in
  match it with
  | Some x => x ∈ queue (sch m) ∧ stale x (sch m) = false ∧ siRunAt x ≤ now ∧
              ∀ y, y ∈ queue (sch m) → stale y (sch m) = false → siRunAt x ≤ siRunAt y
  | None => ∀ y, y ∈ queue (sch m) → stale y (sch m) = false → now < siRunAt y
  end ∧
  ∀ y, y ∈ queue (sch m) → stale y (sch m) = false → y ∈ queue s' ∨ it = Some y.
Proof.
  intros Hr Hc. unfold popDue. rewrite Hc.
  pose proof (popDueLoop_spec (S (length (queue (sch m)))) now (sch m) (wf_heap _ (in_wf _ _ _ (inv_reachable c store dl m Hr))) ltac:(lia)) as H.
  destruct (popDueLoop _ now (sch m)) as [it s1]. destruct H as (q & -> & _ & _ & Hcov & Hit). split; [done|].
  intros y Hy Hs. destruct (Hcov y Hy) as [H|[H|H]]; [by left|congruence|by right].
Qed.

(** ** Dependencies *)

(** C15: in every reachable state the dependency graph of the registered jobs is acyclic,
    and a registration that passes the other checks is refused with [ErrDependencyCycle]
    exactly when one of its dependencies leads back to the job, so that registering it
    would close a cycle. *)
Theorem sched_acyclic c store dl m id k task spec at_ options now : reachable c store dl m →
  let s := sch m in
  let o := foldl (λ o f, f o) defaultJobOptions options in
  acyclic s ∧
  (id ≠ [] → closed s = false → jobs s !! id = None ∨ Replace o = true → checkDependencies id (Dependencies o) s = None →
   ((addJob id k (Some task) spec at_ options now s).1 = Err (ErrDependencyCycle id) ↔
    ∃ d, d ∈ Dependencies o ∧ rtc (edge s) d id)).
Proof.
  intros Hr s o. pose proof (inv_reachable c store dl m Hr) as I. split; [apply I|].
  intros Hid Hc Hex Hck. unfold addJob. rewrite decide_False by done. fold o. rewrite Hc.
  assert (Hno : match jobs s !! id with
                | Some old => match objs s !! old with Some e => negb (Replace o) && negb (canceled e) | None => false end
                | None => false end = false).
  { destruct Hex as [->| ->]; [done|]. destruct (jobs s !! id) as [old|]; [|done]. by destruct (objs s !! old). }
  rewrite Hno, Hck. change (∃ d, d ∈ Dependencies o ∧ rtc (edge s) d id) with (closes_cycle s id (Dependencies o)).
  rewrite <-cycle_check_exact. destruct (wouldCreateDependencyCycleLocked id (Dependencies o) s); [done|]. simpl. by split.
Qed.

(** ** Cancellation *)

(** What can still become a run of a cancelled job: the run loop is past its look at
    [canceled], the request is queued, a worker has received it. *)
Definition dahead p (d : dispatcher) : nat :=
  match d with DPaused q | DClaim q | DSend q _ => b2n (bool_decide (q = p)) | _ => 0%nat end.
Definition wahead p (w : worker) : nat := match w with WBegin q _ => b2n (bool_decide (q = p)) | _ => 0%nat end.
Definition ahead p m : nat := (dahead p (disp m) + rslot p (workCh (sch m)) + sum_list_with (wahead p) (workers m))%nat.

(** An execution in which the job's task is entered [n] times. *)
Inductive execution p m : nat → machine → Prop :=
  | execution_nil : execution p m 0 m
  | execution_snoc n m1 m2 : execution p m n m1 → step m1 m2 → execution p m (n + (running_now p m2 - running_now p m1)) m2.

(** Jobs keep their identity, options and cancellation. *)
Definition tame s s' : Prop := ∀ p j, objs s !! p = Some j → ∃ j', objs s' !! p = Some j' ∧ keeps j j'.
Lemma framex_tame X s s' : framex X s s' → tame s s'.
Proof. intros F p j E. destruct (fr_obj _ _ _ F p j E) as (j' & E' & K & _). by exists j'. Qed.
Lemma objs_tame s s' : objs s' = objs s → tame s s'.
Proof. intros Eq p j E. exists j. rewrite Eq. split; [done|apply job_keeps_refl]. Qed.
#[local] Hint Resolve framex_tame : core.

Lemma framex_running p b s : framex (λ q, q = p) s (updJob p (set_running b) s).
Proof. apply framex_upd. intros j. by split. Qed.
Lemma framex_release p s : framex (λ q, q = p) s (releaseRunning p s).
Proof. apply framex_upd. intros j. split; case_match; by try apply job_keeps_refl. Qed.

Lemma dstep_effect now r b d s d' s' : dstep now r b d s = Some (d', s') →
  tame s s' ∧ match d, b with DSend _ _, BSend => True | _, _ => workCh s' = workCh s end.
Proof.
  assert (Hx : ∀ X s1, framex X s s1 → tame s s1 ∧ workCh s1 = workCh s) by (intros X s1 F; split; [eauto|apply F]).
  destruct d as [|p|p|p|p|p|p enq|p]; simpl.
  - unfold popDue. destruct (closed s); [intros [= <- <-]; by split; [apply objs_tame|]|]. generalize (S (length (queue s))). intros fuel.
    assert (H : ∀ s0, objs (popDueLoop fuel now s0).2 = objs s0 ∧ workCh (popDueLoop fuel now s0).2 = workCh s0).
    { induction fuel as [|fuel IH]; intros s0; [done|]. cbn [popDueLoop]. destruct (PopDue now (queue s0)) as [[it q]|]; [|done].
      case_match; [|done]. by destruct (IH (set_queue q s0)) as [-> ->]. }
    destruct (H s) as [H1 H2]. destruct (popDueLoop fuel now s). intros [= <- <-]. split; [by apply objs_tame|done].
  - intros [= <- <-]. by split; [apply objs_tame|].
  - intros [= <- <-]. by split; [apply objs_tame|].
  - unfold claim. repeat case_match; intros [= <- <-]; (split; [|done]); first [by apply objs_tame|eapply framex_tame, framex_running].
  - intros [= <- <-]. apply (Hx (λ _, False)), frame_upd. intros j. by split.
  - intros [= <- <-]. apply (Hx (λ _, False)), frame_scheduleNext.
  - destruct b; case_match; try done; intros [= <- <-]; by split; [apply objs_tame|].
  - intros [= <- <-]. destruct (Hx (λ q, q = p) (dropRun p s)) as [H1 H2]; [|destruct b; by split].
    unfold dropRun. etrans; [|apply framex_release]. apply (framex_weaken (λ _, False)); [done|apply frame_stats].
Qed.
Lemma wstep_effect now r err w s w' s' : wstep now r err w s = Some (w', s') →
  tame s s' ∧ (w ≠ WIdle → workCh s' = workCh s).
Proof.
  assert (Hx : ∀ X s1, framex X s s1 → tame s s1 ∧ (w ≠ WIdle → workCh s1 = workCh s)) by (intros X s1 F; split; [eauto|intros _; apply F]).
  assert (H0 : frame s s) by done.
  destruct w; simpl; intros H; try (injection H as <- <-).
  - destruct (workCh s); [done|]. injection H as <- <-. split; [by apply objs_tame|done].
  - eapply Hx, frame_begin.
  - by eapply Hx.
  - eapply Hx, framex_release.
  - eapply Hx, frame_recordRun.
  - pose proof (frame_failAttempt p (countFailure err0 s)) as F. destruct (failAttempt p (countFailure err0 s)) as [[a ex] s1].
    injection H as <- <-. eapply Hx. etrans; [apply (frame_countFailure err0)|exact F].
  - eapply Hx, frame_setState.
  - eapply Hx, frame_pushRetry.
  - case_match; [eapply Hx, frame_setState|by eapply Hx].
  - eapply Hx, frame_dead.
  - case_match; [eapply Hx, frame_scheduleNext|by eapply Hx].
  - case_match; [eapply Hx, frame_storeDelete|by eapply Hx].
  - eapply Hx, frame_deps.
  - eapply Hx, frame_dependentsFail.
  - pose proof (frame_success p now s) as F. destruct (executeSuccess p now s) as [[pend maxed] s1]. injection H as <- <-. by eapply Hx.
  - eapply Hx, frame_queuePending.
  - case_match; [eapply Hx, frame_scheduleNext|by eapply Hx].
  - case_match; [eapply Hx, frame_storeDelete|by eapply Hx].
  - eapply Hx, frame_trigger.
  - eapply Hx, frame_retire.
Qed.

Lemma step_canceled m m' p j : wf (sch m) → step m m' → objs (sch m) !! p = Some j → canceled j = true →
  ∃ j', objs (sch m') !! p = Some j' ∧ canceled j' = true.
Proof.
  intros W Hs E Hc. assert (Ht : tame (sch m) (sch m')).
  { destruct Hs as [now [c|r b d' s' _ Hd|i r err w w' s' _ Ew Hw]]; simpl.
    - intros q j0 E0. destruct (ev_obj _ _ (evolves_api now c (sch m) Logic.I W) q j0 E0) as (j' & E' & K & _). by exists j'.
    - by eapply dstep_effect.
    - by eapply wstep_effect. }
  destruct (Ht p j E) as (j' & E' & K). exists j'. split; [done|by apply (k_canceled _ _ K)].
Qed.

Lemma running_insert p (ws : list worker) i w w' : ws !! i = Some w →
  (length (filter (λ w, runs p w = true) (<[i := w']> ws)) + b2n (runs p w) =
   length (filter (λ w, runs p w = true) ws) + b2n (runs p w'))%nat.
Proof.
  intros E. assert (Hs : ∀ l, length (filter (λ w, runs p w = true) l) = sum_list_with (λ w, b2n (runs p w)) l).
  { induction l as [|x l IH]; [done|]. rewrite filter_cons. simpl. rewrite <-IH. destruct (runs p x); simpl; done. }
  rewrite !Hs. by apply (worker_sum_insert (λ w, b2n (runs p w))).
Qed.

Lemma ahead_disp p m d' s' now r b j : objs (sch m) !! p = Some j → canceled j = true →
  dstep now r b (disp m) (sch m) = Some (d', s') → (ahead p (MkM s' d' (workers m)) ≤ ahead p m)%nat.
Proof.
  intros E Hc Hd. destruct (dstep_effect _ _ _ _ _ _ _ Hd) as [_ Hw]. unfold ahead. simpl.
  cut (dahead p d' + rslot p (workCh s') ≤ dahead p (disp m) + rslot p (workCh (sch m)))%nat; [lia|].
  destruct (disp m) as [|q|q|q|q|q|q enq|q]; simpl in Hd, Hw.
  - rewrite Hw. destruct (popDue now (sch m)) as [[it|] s1]; injection Hd as <- <-; simpl; lia.
  - injection Hd as <- <-. destruct (decide (q = p)) as [->|Hq]; [rewrite E, Hc; simpl; lia|].
    destruct (objs (sch m) !! q) as [j'|]; [|done]. destruct (canceled j'); simpl; [lia|]. by rewrite bool_decide_eq_false_2.
  - injection Hd as <- <-. destruct (objs (sch m) !! q) as [j'|]; simpl; [|lia]. destruct (paused j'); simpl; lia.
  - rewrite Hw. unfold claim in Hd. repeat case_match; injection Hd as <- <-; simpl; lia.
  - injection Hd as <- <-. simpl. lia.
  - rewrite Hw. injection Hd as <- <-. simpl. lia.
  - destruct b; case_match; try done; injection Hd as <- <-; simpl; [|lia|lia].
    unfold rslot. rewrite sum_list_with_app. simpl. lia.
  - rewrite Hw. injection Hd as <- <-. case_match; simpl; lia.
Qed.

Lemma ahead_worker p m i w w' s' now r err : workers m !! i = Some w → wstep now r err w (sch m) = Some (w', s') →
  let m' := MkM s' (disp m) (<[i := w']> (workers m)) in
  (running_now p m' - running_now p m + ahead p m' ≤ ahead p m)%nat.
Proof.
  intros Ew Hw m'. pose proof (running_insert p (workers m) i w w' Ew) as Hr. pose proof (worker_sum_insert (wahead p) (workers m) i w w' Ew) as Ha.
  unfold ahead, running_now, m'. simpl. assert (Hw0 : w = WIdle ∨ w ≠ WIdle) by (destruct w; (by left) || (by right)).
  destruct Hw0 as [->|Hne].
  - simpl in Hw. destruct (workCh (sch m)) as [|x rest]; [done|]. injection Hw as <- <-. unfold rslot in *. simpl in *. lia.
  - rewrite (proj2 (wstep_effect _ _ _ _ _ _ _ Hw) Hne). clear m'.
    assert (Hcase : (wahead p w' = 0%nat ∧ (b2n (runs p w') ≤ b2n (runs p w) + wahead p w)%nat)).
    { destruct w; simpl in Hw; try done; repeat (case_match; try done); injection Hw as <- <-; simpl; repeat case_match; simpl; try done; lia. }
    lia.
Qed.

(** C14: cancellation is final: whatever happens after a job is cancelled, it stays
    cancelled, and its task is entered at most as often as there were runs already past the
    run loop's check, so never again once those are through. *)
Theorem sched_cancel_final c store dl m p j n m' : reachable c store dl m → objs (sch m) !! p = Some j → canceled j = true →
  execution p m n m' →
  (n + ahead p m' ≤ ahead p m)%nat ∧ ∃ j', objs (sch m') !! p = Some j' ∧ canceled j' = true.
Proof.
  intros Hr E Hc He. cut (reachable c store dl m' ∧ (n + ahead p m' ≤ ahead p m)%nat ∧ ∃ j', objs (sch m') !! p = Some j' ∧ canceled j' = true);
    [tauto|].
  induction He as [|n m1 m2 He (Hr1 & Hle & j1 & E1 & Hc1) Hs]; [by split_and!; [done|lia|exists j]|].
  split; [by eapply rtc_r|]. pose proof (inv_reachable c store dl m1 Hr1) as I1.
  assert (Hle2 : (running_now p m2 - running_now p m1 + ahead p m2 ≤ ahead p m1)%nat).
  { destruct Hs as [now [a|r b d' s' _ Hd|i r err w w' s' _ Ew Hw]].
    - pose proof (ev_work _ _ (evolves_api now a (sch m1) Logic.I (in_wf _ _ _ I1))) as Eq. unfold ahead, running_now. simpl. rewrite Eq. lia.
    - pose proof (ahead_disp p m1 d' s' now r b j1 E1 Hc1 Hd). unfold running_now. simpl. lia.
    - by eapply ahead_worker. }
  split; [lia|]. eapply step_canceled; [apply I1|done..].
Qed.
End runs.

(** ** Playing a schedule of steps *)

Inductive act {Task : Type} := AApi (now : Z) (c : call (Task := Task)) | ADisp (now r : Z) (b : branch) | AWork (i : nat) (now r : Z) (err : option taskErr).

Section play.
Context {Task St : Type} `{!Store St}.
Implicit Types (m : machine (Task := Task) (St := St)).

Definition play1 (a : act) m : option machine :=
  match a with
  | AApi now c => Some (MkM (api now c (sch m)) (disp m) (workers m))
  | ADisp now r b =>
      if started (sch m) then '(d, s) ← dstep now r b (disp m) (sch m); Some (MkM s d (workers m)) else None
  | AWork i now r err =>
      if started (sch m) then
        w ← workers m !! i; '(w', s) ← wstep now r err w (sch m); Some (MkM s (disp m) (<[i := w']> (workers m)))
      else None
  end.
Fixpoint play (acts : list act) m : option machine :=
  match acts with
  | [] => Some m
  | a :: acts => m ← play1 a m; play acts m
  end.

Definition readingOf (a : act (Task := Task)) : Z := match a with AApi now _ | ADisp now _ _ | AWork _ now _ _ => now end.

Lemma play1_at a m m' : play1 a m = Some m' → step_at (readingOf a) m m'.
Proof.
  destruct a as [now c|now r b|i now r err]; simpl; [intros [= <-]; apply step_api|..]; destruct (started (sch m)) eqn:Es; try done.
  - destruct (dstep now r b (disp m) (sch m)) as [[d s]|] eqn:E; [|done]. cbn [mbind option_bind]. intros [= <-]. by eapply step_disp.
  - destruct (workers m !! i) as [w|] eqn:Ew; [|done]. cbn [mbind option_bind]. destruct (wstep now r err w (sch m)) as [[w' s]|] eqn:E; [|done].
    cbn [mbind option_bind]. intros [= <-]. by eapply step_worker.
Qed.
Lemma play1_step a m m' : play1 a m = Some m' → step m m'.
Proof. intros H. eexists. by apply play1_at. Qed.
Lemma play_timed (T : Z → Prop) acts m m' : Forall (λ a, T (readingOf a)) acts → play acts m = Some m' →
  rtc (λ m m', ∃ now, T now ∧ step_at now m m') m m'.
Proof.
  intros HT. revert m. induction HT as [|a acts Ha _ IH]; intros m; simpl; [by intros [= <-]|].
  destruct (play1 a m) as [m1|] eqn:E; [|done]. cbn [mbind option_bind]. intros H.
  eapply rtc_l; [exists (readingOf a); by split; [|apply play1_at]|by apply IH].
Qed.
Lemma play_steps acts m m' : play acts m = Some m' → rtc step m m'.
Proof.
  intros H. eapply rtc_subrel; [|apply (play_timed (λ _, True) acts m m'); [by apply Forall_true|done]].
  intros m1 m2 (now & _ & Hs). by exists now.
Qed.
End play.

(** ** Concrete runs *)

(** Every five nanoseconds. *)
Definition every5 : Cron.CronSpec := Cron.MkSpec [] [] [] [] [] [] false false (Some 0) 5.
Definition tick : JobID := str "tick".
Definition twoWorkers : config := WithWorkers 2 (defaultConf (λ _, O)).
Definition start0 : machine (Task := unit) (St := MemoryStore) := initial twoWorkers None None.
Definition addTick (p : OverlapPolicy) : act := AApi 100 (CAdd tick jobKindCron (Some tt) every5 0 [WithOverlapPolicy p]).
(** Registered, due, dispatched, taken by a worker that enters the task. *)
Definition toTask (p : OverlapPolicy) : list act :=
  [addTick p; AApi 100 CStart; ADisp 105 0 BSend; ADisp 105 0 BSend; ADisp 105 0 BSend; ADisp 105 0 BSend; ADisp 105 0 BSend;
   AWork 0 106 0 None; AWork 0 106 0 None].
(** Triggered by hand while it runs; the run loop finds the flag up. *)
Definition twice (p : OverlapPolicy) : list act :=
  toTask p ++ [AApi 107 (CTrigger tick); ADisp 108 0 BSend; ADisp 108 0 BSend; ADisp 108 0 BSend; ADisp 108 0 BSend].

Definition dummy : job (Task := unit) := newJob tick jobKindCron tt every5 0 defaultJobOptions 0.
Definition after (acts : list act) : machine (Task := unit) (St := MemoryStore) := default start0 (play acts start0).
Definition jobOf (m : machine (Task := unit) (St := MemoryStore)) : job := default dummy (objs (sch m) !! 0%nat).
Lemma after_reachable acts : is_Some (play acts start0) → reachable twoWorkers None None (after acts).
Proof. intros [m E]. unfold after. rewrite E. simpl. by apply (play_steps acts). Qed.

Lemma sched_no_overlap_witness : let m := after (twice SkipIfRunning) in
  running_now 0 m = 1%nat ∧ (running_now 0 m + queued_now 0 m ≤ 1)%nat.
Proof.
  split; [vm_compute; reflexivity|].
  apply (sched_no_overlap twoWorkers None None (after (twice SkipIfRunning)) 0 (jobOf (after (twice SkipIfRunning)))).
  - apply after_reachable. vm_compute. by eexists.
  - vm_compute. reflexivity.
  - vm_compute. discriminate.
Defined.

(** An [@every] schedule has a next time always: the job is in the schedule or in hand. *)
Lemma sched_cron_kept_witness : let m := after (twice SerialQueue) in
  queue (sch m) = [] ∧ running (jobOf m) = true ∧
  (scheduled 0 (sch m) ∨ inHand 0 (disp m) (workCh (sch m)) (workers m)).
Proof.
  split; [vm_compute; reflexivity|]. split; [vm_compute; reflexivity|].
  destruct (sched_cron_kept twoWorkers None None (after (twice SerialQueue)) 0 (jobOf (after (twice SerialQueue))) (str "@every 5ns") None)
    as [H|[H|[H _]]]; [|vm_compute; reflexivity..|left; exact H|right; exact H|vm_compute in H; discriminate].
  apply (play_timed (λ t, Cron.zeroTime ≤ t) (twice SerialQueue)); [|vm_compute; reflexivity].
  repeat (apply List.Forall_cons; [vm_compute; discriminate|]). constructor.
Defined.

(** The schedule of the first run is superseded by a new expression. *)
Definition rescheduled : list act :=
  [addTick SkipIfRunning; AApi 100 (CUpdateCron tick (str "@every 3ns")); AApi 101 (CTrigger tick)].
Lemma sched_pops_earliest_witness : let m := after rescheduled in
  length (queue (sch m)) = 3%nat ∧ (siRunAt <$> (popDue 200 (sch m)).1) = Some 101 ∧
  (siRunAt <$> (popDue 200 (popDue 200 (sch m)).2).1) = Some 103 ∧
  ∀ y, y ∈ queue (sch m) → stale y (sch m) = false → y ∈ queue (popDue 200 (sch m)).2 ∨ (popDue 200 (sch m)).1 = Some y.
Proof.
  split; [vm_compute; reflexivity|]. split; [vm_compute; reflexivity|]. split; [vm_compute; reflexivity|].
  pose proof (sched_pops_earliest twoWorkers None None (after rescheduled) 200) as H.
  destruct (popDue 200 (sch (after rescheduled))) as [it s']. apply H; [|vm_compute; reflexivity].
  apply after_reachable. vm_compute. by eexists.
Defined.

(** [b] depends on [a]; making [a] depend on [b] is refused. *)
Definition jobA : JobID := str "a".
Definition jobB : JobID := str "b".
Definition pairAB : list act :=
  [AApi 1 (CAdd jobA jobKindDelay (Some tt) zeroSpec 9 []);
   AApi 2 (CAdd jobB jobKindDelay (Some tt) zeroSpec 9 [WithDependsOn DependencyFailureSkip [jobA]])].
Definition backEdge : list (JobOptions → JobOptions) := [ReplaceExisting; WithDependsOn DependencyFailureSkip [jobB]].
Lemma sched_acyclic_witness : let s := sch (after pairAB) in
  (addJob jobA jobKindDelay (Some tt) zeroSpec 9 backEdge 3 s).1 = Err (ErrDependencyCycle jobA) ∧
  (∃ d, d ∈ [jobB] ∧ rtc (edge s) d jobA) ∧ acyclic s.
Proof.
  pose proof (sched_acyclic twoWorkers None None (after pairAB) jobA jobKindDelay tt zeroSpec 9 backEdge 3) as H.
  destruct H as (H1 & H2); [apply after_reachable; vm_compute; by eexists|].
  assert (E : (addJob jobA jobKindDelay (Some tt) zeroSpec 9 backEdge 3 (sch (after pairAB))).1 = Err (ErrDependencyCycle jobA)) by (vm_compute; reflexivity).
  split; [exact E|]. split; [apply H2; [by vm_compute|vm_compute; reflexivity|by right|vm_compute; reflexivity|exact E]|exact H1].
Defined.

(** Cancelled while its request is queued: that run still happens, and no other. *)
Definition lateCancel : list act :=
  [addTick SkipIfRunning; AApi 100 CStart; ADisp 105 0 BSend; ADisp 105 0 BSend; ADisp 105 0 BSend; ADisp 105 0 BSend; ADisp 105 0 BSend;
   AApi 106 (CCancel tick)].
Lemma sched_cancel_final_witness : ∃ m' : machine (Task := unit) (St := MemoryStore), (1 + ahead 0 m' ≤ ahead 0 (after lateCancel))%nat ∧ ahead 0 (after lateCancel) = 1%nat ∧
  running_now 0 m' = 1%nat.
Proof.
  set (m := after lateCancel). destruct (play1 (AWork 0 107 0 None) m) as [m1|] eqn:E1; [|vm_compute in E1; discriminate].
  destruct (play1 (AWork 0 107 0 None) m1) as [m2|] eqn:E2; [|revert E2; vm_compute in E1; injection E1 as <-; vm_compute; discriminate].
  assert (R : running_now 0 m = 0%nat ∧ running_now 0 m1 = 0%nat ∧ running_now 0 m2 = 1%nat).
  { vm_compute in E1. injection E1 as <-. vm_compute in E2. injection E2 as <-. split; [|split]; vm_compute; reflexivity. }
  destruct R as (R0 & R1 & R2). exists m2. split; [|split; [vm_compute; reflexivity|exact R2]].
  pose proof (execution_snoc 0 m 0 m m1 (execution_nil 0 m) (play1_step _ _ _ E1)) as X1.
  pose proof (execution_snoc 0 m _ m1 m2 X1 (play1_step _ _ _ E2)) as X2. rewrite R0, R1, R2 in X2. simpl in X2.
  apply (sched_cancel_final twoWorkers None None m 0 (jobOf m) 1 m2); [|vm_compute; reflexivity|vm_compute; reflexivity|exact X2].
  apply after_reachable. vm_compute. by eexists.
Defined.

(** ** Where the code departs from its intent

    Concrete runs of the model that show what the code does in corner cases its
    documentation describes otherwise. *)
Module Findings.
Abbreviation S0 := (Scheduler (Task := unit) (St := MemoryStore)) (only parsing).
Definition fresh : S0 := New (defaultConf (λ _, O)) None (Some 0).
Definition addDelay (id : String.string) (opts : list (JobOptions → JobOptions)) (s : S0) : S0 :=
  (Delay (str id) 5 (Some tt) opts 100 s).2.
Definition jobNamed (id : String.string) (s : S0) : option (job (Task := unit)) := snd <$> findJob (str id) s.
Definition isCanceledJob (id : String.string) (s : S0) : option bool := canceled <$> jobNamed id s.
Definition boom : taskErr := MkErr (str "boom") false false.

(** *** Dependents *)

(** Cancelling a job with three dependents that should be cancelled with it skips the
    second: the cleanup after the first one shifts the shared array under the loop. *)
Definition threeDependents : S0 :=
  let on_a := [WithDependsOn DependencyFailureCancel [str "a"]] in
  addDelay "d" on_a (addDelay "c" on_a (addDelay "b" on_a (addDelay "a" [] fresh))).
Lemma cancel_skips_dependent : let s := (Cancel (str "a") 101 threeDependents).2 in
  isCanceledJob "a" s = Some true ∧ isCanceledJob "b" s = Some true ∧ isCanceledJob "c" s = Some false ∧ isCanceledJob "d" s = Some true.
Proof. vm_compute. done. Qed.

(** Replacing a job forgets who depends on it: the dependent is not started when the new
    job succeeds. *)
Definition replacedDependency : S0 :=
  let s := addDelay "b" [WithDependsOn DependencyFailureContinue [str "a"; str "x"]] (addDelay "x" [] (addDelay "a" [] fresh)) in
  let s := execute 1 100 106 106 0 None s in
  addDelay "a" [ReplaceExisting] s.
Lemma replaced_dependency_forgotten :
  let s := execute 3 100 107 107 0 None replacedDependency in
  dependencyStatus (deps s) !! str "a" = Some true ∧ dependencyStatus (deps s) !! str "x" = Some true ∧
  length (filter (λ it, siJob it = 2%nat) (queue s)) = length (filter (λ it, siJob it = 2%nat) (queue replacedDependency)) ∧
  dependentsOf (str "a") (deps s) = [].
Proof. vm_compute. done. Qed.

(** Resuming a paused job starts it although its dependency has not run. *)
Lemma resume_ignores_dependencies :
  let s := addDelay "b" [WithDependsOn DependencyFailureSkip [str "a"]] (addDelay "a" [] fresh) in
  let s := (Resume (str "b") 102 (Pause (str "b") s).2).2 in
  dependencyStatus (deps s) !! str "a" = None ∧ (siJob <$> queue s) = [0%nat; 1%nat] ∧ Forall (λ it, stale it s = false) (queue s).
Proof. vm_compute. split; [done|]. split; [done|]. repeat constructor. Qed.

(** *** Retries *)

(** Once a cron job has used up its retries, the count is not reset: its next scheduled
    run that fails is not retried, but goes to the dead letters at once. *)
Definition retrying : S0 :=
  (addJob (str "t") jobKindCron (Some tt) every5 0 [WithRetryPolicy (RetryFixed 3 1)] 100 fresh).2.
Definition failRun (now : Z) (s : S0) : S0 := execute 0 now now now 0 (Some boom) s.
Lemma exhausted_retries_never_again :
  let s3 := failRun 108 (failRun 107 (failRun 106 retrying)) in
  retry (stats s3) = 2 ∧ retry (stats (failRun 113 s3)) = 2 ∧ nextAttempt <$> jobNamed "t" s3 = Some 3.
Proof. vm_compute. done. Qed.

(** *** Schedules without a next time *)

(** February has no 30th. *)
Lemma february_30 l : GoTime.Month l = 2 → Day l ≠ 30.
Proof.
  intros Hm. unfold Day, GoTime.Month, Year in *. destruct (monthOf_bounds (dayOf l)) as (_ & _ & H). rewrite Hm in *.
  unfold dayStart, daysBeforeMonth in *. destruct (isLeap (yearOf (dayOf l))); simpl in *; lia.
Qed.
Definition feb30 : Cron.CronSpec := Cron.MkSpec [0] [0] [0] [30] [2] [0; 1; 2; 3; 4; 5; 6] false true (Some 0) 0.
Lemma feb30_parsed : Cron.ParseCronSpec (str "0 0 30 2 *") = Some (Ok feb30).
Proof. vm_compute. reflexivity. Qed.
Lemma feb30_never after : Cron.Next feb30 after = Cron.zeroTime.
Proof.
  assert (Hok : spec_ok feb30) by (split; apply field_ok_check; reflexivity).
  destruct (Next_cases feb30 after Hok eq_refl) as [(u & _ & _ & Hm & _)|[H _]]; [|exact H]. exfalso.
  destruct Hm as (Hmo & Hd & _). unfold day_selected in Hd. simpl in Hmo, Hd.
  apply list_elem_of_singleton in Hmo. apply list_elem_of_singleton in Hd. by apply (february_30 _ Hmo).
Qed.

(** A cron job whose expression never matches is put into the schedule at the zero time,
    so it runs at once. *)
Lemma never_matching_runs_at_once now : 0 ≤ now →
  let s := (addJob (str "t") jobKindCron (Some tt) feb30 0 [] now fresh).2 in
  siJob <$> (popDue now s).1 = Some 0%nat.
Proof.
  intros Hn s. assert (E : queue s = [MkItem Cron.zeroTime 0 1] ∧ closed s = false ∧ version <$> objs s !! 0%nat = Some 1).
  { unfold s, addJob. rewrite decide_False by done. unfold newJob. rewrite feb30_never. vm_compute. done. }
  destruct E as (Eq & Ec & Ev). unfold popDue. rewrite Ec, Eq. cbn [length popDueLoop]. rewrite Eq. unfold PopDue. cbn [siRunAt].
  rewrite (proj2 (Z.ltb_ge now Cron.zeroTime)) by (unfold Cron.zeroTime; lia).
  change (heapPop [MkItem Cron.zeroTime 0 1]) with (Some (MkItem Cron.zeroTime 0 1, @nil scheduleItem)). cbv iota zeta beta.
  assert (Hst : stale (MkItem Cron.zeroTime 0 1) (set_queue [] s) = false).
  { unfold stale. cbn [siJob siVersion]. change (objs (set_queue [] s)) with (objs s). destruct (objs s !! 0%nat); [|done].
    simpl in Ev. injection Ev as ->. done. }
  by rewrite Hst.
Qed.

(** A refused update has already replaced the expression: the job's next reschedule finds
    no time and it stops. *)
Lemma update_refused (s : S0) p j now : closed s = false → jobs s !! str "t" = Some p → objs s !! p = Some j →
  canceled j = false → kind j = jobKindCron → Cron.location (cron j) = Some 0 →
  ∃ s', UpdateCron (str "t") (str "0 0 30 2 *") now s = Some (Some ErrNoFutureRun, s') ∧
        cron <$> jobNamed "t" s' = Some feb30 ∧ ∀ base r, scheduleNext p base now r s' = s'.
Proof.
  intros Hcl Hj Ej Ec Ek El. assert (Ep : Cron.ParseCronSpecWithLocation (str "0 0 30 2 *") (Some 0) = Some (Ok feb30)) by (vm_compute; reflexivity).
  assert (Ef : findJob (str "t") s = Some (p, j)) by (unfold findJob; rewrite Hj; cbn [mbind option_bind]; by rewrite Ej).
  unfold UpdateCron. rewrite Hcl, Ef, Ec, Ek, decide_False, El, Ep, feb30_never by done. rewrite Z.eqb_refl.
  eexists. split; [reflexivity|]. set (f := λ j, set_cronExpr _ _). assert (E' : objs (updJob p f s) !! p = Some (f j)) by (by apply updJob_Some).
  assert (Ef' : findJob (str "t") (updJob p f s) = Some (p, f j)).
  { unfold findJob. change (jobs (updJob p f s)) with (jobs s). rewrite Hj. cbn [mbind option_bind]. by rewrite E'. }
  split; [unfold jobNamed; by rewrite Ef'|]. intros base r. unfold scheduleNext. rewrite E'.
  change (closed (updJob p f s)) with (closed s). unfold f. cbn [canceled kind cron set_cronExpr set_cron].
  by rewrite Hcl, Ec, Ek, feb30_never, Z.eqb_refl.
Qed.
Definition ticking : S0 := (addJob (str "t") jobKindCron (Some tt) every5 0 [] 100 fresh).2.
Lemma refused_update_stops_job now :
  ∃ s', UpdateCron (str "t") (str "0 0 30 2 *") now ticking = Some (Some ErrNoFutureRun, s') ∧
        cron <$> jobNamed "t" s' = Some feb30 ∧ ∀ base r, scheduleNext 0 base now r s' = s'.
Proof.
  apply (update_refused ticking 0 (set_version 1 (setState JobStateScheduled 100 (newJob (str "t") jobKindCron tt every5 0 defaultJobOptions 100))));
    vm_compute; reflexivity.
Qed.

(** *** Runs that nobody counts *)

(** A job that may overlap itself never has its running flag up, so [Health] and the job's
    status do not see its runs. *)
Lemma concurrent_runs_not_counted c store dl (m : machine (Task := unit) (St := MemoryStore)) p j : reachable c store dl m →
  objs (sch m) !! p = Some j → Overlap (opts j) = AllowConcurrent → running j = false.
Proof.
  intros Hr E Ho. pose proof (in_excl _ _ _ (inv_reachable c store dl m Hr) p j E) as Hx. unfold exclusive, guarded in Hx. by rewrite Ho in Hx.
Qed.

(** *** Persistence *)

(** Of a persisted chain [c] on [b] on [a], [c] is lost when the store lists it before
    [b]; the walk of a map decides. *)
Definition named (id : String.string) (ds : list JobID) (s : S0) : S0 :=
  addDelay id (WithTaskName (str "task") :: match ds with [] => [] | _ => [WithDependsOn DependencyFailureSkip ds] end) s.
Definition chain (walk : list JobID) : S0 :=
  named "c" [str "b"] (named "b" [str "a"] (named "a" [] (New (defaultConf (λ _, O)) (Some (NewMemoryStore walk)) None))).
Definition restarted (s : S0) : S0 :=
  loadPersisted 200 (RegisterTask (str "task") (Some tt) (New (defaultConf (λ _, O)) (st s) None)).2.
Lemma persisted_chain_lost :
  jobs (restarted (chain [str "a"; str "b"; str "c"])) !! str "c" = Some 2%nat ∧
  jobs (restarted (chain [str "a"; str "c"; str "b"])) !! str "c" = None.
Proof. vm_compute. done. Qed.

(** A job that was paused when it was persisted runs after a restart. *)
Lemma persisted_pause_lost :
  let s := addDelay "p" [WithTaskName (str "task"); WithPaused] (New (defaultConf (λ _, O)) (Some (NewMemoryStore [])) None) in
  queue s = [] ∧ paused <$> jobNamed "p" s = Some true ∧
  paused <$> jobNamed "p" (restarted s) = Some false ∧ length (queue (restarted s)) = 1%nat.
Proof. vm_compute. done. Qed.
End Findings.
