(* ===== verification/CircuitBreaker.v ===== *)
(** * The circuit breaker ([x/resilience/circuitbreaker/circuitbreaker.go])

    Counters are uint64 with wrap-around, rates are IEEE binary64 (the Standard
    Library's [SpecFloat]), and the clock is an explicit argument: the time in
    nanoseconds at which an operation runs. [beforeRequest] and [afterRequest]
    are separate operations, so that several calls can be in flight. *)

From stdpp Require Import options.
From Stdlib Require Import SpecFloat.
From S2P Require Import Prelude GoStrings GoNumbers.

Module CircuitBreaker.

Definition float_half : float64 := float_div (float_of_Z 1) (float_of_Z 2).

(** ** Data *)

Inductive State := StateClosed | StateOpen | StateHalfOpen.
#[export] Instance State_eq_dec : EqDecision State.
Proof. solve_decision. Defined.

Record Counts := mkCounts {
  c_Requests : Z;
  c_Successes : Z;
  c_Failures : Z;
  ConsecutiveSuccesses : Z;
  ConsecutiveFailures : Z;
}.

Definition FailureRate (c : Counts) : float64 :=
  if (c_Requests c =? 0)%Z then float_zero
  else float_div (float_of_Z (c_Failures c)) (float_of_Z (c_Requests c)).

(** [OnStateChange] is represented by whether it is set. *)
Record Config := mkConfig {
  cfg_Name : gostring;
  FailureThreshold : float64;
  SuccessThreshold : Z;
  Timeout : Z;
  MinRequests : Z;
  MaxRequests : Z;
  OnStateChange : bool;
  ShouldTrip : option (Counts → bool);
}.

(** [hooks] is the list of state-change callbacks started so far. *)
Record CircuitBreaker := mkCB {
  config : Config;
  state : State;
  stateChanged : Z;
  requests : Z;
  failures : Z;
  successes : Z;
  halfOpenRequests : Z;
  halfOpenSuccesses : Z;
  hooks : list (State * State);
}.
Implicit Types (cb : CircuitBreaker) (now : Z).

Definition second : Z := 1000000000.

Definition applyDefaults (c : Config) : Config :=
  {| cfg_Name := if decide (cfg_Name c = []) then str "circuit-breaker" else cfg_Name c;
     FailureThreshold := if SFeqb (FailureThreshold c) float_zero then float_half
                         else FailureThreshold c;
     SuccessThreshold := if (SuccessThreshold c =? 0)%Z then 3 else SuccessThreshold c;
     Timeout := if (Timeout c =? 0)%Z then 30 * second else Timeout c;
     MinRequests := if (MinRequests c =? 0)%Z then 10 else MinRequests c;
     MaxRequests := if (MaxRequests c =? 0)%Z then 1 else MaxRequests c;
     OnStateChange := OnStateChange c; ShouldTrip := ShouldTrip c |}.

Definition New (c : Config) now : CircuitBreaker :=
  {| config := applyDefaults c; state := StateClosed; stateChanged := now; requests := 0;
     failures := 0; successes := 0; halfOpenRequests := 0; halfOpenSuccesses := 0; hooks := [] |}.

(** ** Operations *)

Definition setState (newState : State) now cb : CircuitBreaker :=
  if decide (state cb = newState) then cb
  else
    {| config := config cb; state := newState; stateChanged := now;
       requests := if decide (newState = StateClosed) then 0 else requests cb;
       failures := if decide (newState = StateClosed) then 0 else failures cb;
       successes := if decide (newState = StateClosed) then 0 else successes cb;
       halfOpenRequests := if decide (newState = StateHalfOpen) then 0 else halfOpenRequests cb;
       halfOpenSuccesses := if decide (newState = StateHalfOpen) then 0 else halfOpenSuccesses cb;
       hooks := if OnStateChange (config cb) then hooks cb ++ [(state cb, newState)] else hooks cb |}.

Definition CountsOf cb : Counts :=
  {| c_Requests := requests cb; c_Successes := successes cb; c_Failures := failures cb;
     ConsecutiveSuccesses := halfOpenSuccesses cb; ConsecutiveFailures := 0 |}.

Definition checkShouldOpen now cb : CircuitBreaker :=
  if (requests cb <? MinRequests (config cb))%Z then cb
  else
    let counts := CountsOf cb in
    match ShouldTrip (config cb) with
    | Some trip => if trip counts then setState StateOpen now cb else cb
    | None =>
        if float_geb (FailureRate counts) (FailureThreshold (config cb))
        then setState StateOpen now cb else cb
    end.

Inductive cbErr := ErrCircuitOpen | ErrTooManyRequests.

Definition beforeRequest now cb : option cbErr * CircuitBreaker :=
  match state cb with
  | StateClosed => (None, cb)
  | StateOpen =>
      if (Timeout (config cb) <=? now - stateChanged cb)%Z
      then (None, setState StateHalfOpen now cb)
      else (Some ErrCircuitOpen, cb)
  | StateHalfOpen =>
      if (MaxRequests (config cb) <=? halfOpenRequests cb)%Z
      then (Some ErrTooManyRequests, cb) else (None, cb)
  end.

(** The counters of the closed state after one result. *)
Definition countResult (failed : bool) cb : CircuitBreaker :=
  {| config := config cb; state := state cb; stateChanged := stateChanged cb;
     requests := wrapu64 (requests cb + 1);
     failures := if failed then wrapu64 (failures cb + 1) else failures cb;
     successes := if failed then successes cb else wrapu64 (successes cb + 1);
     halfOpenRequests := halfOpenRequests cb; halfOpenSuccesses := halfOpenSuccesses cb;
     hooks := hooks cb |}.

(** The counters of the half-open state after one result. *)
Definition countHalfOpen (failed : bool) cb : CircuitBreaker :=
  {| config := config cb; state := state cb; stateChanged := stateChanged cb;
     requests := requests cb; failures := failures cb; successes := successes cb;
     halfOpenRequests := wrapu64 (halfOpenRequests cb + 1);
     halfOpenSuccesses := if failed then halfOpenSuccesses cb
                          else wrapu64 (halfOpenSuccesses cb + 1);
     hooks := hooks cb |}.

Definition afterRequest (failed : bool) now cb : CircuitBreaker :=
  match state cb with
  | StateClosed =>
      let cb := countResult failed cb in
      if failed then checkShouldOpen now cb else cb
  | StateHalfOpen =>
      let cb := countHalfOpen failed cb in
      if failed then setState StateOpen now cb
      else if (SuccessThreshold (config cb) <=? halfOpenSuccesses cb)%Z
      then setState StateClosed now cb else cb
  | StateOpen => cb
  end.

(** What a caller of [Call] sees: the breaker refused, or the function ran with
    this result. *)
Inductive callResult := Rejected (e : cbErr) | Ran (failed : bool).

(** [Call] with a function whose outcome is [failed], entered at [t1] and
    finished at [t2]. *)
Definition Call (failed : bool) (t1 t2 : Z) cb : callResult * CircuitBreaker :=
  match beforeRequest t1 cb with
  | (Some e, cb) => (Rejected e, cb)
  | (None, cb) => (Ran failed, afterRequest failed t2 cb)
  end.

(** [CallWithContext]: [ctxErr] is whether the context is already done. *)
Definition CallWithContext (ctxErr failed : bool) (t1 t2 : Z) cb : option callResult * CircuitBreaker :=
  if ctxErr then (None, cb) else let '(r, cb) := Call failed t1 t2 cb in (Some r, cb).

Definition Reset now cb : CircuitBreaker := setState StateClosed now cb.
Definition Trip now cb : CircuitBreaker := setState StateOpen now cb.

(** ** The state machine *)

(** Operations of any number of concurrent callers: a request enters, a request
    finishes, or the breaker is operated by hand. *)
Inductive cb_step : CircuitBreaker → CircuitBreaker → Prop :=
| s_before now cb : cb_step cb (snd (beforeRequest now cb))
| s_after failed now cb : cb_step cb (afterRequest failed now cb)
| s_reset now cb : cb_step cb (Reset now cb)
| s_trip now cb : cb_step cb (Trip now cb).

Inductive cb_reach (c : Config) (t0 : Z) : CircuitBreaker → Prop :=
| r_new : cb_reach c t0 (New c t0)
| r_step cb cb' : cb_reach c t0 cb → cb_step cb cb' → cb_reach c t0 cb'.

(** The callbacks form a path of the state machine from [from] to [to]. *)
Fixpoint hook_path (from : State) (l : list (State * State)) (to : State) : Prop :=
  match l with
  | [] => from = to
  | (a, b) :: l => a = from ∧ a ≠ b ∧ hook_path b l to
  end.

Lemma hook_path_snoc from l mid to :
  hook_path from l mid → mid ≠ to → hook_path from (l ++ [(mid, to)]) to.
Proof.
  revert from. induction l as [|[a b] l IH]; intros from; simpl.
  - by intros ->.
  - intros (-> & Hab & Hl) Hne. auto.
Qed.

Record cb_inv (c : Config) cb : Prop := {
  i_config : config cb = applyDefaults c;
  i_hooks : OnStateChange c = true → hook_path StateClosed (hooks cb) (state cb);
  i_sum : wrapu64 (successes cb + failures cb) = requests cb;
  i_range : (0 ≤ successes cb < 2 ^ 64)%Z ∧ (0 ≤ failures cb < 2 ^ 64)%Z;
}.

Lemma wrapu64_range z : (0 ≤ wrapu64 z < 2 ^ 64)%Z.
Proof. apply Z.mod_pos_bound. lia. Qed.
Lemma wrapu64_add_l x y : wrapu64 (wrapu64 x + y) = wrapu64 (x + y).
Proof. unfold wrapu64. apply Z.add_mod_idemp_l. lia. Qed.
Lemma wrapu64_small z : (0 ≤ z < 2 ^ 64)%Z → wrapu64 z = z.
Proof. apply Z.mod_small. Qed.

Lemma setState_inv c s now cb : cb_inv c cb → cb_inv c (setState s now cb).
Proof.
  intros [I1 I2 I3 I4]. unfold setState. destruct (decide (state cb = s)) as [<-|Hne]; [by split|].
  split; simpl; [done| | |].
  - intros Hh. rewrite I1. simpl. rewrite Hh. by apply hook_path_snoc; [apply I2|].
  - by case_decide.
  - case_decide; [lia|done].
Qed.

Lemma countResult_inv c failed cb : cb_inv c cb → cb_inv c (countResult failed cb).
Proof.
  intros [I1 I2 I3 [I4 I5]]. split; simpl; [done|done| |].
  - rewrite <- I3. destruct failed; rewrite wrapu64_add_l; [|].
    + unfold wrapu64 in *. rewrite Z.add_mod_idemp_r by lia. f_equal. lia.
    + rewrite wrapu64_add_l. f_equal. lia.
  - destruct failed; pose proof (wrapu64_range (failures cb + 1)); pose proof (wrapu64_range (successes cb + 1)); lia.
Qed.

Lemma countHalfOpen_inv c failed cb : cb_inv c cb → cb_inv c (countHalfOpen failed cb).
Proof. intros []. by split. Qed.

Lemma step_inv c cb cb' : cb_step cb cb' → cb_inv c cb → cb_inv c cb'.
Proof.
  intros [now x|failed now x|now x|now x] Hi; [| |by apply setState_inv..].
  - unfold beforeRequest. repeat case_match; simpl; auto using setState_inv.
  - unfold afterRequest. destruct (state x); [|done|].
    + destruct failed; [|by apply countResult_inv]. unfold checkShouldOpen.
      repeat case_match; auto using setState_inv, countResult_inv.
    + repeat case_match; auto using setState_inv, countHalfOpen_inv.
Qed.

Lemma reach_cb_inv c t0 cb : cb_reach c t0 cb → cb_inv c cb.
Proof.
  induction 1 as [|cb cb' _ IH Hs]; [|by eapply step_inv].
  split; simpl; [done|by intros|done|lia].
Qed.

(** In every state reachable by any interleaving of concurrent callers and
    manual resets and trips, the closed-state counters agree (requests are
    successes plus failures, as uint64) and the state-change callbacks form a
    connected path of genuine transitions from closed to the current state. *)
Theorem breaker_invariant c t0 cb :
  cb_reach c t0 cb → OnStateChange c = true →
  requests cb = wrapu64 (successes cb + failures cb) ∧
  hook_path StateClosed (hooks cb) (state cb).
Proof. intros Hr Hh. apply reach_cb_inv in Hr as [_ I2 I3 _]. auto. Qed.

(** ** Sequential calls *)

(** A sequence of calls: outcome, entry time, exit time. *)
Fixpoint calls (l : list (bool * Z * Z)) cb : list callResult * CircuitBreaker :=
  match l with
  | [] => ([], cb)
  | (failed, t1, t2) :: l =>
      let '(r, cb) := Call failed t1 t2 cb in
      let '(rs, cb) := calls l cb in (r :: rs, cb)
  end.








(** ** Recovery *)

Lemma half_open_successes l cb :
  state cb = StateHalfOpen → (0 ≤ halfOpenSuccesses cb)%Z →
  halfOpenRequests cb = halfOpenSuccesses cb →
  (halfOpenSuccesses cb + Z.of_nat (length l) = SuccessThreshold (config cb))%Z →
  (SuccessThreshold (config cb) ≤ MaxRequests (config cb))%Z →
  (SuccessThreshold (config cb) < 2 ^ 64)%Z → 0 < length l →
  Forall (λ x, fst (fst x) = false) l →
  let '(rs, cb') := calls l cb in
  rs = replicate (length l) (Ran false) ∧ state cb' = StateClosed ∧
  requests cb' = 0%Z ∧ failures cb' = 0%Z ∧ successes cb' = 0%Z.
Proof.
  revert cb. induction l as [|[[failed t1] t2] l IH]; intros cb Hst Hpos Hreq Hsum Hmax Hov Hl Hok;
    [simpl in Hl; lia|].
  apply Forall_cons in Hok as [Hf Hok]. simpl in Hf. subst failed. simpl length in *.
  cbn [calls]. unfold Call, beforeRequest. rewrite Hst.
  rewrite (proj2 (Z.leb_gt _ _)) by lia. unfold afterRequest. rewrite Hst. simpl.
  rewrite wrapu64_small by lia.
  destruct (Z.leb_spec (SuccessThreshold (config cb)) (halfOpenSuccesses cb + 1)) as [Hd|Hd].
  - destruct l; [|simpl length in *; lia]. simpl. unfold setState. simpl. by rewrite Hst.
  - assert (0 < length l) by (destruct l; simpl in *; lia).
    specialize (IH (countHalfOpen false cb)). simpl in IH. rewrite !wrapu64_small in IH by lia.
    destruct (calls l (countHalfOpen false cb)) as [rs cb']. destruct IH as (-> & ?); try done; lia.
Qed.

(** Recovery: an open breaker whose timeout has elapsed and whose
    SuccessThreshold does not exceed MaxRequests closes again, with fresh
    counters, after exactly SuccessThreshold successful calls, all of which are
    let through. *)
Theorem breaker_recovers cb t1 t2 l :
  state cb = StateOpen → (Timeout (config cb) ≤ t1 - stateChanged cb)%Z →
  (1 ≤ SuccessThreshold (config cb) ≤ MaxRequests (config cb))%Z →
  (SuccessThreshold (config cb) < 2 ^ 64)%Z →
  Z.of_nat (S (length l)) = SuccessThreshold (config cb) →
  Forall (λ x, fst (fst x) = false) l →
  let '(rs, cb') := calls ((false, t1, t2) :: l) cb in
  rs = replicate (S (length l)) (Ran false) ∧ state cb' = StateClosed ∧
  requests cb' = 0%Z ∧ failures cb' = 0%Z ∧ successes cb' = 0%Z.
Proof.
  intros Hst Ht [Hs1 Hs2] Hov Hlen Hok.
  pose proof (half_open_successes ((false, t1, t2) :: l) (setState StateHalfOpen t1 cb)) as Hh.
  assert (calls ((false, t1, t2) :: l) cb =
          calls ((false, t1, t2) :: l) (setState StateHalfOpen t1 cb)) as ->.
  { cbn [calls]. unfold Call, beforeRequest at 1. rewrite Hst.
    rewrite (proj2 (Z.leb_le _ _)) by done. unfold beforeRequest. unfold setState. rewrite Hst. simpl.
    by rewrite (proj2 (Z.leb_gt _ _)) by lia. }
  revert Hh. unfold setState. rewrite Hst. simpl. intros Hh. apply Hh; try done; try lia.
  by constructor.
Qed.

(** ** What the half-open state does not do *)

Lemma stuck_calls l cb :
  state cb = StateHalfOpen → (MaxRequests (config cb) ≤ halfOpenRequests cb)%Z →
  calls l cb = ((λ _, Rejected ErrTooManyRequests) <$> l, cb).
Proof.
  intros Hs Hm. induction l as [|[[failed t1] t2] l IH]; [done|]. cbn [calls].
  unfold Call, beforeRequest. rewrite Hs, (proj2 (Z.leb_le _ _)) by done. by rewrite IH.
Qed.

(** Everything left to its defaults. *)
Definition defaultConfig : Config :=
  {| cfg_Name := []; FailureThreshold := float_zero; SuccessThreshold := 0; Timeout := 0;
     MinRequests := 0; MaxRequests := 0; OnStateChange := false; ShouldTrip := None |}.

(** Ten failures at time 0, then one success after the timeout. *)
Definition default_outage : list (bool * Z * Z) :=
  replicate 10 (true, 0, 0)%Z ++ [(false, 30 * second, 30 * second)%Z].

(** With the default configuration a breaker that has opened once never
    recovers by itself: after the timeout one trial call succeeds, and from then on
    every call, whatever its time and outcome, is refused with
    ErrTooManyRequests. (The half-open request counter is never decremented and
    its limit, 1, is below the success threshold, 3.) *)
Theorem default_breaker_stuck later :
  let '(rs, cb) := calls default_outage (New defaultConfig 0) in
  last rs = Some (Ran false) ∧
  calls later cb = ((λ _, Rejected ErrTooManyRequests) <$> later, cb).
Proof.
  destruct (calls default_outage (New defaultConfig 0)) as [rs cb] eqn:E. vm_compute in E.
  injection E as <- <-. split; [done|]. by apply stuck_calls.
Qed.

Fixpoint enter (n : nat) now cb : list (option cbErr) :=
  match n with
  | O => []
  | S n => let '(e, cb) := beforeRequest now cb in e :: enter n now cb
  end.

(** MaxRequests does not bound the calls in flight: in a fresh half-open state
    any number of calls that have not finished yet are admitted. *)
Theorem half_open_admits_all n now cb :
  state cb = StateHalfOpen → (halfOpenRequests cb < MaxRequests (config cb))%Z →
  enter n now cb = replicate n None.
Proof.
  intros Hs Hm. induction n as [|n IH]; [done|]. simpl. unfold beforeRequest in *. rewrite Hs.
  rewrite (proj2 (Z.leb_gt _ _)) by lia. simpl. by rewrite IH.
Qed.

(** ** Witnesses *)

Lemma breaker_invariant_witness :
  let c := {| cfg_Name := []; FailureThreshold := float_zero; SuccessThreshold := 0; Timeout := 0;
              MinRequests := 1; MaxRequests := 0; OnStateChange := true; ShouldTrip := None |} in
  hook_path StateClosed (hooks (afterRequest true 5 (New c 0))) StateOpen.
Proof.
  intros c.
  assert (Hr : cb_reach c 0 (afterRequest true 5 (New c 0))).
  { apply (r_step c 0 (New c 0)); [constructor|constructor]. }
  exact (proj2 (breaker_invariant c 0 _ Hr eq_refl)).
Defined.


Definition opened : CircuitBreaker :=
  snd (calls (replicate 10 (true, 0, 0)%Z)
    (New {| cfg_Name := []; FailureThreshold := float_zero; SuccessThreshold := 2; Timeout := 0;
            MinRequests := 0; MaxRequests := 2; OnStateChange := false; ShouldTrip := None |} 0)).

Lemma breaker_recovers_witness :
  state (snd (calls [(false, 30 * second, 0)%Z; (false, 0, 0)%Z] opened)) = StateClosed.
Proof.
  pose proof (breaker_recovers opened (30 * second) 0 [(false, 0, 0)%Z]) as H.
  destruct (calls [(false, (30 * second)%Z, 0%Z); (false, 0%Z, 0%Z)] opened) as [rs cb'].
  apply H; try reflexivity; try (vm_compute; split; discriminate); try (vm_compute; discriminate).
  repeat constructor.
Defined.

Lemma half_open_admits_all_witness :
  enter 5 0 (setState StateHalfOpen 0 opened) = replicate 5 None.
Proof. apply (half_open_admits_all 5 0 (setState StateHalfOpen 0 opened)); vm_compute; reflexivity. Defined.

End CircuitBreaker.
