(* ===== verification/Semver.v ===== *)
(** * Semantic versions ([internal/semver/version.go])

    Parsing, printing, precedence, sorting and version constraints. The
    comparison functions return [Lt], [Eq], [Gt] for Go's -1, 0, 1. *)

From stdpp Require Import options.
From S2P Require Import Prelude GoStrings GoNumbers.

Module Semver.

Definition dot : gobyte := "."%char.
Definition minus : gobyte := "-"%char.
Definition plus : gobyte := "+"%char.

Record Version := mkVersion {
  Major : Z;
  Minor : Z;
  Patch : Z;
  Prerelease : gostring;
  Metadata : gostring;
  original : gostring;
}.
Implicit Types (v other : Version).

(** ** Parsing and printing *)

Inductive verErr :=
| EEmpty | EMetadata | EPrerelease | EFormat | EMajor | EMinor | EPatch.

Definition isIdentifierChar (r : gobyte) : bool :=
  (byte_leb "0" r && byte_leb r "9") || (byte_leb "A" r && byte_leb r "Z")
  || (byte_leb "a" r && byte_leb r "z") || byte_eqb r minus.

(** [true] when the list of identifiers is valid. *)
Definition validateIdentifierList (value : gostring) : bool :=
  negb (bool_decide (value = [])) &&
  forallb (λ part, negb (bool_decide (part = [])) && forallb isIdentifierChar part)
    (split_on dot value).

Definition parseNumber (e : verErr) (s : gostring) : result verErr Z :=
  match Atoi s with
  | Some n => if (n <? 0)%Z then Err e else Ok n
  | None => Err e
  end.

(** An optional trailing part: absent is fine, present it must be valid. *)
Definition parseIdent (e : verErr) (p : option gostring) : result verErr gostring :=
  match p with
  | None => Ok []
  | Some x => if validateIdentifierList x then Ok x else Err e
  end.

Definition parseCore (v : gostring) : result verErr (Z * Z * Z) :=
  (match split_on dot v with
   | [a] => let? x := parseNumber EMajor a in Ok (x, 0, 0)%Z
   | [a; b] =>
       let? x := parseNumber EMajor a in let? y := parseNumber EMinor b in Ok (x, y, 0)%Z
   | [a; b; c] =>
       let? x := parseNumber EMajor a in let? y := parseNumber EMinor b in
       let? z := parseNumber EPatch c in Ok (x, y, z)
   | _ => Err EFormat
   end)%go.

Definition Parse (s : gostring) : result verErr Version :=
  match s with
  | [] => Err EEmpty
  | b :: r =>
      let v := if decide (b = "v"%char ∨ b = "V"%char) then r else s in
      let '(v, meta) := split2_on plus v in
      (let? metadata := parseIdent EMetadata meta in
       let '(v, pre) := split2_on minus v in
       let? prerelease := parseIdent EPrerelease pre in
       let? core := parseCore v in
       let '(x, y, z) := core in
       Ok {| Major := x; Minor := y; Patch := z; Prerelease := prerelease;
             Metadata := metadata; original := s |})%go
  end.

(** [None] is the panic. *)
Definition MustParse (s : gostring) : option Version :=
  match Parse s with Ok v => Some v | Err _ => None end.

Definition String_ v : gostring :=
  let s := print_Z (Major v) ++ dot :: print_Z (Minor v) ++ dot :: print_Z (Patch v) in
  let s := if decide (Prerelease v ≠ []) then s ++ minus :: Prerelease v else s in
  if decide (Metadata v ≠ []) then s ++ plus :: Metadata v else s.

Definition NewVersion (major minor patch : Z) : Version :=
  {| Major := major; Minor := minor; Patch := patch; Prerelease := []; Metadata := [];
     original := print_Z major ++ dot :: print_Z minor ++ dot :: print_Z patch |}.

(** ** Precedence *)

Definition isNumericIdentifier (s : gostring) : bool :=
  negb (bool_decide (s = [])) && forallb is_digit s.

Definition stripZeros (s : gostring) : gostring :=
  let t := trim_left "0"%char s in if decide (t = []) then str "0" else t.

Definition compareNumericIdentifier (a b : gostring) : comparison :=
  let a := stripZeros a in
  let b := stripZeros b in
  if length b <? length a then Gt
  else if length a <? length b then Lt
  else str_cmp a b.

(** The loop over the identifiers; when one side runs out the longer one wins. *)
Fixpoint compareIdentifiers (aParts bParts : list gostring) : comparison :=
  match aParts, bParts with
  | [], [] => Eq
  | _ :: _, [] => Gt
  | [], _ :: _ => Lt
  | x :: a, y :: b =>
      if decide (x = y) then compareIdentifiers a b
      else match isNumericIdentifier x, isNumericIdentifier y with
           | true, true => compareNumericIdentifier x y
           | true, false => Lt
           | false, true => Gt
           | false, false => if str_ltb y x then Gt else Lt
           end
  end.

Definition comparePrerelease (a b : gostring) : comparison :=
  compareIdentifiers (split_on dot a) (split_on dot b).

Definition Compare v other : comparison :=
  if decide (Major v ≠ Major other) then
    if (Major other <? Major v)%Z then Gt else Lt
  else if decide (Minor v ≠ Minor other) then
    if (Minor other <? Minor v)%Z then Gt else Lt
  else if decide (Patch v ≠ Patch other) then
    if (Patch other <? Patch v)%Z then Gt else Lt
  else if bool_decide (Prerelease v = []) && bool_decide (Prerelease other ≠ []) then Gt
  else if bool_decide (Prerelease v ≠ []) && bool_decide (Prerelease other = []) then Lt
  else comparePrerelease (Prerelease v) (Prerelease other).

Definition Equal v other : bool := match Compare v other with Eq => true | _ => false end.
Definition GreaterThan v other : bool := match Compare v other with Gt => true | _ => false end.
Definition LessThan v other : bool := match Compare v other with Lt => true | _ => false end.
Definition GreaterThanOrEqual v other : bool := match Compare v other with Lt => false | _ => true end.
Definition LessThanOrEqual v other : bool := match Compare v other with Gt => false | _ => true end.
Definition IsPrerelease v : bool := negb (bool_decide (Prerelease v = [])).

(** ** Sorting *)

(** [c.Swap(i, j)]. *)
Definition Swap (i j : nat) (c : list Version) : list Version :=
  match c !! i, c !! j with Some x, Some y => <[j := x]> (<[i := y]> c) | _, _ => c end.
Definition Less (j i : nat) (c : list Version) : bool :=
  match c !! j, c !! i with Some x, Some y => LessThan x y | _, _ => false end.

(** [for j := ...; j < n; j++], with [n - j] rounds left. *)
Fixpoint sortInner (rounds i j : nat) (c : list Version) : list Version :=
  match rounds with
  | O => c
  | S rounds => sortInner rounds i (S j) (if Less j i c then Swap i j c else c)
  end.
Fixpoint sortOuter (rounds i : nat) (c : list Version) : list Version :=
  match rounds with
  | O => c
  | S rounds => sortOuter rounds (S i) (sortInner (length c - S i) i (S i) c)
  end.
Definition Sort (versions : list Version) : list Version := sortOuter (length versions) 0 versions.

(** ** Constraints *)

Inductive operator := OpEq | OpNe | OpGt | OpLt | OpGe | OpLe | OpCaret | OpTilde.
Record Constraint := mkConstraint { c_operator : operator; c_version : Version }.

Definition splitOperator (c : gostring) : operator * gostring :=
  match c with
  | a :: b :: r =>
      if decide (a = ">"%char ∧ b = "="%char) then (OpGe, trim_space r)
      else if decide (a = "<"%char ∧ b = "="%char) then (OpLe, trim_space r)
      else if decide (a = "!"%char ∧ b = "="%char) then (OpNe, trim_space r)
      else if decide (a = "="%char) then (OpEq, trim_space (b :: r))
      else if decide (a = ">"%char) then (OpGt, trim_space (b :: r))
      else if decide (a = "<"%char) then (OpLt, trim_space (b :: r))
      else if decide (a = "^"%char) then (OpCaret, trim_space (b :: r))
      else if decide (a = "~"%char) then (OpTilde, trim_space (b :: r))
      else (OpEq, c)
  | [a] =>
      if decide (a = "="%char) then (OpEq, [])
      else if decide (a = ">"%char) then (OpGt, [])
      else if decide (a = "<"%char) then (OpLt, [])
      else if decide (a = "^"%char) then (OpCaret, [])
      else if decide (a = "~"%char) then (OpTilde, [])
      else (OpEq, c)
  | [] => (OpEq, c)
  end.

(** [None] is "empty constraint", [Some e] an invalid version. *)
Definition ParseConstraint (c : gostring) : result (option verErr) Constraint :=
  let c := trim_space c in
  if decide (c = []) then Err None
  else
    let '(op, vstr) := splitOperator c in
    match Parse vstr with
    | Ok v => Ok {| c_operator := op; c_version := v |}
    | Err e => Err (Some e)
    end.

Definition Check_ (c : Constraint) v : bool :=
  let cv := c_version c in
  match c_operator c with
  | OpEq => Equal v cv
  | OpNe => negb (Equal v cv)
  | OpGt => GreaterThan v cv
  | OpLt => LessThan v cv
  | OpGe => GreaterThanOrEqual v cv
  | OpLe => LessThanOrEqual v cv
  | OpCaret =>
      if negb (GreaterThanOrEqual v cv) then false
      else if (0 <? Major cv)%Z then (Major v =? Major cv)%Z
      else if (0 <? Minor cv)%Z then (Major v =? Major cv)%Z && (Minor v =? Minor cv)%Z
      else (Major v =? Major cv)%Z && (Minor v =? Minor cv)%Z && (Patch v =? Patch cv)%Z
  | OpTilde =>
      if negb (GreaterThanOrEqual v cv) then false
      else (Major v =? Major cv)%Z && (Minor v =? Minor cv)%Z
  end.

End Semver.
