(* ===== verification/SemverFacts.v ===== *)
(** * Theorems about semantic versions *)

From stdpp Require Import options.
From S2P Require Import Prelude GoStrings GoNumbers Semver.
Import Semver.

(** ** Parse and print *)

(** The versions [Parse] produces. *)
Definition ident_ok (s : gostring) : Prop := s = [] ∨ validateIdentifierList s = true.
Record ver_ok (v : Version) : Prop := {
  ok_Major : (0 ≤ Major v < 2 ^ 63)%Z;
  ok_Minor : (0 ≤ Minor v < 2 ^ 63)%Z;
  ok_Patch : (0 ≤ Patch v < 2 ^ 63)%Z;
  ok_Prerelease : ident_ok (Prerelease v);
  ok_Metadata : ident_ok (Metadata v);
}.

Lemma digits_no_byte c s : is_digit c = false → Forall (λ b, is_digit b = true) s → c ∉ s.
Proof. intros Hc Hs Hin. rewrite Forall_forall in Hs. apply Hs in Hin. congruence. Qed.

Lemma print_no_byte c z : (0 ≤ z)%Z → is_digit c = false → c ∉ print_Z z.
Proof. intros. by apply digits_no_byte, print_Z_digits. Qed.

Lemma ident_no_plus s : validateIdentifierList s = true → plus ∉ s.
Proof.
  unfold validateIdentifierList. intros [_ Hf]%andb_true_iff Hin.
  rewrite <- (join_split dot s) in Hin.
  assert (∀ l : list gostring, plus ∈ join_with dot l → ∃ p, p ∈ l ∧ plus ∈ p) as Hj.
  { induction l as [|p l IH]; [set_solver|]. destruct l as [|q l]; [set_solver|].
    rewrite join_cons by done. rewrite elem_of_app, elem_of_cons.
    intros [?|[?|Hl]]; [set_solver|done|]. destruct (IH Hl) as (p' & ? & ?). exists p'. set_solver. }
  destruct (Hj _ Hin) as (p & Hp & Hx). rewrite forallb_forall in Hf.
  apply list_elem_of_In in Hp. apply Hf in Hp. apply andb_true_iff in Hp as [_ Hp].
  rewrite forallb_forall in Hp. apply list_elem_of_In in Hx. by apply Hp in Hx.
Qed.

Definition core_text (x y z : Z) : gostring := print_Z x ++ dot :: print_Z y ++ dot :: print_Z z.

Lemma parseNumber_print e z : (0 ≤ z < 2 ^ 63)%Z → parseNumber e (print_Z z) = Ok z.
Proof. intros Hz. unfold parseNumber. rewrite Atoi_print by done. by rewrite (proj2 (Z.ltb_ge _ _)) by lia. Qed.

Lemma parseCore_text x y z :
  (0 ≤ x < 2 ^ 63)%Z → (0 ≤ y < 2 ^ 63)%Z → (0 ≤ z < 2 ^ 63)%Z →
  parseCore (core_text x y z) = Ok (x, y, z).
Proof.
  intros Hx Hy Hz. unfold parseCore, core_text.
  rewrite !split_on_app by (apply print_no_byte; [lia|done]).
  rewrite split_on_no_sep by (apply print_no_byte; [lia|done]).
  by rewrite !parseNumber_print.
Qed.

Lemma core_text_no c x y z :
  (0 ≤ x)%Z → (0 ≤ y)%Z → (0 ≤ z)%Z → is_digit c = false → c ≠ dot → c ∉ core_text x y z.
Proof.
  intros Hx Hy Hz Hc Hd. unfold core_text. rewrite !not_elem_of_app, !not_elem_of_cons, !not_elem_of_app,
    !not_elem_of_cons. auto 10 using print_no_byte.
Qed.

(** The optional suffix [sep ++ s]. *)
Definition suffix (sep : gobyte) (s : gostring) : gostring := if decide (s ≠ []) then sep :: s else [].

Lemma split2_suffix sep a s :
  sep ∉ a → split2_on sep (a ++ suffix sep s) = (a, if decide (s ≠ []) then Some s else None).
Proof.
  intros Ha. unfold suffix. case_decide; [by apply split2_on_app|].
  rewrite app_nil_r. by apply split2_on_no_sep.
Qed.

Lemma parseIdent_suffix e s :
  ident_ok s → parseIdent e (if decide (s ≠ []) then Some s else None) = Ok s.
Proof.
  intros Hs. case_decide as Hn; simpl.
  - destruct Hs as [->|Hv]; [done|]. by rewrite Hv.
  - by rewrite Hn.
Qed.

Lemma String_text v :
  String_ v = (core_text (Major v) (Minor v) (Patch v) ++ suffix minus (Prerelease v)) ++
              suffix plus (Metadata v).
Proof.
  unfold String_, core_text, suffix. repeat case_decide; rewrite ?app_nil_r, <- ?app_assoc; done.
Qed.

Lemma Parse_String v : ver_ok v →
  Parse (String_ v) = Ok {| Major := Major v; Minor := Minor v; Patch := Patch v;
    Prerelease := Prerelease v; Metadata := Metadata v; original := String_ v |}.
Proof.
  intros [H1 H2 H3 H4 H5]. rewrite String_text.
  set (core := core_text (Major v) (Minor v) (Patch v)).
  assert (∀ c, is_digit c = false → c ≠ dot → c ∉ core) as Hno.
  { intros c Hc Hd. apply core_text_no; lia || done. }
  assert (∃ b r, core = b :: r ∧ is_digit b = true) as (b & r & Hb & Hbd).
  { unfold core, core_text. pose proof (print_Z_ne (Major v)) as Hne.
    pose proof (print_Z_digits (Major v)) as Hd. destruct (print_Z (Major v)) as [|b r]; [done|].
    eexists b, _. split; [done|]. assert (0 ≤ Major v)%Z as H0 by lia.
    by apply Hd, Forall_cons in H0 as [? _]. }
  set (text := (core ++ suffix minus (Prerelease v)) ++ suffix plus (Metadata v)).
  assert (text = b :: (r ++ suffix minus (Prerelease v)) ++ suffix plus (Metadata v)) as Et.
  { unfold text. by rewrite Hb. }
  assert (Parse text = let '(t, meta) := split2_on plus text in
     (let? metadata := parseIdent EMetadata meta in
      let '(t, pre) := split2_on minus t in
      let? prerelease := parseIdent EPrerelease pre in
      let? core := parseCore t in
      let '(x, y, z) := core in
      Ok {| Major := x; Minor := y; Patch := z; Prerelease := prerelease;
            Metadata := metadata; original := text |})%go) as ->.
  { rewrite Et. unfold Parse. rewrite decide_False; [done|]. intros [-> | ->]; done. }
  unfold text at 1. rewrite split2_suffix.
  2:{ rewrite not_elem_of_app. split; [by apply Hno|]. unfold suffix. case_decide; [|set_solver].
      destruct H4 as [E|E]; [done|]. rewrite not_elem_of_cons. split; [done|]. by apply ident_no_plus. }
  rewrite parseIdent_suffix by done. simpl result_bind.
  rewrite split2_suffix by (by apply Hno). rewrite parseIdent_suffix by done. simpl result_bind.
  unfold core. rewrite parseCore_text by done. done.
Qed.

Lemma parseNumber_ok e s n : parseNumber e s = Ok n → (0 ≤ n < 2 ^ 63)%Z.
Proof.
  unfold parseNumber. destruct (Atoi s) as [z|] eqn:E; [|done].
  destruct (Z.ltb_spec z 0); [done|]. intros [= <-]. split; [done|].
  revert E. unfold Atoi. repeat case_match; intros; simplify_eq; unbool; lia.
Qed.

Lemma parseIdent_ok e p s : parseIdent e p = Ok s → ident_ok s.
Proof. unfold parseIdent, ident_ok. repeat case_match; intros; simplify_eq; auto. Qed.

Lemma parseCore_ok s x y z :
  parseCore s = Ok (x, y, z) → (0 ≤ x < 2 ^ 63)%Z ∧ (0 ≤ y < 2 ^ 63)%Z ∧ (0 ≤ z < 2 ^ 63)%Z.
Proof.
  unfold parseCore, result_bind. repeat case_match; intros; simplify_eq;
    repeat match goal with H : parseNumber _ _ = Ok _ |- _ => apply parseNumber_ok in H end; lia.
Qed.

Lemma Parse_ok s v : Parse s = Ok v → ver_ok v.
Proof.
  unfold Parse. destruct s as [|b r]; [done|]. destruct (split2_on plus _) as [t meta].
  destruct (parseIdent EMetadata meta) as [md|] eqn:E1; [simpl|done].
  destruct (split2_on minus t) as [t' pre].
  destruct (parseIdent EPrerelease pre) as [pr|] eqn:E2; [simpl|done].
  destruct (parseCore t') as [[[x y] z]|] eqn:E3; [simpl|done]. intros [= <-].
  apply parseIdent_ok in E1, E2. apply parseCore_ok in E3 as (? & ? & ?). by split.
Qed.

(** Print/parse round trip: every version [Parse] accepts is printed by
    [String] to a text that parses back to the same version. *)
Theorem parse_print_roundtrip s v :
  Parse s = Ok v →
  Parse (String_ v) = Ok {| Major := Major v; Minor := Minor v; Patch := Patch v;
    Prerelease := Prerelease v; Metadata := Metadata v; original := String_ v |}.
Proof. intros Hp. by apply Parse_String, (Parse_ok s). Qed.

(** ** Precedence *)

(** Semantic versioning forbids leading zeros in numeric identifiers. *)
Definition no_leading_zero (x : gostring) : bool :=
  negb (isNumericIdentifier x) || bool_decide (stripZeros x = x).
Definition precedence_ok (v : Version) : Prop :=
  Forall (λ x, no_leading_zero x = true) (split_on dot (Prerelease v)).

Definition ident_rank (x : gostring) : Z := if isNumericIdentifier x then 0 else 1.
Definition ident_len (x : gostring) : Z :=
  if isNumericIdentifier x then Z.of_nat (length x) else 0.

(** Numeric identifiers first, by length then digits; the others by bytes. *)
Definition ident_cmp : gostring → gostring → comparison :=
  lex_cmp (λ x y, Z.compare (ident_rank x) (ident_rank y))
    (lex_cmp (λ x y, Z.compare (ident_len x) (ident_len y)) str_cmp).

Lemma ident_threeway P : ThreeWay P ident_cmp.
Proof.
  apply lex_threeway; [apply Z_threeway|]. apply lex_threeway; [apply Z_threeway|].
  apply (str_threeway P id).
Qed.

Lemma ident_cmp_refl x : ident_cmp x x = Eq.
Proof. unfold ident_cmp, lex_cmp. by rewrite !Z.compare_refl, str_cmp_refl. Qed.

Lemma compareNumeric_len a b :
  stripZeros a = a → stripZeros b = b →
  compareNumericIdentifier a b =
  match Z.compare (Z.of_nat (length a)) (Z.of_nat (length b)) with Eq => str_cmp a b | o => o end.
Proof.
  intros Ha Hb. unfold compareNumericIdentifier. rewrite Ha, Hb.
  destruct (Nat.ltb_spec (length b) (length a)), (Nat.ltb_spec (length a) (length b)),
    (Z.compare_spec (Z.of_nat (length a)) (Z.of_nat (length b))); done || lia.
Qed.

Lemma compareIdentifiers_lex a b :
  Forall (λ x, no_leading_zero x = true) a → Forall (λ x, no_leading_zero x = true) b →
  compareIdentifiers a b = list_cmp ident_cmp a b.
Proof.
  intros Ha. revert b. induction Ha as [|x a Hx Ha IH]; intros [|y b] Hb; try done.
  apply Forall_cons in Hb as [Hy Hb]. simpl. case_decide as Hxy.
  { subst y. rewrite ident_cmp_refl. by apply IH. }
  unfold ident_cmp, lex_cmp, ident_rank, ident_len, no_leading_zero in *.
  assert (str_cmp x y ≠ Eq) as Hne by (by rewrite str_cmp_eq).
  destruct (isNumericIdentifier x), (isNumericIdentifier y); simpl in *; unbool; try done.
  - rewrite compareNumeric_len by done. destruct (Z.compare _ _); [|done..]. by destruct (str_cmp x y).
  - unfold str_ltb. rewrite (str_cmp_antisym x y). by destruct (str_cmp x y).
Qed.

Definition core_cmp : Version → Version → comparison :=
  lex_cmp (λ v w, Z.compare (Major v) (Major w))
    (lex_cmp (λ v w, Z.compare (Minor v) (Minor w)) (λ v w, Z.compare (Patch v) (Patch w))).

Definition pre_cmp (v w : Version) : comparison :=
  lex_cmp (λ v w, Z.compare (if decide (Prerelease v = []) then 1 else 0)
                            (if decide (Prerelease w = []) then 1 else 0))%Z
    (λ v w, list_cmp ident_cmp (split_on dot (Prerelease v)) (split_on dot (Prerelease w))) v w.

Lemma field_cmp a b (k : comparison) :
  (if decide (a ≠ b) then if (b <? a)%Z then Gt else Lt else k)
  = match Z.compare a b with Eq => k | o => o end.
Proof. destruct (Z.compare_spec a b), (Z.ltb_spec b a); case_decide; done || lia. Qed.

Lemma Compare_lex v w :
  precedence_ok v → precedence_ok w → Compare v w = lex_cmp core_cmp pre_cmp v w.
Proof.
  intros Hv Hw. unfold Compare. rewrite !field_cmp. unfold core_cmp, pre_cmp, lex_cmp, comparePrerelease.
  rewrite compareIdentifiers_lex by done.
  destruct (Z.compare (Major v) (Major w)), (Z.compare (Minor v) (Minor w)),
    (Z.compare (Patch v) (Patch w)); try done.
  destruct (decide (Prerelease v = [])), (decide (Prerelease w = []));
    repeat case_bool_decide; simpl; done.
Qed.

#[export] Instance Compare_threeway : ThreeWay precedence_ok Compare.
Proof.
  eapply threeway_ext; [intros; by apply Compare_lex|].
  apply lex_threeway; [apply lex_threeway; [apply Z_threeway|apply lex_threeway; apply Z_threeway]|].
  apply lex_threeway; [apply Z_threeway|].
  apply (threeway_map _ (Forall (λ x, no_leading_zero x = true)) (λ v, split_on dot (Prerelease v)));
    [done|]. apply list_threeway, ident_threeway.
Qed.

(** Precedence is a total preorder on versions whose numeric prerelease
    identifiers have no leading zeros: [Compare] is reflexive, reversing the
    arguments flips the sign, it is transitive, and versions that compare equal
    compare alike to every other version. *)
Theorem compare_total_preorder v w x :
  precedence_ok v → precedence_ok w → precedence_ok x →
  Compare v v = Eq ∧ Compare w v = CompOpp (Compare v w) ∧
  (LessThan v w = true → LessThan w x = true → LessThan v x = true) ∧
  (LessThanOrEqual v w = true → LessThanOrEqual w x = true → LessThanOrEqual v x = true) ∧
  (Equal v w = true → Compare v x = Compare w x).
Proof.
  intros Hv Hw Hx. split; [by apply (tw_refl precedence_ok Compare)|].
  split; [by apply (tw_antisym (f:=Compare))|].
  unfold LessThan, LessThanOrEqual, Equal. split; [|split].
  - destruct (Compare v w) eqn:E1, (Compare w x) eqn:E2; try done. by rewrite (tw_trans (f:=Compare) v w x).
  - intros H1 H2. pose proof (tw_le_trans precedence_ok Compare v w x Hv Hw Hx) as H3.
    destruct (Compare v w), (Compare w x), (Compare v x); try done; by destruct H3.
  - destruct (Compare v w) eqn:E; try done. intros _. by apply (tw_eq (f:=Compare)).
Qed.

(** With leading zeros, which [Parse] accepts, precedence is not transitive:
    01.a and 1.b compare equal, so do 1.b and 01.b, yet 01.a is below 01.b. *)
Theorem compare_not_transitive :
  ∃ v w x, Parse (str "1.0.0-01.a") = Ok v ∧ Parse (str "1.0.0-1.b") = Ok w ∧
    Parse (str "1.0.0-01.b") = Ok x ∧
    Equal v w = true ∧ Equal w x = true ∧ LessThan v x = true.
Proof. do 3 eexists. do 3 (split; [vm_compute; reflexivity|]). vm_compute. done. Qed.

(** ** Sorting *)

Definition ver_le (v w : Version) : Prop := LessThanOrEqual v w = true.

Lemma not_less_le v w :
  precedence_ok v → precedence_ok w → LessThan w v = false → ver_le v w.
Proof.
  intros Hv Hw. unfold LessThan, ver_le, LessThanOrEqual.
  rewrite (tw_antisym (f:=Compare) v w) by done. by destruct (Compare v w).
Qed.
Lemma less_le v w : LessThan v w = true → ver_le v w.
Proof. unfold LessThan, ver_le, LessThanOrEqual. by destruct (Compare v w). Qed.
Lemma ver_le_trans v w x :
  precedence_ok v → precedence_ok w → precedence_ok x → ver_le v w → ver_le w x → ver_le v x.
Proof.
  intros Hv Hw Hx H1 H2. unfold ver_le, LessThanOrEqual in *.
  pose proof (tw_le_trans precedence_ok Compare v w x Hv Hw Hx) as H3.
  destruct (Compare v w), (Compare w x), (Compare v x); try done; by destruct H3.
Qed.

(** One pass puts the least of the remaining elements first. *)
Lemma sortInner_spec pre x m r :
  Forall precedence_ok (x :: m ++ r) → Forall (ver_le x) m →
  ∃ x' l', sortInner (length r) (length pre) (length pre + S (length m)) (pre ++ x :: m ++ r)
             = pre ++ x' :: l' ∧
    x' :: l' ≡ₚ x :: m ++ r ∧ Forall (ver_le x') l'.
Proof.
  revert x m. induction r as [|y r IH]; intros x m Hok Hm; simpl.
  { rewrite app_nil_r. by exists x, m. }
  assert ((pre ++ x :: m ++ y :: r) !! length pre = Some x) as Hi.
  { by rewrite lookup_app_r, Nat.sub_diag by lia. }
  assert ((pre ++ x :: m ++ y :: r) !! (length pre + S (length m)) = Some y) as Hj.
  { rewrite lookup_app_r by lia. replace (_ + _ - _) with (S (length m)) by lia. simpl.
    by rewrite lookup_app_r, Nat.sub_diag by lia. }
  pose proof Hok as [Hx [Hmo [Hy Hro]%Forall_cons]%Forall_app]%Forall_cons.
  unfold Less, Swap. rewrite Hi, Hj.
  replace (S (length pre + S (length m))) with (length pre + S (length (m ++ [x])))
    by (rewrite length_app; simpl; lia).
  destruct (LessThan y x) eqn:E.
  - assert (<[length pre + S (length m) := x]> (<[length pre := y]> (pre ++ x :: m ++ y :: r))
      = pre ++ y :: (m ++ [x]) ++ r) as ->.
    { rewrite <- (Nat.add_0_r (length pre)) at 2. rewrite !insert_app_r. simpl. f_equal. f_equal.
      rewrite <- app_assoc. rewrite <- (Nat.add_0_r (length m)). by rewrite insert_app_r. }
    destruct (IH y (m ++ [x])) as (x' & l' & -> & Hp & Hl).
    + constructor; [done|]. repeat (apply Forall_app; split); auto.
    + apply less_le in E. apply Forall_app. split; [|by constructor].
      rewrite Forall_forall in *. intros z Hz. eapply ver_le_trans; [done|exact Hx| |done|by apply Hm].
      by apply Hmo.
    + exists x', l'. split; [done|]. split; [|done]. rewrite Hp, <- app_assoc. simpl.
      rewrite <- !Permutation_middle. apply perm_swap.
  - replace (length (m ++ [x])) with (length (m ++ [y])) by (by rewrite !length_app).
    destruct (IH x (m ++ [y])) as (x' & l' & Hs & Hp & Hl).
    + rewrite <- app_assoc. done.
    + apply Forall_app. split; [done|]. constructor; [by apply not_less_le|done].
    + rewrite <- app_assoc in *. simpl in *. exists x', l'. done.
Qed.

Lemma sortOuter_spec n pre s :
  length s = n → Forall precedence_ok s →
  ∃ s', sortOuter n (length pre) (pre ++ s) = pre ++ s' ∧ s' ≡ₚ s ∧ StronglySorted ver_le s'.
Proof.
  revert pre s. induction n as [|n IH]; intros pre s Hn Hok; simpl.
  { destruct s; [|done]. exists []. split; [done|]. split; [done|constructor]. }
  destruct s as [|x r]; [done|]. simpl in Hn. injection Hn as Hn.
  replace (length (pre ++ x :: r) - S (length pre)) with (length r) by (rewrite length_app; simpl; lia).
  destruct (sortInner_spec pre x [] r) as (x' & l' & Hs & Hp & Hl); [done|constructor|].
  rewrite Nat.add_1_r in Hs. simpl in Hs, Hp. rewrite Hs.
  assert (pre ++ x' :: l' = (pre ++ [x']) ++ l') as E by (by rewrite <- app_assoc).
  assert (Forall precedence_ok (x' :: l')) as [Hx' Hok']%Forall_cons by (by rewrite Hp).
  destruct (IH (pre ++ [x']) l') as (s' & Hs' & Hp' & Hsort); [|done|].
  { apply Permutation_length in Hp. simpl in Hp. lia. }
  rewrite length_app, Nat.add_1_r in Hs'. rewrite E, Hs'. exists (x' :: s').
  split; [by rewrite <- app_assoc|]. split; [by rewrite Hp'|]. constructor; [done|]. by rewrite Hp'.
Qed.

(** [Sort] terminates with a permutation of its input in ascending
    precedence, for versions without leading zeros in numeric identifiers. *)
Theorem sort_sorted_perm versions :
  Forall precedence_ok versions →
  Sort versions ≡ₚ versions ∧ StronglySorted ver_le (Sort versions).
Proof.
  intros Hok. destruct (sortOuter_spec (length versions) [] versions) as (s' & Hs & Hp & Hsort); [done..|].
  unfold Sort. simpl in Hs. by rewrite Hs.
Qed.

(** ** Constraints *)

(** The first version outside the range of a caret or tilde constraint. *)
Definition caret_bound (c : Version) : Z * Z * Z :=
  if (0 <? Major c)%Z then (Major c + 1, 0, 0)%Z
  else if (0 <? Minor c)%Z then (0, Minor c + 1, 0)%Z
  else (0, 0, Patch c + 1)%Z.
Definition tilde_bound (c : Version) : Z * Z * Z := (Major c, Minor c + 1, 0)%Z.

(** The numeric part is below a bound. *)
Definition core_below (v : Version) (b : Z * Z * Z) : Prop :=
  let '(x, y, z) := b in
  (Major v < x ∨ (Major v = x ∧ (Minor v < y ∨ (Minor v = y ∧ Patch v < z))))%Z.

Lemma ge_core v c :
  GreaterThanOrEqual v c = true →
  (Major c < Major v ∨ (Major c = Major v ∧
    (Minor c < Minor v ∨ (Minor c = Minor v ∧ Patch c ≤ Patch v))))%Z.
Proof.
  unfold GreaterThanOrEqual, Compare. rewrite !field_cmp.
  destruct (Z.compare_spec (Major v) (Major c)); [|done|lia].
  destruct (Z.compare_spec (Minor v) (Minor c)); [|done|lia].
  destruct (Z.compare_spec (Patch v) (Patch c)); [lia|done|lia].
Qed.

(** A caret constraint accepts exactly the versions from its own version up to
    the next change of the left-most non-zero number, and a tilde constraint those
    up to the next minor version, as documented. *)
Theorem caret_tilde_ranges c v :
  ver_ok c → ver_ok v →
  (Check_ {| c_operator := OpCaret; c_version := c |} v = true ↔
     GreaterThanOrEqual v c = true ∧ core_below v (caret_bound c)) ∧
  (Check_ {| c_operator := OpTilde; c_version := c |} v = true ↔
     GreaterThanOrEqual v c = true ∧ core_below v (tilde_bound c)).
Proof.
  intros [C1 C2 C3 _ _] [V1 V2 V3 _ _]. unfold Check_. simpl.
  destruct (GreaterThanOrEqual v c) eqn:E; simpl; [|naive_solver]. apply ge_core in E.
  unfold caret_bound, tilde_bound, core_below. split.
  - destruct (Z.ltb_spec 0 (Major c)); [|destruct (Z.ltb_spec 0 (Minor c))];
      rewrite ?andb_true_iff, ?Z.eqb_eq; simpl; (split; [intros; split; [done|lia]|intros [_ ?]; lia]).
  - rewrite ?andb_true_iff, ?Z.eqb_eq. simpl. split; [intros; split; [done|lia]|intros [_ ?]; lia].
Qed.

(** ** Witnesses *)

Definition ver (s : String.string) : Version :=
  match Parse (str s) with Ok v => v | Err _ => NewVersion 0 0 0 end.

Lemma parse_print_roundtrip_witness :
  Parse (String_ (ver "v1.2-rc.1+b5")) = Ok {| Major := 1; Minor := 2; Patch := 0;
    Prerelease := str "rc.1"; Metadata := str "b5"; original := str "1.2.0-rc.1+b5" |}.
Proof. apply (parse_print_roundtrip (str "v1.2-rc.1+b5")). vm_compute. reflexivity. Defined.

Lemma precedence_ok_b v :
  forallb no_leading_zero (split_on dot (Prerelease v)) = true → precedence_ok v.
Proof. intros H. apply Forall_forall. intros x Hx. rewrite forallb_forall in H. by apply H, list_elem_of_In. Qed.

Lemma compare_total_preorder_witness : LessThan (ver "1.0.0-alpha.2") (ver "1.0.1") = true.
Proof.
  apply (compare_total_preorder (ver "1.0.0-alpha.2") (ver "1.0.0-alpha.10") (ver "1.0.1"));
    first [apply precedence_ok_b; vm_compute; reflexivity | vm_compute; reflexivity].
Defined.

Lemma sort_sorted_perm_witness :
  StronglySorted ver_le (Sort [ver "2.0.0"; ver "1.0.0"; ver "1.0.0-rc.1"]).
Proof.
  apply (sort_sorted_perm [ver "2.0.0"; ver "1.0.0"; ver "1.0.0-rc.1"]).
  repeat constructor; apply precedence_ok_b; vm_compute; reflexivity.
Defined.

Lemma caret_tilde_ranges_witness :
  Check_ {| c_operator := OpCaret; c_version := ver "0.2.3" |} (ver "0.2.9") = true.
Proof.
  apply (caret_tilde_ranges (ver "0.2.3") (ver "0.2.9")).
  - apply (Parse_ok (str "0.2.3")). vm_compute. reflexivity.
  - apply (Parse_ok (str "0.2.9")). vm_compute. reflexivity.
  - split; [vm_compute; reflexivity|]. right. split; [reflexivity|]. left. vm_compute. reflexivity.
Defined.
