(* ===== verification/KVCodec.v ===== *)
(** * Files of the key-value engine ([x/data/kvengine/serializer*.go], [wal.go])

    The records written to the write-ahead log and to snapshots, the interface
    [Serializer] of the engine with the laws the engine relies on, and the binary
    format that implements it. *)

From stdpp Require Import options.
From S2P Require Import Prelude GoNumbers GoBytes.

(** ** Records *)

(** A [time.Time] as far as the engine uses it: [None] is the zero time, [Some n]
    the instant [n] nanoseconds after the Unix epoch. *)
Definition gotime : Type := option Z.

(** [UnixNano]; on the zero time the multiplication wraps around. *)
Definition UnixNano (t : gotime) : Z :=
  match t with Some n => n | None => wrap64 (-62135596800 * 1000000000) end.

Definition opSet : gobyte := byte_of 1.
Definition opDelete : gobyte := byte_of 2.

Record WALEntry := mkWAL {
  w_Op : gobyte;
  w_Key : gostring;
  w_Value : gostring;
  w_ExpireAt : gotime;
  w_Version : Z;
  w_CRC : N;
}.

Record Entry := mkEntry {
  e_Key : gostring;
  e_Value : gostring;
  e_ExpireAt : gotime;
  e_Size : Z;
  e_Version : Z;
}.

(** ** The checksum of a log record *)

Definition hex_digit (n : N) : gobyte := if (n <? 10)%N then byte_of (48 + n) else byte_of (87 + n).
(** [%x] of a byte slice. *)
Definition print_hex (bs : gostring) : gostring :=
  mjoin ((λ b, [hex_digit (byte_val b / 16); hex_digit (byte_val b mod 16)]) <$> bs).

Definition nul : gobyte := byte_of 0.

Definition calculateCRC (e : WALEntry) : N :=
  ChecksumIEEE (print_N (byte_val (w_Op e)) ++ nul :: w_Key e ++ nul :: print_hex (w_Value e) ++
                nul :: print_Z (UnixNano (w_ExpireAt e)) ++ nul :: print_Z (w_Version e)).
Definition validateWALEntry (e : WALEntry) : bool := (w_CRC e =? calculateCRC e)%N.

(** ** The interface [Serializer] *)

(** What can be written: int64 fields and an expiry that is unset or after the
    epoch; the binary format also limits the sizes. *)
Definition maxKeySize : N := 64 * 1024.
Definition maxValueSize : N := 512 * 1024 * 1024.

Definition sizes_ok (key value : gostring) : Prop :=
  (N.of_nat (length key) ≤ maxKeySize)%N ∧ (N.of_nat (length value) ≤ maxValueSize)%N.
Definition time_ok (t : gotime) : Prop :=
  match t with Some n => (0 < n ≤ int64_max)%Z | None => True end.
Definition wal_ok (e : WALEntry) : Prop :=
  time_ok (w_ExpireAt e) ∧ is_int64 (w_Version e) ∧
  (w_CRC e < 2 ^ 32)%N.
Definition entry_ok (e : Entry) : Prop :=
  time_ok (e_ExpireAt e) ∧ is_int64 (e_Version e) ∧
  is_int64 (e_Size e).

#[export] Instance time_ok_dec t : Decision (time_ok t).
Proof. destruct t; unfold time_ok; apply _. Defined.
#[export] Instance entry_ok_dec e : Decision (entry_ok e).
Proof. unfold entry_ok, is_int64. apply _. Defined.

Class Serializer (S : Type) := {
  EncodeWALEntry : S → WALEntry → option gostring;
  DecodeWALEntry : S → gostring → result readErr (WALEntry * gostring);
  EncodeEntry : S → Entry → option gostring;
  DecodeEntry : S → gostring → result readErr (Entry * gostring);
}.

(** What the engine relies on: what was written is read back, leaving the rest of
    the input; the end of the input is reported as [EOF]; and a record that was
    cut off is never read as a record. *)
Class SerializerLaws (S : Type) `{Serializer S} := {
  wal_encodes s e : sizes_ok (w_Key e) (w_Value e) → is_Some (EncodeWALEntry s e);
  wal_nonempty s e bs : EncodeWALEntry s e = Some bs → bs ≠ [];
  wal_roundtrip s e bs rest :
    wal_ok e → EncodeWALEntry s e = Some bs → DecodeWALEntry s (bs ++ rest) = Ok (e, rest);
  wal_eof s : DecodeWALEntry s [] = Err EOF;
  wal_torn s e bs torn :
    wal_ok e → EncodeWALEntry s e = Some bs → torn `prefix_of` bs → torn ≠ bs →
    ∃ err, DecodeWALEntry s torn = Err err;
  entry_encodes s e : sizes_ok (e_Key e) (e_Value e) → is_Some (EncodeEntry s e);
  entry_nonempty s e bs : EncodeEntry s e = Some bs → bs ≠ [];
  entry_roundtrip s e bs rest :
    entry_ok e → EncodeEntry s e = Some bs → DecodeEntry s (bs ++ rest) = Ok (e, rest);
  entry_eof s : DecodeEntry s [] = Err EOF;
}.

(** ** The binary format *)

Module Binary.

Definition walEntryMagic : N := 1463896133.

Record BinarySerializer := mkBinary {}.

(** [expireNano]. *)
Definition put_time (t : gotime) : gostring := put_i64 (match t with Some n => n | None => 0 end)%Z.
Definition get_time (bs : gostring) : gotime :=
  let n := get_i64 bs in if (0 <? n)%Z then Some n else None.

(** The size checks; their overflow guards cannot fire once they pass. *)
Definition size_guard (key value : gostring) : bool :=
  (N.of_nat (length key) <=? maxKeySize)%N && (N.of_nat (length value) <=? maxValueSize)%N.

Definition encodeWAL (_ : BinarySerializer) (e : WALEntry) : option gostring :=
  if size_guard (w_Key e) (w_Value e) then
    Some (put_u32 walEntryMagic ++ [w_Op e] ++
          put_u32 (N.of_nat (length (w_Key e))) ++ w_Key e ++
          put_u32 (N.of_nat (length (w_Value e))) ++ w_Value e ++
          put_time (w_ExpireAt e) ++ put_i64 (w_Version e) ++ put_u32 (w_CRC e))
  else None.

(** Read a length-prefixed field with its limit. *)
Definition readField (limit : N) (input : gostring) : result readErr (gostring * gostring) :=
  (let? '(lb, input) := ReadFull 4 input in
   let n := be_get lb in
   if (limit <? n)%N then Err BadData else ReadFull (N.to_nat n) input)%go.

Definition decodeWAL (_ : BinarySerializer) (input : gostring)
    : result readErr (WALEntry * gostring) :=
  (let? '(magic, input) := ReadFull 4 input in
   if negb (be_get magic =? walEntryMagic)%N then Err BadData
   else
     let? '(op, input) := ReadFull 1 input in
     let? '(key, input) := readField maxKeySize input in
     let? '(value, input) := readField maxValueSize input in
     let? '(t, input) := ReadFull 8 input in
     let? '(ver, input) := ReadFull 8 input in
     let? '(crc, input) := ReadFull 4 input in
     Ok ({| w_Op := default (byte_of 0) (op !! 0); w_Key := key; w_Value := value;
            w_ExpireAt := get_time t; w_Version := get_i64 ver; w_CRC := be_get crc |}, input))%go.

Definition encodeEntry (_ : BinarySerializer) (e : Entry) : option gostring :=
  if size_guard (e_Key e) (e_Value e) then
    Some (put_u32 (N.of_nat (length (e_Key e))) ++ e_Key e ++
          put_u32 (N.of_nat (length (e_Value e))) ++ e_Value e ++
          put_time (e_ExpireAt e) ++ put_i64 (e_Version e) ++ put_i64 (e_Size e))
  else None.

Definition decodeEntry (_ : BinarySerializer) (input : gostring)
    : result readErr (Entry * gostring) :=
  (let? '(key, input) := readField maxKeySize input in
   let? '(value, input) := readField maxValueSize input in
   let? '(t, input) := ReadFull 8 input in
   let? '(ver, input) := ReadFull 8 input in
   let? '(sz, input) := ReadFull 8 input in
   Ok ({| e_Key := key; e_Value := value; e_ExpireAt := get_time t; e_Size := get_i64 sz;
          e_Version := get_i64 ver |}, input))%go.

#[global] Instance binary_serializer : Serializer BinarySerializer :=
  {| EncodeWALEntry := encodeWAL; DecodeWALEntry := decodeWAL;
     EncodeEntry := encodeEntry; DecodeEntry := decodeEntry |}.

(** The snapshot header, with the time of writing as an argument. *)
Definition magicNumber : N := 1263948628.
Definition version : N := 1.
Definition WriteSnapshotHeader (now : Z) : gostring :=
  put_u32 magicNumber ++ put_u32 version ++ put_i64 now.
Definition ReadSnapshotHeader (input : gostring) : result readErr gostring :=
  (let? '(m, input) := ReadFull 4 input in
   if negb (be_get m =? magicNumber)%N then Err BadData
   else
     let? '(v, input) := ReadFull 4 input in
     if negb (be_get v =? version)%N then Err BadData
     else let? '(_, input) := ReadFull 8 input in Ok input)%go.

(** ** Facts *)

Lemma get_put_time t : time_ok t → get_time (put_time t) = t.
Proof.
  unfold get_time, put_time, time_ok. destruct t as [n|]; intros Ht.
  - rewrite get_put_i64 by (unfold is_int64, int64_min, int64_max in *; lia).
    by rewrite (proj2 (Z.ltb_lt _ _)) by lia.
  - by rewrite get_put_i64.
Qed.

Lemma put_u32_length n : length (put_u32 n) = 4. Proof. apply be_put_length. Qed.
Lemma put_i64_length z : length (put_i64 z) = 8. Proof. apply be_put_length. Qed.
Lemma put_time_length t : length (put_time t) = 8. Proof. apply be_put_length. Qed.

Lemma readField_app limit x rest :
  (N.of_nat (length x) ≤ limit)%N → (limit < 2 ^ 32)%N →
  readField limit (put_u32 (N.of_nat (length x)) ++ x ++ rest) = Ok (x, rest).
Proof.
  intros Hx Hl. unfold readField. rewrite ReadFull_app by (by rewrite put_u32_length). simpl.
  rewrite get_put_u32 by lia. rewrite (proj2 (N.ltb_ge _ _)) by done.
  apply ReadFull_app. lia.
Qed.

Lemma size_guard_ok key value : size_guard key value = true ↔ sizes_ok key value.
Proof. unfold size_guard, sizes_ok. by rewrite andb_true_iff, !N.leb_le. Qed.

Lemma wal_binary_roundtrip s e bs rest :
  wal_ok e → encodeWAL s e = Some bs → decodeWAL s (bs ++ rest) = Ok (e, rest).
Proof.
  intros (Ht & Hv & Hc) He. unfold encodeWAL in He.
  destruct (size_guard _ _) eqn:Hs; [|done]. apply size_guard_ok in Hs.
  apply (inj Some) in He. subst bs. destruct Hs as [Hk Hval]. unfold decodeWAL. rewrite <- !app_assoc.
  rewrite ReadFull_app by (by rewrite put_u32_length). cbn [result_bind].
  rewrite get_put_u32, N.eqb_refl by done. cbn [negb].
  rewrite ReadFull_app by done. cbn [result_bind].
  rewrite readField_app by done. cbn [result_bind].
  rewrite readField_app by done. cbn [result_bind].
  rewrite ReadFull_app by (by rewrite put_time_length). cbn [result_bind].
  rewrite ReadFull_app by (by rewrite put_i64_length). cbn [result_bind].
  rewrite ReadFull_app by (by rewrite put_u32_length). cbn [result_bind].
  rewrite get_put_time, get_put_i64, get_put_u32 by done. by destruct e.
Qed.

Lemma entry_binary_roundtrip s e bs rest :
  entry_ok e → encodeEntry s e = Some bs → decodeEntry s (bs ++ rest) = Ok (e, rest).
Proof.
  intros (Ht & Hv & Hz) He. unfold encodeEntry in He.
  destruct (size_guard _ _) eqn:Hs; [|done]. apply size_guard_ok in Hs.
  apply (inj Some) in He. subst bs. destruct Hs as [Hk Hval]. unfold decodeEntry. rewrite <- !app_assoc.
  rewrite readField_app by done. cbn [result_bind].
  rewrite readField_app by done. cbn [result_bind].
  rewrite ReadFull_app by (by rewrite put_time_length). cbn [result_bind].
  rewrite ReadFull_app by (by rewrite put_i64_length). cbn [result_bind].
  rewrite ReadFull_app by (by rewrite put_i64_length). cbn [result_bind].
  rewrite get_put_time, !get_put_i64 by done. by destruct e.
Qed.

(** A decoder that succeeds has consumed a prefix, and does the same on any longer
    input. *)
Definition stable {A} (d : gostring → result readErr (A * gostring)) : Prop :=
  ∀ input x rest, d input = Ok (x, rest) →
    (∃ used, input = used ++ rest) ∧ ∀ more, d (input ++ more) = Ok (x, rest ++ more).

Lemma stable_ret {A} (x : A) : stable (λ input, Ok (x, input)).
Proof. intros input y rest [= <- <-]. split; [by exists []|done]. Qed.

Lemma stable_err {A} e : stable (A := A) (λ _, Err e).
Proof. intros input y rest [=]. Qed.

Lemma stable_bind {A B} (d : gostring → result readErr (A * gostring))
    (k : A → gostring → result readErr (B * gostring)) :
  stable d → (∀ x, stable (k x)) →
  stable (λ input, (let? '(x, input) := d input in k x input)%go).
Proof.
  intros Hd Hk input y rest E. destruct (d input) as [[x mid]|] eqn:Ed; simpl in E; [|done].
  destruct (Hd _ _ _ Ed) as [[u Hu] Hmore]. destruct (Hk x _ _ _ E) as [[u' Hu'] Hmore'].
  split.
  - exists (u ++ u'). by rewrite Hu, Hu', app_assoc.
  - intros more. rewrite Hmore. simpl. by rewrite Hmore'.
Qed.

Lemma stable_read n : stable (ReadFull n).
Proof.
  intros input x rest E. pose proof (ReadFull_ok _ _ _ _ E) as [-> Hl]. split; [by exists x|].
  intros more. rewrite <- app_assoc. by apply ReadFull_app.
Qed.

Lemma stable_if {A} (b : bool) (d1 d2 : gostring → result readErr (A * gostring)) :
  stable d1 → stable d2 → stable (λ input, if b then d1 input else d2 input).
Proof. by destruct b. Qed.

Lemma stable_field limit : stable (readField limit).
Proof.
  apply stable_bind; [apply stable_read|]. intros x.
  apply stable_if; [apply stable_err|apply stable_read].
Qed.

Create HintDb stable.
#[local] Hint Resolve stable_read stable_field stable_err stable_ret : stable.

Lemma stable_wal s : stable (decodeWAL s).
Proof.
  apply stable_bind; [auto with stable|]. intros m. apply stable_if; [auto with stable|].
  do 6 (apply stable_bind; [auto with stable|intros ?]). auto with stable.
Qed.

(** Hence no strict prefix of a written record decodes to anything. *)
Lemma wal_binary_torn s e bs torn :
  wal_ok e → encodeWAL s e = Some bs → torn `prefix_of` bs → torn ≠ bs →
  ∃ err, decodeWAL s torn = Err err.
Proof.
  intros Hok He [tail ->] Hne. destruct (decodeWAL s torn) as [[x rest]|err] eqn:E; [|eauto].
  destruct (stable_wal s _ _ _ E) as [[used ->] Hmore]. exfalso. apply Hne.
  pose proof (wal_binary_roundtrip s e _ [] Hok He) as Hfull. rewrite app_nil_r, Hmore in Hfull.
  injection Hfull as _ Hrest. apply app_eq_nil in Hrest as [-> ->]. by rewrite !app_nil_r.
Qed.

Lemma append_u32_ne n (rest : gostring) : put_u32 n ++ rest ≠ [].
Proof. intros E. apply (f_equal length) in E. rewrite length_app, put_u32_length in E. simpl in E. lia. Qed.

#[global] Instance binary_laws : SerializerLaws BinarySerializer.
Proof.
  split.
  - intros s e Hs. simpl. unfold encodeWAL. rewrite (proj2 (size_guard_ok _ _)) by done. eauto.
  - intros s e bs. simpl. unfold encodeWAL. case_match; [|done]. intros E%(inj Some). subst bs.
    apply append_u32_ne.
  - apply wal_binary_roundtrip.
  - done.
  - apply wal_binary_torn.
  - intros s e Hs. simpl. unfold encodeEntry. rewrite (proj2 (size_guard_ok _ _)) by done. eauto.
  - intros s e bs. simpl. unfold encodeEntry. case_match; [|done]. intros E%(inj Some). subst bs.
    apply append_u32_ne.
  - apply entry_binary_roundtrip.
  - done.
Qed.

Lemma header_roundtrip now rest : ReadSnapshotHeader (WriteSnapshotHeader now ++ rest) = Ok rest.
Proof.
  unfold ReadSnapshotHeader, WriteSnapshotHeader. rewrite <- !app_assoc.
  rewrite ReadFull_app by (by rewrite put_u32_length). cbn [result_bind].
  rewrite get_put_u32, N.eqb_refl by done. cbn [negb].
  rewrite ReadFull_app by (by rewrite put_u32_length). cbn [result_bind].
  rewrite get_put_u32, N.eqb_refl by done. cbn [negb].
  by rewrite ReadFull_app by (by rewrite put_i64_length).
Qed.

End Binary.
