(* ===== verification/KVStore.v ===== *)
(** * The key-value engine ([x/data/kvengine/kv.go], [operations.go], [lru.go], [wal.go])

    A sharded map of entries with an intrusive LRU list per shard, global counters
    and a write-ahead log. Pointers to entries are references (an identity and the
    entry, which is immutable after its creation); a nil pointer in [next]/[prev]
    is an absent key, as in the Go maps. The clock is an explicit argument. *)

From stdpp Require Import options.
From S2P Require Import Prelude GoStrings GoBytes KVCodec.

Record eref := mkRef { ref : nat; ent : Entry }.

(** [m[k] = v] where [v] may be nil. *)
Definition assign (k : nat) (v : option eref) (m : gmap nat eref) : gmap nat eref :=
  match v with Some x => <[k := x]> m | None => delete k m end.

Record Shard := mkShard {
  data : gmap gostring eref;
  lruHead : option eref;
  lruTail : option eref;
  next : gmap nat eref;
  prev : gmap nat eref;
}.
Definition emptyShard : Shard := mkShard ∅ None None ∅ ∅.

Record Options := mkOptions {
  MaxEntries : Z;
  MaxMemoryMB : Z;
  ShardCount : nat;
  ReadOnly : bool;
}.

Inductive kvErr :=
| ErrStoreClosed | ErrKeyNotFound | ErrKeyExpired | ErrValueTooLarge | ErrCapacityFull
| ErrWALWrite | ErrInvalidEntry | ErrDiverged.
#[export] Instance kvErr_eq_dec : EqDecision kvErr.
Proof. solve_decision. Defined.

(** ** The LRU list of one shard ([lru.go]) *)

Definition same_ref (a : option eref) (e : eref) : bool :=
  match a with Some x => ref x =? ref e | None => false end.

Definition moveToFront (entry : eref) (s : Shard) : Shard :=
  if same_ref (lruHead s) entry then s
  else
    let next1 := match prev s !! ref entry with
                 | Some p => assign (ref p) (next s !! ref entry) (next s)
                 | None => next s
                 end in
    let '(prev1, tail1) := match next1 !! ref entry with
                           | Some n => (assign (ref n) (prev s !! ref entry) (prev s), lruTail s)
                           | None => (prev s, prev s !! ref entry)
                           end in
    let prev2 := delete (ref entry) prev1 in
    let next2 := assign (ref entry) (lruHead s) next1 in
    let prev3 := match lruHead s with Some h => <[ref h := entry]> prev2 | None => prev2 end in
    {| data := data s; lruHead := Some entry;
       lruTail := match tail1 with None => Some entry | Some t => Some t end;
       next := next2; prev := prev3 |}.

(** [deleteFromShard], without its counter updates. *)
Definition unlinkEntry (key : gostring) (entry : eref) (s : Shard) : Shard :=
  let '(next1, head1) := match prev s !! ref entry with
                         | Some p => (assign (ref p) (next s !! ref entry) (next s), lruHead s)
                         | None => (next s, next s !! ref entry)
                         end in
  let '(prev1, tail1) := match next1 !! ref entry with
                         | Some n => (assign (ref n) (prev s !! ref entry) (prev s), lruTail s)
                         | None => (prev s, prev s !! ref entry)
                         end in
  {| data := delete key (data s); lruHead := head1; lruTail := tail1;
     next := delete (ref entry) next1; prev := delete (ref entry) prev1 |}.

(** ** The store *)

Section store.
Context {S : Type} `{!Serializer S}.

Record KVStore := mkKV {
  opts : Options;
  serializer : S;
  shards : list Shard;
  freshRef : nat;
  wal : gostring;
  hits : Z;
  misses : Z;
  evictions : Z;
  entries : Z;
  memoryUsage : Z;
  walSize : Z;
  version : Z;
  closed : bool;
}.
Implicit Types (kv : KVStore) (key value : gostring) (now : Z).

Definition newStore (o : Options) (s : S) : KVStore :=
  {| opts := o; serializer := s; shards := replicate (ShardCount o) emptyShard; freshRef := 0;
     wal := []; hits := 0; misses := 0; evictions := 0; entries := 0; memoryUsage := 0;
     walSize := 0; version := 0; closed := false |}.

(** [getShard]: [hash & shardMask] with the mask [uint32(ShardCount - 1)]. *)
Definition shardIndex kv key : nat :=
  N.to_nat (N.land (ChecksumIEEE key) (N.of_nat (ShardCount (opts kv)) - 1)).
Definition getShard kv key : Shard := default emptyShard (shards kv !! shardIndex kv key).

(** Replace a shard and add to the counters. *)
Definition updShard (i : nat) (s : Shard) (dEntries dMemory : Z) kv : KVStore :=
  {| opts := opts kv; serializer := serializer kv; shards := <[i := s]> (shards kv);
     freshRef := freshRef kv; wal := wal kv; hits := hits kv; misses := misses kv;
     evictions := evictions kv; entries := entries kv + dEntries;
     memoryUsage := memoryUsage kv + dMemory; walSize := walSize kv; version := version kv;
     closed := closed kv |}.

Definition deleteFromShard (i : nat) key (entry : eref) kv : KVStore :=
  updShard i (unlinkEntry key entry (default emptyShard (shards kv !! i))) (-1)
    (- e_Size (ent entry)) kv.

Definition evictLRU (i : nat) kv : KVStore :=
  match lruTail (default emptyShard (shards kv !! i)) with
  | None => kv
  | Some entry =>
      let kv := deleteFromShard i (e_Key (ent entry)) entry kv in
      {| opts := opts kv; serializer := serializer kv; shards := shards kv;
         freshRef := freshRef kv; wal := wal kv; hits := hits kv; misses := misses kv;
         evictions := evictions kv + 1; entries := entries kv; memoryUsage := memoryUsage kv;
         walSize := walSize kv; version := version kv; closed := closed kv |}
  end.

(** The first shard whose tail can be evicted. *)
Fixpoint findEvictable (skipKey : gostring) (l : list Shard) (i : nat) : option nat :=
  match l with
  | [] => None
  | s :: l =>
      match lruTail s with
      | Some t => if decide (e_Key (ent t) = skipKey) then findEvictable skipKey l (i + 1) else Some i
      | None => findEvictable skipKey l (i + 1)
      end
  end.

(** [None] is [false]. *)
Definition evictOneLRUSkip (skipKey : gostring) kv : option KVStore :=
  i ← findEvictable skipKey (shards kv) 0; Some (evictLRU i kv).

(** A loop [for { if enough { break }; if !evict { return full } }]; [None] when
    the fuel runs out. *)
Fixpoint evictLoop (fuel : nat) (enough : KVStore → bool) key kv : option (bool * KVStore) :=
  match fuel with
  | O => None
  | Datatypes.S fuel =>
      if enough kv then Some (true, kv)
      else match evictOneLRUSkip key kv with
           | None => Some (false, kv)
           | Some kv' => evictLoop fuel enough key kv'
           end
  end.

Definition maxMemory kv : Z := MaxMemoryMB (opts kv) * 1024 * 1024.

Definition enoughEntries (replacing : bool) kv : bool :=
  if replacing then (entries kv <=? MaxEntries (opts kv))%Z
  else (entries kv <? MaxEntries (opts kv))%Z.
Definition enoughMemory (replacing : bool) (oldSize size : Z) kv : bool :=
  ((if replacing then memoryUsage kv + size - oldSize else memoryUsage kv + size)
   <=? maxMemory kv)%Z.

(** Every eviction lowers [entries] by one and [memoryUsage] by an entry's size, so
    the excess over the limits bounds the rounds. *)
Definition ensureCapacityForSet key (size : Z) kv : result kvErr unit * KVStore :=
  let old := data (getShard kv key) !! key in
  let replacing := bool_decide (is_Some old) in
  let oldSize := match old with Some r => e_Size (ent r) | None => 0%Z end in
  match evictLoop (Z.to_nat (entries kv - MaxEntries (opts kv)) + 2) (enoughEntries replacing) key kv with
  | None => (Err ErrDiverged, kv)
  | Some (false, kv) => (Err ErrCapacityFull, kv)
  | Some (true, kv) =>
      match evictLoop (Z.to_nat (memoryUsage kv + size - maxMemory kv) + 1)
              (enoughMemory replacing oldSize size) key kv with
      | None => (Err ErrDiverged, kv)
      | Some (false, kv) => (Err ErrCapacityFull, kv)
      | Some (true, kv) => (Ok (), kv)
      end
  end.

Definition entrySize key value : Z := Z.of_nat (length key + length value + 64).

Definition nextVersion kv : KVStore :=
  {| opts := opts kv; serializer := serializer kv; shards := shards kv; freshRef := freshRef kv;
     wal := wal kv; hits := hits kv; misses := misses kv; evictions := evictions kv;
     entries := entries kv; memoryUsage := memoryUsage kv; walSize := walSize kv;
     version := version kv + 1; closed := closed kv |}.

Definition writeWALEntry (e : WALEntry) kv : option KVStore :=
  bs ← EncodeWALEntry (serializer kv) e;
  Some {| opts := opts kv; serializer := serializer kv; shards := shards kv;
          freshRef := freshRef kv; wal := wal kv ++ bs; hits := hits kv; misses := misses kv;
          evictions := evictions kv; entries := entries kv; memoryUsage := memoryUsage kv;
          walSize := walSize kv + Z.of_nat (length bs); version := version kv;
          closed := closed kv |}.

Definition withCRC (e : WALEntry) : WALEntry :=
  {| w_Op := w_Op e; w_Key := w_Key e; w_Value := w_Value e; w_ExpireAt := w_ExpireAt e;
     w_Version := w_Version e; w_CRC := calculateCRC e |}.

Definition allocRef (e : Entry) kv : eref * KVStore :=
  ({| ref := freshRef kv; ent := e |},
   {| opts := opts kv; serializer := serializer kv; shards := shards kv;
      freshRef := freshRef kv + 1; wal := wal kv; hits := hits kv; misses := misses kv;
      evictions := evictions kv; entries := entries kv; memoryUsage := memoryUsage kv;
      walSize := walSize kv; version := version kv; closed := closed kv |}).

Definition addEntry (entry : eref) kv : KVStore :=
  let key := e_Key (ent entry) in
  let i := shardIndex kv key in
  let s := default emptyShard (shards kv !! i) in
  updShard i (moveToFront entry (mkShard (<[key := entry]> (data s)) (lruHead s) (lruTail s)
                                   (next s) (prev s)))
    1 (e_Size (ent entry)) kv.

Definition removeKey key kv : KVStore :=
  match data (getShard kv key) !! key with
  | Some old => deleteFromShard (shardIndex kv key) key old kv
  | None => kv
  end.

(** Remove the old entry if there is one, then add the new one in front; common to
    [Set] and to the replay of the log. *)
Definition putEntry (e : Entry) kv : KVStore :=
  let '(entry, kv) := allocRef e kv in addEntry entry (removeKey (e_Key e) kv).

Definition Set_ key value (ttl now : Z) kv : option kvErr * KVStore :=
  if closed kv then (Some ErrStoreClosed, kv)
  else if ReadOnly (opts kv) then (Some ErrStoreClosed, kv)
  else
    let expireAt : gotime := if (0 <? ttl)%Z then Some (now + ttl)%Z else None in
    let size := entrySize key value in
    if (maxMemory kv <? size)%Z then (Some ErrValueTooLarge, kv)
    else match ensureCapacityForSet key size kv with
    | (Err e, kv) => (Some e, kv)
    | (Ok _, kv) =>
        let kv := nextVersion kv in
        let walEntry := withCRC {| w_Op := opSet; w_Key := key; w_Value := value;
                                   w_ExpireAt := expireAt; w_Version := version kv; w_CRC := 0 |} in
        match writeWALEntry walEntry kv with
        | None => (Some ErrWALWrite, kv)
        | Some kv =>
            (None, putEntry {| e_Key := key; e_Value := value; e_ExpireAt := expireAt;
                               e_Size := size; e_Version := version kv |} kv)
        end
    end.

Definition expired (t : gotime) now : bool :=
  match t with Some n => (n <? now)%Z | None => false end.

Definition countGet (hit : bool) kv : KVStore :=
  {| opts := opts kv; serializer := serializer kv; shards := shards kv; freshRef := freshRef kv;
     wal := wal kv; hits := if hit then hits kv + 1 else hits kv;
     misses := if hit then misses kv else misses kv + 1; evictions := evictions kv;
     entries := entries kv; memoryUsage := memoryUsage kv; walSize := walSize kv;
     version := version kv; closed := closed kv |}.

(** [Get]: the clock is read at [t1] and again under the write lock at [t2]. *)
Definition Get key (t1 t2 : Z) kv : result kvErr gostring * KVStore :=
  if closed kv then (Err ErrStoreClosed, kv)
  else match data (getShard kv key) !! key with
  | None => (Err ErrKeyNotFound, countGet false kv)
  | Some r =>
      if expired (e_ExpireAt (ent r)) t1 then
        (Err ErrKeyExpired, countGet false (deleteFromShard (shardIndex kv key) key r kv))
      else if expired (e_ExpireAt (ent r)) t2 then (Err ErrKeyExpired, countGet false kv)
      else (Ok (e_Value (ent r)),
            countGet true (updShard (shardIndex kv key) (moveToFront r (getShard kv key)) 0 0 kv))
  end.

Definition Delete key kv : option kvErr * KVStore :=
  if closed kv then (Some ErrStoreClosed, kv)
  else if ReadOnly (opts kv) then (Some ErrStoreClosed, kv)
  else
    let kv := nextVersion kv in
    let walEntry := withCRC {| w_Op := opDelete; w_Key := key; w_Value := []; w_ExpireAt := None;
                               w_Version := version kv; w_CRC := 0 |} in
    match writeWALEntry walEntry kv with
    | None => (Some ErrWALWrite, kv)
    | Some kv =>
        match data (getShard kv key) !! key with
        | None => (Some ErrKeyNotFound, kv)
        | Some r => (None, deleteFromShard (shardIndex kv key) key r kv)
        end
    end.

Definition Exists_ key now kv : bool :=
  if closed kv then false
  else match data (getShard kv key) !! key with
       | None => false
       | Some r => negb (expired (e_ExpireAt (ent r)) now)
       end.

(** [ExpireAt.IsZero() || now.Before(ExpireAt)]. *)
Definition unexpired (t : gotime) now : bool :=
  match t with Some n => (now <? n)%Z | None => true end.

Definition Keys now kv : list gostring :=
  if closed kv then []
  else sort_strings
    (s ← shards kv;
     fst <$> filter (λ p, unexpired (e_ExpireAt (ent (snd p))) now = true) (map_to_list (data s))).

Definition Close kv : KVStore :=
  {| opts := opts kv; serializer := serializer kv; shards := shards kv; freshRef := freshRef kv;
     wal := wal kv; hits := hits kv; misses := misses kv; evictions := evictions kv;
     entries := entries kv; memoryUsage := memoryUsage kv; walSize := walSize kv;
     version := version kv; closed := true |}.

(** ** Recovery *)

Definition applyWAL (e : WALEntry) kv : KVStore :=
  if decide (w_Op e = opSet) then
    putEntry {| e_Key := w_Key e; e_Value := w_Value e; e_ExpireAt := w_ExpireAt e;
                e_Size := entrySize (w_Key e) (w_Value e); e_Version := w_Version e |} kv
  else if decide (w_Op e = opDelete) then removeKey (w_Key e) kv
  else kv.

(** The loop of [replayWAL]; every record takes at least one byte, so one round
    more than there are bytes is enough. *)
Fixpoint replayLoop (fuel : nat) (s : S) (input : gostring) kv : result kvErr KVStore :=
  match fuel with
  | O => Err ErrDiverged
  | Datatypes.S fuel =>
      match DecodeWALEntry s input with
      | Err EOF => Ok kv
      | Err _ => Err ErrInvalidEntry
      | Ok (e, rest) =>
          if validateWALEntry e then replayLoop fuel s rest (applyWAL e kv)
          else Err ErrInvalidEntry
      end
  end.

Definition replayWAL (s : S) (file : gostring) kv : result kvErr KVStore :=
  if decide (file = []) then Ok kv else replayLoop (Datatypes.S (length file)) s file kv.

(** ** Snapshots, in the binary format's framing *)

Definition liveEntries now kv : list Entry :=
  s ← shards kv;
  filter (λ e, unexpired (e_ExpireAt e) now = true) ((ent ∘ snd) <$> map_to_list (data s)).

(** [Snapshot]: the new snapshot file, and the store with its log reset. *)
Definition Snapshot now kv : result kvErr (gostring * KVStore) :=
  if closed kv || ReadOnly (opts kv) then Err ErrStoreClosed
  else match mapM (EncodeEntry (serializer kv)) (liveEntries now kv) with
  | None => Err ErrWALWrite
  | Some bs =>
      Ok (Binary.WriteSnapshotHeader now ++ mjoin bs,
          {| opts := opts kv; serializer := serializer kv; shards := shards kv;
             freshRef := freshRef kv; wal := []; hits := hits kv; misses := misses kv;
             evictions := evictions kv; entries := entries kv; memoryUsage := memoryUsage kv;
             walSize := 0; version := version kv; closed := closed kv |})
  end.

(** One entry of a snapshot goes in without looking for an older one. *)
Definition loadEntry (e : Entry) kv : KVStore :=
  let '(entry, kv) := allocRef e kv in addEntry entry kv.

Fixpoint loadLoop (fuel : nat) (s : S) (input : gostring) kv : result kvErr KVStore :=
  match fuel with
  | O => Err ErrDiverged
  | Datatypes.S fuel =>
      match DecodeEntry s input with
      | Err EOF => Ok kv
      | Err _ => Err ErrInvalidEntry
      | Ok (e, rest) => loadLoop fuel s rest (loadEntry e kv)
      end
  end.

Definition loadSnapshot (s : S) (file : gostring) kv : result kvErr KVStore :=
  match Binary.ReadSnapshotHeader file with
  | Err _ => Err ErrInvalidEntry
  | Ok input => loadLoop (Datatypes.S (length input)) s input kv
  end.

(** [loadData]: the snapshot, if there is one, then the log. *)
Definition loadData (s : S) (snapshot : option gostring) (log : gostring) kv : result kvErr KVStore :=
  match match snapshot with None => Ok kv | Some file => loadSnapshot s file kv end with
  | Ok kv => replayWAL s log kv
  | Err e => Err e
  end.

End store.
#[global] Arguments KVStore : clear implicits.
