(* ===== verification/KVFacts.v ===== *)
(** * Theorems about the key-value engine

    The abstract store is a finite map from keys to entries. The operations are
    shown to implement it up to evictions, and the log to preserve it across a
    restart. Proved for any [Serializer] that satisfies its laws, and instantiated
    with the binary format. *)

From stdpp Require Import options.
From S2P Require Import Prelude GoStrings GoNumbers GoBytes KVCodec KVStore.

Section facts.
Context {S : Type} `{!Serializer S, !SerializerLaws S}.
Implicit Types (kv : KVStore S) (key value k : gostring) (r : eref).

(** ** Looking up *)

Definition kv_lookup k kv : option Entry := ent <$> data (getShard kv k) !! k.

(** Every reference kept in a shard has a positive size. *)
Definition good r : Prop := (0 < e_Size (ent r))%Z.
Definition all_good {K} `{Countable K} (m : gmap K eref) : Prop := map_Forall (λ _, good) m.
Definition opt_good (o : option eref) : Prop := match o with Some r => good r | None => True end.
Record shard_good (s : Shard) : Prop := {
  g_data : all_good (data s);
  g_head : opt_good (lruHead s);
  g_tail : opt_good (lruTail s);
  g_next : all_good (next s);
  g_prev : all_good (prev s);
}.

Record kv_inv kv : Prop := {
  i_count : 0 < ShardCount (opts kv);
  i_length : length (shards kv) = ShardCount (opts kv);
  i_keys i s k r : shards kv !! i = Some s → data s !! k = Some r →
    e_Key (ent r) = k ∧ shardIndex kv k = i;
  i_good : Forall shard_good (shards kv);
}.

Lemma shardIndex_lt kv k : kv_inv kv → shardIndex kv k < length (shards kv).
Proof.
  intros [Hc Hl _ _]. rewrite Hl. unfold shardIndex.
  assert (N.land (ChecksumIEEE k) (N.of_nat (ShardCount (opts kv)) - 1)
          ≤ N.of_nat (ShardCount (opts kv)) - 1)%N by (apply N.land_le_r). lia.
Qed.

Lemma getShard_lookup kv k : kv_inv kv → shards kv !! shardIndex kv k = Some (getShard kv k).
Proof.
  intros Hi. unfold getShard. destruct (lookup_lt_is_Some_2 (shards kv) (shardIndex kv k)) as [s Hs].
  { by apply shardIndex_lt. }
  by rewrite Hs.
Qed.

Lemma moveToFront_data r s : data (moveToFront r s) = data s.
Proof. unfold moveToFront. by repeat case_match. Qed.
Lemma unlink_data key r s : data (unlinkEntry key r s) = delete key (data s).
Proof. unfold unlinkEntry. by repeat case_match. Qed.

Lemma lookup_updShard i s d1 d2 kv k :
  i < length (shards kv) →
  kv_lookup k (updShard i s d1 d2 kv) =
  if decide (shardIndex kv k = i) then ent <$> data s !! k else kv_lookup k kv.
Proof.
  intros Hi. unfold kv_lookup, getShard. simpl.
  change (shardIndex (updShard i s d1 d2 kv) k) with (shardIndex kv k).
  case_decide as E.
  - rewrite E. by rewrite list_lookup_insert_eq.
  - by rewrite list_lookup_insert_ne by done.
Qed.

(** ** The shard invariant *)

Lemma opt_good_lookup (m : gmap nat eref) i : all_good m → opt_good (m !! i).
Proof. intros Hm. destruct (m !! i) eqn:E; [|done]. by apply (Hm i). Qed.

Lemma assign_good (i : nat) v m : opt_good v → all_good m → all_good (assign i v m).
Proof.
  intros Hv Hm. destruct v as [x|]; simpl.
  - by apply map_Forall_insert_2.
  - by apply map_Forall_delete.
Qed.

Lemma delete_good {K} `{Countable K} (i : K) m : all_good m → all_good (delete i m).
Proof. apply map_Forall_delete. Qed.
Lemma insert_good {K} `{Countable K} (i : K) r m : good r → all_good m → all_good (<[i := r]> m).
Proof. intros Hr Hm. by apply (map_Forall_insert_2 (λ _, good)). Qed.

Create HintDb good.
#[local] Hint Resolve opt_good_lookup assign_good delete_good insert_good : good.

Lemma moveToFront_good r s : good r → shard_good s → shard_good (moveToFront r s).
Proof.
  intros Hr [G1 G2 G3 G4 G5]. unfold moveToFront. case_match; [done|].
  set (next1 := match prev s !! ref r with Some p => _ | None => next s end).
  assert (all_good next1) as Hn1 by (unfold next1; case_match; eauto with good).
  set (pt := match next1 !! ref r with Some n => _ | None => _ end).
  assert (all_good pt.1 ∧ opt_good pt.2) as [Hp1 Ht1]
    by (unfold pt; case_match; simpl; eauto with good).
  destruct pt as [prev1 tail1]. simpl in *. split; simpl; eauto with good.
  - by destruct tail1.
  - destruct (lruHead s); eauto with good.
Qed.

Lemma unlink_good key r s : shard_good s → shard_good (unlinkEntry key r s).
Proof.
  intros [G1 G2 G3 G4 G5]. unfold unlinkEntry.
  set (nh := match prev s !! ref r with Some p => _ | None => _ end).
  assert (all_good nh.1 ∧ opt_good nh.2) as [Hn1 Hh1]
    by (unfold nh; case_match; simpl; eauto with good).
  destruct nh as [next1 head1]. simpl in *.
  set (pt := match next1 !! ref r with Some n => _ | None => _ end).
  assert (all_good pt.1 ∧ opt_good pt.2) as [Hp1 Ht1]
    by (unfold pt; case_match; simpl; eauto with good).
  destruct pt as [prev1 tail1]. simpl in *. split; simpl; eauto with good.
Qed.

Lemma upd_inv i s d1 d2 kv :
  kv_inv kv → shard_good s →
  (∀ k r, data s !! k = Some r → e_Key (ent r) = k ∧ shardIndex kv k = i) →
  kv_inv (updShard i s d1 d2 kv).
Proof.
  intros [I1 I2 I3 I4] Hs Hk. split; simpl; [done|by rewrite length_insert| |].
  - intros j s' k r Hj Hd. change (shardIndex (updShard i s d1 d2 kv) k) with (shardIndex kv k).
    apply list_lookup_insert_Some in Hj as [(<- & <- & _)|[_ Hj]]; [by apply Hk|by eapply I3].
  - by apply Forall_insert.
Qed.

Lemma shard_good_at i kv : kv_inv kv → shard_good (default emptyShard (shards kv !! i)).
Proof.
  intros Hi. destruct (shards kv !! i) as [s|] eqn:E; simpl.
  - eapply Forall_lookup_1; [apply (i_good _ Hi)|done].
  - split; simpl; try done; apply map_Forall_empty.
Qed.

Lemma delete_inv i key r kv : kv_inv kv → kv_inv (deleteFromShard i key r kv).
Proof.
  intros Hi. apply upd_inv; [done|by apply unlink_good, shard_good_at|].
  intros k r'. rewrite unlink_data, lookup_delete_Some. intros [_ Hd].
  destruct (shards kv !! i) as [s|] eqn:E; simpl in Hd; [by eapply i_keys|].
  by rewrite lookup_empty in Hd.
Qed.

(** Deleting removes at most the one key. *)
Lemma delete_lookup i key r kv k :
  kv_inv kv →
  kv_lookup k (deleteFromShard i key r kv) =
  if decide (i = shardIndex kv k ∧ k = key) then None else kv_lookup k kv.
Proof.
  intros Hi. destruct (decide (i < length (shards kv))) as [Hlt|Hge].
  - unfold deleteFromShard. rewrite lookup_updShard by done. rewrite unlink_data.
    case_decide as E; [subst i|by rewrite decide_False by naive_solver].
    unfold kv_lookup, getShard. rewrite lookup_delete. repeat case_decide; naive_solver.
  - rewrite decide_False.
    + unfold deleteFromShard, updShard, kv_lookup, getShard. simpl. rewrite list_insert_ge by lia. done.
    + intros [-> _]. apply Hge. by apply shardIndex_lt.
Qed.

Lemma removeKey_lookup key kv k :
  kv_inv kv → kv_lookup k (removeKey key kv) = if decide (k = key) then None else kv_lookup k kv.
Proof.
  intros Hi. unfold removeKey. destruct (data (getShard kv key) !! key) as [r|] eqn:E.
  - rewrite delete_lookup by done. repeat case_decide; naive_solver.
  - case_decide; [|done]. subst. unfold kv_lookup. by rewrite E.
Qed.

Lemma removeKey_inv key kv : kv_inv kv → kv_inv (removeKey key kv).
Proof. intros Hi. unfold removeKey. case_match; [by apply delete_inv|done]. Qed.

Lemma addEntry_inv r kv : kv_inv kv → good r → kv_inv (addEntry r kv).
Proof.
  intros Hi Hr. pose proof (shard_good_at (shardIndex kv (e_Key (ent r))) kv Hi) as Hs.
  destruct Hs as [G1 G2 G3 G4 G5]. apply upd_inv; [done| |].
  - apply moveToFront_good; [done|]. split; simpl; eauto with good.
  - intros k r'. rewrite moveToFront_data. simpl. rewrite lookup_insert_Some.
    intros [[<- <-]|[_ Hd]]; [done|].
    destruct (shards kv !! _) as [s|] eqn:E; simpl in Hd; [by eapply i_keys|].
    by rewrite lookup_empty in Hd.
Qed.

Lemma addEntry_lookup r kv k :
  kv_inv kv →
  kv_lookup k (addEntry r kv) = if decide (k = e_Key (ent r)) then Some (ent r) else kv_lookup k kv.
Proof.
  intros Hi. unfold addEntry. rewrite lookup_updShard by (by apply shardIndex_lt).
  rewrite moveToFront_data. simpl. case_decide as E.
  - rewrite lookup_insert. destruct (decide (k = e_Key (ent r))) as [->|Hne].
    + by rewrite decide_True.
    + rewrite decide_False by done. unfold kv_lookup, getShard. by rewrite E.
  - rewrite decide_False by congruence. done.
Qed.

(** Counters, the log and the clock do not matter to the map. *)
Definition same_view kv kv' : Prop := opts kv' = opts kv ∧ shards kv' = shards kv.

Lemma same_view_lookup kv kv' k : same_view kv kv' → kv_lookup k kv' = kv_lookup k kv.
Proof. intros [E1 E2]. unfold kv_lookup, getShard, shardIndex. by rewrite E1, E2. Qed.
Lemma same_view_inv kv kv' : same_view kv kv' → kv_inv kv → kv_inv kv'.
Proof.
  intros [E1 E2] [I1 I2 I3 I4]. split; rewrite ?E1, ?E2; try done.
  intros i s k r. unfold shardIndex. rewrite E1. apply I3.
Qed.

(** [Set] on the map: the new entry replaces the old one. *)
Lemma putEntry_spec e kv :
  kv_inv kv → (0 < e_Size e)%Z →
  kv_inv (putEntry e kv) ∧
  ∀ k, kv_lookup k (putEntry e kv) = if decide (k = e_Key e) then Some e else kv_lookup k kv.
Proof.
  intros Hi He. unfold putEntry. destruct (allocRef e kv) as [r kv1] eqn:E.
  assert (ent r = e ∧ same_view kv kv1) as [Hr Hv] by (unfold allocRef in E; by simplify_eq/=).
  pose proof (same_view_inv _ _ Hv Hi) as Hi1. pose proof (removeKey_inv (e_Key e) kv1 Hi1) as Hi2.
  split.
  - apply addEntry_inv; [done|]. unfold good. by rewrite Hr.
  - intros k. rewrite addEntry_lookup, Hr by done. case_decide; [done|].
    rewrite removeKey_lookup, decide_False by done. by apply same_view_lookup.
Qed.

(** ** Eviction *)

(** [kv'] holds nothing that [kv] did not hold, and still holds [key] if [kv] did. *)
Record shrinks key kv kv' : Prop := {
  sh_inv : kv_inv kv';
  sh_sub k e : kv_lookup k kv' = Some e → kv_lookup k kv = Some e;
  sh_key : kv_lookup key kv' = kv_lookup key kv;
  sh_opts : opts kv' = opts kv ∧ serializer kv' = serializer kv ∧ wal kv' = wal kv ∧
            version kv' = version kv ∧ closed kv' = closed kv;
}.

Lemma shrinks_refl key kv : kv_inv kv → shrinks key kv kv.
Proof. intros Hi. by split. Qed.
Lemma shrinks_trans key kv1 kv2 kv3 :
  shrinks key kv1 kv2 → shrinks key kv2 kv3 → shrinks key kv1 kv3.
Proof.
  intros [A1 A2 A3 (O1 & O2 & O3 & O4 & O5)] [B1 B2 B3 (P1 & P2 & P3 & P4 & P5)].
  split; [done|by auto|congruence|]. repeat split; congruence.
Qed.

Lemma findEvictable_spec key l i j :
  findEvictable key l i = Some j →
  ∃ s t, i ≤ j ∧ l !! (j - i) = Some s ∧ lruTail s = Some t ∧ e_Key (ent t) ≠ key.
Proof.
  revert i. induction l as [|s l IH]; intros i; simpl; [done|].
  assert (∀ E : findEvictable key l (i + 1) = Some j, ∃ s0 t, i ≤ j ∧ (s :: l) !! (j - i) = Some s0 ∧
    lruTail s0 = Some t ∧ e_Key (ent t) ≠ key) as Hrec.
  { intros E. destruct (IH _ E) as (s' & t & Hij & Hl & Ht & Hk). exists s', t. split; [lia|].
    split; [|done]. by replace (j - i) with (Datatypes.S (j - (i + 1))) by lia. }
  destruct (lruTail s) as [t|] eqn:Et; [|done]. case_decide as Hk; [done|].
  intros [= <-]. exists s, t. rewrite Nat.sub_diag. done.
Qed.

Lemma evict_spec key kv kv' :
  kv_inv kv → evictOneLRUSkip key kv = Some kv' →
  shrinks key kv kv' ∧ (entries kv' = entries kv - 1)%Z ∧ (memoryUsage kv' < memoryUsage kv)%Z.
Proof.
  intros Hi. unfold evictOneLRUSkip. destruct (findEvictable key (shards kv) 0) as [i|] eqn:E; simpl; [|done].
  intros [= <-]. apply findEvictable_spec in E as (s & t & _ & Hs & Ht & Hk).
  rewrite Nat.sub_0_r in Hs. unfold evictLRU. rewrite Hs. simpl. rewrite Ht.
  assert (good t) as Hg.
  { pose proof (shard_good_at i kv Hi) as [_ _ G _ _]. rewrite Hs in G. simpl in G. by rewrite Ht in G. }
  set (kv1 := deleteFromShard i (e_Key (ent t)) t kv).
  pose proof (delete_lookup i (e_Key (ent t)) t kv) as Hl.
  split; [|split; [simpl; lia|]].
  - split; [|intros k e| |done].
    + eapply same_view_inv; [|by apply (delete_inv i (e_Key (ent t)) t)]. done.
    + rewrite (same_view_lookup kv1) by done. unfold kv1. rewrite Hl by done. by case_decide.
    + rewrite (same_view_lookup kv1) by done. unfold kv1. rewrite Hl by done.
      by rewrite decide_False by naive_solver.
  - simpl. unfold good in Hg. lia.
Qed.

(** The eviction loops terminate: [measure] bounds the rounds. *)
Lemma evictLoop_spec (enough : KVStore S → bool) (measure : KVStore S → Z) key fuel kv :
  (∀ kv1 kv2, evictOneLRUSkip key kv1 = Some kv2 → kv_inv kv1 →
     opts kv2 = opts kv1 → (measure kv2 < measure kv1)%Z) →
  (∀ kv1, opts kv1 = opts kv → (measure kv1 ≤ 0)%Z → enough kv1 = true) →
  kv_inv kv → (measure kv < Z.of_nat fuel)%Z → 0 < fuel →
  ∃ b kv', evictLoop fuel enough key kv = Some (b, kv') ∧ shrinks key kv kv' ∧
    (b = true → enough kv' = true) ∧ (entries kv' ≤ entries kv)%Z.
Proof.
  intros Hdec Hen. revert kv Hen. induction fuel as [|fuel IH]; intros kv Hen Hi Hm Hf; [lia|]. simpl.
  destruct (enough kv) eqn:E.
  { exists true, kv. split; [done|]. split; [by apply shrinks_refl|]. split; [done|lia]. }
  destruct (evictOneLRUSkip key kv) as [kv1|] eqn:Ev.
  2:{ exists false, kv. split; [done|]. split; [by apply shrinks_refl|]. split; [done|lia]. }
  destruct (evict_spec _ _ _ Hi Ev) as (Hsh & He & _).
  assert (opts kv1 = opts kv) as Ho by apply Hsh.
  pose proof (Hdec _ _ Ev Hi Ho) as Hlt.
  assert (0 < measure kv)%Z.
  { destruct (Z.le_gt_cases (measure kv) 0); [|lia]. by rewrite Hen in E. }
  destruct (IH kv1) as (b & kv' & -> & Hsh' & Hb & He'); [|by apply Hsh|lia|lia|].
  { intros kv2 Ho2. rewrite Ho in Ho2. auto. }
  exists b, kv'. split; [done|]. split; [by eapply shrinks_trans|]. split; [done|lia].
Qed.

Lemma ensureCapacity_spec key size kv :
  kv_inv kv → (0 < size)%Z →
  let '(r, kv') := ensureCapacityForSet key size kv in
  shrinks key kv kv' ∧ r ≠ Err ErrDiverged.
Proof.
  intros Hi Hsz. unfold ensureCapacityForSet.
  set (replacing := bool_decide _). set (oldSize := match data (getShard kv key) !! key with Some r => _ | None => _ end).
  assert (0 ≤ oldSize)%Z as Hold.
  { unfold oldSize. destruct (data (getShard kv key) !! key) as [r|] eqn:E; [|done].
    pose proof (shard_good_at (shardIndex kv key) kv Hi) as [G _ _ _ _].
    assert (good r) as Hg by (by apply (G key)). unfold good in Hg. lia. }
  destruct (evictLoop_spec (enoughEntries replacing) (λ kv', entries kv' - MaxEntries (opts kv') + 1)%Z
    key (Z.to_nat (entries kv - MaxEntries (opts kv)) + 2) kv) as (b & kv1 & -> & Hsh & Hb & _);
    [| |done|lia|lia|].
  { intros kv1 kv2 E Hi1 Ho. destruct (evict_spec _ _ _ Hi1 E) as (_ & -> & _). rewrite Ho. lia. }
  { intros kv1 _ Hm. unfold enoughEntries. destruct replacing; [apply Z.leb_le|apply Z.ltb_lt]; lia. }
  destruct b; [|done].
  destruct (evictLoop_spec (enoughMemory replacing oldSize size)
    (λ kv', memoryUsage kv' + size - maxMemory kv')%Z
    key (Z.to_nat (memoryUsage kv1 + size - maxMemory kv1) + 1) kv1) as (b2 & kv2 & -> & Hsh2 & Hb2 & _);
    [| |by apply Hsh|lia|lia|].
  { intros kv3 kv4 E Hi1 Ho. destruct (evict_spec _ _ _ Hi1 E) as (_ & _ & ?).
    unfold maxMemory. rewrite Ho. lia. }
  { intros kv3 _ Hm. unfold enoughMemory. apply Z.leb_le. destruct replacing; lia. }
  destruct b2; (split; [by eapply shrinks_trans|done]).
Qed.

(** ** The operations *)

(** Everything but the map is as before. *)
Definition same_meta kv kv' : Prop :=
  opts kv' = opts kv ∧ serializer kv' = serializer kv ∧ wal kv' = wal kv ∧
  version kv' = version kv ∧ closed kv' = closed kv.

Lemma putEntry_meta e kv : same_meta kv (putEntry e kv).
Proof. unfold putEntry, addEntry, removeKey, deleteFromShard, updShard. simpl. by case_match. Qed.

Lemma writeWAL_spec e kv kv' :
  writeWALEntry e kv = Some kv' →
  ∃ bs, EncodeWALEntry (serializer kv) e = Some bs ∧ wal kv' = wal kv ++ bs ∧
    same_view kv kv' ∧ serializer kv' = serializer kv ∧ version kv' = version kv ∧
    closed kv' = closed kv.
Proof.
  unfold writeWALEntry. destruct (EncodeWALEntry (serializer kv) e) as [bs|]; simpl; [|done].
  intros [= <-]. by exists bs.
Qed.

Definition set_expiry (ttl now : Z) : gotime := if (0 <? ttl)%Z then Some (now + ttl)%Z else None.
Definition set_record key value ttl now (ver : Z) : WALEntry :=
  withCRC {| w_Op := opSet; w_Key := key; w_Value := value; w_ExpireAt := set_expiry ttl now;
             w_Version := ver; w_CRC := 0 |}.
Definition set_entry key value ttl now (ver : Z) : Entry :=
  {| e_Key := key; e_Value := value; e_ExpireAt := set_expiry ttl now;
     e_Size := entrySize key value; e_Version := ver |}.
Definition del_record key (ver : Z) : WALEntry :=
  withCRC {| w_Op := opDelete; w_Key := key; w_Value := []; w_ExpireAt := None;
             w_Version := ver; w_CRC := 0 |}.

Lemma entrySize_pos key value : (0 < entrySize key value)%Z.
Proof. unfold entrySize. lia. Qed.

Lemma Set_spec key value ttl now kv :
  kv_inv kv →
  let '(e, kv') := Set_ key value ttl now kv in
  kv_inv kv' ∧ opts kv' = opts kv ∧ serializer kv' = serializer kv ∧ closed kv' = closed kv ∧
  (version kv ≤ version kv' ≤ version kv + 1)%Z ∧
  match e with
  | None =>
      ∃ kv1 bs, shrinks key kv kv1 ∧ version kv' = (version kv + 1)%Z ∧
        EncodeWALEntry (serializer kv) (set_record key value ttl now (version kv')) = Some bs ∧
        wal kv' = wal kv ++ bs ∧
        ∀ k, kv_lookup k kv' = if decide (k = key) then Some (set_entry key value ttl now (version kv'))
                               else kv_lookup k kv1
  | Some e =>
      e ≠ ErrDiverged ∧ wal kv' = wal kv ∧ kv_lookup key kv' = kv_lookup key kv ∧
      ∀ k x, kv_lookup k kv' = Some x → kv_lookup k kv = Some x
  end.
Proof.
  intros Hi. unfold Set_.
  destruct (closed kv) eqn:Ecl; [by split_and!; try lia|].
  destruct (ReadOnly (opts kv)); [by split_and!; try lia|].
  destruct (maxMemory kv <? entrySize key value)%Z; [by split_and!; try lia|].
  pose proof (ensureCapacity_spec key (entrySize key value) kv Hi (entrySize_pos _ _)) as Hc.
  destruct (ensureCapacityForSet key (entrySize key value) kv) as [[u|e] kv1].
  2:{ destruct Hc as [[S1 S2 S3 (O1 & O2 & O3 & O4 & O5)] He].
      by split_and!; try lia; try congruence. }
  destruct Hc as [Hsh _]. pose proof Hsh as [S1 S2 S3 (O1 & O2 & O3 & O4 & O5)].
  fold (set_expiry ttl now). change (version (nextVersion kv1)) with (version kv1 + 1)%Z.
  fold (set_record key value ttl now (version kv1 + 1)).
  destruct (writeWALEntry _ (nextVersion kv1)) as [kv2|] eqn:Ew.
  2:{ split; [by apply (same_view_inv kv1)|]. simpl. by split_and!; try lia; try congruence. }
  apply writeWAL_spec in Ew as (bs & Hbs & Hw & Hv & Hs & Hver & Hcl). simpl in Hbs, Hw, Hs, Hver, Hcl.
  assert (same_view kv1 kv2) as Hv' by done.
  change {| e_Key := key |} with (set_entry key value ttl now (version kv2)).
  destruct (putEntry_spec (set_entry key value ttl now (version kv2)) kv2) as [Hi' Hl].
  { by apply (same_view_inv kv1). }
  { apply entrySize_pos. }
  destruct (putEntry_meta (set_entry key value ttl now (version kv2)) kv2) as (P1 & P2 & P3 & P4 & P5).
  destruct Hv as [Hv1 Hv2]. simpl in Hv1, Hv2.
  split; [done|]. split; [congruence|]. split; [congruence|]. split; [congruence|]. split; [lia|].
  exists kv1, bs. rewrite P4, Hver, O4 in *. split; [done|]. split; [done|]. split; [by rewrite <- O2|].
  split; [congruence|]. intros k. rewrite Hl. simpl. case_decide; [done|]. by apply same_view_lookup.
Qed.

Lemma Get_spec key t1 t2 kv :
  kv_inv kv →
  let '(r, kv') := Get key t1 t2 kv in
  kv_inv kv' ∧ same_meta kv kv' ∧
  (∀ k x, kv_lookup k kv' = Some x → kv_lookup k kv = Some x) ∧
  r = if closed kv then Err ErrStoreClosed
      else match kv_lookup key kv with
           | None => Err ErrKeyNotFound
           | Some e => if expired (e_ExpireAt e) t1 || expired (e_ExpireAt e) t2
                       then Err ErrKeyExpired else Ok (e_Value e)
           end.
Proof.
  intros Hi. unfold Get. destruct (closed kv) eqn:Ecl; [done|]. unfold kv_lookup at 3.
  destruct (data (getShard kv key) !! key) as [r|] eqn:E; simpl.
  2:{ split; [by apply (same_view_inv kv)|]. by split. }
  destruct (expired (e_ExpireAt (ent r)) t1); simpl.
  { split; [by apply (same_view_inv (deleteFromShard (shardIndex kv key) key r kv)), delete_inv|].
    split; [done|]. split; [|done]. intros k x.
    rewrite (same_view_lookup (deleteFromShard (shardIndex kv key) key r kv)), delete_lookup by done.
    by case_decide. }
  destruct (expired (e_ExpireAt (ent r)) t2); simpl.
  { split; [by apply (same_view_inv kv)|]. by split. }
  set (kv1 := updShard (shardIndex kv key) (moveToFront r (getShard kv key)) 0 0 kv).
  assert (good r) as Hg.
  { pose proof (shard_good_at (shardIndex kv key) kv Hi) as [G _ _ _ _]. by apply (G key). }
  assert (kv_inv kv1) as Hi1.
  { apply upd_inv; [done| |].
    - apply moveToFront_good; [done|]. apply (shard_good_at (shardIndex kv key) kv Hi).
    - intros k r'. rewrite moveToFront_data. intros Hd. eapply i_keys; [done| |done]. by apply getShard_lookup. }
  split; [by apply (same_view_inv kv1)|]. split; [done|]. split; [|done]. intros k x.
  rewrite (same_view_lookup kv1) by done. unfold kv1.
  rewrite lookup_updShard by (by apply shardIndex_lt). rewrite moveToFront_data.
  case_decide as Ek; [|done]. unfold kv_lookup, getShard. by rewrite Ek.
Qed.

Lemma Delete_spec key kv :
  kv_inv kv →
  let '(e, kv') := Delete key kv in
  kv_inv kv' ∧ opts kv' = opts kv ∧ serializer kv' = serializer kv ∧ closed kv' = closed kv ∧
  (version kv ≤ version kv' ≤ version kv + 1)%Z ∧
  if bool_decide (e = None ∨ e = Some ErrKeyNotFound) then
    ∃ bs, version kv' = (version kv + 1)%Z ∧
      EncodeWALEntry (serializer kv) (del_record key (version kv')) = Some bs ∧
      wal kv' = wal kv ++ bs ∧
      (e = None ↔ is_Some (kv_lookup key kv)) ∧
      ∀ k, kv_lookup k kv' = if decide (k = key) then None else kv_lookup k kv
  else wal kv' = wal kv ∧ ∀ k, kv_lookup k kv' = kv_lookup k kv.
Proof.
  intros Hi. unfold Delete.
  destruct (closed kv) eqn:Ecl; [by split_and!; try lia|].
  destruct (ReadOnly (opts kv)); [by split_and!; try lia|].
  change (version (nextVersion kv)) with (version kv + 1)%Z. fold (del_record key (version kv + 1)).
  destruct (writeWALEntry _ (nextVersion kv)) as [kv1|] eqn:Ew.
  2:{ split; [by apply (same_view_inv kv)|]. simpl. split_and!; try done; try lia. }
  apply writeWAL_spec in Ew as (bs & Hbs & Hw & Hv & Hs & Hver & Hcl). simpl in Hbs, Hw, Hs, Hver, Hcl.
  assert (same_view kv kv1) as Hv' by done. pose proof (same_view_inv _ _ Hv' Hi) as Hi1.
  destruct Hv as [Hv1 Hv2]. simpl in Hv1, Hv2.
  pose proof (same_view_lookup kv kv1 key Hv') as Hk. unfold kv_lookup at 1 in Hk.
  destruct (data (getShard kv1 key) !! key) as [r|] eqn:E; simpl in Hk.
  - split; [by apply delete_inv|]. simpl. split; [done|]. split; [done|]. split; [congruence|]. split; [lia|].
    exists bs. rewrite Hver. do 3 (split; [done|]). split.
    + rewrite <- Hk. split; [eauto|done].
    + intros k. rewrite delete_lookup by done. rewrite (same_view_lookup kv kv1) by done.
      repeat case_decide; naive_solver.
  - split; [done|]. split; [done|]. split; [done|]. split; [congruence|]. split; [lia|].
    rewrite bool_decide_true by auto. exists bs. rewrite Hver. do 3 (split; [done|]). split.
    + rewrite <- Hk. split; [done|]. by intros [? ?].
    + intros k. rewrite (same_view_lookup kv kv1) by done. case_decide; [|done]. by subst.
Qed.

(** ** The log *)

Definition wal_entry (e : WALEntry) : Entry :=
  {| e_Key := w_Key e; e_Value := w_Value e; e_ExpireAt := w_ExpireAt e;
     e_Size := entrySize (w_Key e) (w_Value e); e_Version := w_Version e |}.
(** What one record does to the abstract map. *)
Definition wal_apply (m : gmap gostring Entry) (e : WALEntry) : gmap gostring Entry :=
  if decide (w_Op e = opSet) then <[w_Key e := wal_entry e]> m
  else if decide (w_Op e = opDelete) then delete (w_Key e) m else m.

(** [bytes] is the text of the records [log], all of them valid. *)
Definition logged (s : S) (log : list WALEntry) (bytes : gostring) : Prop :=
  Forall (λ e, wal_ok e ∧ validateWALEntry e = true) log ∧
  ∃ bss, Forall2 (λ e bs, EncodeWALEntry s e = Some bs) log bss ∧ bytes = mjoin bss.

Lemma logged_snoc s log bytes e bs :
  logged s log bytes → wal_ok e → validateWALEntry e = true → EncodeWALEntry s e = Some bs →
  logged s (log ++ [e]) (bytes ++ bs).
Proof.
  intros [Hall (bss & Hb & ->)] He Hv Hbs. split; [by apply Forall_app; auto|].
  exists (bss ++ [bs]). split; [by apply Forall2_app; auto|]. rewrite list.join_app. simpl. by rewrite app_nil_r.
Qed.

Definition abstracts kv (m : gmap gostring Entry) : Prop := ∀ k, kv_lookup k kv = m !! k.

Lemma applyWAL_spec e kv m :
  kv_inv kv → abstracts kv m → kv_inv (applyWAL e kv) ∧ abstracts (applyWAL e kv) (wal_apply m e).
Proof.
  intros Hi Ha. unfold applyWAL, wal_apply. case_decide; [|case_decide].
  - destruct (putEntry_spec (wal_entry e) kv Hi (entrySize_pos _ _)) as [Hi' Hl]. split; [done|].
    intros k. fold (wal_entry e). rewrite Hl, lookup_insert. simpl. repeat case_decide; naive_solver.
  - split; [by apply removeKey_inv|]. intros k. rewrite removeKey_lookup, lookup_delete by done.
    repeat case_decide; naive_solver.
  - done.
Qed.

(** Replaying a valid log, whatever follows it, applies its records in order. *)
Lemma replayLoop_log s log bss tail fuel kv m :
  Forall (λ e, wal_ok e ∧ validateWALEntry e = true) log →
  Forall2 (λ e bs, EncodeWALEntry s e = Some bs) log bss →
  kv_inv kv → abstracts kv m → length (mjoin bss ++ tail) < fuel →
  ∃ kv' fuel', replayLoop fuel s (mjoin bss ++ tail) kv = replayLoop fuel' s tail kv' ∧
    0 < fuel' ∧ kv_inv kv' ∧ abstracts kv' (foldl wal_apply m log) ∧ opts kv' = opts kv.
Proof using Type*.
  intros Hall Hb. revert fuel kv m Hall.
  induction Hb as [|e bs log bss Hbs Hb IH]; intros fuel kv m Hall Hi Ha Hf; simpl.
  { exists kv, fuel. simpl in Hf. split_and!; try done; lia. }
  apply Forall_cons in Hall as [[He Hv] Hall]. destruct fuel as [|fuel]; [lia|].
  pose proof (wal_nonempty s e bs Hbs) as Hne. simpl.
  rewrite <- app_assoc, (wal_roundtrip s e bs) by done. rewrite Hv.
  destruct (applyWAL_spec e kv m Hi Ha) as [Hi' Ha'].
  destruct (IH fuel (applyWAL e kv) (wal_apply m e) Hall Hi' Ha') as (kv' & fuel' & E & Hp & Hi2 & Ha2 & Ho).
  { simpl in Hf. rewrite !length_app in *. destruct bs; [done|]. simpl in Hf. lia. }
  exists kv', fuel'. split_and!; try done. rewrite Ho. unfold applyWAL.
  repeat case_decide; try done.
  - apply putEntry_meta.
  - unfold removeKey, deleteFromShard, updShard. by case_match.
Qed.

Lemma new_kv_inv o s : 0 < ShardCount o → kv_inv (newStore o s) ∧ abstracts (newStore o s) ∅.
Proof.
  intros Hc.
  assert (∀ i sh, shards (newStore o s) !! i = Some sh → sh = emptyShard) as Hsh.
  { intros i sh Hs. simpl in Hs. by apply lookup_replicate in Hs as [-> _]. }
  split.
  - split; [done|simpl; by rewrite length_replicate| |].
    + intros i sh k r Hs Hd. apply Hsh in Hs as ->. simpl in Hd. by rewrite lookup_empty in Hd.
    + apply Forall_lookup_2. intros i sh Hs. apply Hsh in Hs as ->. split; simpl; try done;
        apply map_Forall_empty.
  - intros k. unfold kv_lookup, getShard. destruct (shards _ !! _) as [sh|] eqn:E; simpl.
    + apply Hsh in E as ->. simpl. by rewrite !lookup_empty.
    + by rewrite !lookup_empty.
Qed.

Lemma replay_log s log bytes kv m :
  kv_inv kv → abstracts kv m → logged s log bytes →
  ∃ kv', replayWAL s bytes kv = Ok kv' ∧ kv_inv kv' ∧ abstracts kv' (foldl wal_apply m log).
Proof using Type*.
  intros Hi Ha [Hall (bss & Hb & ->)]. unfold replayWAL.
  case_decide as Hnil.
  { destruct log as [|e log]; [eauto|]. inversion Hb as [|? bs ? bss' Hbs Hb']; subst.
    simpl in Hnil. apply app_eq_nil in Hnil as [-> _]. by destruct (wal_nonempty s e [] Hbs). }
  destruct (replayLoop_log s log bss [] (Datatypes.S (length (mjoin bss))) kv m Hall Hb Hi Ha)
    as (kv' & fuel' & E & Hp & Hi' & Ha' & _); [rewrite app_nil_r; lia|].
  rewrite app_nil_r in E. exists kv'. rewrite E. destruct fuel'; [lia|]. simpl. by rewrite wal_eof.
Qed.

(** A log that ends in a torn record is recovered up to it, or refused. *)
Lemma replay_torn s log bytes e bs torn kv m :
  kv_inv kv → abstracts kv m → logged s log bytes → wal_ok e → EncodeWALEntry s e = Some bs →
  torn `prefix_of` bs → torn ≠ bs →
  replayWAL s (bytes ++ torn) kv = Err ErrInvalidEntry ∨
  ∃ kv', replayWAL s (bytes ++ torn) kv = Ok kv' ∧ abstracts kv' (foldl wal_apply m log).
Proof using Type*.
  intros Hi Ha [Hall (bss & Hb & ->)] He Hbs Hpre Hne.
  destruct (replayLoop_log s log bss torn (Datatypes.S (length (mjoin bss ++ torn))) kv m Hall Hb Hi Ha)
    as (kv' & fuel' & E & Hp & Hi' & Ha' & _); [lia|].
  unfold replayWAL. case_decide as Hnil.
  { apply app_eq_nil in Hnil as [Hnil ->]. right. exists kv. split; [done|].
    destruct log as [|e' log]; [done|]. inversion Hb as [|? bs' ? bss' Hbs' Hb']; subst.
    simpl in Hnil. apply app_eq_nil in Hnil as [-> _]. by destruct (wal_nonempty s e' [] Hbs'). }
  rewrite E. destruct fuel'; [lia|]. simpl.
  destruct (wal_torn s e bs torn He Hbs Hpre Hne) as [err ->].
  destruct err; [right; by exists kv'|by left..].
Qed.

(** ** Snapshots *)

Implicit Types (e : Entry) (l : list Entry).

(** The entries a snapshot writes: the unexpired ones, each once. *)
Lemma liveEntries_elem now kv e :
  kv_inv kv →
  e ∈ liveEntries now kv ↔ kv_lookup (e_Key e) kv = Some e ∧ unexpired (e_ExpireAt e) now = true.
Proof.
  intros Hi. unfold liveEntries. rewrite list_elem_of_bind. setoid_rewrite list_elem_of_filter.
  setoid_rewrite list_elem_of_fmap. split.
  - intros (s & (Hu & [k r] & -> & Hd%elem_of_map_to_list) & Hs). simpl in *.
    apply list_elem_of_lookup in Hs as [i Hs]. destruct (i_keys _ Hi _ _ _ _ Hs Hd) as [Hk Hidx].
    split; [|done]. unfold kv_lookup, getShard. rewrite Hk, Hidx, Hs. simpl. by rewrite Hd.
  - intros [Hl Hu]. unfold kv_lookup in Hl. apply fmap_Some in Hl as (r & Hd & Hr).
    exists (getShard kv (e_Key e)). split.
    + split; [done|]. exists (e_Key e, r). by rewrite elem_of_map_to_list.
    + eapply list_elem_of_lookup_2. by apply getShard_lookup.
Qed.

(** Loading one entry inserts it. *)
Lemma loadEntry_spec e kv (m : gmap gostring Entry) :
  kv_inv kv → (0 < e_Size e)%Z → abstracts kv m →
  kv_inv (loadEntry e kv) ∧ abstracts (loadEntry e kv) (<[e_Key e := e]> m).
Proof.
  intros Hi He Ha. unfold loadEntry. destruct (allocRef e kv) as [r kv1] eqn:E.
  assert (ent r = e ∧ same_view kv kv1) as [Hr Hv] by (unfold allocRef in E; by simplify_eq/=).
  pose proof (same_view_inv _ _ Hv Hi) as Hi1. split.
  - apply addEntry_inv; [done|]. unfold good. by rewrite Hr.
  - intros k. rewrite addEntry_lookup, Hr, lookup_insert by done.
    rewrite (same_view_lookup kv kv1), (Ha k) by done. repeat case_decide; naive_solver.
Qed.

Definition insert_all (m : gmap gostring Entry) (l : list Entry) : gmap gostring Entry :=
  foldl (λ m e, <[e_Key e := e]> m) m l.

Lemma loadLoop_entries (s : S) l (bss : list gostring) (fuel : nat) kv (m : gmap gostring Entry) :
  Forall (λ e, entry_ok e ∧ (0 < e_Size e)%Z) l →
  Forall2 (λ e bs, EncodeEntry s e = Some bs) l bss →
  kv_inv kv → abstracts kv m → length (mjoin bss) < fuel →
  ∃ kv', loadLoop fuel s (mjoin bss) kv = Ok kv' ∧ kv_inv kv' ∧ abstracts kv' (insert_all m l).
Proof using Type*.
  intros Hall Hb. revert fuel kv m Hall.
  induction Hb as [|e bs l bss Hbs Hb IH]; intros fuel kv m Hall Hi Ha Hf;
    (destruct fuel as [|fuel]; [lia|]); simpl.
  { rewrite entry_eof. by exists kv. }
  apply Forall_cons in Hall as [[He Hs] Hall]. pose proof (entry_nonempty s e bs Hbs) as Hne.
  rewrite (entry_roundtrip s e bs) by done.
  destruct (loadEntry_spec e kv m Hi Hs Ha) as [Hi' Ha'].
  apply (IH fuel (loadEntry e kv) (<[e_Key e := e]> m)); try done.
  simpl in Hf. rewrite length_app in Hf. destruct bs; [done|]. simpl in Hf. lia.
Qed.

(** Inserting the entries of a list in which no key occurs with two entries. *)
Lemma insert_all_lookup l (m : gmap gostring Entry) k :
  (∀ e e', e ∈ l → e' ∈ l → e_Key e = e_Key e' → e = e') →
  insert_all m l !! k =
  match list_find (λ e, e_Key e = k) l with Some (_, e) => Some e | None => m !! k end.
Proof.
  revert m. induction l as [|e l IH]; intros m Hu; [done|].
  assert (∀ x y, x ∈ l → y ∈ l → e_Key x = e_Key y → x = y) as Hu'.
  { intros x y Hx Hy. apply Hu; by right. }
  change (insert_all m (e :: l)) with (insert_all (<[e_Key e := e]> m) l). rewrite IH by done. simpl.
  destruct (decide (e_Key e = k)) as [Hk|Hk].
  - destruct (list_find _ l) as [[i e']|] eqn:E; [|by subst; rewrite lookup_insert_eq].
    apply list_find_Some in E as (Hl & He' & _). f_equal. apply Hu; [|by left|congruence].
    right. by eapply list_elem_of_lookup_2.
  - rewrite lookup_insert_ne by done. by destruct (list_find _ l) as [[i e']|].
Qed.

Lemma entry_key kv k e : kv_inv kv → kv_lookup k kv = Some e → e_Key e = k.
Proof.
  intros Hi Hl. unfold kv_lookup in Hl. apply fmap_Some in Hl as (r & Hd & ->).
  eapply (i_keys kv); [done| |done]. by apply getShard_lookup.
Qed.
Lemma entry_positive kv k e : kv_inv kv → kv_lookup k kv = Some e → (0 < e_Size e)%Z.
Proof.
  intros Hi Hl. unfold kv_lookup in Hl. apply fmap_Some in Hl as (r & Hd & ->).
  pose proof (shard_good_at (shardIndex kv k) kv Hi) as [G _ _ _ _]. by apply (G k).
Qed.

(** The map a snapshot holds. *)
Definition liveMap (now : Z) kv : gmap gostring Entry := insert_all ∅ (liveEntries now kv).
Lemma liveMap_lookup (now : Z) kv k : kv_inv kv →
  liveMap now kv !! k = match kv_lookup k kv with
                     | Some e => if unexpired (e_ExpireAt e) now then Some e else None
                     | None => None
                     end.
Proof.
  intros Hi. unfold liveMap. rewrite insert_all_lookup.
  2:{ intros e e' [He _]%liveEntries_elem [He' _]%liveEntries_elem Hk; [|done..]. congruence. }
  rewrite lookup_empty. destruct (list_find _ (liveEntries now kv)) as [[i e]|] eqn:E.
  - apply list_find_Some in E as (Hl & Hk & _). apply list_elem_of_lookup_2 in Hl.
    apply liveEntries_elem in Hl as [Hl Hu]; [|done]. rewrite Hk in Hl. by rewrite Hl, Hu.
  - destruct (kv_lookup k kv) as [e|] eqn:El; [|done].
    destruct (unexpired (e_ExpireAt e) now) eqn:Eu; [|done]. exfalso. pose proof (entry_key _ _ _ Hi El) as Hk.
    assert (e ∈ liveEntries now kv) as Hin by (apply liveEntries_elem; [done|]; by rewrite Hk).
    apply list_find_None in E. rewrite Forall_forall in E. by apply (E e).
Qed.

(** Loading the file a snapshot wrote gives the entries that were live. *)
Lemma snapshot_loads o s (now : Z) kv file kv' :
  0 < ShardCount o → s = serializer kv → kv_inv kv → Forall entry_ok (liveEntries now kv) → Snapshot now kv = Ok (file, kv') →
  ∃ kv2, loadSnapshot s file (newStore o s) = Ok kv2 ∧ kv_inv kv2 ∧ abstracts kv2 (liveMap now kv).
Proof using Type*.
  intros Hc -> Hi Hok Hsnap. unfold Snapshot in Hsnap. destruct (closed kv || ReadOnly (opts kv)); [done|].
  destruct (mapM _ _) as [bss|] eqn:Em; [|done].
  assert (file = Binary.WriteSnapshotHeader now ++ mjoin bss) as -> by congruence.
  unfold loadSnapshot. rewrite Binary.header_roundtrip. apply mapM_Some in Em.
  destruct (new_kv_inv o (serializer kv) Hc) as [Hi0 Ha0]. apply loadLoop_entries; try done; [|lia].
  rewrite Forall_forall in *. intros e He. split; [by apply Hok|].
  apply liveEntries_elem in He as [Hl _]; [|done]. exact (entry_positive _ _ _ Hi Hl).
Qed.

End facts.
