(* ===== verification/KVProps.v ===== *)
(** * What the key-value engine guarantees *)

From stdpp Require Import options.
From S2P Require Import Prelude GoStrings GoNumbers GoBytes KVCodec KVStore KVFacts.

(** ** Histories of operations *)

Inductive kv_op :=
| KSet (key value : gostring) (ttl now : Z)
| KDelete (key : gostring)
| KGet (key : gostring) (t1 t2 : Z)
| KSnapshot (now : Z)
| KClose.

(** Expiry times fit in the log: after the epoch and within int64 nanoseconds. *)
Definition op_time_ok (op : kv_op) : Prop :=
  match op with KSet _ _ ttl now => (0 < ttl → 0 < now + ttl ≤ int64_max)%Z | _ => True end.

(** The clock readings of snapshots do not go backwards; [t] is the latest so far. *)
Definition snapTime (op : kv_op) (t : option Z) : option Z := match op with KSnapshot now => Some now | _ => t end.
Definition lastSnap (ops : list kv_op) (t : option Z) : option Z := foldl (λ t op, snapTime op t) t ops.
Definition snap_ok (t : option Z) (op : kv_op) : Prop :=
  match t, op with Some u, KSnapshot now => (u ≤ now)%Z | _, _ => True end.
Fixpoint snaps_ordered (t : option Z) (ops : list kv_op) : Prop :=
  match ops with [] => True | op :: ops => snap_ok t op ∧ snaps_ordered (snapTime op t) ops end.

Section history.
Abbreviation S := Binary.BinarySerializer (only parsing).
Implicit Types (kv : KVStore S) (m : gmap gostring (gostring * gotime)) (disk : option gostring).

Definition kv_run (op : kv_op) kv : KVStore S :=
  match op with
  | KSet key value ttl now => snd (Set_ key value ttl now kv)
  | KDelete key => snd (Delete key kv)
  | KGet key t1 t2 => snd (Get key t1 t2 kv)
  | KSnapshot now => match Snapshot now kv with Ok (_, kv') => kv' | Err _ => kv end
  | KClose => Close kv
  end.

(** The snapshot file on disk. *)
Definition disk_run (op : kv_op) kv disk : option gostring :=
  match op with
  | KSnapshot now => match Snapshot now kv with Ok (file, _) => Some file | Err _ => disk end
  | _ => disk
  end.

(** The acknowledged contents: what a client that sees every reply expects the disk to
    hold. A snapshot forgets what has been evicted from memory and what has expired. *)
Definition ack (op : kv_op) kv m : gmap gostring (gostring * gotime) :=
  match op with
  | KSet key value ttl now =>
      match fst (Set_ key value ttl now kv) with
      | None => <[key := (value, set_expiry ttl now)]> m
      | Some _ => m
      end
  | KDelete key =>
      match fst (Delete key kv) with
      | None | Some ErrKeyNotFound => delete key m
      | Some _ => m
      end
  | KSnapshot now =>
      match Snapshot now kv with
      | Ok _ => filter (λ kx, is_Some (kv_lookup kx.1 kv) ∧ unexpired kx.2.2 now = true) m
      | Err _ => m
      end
  | _ => m
  end.

Fixpoint history (ops : list kv_op) kv disk m : KVStore S * option gostring * gmap gostring (gostring * gotime) :=
  match ops with
  | [] => (kv, disk, m)
  | op :: ops => history ops (kv_run op kv) (disk_run op kv disk) (ack op kv m)
  end.

Definition contents (e : Entry) : gostring * gotime := (e_Value e, e_ExpireAt e).

(** The snapshot on disk, if any, loads as [base]. *)
Definition loads (s : S) disk (base : gmap gostring Entry) : Prop :=
  ∀ o, 0 < ShardCount o →
    ∃ kv0, match disk with None => Ok (newStore o s) | Some file => loadSnapshot s file (newStore o s) end = Ok kv0 ∧
      kv_inv kv0 ∧ abstracts kv0 base.

(** The entry had expired at the time of the latest snapshot. *)
Definition gone_at (t : option Z) (e : Entry) : Prop := ∃ u, t = Some u ∧ unexpired (e_ExpireAt e) u = false.
Lemma gone_later t op e : snap_ok t op → gone_at t e → gone_at (snapTime op t) e.
Proof.
  intros Ho (u & -> & Hu). destruct op; simpl in *; try (by exists u). eexists. split; [done|].
  unfold unexpired in *. destruct (e_ExpireAt e); [|done]. unbool. apply Z.ltb_ge. lia.
Qed.

(** Snapshot and log hold exactly the acknowledged contents, and everything in memory that
    had not expired at the latest snapshot is in them. *)
Definition durable (n : Z) (t : option Z) kv disk m : Prop :=
  kv_inv kv ∧ (0 ≤ version kv ≤ n)%Z ∧
  ∃ base log, loads (serializer kv) disk base ∧ logged (serializer kv) log (wal kv) ∧
    let D := foldl wal_apply base log in
    (∀ k, contents <$> D !! k = m !! k) ∧ (∀ k e, kv_lookup k kv = Some e → D !! k = Some e ∨ D !! k = None ∧ gone_at t e) ∧ (∀ k e, D !! k = Some e → entry_ok e).

Lemma durable_more n n' t kv disk m : (n ≤ n')%Z → durable n t kv disk m → durable n' t kv disk m.
Proof. intros Hn (Hi & Hv & Hl). split; [done|]. split; [lia|done]. Qed.

Lemma withCRC_valid e : validateWALEntry (withCRC e) = true.
Proof. unfold validateWALEntry, withCRC, calculateCRC. simpl. apply N.eqb_refl. Qed.

Lemma set_record_ok key value ttl now ver :
  (0 < ttl → 0 < now + ttl ≤ int64_max)%Z → is_int64 ver → wal_ok (set_record key value ttl now ver).
Proof.
  intros Ht Hv. split; [|split; [done|apply ChecksumIEEE_bound]]. simpl. unfold set_expiry.
  destruct (Z.ltb_spec 0 ttl); simpl; auto.
Qed.
Lemma del_record_ok key ver : is_int64 ver → wal_ok (del_record key ver).
Proof. intros Hv. split; [done|]. split; [done|apply ChecksumIEEE_bound]. Qed.

(** A store that lost entries (or none) without writing to the log. *)
Lemma durable_shrink n t kv kv' disk m :
  durable n t kv disk m → kv_inv kv' → serializer kv' = serializer kv → wal kv' = wal kv →
  (version kv ≤ version kv' ≤ version kv + 1)%Z →
  (∀ k x, kv_lookup k kv' = Some x → kv_lookup k kv = Some x) → durable (n + 1) t kv' disk m.
Proof.
  intros (Hi & Hv & base & log & Hb & Hlog & Hm & Hsub & Hok) Hi' Hs Hw Hver Hl. split; [done|]. split; [lia|].
  exists base, log. rewrite Hs, Hw. split_and!; try done. eauto.
Qed.

Lemma foldl_snoc (log : list WALEntry) (e : WALEntry) (m : gmap gostring Entry) :
  foldl wal_apply m (log ++ [e]) = wal_apply (foldl wal_apply m log) e.
Proof. by rewrite foldl_app. Qed.

Lemma wal_apply_set M key value ttl now ver :
  wal_apply M (set_record key value ttl now ver) = <[key := set_entry key value ttl now ver]> M.
Proof. done. Qed.
Lemma wal_apply_del M key ver : wal_apply M (del_record key ver) = delete key M.
Proof. done. Qed.

(** What the log accepted fits into a snapshot. *)
Lemma set_entry_ok key value ttl now ver (s : S) bs :
  (0 < ttl → 0 < now + ttl ≤ int64_max)%Z → is_int64 ver → EncodeWALEntry s (set_record key value ttl now ver) = Some bs →
  entry_ok (set_entry key value ttl now ver).
Proof.
  intros Ht Hv Hbs. destruct (set_record_ok key value ttl now ver Ht Hv) as (Htime & _). split; [done|]. split; [done|].
  simpl in Hbs. unfold Binary.encodeWAL in Hbs. destruct (Binary.size_guard _ _) eqn:Hs; [|done].
  apply Binary.size_guard_ok in Hs as [Hk Hvl]. simpl in *. unfold entrySize, is_int64, int64_min, int64_max, maxKeySize, maxValueSize in *. lia.
Qed.

Lemma set_durable n t key value ttl now kv disk m :
  (0 < ttl → 0 < now + ttl ≤ int64_max)%Z → (n < int64_max)%Z → durable n t kv disk m →
  durable (n + 1) t (kv_run (KSet key value ttl now) kv) disk (ack (KSet key value ttl now) kv m).
Proof.
  intros Ht Hn Hd. pose proof Hd as (Hi & Hv & base & log & Hb & Hlog & Hm & Hsub & Hok).
  pose proof (Set_spec key value ttl now kv Hi) as Hset. unfold kv_run, ack.
  destruct (Set_ key value ttl now kv) as [[e|] kv']; simpl in *;
    destruct Hset as (Hi' & Ho & Hs & Hcl & Hver & Hset).
  { destruct Hset as (_ & Hw & _ & Hl). by eapply durable_shrink. }
  destruct Hset as (kv1 & bs & Hsh & Hv' & Hbs & Hw & Hl). split; [done|]. split; [lia|].
  assert (is_int64 (version kv')) as Hv64 by (unfold is_int64, int64_min, int64_max in *; lia).
  exists base, (log ++ [set_record key value ttl now (version kv')]). rewrite Hs, Hw. split; [done|]. split.
  { apply logged_snoc; [done| |apply withCRC_valid|done]. by apply set_record_ok. }
  rewrite foldl_snoc, wal_apply_set. split_and!.
  - intros k. rewrite !lookup_insert. case_decide; [done|apply Hm].
  - intros k e. rewrite Hl, lookup_insert. case_decide as Hk.
    + subst. rewrite decide_True by done. intros [= <-]. by left.
    + rewrite decide_False by done. intros Hk1. by apply Hsub, (sh_sub _ _ _ Hsh).
  - intros k e. rewrite lookup_insert. case_decide; [|apply Hok]. intros [= <-]. by eapply set_entry_ok.
Qed.

Lemma delete_durable n t key kv disk m :
  (n < int64_max)%Z → durable n t kv disk m →
  durable (n + 1) t (kv_run (KDelete key) kv) disk (ack (KDelete key) kv m).
Proof.
  intros Hn Hd. pose proof Hd as (Hi & Hv & base & log & Hb & Hlog & Hm & Hsub & Hok).
  pose proof (Delete_spec key kv Hi) as Hdel. unfold kv_run, ack.
  destruct (Delete key kv) as [e kv']. simpl in *.
  destruct Hdel as (Hi' & Ho & Hs & Hcl & Hver & Hdel).
  case_bool_decide as He.
  2:{ destruct Hdel as [Hw Hl].
      replace (match e with None | Some ErrKeyNotFound => delete key m | _ => m end) with m
        by (destruct e as [[]|]; naive_solver).
      eapply durable_shrink; try done. intros k x. by rewrite Hl. }
  destruct Hdel as (bs & Hv' & Hbs & Hw & _ & Hl).
  replace (match e with None | Some ErrKeyNotFound => delete key m | _ => m end) with (delete key m)
    by (destruct He as [->| ->]; done).
  split; [done|]. split; [lia|]. exists base, (log ++ [del_record key (version kv')]). rewrite Hs, Hw. split; [done|]. split.
  { apply logged_snoc; [done| |apply withCRC_valid|done]. apply del_record_ok.
    unfold is_int64, int64_min, int64_max in *. lia. }
  rewrite foldl_snoc, wal_apply_del. split_and!.
  - intros k. rewrite !lookup_delete. case_decide; [done|apply Hm].
  - intros k x. rewrite Hl, lookup_delete. case_decide as Hk; [done|].
    rewrite decide_False by done. apply Hsub.
  - intros k x. rewrite lookup_delete. case_decide; [done|apply Hok].
Qed.

(** A failed snapshot changes nothing. *)
Lemma durable_later n t op kv disk m : snap_ok t op → durable n t kv disk m → durable (n + 1) (snapTime op t) kv disk m.
Proof.
  intros Ho (Hi & Hv & base & log & Hb & Hlog & Hm & Hsub & Hok). split; [done|]. split; [lia|]. exists base, log.
  split; [done|]. split; [done|]. cbv zeta. split_and!; try done. intros k e He. destruct (Hsub k e He) as [?|[? ?]]; [by left|]. right. split; [done|]. by apply gone_later.
Qed.

(** After a snapshot the file alone holds the contents, and the log is empty. *)
Lemma snapshot_durable n t now kv disk m : snap_ok t (KSnapshot now) → durable n t kv disk m →
  durable (n + 1) (Some now) (kv_run (KSnapshot now) kv) (disk_run (KSnapshot now) kv disk) (ack (KSnapshot now) kv m).
Proof.
  intros Ho Hd. unfold kv_run, disk_run, ack. destruct (Snapshot now kv) as [[file kv']|e] eqn:E; [|by apply (durable_later n t (KSnapshot now))].
  pose proof (durable_later n t (KSnapshot now) kv disk m Ho Hd) as (Hi & Hv & base & log & Hb & Hlog & Hm & Hsub & Hok). simpl in Hsub.
  assert (same_view kv kv' ∧ serializer kv' = serializer kv ∧ wal kv' = [] ∧ version kv' = version kv) as (Hvw & Hs & Hw & Hver).
  { unfold Snapshot in E. repeat case_match; try done. injection E as _ <-. done. }
  assert (Hlive : ∀ k e, kv_lookup k kv = Some e → unexpired (e_ExpireAt e) now = true → foldl wal_apply base log !! k = Some e).
  { intros k e He Hu. destruct (Hsub k e He) as [?|[_ (u & [= <-] & Hu')]]; [done|congruence]. }
  split; [by apply (same_view_inv kv)|]. split; [lia|]. exists (liveMap now kv), []. rewrite Hs, Hw. cbn [foldl]. split_and!.
  - intros o Hc. eapply snapshot_loads; [done|done|done| |done]. apply Forall_forall.
    intros e [Hl Hu]%liveEntries_elem; [|done]. by eapply Hok, Hlive.
  - split; [constructor|by exists []].
  - intros k. rewrite liveMap_lookup by done. symmetry. destruct (kv_lookup k kv) as [e|] eqn:El.
    + destruct (unexpired (e_ExpireAt e) now) eqn:Eu; simpl.
      * apply map_lookup_filter_Some. simpl. rewrite <- Hm, (Hlive k e El Eu), El. simpl. split; [done|]. split; [by eexists|done].
      * apply map_lookup_filter_None. right. intros x Hx [_ Hu]. simpl in Hu. rewrite <- Hm in Hx.
        destruct (Hsub k e El) as [HD|[HD _]]; rewrite HD in Hx; simplify_eq/=. congruence.
    + apply map_lookup_filter_None. right. intros x _ [[? Hx] _]. simpl in Hx. congruence.
  - intros k e He. rewrite (same_view_lookup kv kv') in He by done. rewrite liveMap_lookup, He by done.
    destruct (unexpired (e_ExpireAt e) now) eqn:Eu; [by left|]. right. split; [done|]. by exists now.
  - intros k e. rewrite liveMap_lookup by done. repeat case_match; try done. intros [= <-]. by eapply Hok, Hlive.
Qed.

Lemma run_durable n t op kv disk m :
  op_time_ok op → snap_ok t op → (n < int64_max)%Z → durable n t kv disk m →
  durable (n + 1) (snapTime op t) (kv_run op kv) (disk_run op kv disk) (ack op kv m).
Proof.
  intros Ht Ho Hn Hd. destruct op as [key value ttl now|key|key t1 t2|now|].
  - by apply set_durable.
  - by apply delete_durable.
  - pose proof Hd as (Hi & _). pose proof (Get_spec key t1 t2 kv Hi) as Hg. simpl.
    destruct (Get key t1 t2 kv) as [r kv']. destruct Hg as (Hi' & (O1 & O2 & O3 & O4 & O5) & Hl & _).
    eapply durable_shrink; try done. simpl. lia.
  - by eapply snapshot_durable.
  - pose proof Hd as (Hi & _). eapply durable_shrink; try done; [by apply (same_view_inv kv)|simpl; lia].
Qed.

Lemma history_durable ops n t kv disk m :
  Forall op_time_ok ops → snaps_ordered t ops → (n + Z.of_nat (length ops) ≤ int64_max)%Z → durable n t kv disk m →
  let '(kv', disk', m') := history ops kv disk m in durable (n + Z.of_nat (length ops)) (lastSnap ops t) kv' disk' m'.
Proof.
  revert n t kv disk m. induction ops as [|op ops IH]; intros n t kv disk m Ht Ho Hn Hd; cbn [history].
  { by apply (durable_more n); [simpl; lia|]. }
  apply Forall_cons in Ht as [Hop Ht]. destruct Ho as [Hso Ho]. cbn [length] in Hn.
  specialize (IH (n + 1)%Z (snapTime op t) (kv_run op kv) (disk_run op kv disk) (ack op kv m) Ht Ho ltac:(lia)
    ltac:(apply run_durable; try done; lia)).
  destruct (history ops _ _ _) as [[kv' disk'] m']. eapply durable_more; [|exact IH]. simpl. lia.
Qed.

Lemma new_durable o s : 0 < ShardCount o → durable 0 None (newStore o s) None ∅.
Proof.
  intros Hc. destruct (new_kv_inv o s Hc) as [Hi Ha]. split; [done|]. split; [done|]. exists ∅, []. split_and!; try done.
  - intros o' Hc'. destruct (new_kv_inv o' s Hc'). eauto.
  - split; [constructor|by exists []].
  - cbn [foldl]. split; [done|]. split; [intros k e; by rewrite Ha|]. intros k e. by rewrite lookup_empty.
Qed.

(** The invariant of the store needs no assumption on clocks. *)
Lemma app_run_inv op kv : kv_inv kv → kv_inv (kv_run op kv).
Proof.
  intros Hi. destruct op as [key value ttl now|key|key t1 t2|now|]; simpl.
  - pose proof (Set_spec key value ttl now kv Hi) as H. destruct (Set_ key value ttl now kv) as [[] kv']; by destruct H.
  - pose proof (Delete_spec key kv Hi) as H. destruct (Delete key kv). by destruct H.
  - pose proof (Get_spec key t1 t2 kv Hi) as H. destruct (Get key t1 t2 kv). by destruct H.
  - unfold Snapshot. repeat case_match; simplify_eq; try done. by apply (same_view_inv kv).
  - by apply (same_view_inv kv).
Qed.
Lemma app_history_inv ops kv disk m : kv_inv kv → kv_inv (history ops kv disk m).1.1.
Proof. revert kv disk m. induction ops as [|op ops IH]; intros kv disk m Hi; simpl; [done|]. by apply IH, app_run_inv. Qed.

End history.

(** The store of an application that uses the binary format, its snapshot file, and the
    acknowledged contents. *)
Definition app_history (o : Options) (ops : list kv_op)
    : KVStore Binary.BinarySerializer * option gostring * gmap gostring (gostring * gotime) :=
  history ops (newStore o Binary.mkBinary) None ∅.
Definition app_store (o : Options) (ops : list kv_op) : KVStore Binary.BinarySerializer := (app_history o ops).1.1.

Lemma app_inv o ops : 0 < ShardCount o → kv_inv (app_store o ops).
Proof. intros Hc. apply app_history_inv. by destruct (new_kv_inv o Binary.mkBinary Hc). Qed.

Lemma app_durable o ops :
  0 < ShardCount o → Forall op_time_ok ops → snaps_ordered None ops → (Z.of_nat (length ops) ≤ int64_max)%Z →
  let '(kv, disk, acked) := app_history o ops in durable (Z.of_nat (length ops)) (lastSnap ops None) kv disk acked.
Proof. intros Hc Ht Ho Hn. apply (history_durable ops 0 None); try done. by apply new_durable. Qed.

(** ** Durability *)

Definition binary_s (kv : KVStore Binary.BinarySerializer) : Binary.BinarySerializer := serializer kv.

(** C3: crash recovery: after any sequence of at most 2^63-1 calls of [Set], [Delete],
    [Get], [Snapshot] and [Close] one at a time, with expiry times within int64
    nanoseconds of the epoch and snapshot clocks that do not go backwards, loading the
    snapshot file and replaying the log as written into a new store succeeds and
    restores exactly the acknowledged contents: the value and expiry of the last
    acknowledged [Set] of each key not deleted since, less what a snapshot found evicted
    from memory or expired. They include every entry that was in memory and had not
    expired at the latest snapshot. *)
Theorem crash_recovery o ops :
  0 < ShardCount o → Forall op_time_ok ops → snaps_ordered None ops → (Z.of_nat (length ops) ≤ int64_max)%Z →
  let '(kv, disk, acked) := app_history o ops in
  ∃ kv', loadData (binary_s kv) disk (wal kv) (newStore o (binary_s kv)) = Ok kv' ∧
    (∀ k, contents <$> kv_lookup k kv' = acked !! k) ∧
    (∀ k e, kv_lookup k kv = Some e → kv_lookup k kv' = Some e ∨ kv_lookup k kv' = None ∧ gone_at (lastSnap ops None) e).
Proof.
  intros Hc Ht Ho Hn. pose proof (app_durable o ops Hc Ht Ho Hn) as Hd.
  destruct (app_history o ops) as [[kv disk] acked]. destruct Hd as (Hi & _ & base & log & Hb & Hlog & Hm & Hsub & _).
  destruct (Hb o Hc) as (kv0 & E0 & Hi0 & Ha0). unfold loadData. fold (binary_s kv) in *. rewrite E0.
  destruct (replay_log (binary_s kv) log (wal kv) kv0 base Hi0 Ha0 Hlog) as (kv' & Hr & _ & Ha).
  exists kv'. split; [done|]. split; intros k; [by rewrite Ha, Hm|]. intros e He. rewrite Ha. by apply Hsub.
Qed.

(** C31: torn writes: if a crash cuts off the record being written, recovery either
    restores exactly the acknowledged contents or refuses the file; it never
    invents or alters an entry. The history before the crash is as for crash recovery,
    snapshots included. *)
Theorem torn_log_recovery o ops e bs torn :
  0 < ShardCount o → Forall op_time_ok ops → snaps_ordered None ops → (Z.of_nat (length ops) ≤ int64_max)%Z →
  wal_ok e → Binary.encodeWAL Binary.mkBinary e = Some bs → torn `prefix_of` bs → torn ≠ bs →
  let '(kv, disk, acked) := app_history o ops in
  loadData (binary_s kv) disk (wal kv ++ torn) (newStore o (binary_s kv)) = Err ErrInvalidEntry ∨
  ∃ kv', loadData (binary_s kv) disk (wal kv ++ torn) (newStore o (binary_s kv)) = Ok kv' ∧
    ∀ k, contents <$> kv_lookup k kv' = acked !! k.
Proof.
  intros Hc Ht Ho Hn He Hbs Hpre Hne. pose proof (app_durable o ops Hc Ht Ho Hn) as Hd.
  destruct (app_history o ops) as [[kv disk] acked]. destruct Hd as (Hi & _ & base & log & Hb & Hlog & Hm & _).
  destruct (Hb o Hc) as (kv0 & E0 & Hi0 & Ha0). unfold loadData. fold (binary_s kv) in *. rewrite E0.
  destruct (replay_torn (binary_s kv) log (wal kv) e bs torn kv0 base Hi0 Ha0 Hlog He) as [Hr|(kv' & Hr & Ha)];
    [by destruct (binary_s kv)|done..|by left|].
  right. exists kv'. split; [done|]. intros k. by rewrite Ha, Hm.
Qed.

(** The binary log and snapshot formats round trip: whatever is encoded is
    decoded unchanged, leaving the rest of the input. *)
Theorem codec_roundtrip we wbs e ebs rest :
  wal_ok we → Binary.encodeWAL Binary.mkBinary we = Some wbs →
  entry_ok e → Binary.encodeEntry Binary.mkBinary e = Some ebs →
  Binary.decodeWAL Binary.mkBinary (wbs ++ rest) = Ok (we, rest) ∧
  Binary.decodeEntry Binary.mkBinary (ebs ++ rest) = Ok (e, rest).
Proof.
  intros Hw Hwb He Heb. split.
  - by apply Binary.wal_binary_roundtrip.
  - by apply Binary.entry_binary_roundtrip.
Qed.

(** ** Reads and writes *)

(** A read after a successful write returns the written value until its expiry,
    an acknowledged write to one key changes no other key except by evicting it, and
    a failed write changes nothing but evictions; capacity enforcement always
    terminates. *)
Theorem set_get o ops key value ttl now :
  0 < ShardCount o →
  let kv := app_store o ops in
  let '(e, kv') := Set_ key value ttl now kv in
  e ≠ Some ErrDiverged ∧
  (∀ k x, k ≠ key → kv_lookup k kv' = Some x → kv_lookup k kv = Some x) ∧
  match e with
  | Some _ => kv_lookup key kv' = kv_lookup key kv ∧ wal kv' = wal kv
  | None => ∀ t1 t2, fst (Get key t1 t2 kv') =
      if expired (set_expiry ttl now) t1 || expired (set_expiry ttl now) t2
      then Err ErrKeyExpired else Ok value
  end.
Proof.
  intros Hc kv. pose proof (app_inv o ops Hc) as Hi. fold kv in Hi.
  pose proof (Set_spec key value ttl now kv Hi) as Hset.
  destruct (Set_ key value ttl now kv) as [[e|] kv'] eqn:E;
    destruct Hset as (Hi' & Ho & Hs & Hcl & _ & Hset).
  - destruct Hset as (Hd & Hw & Hk & Hl). split; [congruence|]. split; [by intros ? ? _; apply Hl|done].
  - destruct Hset as (kv1 & bs & Hsh & Hver & _ & _ & Hl). split; [done|]. split.
    + intros k x Hne. rewrite Hl, decide_False by done. apply (sh_sub _ _ _ Hsh).
    + intros t1 t2. pose proof (Get_spec key t1 t2 kv' Hi') as Hg. destruct (Get key t1 t2 kv') as [r kv2].
      destruct Hg as (_ & _ & _ & ->). rewrite Hl, decide_True by done. simpl.
      rewrite Hcl. unfold Set_ in E. by destruct (closed kv).
Qed.

(** ** What eviction really removes *)

Definition small : Options := {| MaxEntries := 2; MaxMemoryMB := 1; ShardCount := 1; ReadOnly := false |}.
Definition k1 : gostring := str "a".
Definition k2 : gostring := str "b".
Definition k3 : gostring := str "c".

(** Eviction does not remove the least recently used entry: with room for two
    entries, writing a, then b, then c evicts b, the most recent entry, and keeps a.
    (Linking a new entry at the front resets the tail to that entry.) *)
Theorem evicts_most_recent :
  let kv := app_store small [KSet k1 [] 0 0; KSet k2 [] 0 0; KSet k3 [] 0 0] in
  is_Some (kv_lookup k1 kv) ∧ kv_lookup k2 kv = None ∧ is_Some (kv_lookup k3 kv).
Proof. vm_compute. split; [by eexists|]. split; [done|by eexists]. Qed.

(** ** Witnesses *)

Definition demo_kv_ops : list kv_op :=
  [KSet k1 (str "x") 0 0; KSet k2 (str "y") 5 10; KSnapshot 11; KDelete k1; KGet k2 11 12].
Lemma demo_kv_ok : Forall op_time_ok demo_kv_ops.
Proof. repeat constructor; simpl; unfold int64_max; lia. Qed.

Lemma crash_recovery_witness :
  ∃ kv', loadData Binary.mkBinary (app_history small demo_kv_ops).1.2 (wal (app_store small demo_kv_ops))
           (newStore small Binary.mkBinary) = Ok kv' ∧
    contents <$> kv_lookup k2 kv' = Some (str "y", Some 15%Z) ∧ kv_lookup k1 kv' = None.
Proof.
  pose proof (crash_recovery small demo_kv_ops) as H. unfold app_store.
  destruct (app_history small demo_kv_ops) as [[kv disk] acked] eqn:E.
  assert (Hk : acked !! k2 = Some (str "y", Some 15%Z) ∧ acked !! k1 = None).
  { vm_compute in E. injection E as <- <- <-. split; vm_compute; reflexivity. }
  assert (Hs : binary_s kv = Binary.mkBinary) by (destruct (binary_s kv); reflexivity).
  destruct H as (kv' & Hr & Hm & _).
  - simpl. lia.
  - apply demo_kv_ok.
  - simpl. tauto.
  - vm_compute. discriminate.
  - exists kv'. rewrite Hs in Hr. split; [exact Hr|]. rewrite Hm. split; [apply Hk|].
    apply (fmap_None contents). rewrite Hm. apply Hk.
Defined.

Definition demo_wal : WALEntry := set_record k3 (str "z") 0 0 9.

Lemma torn_log_recovery_witness :
  let disk := (app_history small demo_kv_ops).1.2 in
  let log := wal (app_store small demo_kv_ops) ++ put_u32 Binary.walEntryMagic in
  loadData Binary.mkBinary disk log (newStore small Binary.mkBinary) = Err ErrInvalidEntry ∨
  ∃ kv', loadData Binary.mkBinary disk log (newStore small Binary.mkBinary) = Ok kv' ∧
    contents <$> kv_lookup k2 kv' = Some (str "y", Some 15%Z).
Proof.
  destruct (Binary.encodeWAL Binary.mkBinary demo_wal) as [bs|] eqn:Eb; [|vm_compute in Eb; discriminate].
  pose proof (torn_log_recovery small demo_kv_ops demo_wal bs (put_u32 Binary.walEntryMagic)) as H. unfold app_store.
  destruct (app_history small demo_kv_ops) as [[kv disk] acked] eqn:E.
  assert (Hk : acked !! k2 = Some (str "y", Some 15%Z)).
  { vm_compute in E. injection E as <- <- <-. vm_compute. reflexivity. }
  assert (Hs : binary_s kv = Binary.mkBinary) by (destruct (binary_s kv); reflexivity).
  rewrite Hs in H. destruct H as [H|(kv' & H & Hm)].
  - simpl. lia.
  - apply demo_kv_ok.
  - simpl. tauto.
  - vm_compute. discriminate.
  - apply set_record_ok; [lia|]. vm_compute. split; discriminate.
  - exact Eb.
  - vm_compute in Eb. injection Eb as <-. vm_compute. eexists. reflexivity.
  - vm_compute in Eb. injection Eb as <-. vm_compute. discriminate.
  - left. exact H.
  - right. exists kv'. split; [exact H|]. rewrite Hm. exact Hk.
Defined.

Definition demo_entry : Entry := set_entry k3 (str "z") 7 8 9.

Lemma codec_roundtrip_witness :
  ∃ wbs ebs, Binary.decodeWAL Binary.mkBinary (wbs ++ str "tail") = Ok (demo_wal, str "tail") ∧
    Binary.decodeEntry Binary.mkBinary (ebs ++ str "tail") = Ok (demo_entry, str "tail").
Proof.
  destruct (Binary.encodeWAL Binary.mkBinary demo_wal) as [wbs|] eqn:Ew; [|vm_compute in Ew; discriminate].
  destruct (Binary.encodeEntry Binary.mkBinary demo_entry) as [ebs|] eqn:Ee; [|vm_compute in Ee; discriminate].
  exists wbs, ebs. apply (codec_roundtrip demo_wal wbs demo_entry ebs (str "tail")).
  - apply set_record_ok; [lia|]. vm_compute. split; discriminate.
  - exact Ew.
  - split; [vm_compute; split; [reflexivity|discriminate]|]. split; vm_compute; split; discriminate.
  - exact Ee.
Defined.

Lemma set_get_witness :
  fst (Get k3 1 2 (snd (Set_ k3 (str "z") 0 0 (app_store small demo_kv_ops)))) = Ok (str "z").
Proof.
  pose proof (set_get small demo_kv_ops k3 (str "z") 0 0) as H.
  cbv zeta in H. destruct (Set_ k3 (str "z") 0 0 (app_store small demo_kv_ops)) as [e kv'] eqn:E.
  assert (He : e = None) by (apply (f_equal fst) in E; vm_compute in E; symmetry; exact E).
  subst e. destruct H as (_ & _ & H); [simpl; lia|]. exact (H 1%Z 2%Z).
Defined.
