(* ===== verification/KVSnapshot.v ===== *)
(** * Snapshots of the key-value engine ([x/data/kvengine/kv.go]: [Snapshot], [loadSnapshot]) *)

From stdpp Require Import options.
From S2P Require Import Prelude GoStrings GoNumbers GoBytes KVCodec KVStore KVFacts KVProps.

(** C38: snapshot and restore: loading the file a snapshot wrote into a new store
    gives exactly the entries that were live at that moment, expired ones left
    out, and the log is empty. (The entries' expiry times, versions and sizes fit the
    format.) *)
Theorem snapshot_restore o ops now file kv' :
  0 < ShardCount o →
  let kv := app_store o ops in
  Forall entry_ok (liveEntries now kv) →
  Snapshot now kv = Ok (file, kv') →
  wal kv' = [] ∧
  ∃ kv2, loadSnapshot (binary_s kv) file (newStore o (binary_s kv)) = Ok kv2 ∧
    ∀ k, kv_lookup k kv2 =
      match kv_lookup k kv with
      | Some e => if unexpired (e_ExpireAt e) now then Some e else None
      | None => None
      end.
Proof.
  intros Hc kv Hok Hsnap. pose proof (app_inv o ops Hc) as Hi. fold kv in Hi.
  destruct (snapshot_loads o (binary_s kv) now kv file kv') as (kv2 & Hl & _ & Ha); try done. split.
  { unfold Snapshot in Hsnap. repeat case_match; try done. injection Hsnap as _ <-. done. }
  exists kv2. split; [done|]. intros k. by rewrite Ha, liveMap_lookup.
Qed.

Lemma snapshot_restore_witness :
  ∃ file kv' kv2, Snapshot 12 (app_store small demo_kv_ops) = Ok (file, kv') ∧
    loadSnapshot Binary.mkBinary file (newStore small Binary.mkBinary) = Ok kv2 ∧
    (contents <$> kv_lookup k2 kv2) = Some (str "y", Some 15%Z).
Proof.
  destruct (Snapshot 12 (app_store small demo_kv_ops)) as [[file kv']|] eqn:E.
  2:{ vm_compute in E. discriminate. }
  destruct (snapshot_restore small demo_kv_ops 12 file kv') as (_ & kv2 & Hl & Hk).
  - simpl. lia.
  - apply (bool_decide_unpack _). vm_compute. exact I.
  - exact E.
  - exists file, kv', kv2. split; [reflexivity|]. split; [exact Hl|]. rewrite Hk. vm_compute. reflexivity.
Defined.
