(* ===== verification/HashRing.v ===== *)
(** * The consistent hash ring of the distributed cache

    [x/data/cache/distributed/hashring.go]. A ring keeps four collections that
    must agree: the map from hashes to nodes, the sorted slice of its keys that
    lookups search, the map of physical nodes, and the virtual-node hashes each
    node was given. Collisions are resolved by probing the next hash, with
    [uint32] wrap-around, at most 1024 times. *)

From stdpp Require Import options.
From S2P Require Import Prelude GoStrings GoNumbers GoBytes.

Module HashRing.

(** ** Data *)

Inductive ringErr :=
| ErrNoNodesAvailable
| ErrNodeNotFound
| ErrNodeAlreadyExists
| ErrInsufficientReplicas
| ErrHashRingSaturated
| ErrHashRingNodeTooLarge
| errNodeNil
| errNodeIDEmpty
| errNodeCacheNil
| errNotPositive.

(** What the ring reads of a [CacheNode]: [ID()], [Weight()] and whether
    [Cache()] is nil. *)
Record CacheNode := MkNode { ID : gostring; Weight : Z; hasCache : bool }.

#[export] Instance CacheNode_eq_dec : EqDecision CacheNode.
Proof. solve_decision. Defined.

Definition maxVirtualNodeHashProbes : nat := 1024.
Definition maxVirtualNodePlacementsPerNode : Z := 2 ^ 20.

Definition fnv1aHash (data : gostring) : Z := fnv32a data.

Record ConsistentHashRing := MkRing {
  ring : gmap Z CacheNode;
  sortedHashes : list Z;
  nodes : gmap gostring CacheNode;
  nodeHashes : gmap gostring (list Z);
  virtualNodes : Z;
  hashFunc : gostring → Z;
  collisions : Z
}.

Record ConsistentHashRingConfig := MkConfig {
  cVirtualNodes : Z;
  cHashFunc : option (gostring → Z)
}.

Definition DefaultHashRingConfig : ConsistentHashRingConfig := MkConfig 150 (Some fnv1aHash).

Definition NewConsistentHashRing (config : option ConsistentHashRingConfig) : ConsistentHashRing :=
  let vn := match config with
            | Some c => if (0 <? cVirtualNodes c)%Z then cVirtualNodes c
                        else cVirtualNodes DefaultHashRingConfig
            | None => cVirtualNodes DefaultHashRingConfig
            end in
  let hf := match config with
            | Some c => default fnv1aHash (cHashFunc c)
            | None => fnv1aHash
            end in
  MkRing ∅ [] ∅ ∅ vn hf 0.

(** ** Placement *)

Definition sortHashes (l : list Z) : list Z := merge_sort Z.le l.

(** The keys of the map in an unspecified order, then sorted. *)
Definition rebuildSortedHashes (r : ConsistentHashRing) : ConsistentHashRing :=
  MkRing (ring r) (sortHashes (map_to_list (ring r)).*1) (nodes r) (nodeHashes r)
    (virtualNodes r) (hashFunc r) (collisions r).

Definition virtualNodeCount (r : ConsistentHashRing) (node : CacheNode) : result ringErr Z :=
  let weight := if (Weight node <=? 0)%Z then 1%Z else Weight node in
  if (virtualNodes r <=? 0)%Z then Err ErrHashRingNodeTooLarge
  else if (maxVirtualNodePlacementsPerNode `quot` virtualNodes r <? weight)%Z
       then Err ErrHashRingNodeTooLarge
  else Ok (wrap64 (virtualNodes r * weight)).

Definition hashVirtualNode (r : ConsistentHashRing) (nodeID : gostring) (vnode : Z) : Z :=
  hashFunc r (nodeID ++ "#"%char :: print_Z vnode).

(** The probing loop: the collision counter and the hash it settles on. *)
Fixpoint probe (m : gmap Z CacheNode) (probes : nat) (hash coll : Z) : Z * result ringErr Z :=
  match probes with
  | O => (coll, Err ErrHashRingSaturated)
  | S probes => match m !! hash with
                | None => (coll, Ok hash)
                | Some _ => probe m probes (wrapu32 (hash + 1)) (wrapu64 (coll + 1))
                end
  end.

Definition resolveVirtualNodeHash (r : ConsistentHashRing) (nodeID : gostring) (vnode : Z) :
    Z * result ringErr Z :=
  probe (ring r) maxVirtualNodeHashProbes (hashVirtualNode r nodeID vnode) (collisions r).

(** The placement loop of [Add]: [todo] more virtual nodes from index [i] on,
    [hashes] those placed so far. On failure the ring is left as the loop left
    it, for [Add] to undo. *)
Fixpoint placeLoop (node : CacheNode) (todo : nat) (i : Z) (r : ConsistentHashRing)
    (hashes : list Z) : ConsistentHashRing * list Z * option ringErr :=
  match todo with
  | O => (r, hashes, None)
  | S todo =>
      let '(coll, res) := resolveVirtualNodeHash r (ID node) i in
      match res with
      | Err e => (MkRing (ring r) (sortedHashes r) (nodes r) (nodeHashes r)
                    (virtualNodes r) (hashFunc r) coll, hashes, Some e)
      | Ok hash =>
          placeLoop node todo (i + 1)
            (MkRing (<[hash := node]> (ring r)) (sortedHashes r ++ [hash]) (nodes r) (nodeHashes r)
               (virtualNodes r) (hashFunc r) coll)
            (hashes ++ [hash])
      end
  end.

(** [for _, h := range hashes { delete(r.ring, h) }] *)
Definition deleteHashes (hashes : list Z) (r : ConsistentHashRing) : ConsistentHashRing :=
  MkRing (foldl (λ m h, delete h m) (ring r) hashes) (sortedHashes r) (nodes r) (nodeHashes r)
    (virtualNodes r) (hashFunc r) (collisions r).

Definition Add (r : ConsistentHashRing) (node : option CacheNode) :
    ConsistentHashRing * option ringErr :=
  match node with
  | None => (r, Some errNodeNil)
  | Some node =>
      if bool_decide (ID node = []) then (r, Some errNodeIDEmpty)
      else if negb (hasCache node) then (r, Some errNodeCacheNil)
      else match nodes r !! ID node with
      | Some _ => (r, Some ErrNodeAlreadyExists)
      | None =>
          match virtualNodeCount r node with
          | Err e => (r, Some e)
          | Ok n =>
              match placeLoop node (Z.to_nat n) 0 r [] with
              | (r', hashes, Some e) => (rebuildSortedHashes (deleteHashes hashes r'), Some e)
              | (r', hashes, None) =>
                  (MkRing (ring r') (sortHashes (sortedHashes r'))
                     (<[ID node := node]> (nodes r')) (<[ID node := hashes]> (nodeHashes r'))
                     (virtualNodes r') (hashFunc r') (collisions r'), None)
              end
          end
      end
  end.

Definition Remove (r : ConsistentHashRing) (nodeID : gostring) :
    ConsistentHashRing * option ringErr :=
  match nodes r !! nodeID with
  | None => (r, Some ErrNodeNotFound)
  | Some _ =>
      let r' := rebuildSortedHashes (deleteHashes (default [] (nodeHashes r !! nodeID)) r) in
      (MkRing (ring r') (sortedHashes r') (delete nodeID (nodes r')) (delete nodeID (nodeHashes r'))
         (virtualNodes r') (hashFunc r') (collisions r'), None)
  end.

(** ** Lookup *)

(** The binary search with its wrap to the first hash. *)
Definition searchIndex (r : ConsistentHashRing) (key : gostring) : nat :=
  let hash := hashFunc r key in
  let idx := sort_search (length (sortedHashes r))
               (λ i, (hash <=? default 0%Z (sortedHashes r !! i))%Z) in
  if length (sortedHashes r) <=? idx then 0 else idx.

(** [r.ring[r.sortedHashes[i]]]: [None] is the nil interface of an absent key. *)
Definition nodeAt (r : ConsistentHashRing) (i : nat) : option CacheNode :=
  sortedHashes r !! i ≫= λ h, ring r !! h.

Definition Get (r : ConsistentHashRing) (key : gostring) : result ringErr (option CacheNode) :=
  match sortedHashes r with
  | [] => Err ErrNoNodesAvailable
  | _ => Ok (nodeAt r (searchIndex r key))
  end.

(** The walk of [GetN]. [None]: the fuel ran out, or a nil node was
    dereferenced (a panic). *)
Fixpoint collect (r : ConsistentHashRing) (n : Z) (fuel : nat) (idx : nat)
    (seen : gset gostring) (acc : list CacheNode) : option (list CacheNode) :=
  if (Z.of_nat (length acc) <? n)%Z && (size seen <? size (nodes r)) then
    match fuel with
    | O => None
    | S fuel =>
        node ← nodeAt r idx;
        let idx' := (idx + 1) mod length (sortedHashes r) in
        if bool_decide (ID node ∈ seen) then collect r n fuel idx' seen acc
        else collect r n fuel idx' ({[ID node]} ∪ seen) (acc ++ [node])
    end
  else Some acc.

(** One turn of the ring is enough fuel. *)
Definition GetN (r : ConsistentHashRing) (key : gostring) (n : Z) :
    option (result ringErr (list CacheNode)) :=
  match sortedHashes r with
  | [] => Some (Err ErrNoNodesAvailable)
  | _ =>
      if (n <=? 0)%Z then Some (Err errNotPositive)
      else
        ns ← collect r n (length (sortedHashes r)) (searchIndex r key) ∅ [];
        Some (if (Z.of_nat (length ns) <? n)%Z then Err ErrInsufficientReplicas else Ok ns)
  end.

(** The iteration order of the map is unspecified; callers get some order of
    these. *)
Definition Nodes (r : ConsistentHashRing) : list CacheNode := (map_to_list (nodes r)).*2.
Definition Size (r : ConsistentHashRing) : nat := size (nodes r).
Definition CollisionCount (r : ConsistentHashRing) : Z := collisions r.

(** ** Histories *)

Inductive ringOp := OpAdd (node : option CacheNode) | OpRemove (nodeID : gostring).

Definition apply_op (r : ConsistentHashRing) (op : ringOp) : ConsistentHashRing :=
  match op with OpAdd n => (Add r n).1 | OpRemove id => (Remove r id).1 end.

Definition run_ops (config : option ConsistentHashRingConfig) (ops : list ringOp) : ConsistentHashRing :=
  foldl apply_op (NewConsistentHashRing config) ops.

(** ** Invariant *)

Record hashring_ok (r : ConsistentHashRing) : Prop := {
  ok_sorted : sortedHashes r = sortHashes (map_to_list (ring r)).*1;
  ok_owner : ∀ h n, ring r !! h = Some n →
    nodes r !! ID n = Some n ∧ ∃ hs, nodeHashes r !! ID n = Some hs ∧ h ∈ hs;
  ok_placed : ∀ id hs h, nodeHashes r !! id = Some hs → h ∈ hs →
    ∃ n, ring r !! h = Some n ∧ ID n = id;
  ok_nodes : ∀ id n, nodes r !! id = Some n →
    ID n = id ∧ ∃ hs, nodeHashes r !! id = Some hs ∧ hs ≠ [];
  ok_hashes : ∀ id, is_Some (nodeHashes r !! id) → is_Some (nodes r !! id);
  ok_virtual : (0 < virtualNodes r)%Z
}.

Lemma sorted_hashes_unique (l k : list Z) : l ≡ₚ k → sortHashes l = sortHashes k.
Proof.
  intros H. apply (StronglySorted_unique Z.le).
  - apply StronglySorted_merge_sort; apply _.
  - apply StronglySorted_merge_sort; apply _.
  - unfold sortHashes. by rewrite !merge_sort_Permutation.
Qed.

Lemma elem_of_keys (m : gmap Z CacheNode) h : h ∈ (map_to_list m).*1 ↔ is_Some (m !! h).
Proof.
  rewrite list_elem_of_fmap. split.
  - intros ([k v] & -> & Hin%elem_of_map_to_list). by eexists.
  - intros [v Hv]. exists (h, v). by rewrite elem_of_map_to_list.
Qed.

Lemma elem_of_sorted r h : hashring_ok r → h ∈ sortedHashes r ↔ is_Some (ring r !! h).
Proof.
  intros Hok. rewrite (ok_sorted _ Hok). unfold sortHashes.
  by rewrite merge_sort_Permutation, elem_of_keys.
Qed.

Lemma sorted_strong r : hashring_ok r → StronglySorted Z.le (sortedHashes r).
Proof. intros Hok. rewrite (ok_sorted _ Hok). apply StronglySorted_merge_sort; apply _. Qed.

Lemma probe_free m k h c c' h' : probe m k h c = (c', Ok h') → m !! h' = None.
Proof. revert h c. induction k; intros h c; simpl; [done|]. intros H. case_match; [eauto|by simplify_eq]. Qed.

Lemma foldl_delete (hs : list Z) (m : gmap Z CacheNode) h :
  foldl (λ m h, delete h m) m hs !! h = if bool_decide (h ∈ hs) then None else m !! h.
Proof.
  revert m. induction hs as [|x hs IH]; intros m; simpl; [done|].
  rewrite IH. repeat case_bool_decide; try set_solver.
  - destruct (decide (h = x)) as [->|]; [by rewrite lookup_delete_eq|set_solver].
  - apply lookup_delete_ne. set_solver.
Qed.

(** What the placement loop does, successful or not: it adds fresh keys, all
    mapped to the new node, records exactly them, and leaves the rest alone. *)
Record placed (node : CacheNode) (r r' : ConsistentHashRing) (hs : list Z) : Prop := {
  pl_ring : ∀ h, ring r' !! h = if bool_decide (h ∈ hs) then Some node else ring r !! h;
  pl_fresh : ∀ h, h ∈ hs → ring r !! h = None;
  pl_nodup : NoDup hs;
  pl_sorted : sortedHashes r' = sortedHashes r ++ hs;
  pl_nodes : nodes r' = nodes r;
  pl_hashes : nodeHashes r' = nodeHashes r;
  pl_virtual : virtualNodes r' = virtualNodes r;
  pl_func : hashFunc r' = hashFunc r
}.

Lemma placeLoop_spec node todo i r0 r hs r' hs' err :
  placed node r0 r hs → placeLoop node todo i r hs = (r', hs', err) →
  placed node r0 r' hs' ∧ (err = None → length hs' = length hs + todo).
Proof.
  revert i r hs. induction todo as [|todo IH]; intros i r hs Hpl Hloop; simpl in Hloop.
  { simplify_eq. split; [done|lia]. }
  destruct (resolveVirtualNodeHash r (ID node) i) as [coll [hash|e]] eqn:Hres.
  - apply IH in Hloop as [H1 H2].
    { split; [done|]. intros ->%H2. rewrite length_app. simpl. lia. }
    apply probe_free in Hres. destruct Hpl. rewrite pl_ring0 in Hres.
    case_bool_decide; [done|]. split; simpl; try done.
    + intros h. destruct (decide (h = hash)) as [->|].
      * rewrite lookup_insert_eq, bool_decide_true; set_solver.
      * rewrite lookup_insert_ne, pl_ring0 by done. repeat case_bool_decide; set_solver.
    + intros h. rewrite elem_of_app, list_elem_of_singleton. naive_solver.
    + apply NoDup_app. split; [done|]. split; [|apply NoDup_singleton]. set_solver.
    + by rewrite pl_sorted0, app_assoc.
  - simplify_eq. split; [|done]. destruct Hpl. by split.
Qed.

Lemma placed_refl node r : placed node r r [].
Proof. split; try done; [by intros h ?%not_elem_of_nil|constructor|by rewrite app_nil_r]. Qed.

Lemma keys_union (m m' : gmap Z CacheNode) node (hs : list Z) :
  (∀ h, m' !! h = if bool_decide (h ∈ hs) then Some node else m !! h) →
  (∀ h, h ∈ hs → m !! h = None) → NoDup hs →
  (map_to_list m').*1 ≡ₚ (map_to_list m).*1 ++ hs.
Proof.
  intros Hm' Hfresh Hnd. apply NoDup_Permutation.
  - apply NoDup_fst_map_to_list.
  - apply NoDup_app. split; [apply NoDup_fst_map_to_list|]. split; [|done].
    intros h [v Hv]%elem_of_keys Hin. rewrite Hfresh in Hv; done.
  - intros h. rewrite elem_of_app, !elem_of_keys, Hm'. case_bool_decide as H.
    + split; [by right|done].
    + naive_solver.
Qed.

(** Undoing a failed placement restores the map. *)
Lemma placed_undo node r r' hs : placed node r r' hs → foldl (λ m h, delete h m) (ring r') hs = ring r.
Proof.
  intros [Hr Hf]. apply map_eq. intros h. rewrite foldl_delete, Hr.
  case_bool_decide as H; [by rewrite Hf|done].
Qed.

Lemma virtualNodeCount_pos r node n : virtualNodeCount r node = Ok n → (0 < n ≤ 2 ^ 20)%Z.
Proof.
  unfold virtualNodeCount, maxVirtualNodePlacementsPerNode. intros H.
  set (w := if (Weight node <=? 0)%Z then 1%Z else Weight node) in *.
  assert (0 < w)%Z by (subst w; destruct (Z.leb_spec (Weight node) 0); lia).
  clearbody w. steps.
  assert (virtualNodes r * w ≤ 2 ^ 20)%Z as Hle.
  { rewrite Z.quot_div_nonneg in H2 by lia.
    pose proof (Z.mul_div_le (2 ^ 20) (virtualNodes r)). nia. }
  rewrite wrap64_small by (unfold is_int64, int64_min, int64_max; nia). nia.
Qed.

(** The two outcomes of [Add]: nothing a lookup can see has changed, or the
    node's fresh hashes were added. *)
Lemma Add_cases r node r' err : hashring_ok r → Add r node = (r', err) →
  (∃ e, err = Some e ∧ ring r' = ring r ∧ sortedHashes r' = sortedHashes r ∧ nodes r' = nodes r ∧
     nodeHashes r' = nodeHashes r ∧ virtualNodes r' = virtualNodes r ∧ hashFunc r' = hashFunc r) ∨
  (∃ n r1 hs, err = None ∧ node = Some n ∧ nodes r !! ID n = None ∧ placed n r r1 hs ∧ hs ≠ [] ∧
     ring r' = ring r1 ∧ sortedHashes r' = sortHashes (sortedHashes r1) ∧
     nodes r' = <[ID n := n]> (nodes r) ∧ nodeHashes r' = <[ID n := hs]> (nodeHashes r) ∧
     virtualNodes r' = virtualNodes r ∧ hashFunc r' = hashFunc r).
Proof.
  intros Hok. unfold Add. destruct node as [n|]; [|intros; simplify_eq; left; by eexists].
  case_bool_decide; [intros; simplify_eq; left; by eexists|].
  destruct (hasCache n); simpl; [|intros; simplify_eq; left; by eexists].
  destruct (nodes r !! ID n) eqn:Hn; [intros; simplify_eq; left; by eexists|].
  destruct (virtualNodeCount r n) as [c|e] eqn:Hc; [|intros; simplify_eq; left; by eexists].
  destruct (placeLoop n (Z.to_nat c) 0 r []) as [[r1 hs] [e|]] eqn:Hl;
    intros; simplify_eq; apply (placeLoop_spec _ _ _ r) in Hl as [Hpl Hlen];
    try apply placed_refl.
  - left. exists e. simpl. rewrite (placed_undo _ _ _ _ Hpl).
    destruct Hpl. split_and!; try done. by rewrite (ok_sorted _ Hok).
  - right. exists n, r1, hs. apply virtualNodeCount_pos in Hc. specialize (Hlen eq_refl).
    simpl. rewrite (pl_nodes _ _ _ _ Hpl), (pl_hashes _ _ _ _ Hpl).
    destruct Hpl. split_and!; try done. intros ->. simpl in Hlen. lia.
Qed.

Lemma add_preserves r node : hashring_ok r → hashring_ok (Add r node).1.
Proof.
  intros Hok. destruct (Add r node) as [r' err] eqn:Hadd. simpl.
  destruct (Add_cases _ _ _ _ Hok Hadd)
    as [(e & _ & Hr & Hs & Hn & Hh & Hv & _)|
        (n & r1 & hs & _ & _ & Hnew & Hpl & Hne & Hr & Hs & Hn & Hh & Hv & _)].
  { destruct Hok. split; rewrite ?Hr, ?Hs, ?Hn, ?Hh, ?Hv; done. }
  destruct Hpl, Hok.
  assert (∀ id hs', nodeHashes r !! id = Some hs' → id ≠ ID n) as Hid.
  { intros id hs' Hids ->. destruct (ok_hashes0 (ID n)); [by eexists|naive_solver]. }
  split; rewrite ?Hv; try done.
  - rewrite Hs, Hr, pl_sorted0, ok_sorted0. symmetry. apply sorted_hashes_unique.
    rewrite (keys_union (ring r) (ring r1) n hs) by done.
    unfold sortHashes. by rewrite merge_sort_Permutation.
  - intros h m. rewrite Hr, pl_ring0, Hn, Hh. case_bool_decide as Hin; intros Hm.
    + simplify_eq. rewrite !lookup_insert_eq. eauto.
    + destruct (ok_owner0 _ _ Hm) as (Hm1 & hs' & Hm2 & Hm3).
      rewrite !lookup_insert_ne by (symmetry; eauto). eauto.
  - intros id hs' h. rewrite Hr, pl_ring0, Hh. intros [[<- <-]|[Hne' Hids]]%lookup_insert_Some Hin.
    + rewrite bool_decide_true by done. eauto.
    + destruct (ok_placed0 _ _ _ Hids Hin) as (m & Hm & <-).
      rewrite bool_decide_false; [eauto|]. intros Hf%pl_fresh0. congruence.
  - intros id m. rewrite Hn, Hh. intros [[<- <-]|[Hne' Hids]]%lookup_insert_Some.
    + rewrite lookup_insert_eq. eauto.
    + rewrite lookup_insert_ne by done. eauto.
  - intros id. rewrite Hn, Hh. destruct (decide (id = ID n)) as [->|].
    + rewrite !lookup_insert_eq. by eexists.
    + rewrite !lookup_insert_ne by done. apply ok_hashes0.
Qed.

Lemma Remove_ring r id : hashring_ok r → is_Some (nodes r !! id) →
  ∀ h, ring (Remove r id).1 !! h =
       match ring r !! h with Some n => if bool_decide (ID n = id) then None else Some n | None => None end.
Proof.
  intros Hok [n Hn] h. unfold Remove. rewrite Hn. simpl. rewrite foldl_delete.
  destruct Hok. destruct (ok_nodes0 _ _ Hn) as (<- & hs & Hhs & _). rewrite Hhs. simpl.
  case_bool_decide as Hin.
  - destruct (ok_placed0 _ _ _ Hhs Hin) as (m & -> & ->). by rewrite bool_decide_true.
  - destruct (ring r !! h) as [m|] eqn:Hm; [|done]. rewrite bool_decide_false; [done|].
    intros Heq. destruct (ok_owner0 _ _ Hm) as (_ & hs' & Hhs' & ?). rewrite Heq in Hhs'. congruence.
Qed.

Lemma remove_preserves r id : hashring_ok r → hashring_ok (Remove r id).1.
Proof.
  intros Hok. destruct (nodes r !! id) as [n0|] eqn:Hn0; [|unfold Remove; by rewrite Hn0].
  pose proof (Remove_ring r id Hok (mk_is_Some _ _ Hn0)) as Hr. unfold Remove in *.
  rewrite Hn0 in *. simpl in *. destruct Hok. split; simpl; try done.
  - intros h m. rewrite Hr. destruct (ring r !! h) as [m'|] eqn:Hm; [|done].
    case_bool_decide; [done|]. intros ?; simplify_eq. rewrite !lookup_delete_ne by done. eauto.
  - intros id' hs h [Hne Hids]%lookup_delete_Some Hin.
    destruct (ok_placed0 _ _ _ Hids Hin) as (m & Hm & <-). exists m.
    rewrite Hr, Hm, bool_decide_false by done. done.
  - intros id' m [Hne Hids]%lookup_delete_Some. rewrite lookup_delete_ne by done. eauto.
  - intros id' [hs [Hne Hids]%lookup_delete_Some]. rewrite lookup_delete_ne by done. eauto.
Qed.

Lemma New_ok config : hashring_ok (NewConsistentHashRing config).
Proof.
  split; simpl; try done.
  - intros id [? H]. by rewrite lookup_empty in H.
  - repeat case_match; unbool; simpl; lia.
Qed.

Lemma run_ops_ok config ops : hashring_ok (run_ops config ops).
Proof.
  unfold run_ops. generalize (New_ok config). generalize (NewConsistentHashRing config).
  induction ops as [|[n|id] ops IH]; intros r Hr; simpl; [done| |]; apply IH.
  - by apply add_preserves.
  - by apply remove_preserves.
Qed.
#[local] Hint Resolve add_preserves remove_preserves run_ops_ok sorted_strong : plumego.

Lemma sorted_not_nil r h : hashring_ok r → is_Some (ring r !! h) → sortedHashes r ≠ [].
Proof.
  intros Hok Hh%elem_of_sorted He; [|done]. rewrite He in Hh. by apply not_elem_of_nil in Hh.
Qed.

Lemma registered_not_nil r id : hashring_ok r → is_Some (nodes r !! id) → sortedHashes r ≠ [].
Proof.
  intros Hok [n Hn]. destruct (ok_nodes _ Hok _ _ Hn) as (_ & [|h hs] & Hhs & ?); [done|].
  destruct (ok_placed _ Hok _ _ h Hhs) as (m & Hm & _); [left|]. apply (sorted_not_nil r h); eauto.
Qed.

Lemma sorted_nil_iff r : hashring_ok r → sortedHashes r = [] ↔ Size r = 0.
Proof.
  intros Hok. unfold Size. rewrite map_size_empty_iff. split.
  - intros He. apply map_empty. intros id. apply eq_None_not_Some.
    intros Hn%registered_not_nil; done.
  - intros Hn. rewrite (ok_sorted _ Hok). replace (ring r) with (∅ : gmap Z CacheNode); [done|].
    symmetry. apply map_empty. intros h. destruct (ring r !! h) as [n|] eqn:Hh; [|done].
    destruct (ok_owner _ Hok _ _ Hh) as [Hm _]. by rewrite Hn in Hm.
Qed.

(** ** The successor on the circle *)

(** [x] is the first hash of [m] at or after [h], or the first of all when
    none follows [h]. *)
Definition is_successor (m : gmap Z CacheNode) (h x : Z) : Prop :=
  is_Some (m !! x) ∧
  ((h ≤ x ∧ ∀ y, is_Some (m !! y) → h ≤ y → x ≤ y) ∨
   ((∀ y, is_Some (m !! y) → y < h) ∧ ∀ y, is_Some (m !! y) → x ≤ y))%Z.

Lemma successor_unique m h x y : is_successor m h x → is_successor m h y → x = y.
Proof.
  intros [Hx [[Hx1 Hx2]|[Hx1 Hx2]]] [Hy [[Hy1 Hy2]|[Hy1 Hy2]]].
  - apply Z.le_antisymm; auto.
  - specialize (Hy1 _ Hx). lia.
  - specialize (Hx1 _ Hy). lia.
  - apply Z.le_antisymm; auto.
Qed.

(** Fewer hashes, but still the successor's own: still the successor. *)
Lemma successor_mono m m' h x : is_successor m h x →
  (∀ y, is_Some (m' !! y) → is_Some (m !! y)) → is_Some (m' !! x) → is_successor m' h x.
Proof. intros [Hx H] Hsub Hx'. split; [done|]. naive_solver. Qed.

Lemma sorted_lookup_le (l : list Z) i j x y :
  StronglySorted Z.le l → l !! i = Some x → l !! j = Some y → i ≤ j → (x ≤ y)%Z.
Proof.
  intros Hs. revert i j. induction Hs as [|z l Hs IH Hall]; intros i j Hi Hj Hij; [done|].
  destruct i as [|i], j as [|j]; simplify_eq/=; [lia| |lia|eauto with lia].
  rewrite Forall_forall in Hall. by apply Hall, list_elem_of_lookup_2 with j.
Qed.

Lemma searchIndex_lt r key : sortedHashes r ≠ [] → searchIndex r key < length (sortedHashes r).
Proof.
  intros Hne. unfold searchIndex. case_match; unbool; [|done].
  destruct (sortedHashes r); [done|simpl; lia].
Qed.

Lemma searchIndex_successor r key h : hashring_ok r →
  sortedHashes r !! searchIndex r key = Some h → is_successor (ring r) (hashFunc r key) h.
Proof.
  intros Hok Hh. pose proof (sorted_strong r Hok) as Hs.
  assert (∀ y, is_Some (ring r !! y) → ∃ j, j < length (sortedHashes r) ∧ sortedHashes r !! j = Some y) as Hin.
  { intros y [j Hj]%(elem_of_sorted r y Hok)%list_elem_of_lookup_1. eauto using lookup_lt_Some. }
  split; [apply elem_of_sorted; eauto using list_elem_of_lookup_2|]. unfold searchIndex in Hh.
  set (f := λ i, (hashFunc r key <=? default 0%Z (sortedHashes r !! i))%Z) in *.
  destruct (sort_search_spec f (length (sortedHashes r))) as (Hle & Hlt & Hge).
  { intros a b Hab Hb Ha. unfold f in *. unbool. apply Z.leb_le.
    destruct (lookup_lt_is_Some_2 (sortedHashes r) a) as [x Hx]; [lia|].
    destruct (lookup_lt_is_Some_2 (sortedHashes r) b) as [y Hy]; [lia|].
    pose proof (sorted_lookup_le _ _ _ _ _ Hs Hx Hy Hab). rewrite Hx in Ha. rewrite Hy. simpl in *. lia. }
  set (k := sort_search _ f) in *. unfold f in *. case_match; unbool.
  - right. split; intros y (j & Hj & Hy)%Hin.
    + specialize (Hlt j ltac:(lia)). rewrite Hy in Hlt. simpl in Hlt. unbool. lia.
    + apply (sorted_lookup_le _ 0 j _ _ Hs Hh Hy). lia.
  - left. split.
    + specialize (Hge k ltac:(lia) ltac:(lia)). rewrite Hh in Hge. simpl in Hge. unbool. lia.
    + intros y (j & Hj & Hy)%Hin Hhy. destruct (decide (j < k)) as [Hjk|Hjk].
      * specialize (Hlt j Hjk). rewrite Hy in Hlt. simpl in Hlt. unbool. lia.
      * apply (sorted_lookup_le _ k j _ _ Hs Hh Hy). lia.
Qed.

Lemma nodeAt_total r i : hashring_ok r → i < length (sortedHashes r) →
  ∃ h n, sortedHashes r !! i = Some h ∧ ring r !! h = Some n ∧ nodeAt r i = Some n.
Proof.
  intros Hok [h Hh]%lookup_lt_is_Some_2.
  destruct (proj1 (elem_of_sorted r h Hok)) as [n Hn]; [by eapply list_elem_of_lookup_2|].
  exists h, n. unfold nodeAt. by rewrite Hh.
Qed.

(** [Get] on a consistent ring, completely. *)
Lemma ringGet_spec r key : hashring_ok r →
  (sortedHashes r = [] ∧ Get r key = Err ErrNoNodesAvailable) ∨
  (∃ h n, is_successor (ring r) (hashFunc r key) h ∧ ring r !! h = Some n ∧
     nodeAt r (searchIndex r key) = Some n ∧ Get r key = Ok (Some n)).
Proof.
  intros Hok. destruct (decide (sortedHashes r = [])) as [He|Hne].
  { left. unfold Get. by rewrite He. }
  right. destruct (nodeAt_total r (searchIndex r key) Hok) as (h & n & Hh & Hn & Hat);
    [by apply searchIndex_lt|].
  exists h, n. split; [by apply searchIndex_successor|]. split; [done|]. split; [done|].
  unfold Get. rewrite Hat. by destruct (sortedHashes r).
Qed.

Lemma Get_by_successor r key h n : hashring_ok r →
  is_successor (ring r) (hashFunc r key) h → ring r !! h = Some n → Get r key = Ok (Some n).
Proof.
  intros Hok Hh Hn. destruct (ringGet_spec r key Hok) as [[He _]|(h' & n' & Hh' & Hn' & _ & ->)].
  - apply (mk_is_Some _ _), (elem_of_sorted r h Hok) in Hn. rewrite He in Hn. by apply not_elem_of_nil in Hn.
  - rewrite (successor_unique _ _ _ _ Hh Hh') in Hn. congruence.
Qed.

(** Shrinking a ring to [r'] moves no key whose node keeps its hashes. *)
Lemma Get_shrink r r' key n : hashring_ok r → hashring_ok r' → hashFunc r' = hashFunc r →
  (∀ h m, ring r' !! h = Some m → ring r !! h = Some m) →
  (∀ h, ring r !! h = Some n → ring r' !! h = Some n) →
  Get r key = Ok (Some n) → Get r' key = Ok (Some n).
Proof.
  intros Hok Hok' Hf Hsub Hkeep HG.
  destruct (ringGet_spec r key Hok) as [[_ HG']|(h & n' & Hh & Hn & _ & HG')]; [congruence|].
  rewrite HG' in HG. simplify_eq. apply (Get_by_successor r' key h); [done| |by apply Hkeep].
  rewrite Hf. eapply successor_mono; [done| |by eexists; apply Hkeep].
  intros y [m Hm]. eauto.
Qed.

(** ** Replica sets *)

(** The reference: the first occurrence of every node not in [seen]. *)
Fixpoint distinct (seen : gset gostring) (l : list CacheNode) : list CacheNode :=
  match l with
  | [] => []
  | n :: l => if bool_decide (ID n ∈ seen) then distinct seen l
              else n :: distinct ({[ID n]} ∪ seen) l
  end.

(** The nodes in ring order from the key's position on, one whole turn. *)
Definition walk (r : ConsistentHashRing) (key : gostring) : list CacheNode :=
  omap (λ h, ring r !! h)
    (drop (searchIndex r key) (sortedHashes r) ++ take (searchIndex r key) (sortedHashes r)).

Lemma distinct_elem seen l n : n ∈ distinct seen l → n ∈ l ∧ ID n ∉ seen.
Proof.
  revert seen. induction l as [|m l IH]; intros seen; simpl; [by intros ?%not_elem_of_nil|].
  case_bool_decide; [intros [??]%IH; set_solver|].
  rewrite elem_of_cons. intros [->|[??]%IH]; set_solver.
Qed.

Lemma distinct_ids seen l id : id ∈ ID <$> distinct seen l ↔ id ∈ ID <$> l ∧ id ∉ seen.
Proof.
  revert seen. induction l as [|m l IH]; intros seen; csimpl; [set_solver|].
  case_bool_decide; csimpl; rewrite !elem_of_cons, IH.
  - naive_solver.
  - rewrite not_elem_of_union, not_elem_of_singleton. destruct (decide (id = ID m)); naive_solver.
Qed.

Lemma distinct_NoDup seen l : NoDup (ID <$> distinct seen l).
Proof.
  revert seen. induction l as [|m l IH]; intros seen; simpl; [constructor|].
  case_bool_decide; csimpl; [done|]. constructor; [|done]. rewrite distinct_ids. set_solver.
Qed.

Lemma distinct_covered seen l : (∀ n, n ∈ l → ID n ∈ seen) → distinct seen l = [].
Proof.
  induction l as [|m l IH]; simpl; [done|]. intros H. rewrite bool_decide_true by set_solver.
  apply IH. set_solver.
Qed.

(** The loop on the [rest] of the turn. *)
Lemma collect_spec r n rest : hashring_ok r → ∀ idx seen acc,
  (∀ j, j < length rest → nodeAt r ((idx + j) mod length (sortedHashes r)) = rest !! j) →
  sortedHashes r ≠ [] → idx < length (sortedHashes r) →
  seen ⊆ dom (nodes r) → dom (nodes r) ⊆ seen ∪ list_to_set (ID <$> rest) →
  (∀ m, m ∈ rest → ID m ∈ dom (nodes r)) →
  collect r n (length rest) idx seen acc =
    Some (acc ++ take (Z.to_nat n - length acc) (distinct seen rest)).
Proof.
  intros Hok. induction rest as [|m rest IH]; intros idx seen acc Hat Hne Hidx Hsub Hcov Hmem.
  - assert (seen = dom (nodes r)) as -> by set_solver. simpl.
    rewrite size_dom, Nat.ltb_irrefl, andb_false_r. by rewrite take_nil, app_nil_r.
  - cbn [length collect]. destruct (Z.ltb_spec (Z.of_nat (length acc)) n) as [Hn|Hn]; simpl.
    2:{ replace (Z.to_nat n - length acc) with 0 by lia. by rewrite take_0, app_nil_r. }
    destruct (Nat.ltb_spec (size seen) (size (nodes r))) as [Hs|Hs].
    2:{ rewrite <- (size_dom (D:=gset gostring)) in Hs.
        assert (seen = dom (nodes r)) as -> by (by apply leibniz_equiv, set_subseteq_size_equiv).
        rewrite bool_decide_true by (apply Hmem; left).
        rewrite distinct_covered by set_solver. by rewrite take_nil, app_nil_r. }
    pose proof (Hat 0 ltac:(simpl; lia)) as Hm. rewrite Nat.add_0_r, Nat.mod_small in Hm by done.
    rewrite Hm. cbn [lookup list_lookup mbind option_bind].
    assert (∀ j, j < length rest → nodeAt r (((idx + 1) mod length (sortedHashes r) + j) mod
              length (sortedHashes r)) = rest !! j) as Hat'.
    { intros j Hj. rewrite Nat.Div0.add_mod_idemp_l. rewrite <- Nat.add_assoc.
      apply (Hat (S j)). simpl. lia. }
    assert ((idx + 1) mod length (sortedHashes r) < length (sortedHashes r)).
    { apply Nat.mod_upper_bound. lia. }
    csimpl in *. case_bool_decide as Hin.
    + apply IH; set_solver.
    + assert (ID m ∈ dom (nodes r)) by set_solver. rewrite IH by set_solver.
      rewrite length_app, <- app_assoc. simpl.
      replace (Z.to_nat n - length acc) with (S (Z.to_nat n - (length acc + 1))) by lia. done.
Qed.

Lemma omap_total {A B} (f : A → option B) (l : list A) :
  (∀ x, x ∈ l → is_Some (f x)) →
  length (omap f l) = length l ∧ ∀ j, omap f l !! j = l !! j ≫= f.
Proof.
  induction l as [|x l IH]; intros Hf; [done|]. destruct (Hf x) as [y Hy]; [left|].
  destruct IH as [IH1 IH2]; [set_solver|]. csimpl. rewrite Hy. simpl. split; [by f_equal|].
  intros [|j]; simpl; [by rewrite Hy|apply IH2].
Qed.

(** Rotating a list is indexing it modulo its length. *)
Lemma rotate_lookup {A} (l : list A) i j : i < length l → j < length l →
  (drop i l ++ take i l) !! j = l !! ((i + j) mod length l).
Proof.
  intros Hi Hj. destruct (decide (i + j < length l)) as [H|H].
  - rewrite lookup_app_l by (rewrite length_drop; lia). by rewrite lookup_drop, Nat.mod_small.
  - rewrite lookup_app_r by (rewrite length_drop; lia). rewrite length_drop, lookup_take_lt by lia.
    f_equal. replace (i + j) with (i + j - length l + 1 * length l) by lia.
    rewrite Nat.Div0.mod_add, Nat.mod_small; lia.
Qed.

Lemma elem_of_rotate {A} (l : list A) i x : x ∈ drop i l ++ take i l ↔ x ∈ l.
Proof. by rewrite (Permutation_app_comm (drop i l)), take_drop. Qed.

Lemma walk_spec r key : hashring_ok r → sortedHashes r ≠ [] →
  length (walk r key) = length (sortedHashes r) ∧
  ∀ j, j < length (sortedHashes r) →
    walk r key !! j = nodeAt r ((searchIndex r key + j) mod length (sortedHashes r)).
Proof.
  intros Hok Hne. pose proof (searchIndex_lt r key Hne) as Hi. unfold walk.
  destruct (omap_total (λ h, ring r !! h) (drop (searchIndex r key) (sortedHashes r) ++
    take (searchIndex r key) (sortedHashes r))) as [Hlen Hlk].
  { intros h Hh. apply elem_of_sorted; [done|]. by apply elem_of_rotate in Hh. }
  rewrite Hlen, length_app, length_drop, length_take. split; [lia|].
  intros j Hj. rewrite Hlk, rotate_lookup by done. done.
Qed.

Lemma elem_of_walk r key n : hashring_ok r → sortedHashes r ≠ [] →
  n ∈ walk r key ↔ ∃ h, ring r !! h = Some n.
Proof.
  intros Hok Hne. unfold walk. rewrite list_elem_of_omap. split; [naive_solver|].
  intros [h Hh]. exists h. split; [|done]. apply elem_of_rotate, elem_of_sorted; eauto.
Qed.

Lemma walk_ids r key id : hashring_ok r → sortedHashes r ≠ [] →
  id ∈ ID <$> walk r key ↔ id ∈ dom (nodes r).
Proof.
  intros Hok Hne. rewrite list_elem_of_fmap, elem_of_dom. split.
  - intros (n & -> & (h & Hh)%elem_of_walk); [|done..].
    destruct (ok_owner _ Hok _ _ Hh) as [? _]. by eexists.
  - intros [n Hn]. destruct (ok_nodes _ Hok _ _ Hn) as (Hid & [|h hs] & Hhs & ?); [done|].
    destruct (ok_placed _ Hok _ _ h Hhs) as (m & Hm & ?); [left|].
    exists m. split; [congruence|]. apply elem_of_walk; eauto.
Qed.

Lemma replicas_length r key : hashring_ok r → sortedHashes r ≠ [] →
  length (distinct ∅ (walk r key)) = Size r.
Proof.
  intros Hok Hne. unfold Size. rewrite <- (size_dom (D:=gset gostring)).
  rewrite <- (length_fmap ID), <- (size_list_to_set (C:=gset gostring)) by apply distinct_NoDup.
  f_equal. apply leibniz_equiv. intros id.
  rewrite elem_of_list_to_set, distinct_ids, walk_ids by done. set_solver.
Qed.

Lemma GetN_spec r key n : hashring_ok r → sortedHashes r ≠ [] → (0 < n)%Z →
  GetN r key n = Some (if (Z.of_nat (Size r) <? n)%Z then Err ErrInsufficientReplicas
                       else Ok (take (Z.to_nat n) (distinct ∅ (walk r key)))).
Proof.
  intros Hok Hne Hn. destruct (walk_spec r key Hok Hne) as [Hlen Hlk].
  unfold GetN. rewrite (proj2 (Z.leb_gt n 0)) by done.
  assert (collect r n (length (sortedHashes r)) (searchIndex r key) ∅ [] =
    Some (take (Z.to_nat n) (distinct ∅ (walk r key)))) as ->;
    [rewrite <- Hlen, (collect_spec r n (walk r key) Hok); [by rewrite Nat.sub_0_r|..]|].
  - intros j Hj. rewrite Hlk by lia. done.
  - done.
  - by apply searchIndex_lt.
  - set_solver.
  - intros id Hid. rewrite elem_of_union, elem_of_list_to_set, walk_ids by done. by right.
  - intros m Hm. apply (walk_ids r key); [done..|]. by apply list_elem_of_fmap_2.
  - destruct (sortedHashes r) eqn:E; [done|]. rewrite <- E in *. cbn. f_equal.
    rewrite length_take, replicas_length by done.
    destruct (Z.ltb_spec (Z.of_nat (Size r)) n); [rewrite (proj2 (Z.ltb_lt _ _)) by lia; done|].
    rewrite (proj2 (Z.ltb_ge _ _)) by lia. done.
Qed.

(** ** Claims *)

(** A ring of three weighted nodes, used by the witnesses. *)
Definition demoNode (name : String.string) (w : Z) : CacheNode := MkNode (str name) w true.
Definition demoOps : list ringOp :=
  [OpAdd (Some (demoNode "a" 1)); OpAdd (Some (demoNode "b" 2)); OpAdd (Some (demoNode "c" 1))].
Definition demoConfig : option ConsistentHashRingConfig := Some (MkConfig 3 None).

(** C27: In every history of [Add] and [Remove], failed ones included, a ring
    that still has hashes answers [Get] with the registered node whose virtual
    node is the first at or after the key's hash, wrapping to the smallest hash;
    an empty ring answers [ErrNoNodesAvailable], and it is empty exactly when
    no physical node is registered. The sorted slice the binary search uses is
    always the strictly sorted list of the map's keys. *)
Theorem ring_get_successor config ops key :
  let r := run_ops config ops in
  (StronglySorted Z.le (sortedHashes r) ∧ NoDup (sortedHashes r) ∧
   ∀ h, h ∈ sortedHashes r ↔ is_Some (ring r !! h)) ∧
  (sortedHashes r = [] ↔ Size r = 0) ∧
  match Get r key with
  | Err e => e = ErrNoNodesAvailable ∧ Size r = 0
  | Ok None => False
  | Ok (Some n) => nodes r !! ID n = Some n ∧
      ∃ h, ring r !! h = Some n ∧ is_successor (ring r) (hashFunc r key) h
  end.
Proof.
  intros r. pose proof (run_ops_ok config ops) as Hok. fold r in Hok.
  split; [|split; [by apply sorted_nil_iff|]].
  - split; [by apply sorted_strong|]. split; [|intros h; by apply elem_of_sorted].
    rewrite (ok_sorted _ Hok). unfold sortHashes.
    rewrite merge_sort_Permutation. apply NoDup_fst_map_to_list.
  - destruct (ringGet_spec r key Hok) as [[He ->]|(h & n & Hh & Hn & _ & ->)].
    { split; [done|by apply sorted_nil_iff]. }
    split; [|eauto]. apply (ok_owner _ Hok _ _ Hn).
Qed.

(** C25: Consistent hashing moves as few keys as possible. After any history: an
    [Add] that succeeds leaves every key where it was or moves it to the new
    node; a [Remove] that succeeds leaves every key that was not on the removed
    node where it was; an [Add] or [Remove] that fails moves nothing. *)
Theorem ring_minimal_disruption config ops key node id :
  let r := run_ops config ops in
  (let '(r', err) := Add r node in
   match err with
   | Some _ => Get r' key = Get r key ∧ nodes r' = nodes r
   | None => Get r' key = Get r key ∨ Get r' key = Ok node
   end) ∧
  (let '(r', err) := Remove r id in
   match err with
   | Some _ => r' = r
   | None => (∃ n, Get r key = Ok (Some n) ∧ ID n = id) ∨ Get r' key = Get r key
   end).
Proof.
  intros r. pose proof (run_ops_ok config ops) as Hok. fold r in Hok. split.
  - destruct (Add r node) as [r' err] eqn:Hadd.
    pose proof (add_preserves r node Hok) as Hok'. rewrite Hadd in Hok'. simpl in Hok'.
    destruct (Add_cases _ _ _ _ Hok Hadd)
      as [(e & -> & Hr & Hs & Hn & _ & _ & Hf)|
          (n & r1 & hs & -> & -> & _ & Hpl & _ & Hr & _ & Hns & _ & _ & Hf)].
    + split; [|done]. unfold Get, nodeAt, searchIndex. by rewrite Hr, Hs, Hf.
    + destruct (ringGet_spec r' key Hok') as [[He _]|(h & m & Hh & Hm & _ & HG')].
      { apply registered_not_nil with (id:=ID n) in He; [done|done|]. rewrite Hns, lookup_insert_eq. eauto. }
      rewrite HG'. destruct Hpl. rewrite Hr, pl_ring0 in Hm. case_bool_decide as Hin.
      { right. congruence. }
      left. symmetry. apply (Get_by_successor r key h); [done| |done]. rewrite <- Hf.
      eapply successor_mono; [done| |by eexists].
      intros y [m' Hm']. rewrite Hr, pl_ring0. by case_bool_decide.
  - destruct (Remove r id) as [r' err] eqn:Hrem. pose proof Hrem as Hrem'. unfold Remove in Hrem'.
    destruct (nodes r !! id) as [n0|] eqn:Hn0; [|by simplify_eq]. simplify_eq/=.
    pose proof (remove_preserves r id Hok) as Hok'. pose proof (Remove_ring r id Hok (mk_is_Some _ _ Hn0)) as Hr.
    rewrite Hrem in Hok', Hr. simpl in Hok', Hr.
    destruct (ringGet_spec r key Hok) as [[He HG]|(h & n & Hh & Hn & _ & HG)].
    { by apply (registered_not_nil r id) in He. }
    destruct (decide (ID n = id)) as [Hid|Hid]; [left; eauto|right]. rewrite HG.
    eapply (Get_shrink r); [done|done|done| | |done].
    + intros h' m Hm'. simpl in Hm'. rewrite Hr in Hm'. by repeat case_match; simplify_eq.
    + intros h' Hm'. simpl. rewrite Hr, Hm', bool_decide_false by done. done.
Qed.

(** Replica selection terminates within one turn of the ring and is right:
    for any history, key and [n] from 1 to the number of nodes, [GetN] returns
    exactly [n] pairwise different registered nodes, the primary of [Get]
    first, and the smaller replica sets are prefixes of the larger; asking for
    more than there are is [ErrInsufficientReplicas]. *)
Theorem getN_replicas config ops key n
    (Hsize : 0 < Size (run_ops config ops)) (Hn : (0 < n)%Z) :
  let r := run_ops config ops in
  if (Z.of_nat (Size r) <? n)%Z then GetN r key n = Some (Err ErrInsufficientReplicas)
  else ∃ ns, GetN r key n = Some (Ok ns) ∧ Z.of_nat (length ns) = n ∧ NoDup (ID <$> ns) ∧
       Forall (λ m, nodes r !! ID m = Some m) ns ∧ Get r key = Ok (head ns) ∧
       (∀ k, (0 < k ≤ n)%Z → GetN r key k = Some (Ok (take (Z.to_nat k) ns))).
Proof.
  intros r. fold r in Hsize. pose proof (run_ops_ok config ops) as Hok. fold r in Hok.
  assert (sortedHashes r ≠ []) as Hne.
  { intros He%sorted_nil_iff; [lia|done]. }
  rewrite GetN_spec by done. destruct (Z.ltb_spec (Z.of_nat (Size r)) n) as [|Hle]; [done|].
  eexists. split; [done|]. rewrite length_take, replicas_length by done. split; [lia|].
  split; [|split; [|split]].
  - rewrite fmap_take. eapply sublist_NoDup; [apply (distinct_NoDup ∅)|apply sublist_take].
  - apply Forall_forall. intros m (i & Hi & _)%elem_of_take. apply list_elem_of_lookup_2 in Hi.
    apply distinct_elem in Hi as [[h Hh]%elem_of_walk _]; [|done..]. apply (ok_owner _ Hok _ _ Hh).
  - destruct (ringGet_spec r key Hok) as [[? _]|(h & m & _ & _ & Hat & ->)]; [done|].
    destruct (walk_spec r key Hok Hne) as [_ Hlk]. pose proof (searchIndex_lt r key Hne) as Hi.
    specialize (Hlk 0 ltac:(lia)). rewrite Nat.add_0_r, Nat.mod_small, Hat in Hlk by done.
    destruct (walk r key) as [|m' w]; simplify_eq/=. rewrite bool_decide_false by set_solver.
    by destruct (Z.to_nat n) eqn:E; [lia|].
  - intros k Hk. rewrite GetN_spec by (done || lia). rewrite (proj2 (Z.ltb_ge _ _)) by lia.
    rewrite take_take. by rewrite Nat.min_l by lia.
Qed.
Lemma getN_replicas_witness : ∃ ns, GetN (run_ops demoConfig demoOps) (str "user:42") 2 = Some (Ok ns) ∧
  Get (run_ops demoConfig demoOps) (str "user:42") = Ok (head ns).
Proof.
  pose proof (getN_replicas demoConfig demoOps (str "user:42") 2) as H.
  cbv zeta in H. replace (Z.of_nat (Size (run_ops demoConfig demoOps)) <? 2)%Z with false in H
    by (vm_compute; reflexivity).
  destruct H as (ns & H1 & _ & _ & _ & H2 & _); [vm_compute; lia|lia|]. exists ns. split; done.
Defined.

End HashRing.
