(* ===== verification/ShardStrategy.v ===== *)
(** * Sharding strategies

    [x/data/sharding/strategy.go] (the interface and the shared checks),
    [mod.go], [hash.go], [list.go] and [range.go]. A strategy maps a key of any
    dynamic type to a shard index and a pair of keys to the shards that may hold
    the keys between them. The interface is a class; what its clients rely on
    (indices within bounds, ranges complete) is a second class that the
    strategies discharge, each on the keys it really serves. *)

From stdpp Require Import options.
From S2P Require Import Prelude GoStrings GoNumbers GoBytes.

Module Sharding.

(** ** Keys and outcomes *)

Inductive intKind :=
| IInt | IInt8 | IInt16 | IInt32 | IInt64 | IUint | IUint8 | IUint16 | IUint32 | IUint64.

(** A value of type [any]: nil, the integer types, strings, byte slices, times
    (the instant, and what else distinguishes two [time.Time] values under [==])
    and values of any other type, hashable or not. *)
Inductive key :=
| KNil
| KNum (k : intKind) (v : Z)
| KStr (s : gostring)
| KBytes (b : gostring)
| KTime (instant repr : Z)
| KOther (ty : gostring) (value : Z) (hashable : bool).

#[export] Instance intKind_eq_dec : EqDecision intKind.
Proof. solve_decision. Defined.
#[export] Instance key_eq_dec : EqDecision key.
Proof. solve_decision. Defined.

Definition kinds : list intKind :=
  [IInt; IInt8; IInt16; IInt32; IInt64; IUint; IUint8; IUint16; IUint32; IUint64].
#[export] Instance intKind_countable : Countable intKind.
Proof.
  apply (inj_countable' (λ k, match k with
    | IInt => 0 | IInt8 => 1 | IInt16 => 2 | IInt32 => 3 | IInt64 => 4 | IUint => 5 | IUint8 => 6
    | IUint16 => 7 | IUint32 => 8 | IUint64 => 9 end)
    (λ n, default IInt (kinds !! n))). by intros [].
Defined.

#[export] Instance key_countable : Countable key.
Proof.
  apply (inj_countable' (λ k, match k with
    | KNil => inl (inl (inl ()))
    | KNum k v => inl (inl (inr (k, v)))
    | KStr s => inl (inr (inl s))
    | KBytes b => inl (inr (inr b))
    | KTime i r => inr (inl (i, r))
    | KOther t v h => inr (inr (t, v, h)) end)
    (λ x, match x with
    | inl (inl (inl _)) => KNil
    | inl (inl (inr (k, v))) => KNum k v
    | inl (inr (inl s)) => KStr s
    | inl (inr (inr b)) => KBytes b
    | inr (inl (i, r)) => KTime i r
    | inr (inr (t, v, h)) => KOther t v h end)). by intros [].
Defined.

(** The values of an integer type. *)
Definition kind_bounds (k : intKind) : Z * Z :=
  match k with
  | IInt | IInt64 => (- 2 ^ 63, 2 ^ 63)
  | IInt8 => (- 2 ^ 7, 2 ^ 7)
  | IInt16 => (- 2 ^ 15, 2 ^ 15)
  | IInt32 => (- 2 ^ 31, 2 ^ 31)
  | IUint | IUint64 => (0, 2 ^ 64)
  | IUint8 => (0, 2 ^ 8)
  | IUint16 => (0, 2 ^ 16)
  | IUint32 => (0, 2 ^ 32)
  end%Z.
Definition key_ok (k : key) : Prop :=
  match k with KNum k v => ((kind_bounds k).1 ≤ v < (kind_bounds k).2)%Z | _ => True end.

(** The package's errors: those of the strategies, then those of the rules and
    the resolver. *)
Inductive shardErr :=
| ErrInvalidShardKey | ErrNoMatchingRange | ErrNoMatchingList | ErrInvalidNumShards
| ErrNilShardKey | ErrInvalidRangeOrder | ErrOverlappingRanges
| errShardOutOfRange | errIncompatibleTypes | errNegativeShard | errNoRanges
| ErrNoShardingRule | ErrInvalidShardingRule | ErrInvalidShardCount | errInvalidDefaultShard
| ErrShardKeyNotFound | ErrInvalidArgumentCount | ErrShardKeyIndexOutOfBounds | ErrUnsupportedSQL.

(** A call returns, fails with an error, panics, or does not return. *)
Inductive outcome (A : Type) :=
| Ret (a : A)
| Fail (e : shardErr)
| Panics
| Diverges.
#[global] Arguments Ret {A} a.
#[global] Arguments Fail {A} e.
#[global] Arguments Panics {A}.
#[global] Arguments Diverges {A}.

#[export] Instance outcome_ret : MRet outcome := λ A a, Ret a.
#[export] Instance outcome_bind : MBind outcome := λ A B f m,
  match m with Ret a => f a | Fail e => Fail e | Panics => Panics | Diverges => Diverges end.

Lemma bind_Ret {A B} (f : A → outcome B) m b : m ≫= f = Ret b ↔ ∃ a, m = Ret a ∧ f a = Ret b.
Proof. destruct m; simpl; naive_solver. Qed.

(** ** The interface *)

Class Strategy (S : Type) := {
  Shard : S → key → Z → outcome Z;
  ShardRange : S → key → key → Z → outcome (list Z);
  Name : S → gostring
}.

(** What clients rely on, for the keys a strategy serves and the keys its
    ranges cover. *)
Class StrategyLaws (S : Type) `{Strategy S} (serves : S → key → Prop)
    (covers : S → key → key → key → Prop) : Prop := {
  shard_bounds s k n i : serves s k → Shard s k n = Ret i → (0 ≤ i < n)%Z;
  range_complete s a b k n i : serves s k → covers s a b k →
    Shard s k n = Ret i → ∃ l, ShardRange s a b n = Ret l ∧ i ∈ l;
  range_bounds s a b n l : ShardRange s a b n = Ret l → StronglySorted Z.lt l ∧ Forall (λ i, 0 ≤ i < n)%Z l
}.

Definition validateShardKey (k : key) : outcome unit :=
  match k with KNil => Fail ErrNilShardKey | _ => Ret () end.

Definition validateNumShards (numShards : Z) : outcome unit :=
  if (numShards <=? 0)%Z then Fail ErrInvalidNumShards else Ret ().

Definition normalizeShardIndex (idx numShards : Z) : Z :=
  let idx := if (idx <? 0)%Z then wrap64 (- idx) else idx in Z.rem idx numShards.

(** [for i := 0; i < numShards; i++ { shards[i] = i }] *)
Definition allShards (numShards : Z) : list Z := seqZ 0 numShards.

(** A set of indices as a sorted slice. *)
Definition setToSlice (shardSet : gset Z) (numShards : Z) : list Z :=
  filter (λ i, i ∈ shardSet) (allShards numShards).

(** ** Modulo *)

Definition keyToInt64 (k : key) : outcome Z :=
  match k with
  | KNum IUint v => Ret (wrap64 v)
  | KNum IUint64 v => if (2 ^ 63 - 1 <? v)%Z then Fail ErrInvalidShardKey else Ret v
  | KNum _ v => Ret v
  | _ => Fail ErrInvalidShardKey
  end.

Record ModStrategy := NewModStrategy {}.

Definition modShard (k : key) (numShards : Z) : outcome Z :=
  validateShardKey k ≫= λ _,
  validateNumShards numShards ≫= λ _,
  id ← keyToInt64 k;
  Ret (normalizeShardIndex id numShards).

(** The loop [for id := startID; id <= endID; id++], whose counter wraps. *)
Fixpoint collectIDs (fuel : nat) (id endID numShards : Z) (shardSet : gset Z) : option (gset Z) :=
  if (id <=? endID)%Z then
    match fuel with
    | O => None
    | S fuel => collectIDs fuel (wrap64 (id + 1)) endID numShards
                  ({[normalizeShardIndex id numShards]} ∪ shardSet)
    end
  else Some shardSet.

(** The loop runs over at most [numShards] ids when nothing overflows. *)
Definition modShardRange (start end_ : key) (numShards : Z) : outcome (list Z) :=
  validateNumShards numShards ≫= λ _,
  s ← keyToInt64 start;
  e ← keyToInt64 end_;
  let '(startID, endID) := if (e <? s)%Z then (e, s) else (s, e) in
  if (numShards <=? wrap64 (endID - startID))%Z then Ret (allShards numShards)
  else match collectIDs (Z.to_nat numShards) startID endID numShards ∅ with
       | Some shardSet => Ret (setToSlice shardSet numShards)
       | None => Diverges
       end.

#[export] Instance Mod_Strategy : Strategy ModStrategy := {
  Shard _ := modShard;
  ShardRange _ := modShardRange;
  Name _ := str "mod"
}.

(** ** Hash *)

(** Little-endian [PutUint64]. *)
Definition uint64ToBytes (n : Z) : gostring := reverse (be_put 8 (Z.to_N n)).
Definition int64ToBytes (n : Z) : gostring := uint64ToBytes (wrapu64 n).

Definition keyToBytes (k : key) : outcome gostring :=
  match k with
  | KStr s => Ret s
  | KBytes b => Ret b
  | KNum (IInt | IInt8 | IInt16 | IInt32 | IInt64) v => Ret (int64ToBytes v)
  | KNum _ v => Ret (uint64ToBytes v)
  | _ => Fail ErrInvalidShardKey
  end.

(** [hash/fnv.New64a]. *)
Definition fnv1aHash (data : gostring) : Z :=
  foldl (λ h b, wrapu64 (Z.lxor h (Z.of_N (byte_val b)) * 1099511628211))%Z
    14695981039346656037%Z data.

Record HashStrategy := NewHashStrategyWithFunc { hashFunc : gostring → Z }.
Definition NewHashStrategy : HashStrategy := NewHashStrategyWithFunc fnv1aHash.

Definition hashShard (h : HashStrategy) (k : key) (numShards : Z) : outcome Z :=
  validateShardKey k ≫= λ _,
  validateNumShards numShards ≫= λ _,
  bytes ← keyToBytes k;
  Ret (normalizeShardIndex (wrap64 (hashFunc h bytes)) numShards).

Definition hashShardRange (h : HashStrategy) (start end_ : key) (numShards : Z) : outcome (list Z) :=
  validateNumShards numShards ≫= λ _, Ret (allShards numShards).

#[export] Instance Hash_Strategy : Strategy HashStrategy := {
  Shard := hashShard;
  ShardRange := hashShardRange;
  Name _ := str "hash"
}.

(** ** List *)

Record ListStrategy := NewListStrategyWithDefault {
  mapping : gmap key Z;
  defaultShard : Z
}.
Definition NewListStrategy (m : gmap key Z) : ListStrategy := NewListStrategyWithDefault m (-1).

(** Hashing a value of an unhashable type panics. *)
Definition hashableKey (k : key) : bool :=
  match k with KBytes _ => false | KOther _ _ h => h | _ => true end.

Definition listShard (l : ListStrategy) (k : key) (numShards : Z) : outcome Z :=
  validateShardKey k ≫= λ _,
  validateNumShards numShards ≫= λ _,
  if negb (hashableKey k) then Panics else
  shardIdx ← match mapping l !! k with
             | Some i => Ret i
             | None => if (0 <=? defaultShard l)%Z then Ret (defaultShard l) else Fail ErrNoMatchingList
             end;
  if (shardIdx <? 0)%Z || (numShards <=? shardIdx)%Z then Fail errShardOutOfRange else Ret shardIdx.

Definition listShardRange (l : ListStrategy) (start end_ : key) (numShards : Z) : outcome (list Z) :=
  validateNumShards numShards ≫= λ _, Ret (allShards numShards).

#[export] Instance List_Strategy : Strategy ListStrategy := {
  Shard := listShard;
  ShardRange := listShardRange;
  Name _ := str "list"
}.

Definition AddMapping (l : ListStrategy) (k : key) (shard : Z) : outcome ListStrategy :=
  if hashableKey k then Ret (NewListStrategyWithDefault (<[k := shard]> (mapping l)) (defaultShard l))
  else Panics.
Definition RemoveMapping (l : ListStrategy) (k : key) : outcome ListStrategy :=
  if hashableKey k then Ret (NewListStrategyWithDefault (delete k (mapping l)) (defaultShard l))
  else Panics.
Definition GetMapping (l : ListStrategy) : gmap key Z := mapping l.
Definition SetDefaultShard (l : ListStrategy) (shard : Z) : ListStrategy :=
  NewListStrategyWithDefault (mapping l) shard.
Definition GetDefaultShard (l : ListStrategy) : Z := defaultShard l.

(** ** Range *)

Record RangeDefinition := MkRange { Start : key; End : key; RShard : Z }.
Record RangeStrategy := MkRangeStrategy { ranges : list RangeDefinition }.

Definition compareInt64 (a b : Z) : Z := if (a <? b)%Z then -1 else if (b <? a)%Z then 1 else 0.

(** The type assertion [b.(T)] panics when [b] has another type; a type without
    a case compares equal to everything. *)
Definition compareValues (a b : key) : outcome Z :=
  match a with
  | KNum k va => match b with
                 | KNum k' vb => if bool_decide (k = k') then Ret (compareInt64 va vb) else Panics
                 | _ => Panics
                 end
  | KStr va => match b with
               | KStr vb => Ret (match str_cmp va vb with Lt => -1 | Gt => 1 | Eq => 0 end)%Z
               | _ => Panics
               end
  | KTime va _ => match b with KTime vb _ => Ret (compareInt64 va vb) | _ => Panics end
  | _ => Ret 0%Z
  end.

(** [%T] of two values. *)
Definition sameType (a b : key) : bool :=
  match a, b with
  | KNil, KNil | KStr _, KStr _ | KBytes _, KBytes _ | KTime _ _, KTime _ _ => true
  | KNum k _, KNum k' _ => bool_decide (k = k')
  | KOther t _ _, KOther t' _ _ => bool_decide (t = t')
  | _, _ => false
  end.
Definition validateComparableTypes (a b : key) : outcome unit :=
  if sameType a b then Ret () else Fail errIncompatibleTypes.

(** [sort.Slice] by [Start]: the insertion sort it uses on short slices; the
    sorted prefix is kept reversed. On ranges with different starts of one type
    every sorting algorithm gives this result. *)
Fixpoint insertRange (x : RangeDefinition) (rev_prefix : list RangeDefinition) :
    outcome (list RangeDefinition) :=
  match rev_prefix with
  | [] => Ret [x]
  | y :: rest => c ← compareValues (Start x) (Start y);
                 if (c <? 0)%Z then zs ← insertRange x rest; Ret (y :: zs)
                 else Ret (x :: y :: rest)
  end.
Fixpoint sortRangesLoop (rev_prefix todo : list RangeDefinition) : outcome (list RangeDefinition) :=
  match todo with
  | [] => Ret (reverse rev_prefix)
  | x :: todo => p ← insertRange x rev_prefix; sortRangesLoop p todo
  end.
Definition sortRanges (l : list RangeDefinition) : outcome (list RangeDefinition) :=
  sortRangesLoop [] l.

Fixpoint validateEach (l : list RangeDefinition) : outcome unit :=
  match l with
  | [] => Ret ()
  | r :: l =>
      c ← compareValues (Start r) (End r);
      if (0 <=? c)%Z then Fail ErrInvalidRangeOrder
      else validateComparableTypes (Start r) (End r) ≫= λ _,
           if (RShard r <? 0)%Z then Fail errNegativeShard else validateEach l
  end.

Fixpoint checkOverlaps (l : list RangeDefinition) : outcome unit :=
  match l with
  | r1 :: (r2 :: _) as rest =>
      c ← compareValues (End r1) (Start r2);
      if (0 <? c)%Z then Fail ErrOverlappingRanges else checkOverlaps rest
  | _ => Ret ()
  end.

Definition validateRanges (l : list RangeDefinition) : outcome unit :=
  validateEach l ≫= λ _, sorted ← sortRanges l; checkOverlaps sorted.

Definition NewRangeStrategy (l : list RangeDefinition) : outcome RangeStrategy :=
  match l with
  | [] => Fail errNoRanges
  | _ => validateRanges l ≫= λ _, sorted ← sortRanges l; Ret (MkRangeStrategy sorted)
  end.

(** [sort.Search] with a predicate that may panic. *)
Fixpoint searchLoopM (fuel : nat) (f : nat → outcome bool) (i j : nat) : outcome nat :=
  match fuel with
  | O => Ret i
  | S fuel => if i <? j then
                let h := (i + j) / 2 in
                b ← f h; if b : bool then searchLoopM fuel f i h else searchLoopM fuel f (S h) j
              else Ret i
  end.

Definition rangeShard (r : RangeStrategy) (k : key) (numShards : Z) : outcome Z :=
  validateShardKey k ≫= λ _,
  validateNumShards numShards ≫= λ _,
  idx ← searchLoopM (length (ranges r))
          (λ i, match ranges r !! i with
                | Some rd => c ← compareValues k (End rd); Ret (c <? 0)%Z
                | None => Panics
                end) 0 (length (ranges r));
  match ranges r !! idx with
  | None => Fail ErrNoMatchingRange
  | Some rd =>
      c ← compareValues k (Start rd);
      if (c <? 0)%Z then Fail ErrNoMatchingRange
      else if (RShard rd <? 0)%Z || (numShards <=? RShard rd)%Z then Fail errShardOutOfRange
      else Ret (RShard rd)
  end.

(** The loop over the ranges, with its short-circuit [&&]. *)
Fixpoint overlapLoop (start end_ : key) (numShards : Z) (l : list RangeDefinition)
    (shardSet : gset Z) : outcome (gset Z) :=
  match l with
  | [] => Ret shardSet
  | rd :: l =>
      c1 ← compareValues start (End rd);
      hit ← (if (c1 <? 0)%Z then c2 ← compareValues end_ (Start rd); Ret (0 <? c2)%Z else Ret false);
      let shardSet := if hit && (0 <=? RShard rd)%Z && (RShard rd <? numShards)%Z
                      then {[RShard rd]} ∪ shardSet else shardSet in
      overlapLoop start end_ numShards l shardSet
  end.

Definition rangeShardRange (r : RangeStrategy) (start end_ : key) (numShards : Z) : outcome (list Z) :=
  validateNumShards numShards ≫= λ _,
  c ← compareValues start end_;
  let '(start, end_) := if (0 <? c)%Z then (end_, start) else (start, end_) in
  shardSet ← overlapLoop start end_ numShards (ranges r) ∅;
  if size shardSet =? 0 then Fail ErrNoMatchingRange else Ret (setToSlice shardSet numShards).

#[export] Instance Range_Strategy : Strategy RangeStrategy := {
  Shard := rangeShard;
  ShardRange := rangeShardRange;
  Name _ := str "range"
}.

Example mod_example : modShard (KNum IInt 12345) 4 = Ret 1%Z.
Proof. reflexivity. Qed.
Example mod_range_example :
  modShardRange (KNum IInt 10) (KNum IInt 12) 4 = Ret [0; 2; 3]%Z.
Proof. vm_compute. reflexivity. Qed.
Example fnv64a_example : fnv1aHash (str "a") = 12638187200555641996%Z.
Proof. vm_compute. reflexivity. Qed.

End Sharding.
