(* ===== verification/ShardStrategyFacts.v ===== *)
(** * Sharding strategies: laws

    The instances of the strategy laws, the construction and lookup of range
    strategies, and the inputs on which a strategy breaks its contract. *)

From stdpp Require Import options.
From S2P Require Import Prelude GoStrings GoNumbers GoBytes ShardStrategy.
Import Sharding.

(** ** Indices *)

Lemma elem_of_allShards n i : i ∈ allShards n ↔ (0 ≤ i < n)%Z.
Proof. unfold allShards. rewrite elem_of_seqZ. lia. Qed.

Lemma seqZ_sorted m n : StronglySorted Z.lt (seqZ m n).
Proof.
  unfold seqZ. generalize 0, (Z.to_nat n). intros i k. revert i. induction k as [|k IH]; intros i; csimpl; [constructor|].
  constructor; [apply IH|]. apply Forall_forall. intros x (j & -> & Hj)%list_elem_of_fmap.
  apply elem_of_seq in Hj. lia.
Qed.

Lemma setToSlice_spec X n i : i ∈ setToSlice X n ↔ i ∈ X ∧ (0 ≤ i < n)%Z.
Proof. unfold setToSlice. rewrite list_elem_of_filter, elem_of_allShards. done. Qed.

Lemma slice_laws n l : l `sublist_of` allShards n →
  StronglySorted Z.lt l ∧ Forall (λ i, 0 ≤ i < n)%Z l.
Proof.
  intros Hl. split.
  - pose proof (seqZ_sorted 0 n) as Hs. fold (allShards n) in Hs. revert Hs.
    induction Hl as [|x l k Hl IH|x l k Hl IH]; intros Hs; [constructor| |].
    + apply StronglySorted_inv in Hs as [Hs Hall]. constructor; [auto|].
      rewrite Forall_forall in *. intros y Hy. apply Hall. eapply elem_of_submseteq; [done|]. by apply sublist_submseteq.
    + apply StronglySorted_inv in Hs as [Hs _]. auto.
  - apply Forall_forall. intros i Hi. apply elem_of_allShards.
    eapply elem_of_submseteq; [done|]. by apply sublist_submseteq.
Qed.

Lemma normalize_bounds idx n : is_int64 idx → idx ≠ int64_min → (0 < n)%Z →
  (0 ≤ normalizeShardIndex idx n < n)%Z.
Proof.
  unfold normalizeShardIndex. intros Hi Hmin Hn. set (j := if (idx <? 0)%Z then _ else _).
  assert (0 ≤ j)%Z; [|pose proof (Z.rem_bound_pos j n); lia]. subst j.
  destruct (Z.ltb_spec idx 0); [|done]. rewrite wrap64_small; unfold is_int64, int64_min, int64_max in *; lia.
Qed.

Lemma validate_Ret k n (m : outcome Z) i :
  (validateShardKey k ≫= λ _, validateNumShards n ≫= λ _, m) = Ret i → (0 < n)%Z ∧ m = Ret i.
Proof. unfold validateNumShards. destruct k; simpl; (destruct (Z.leb_spec n 0); simpl; [done|]); done. Qed.

Lemma validateNum_Ret {A} n (m : outcome A) l :
  (validateNumShards n ≫= λ _, m) = Ret l → (0 < n)%Z ∧ m = Ret l.
Proof. unfold validateNumShards. by destruct (Z.leb_spec n 0). Qed.

Lemma validateNum_pos {A} n (m : outcome A) : (0 < n)%Z → (validateNumShards n ≫= λ _, m) = m.
Proof. intros Hn. unfold validateNumShards. by destruct (Z.leb_spec n 0); [lia|]. Qed.

(** ** Modulo *)

Lemma collectIDs_spec fuel s e n X : (int64_min ≤ s)%Z → (e < int64_max)%Z → (e - s < Z.of_nat fuel)%Z →
  ∃ Y, collectIDs fuel s e n X = Some Y ∧ X ⊆ Y ∧
       ∀ id, (s ≤ id ≤ e)%Z → normalizeShardIndex id n ∈ Y.
Proof.
  revert s X. induction fuel as [|fuel IH]; intros s X Hs He Hf; simpl.
  - destruct (Z.leb_spec s e); [lia|]. exists X. split; [done|]. split; [done|lia].
  - destruct (Z.leb_spec s e); [|exists X; split; [done|]; split; [done|lia]].
    rewrite wrap64_small by (unfold is_int64, int64_max in *; lia).
    destruct (IH (s + 1)%Z ({[normalizeShardIndex s n]} ∪ X)) as (Y & HY & Hsub & Hin); [lia..|].
    exists Y. split; [done|]. split; [set_solver|].
    intros id Hid. destruct (decide (id = s)) as [->|]; [set_solver|]. apply Hin. lia.
Qed.

Lemma keyToInt64_range k id : key_ok k → keyToInt64 k = Ret id → is_int64 id.
Proof.
  destruct k as [|[] v|?|?|? ?|? ? ?]; simpl; intros Hk Hid; try case_match; unbool; simplify_eq;
    solve [apply wrap64_range | unfold is_int64, int64_min, int64_max; lia].
Qed.

(** The keys modulo sharding serves: any integer but [MinInt64]. *)
Definition mod_serves (_ : ModStrategy) (k : key) : Prop :=
  key_ok k ∧ keyToInt64 k ≠ Ret int64_min.
Definition mod_covers (_ : ModStrategy) (a b k : key) : Prop :=
  ∃ s e id, keyToInt64 a = Ret s ∧ keyToInt64 b = Ret e ∧ keyToInt64 k = Ret id ∧
    key_ok a ∧ key_ok b ∧ (Z.min s e ≤ id ≤ Z.max s e)%Z ∧ (Z.max s e < int64_max)%Z ∧
    (Z.max s e - Z.min s e ≤ int64_max)%Z.

#[export] Instance Mod_laws : StrategyLaws ModStrategy mod_serves mod_covers.
Proof.
  split.
  - intros s k n i [Hk Hmin] (Hn & (id & Hid & [= <-])%bind_Ret)%validate_Ret.
    apply normalize_bounds; [by apply (keyToInt64_range k)|congruence|done].
  - intros st a b k n i [Hk Hmin] (s & e & id & Ha & Hb & Hid & Hoka & Hokb & Hbet & Hmax & Hdiff) Hsh.
    apply validate_Ret in Hsh as (Hn & (id' & Hid' & [= <-])%bind_Ret).
    assert (id' = id) as -> by congruence.
    assert (is_int64 id) by (by apply (keyToInt64_range k)). assert (id ≠ int64_min) by congruence.
    pose proof (normalize_bounds id n) as Hnb.
    pose proof (keyToInt64_range a s Hoka Ha). pose proof (keyToInt64_range b e Hokb Hb).
    cbn [ShardRange Mod_Strategy]. unfold modShardRange. rewrite validateNum_pos, Ha, Hb by done. simpl.
    destruct (if (e <? s)%Z then (e, s) else (s, e)) as [s' e'] eqn:Hse.
    assert (s' = Z.min s e ∧ e' = Z.max s e) as [-> ->].
    { destruct (Z.ltb_spec e s); simplify_eq; lia. }
    rewrite wrap64_small by (unfold is_int64, int64_min, int64_max in *; lia).
    destruct (Z.leb_spec n (Z.max s e - Z.min s e)).
    + eexists. split; [done|]. apply elem_of_allShards; auto.
    + destruct (collectIDs_spec (Z.to_nat n) (Z.min s e) (Z.max s e) n ∅) as (Y & -> & _ & HY);
        [unfold is_int64, int64_min, int64_max in *; lia..|].
      eexists. split; [done|]. apply setToSlice_spec. auto.
  - intros st a b n l (Hn & (s & Hs & (e & He & H)%bind_Ret)%bind_Ret)%validateNum_Ret.
    apply slice_laws. destruct (if (e <? s)%Z then _ else _) as [s' e'].
    steps; [done|]. apply sublist_filter.
Qed.

(** ** Hash and list *)

Definition hash_serves (h : HashStrategy) (k : key) : Prop :=
  ∀ bs, keyToBytes k = Ret bs → wrap64 (hashFunc h bs) ≠ int64_min.

#[export] Instance Hash_laws : StrategyLaws HashStrategy hash_serves (λ _ _ _ _, True).
Proof.
  assert (∀ s k n i, hash_serves s k → hashShard s k n = Ret i → 0 < n ∧ 0 ≤ i < n)%Z as Hb.
  { intros s k n i Hk (Hn & (bs & Hbs & [= <-])%bind_Ret)%validate_Ret.
    split; [done|]. apply normalize_bounds; [apply wrap64_range|by apply Hk|done]. }
  split.
  - intros s k n i Hk H. by eapply Hb.
  - intros s a b k n i Hk _ H. destruct (Hb _ _ _ _ Hk H). cbn. unfold hashShardRange.
    rewrite validateNum_pos by done. eexists. split; [done|]. by apply elem_of_allShards.
  - intros s a b n l (_ & [= <-])%validateNum_Ret. by apply slice_laws.
Qed.

#[export] Instance List_laws : StrategyLaws ListStrategy (λ _ _, True) (λ _ _ _ _, True).
Proof.
  assert (∀ s k n i, listShard s k n = Ret i → 0 < n ∧ 0 ≤ i < n)%Z as Hb.
  { intros s k n i (Hn & H)%validate_Ret. steps; lia. }
  split.
  - intros s k n i _ H. by eapply Hb.
  - intros s a b k n i _ _ H. destruct (Hb _ _ _ _ H). cbn. unfold listShardRange.
    rewrite validateNum_pos by done. eexists. split; [done|]. by apply elem_of_allShards.
  - intros s a b n l (_ & [= <-])%validateNum_Ret. by apply slice_laws.
Qed.

(** ** Range: the order on keys *)

Definition orderedKey (k : key) : Prop :=
  match k with KNum _ _ | KStr _ | KTime _ _ => True | _ => False end.
Definition keyNum (k : key) : Z := match k with KNum _ v => v | KTime i _ => i | _ => 0%Z end.
Definition keyStr (k : key) : gostring := match k with KStr s => s | _ => [] end.

(** The order [compareValues] implements within one type. *)
Definition kcmp : key → key → comparison :=
  lex_cmp (λ a b, Z.compare (keyNum a) (keyNum b)) (λ a b, str_cmp (keyStr a) (keyStr b)).
#[local] Instance kcmp_threeway : ThreeWay (λ _, True) kcmp.
Proof. apply lex_threeway; [apply Z_threeway|apply str_threeway]. Qed.

Definition comparable (a b : key) : Prop := sameType a b = true ∧ orderedKey a.
Definition klt (a b : key) : Prop := kcmp a b = Lt.
Definition kle (a b : key) : Prop := kcmp a b ≠ Gt.
Definition sign (c : comparison) : Z := match c with Lt => -1 | Eq => 0 | Gt => 1 end.

#[local] Instance comparable_sym : Symmetric comparable.
Proof.
  intros [] [] [H1 H2]; simpl in *; try done; split; try done; simpl in *.
  unbool. subst. by rewrite bool_decide_true.
Qed.
#[local] Instance comparable_trans : Transitive comparable.
Proof.
  intros [] [] [] [H1 H2] [H3 H4]; simpl in *; try done; split; try done; simpl in *.
  unbool. subst. by rewrite bool_decide_true.
Qed.

Lemma compareInt64_sign a b : compareInt64 a b = sign (Z.compare a b).
Proof. unfold compareInt64. destruct (Z.compare_spec a b); repeat case_match; unbool; simpl; lia. Qed.

Lemma compareValues_spec a b : comparable a b → compareValues a b = Ret (sign (kcmp a b)).
Proof.
  intros [H1 H2]. unfold kcmp, lex_cmp.
  destruct a as [|k v|s|?|i r|? ? ?], b as [|k' v'|s'|?|i' r'|? ? ?]; simpl in *; try done.
  - rewrite H1, compareInt64_sign. by destruct (Z.compare v v').
  - rewrite compareInt64_sign. by destruct (Z.compare i i').
Qed.

(** A comparison that decides something compared keys of one type. *)
Lemma compareValues_inv a b c : compareValues a b = Ret c → orderedKey a →
  comparable a b ∧ c = sign (kcmp a b).
Proof.
  intros H Ho. assert (comparable a b) as Hc.
  { split; [|done]. destruct a, b; simpl in *; try done; by case_match. }
  split; [done|]. rewrite compareValues_spec in H by done. congruence.
Qed.
Lemma compareValues_neg a b c : compareValues a b = Ret c → (c < 0)%Z → orderedKey a.
Proof. destruct a; simpl; try done; intros [= <-]; lia. Qed.

Lemma klt_le a b : klt a b → kle a b.
Proof. unfold klt, kle. by intros ->. Qed.
Lemma kle_trans a b c : kle a b → kle b c → kle a c.
Proof. intros. by apply (tw_le_trans (λ _, True) kcmp a b c). Qed.
Lemma kcmp_antisym a b : kcmp b a = CompOpp (kcmp a b).
Proof. by apply (tw_antisym (P:=λ _, True)). Qed.
Lemma klt_not_le a b : klt a b ↔ ¬ kle b a.
Proof. unfold kle, klt. rewrite (kcmp_antisym a b). destruct (kcmp a b); simpl; naive_solver. Qed.
Lemma kle_not_lt a b : kle a b ↔ ¬ klt b a.
Proof. unfold kle, klt. rewrite (kcmp_antisym a b). destruct (kcmp a b); simpl; naive_solver. Qed.
Lemma klt_le_trans a b c : klt a b → kle b c → klt a c.
Proof. rewrite !klt_not_le. intros Hab Hbc Hca. apply Hab. by apply kle_trans with c. Qed.
Lemma kle_lt_trans a b c : kle a b → klt b c → klt a c.
Proof. rewrite !klt_not_le. intros Hab Hbc Hca. apply Hbc. by apply kle_trans with a. Qed.

Lemma sign_neg c : (sign c <? 0)%Z = true ↔ c = Lt.
Proof. by destruct c. Qed.
Lemma sign_pos c : (0 <? sign c)%Z = true ↔ c = Gt.
Proof. by destruct c. Qed.

(** ** Range: construction *)

Definition range_ok (rd : RangeDefinition) : Prop :=
  comparable (Start rd) (End rd) ∧ klt (Start rd) (End rd) ∧ (0 ≤ RShard rd)%Z.

(** Non-empty ranges, each ending before the next one starts. *)
Inductive ranges_ok : list RangeDefinition → Prop :=
| ranges_nil : ranges_ok []
| ranges_one rd : range_ok rd → ranges_ok [rd]
| ranges_cons rd rd' l : range_ok rd → comparable (End rd) (Start rd') → kle (End rd) (Start rd') →
    ranges_ok (rd' :: l) → ranges_ok (rd :: rd' :: l).

Lemma validateEach_Ret l : validateEach l = Ret () → Forall range_ok l.
Proof.
  induction l as [|rd l IH]; simpl; [constructor|]. intros (c & Hc & H)%bind_Ret.
  case_match eqn:E1; [done|]. apply bind_Ret in H as ([] & _ & H).
  destruct (Z.ltb_spec (RShard rd) 0); [done|]. unbool.
  destruct (compareValues_inv _ _ _ Hc) as [Hcmp ->]; [by eapply compareValues_neg|].
  constructor; [|auto]. split; [done|]. split; [|lia]. apply sign_neg. by apply Z.ltb_lt.
Qed.

Lemma insertRange_perm x l l' : insertRange x l = Ret l' → l' ≡ₚ x :: l.
Proof.
  revert l'. induction l as [|y l IH]; simpl; intros l' H; [by simplify_eq|].
  apply bind_Ret in H as (c & _ & H). case_match; [|by simplify_eq].
  apply bind_Ret in H as (zs & Hzs & [= <-]). rewrite (IH _ Hzs). apply Permutation_swap.
Qed.

Lemma sortRanges_perm l l' : sortRanges l = Ret l' → l' ≡ₚ l.
Proof.
  unfold sortRanges. assert (∀ p, sortRangesLoop p l = Ret l' → l' ≡ₚ p ++ l) as H; [|apply H].
  induction l as [|x l IH]; simpl; intros p H.
  - simplify_eq. by rewrite reverse_Permutation, app_nil_r.
  - apply bind_Ret in H as (p' & Hp & H). rewrite (IH _ H), (insertRange_perm _ _ _ Hp).
    simpl. by rewrite Permutation_middle.
Qed.

Lemma checkOverlaps_Ret l : Forall range_ok l → checkOverlaps l = Ret () → ranges_ok l.
Proof.
  induction l as [|rd [|rd' l] IH]; intros Hall H; [constructor| |].
  - apply Forall_cons in Hall as [Hrd _]. by apply ranges_one.
  - apply Forall_cons in Hall as [Hrd Hall]. simpl in H. apply bind_Ret in H as (c & Hc & H).
    case_match eqn:E; [done|].
    assert (orderedKey (End rd)) as Ho.
    { destruct Hrd as [Hcmp _]. symmetry in Hcmp. apply Hcmp. }
    destruct (compareValues_inv _ _ _ Hc Ho) as [Hcmp ->].
    constructor; [done|done| |by apply IH]. intros Hgt. by rewrite Hgt in E.
Qed.

Lemma NewRange_ok l r : NewRangeStrategy l = Ret r → ranges_ok (ranges r) ∧ ranges r ≡ₚ l.
Proof.
  intros H. assert (validateRanges l ≫= (λ _, sorted ← sortRanges l; Ret (MkRangeStrategy sorted)) = Ret r) as H'.
  { by destruct l. }
  apply bind_Ret in H' as ([] & Hv & (sorted & Hs & [= <-])%bind_Ret).
  unfold validateRanges in Hv. apply bind_Ret in Hv as ([] & Hv & Hov). rewrite Hs in Hov. simpl in *.
  apply sortRanges_perm in Hs. split; [|done]. apply checkOverlaps_Ret; [|done].
  rewrite Hs. by apply validateEach_Ret.
Qed.

(** ** Range: lookup *)

Lemma ranges_ok_cons rd l : ranges_ok (rd :: l) →
  range_ok rd ∧ ranges_ok l ∧
  ∀ rd', rd' ∈ l → comparable (End rd) (Start rd') ∧ kle (End rd) (Start rd') ∧ range_ok rd'.
Proof.
  revert rd. induction l as [|rd1 l IH]; intros rd; inversion 1 as [| |? ? ? Hrd Hcmp Hle Hl]; subst.
  { split; [done|]. split; [constructor|]. by intros ? ?%not_elem_of_nil. }
  split; [done|]. split; [done|]. destruct (IH _ Hl) as (Hrd1 & _ & Hall).
  intros rd' [->|Hin]%elem_of_cons; [done|]. destruct (Hall _ Hin) as (Hc & Hk & Hok).
  destruct Hrd1 as (Hc1 & Hlt1 & _). split; [|split; [|done]].
  - etrans; [done|]. by etrans.
  - eapply kle_trans; [done|]. eapply kle_trans; [by apply klt_le|done].
Qed.

Lemma ranges_ok_mono l i j ri rj : ranges_ok l → l !! i = Some ri → l !! j = Some rj → i < j →
  kle (End ri) (Start rj).
Proof.
  revert i j. induction l as [|rd l IH]; intros i j Hl Hi Hj Hij; [done|].
  apply ranges_ok_cons in Hl as (_ & Hl & Hall). destruct i as [|i], j as [|j]; simplify_eq/=; [lia| |lia|].
  - apply list_elem_of_lookup_2 in Hj. by apply Hall.
  - eapply IH; eauto. lia.
Qed.

Lemma ranges_ok_forall l rd : ranges_ok l → rd ∈ l → range_ok rd.
Proof.
  induction l as [|rd' l IH]; [by intros _ ?%not_elem_of_nil|].
  intros (H1 & H2 & _)%ranges_ok_cons [->|?]%elem_of_cons; auto.
Qed.

Lemma ranges_ok_comparable l k rd rd' : ranges_ok l → rd ∈ l → rd' ∈ l →
  comparable k (Start rd) → comparable k (Start rd').
Proof.
  assert (∀ rd rd' l, ranges_ok (rd :: l) → rd' ∈ l → comparable (Start rd) (Start rd')) as Hhead.
  { intros r1 r2 l1 (H1 & _ & H3)%ranges_ok_cons Hin. destruct (H3 _ Hin) as [H4 _].
    etrans; [apply H1|done]. }
  induction l as [|r0 l IH]; [by intros _ ?%not_elem_of_nil|].
  intros Hl [->|Hin]%elem_of_cons [->|Hin']%elem_of_cons Hk; [done| | |].
  - etrans; [done|]. eauto.
  - etrans; [done|]. symmetry. eauto.
  - apply ranges_ok_cons in Hl as (_ & Hl & _). auto.
Qed.

Definition in_range (k : key) (rd : RangeDefinition) : Prop := kle (Start rd) k ∧ klt k (End rd).

Lemma in_range_unique l k rd rd' : ranges_ok l → rd ∈ l → rd' ∈ l →
  in_range k rd → in_range k rd' → rd' = rd.
Proof.
  intros Hl [i Hi]%list_elem_of_lookup_1 [j Hj]%list_elem_of_lookup_1 [Hs He] [Hs' He'].
  assert (∀ i j ri rj, l !! i = Some ri → l !! j = Some rj → i < j → kle (Start rj) k → ¬ klt k (End ri)) as Hd.
  { intros i0 j0 ri rj Hi0 Hj0 Hij Hk. apply kle_not_lt. eapply kle_trans; [|done].
    by eapply (ranges_ok_mono l i0 j0). }
  destruct (lt_eq_lt_dec i j) as [[Hij| <-]|Hij]; [|congruence|]; exfalso;
    [by eapply (Hd i j)|by eapply (Hd j i)].
Qed.

Lemma searchLoopM_total fuel (f : nat → outcome bool) (g : nat → bool) i j n :
  (∀ h, h < n → f h = Ret (g h)) → j ≤ n → searchLoopM fuel f i j = Ret (search_loop fuel g i j).
Proof.
  intros Hf. revert i j. induction fuel as [|fuel IH]; intros i j Hj; [done|].
  cbn [searchLoopM search_loop]. destruct (Nat.ltb_spec i j) as [Hij|]; [|done].
  pose proof (midpoint_bounds i j Hij). rewrite Hf by lia. cbn [mbind outcome_bind]. case_match; apply IH; lia.
Qed.

Section range_lookup.
Context (r : RangeStrategy) (k : key) (n : Z).
Hypothesis Hok : ranges_ok (ranges r).
Hypothesis Hk : Forall (λ rd, comparable k (Start rd)) (ranges r).
Hypothesis Hn : (0 < n)%Z.
Hypothesis Hne : ranges r ≠ [].

Let g (i : nat) : bool :=
  match ranges r !! i with Some rd => (sign (kcmp k (End rd)) <? 0)%Z | None => false end.

Lemma rangeShard_index :
  rangeShard r k n =
    match ranges r !! sort_search (length (ranges r)) g with
    | None => Fail ErrNoMatchingRange
    | Some rd => if (sign (kcmp k (Start rd)) <? 0)%Z then Fail ErrNoMatchingRange
                 else if (RShard rd <? 0)%Z || (n <=? RShard rd)%Z then Fail errShardOutOfRange
                 else Ret (RShard rd)
    end.
Proof using All.
  assert (validateShardKey k = Ret ()) as Hv.
  { rewrite Forall_forall in Hk. destruct (ranges r) as [|rd l]; [done|].
    destruct (Hk rd) as [_ Ho]; [left|]. by destruct k. }
  unfold rangeShard. rewrite Hv. simpl. rewrite validateNum_pos by done.
  rewrite (searchLoopM_total _ _ g 0 _ (length (ranges r))); [|intros h Hh|done].
  - simpl. fold (sort_search (length (ranges r)) g).
    destruct (ranges r !! _) as [rd|] eqn:Hrd; [|done]. rewrite Forall_forall in Hk.
    rewrite compareValues_spec by (apply Hk; by eapply list_elem_of_lookup_2). done.
  - unfold g. destruct (lookup_lt_is_Some_2 _ _ Hh) as [rd Hrd]. rewrite Hrd.
    apply list_elem_of_lookup_2 in Hrd. rewrite Forall_forall in Hk.
    rewrite compareValues_spec; [done|]. etrans; [by apply Hk|]. by apply (ranges_ok_forall _ _ Hok).
Qed.

(** The range the binary search finds. *)
Lemma rangeShard_spec :
  (∀ rd, rd ∈ ranges r → in_range k rd →
    rangeShard r k n = if (n <=? RShard rd)%Z then Fail errShardOutOfRange else Ret (RShard rd)) ∧
  ((∀ rd, rd ∈ ranges r → ¬ in_range k rd) → rangeShard r k n = Fail ErrNoMatchingRange).
Proof using All.
  destruct (sort_search_spec g (length (ranges r))) as (_ & Hlo & Hhi).
  { intros a b Hab Hb. unfold g. destruct (ranges r !! a) as [ra|] eqn:Ha; [|done].
    destruct (lookup_lt_is_Some_2 _ _ Hb) as [rb Hrb]. rewrite Hrb. rewrite !sign_neg. intros Hlt.
    destruct (decide (a = b)) as [->|]; [congruence|].
    eapply klt_le_trans; [done|]. eapply kle_trans; [eapply (ranges_ok_mono _ a b); eauto; lia|].
    apply klt_le. apply list_elem_of_lookup_2 in Hrb. by apply (ranges_ok_forall _ _ Hok). }
  rewrite rangeShard_index. set (idx := sort_search _ g) in *. split.
  - intros rd [j Hj]%list_elem_of_lookup_1 [Hge Hlt].
    assert (ranges r !! idx = Some rd) as ->.
    { destruct (lt_eq_lt_dec idx j) as [[Hij|<-]|Hij]; [|done|]; exfalso.
      - assert (idx < length (ranges r)) as Hl by (apply lookup_lt_Some in Hj; lia).
        destruct (lookup_lt_is_Some_2 _ _ Hl) as [ri Hi].
        specialize (Hhi idx ltac:(lia) Hl). unfold g in Hhi. rewrite Hi, sign_neg in Hhi.
        apply (klt_not_le k (End ri)); [done|]. eapply kle_trans; [|done].
        by eapply (ranges_ok_mono _ idx j).
      - specialize (Hlo j Hij). unfold g in Hlo. rewrite Hj in Hlo. by rewrite Hlt in Hlo. }
    destruct (ranges_ok_forall _ rd Hok) as (_ & _ & Hpos); [by eapply list_elem_of_lookup_2|].
    destruct (sign (kcmp k (Start rd)) <? 0)%Z eqn:E.
    { apply sign_neg in E. by destruct (proj1 (kle_not_lt _ _) Hge). }
    destruct (Z.ltb_spec (RShard rd) 0); [lia|done].
  - intros Hnone. destruct (ranges r !! idx) as [rd|] eqn:Hrd; [|done].
    destruct (sign (kcmp k (Start rd)) <? 0)%Z eqn:E; [done|].
    destruct (Hnone rd); [by eapply list_elem_of_lookup_2|]. split.
    + apply kle_not_lt. intros Hlt%sign_neg. congruence.
    + pose proof (lookup_lt_Some _ _ _ Hrd) as Hl. specialize (Hhi idx ltac:(lia) Hl).
      unfold g in Hhi. by rewrite Hrd, sign_neg in Hhi.
Qed.
End range_lookup.

(** ** Range: range queries *)

Lemma overlapLoop_spec start end_ n l X :
  Forall (λ rd, comparable start (End rd) ∧ comparable end_ (Start rd)) l →
  ∃ Y, overlapLoop start end_ n l X = Ret Y ∧ X ⊆ Y ∧
    ∀ rd, rd ∈ l → klt start (End rd) → klt (Start rd) end_ → (0 ≤ RShard rd < n)%Z → RShard rd ∈ Y.
Proof.
  intros Hl. revert X. induction Hl as [|rd l [Hs He] _ IH]; intros X; simpl.
  { exists X. split; [done|]. split; [done|]. by intros ? ?%not_elem_of_nil. }
  rewrite (compareValues_spec _ _ Hs), (compareValues_spec _ _ He). simpl.
  set (hit := (sign (kcmp start (End rd)) <? 0)%Z && (0 <? sign (kcmp end_ (Start rd)))%Z).
  assert ((if (sign (kcmp start (End rd)) <? 0)%Z then Ret (0 <? sign (kcmp end_ (Start rd)))%Z
           else Ret false) = Ret hit) as -> by (unfold hit; by case_match).
  simpl. edestruct IH as (Y & -> & Hsub & Hin). exists Y. split; [done|]. split; [case_match; set_solver|].
  intros rd' [->|Hrd']%elem_of_cons Hlt1 Hlt2 Hb; [|auto]. apply Hsub. unfold hit.
  rewrite (proj2 (sign_neg _) Hlt1), (proj2 (sign_pos _)) by (rewrite kcmp_antisym; by rewrite Hlt2).
  simpl. rewrite (proj2 (Z.leb_le _ _)), (proj2 (Z.ltb_lt _ _)) by lia. set_solver.
Qed.

Definition range_serves (r : RangeStrategy) (k : key) : Prop :=
  ranges_ok (ranges r) ∧ ranges r ≠ [] ∧ Forall (λ rd, comparable k (Start rd)) (ranges r).

(** Half-open: the documented upper bound itself is not covered. *)
Definition range_covers (r : RangeStrategy) (a b k : key) : Prop :=
  comparable a k ∧ comparable b k ∧ ((kle a k ∧ klt k b) ∨ (kle b k ∧ klt k a)).

Lemma rangeShard_inv r k n i : range_serves r k → rangeShard r k n = Ret i →
  (0 ≤ i < n)%Z ∧ ∃ rd, rd ∈ ranges r ∧ in_range k rd ∧ RShard rd = i.
Proof.
  intros (Hok & Hne & Hk) H. pose proof H as (Hn & _)%validate_Ret.
  destruct (rangeShard_spec r k n Hok Hk Hn Hne) as [Hin Hout].
  destruct (decide (Exists (λ rd, kcmp k (Start rd) ≠ Lt ∧ kcmp k (End rd) = Lt) (ranges r))) as [Hex|Hex].
  - apply Exists_exists in Hex as (rd & Hrd & Hge & Hlt).
    assert (in_range k rd) as Hir by (split; [by apply kle_not_lt|done]).
    rewrite (Hin rd Hrd Hir) in H. destruct (Z.leb_spec n (RShard rd)); simplify_eq.
    destruct (ranges_ok_forall _ _ Hok Hrd) as (_ & _ & ?). split; [lia|eauto].
  - rewrite Hout in H; [done|]. intros rd Hrd [Hge Hlt]. apply Hex, Exists_exists.
    exists rd. split; [done|]. split; [by apply kle_not_lt|done].
Qed.

#[export] Instance Range_laws : StrategyLaws RangeStrategy range_serves range_covers.
Proof.
  split.
  - intros r k n i Hs H. by apply (rangeShard_inv r k).
  - intros r a b k n i Hs (Ha & Hb & Hbet) H. pose proof H as (Hn & _)%validate_Ret.
    destruct (rangeShard_inv _ _ _ _ Hs H) as (Hi & rd & Hrd & [Hge Hlt] & Hrs).
    destruct Hs as (Hok & Hne & Hk). cbn. unfold rangeShardRange. rewrite validateNum_pos by done.
    assert (comparable a b) as Hab by (etrans; [done|]; by symmetry).
    rewrite compareValues_spec by done. cbn [mbind outcome_bind].
    destruct (if (0 <? sign (kcmp a b))%Z then (b, a) else (a, b)) as [s e] eqn:Hse.
    assert (comparable s k ∧ comparable e k ∧ kle s k ∧ klt k e) as (Hsk & Hek & Hle & Hke).
    { destruct Hbet as [[H1 H2]|[H1 H2]].
      - assert (klt a b) as Hlt' by (by eapply kle_lt_trans). rewrite Hlt' in Hse. by simplify_eq/=.
      - assert (klt b a) as Hlt' by (by eapply kle_lt_trans).
        rewrite (kcmp_antisym b a), Hlt' in Hse. by simplify_eq/=. }
    destruct (overlapLoop_spec s e n (ranges r) ∅) as (Y & -> & _ & HY).
    { rewrite Forall_forall in *. intros rd' Hrd'. specialize (Hk _ Hrd').
      destruct (ranges_ok_forall _ _ Hok Hrd') as (Hc & _). split; [|by etrans].
      etrans; [done|]. by etrans. }
    assert (i ∈ Y) as HiY.
    { rewrite <- Hrs. apply HY; [done|by eapply kle_lt_trans|by eapply kle_lt_trans|lia]. }
    cbn [mbind outcome_bind]. destruct (Nat.eqb_spec (size Y) 0) as [Hz|].
    { apply size_empty_iff in Hz. set_solver. }
    eexists. split; [done|]. by apply setToSlice_spec.
  - intros r a b n l (Hn & (c & _ & H)%bind_Ret)%validateNum_Ret.
    destruct (if (0 <? c)%Z then _ else _) as [s e]. apply bind_Ret in H as (Y & _ & H).
    case_match; [done|]. simplify_eq. apply slice_laws, sublist_filter.
Qed.

(** ** Claims *)

Definition num64 (z : Z) : key := KNum IInt64 z.
Definition demoRanges : list RangeDefinition :=
  [MkRange (num64 10000) (num64 20000) 1; MkRange (num64 0) (num64 10000) 0;
   MkRange (num64 20000) (num64 30000) 2].

(** A range strategy that [NewRangeStrategy] accepts looks keys up exactly,
    whatever the order the definitions were given in: for a key of the ranges'
    type, the binary search returns the shard of the definition with
    [Start <= key < End], there is at most one, a shard index that is not below
    [numShards] is an error, and so is a key in no range. *)
Theorem range_lookup_exact l r k n
    (Hnew : NewRangeStrategy l = Ret r) (Hn : (0 < n)%Z)
    (Hk : Forall (λ rd, comparable k (Start rd)) l) :
  (∀ rd, rd ∈ l → in_range k rd →
     Shard r k n = (if (n <=? RShard rd)%Z then Fail errShardOutOfRange else Ret (RShard rd)) ∧
     ∀ rd', rd' ∈ l → in_range k rd' → rd' = rd) ∧
  ((∀ rd, rd ∈ l → ¬ in_range k rd) → Shard r k n = Fail ErrNoMatchingRange).
Proof.
  destruct (NewRange_ok _ _ Hnew) as [Hok Hperm].
  assert (l ≠ []) as Hne by (by intros ->). assert (ranges r ≠ []) as Hner.
  { intros E. rewrite E in Hperm. symmetry in Hperm. by apply Permutation_nil_r in Hperm. }
  rewrite <- Hperm in Hk. destruct (rangeShard_spec r k n Hok Hk Hn Hner) as [Hin Hout]. split.
  - intros rd Hrd Hir. rewrite <- Hperm in Hrd. split; [by apply Hin|].
    intros rd' Hrd' Hir'. rewrite <- Hperm in Hrd'. by eapply in_range_unique.
  - intros Hnone. apply Hout. intros rd Hrd. apply Hnone. by rewrite <- Hperm.
Qed.
Lemma range_lookup_exact_witness : ∃ r, NewRangeStrategy demoRanges = Ret r ∧
  Shard r (num64 15000) 3 = Ret 1%Z.
Proof.
  eexists. split; [vm_compute; reflexivity|].
  destruct (range_lookup_exact demoRanges _ (num64 15000) 3 eq_refl ltac:(lia)) as [H _].
  { repeat constructor. }
  apply (H (MkRange (num64 10000) (num64 20000) 1)); [left|]. by split.
Defined.

(** [ShardRange] is documented as inclusive at both ends, and a range
    strategy is not: with shards [0,10000), [10000,20000), [20000,30000), the key
    10000 is on shard 1, and the query range [5000, 10000] is answered with
    shard 0 alone; a query for the single key 10000 matches no shard at all. *)
Theorem range_upper_bound_missed :
  ∃ r, NewRangeStrategy demoRanges = Ret r ∧ Shard r (num64 10000) 3 = Ret 1%Z ∧
    ShardRange r (num64 5000) (num64 10000) 3 = Ret [0%Z] ∧
    ShardRange r (num64 10000) (num64 10000) 3 = Fail ErrNoMatchingRange.
Proof. eexists. split; [vm_compute; reflexivity|]. vm_compute. done. Qed.

(** [MinInt64] has no absolute value: the index is negative, for integer keys
    and for hashes with only the top bit set. *)
Theorem min_int_index_negative :
  Shard (NewModStrategy) (num64 int64_min) 3 = Ret (-2)%Z ∧
  Shard (NewHashStrategyWithFunc (λ _, 2 ^ 63)%Z) (KStr (str "k")) 3 = Ret (-2)%Z.
Proof. split; vm_compute; reflexivity. Qed.

(** A modulo range that ends at [MaxInt64] never ends: the loop counter wraps,
    whatever the number of iterations. *)
Theorem mod_range_never_ends s n fuel X :
  is_int64 s → collectIDs fuel s int64_max n X = None.
Proof.
  revert s X. induction fuel as [|fuel IH]; intros s X Hs; cbn [collectIDs];
    rewrite (proj2 (Z.leb_le _ _)) by apply Hs; [done|]. apply IH, wrap64_range.
Qed.
Example mod_range_at_max :
  ShardRange NewModStrategy (num64 int64_max) (num64 int64_max) 4 = Diverges.
Proof. vm_compute. reflexivity. Qed.

(** Keys and bounds of different integer types panic instead of failing; the
    type check of [validateRanges] comes after the comparison that panics. *)
Theorem mixed_types_panic :
  Shard (MkRangeStrategy demoRanges) (KNum IInt 5) 3 = Panics ∧
  NewRangeStrategy [MkRange (KNum IInt 0) (num64 5) 0] = Panics.
Proof. done. Qed.
