(* ===== verification/ShardResolver.v ===== *)
(** * Resolving queries to shards

    [x/data/sharding/rule.go] (rules and their registry), [resolver.go] and
    [resolver_rules.go] (from a parsed statement and its arguments to the shards
    it must run on), with [splitConditions] of [parser.go]. The statement parser
    itself (regular expressions) is not modelled: the operations take its
    result, a [ParsedSQL]. Statements are taken to be ASCII, where upper-casing
    and case folding act on single letters. *)

From stdpp Require Import options.
From S2P Require Import Prelude GoStrings GoNumbers GoBytes ShardStrategy.
Import Sharding.

(** ** Strings *)

(** [strings.ToUpper] and [strings.EqualFold] on ASCII. *)
Definition upper_byte (b : gobyte) : gobyte :=
  if byte_leb "a" b && byte_leb b "z" then byte_of (byte_val b - 32) else b.
Definition ToUpper (s : gostring) : gostring := upper_byte <$> s.
Definition EqualFold (s t : gostring) : bool := bool_decide (ToUpper s = ToUpper t).

(** [strings.Count] of a one-byte substring. *)
Definition count_byte (c : gobyte) (s : gostring) : nat := length (filter (c =.) s).

(** [strings.HasPrefix] and [strings.Index]. *)
Fixpoint has_prefix (s p : gostring) : bool :=
  match p, s with
  | [], _ => true
  | c :: p, b :: s => bool_decide (b = c) && has_prefix s p
  | _ :: _, [] => false
  end.
Fixpoint index_of (p s : gostring) : option nat :=
  if has_prefix s p then Some 0
  else match s with [] => None | _ :: s => S <$> index_of p s end.

(** [strings.LastIndex] of a one-byte substring. *)
Definition last_index_byte (c : gobyte) (s : gostring) : option nat :=
  (λ i, length s - 1 - i) <$> index_byte c (reverse s).

Definition is_space (b : gobyte) : bool :=
  bool_decide (byte_val b = 32%N) || ((9 <=? byte_val b)%N && (byte_val b <=? 13)%N).

(** [strings.Fields]: the maximal runs of non-space bytes; [cur] is the run
    being read, reversed. *)
Fixpoint fields_loop (cur s : gostring) : list gostring :=
  match s with
  | [] => match cur with [] => [] | _ => [reverse cur] end
  | b :: s => if is_space b then match cur with [] => fields_loop [] s | _ => reverse cur :: fields_loop [] s end
              else fields_loop (b :: cur) s
  end.
Definition Fields (s : gostring) : list gostring := fields_loop [] s.

(** ** Statements *)

Inductive SQLType := SQLTypeUnknown | SQLTypeSelect | SQLTypeInsert | SQLTypeUpdate | SQLTypeDelete.
#[export] Instance SQLType_eq_dec : EqDecision SQLType.
Proof. solve_decision. Defined.

Record ParsedSQL := MkParsed {
  Type_ : SQLType;
  TableName : gostring;
  WhereClause : gostring;
  Columns : list gostring
}.

(** The words of the clause, joined again between the top-level [AND]/[OR]s. *)
Fixpoint splitLoop (words : list gostring) (inParens : Z) (current : gostring) : list gostring :=
  match words with
  | [] => match current with [] => [] | _ => [current] end
  | word :: words =>
      let inParens := (inParens + (Z.of_nat (count_byte "(" word) - Z.of_nat (count_byte ")" word)))%Z in
      if (inParens =? 0)%Z && (bool_decide (ToUpper word = str "AND") || bool_decide (ToUpper word = str "OR"))
      then match current with
           | [] => splitLoop words inParens []
           | _ => current :: splitLoop words inParens []
           end
      else splitLoop words inParens
             (match current with [] => word | _ => current ++ " "%char :: word end)
  end.
Definition splitConditions (whereClause : gostring) : list gostring :=
  splitLoop (Fields whereClause) 0 [].

Fixpoint take_digits (s : gostring) : gostring :=
  match s with b :: s => if is_digit b then b :: take_digits s else [] | [] => [] end.

(** The scan for [$n] placeholders: the count and the first explicit index. *)
Fixpoint dollarLoop (fuel : nat) (s : gostring) (count : nat) (first : Z) : nat * Z :=
  match fuel, s with
  | S fuel, b :: s =>
      if bool_decide (b = "$"%char) then
        match take_digits s with
        | [] => dollarLoop fuel s count first
        | ds =>
            let n := foldl (λ n d, wrap64 (n * 10 + (Z.of_N (byte_val d) - 48)))%Z 0%Z ds in
            let first := if (first =? -1)%Z && (0 <? n)%Z then (n - 1)%Z else first in
            dollarLoop fuel (drop (length ds) s) (S count) first
        end
      else dollarLoop fuel s count first
  | _, _ => (count, first)
  end.
Definition placeholderInfo (s : gostring) : nat * Z :=
  dollarLoop (length s) s (count_byte "?" s) (-1).

Definition normalizeColumn (column : gostring) : gostring :=
  let column := trim_space column in
  match last_index_byte "." column with
  | Some i => if 0 <? i then drop (S i) column else column
  | None => column
  end.

Record condition := MkCond {
  cColumn : gostring;
  cOp : gostring;
  cPlaceholders : nat;
  cExplicit : Z;
  cOk : bool
}.

Definition operators : list gostring :=
  [str ">="; str "<="; str "!="; str "<>"; str "="; str ">"; str "<"].

(** The first operator of the list that occurs after the first byte. *)
Fixpoint findOperator (ops : list gostring) (part : gostring) : option (gostring * nat) :=
  match ops with
  | [] => None
  | op :: ops => match index_of op part with
                 | Some (S i) => Some (op, S i)
                 | _ => findOperator ops part
                 end
  end.

Definition parseCondition (part : gostring) : condition :=
  let part := trim_space (filter (λ b, b ≠ "`"%char) part) in
  match part with
  | [] => MkCond [] [] 0 (-1) false
  | _ =>
      let '(count, explicit) := placeholderInfo part in
      match index_of (str " IN ") (ToUpper part) with
      | Some (S i) => MkCond (normalizeColumn (trim_space (take (S i) part))) (str "IN") count explicit true
      | _ => match findOperator operators part with
             | Some (op, i) => MkCond (normalizeColumn (trim_space (take i part))) op count explicit true
             | None => MkCond [] [] count explicit false
             end
      end
  end.

(** Placeholders between [SET] and [WHERE]. *)
Definition countSetPlaceholders (query : gostring) : nat :=
  let queryUpper := ToUpper query in
  match index_of (str " SET ") queryUpper with
  | None => 0
  | Some setIdx =>
      let setClause := match index_of (str " WHERE ") queryUpper with
                       | Some whereIdx => if setIdx <? whereIdx
                                          then take (whereIdx - (setIdx + 5)) (drop (setIdx + 5) query)
                                          else drop (setIdx + 5) query
                       | None => drop (setIdx + 5) query
                       end in
      (placeholderInfo setClause).1
  end.

(** ** Rules *)

Section resolver.
Context {S : Type} `{!Strategy S}.

Record ShardingRule := MkRule {
  RTableName : gostring;
  ShardKeyColumn : gostring;
  RStrategy : option S;
  ShardCount : Z;
  ActualTableNames : gmap Z gostring;
  DefaultShard : Z
}.

Definition NewShardingRule (tableName shardKeyColumn : gostring) (strategy : option S)
    (shardCount : Z) : outcome ShardingRule :=
  if bool_decide (tableName = []) then Fail ErrInvalidShardingRule
  else if bool_decide (shardKeyColumn = []) then Fail ErrInvalidShardingRule
  else match strategy with
  | None => Fail ErrInvalidShardingRule
  | Some _ => if (shardCount <=? 0)%Z then Fail ErrInvalidShardCount
              else Ret (MkRule tableName shardKeyColumn strategy shardCount ∅ (-1))
  end.

Definition GetActualTableName (r : ShardingRule) (shardIndex : Z) : gostring :=
  default (RTableName r) (ActualTableNames r !! shardIndex).

Definition SetActualTableName (r : ShardingRule) (shardIndex : Z) (tableName : gostring) : ShardingRule :=
  MkRule (RTableName r) (ShardKeyColumn r) (RStrategy r) (ShardCount r)
    (<[shardIndex := tableName]> (ActualTableNames r)) (DefaultShard r).

Definition badDefault (r : ShardingRule) (shardIndex : Z) : bool :=
  (shardIndex <? -1)%Z || (ShardCount r <=? shardIndex)%Z.

Definition SetDefaultShard (r : ShardingRule) (shardIndex : Z) : outcome ShardingRule :=
  if badDefault r shardIndex then Fail errInvalidDefaultShard
  else Ret (MkRule (RTableName r) (ShardKeyColumn r) (RStrategy r) (ShardCount r)
              (ActualTableNames r) shardIndex).

Definition HasDefaultShard (r : ShardingRule) : bool := (0 <=? DefaultShard r)%Z.

Definition Validate (r : ShardingRule) : outcome unit :=
  if bool_decide (RTableName r = []) then Fail ErrInvalidShardingRule
  else if bool_decide (ShardKeyColumn r = []) then Fail ErrInvalidShardingRule
  else match RStrategy r with
  | None => Fail ErrInvalidShardingRule
  | Some _ => if (ShardCount r <=? 0)%Z then Fail ErrInvalidShardCount
              else if badDefault r (DefaultShard r) then Fail errInvalidDefaultShard
              else Ret ()
  end.

(** The registry stores and hands out copies, so a plain map of values has its
    sharing behaviour. *)
Record ShardingRuleRegistry := MkRegistry { rules : gmap gostring ShardingRule }.

Definition NewShardingRuleRegistry : ShardingRuleRegistry := MkRegistry ∅.

Definition Register (reg : ShardingRuleRegistry) (rule : ShardingRule) : outcome ShardingRuleRegistry :=
  Validate rule ≫= λ _, Ret (MkRegistry (<[RTableName rule := rule]> (rules reg))).

Definition RegisterWithStrategy (reg : ShardingRuleRegistry) (tableName shardKeyColumn : gostring)
    (strategy : option S) (shardCount : Z) : outcome ShardingRuleRegistry :=
  rule ← NewShardingRule tableName shardKeyColumn strategy shardCount; Register reg rule.

Definition RuleGet (reg : ShardingRuleRegistry) (tableName : gostring) : outcome ShardingRule :=
  match rules reg !! tableName with Some r => Ret r | None => Fail ErrNoShardingRule end.

Definition RuleHas (reg : ShardingRuleRegistry) (tableName : gostring) : bool :=
  bool_decide (is_Some (rules reg !! tableName)).
Definition RuleRemove (reg : ShardingRuleRegistry) (tableName : gostring) : ShardingRuleRegistry :=
  MkRegistry (delete tableName (rules reg)).
Definition RuleCount (reg : ShardingRuleRegistry) : nat := size (rules reg).
Definition RuleClear (reg : ShardingRuleRegistry) : ShardingRuleRegistry := MkRegistry ∅.

(** ** Conditions on the shard key *)

Record shardCondition := MkShardCond {
  op : gostring;
  placeholderCount : nat;
  argStart : Z;
  explicitIndex : bool
}.

(** The first condition on the column: its operator and argument index.
    A part that is not understood is skipped, its placeholders too. *)
Fixpoint findLoop (parts : list gostring) (shardKeyColumn : gostring) (argIndex : Z) :
    option (gostring * Z * bool) :=
  match parts with
  | [] => None
  | part :: parts =>
      let c := parseCondition part in
      if negb (cOk c) then findLoop parts shardKeyColumn argIndex
      else if EqualFold (cColumn c) shardKeyColumn then
        Some (if (0 <=? cExplicit c)%Z then (cOp c, cExplicit c, true) else (cOp c, argIndex, false))
      else findLoop parts shardKeyColumn (argIndex + Z.of_nat (cPlaceholders c))
  end.
Definition findShardKeyArgIndex (whereClause shardKeyColumn : gostring) : option (gostring * Z * bool) :=
  findLoop (splitConditions whereClause) shardKeyColumn 0.

Fixpoint collectLoop (parts : list gostring) (shardKeyColumn : gostring) (argIndex : Z) :
    list shardCondition :=
  match parts with
  | [] => []
  | part :: parts =>
      let c := parseCondition part in
      if negb (cOk c) then collectLoop parts shardKeyColumn argIndex
      else
        let start := if (0 <=? cExplicit c)%Z then cExplicit c else argIndex in
        let rest := collectLoop parts shardKeyColumn (argIndex + Z.of_nat (cPlaceholders c)) in
        if EqualFold (cColumn c) shardKeyColumn
        then MkShardCond (cOp c) (cPlaceholders c) start (0 <=? cExplicit c)%Z :: rest
        else rest
  end.
Definition collectShardConditions (whereClause shardKeyColumn : gostring) : list shardCondition :=
  collectLoop (splitConditions whereClause) shardKeyColumn 0.

(** [args[i]] for an index known not to be negative. *)
Definition argAt (args : list key) (idx : Z) : outcome key :=
  match args !! Z.to_nat idx with
  | Some v => Ret v
  | None => Fail ErrInvalidArgumentCount
  end.

Definition condIndex (cond : shardCondition) (argOffset : nat) : Z :=
  if explicitIndex cond then argStart cond else (argStart cond + Z.of_nat argOffset)%Z.

Definition resolveSingleArg (cond : shardCondition) (argOffset : nat) (args : list key) : outcome key :=
  argAt args (condIndex cond argOffset).

Definition resolveInArgs (cond : shardCondition) (argOffset : nat) (args : list key) : outcome (list key) :=
  if placeholderCount cond =? 0 then Fail ErrInvalidArgumentCount
  else
    let start := Z.to_nat (condIndex cond argOffset) in
    if length args <? start + placeholderCount cond then Fail ErrInvalidArgumentCount
    else Ret (take (placeholderCount cond) (drop start args)).

Record shardValueCollector := MkCollector {
  inValues : list key;
  eqValue : option key;
  rangeStart : option key;
  rangeEnd : option key
}.

Definition collectValue (cond : shardCondition) (argOffset : nat) (args : list key)
    (c : shardValueCollector) : outcome shardValueCollector :=
  let o := ToUpper (op cond) in
  if bool_decide (o = str "=") then
    v ← resolveSingleArg cond argOffset args;
    Ret (MkCollector (inValues c) (Some v) (rangeStart c) (rangeEnd c))
  else if bool_decide (o = str "IN") then
    vs ← resolveInArgs cond argOffset args;
    Ret (MkCollector (inValues c ++ vs) (eqValue c) (rangeStart c) (rangeEnd c))
  else if bool_decide (o = str ">") || bool_decide (o = str ">=") then
    v ← resolveSingleArg cond argOffset args;
    Ret (MkCollector (inValues c) (eqValue c) (Some v) (rangeEnd c))
  else if bool_decide (o = str "<") || bool_decide (o = str "<=") then
    v ← resolveSingleArg cond argOffset args;
    Ret (MkCollector (inValues c) (eqValue c) (rangeStart c) (Some v))
  else Ret c.

Fixpoint extractLoop (conditions : list shardCondition) (args : list key) (argOffset : nat)
    (c : shardValueCollector) : outcome shardValueCollector :=
  match conditions with
  | [] => Ret c
  | cond :: conditions => c' ← collectValue cond argOffset args c; extractLoop conditions args argOffset c'
  end.
Definition extractShardValues (conditions : list shardCondition) (args : list key) (argOffset : nat) :
    outcome shardValueCollector :=
  extractLoop conditions args argOffset (MkCollector [] None None None).

(** ** Shards *)

(** What [ShardKey any] holds: nothing, a key, or the bounds of a range. *)
Inductive resolvedKey := NoKey | OneKey (k : key) | Bounds (start end_ : option key).

Record ResolvedShard := MkResolved {
  RsTable : gostring;
  ShardIndex : Z;
  ShardKey : resolvedKey;
  Rule : ShardingRule
}.

(** [rule.Strategy.Shard(...)]; a nil strategy panics. *)
Definition strategyShard (rule : ShardingRule) (k : key) : outcome Z :=
  match RStrategy rule with Some s => Shard s k (ShardCount rule) | None => Panics end.
Definition strategyShardRange (rule : ShardingRule) (a b : key) : outcome (list Z) :=
  match RStrategy rule with Some s => ShardRange s a b (ShardCount rule) | None => Panics end.

Definition defaultShardOrError (table : gostring) (rule : ShardingRule) : outcome (list ResolvedShard) :=
  if HasDefaultShard rule then Ret [MkResolved table (DefaultShard rule) NoKey rule]
  else Fail ErrShardKeyNotFound.

Definition buildResolvedShards (table : gostring) (rule : ShardingRule) (shards : gmap Z resolvedKey) :
    list ResolvedShard :=
  (λ idx, MkResolved table idx (default NoKey (shards !! idx)) rule)
    <$> merge_sort Z.le (map_to_list shards).*1.

Definition resolveEqualShard (v : key) (table : gostring) (rule : ShardingRule) :
    outcome (list ResolvedShard) :=
  i ← strategyShard rule v; Ret [MkResolved table i (OneKey v) rule].

(** The first value of each shard is kept. *)
Fixpoint inLoop (rule : ShardingRule) (values : list key) (unique : gmap Z resolvedKey) :
    outcome (gmap Z resolvedKey) :=
  match values with
  | [] => Ret unique
  | v :: values =>
      i ← strategyShard rule v;
      inLoop rule values (match unique !! i with Some _ => unique | None => <[i := OneKey v]> unique end)
  end.

Definition resolveInShards (values : list key) (table : gostring) (rule : ShardingRule) :
    outcome (list ResolvedShard) :=
  unique ← inLoop rule values ∅; Ret (buildResolvedShards table rule unique).

Definition boundsMap (c : shardValueCollector) (shards : list Z) : gmap Z resolvedKey :=
  foldl (λ m i, <[i := Bounds (rangeStart c) (rangeEnd c)]> m) ∅ shards.

Definition resolveRangeShards (c : shardValueCollector) (start end_ : key) (table : gostring)
    (rule : ShardingRule) : outcome (list ResolvedShard) :=
  shards ← strategyShardRange rule start end_;
  Ret (buildResolvedShards table rule (boundsMap c shards)).

Definition resolveAllShards (c : shardValueCollector) (table : gostring) (rule : ShardingRule) :
    outcome (list ResolvedShard) :=
  Ret (buildResolvedShards table rule (boundsMap c (seqZ 0 (ShardCount rule)))).

Definition buildShards (c : shardValueCollector) (table : gostring) (rule : ShardingRule) :
    outcome (list ResolvedShard) :=
  match eqValue c with
  | Some v => resolveEqualShard v table rule
  | None =>
      match inValues c with
      | _ :: _ => resolveInShards (inValues c) table rule
      | [] => match rangeStart c, rangeEnd c with
              | Some a, Some b => resolveRangeShards c a b table rule
              | _, _ => resolveAllShards c table rule
              end
      end
  end.

(** ** The resolver *)

Definition argOffsetOf (query : gostring) (parsed : ParsedSQL) : nat :=
  if bool_decide (Type_ parsed = SQLTypeUpdate) then countSetPlaceholders query else 0.

Definition resolveMultipleFromWhere (query : gostring) (parsed : ParsedSQL) (rule : ShardingRule)
    (args : list key) : outcome (list ResolvedShard) :=
  match WhereClause parsed with
  | [] => defaultShardOrError (TableName parsed) rule
  | _ =>
      match collectShardConditions (WhereClause parsed) (ShardKeyColumn rule) with
      | [] => defaultShardOrError (TableName parsed) rule
      | conditions =>
          c ← extractShardValues conditions args (argOffsetOf query parsed);
          buildShards c (TableName parsed) rule
      end
  end.

Definition extractFromInsert (parsed : ParsedSQL) (rule : ShardingRule) (args : list key) : outcome key :=
  if negb (length args =? length (Columns parsed)) then Fail ErrInvalidArgumentCount
  else match list_find (λ col, col = ShardKeyColumn rule) (Columns parsed) with
       | None => Fail ErrShardKeyNotFound
       | Some (i, _) => match args !! i with
                        | Some v => Ret v
                        | None => Fail ErrShardKeyIndexOutOfBounds
                        end
       end.

Definition extractFromWhere (query : gostring) (parsed : ParsedSQL) (rule : ShardingRule)
    (args : list key) : outcome key :=
  if bool_decide (trim_space (WhereClause parsed) = []) then Fail ErrShardKeyNotFound
  else match findShardKeyArgIndex (WhereClause parsed) (ShardKeyColumn rule) with
       | None => Fail ErrShardKeyNotFound
       | Some (o, argIndex, explicit) =>
           if negb (bool_decide (o = str "=")) then Fail ErrShardKeyNotFound
           else argAt args (if explicit then argIndex
                            else argIndex + Z.of_nat (argOffsetOf query parsed))%Z
       end.

(** [Resolve] after parsing. *)
Definition Resolve (reg : ShardingRuleRegistry) (query : gostring) (parsed : ParsedSQL)
    (args : list key) : outcome ResolvedShard :=
  rule ← RuleGet reg (TableName parsed);
  let found := match Type_ parsed with
               | SQLTypeInsert => extractFromInsert parsed rule args
               | SQLTypeSelect | SQLTypeUpdate | SQLTypeDelete => extractFromWhere query parsed rule args
               | SQLTypeUnknown => Fail ErrUnsupportedSQL
               end in
  match found with
  | Fail ErrShardKeyNotFound =>
      if HasDefaultShard rule then Ret (MkResolved (TableName parsed) (DefaultShard rule) NoKey rule)
      else Fail ErrShardKeyNotFound
  | _ => v ← found; i ← strategyShard rule v; Ret (MkResolved (TableName parsed) i (OneKey v) rule)
  end.

(** [ResolveMultiple] after parsing. *)
Definition ResolveMultiple (reg : ShardingRuleRegistry) (query : gostring) (parsed : ParsedSQL)
    (args : list key) : outcome (list ResolvedShard) :=
  rule ← RuleGet reg (TableName parsed);
  match Type_ parsed with
  | SQLTypeInsert => r ← Resolve reg query parsed args; Ret [r]
  | SQLTypeSelect | SQLTypeUpdate | SQLTypeDelete => resolveMultipleFromWhere query parsed rule args
  | SQLTypeUnknown => Fail ErrUnsupportedSQL
  end.

End resolver.

#[global] Arguments ShardingRule : clear implicits.
#[global] Arguments ShardingRuleRegistry : clear implicits.
#[global] Arguments ResolvedShard : clear implicits.
