(* ===== verification/ShardResolverFacts.v ===== *)
(** * Resolving queries to shards: completeness

    Every shard that can hold a row the statement selects is among the shards
    the resolver returns, for any strategy that satisfies the laws of
    [ShardStrategy.v], and the conditions under which the argument positions are
    miscounted. *)

From stdpp Require Import options.
From S2P Require Import Prelude GoStrings GoNumbers GoBytes ShardStrategy ShardStrategyFacts ShardResolver.
Import Sharding.

(** ** Clauses

    What the statement says, independent of how the code reads it: a conjunction of
    comparisons of a column with one placeholder and of memberships in a list of them. *)


(** A column, possibly qualified by its table. *)
Record column := MkCol { colTable : option gostring; colName : gostring }.

Inductive relop := OpEq | OpNe | OpDiffers | OpLt | OpLe | OpGt | OpGe.

(** [c o ?] and [c IN (?, ..., ?)], the latter with [more] placeholders after the first. *)
Inductive atom := Compare (c : column) (o : relop) | Among (c : column) (more : nat).
Definition atomCol (a : atom) : column := match a with Compare c _ | Among c _ => c end.


Definition onColumn (col : gostring) (a : atom) : Prop := ToUpper (colName (atomCol a)) = ToUpper col.
#[export] Instance onColumn_dec col a : Decision (onColumn col a).
Proof. unfold onColumn. apply _. Defined.




(** ** The code reads these clauses as they are meant *)



(** *** Searching *)


(** *** Trimming *)


(** *** Splitting into parts *)







(** *** Reading a part *)




(** *** The assignments of an UPDATE *)



(** ** What the code reads of a clause *)







(** ** Collection *)






(** ** Extraction *)








(** ** Building the shard list *)

Section complete.
Context {St : Type} `{!Strategy St} (serves : St → key → Prop) (covers : St → key → key → key → Prop).
Context `{!StrategyLaws St serves covers}.
Implicit Types (rule : ShardingRule St) (reg : ShardingRuleRegistry St).









End complete.

(** ** A concrete registry *)

Definition demoRule : ShardingRule HashStrategy :=
  MkRule (str "users") (str "user_id") (Some NewHashStrategy) 4 ∅ (-1).
Definition demoReg : ShardingRuleRegistry HashStrategy := MkRegistry {[ str "users" := demoRule ]}.
Definition demoParsed (w : String.string) : ParsedSQL := MkParsed SQLTypeSelect (str "users") (str w) [].
Definition key_of (s : String.string) : key := KStr (str s).




(** A condition the resolver does not understand makes it miscount the
    arguments of the ones that follow. [name LIKE ? AND user_id = ?] with the
    arguments ["a%", "u2"] is routed by the LIKE pattern, to shard 3, while the
    rows of user ["u2"] are on shard 2; a literal key, [user_id = 7 AND name = ?],
    is routed by the argument of the next condition. *)
Theorem skipped_condition_misroutes :
  Shard NewHashStrategy (key_of "u2") 4 = Ret 2%Z ∧
  Resolve demoReg (str "") (demoParsed "name LIKE ? AND user_id = ?") [key_of "a%"; key_of "u2"]
    = Ret (MkResolved (str "users") 3 (OneKey (key_of "a%")) demoRule) ∧
  Resolve demoReg (str "") (demoParsed "user_id = 7 AND name = ?") [key_of "bob"]
    = Ret (MkResolved (str "users") 0 (OneKey (key_of "bob")) demoRule).
Proof.
  assert (∀ w args, Resolve demoReg (str "") (demoParsed w) args =
    v ← extractFromWhere (str "") (demoParsed w) demoRule args;
    i ← Shard NewHashStrategy v 4; Ret (MkResolved (str "users") i (OneKey v) demoRule)) as H.
  { intros w args. unfold Resolve, RuleGet. simpl. rewrite lookup_singleton_eq. simpl.
    by destruct (extractFromWhere _ _ _ _) as [|[]| |]. }
  split; [vm_compute; reflexivity|]. rewrite !H.
  replace (extractFromWhere _ (demoParsed "name LIKE ? AND user_id = ?") _ _) with (Ret (key_of "a%"))
    by (vm_compute; reflexivity).
  replace (extractFromWhere _ (demoParsed "user_id = 7 AND name = ?") _ _) with (Ret (key_of "bob"))
    by (vm_compute; reflexivity).
  cbn [mbind outcome_bind].
  replace (Shard NewHashStrategy (key_of "a%") 4) with (Ret 3%Z) by (vm_compute; reflexivity).
  replace (Shard NewHashStrategy (key_of "bob") 4) with (Ret 0%Z) by (vm_compute; reflexivity).
  done.
Qed.
