(* ===== verification/MemoryCache.v ===== *)
(** * The in-memory cache ([store/cache/memory.go], [config.go])

    A map from keys to values with expiry times, a payload limit and two counters
    that must agree with the map. Expired entries are removed lazily. An operation
    reads the clock as the argument [now] (nanoseconds); an expiry is [None] for
    the zero time. [ctxErr] is the error of the caller's context, if any. *)

From stdpp Require Import options.
From S2P Require Import Prelude GoStrings GoNumbers.

Module MemoryCache.

Inductive cacheErr :=
| ErrNotFound | ErrInvalidConfig | ErrCacheFull | ErrKeyTooLong | ErrInvalidKey | ErrNotInteger
| ErrCacheClosed | ErrContext.
#[export] Instance cacheErr_eq_dec : EqDecision cacheErr.
Proof. solve_decision. Defined.

Record Config := MkConfig {
  MaxKeyLength : Z;
  MaxMemoryUsage : Z;
  CleanupInterval : Z;
  DefaultTTL : Z;
}.
Definition minute : Z := 60 * 1000000000.
Definition DefaultConfig : Config := MkConfig 256 0 (5 * minute) (10 * minute).

Definition ValidateConfig (c : Config) : option cacheErr :=
  if (MaxKeyLength c <? 0)%Z then Some ErrInvalidConfig
  else if (CleanupInterval c <? 0)%Z then Some ErrInvalidConfig
  else if (DefaultTTL c <? 0)%Z then Some ErrInvalidConfig
  else None.

Record cacheItem := MkItem { value : gostring; expiration : option Z }.
#[export] Instance cacheItem_eq_dec : EqDecision cacheItem.
Proof. solve_decision. Defined.

Record MemoryCache := MkCache {
  store : gmap gostring cacheItem;
  config : Config;
  size_ : Z;
  memory : Z;
  closed : bool;
}.
Implicit Types (mc : MemoryCache) (key : gostring) (now ttl : Z).

Definition NewMemoryCacheWithConfig (c : Config) : result cacheErr MemoryCache :=
  match ValidateConfig c with
  | Some e => Err e
  | None => Ok (MkCache ∅ c 0 0 false)
  end.

(** ** Helpers *)

Definition expiredAt (exp : option Z) now : bool :=
  match exp with None => false | Some e => (e <=? now)%Z end.

Definition operationErr (ctxErr : bool) mc : option cacheErr :=
  if ctxErr then Some ErrContext else if closed mc then Some ErrCacheClosed else None.

Definition controlByte (c : gobyte) : bool :=
  (byte_val c <? 32)%N || (byte_val c =? 127)%N.
Definition validateKey mc key : option cacheErr :=
  if decide (key = []) then Some ErrInvalidKey
  else if (0 <? MaxKeyLength (config mc))%Z && (MaxKeyLength (config mc) <? Z.of_nat (length key))%Z
  then Some ErrKeyTooLong
  else if existsb controlByte key then Some ErrInvalidKey
  else None.

(** [size] and [memory] never go below zero. *)
Definition adjustStoredValue (deltaSize deltaMemory : Z) mc : MemoryCache :=
  let s := (size_ mc + deltaSize)%Z in
  let s := if (s <? 0)%Z then 0%Z else s in
  let m :=
    if (deltaMemory <? 0)%Z then
      if (- deltaMemory <=? memory mc)%Z then (memory mc + deltaMemory)%Z else 0%Z
    else wrapu64 (memory mc + deltaMemory) in
  MkCache (store mc) (config mc) s m (closed mc).

Definition withStore mc (st : gmap gostring cacheItem) : MemoryCache :=
  MkCache st (config mc) (size_ mc) (memory mc) (closed mc).

Definition removeItem key (item : cacheItem) mc : MemoryCache :=
  adjustStoredValue (-1) (- Z.of_nat (length (value item))) (withStore mc (delete key (store mc))).

(** Also [removeExpiredItem], which takes the lock first. *)
Definition removeExpiredItemLocked key (item : cacheItem) now mc : MemoryCache :=
  if negb (expiredAt (expiration item) now) then mc
  else match store mc !! key with
  | None => mc
  | Some current => if decide (current = item) then removeItem key item mc else mc
  end.

Definition cleanupExpired now mc : MemoryCache :=
  match operationErr false mc with
  | Some _ => mc
  | None => foldl (λ mc kv, removeExpiredItemLocked kv.1 kv.2 now mc) mc (map_to_list (store mc))
  end.

Definition checkMemoryLimit (valueSize existingSize : Z) mc : option cacheErr :=
  if (MaxMemoryUsage (config mc) =? 0)%Z then None
  else
    let currentMemory := if (existingSize <=? memory mc)%Z then (memory mc - existingSize)%Z else memory mc in
    if (MaxMemoryUsage (config mc) <? wrapu64 (currentMemory + valueSize))%Z then Some ErrCacheFull
    else None.

Definition expirationForTTL ttl now mc : option Z :=
  if (0 <? ttl)%Z then Some (now + ttl)%Z
  else if (0 <? DefaultTTL (config mc))%Z then Some (now + DefaultTTL (config mc))%Z
  else None.

Definition setLockedWithExpiration key (v : gostring) (exp : option Z) now mc :
    MemoryCache * option cacheErr :=
  let '(mc, existingSize, existingFound) :=
    match store mc !! key with
    | Some existing =>
        if expiredAt (expiration existing) now
        then (removeExpiredItemLocked key existing now mc, 0%Z, false)
        else (mc, Z.of_nat (length (value existing)), true)
    | None => (mc, 0%Z, false)
    end in
  let valueSize := Z.of_nat (length v) in
  match checkMemoryLimit valueSize existingSize mc with
  | Some e => (mc, Some e)
  | None =>
      (adjustStoredValue (if existingFound then 0 else 1) (valueSize - existingSize)
         (withStore mc (<[key := MkItem v exp]> (store mc))), None)
  end.

(** The checks every operation on a key starts with; writes repeat the first one
    under the lock. *)
Definition guard (ctxErr : bool) key mc : option cacheErr :=
  match operationErr ctxErr mc with
  | Some e => Some e
  | None => validateKey mc key
  end.

(** ** Operations *)

Definition Get (ctxErr : bool) key now mc : MemoryCache * result cacheErr gostring :=
  match guard ctxErr key mc with
  | Some e => (mc, Err e)
  | None =>
      match store mc !! key with
      | None => (mc, Err ErrNotFound)
      | Some item =>
          if expiredAt (expiration item) now
          then (removeExpiredItemLocked key item now mc, Err ErrNotFound)
          else (mc, Ok (value item))
      end
  end.

Definition Set_ (ctxErr : bool) key (v : gostring) ttl now mc : MemoryCache * option cacheErr :=
  match guard ctxErr key mc with
  | Some e => (mc, Some e)
  | None => setLockedWithExpiration key v (expirationForTTL ttl now mc) now mc
  end.

Definition Delete (ctxErr : bool) key mc : MemoryCache * option cacheErr :=
  match guard ctxErr key mc with
  | Some e => (mc, Some e)
  | None =>
      (match store mc !! key with Some item => removeItem key item mc | None => mc end, None)
  end.

Definition Exists_ (ctxErr : bool) key now mc : MemoryCache * result cacheErr bool :=
  match guard ctxErr key mc with
  | Some e => (mc, Err e)
  | None =>
      match store mc !! key with
      | None => (mc, Ok false)
      | Some item =>
          if expiredAt (expiration item) now
          then (removeExpiredItemLocked key item now mc, Ok false)
          else (mc, Ok true)
      end
  end.

Definition Clear (ctxErr : bool) mc : MemoryCache * option cacheErr :=
  match operationErr ctxErr mc with
  | Some e => (mc, Some e)
  | None => (foldl (λ mc kv, removeItem kv.1 kv.2 mc) mc (map_to_list (store mc)), None)
  end.

Section counters.
(** [gob.NewDecoder(bytes.NewReader(data)).Decode(&num)]: the fallback for values
    written by other encoders. *)
Context (gobDecode : gostring → option Z).

Definition decodeInt64 (data : gostring) : option Z :=
  let trimmed := trim_space data in
  if decide (trimmed = []) then None
  else match Atoi trimmed with
       | Some n => Some n
       | None => gobDecode data
       end.
Definition encodeInt64 (n : Z) : gostring := print_Z n.

Definition addInt64 (v delta : Z) : result cacheErr Z :=
  if (0 <? delta)%Z && (wrap64 (int64_max - delta) <? v)%Z then Err ErrNotInteger
  else if (delta <? 0)%Z && (v <? wrap64 (int64_min - delta))%Z then Err ErrNotInteger
  else Ok (wrap64 (v + delta)).

Definition Incr (ctxErr : bool) key (delta : Z) now mc : MemoryCache * result cacheErr Z :=
  match guard ctxErr key mc with
  | Some e => (mc, Err e)
  | None =>
      let '(mc, exp, current) :=
        match store mc !! key with
        | Some item =>
            if expiredAt (expiration item) now
            then (removeExpiredItemLocked key item now mc, expirationForTTL 0 now mc, Some 0%Z)
            else (mc, expiration item, decodeInt64 (value item))
        | None => (mc, expirationForTTL 0 now mc, Some 0%Z)
        end in
      match current with
      | None => (mc, Err ErrNotInteger)
      | Some currentVal =>
          match addInt64 currentVal delta with
          | Err e => (mc, Err e)
          | Ok newVal =>
              match setLockedWithExpiration key (encodeInt64 newVal) exp now mc with
              | (mc, Some e) => (mc, Err e)
              | (mc, None) => (mc, Ok newVal)
              end
          end
      end
  end.

Definition Decr (ctxErr : bool) key (delta : Z) now mc : MemoryCache * result cacheErr Z :=
  if (delta =? int64_min)%Z then (mc, Err ErrNotInteger)
  else Incr ctxErr key (- delta) now mc.
End counters.

Definition Append (ctxErr : bool) key (data : gostring) now mc : MemoryCache * option cacheErr :=
  match guard ctxErr key mc with
  | Some e => (mc, Some e)
  | None =>
      let '(mc, exp, existingData) :=
        match store mc !! key with
        | Some item =>
            if expiredAt (expiration item) now
            then (removeExpiredItemLocked key item now mc, expirationForTTL 0 now mc, [])
            else (mc, expiration item, value item)
        | None => (mc, expirationForTTL 0 now mc, [])
        end in
      setLockedWithExpiration key (existingData ++ data) exp now mc
  end.

Definition Close mc : MemoryCache := MkCache (store mc) (config mc) (size_ mc) (memory mc) true.
End MemoryCache.
