(* ===== verification/MemoryCacheFacts.v ===== *)
(** * What the in-memory cache guarantees

    The counters agree with the map and the payload limit holds in every reachable
    state; seen through its operations the cache is a map whose entries disappear at
    their expiry. *)

From stdpp Require Import options.
From S2P Require Import Prelude GoStrings GoNumbers MemoryCache.
Import MemoryCache.
Implicit Types (mc : MemoryCache) (key : gostring) (now ttl : Z).

(** ** Payload *)

Definition item_size (kv : gostring * cacheItem) : nat := length (value kv.2).
Definition payload (m : gmap gostring cacheItem) : nat := sum_list_with item_size (map_to_list m).

Lemma payload_insert m k i : m !! k = None → payload (<[k := i]> m) = length (value i) + payload m.
Proof. intros Hk. unfold payload. by rewrite (map_to_list_insert m k i Hk). Qed.

Lemma payload_delete m k i : m !! k = Some i → payload m = length (value i) + payload (delete k m).
Proof.
  intros Hk. rewrite <- (payload_insert (delete k m) k) by apply lookup_delete_eq. by rewrite insert_delete_id.
Qed.

Lemma payload_mono m m' : m ⊆ m' → payload m ≤ payload m'.
Proof.
  revert m'. induction m as [|k i m Hk IH] using map_ind; intros m' Hsub; [unfold payload; rewrite map_to_list_empty; simpl; lia|].
  assert (Hk' : m' !! k = Some i) by (eapply lookup_weaken; [apply lookup_insert_eq|done]).
  rewrite payload_insert, (payload_delete m' k i) by done. apply Nat.add_le_mono_l, IH.
  rewrite <- (delete_insert_id m k i) by done. by apply delete_mono.
Qed.

Lemma payload_empty : payload ∅ = 0.
Proof. done. Qed.

(** ** The invariant *)

(** [bound] is any limit on the payload; the counters hold 64 bits. *)
Record acc_inv (bound : Z) mc : Prop := {
  acc_size : size_ mc = Z.of_nat (size (store mc));
  acc_memory : memory mc = Z.of_nat (payload (store mc));
  acc_limit : MaxMemoryUsage (config mc) ≠ 0%Z → (memory mc ≤ MaxMemoryUsage (config mc))%Z;
  acc_bound : (memory mc ≤ bound ∧ bound < 2 ^ 63)%Z;
}.

Lemma acc_weaken b b' mc : (b ≤ b' < 2 ^ 63)%Z → acc_inv b mc → acc_inv b' mc.
Proof. intros ? [????]. split; try done. lia. Qed.

(** Two caches that differ in their entries only. *)
Definition same_frame mc mc' : Prop := config mc' = config mc ∧ closed mc' = closed mc.

Lemma adjust_memory m d : (0 ≤ m < 2 ^ 63)%Z → (0 ≤ m + d < 2 ^ 63)%Z →
  (if (d <? 0)%Z then if (- d <=? m)%Z then (m + d)%Z else 0%Z else wrapu64 (m + d)) = (m + d)%Z.
Proof.
  intros Hm Hd. destruct (Z.ltb_spec d 0).
  - destruct (Z.leb_spec (- d) m); lia.
  - unfold wrapu64. apply Z.mod_small. lia.
Qed.

Lemma size_pos (m : gmap gostring cacheItem) key item : m !! key = Some item → size m = S (size (delete key m)).
Proof.
  intros Hk. rewrite map_size_delete_Some by done. assert (size m ≠ 0); [|lia].
  apply map_size_non_empty_iff. intros E. by rewrite E, lookup_empty in Hk.
Qed.

Lemma removeItem_inv b key item mc : acc_inv b mc → store mc !! key = Some item →
  acc_inv b (removeItem key item mc) ∧ store (removeItem key item mc) = delete key (store mc) ∧
  same_frame mc (removeItem key item mc).
Proof.
  intros [Hs Hm Hl Hb] Hk. split; [|done].
  pose proof (size_pos _ _ _ Hk) as Hsz. pose proof (payload_delete _ _ _ Hk) as Hp.
  assert (Hmem : memory (removeItem key item mc) = (memory mc - Z.of_nat (length (value item)))%Z).
  { unfold removeItem, adjustStoredValue. simpl. rewrite adjust_memory; lia. }
  split; rewrite ?Hmem; simpl.
  - destruct (Z.ltb_spec (size_ mc + -1) 0); lia.
  - lia.
  - lia.
  - lia.
Qed.

Lemma removeExpired_eq key item now mc : store mc !! key = Some item →
  expiredAt (expiration item) now = true → removeExpiredItemLocked key item now mc = removeItem key item mc.
Proof. intros Hk He. unfold removeExpiredItemLocked. rewrite He, Hk. simpl. by rewrite decide_True. Qed.

(** Writing an entry that is not there, or replacing one that is: the limit
    decides, and then the entry is stored. *)
Definition without key (m : gmap gostring cacheItem) now : gmap gostring cacheItem :=
  match m !! key with
  | Some i => if expiredAt (expiration i) now then delete key m else m
  | None => m
  end.

(** What a write to [key] replaces. *)
Definition oldSize key now (m : gmap gostring cacheItem) : Z :=
  match m !! key with
  | Some i => if expiredAt (expiration i) now then 0%Z else Z.of_nat (length (value i))
  | None => 0%Z
  end.

(** The first step of a write: drop the entry if it is expired, else note its size. *)
Definition dropExpired key now mc : MemoryCache * Z * bool :=
  match store mc !! key with
  | Some existing =>
      if expiredAt (expiration existing) now
      then (removeExpiredItemLocked key existing now mc, 0%Z, false)
      else (mc, Z.of_nat (length (value existing)), true)
  | None => (mc, 0%Z, false)
  end.

Lemma dropExpired_inv b key now mc : acc_inv b mc → ∃ mc1 esz found,
  dropExpired key now mc = (mc1, esz, found) ∧ acc_inv b mc1 ∧ same_frame mc mc1 ∧
  store mc1 = without key (store mc) now ∧
  (∀ i, <[key := i]> (store mc1) = <[key := i]> (store mc)) ∧
  (if found : bool then ∃ i, store mc1 !! key = Some i ∧ esz = Z.of_nat (length (value i))
   else store mc1 !! key = None ∧ esz = 0%Z) ∧ esz = oldSize key now (store mc).
Proof.
  intros Hinv. unfold dropExpired, without, oldSize. destruct (store mc !! key) as [i|] eqn:Ek.
  - destruct (expiredAt (expiration i) now) eqn:Ee.
    + rewrite removeExpired_eq by done. destruct (removeItem_inv b key i mc Hinv Ek) as (H1 & H2 & H3).
      eexists _, _, _. split; [done|]. split; [done|]. split; [done|]. rewrite H2. split; [done|].
      split; [intros j; by rewrite insert_delete_eq|]. by rewrite lookup_delete_eq.
    + eexists _, _, _. split; [done|]. by split_and!; [..|eexists|].
  - eexists _, _, _. split; [done|]. by split_and!.
Qed.

Lemma setLocked_inv b b' key v exp now mc : acc_inv b mc → (b ≤ b' < 2 ^ 63)%Z →
  (b - oldSize key now (store mc) + Z.of_nat (length v) ≤ b')%Z →
  let '(mc', e) := setLockedWithExpiration key v exp now mc in
  acc_inv b' mc' ∧ same_frame mc mc' ∧
  match e with
  | Some e => e = ErrCacheFull ∧ MaxMemoryUsage (config mc) ≠ 0%Z ∧
      (MaxMemoryUsage (config mc) < Z.of_nat (payload (<[key := MkItem v exp]> (store mc))))%Z ∧ store mc' = without key (store mc) now
  | None => store mc' = <[key := MkItem v exp]> (store mc)
  end.
Proof.
  intros Hinv Hb Hb'. unfold setLockedWithExpiration.
  change (match store mc !! key with Some _ => _ | None => _ end) with (dropExpired key now mc).
  destruct (dropExpired_inv b key now mc Hinv)
    as (mc1 & esz & found & -> & Hinv1 & Hfr & Hst & Hins & Hf & Hesz).
  rewrite <- Hst. destruct Hfr as [Hcfg Hcl]. pose proof Hinv1 as [Hs Hm Hl Hbd]. rewrite <- Hesz in Hb'.
  assert (Hold : (memory mc1 = esz + Z.of_nat (payload (delete key (store mc1))) ∧ 0 ≤ esz ∧
    Z.of_nat (size (store mc1)) + (if found then 0 else 1) = Z.of_nat (size (<[key := MkItem v exp]> (store mc1))))%Z).
  { destruct found.
    - destruct Hf as (i & Ei & ->). pose proof (payload_delete _ _ _ Ei).
      rewrite map_size_insert_Some by done. lia.
    - destruct Hf as [Ei ->]. rewrite (delete_id (store mc1)) by done.
      rewrite map_size_insert_None by done. lia. }
  destruct Hold as (Hmem & He0 & Hsz).
  assert (Hpl : payload (<[key := MkItem v exp]> (store mc1)) = length v + payload (delete key (store mc1))).
  { rewrite <- (insert_delete_eq (store mc1)). rewrite payload_insert by apply lookup_delete_eq. done. }
  unfold checkMemoryLimit. rewrite (proj2 (Z.leb_le esz (memory mc1))) by lia.
  assert (Hw : wrapu64 (memory mc1 - esz + Z.of_nat (length v)) = (memory mc1 - esz + Z.of_nat (length v))%Z).
  { unfold wrapu64. apply Z.mod_small. lia. }
  rewrite Hw, Hcfg. destruct (MaxMemoryUsage (config mc) =? 0)%Z eqn:E0; unbool.
  2: destruct (Z.ltb_spec (MaxMemoryUsage (config mc)) (memory mc1 - esz + Z.of_nat (length v))).
  2: { split; [by apply (acc_weaken b); [lia|]|]. split; [done|]. rewrite <- Hins, Hpl. split_and!; [done..|lia|done]. }
  all: simpl; (split; [|split; [done|by rewrite Hins]]); unfold adjustStoredValue; split; simpl;
    rewrite ?adjust_memory, ?Hpl by lia; rewrite ?Hcfg; try (destruct found; lia); try lia.
  all: destruct (Z.ltb_spec (size_ mc1 + (if found then 0 else 1)) 0); destruct found; lia.
Qed.

(** ** Arithmetic of the counters *)

Lemma addInt64_exact v d : is_int64 v → is_int64 d →
  addInt64 v d = if decide (is_int64 (v + d)) then Ok (v + d)%Z else Err ErrNotInteger.
Proof.
  unfold is_int64, addInt64. intros Hv Hd.
  destruct (Z.ltb_spec 0 d); simpl.
  { rewrite wrap64_small by (unfold is_int64, int64_min, int64_max in *; lia).
    destruct (Z.ltb_spec (int64_max - d) v).
    - rewrite decide_False; [done|]. unfold int64_min, int64_max in *. lia.
    - rewrite (proj2 (Z.ltb_ge d 0)) by lia. simpl. rewrite decide_True by (unfold int64_min, int64_max in *; lia).
      rewrite wrap64_small; [done|]. unfold is_int64, int64_min, int64_max in *. lia. }
  destruct (Z.ltb_spec d 0); simpl.
  { rewrite wrap64_small by (unfold is_int64, int64_min, int64_max in *; lia).
    destruct (Z.ltb_spec v (int64_min - d)).
    - rewrite decide_False; [done|]. unfold int64_min, int64_max in *. lia.
    - rewrite decide_True by (unfold int64_min, int64_max in *; lia).
      rewrite wrap64_small; [done|]. unfold is_int64, int64_min, int64_max in *. lia. }
  rewrite decide_True by (unfold int64_min, int64_max in *; lia).
  rewrite wrap64_small; [done|]. unfold is_int64, int64_min, int64_max in *. lia.
Qed.

Lemma Atoi_int64 s n : Atoi s = Some n → is_int64 n.
Proof.
  unfold Atoi, is_int64, int64_min, int64_max.
  destruct (match s with [] => _ | _ => _ end) as [neg ds]. repeat case_match; unbool; intros; simplify_eq; lia.
Qed.

Lemma print_loop_length fuel n acc : length (print_loop fuel n acc) ≤ fuel + length acc.
Proof.
  revert n acc. induction fuel as [|fuel IH]; intros n acc; simpl; [lia|].
  case_match; simpl; [lia|]. etrans; [apply IH|]. simpl. lia.
Qed.

Lemma print_Z_length n : is_int64 n → length (print_Z n) ≤ 66.
Proof.
  intros Hn. assert (H : ∀ k, (k ≤ 2 ^ 63)%N → length (print_N k) ≤ 65).
  { intros k Hk. unfold print_N. etrans; [apply print_loop_length|]. simpl.
    assert (N.log2 k ≤ 63)%N; [|lia]. etrans; [apply N.log2_le_mono, Hk|]. by rewrite N.log2_pow2. }
  unfold is_int64, int64_min, int64_max in Hn. unfold print_Z. case_match; unbool.
  - simpl. specialize (H (Z.to_N (- n))). lia.
  - specialize (H (Z.to_N n)). lia.
Qed.

(** ** Entries over time *)

(** An entry without expiry stays; the others are gone from their expiry instant on. *)
Definition alive now (i : cacheItem) : Prop := match expiration i with None => True | Some e => (now < e)%Z end.
#[export] Instance alive_dec now i : Decision (alive now i).
Proof. unfold alive. case_match; apply _. Defined.
Definition live now (m : gmap gostring cacheItem) : gmap gostring cacheItem := filter (λ kv, alive now kv.2) m.
Lemma alive_expired now i : alive now i ↔ expiredAt (expiration i) now = false.
Proof. unfold alive, expiredAt. case_match; [by rewrite Z.leb_gt|done]. Qed.

Lemma live_lookup now m k : live now m !! k =
  match m !! k with Some i => if expiredAt (expiration i) now then None else Some i | None => None end.
Proof.
  unfold live. rewrite map_lookup_filter. destruct (m !! k) as [i|]; simpl; [|done].
  pose proof (alive_expired now i) as H. destruct (expiredAt (expiration i) now) eqn:E; case_guard as Hg; try done; exfalso; naive_solver.
Qed.

Lemma expired_mono e s t : (s ≤ t)%Z → expiredAt e s = true → expiredAt e t = true.
Proof. destruct e; simpl; [|done]. intros ? ?. unbool. apply Z.leb_le. lia. Qed.

Lemma live_live s t m : (s ≤ t)%Z → live t (live s m) = live t m.
Proof.
  intros Hst. apply map_eq. intros k. rewrite !live_lookup. destruct (m !! k) as [i|]; [|done].
  destruct (expiredAt (expiration i) s) eqn:E; [|done]. by rewrite (expired_mono _ s t).
Qed.

Lemma live_insert t k i m :
  live t (<[k := i]> m) = if expiredAt (expiration i) t then delete k (live t m) else <[k := i]> (live t m).
Proof.
  apply map_eq. intros k'. rewrite live_lookup. destruct (decide (k = k')) as [->|Hne].
  - rewrite lookup_insert_eq. case_match; [by rewrite lookup_delete_eq|by rewrite lookup_insert_eq].
  - rewrite lookup_insert_ne by done. rewrite <- live_lookup.
    case_match; [by rewrite lookup_delete_ne|by rewrite lookup_insert_ne].
Qed.

Lemma live_delete t k m : live t (delete k m) = delete k (live t m).
Proof.
  apply map_eq. intros k'. rewrite live_lookup. destruct (decide (k = k')) as [->|Hne].
  - by rewrite !lookup_delete_eq.
  - by rewrite !lookup_delete_ne, live_lookup.
Qed.

(** Dropping an expired entry is invisible from then on. *)
Lemma live_without s t k m : (s ≤ t)%Z → live t (without k m s) = live t m.
Proof.
  intros Hst. unfold without. destruct (m !! k) as [i|] eqn:Ek; [|done]. case_match; [|done].
  apply map_eq. intros k'. rewrite live_delete. destruct (decide (k = k')) as [->|Hne].
  - rewrite lookup_delete_eq, live_lookup, Ek. by rewrite (expired_mono _ s t).
  - by rewrite lookup_delete_ne.
Qed.

(** ** Histories *)

Inductive op :=
| OGet (key : gostring) | OSet (key v : gostring) (ttl : Z) | ODelete (key : gostring)
| OExists (key : gostring) | OClear | OIncr (key : gostring) (delta : Z)
| ODecr (key : gostring) (delta : Z) | OAppend (key data : gostring) | OCleanup | OClose.
Record event := MkEvent { ev_op : op; ev_ctx : bool; ev_now : Z }.

Inductive res := RVal (v : gostring) | RBool (b : bool) | RInt (n : Z) | RDone | RErr (e : cacheErr).
Definition of_err (e : option cacheErr) : res := match e with Some e => RErr e | None => RDone end.
Definition of_result {A} (f : A → res) (r : result cacheErr A) : res :=
  match r with Ok a => f a | Err e => RErr e end.

Section history.
Context (gobDecode : gostring → option Z).
Context (gob_int64 : ∀ data n, gobDecode data = Some n → is_int64 n).

Definition run_op (o : op) (ctx : bool) now mc : MemoryCache * res :=
  match o with
  | OGet key => let '(mc, r) := Get ctx key now mc in (mc, of_result RVal r)
  | OSet key v ttl => let '(mc, e) := Set_ ctx key v ttl now mc in (mc, of_err e)
  | ODelete key => let '(mc, e) := Delete ctx key mc in (mc, of_err e)
  | OExists key => let '(mc, r) := Exists_ ctx key now mc in (mc, of_result RBool r)
  | OClear => let '(mc, e) := Clear ctx mc in (mc, of_err e)
  | OIncr key d => let '(mc, r) := Incr gobDecode ctx key d now mc in (mc, of_result RInt r)
  | ODecr key d => let '(mc, r) := Decr gobDecode ctx key d now mc in (mc, of_result RInt r)
  | OAppend key data => let '(mc, e) := Append ctx key data now mc in (mc, of_err e)
  | OCleanup => (cleanupExpired now mc, RDone)
  | OClose => (Close mc, RDone)
  end.

Fixpoint run_events (es : list event) mc : MemoryCache * list res :=
  match es with
  | [] => (mc, [])
  | e :: es =>
      let '(mc, r) := run_op (ev_op e) (ev_ctx e) (ev_now e) mc in
      let '(mc, rs) := run_events es mc in (mc, r :: rs)
  end.

(** The specification: a map of the entries written and not since replaced, deleted or
    cleared, of which an operation sees the unexpired ones, and whether the cache is closed. *)
Record amap := MkAmap { am : gmap gostring cacheItem; ac : bool }.

Section spec.
Context (cfg : Config).

(** The expiry of an entry written with a time to live: a positive one counts from now,
    any other gives way to the configured default, and without that there is none. *)
Definition expiry ttl now : option Z :=
  match Z.compare ttl 0, Z.compare (DefaultTTL cfg) 0 with
  | Gt, _ => Some (now + ttl)%Z
  | _, Gt => Some (now + DefaultTTL cfg)%Z
  | _, _ => None
  end.
(** Why an operation on a key is refused: the context, the closed cache, then the key. *)
Definition unavailable (ctx : bool) (a : amap) : option cacheErr :=
  match ctx, ac a with true, _ => Some ErrContext | false, true => Some ErrCacheClosed | false, false => None end.
Definition badKey key : option cacheErr :=
  if decide (length key = 0) then Some ErrInvalidKey
  else if decide (0 < MaxKeyLength cfg < Z.of_nat (length key))%Z then Some ErrKeyTooLong
  else if decide (Exists (λ c, (byte_val c < 32 ∨ byte_val c = 127)%N) key) then Some ErrInvalidKey
  else None.
Definition refusal (ctx : bool) key (a : amap) : option cacheErr :=
  match unavailable ctx a with Some e => Some e | None => badKey key end.
(** The number a value holds: its decimal text, or what another encoder wrote. *)
Definition number (v : gostring) : option Z :=
  match trim_space v with
  | [] => None
  | t => match Atoi t with Some n => Some n | None => gobDecode v end
  end.

Definition spec_add key (d : Z) now (a : amap) : amap * res :=
  let '(cur, exp) := match live now (am a) !! key with
                     | Some i => (number (value i), expiration i)
                     | None => (Some 0%Z, expiry 0 now)
                     end in
  match cur with
  | Some c => if decide (is_int64 (c + d))
              then (MkAmap (<[key := MkItem (print_Z (c + d)) exp]> (am a)) (ac a), RInt (c + d))
              else (a, RErr ErrNotInteger)
  | None => (a, RErr ErrNotInteger)
  end.

Definition spec_key key now (o : op) (a : amap) : amap * res :=
  let m := live now (am a) in
  let put i := MkAmap (<[key := i]> (am a)) (ac a) in
  match o with
  | OGet _ => (a, match m !! key with Some i => RVal (value i) | None => RErr ErrNotFound end)
  | OSet _ v ttl => (put (MkItem v (expiry ttl now)), RDone)
  | ODelete _ => (MkAmap (delete key (am a)) (ac a), RDone)
  | OExists _ => (a, RBool (bool_decide (is_Some (m !! key))))
  | OIncr _ d => spec_add key d now a
  | ODecr _ d => spec_add key (- d) now a
  | OAppend _ data =>
      (put match m !! key with
           | Some i => MkItem (value i ++ data) (expiration i)
           | None => MkItem data (expiry 0 now)
           end, RDone)
  | _ => (a, RDone)
  end.

Definition spec_op (o : op) (ctx : bool) now (a : amap) : amap * res :=
  match o with
  | OGet key | OSet key _ _ | ODelete key | OExists key | OIncr key _ | OAppend key _ =>
      match refusal ctx key a with
      | Some e => (a, RErr e)
      | None => spec_key key now o a
      end
  | ODecr key d =>
      if decide (d = int64_min) then (a, RErr ErrNotInteger)
      else match refusal ctx key a with
           | Some e => (a, RErr e)
           | None => spec_key key now o a
           end
  | OClear => match unavailable ctx a with
              | Some e => (a, RErr e)
              | None => (MkAmap ∅ (ac a), RDone)
              end
  | OCleanup => (a, RDone)
  | OClose => (MkAmap (am a) true, RDone)
  end.

(** The payload limit. What an operation leaves visible is within it. A write that would
    succeed is refused only when the entries written and not since replaced, deleted or
    cleared (expired ones may still be stored) would exceed the limit with the new value. *)
Definition is_write (o : op) : Prop := match o with OSet _ _ _ | OIncr _ _ | ODecr _ _ | OAppend _ _ => True | _ => False end.
Definition succeeded (r : res) : Prop := match r with RErr _ => False | _ => True end.
Definition within_limit now (a : amap) : Prop :=
  MaxMemoryUsage cfg ≠ 0%Z → (Z.of_nat (payload (live now (am a))) ≤ MaxMemoryUsage cfg)%Z.
Definition too_large (o : op) (spec : amap * res) : Prop :=
  is_write o ∧ succeeded spec.2 ∧ MaxMemoryUsage cfg ≠ 0%Z ∧ (MaxMemoryUsage cfg < Z.of_nat (payload (am spec.1)))%Z.

Inductive spec_run : amap → list event → list res → Prop :=
| spec_nil a : spec_run a [] []
| spec_ok a a' e r es rs :
    spec_op (ev_op e) (ev_ctx e) (ev_now e) a = (a', r) → within_limit (ev_now e) a' →
    spec_run a' es rs → spec_run a (e :: es) (r :: rs)
| spec_full a e es rs :
    too_large (ev_op e) (spec_op (ev_op e) (ev_ctx e) (ev_now e) a) →
    spec_run a es rs → spec_run a (e :: es) (RErr ErrCacheFull :: rs).
End spec.

(** Bytes an operation can add, and well-formed arguments. *)
Definition written (o : op) : Z :=
  match o with
  | OSet _ v _ => Z.of_nat (length v)
  | OAppend _ data => Z.of_nat (length data)
  | OIncr _ _ | ODecr _ _ => 66
  | _ => 0
  end.
Definition op_ok (o : op) : Prop :=
  match o with OIncr _ d | ODecr _ d => is_int64 d | _ => True end.

(** ** Simulation *)

Definition sim cfg now mc (a : amap) : Prop :=
  config mc = cfg ∧ closed mc = ac a ∧ store mc ⊆ am a ∧ ∀ t, (now ≤ t)%Z → live t (store mc) = live t (am a).

Lemma sim_unavailable cfg now mc a ctx : sim cfg now mc a → operationErr ctx mc = unavailable ctx a.
Proof. intros (_ & Hcl & _). unfold operationErr, unavailable. rewrite Hcl. by destruct ctx, (ac a). Qed.
Lemma validateKey_bad mc key : validateKey mc key = badKey (config mc) key.
Proof.
  unfold validateKey, badKey. destruct key as [|c key]; [done|]. rewrite decide_False, decide_False by done.
  set (k := c :: key). assert (Hc : existsb controlByte k = bool_decide (Exists (λ c, (byte_val c < 32 ∨ byte_val c = 127)%N) k)).
  { apply eq_true_iff_eq. rewrite bool_decide_eq_true, existsb_exists, Exists_exists. apply exist_proper. intros x.
    rewrite list_elem_of_In. apply and_iff_compat_l. unfold controlByte. by rewrite orb_true_iff, N.ltb_lt, N.eqb_eq. }
  rewrite Hc, (decide_bool_decide (Exists _ k)). clearbody k. clear Hc.
  destruct (Z.ltb_spec 0 (MaxKeyLength (config mc))), (Z.ltb_spec (MaxKeyLength (config mc)) (Z.of_nat (length k))); simpl; case_decide; (done || lia).
Qed.
Lemma sim_guard cfg now mc a ctx key : sim cfg now mc a → guard ctx key mc = refusal cfg ctx key a.
Proof.
  intros Hs. unfold guard, refusal. rewrite (sim_unavailable _ _ _ _ ctx Hs), validateKey_bad. by destruct Hs as [-> _].
Qed.
Lemma sim_exp cfg now mc a ttl t : sim cfg now mc a → expirationForTTL ttl t mc = expiry cfg ttl t.
Proof.
  intros (Hc & _). unfold expirationForTTL, expiry. rewrite Hc.
  destruct (Z.compare_spec ttl 0), (Z.compare_spec (DefaultTTL cfg) 0), (Z.ltb_spec 0 ttl), (Z.ltb_spec 0 (DefaultTTL cfg)); (done || lia).
Qed.
Lemma decode_number v : decodeInt64 gobDecode v = number v.
Proof. unfold decodeInt64, number. by destruct (trim_space v). Qed.
Lemma sim_limit cfg now b mc a : sim cfg now mc a → acc_inv b mc → within_limit cfg now a.
Proof.
  intros (Hc & _ & _ & Hl) [_ Hm Hlim _] Hmax. rewrite <- (Hl now) by lia. rewrite Hc in Hlim.
  assert (payload (live now (store mc)) ≤ payload (store mc)) by apply payload_mono, map_filter_subseteq. specialize (Hlim Hmax). lia.
Qed.

Lemma sim_later cfg s t mc a : (s ≤ t)%Z → sim cfg s mc a → sim cfg t mc a.
Proof. intros Hst (Hc & Hcl & Hsub & Hl). split_and!; try done. intros u Hu. apply Hl. lia. Qed.

(** A step that keeps the frame and makes the entries those of the abstract map. *)
Lemma sim_step cfg now mc a mc' m' : sim cfg now mc a → same_frame mc mc' → store mc' ⊆ m' →
  (∀ t, (now ≤ t)%Z → live t (store mc') = live t m') → sim cfg now mc' (MkAmap m' (ac a)).
Proof. intros (Hc & Hcl & _) [Hc' Hcl'] Hsub Hl. split_and!; [congruence|simpl; congruence|done|done]. Qed.

Lemma sim_insert cfg now mc a mc' k i : sim cfg now mc a → same_frame mc mc' →
  store mc' = <[k := i]> (store mc) → sim cfg now mc' (MkAmap (<[k := i]> (am a)) (ac a)).
Proof.
  intros Hs Hf E. pose proof Hs as (_ & _ & Hsub & Hl). apply (sim_step _ _ mc); [done..|rewrite E; by apply insert_mono|].
  intros t Ht. rewrite E, !live_insert. by rewrite (Hl t Ht).
Qed.

(** The entry an operation finds is the live one. *)
Lemma sim_lookup cfg now mc a k : sim cfg now mc a → live now (am a) !! k =
  match store mc !! k with Some i => if expiredAt (expiration i) now then None else Some i | None => None end.
Proof. intros (_ & _ & _ & Hl). rewrite <- (Hl now) by lia. apply live_lookup. Qed.

Lemma sim_expired cfg now b mc a key i : sim cfg now mc a → acc_inv b mc → store mc !! key = Some i →
  expiredAt (expiration i) now = true →
  let mc' := removeExpiredItemLocked key i now mc in
  sim cfg now mc' a ∧ acc_inv b mc' ∧ store mc' = delete key (store mc).
Proof.
  intros Hs Hi Hk He. rewrite removeExpired_eq by done.
  destruct (removeItem_inv b key i mc Hi Hk) as (Hi' & Hst & Hf). split; [|done].
  destruct a as [m c]. pose proof Hs as (_ & _ & Hsub & Hl). simpl in Hsub, Hl. apply (sim_step _ _ mc _ _ m Hs Hf).
  { rewrite Hst. etrans; [apply delete_subseteq|done]. }
  intros t Ht. rewrite Hst. rewrite <- (Hl t Ht), <- (live_without now t key (store mc) Ht).
  unfold without. by rewrite Hk, He.
Qed.
Lemma put_step cfg now b b' mc a key v exp : sim cfg now mc a → acc_inv b mc → (b ≤ b' < 2 ^ 63)%Z →
  (b - oldSize key now (store mc) + Z.of_nat (length v) ≤ b')%Z →
  let '(mc', e) := setLockedWithExpiration key v exp now mc in
  acc_inv b' mc' ∧ match e with
  | Some e => e = ErrCacheFull ∧ MaxMemoryUsage cfg ≠ 0%Z ∧
      (MaxMemoryUsage cfg < Z.of_nat (payload (<[key := MkItem v exp]> (am a))))%Z ∧ sim cfg now mc' a
  | None => sim cfg now mc' (MkAmap (<[key := MkItem v exp]> (am a)) (ac a))
  end.
Proof.
  intros Hs Hi Hb Hb'. pose proof (setLocked_inv b b' key v exp now mc Hi Hb Hb') as H.
  destruct (setLockedWithExpiration key v exp now mc) as [mc' [e|]]; destruct H as (Hi' & Hf & H).
  - destruct H as (-> & Hm & Hlim & Hst). split; [done|]. pose proof Hs as (<- & _ & Hsub & Hl). split; [done|]. split; [done|]. split.
    { eapply Z.lt_le_trans; [exact Hlim|]. apply inj_le, payload_mono. by apply insert_mono. }
    destruct a as [m c]. apply (sim_step _ _ mc _ _ m Hs Hf).
    { rewrite Hst. unfold without. repeat case_match; try done. etrans; [apply delete_subseteq|done]. }
    intros t Ht. rewrite Hst, live_without by done. by apply Hl.
  - split; [done|]. by apply (sim_insert cfg now mc).
Qed.

Lemma mcClear_ok b mc : acc_inv b mc → let mc' := foldl (λ mc kv, removeItem kv.1 kv.2 mc) mc (map_to_list (store mc)) in
  acc_inv b mc' ∧ store mc' = ∅ ∧ same_frame mc mc'.
Proof.
  intros Hi. cbv zeta. remember (map_to_list (store mc)) as l eqn:El.
  assert (Hp : map_to_list (store mc) ≡ₚ l) by (by rewrite El). clear El. revert mc Hi Hp.
  induction l as [|[k i] l IH]; intros mc Hi Hp; simpl.
  - split; [done|]. split; [|done]. apply Permutation_nil_r in Hp. by apply map_to_list_empty_iff.
  - assert (Hk : store mc !! k = Some i) by (apply elem_of_map_to_list; rewrite Hp; left).
    destruct (removeItem_inv b k i mc Hi Hk) as (Hi1 & Hst & Hf). destruct (IH (removeItem k i mc) Hi1) as (H1 & H2 & H3).
    + rewrite Hst. rewrite <- (insert_delete_id (store mc) k i Hk) in Hp.
      rewrite map_to_list_insert in Hp by apply lookup_delete_eq. by apply Permutation_cons_inv in Hp.
    + split; [done|]. split; [done|]. unfold same_frame in *. naive_solver congruence.
Qed.

Lemma cleanup_ok cfg now b mc a : sim cfg now mc a → acc_inv b mc →
  sim cfg now (cleanupExpired now mc) a ∧ acc_inv b (cleanupExpired now mc).
Proof.
  intros Hs Hi. unfold cleanupExpired. case_match; [done|]. clear H.
  generalize (map_to_list (store mc)). intros l. revert mc Hs Hi.
  induction l as [|[k i] l IH]; intros mc Hs Hi; simpl; [done|].
  destruct (expiredAt (expiration i) now) eqn:Ee.
  2: { apply IH; unfold removeExpiredItemLocked; by rewrite Ee. }
  destruct (store mc !! k) as [j|] eqn:Ek.
  2: { apply IH; unfold removeExpiredItemLocked; by rewrite Ee, Ek. }
  destruct (decide (j = i)) as [->|Hne].
  - destruct (sim_expired cfg now b mc a k i Hs Hi Ek Ee) as (? & ? & _). by apply IH.
  - apply IH; unfold removeExpiredItemLocked; rewrite Ee, Ek; simpl; by rewrite decide_False.
Qed.

(** What a step must establish. *)
Definition step_ok cfg now (b' : Z) (o : op) (a : amap) (spec : amap * res) (out : MemoryCache * res) : Prop :=
  acc_inv b' out.1 ∧
  ((out.2 = RErr ErrCacheFull ∧ too_large cfg o spec ∧ sim cfg now out.1 a) ∨
   (spec.2 = out.2 ∧ sim cfg now out.1 spec.1)).

Lemma step_same cfg now b o mc a r : sim cfg now mc a → acc_inv b mc → step_ok cfg now b o a (a, r) (mc, r).
Proof. intros Hs Hi. split; [done|]. right. done. Qed.

Lemma oldSize_nonneg key now m : (0 ≤ oldSize key now m)%Z.
Proof. unfold oldSize. repeat case_match; lia. Qed.

Lemma oldSize_delete key now m : oldSize key now (delete key m) = 0%Z.
Proof. unfold oldSize. by rewrite lookup_delete_eq. Qed.

Lemma Incr_step cfg now b o mc a ctx key d : is_write o → sim cfg now mc a → acc_inv b mc → (b + 66 < 2 ^ 63)%Z → is_int64 d →
  guard ctx key mc = None →
  step_ok cfg now (b + 66) o a (spec_add cfg key d now a)
    (let '(mc, r) := Incr gobDecode ctx key d now mc in (mc, of_result RInt r)).
Proof using gob_int64.
  intros Ho Hs Hi Hb Hd Hg. unfold Incr, spec_add. rewrite Hg, (sim_lookup cfg now mc a key Hs).
  assert (Hput : ∀ mc1 c exp, sim cfg now mc1 a → acc_inv b mc1 → is_int64 c →
    step_ok cfg now (b + 66) o a
      (if decide (is_int64 (c + d))
       then (MkAmap (<[key := MkItem (print_Z (c + d)) exp]> (am a)) (ac a), RInt (c + d))
       else (a, RErr ErrNotInteger))
      (let '(mc, r) := match addInt64 c d with
         | Err e => (mc1, Err e)
         | Ok n => match setLockedWithExpiration key (encodeInt64 n) exp now mc1 with
                   | (mc, Some e) => (mc, Err e) | (mc, None) => (mc, Ok n) end
         end in (mc, of_result RInt r))).
  { intros mc1 c exp Hs1 Hi1 Hc. rewrite addInt64_exact by done. case_decide as Hr.
    2: { apply step_same; [done|by apply (acc_weaken b); [lia|]]. }
    pose proof (put_step cfg now b (b + 66) mc1 a key (encodeInt64 (c + d)) exp Hs1 Hi1) as H.
    pose proof (print_Z_length _ Hr). pose proof (oldSize_nonneg key now (store mc1)).
    destruct (setLockedWithExpiration key (encodeInt64 (c + d)) exp now mc1) as [mc2 [e|]];
      (destruct H as [Hi2 H]; [lia|unfold encodeInt64; lia|]); (split; [done|]).
    - destruct H as (-> & ? & ? & ?). by left.
    - by right. }
  rewrite <- (sim_exp cfg now mc a 0 now Hs). destruct (store mc !! key) as [i|] eqn:Ek.
  - destruct (expiredAt (expiration i) now) eqn:Ee.
    + destruct (sim_expired cfg now b mc a key i Hs Hi Ek Ee) as (Hs1 & Hi1 & _). by apply Hput.
    + rewrite <- decode_number. destruct (decodeInt64 gobDecode (value i)) as [c|] eqn:Ed.
      * apply Hput; [done..|]. unfold decodeInt64 in Ed. repeat case_match; simplify_eq; eauto using Atoi_int64.
      * apply step_same; [done|by apply (acc_weaken b); [lia|]].
  - by apply Hput.
Qed.

Lemma Append_step cfg now b mc a ctx key data : sim cfg now mc a → acc_inv b mc →
  (b + Z.of_nat (length data) < 2 ^ 63)%Z → guard ctx key mc = None →
  step_ok cfg now (b + Z.of_nat (length data)) (OAppend key data) a (spec_key cfg key now (OAppend key data) a)
    (let '(mc, e) := Append ctx key data now mc in (mc, of_err e)).
Proof.
  intros Hs Hi Hb Hg. unfold Append, spec_key. rewrite Hg, (sim_lookup cfg now mc a key Hs).
  assert (Hput : ∀ mc1 v exp, sim cfg now mc1 a → acc_inv b mc1 →
    (Z.of_nat (length v) ≤ oldSize key now (store mc1))%Z →
    step_ok cfg now (b + Z.of_nat (length data)) (OAppend key data) a
      (MkAmap (<[key := MkItem (v ++ data) exp]> (am a)) (ac a), RDone)
      (let '(mc, e) := setLockedWithExpiration key (v ++ data) exp now mc1 in (mc, of_err e))).
  { intros mc1 v exp Hs1 Hi1 Hv.
    pose proof (put_step cfg now b (b + Z.of_nat (length data)) mc1 a key (v ++ data) exp Hs1 Hi1) as H.
    destruct (setLockedWithExpiration key (v ++ data) exp now mc1) as [mc2 [e|]];
      (destruct H as [Hi2 H]; [lia|rewrite length_app; lia|]); (split; [done|]).
    - destruct H as (-> & ? & ? & ?). by left.
    - by right. }
  rewrite <- (sim_exp cfg now mc a 0 now Hs). destruct (store mc !! key) as [i|] eqn:Ek.
  - destruct (expiredAt (expiration i) now) eqn:Ee.
    + destruct (sim_expired cfg now b mc a key i Hs Hi Ek Ee) as (Hs1 & Hi1 & Hst). apply (Hput _ []); [done..|].
      rewrite Hst, oldSize_delete. done.
    + apply Hput; [done..|]. unfold oldSize. by rewrite Ek, Ee.
  - apply (Hput _ []); [done..|]. apply oldSize_nonneg.
Qed.

Lemma run_step cfg now b mc a o ctx : sim cfg now mc a → acc_inv b mc → op_ok o → (b + written o < 2 ^ 63)%Z →
  step_ok cfg now (b + written o) o a (spec_op cfg o ctx now a) (run_op o ctx now mc).
Proof using gob_int64.
  intros Hs Hi Ho Hb. assert (Hbz : acc_inv (b + 0) mc) by (by rewrite Z.add_0_r).
  assert (Hsame : ∀ r, step_ok cfg now (b + 0) o a (a, r) (mc, r)) by (intros r; by apply step_same).
  assert (Hbw : acc_inv (b + written o) mc).
  { apply (acc_weaken b); [|done]. split; [|done]. destruct o; simpl; lia. }
  destruct o as [key|key v ttl|key|key| |key d|key d|key data| |]; simpl; rewrite <- ?(sim_guard cfg now mc a) by done.
  - unfold Get. destruct (guard ctx key mc) as [e|]; [by apply Hsame|]. simpl.
    rewrite (sim_lookup cfg now mc a key Hs). destruct (store mc !! key) as [i|] eqn:Ek; [|by apply Hsame].
    destruct (expiredAt (expiration i) now) eqn:Ee; [|by apply Hsame].
    destruct (sim_expired cfg now b mc a key i Hs Hi Ek Ee) as (Hs1 & Hi1 & _).
    apply step_same; [done|by rewrite Z.add_0_r].
  - unfold Set_. destruct (guard ctx key mc) as [e|]; [by apply step_same|]. simpl.
    rewrite <- (sim_exp cfg now mc a ttl now Hs). simpl in Hb.
    pose proof (put_step cfg now b (b + Z.of_nat (length v)) mc a key v (expirationForTTL ttl now mc) Hs Hi) as H.
    pose proof (oldSize_nonneg key now (store mc)).
    destruct (setLockedWithExpiration key v _ now mc) as [mc2 [e|]];
      (destruct H as [Hi2 H]; [lia|lia|]); (split; [done|]).
    + destruct H as (-> & ? & ? & ?). by left.
    + by right.
  - unfold Delete. destruct (guard ctx key mc) as [e|]; [by apply Hsame|]. simpl.
    destruct (store mc !! key) as [i|] eqn:Ek.
    + destruct (removeItem_inv b key i mc Hi Ek) as (Hi1 & Hst & Hf). split; [by rewrite Z.add_0_r|]. right. split; [done|].
      pose proof Hs as (_ & _ & Hsub & Hl). apply (sim_step _ _ mc _ _ _ Hs Hf); [rewrite Hst; by apply delete_mono|].
      intros t Ht. rewrite Hst, !live_delete. by rewrite (Hl t Ht).
    + split; [done|]. right. split; [done|]. pose proof Hs as (_ & _ & Hsub & Hl). apply (sim_step _ _ mc _ _ _ Hs); [done| |].
      * cbn [fst]. rewrite <- (delete_id (store mc) key) by done. by apply delete_mono.
      * intros t Ht. cbn [fst]. rewrite live_delete, <- (Hl t Ht), delete_id; [done|]. by rewrite live_lookup, Ek.
  - unfold Exists_. destruct (guard ctx key mc) as [e|]; [by apply Hsame|]. simpl.
    rewrite (sim_lookup cfg now mc a key Hs). destruct (store mc !! key) as [i|] eqn:Ek; [|by apply Hsame].
    destruct (expiredAt (expiration i) now) eqn:Ee; [|by apply Hsame].
    destruct (sim_expired cfg now b mc a key i Hs Hi Ek Ee) as (Hs1 & Hi1 & _).
    apply step_same; [done|by rewrite Z.add_0_r].
  - unfold Clear. rewrite <- (sim_unavailable cfg now mc a ctx Hs).
    destruct (operationErr ctx mc) as [e|]; [by apply Hsame|]. simpl.
    destruct (mcClear_ok (b + 0) mc Hbz) as (Hi1 & Hst & Hf). split; [done|]. right. split; [done|].
    apply (sim_step _ _ mc _ _ _ Hs Hf); [by rewrite Hst|]. intros t Ht. by rewrite Hst.
  - destruct (guard ctx key mc) as [e|] eqn:Eg; [unfold Incr; rewrite Eg; by apply step_same|].
    by apply Incr_step.
  - unfold Decr. destruct (Z.eqb_spec d int64_min) as [->|Hne].
    { rewrite decide_True by done. by apply step_same. }
    rewrite decide_False by done.
    destruct (guard ctx key mc) as [e|] eqn:Eg; [unfold Incr; rewrite Eg; by apply step_same|].
    apply Incr_step; try done. unfold op_ok, is_int64, int64_min, int64_max in *. lia.
  - destruct (guard ctx key mc) as [e|] eqn:Eg; [unfold Append; rewrite Eg; by apply step_same|].
    by apply Append_step.
  - destruct (cleanup_ok cfg now (b + 0) mc a Hs Hbz) as [Hs1 Hi1]. by apply step_same.
  - destruct Hbz as [????]. split; [by split|]. right. split; [done|]. destruct Hs as (? & ? & ? & ?). done.
Qed.

(** Events in time order; all they write together fits a signed counter. *)
Definition total_written (es : list event) : Z := foldr (λ e n, written (ev_op e) + n)%Z 0%Z es.
Fixpoint ordered (now : Z) (es : list event) : Prop :=
  match es with [] => True | e :: es => (now ≤ ev_now e)%Z ∧ ordered (ev_now e) es end.

Lemma written_nonneg o : (0 ≤ written o)%Z.
Proof. destruct o; simpl; lia. Qed.
Lemma total_nonneg es : (0 ≤ total_written es)%Z.
Proof. induction es as [|e es IH]; simpl; [lia|]. pose proof (written_nonneg (ev_op e)). lia. Qed.

Lemma run_events_ok cfg es now b mc a : sim cfg now mc a → acc_inv b mc → ordered now es →
  Forall (λ e, op_ok (ev_op e)) es → (b + total_written es < 2 ^ 63)%Z →
  acc_inv (b + total_written es) (run_events es mc).1 ∧ spec_run cfg a es (run_events es mc).2.
Proof using gob_int64.
  revert now b mc a. induction es as [|e es IH]; intros now b mc a Hs Hi Hord Hok Hb; simpl in *.
  - split; [by rewrite Z.add_0_r|constructor].
  - destruct Hord as [Hnow Hord]. apply Forall_cons in Hok as [Ho Hok]. pose proof (total_nonneg es).
    apply (sim_later _ _ _ _ _ Hnow) in Hs.
    pose proof (run_step cfg (ev_now e) b mc a (ev_op e) (ev_ctx e) Hs Hi Ho) as Hstep.
    destruct (run_op (ev_op e) (ev_ctx e) (ev_now e) mc) as [mc' r] eqn:Er. destruct Hstep as [Hi' Hstep]; [lia|].
    simpl in Hi', Hstep. destruct (run_events es mc') as [mc'' rs] eqn:Ers.
    destruct (spec_op cfg (ev_op e) (ev_ctx e) (ev_now e) a) as [a' r'] eqn:Esp. simpl in *.
    destruct Hstep as [(-> & Hmax & Hs')|(<- & Hs')].
    all: pose proof (sim_limit _ _ _ _ _ Hs' Hi') as Hlim.
    + destruct (IH (ev_now e) (b + written (ev_op e))%Z mc' a Hs' Hi' Hord Hok) as [H1 H2]; [lia|].
      rewrite Ers in H1, H2. simpl in *. split; [by rewrite Z.add_assoc|apply spec_full; [by rewrite Esp|done]].
    + destruct (IH (ev_now e) (b + written (ev_op e))%Z mc' a' Hs' Hi' Hord Hok) as [H1 H2]; [lia|].
      rewrite Ers in H1, H2. simpl in *. split; [by rewrite Z.add_assoc|by econstructor].
Qed.

Lemma mcNew_ok cfg mc : NewMemoryCacheWithConfig cfg = Ok mc →
  (0 ≤ MaxMemoryUsage cfg)%Z → acc_inv 0 mc ∧ ∀ now, sim cfg now mc (MkAmap ∅ false).
Proof.
  unfold NewMemoryCacheWithConfig. case_match; [done|]. intros [= <-] Hm. by split; [split|].
Qed.
End history.

(** ** Theorems *)

(** C23: the cache is a map whose entries disappear at their expiry. Over any history of operations on a new cache, made
    one after the other in time order, with int64 increments, a payload limit that is not negative and fewer than 2^63
    bytes written in all: every result (values, existence, counters after [Incr]/[Decr] with overflow refused, errors) is
    the one of a plain map, of which an entry is seen strictly before its expiry instant, now plus the time to live when
    that is positive, else plus the default one. With a payload limit what is visible stays within it, and only a write
    that would succeed may be refused instead, with [ErrCacheFull] and nothing changed, and only when the entries written
    and not since replaced, deleted or cleared would exceed the limit with the new value. Removing expired entries lazily
    or in the background is otherwise never visible. *)
Theorem memory_cache_refines gobDecode cfg mc es :
  (∀ data n, gobDecode data = Some n → is_int64 n) →
  NewMemoryCacheWithConfig cfg = Ok mc → (0 ≤ MaxMemoryUsage cfg)%Z →
  (∀ e es', es = e :: es' → ordered (ev_now e) es) →
  Forall (λ e, op_ok (ev_op e)) es → (total_written es < 2 ^ 63)%Z →
  spec_run gobDecode cfg (MkAmap ∅ false) es (run_events gobDecode es mc).2.
Proof.
  intros Hg Hn Hm Hord Hok Hw. destruct (mcNew_ok cfg mc Hn Hm) as [Hi Hs].
  destruct es as [|e es]; [constructor|].
  apply (run_events_ok gobDecode Hg cfg (e :: es) (ev_now e) 0 mc); try done. by eapply Hord.
Qed.

(** The counters of the cache never drift. After any history the entry counter is
    the number of stored entries, the memory counter is the exact sum of the stored
    values' lengths (no wrap-around, no clamping), and with a payload limit it never
    exceeds the limit. *)
Theorem memory_cache_accounting gobDecode cfg mc es :
  (∀ data n, gobDecode data = Some n → is_int64 n) →
  NewMemoryCacheWithConfig cfg = Ok mc → (0 ≤ MaxMemoryUsage cfg)%Z →
  (∀ e es', es = e :: es' → ordered (ev_now e) es) →
  Forall (λ e, op_ok (ev_op e)) es → (total_written es < 2 ^ 63)%Z →
  let mc' := (run_events gobDecode es mc).1 in
  size_ mc' = Z.of_nat (size (store mc')) ∧ memory mc' = Z.of_nat (payload (store mc')) ∧
  (MaxMemoryUsage (config mc') ≠ 0 → memory mc' ≤ MaxMemoryUsage (config mc'))%Z.
Proof.
  intros Hg Hn Hm Hord Hok Hw. destruct (mcNew_ok cfg mc Hn Hm) as [Hi Hs].
  destruct es as [|e es]; [destruct Hi; done|].
  destruct (run_events_ok gobDecode Hg cfg (e :: es) (ev_now e) 0 mc (MkAmap ∅ false)) as [[] _]; try done.
  by eapply Hord.
Qed.

(** *** Witnesses *)

Definition demo_cfg : Config := MkConfig 16 10 0 0.
Definition demo_events : list event :=
  [MkEvent (OSet (str "a") (str "hello") 5) false 0; MkEvent (OIncr (str "n") 41) false 1;
   MkEvent (OAppend (str "a") (str "!!")) false 2; MkEvent (OIncr (str "n") 1) false 3;
   MkEvent (OSet (str "b") (str "xyz") 0) false 4; MkEvent (OGet (str "a")) false 6;
   MkEvent (OSet (str "b") (str "xyz") 0) false 7; MkEvent (OGet (str "n")) false 8].

Example demo_results : (run_events (λ _, None) demo_events (MkCache ∅ demo_cfg 0 0 false)).2 =
  [RDone; RInt 41; RDone; RInt 42; RErr ErrCacheFull; RErr ErrNotFound; RDone; RVal (str "42")].
Proof. vm_compute. reflexivity. Qed.

Lemma memory_cache_refines_witness :
  spec_run (λ _, None) demo_cfg (MkAmap ∅ false) demo_events
    (run_events (λ _, None) demo_events (MkCache ∅ demo_cfg 0 0 false)).2.
Proof.
  apply (memory_cache_refines (λ _, None)).
  - done.
  - reflexivity.
  - done.
  - intros e es' [= <- <-]. repeat split; done.
  - repeat constructor; done.
  - vm_compute. reflexivity.
Defined.

Lemma memory_cache_accounting_witness :
  memory (run_events (λ _, None) demo_events (MkCache ∅ demo_cfg 0 0 false)).1 = 5%Z ∧
  (MaxMemoryUsage demo_cfg ≠ 0 → 5 ≤ MaxMemoryUsage demo_cfg)%Z.
Proof.
  destruct (memory_cache_accounting (λ _, None) demo_cfg (MkCache ∅ demo_cfg 0 0 false) demo_events)
    as (_ & _ & H); [done|reflexivity|done|intros e es' [= <- <-]; repeat split; done|repeat constructor; done|
      vm_compute; reflexivity|].
  assert (E : memory (run_events (λ _, None) demo_events (MkCache ∅ demo_cfg 0 0 false)).1 = 5%Z)
    by (vm_compute; reflexivity).
  split; [exact E|]. rewrite E in H. exact H.
Defined.
