(* ===== verification/SkipList.v ===== *)
(** * The skip list of the leaderboard cache ([x/data/cache/leaderboard/skiplist.go])

    Nodes live in a heap and point to each other, forwards on every level of their
    tower (with the span each link jumps over) and backwards on the lowest one. The
    operations below follow the Go code statement by statement; [None] is a panic
    (nil pointer, index out of range) or a loop that does not end, and
    [SkipListFacts] proves that neither happens. The random source is a parameter:
    nothing but the height of towers depends on it. *)

From stdpp Require Import options.
From S2P Require Import Prelude GoStrings GoNumbers.

(** [levelRNG]: one draw gives a float and the next state of the source. *)
Class levelRNG (R : Type) := Float64 : R → float64 * R.

Module SkipList.

Definition maxLevel : nat := 32.
Definition probability : float64 := float_div (float_of_Z 1) (float_of_Z 4).
Definition maxRandLevel : nat := maxLevel - 1.

Abbreviation ptr := nat (only parsing).

Record skipListLevel := MkLevel { forward : option ptr; span : Z }.
Record skipListNode := MkNode {
  member : gostring;
  score : float64;
  backward : option ptr;
  level : list skipListLevel;
}.

Section SkipList.
Context {R : Type} `{!levelRNG R}.

(** [heap] and [nextPtr] are the memory: the nodes allocated so far and the next
    free address. [slevel] is the field [level]. *)
Record skipList := MkList {
  heap : gmap ptr skipListNode;
  nextPtr : ptr;
  header : ptr;
  tail : option ptr;
  length_ : Z;
  slevel : nat;
  rng : R;
}.
Implicit Types (sl : skipList) (x y : ptr).

(** ** Memory *)

Definition with_heap sl h : skipList :=
  MkList h (nextPtr sl) (header sl) (tail sl) (length_ sl) (slevel sl) (rng sl).

Definition getNode sl x : option skipListNode := heap sl !! x.
(** [x.level[i]] *)
Definition getLevel sl x (i : nat) : option skipListLevel :=
  n ← getNode sl x; level n !! i.
(** [x.level[i] = lv] *)
Definition setLevel sl x (i : nat) (lv : skipListLevel) : option skipList :=
  n ← getNode sl x;
  _ ← level n !! i;
  Some (with_heap sl (<[x := MkNode (member n) (score n) (backward n) (<[i := lv]> (level n))]> (heap sl))).
(** [x.backward = b] *)
Definition setBackward sl x (b : option ptr) : option skipList :=
  n ← getNode sl x;
  Some (with_heap sl (<[x := MkNode (member n) (score n) b (level n)]> (heap sl))).
Definition setTail sl (t : option ptr) : skipList :=
  MkList (heap sl) (nextPtr sl) (header sl) t (length_ sl) (slevel sl) (rng sl).
(** [if next != nil { next.backward = p } else { sl.tail = p }] *)
Definition setPrev sl (next p : option ptr) : option skipList :=
  match next with
  | Some y => setBackward sl y p
  | None => Some (setTail sl p)
  end.
Definition setSLevel sl (l : nat) : skipList :=
  MkList (heap sl) (nextPtr sl) (header sl) (tail sl) (length_ sl) l (rng sl).
Definition setLength sl (n : Z) : skipList :=
  MkList (heap sl) (nextPtr sl) (header sl) (tail sl) n (slevel sl) (rng sl).
Definition setRng sl (r : R) : skipList :=
  MkList (heap sl) (nextPtr sl) (header sl) (tail sl) (length_ sl) (slevel sl) r.

Definition newSkipListNode (lvl : nat) (m : gostring) (s : float64) : skipListNode :=
  MkNode m s None (replicate lvl (MkLevel None 0)).
Definition alloc sl (n : skipListNode) : ptr * skipList :=
  (nextPtr sl, MkList (<[nextPtr sl := n]> (heap sl)) (S (nextPtr sl)) (header sl) (tail sl)
                 (length_ sl) (slevel sl) (rng sl)).

Definition newSkipListWithRand (r : R) : skipList :=
  MkList {[0 := newSkipListNode maxLevel [] float_zero]} 1 0 None 0 1 r.

(** ** Tower heights *)

(** [for sl.rng.Float64() < probability && level <= maxRandLevel { level++ }]; the
    level grows in every round, so [maxLevel] rounds are enough. *)
Fixpoint randomLoop (fuel : nat) (r : R) (lvl : nat) : nat * R :=
  let '(f, r) := Float64 r in
  match fuel with
  | O => (lvl, r)
  | S fuel => if float_ltb f probability && (lvl <=? maxRandLevel)
              then randomLoop fuel r (S lvl) else (lvl, r)
  end.
Definition randomLevel sl : nat * skipList :=
  let '(l, r) := randomLoop maxLevel (rng sl) 1 in (l, setRng sl r).

(** ** Searching *)

(** The inner loop of every search: follow the links of level [i] while the next
    node and the rank it is reached with pass the test [adv]. A level has at most
    [length_] links. *)
Fixpoint advance sl (adv : skipListNode → Z → bool) (i : nat) (fuel : nat) x (rank : Z) :
    option (ptr * Z) :=
  lv ← getLevel sl x i;
  match forward lv with
  | None => Some (x, rank)
  | Some y =>
      n ← getNode sl y;
      if adv n (rank + span lv)%Z then
        match fuel with
        | O => None
        | S fuel => advance sl adv i fuel y (rank + span lv)%Z
        end
      else Some (x, rank)
  end.
Definition fuelOf sl : nat := Z.to_nat (length_ sl).

(** The outer loop, [for i := sl.level - 1; i >= 0; i--], collecting the arrays
    [update] and [rank]: entry [i] of the result is [(update[i], rank[i])]. *)
Fixpoint descend sl (adv : skipListNode → Z → bool) (i : nat) x (rank : Z)
    (acc : list (ptr * Z)) : option (list (ptr * Z)) :=
  match i with
  | O => Some acc
  | S i =>
      '(x, rank) ← advance sl adv i (fuelOf sl) x rank;
      descend sl adv i x rank ((x, rank) :: acc)
  end.
Definition search sl adv : option (list (ptr * Z)) :=
  descend sl adv (slevel sl) (header sl) 0 [].

(** The tests of the searches: nodes before (score, member), nodes up to it, nodes
    with a smaller score. *)
Definition before (m : gostring) (s : float64) (n : skipListNode) (_ : Z) : bool :=
  float_ltb (score n) s || (float_eqb (score n) s && str_ltb (member n) m).
Definition upTo (m : gostring) (s : float64) (n : skipListNode) (_ : Z) : bool :=
  float_ltb (score n) s || (float_eqb (score n) s && bool_decide (str_le (member n) m)).
Definition belowScore (s : float64) (n : skipListNode) (_ : Z) : bool := float_ltb (score n) s.

(** ** Insertion *)

(** [for i := i0; i < i0 + todo; i++ { body(i) }] *)
Fixpoint forLevels (body : nat → skipList → option skipList) (todo : nat) (i : nat) sl :
    option skipList :=
  match todo with
  | O => Some sl
  | S todo => sl ← body i sl; forLevels body todo (S i) sl
  end.

(** [update[i] = sl.header; update[i].level[i].span = sl.length] *)
Definition raiseLevel (i : nat) sl : option skipList :=
  lv ← getLevel sl (header sl) i;
  setLevel sl (header sl) i (MkLevel (forward lv) (length_ sl)).

(** Link the new node [x] into level [i]. *)
Definition linkLevel x (ur : list (ptr * Z)) (i : nat) sl : option skipList :=
  '(_, rank0) ← ur !! 0;
  '(u, ranki) ← ur !! i;
  lv ← getLevel sl u i;
  sl ← setLevel sl x i (MkLevel (forward lv) (span lv - (rank0 - ranki)));
  setLevel sl u i (MkLevel (Some x) ((rank0 - ranki) + 1)).

(** [update[i].level[i].span++] *)
Definition bumpSpan (ur : list (ptr * Z)) (i : nat) sl : option skipList :=
  '(u, _) ← ur !! i;
  lv ← getLevel sl u i;
  setLevel sl u i (MkLevel (forward lv) (span lv + 1)).

Definition insert (m : gostring) (s : float64) sl : option (ptr * skipList) :=
  ur ← search sl (before m s);
  let '(lvl, sl) := randomLevel sl in
  '(sl, ur) ← (if slevel sl <? lvl then
                 sl' ← forLevels raiseLevel (lvl - slevel sl) (slevel sl) sl;
                 Some (setSLevel sl' lvl, ur ++ replicate (lvl - slevel sl) (header sl, 0%Z))
               else Some (sl, ur));
  let '(x, sl) := alloc sl (newSkipListNode lvl m s) in
  sl ← forLevels (linkLevel x ur) lvl 0 sl;
  sl ← forLevels (bumpSpan ur) (slevel sl - lvl) lvl sl;
  '(u0, _) ← ur !! 0;
  sl ← setBackward sl x (if decide (u0 = header sl) then None else Some u0);
  lv0 ← getLevel sl x 0;
  sl ← setPrev sl (forward lv0) (Some x);
  Some (x, setLength sl (length_ sl + 1)).

(** ** Deletion *)

Definition unlinkLevel x (ur : list (ptr * Z)) (i : nat) sl : option skipList :=
  '(u, _) ← ur !! i;
  lv ← getLevel sl u i;
  if decide (forward lv = Some x) then
    xv ← getLevel sl x i;
    setLevel sl u i (MkLevel (forward xv) (span lv + (span xv - 1)))
  else setLevel sl u i (MkLevel (forward lv) (span lv - 1)).

(** [for sl.level > 1 && sl.header.level[sl.level-1].forward == nil { sl.level-- }] *)
Fixpoint shrink (lvl : nat) sl : option nat :=
  match lvl with
  | S (S _ as l) =>
      lv ← getLevel sl (header sl) l;
      match forward lv with None => shrink l sl | Some _ => Some lvl end
  | _ => Some lvl
  end.

Definition deleteNode x (ur : list (ptr * Z)) sl : option skipList :=
  sl ← forLevels (unlinkLevel x ur) (slevel sl) 0 sl;
  lv0 ← getLevel sl x 0;
  n ← getNode sl x;
  sl ← setPrev sl (forward lv0) (backward n);
  l ← shrink (slevel sl) sl;
  Some (setLength (setSLevel sl l) (length_ sl - 1)).

(** The node after the one a search stopped at. *)
Definition afterSearch sl (ur : list (ptr * Z)) : option (option ptr) :=
  '(u0, _) ← ur !! 0;
  lv ← getLevel sl u0 0;
  Some (forward lv).

Definition delete_ (m : gostring) (s : float64) sl : option (bool * skipList) :=
  ur ← search sl (before m s);
  nx ← afterSearch sl ur;
  match nx with
  | None => Some (false, sl)
  | Some x =>
      n ← getNode sl x;
      if float_eqb (score n) s && bool_decide (member n = m) then
        sl ← deleteNode x ur sl;
        Some (true, sl)
      else Some (false, sl)
  end.

(** ** Ranks *)

Fixpoint getRankLoop sl (m : gostring) (s : float64) (desc : bool) (i : nat) x (rank : Z) : option Z :=
  match i with
  | O => Some (-1)%Z
  | S i =>
      '(x, rank) ← advance sl (upTo m s) i (fuelOf sl) x rank;
      n ← getNode sl x;
      if decide (member n = m) then
        Some (if desc then length_ sl - rank else rank - 1)%Z
      else getRankLoop sl m s desc i x rank
  end.
Definition getRank (m : gostring) (s : float64) (desc : bool) sl : option Z :=
  getRankLoop sl m s desc (slevel sl) (header sl) 0.

(** [Some None] is the nil node. *)
Fixpoint byRankLoop sl (rank : Z) (i : nat) x (traversed : Z) : option (option ptr) :=
  match i with
  | O => Some None
  | S i =>
      '(x, traversed) ← advance sl (λ _ r, r <=? rank)%Z i (fuelOf sl) x traversed;
      if (traversed =? rank)%Z then Some (Some x) else byRankLoop sl rank i x traversed
  end.
Definition getNodeByRank (rank : Z) sl : option (option ptr) :=
  if (rank <=? 0)%Z || (length_ sl <? rank)%Z then Some None
  else byRankLoop sl rank (slevel sl) (header sl) 0.

(** ** Ranges *)

(** The clamping both rank-range operations start with. *)
Definition clampRange sl (start stop : Z) : Z * Z :=
  let start := if (start <? 0)%Z then (length_ sl + start)%Z else start in
  let stop := if (stop <? 0)%Z then (length_ sl + stop)%Z else stop in
  (if (start <? 0)%Z then 0%Z else start,
   if (length_ sl <=? stop)%Z then (length_ sl - 1)%Z else stop).

Definition nextOf sl (desc : bool) x : option (option ptr) :=
  if desc then n ← getNode sl x; Some (backward n)
  else lv ← getLevel sl x 0; Some (forward lv).

(** [for i := 0; i < rangeLen && x != nil; i++] *)
Fixpoint collectN sl (desc : bool) (n : nat) (x : option ptr) : option (list ptr) :=
  match n, x with
  | S n, Some x =>
      nx ← nextOf sl desc x;
      rest ← collectN sl desc n nx;
      Some (x :: rest)
  | _, _ => Some []
  end.

Definition headOf sl : option (option ptr) := lv ← getLevel sl (header sl) 0; Some (forward lv).

(** [make([]*skipListNode, 0, n)] panics when [n] pointers exceed the address
    space (2^48 bytes on the 64-bit platforms). *)
Definition makeCap (n : Z) : option unit := if (2 ^ 45 <? n)%Z then None else Some tt.

Definition getRange (start stop : Z) (desc : bool) sl : option (list ptr) :=
  let '(start, stop) := clampRange sl start stop in
  let rangeLen := wrap64 (wrap64 (stop - start) + 1) in
  if (rangeLen <=? 0)%Z then Some []
  else
    x ← (if desc then
           if (0 <? start)%Z then getNodeByRank (length_ sl - start) sl else Some (tail sl)
         else
           if (0 <? start)%Z then getNodeByRank (wrap64 (start + 1)) sl else headOf sl);
    _ ← makeCap rangeLen;
    collectN sl desc (Z.to_nat rangeLen) x.

(** [for x != nil && test(x) { x = next(x) }]: at most [length_] rounds. *)
Fixpoint skipWhile sl (desc : bool) (test : float64 → bool) (fuel : nat) (x : option ptr) :
    option (option ptr) :=
  match x with
  | None => Some None
  | Some y =>
      n ← getNode sl y;
      if test (score n) then
        match fuel with
        | O => None
        | S fuel => nx ← nextOf sl desc y; skipWhile sl desc test fuel nx
        end
      else Some x
  end.
(** [for x != nil && test(x) { results = append(results, x); x = next(x) }] *)
Fixpoint takeWhile sl (desc : bool) (test : float64 → bool) (fuel : nat) (x : option ptr) :
    option (list ptr) :=
  match x with
  | None => Some []
  | Some y =>
      n ← getNode sl y;
      if test (score n) then
        match fuel with
        | O => None
        | S fuel =>
            nx ← nextOf sl desc y;
            rest ← takeWhile sl desc test fuel nx;
            Some (y :: rest)
        end
      else Some []
  end.

(** The inner test [x.score <= max] of the descending loop always holds there; it
    is kept as the filter of the collected nodes. *)
Definition keepScores sl (mx : float64) (xs : list ptr) : list ptr :=
  filter (λ x, match getNode sl x with Some n => float_leb (score n) mx | None => false end = true) xs.

Definition getRangeByScore (mn mx : float64) (desc : bool) sl : option (list ptr) :=
  if float_gtb mn mx then Some []
  else if desc then
    x ← skipWhile sl true (λ s, float_gtb s mx) (fuelOf sl) (tail sl);
    xs ← takeWhile sl true (λ s, float_geb s mn) (fuelOf sl) x;
    Some (keepScores sl mx xs)
  else
    h ← headOf sl;
    x ← skipWhile sl false (λ s, float_ltb s mn) (fuelOf sl) h;
    takeWhile sl false (λ s, float_leb s mx) (fuelOf sl) x.

Definition count (mn mx : float64) sl : option Z :=
  if float_gtb mn mx then Some 0%Z
  else
    h ← headOf sl;
    x ← skipWhile sl false (λ s, float_ltb s mn) (fuelOf sl) h;
    xs ← takeWhile sl false (λ s, float_leb s mx) (fuelOf sl) x;
    Some (Z.of_nat (length xs)).

(** The deletion loop of both range removals: [test] sees the node and how many
    nodes were deleted so far. *)
Fixpoint deleteLoop (fuel : nat) (test : skipListNode → Z → bool) (ur : list (ptr * Z))
    (x : option ptr) (deleted : Z) sl : option (Z * skipList) :=
  match x with
  | None => Some (deleted, sl)
  | Some y =>
      n ← getNode sl y;
      if test n deleted then
        match fuel with
        | O => None
        | S fuel =>
            lv ← getLevel sl y 0;
            sl ← deleteNode y ur sl;
            deleteLoop fuel test ur (forward lv) (deleted + 1) sl
        end
      else Some (deleted, sl)
  end.

Definition deleteRangeByRank (start stop : Z) sl : option (Z * skipList) :=
  let '(start, stop) := clampRange sl start stop in
  if (stop <? start)%Z || (length_ sl =? 0)%Z then Some (0%Z, sl)
  else
    ur ← search sl (λ _ r, r <? start + 1)%Z;
    '(_, traversed) ← ur !! 0;
    x ← afterSearch sl ur;
    deleteLoop (fuelOf sl) (λ _ deleted, traversed + deleted <? stop + 1)%Z ur x 0 sl.

Definition deleteRangeByScore (mn mx : float64) sl : option (Z * skipList) :=
  if float_gtb mn mx then Some (0%Z, sl)
  else
    ur ← search sl (belowScore mn);
    x ← afterSearch sl ur;
    deleteLoop (fuelOf sl) (λ n _, float_leb (score n) mx) ur x 0 sl.

(** ** Whole list *)

(** [getScore]: a walk over level 0. *)
Fixpoint scoreLoop sl (m : gostring) (fuel : nat) (x : option ptr) : option (option float64) :=
  match x with
  | None => Some None
  | Some y =>
      n ← getNode sl y;
      if decide (member n = m) then Some (Some (score n))
      else match fuel with
           | O => None
           | S fuel => nx ← nextOf sl false y; scoreLoop sl m fuel nx
           end
  end.
Definition getScore (m : gostring) sl : option (option float64) :=
  h ← headOf sl; scoreLoop sl m (fuelOf sl) h.

(** [clear]: a new header; the old nodes are garbage. *)
Definition clear sl : skipList :=
  let '(h, sl) := alloc sl (newSkipListNode maxLevel [] float_zero) in
  MkList (heap sl) (nextPtr sl) h None 0 1 (rng sl).

End SkipList.
End SkipList.
