(* ===== verification/SkipListFacts.v ===== *)
(** * The skip list represents a sequence

    [rep sl ns] says that the linked structure of [sl] is the sequence [ns] of
    nodes: on every level of a tower the forward link goes to the next node that is
    tall enough and the span counts the nodes it jumps over. Every operation is
    shown to succeed and to act on the sequence as expected. *)

From stdpp Require Import options.
From S2P Require Import Prelude GoStrings GoNumbers SkipList.
Import SkipList.

Record anode := MkA { a_ptr : nat; a_member : gostring; a_score : float64; a_height : nat }.

Definition low (i : nat) (a : anode) : Prop := a_height a ≤ i.

(** The forward link and the span of level [i] in front of the nodes [l]. *)
Fixpoint fwd (i : nat) (l : list anode) : option nat :=
  match l with
  | [] => None
  | a :: l => if i <? a_height a then Some (a_ptr a) else fwd i l
  end.
Fixpoint spn (i : nat) (l : list anode) : Z :=
  match l with
  | [] => 0
  | a :: l => if i <? a_height a then 1 else 1 + spn i l
  end.

Section towers.
Implicit Types (l : list anode) (a b : anode) (i : nat).

Lemma low_or_hit i l :
  Forall (low i) l ∨ ∃ l1 b l2, l = l1 ++ b :: l2 ∧ Forall (low i) l1 ∧ i < a_height b.
Proof.
  induction l as [|a l IH]; [by left|]. destruct (decide (i < a_height a)).
  - right. by exists [], a, l.
  - destruct IH as [?|(l1 & b & l2 & -> & Hl & Hb)].
    + left. constructor; [unfold low; lia|done].
    + right. exists (a :: l1), b, l2. split; [done|]. split; [|done]. constructor; [unfold low; lia|done].
Qed.

Lemma fwd_low i l1 l2 : Forall (low i) l1 →
  fwd i (l1 ++ l2) = fwd i l2 ∧ spn i (l1 ++ l2) = (Z.of_nat (length l1) + spn i l2)%Z.
Proof.
  induction 1 as [|a l Ha Hl [IH1 IH2]]; [done|]. unfold low in Ha. simpl.
  rewrite (proj2 (Nat.ltb_ge i _)) by done. split; [done|]. rewrite IH2. lia.
Qed.

Lemma fwd_here i b l : i < a_height b → fwd i (b :: l) = Some (a_ptr b) ∧ spn i (b :: l) = 1%Z.
Proof. intros Hb. simpl. by rewrite (proj2 (Nat.ltb_lt i _)). Qed.

Lemma fwd_hit i l1 b l2 : Forall (low i) l1 → i < a_height b →
  fwd i (l1 ++ b :: l2) = Some (a_ptr b) ∧ spn i (l1 ++ b :: l2) = (Z.of_nat (length l1) + 1)%Z.
Proof.
  intros Hl Hb. destruct (fwd_low i l1 (b :: l2) Hl) as [-> ->].
  by destruct (fwd_here i b l2 Hb) as [-> ->].
Qed.

(** What follows the first node that is tall enough does not matter. *)
Lemma fwd_stable i b l1 l2 k k' : i < a_height b →
  fwd i ((l1 ++ b :: l2) ++ k) = fwd i ((l1 ++ b :: l2) ++ k') ∧
  spn i ((l1 ++ b :: l2) ++ k) = spn i ((l1 ++ b :: l2) ++ k').
Proof.
  intros Hb. induction l1 as [|a l1 [IH1 IH2]]; simpl.
  - by rewrite (proj2 (Nat.ltb_lt i _)).
  - case_match; [done|]. by rewrite IH1, IH2.
Qed.

Lemma fwd_none_low i l : fwd i l = None ↔ Forall (low i) l.
Proof.
  split.
  - induction l as [|a l IH]; simpl; [constructor|]. case_match; unbool; [done|].
    intros ?. constructor; [unfold low; lia|auto].
  - intros Hl. destruct (fwd_low i l [] Hl) as [E _]. by rewrite app_nil_r in E.
Qed.

Lemma fwd_elem i l p : fwd i l = Some p → p ∈ a_ptr <$> l.
Proof. induction l as [|a l IH]; simpl; [done|]. case_match; [intros [= <-]; left|right; auto]. Qed.

(** Where level [i] is left when walking through [L]: the last node that is tall
    enough. *)
Definition cut (i : nat) (L P : list anode) (b : anode) (Q : list anode) : Prop :=
  L = P ++ b :: Q ∧ i < a_height b ∧ Forall (low i) Q.

(** A tall node is the last one or comes before it. *)
Lemma cut_cases i L P b Q pre a post :
  cut i L P b Q → L = pre ++ a :: post → i < a_height a →
  (pre = P ∧ a = b ∧ post = Q) ∨ ∃ post1, post = post1 ++ b :: Q.
Proof.
  intros (HL & Hb & HQ) HL' Ha. rewrite HL in HL'. clear HL L. revert P HL'.
  induction pre as [|c pre IH]; intros P HL'.
  - destruct P as [|c' P]; simplify_eq/=; [by left|]. right. by exists P.
  - destruct P as [|c' P]; simplify_eq/=.
    + exfalso. rewrite Forall_app, Forall_cons in HQ. destruct HQ as (_ & HQ & _). unfold low in HQ. lia.
    + destruct (IH P) as [(-> & -> & ->)|[post1 ->]]; [done|by left|]. right. by exists post1.
Qed.

Lemma cut_zero L P b Q : cut 0 L P b Q → Forall (λ a, 1 ≤ a_height a) L → Q = [].
Proof.
  intros (-> & _ & HQ) HL. destruct Q as [|c Q]; [done|]. exfalso.
  rewrite Forall_app, !Forall_cons in HL. rewrite Forall_cons in HQ. unfold low in HQ. lia.
Qed.
End towers.

Lemma app_mid_inv {X} (l k pre post : list X) a : l ++ k = pre ++ a :: post →
  (∃ p1, l = pre ++ a :: p1 ∧ post = p1 ++ k) ∨ (∃ k1, k = k1 ++ a :: post ∧ pre = l ++ k1).
Proof.
  revert pre. induction l as [|x l IH]; intros pre E; simpl in *.
  - right. by exists pre.
  - destruct pre as [|y pre]; simplify_eq/=.
    + left. by exists l.
    + destruct (IH pre) as [(p1 & -> & ->)|(k1 & -> & ->)]; [done|left; by exists p1|right; by exists k1].
Qed.

Lemma app_mid_inv3 {X} (l k pre post : list X) x a : l ++ x :: k = pre ++ a :: post →
  (∃ p1, l = pre ++ a :: p1 ∧ post = p1 ++ x :: k) ∨ (pre = l ∧ a = x ∧ post = k) ∨
  (∃ k1, k = k1 ++ a :: post ∧ pre = l ++ x :: k1).
Proof.
  intros [?|([|y k1] & E & ->)]%app_mid_inv; [by left|..]; simplify_eq/=; right.
  - left. by rewrite app_nil_r.
  - right. by exists k1.
Qed.

Lemma last_app_ne {X} (l k : list X) c : last (l ++ c :: k) = last (c :: k).
Proof. rewrite last_app, last_cons. by destruct (last k). Qed.

Section facts.
Context {R : Type} `{!levelRNG R}.
Implicit Types (sl : skipList (R:=R)) (ns A B : list anode) (a b : anode).

(** ** Views of the memory *)

Definition shape sl (x : nat) : option (gostring * float64 * option nat * nat) :=
  (λ n, (member n, score n, backward n, length (level n))) <$> heap sl !! x.
Definition meta sl := (nextPtr sl, header sl, tail sl, length_ sl, slevel sl, rng sl).

Lemma getLevel_shape sl x m s bw h i : shape sl x = Some (m, s, bw, h) →
  is_Some (getLevel sl x i) ↔ i < h.
Proof.
  unfold shape, getLevel, getNode. destruct (heap sl !! x) as [n|]; simpl; [|done].
  intros [= _ _ _ <-]. apply lookup_lt_is_Some.
Qed.

Lemma setLevel_ok sl x i lv : is_Some (getLevel sl x i) → ∃ sl',
  setLevel sl x i lv = Some sl' ∧ meta sl' = meta sl ∧ (∀ y, shape sl' y = shape sl y) ∧
  ∀ y j, getLevel sl' y j = if decide (y = x ∧ j = i) then Some lv else getLevel sl y j.
Proof.
  unfold getLevel, getNode, setLevel, getNode, shape. intros [lv0 Hlv].
  destruct (heap sl !! x) as [n|] eqn:En; simpl in *; [|done]. rewrite Hlv. simpl.
  eexists. split; [done|]. split; [done|]. split.
  - intros y. simpl. destruct (decide (y = x)) as [->|Hy].
    + rewrite lookup_insert_eq, En. simpl. by rewrite length_insert.
    + by rewrite lookup_insert_ne.
  - intros y j. simpl. destruct (decide (y = x)) as [->|Hy].
    + rewrite lookup_insert_eq, En. simpl. destruct (decide (j = i)) as [->|Hj].
      * rewrite decide_True by done. apply list_lookup_insert_eq. by eapply lookup_lt_Some.
      * rewrite decide_False by naive_solver. by apply list_lookup_insert_ne.
    + rewrite lookup_insert_ne by done. by rewrite decide_False by naive_solver.
Qed.

Lemma setBackward_ok sl x (bw : option nat) m s (b0 : option nat) h : shape sl x = Some (m, s, b0, h) → ∃ sl',
  setBackward sl x bw = Some sl' ∧ meta sl' = meta sl ∧
  (∀ y, shape sl' y = if decide (y = x) then Some (m, s, bw, h) else shape sl y) ∧
  ∀ y j, getLevel sl' y j = getLevel sl y j.
Proof.
  unfold getLevel, getNode, setBackward, getNode, shape. intros Hs.
  destruct (heap sl !! x) as [n|] eqn:En; simpl in *; [|done]. simplify_eq.
  eexists. split; [done|]. split; [done|]. split; [intros y|intros y j]; simpl;
    (destruct (decide (y = x)) as [->|Hy]; [by rewrite lookup_insert_eq, ?En|by rewrite lookup_insert_ne]).
Qed.

(** A loop over levels whose body rewrites level [i] and nothing else, as [F]
    says. *)
Lemma forLevels_ok (body : nat → skipList → option skipList) (F : nat → nat → option skipListLevel)
    todo i sl0 sl :
  (∀ j sl, i ≤ j < i + todo → meta sl = meta sl0 → (∀ y, shape sl y = shape sl0 y) →
     (∀ y, getLevel sl y j = getLevel sl0 y j) →
     ∃ sl', body j sl = Some sl' ∧ meta sl' = meta sl ∧ (∀ y, shape sl' y = shape sl y) ∧
       ∀ y k, getLevel sl' y k = if decide (k = j) then F y j else getLevel sl y k) →
  meta sl = meta sl0 → (∀ y, shape sl y = shape sl0 y) →
  (∀ y j, i ≤ j → getLevel sl y j = getLevel sl0 y j) →
  ∃ sl', forLevels body todo i sl = Some sl' ∧ meta sl' = meta sl0 ∧ (∀ y, shape sl' y = shape sl0 y) ∧
    ∀ y j, getLevel sl' y j = if decide (i ≤ j < i + todo) then F y j else getLevel sl y j.
Proof.
  revert i sl. induction todo as [|todo IH]; intros i sl Hbody Hm Hs Hl; simpl.
  - exists sl. split; [done|]. split; [done|]. split; [done|]. intros y j. by rewrite decide_False by lia.
  - destruct (Hbody i sl) as (sl1 & -> & Hm1 & Hs1 & Hl1); [lia|done..|intros y; by apply Hl|].
    simpl. destruct (IH (S i) sl1) as (sl2 & -> & Hm2 & Hs2 & Hl2).
    + intros j sl' Hj. apply Hbody. lia.
    + congruence.
    + intros y. by rewrite Hs1.
    + intros y j Hj. rewrite Hl1, decide_False by lia. apply Hl. lia.
    + exists sl2. split; [done|]. split; [done|]. split; [done|]. intros y j. rewrite Hl2.
      destruct (decide (i = j)) as [->|].
      * rewrite decide_False by lia. rewrite decide_True by lia. by rewrite Hl1, decide_True.
      * destruct (decide (S i ≤ j < S i + todo)); [by rewrite decide_True by lia|].
        rewrite decide_False by lia. by rewrite Hl1, decide_False.
Qed.

(** ** The representation *)

Definition hd_node sl : anode := MkA (header sl) [] float_zero maxLevel.

Definition node_ok sl (pre : list anode) a (post : list anode) : Prop :=
  shape sl (a_ptr a) = Some (a_member a, a_score a, a_ptr <$> last (list.tail pre), a_height a) ∧
  ∀ i, i < a_height a → ∃ s,
    getLevel sl (a_ptr a) i = Some (MkLevel (fwd i post) s) ∧ (i < slevel sl → s = spn i post).

Record rep sl ns : Prop := {
  rep_nodes pre a post : hd_node sl :: ns = pre ++ a :: post → node_ok sl pre a post;
  rep_nodup : NoDup (a_ptr <$> hd_node sl :: ns);
  rep_heights : Forall (λ a, 1 ≤ a_height a ≤ slevel sl) ns;
  rep_level : 1 ≤ slevel sl ≤ maxLevel;
  rep_fresh x : nextPtr sl ≤ x → shape sl x = None;
  rep_length : length_ sl = Z.of_nat (length ns);
  rep_tail : tail sl = a_ptr <$> last ns;
}.

Lemma rep_node sl ns a : rep sl ns → a ∈ ns → ∃ n, getNode sl (a_ptr a) = Some n ∧
  member n = a_member a ∧ score n = a_score a.
Proof.
  intros Hr (pre & post & ->)%list_elem_of_split.
  destruct (rep_nodes _ _ Hr (hd_node sl :: pre) a post eq_refl) as [Hs _].
  unfold shape, getNode in *. destruct (heap sl !! a_ptr a) as [n|]; [|done]. exists n.
  simpl in Hs. by simplify_eq.
Qed.

Lemma rep_heights_hd sl ns : rep sl ns → Forall (λ a, 1 ≤ a_height a) (hd_node sl :: ns).
Proof.
  intros Hr. constructor; [simpl; unfold maxLevel; lia|].
  eapply Forall_impl; [apply (rep_heights _ _ Hr)|]. simpl. lia.
Qed.

Lemma rep_new (r : R) : rep (newSkipListWithRand r) [].
Proof.
  split.
  - intros pre a post E. destruct pre as [|? [|]]; simplify_eq/=. split; [done|].
    intros i Hi. exists 0%Z. split; [|done]. unfold getLevel, getNode, newSkipListWithRand. simpl.
    rewrite lookup_singleton_eq. simpl. apply (lookup_replicate_2 maxLevel). exact Hi.
  - apply NoDup_singleton.
  - constructor.
  - unfold maxLevel. simpl. lia.
  - simpl. intros x Hx. unfold shape. simpl. by rewrite lookup_singleton_ne by lia.
  - done.
  - done.
Qed.

(** ** Searching *)

(** The test stops after [A]: it holds for its nodes and their ranks only. *)
Definition stops_after sl ns A (adv : skipListNode → Z → bool) : Prop :=
  ∀ pre a post n, hd_node sl :: ns = pre ++ a :: post → pre ≠ [] →
    member n = a_member a → score n = a_score a →
    adv n (Z.of_nat (length pre)) = bool_decide (length pre ≤ length A).

Lemma advance_ok sl A B adv i fuel pre a post :
  rep sl (A ++ B) → stops_after sl (A ++ B) A adv →
  hd_node sl :: A = pre ++ a :: post → i < a_height a → i < slevel sl → length post ≤ fuel →
  ∃ P b Q, cut i (hd_node sl :: A) P b Q ∧
    advance sl adv i fuel (a_ptr a) (Z.of_nat (length pre)) = Some (a_ptr b, Z.of_nat (length P)).
Proof.
  intros Hr Hadv. revert pre a post.
  induction fuel as [fuel IH] using lt_wf_ind; intros pre a post E Ha Hi Hf.
  assert (hd_node sl :: A ++ B = pre ++ a :: post ++ B) as E'.
  { rewrite app_comm_cons, E, <- app_assoc. done. }
  destruct (rep_nodes _ _ Hr _ _ _ E') as [_ Hlv]. destruct (Hlv i Ha) as (s & Hg & Hs).
  rewrite (Hs Hi) in Hg. clear Hs Hlv.
  assert (Hnext : ∀ c k1 k2, post ++ B = k1 ++ c :: k2 → Forall (low i) k1 → i < a_height c →
    ∃ n, getNode sl (a_ptr c) = Some n ∧ fwd i (post ++ B) = Some (a_ptr c) ∧
      adv n (Z.of_nat (length pre) + spn i (post ++ B))%Z =
        bool_decide (length (pre ++ a :: k1) ≤ length A)).
  { intros c k1 k2 Ek Hk Hc. destruct (rep_node sl (A ++ B) c Hr) as (n & Hn & Hm & Hsc).
    { rewrite Ek in E'. clear -E'. destruct pre as [|x pre]; injection E' as _ ->; set_solver. }
    exists n. split; [done|]. rewrite Ek. destruct (fwd_hit i k1 c k2 Hk Hc) as [-> ->]. split; [done|].
    rewrite <- (Hadv (pre ++ a :: k1) c k2 n); [|by rewrite E', Ek, <- app_assoc|by destruct pre|done..].
    f_equal. rewrite length_app. simpl. lia. }
  assert (Hlen : length A = length pre + length post).
  { apply (f_equal length) in E. rewrite length_app in E. simpl in E. lia. }
  destruct (low_or_hit i post) as [Hlow|(k1 & c & k2 & -> & Hk & Hc)].
  - exists pre, a, post. split; [done|]. destruct fuel; simpl; rewrite Hg; simpl.
    all: destruct (low_or_hit i B) as [HB|(k1 & c & k2 & -> & Hk & Hc)];
      [by rewrite (proj2 (fwd_none_low _ _)) by by apply Forall_app|].
    all: destruct (Hnext c (post ++ k1) k2) as (n & Hn & -> & Ea);
      [by rewrite <- app_assoc|by apply Forall_app|done|].
    all: rewrite Hn; simpl; rewrite Ea, bool_decide_false; [done|].
    all: rewrite length_app; simpl; rewrite length_app; lia.
  - destruct (Hnext c k1 (k2 ++ B)) as (n & Hn & Ef & Ea); [by rewrite <- app_assoc|done..|].
    rewrite Ef in Hg. rewrite bool_decide_true in Ea.
    2: { rewrite Hlen, !length_app. simpl. lia. }
    rewrite length_app in Hf. simpl in Hf.
    destruct fuel as [|fuel]; [lia|]. simpl. rewrite Hg. simpl. rewrite Hn. simpl. rewrite Ea.
    destruct (IH fuel ltac:(lia) (pre ++ a :: k1) c k2) as (P & b & Q & Hcut & Hadvance).
    + by rewrite E, <- app_assoc.
    + done.
    + done.
    + lia.
    + exists P, b, Q. split; [done|]. rewrite <- Hadvance. f_equal. rewrite <- app_assoc.
      simpl. destruct (fwd_hit i k1 c (k2 ++ B) Hk Hc) as [_ ->]. rewrite length_app. simpl. lia.
Qed.

Definition cuts sl A (ur : list (nat * Z)) : Prop :=
  ∀ i, i < slevel sl → ∃ P b Q, cut i (hd_node sl :: A) P b Q ∧ ur !! i = Some (a_ptr b, Z.of_nat (length P)).

Lemma descend_ok sl A B adv i pre a post acc :
  rep sl (A ++ B) → stops_after sl (A ++ B) A adv →
  hd_node sl :: A = pre ++ a :: post → i ≤ a_height a → i ≤ slevel sl →
  ∃ ur, descend sl adv i (a_ptr a) (Z.of_nat (length pre)) acc = Some (ur ++ acc) ∧ length ur = i ∧
    ∀ j, j < i → ∃ P b Q, cut j (hd_node sl :: A) P b Q ∧ ur !! j = Some (a_ptr b, Z.of_nat (length P)).
Proof.
  intros Hr Hadv. revert pre a post acc. induction i as [|i IH]; intros pre a post acc E Ha Hi; simpl.
  { exists []. split; [done|]. split; [done|]. lia. }
  destruct (advance_ok sl A B adv i (fuelOf sl) pre a post) as (P & b & Q & Hcut & ->); [done|done|done|lia|lia|..].
  { unfold fuelOf. rewrite (rep_length _ _ Hr), Nat2Z.id. apply (f_equal length) in E.
    rewrite length_app in E. rewrite length_app. simpl in E. lia. }
  simpl. destruct Hcut as (E' & Hb & HQ).
  destruct (IH P b Q ((a_ptr b, Z.of_nat (length P)) :: acc)) as (ur & -> & Hlen & Hur); [done|lia|lia|].
  exists (ur ++ [(a_ptr b, Z.of_nat (length P))]). split; [by rewrite <- app_assoc|].
  split; [rewrite length_app; simpl; lia|]. intros j Hj. destruct (decide (j = i)) as [->|Hne].
  - exists P, b, Q. split; [done|]. rewrite lookup_app_r by lia. rewrite Hlen, Nat.sub_diag. done.
  - destruct (Hur j) as (P' & b' & Q' & Hc & Hl); [lia|]. exists P', b', Q'. split; [done|].
    rewrite lookup_app_l by lia. done.
Qed.

Lemma search_ok sl A B adv : rep sl (A ++ B) → stops_after sl (A ++ B) A adv →
  ∃ ur, search sl adv = Some ur ∧ length ur = slevel sl ∧ cuts sl A ur.
Proof.
  intros Hr Hadv. destruct (descend_ok sl A B adv (slevel sl) [] (hd_node sl) A []) as (ur & E & Hlen & Hur);
    [done..|apply (rep_level _ _ Hr)|done|].
  exists ur. rewrite app_nil_r in E. by split.
Qed.

(** On the lowest level the search stops at the last node of [A]. *)
Lemma cuts_zero sl A B ur : rep sl (A ++ B) → cuts sl A ur → ∃ P b,
  hd_node sl :: A = P ++ [b] ∧ ur !! 0 = Some (a_ptr b, Z.of_nat (length A)).
Proof.
  intros Hr Hc. destruct (Hc 0) as (P & b & Q & Hcut & E); [pose proof (rep_level _ _ Hr); lia|].
  assert (Q = []) as ->.
  { apply (cut_zero _ _ _ _ Hcut). pose proof (rep_heights_hd _ _ Hr) as H.
    rewrite app_comm_cons, Forall_app in H. apply H. }
  destruct Hcut as (EL & _). exists P, b. split; [done|]. rewrite E. do 2 f_equal.
  apply (f_equal length) in EL. rewrite length_app in EL. simpl in EL. lia.
Qed.

Lemma afterSearch_ok sl A B ur : rep sl (A ++ B) → cuts sl A ur →
  afterSearch sl ur = Some (a_ptr <$> head B).
Proof.
  intros Hr Hc. destruct (cuts_zero _ _ _ _ Hr Hc) as (P & b & E & E0). unfold afterSearch.
  rewrite E0. simpl. destruct (rep_nodes _ _ Hr P b B) as [_ Hlv].
  { by rewrite app_comm_cons, E, <- app_assoc. }
  pose proof (rep_heights_hd _ _ Hr) as HB. rewrite app_comm_cons, E, !Forall_app in HB.
  destruct HB as [[_ Hb] HB]. apply (Forall_singleton (λ a, 1 ≤ a_height a)) in Hb.
  destruct (Hlv 0) as (s & -> & _); [lia|]. simpl. f_equal. destruct B as [|c B]; [done|].
  apply Forall_cons in HB as [Hc' _]. by destruct (fwd_here 0 c B) as [-> _].
Qed.

(** ** Random heights *)

Lemma randomLoop_range fuel (r : R) lvl : 1 ≤ lvl ≤ maxLevel → 1 ≤ (randomLoop fuel r lvl).1 ≤ maxLevel.
Proof.
  revert r lvl. induction fuel as [|fuel IH]; intros r lvl Hl; simpl;
    destruct (Float64 r) as [f r']; simpl; [done|].
  case_match; unbool; [|done]. apply IH. unfold maxRandLevel in *. lia.
Qed.

(** ** Insertion *)

Lemma meta_eq sl sl' : meta sl' = meta sl → nextPtr sl' = nextPtr sl ∧ header sl' = header sl ∧
  tail sl' = tail sl ∧ length_ sl' = length_ sl ∧ slevel sl' = slevel sl ∧ rng sl' = rng sl.
Proof. unfold meta. by intros [= -> -> -> -> -> ->]. Qed.

Lemma rep_setRng sl ns r : rep sl ns → rep (setRng sl r) ns.
Proof. intros [????? ? ?]. split; done. Qed.

(** The value [raiseLevel] gives to every link of level [j]. *)
Definition raiseF sl (y j : nat) : option skipListLevel :=
  if decide (y = header sl) then (λ lv, MkLevel (forward lv) (length_ sl)) <$> getLevel sl y j
  else getLevel sl y j.

Lemma raise_ok sl A B ur lvl :
  rep sl (A ++ B) → cuts sl A ur → length ur = slevel sl → slevel sl ≤ lvl ≤ maxLevel →
  ∃ sl', forLevels raiseLevel (lvl - slevel sl) (slevel sl) sl = Some sl' ∧
    rep (setSLevel sl' lvl) (A ++ B) ∧
    cuts (setSLevel sl' lvl) A (ur ++ replicate (lvl - slevel sl) (header sl, 0%Z)) ∧
    meta sl' = meta sl.
Proof.
  intros Hr Hc Hur Hlvl.
  assert (Hhd : ∀ j, j < maxLevel → ∃ s, getLevel sl (header sl) j = Some (MkLevel (fwd j (A ++ B)) s)).
  { intros j Hj. destruct (rep_nodes _ _ Hr [] (hd_node sl) (A ++ B) eq_refl) as [_ H].
    destruct (H j Hj) as (s & E & _). by exists s. }
  destruct (forLevels_ok raiseLevel (raiseF sl) (lvl - slevel sl) (slevel sl) sl sl)
    as (sl' & E & Hm & Hs & Hl); [|done..|].
  { intros j sl1 Hj Hm Hs Hl. apply meta_eq in Hm as (_ & Hh & _ & Hlen & _ & _).
    unfold raiseLevel. rewrite Hh, Hlen. destruct (Hhd j) as [s Ej]; [lia|]. rewrite Hl, Ej. simpl.
    destruct (setLevel_ok sl1 (header sl) j (MkLevel (fwd j (A ++ B)) (length_ sl)))
      as (sl2 & -> & Hm2 & Hs2 & Hl2); [by rewrite Hl, Ej|].
    exists sl2. split; [done|]. split; [done|]. split; [done|]. intros y k. rewrite Hl2.
    unfold raiseF. destruct (decide (k = j)) as [->|].
    - destruct (decide (y = header sl)) as [->|].
      + by rewrite decide_True, Ej.
      + by rewrite decide_False by naive_solver.
    - by rewrite decide_False by naive_solver. }
  exists sl'. split; [done|]. apply meta_eq in Hm as HM. destruct HM as (Hn & Hh & Ht & Hlen & Hlev & _).
  pose proof (rep_heights _ _ Hr) as Hhts.
  split; [|split; [|done]].
  - split.
    + intros pre a post Epre. unfold hd_node in Epre. simpl in Epre. rewrite Hh in Epre.
      destruct (rep_nodes _ _ Hr pre a post Epre) as [Hsh Hlv]. split.
      { change (shape sl' (a_ptr a) = Some (a_member a, a_score a, a_ptr <$> last (list.tail pre), a_height a)).
        by rewrite Hs. }
      intros i Hi. destruct (Hlv i Hi) as (s & Es & Hspan).
      change (∃ s, getLevel sl' (a_ptr a) i = Some (MkLevel (fwd i post) s) ∧ (i < lvl → s = spn i post)).
      rewrite Hl. destruct (decide (slevel sl ≤ i < slevel sl + (lvl - slevel sl))) as [Hin|Hout].
      * assert (pre = [] ∧ a = hd_node sl ∧ post = A ++ B) as (-> & -> & ->).
        { destruct pre as [|c pre]; [by injection Epre as <- <-|]. exfalso. injection Epre as _ Epre.
          rewrite Epre, Forall_app, Forall_cons in Hhts. lia. }
        exists (length_ sl). unfold raiseF. simpl in Es. simpl.
        rewrite decide_True, Es by done. simpl. split; [done|]. intros _.
        assert (Forall (low i) (A ++ B)) as Hlow.
        { eapply Forall_impl; [exact Hhts|]. unfold low. simpl. lia. }
        destruct (fwd_low i (A ++ B) [] Hlow) as [_ Hsp]. rewrite app_nil_r in Hsp.
        rewrite Hsp, (rep_length _ _ Hr). simpl. lia.
      * exists s. split; [done|]. intros ?. apply Hspan. lia.
    + unfold hd_node. simpl. rewrite Hh. apply (rep_nodup _ _ Hr).
    + eapply Forall_impl; [exact Hhts|]. simpl. lia.
    + simpl. pose proof (rep_level _ _ Hr). lia.
    + intros y Hy. simpl in Hy. rewrite Hn in Hy. pose proof (rep_fresh _ _ Hr y Hy) as Hf.
      rewrite <- Hs in Hf. exact Hf.
    + simpl. rewrite Hlen. apply (rep_length _ _ Hr).
    + simpl. rewrite Ht. apply (rep_tail _ _ Hr).
  - intros j Hj. simpl in Hj. unfold hd_node. simpl. rewrite Hh. destruct (decide (j < slevel sl)) as [Hlt|Hge].
    + destruct (Hc j Hlt) as (P & b & Q & Hcut & Ej). exists P, b, Q. split; [done|].
      by rewrite lookup_app_l by lia.
    + exists [], (hd_node sl), A. split.
      * split; [done|]. split; [simpl; lia|]. apply Forall_app in Hhts as [HA _].
        eapply Forall_impl; [exact HA|]. unfold low. simpl. lia.
      * rewrite lookup_app_r by lia. apply lookup_replicate_2. lia.
Qed.

(** The values of [linkLevel] and [bumpSpan]. *)
Definition linkF sl (x : nat) (ur : list (nat * Z)) (r0 : Z) (y j : nat) : option skipListLevel :=
  '(u, rj) ← ur !! j;
  lv ← getLevel sl u j;
  if decide (y = x) then Some (MkLevel (forward lv) (span lv - (r0 - rj)))
  else if decide (y = u) then Some (MkLevel (Some x) (r0 - rj + 1))
  else getLevel sl y j.
Definition bumpF sl (ur : list (nat * Z)) (y j : nat) : option skipListLevel :=
  '(u, _) ← ur !! j;
  lv ← getLevel sl u j;
  if decide (y = u) then Some (MkLevel (forward lv) (span lv + 1)) else getLevel sl y j.

Lemma link_ok sl x ur u0 r0 lvl :
  ur !! 0 = Some (u0, r0) →
  (∀ j, j < lvl → is_Some (getLevel sl x j) ∧
     ∃ u r, ur !! j = Some (u, r) ∧ u ≠ x ∧ is_Some (getLevel sl u j)) →
  ∃ sl', forLevels (linkLevel x ur) lvl 0 sl = Some sl' ∧ meta sl' = meta sl ∧
    (∀ y, shape sl' y = shape sl y) ∧
    ∀ y j, getLevel sl' y j = if decide (j < lvl) then linkF sl x ur r0 y j else getLevel sl y j.
Proof.
  intros E0 Hok. destruct (forLevels_ok (linkLevel x ur) (linkF sl x ur r0) lvl 0 sl sl)
    as (sl' & E & Hm & Hs & Hl); [|done..|].
  - intros j sl1 Hj Hm Hs Hl. destruct (Hok j) as (Hx & u & r & Ej & Hux & [lv Hu]); [lia|].
    unfold linkLevel. rewrite E0. simpl. rewrite Ej. simpl. rewrite Hl, Hu. simpl.
    destruct (setLevel_ok sl1 x j (MkLevel (forward lv) (span lv - (r0 - r))))
      as (sl2 & -> & Hm2 & Hs2 & Hl2); [by rewrite Hl|]. simpl.
    destruct (setLevel_ok sl2 u j (MkLevel (Some x) (r0 - r + 1)))
      as (sl3 & -> & Hm3 & Hs3 & Hl3).
    { rewrite Hl2, decide_False by naive_solver. by rewrite Hl, Hu. }
    exists sl3. split; [done|]. split; [congruence|]. split; [intros y; by rewrite Hs3|].
    intros y k. rewrite Hl3, Hl2. unfold linkF. rewrite Ej. simpl. rewrite Hu. simpl.
    destruct (decide (k = j)) as [->|]; [|by rewrite !decide_False by naive_solver].
    destruct (decide (y = x)) as [->|].
    + rewrite decide_False by naive_solver. by rewrite decide_True.
    + destruct (decide (y = u)) as [->|]; [by rewrite decide_True|].
      by rewrite !decide_False by naive_solver.
  - exists sl'. split; [done|]. split; [done|]. split; [done|]. intros y j. rewrite Hl.
    destruct (decide (j < lvl)); [by rewrite decide_True by lia|by rewrite decide_False by lia].
Qed.

Lemma bump_ok sl ur lvl todo :
  (∀ j, lvl ≤ j < lvl + todo → ∃ u r, ur !! j = Some (u, r) ∧ is_Some (getLevel sl u j)) →
  ∃ sl', forLevels (bumpSpan ur) todo lvl sl = Some sl' ∧ meta sl' = meta sl ∧
    (∀ y, shape sl' y = shape sl y) ∧
    ∀ y j, getLevel sl' y j = if decide (lvl ≤ j < lvl + todo) then bumpF sl ur y j else getLevel sl y j.
Proof.
  intros Hok. apply forLevels_ok; [|done..].
  intros j sl1 Hj Hm Hs Hl. destruct (Hok j) as (u & r & Ej & [lv Hu]); [lia|].
  unfold bumpSpan. rewrite Ej. simpl. rewrite Hl, Hu. simpl.
  destruct (setLevel_ok sl1 u j (MkLevel (forward lv) (span lv + 1)))
    as (sl2 & -> & Hm2 & Hs2 & Hl2); [by rewrite Hl, Hu|].
  exists sl2. split; [done|]. split; [done|]. split; [done|]. intros y k. rewrite Hl2.
  unfold bumpF. rewrite Ej. simpl. rewrite Hu. simpl.
  destruct (decide (k = j)) as [->|]; [|by rewrite decide_False by naive_solver].
  destruct (decide (y = u)) as [->|]; [by rewrite decide_True|by rewrite decide_False by naive_solver].
Qed.

(** Two decompositions at the same pointer are the same. *)
Lemma ptr_unique ns pre a post pre' a' post' :
  NoDup (a_ptr <$> ns) → ns = pre ++ a :: post → ns = pre' ++ a' :: post' → a_ptr a = a_ptr a' →
  pre = pre' ∧ a = a' ∧ post = post'.
Proof.
  intros Hnd -> E Ep. assert (length pre = length pre') as Hlen.
  { apply (NoDup_lookup _ (length pre) (length pre') (a_ptr a) Hnd).
    - rewrite list_lookup_fmap, list_lookup_middle; done.
    - rewrite E, list_lookup_fmap, list_lookup_middle; [by rewrite Ep|done]. }
  apply app_inj_1 in E as [-> [= -> ->]]; done.
Qed.

Lemma rep_cut_level sl A B i P b Q : rep sl (A ++ B) → cut i (hd_node sl :: A) P b Q → i < slevel sl →
  getLevel sl (a_ptr b) i = Some (MkLevel (fwd i B) (Z.of_nat (length Q) + spn i B)).
Proof.
  intros Hr (E & Hb & HQ) Hi. destruct (rep_nodes _ _ Hr P b (Q ++ B)) as [_ Hlv].
  { by rewrite app_comm_cons, E, <- app_assoc. }
  destruct (Hlv i Hb) as (s & -> & Hs). rewrite (Hs Hi). by destruct (fwd_low i Q B HQ) as [-> ->].
Qed.

(** What the links must be after inserting [ax] between [A] and [B]. *)
Record inserted sl A B (ax : anode) (G : nat → nat → option skipListLevel) : Prop := {
  ins_cut j P b Q : j < slevel sl → cut j (hd_node sl :: A) P b Q →
    G (a_ptr b) j = Some (if decide (j < a_height ax) then MkLevel (Some (a_ptr ax)) (Z.of_nat (length Q) + 1)
                          else MkLevel (fwd j B) (Z.of_nat (length Q) + 1 + spn j B)) ∧
    ∀ y, y ≠ a_ptr ax → y ≠ a_ptr b → G y j = getLevel sl y j;
  ins_new j : j < a_height ax → G (a_ptr ax) j = Some (MkLevel (fwd j B) (spn j B));
  ins_high j y : slevel sl ≤ j → y ≠ a_ptr ax → G y j = getLevel sl y j;
}.

Lemma inserted_ok sl A B ax ur G :
  rep sl (A ++ B) → cuts sl A ur → a_ptr ax ∉ a_ptr <$> hd_node sl :: A ++ B →
  a_height ax ≤ slevel sl → inserted sl A B ax G →
  ∀ pre a post, (hd_node sl :: A) ++ ax :: B = pre ++ a :: post → ∀ i, i < a_height a →
    ∃ s, G (a_ptr a) i = Some (MkLevel (fwd i post) s) ∧ (i < slevel sl → s = spn i post).
Proof.
  intros Hr Hc Hx Hax [Hcut Hnew Hhigh] pre a post E i Hi.
  assert (Hnd := rep_nodup _ _ Hr).
  assert (Hne : ∀ X c Y, hd_node sl :: A ++ B = X ++ c :: Y → a_ptr c ≠ a_ptr ax).
  { intros X c Y EX Ec. apply Hx. rewrite EX, <- Ec. set_solver. }
  apply app_mid_inv3 in E as [(p1 & E & ->)|[(-> & -> & ->)|(B1 & -> & ->)]].
  - assert (hd_node sl :: A ++ B = pre ++ a :: p1 ++ B) as E'.
    { by rewrite app_comm_cons, E, <- app_assoc. }
    destruct (rep_nodes _ _ Hr _ _ _ E') as [_ Hlv]. destruct (Hlv i Hi) as (s & Hg & Hs).
    destruct (decide (i < slevel sl)) as [Hil|Hih].
    + destruct (Hc i Hil) as (P & b & Q & Hct & _). destruct (Hcut i P b Q Hil Hct) as [Hb Hoth].
      destruct (cut_cases _ _ _ _ _ _ _ _ Hct E Hi) as [(-> & -> & ->)|[p2 ->]].
      * rewrite Hb. destruct Hct as (_ & _ & HQ). case_decide as Hd.
        -- eexists. destruct (fwd_hit i Q ax B HQ Hd) as [-> ->]. done.
        -- eexists. destruct (fwd_low i (Q ++ [ax]) B) as [Hf Hsp].
           { apply Forall_app. split; [done|]. constructor; [unfold low; lia|done]. }
           rewrite <- app_assoc in Hf, Hsp. change ([ax] ++ B) with (ax :: B) in Hf, Hsp.
           rewrite Hf, Hsp, length_app. split; [done|]. simpl. lia.
      * destruct Hct as (EL & Hbi & HQ). rewrite Hoth.
        -- exists s. rewrite Hg. destruct (fwd_stable i b p2 Q B (ax :: B) Hbi) as [<- <-]. done.
        -- by eapply Hne.
        -- intros Ep. destruct (ptr_unique _ pre a ((p2 ++ b :: Q) ++ B) P b (Q ++ B) Hnd E') as (_ & _ & EQ);
             [by rewrite app_comm_cons, EL, <- app_assoc|done|].
           apply (f_equal length) in EQ. rewrite !length_app in EQ. simpl in EQ. lia.
    + exists s. rewrite Hhigh by (lia || by eapply Hne). rewrite Hg. split; [|lia].
      do 2 f_equal. pose proof (rep_heights _ _ Hr) as Hh.
      assert (Forall (low i) (A ++ B)) as Hlow by (eapply Forall_impl; [exact Hh|unfold low; simpl; lia]).
      assert (Forall (low i) (p1 ++ B) ∧ Forall (low i) (p1 ++ ax :: B)) as [H1 H2].
      { destruct pre as [|c pre]; injection E as _ EA; subst A; rewrite !Forall_app in *; rewrite ?Forall_cons in *;
          (split_and!; try (unfold low; lia); naive_solver). }
      by rewrite (proj2 (fwd_none_low _ _) H1), (proj2 (fwd_none_low _ _) H2).
  - exists (spn i B). by rewrite Hnew.
  - assert (hd_node sl :: A ++ B1 ++ a :: post = (hd_node sl :: A ++ B1) ++ a :: post) as E'.
    { simpl. by rewrite <- app_assoc. }
    destruct (rep_nodes _ _ Hr _ _ _ E') as [_ Hlv]. destruct (Hlv i Hi) as (s & Hg & Hs).
    exists s. split; [|done]. rewrite <- Hg. assert (a_ptr a ≠ a_ptr ax) by (by eapply Hne).
    destruct (decide (i < slevel sl)) as [Hil|Hih]; [|apply Hhigh; [lia|done]].
    destruct (Hc i Hil) as (P & b & Q & Hct & _). apply (Hcut i P b Q Hil Hct); [done|].
    intros Ep. destruct Hct as (EL & _).
    destruct (ptr_unique _ (hd_node sl :: A ++ B1) a post P b (Q ++ B1 ++ a :: post) Hnd E') as (EP & _ & _);
      [by rewrite app_comm_cons, EL, <- app_assoc|done|].
    apply (f_equal length) in EP, EL. rewrite ?length_app in *. simpl in *. rewrite ?length_app in *. lia.
Qed.

Lemma alloc_ok sl lvl m s :
  let '(x, sl') := alloc sl (newSkipListNode lvl m s) in
  x = nextPtr sl ∧ meta sl' = (S (nextPtr sl), header sl, tail sl, length_ sl, slevel sl, rng sl) ∧
  (∀ y, shape sl' y = if decide (y = x) then Some (m, s, None, lvl) else shape sl y) ∧
  (∀ y j, y ≠ x → getLevel sl' y j = getLevel sl y j) ∧ ∀ j, j < lvl → is_Some (getLevel sl' x j).
Proof.
  simpl. split; [done|]. split; [done|]. unfold shape, getLevel, getNode. simpl. split; [|split].
  - intros y. destruct (decide (y = nextPtr sl)) as [->|]; [|by rewrite lookup_insert_ne].
    rewrite lookup_insert_eq. simpl. by rewrite length_replicate.
  - intros y j Hy. by rewrite lookup_insert_ne.
  - intros j Hj. rewrite lookup_insert_eq. simpl. rewrite lookup_replicate_2 by done. by eexists.
Qed.

Lemma cut_ptr_elem sl A B i P b Q : cut i (hd_node sl :: A) P b Q → a_ptr b ∈ a_ptr <$> hd_node sl :: A ++ B.
Proof. intros (E & _). rewrite app_comm_cons, E. set_solver. Qed.

Lemma link_insert sl A B ur m s lvl :
  rep sl (A ++ B) → cuts sl A ur → 1 ≤ lvl ≤ slevel sl →
  nextPtr sl ∉ a_ptr <$> hd_node sl :: A ++ B →
  let '(x, sl2) := alloc sl (newSkipListNode lvl m s) in
  ∃ sl3 sl4, forLevels (linkLevel x ur) lvl 0 sl2 = Some sl3 ∧
    forLevels (bumpSpan ur) (slevel sl3 - lvl) lvl sl3 = Some sl4 ∧
    meta sl4 = meta sl2 ∧ (∀ y, shape sl4 y = shape sl2 y) ∧
    inserted sl A B (MkA x m s lvl) (getLevel sl4).
Proof.
  intros Hr Hc Hlvl Hx. pose proof (alloc_ok sl lvl m s) as Ha.
  destruct (alloc sl (newSkipListNode lvl m s)) as [x sl2]. destruct Ha as (-> & Hm2 & Hs2 & Hl2 & Hx2).
  destruct (cuts_zero _ _ _ _ Hr Hc) as (P0 & b0 & E0 & Hu0).
  assert (Hlev2 : slevel sl2 = slevel sl) by (unfold meta in Hm2; by simplify_eq).
  assert (Hcl : ∀ j, j < slevel sl → ∃ P b Q, cut j (hd_node sl :: A) P b Q ∧
    ur !! j = Some (a_ptr b, Z.of_nat (length P)) ∧ a_ptr b ≠ nextPtr sl ∧
    length A = length P + length Q ∧
    getLevel sl2 (a_ptr b) j = Some (MkLevel (fwd j B) (Z.of_nat (length Q) + spn j B))).
  { intros j Hj. destruct (Hc j Hj) as (P & b & Q & Hcut & Ej). exists P, b, Q. split; [done|]. split; [done|].
    assert (a_ptr b ≠ nextPtr sl).
    { intros Ep. apply Hx. rewrite <- Ep. by eapply cut_ptr_elem. }
    split; [done|]. split.
    - destruct Hcut as (EL & _). apply (f_equal length) in EL. rewrite length_app in EL. simpl in EL. lia.
    - rewrite Hl2 by done. by apply rep_cut_level with A P. }
  destruct (link_ok sl2 (nextPtr sl) ur (a_ptr b0) (Z.of_nat (length A)) lvl) as (sl3 & E3 & Hm3 & Hs3 & Hl3).
  { done. }
  { intros j Hj. split; [by apply Hx2|]. destruct (Hcl j) as (P & b & Q & _ & Ej & Hne & _ & Hg); [lia|].
    exists (a_ptr b), (Z.of_nat (length P)). rewrite Hg. by split_and!. }
  assert (Hlev3 : slevel sl3 = slevel sl) by (apply meta_eq in Hm3; naive_solver congruence).
  destruct (bump_ok sl3 ur lvl (slevel sl3 - lvl)) as (sl4 & E4 & Hm4 & Hs4 & Hl4).
  { intros j Hj. destruct (Hcl j) as (P & b & Q & _ & Ej & Hne & _ & Hg); [lia|].
    exists (a_ptr b), (Z.of_nat (length P)). split; [done|]. rewrite Hl3, decide_False by lia. by rewrite Hg. }
  exists sl3, sl4. split; [done|]. split; [done|]. split; [congruence|].
  split; [intros y; by rewrite Hs4|]. split; simpl.
  - intros j P b Q Hj Hcut. destruct (Hcl j Hj) as (P' & b' & Q' & Hcut' & Ej & Hne & HlA & Hg).
    destruct (cut_cases _ _ _ _ _ _ _ _ Hcut' (proj1 Hcut)) as [(-> & -> & ->)|[p ->]]; [apply Hcut| |].
    2: { exfalso. destruct Hcut as (_ & _ & HQ), Hcut' as (_ & Hb & _).
         rewrite Forall_app, Forall_cons in HQ. unfold low in HQ. lia. }
    rewrite !Hl4. destruct (decide (j < lvl)) as [Hjl|Hjl].
    + rewrite decide_False by lia. rewrite Hl3, decide_True by done. split.
      * unfold linkF. rewrite Ej. simpl. rewrite Hg. simpl. rewrite decide_False by done.
        rewrite decide_True by done. do 2 f_equal. lia.
      * intros y Hy Hyb. rewrite Hl4, decide_False by lia. rewrite Hl3, decide_True by done.
        unfold linkF. rewrite Ej. simpl. rewrite Hg. simpl. rewrite !decide_False by done. by apply Hl2.
    + rewrite decide_True by lia. split.
      * unfold bumpF. rewrite Ej. simpl. rewrite Hl3, decide_False by done. rewrite Hg. simpl.
        rewrite decide_True by done. do 2 f_equal. lia.
      * intros y Hy Hyb. rewrite Hl4, decide_True by lia. unfold bumpF. rewrite Ej. simpl.
        rewrite !Hl3, !decide_False by done. rewrite Hg. simpl. rewrite decide_False by done. by apply Hl2.
  - intros j Hj. destruct (Hcl j) as (P & b & Q & Hcut & Ej & Hne & HlA & Hg); [lia|].
    rewrite Hl4, decide_False by lia. rewrite Hl3, decide_True by done. unfold linkF. rewrite Ej. simpl.
    rewrite Hg. simpl. rewrite decide_True by done. do 2 f_equal. lia.
  - intros j y Hj Hy. rewrite Hl4, decide_False by lia. rewrite Hl3, decide_False by lia. by apply Hl2.
Qed.

Lemma fresh_ptr sl ns : rep sl ns → nextPtr sl ∉ a_ptr <$> hd_node sl :: ns.
Proof.
  intros Hr (a & Ha & (pre & post & E)%list_elem_of_split)%list_elem_of_fmap.
  destruct (rep_nodes _ _ Hr pre a post E) as [Hs _].
  pose proof (rep_fresh _ _ Hr (nextPtr sl)) as Hf. rewrite Ha in Hf. by rewrite Hf in Hs.
Qed.

(** Members, scores, heights and backward pointers of the nodes of [L]. *)
Definition shapes sl (L : list anode) : Prop := ∀ pre a post, L = pre ++ a :: post →
  shape sl (a_ptr a) = Some (a_member a, a_score a, a_ptr <$> last (list.tail pre), a_height a).

Lemma rep_shapes sl ns : rep sl ns → shapes sl (hd_node sl :: ns).
Proof. intros Hr pre a post E. by apply (rep_nodes _ _ Hr pre a post). Qed.

Definition set_tail sl (t : option nat) :=
  (nextPtr sl, header sl, t, length_ sl, slevel sl, rng sl).

(** After [L] comes [B], whose first node pointed back to the end of [k] so far. *)
Lemma setPrev_ok sl L k B p :
  NoDup (a_ptr <$> L ++ B) → L ≠ [] → shapes sl L → p = a_ptr <$> last (list.tail L) →
  Forall (λ a, 1 ≤ a_height a) B → tail sl = a_ptr <$> last (k ++ B) →
  (∀ B1 a post, B = B1 ++ a :: post →
     shape sl (a_ptr a) = Some (a_member a, a_score a, a_ptr <$> last (k ++ B1), a_height a)) →
  ∃ sl', setPrev sl (fwd 0 B) p = Some sl' ∧
    meta sl' = set_tail sl (a_ptr <$> last (list.tail L ++ B)) ∧
    (∀ y j, getLevel sl' y j = getLevel sl y j) ∧ (∀ y, shape sl' y = None ↔ shape sl y = None) ∧
    shapes sl' (L ++ B).
Proof.
  intros Hnd HL HsL -> HB Ht HsB. destruct B as [|c B].
  - simpl. eexists. split; [done|]. rewrite !app_nil_r. by split_and!.
  - destruct (fwd_here 0 c B) as [-> _]; [apply Forall_cons in HB; lia|]. simpl.
    pose proof (HsB [] c B eq_refl) as Hc0.
    destruct (setBackward_ok sl (a_ptr c) (a_ptr <$> last (list.tail L)) _ _ _ _ Hc0)
      as (sl' & -> & Hm & Hs & Hl).
    exists sl'. split; [done|]. split.
    { unfold meta, set_tail in *. simplify_eq. rewrite last_app_ne in *. congruence. }
    split; [done|]. split.
    { intros y. rewrite Hs. case_decide; [subst; by rewrite Hc0|done]. }
    intros pre a post E. rewrite Hs. pose proof E as E0. apply app_mid_inv in E as [(p1 & E & ->)|(k1 & E & ->)].
    + rewrite decide_False; [by apply (HsL _ _ p1)|]. intros Ep.
      destruct (ptr_unique _ pre a (p1 ++ c :: B) L c B Hnd) as (El & _); [by rewrite E, <- app_assoc|done|done|].
      apply (f_equal length) in E. rewrite El, length_app in E. simpl in E. lia.
    + destruct k1 as [|c' k1]; simplify_eq/=.
      * rewrite decide_True by done. by rewrite app_nil_r.
      * rewrite decide_False.
        -- rewrite (HsB (c' :: k1) a post) by done. destruct L as [|h L]; [done|]. simpl.
           by rewrite !last_app_ne.
        -- intros Ep.
           destruct (ptr_unique _ (L ++ c' :: k1) a post L c' (k1 ++ a :: post) Hnd) as (El & _);
             [by rewrite <- app_assoc|done|done|].
           apply (f_equal length) in El. rewrite length_app in El. simpl in El. lia.
Qed.

Lemma finish_insert sl sl4 A B ax ur :
  rep sl (A ++ B) → cuts sl A ur → a_ptr ax = nextPtr sl → 1 ≤ a_height ax ≤ slevel sl →
  meta sl4 = (S (nextPtr sl), header sl, tail sl, length_ sl, slevel sl, rng sl) →
  (∀ y, shape sl4 y = if decide (y = a_ptr ax) then Some (a_member ax, a_score ax, None, a_height ax)
                      else shape sl y) →
  inserted sl A B ax (getLevel sl4) →
  ∃ sl5, ('(u0, _) ← ur !! 0;
          sl ← setBackward sl4 (a_ptr ax) (if decide (u0 = header sl4) then None else Some u0);
          lv0 ← getLevel sl (a_ptr ax) 0;
          sl ← setPrev sl (forward lv0) (Some (a_ptr ax));
          Some (a_ptr ax, setLength sl (length_ sl + 1))) = Some (a_ptr ax, sl5) ∧
    header sl5 = header sl ∧ rep sl5 (A ++ ax :: B).
Proof.
  intros Hr Hc Hax Hht Hm4 Hs4 Hins.
  pose proof (fresh_ptr _ _ Hr) as Hfresh. pose proof (rep_nodup _ _ Hr) as Hnd.
  assert (Hnd' : NoDup (a_ptr <$> ((hd_node sl :: A) ++ [ax]) ++ B)).
  { rewrite <- app_assoc. change ([ax] ++ B) with (ax :: B). rewrite <- Permutation_middle, fmap_cons, Hax.
    by apply NoDup_cons. }
  destruct (cuts_zero _ _ _ _ Hr Hc) as (P0 & b0 & E0 & ->). simpl.
  assert (Hh4 : header sl4 = header sl) by (unfold meta in Hm4; by simplify_eq). rewrite Hh4.
  assert ((if decide (a_ptr b0 = header sl) then None else Some (a_ptr b0)) = a_ptr <$> last A) as ->.
  { clear -E0 Hnd. destruct A as [|c A _] using rev_ind; simplify_eq/=.
    - destruct P0 as [|? [|]]; simplify_eq/=. by rewrite decide_True.
    - rewrite last_snoc. rewrite app_comm_cons in E0. apply app_inj_tail in E0 as [_ <-].
      rewrite decide_False; [done|]. intros Ep. apply NoDup_cons in Hnd as [Hnd _]. apply Hnd. simpl.
      rewrite <- Ep. set_solver. }
  destruct (setBackward_ok sl4 (a_ptr ax) (a_ptr <$> last A) (a_member ax) (a_score ax) None (a_height ax))
    as (sl5 & -> & Hm5 & Hs5 & Hl5); [by rewrite Hs4, decide_True|]. simpl.
  rewrite Hl5, (ins_new _ _ _ _ _ Hins) by lia. simpl.
  assert (Hold : shapes sl5 (hd_node sl :: A ++ B)).
  { intros pre a post E. assert (a_ptr a ≠ a_ptr ax).
    { intros Ep. apply Hfresh. rewrite <- Hax, <- Ep, E. set_solver. }
    rewrite Hs5, decide_False, Hs4, decide_False by done. by apply (rep_shapes _ _ Hr pre a post). }
  destruct (setPrev_ok sl5 ((hd_node sl :: A) ++ [ax]) A B (Some (a_ptr ax))) as (sl6 & -> & Hm6 & Hl6 & Hf6 & Hs6).
  { done. }
  { done. }
  { intros pre a post [(p1 & E & ->)|[(-> & -> & ->)|([|? ?] & ? & ?)]]%app_mid_inv3; try done.
    - apply (Hold pre a (p1 ++ B)). by rewrite app_comm_cons, E, <- app_assoc.
    - by rewrite Hs5, decide_True. }
  { simpl. by rewrite last_snoc. }
  { pose proof (rep_heights_hd _ _ Hr) as H. rewrite app_comm_cons, Forall_app in H. apply H. }
  { unfold meta in Hm4, Hm5. simplify_eq. rewrite <- (rep_tail _ _ Hr). congruence. }
  { intros B1 a post ->. apply (Hold (hd_node sl :: A ++ B1) a post). simpl. by rewrite <- app_assoc. }
  simpl. rewrite <- app_assoc in Hs6. unfold meta, set_tail in Hm4, Hm5, Hm6. simplify_eq.
  eexists. split; [done|]. split; [simpl; congruence|].
  assert (Ehd : hd_node (setLength sl6 (length_ sl6 + 1)) = hd_node sl) by (unfold hd_node; simpl; congruence).
  split; rewrite ?Ehd.
  - intros pre a post E. split; [by apply (Hs6 pre a post)|]. intros i Hi.
    destruct (inserted_ok sl A B ax ur (getLevel sl4) Hr Hc) with (pre := pre) (a := a) (post := post) (i := i)
      as (s & Hg & Hsp); [by rewrite Hax|lia|done|done|done|].
    exists s. split; [by rewrite <- Hg, <- Hl5, <- Hl6|]. simpl. intros ?. apply Hsp. congruence.
  - rewrite <- app_assoc in Hnd'. done.
  - simpl. pose proof (rep_heights _ _ Hr) as Hhs. rewrite Forall_app, ?Forall_cons in *.
    replace (slevel sl6) with (slevel sl) by congruence. naive_solver.
  - simpl. pose proof (rep_level _ _ Hr). replace (slevel sl6) with (slevel sl) by congruence. done.
  - simpl. intros y Hy. change (shape sl6 y = None). rewrite Hf6, Hs5, decide_False, Hs4, decide_False by lia.
    apply (rep_fresh _ _ Hr). lia.
  - simpl. pose proof (rep_length _ _ Hr) as Hlen. rewrite length_app in *. simpl. lia.
  - change (tail sl6 = a_ptr <$> last (A ++ [ax] ++ B)). by rewrite app_assoc.
Qed.

(** Inserting puts the new node between the nodes the search passes and the rest,
    whatever its height. *)
Lemma insert_rep sl A B m s : rep sl (A ++ B) → stops_after sl (A ++ B) A (before m s) →
  ∃ x h sl', insert m s sl = Some (x, sl') ∧ header sl' = header sl ∧ rep sl' (A ++ MkA x m s h :: B).
Proof.
  intros Hr Hst. destruct (search_ok _ _ _ _ Hr Hst) as (ur & Eur & Hlen & Hc).
  unfold insert. rewrite Eur. simpl. unfold randomLevel.
  destruct (randomLoop maxLevel (rng sl) 1) as [lvl r] eqn:Er.
  assert (1 ≤ lvl ≤ maxLevel) as Hlvl.
  { pose proof (randomLoop_range maxLevel (rng sl) 1) as H. rewrite Er in H. apply H. unfold maxLevel. lia. }
  assert (∃ sl1 ur1, (if slevel (setRng sl r) <? lvl then
       sl' ← forLevels raiseLevel (lvl - slevel (setRng sl r)) (slevel (setRng sl r)) (setRng sl r);
       Some (setSLevel sl' lvl, ur ++ replicate (lvl - slevel (setRng sl r)) (header (setRng sl r), 0%Z))
     else Some (setRng sl r, ur)) = Some (sl1, ur1) ∧
     rep sl1 (A ++ B) ∧ cuts sl1 A ur1 ∧ 1 ≤ lvl ≤ slevel sl1 ∧ header sl1 = header sl)
    as (sl1 & ur1 & -> & Hr1 & Hc1 & Hl1 & Hh1).
  { apply (rep_setRng _ _ r) in Hr. case_match; unbool.
    - destruct (raise_ok (setRng sl r) A B ur lvl) as (sl' & -> & Hr' & Hc' & Hm'); [done..|simpl in *; lia|].
      simpl. eexists _, _. split; [done|]. split; [done|]. split; [done|]. split; [simpl; lia|].
      apply meta_eq in Hm'. simpl in *. naive_solver.
    - exists (setRng sl r), ur. by split_and!; simpl in *; try lia. }
  simpl. pose proof (link_insert sl1 A B ur1 m s lvl Hr1 Hc1 Hl1 (fresh_ptr _ _ Hr1)) as Hlink.
  pose proof (alloc_ok sl1 lvl m s) as Hal.
  unfold alloc in Hlink, Hal. set (sl2 := MkList _ _ _ _ _ _ _) in *.
  destruct Hal as (_ & Hm2 & Hs2 & _). destruct Hlink as (sl3 & sl4 & -> & E4 & Hm4 & Hs4 & Hins).
  simpl. rewrite E4. simpl.
  destruct (finish_insert sl1 sl4 A B (MkA (nextPtr sl1) m s lvl) ur1) as (sl5 & E5 & Hh5 & Hr5); [done..| | |done|].
  { congruence. }
  { intros y. rewrite Hs4. apply Hs2. }
  simpl in E5. rewrite E5. exists (nextPtr sl1), lvl, sl5. split; [done|]. split; [congruence|done].
Qed.

(** ** Deletion *)

Definition unlinkF sl (x : nat) (ur : list (nat * Z)) (y j : nat) : option skipListLevel :=
  '(u, _) ← ur !! j;
  lv ← getLevel sl u j;
  if decide (y = u) then
    if decide (forward lv = Some x) then
      xv ← getLevel sl x j; Some (MkLevel (forward xv) (span lv + (span xv - 1)))
    else Some (MkLevel (forward lv) (span lv - 1))
  else getLevel sl y j.

Lemma unlink_ok sl x ur n :
  (∀ j, j < n → ∃ u r lv, ur !! j = Some (u, r) ∧ getLevel sl u j = Some lv ∧
     (forward lv = Some x → is_Some (getLevel sl x j))) →
  ∃ sl', forLevels (unlinkLevel x ur) n 0 sl = Some sl' ∧ meta sl' = meta sl ∧
    (∀ y, shape sl' y = shape sl y) ∧
    ∀ y j, getLevel sl' y j = if decide (0 ≤ j < 0 + n) then unlinkF sl x ur y j else getLevel sl y j.
Proof.
  intros Hok. apply forLevels_ok; [|done..].
  intros j sl1 Hj Hm Hs Hl. destruct (Hok j) as (u & r & lv & Ej & Hu & Hx); [lia|].
  unfold unlinkLevel, unlinkF. rewrite Ej. simpl. rewrite (Hl u), Hu. simpl.
  assert (Hset : ∀ nv, ∃ sl2, setLevel sl1 u j nv = Some sl2 ∧ meta sl2 = meta sl1 ∧
    (∀ y, shape sl2 y = shape sl1 y) ∧ ∀ y k, getLevel sl2 y k =
      if decide (k = j) then if decide (y = u) then Some nv else getLevel sl y j else getLevel sl1 y k).
  { intros nv. destruct (setLevel_ok sl1 u j nv) as (sl2 & -> & Hm2 & Hs2 & Hl2); [by rewrite Hl, Hu|].
    exists sl2. split_and!; try done. intros y k. rewrite Hl2.
    destruct (decide (k = j)) as [->|]; [|by rewrite decide_False by naive_solver].
    rewrite Hl. destruct (decide (y = u)) as [->|]; [by rewrite decide_True|by rewrite decide_False by naive_solver]. }
  case_decide as Hf.
  - destruct (Hx Hf) as [xv Exv]. rewrite (Hl x), Exv. simpl. apply Hset.
  - apply Hset.
Qed.

(** What the links must be after taking [ax] out between [A] and [B]. *)
Record removed sl A B (G : nat → nat → option skipListLevel) : Prop := {
  rem_cut j P b Q : j < slevel sl → cut j (hd_node sl :: A) P b Q →
    G (a_ptr b) j = Some (MkLevel (fwd j B) (Z.of_nat (length Q) + spn j B)) ∧
    ∀ y, y ≠ a_ptr b → G y j = getLevel sl y j;
  rem_high j y : slevel sl ≤ j → G y j = getLevel sl y j;
}.

Lemma removed_ok sl A B ax ur G :
  rep sl (A ++ ax :: B) → cuts sl A ur → removed sl A B G →
  ∀ pre a post, (hd_node sl :: A) ++ B = pre ++ a :: post → ∀ i, i < a_height a →
    ∃ s, G (a_ptr a) i = Some (MkLevel (fwd i post) s) ∧ (i < slevel sl → s = spn i post).
Proof.
  intros Hr Hc [Hcut Hhigh] pre a post E i Hi. assert (Hnd := rep_nodup _ _ Hr).
  apply app_mid_inv in E as [(p1 & E & ->)|(B1 & -> & ->)].
  - assert (hd_node sl :: A ++ ax :: B = pre ++ a :: p1 ++ ax :: B) as E'.
    { by rewrite app_comm_cons, E, <- app_assoc. }
    destruct (rep_nodes _ _ Hr _ _ _ E') as [_ Hlv]. destruct (Hlv i Hi) as (s & Hg & Hs).
    destruct (decide (i < slevel sl)) as [Hil|Hih].
    + destruct (Hc i Hil) as (P & b & Q & Hct & _). destruct (Hcut i P b Q Hil Hct) as [Hb Hoth].
      destruct (cut_cases _ _ _ _ _ _ _ _ Hct E Hi) as [(-> & -> & ->)|[p2 ->]].
      * rewrite Hb. destruct Hct as (_ & _ & HQ). eexists. by destruct (fwd_low i Q B HQ) as [-> ->].
      * destruct Hct as (EL & Hbi & HQ). rewrite Hoth.
        -- exists s. rewrite Hg. by destruct (fwd_stable i b p2 Q (ax :: B) B Hbi) as [<- <-].
        -- intros Ep. destruct (ptr_unique _ pre a ((p2 ++ b :: Q) ++ ax :: B) P b (Q ++ ax :: B) Hnd E')
             as (_ & _ & EQ); [by rewrite app_comm_cons, EL, <- app_assoc|done|].
           apply (f_equal length) in EQ. rewrite !length_app in EQ. simpl in EQ. lia.
    + exists s. rewrite Hhigh by lia. rewrite Hg. split; [|lia].
      do 2 f_equal. pose proof (rep_heights _ _ Hr) as Hh.
      assert (Forall (low i) (A ++ ax :: B)) as Hlow by (eapply Forall_impl; [exact Hh|unfold low; simpl; lia]).
      assert (Forall (low i) (p1 ++ ax :: B) ∧ Forall (low i) (p1 ++ B)) as [H1 H2].
      { destruct pre as [|c pre]; injection E as _ EA; subst A;
          rewrite ?Forall_app, ?Forall_cons, ?Forall_app, ?Forall_cons in *; naive_solver. }
      by rewrite (proj2 (fwd_none_low _ _) H1), (proj2 (fwd_none_low _ _) H2).
  - assert (hd_node sl :: A ++ ax :: B1 ++ a :: post = (hd_node sl :: A ++ ax :: B1) ++ a :: post) as E'.
    { simpl. by rewrite <- app_assoc. }
    destruct (rep_nodes _ _ Hr _ _ _ E') as [_ Hlv]. destruct (Hlv i Hi) as (s & Hg & Hs).
    exists s. split; [|done]. rewrite <- Hg.
    destruct (decide (i < slevel sl)) as [Hil|Hih]; [|apply Hhigh; lia].
    destruct (Hc i Hil) as (P & b & Q & Hct & _). apply (Hcut i P b Q Hil Hct).
    intros Ep. destruct Hct as (EL & _).
    destruct (ptr_unique _ (hd_node sl :: A ++ ax :: B1) a post P b (Q ++ ax :: B1 ++ a :: post) Hnd E')
      as (EP & _ & _); [by rewrite app_comm_cons, EL, <- app_assoc|done|].
    apply (f_equal length) in EP, EL. rewrite ?length_app in *. simpl in *. rewrite ?length_app in *.
    simpl in *. lia.
Qed.

Lemma unlink_delete sl A B ax ur :
  rep sl (A ++ ax :: B) → cuts sl A ur →
  ∃ sl1, forLevels (unlinkLevel (a_ptr ax) ur) (slevel sl) 0 sl = Some sl1 ∧ meta sl1 = meta sl ∧
    (∀ y, shape sl1 y = shape sl y) ∧ removed sl A B (getLevel sl1) ∧
    ∃ s, getLevel sl1 (a_ptr ax) 0 = Some (MkLevel (fwd 0 B) s).
Proof.
  intros Hr Hc. pose proof (rep_nodup _ _ Hr) as Hnd.
  destruct (rep_nodes _ _ Hr (hd_node sl :: A) ax B eq_refl) as [_ Hx].
  assert (Hhx : 1 ≤ a_height ax ≤ slevel sl).
  { pose proof (rep_heights _ _ Hr) as H. rewrite Forall_app, Forall_cons in H. naive_solver. }
  assert (Hcl : ∀ j, j < slevel sl → ∃ P b Q, cut j (hd_node sl :: A) P b Q ∧
    ur !! j = Some (a_ptr b, Z.of_nat (length P)) ∧ a_ptr b ≠ a_ptr ax ∧
    getLevel sl (a_ptr b) j = Some (MkLevel (fwd j (ax :: B)) (Z.of_nat (length Q) + spn j (ax :: B)))).
  { intros j Hj. destruct (Hc j Hj) as (P & b & Q & Hcut & Ej). exists P, b, Q. split; [done|]. split; [done|].
    split; [|by apply rep_cut_level with A P]. destruct Hcut as (EL & _). intros Ep.
    destruct (ptr_unique _ P b (Q ++ ax :: B) (hd_node sl :: A) ax B Hnd) as (El & _);
      [by rewrite app_comm_cons, EL, <- app_assoc|done|done|].
    apply (f_equal length) in EL. rewrite El, length_app in EL. simpl in EL. lia. }
  assert (Hbx : ∀ j, j < slevel sl → fwd j (ax :: B) = Some (a_ptr ax) → j < a_height ax).
  { intros j Hj. simpl. case_match; unbool; [done|]. intros Hf%fwd_elem. exfalso.
    rewrite app_comm_cons, fmap_app, fmap_cons in Hnd. apply NoDup_app in Hnd as (_ & _ & Hnd).
    apply NoDup_cons in Hnd as [Hn _]. done. }
  destruct (unlink_ok sl (a_ptr ax) ur (slevel sl)) as (sl1 & E1 & Hm1 & Hs1 & Hl1).
  { intros j Hj. destruct (Hcl j Hj) as (P & b & Q & Hcut & Ej & Hne & Hg).
    eexists _, _, _. split; [done|]. split; [done|]. intros Hf. destruct (Hx j) as (s & -> & _); [by apply Hbx|done]. }
  exists sl1. split; [done|]. split; [done|]. split; [done|]. split; [split|].
  - intros j P b Q Hj Hcut. destruct (Hcl j Hj) as (P' & b' & Q' & Hcut' & Ej & Hne & Hg).
    destruct (cut_cases _ _ _ _ _ _ _ _ Hcut' (proj1 Hcut)) as [(-> & -> & ->)|[p ->]]; [apply Hcut| |].
    2: { exfalso. destruct Hcut as (_ & _ & HQ), Hcut' as (_ & Hb & _).
         rewrite Forall_app, Forall_cons in HQ. unfold low in HQ. lia. }
    split.
    + rewrite Hl1, decide_True by lia. unfold unlinkF. rewrite Ej. simpl. rewrite Hg. simpl.
      rewrite decide_True by done. case_decide as Hf.
      * pose proof (Hbx j Hj Hf) as Hh. destruct (Hx j Hh) as (s & -> & ->); [|done]. simpl.
        rewrite (proj2 (Nat.ltb_lt _ _)) by done. do 2 f_equal. lia.
      * simpl in Hf. case_match; [done|]. do 2 f_equal. lia.
    + intros y Hy. rewrite Hl1, decide_True by lia. unfold unlinkF. rewrite Ej. simpl. rewrite Hg. simpl.
      by rewrite decide_False.
  - intros j y Hj. by rewrite Hl1, decide_False by lia.
  - destruct (Hcl 0) as (P & b & Q & Hcut & Ej & Hne & Hg); [lia|]. destruct (Hx 0) as (s & Hs & _); [lia|].
    exists s. rewrite Hl1, decide_True by lia. unfold unlinkF. rewrite Ej. simpl. rewrite Hg. simpl.
    by rewrite decide_False.
Qed.

Lemma shrink_ok sl ns lvl :
  (∀ j, j < lvl → ∃ s, getLevel sl (header sl) j = Some (MkLevel (fwd j ns) s)) →
  1 ≤ lvl → Forall (λ a, 1 ≤ a_height a ≤ lvl) ns →
  ∃ l, shrink lvl sl = Some l ∧ 1 ≤ l ≤ lvl ∧ Forall (λ a, 1 ≤ a_height a ≤ l) ns.
Proof.
  intros Hg. induction lvl as [|[|l] IH]; intros Hl Hns; [lia|by exists 1|].
  change (shrink (S (S l)) sl) with (lv ← getLevel sl (header sl) (S l);
    match forward lv with None => shrink (S l) sl | Some _ => Some (S (S l)) end).
  destruct (Hg (S l)) as (s & ->); [lia|]. cbn [mbind option_bind forward].
  destruct (fwd (S l) ns) as [p|] eqn:Ef; [by exists (S (S l))|].
  apply fwd_none_low in Ef. destruct IH as (k & -> & Hk & Hks); [intros j Hj; apply Hg; lia|lia| |].
  - rewrite Forall_forall in *. intros a Ha. specialize (Hns a Ha). specialize (Ef a Ha). unfold low in Ef. lia.
  - exists k. split; [done|]. split; [lia|done].
Qed.

(** Deleting takes the node out; the arrays of the search stay usable. *)
Lemma deleteNode_rep sl A B ax ur : rep sl (A ++ ax :: B) → cuts sl A ur →
  ∃ sl', deleteNode (a_ptr ax) ur sl = Some sl' ∧ header sl' = header sl ∧ rep sl' (A ++ B) ∧ cuts sl' A ur.
Proof.
  intros Hr Hc. pose proof (rep_nodup _ _ Hr) as Hnd.
  destruct (unlink_delete _ _ _ _ _ Hr Hc) as (sl1 & E1 & Hm1 & Hs1 & Hrem & s0 & Hx0).
  unfold deleteNode. rewrite E1. simpl. rewrite Hx0. simpl.
  assert (Hsh : shapes sl1 (hd_node sl :: A ++ ax :: B)).
  { intros pre a post E. rewrite Hs1. by apply (rep_shapes _ _ Hr pre a post). }
  pose proof (Hsh (hd_node sl :: A) ax B eq_refl) as Hsx. unfold shape in Hsx at 1. unfold getNode.
  destruct (heap sl1 !! a_ptr ax) as [n|]; [|done]. simpl in Hsx. simpl.
  assert (Hbk : backward n = a_ptr <$> last A) by congruence. rewrite Hbk.
  assert (Hnd' : NoDup (a_ptr <$> (hd_node sl :: A) ++ B)).
  { rewrite app_comm_cons, <- Permutation_middle, fmap_cons in Hnd. by apply NoDup_cons in Hnd as [_ ?]. }
  destruct (setPrev_ok sl1 (hd_node sl :: A) (A ++ [ax]) B (a_ptr <$> last A)) as (sl2 & -> & Hm2 & Hl2 & Hf2 & Hs2).
  { done. }
  { done. }
  { intros pre a post E. apply (Hsh pre a (post ++ ax :: B)). by rewrite app_comm_cons, E, <- app_assoc. }
  { done. }
  { pose proof (rep_heights_hd _ _ Hr) as H. rewrite app_comm_cons, Forall_app, !Forall_cons in H. apply H. }
  { apply meta_eq in Hm1 as (_ & _ & -> & _). rewrite (rep_tail _ _ Hr). by rewrite <- app_assoc. }
  { intros B1 a post ->. rewrite (Hsh (hd_node sl :: A ++ ax :: B1) a post) by (simpl; by rewrite <- app_assoc).
    simpl. by rewrite <- app_assoc. }
  simpl. apply meta_eq in Hm1 as HM1. unfold meta, set_tail in Hm2.
  assert (Hhd2 : header sl2 = header sl) by (simplify_eq; naive_solver congruence).
  assert (Hlev2 : slevel sl2 = slevel sl) by (simplify_eq; naive_solver congruence).
  assert (Hnodes : ∀ pre a post, hd_node sl :: A ++ B = pre ++ a :: post → ∀ i, i < a_height a → ∃ s,
    getLevel sl2 (a_ptr a) i = Some (MkLevel (fwd i post) s) ∧ (i < slevel sl → s = spn i post)).
  { intros pre a post E i Hi. rewrite Hl2. by apply (removed_ok sl A B ax ur (getLevel sl1) Hr Hc Hrem pre a post). }
  assert (Hhts : Forall (λ a, 1 ≤ a_height a ≤ slevel sl) (A ++ B)).
  { pose proof (rep_heights _ _ Hr) as H. rewrite Forall_app, ?Forall_cons in *. naive_solver. }
  pose proof (rep_level _ _ Hr) as Hlv.
  destruct (shrink_ok sl2 (A ++ B) (slevel sl2)) as (l & -> & Hl & Hlh); [..|].
  { intros j Hj. destruct (Hnodes [] (hd_node sl) (A ++ B) eq_refl j) as (s & Hg & _); [simpl; lia|].
    rewrite Hhd2. by exists s. }
  { lia. }
  { by rewrite Hlev2. }
  simpl. eexists. split; [done|]. split; [done|].
  assert (Ehd : ∀ k n', hd_node (setLength (setSLevel sl2 k) n') = hd_node sl) by (unfold hd_node; simpl; congruence).
  split; [split; rewrite ?Ehd|].
  - intros pre a post E. split; [by apply (Hs2 pre a post)|]. intros i Hi.
    destruct (Hnodes pre a post E i Hi) as (s & Hg & Hs). exists s. split; [exact Hg|]. simpl. intros ?. apply Hs. lia.
  - done.
  - done.
  - simpl. lia.
  - intros y Hy. change (shape sl2 y = None). rewrite Hf2, Hs1. apply (rep_fresh _ _ Hr).
    simpl in Hy. simplify_eq. destruct HM1 as (E & _). congruence.
  - simpl. simplify_eq. destruct HM1 as (_ & _ & _ & E & _). pose proof (rep_length _ _ Hr) as Hlen.
    rewrite length_app in *. simpl in *. lia.
  - simpl. by simplify_eq.
  - intros j Hj. rewrite Ehd. apply Hc. simpl in Hj. lia.
Qed.

End facts.
