(* ===== verification/SkipListOps.v ===== *)
(** * The skip list as a sorted sequence

    Every operation of [SkipList] on a list that represents a sorted sequence of
    members, stated on that sequence: lookups by rank and by score are slices and
    filters of it, removals are its complement. *)

From stdpp Require Import options.
From S2P Require Import Prelude GoStrings GoNumbers SkipList SkipListFacts.
Import SkipList.

(** ** The order of entries: by score, then by member *)

Abbreviation entry := (gostring * float64)%type (only parsing).

Definition kcmp (x y : entry) : comparison :=
  lex_cmp (λ x y : entry, float_cmp x.2 y.2) (λ x y : entry, str_cmp x.1 y.1) x y.
Definition klt (x y : entry) : Prop := kcmp x y = Lt.
Definition kvalid (x : entry) : Prop := not_nan x.2.
#[export] Instance klt_dec x y : Decision (klt x y).
Proof. unfold klt. apply _. Defined.

#[export] Instance kcmp_threeway : ThreeWay kvalid kcmp.
Proof.
  unfold kcmp. apply lex_threeway; [|apply str_threeway].
  apply (threeway_map kvalid not_nan snd float_cmp); [done|apply float_threeway].
Qed.

Lemma kcmp_member x y : kcmp x y = Eq → x.1 = y.1.
Proof. unfold kcmp, lex_cmp. case_match; try done. apply str_cmp_eq. Qed.

Lemma klt_trans x y z : kvalid x → kvalid y → kvalid z → klt x y → klt y z → klt x z.
Proof. apply (tw_trans (f:=kcmp)). Qed.

Lemma klt_score x y : klt x y → float_cmp x.2 y.2 ≠ Gt.
Proof. unfold klt, kcmp, lex_cmp. by destruct (float_cmp x.2 y.2). Qed.

(** ** Sorted lists and down-closed tests *)

(** A test that holds for everything before an element it holds for splits a
    sorted list in two. *)
Lemma sorted_split {A} (R : A → A → Prop) (P : A → Prop) `{!∀ x, Decision (P x)} (l : list A) :
  StronglySorted R l → (∀ x y, x ∈ l → y ∈ l → R x y → P y → P x) →
  l = filter P l ++ filter (λ x, ¬ P x) l.
Proof.
  intros Hs. induction Hs as [|x l Hs IH Hx]; intros Hdown; [done|].
  destruct (decide (P x)) as [Hp|Hp].
  - rewrite filter_cons_True by done. rewrite (filter_cons_False (λ x, ¬ P x)) by naive_solver. simpl. f_equal.
    apply IH. intros y z Hy Hz. apply Hdown; by right.
  - assert (Forall (λ y, ¬ P y) (x :: l)) as Hn.
    { constructor; [done|]. rewrite Forall_forall in *. intros y Hy HPy.
      apply Hp, (Hdown x y); [left|by right|by apply Hx|done]. }
    rewrite (filter_none P) by done. simpl. symmetry. by apply filter_all.
Qed.

(** ** Representing entries *)

Definition a_key (a : anode) : entry := (a_member a, a_score a).
Definition keys (ns : list anode) : list entry := a_key <$> ns.

Section ops.
Context {R : Type} `{!levelRNG R}.
Implicit Types (sl : skipList (R:=R)) (ns A B : list anode) (l : list entry).

(** [sl] holds the entries [l], in order, each member once. *)
Definition represents sl l : Prop := ∃ ns, rep sl ns ∧ keys ns = l ∧
  StronglySorted klt l ∧ Forall kvalid l ∧ NoDup l.*1 ∧ [] ∉ l.*1.

Definition sorted_nodes ns : Prop := StronglySorted (λ a b, klt (a_key a) (a_key b)) ns.

Lemma sorted_keys ns : StronglySorted klt (keys ns) ↔ sorted_nodes ns.
Proof.
  unfold sorted_nodes, keys. induction ns as [|a ns IH]; csimpl; [split; constructor|].
  rewrite !StronglySorted_cons, IH, Forall_fmap. done.
Qed.

Lemma keys_app ns1 ns2 : keys (ns1 ++ ns2) = keys ns1 ++ keys ns2.
Proof. apply fmap_app. Qed.
Lemma keys_cons a ns : keys (a :: ns) = a_key a :: keys ns.
Proof. done. Qed.

Lemma represents_length sl l : represents sl l → length_ sl = Z.of_nat (length l).
Proof. intros (ns & Hr & <- & _). rewrite (rep_length _ _ Hr). unfold keys. by rewrite length_fmap. Qed.

(** A test on entries that splits the nodes splits the search. *)
Lemma stops_of_split sl A B (adv : skipListNode → Z → bool) :
  (∀ a n r, a ∈ A → (member n, score n) = a_key a → adv n r = true) →
  (∀ a n r, a ∈ B → (member n, score n) = a_key a → adv n r = false) →
  stops_after sl (A ++ B) A adv.
Proof.
  intros HA HB pre a post n E Hpre Hm Hs. destruct pre as [|h pre]; [done|]. injection E as _ E. simpl.
  apply app_mid_inv in E as [(p1 & -> & _)|(k1 & -> & ->)].
  - rewrite bool_decide_true by (rewrite length_app; simpl; lia). apply (HA a); [set_solver|].
    unfold a_key. by rewrite Hm, Hs.
  - rewrite bool_decide_false by (rewrite length_app; lia). apply (HB a); [set_solver|].
    unfold a_key. by rewrite Hm, Hs.
Qed.

(** The same for a test on ranks. *)
Lemma stops_of_rank sl A B (adv : skipListNode → Z → bool) :
  (∀ n k, adv n (Z.of_nat (S k)) = bool_decide (k < length A)) → stops_after sl (A ++ B) A adv.
Proof.
  intros HA pre a post n E Hpre _ _. destruct pre as [|h pre]; [done|].
  cbn [length]. rewrite HA. apply bool_decide_ext. lia.
Qed.

Lemma before_klt m s n r : not_nan s → not_nan (score n) →
  before m s n r = true ↔ klt (member n, score n) (m, s).
Proof.
  intros Hs Hn. unfold before, klt, kcmp, lex_cmp. simpl.
  rewrite orb_true_iff, andb_true_iff, float_ltb_cmp, float_eqb_cmp by done.
  unfold str_ltb. destruct (float_cmp (score n) s), (str_cmp (member n) m); naive_solver.
Qed.

Lemma upTo_kle m s n r : not_nan s → not_nan (score n) →
  upTo m s n r = true ↔ kcmp (member n, score n) (m, s) ≠ Gt.
Proof.
  intros Hs Hn. unfold upTo, kcmp, lex_cmp. simpl.
  rewrite orb_true_iff, andb_true_iff, float_ltb_cmp, float_eqb_cmp, bool_decide_eq_true by done.
  unfold str_le. destruct (float_cmp (score n) s), (str_cmp (member n) m); naive_solver.
Qed.

Lemma bool_split (b : bool) (P : Prop) : (b = true ↔ P) → ¬ P → b = false.
Proof. destruct b; naive_solver. Qed.

(** ** Insertion and deletion *)

Lemma valid_elem ns a : Forall kvalid (keys ns) → a ∈ ns → not_nan (a_score a).
Proof.
  intros H Ha. rewrite Forall_forall in H. apply (H (a_key a)).
  unfold keys. by apply list_elem_of_fmap_2.
Qed.

Lemma insert_ok sl l m s : represents sl l → m ∉ l.*1 → m ≠ [] → not_nan s →
  ∃ x sl' l', insert m s sl = Some (x, sl') ∧ represents sl' l' ∧ l' ≡ₚ (m, s) :: l.
Proof.
  intros (ns & Hr & <- & Hsort & Hval & Hnd & Hemp) Hm Hne Hs.
  set (P := λ a, klt (a_key a) (m, s)).
  assert (Hsplit : ns = filter P ns ++ filter (λ a, ¬ P a) ns).
  { apply (sorted_split (λ a b, klt (a_key a) (a_key b))); [by apply sorted_keys|].
    intros a b Ha Hb Hab HPb. apply (klt_trans _ (a_key b)); [..|done|done]; try by eapply valid_elem. done. }
  set (A := filter P ns) in *. set (B := filter (λ a, ¬ P a) ns) in *.
  assert (HA : ∀ a, a ∈ A → P a ∧ a ∈ ns) by (intros a Ha; by apply list_elem_of_filter in Ha).
  assert (HB : ∀ a, a ∈ B → ¬ P a ∧ a ∈ ns) by (intros a Ha; by apply list_elem_of_filter in Ha).
  destruct (insert_rep sl A B m s) as (x & h & sl' & E & _ & Hr').
  { by rewrite <- Hsplit. }
  { apply stops_of_split; intros a n r Ha Ea.
    - apply HA in Ha as [HP Ha]. apply before_klt; [done| |by rewrite Ea].
      injection Ea as _ Ea. rewrite Ea. by eapply valid_elem.
    - apply HB in Ha as [HP Ha]. eapply bool_split; [apply before_klt|by rewrite Ea]; [done|].
      injection Ea as _ Ea. rewrite Ea. by eapply valid_elem. }
  exists x, sl', (keys (A ++ MkA x m s h :: B)). split; [done|].
  assert (Hperm : keys (A ++ MkA x m s h :: B) ≡ₚ (m, s) :: keys ns).
  { rewrite keys_app, keys_cons, <- Permutation_middle, <- keys_app, <- Hsplit. done. }
  split; [|done]. exists (A ++ MkA x m s h :: B). split; [done|]. split; [done|].
  assert (Hmem : ∀ a, a ∈ ns → a_member a ≠ m).
  { intros a Ha <-. apply Hm. unfold keys. rewrite <- list_fmap_compose.
    apply list_elem_of_fmap. exists a. done. }
  assert (Hperm1 : (keys (A ++ MkA x m s h :: B)).*1 ≡ₚ m :: (keys ns).*1).
  { exact (fmap_Permutation fst _ _ Hperm). }
  split; [|split; [|split]].
  2: { apply (Permutation_Forall (symmetry Hperm)). by constructor. }
  2: { rewrite Hperm1. by apply NoDup_cons. }
  2: { rewrite Hperm1, not_elem_of_cons. by split. }
  apply sorted_keys. apply sorted_keys in Hsort. rewrite Hsplit in Hsort. unfold sorted_nodes in *.
  rewrite StronglySorted_app in *. destruct Hsort as (HAB & HsA & HsB).
  rewrite StronglySorted_cons, Forall_forall. split_and!; [|done| |done].
  - intros a b Ha [->|Hb]%elem_of_cons; [by apply HA|by apply HAB].
  - intros b Hb. apply HB in Hb as [HPb Hb]. unfold P, klt in HPb. simpl.
    unfold klt. change (a_key (MkA x m s h)) with (m, s).
    rewrite (tw_antisym (f:=kcmp) (a_key b) (m, s)) by (by eapply valid_elem || done).
    destruct (kcmp (a_key b) (m, s)) eqn:Ec; [|done|done]. apply kcmp_member in Ec. by apply Hmem in Hb.
Qed.

(** The position of an entry of a sorted list splits it. *)
Lemma sorted_around ns A a B : ns = A ++ a :: B → sorted_nodes ns → Forall kvalid (keys ns) →
  (∀ b, b ∈ A → klt (a_key b) (a_key a)) ∧
  (∀ b, b ∈ B → kcmp (a_key b) (a_key a) = Gt) ∧ kcmp (a_key a) (a_key a) = Eq.
Proof.
  intros -> Hs Hv. unfold sorted_nodes in Hs. rewrite StronglySorted_app, StronglySorted_cons, Forall_forall in Hs.
  destruct Hs as (HAB & _ & HaB & _).
  assert (Hva : kvalid (a_key a)) by (eapply (valid_elem _ a); [done|set_solver]).
  split; [intros b Hb; apply HAB; [done|left]|]. split; [|by apply (tw_refl kvalid kcmp)].
  intros b Hb. rewrite (tw_antisym (f:=kcmp) (a_key a) (a_key b)); [|done|].
  - by rewrite (HaB b Hb).
  - eapply (valid_elem _ b); [done|set_solver].
Qed.

Lemma represents_remove sl sl' A D B : represents sl (keys (A ++ D ++ B)) → rep sl' (A ++ B) →
  represents sl' (keys (A ++ B)).
Proof.
  intros (ns & _ & _ & Hsort & Hval & Hnd & Hemp) Hr'. exists (A ++ B). split; [done|]. split; [done|].
  assert (Hsub : keys (A ++ B) `sublist_of` keys (A ++ D ++ B)).
  { unfold keys. apply fmap_sublist. apply sublist_app; [done|]. by apply sublist_inserts_l. }
  split; [|split; [|split]].
  - rewrite !keys_app in *. rewrite !StronglySorted_app in *. destruct Hsort as (H1 & H2 & _ & _ & H3).
    split_and!; [|done..]. intros x y Hx Hy. apply H1; [done|]. apply elem_of_app. by right.
  - rewrite !keys_app, !Forall_app in *. naive_solver.
  - eapply sublist_NoDup; [exact Hnd|by apply fmap_sublist].
  - intros Hin. apply Hemp. eapply elem_of_sublist; [exact Hin|by apply fmap_sublist].
Qed.
Lemma delete_ok sl l m s : represents sl l → (m, s) ∈ l →
  ∃ sl' l', delete_ m s sl = Some (true, sl') ∧ represents sl' l' ∧ l ≡ₚ (m, s) :: l'.
Proof.
  intros Hrep Hin. pose proof Hrep as (ns & Hr & <- & Hsort & Hval & Hnd & Hemp).
  unfold keys in Hin. apply list_elem_of_fmap in Hin as (a & Ea & (A & B & ->)%list_elem_of_split).
  injection Ea as -> ->. apply sorted_keys in Hsort.
  destruct (sorted_around _ A a B eq_refl Hsort Hval) as (HA & HB & Haa).
  assert (Hve : ∀ b, b ∈ A ++ a :: B → not_nan (a_score b)) by (intros b; by apply valid_elem).
  assert (Hva : not_nan (a_score a)) by (apply Hve; set_solver).
  assert (Hstop : stops_after sl (A ++ a :: B) A (before (a_member a) (a_score a))).
  { apply stops_of_split; intros b n r Hb Eb.
    - assert (Es : score n = a_score b) by (by injection Eb). apply before_klt; [done| |rewrite Eb; by apply HA].
      rewrite Es. apply Hve. set_solver.
    - assert (Es : score n = a_score b) by (by injection Eb).
      eapply bool_split; [apply before_klt|]; [done|rewrite Es; apply Hve; set_solver|].
      rewrite Eb. unfold klt. change (a_member a, a_score a) with (a_key a).
      apply elem_of_cons in Hb as [->|Hb]; [by rewrite Haa|by rewrite (HB b Hb)]. }
  destruct (search_ok _ _ _ _ Hr Hstop) as (ur & Eur & _ & Hc). unfold delete_. rewrite Eur. simpl.
  rewrite (afterSearch_ok _ _ _ _ Hr Hc). simpl.
  destruct (rep_node sl _ a Hr) as (n & -> & Hnm & Hns); [set_solver|]. simpl. rewrite Hnm, Hns.
  rewrite (proj2 (float_eqb_cmp _ _ Hva Hva)), bool_decide_true by (done || by apply (tw_refl not_nan float_cmp)).
  simpl. destruct (deleteNode_rep sl A B a ur Hr Hc) as (sl' & -> & _ & Hr' & _). simpl.
  exists sl', (keys (A ++ B)). split; [done|]. split; [by apply (represents_remove sl sl' A [a] B)|].
  rewrite !keys_app, keys_cons. by rewrite Permutation_middle.
Qed.

(** ** Walking *)

Definition dir {X} (desc : bool) (l : list X) : list X := if desc then reverse l else l.

Lemma nextOf_ok sl ns desc pre a post : rep sl ns → dir desc ns = pre ++ a :: post →
  nextOf sl desc (a_ptr a) = Some (a_ptr <$> head post).
Proof.
  intros Hr E. destruct desc; simpl in E; unfold nextOf.
  - apply (f_equal reverse) in E. rewrite reverse_involutive, reverse_app, reverse_cons, <- app_assoc in E.
    destruct (rep_nodes _ _ Hr (hd_node sl :: reverse post) a (reverse pre)) as [Hs _].
    { by rewrite E. }
    unfold shape in Hs. unfold getNode. destruct (heap sl !! a_ptr a); [|done]. simpl in *.
    injection Hs as _ _ -> _. by rewrite last_reverse.
  - subst ns. destruct (rep_nodes _ _ Hr (hd_node sl :: pre) a post eq_refl) as [_ Hl].
    pose proof (rep_heights _ _ Hr) as Hh. rewrite Forall_app, Forall_cons in Hh. destruct Hh as (_ & Ha & Hp).
    destruct (Hl 0) as (sp & -> & _); [lia|]. simpl. f_equal. destruct post as [|c post]; [done|].
    apply Forall_cons in Hp as [Hc _]. by destruct (fwd_here 0 c post) as [-> _]; [lia|].
Qed.

Lemma headOf_ok sl ns : rep sl ns → headOf sl = Some (a_ptr <$> head ns).
Proof.
  intros Hr. unfold headOf. destruct (rep_nodes _ _ Hr [] (hd_node sl) ns eq_refl) as [_ Hl].
  destruct (Hl 0) as (sp & E & _); [simpl; unfold maxLevel; lia|]. simpl in E. rewrite E. simpl. f_equal.
  destruct ns as [|c ns]; [done|]. pose proof (rep_heights _ _ Hr) as Hh. apply Forall_cons in Hh as [Hc _].
  by destruct (fwd_here 0 c ns) as [-> _]; [lia|].
Qed.

Lemma tail_ok sl ns : rep sl ns → tail sl = a_ptr <$> head (reverse ns).
Proof. intros Hr. by rewrite (rep_tail _ _ Hr), head_reverse. Qed.

Lemma collectN_ok sl ns desc n pre k : rep sl ns → dir desc ns = pre ++ k →
  collectN sl desc n (a_ptr <$> head k) = Some (a_ptr <$> take n k).
Proof.
  intros Hr. revert pre k. induction n as [|n IH]; intros pre k E; [done|].
  destruct k as [|a k]; [done|]. simpl. rewrite (nextOf_ok _ _ _ _ _ _ Hr E). simpl.
  by rewrite (IH (pre ++ [a]) k) by by rewrite <- app_assoc.
Qed.

Lemma dir_elem {X} desc (l : list X) x : x ∈ dir desc l ↔ x ∈ l.
Proof. destruct desc; simpl; [apply elem_of_reverse|done]. Qed.

Lemma skipWhile_ok sl ns desc test fuel pre F G : rep sl ns → dir desc ns = pre ++ F ++ G →
  length F ≤ fuel → Forall (λ a, test (a_score a) = true) F → Forall (λ a, test (a_score a) = false) G →
  skipWhile sl desc test fuel (a_ptr <$> head (F ++ G)) = Some (a_ptr <$> head G).
Proof.
  intros Hr E Hf HF HG. revert fuel pre E Hf. induction HF as [|a F Ha HF IH]; intros fuel pre E Hf; simpl.
  - destruct G as [|b G]; [by destruct fuel|]. simpl.
    destruct (rep_node sl ns b Hr) as (n & Hn & _ & Hs).
    { rewrite <- (dir_elem desc), E. set_solver. }
    apply Forall_cons in HG as [HG _]. destruct fuel; simpl; rewrite Hn; simpl; by rewrite Hs, HG.
  - destruct (rep_node sl ns a Hr) as (n & Hn & _ & Hs).
    { rewrite <- (dir_elem desc), E. set_solver. }
    simpl in Hf. destruct fuel as [|fuel]; [lia|]. simpl. rewrite Hn. simpl. rewrite Hs, Ha.
    rewrite (nextOf_ok _ _ _ pre a (F ++ G) Hr E). simpl. apply (IH fuel (pre ++ [a])); [|lia].
    by rewrite <- app_assoc.
Qed.

Lemma takeWhile_ok sl ns desc test fuel pre F G : rep sl ns → dir desc ns = pre ++ F ++ G →
  length F ≤ fuel → Forall (λ a, test (a_score a) = true) F → Forall (λ a, test (a_score a) = false) G →
  takeWhile sl desc test fuel (a_ptr <$> head (F ++ G)) = Some (a_ptr <$> F).
Proof.
  intros Hr E Hf HF HG. revert fuel pre E Hf. induction HF as [|a F Ha HF IH]; intros fuel pre E Hf; simpl.
  - destruct G as [|b G]; [by destruct fuel|]. simpl.
    destruct (rep_node sl ns b Hr) as (n & Hn & _ & Hs).
    { rewrite <- (dir_elem desc), E. set_solver. }
    apply Forall_cons in HG as [HG _]. destruct fuel; simpl; rewrite Hn; simpl; by rewrite Hs, HG.
  - destruct (rep_node sl ns a Hr) as (n & Hn & _ & Hs).
    { rewrite <- (dir_elem desc), E. set_solver. }
    simpl in Hf. destruct fuel as [|fuel]; [lia|]. simpl. rewrite Hn. simpl. rewrite Hs, Ha.
    rewrite (nextOf_ok _ _ _ pre a (F ++ G) Hr E). simpl.
    by rewrite (IH fuel (pre ++ [a])) by (by rewrite <- ?app_assoc || lia).
Qed.

(** What the callers read out of the nodes they get. *)
Definition entriesOf sl (xs : list nat) : option (list entry) :=
  mapM (λ x, n ← getNode sl x; Some (member n, score n)) xs.

Lemma entriesOf_ok sl ns k : rep sl ns → k ⊆ ns → entriesOf sl (a_ptr <$> k) = Some (keys k).
Proof.
  intros Hr Hk. unfold entriesOf. apply mapM_Some_2. unfold keys. apply Forall2_fmap, Forall_Forall2_diag.
  apply Forall_forall. intros a Ha. destruct (rep_node sl ns a Hr) as (n & -> & Hm & Hs); [by apply Hk|].
  simpl. unfold a_key. by rewrite Hm, Hs.
Qed.
(** ** Ranks *)

Lemma fuel_enough sl ns (k : list anode) : rep sl ns → length k ≤ length ns → length k ≤ fuelOf sl.
Proof. intros Hr Hk. unfold fuelOf. rewrite (rep_length _ _ Hr), Nat2Z.id. done. Qed.

(** When the search stops after [A ++ [a]], every level reaches the last node [a]
    or a node before it, and the lowest level reaches it. *)
Lemma advance_last sl A0 a B adv i pre c post :
  rep sl (A0 ++ a :: B) → stops_after sl ((A0 ++ [a]) ++ B) (A0 ++ [a]) adv →
  hd_node sl :: A0 ++ [a] = pre ++ c :: post → i < a_height c → i < slevel sl →
  ∃ P b Q, hd_node sl :: A0 ++ [a] = P ++ b :: Q ∧ i < a_height b ∧ (i = 0 → Q = []) ∧
    (Q = [] → b = a ∧ length P = S (length A0)) ∧ (Q ≠ [] → a_ptr b ≠ a_ptr a) ∧
    advance sl adv i (fuelOf sl) (a_ptr c) (Z.of_nat (length pre)) = Some (a_ptr b, Z.of_nat (length P)).
Proof.
  intros Hr Hst E Hc Hi. assert (Hr' : rep sl ((A0 ++ [a]) ++ B)) by (by rewrite <- app_assoc).
  destruct (advance_ok sl (A0 ++ [a]) B adv i (fuelOf sl) pre c post Hr' Hst E Hc Hi)
    as (P & b & Q & Hcut & Ead).
  { apply (fuel_enough _ _ _ Hr). apply (f_equal length) in E. rewrite ?length_app in *. simpl in *.
    rewrite ?length_app in *. simpl in *. lia. }
  exists P, b, Q. pose proof Hcut as (EL & Hb & HQ). split; [done|]. split; [done|]. split_and!; [| | |done].
  - intros ->. apply (cut_zero _ _ _ _ Hcut). pose proof (rep_heights_hd _ _ Hr') as H.
    rewrite app_comm_cons, Forall_app in H. apply H.
  - intros ->. rewrite app_comm_cons in EL. apply app_inj_tail in EL as [<- <-]. done.
  - intros HQne Ep. pose proof (rep_nodup _ _ Hr') as Hnd.
    destruct (ptr_unique _ P b (Q ++ B) (hd_node sl :: A0) a B Hnd) as (EP & _ & EQ).
    + by rewrite app_comm_cons, EL, <- app_assoc.
    + simpl. by rewrite <- app_assoc.
    + done.
    + apply (f_equal length) in EQ. rewrite length_app in EQ. destruct Q; [done|]. simpl in EQ. lia.
Qed.

Lemma byRankLoop_ok sl A0 a B i pre c post :
  rep sl (A0 ++ a :: B) → hd_node sl :: A0 ++ [a] = pre ++ c :: post →
  1 ≤ i → i ≤ a_height c → i ≤ slevel sl →
  byRankLoop sl (Z.of_nat (S (length A0))) i (a_ptr c) (Z.of_nat (length pre)) = Some (Some (a_ptr a)).
Proof.
  intros Hr. revert pre c post. induction i as [|i IH]; intros pre c post E H1 Hi Hl; [lia|]. cbn [byRankLoop].
  destruct (advance_last sl A0 a B (λ _ r, (r <=? Z.of_nat (S (length A0)))%Z) i pre c post)
    as (P & b & Q & EL & Hb & H0 & HQ & Hne & ->); [done| |done|lia|lia|].
  { apply stops_of_rank. intros _ k. rewrite length_app. simpl.
    destruct (bool_decide_reflect (k < length A0 + 1)); [apply Z.leb_le|apply Z.leb_gt]; lia. }
  simpl. destruct Q as [|q Q].
  - destruct HQ as [-> HP]; [done|]. by rewrite HP, Z.eqb_refl.
  - rewrite (proj2 (Z.eqb_neq _ _)).
    + apply (IH P b (q :: Q)); [done| |lia|lia]. destruct i; [|lia]. by specialize (H0 eq_refl).
    + apply (f_equal length) in EL. rewrite ?length_app in EL. simpl in EL. rewrite ?length_app in EL. simpl in EL. lia.
Qed.

Lemma getNodeByRank_ok sl ns k : rep sl ns →
  getNodeByRank (Z.of_nat k) sl = Some (if decide (k = 0) then None else a_ptr <$> ns !! (k - 1)).
Proof.
  intros Hr. unfold getNodeByRank. rewrite (rep_length _ _ Hr).
  destruct (decide (k = 0)) as [->|Hk]; [done|].
  destruct (decide (k ≤ length ns)) as [Hle|Hgt].
  - rewrite (proj2 (Z.leb_gt _ _)), (proj2 (Z.ltb_ge _ _)) by lia. simpl.
    destruct (lookup_lt_is_Some_2 ns (k - 1)) as [a Ha]; [lia|]. rewrite Ha.
    pose proof (list_elem_of_split_length _ _ _ Ha) as (A0 & B & E & HlA). rewrite E in Hr.
    replace k with (S (length A0)) by lia. pose proof (rep_level _ _ Hr).
    apply (byRankLoop_ok sl A0 a B (slevel sl) [] (hd_node sl) (A0 ++ [a])); [done|done|lia|simpl; lia|done].
  - rewrite (proj2 (Z.ltb_lt _ _)), orb_true_r by lia. by rewrite lookup_ge_None_2 by lia.
Qed.

Lemma upTo_stops sl A0 a B : sorted_nodes (A0 ++ a :: B) → Forall kvalid (keys (A0 ++ a :: B)) →
  stops_after sl ((A0 ++ [a]) ++ B) (A0 ++ [a]) (upTo (a_member a) (a_score a)).
Proof.
  intros Hs Hv. destruct (sorted_around _ A0 a B eq_refl Hs Hv) as (HA & HB & Haa).
  assert (Hve : ∀ b, b ∈ A0 ++ a :: B → not_nan (a_score b)) by (intros b; by apply valid_elem).
  assert (Hva : not_nan (a_score a)) by (apply Hve; set_solver).
  apply stops_of_split; intros b n r Hb Eb; assert (Es : score n = a_score b) by (by injection Eb).
  - apply upTo_kle; [done|rewrite Es; apply Hve; set_solver|]. rewrite Eb.
    change (a_member a, a_score a) with (a_key a). apply elem_of_app in Hb as [Hb|Hb]; [by rewrite (HA b Hb)|].
    apply list_elem_of_singleton in Hb as ->. by rewrite Haa.
  - eapply bool_split; [apply upTo_kle|]; [done|rewrite Es; apply Hve; set_solver|].
    rewrite Eb. change (a_member a, a_score a) with (a_key a). rewrite (HB b Hb). naive_solver.
Qed.

(** Before the node itself no node has its member, the header included. *)
Lemma other_member sl A0 a B P b Q : NoDup (keys (A0 ++ a :: B)).*1 → a_member a ≠ [] →
  hd_node sl :: A0 ++ [a] = P ++ b :: Q → Q ≠ [] → a_member b ≠ a_member a.
Proof.
  intros Hnd Hemp EL HQ Em. destruct P as [|h P]; injection EL as Eh EL; [subst b; done|].
  destruct Q as [|q Q _] using rev_ind; [done|]. rewrite app_comm_cons, app_assoc in EL.
  apply app_inj_tail in EL as [-> ->]. unfold keys in Hnd.
  rewrite <- list_fmap_compose, !fmap_app, !fmap_cons, <- app_assoc in Hnd. simpl in Hnd.
  apply NoDup_app in Hnd as (_ & _ & [Hnd _]%NoDup_cons). apply Hnd. rewrite Em. set_solver.
Qed.

Lemma getRankLoop_ok sl A0 a B i pre c post desc :
  rep sl (A0 ++ a :: B) → sorted_nodes (A0 ++ a :: B) → Forall kvalid (keys (A0 ++ a :: B)) →
  NoDup (keys (A0 ++ a :: B)).*1 → a_member a ≠ [] →
  hd_node sl :: A0 ++ [a] = pre ++ c :: post → 1 ≤ i → i ≤ a_height c → i ≤ slevel sl →
  getRankLoop sl (a_member a) (a_score a) desc i (a_ptr c) (Z.of_nat (length pre)) =
    Some (if desc then Z.of_nat (length B) else Z.of_nat (length A0)).
Proof.
  intros Hr Hs Hv Hnd Hemp. pose proof (upTo_stops sl A0 a B Hs Hv) as Hst.
  revert pre c post. induction i as [|i IH]; intros pre c post E H1 Hi Hl; [lia|]. cbn [getRankLoop].
  destruct (advance_last sl A0 a B (upTo (a_member a) (a_score a)) i pre c post)
    as (P & b & Q & EL & Hb & H0 & HQ & Hne & ->); [done..|lia|lia|]. simpl.
  assert (∃ n, getNode sl (a_ptr b) = Some n ∧ member n = a_member b) as (n & -> & Hm).
  { destruct (rep_nodes _ _ Hr P b (Q ++ B)) as [Hsh _].
    { replace (hd_node sl :: A0 ++ a :: B) with ((hd_node sl :: A0 ++ [a]) ++ B) by (simpl; by rewrite <- app_assoc).
      by rewrite EL, <- app_assoc. }
    unfold shape in Hsh. unfold getNode. destruct (heap sl !! a_ptr b) as [n|]; [|done].
    exists n. simpl in Hsh. by simplify_eq. }
  simpl. rewrite Hm, (rep_length _ _ Hr), length_app. simpl. destruct Q as [|q Q].
  - destruct HQ as [-> HP]; [done|]. rewrite decide_True by done. rewrite HP. f_equal. destruct desc; lia.
  - rewrite decide_False by (by eapply other_member). apply (IH P b (q :: Q)); [done| |lia|lia].
    destruct i; [|lia]. by specialize (H0 eq_refl).
Qed.

(** The rank of an entry is its position. *)
Lemma getRank_ok sl l i m s desc : represents sl l → l !! i = Some (m, s) →
  getRank m s desc sl = Some (if desc then Z.of_nat (length l - 1 - i) else Z.of_nat i).
Proof.
  intros (ns & Hr & <- & Hsort & Hval & Hnd & Hemp) Hi. unfold keys in Hi. rewrite list_lookup_fmap in Hi.
  destruct (ns !! i) as [a|] eqn:Ha; [|done]. simpl in Hi. injection Hi as <- <-.
  pose proof (list_elem_of_split_length _ _ _ Ha) as (A0 & B & -> & HlA). apply sorted_keys in Hsort.
  unfold getRank. pose proof (rep_level _ _ Hr).
  pose proof (getRankLoop_ok sl A0 a B (slevel sl) [] (hd_node sl) (A0 ++ [a]) desc) as Hloop.
  change (Z.of_nat (@length anode [])) with 0%Z in Hloop. cbn [a_ptr hd_node] in Hloop. rewrite Hloop; try done; try (simpl; lia).
  - f_equal. unfold keys. rewrite length_fmap, length_app. simpl. destruct desc; lia.
  - intros Em. apply Hemp. unfold keys. rewrite <- list_fmap_compose. apply list_elem_of_fmap.
    exists a. split; [done|set_solver].
Qed.
(** ** Ranges by rank *)

(** The positions [start..stop] of a list, negative ones counted from the end. *)
Definition slice {X} (start stop : Z) (k : list X) : list X :=
  let n := Z.of_nat (length k) in
  let a := Z.max 0 (if (start <? 0)%Z then n + start else start)%Z in
  let b := Z.min (n - 1) (if (stop <? 0)%Z then n + stop else stop)%Z in
  take (Z.to_nat (b - a + 1)) (drop (Z.to_nat a) k).

(** Rank arguments are taken to be far from the limits of [int64]. *)
Definition rank_ok (z : Z) : Prop := (- 2 ^ 62 ≤ z ≤ 2 ^ 62)%Z.

Lemma clampRange_ok sl ns start stop : rep sl ns →
  clampRange sl start stop =
    (Z.max 0 (if (start <? 0)%Z then Z.of_nat (length ns) + start else start),
     Z.min (Z.of_nat (length ns) - 1) (if (stop <? 0)%Z then Z.of_nat (length ns) + stop else stop))%Z.
Proof.
  intros Hr. unfold clampRange. rewrite (rep_length _ _ Hr). f_equal.
  - destruct (start <? 0)%Z eqn:E; unbool; destruct (_ <? 0)%Z eqn:E'; unbool; lia.
  - destruct (stop <? 0)%Z eqn:E; unbool; destruct (_ <=? _)%Z eqn:E'; unbool; lia.
Qed.

Lemma keys_dir desc ns : keys (dir desc ns) = dir desc (keys ns).
Proof. destruct desc; [apply fmap_reverse|done]. Qed.

Lemma start_node sl ns (desc : bool) (a : nat) : rep sl ns →
  (if desc then if (0 <? Z.of_nat a)%Z then getNodeByRank (length_ sl - Z.of_nat a) sl else Some (tail sl)
   else if (0 <? Z.of_nat a)%Z then getNodeByRank (Z.of_nat a + 1) sl else headOf sl) =
  Some (a_ptr <$> head (drop a (dir desc ns))).
Proof.
  intros Hr. destruct a as [|a].
  { simpl. rewrite drop_0. destruct desc; [by rewrite (tail_ok _ _ Hr)|by apply headOf_ok]. }
  rewrite (proj2 (Z.ltb_lt 0 _)) by lia. rewrite head_lookup, lookup_drop, Nat.add_0_r. destruct desc; simpl.
  - destruct (decide (S a < length ns)) as [Hlt|Hge].
    + rewrite (rep_length _ _ Hr). replace (Z.of_nat (length ns) - Z.of_nat (S a))%Z with
        (Z.of_nat (length ns - S a)) by lia. rewrite (getNodeByRank_ok _ _ _ Hr), decide_False by lia.
      rewrite reverse_lookup by done. do 3 f_equal. lia.
    + rewrite lookup_ge_None_2 by (rewrite length_reverse; lia).
      unfold getNodeByRank. rewrite (rep_length _ _ Hr). by rewrite (proj2 (Z.leb_le _ _)) by lia.
  - replace (Z.of_nat (S a) + 1)%Z with (Z.of_nat (S (S a))) by lia.
    by rewrite (getNodeByRank_ok _ _ _ Hr), decide_False by lia.
Qed.

Lemma getRange_ok sl l start stop desc : represents sl l → (Z.of_nat (length l) ≤ 2 ^ 45)%Z →
  rank_ok start → rank_ok stop →
  ∃ xs, getRange start stop desc sl = Some xs ∧ entriesOf sl xs = Some (slice start stop (dir desc l)).
Proof.
  intros (ns & Hr & <- & _) Hlen Hst Hsp. unfold keys in Hlen. rewrite length_fmap in Hlen. unfold getRange.
  rewrite (clampRange_ok _ _ _ _ Hr). unfold slice.
  assert (El : length (dir desc (keys ns)) = length ns).
  { rewrite <- keys_dir. unfold keys. rewrite length_fmap. destruct desc; [apply length_reverse|done]. }
  rewrite El. set (a := Z.max 0 _). set (b := Z.min _ _). unfold rank_ok in *.
  assert (0 ≤ a ≤ 2 ^ 63 - 2)%Z by (unfold a; case_match; unbool; lia).
  assert (- 2 ^ 63 ≤ b - a ∧ b - a + 1 ≤ 2 ^ 45)%Z as [Hba1 Hba2].
  { unfold a, b. split; repeat case_match; unbool; lia. }
  rewrite (wrap64_small (b - a)) by (unfold is_int64, int64_min, int64_max; lia).
  rewrite wrap64_small by (unfold is_int64, int64_min, int64_max; lia).
  destruct (Z.leb_spec (b - a + 1) 0).
  { exists []. split; [done|]. by replace (Z.to_nat (b - a + 1)) with 0 by lia. }
  rewrite (wrap64_small (a + 1)) by (unfold is_int64, int64_min, int64_max; lia).
  rewrite <- (Z2Nat.id a) by lia. rewrite (start_node _ _ _ _ Hr). simpl.
  unfold makeCap. rewrite Z2Nat.id by lia. rewrite (proj2 (Z.ltb_ge _ _)) by lia. simpl.
  erewrite (collectN_ok sl ns desc _ (take (Z.to_nat a) (dir desc ns))); [|done|by rewrite take_drop].
  eexists. split; [done|]. rewrite (entriesOf_ok sl ns); [|done|].
  2: { intros x Hx. apply (dir_elem desc). eapply elem_of_sublist; [exact Hx|].
       etrans; [apply sublist_take|apply sublist_drop]. }
  unfold keys at 1. by rewrite fmap_take, fmap_drop, <- keys_dir.
Qed.
(** ** Ranges by score *)

Definition inScores (mn mx : float64) (x : entry) : Prop :=
  float_leb mn x.2 = true ∧ float_leb x.2 mx = true.
#[export] Instance inScores_dec mn mx x : Decision (inScores mn mx x).
Proof. unfold inScores. apply _. Defined.

Lemma float_leb_false x y : not_nan x → not_nan y → float_leb x y = false ↔ float_ltb y x = true.
Proof.
  intros Hx Hy. rewrite float_ltb_cmp, <- float_cmp_gt_lt by done.
  rewrite <- not_true_iff_false, float_leb_cmp by done. destruct (float_cmp x y); naive_solver.
Qed.
Lemma float_ltb_false x y : not_nan x → not_nan y → float_ltb x y = false ↔ float_leb y x = true.
Proof.
  intros Hx Hy. rewrite <- not_true_iff_false, <- (float_leb_false y x) by done.
  destruct (float_leb y x); naive_solver.
Qed.
Lemma float_ltb_le x y : float_ltb x y = true → float_leb x y = true.
Proof. unfold float_ltb, float_leb, SpecFloat.SFltb, SpecFloat.SFleb. by repeat case_match. Qed.
Lemma float_le_trans x y z : not_nan x → not_nan y → not_nan z →
  float_leb x y = true → float_leb y z = true → float_leb x z = true.
Proof. intros Hx Hy Hz. rewrite !float_leb_cmp by done. by apply (tw_le_trans not_nan float_cmp). Qed.

Lemma score_parts mn mx L M H : Forall kvalid (keys (L ++ M ++ H)) → not_nan mn → not_nan mx →
  Forall (λ a, float_ltb (a_score a) mn = true) L → Forall (λ a, inScores mn mx (a_key a)) M →
  Forall (λ a, float_ltb mx (a_score a) = true) H →
  keys M = filter (inScores mn mx) (keys (L ++ M ++ H)).
Proof.
  intros Hv Hmn Hmx HL HM HH. rewrite !keys_app in Hv |- *. rewrite !filter_app.
  apply Forall_app in Hv as [HvL [_ HvH]%Forall_app]. unfold keys in *. rewrite !Forall_fmap in *.
  rewrite (filter_none _ (a_key <$> L)), (filter_all _ (a_key <$> M)), (filter_none _ (a_key <$> H));
    [by rewrite app_nil_r|apply Forall_fmap..]; rewrite ?Forall_forall in *.
  - intros a Ha [_ Hb]. specialize (HH a Ha). apply float_leb_false in HH; [|by apply HvH|done].
    simpl in Hb. congruence.
  - done.
  - intros a Ha [Hb _]. specialize (HL a Ha). apply float_ltb_false in Hb; [|by apply HvL|done].
    simpl in Hb. congruence.
Qed.

(** A sorted list falls into the entries below, within and above the range. *)
Lemma score_split ns mn mx : sorted_nodes ns → Forall kvalid (keys ns) → not_nan mn → not_nan mx →
  float_leb mn mx = true → ∃ L M H, ns = L ++ M ++ H ∧ keys M = filter (inScores mn mx) (keys ns) ∧
    Forall (λ a, float_ltb (a_score a) mn = true) L ∧
    Forall (λ a, inScores mn mx (a_key a)) M ∧ Forall (λ a, float_ltb mx (a_score a) = true) H.
Proof.
  intros Hs Hv Hmn Hmx Hle.
  assert (Hdown : ∀ (t : float64) a b, not_nan t → a ∈ ns → b ∈ ns → klt (a_key a) (a_key b) →
    float_leb (a_score a) (a_score b) = true).
  { intros t a b Ht Ha Hb Hab. apply float_leb_cmp; [by eapply valid_elem..|]. apply (klt_score _ _ Hab). }
  set (P1 := λ a, float_ltb (a_score a) mn = true). set (P2 := λ a, float_leb (a_score a) mx = true).
  assert (E1 : ns = filter P1 ns ++ filter (λ a, ¬ P1 a) ns).
  { apply (sorted_split (λ a b, klt (a_key a) (a_key b))); [done|]. unfold P1. intros a b Ha Hb Hab.
    pose proof (Hdown mn a b Hmn Ha Hb Hab) as Hab'. apply (valid_elem _ _ Hv) in Ha, Hb.
    destruct (float_ltb (a_score a) mn) eqn:E; [done|]. apply float_ltb_false in E; [|done..].
    pose proof (float_le_trans _ _ _ Hmn Ha Hb E Hab') as E'. by apply float_ltb_false in E' as ->. }
  set (G := filter (λ a, ¬ P1 a) ns) in *.
  assert (HG : ∀ a, a ∈ G → a ∈ ns) by (intros a Ha; by apply list_elem_of_filter in Ha as [_ ?]).
  assert (E2 : G = filter P2 G ++ filter (λ a, ¬ P2 a) G).
  { apply (sorted_split (λ a b, klt (a_key a) (a_key b))).
    - unfold sorted_nodes in Hs. rewrite E1, StronglySorted_app in Hs. apply Hs.
    - unfold P2. intros a b Ha%HG Hb%HG Hab. pose proof (Hdown mn a b Hmn Ha Hb Hab).
      apply (valid_elem _ _ Hv) in Ha, Hb. intros ?. by apply (float_le_trans _ (a_score b)). }
  exists (filter P1 ns), (filter P2 G), (filter (λ a, ¬ P2 a) G).
  assert (Hin : Forall (λ a, inScores mn mx (a_key a)) (filter P2 G)).
  { apply Forall_forall. intros a [HP2 Ha]%list_elem_of_filter. pose proof (HG a Ha) as Hn.
    apply list_elem_of_filter in Ha as [HP1 _]. split; [|done]. apply (valid_elem _ _ Hv) in Hn.
    apply not_true_iff_false, float_ltb_false in HP1; done. }
  assert (Hhi : Forall (λ a, float_ltb mx (a_score a) = true) (filter (λ a, ¬ P2 a) G)).
  { apply Forall_forall. intros a [HP2 Ha%HG]%list_elem_of_filter. apply (valid_elem _ _ Hv) in Ha.
    apply not_true_iff_false, float_leb_false in HP2; done. }
  assert (Hlo : Forall (λ a, float_ltb (a_score a) mn = true) (filter P1 ns)).
  { apply Forall_forall. by intros a [? _]%list_elem_of_filter. }
  assert (E : ns = filter P1 ns ++ filter P2 G ++ filter (λ a, ¬ P2 a) G) by (by rewrite <- E2).
  split; [exact E|]. split; [|done]. rewrite (score_parts mn mx (filter P1 ns) _ (filter (λ a, ¬ P2 a) G));
    [by rewrite <- E|by rewrite <- E|done..].
Qed.
Lemma not_gt mn mx : not_nan mn → not_nan mx → float_gtb mn mx = false → float_leb mn mx = true.
Proof. intros Hmn Hmx H. by apply float_ltb_false in H. Qed.

Section by_score.
Context sl l mn mx (Hrep : represents sl l) (Hmn : not_nan mn) (Hmx : not_nan mx)
  (Hle : float_leb mn mx = true).

(** The tests of the code on a score below, within and above the range. *)
Definition tests (below upto : bool) (a : anode) : Prop :=
  float_ltb (a_score a) mn = below ∧ float_geb (a_score a) mn = negb below ∧
  float_leb (a_score a) mx = upto ∧ float_gtb (a_score a) mx = negb upto.

Lemma tests_ok below upto a : not_nan (a_score a) → float_ltb (a_score a) mn = below →
  float_leb (a_score a) mx = upto → tests below upto a.
Proof using Hmn Hmx.
  intros Ha E1 E2. unfold tests, float_geb, float_gtb. split_and!; [done| |done|].
  - change (float_leb mn (a_score a) = negb below). destruct below; simpl.
    + by apply float_leb_false.
    + by apply float_ltb_false in E1.
  - change (float_ltb mx (a_score a) = negb upto). destruct upto; simpl.
    + by apply float_ltb_false.
    + by apply float_leb_false in E2.
Qed.

Lemma score_nodes : ∃ ns L M H, rep sl ns ∧ l = keys ns ∧ ns = L ++ M ++ H ∧
  keys M = filter (inScores mn mx) l ∧
  Forall (tests true true) L ∧ Forall (tests false true) M ∧ Forall (tests false false) H.
Proof using Hrep Hmn Hmx Hle.
  destruct Hrep as (ns & Hr & <- & Hsort & Hval & _). apply sorted_keys in Hsort.
  destruct (score_split ns mn mx Hsort Hval Hmn Hmx Hle) as (L & M & H & E & EM & HL & HM & HH).
  exists ns, L, M, H. assert (Hn : ∀ a, a ∈ ns → not_nan (a_score a)) by (intros a; by apply valid_elem).
  split_and!; try done; rewrite Forall_forall in *; intros a Ha;
    (assert (not_nan (a_score a)) by (apply Hn; subst ns; set_solver)); apply tests_ok; try done.
  - by apply HL.
  - apply (float_le_trans _ mn); try done. by apply float_ltb_le, HL.
  - apply float_ltb_false; [done..|]. by apply (HM a Ha).
  - by apply (HM a Ha).
  - apply float_ltb_false; [done..|]. apply (float_le_trans _ mx); try done. by apply float_ltb_le, HH.
  - apply float_leb_false; [done..|]. by apply HH.
Qed.

Lemma gtb_false : float_gtb mn mx = false.
Proof using Hmn Hmx Hle. by apply float_ltb_false. Qed.

Lemma getRangeByScore_ok desc : ∃ xs, getRangeByScore mn mx desc sl = Some xs ∧
  entriesOf sl xs = Some (filter (inScores mn mx) (dir desc l)).
Proof using Hrep Hmn Hmx Hle.
  destruct score_nodes as (ns & L & M & H & Hr & -> & E & EM & HL & HM & HH).
  unfold getRangeByScore. rewrite gtb_false.
  assert (Hent : ∀ k, k ⊆ M → entriesOf sl (a_ptr <$> k) = Some (keys k)).
  { intros k Hk. apply (entriesOf_ok sl ns); [done|]. subst ns. set_solver. }
  assert (Hfuel : fuelOf sl = length L + (length M + length H)).
  { unfold fuelOf. rewrite (rep_length _ _ Hr), Nat2Z.id. subst ns. by rewrite !length_app. }
  destruct desc; simpl.
  - assert (Erev : reverse ns = [] ++ reverse H ++ reverse M ++ reverse L).
    { subst ns. by rewrite !reverse_app, <- app_assoc. }
    rewrite (tail_ok _ _ Hr), Erev. simpl.
    rewrite (skipWhile_ok sl ns true _ _ [] (reverse H) (reverse M ++ reverse L)); [|done|done|..]; simpl.
    2: { rewrite Hfuel, length_reverse. lia. }
    2: { apply Forall_reverse. eapply Forall_impl; [exact HH|]. by intros a (_ & _ & _ & ?). }
    2: { apply Forall_app. rewrite !Forall_reverse.
         split; (eapply Forall_impl; [eassumption|]; by intros a (_ & _ & _ & ?)). }
    rewrite (takeWhile_ok sl ns true _ _ (reverse H) (reverse M) (reverse L)); [|done|done|..]; simpl.
    2: { rewrite Hfuel, length_reverse. lia. }
    2: { apply Forall_reverse. eapply Forall_impl; [exact HM|]. by intros a (_ & ? & _). }
    2: { apply Forall_reverse. eapply Forall_impl; [exact HL|]. by intros a (_ & ? & _). }
    eexists. split; [done|]. unfold keepScores. rewrite filter_all.
    + rewrite Hent by (intros a; by rewrite elem_of_reverse). rewrite filter_reverse, <- EM.
      unfold keys. by rewrite fmap_reverse.
    + apply Forall_fmap, Forall_reverse, Forall_forall. intros a Ha. simpl.
      destruct (rep_node sl ns a Hr) as (n & -> & _ & ->); [subst ns; set_solver|].
      rewrite Forall_forall in HM. by destruct (HM a Ha) as (_ & _ & ? & _).
  - rewrite (headOf_ok _ _ Hr). simpl. rewrite E.
    rewrite (skipWhile_ok sl ns false _ _ [] L (M ++ H)); [|done|done|lia|..].
    2: { eapply Forall_impl; [exact HL|]. by intros a (? & _). }
    2: { apply Forall_app. split; (eapply Forall_impl; [eassumption|]; by intros a (? & _)). }
    simpl. rewrite (takeWhile_ok sl ns false _ _ L M H); [|done|done|lia|..].
    2: { eapply Forall_impl; [exact HM|]. by intros a (_ & _ & ? & _). }
    2: { eapply Forall_impl; [exact HH|]. by intros a (_ & _ & ? & _). }
    eexists. split; [done|]. rewrite Hent by done. by rewrite EM, E.
Qed.

(** Counting collects the same nodes. *)
Lemma count_ok : count mn mx sl = Some (Z.of_nat (length (filter (inScores mn mx) l))).
Proof using Hrep Hmn Hmx Hle.
  destruct (getRangeByScore_ok false) as (xs & E & Exs). unfold count, getRangeByScore in *.
  rewrite gtb_false in *. destruct (headOf sl); simpl in *; [|done].
  destruct (skipWhile _ _ _ _ _); simpl in *; [|done]. rewrite E. simpl. do 2 f_equal.
  unfold entriesOf in Exs. apply mapM_Some in Exs. by apply Forall2_length in Exs.
Qed.
End by_score.

(** ** Removing ranges *)

Lemma deleteLoop_ok sl A D B test ur d fuel :
  rep sl (A ++ D ++ B) → cuts sl A ur → length D ≤ fuel →
  (∀ D1 a D2 n, D = D1 ++ a :: D2 → (member n, score n) = a_key a → test n (d + Z.of_nat (length D1))%Z = true) →
  (∀ a B' n, B = a :: B' → (member n, score n) = a_key a → test n (d + Z.of_nat (length D))%Z = false) →
  ∃ sl', deleteLoop fuel test ur (a_ptr <$> head (D ++ B)) d sl = Some (d + Z.of_nat (length D), sl')%Z ∧
    rep sl' (A ++ B).
Proof.
  revert sl d fuel. induction D as [|a D IH]; intros sl d fuel Hr Hc Hf HD HB; simpl in *.
  - exists sl. split; [|done]. rewrite Z.add_0_r in *. destruct B as [|b B]; [by destruct fuel|].
    destruct (rep_node sl _ b Hr) as (n & Hn & Hm & Hs); [set_solver|].
    assert (Et : test n d = false) by (apply (HB b B); [done|unfold a_key; by rewrite Hm, Hs]).
    destruct fuel; simpl; rewrite Hn; simpl; by rewrite Et.
  - destruct fuel as [|fuel]; [lia|]. destruct (rep_node sl _ a Hr) as (n & Hn & Hm & Hs); [set_solver|].
    simpl. rewrite Hn. simpl. pose proof (HD [] a D n eq_refl) as Et. simpl in Et. rewrite Z.add_0_r in Et.
    rewrite Et by (unfold a_key; by rewrite Hm, Hs).
    pose proof (nextOf_ok sl _ false A a (D ++ B) Hr eq_refl) as Enx. unfold nextOf in Enx.
    destruct (getLevel sl (a_ptr a) 0) as [lv|]; [|done]. simpl in Enx. injection Enx as Enx. simpl.
    destruct (deleteNode_rep sl A (D ++ B) a ur Hr Hc) as (sl1 & -> & _ & Hr1 & Hc1). simpl. rewrite Enx.
    destruct (IH sl1 (d + 1)%Z fuel Hr1 Hc1) as (sl2 & E2 & Hr2); [lia|..].
    + intros D1 c D2 n' -> En. rewrite <- (HD (a :: D1) c D2 n'); [f_equal; simpl; lia|done..].
    + intros b B' n' -> En. rewrite <- (HB b B' n'); [f_equal; simpl; lia|done..].
    + exists sl2. split; [|done]. rewrite E2. do 2 f_equal. lia.
Qed.

Lemma removal_fuel sl A D B : rep sl (A ++ D ++ B) → length D ≤ fuelOf sl.
Proof. intros Hr. apply (fuel_enough _ _ _ Hr). rewrite !length_app. lia. Qed.

Lemma deleteRangeByScore_ok sl l mn mx : represents sl l → not_nan mn → not_nan mx → float_leb mn mx = true →
  ∃ sl', deleteRangeByScore mn mx sl = Some (Z.of_nat (length (filter (inScores mn mx) l)), sl') ∧
    represents sl' (filter (λ x, ¬ inScores mn mx x) l).
Proof.
  intros Hrep Hmn Hmx Hle.
  destruct (score_nodes sl l mn mx Hrep Hmn Hmx Hle) as (ns & L & M & H & Hr & -> & -> & EM & HL & HM & HH).
  unfold deleteRangeByScore. rewrite (gtb_false mn mx Hmn Hmx Hle). rewrite Forall_forall in HL, HM, HH.
  assert (Hst : stops_after sl (L ++ M ++ H) L (belowScore mn)).
  { apply stops_of_split; intros a n r Ha Ea; unfold belowScore; injection Ea as _ ->.
    - by apply HL.
    - apply elem_of_app in Ha as [Ha|Ha]; [by apply HM|by apply HH]. }
  destruct (search_ok _ _ _ _ Hr Hst) as (ur & -> & _ & Hc). simpl.
  rewrite (afterSearch_ok _ _ _ _ Hr Hc). simpl.
  destruct (deleteLoop_ok sl L M H (λ n _, float_leb (score n) mx) ur 0 (fuelOf sl)) as (sl' & E' & Hr');
    [done|done|by eapply removal_fuel|..].
  { intros D1 a D2 n -> Ea. injection Ea as _ ->. apply HM. set_solver. }
  { intros a B' n -> Ea. injection Ea as _ ->. apply HH. left. }
  exists sl'. rewrite E'. split; [rewrite <- EM; unfold keys; by rewrite length_fmap|].
  pose proof (represents_remove sl sl' L M H Hrep Hr') as Hrep'.
  assert (filter (λ x, ¬ inScores mn mx x) (keys (L ++ M ++ H)) = keys (L ++ H)) as ->; [|done].
  rewrite !keys_app, !filter_app. unfold keys.
  rewrite (filter_all _ (a_key <$> L)), (filter_none _ (a_key <$> M)), (filter_all _ (a_key <$> H));
    [done|apply Forall_fmap, Forall_forall; intros a Ha..]; simpl; unfold inScores; simpl.
  - destruct (HH a Ha) as (_ & _ & -> & _). naive_solver.
  - destruct (HM a Ha) as (_ & E & -> & _). change (float_leb mn (a_score a) = true) in E. naive_solver.
  - destruct (HL a Ha) as (_ & E & _). change (float_leb mn (a_score a) = false) in E. rewrite E. naive_solver.
Qed.

Lemma deleteRangeByRank_ok sl l start stop : represents sl l → ∃ sl' l1 l2,
  deleteRangeByRank start stop sl = Some (Z.of_nat (length (slice start stop l)), sl') ∧
  l = l1 ++ slice start stop l ++ l2 ∧ represents sl' (l1 ++ l2).
Proof.
  intros Hrep. pose proof Hrep as (ns & Hr & <- & _). unfold deleteRangeByRank.
  rewrite (clampRange_ok _ _ _ _ Hr), (rep_length _ _ Hr). unfold slice.
  assert (El : length (keys ns) = length ns) by (unfold keys; by rewrite length_fmap).
  rewrite El. set (a := Z.max 0 _). set (b := Z.min _ _).
  assert (0 ≤ a)%Z by (unfold a; lia). assert (b ≤ Z.of_nat (length ns) - 1)%Z by (unfold b; lia).
  destruct ((b <? a)%Z || (Z.of_nat (length ns) =? 0)%Z) eqn:Eb.
  { assert (take (Z.to_nat (b - a + 1)) (drop (Z.to_nat a) (keys ns)) = []) as ->.
    { apply orb_true_iff in Eb as [Eb|Eb]; unbool.
      - by replace (Z.to_nat (b - a + 1)) with 0 by lia.
      - rewrite drop_ge by lia. apply take_nil. }
    exists sl, [], (keys ns). done. }
  apply orb_false_iff in Eb as [Eb _]. unbool.
  set (na := Z.to_nat a). set (nd := Z.to_nat (b - a + 1)).
  assert (Ens : ns = take na ns ++ take nd (drop na ns) ++ drop nd (drop na ns)) by (by rewrite !take_drop).
  set (A := take na ns) in *. set (D := take nd (drop na ns)) in *. set (B := drop nd (drop na ns)) in *.
  assert (HA : length A = na) by (unfold A, na; rewrite length_take; lia).
  assert (HD : length D = nd) by (unfold D, nd, na; rewrite length_take, length_drop; lia).
  assert (Hst : stops_after sl (A ++ D ++ B) A (λ _ r, (r <? a + 1)%Z)).
  { apply stops_of_rank. intros _ k. rewrite HA. unfold na.
    destruct (bool_decide_reflect (k < Z.to_nat a)); [apply Z.ltb_lt|apply Z.ltb_ge]; lia. }
  rewrite Ens in Hr. destruct (search_ok _ _ _ _ Hr Hst) as (ur & -> & _ & Hc). simpl.
  destruct (cuts_zero _ _ _ _ Hr Hc) as (P0 & b0 & _ & ->). simpl. rewrite (afterSearch_ok _ _ _ _ Hr Hc). simpl.
  destruct (deleteLoop_ok sl A D B (λ _ d, (Z.of_nat (length A) + d <? b + 1)%Z) ur 0 (fuelOf sl))
    as (sl' & E' & Hr'); [done|done|by eapply removal_fuel|..].
  { intros D1 c D2 n ED _. apply Z.ltb_lt. apply (f_equal length) in ED. rewrite length_app in ED. simpl in ED. lia. }
  { intros c B' n _ _. apply Z.ltb_ge. lia. }
  exists sl', (keys A), (keys B).
  assert (take nd (drop na (keys ns)) = keys D) as -> by (unfold D, keys; by rewrite fmap_take, fmap_drop).
  rewrite E'. split; [unfold keys; by rewrite length_fmap|]. split; [by rewrite <- !keys_app, <- Ens|].
  rewrite <- keys_app. apply (represents_remove sl sl' A D B); [by rewrite <- Ens|done].
Qed.

(** ** The remaining operations *)

Lemma getScore_ok sl l m : represents sl l →
  getScore m sl = Some (snd <$> (snd <$> list_find (λ x, x.1 = m) l)).
Proof.
  intros (ns & Hr & <- & _). unfold getScore. rewrite (headOf_ok _ _ Hr). simpl.
  assert (∀ pre k fuel, ns = pre ++ k → length k ≤ fuel →
    scoreLoop sl m fuel (a_ptr <$> head k) = Some (snd <$> (snd <$> list_find (λ x, x.1 = m) (keys k)))) as H.
  { intros pre k fuel. revert pre k. induction fuel as [|fuel IH]; intros pre [|a k] E Hf; try done; [simpl in Hf; lia|].
    destruct (rep_node sl ns a Hr) as (n & Hn & Hm & Hs); [subst ns; set_solver|]. simpl. rewrite Hn. simpl.
    rewrite Hm, Hs. destruct (decide (a_member a = m)) as [Em|Em].
    - done.
    - pose proof (nextOf_ok sl ns false pre a k Hr E) as Enx. unfold nextOf in Enx. rewrite Enx. simpl.
      rewrite (IH (pre ++ [a])); [|by rewrite <- app_assoc|simpl in Hf; lia].
      f_equal. unfold keys. destruct (list_find (λ x : entry, x.1 = m) (a_key <$> k)) as [[i x]|]; done. }
  apply (H []); [done|]. by apply (fuel_enough _ _ _ Hr).
Qed.

Lemma clear_ok sl l : represents sl l → represents (clear sl) [].
Proof.
  intros (ns & Hr & _). exists []. split; [|split_and!; try constructor; set_solver].
  pose proof (alloc_ok sl maxLevel [] float_zero) as Ha. unfold clear.
  destruct (alloc sl (newSkipListNode maxLevel [] float_zero)) as [x sl'] eqn:E.
  destruct Ha as (-> & Hm & Hs & Hl & Hx). injection E as <-. split; simpl.
  - intros pre a post Ep. destruct pre as [|? [|]]; simplify_eq/=. split; simpl.
    + unfold shape. simpl. rewrite lookup_insert_eq. done.
    + intros i Hi. exists 0%Z. split; [|done]. unfold getLevel, getNode. simpl. rewrite lookup_insert_eq. simpl.
      by apply (lookup_replicate_2 maxLevel).
  - apply NoDup_singleton.
  - constructor.
  - unfold maxLevel. lia.
  - intros y Hy. unfold shape. simpl. rewrite lookup_insert_ne by lia. apply (rep_fresh _ _ Hr). lia.
  - done.
  - done.
Qed.
End ops.
