(* ===== verification/Leaderboard.v ===== *)
(** * The leaderboard cache ([x/data/cache/leaderboard/leaderboard.go])

    Sorted sets of members, each a map from member to score together with a skip
    list over the same entries, kept in step by every operation; boards expire and
    are bounded in number and size. The cache extends [MemoryCache]. Operations run
    one after the other here (the code holds [createMu] or the board's lock); [now]
    is the clock, [newRng] the random source [newSkipList] seeds from it, and the
    outer [None] of a result is a panic. *)

From stdpp Require Import options.
From S2P Require Import Prelude GoStrings GoNumbers MemoryCache SkipList SkipListOps.
Import SkipList.

Module Leaderboard.

Record ZMember := MkZMember { Member : gostring; Score : float64 }.

Record LeaderboardConfig := MkLBConfig {
  MaxLeaderboards : Z;
  MaxMembersPerSet : Z;
  LBDefaultTTL : Z;
  LBCleanupInterval : Z;
  EnableMetrics : bool;
}.
Definition NoExpirationTTL : Z := -1.
Definition hour : Z := 60 * MemoryCache.minute.
Definition DefaultLeaderboardConfig : LeaderboardConfig :=
  MkLBConfig 1000 10000 hour (5 * MemoryCache.minute) true.

Inductive lbErr :=
| ErrLeaderboardNotFound | ErrMemberNotFound | ErrInvalidMember | ErrLeaderboardFull | ErrInvalidScore
| ErrInvalidRange | ErrClosed | ErrLBContext | ErrCache (e : MemoryCache.cacheErr).
#[local] Existing Instance MemoryCache.cacheErr_eq_dec.
#[export] Instance lbErr_eq_dec : EqDecision lbErr.
Proof. solve_decision. Defined.

(** A nil configuration is valid. *)
Definition ValidateLB (c : option LeaderboardConfig) : option lbErr :=
  match c with
  | None => None
  | Some c =>
      if (MaxLeaderboards c <=? 0)%Z then Some (ErrCache MemoryCache.ErrInvalidConfig)
      else if (MaxMembersPerSet c <=? 0)%Z then Some (ErrCache MemoryCache.ErrInvalidConfig)
      else if (LBDefaultTTL c <? 0)%Z && negb (LBDefaultTTL c =? NoExpirationTTL)%Z
      then Some (ErrCache MemoryCache.ErrInvalidConfig)
      else None
  end.

Definition normalizeLeaderboardConfig (c : option LeaderboardConfig) : result lbErr LeaderboardConfig :=
  let c := default DefaultLeaderboardConfig c in
  match ValidateLB (Some c) with
  | Some e => Err e
  | None =>
      Ok (MkLBConfig (MaxLeaderboards c) (MaxMembersPerSet c)
            (if (LBDefaultTTL c =? NoExpirationTTL)%Z then 0%Z
             else if (LBDefaultTTL c =? 0)%Z then hour else LBDefaultTTL c)
            (if (LBCleanupInterval c <=? 0)%Z then (5 * MemoryCache.minute)%Z else LBCleanupInterval c)
            (EnableMetrics c))
  end.

Section Leaderboard.
Context {R : Type} `{!levelRNG R} (newRng : Z → R).

Record sortedSet := MkSet {
  scores : gmap gostring float64;
  skl : skipList (R:=R);
  ssExpiration : option Z;
}.

Record LeaderboardMetrics := MkMetrics {
  ZAdds : Z; ZRems : Z; ZIncrements : Z; ZRangeQueries : Z; ZScoreLookups : Z; ZRankCalculations : Z;
}.

Record Cache := MkLB {
  base : MemoryCache.MemoryCache;
  boards : gmap gostring sortedSet;
  lbConfig : LeaderboardConfig;
  metrics : LeaderboardMetrics;
  keyMaxLength : Z;
  lbCount : Z;
  lbClosed : bool;
}.
Implicit Types (lbc : Cache) (key member : gostring) (now : Z) (ss : sortedSet).

Definition newSortedSet (ttl now : Z) : sortedSet :=
  MkSet ∅ (newSkipListWithRand (newRng now)) (if (0 <? ttl)%Z then Some (now + ttl)%Z else None).

Definition isExpired ss now : bool :=
  match ssExpiration ss with None => false | Some e => (e <? now)%Z end.

Definition NewMemoryLeaderboardCache (c : MemoryCache.Config) (lb : option LeaderboardConfig) :
    result lbErr Cache :=
  match normalizeLeaderboardConfig lb with
  | Err e => Err e
  | Ok n =>
      match MemoryCache.NewMemoryCacheWithConfig c with
      | Err e => Err (ErrCache e)
      | Ok b => Ok (MkLB b ∅ n (MkMetrics 0 0 0 0 0 0) (MemoryCache.MaxKeyLength c) 0 false)
      end
  end.

(** ** State *)

Definition setBoards lbc (bs : gmap gostring sortedSet) (n : Z) : Cache :=
  MkLB (base lbc) bs (lbConfig lbc) (metrics lbc) (keyMaxLength lbc) n (lbClosed lbc).
(** [ss] is shared with the map: a change to it is a change of the entry. *)
Definition putBoard key ss lbc : Cache := setBoards lbc (<[key := ss]> (boards lbc)) (lbCount lbc).
Definition dropBoard key lbc : Cache := setBoards lbc (delete key (boards lbc)) (lbCount lbc - 1).

(** [if lbc.config.EnableMetrics { ... }] *)
Definition count_ (f : LeaderboardMetrics → LeaderboardMetrics) lbc : Cache :=
  if EnableMetrics (lbConfig lbc) then
    MkLB (base lbc) (boards lbc) (lbConfig lbc) (f (metrics lbc)) (keyMaxLength lbc) (lbCount lbc) (lbClosed lbc)
  else lbc.
Definition addZAdds (n : Z) m : LeaderboardMetrics :=
  MkMetrics (wrapu64 (ZAdds m + n)) (ZRems m) (ZIncrements m) (ZRangeQueries m) (ZScoreLookups m) (ZRankCalculations m).
Definition addZRems (n : Z) m : LeaderboardMetrics :=
  MkMetrics (ZAdds m) (wrapu64 (ZRems m + n)) (ZIncrements m) (ZRangeQueries m) (ZScoreLookups m) (ZRankCalculations m).
Definition addZIncrements m : LeaderboardMetrics :=
  MkMetrics (ZAdds m) (ZRems m) (wrapu64 (ZIncrements m + 1)) (ZRangeQueries m) (ZScoreLookups m) (ZRankCalculations m).
Definition addZRangeQueries m : LeaderboardMetrics :=
  MkMetrics (ZAdds m) (ZRems m) (ZIncrements m) (wrapu64 (ZRangeQueries m + 1)) (ZScoreLookups m) (ZRankCalculations m).
Definition addZScoreLookups m : LeaderboardMetrics :=
  MkMetrics (ZAdds m) (ZRems m) (ZIncrements m) (ZRangeQueries m) (wrapu64 (ZScoreLookups m + 1)) (ZRankCalculations m).
Definition addZRankCalculations m : LeaderboardMetrics :=
  MkMetrics (ZAdds m) (ZRems m) (ZIncrements m) (ZRangeQueries m) (ZScoreLookups m) (wrapu64 (ZRankCalculations m + 1)).

(** ** Boards *)

Definition getOrCreateSortedSet key (ttl now : Z) lbc : Cache * result lbErr (sortedSet * bool) :=
  let '(lbc, found) :=
    match boards lbc !! key with
    | Some ss => if isExpired ss now then (dropBoard key lbc, None) else (lbc, Some ss)
    | None => (lbc, None)
    end in
  match found with
  | Some ss => (lbc, Ok (ss, false))
  | None =>
      let ttl := if (ttl =? 0)%Z then LBDefaultTTL (lbConfig lbc) else ttl in
      if (MaxLeaderboards (lbConfig lbc) <=? lbCount lbc)%Z then (lbc, Err ErrLeaderboardFull)
      else
        let ss := newSortedSet ttl now in
        (setBoards lbc (<[key := ss]> (boards lbc)) (lbCount lbc + 1), Ok (ss, true))
  end.

(** [CompareAndDelete(key, ss)]: the board just created is still there. *)
Definition deleteCreatedSortedSet key lbc : Cache :=
  match boards lbc !! key with Some _ => dropBoard key lbc | None => lbc end.

Definition getSortedSet key now lbc : Cache * result lbErr sortedSet :=
  match boards lbc !! key with
  | None => (lbc, Err ErrLeaderboardNotFound)
  | Some ss => if isExpired ss now then (dropBoard key lbc, Err ErrLeaderboardNotFound) else (lbc, Ok ss)
  end.

Definition cleanupExpiredLeaderboards now lbc : Cache :=
  foldl (λ lbc kv, if isExpired kv.2 now then dropBoard kv.1 lbc else lbc) lbc (map_to_list (boards lbc)).

(** ** Checks *)

Definition validateLBKey lbc key : option lbErr :=
  if decide (key = []) then Some (ErrCache MemoryCache.ErrInvalidKey)
  else if (0 <? keyMaxLength lbc)%Z && (keyMaxLength lbc <? Z.of_nat (length key))%Z
  then Some (ErrCache MemoryCache.ErrKeyTooLong)
  else if existsb MemoryCache.controlByte key then Some (ErrCache MemoryCache.ErrInvalidKey)
  else None.

Definition validateOperation (ctxErr : bool) key lbc : option lbErr :=
  if lbClosed lbc then Some ErrClosed
  else if ctxErr then Some ErrLBContext
  else validateLBKey lbc key.

Definition validateScore (s : float64) : option lbErr :=
  if float_isNaN s || float_isInf s then Some ErrInvalidScore else None.
Definition validateScoreRange (mn mx : float64) : option lbErr :=
  if float_gtb mn mx then Some ErrInvalidRange else None.
Definition validateRankRange (start stop : Z) : option lbErr :=
  if (0 <=? stop)%Z && (stop <? start)%Z then Some ErrInvalidRange else None.

Fixpoint firstErr (checks : list (option lbErr)) : option lbErr :=
  match checks with
  | [] => None
  | Some e :: _ => Some e
  | None :: checks => firstErr checks
  end.

(** The validation loop of [ZAdd]; a nil member is [None]. *)
Fixpoint validateMembers (ms : list (option ZMember)) : option lbErr :=
  match ms with
  | [] => None
  | None :: _ => Some ErrInvalidMember
  | Some m :: ms =>
      if decide (Member m = []) then Some ErrInvalidMember
      else match validateScore (Score m) with Some e => Some e | None => validateMembers ms end
  end.

(** ** Writing *)

(** How many of the members are new; each counts once. *)
Fixpoint countNew (sc : gmap gostring float64) (pending : gset gostring) (ms : list (option ZMember)) : Z :=
  match ms with
  | [] => 0
  | None :: ms => countNew sc pending ms
  | Some m :: ms =>
      if decide (is_Some (sc !! Member m)) then countNew sc pending ms
      else if decide (Member m ∈ pending) then countNew sc pending ms
      else 1 + countNew sc ({[Member m]} ∪ pending) ms
  end.

(** Replace the node of a member: remove the old one if there is one, then insert. *)
Definition upsert member (s : float64) ss : option sortedSet :=
  sl ← match scores ss !! member with
       | Some old => snd <$> delete_ member old (skl ss)
       | None => Some (skl ss)
       end;
  '(_, sl) ← insert member s sl;
  Some (MkSet (<[member := s]> (scores ss)) sl (ssExpiration ss)).

Fixpoint upsertAll (ms : list (option ZMember)) ss : option sortedSet :=
  match ms with
  | [] => Some ss
  | None :: ms => upsertAll ms ss
  | Some m :: ms => ss ← upsert (Member m) (Score m) ss; upsertAll ms ss
  end.

Definition ZAdd (ctxErr : bool) key (members : list (option ZMember)) now lbc :
    option (Cache * option lbErr) :=
  match validateOperation ctxErr key lbc with
  | Some e => Some (lbc, Some e)
  | None =>
      if decide (members = []) then Some (lbc, None)
      else match validateMembers members with
      | Some e => Some (lbc, Some e)
      | None =>
          match getOrCreateSortedSet key 0 now lbc with
          | (lbc, Err e) => Some (lbc, Some e)
          | (lbc, Ok (ss, created)) =>
              if (MaxMembersPerSet (lbConfig lbc) <? Z.of_nat (size (scores ss)) + countNew (scores ss) ∅ members)%Z
              then Some (if created then deleteCreatedSortedSet key lbc else lbc, Some ErrLeaderboardFull)
              else
                ss ← upsertAll members ss;
                Some (count_ (addZAdds (Z.of_nat (length members))) (putBoard key ss lbc), None)
          end
      end
  end.

(** The removal loop of [ZRem]. *)
Fixpoint removeAll (ms : list gostring) (removed : Z) ss : option (Z * sortedSet) :=
  match ms with
  | [] => Some (removed, ss)
  | m :: ms =>
      match scores ss !! m with
      | Some s =>
          '(_, sl) ← delete_ m s (skl ss);
          removeAll ms (removed + 1) (MkSet (delete m (scores ss)) sl (ssExpiration ss))
      | None => removeAll ms removed ss
      end
  end.

Definition ZRem (ctxErr : bool) key (members : list gostring) now lbc : option (Cache * option lbErr) :=
  match validateOperation ctxErr key lbc with
  | Some e => Some (lbc, Some e)
  | None =>
      if decide (members = []) then Some (lbc, None)
      else match getSortedSet key now lbc with
      | (lbc, Err e) => Some (lbc, Some e)
      | (lbc, Ok ss) =>
          '(removed, ss) ← removeAll members 0 ss;
          Some (count_ (addZRems removed) (putBoard key ss lbc), None)
      end
  end.

Definition ZIncrBy (ctxErr : bool) key member (delta : float64) now lbc :
    option (Cache * result lbErr float64) :=
  match firstErr [validateOperation ctxErr key lbc;
                  if decide (member = []) then Some ErrInvalidMember else None; validateScore delta] with
  | Some e => Some (lbc, Err e)
  | None =>
      match getOrCreateSortedSet key 0 now lbc with
      | (lbc, Err e) => Some (lbc, Err e)
      | (lbc, Ok (ss, created)) =>
          let undo := if created then deleteCreatedSortedSet key lbc else lbc in
          match scores ss !! member with
          | Some oldScore =>
              '(_, sl) ← delete_ member oldScore (skl ss);
              let newScore := float_add oldScore delta in
              match validateScore newScore with
              | Some e =>
                  '(_, sl) ← insert member oldScore sl;
                  Some (putBoard key (MkSet (scores ss) sl (ssExpiration ss)) lbc, Err e)
              | None =>
                  '(_, sl) ← insert member newScore sl;
                  Some (count_ addZIncrements
                          (putBoard key (MkSet (<[member := newScore]> (scores ss)) sl (ssExpiration ss)) lbc),
                        Ok newScore)
              end
          | None =>
              if (MaxMembersPerSet (lbConfig lbc) <? Z.of_nat (size (scores ss)) + 1)%Z
              then Some (undo, Err ErrLeaderboardFull)
              else
                let newScore := float_add float_zero delta in
                match validateScore newScore with
                | Some e => Some (undo, Err e)
                | None =>
                    '(_, sl) ← insert member newScore (skl ss);
                    Some (count_ addZIncrements
                            (putBoard key (MkSet (<[member := newScore]> (scores ss)) sl (ssExpiration ss)) lbc),
                          Ok newScore)
                end
          end
      end
  end.

(** ** Reading *)

Definition ZScore (ctxErr : bool) key member now lbc : Cache * result lbErr float64 :=
  match validateOperation ctxErr key lbc with
  | Some e => (lbc, Err e)
  | None =>
      match getSortedSet key now lbc with
      | (lbc, Err e) => (lbc, Err e)
      | (lbc, Ok ss) =>
          match scores ss !! member with
          | None => (lbc, Err ErrMemberNotFound)
          | Some s => (count_ addZScoreLookups lbc, Ok s)
          end
      end
  end.

(** [results[i] = &ZMember{node.member, node.score}]; an empty list of nodes stands
    for nil. *)
Definition finishRange (nodes : list nat) ss lbc : option (Cache * result lbErr (list (gostring * float64))) :=
  if decide (nodes = []) then Some (lbc, Ok [])
  else
    es ← entriesOf (skl ss) nodes;
    Some (count_ addZRangeQueries lbc, Ok es).

Definition ZRange (ctxErr : bool) key (start stop : Z) (desc : bool) now lbc :
    option (Cache * result lbErr (list (gostring * float64))) :=
  match firstErr [validateOperation ctxErr key lbc; validateRankRange start stop] with
  | Some e => Some (lbc, Err e)
  | None =>
      match getSortedSet key now lbc with
      | (lbc, Err e) => Some (lbc, Err e)
      | (lbc, Ok ss) =>
          nodes ← getRange start stop desc (skl ss);
          finishRange nodes ss lbc
      end
  end.

Definition ZRangeByScore (ctxErr : bool) key (mn mx : float64) (desc : bool) now lbc :
    option (Cache * result lbErr (list (gostring * float64))) :=
  match firstErr [validateOperation ctxErr key lbc; validateScore mn; validateScore mx; validateScoreRange mn mx] with
  | Some e => Some (lbc, Err e)
  | None =>
      match getSortedSet key now lbc with
      | (lbc, Err e) => Some (lbc, Err e)
      | (lbc, Ok ss) =>
          nodes ← getRangeByScore mn mx desc (skl ss);
          finishRange nodes ss lbc
      end
  end.

Definition ZRank (ctxErr : bool) key member (desc : bool) now lbc : option (Cache * result lbErr Z) :=
  match validateOperation ctxErr key lbc with
  | Some e => Some (lbc, Err e)
  | None =>
      match getSortedSet key now lbc with
      | (lbc, Err e) => Some (lbc, Err e)
      | (lbc, Ok ss) =>
          match scores ss !! member with
          | None => Some (lbc, Err ErrMemberNotFound)
          | Some s =>
              rank ← getRank member s desc (skl ss);
              Some (if (rank <? 0)%Z then (lbc, Err ErrMemberNotFound)
                    else (count_ addZRankCalculations lbc, Ok rank))
          end
      end
  end.

(** A missing board counts zero. *)
Definition ZCard (ctxErr : bool) key now lbc : Cache * result lbErr Z :=
  match validateOperation ctxErr key lbc with
  | Some e => (lbc, Err e)
  | None =>
      match getSortedSet key now lbc with
      | (lbc, Err e) => (lbc, if decide (e = ErrLeaderboardNotFound) then Ok 0%Z else Err e)
      | (lbc, Ok ss) => (lbc, Ok (length_ (skl ss)))
      end
  end.

Definition ZCount (ctxErr : bool) key (mn mx : float64) now lbc : option (Cache * result lbErr Z) :=
  match firstErr [validateOperation ctxErr key lbc; validateScore mn; validateScore mx; validateScoreRange mn mx] with
  | Some e => Some (lbc, Err e)
  | None =>
      match getSortedSet key now lbc with
      | (lbc, Err e) => Some (lbc, if decide (e = ErrLeaderboardNotFound) then Ok 0%Z else Err e)
      | (lbc, Ok ss) => n ← count mn mx (skl ss); Some (lbc, Ok n)
      end
  end.

(** ** Removing ranges *)

(** [for _, node := range nodes { delete(ss.scores, node.member) }] *)
Definition forgetNodes (nodes : list nat) ss : option (gmap gostring float64) :=
  es ← entriesOf (skl ss) nodes;
  Some (foldl (λ sc e, delete e.1 sc) (scores ss) es).

Definition ZRemRangeByRank (ctxErr : bool) key (start stop : Z) now lbc : option (Cache * result lbErr Z) :=
  match firstErr [validateOperation ctxErr key lbc; validateRankRange start stop] with
  | Some e => Some (lbc, Err e)
  | None =>
      match getSortedSet key now lbc with
      | (lbc, Err e) => Some (lbc, if decide (e = ErrLeaderboardNotFound) then Ok 0%Z else Err e)
      | (lbc, Ok ss) =>
          nodes ← getRange start stop false (skl ss);
          if decide (nodes = []) then Some (lbc, Ok 0%Z)
          else
            sc ← forgetNodes nodes ss;
            '(deleted, sl) ← deleteRangeByRank start stop (skl ss);
            Some (count_ (addZRems deleted) (putBoard key (MkSet sc sl (ssExpiration ss)) lbc), Ok deleted)
      end
  end.

Definition ZRemRangeByScore (ctxErr : bool) key (mn mx : float64) now lbc : option (Cache * result lbErr Z) :=
  match firstErr [validateOperation ctxErr key lbc; validateScore mn; validateScore mx; validateScoreRange mn mx] with
  | Some e => Some (lbc, Err e)
  | None =>
      match getSortedSet key now lbc with
      | (lbc, Err e) => Some (lbc, if decide (e = ErrLeaderboardNotFound) then Ok 0%Z else Err e)
      | (lbc, Ok ss) =>
          nodes ← getRangeByScore mn mx false (skl ss);
          if decide (nodes = []) then Some (lbc, Ok 0%Z)
          else
            sc ← forgetNodes nodes ss;
            '(deleted, sl) ← deleteRangeByScore mn mx (skl ss);
            Some (count_ (addZRems deleted) (putBoard key (MkSet sc sl (ssExpiration ss)) lbc), Ok deleted)
      end
  end.

(** ** The whole cache *)

Definition ClearLB (ctxErr : bool) lbc : Cache * option lbErr :=
  if lbClosed lbc then (lbc, Some ErrClosed)
  else match MemoryCache.Clear ctxErr (base lbc) with
  | (b, Some e) => (MkLB b (boards lbc) (lbConfig lbc) (metrics lbc) (keyMaxLength lbc) (lbCount lbc) (lbClosed lbc),
                    Some (ErrCache e))
  | (b, None) => (MkLB b ∅ (lbConfig lbc) (metrics lbc) (keyMaxLength lbc) 0 (lbClosed lbc), None)
  end.

(** The first [Close]; later ones return its (nil) error again. *)
Definition CloseLB lbc : Cache :=
  MkLB (MemoryCache.Close (base lbc)) (boards lbc) (lbConfig lbc) (metrics lbc) (keyMaxLength lbc)
    (lbCount lbc) true.

(** [TotalLeaderboards] and [TotalMembers] of [GetLeaderboardMetrics]. *)
Definition GetLeaderboardMetrics lbc : LeaderboardMetrics * Z * Z :=
  (metrics lbc, lbCount lbc,
   foldr (λ kv n, length_ (skl kv.2) + n)%Z 0%Z (map_to_list (boards lbc))).

End Leaderboard.
End Leaderboard.
