(* ===== verification/LeaderboardFacts.v ===== *)
(** * The leaderboard cache against its specification

    A board is a finite map from members to scores; its ranking is the list of its
    entries sorted by score and member. Every operation of the cache, skip list and
    counters included, gives the result and the next state of the same operation on
    maps and rankings. *)

From stdpp Require Import options.
From S2P Require Import Prelude GoStrings GoNumbers MemoryCache SkipList SkipListFacts SkipListOps.
From S2P Require Import Leaderboard.
Import SkipList Leaderboard.

(** ** Rankings *)

Abbreviation board := (gmap gostring float64) (only parsing).

Fixpoint kinsert (x : entry) (l : list entry) : list entry :=
  match l with
  | [] => [x]
  | y :: l => if decide (klt x y) then x :: y :: l else y :: kinsert x l
  end.
Definition ranking (m : board) : list entry := foldr kinsert [] (map_to_list m).

Lemma kinsert_perm x l : kinsert x l ≡ₚ x :: l.
Proof. induction l as [|y l IH]; simpl; [done|]. case_decide; [done|]. rewrite IH. apply Permutation_swap. Qed.

Lemma kinsert_sorted x l : StronglySorted klt l → Forall kvalid (x :: l) → x.1 ∉ l.*1 →
  StronglySorted klt (kinsert x l).
Proof.
  intros Hs Hv Hx. induction Hs as [|y l Hs IH Hy]; simpl; [repeat constructor|].
  apply Forall_cons in Hv as [Hvx [Hvy Hvl]%Forall_cons]. csimpl in Hx. apply not_elem_of_cons in Hx as [Hxy Hxl].
  case_decide as Hk.
  - constructor; [by constructor|]. constructor; [done|]. rewrite Forall_forall in *.
    intros z Hz. apply (klt_trans _ y); [done|done|by apply Hvl|done|by apply Hy].
  - constructor; [by apply IH; [constructor|]|]. assert (Hyx : klt y x).
    { unfold klt in *. rewrite (tw_antisym (f:=kcmp) x y) by done.
      destruct (kcmp x y) eqn:E; [|done|done]. by apply kcmp_member in E. }
    apply Forall_forall. intros z. rewrite (kinsert_perm x l), elem_of_cons. rewrite Forall_forall in Hy.
    intros [->|Hz]; [done|by apply Hy].
Qed.

Definition board_valid (m : board) : Prop := ∀ k s, m !! k = Some s → not_nan s.

Lemma ranking_perm m : ranking m ≡ₚ map_to_list m.
Proof. unfold ranking. induction (map_to_list m) as [|x l IH]; simpl; [done|]. by rewrite kinsert_perm, IH. Qed.

Lemma ranking_sorted m : board_valid m → StronglySorted klt (ranking m).
Proof.
  intros Hv. unfold ranking. pose proof (NoDup_fst_map_to_list m) as Hnd.
  assert (Hval : Forall kvalid (map_to_list m)).
  { apply Forall_forall. intros [k s] Hks%elem_of_map_to_list. by apply (Hv k). }
  induction (map_to_list m) as [|x l IH]; simpl; [constructor|]. csimpl in Hnd. apply NoDup_cons in Hnd as [Hx Hnd].
  pose proof Hval as Hval0. apply Forall_cons in Hval as [Hvx Hvl].
  assert (Hp : foldr kinsert [] l ≡ₚ l) by (clear; induction l as [|y l IH]; simpl; [done|by rewrite kinsert_perm, IH]).
  apply kinsert_sorted; [by apply IH|by rewrite Hp|by rewrite Hp].
Qed.

Lemma sorted_unique l1 l2 : StronglySorted klt l1 → StronglySorted klt l2 → Forall kvalid l1 → l1 ≡ₚ l2 → l1 = l2.
Proof.
  intros H1 H2 Hv Hp. apply (StronglySorted_unique_strong klt); [|done..].
  intros x y Hx Hy Hxy Hyx. exfalso. rewrite Forall_forall in Hv. unfold klt in *.
  rewrite (tw_antisym (f:=kcmp) x y) in Hyx; [by rewrite Hxy in Hyx|by apply Hv|by apply Hv; rewrite Hp].
Qed.

Section sets.
Context {R : Type} `{!levelRNG R}.
Implicit Types (ms : list (option ZMember)) (k : gostring) (s : float64) (ss : sortedSet (R:=R)) (sl : skipList (R:=R)).

Lemma represents_ranking sl l m : represents sl l → l ≡ₚ map_to_list m → represents sl (ranking m).
Proof.
  intros Hr Hp. assert (l = ranking m) as <-; [|done]. destruct Hr as (ns & _ & _ & Hs & Hv & _).
  apply sorted_unique; [done| |done|by rewrite ranking_perm].
  apply ranking_sorted. intros k s Hk. rewrite Forall_forall in Hv. apply (Hv (k, s)).
  rewrite Hp. by apply elem_of_map_to_list.
Qed.

(** The two halves of a sorted set agree. *)
Definition set_ok ss : Prop := represents (skl ss) (ranking (scores ss)).

Lemma ranking_elem m k s : (k, s) ∈ ranking m ↔ m !! k = Some s.
Proof. by rewrite ranking_perm, elem_of_map_to_list. Qed.
Lemma ranking_member m k : k ∈ (ranking m).*1 ↔ is_Some (m !! k).
Proof.
  rewrite ranking_perm, list_elem_of_fmap. split.
  - intros ([k' s] & -> & Hk%elem_of_map_to_list). by exists s.
  - intros [s Hs]. exists (k, s). split; [done|]. by apply elem_of_map_to_list.
Qed.
Lemma ranking_length m : length (ranking m) = size m.
Proof. rewrite ranking_perm. apply length_map_to_list. Qed.

Lemma ranking_insert m k s : m !! k = None → ranking (<[k := s]> m) ≡ₚ (k, s) :: ranking m.
Proof. intros Hk. rewrite !ranking_perm. by apply map_to_list_insert. Qed.

Lemma insert_set sl m k s : represents sl (ranking m) → m !! k = None → k ≠ [] → not_nan s →
  ∃ x sl', insert k s sl = Some (x, sl') ∧ represents sl' (ranking (<[k := s]> m)).
Proof.
  intros Hr Hk Hne Hs. destruct (insert_ok sl (ranking m) k s Hr) as (x & sl' & l' & E & Hr' & Hp); [|done..|].
  { rewrite ranking_member, Hk. by intros [? ?]. }
  exists x, sl'. split; [done|]. apply (represents_ranking _ l'); [done|].
  by rewrite Hp, <- ranking_perm, ranking_insert.
Qed.

Lemma delete_set sl m k s : represents sl (ranking m) → m !! k = Some s →
  ∃ sl', delete_ k s sl = Some (true, sl') ∧ represents sl' (ranking (delete k m)).
Proof.
  intros Hr Hk. destruct (delete_ok sl (ranking m) k s Hr) as (sl' & l' & E & Hr' & Hp); [by apply ranking_elem|].
  exists sl'. split; [done|]. apply (represents_ranking _ l'); [done|].
  apply (Permutation_cons_inv (a:=(k, s))). rewrite <- Hp, <- ranking_perm, <- ranking_insert by apply lookup_delete_eq.
  by rewrite insert_delete_id.
Qed.

Lemma upsert_set ss k s : set_ok ss → k ≠ [] → not_nan s →
  ∃ sl, upsert k s ss = Some (MkSet (<[k := s]> (scores ss)) sl (ssExpiration ss)) ∧
    set_ok (MkSet (<[k := s]> (scores ss)) sl (ssExpiration ss)).
Proof.
  intros Hok Hne Hs. unfold upsert, set_ok. destruct (scores ss !! k) as [old|] eqn:Ek; simpl.
  - destruct (delete_set _ _ _ _ Hok Ek) as (sl & -> & Hr). simpl.
    destruct (insert_set sl (delete k (scores ss)) k s Hr) as (x & sl' & -> & Hr'); [apply lookup_delete_eq|done..|].
    simpl. exists sl'. split; [done|]. by rewrite insert_delete_eq in Hr'.
  - destruct (insert_set (skl ss) (scores ss) k s Hok Ek) as (x & sl' & -> & Hr'); [done..|]. simpl. by exists sl'.
Qed.

(** ** The loops of the operations *)

Definition insAll (ms : list (option ZMember)) (m : board) : board :=
  foldl (λ m z, match z with Some z => <[Member z := Score z]> m | None => m end) m ms.

Definition score_ok (s : float64) : Prop := validateScore s = None.
Lemma score_ok_not_nan s : score_ok s → not_nan s.
Proof. by destruct s. Qed.

Lemma validateMembers_ok ms : validateMembers ms = None →
  Forall (λ z, ∃ m, z = Some m ∧ Member m ≠ [] ∧ score_ok (Score m)) ms.
Proof.
  induction ms as [|[m|] ms IH]; simpl; [constructor| |done].
  case_decide; [done|]. case_match; [done|]. intros Hv. constructor; [by exists m|by apply IH].
Qed.

Lemma upsertAll_set ms ss : set_ok ss → validateMembers ms = None →
  ∃ ss', upsertAll ms ss = Some ss' ∧ set_ok ss' ∧ scores ss' = insAll ms (scores ss) ∧
    ssExpiration ss' = ssExpiration ss.
Proof.
  intros Hok Hv. apply validateMembers_ok in Hv. revert ss Hok.
  induction Hv as [|z ms (m & -> & Hm & Hs) Hv IH]; intros ss Hok; simpl; [by exists ss|].
  destruct (upsert_set ss (Member m) (Score m) Hok Hm (score_ok_not_nan _ Hs)) as (sl & -> & Hok'). simpl.
  destruct (IH _ Hok') as (ss' & -> & Hok'' & Hsc & He). exists ss'. by rewrite Hsc, He.
Qed.

Lemma countNew_size (ms : list (option ZMember)) (sc : board) (pending : gset gostring) (m : board) :
  dom m = dom sc ∪ pending → Z.of_nat (size (insAll ms m)) = (Z.of_nat (size m) + countNew sc pending ms)%Z.
Proof.
  revert pending m. induction ms as [|[z|] ms IH]; intros pending m Hd; simpl; [lia| |by apply IH].
  assert (Hdz : Member z ∈ dom sc ↔ is_Some (sc !! Member z)) by apply elem_of_dom.
  case_decide as H1; [|case_decide as H2].
  - rewrite (IH pending); [|rewrite dom_insert_L; set_solver].
    rewrite map_size_insert_Some; [lia|]. apply elem_of_dom. set_solver.
  - rewrite (IH pending); [|rewrite dom_insert_L; set_solver].
    rewrite map_size_insert_Some; [lia|]. apply elem_of_dom. set_solver.
  - rewrite (IH ({[Member z]} ∪ pending)); [|rewrite dom_insert_L; set_solver].
    rewrite map_size_insert_None; [lia|]. apply not_elem_of_dom. set_solver.
Qed.

Lemma removeAll_set (xs : list gostring) (n : Z) ss : set_ok ss → ∃ (c : Z) ss', removeAll xs n ss = Some (c, ss') ∧ set_ok ss' ∧
  scores ss' = foldl (λ m x, delete x m) (scores ss) xs ∧ ssExpiration ss' = ssExpiration ss.
Proof.
  revert n ss. induction xs as [|x xs IH]; intros n ss Hok; simpl; [by exists n, ss|].
  destruct (scores ss !! x) as [s|] eqn:Ex.
  - destruct (delete_set _ _ _ _ Hok Ex) as (sl & -> & Hr). simpl.
    destruct (IH (n + 1)%Z (MkSet (delete x (scores ss)) sl (ssExpiration ss)) Hr) as (c & ss' & -> & H1 & H2 & H3).
    exists c, ss'. done.
  - destruct (IH n ss Hok) as (c & ss' & -> & H1 & H2 & H3). exists c, ss'.
    rewrite (delete_id (scores ss)) by done. done.
Qed.

(** Removing entries from the map and the complement from the list agree. *)
Lemma forget_perm m gone rest : ranking m ≡ₚ gone ++ rest →
  rest ≡ₚ map_to_list (foldl (λ sc e, delete e.1 sc) m gone).
Proof.
  revert m. induction gone as [|[k s] gone IH]; intros m Hp; simpl in *; [by rewrite <- Hp, ranking_perm|].
  apply IH. assert (Hk : m !! k = Some s) by (apply ranking_elem; rewrite Hp; left).
  apply (Permutation_cons_inv (a:=(k, s))). rewrite <- Hp, <- ranking_insert by apply lookup_delete_eq.
  by rewrite insert_delete_id.
Qed.

(** The position of an entry is the number of entries before it. *)
Definition rank_of (m : board) (k : gostring) (s : float64) : nat :=
  length (filter (λ x, klt x (k, s)) (ranking m)).

Lemma rank_of_lookup sl m k s : represents sl (ranking m) → m !! k = Some s →
  ranking m !! rank_of m k s = Some (k, s).
Proof.
  intros (ns & _ & _ & Hs & Hv & _) Hk. unfold rank_of.
  assert (Hin : (k, s) ∈ ranking m) by (by apply ranking_elem). revert Hs Hv Hin. generalize (ranking m).
  intros l Hs Hv (A & B & ->)%list_elem_of_split.
  rewrite StronglySorted_app, StronglySorted_cons in Hs. destruct Hs as (HAB & _ & HB & _).
  rewrite filter_app, (filter_all _ A), filter_cons_False, (filter_none _ B), app_nil_r.
  - by apply list_lookup_middle.
  - rewrite Forall_app, Forall_cons in Hv. destruct Hv as (_ & Hvk & HvB). rewrite Forall_forall in *.
    intros x Hx Hlt. specialize (HB x Hx). unfold klt in *.
    rewrite (tw_antisym (f:=kcmp) (k, s) x) in Hlt by (done || by apply HvB). by rewrite HB in Hlt.
  - rewrite Forall_app, Forall_cons in Hv. unfold klt. rewrite (tw_refl kvalid kcmp); [done|apply Hv].
  - apply Forall_forall. intros x Hx. apply HAB; [done|left].
Qed.
End sets.
