(* ===== verification/LeaderboardProps.v ===== *)
(** * The leaderboard cache implements rankings *)

From stdpp Require Import options.
From S2P Require Import Prelude GoStrings GoNumbers MemoryCache SkipList SkipListFacts SkipListOps.
From S2P Require Import Leaderboard LeaderboardFacts.
Import SkipList Leaderboard.

(** ** Operations and results *)

Inductive zop :=
| OZAdd (key : gostring) (ms : list (option ZMember))
| OZRem (key : gostring) (ms : list gostring)
| OZIncrBy (key member : gostring) (delta : float64)
| OZScore (key member : gostring)
| OZRange (key : gostring) (start stop : Z) (desc : bool)
| OZRangeByScore (key : gostring) (mn mx : float64) (desc : bool)
| OZRank (key member : gostring) (desc : bool)
| OZCard (key : gostring)
| OZCount (key : gostring) (mn mx : float64)
| OZRemRangeByRank (key : gostring) (start stop : Z)
| OZRemRangeByScore (key : gostring) (mn mx : float64)
| OClearLB | OCleanupLB | OCloseLB.

Inductive zres :=
| ZDone | ZScoreOf (s : float64) | ZNum (n : Z) | ZList (l : list entry) | ZErr (e : lbErr).
Definition zerr (e : option lbErr) : zres := match e with Some e => ZErr e | None => ZDone end.
Definition zresult {A} (f : A → zres) (r : result lbErr A) : zres :=
  match r with Ok a => f a | Err e => ZErr e end.

(** ** The specification *)

(** A board is a map with its expiry. *)
Abbreviation aboard := (board * option Z)%type (only parsing).
Abbreviation aboards := (gmap gostring (board * option Z)) (only parsing).

(** Which scores, score ranges, rank ranges, members and keys are accepted. *)
Definition score_err (s : float64) : option lbErr :=
  match s with SpecFloat.S754_nan | SpecFloat.S754_infinity _ => Some ErrInvalidScore | _ => None end.
Definition score_range_err (mn mx : float64) : option lbErr :=
  match SpecFloat.SFcompare mn mx with Some Gt => Some ErrInvalidRange | _ => None end.
Definition rank_range_err (start stop : Z) : option lbErr :=
  if decide (0 ≤ stop < start)%Z then Some ErrInvalidRange else None.
Definition member_err (m : option ZMember) : option lbErr :=
  match m with
  | Some z => if decide (Member z = []) then Some ErrInvalidMember else score_err (Score z)
  | None => Some ErrInvalidMember
  end.
(** The first of the errors, if there is one. *)
Definition first_err (es : list (option lbErr)) : option lbErr := head (omap id es).
Definition control (b : gobyte) : Prop := (byte_val b < 32 ∨ byte_val b = 127)%N.

Lemma score_err_eq s : score_err s = validateScore s.
Proof. by destruct s as [[]|[]| |[] ? ?]. Qed.
Lemma score_range_err_eq mn mx : score_err mn = None → score_err mx = None → score_range_err mn mx = validateScoreRange mn mx.
Proof.
  intros Hn Hx. unfold score_range_err, validateScoreRange, float_gtb, SpecFloat.SFltb.
  assert (not_nan mn ∧ not_nan mx) as [Nn Nx] by (by destruct mn, mx).
  rewrite !SFcompare_cmp by done. rewrite (tw_antisym (f:=float_cmp) mx mn) by done. by destruct (float_cmp mx mn).
Qed.
Lemma rank_range_err_eq start stop : rank_range_err start stop = validateRankRange start stop.
Proof. unfold rank_range_err, validateRankRange. case_decide; destruct (_ && _) eqn:E; try done; unbool; lia. Qed.
Lemma members_err_eq ms : first_err (member_err <$> ms) = validateMembers ms.
Proof.
  unfold first_err. induction ms as [|[z|] ms IH]; simpl; [done| |done]. case_decide; [done|]. rewrite <- score_err_eq.
  by destruct (score_err (Score z)).
Qed.
Lemma first_err_eq es : first_err es = firstErr es.
Proof. unfold first_err. by induction es as [|[e|] es IH]. Qed.
Lemma control_eq key : bool_decide (Exists control key) = existsb MemoryCache.controlByte key.
Proof.
  apply Bool.eq_true_iff_eq. rewrite bool_decide_eq_true, existsb_exists, Exists_exists. apply exist_proper. intros b.
  rewrite list_elem_of_In. apply and_iff_compat_l. unfold control, MemoryCache.controlByte.
  rewrite orb_true_iff, N.ltb_lt, N.eqb_eq. done.
Qed.

Section spec.
Context (cfg : LeaderboardConfig) (kml : Z).

Record astate := MkAState { ab : aboards; a_closed : bool }.
Implicit Types (A : aboards) (m : board) (key member : gostring) (now : Z).

Definition gone_at (e : option Z) now : bool := match e with None => false | Some e => (e <? now)%Z end.

(** An expired board is dropped when it is touched. *)
Definition touch key now A : aboards :=
  match A !! key with Some b => if gone_at b.2 now then delete key A else A | None => A end.

(** Operations on an existing board; [missing] is the answer without one. *)
Definition on_board key now (missing : zres) (f : board → board * zres) A : aboards * zres :=
  let A := touch key now A in
  match A !! key with
  | Some (m, e) => let '(m', r) := f m in (<[key := (m', e)]> A, r)
  | None => (A, missing)
  end.

(** Operations that create the board when needed, within the limit on boards; a
    refused operation leaves no new board behind. *)
Definition on_new_board key now (f : board → result lbErr (board * zres)) A : aboards * zres :=
  let A := touch key now A in
  let write m e :=
    match f m with
    | Ok (m', r) => (<[key := (m', e)]> A, r)
    | Err e => (A, ZErr e)
    end in
  match A !! key with
  | Some (m, e) => write m e
  | None =>
      if (MaxLeaderboards cfg <=? Z.of_nat (size A))%Z then (A, ZErr ErrLeaderboardFull)
      else write ∅ (if (0 <? LBDefaultTTL cfg)%Z then Some (now + LBDefaultTTL cfg)%Z else None)
  end.

Definition add_members (ms : list (option ZMember)) m : result lbErr (board * zres) :=
  if (MaxMembersPerSet cfg <? Z.of_nat (size (insAll ms m)))%Z then Err ErrLeaderboardFull
  else Ok (insAll ms m, ZDone).

Definition incr_member member (delta : float64) m : result lbErr (board * zres) :=
  if decide (m !! member = None ∧ MaxMembersPerSet cfg < Z.of_nat (size m) + 1)%Z then Err ErrLeaderboardFull
  else
    let s := float_add (default float_zero (m !! member)) delta in
    match score_err s with
    | Some e => Err e
    | None => Ok (<[member := s]> m, ZScoreOf s)
    end.

Definition without_entries (gone : list entry) m : board := foldl (λ sc e, delete e.1 sc) m gone.

Definition spec_board (o : zop) now A : aboards * zres :=
  match o with
  | OZAdd key ms => if decide (ms = []) then (A, ZDone)
                    else match first_err (member_err <$> ms) with
                         | Some e => (A, ZErr e)
                         | None => on_new_board key now (add_members ms) A
                         end
  | OZRem key ms => if decide (ms = []) then (A, ZDone)
                    else on_board key now (ZErr ErrLeaderboardNotFound)
                           (λ m, (foldl (λ m x, delete x m) m ms, ZDone)) A
  | OZIncrBy key member delta => on_new_board key now (incr_member member delta) A
  | OZScore key member =>
      on_board key now (ZErr ErrLeaderboardNotFound)
        (λ m, (m, match m !! member with Some s => ZScoreOf s | None => ZErr ErrMemberNotFound end)) A
  | OZRange key start stop desc =>
      on_board key now (ZErr ErrLeaderboardNotFound) (λ m, (m, ZList (slice start stop (dir desc (ranking m))))) A
  | OZRangeByScore key mn mx desc =>
      on_board key now (ZErr ErrLeaderboardNotFound)
        (λ m, (m, ZList (filter (inScores mn mx) (dir desc (ranking m))))) A
  | OZRank key member desc =>
      on_board key now (ZErr ErrLeaderboardNotFound)
        (λ m, (m, match m !! member with
                  | Some s => ZNum (Z.of_nat (if desc then size m - 1 - rank_of m member s else rank_of m member s))
                  | None => ZErr ErrMemberNotFound
                  end)) A
  | OZCard key => on_board key now (ZNum 0) (λ m, (m, ZNum (Z.of_nat (size m)))) A
  | OZCount key mn mx =>
      on_board key now (ZNum 0) (λ m, (m, ZNum (Z.of_nat (length (filter (inScores mn mx) (ranking m)))))) A
  | OZRemRangeByRank key start stop =>
      on_board key now (ZNum 0)
        (λ m, let gone := slice start stop (ranking m) in
              (without_entries gone m, ZNum (Z.of_nat (length gone)))) A
  | OZRemRangeByScore key mn mx =>
      on_board key now (ZNum 0)
        (λ m, let gone := filter (inScores mn mx) (ranking m) in
              (without_entries gone m, ZNum (Z.of_nat (length gone)))) A
  | OClearLB => (∅, ZDone)
  | OCleanupLB => (filter (λ kb, gone_at kb.2.2 now = false) A, ZDone)
  | OCloseLB => (A, ZDone)
  end.

(** The checks before an operation, in the order of the code. *)
Definition a_guard (ctx : bool) (closed : bool) key : option lbErr :=
  if closed then Some ErrClosed else if ctx then Some ErrLBContext
  else if decide (key = []) then Some (ErrCache MemoryCache.ErrInvalidKey)
  else if (0 <? kml)%Z && (kml <? Z.of_nat (length key))%Z then Some (ErrCache MemoryCache.ErrKeyTooLong)
  else if decide (Exists control key) then Some (ErrCache MemoryCache.ErrInvalidKey)
  else None.

Definition precheck (o : zop) (ctx closed : bool) : option lbErr :=
  match o with
  | OZAdd key _ | OZRem key _ | OZScore key _ | OZRank key _ _ | OZCard key => a_guard ctx closed key
  | OZIncrBy key member delta =>
      first_err [a_guard ctx closed key; if decide (member = []) then Some ErrInvalidMember else None; score_err delta]
  | OZRange key start stop _ | OZRemRangeByRank key start stop =>
      first_err [a_guard ctx closed key; rank_range_err start stop]
  | OZRangeByScore key mn mx _ | OZCount key mn mx | OZRemRangeByScore key mn mx =>
      first_err [a_guard ctx closed key; score_err mn; score_err mx; score_range_err mn mx]
  | OClearLB => if closed then Some ErrClosed else if ctx then Some (ErrCache MemoryCache.ErrContext) else None
  | OCleanupLB | OCloseLB => None
  end.

Definition spec_zop (o : zop) (ctx : bool) now (a : astate) : astate * zres :=
  match precheck o ctx (a_closed a) with
  | Some e => (a, ZErr e)
  | None =>
      let '(A, r) := spec_board o now (ab a) in
      (MkAState A (match o with OCloseLB => true | _ => a_closed a end), r)
  end.

Fixpoint spec_zrun (es : list (zop * bool * Z)) (a : astate) : astate * list zres :=
  match es with
  | [] => (a, [])
  | (o, ctx, now) :: es =>
      let '(a, r) := spec_zop o ctx now a in
      let '(a, rs) := spec_zrun es a in (a, r :: rs)
  end.
End spec.

Section state.
Context {R : Type} `{!levelRNG R}.
Implicit Types (cfg : LeaderboardConfig) (kml : Z) (lbc : Cache (R:=R)) (ss : sortedSet (R:=R))
  (key : gostring) (now : Z) (A : aboards).

(** What the cache denotes, and its invariant: the map and the skip list of every
    board agree, the board counter is exact, both limits hold. *)
Definition abs_board ss : aboard := (scores ss, ssExpiration ss).
Definition abs lbc : astate := MkAState (abs_board <$> boards lbc) (lbClosed lbc).

Record lb_inv cfg kml lbc : Prop := {
  lb_config : lbConfig lbc = cfg;
  lb_kml : keyMaxLength lbc = kml;
  lb_count : lbCount lbc = Z.of_nat (size (boards lbc));
  lb_boards key ss : boards lbc !! key = Some ss →
    set_ok ss ∧ (Z.of_nat (size (scores ss)) ≤ MaxMembersPerSet cfg)%Z;
  lb_limit : (lbCount lbc ≤ MaxLeaderboards cfg)%Z;
  lb_base : MemoryCache.closed (base lbc) = lbClosed lbc;
}.

Lemma abs_lookup lbc key : ab (abs lbc) !! key = abs_board <$> boards lbc !! key.
Proof. apply lookup_fmap. Qed.

Lemma guard_abs cfg kml lbc ctx key : lb_inv cfg kml lbc →
  validateOperation ctx key lbc = a_guard kml ctx (a_closed (abs lbc)) key.
Proof.
  intros Hi. unfold validateOperation, validateLBKey, a_guard. rewrite (lb_kml _ _ _ Hi), <- control_eq.
  by destruct (decide (Exists control key)); [rewrite bool_decide_true|rewrite bool_decide_false].
Qed.

Lemma count_inv cfg kml f lbc : lb_inv cfg kml lbc → lb_inv cfg kml (count_ f lbc) ∧ abs (count_ f lbc) = abs lbc.
Proof. intros Hi. unfold count_. case_match; [|done]. destruct Hi. split; [|done]. by split. Qed.

Lemma put_inv cfg kml lbc key ss : lb_inv cfg kml lbc → is_Some (boards lbc !! key) → set_ok ss →
  (Z.of_nat (size (scores ss)) ≤ MaxMembersPerSet cfg)%Z →
  lb_inv cfg kml (putBoard key ss lbc) ∧
  abs (putBoard key ss lbc) = MkAState (<[key := abs_board ss]> (ab (abs lbc))) (lbClosed lbc).
Proof.
  intros [] Hk Hok Hsz. split.
  - split; simpl; try done.
    + by rewrite map_size_insert_Some.
    + intros k' ss'. rewrite lookup_insert_Some. naive_solver.
  - unfold abs, putBoard. simpl. by rewrite fmap_insert.
Qed.

Lemma drop_inv cfg kml lbc key : lb_inv cfg kml lbc → is_Some (boards lbc !! key) →
  lb_inv cfg kml (dropBoard key lbc) ∧ abs (dropBoard key lbc) = MkAState (delete key (ab (abs lbc))) (lbClosed lbc).
Proof.
  intros [] [ss Hk]. split.
  - split; simpl; try done.
    + rewrite map_size_delete_Some by done. assert (size (boards lbc) ≠ 0); [|lia].
      apply map_size_non_empty_iff. intros E. by rewrite E, lookup_empty in Hk.
    + intros k' ss'. rewrite lookup_delete_Some. naive_solver.
    + lia.
  - unfold abs, dropBoard. simpl. by rewrite fmap_delete.
Qed.

Lemma gone_expired ss now : gone_at (abs_board ss).2 now = isExpired ss now.
Proof. done. Qed.

(** Looking a board up is touching it. *)
Lemma getSortedSet_ok cfg kml lbc key now : lb_inv cfg kml lbc →
  ∃ lbc', getSortedSet key now lbc =
    (lbc', match boards lbc' !! key with Some ss => Ok ss | None => Err ErrLeaderboardNotFound end) ∧
  lb_inv cfg kml lbc' ∧ abs lbc' = MkAState (touch key now (ab (abs lbc))) (lbClosed lbc).
Proof.
  intros Hi. unfold getSortedSet, touch. rewrite abs_lookup. destruct (boards lbc !! key) as [ss|] eqn:Ek; simpl.
  - change (gone_at (ssExpiration ss) now) with (isExpired ss now). destruct (isExpired ss now) eqn:Ee.
    + exists (dropBoard key lbc). simpl. rewrite lookup_delete_eq.
      destruct (drop_inv _ _ _ key Hi) as [Hi' Ha]; [by eexists|]. done.
    + exists lbc. by rewrite Ek.
  - exists lbc. by rewrite Ek.
Qed.


(** ** One operation: results and next states *)

(** [out] returns the specified result in a state that denotes the specified one. *)
Definition simulates cfg kml lbc (out : option (Cache (R:=R) * zres)) (spec : aboards * zres) : Prop :=
  ∃ lbc' r, out = Some (lbc', r) ∧ lb_inv cfg kml lbc' ∧ spec = (ab (abs lbc'), r) ∧ lbClosed lbc' = lbClosed lbc.

Lemma sim_same cfg kml lbc lbc1 r : lb_inv cfg kml lbc1 → lbClosed lbc1 = lbClosed lbc →
  simulates cfg kml lbc (Some (lbc1, r)) (ab (abs lbc1), r).
Proof. intros Hi Hc. by exists lbc1, r. Qed.

Lemma count_closed f lbc : lbClosed (count_ f lbc) = lbClosed lbc.
Proof. unfold count_. by case_match. Qed.

Lemma sim_count cfg kml f lbc lbc1 r A : simulates cfg kml lbc (Some (lbc1, r)) (A, r) →
  simulates cfg kml lbc (Some (count_ f lbc1, r)) (A, r).
Proof.
  intros (lbc' & r' & [= <- <-] & Hi & E & Hc). injection E as ->. destruct (count_inv _ _ f _ Hi) as [Hi' Ha].
  exists (count_ f lbc1), r. by rewrite Ha, count_closed.
Qed.

(** A read leaves the board as it is. *)
Lemma sim_read cfg kml lbc lbc1 key ss r : lb_inv cfg kml lbc1 → lbClosed lbc1 = lbClosed lbc →
  boards lbc1 !! key = Some ss →
  simulates cfg kml lbc (Some (lbc1, r)) (<[key := (scores ss, ssExpiration ss)]> (ab (abs lbc1)), r).
Proof. intros Hi Hc Hk. rewrite insert_id; [by apply sim_same|]. by rewrite abs_lookup, Hk. Qed.

Lemma sim_put cfg kml lbc lbc1 key ss r : lb_inv cfg kml lbc1 → lbClosed lbc1 = lbClosed lbc →
  is_Some (boards lbc1 !! key) → set_ok ss → (Z.of_nat (size (scores ss)) ≤ MaxMembersPerSet cfg)%Z →
  simulates cfg kml lbc (Some (putBoard key ss lbc1, r)) (<[key := (scores ss, ssExpiration ss)]> (ab (abs lbc1)), r).
Proof.
  intros Hi Hc Hk Hok Hsz. destruct (put_inv _ _ _ key ss Hi Hk Hok Hsz) as [Hi' Ha].
  exists (putBoard key ss lbc1), r. split_and!; [done|done| |done]. by rewrite Ha.
Qed.

(** An operation on an existing board: [out] looks it up first. *)
Lemma sim_on_board cfg kml lbc key now missing f out : lb_inv cfg kml lbc →
  (∀ lbc1, getSortedSet key now lbc = (lbc1, Err ErrLeaderboardNotFound) → out = Some (lbc1, missing)) →
  (∀ lbc1 ss, getSortedSet key now lbc = (lbc1, Ok ss) →
    lb_inv cfg kml lbc1 → lbClosed lbc1 = lbClosed lbc → boards lbc1 !! key = Some ss →
    simulates cfg kml lbc out
      (<[key := ((f (scores ss)).1, ssExpiration ss)]> (ab (abs lbc1)), (f (scores ss)).2)) →
  simulates cfg kml lbc out (on_board key now missing f (ab (abs lbc))).
Proof.
  intros Hi Hmiss Hbody. destruct (getSortedSet_ok _ _ _ key now Hi) as (lbc1 & E & Hi1 & Ha).
  unfold on_board. assert (ab (abs lbc1) = touch key now (ab (abs lbc))) as <- by by rewrite Ha.
  assert (Hc : lbClosed lbc1 = lbClosed lbc) by (apply (f_equal a_closed) in Ha; done).
  rewrite abs_lookup. destruct (boards lbc1 !! key) as [ss|] eqn:Ek.
  - specialize (Hbody lbc1 ss E Hi1 Hc Ek). simpl. by destruct (f (scores ss)).
  - rewrite (Hmiss _ E). by apply sim_same.
Qed.
End state.

Section sim.
Context {R : Type} `{!levelRNG R} (newRng : Z → R).
Implicit Types (cfg : LeaderboardConfig) (kml : Z) (lbc : Cache (R:=R)) (ss : sortedSet (R:=R))
  (key : gostring) (now : Z) (A : aboards).

Definition run_zop (o : zop) (ctx : bool) now lbc : option (Cache (R:=R) * zres) :=
  match o with
  | OZAdd key ms => '(lbc, e) ← ZAdd newRng ctx key ms now lbc; Some (lbc, zerr e)
  | OZRem key ms => '(lbc, e) ← ZRem ctx key ms now lbc; Some (lbc, zerr e)
  | OZIncrBy key member delta =>
      '(lbc, r) ← ZIncrBy newRng ctx key member delta now lbc; Some (lbc, zresult ZScoreOf r)
  | OZScore key member => let '(lbc, r) := ZScore ctx key member now lbc in Some (lbc, zresult ZScoreOf r)
  | OZRange key start stop desc => '(lbc, r) ← ZRange ctx key start stop desc now lbc; Some (lbc, zresult ZList r)
  | OZRangeByScore key mn mx desc =>
      '(lbc, r) ← ZRangeByScore ctx key mn mx desc now lbc; Some (lbc, zresult ZList r)
  | OZRank key member desc => '(lbc, r) ← ZRank ctx key member desc now lbc; Some (lbc, zresult ZNum r)
  | OZCard key => let '(lbc, r) := ZCard ctx key now lbc in Some (lbc, zresult ZNum r)
  | OZCount key mn mx => '(lbc, r) ← ZCount ctx key mn mx now lbc; Some (lbc, zresult ZNum r)
  | OZRemRangeByRank key start stop =>
      '(lbc, r) ← ZRemRangeByRank ctx key start stop now lbc; Some (lbc, zresult ZNum r)
  | OZRemRangeByScore key mn mx =>
      '(lbc, r) ← ZRemRangeByScore ctx key mn mx now lbc; Some (lbc, zresult ZNum r)
  | OClearLB => let '(lbc, e) := ClearLB ctx lbc in Some (lbc, zerr e)
  | OCleanupLB => Some (cleanupExpiredLeaderboards now lbc, ZDone)
  | OCloseLB => Some (CloseLB lbc, ZDone)
  end.

Fixpoint run_zops (es : list (zop * bool * Z)) lbc : option (Cache (R:=R) * list zres) :=
  match es with
  | [] => Some (lbc, [])
  | (o, ctx, now) :: es =>
      '(lbc, r) ← run_zop o ctx now lbc;
      '(lbc, rs) ← run_zops es lbc;
      Some (lbc, r :: rs)
  end.

Lemma getOrCreate_ok cfg kml lbc key now : lb_inv cfg kml lbc → ∃ lbc0,
  lb_inv cfg kml lbc0 ∧ abs lbc0 = MkAState (touch key now (ab (abs lbc))) (lbClosed lbc) ∧
  getOrCreateSortedSet newRng key 0 now lbc =
    match boards lbc0 !! key with
    | Some ss => (lbc0, Ok (ss, false))
    | None =>
        if (MaxLeaderboards cfg <=? Z.of_nat (size (boards lbc0)))%Z then (lbc0, Err ErrLeaderboardFull)
        else (setBoards lbc0 (<[key := newSortedSet newRng (LBDefaultTTL cfg) now]> (boards lbc0)) (lbCount lbc0 + 1),
              Ok (newSortedSet newRng (LBDefaultTTL cfg) now, true))
    end.
Proof.
  intros Hi. unfold getOrCreateSortedSet, touch. rewrite abs_lookup.
  destruct (boards lbc !! key) as [ss|] eqn:Ek; simpl.
  - change (gone_at (ssExpiration ss) now) with (isExpired ss now). destruct (isExpired ss now) eqn:Ee.
    + destruct (drop_inv _ _ _ key Hi) as [Hi' Ha]; [by eexists|].
      exists (dropBoard key lbc). split; [done|]. split; [done|]. simpl. rewrite lookup_delete_eq.
      pose proof (lb_count _ _ _ Hi') as Hc. simpl in Hc. by rewrite (lb_config _ _ _ Hi), Hc.
    + exists lbc. by rewrite Ek.
  - exists lbc. split; [done|]. split; [done|]. by rewrite Ek, (lb_config _ _ _ Hi), (lb_count _ _ _ Hi).
Qed.

Lemma new_set_ok ttl now : set_ok (newSortedSet newRng ttl now).
Proof. exists []. split; [apply rep_new|]. split_and!; try constructor. apply not_elem_of_nil. Qed.

Lemma create_inv cfg kml lbc key ss : lb_inv cfg kml lbc → boards lbc !! key = None → set_ok ss →
  (0 ≤ MaxMembersPerSet cfg)%Z → scores ss = ∅ → (Z.of_nat (size (boards lbc)) < MaxLeaderboards cfg)%Z →
  lb_inv cfg kml (setBoards lbc (<[key := ss]> (boards lbc)) (lbCount lbc + 1)).
Proof using.
  intros [] Hk Hok Hm Hs Hn. split; simpl; [done|done| | |lia|done].
  - rewrite map_size_insert_None by done. lia.
  - intros k' ss'. rewrite lookup_insert_Some. intros [[_ <-]|[_ ?]]; [|by eauto]. by rewrite Hs, map_size_empty.
Qed.

Lemma drop_created lbc key ss : boards lbc !! key = None →
  deleteCreatedSortedSet key (setBoards lbc (<[key := ss]> (boards lbc)) (lbCount lbc + 1)) = lbc.
Proof using.
  intros Hk. unfold deleteCreatedSortedSet. simpl. rewrite lookup_insert_eq. unfold dropBoard. simpl.
  rewrite delete_insert_id by done. destruct lbc. unfold setBoards. simpl. f_equal. lia.
Qed.

(** An operation that creates its board: it works on [ss], which [lbc1] holds, and a
    refusal leaves [lbc0], where a board just created is removed again. *)
Lemma sim_on_new_board cfg kml lbc key now (f : board → result lbErr (board * zres)) out :
  lb_inv cfg kml lbc → (0 ≤ MaxMembersPerSet cfg)%Z →
  (∀ lbc1, getOrCreateSortedSet newRng key 0 now lbc = (lbc1, Err ErrLeaderboardFull) →
    out = Some (lbc1, ZErr ErrLeaderboardFull)) →
  (∀ lbc1 lbc0 ss (created : bool), getOrCreateSortedSet newRng key 0 now lbc = (lbc1, Ok (ss, created)) →
    lb_inv cfg kml lbc1 → lbClosed lbc1 = lbClosed lbc → boards lbc1 !! key = Some ss →
    lb_inv cfg kml lbc0 → lbClosed lbc0 = lbClosed lbc →
    (if created then deleteCreatedSortedSet key lbc1 else lbc1) = lbc0 →
    (created = true → scores ss = ∅) →
    simulates cfg kml lbc out
      match f (scores ss) with
      | Ok (m', r) => (<[key := (m', ssExpiration ss)]> (ab (abs lbc1)), r)
      | Err e => (ab (abs lbc0), ZErr e)
      end) →
  simulates cfg kml lbc out (on_new_board cfg key now f (ab (abs lbc))).
Proof.
  intros Hi Hm Hfull Hbody. destruct (getOrCreate_ok _ _ _ key now Hi) as (lbc0 & Hi0 & Ha & E).
  unfold on_new_board. assert (ab (abs lbc0) = touch key now (ab (abs lbc))) as <- by by rewrite Ha.
  assert (Hc : lbClosed lbc0 = lbClosed lbc) by (apply (f_equal a_closed) in Ha; done).
  rewrite abs_lookup. destruct (boards lbc0 !! key) as [ss|] eqn:Ek.
  - apply (Hbody lbc0 lbc0 ss false); done.
  - simpl. rewrite map_size_fmap. destruct (_ <=? _)%Z eqn:El; [rewrite (Hfull _ E); by apply sim_same|]. unbool.
    set (ss := newSortedSet newRng (LBDefaultTTL cfg) now) in E. specialize (Hbody _ lbc0 ss true E
      (create_inv _ _ _ key ss Hi0 Ek (new_set_ok _ _) Hm eq_refl El) Hc).
    simpl in Hbody. rewrite lookup_insert_eq in Hbody.
    specialize (Hbody eq_refl Hi0 Hc (drop_created _ _ _ Ek) (λ _, eq_refl)).
    destruct (f ∅) as [[m' r]|e]; [|done]. simpl in Hbody. rewrite fmap_insert, insert_insert_eq in Hbody. done.
Qed.

(** ** The operations *)

Ltac board_op Hi :=
  apply sim_on_board; [exact Hi|intros ? E; by rewrite E|intros lbc1 ss E Hi1 Hc Hk; rewrite E; simpl].
Ltac new_board_op Hi :=
  apply sim_on_new_board; [exact Hi|done|intros ? E; by rewrite E
                          |intros lbc1 lbc0 ss created E Hi1 Hc Hk Hi0 Hc0 Hun Hnew; rewrite E; simpl].

Section ops.
#[local] Arguments float_add : simpl never.
Context cfg kml lbc (Hi : lb_inv cfg kml lbc) (Hmax : (0 ≤ MaxMembersPerSet cfg ≤ 2 ^ 45)%Z).
Implicit Types (member : gostring) (mn mx : float64).
Local Abbreviation sim := (simulates cfg kml lbc).

Lemma board_ok lbc1 key ss : lb_inv cfg kml lbc1 → boards lbc1 !! key = Some ss →
  set_ok ss ∧ (Z.of_nat (size (scores ss)) ≤ MaxMembersPerSet cfg)%Z.
Proof using. intros Hi1. apply Hi1. Qed.

Lemma ZScore_sim ctx key member now : a_guard kml ctx (lbClosed lbc) key = None →
  sim (run_zop (OZScore key member) ctx now lbc) (spec_board cfg (OZScore key member) now (ab (abs lbc))).
Proof using Hi.
  intros Hg. unfold run_zop, spec_board, ZScore. rewrite (guard_abs _ _ _ _ _ Hi). simpl. rewrite Hg. simpl.
  board_op Hi. destruct (scores ss !! member) as [s|]; simpl; [apply sim_count|]; by apply sim_read.
Qed.

Lemma ZCard_sim ctx key now : a_guard kml ctx (lbClosed lbc) key = None →
  sim (run_zop (OZCard key) ctx now lbc) (spec_board cfg (OZCard key) now (ab (abs lbc))).
Proof using Hi.
  intros Hg. unfold run_zop, spec_board, ZCard. rewrite (guard_abs _ _ _ _ _ Hi). simpl. rewrite Hg. simpl.
  board_op Hi. destruct (board_ok _ _ _ Hi1 Hk) as [(ns & Hr & Ens & _) _].
  rewrite (rep_length _ _ Hr), <- ranking_length, <- Ens. unfold keys. rewrite length_fmap. by apply sim_read.
Qed.

Lemma ZRank_sim ctx key member desc now : a_guard kml ctx (lbClosed lbc) key = None →
  sim (run_zop (OZRank key member desc) ctx now lbc) (spec_board cfg (OZRank key member desc) now (ab (abs lbc))).
Proof using Hi.
  intros Hg. unfold run_zop, spec_board, ZRank. rewrite (guard_abs _ _ _ _ _ Hi). simpl. rewrite Hg. simpl.
  board_op Hi. destruct (board_ok _ _ _ Hi1 Hk) as [Hok _].
  destruct (scores ss !! member) as [s|] eqn:Em; simpl; [|by apply sim_read].
  rewrite (getRank_ok _ _ _ _ _ desc Hok (rank_of_lookup _ _ _ _ Hok Em)), ranking_length. simpl.
  destruct desc; rewrite (proj2 (Z.ltb_ge _ _)) by lia; simpl; apply sim_count; by apply sim_read.
Qed.

Lemma finishRange_sim lbc1 key ss nodes es : lb_inv cfg kml lbc1 → lbClosed lbc1 = lbClosed lbc →
  boards lbc1 !! key = Some ss → entriesOf (skl ss) nodes = Some es →
  sim ('(lbc, r) ← finishRange nodes ss lbc1; Some (lbc, zresult ZList r))
    (<[key := (scores ss, ssExpiration ss)]> (ab (abs lbc1)), ZList es).
Proof using.
  intros Hi1 Hc Hk He. unfold finishRange. case_decide as Hn; simpl.
  - subst. injection He as <-. by apply sim_read.
  - rewrite He. simpl. apply sim_count. by apply sim_read.
Qed.

Lemma ZRange_sim ctx key start stop desc now : a_guard kml ctx (lbClosed lbc) key = None →
  validateRankRange start stop = None → rank_ok start → rank_ok stop →
  sim (run_zop (OZRange key start stop desc) ctx now lbc)
    (spec_board cfg (OZRange key start stop desc) now (ab (abs lbc))).
Proof using Hi Hmax.
  intros Hg Hv Hst Hsp. unfold run_zop, spec_board, ZRange. rewrite (guard_abs _ _ _ _ _ Hi). simpl. rewrite Hg, Hv.
  board_op Hi. destruct (board_ok _ _ _ Hi1 Hk) as [Hok Hsz].
  destruct (getRange_ok _ _ start stop desc Hok) as (xs & -> & Hxs); [rewrite ranking_length; lia|done..|].
  simpl. by apply finishRange_sim.
Qed.

Definition scores_ok mn mx : Prop :=
  validateScore mn = None ∧ validateScore mx = None ∧ validateScoreRange mn mx = None.
Lemma scores_ok_le mn mx : scores_ok mn mx → not_nan mn ∧ not_nan mx ∧ float_leb mn mx = true.
Proof using.
  intros (H1 & H2 & H3). apply score_ok_not_nan in H1, H2. split_and!; [done..|].
  apply not_gt; [done..|]. unfold validateScoreRange in H3. by destruct (float_gtb mn mx).
Qed.

Lemma ZRangeByScore_sim ctx key mn mx desc now : a_guard kml ctx (lbClosed lbc) key = None → scores_ok mn mx →
  sim (run_zop (OZRangeByScore key mn mx desc) ctx now lbc)
    (spec_board cfg (OZRangeByScore key mn mx desc) now (ab (abs lbc))).
Proof using Hi.
  intros Hg Hv. pose proof (scores_ok_le _ _ Hv) as (Hmn & Hmx & Hle). destruct Hv as (V1 & V2 & V3).
  unfold run_zop, spec_board, ZRangeByScore. rewrite (guard_abs _ _ _ _ _ Hi). simpl. rewrite Hg, V1, V2, V3.
  board_op Hi. destruct (board_ok _ _ _ Hi1 Hk) as [Hok _].
  destruct (getRangeByScore_ok _ _ mn mx Hok Hmn Hmx Hle desc) as (xs & -> & Hxs). simpl. by apply finishRange_sim.
Qed.

Lemma ZCount_sim ctx key mn mx now : a_guard kml ctx (lbClosed lbc) key = None → scores_ok mn mx →
  sim (run_zop (OZCount key mn mx) ctx now lbc) (spec_board cfg (OZCount key mn mx) now (ab (abs lbc))).
Proof using Hi.
  intros Hg Hv. pose proof (scores_ok_le _ _ Hv) as (Hmn & Hmx & Hle). destruct Hv as (V1 & V2 & V3).
  unfold run_zop, spec_board, ZCount. rewrite (guard_abs _ _ _ _ _ Hi). simpl. rewrite Hg, V1, V2, V3.
  board_op Hi. destruct (board_ok _ _ _ Hi1 Hk) as [Hok _].
  rewrite (count_ok _ _ mn mx Hok Hmn Hmx Hle). by apply sim_read.
Qed.

Lemma size_delete_le (m : board) (k : gostring) : size (delete k m) ≤ size m.
Proof using. destruct (m !! k) eqn:E; [rewrite map_size_delete_Some by done; lia|by rewrite delete_id]. Qed.

Lemma ZRem_sim ctx key ms now : a_guard kml ctx (lbClosed lbc) key = None →
  sim (run_zop (OZRem key ms) ctx now lbc) (spec_board cfg (OZRem key ms) now (ab (abs lbc))).
Proof using Hi.
  intros Hg. unfold run_zop, spec_board, ZRem. rewrite (guard_abs _ _ _ _ _ Hi). simpl. rewrite Hg.
  case_decide; [by apply sim_same|]. board_op Hi. destruct (board_ok _ _ _ Hi1 Hk) as [Hok Hsz].
  destruct (removeAll_set ms 0 ss Hok) as (c & ss' & -> & Hok' & Hs' & He'). simpl.
  rewrite <- Hs', <- He'. apply sim_count, sim_put; [done|done|by eexists|done|]. rewrite Hs'. etrans; [|exact Hsz].
  apply Nat2Z.inj_le. clear. generalize (scores ss). induction ms as [|x ms IH]; intros m; simpl; [done|].
  etrans; [apply IH|apply size_delete_le].
Qed.

(** Removing a range: what remains in the list is what remains in the map. *)
Lemma forget_sim lbc1 key ss gone rest sl' n f : lb_inv cfg kml lbc1 → lbClosed lbc1 = lbClosed lbc →
  boards lbc1 !! key = Some ss → represents sl' rest → ranking (scores ss) ≡ₚ gone ++ rest →
  sim (Some (count_ f (putBoard key (MkSet (without_entries gone (scores ss)) sl' (ssExpiration ss)) lbc1), n))
    (<[key := (without_entries gone (scores ss), ssExpiration ss)]> (ab (abs lbc1)), n).
Proof using.
  intros Hi1 Hc Hk Hr Hp. destruct (board_ok _ _ _ Hi1 Hk) as [Hok Hsz].
  apply sim_count. set (ss' := MkSet (without_entries gone (scores ss)) sl' (ssExpiration ss)).
  change (without_entries gone (scores ss)) with (scores ss'). change (ssExpiration ss) with (ssExpiration ss').
  apply sim_put; [done|done|by eexists|..].
  - apply (represents_ranking _ rest); [done|]. by apply forget_perm.
  - etrans; [|exact Hsz]. apply Nat2Z.inj_le. clear. simpl. generalize (scores ss).
    induction gone as [|x gone IH]; intros m; simpl; [done|]. etrans; [apply IH|apply size_delete_le].
Qed.

Lemma entriesOf_nil (sl : skipList (R:=R)) xs es : entriesOf sl xs = Some es → length es = length xs.
Proof using. intros H. apply mapM_Some, Forall2_length in H. done. Qed.

Lemma ZRemRangeByRank_sim ctx key start stop now : a_guard kml ctx (lbClosed lbc) key = None →
  validateRankRange start stop = None → rank_ok start → rank_ok stop →
  sim (run_zop (OZRemRangeByRank key start stop) ctx now lbc)
    (spec_board cfg (OZRemRangeByRank key start stop) now (ab (abs lbc))).
Proof using Hi Hmax.
  intros Hg Hv Hst Hsp. unfold run_zop, spec_board, ZRemRangeByRank. rewrite (guard_abs _ _ _ _ _ Hi). simpl.
  rewrite Hg, Hv. board_op Hi. destruct (board_ok _ _ _ Hi1 Hk) as [Hok Hsz].
  destruct (getRange_ok _ _ start stop false Hok) as (xs & -> & Hxs); [rewrite ranking_length; lia|done..|].
  simpl in *. pose proof (entriesOf_nil _ _ _ Hxs) as Hl. unfold forgetNodes. rewrite Hxs. case_decide as Hn; simpl.
  - subst xs. destruct (slice _ _ _); [|done]. by apply sim_read.
  - destruct (deleteRangeByRank_ok _ _ start stop Hok) as (sl' & l1 & l2 & -> & E2 & Hr). simpl.
    apply (forget_sim _ _ _ _ (l1 ++ l2)); [done..|]. rewrite E2 at 1.
    rewrite !(assoc_L (++)). f_equiv. apply Permutation_app_comm.
Qed.

Lemma ZRemRangeByScore_sim ctx key mn mx now : a_guard kml ctx (lbClosed lbc) key = None → scores_ok mn mx →
  sim (run_zop (OZRemRangeByScore key mn mx) ctx now lbc)
    (spec_board cfg (OZRemRangeByScore key mn mx) now (ab (abs lbc))).
Proof using Hi.
  intros Hg Hv. pose proof (scores_ok_le _ _ Hv) as (Hmn & Hmx & Hle). destruct Hv as (V1 & V2 & V3).
  unfold run_zop, spec_board, ZRemRangeByScore. rewrite (guard_abs _ _ _ _ _ Hi). simpl. rewrite Hg, V1, V2, V3.
  board_op Hi. destruct (board_ok _ _ _ Hi1 Hk) as [Hok _].
  destruct (getRangeByScore_ok _ _ mn mx Hok Hmn Hmx Hle false) as (xs & -> & Hxs). simpl in *.
  pose proof (entriesOf_nil _ _ _ Hxs) as Hl. unfold forgetNodes. rewrite Hxs. case_decide as Hn; simpl.
  - subst xs. destruct (filter _ _); [|done]. by apply sim_read.
  - destruct (deleteRangeByScore_ok _ _ mn mx Hok Hmn Hmx Hle) as (sl' & -> & Hr). simpl.
    eapply forget_sim; [done..|exact Hr|]. symmetry. apply filter_app_complement.
Qed.

Lemma ZAdd_sim ctx key ms now : a_guard kml ctx (lbClosed lbc) key = None →
  sim (run_zop (OZAdd key ms) ctx now lbc) (spec_board cfg (OZAdd key ms) now (ab (abs lbc))).
Proof using Hi Hmax.
  intros Hg. unfold run_zop, spec_board, ZAdd. rewrite (guard_abs _ _ _ _ _ Hi). simpl. rewrite Hg.
  case_decide; [by apply sim_same|]. rewrite members_err_eq. destruct (validateMembers ms) eqn:Hv; [by apply sim_same|].
  destruct Hmax as [Hmax1 _]. new_board_op Hi. rewrite (lb_config _ _ _ Hi1).
  destruct (board_ok _ _ _ Hi1 Hk) as [Hok _]. unfold add_members.
  rewrite <- (countNew_size ms (scores ss) ∅ (scores ss)) by set_solver. destruct (_ <? _)%Z eqn:El; simpl.
  - rewrite Hun. by apply sim_same.
  - unbool. destruct (upsertAll_set ms ss Hok Hv) as (ss' & -> & Hok' & Hs' & He'). simpl.
    rewrite <- Hs', <- He'. apply sim_count, sim_put; [done|done|by eexists|done|by rewrite Hs'].
Qed.

Lemma ZIncrBy_sim ctx key member delta now : a_guard kml ctx (lbClosed lbc) key = None →
  member ≠ [] → validateScore delta = None →
  sim (run_zop (OZIncrBy key member delta) ctx now lbc) (spec_board cfg (OZIncrBy key member delta) now (ab (abs lbc))).
Proof using Hi Hmax.
  intros Hg Hm Hv. unfold run_zop, spec_board, ZIncrBy. rewrite (guard_abs _ _ _ _ _ Hi). simpl.
  rewrite Hg, (decide_False _ _ Hm), Hv. destruct Hmax as [Hmax1 _]. new_board_op Hi. rewrite (lb_config _ _ _ Hi1).
  destruct (board_ok _ _ _ Hi1 Hk) as [Hok Hsz]. unfold incr_member. rewrite score_err_eq.
  destruct (scores ss !! member) as [old|] eqn:Em; simpl.
  - destruct (delete_set _ _ _ _ Hok Em) as (sl & -> & Hr). simpl.
    assert (created = false) as -> by (destruct created; [by rewrite Hnew in Em|done]). simpl in Hun. subst lbc0.
    destruct (validateScore (float_add old delta)) eqn:Es.
    + assert (Hold : not_nan old).
      { destruct Hok as (ns & _ & _ & _ & Hval & _). rewrite Forall_forall in Hval.
        apply (Hval (member, old)). by apply ranking_elem. }
      destruct (insert_set sl _ member old Hr) as (x & sl' & -> & Hr'); [apply lookup_delete_eq|done..|]. simpl.
      rewrite insert_delete_id in Hr' by done.
      pose proof (sim_put cfg kml lbc lbc1 key (MkSet (scores ss) sl' (ssExpiration ss)) (ZErr l) Hi1 Hc) as Hs.
      simpl in Hs. change (ab (abs lbc1)) with (abs_board <$> boards lbc1) in Hs.
      rewrite insert_id in Hs by (by rewrite lookup_fmap, Hk). apply Hs; [by eexists|done|done].
    + destruct (insert_set sl _ member (float_add old delta) Hr) as (x & sl' & -> & Hr');
        [apply lookup_delete_eq|done|by apply score_ok_not_nan|]. simpl. rewrite insert_delete_eq in Hr'.
      apply sim_count, (sim_put _ _ _ _ _ (MkSet _ _ _)); [done|done|by eexists|done|].
      simpl. by rewrite map_size_insert_Some.
  - destruct (_ <? _)%Z eqn:El; unbool; simpl.
    { rewrite (decide_True (P:=_ ∧ _)), Hun by done. by apply sim_same. }
    rewrite (decide_False (P:=_ ∧ _)) by lia.
    destruct (validateScore (float_add float_zero delta)) eqn:Es; simpl; [rewrite Hun; by apply sim_same|].
    destruct (insert_set (skl ss) _ member (float_add float_zero delta) Hok Em) as (x & sl' & -> & Hr');
      [done|by apply score_ok_not_nan|]. simpl.
    apply sim_count, (sim_put _ _ _ _ _ (MkSet _ _ _)); [done|done|by eexists|done|].
    simpl. rewrite map_size_insert_None by done. lia.
Qed.

Lemma ClearLB_sim ctx now : lbClosed lbc = false → ctx = false →
  sim (run_zop OClearLB ctx now lbc) (spec_board cfg OClearLB now (ab (abs lbc))).
Proof using Hi.
  intros Hc ->. unfold run_zop, ClearLB. rewrite Hc. unfold MemoryCache.Clear, MemoryCache.operationErr.
  pose proof (lb_base _ _ _ Hi) as Hb. rewrite Hc in Hb. rewrite Hb. simpl.
  set (b := foldl _ _ _). eexists _, _. split; [done|]. split; [|split; [|done]].
  - destruct Hi. split; simpl; try done; [lia|]. rewrite <- Hb. unfold b. clear.
    generalize (map_to_list (MemoryCache.store (base lbc))). intros l. generalize (base lbc).
    induction l as [|kv l IH]; intros c; simpl; [done|]. by rewrite IH.
  - simpl. unfold abs. simpl. by rewrite fmap_empty.
Qed.

(** The clean-up drops exactly the expired boards. *)
Lemma cleanup_loop now l lbc1 : NoDup l.*1 → (∀ k ss, (k, ss) ∈ l → boards lbc1 !! k = Some ss) →
  lb_inv cfg kml lbc1 →
  let lbc2 := foldl (λ lbc kv, if isExpired kv.2 now then dropBoard kv.1 lbc else lbc) lbc1 l in
  lb_inv cfg kml lbc2 ∧ lbClosed lbc2 = lbClosed lbc1 ∧
  (∀ k, k ∉ l.*1 → boards lbc2 !! k = boards lbc1 !! k) ∧
  (∀ k ss, (k, ss) ∈ l → boards lbc2 !! k = if isExpired ss now then None else Some ss).
Proof using.
  revert lbc1. induction l as [|[k0 ss0] l IH]; intros lbc1 Hnd Hl Hi1.
  { split_and!; [done..|]. intros ?? ?%not_elem_of_nil. done. }
  csimpl in *. apply NoDup_cons in Hnd as [Hk0 Hnd].
  set (lbc' := if isExpired ss0 now then dropBoard k0 lbc1 else lbc1).
  assert (Hother : ∀ k, k ≠ k0 → boards lbc' !! k = boards lbc1 !! k).
  { intros k Hk. unfold lbc'. destruct (isExpired ss0 now); [|done]. simpl. by rewrite lookup_delete_ne. }
  destruct (IH lbc' Hnd) as (Hi2 & Hc2 & H1 & H2).
  { intros k ss Hk. rewrite Hother; [apply Hl; by right|]. intros ->. destruct Hk0. apply list_elem_of_fmap. by exists (k0, ss). }
  { unfold lbc'. destruct (isExpired ss0 now); [|done]. apply drop_inv; [done|]. exists ss0. apply Hl. left. }
  split; [done|]. split; [rewrite Hc2; unfold lbc'; by destruct (isExpired ss0 now)|]. split.
  - intros k [Hk Hkl]%not_elem_of_cons. by rewrite H1, Hother.
  - intros k ss [[= -> ->]|Hk]%elem_of_cons; [|by apply H2]. rewrite H1 by done. unfold lbc'.
    destruct (isExpired ss0 now); simpl; [apply lookup_delete_eq|]. apply Hl. left.
Qed.

Lemma cleanup_sim ctx now :
  sim (run_zop OCleanupLB ctx now lbc) (spec_board cfg OCleanupLB now (ab (abs lbc))).
Proof using Hi.
  destruct (cleanup_loop now (map_to_list (boards lbc)) lbc) as (Hi2 & Hc2 & H1 & H2);
    [apply NoDup_fst_map_to_list|by intros ?? ?%elem_of_map_to_list|done|].
  eexists _, _. split; [done|]. split; [exact Hi2|]. split; [|done]. cbn [spec_board]. f_equal.
  apply map_eq. intros k. unfold cleanupExpiredLeaderboards. rewrite abs_lookup, map_lookup_filter, abs_lookup.
  destruct (boards lbc !! k) as [ss|] eqn:Ek.
  - rewrite (H2 k ss) by by apply elem_of_map_to_list. simpl. unfold gone_at, isExpired. simpl.
    repeat case_match; simplify_option_eq; done.
  - rewrite H1; [by rewrite Ek|]. intros ([k' ss] & -> & Hk%elem_of_map_to_list)%list_elem_of_fmap. simpl in *. congruence.
Qed.

(** Every operation returns the specified result. *)
Definition args_ok (o : zop) : Prop :=
  match o with
  | OZRange _ start stop _ | OZRemRangeByRank _ start stop => rank_ok start ∧ rank_ok stop
  | _ => True
  end.

Lemma firstErr_None cs : firstErr cs = None → Forall (.= None) cs.
Proof using. induction cs as [|[e|] cs IH]; simpl; [constructor|done|]. intros H. constructor; [done|by apply IH]. Qed.

(** The checks of the specification are those of the code. *)
Lemma precheck_scores g mn mx :
  first_err [g; score_err mn; score_err mx; score_range_err mn mx] = firstErr [g; validateScore mn; validateScore mx; validateScoreRange mn mx].
Proof using.
  rewrite first_err_eq, <- !score_err_eq. simpl. destruct g, (score_err mn) eqn:En, (score_err mx) eqn:Ex; try done.
  by rewrite score_range_err_eq.
Qed.

(** A failed check leaves the cache as it is. *)
Lemma precheck_fails o ctx now e : precheck kml o ctx (lbClosed lbc) = Some e →
  run_zop o ctx now lbc = Some (lbc, ZErr e).
Proof using Hi.
  destruct o; cbn [precheck run_zop]; rewrite ?precheck_scores, ?first_err_eq, ?score_err_eq, ?rank_range_err_eq; intros Hp; try done;
    try (unfold ZAdd, ZRem, ZIncrBy, ZScore, ZRange, ZRangeByScore, ZRank, ZCard, ZCount, ZRemRangeByRank,
           ZRemRangeByScore; rewrite (guard_abs _ _ _ _ _ Hi); cbn [abs a_closed]; by rewrite Hp).
  unfold ClearLB, MemoryCache.Clear, MemoryCache.operationErr. rewrite (lb_base _ _ _ Hi).
  destruct lbc. simpl in *. by repeat case_match; simplify_eq/=.
Qed.

Lemma board_sim o ctx now : precheck kml o ctx (lbClosed lbc) = None → args_ok o → o ≠ OCloseLB →
  sim (run_zop o ctx now lbc) (spec_board cfg o now (ab (abs lbc))).
Proof using Hi Hmax.
  intros Hp Ha Hn. destruct o; cbn [precheck args_ok] in Hp, Ha;
    rewrite ?precheck_scores, ?first_err_eq, ?score_err_eq, ?rank_range_err_eq in Hp;
    try (apply firstErr_None in Hp; repeat (apply Forall_cons in Hp as [? Hp])).
  - by apply ZAdd_sim.
  - by apply ZRem_sim.
  - apply ZIncrBy_sim; [done| |done]. by case_decide.
  - by apply ZScore_sim.
  - destruct Ha. by apply ZRange_sim.
  - by apply ZRangeByScore_sim.
  - by apply ZRank_sim.
  - by apply ZCard_sim.
  - by apply ZCount_sim.
  - destruct Ha. by apply ZRemRangeByRank_sim.
  - by apply ZRemRangeByScore_sim.
  - destruct (lbClosed lbc) eqn:Hc; [done|]. destruct ctx; [done|]. by apply ClearLB_sim.
  - apply cleanup_sim.
  - done.
Qed.

Lemma zop_step o ctx now : args_ok o → ∃ lbc' r,
  run_zop o ctx now lbc = Some (lbc', r) ∧ lb_inv cfg kml lbc' ∧ spec_zop cfg kml o ctx now (abs lbc) = (abs lbc', r).
Proof using Hi Hmax.
  intros Ha. unfold spec_zop. cbn [abs a_closed]. destruct (precheck kml o ctx (lbClosed lbc)) as [e|] eqn:Hp.
  { exists lbc, (ZErr e). by rewrite (precheck_fails _ _ _ _ Hp). }
  assert (o = OCloseLB ∨ o ≠ OCloseLB) as [->|Hn] by (destruct o; by (right + left)); simpl.
  { exists (CloseLB lbc), ZDone. split; [done|]. split; [|done]. by destruct Hi. }
  destruct (board_sim o ctx now Hp Ha Hn) as (lbc' & r & E & Hi' & Es & Hc). exists lbc', r.
  split; [done|]. split; [done|]. cbn [abs ab] in Es. rewrite Es. f_equal. unfold abs. simpl. f_equal.
  rewrite Hc. by destruct o.
Qed.
End ops.

Lemma zops_run cfg kml lbc es : lb_inv cfg kml lbc → (0 ≤ MaxMembersPerSet cfg ≤ 2 ^ 45)%Z →
  Forall (λ e, args_ok e.1.1) es →
  ∃ lbc' rs, run_zops es lbc = Some (lbc', rs) ∧ lb_inv cfg kml lbc' ∧ spec_zrun cfg kml es (abs lbc) = (abs lbc', rs).
Proof.
  intros Hi Hmax Ha. revert lbc Hi. induction Ha as [|[[o ctx] now] es Ho Ha IH]; intros lbc Hi; simpl.
  { by exists lbc, []. }
  destruct (zop_step cfg kml lbc Hi Hmax o ctx now Ho) as (lbc1 & r & -> & Hi1 & ->). simpl.
  destruct (IH lbc1 Hi1) as (lbc2 & rs & -> & Hi2 & ->). simpl. by exists lbc2, (r :: rs).
Qed.

Lemma new_inv c lb lbc : NewMemoryLeaderboardCache c lb = Ok lbc → ∃ cfg,
  normalizeLeaderboardConfig lb = Ok cfg ∧ lb_inv cfg (MemoryCache.MaxKeyLength c) lbc ∧ abs lbc = MkAState ∅ false ∧
  (0 < MaxMembersPerSet cfg)%Z.
Proof using.
  unfold NewMemoryLeaderboardCache. destruct (normalizeLeaderboardConfig lb) as [cfg|] eqn:En; [|done].
  unfold MemoryCache.NewMemoryCacheWithConfig. destruct (MemoryCache.ValidateConfig c); [done|]. intros [= <-]. exists cfg.
  unfold normalizeLeaderboardConfig, ValidateLB in En. repeat case_match; simplify_eq/=; unbool;
    (split; [done|]; split; [|split; [unfold abs; simpl; by rewrite fmap_empty|lia]]; split; simpl; try done; lia).
Qed.

(** C5: every sequence of operations on a new leaderboard cache ([ZAdd], [ZRem],
    [ZIncrBy], [ZScore], [ZRange], [ZRangeByScore], [ZRank], [ZCard], [ZCount], the two
    range removals, [Clear], [Close] and the background clean-up), with any clock,
    cancelled contexts and any source of random tower heights, runs without a panic
    and returns what the same operations return on plain maps from members to scores
    ranked by score and member: error checks and their order, expiry, both size
    limits, ranks, ranges and counts included. Rank arguments lie within 2^62 of zero
    and sets are configured to hold at most 2^45 members; beyond that [ZRange] can
    panic. *)
Theorem leaderboard_refines c lb lbc cfg es :
  NewMemoryLeaderboardCache c lb = Ok lbc → normalizeLeaderboardConfig lb = Ok cfg →
  (MaxMembersPerSet cfg ≤ 2 ^ 45)%Z → Forall (λ e, args_ok e.1.1) es →
  ∃ lbc' rs, run_zops es lbc = Some (lbc', rs) ∧
    spec_zrun cfg (MemoryCache.MaxKeyLength c) es (MkAState ∅ false) = (abs lbc', rs).
Proof.
  intros Hn Hc Hmax Ha. destruct (new_inv _ _ _ Hn) as (cfg' & Hc' & Hi & Habs & Hpos).
  rewrite Hc in Hc'. injection Hc' as <-. destruct (zops_run _ _ _ es Hi) as (lbc' & rs & E & _ & Es); [lia|done|].
  exists lbc', rs. by rewrite <- Habs.
Qed.
End sim.


(** Outside those bounds the subtraction wraps around: a start past the end with the
    smallest possible stop asks [make] for more than the address space. *)
Lemma huge_range_panics {R} `{!levelRNG R} (sl : skipList (R:=R)) l start desc : represents sl l →
  (Z.of_nat (length l) + 2 ≤ start ≤ 2 ^ 62)%Z → getRange start (- 2 ^ 63) desc sl = None.
Proof.
  intros (ns & Hr & <- & _) Hs. unfold keys in Hs. rewrite length_fmap in Hs. unfold getRange.
  rewrite (clampRange_ok _ _ _ _ Hr). simpl. rewrite (proj2 (Z.ltb_ge start 0)) by lia.
  rewrite Z.max_r, Z.min_r by lia.
  assert (Hw : wrap64 (Z.of_nat (length ns) + - 2 ^ 63 - start) = (Z.of_nat (length ns) - start + 2 ^ 63)%Z).
  { unfold wrap64. rewrite <- (Z.mod_add _ 1) by lia. rewrite Z.mod_small by lia. lia. }
  rewrite Hw.
  rewrite wrap64_small by (unfold is_int64, int64_min, int64_max; lia).
  rewrite (proj2 (Z.leb_gt _ _)) by lia. rewrite (proj2 (Z.ltb_lt 0 start)) by lia.
  unfold makeCap. rewrite (proj2 (Z.ltb_lt (2 ^ 45) _)) by lia.
  by destruct (if desc then getNodeByRank _ _ else getNodeByRank _ _).
Qed.

(** ** Witness: one board, a tie broken by name, a tall tower *)

(** A source that alternates between drawing [0] (go up) and [1] (stop). *)
Definition flip_rng : levelRNG bool := λ b, (if b then float_zero else float_of_Z 1, negb b).
Definition lb_key : gostring := str "top".
Definition zm (m : gostring) (s : Z) : option ZMember := Some (MkZMember m (float_of_Z s)).
Definition lb_ops : list (zop * bool * Z) :=
  [(OZAdd lb_key [zm (str "a") 3; zm (str "b") 1; zm (str "c") 3; zm (str "a") 2], false, 0%Z);
   (OZIncrBy lb_key (str "b") (float_of_Z 5), false, 1%Z);
   (OZRange lb_key 0 (-1) false, false, 2%Z);
   (OZRank lb_key (str "c") true, false, 3%Z);
   (OZRemRangeByRank lb_key 0 0, false, 4%Z);
   (OZCard lb_key, false, 5%Z);
   (OCloseLB, false, 6%Z);
   (OZCard lb_key, false, 7%Z)].

Lemma leaderboard_refines_witness : ∃ lbc lbc' : Cache (R:=bool),
  NewMemoryLeaderboardCache MemoryCache.DefaultConfig None = Ok lbc ∧
  run_zops (λ _, true) (levelRNG0:=flip_rng) lb_ops lbc =
    Some (lbc', [ZDone; ZScoreOf (float_of_Z 6);
      ZList [(str "a", float_of_Z 2); (str "c", float_of_Z 3); (str "b", float_of_Z 6)];
      ZNum 1; ZNum 1; ZNum 2; ZDone; ZErr ErrClosed]).
Proof.
  destruct (NewMemoryLeaderboardCache (R:=bool) MemoryCache.DefaultConfig None) as [lbc|] eqn:E; [|done].
  destruct (normalizeLeaderboardConfig None) as [cfg|] eqn:Ec; [|done].
  destruct (leaderboard_refines (levelRNG0:=flip_rng) (λ _, true) _ _ _ _ lb_ops E Ec) as (lbc' & rs & Er & Es).
  - injection Ec as <-. vm_compute. congruence.
  - repeat constructor; vm_compute; congruence.
  - exists lbc, lbc'. split; [done|]. rewrite Er. f_equal. f_equal. injection Ec as <-.
    apply (f_equal snd) in Es. simpl (snd (_, rs)) in Es. rewrite <- Es. vm_compute. reflexivity.
Defined.
