(* ===== verification/WebSocket.v ===== *)
(** * WebSocket connections ([x/websocket/conn.go], [stream.go], [writer.go])

    Frames are read and written byte by byte as RFC 6455 lays them out. A message is
    sent by a queue and a writer pump that cuts it into fragments; it is received by
    a stream reader that puts the fragments together, answering pings and noting
    pongs on the way.

    A connection is the state both goroutines share: the bytes the peer has sent and
    that are not read yet (with the error that follows them), the bytes written so
    far, the queue and the writer pump's place in its loop. A write reaches the wire
    up to the number of bytes the network still accepts; a failed write is final, as
    in [bufio.Writer]. [crypto/rand] is an argument. One frame is written under the
    write lock, so frames of different goroutines are never mixed. *)

From stdpp Require Import options.
From S2P Require Import Prelude GoStrings GoBytes.

Module WebSocket.

Inductive wsErr :=
| WEOF | WUnexpectedEOF | ErrNet | ErrRand | ErrClosedPipe | ErrDone
| ErrProtocolError | ErrUnexpectedMaskedFrame | ErrUnmaskedFrame | ErrPayloadTooLarge
| ErrFragmentedControl | ErrControlTooLarge
| ErrConnClosed | ErrInvalidCloseCode | ErrInvalidUTF8 | ErrCloseReasonTooLong
| ErrInvalidOpcode | ErrQueueFull | ErrQueueFullClosed
| ErrNegativeQueueSize | ErrInvalidReadLimit | ErrInvalidPingPeriod | ErrInvalidPongWait
| ErrInvalidWriteTimeout.
#[export] Instance wsErr_eq_dec : EqDecision wsErr.
Proof. solve_decision. Defined.

Definition OpcodeText : N := 1.
Definition OpcodeBinary : N := 2.
Definition opcodeContinuation : N := 0.
Definition opcodeClose : N := 8.
Definition opcodePing : N := 9.
Definition opcodePong : N := 10.
Definition finBit : N := 128.
Definition maxControlPayload : Z := 125.
(** [64 * 1024], as a power of two to keep it folded. *)
Definition maxFragmentSize : nat := Nat.pow 2 16.
#[global] Opaque maxFragmentSize.
Definition defaultReadLimit : Z := 16 * 2 ^ 20.
Definition maxReadLimit : Z := 64 * 2 ^ 20.
Definition seconds (n : Z) : Z := (n * 1000000000)%Z.
Definition defaultPingPeriod : Z := seconds 20.
Definition defaultPongWait : Z := seconds 30.
Definition defaultWriteWait : Z := seconds 10.

Inductive SendBehavior := SendBlock | SendDrop | SendClose.

Record Outbound := MkOut { Op : N; Data : gostring }.

(** Where the writer pump is: waiting in its [select], between two fragments of a
    message, or finished. *)
Inductive pumpState :=
| PIdle
| PSend (op : N) (data : gostring) (offset : nat) (first : bool)
| PStopped.

Record Settings := MkSettings { readLimit : Z; writeWait : Z; pingPeriod : Z; pongWait : Z }.

Record Conn := MkConn {
  client : bool;
  inp : gostring; inEnd : wsErr;
  out : gostring; accepts : option nat; rand : nat → option gostring; draws : nat;
  sendQueue : list Outbound; sendQueueSize : Z; sendBehavior : SendBehavior; pump : pumpState;
  closed : bool; settings : Settings; lastPong : Z
}.

Definition withInp i c := MkConn (client c) i (inEnd c) (out c) (accepts c) (rand c) (draws c)
  (sendQueue c) (sendQueueSize c) (sendBehavior c) (pump c) (closed c) (settings c) (lastPong c).
Definition withOut o a c := MkConn (client c) (inp c) (inEnd c) o a (rand c) (draws c)
  (sendQueue c) (sendQueueSize c) (sendBehavior c) (pump c) (closed c) (settings c) (lastPong c).
Definition withDraws d c := MkConn (client c) (inp c) (inEnd c) (out c) (accepts c) (rand c) d
  (sendQueue c) (sendQueueSize c) (sendBehavior c) (pump c) (closed c) (settings c) (lastPong c).
Definition withQueue q c := MkConn (client c) (inp c) (inEnd c) (out c) (accepts c) (rand c) (draws c)
  q (sendQueueSize c) (sendBehavior c) (pump c) (closed c) (settings c) (lastPong c).
Definition withPump p c := MkConn (client c) (inp c) (inEnd c) (out c) (accepts c) (rand c) (draws c)
  (sendQueue c) (sendQueueSize c) (sendBehavior c) p (closed c) (settings c) (lastPong c).
Definition withSettings s c := MkConn (client c) (inp c) (inEnd c) (out c) (accepts c) (rand c) (draws c)
  (sendQueue c) (sendQueueSize c) (sendBehavior c) (pump c) (closed c) s (lastPong c).
Definition withPong t c := MkConn (client c) (inp c) (inEnd c) (out c) (accepts c) (rand c) (draws c)
  (sendQueue c) (sendQueueSize c) (sendBehavior c) (pump c) (closed c) (settings c) t.

(** [newConnFromHijack] and [NewConn]; the peer's bytes, what the network accepts and
    the random source belong to the connection from the start. *)
Definition newConnFromHijack (input : gostring) (inputEnd : wsErr) (net : option nat) (rnd : nat → option gostring)
    (queueSize : Z) (behavior : SendBehavior) (isClient : bool) (now : Z) : Conn :=
  MkConn isClient input inputEnd [] net rnd 0 [] queueSize behavior PIdle false
    (MkSettings defaultReadLimit defaultWriteWait defaultPingPeriod defaultPongWait) now.
Definition NewConn input inputEnd net rnd (queueSize : Z) behavior now : result wsErr Conn :=
  if (queueSize <? 0)%Z then Err ErrNegativeQueueSize
  else Ok (newConnFromHijack input inputEnd net rnd queueSize behavior false now).

Definition Close c := MkConn (client c) (inp c) (inEnd c) (out c) (accepts c) (rand c) (draws c)
  (sendQueue c) (sendQueueSize c) (sendBehavior c) (pump c) true (settings c) (lastPong c).

(** ** Settings *)

Definition positiveDurationOrDefault (raw fallback : Z) : Z := if (raw <=? 0)%Z then fallback else raw.
Definition positiveDurationThirdOrDefault (raw fallback : Z) : Z :=
  let period := (positiveDurationOrDefault raw fallback ÷ 3)%Z in
  if (period <=? 0)%Z then (fallback ÷ 3)%Z else period.

Definition SetReadLimit (limit : Z) c : Conn * option wsErr :=
  let s := settings c in
  if (limit =? 0)%Z then
    (withSettings (MkSettings defaultReadLimit (writeWait s) (pingPeriod s) (pongWait s)) c, None)
  else if (limit <? 0)%Z then (c, Some ErrInvalidReadLimit)
  else if (maxReadLimit <? limit)%Z then (c, Some ErrPayloadTooLarge)
  else (withSettings (MkSettings limit (writeWait s) (pingPeriod s) (pongWait s)) c, None).

Definition SetPingPeriod (d : Z) c : Conn * option wsErr :=
  let s := settings c in
  if (d <=? 0)%Z then (c, Some ErrInvalidPingPeriod)
  else if (positiveDurationOrDefault (pongWait s) defaultPongWait <=? d)%Z then (c, Some ErrInvalidPingPeriod)
  else (withSettings (MkSettings (readLimit s) (writeWait s) d (pongWait s)) c, None).

Definition SetPongWait (d : Z) c : Conn * option wsErr :=
  let s := settings c in
  if (d <=? 0)%Z then (c, Some ErrInvalidPongWait)
  else if (d <=? positiveDurationOrDefault (pingPeriod s) defaultPingPeriod)%Z then (c, Some ErrInvalidPongWait)
  else (withSettings (MkSettings (readLimit s) (writeWait s) (pingPeriod s) d) c, None).

Definition SetWriteTimeout (d : Z) c : Conn * option wsErr :=
  let s := settings c in
  if (d <=? 0)%Z then (c, Some ErrInvalidWriteTimeout)
  else (withSettings (MkSettings (readLimit s) d (pingPeriod s) (pongWait s)) c, None).

(** ** Masking *)

Definition xorByte (a b : gobyte) : gobyte := byte_of (N.lxor (byte_val a) (byte_val b)).
Definition keyByte (key : gostring) (i : nat) : gobyte := nth i key (byte_of 0).

(** The second loop, byte by byte from index [i]. *)
Fixpoint maskTail (i : nat) (key : gostring) (p : gostring) : gostring :=
  match p with
  | [] => []
  | b :: p => xorByte b (keyByte key (i mod 4)) :: maskTail (S i) key p
  end.

(** The first loop, four bytes at a time. *)
Fixpoint maskFrom (i : nat) (key : gostring) (p : gostring) : gostring :=
  match p with
  | b0 :: b1 :: b2 :: b3 :: r =>
      xorByte b0 (keyByte key 0) :: xorByte b1 (keyByte key 1) ::
      xorByte b2 (keyByte key 2) :: xorByte b3 (keyByte key 3) :: maskFrom (i + 4) key r
  | p => maskTail i key p
  end.

Definition applyMask (payload key : gostring) : gostring := maskFrom 0 key payload.

(** ** Frames *)

Definition isValidFrameOpcode (op : N) : bool :=
  (op =? opcodeContinuation)%N || (op =? OpcodeText)%N || (op =? OpcodeBinary)%N ||
  (op =? opcodeClose)%N || (op =? opcodePing)%N || (op =? opcodePong)%N.

Definition isValidCloseStatusCode (code : N) : bool :=
  (code =? 1000)%N || (code =? 1001)%N || (code =? 1002)%N || (code =? 1003)%N || (code =? 1007)%N ||
  (code =? 1008)%N || (code =? 1009)%N || (code =? 1011)%N || (code =? 1012)%N || (code =? 1013)%N ||
  (code =? 1014)%N || ((3000 <=? code)%N && (code <=? 4999)%N).

Definition isValidClosePayload (payload : gostring) : bool :=
  match payload with
  | [] => true
  | [_] => false
  | _ => if negb (isValidCloseStatusCode (be_get (take 2 payload))) then false
         else utf8_valid (drop 2 payload)
  end.

(** [io.ReadFull] on the buffered connection: all or nothing of the result, but what
    was there is consumed. *)
Definition readN (n : nat) c : Conn * result wsErr gostring :=
  if n <=? length (inp c) then (withInp (drop n (inp c)) c, Ok (take n (inp c)))
  else (withInp [] c,
        Err (if decide (inEnd c = WEOF) then (if decide (inp c = []) then WEOF else WUnexpectedEOF) else inEnd c)).

Notation "'read!' x := r 'in' k" := (match r with (c, Err e) => (c, Err e) | (c, Ok x) => k c end)
  (at level 10, x binder, r at level 100, k at level 200, only parsing).

(** The payload length of a frame whose prefix is not a length itself. *)
Definition readLength (prefix : N) c : Conn * result wsErr Z :=
  if (prefix =? 126)%N then
    read! ext := readN 2 c in (λ c,
      let payloadLen := Z.of_N (be_get ext) in
      if (payloadLen <? 126)%Z then (c, Err ErrProtocolError) else (c, Ok payloadLen))
  else if (prefix =? 127)%N then
    read! ext := readN 8 c in (λ c,
      let payloadLen := get_i64 ext in
      if (payloadLen <? 0)%Z then (c, Err ErrProtocolError)
      else if (payloadLen <=? 65535)%Z then (c, Err ErrProtocolError)
      else (c, Ok payloadLen))
  else (c, Ok (Z.of_N prefix)).

(** The checks on a complete frame. *)
Definition checkControl (op : N) (fin : bool) (payload : gostring) : option wsErr :=
  if (8 <=? op)%N then
    if negb fin then Some ErrFragmentedControl
    else if (maxControlPayload <? Z.of_nat (length payload))%Z then Some ErrControlTooLarge
    else if (op =? opcodeClose)%N && negb (isValidClosePayload payload) then Some ErrProtocolError
    else None
  else None.

(** The mask key and the payload. *)
Definition readBody (mask : bool) (payloadLen : Z) c : Conn * result wsErr gostring :=
  read! maskKey := (if mask then readN 4 c else (c, Ok [])) in (λ c,
    read! payload := (if (0 <? payloadLen)%Z then readN (Z.to_nat payloadLen) c else (c, Ok [])) in (λ c,
      (c, Ok (if mask && (0 <? payloadLen)%Z then applyMask payload maskKey else payload)))).

Definition readFrame c : Conn * result wsErr (N * bool * gostring) :=
  read! h := readN 2 c in (λ c,
    let h0 := byte_val (nth 0 h (byte_of 0)) in
    let h1 := byte_val (nth 1 h (byte_of 0)) in
    let fin := negb (N.land h0 finBit =? 0)%N in
    let op := N.land h0 15 in
    let mask := negb (N.land h1 128 =? 0)%N in
    let prefix := N.land h1 127 in
    if negb (N.land h0 112 =? 0)%N then (c, Err ErrProtocolError)
    else if negb (isValidFrameOpcode op) then (c, Err ErrProtocolError)
    else if client c && mask then (c, Err ErrUnexpectedMaskedFrame)
    else if negb (client c) && negb mask then (c, Err ErrUnmaskedFrame)
    else
      read! payloadLen := readLength prefix c in (λ c,
        if (readLimit (settings c) <? payloadLen)%Z then (c, Err ErrPayloadTooLarge)
        else
          read! payload := readBody mask payloadLen c in (λ c,
            match checkControl op fin payload with
            | Some e => (c, Err e)
            | None => (c, Ok (op, fin, payload))
            end))).

(** Handing bytes to the network: all of them, or as many as it still accepts. *)
Definition wire (bs : gostring) c : Conn * option wsErr :=
  match accepts c with
  | None => (withOut (out c ++ bs) None c, None)
  | Some n => if length bs <=? n then (withOut (out c ++ bs) (Some (n - length bs)) c, None)
              else (withOut (out c ++ take n bs) (Some 0) c, Some ErrNet)
  end.

Definition lengthBytes (maskBit : N) (n : N) : gostring :=
  if (n <=? 125)%N then [byte_of (N.lor maskBit n)]
  else if (n <=? 65535)%N then [byte_of (N.lor maskBit 126); byte_of (N.shiftr n 8); byte_of n]
  else byte_of (N.lor maskBit 127) :: be_put 8 n.

(** A closed connection refuses the write deadline; the mask key is drawn before
    anything is written. *)
Definition writeFrame (op : N) (fin : bool) (payload : gostring) c : Conn * option wsErr :=
  if closed c then (c, Some ErrNet)
  else
    let b0 := byte_of (N.lor (if fin then finBit else 0%N) (N.land op 15)) in
    let maskBit := if client c then 128%N else 0%N in
    let header := b0 :: lengthBytes maskBit (N.of_nat (length payload)) in
    if client c then
      match rand c (draws c) with
      | None => (withDraws (S (draws c)) c, Some ErrRand)
      | Some maskKey => wire (header ++ maskKey ++ applyMask payload maskKey) (withDraws (S (draws c)) c)
      end
    else wire (header ++ payload) c.

Definition WriteClose (code : N) (reason : gostring) c : Conn * option wsErr :=
  if closed c then (c, Some ErrConnClosed)
  else if negb (isValidCloseStatusCode code) then (c, Some ErrInvalidCloseCode)
  else if negb (utf8_valid reason) then (c, Some ErrInvalidUTF8)
  else if (maxControlPayload - 2 <? Z.of_nat (length reason))%Z then (c, Some ErrCloseReasonTooLong)
  else
    let '(c, e) := writeFrame opcodeClose true (be_put 2 code ++ reason) c in (Close c, e).

(** ** Reading messages *)

Record streamReader := MkReader {
  attached : bool; srOp : N; buf : gostring; done_ : bool; readErr : option wsErr; readBytes : Z }.

Definition appendPayload (sr : streamReader) (payload : gostring) c : result wsErr streamReader :=
  let next := (readBytes sr + Z.of_nat (length payload))%Z in
  let limit := readLimit (settings c) in
  if (0 <=? limit)%Z && (limit <? next)%Z then Err ErrPayloadTooLarge
  else Ok (MkReader (attached sr) (srOp sr) (buf sr ++ payload) (done_ sr) (readErr sr) next).

Definition finish (sr : streamReader) : streamReader :=
  MkReader (attached sr) (srOp sr) (buf sr) true (readErr sr) (readBytes sr).
Definition failWith (e : wsErr) (sr : streamReader) : streamReader :=
  MkReader (attached sr) (srOp sr) (buf sr) true (Some e) (readBytes sr).
Definition setOp (op : N) (sr : streamReader) : streamReader :=
  MkReader (attached sr) op (buf sr) (done_ sr) (readErr sr) (readBytes sr).

(** A data frame taken in by [Read]. *)
Definition addFragment (sr : streamReader) (fin : bool) (payload : gostring) c :
    Conn * streamReader * option wsErr :=
  match appendPayload sr payload c with
  | Err e => (c, failWith e sr, Some e)
  | Ok sr => (c, if fin then finish sr else sr, None)
  end.

(** One frame taken by [Read]: the reader goes on ([None]) or returns an error. *)
Definition pull (now : Z) (sr : streamReader) c : Conn * streamReader * option wsErr :=
  match readFrame c with
  | (c, Err e) => (c, failWith e sr, Some e)
  | (c, Ok (op, fin, payload)) =>
      if (op =? opcodePing)%N then ((writeFrame opcodePong true payload c).1, sr, None)
      else if (op =? opcodePong)%N then (withPong now c, sr, None)
      else if (op =? opcodeClose)%N then
        ((writeFrame opcodeClose true payload c).1, failWith WEOF sr, Some WEOF)
      else if (op =? opcodeContinuation)%N then
        if (srOp sr =? 0)%N then (c, failWith ErrProtocolError sr, Some ErrProtocolError)
        else addFragment sr fin payload c
      else if (op =? OpcodeText)%N || (op =? OpcodeBinary)%N then
        if (srOp sr =? 0)%N then addFragment (setOp op sr) fin payload c
        else (c, failWith ErrProtocolError sr, Some ErrProtocolError)
      else (c, sr, None)
  end.

(** [Read] into a slice of length [n]. Every frame takes at least two bytes of the
    input, so the input's length bounds the loop. *)
Fixpoint readLoop (fuel n : nat) (now : Z) (sr : streamReader) c :
    option (Conn * streamReader * (gostring * option wsErr)) :=
  match buf sr with
  | _ :: _ =>
      Some (c, MkReader (attached sr) (srOp sr) (drop n (buf sr)) (done_ sr) (readErr sr) (readBytes sr),
            (take n (buf sr), None))
  | [] =>
      if done_ sr then Some (c, sr, ([], Some (default WEOF (readErr sr))))
      else match fuel with
           | O => None
           | S fuel =>
               let '(c, sr, e) := pull now sr c in
               match e with
               | Some e => Some (c, sr, ([], Some e))
               | None => readLoop fuel n now sr c
               end
           end
  end.
Definition Read (n : nat) (now : Z) (sr : streamReader) c :=
  if negb (attached sr) then Some (c, sr, ([], Some ErrClosedPipe))
  else readLoop (S (length (inp c))) n now sr c.

Definition CloseReader (sr : streamReader) c : Conn * streamReader :=
  let reset := MkReader false 0 [] true None 0 in
  if attached sr && negb (done_ sr) then (Close c, reset) else (c, reset).

(** The first frame of a message. *)
Fixpoint firstFrame (fuel : nat) (now : Z) c : option (Conn * result wsErr (N * streamReader)) :=
  match fuel with
  | O => None
  | S fuel =>
      match readFrame c with
      | (c, Err e) => Some (c, Err e)
      | (c, Ok (op, fin, payload)) =>
          if (op =? OpcodeText)%N || (op =? OpcodeBinary)%N then
            match appendPayload (MkReader true 0 [] false None 0) payload c with
            | Err e => Some (c, Err e)
            | Ok sr => Some (c, Ok (op, if fin : bool then finish sr else setOp op sr))
            end
          else if (op =? opcodePing)%N then firstFrame fuel now (writeFrame opcodePong true payload c).1
          else if (op =? opcodePong)%N then firstFrame fuel now (withPong now c)
          else if (op =? opcodeClose)%N then Some ((writeFrame opcodeClose true payload c).1, Err WEOF)
          else Some (c, Err ErrProtocolError)
      end
  end.
Definition ReadMessageReader (now : Z) c : option (Conn * result wsErr (N * streamReader)) :=
  if closed c then Some (c, Err ErrConnClosed)
  else firstFrame (S (length (inp c))) now c.

(** [io.Copy] into a [bytes.Buffer]: the [i]-th read gets [sizes i] bytes of room. *)
Fixpoint copyLoop (fuel i : nat) (sizes : nat → nat) (now : Z) (acc : gostring) (sr : streamReader) c :
    option (Conn * streamReader * result wsErr gostring) :=
  match fuel with
  | O => None
  | S fuel =>
      '(c, sr, (bs, e)) ← Read (sizes i) now sr c;
      match e with
      | None => copyLoop fuel (S i) sizes now (acc ++ bs) sr c
      | Some e => Some (c, sr, if decide (e = WEOF) then Ok (acc ++ bs) else Err e)
      end
  end.

Definition ReadMessage (sizes : nat → nat) (now : Z) c : option (Conn * result wsErr (N * gostring)) :=
  '(c, r) ← ReadMessageReader now c;
  match r with
  | Err e => Some (c, Err e)
  | Ok (op, stream) =>
      '(c, stream, r) ← copyLoop (S (length (buf stream) + length (inp c))) 0 sizes now [] stream c;
      let '(c, _) := CloseReader stream c in
      match r with
      | Err e => Some (c, Err e)
      | Ok data => Some (c, Ok (op, data))
      end
  end.

(** ** Sending messages *)

Definition isApplicationWriteOpcode (op : N) : bool := (op =? OpcodeText)%N || (op =? OpcodeBinary)%N.

(** Room in the channel; without a buffer a send needs the pump to be waiting. *)
Definition hasRoom c : bool :=
  (Z.of_nat (length (sendQueue c)) <? sendQueueSize c)%Z ||
  (bool_decide (sendQueue c = []) && match pump c with PIdle => true | _ => false end).

Definition tryEnqueue (o : Outbound) c : Conn * option wsErr :=
  if closed c then (c, Some ErrConnClosed)
  else if hasRoom c then (withQueue (sendQueue c ++ [o]) c, None)
  else (c, Some ErrQueueFull).

(** The outcome of a send: finished, or waiting in [enqueueBlocking]. *)
Inductive sendResult := Sent (e : option wsErr) | Blocked (o : Outbound).

Definition WriteMessageContext (op : N) (data : gostring) c : Conn * sendResult :=
  if negb (isApplicationWriteOpcode op) then (c, Sent (Some ErrInvalidOpcode))
  else
    let o := MkOut op data in
    match tryEnqueue o c with
    | (c, None) => (c, Sent None)
    | (c, Some e) =>
        if decide (e = ErrQueueFull) then
          match sendBehavior c with
          | SendBlock => (c, Blocked o)
          | SendDrop => (c, Sent (Some ErrQueueFull))
          | SendClose => (Close c, Sent (Some ErrQueueFullClosed))
          end
        else (c, Sent (Some e))
    end.

(** A waiting send looks again; [ctxDone] says which ready branch the [select] takes. *)
Definition enqueueBlocking (o : Outbound) (ctxDone : bool) c : Conn * sendResult :=
  if closed c then (c, Sent (Some ErrConnClosed))
  else if ctxDone then (c, Sent (Some ErrDone))
  else if hasRoom c then (withQueue (sendQueue c ++ [o]) c, Sent None)
  else (c, Blocked o).

Definition pumpStop c : Conn := withPump PStopped (Close c).

(** One turn of the pump: taking a message, or writing its next fragment. *)
Definition pumpFragment (op : N) (data : gostring) (offset : nat) (first : bool) c : Conn :=
  let total := length data in
  let end_ := if total <? offset + maxFragmentSize then total else offset + maxFragmentSize in
  let chunk := take (end_ - offset) (drop offset data) in
  let fin := end_ =? total in
  match writeFrame (if first then op else opcodeContinuation) fin chunk c with
  | (c, Some _) => pumpStop c
  | (c, None) => withPump (if end_ <? total then PSend op data end_ false else PIdle) c
  end.

Definition pumpStep c : Conn :=
  match pump c with
  | PStopped => c
  | PSend op data offset first => pumpFragment op data offset first c
  | PIdle =>
      match sendQueue c with
      | [] => c
      | o :: q =>
          let c := withQueue q c in
          if length (Data o) <=? maxFragmentSize then
            match writeFrame (Op o) true (Data o) c with
            | (c, Some _) => pumpStop c
            | (c, None) => c
            end
          else withPump (PSend (Op o) (Data o) 0 true) c
      end
  end.

(** The ticker's branch and the close branch of the pump's [select]. *)
Definition pumpTick c : Conn :=
  match pump c with
  | PIdle => match writeFrame opcodePing true (str "ping") c with
             | (c, Some _) => pumpStop c
             | (c, None) => c
             end
  | _ => c
  end.
Definition pumpClosed c : Conn :=
  match pump c with PIdle => if closed c then withPump PStopped c else c | _ => c end.

(** One tick of [pongMonitor]. *)
Definition pongMonitor (now : Z) c : Conn :=
  if (positiveDurationOrDefault (pongWait (settings c)) defaultPongWait <? now - lastPong c)%Z
  then Close c else c.
End WebSocket.
