(* ===== verification/WebSocketFacts.v ===== *)
(** * Facts on WebSocket frames and messages

    Masking is its own inverse and equals the byte-by-byte definition; reading a
    frame inverts writing it, whatever the payload length; the reading loops consume
    their input and so end; and a message is put together from its fragments,
    control frames between them notwithstanding. *)

From stdpp Require Import options.
From S2P Require Import Prelude GoStrings GoBytes WebSocket.
Import WebSocket.

(** ** Masking *)

Lemma xorByte_twice a b : xorByte (xorByte a b) b = a.
Proof.
  unfold xorByte. rewrite byte_val_of, N.mod_small.
  - by rewrite N.lxor_assoc, N.lxor_nilpotent, N.lxor_0_r, byte_of_val.
  - apply (lxor_bound _ _ 8); apply byte_val_bound.
Qed.

Lemma maskFrom_tail key p i : i mod 4 = 0 → maskFrom i key p = maskTail i key p.
Proof.
  remember (length p) as n eqn:Hn. assert (Hle : length p ≤ n) by lia. clear Hn. revert p i Hle.
  induction n as [|n IH]; intros p i Hle Hi; destruct p as [|b0 [|b1 [|b2 [|b3 r]]]]; try done; [simpl in Hle; lia|].
  cbn [maskFrom maskTail]. rewrite IH; [|simpl in Hle; lia|by rewrite Nat.Div0.add_mod, Hi].
  replace (i + 4) with (S (S (S (S i)))) by lia.
  rewrite (Nat.Div0.add_mod 1 i), (Nat.Div0.add_mod 2 i), (Nat.Div0.add_mod 3 i), Hi. done.
Qed.

Lemma maskTail_length i key p : length (maskTail i key p) = length p.
Proof. revert i. induction p as [|b p IH]; intros i; simpl; auto. Qed.

Lemma maskTail_twice i key p : maskTail i key (maskTail i key p) = p.
Proof. revert i. induction p as [|b p IH]; intros i; simpl; [done|]. by rewrite xorByte_twice, IH. Qed.

(** Masking byte by byte, as RFC 6455 defines it. *)
Lemma applyMask_spec payload key :
  applyMask payload key = imap (λ i b, xorByte b (keyByte key (i mod 4))) payload.
Proof.
  unfold applyMask. rewrite maskFrom_tail by done.
  cut (∀ p j, maskTail j key p = imap (λ i b, xorByte b (keyByte key ((j + i) mod 4))) p); [intros H; apply H|].
  induction p as [|b p IH]; intros j; [done|]. rewrite imap_cons. cbn [maskTail].
  rewrite Nat.add_0_r, IH. f_equal. apply imap_ext. intros i x _. simpl. by rewrite Nat.add_succ_r.
Qed.

Lemma applyMask_twice payload key : applyMask (applyMask payload key) key = payload.
Proof. unfold applyMask. rewrite !maskFrom_tail by done. apply maskTail_twice. Qed.
Lemma applyMask_length payload key : length (applyMask payload key) = length payload.
Proof. unfold applyMask. rewrite maskFrom_tail by done. apply maskTail_length. Qed.

(** ** Frames *)

Abbreviation frame := (N * bool * gostring)%type (only parsing).

(** The bytes of a frame on the wire, masked with a key or not. *)
Definition hasKey (key : option gostring) : bool := match key with Some _ => true | None => false end.
Definition frameBytes (key : option gostring) (f : frame) : gostring :=
  let '(op, fin, payload) := f in
  byte_of (N.lor (if fin then finBit else 0%N) (N.land op 15)) ::
  lengthBytes (if hasKey key then 128%N else 0%N) (N.of_nat (length payload)) ++
  match key with Some k => k ++ applyMask payload k | None => payload end.

Definition payloadOf (f : frame) : gostring := f.2.
Definition opOf (f : frame) : N := f.1.1.

(** What a reader accepts: a known opcode, and control frames short and whole. *)
Definition frame_ok (f : frame) : Prop :=
  let '(op, fin, payload) := f in
  isValidFrameOpcode op = true ∧ checkControl op fin payload = None ∧ (Z.of_nat (length payload) < 2 ^ 63)%Z.

(** Frames of a client carry a key of four bytes, frames of a server none. *)
Definition key_ok (fromClient : bool) (key : option gostring) : Prop :=
  match key with Some k => fromClient = true ∧ length k = 4 | None => fromClient = false end.

Lemma readN_app n c x rest : inp c = x ++ rest → n = length x → readN n c = (withInp rest c, Ok x).
Proof.
  intros Hi ->. unfold readN. rewrite Hi, length_app, (proj2 (Nat.leb_le _ _)) by lia.
  by rewrite drop_app_length, take_app_length.
Qed.

Lemma first_byte op (fin : bool) : isValidFrameOpcode op = true →
  let h := byte_val (byte_of (N.lor (if fin then finBit else 0%N) (N.land op 15))) in
  negb (N.land h finBit =? 0)%N = fin ∧ N.land h 15 = op ∧ (N.land h 112 =? 0)%N = true.
Proof.
  unfold isValidFrameOpcode. rewrite !orb_true_iff, !N.eqb_eq.
  destruct fin; intros [[[[[->| ->]| ->]| ->]| ->]| ->]; vm_compute; auto.
Qed.

Lemma second_byte (m : bool) (k : N) : (k < 128)%N →
  let h := byte_val (byte_of (N.lor (if m then 128%N else 0%N) k)) in
  negb (N.land h 128 =? 0)%N = m ∧ N.land h 127 = k.
Proof.
  intros Hk. set (test k := let h := byte_val (byte_of (N.lor (if m then 128%N else 0%N) (N.of_nat k))) in
    bool_decide (negb (N.land h 128 =? 0)%N = m ∧ N.land h 127 = N.of_nat k)).
  assert (Hall : forallb test (seq 0 128) = true) by (destruct m; vm_compute; reflexivity).
  rewrite forallb_forall in Hall. specialize (Hall (N.to_nat k)).
  unfold test in Hall. rewrite N2Nat.id in Hall. intros h. apply bool_decide_eq_true in Hall; [done|]. apply in_seq. lia.
Qed.

(** The length prefix: its first byte, and how the rest is read back. *)
Definition lengthPrefix (n : N) : N := (if n <=? 125 then n else if n <=? 65535 then 126 else 127)%N.
Definition lengthRest (n : N) : gostring :=
  if (n <=? 125)%N then [] else if (n <=? 65535)%N then be_put 2 n else be_put 8 n.

Lemma be_put_2 n : be_put 2 n = [byte_of (N.shiftr n 8); byte_of n].
Proof. cbn [be_put app]. by rewrite N.shiftr_div_pow2. Qed.

Lemma lengthBytes_eq m n : lengthBytes m n = byte_of (N.lor m (lengthPrefix n)) :: lengthRest n.
Proof. unfold lengthBytes, lengthPrefix, lengthRest. rewrite be_put_2. by repeat case_match. Qed.

Lemma readLength_bytes (n : N) rest c : (n < 2 ^ 63)%N → inp c = lengthRest n ++ rest →
  readLength (lengthPrefix n) c = (withInp rest c, Ok (Z.of_N n)).
Proof.
  intros Hn Hi. unfold readLength, lengthPrefix, lengthRest in *.
  destruct (N.leb_spec n 125) as [H1|H1].
  { rewrite (proj2 (N.eqb_neq n 126)), (proj2 (N.eqb_neq n 127)) by lia. destruct c. simpl in *. by subst. }
  destruct (N.leb_spec n 65535) as [H2|H2]; cbn [N.eqb Pos.eqb].
  - rewrite (readN_app _ _ _ _ Hi) by by rewrite be_put_length.
    rewrite be_get_put by (change (256 ^ N.of_nat 2)%N with 65536%N; lia).
    by rewrite (proj2 (Z.ltb_ge (Z.of_N n) 126)) by lia.
  - rewrite (readN_app _ _ _ _ Hi) by by rewrite be_put_length.
    assert (Hg : get_i64 (be_put 8 n) = Z.of_N n).
    { unfold get_i64. rewrite be_get_put by (change (256 ^ N.of_nat 8)%N with (2 ^ 64)%N; lia).
      apply wrap64_small. unfold is_int64, int64_min, int64_max. lia. }
    by rewrite Hg, (proj2 (Z.ltb_ge (Z.of_N n) 0)), (proj2 (Z.leb_gt (Z.of_N n) 65535)) by lia.
Qed.

Lemma lengthPrefix_bound n : (lengthPrefix n < 128)%N.
Proof. unfold lengthPrefix. destruct (N.leb_spec n 125); [lia|]. by case_match. Qed.

Lemma readBody_bytes (mask : bool) k payload rest c : length k = 4 →
  inp c = (if mask then k ++ applyMask payload k else payload) ++ rest →
  readBody mask (Z.of_nat (length payload)) c = (withInp rest c, Ok payload).
Proof.
  intros Hk Hi. unfold readBody. set (p' := if mask then applyMask payload k else payload).
  assert (Hkey : ∃ c1 k1, (if mask then readN 4 c else (c, Ok [])) = (c1, Ok k1) ∧ inp c1 = p' ++ rest ∧
    withInp rest c1 = withInp rest c ∧ (mask = true → k1 = k)).
  { unfold p'. destruct mask; [|by eexists c, _]. rewrite <- app_assoc in Hi.
    rewrite (readN_app _ _ _ _ Hi) by done. by eexists _, _. }
  destruct Hkey as (c1 & k1 & -> & Hi1 & Hw & Hk1). rewrite Nat2Z.id.
  assert (Hp : length payload = length p') by (unfold p'; destruct mask; by rewrite ?applyMask_length).
  destruct (Z.ltb_spec 0 (Z.of_nat (length payload))) as [Hpos|Hpos].
  - rewrite (readN_app _ _ _ _ Hi1 Hp), andb_true_r, Hw. unfold p'.
    destruct mask; [|done]. rewrite Hk1 by done. by rewrite applyMask_twice.
  - assert (payload = []) as -> by (apply nil_length_inv; lia).
    assert (p' = []) as Hnil by (apply nil_length_inv; simpl in *; lia).
    rewrite Hnil in Hi1. rewrite andb_false_r, <- Hw. destruct c1. simpl in *. by subst.
Qed.

(** Reading inverts writing. *)
Lemma readFrame_bytes c key f rest : frame_ok f → key_ok (negb (client c)) key →
  (Z.of_nat (length (payloadOf f)) ≤ readLimit (settings c))%Z →
  inp c = frameBytes key f ++ rest → readFrame c = (withInp rest c, Ok f).
Proof.
  destruct f as [[op fin] payload]. intros (Hop & Hctl & Hlen) Hkey Hlim Hi. simpl in Hlim.
  unfold readFrame. cbn [frameBytes] in Hi. rewrite lengthBytes_eq, <- !app_comm_cons in Hi.
  set (n := N.of_nat (length payload)) in *.
  change (?a :: ?b :: ?l) with ([a; b] ++ l) in Hi. rewrite (readN_app _ _ _ _ Hi) by done. cbn [nth].
  destruct (first_byte op fin Hop) as (-> & -> & ->).
  set (m := hasKey key).
  destruct (second_byte m (lengthPrefix n) (lengthPrefix_bound n)) as [-> ->].
  rewrite Hop. cbn [negb]. change (client (withInp ?x c)) with (client c).
  replace (client c && m) with false by (unfold m, hasKey, key_ok in *; destruct key, (client c); naive_solver).
  replace (negb (client c) && negb m) with false by (unfold m, hasKey, key_ok in *; destruct key, (client c); naive_solver).
  rewrite <- app_assoc. set (body := match key with Some k => _ | None => _ end).
  rewrite (readLength_bytes n (body ++ rest)) by (done || lia). cbn [settings withInp].
  rewrite (proj2 (Z.ltb_ge _ _)) by lia. unfold n. rewrite nat_N_Z.
  rewrite (readBody_bytes m (default (be_put 4 0) key) payload rest).
  - by rewrite Hctl.
  - unfold key_ok in Hkey. destruct key; [by destruct Hkey|done].
  - unfold body, m. by destruct key.
Qed.

(** ** Reading consumes the input *)

Lemma readN_shape n c : ∃ rest, (readN n c).1 = withInp rest c ∧ length rest ≤ length (inp c) ∧
  ∀ x, (readN n c).2 = Ok x → length x = n ∧ length rest + n = length (inp c).
Proof.
  unfold readN. destruct (Nat.leb_spec n (length (inp c))); simpl; eexists; (split; [done|]).
  - rewrite length_drop. split; [lia|]. intros x [= <-]. rewrite length_take. lia.
  - simpl. split; [lia|done].
Qed.

(** A reading step: the connection with a shorter input, and a result. *)
Definition consumes {A} (k : nat) (P : A → nat → Prop) (c : Conn) (r : Conn * result wsErr A) : Prop :=
  ∃ rest, r.1 = withInp rest c ∧ length rest ≤ length (inp c) ∧
    ∀ x, r.2 = Ok x → P x (length (inp c) - length rest) ∧ length rest + k ≤ length (inp c).

Lemma consumes_bind {A B} k k' (P : A → nat → Prop) (Q : B → nat → Prop) c (r : Conn * result wsErr A)
    (f : A → Conn → Conn * result wsErr B) :
  consumes k P c r →
  (∀ x rest, P x (length (inp c) - length rest) → length rest + k ≤ length (inp c) →
     consumes k' (λ y n, Q y (n + (length (inp c) - length rest))) (withInp rest c) (f x (withInp rest c))) →
  consumes (k + k') Q c (read! x := r in (f x)).
Proof.
  intros (rest & Hr & Hle & Hok) Hf. destruct r as [c' [x|e]]; simpl in *; subst.
  - destruct (Hok x eq_refl) as [HP Hk]. destruct (Hf x rest HP Hk) as (rest' & Hr' & Hle' & Hok').
    exists rest'. simpl in *. split; [by rewrite Hr'|]. split; [lia|].
    intros y Hy. destruct (Hok' y Hy) as [HQ Hk']. split; [|lia]. by replace (length (inp c) - length rest')
      with (length rest - length rest' + (length (inp c) - length rest)) by lia.
  - exists rest. split; [done|]. split; [done|]. intros ? [=].
Qed.

Lemma consumes_then {A B} (P : A → nat → Prop) (Q : B → nat → Prop) c (r : Conn * result wsErr A)
    (f : A → Conn → Conn * result wsErr B) :
  consumes 0 P c r →
  (∀ x rest, P x (length (inp c) - length rest) →
     consumes 0 (λ y n, Q y (n + (length (inp c) - length rest))) (withInp rest c) (f x (withInp rest c))) →
  consumes 0 Q c (read! x := r in (f x)).
Proof. intros Hr Hf. apply (consumes_bind 0 0 P); [done|]. intros x rest HP _. by apply Hf. Qed.

Lemma consumes_readN n c : consumes n (λ x _, length x = n) c (readN n c).
Proof.
  destruct (readN_shape n c) as (rest & ? & ? & Hok). exists rest. split; [done|]. split; [done|].
  intros x Hx. destruct (Hok x Hx). lia.
Qed.

Lemma consumes_ret {A} (P : A → nat → Prop) c (r : result wsErr A) :
  (∀ x, r = Ok x → P x 0) → consumes 0 P c (c, r).
Proof.
  intros H. exists (inp c). split; [by destruct c|]. split; [done|]. simpl. intros x Hx. rewrite Nat.sub_diag.
  split; [by apply H|lia].
Qed.

Lemma consumes_weaken {A} k k' (P Q : A → nat → Prop) c r : (∀ x n, P x n → Q x n) → k' ≤ k →
  consumes k P c r → consumes k' Q c r.
Proof.
  intros HPQ Hk (rest & Hr & Hle & Hok). exists rest. split; [done|]. split; [done|].
  intros x Hx. destruct (Hok x Hx). split; [by apply HPQ|lia].
Qed.

Lemma consumes_readLength prefix c : consumes 0 (λ len _, (0 ≤ len)%Z) c (readLength prefix c).
Proof.
  unfold readLength. destruct (prefix =? 126)%N; [|destruct (prefix =? 127)%N].
  - apply (consumes_weaken (2 + 0) 0 (λ len _, (0 ≤ len)%Z)); [done|lia|].
    eapply (consumes_bind _ _ _ _ _ _ (λ ext c, let payloadLen := Z.of_N (be_get ext) in
      if (payloadLen <? 126)%Z then (c, Err ErrProtocolError) else (c, Ok payloadLen))); [apply consumes_readN|].
    intros x rest _ _. simpl. case_match; apply consumes_ret; intros ? [=]; lia.
  - apply (consumes_weaken (8 + 0) 0 (λ len _, (0 ≤ len)%Z)); [done|lia|].
    eapply (consumes_bind _ _ _ _ _ _ (λ ext c, let payloadLen := get_i64 ext in
      if (payloadLen <? 0)%Z then (c, Err ErrProtocolError)
      else if (payloadLen <=? 65535)%Z then (c, Err ErrProtocolError) else (c, Ok payloadLen)));
      [apply consumes_readN|].
    intros x rest _ _. simpl. case_match; [|case_match]; apply consumes_ret; intros ? [=]; unbool; lia.
  - apply consumes_ret. intros ? [=]. lia.
Qed.

Lemma consumes_readBody mask len c : (0 ≤ len)%Z →
  consumes 0 (λ p n, Z.of_nat (length p) = len ∧ length p ≤ n) c (readBody mask len c).
Proof.
  intros Hlen. unfold readBody. 
  apply (consumes_then (λ _ _, True) _ _ _ (λ maskKey c,
    read! payload := (if (0 <? len)%Z then readN (Z.to_nat len) c else (c, Ok [])) in (λ c,
      (c, Ok (if mask && (0 <? len)%Z then applyMask payload maskKey else payload))))).
  { destruct mask; [|by apply consumes_ret]. eapply consumes_weaken; [|apply Nat.le_0_l|apply consumes_readN]. done. }
  intros key rest _.
  apply (consumes_then (λ p n, Z.of_nat (length p) = len ∧ length p ≤ n) _ _ _ (λ payload c,
      (c, Ok (if mask && (0 <? len)%Z then applyMask payload key else payload)))).
  { destruct (Z.ltb_spec 0 len); [|apply consumes_ret; intros ? [= <-]; simpl; lia].
    destruct (readN_shape (Z.to_nat len) (withInp rest c)) as (r & ? & ? & Hok). exists r.
    split; [done|]. split; [done|]. intros x Hx. destruct (Hok x Hx). lia. }
  intros p rest' [Hp Hn]. apply consumes_ret. intros ? [= <-].
  simpl in *. case_match; rewrite ?applyMask_length; lia.
Qed.

(** What any frame that is read satisfies. *)
Definition frame_read (limit : Z) (f : frame) (n : nat) : Prop :=
  isValidFrameOpcode (opOf f) = true ∧ checkControl (opOf f) f.1.2 (payloadOf f) = None ∧
  (Z.of_nat (length (payloadOf f)) ≤ limit)%Z ∧ length (payloadOf f) + 2 ≤ n.

Lemma consumes_readFrame c : consumes 2 (frame_read (readLimit (settings c))) c (readFrame c).
Proof.
  unfold readFrame. change 2 with (2 + 0).
  eapply (consumes_bind _ _ (λ _ _, True) _ _ _ (λ h c, _)).
  { eapply consumes_weaken; [|reflexivity|apply consumes_readN]. done. }
  intros h rest _ Hk. cbv zeta. simpl.
  destruct (negb (N.land _ 112 =? 0)%N); [by apply consumes_ret|].
  destruct (isValidFrameOpcode _) eqn:Hop; [|by apply consumes_ret]. cbn [negb].
  destruct (_ && _); [by apply consumes_ret|].
  destruct (_ && _); [by apply consumes_ret|].
  eapply (consumes_then _ _ _ _ (λ len c, _)); [apply consumes_readLength|].
  intros len rest1 Hlen. cbv beta in Hlen. simpl.
  destruct (Z.ltb_spec (readLimit (settings c)) len) as [|Hlim]; [by apply consumes_ret|].
  eapply (consumes_then _ _ _ _ (λ p c, _)); [by apply consumes_readBody|].
  intros p rest2 [Hp Hn]. simpl in *.
  destruct (checkControl _ _ p) eqn:Hctl; apply consumes_ret; [done|].
  intros ? [= <-]. unfold frame_read. simpl. repeat split; [done|done|lia|lia].
Qed.

(** ** The reading loops end, within the limits *)

Lemma writeFrame_shape op fin payload c :
  ∃ o a d, (writeFrame op fin payload c).1 = withDraws d (withOut o a c).
Proof.
  unfold writeFrame, wire. repeat case_match; simpl; try (by eexists _, _, _).
  all: exists (out c), (accepts c), (draws c); by destruct c.
Qed.

(** What reading leaves alone, and how far the input has advanced. *)
Definition reads (c c' : Conn) : Prop :=
  client c' = client c ∧ settings c' = settings c ∧ closed c' = closed c ∧ inEnd c' = inEnd c ∧
  length (inp c') ≤ length (inp c).
#[export] Instance reads_preorder : PreOrder reads.
Proof. split; [by intros c|]. intros c c' c''. unfold reads. intuition (congruence || lia). Qed.

Lemma reads_withInp rest c : length rest ≤ length (inp c) → reads c (withInp rest c).
Proof. done. Qed.
Lemma reads_write op fin payload c : reads c (writeFrame op fin payload c).1.
Proof. by destruct (writeFrame_shape op fin payload c) as (o & a & d & ->). Qed.
#[export] Hint Resolve reads_withInp reads_write : plumego.

(** Every frame that is read shortens the input. *)
Lemma readFrame_cases c c' r : readFrame c = (c', r) → reads c c' ∧
  match r with
  | Ok f => length (inp c') + 2 + length (payloadOf f) ≤ length (inp c) ∧
      isValidFrameOpcode (opOf f) = true ∧ (Z.of_nat (length (payloadOf f)) ≤ readLimit (settings c))%Z
  | Err _ => True
  end.
Proof.
  intros E. destruct (consumes_readFrame c) as (rest & Hr & Hle & Hok). rewrite E in *. simpl in *. subst.
  split; [by apply reads_withInp|]. destruct r as [f|]; [|done].
  destruct (Hok f eq_refl) as ((? & ? & ? & ?) & ?). simpl. repeat split; [lia|done|done].
Qed.

(** The bookkeeping of a stream reader: what it has taken in is what it has handed out
    and what it still holds, and never more than the limit. *)
Definition balance (sr : streamReader) : Z := (readBytes sr - Z.of_nat (length (buf sr)))%Z.
Definition within (c : Conn) (sr : streamReader) : Prop :=
  (readBytes sr ≤ Z.max 0 (readLimit (settings c)))%Z.

Lemma append_spec sr payload c sr' : appendPayload sr payload c = Ok sr' → (0 ≤ readLimit (settings c))%Z →
  balance sr' = balance sr ∧ within c sr' ∧ attached sr' = attached sr ∧
  length (buf sr') = length (buf sr) + length payload.
Proof.
  unfold appendPayload. intros H Hlim. rewrite (proj2 (Z.leb_le _ _) Hlim) in H. cbn [andb] in H.
  destruct (Z.ltb_spec (readLimit (settings c)) (readBytes sr + Z.of_nat (length payload))); simplify_eq.
  unfold balance, within. simpl. rewrite length_app. repeat split; lia.
Qed.

(** One step of a reader from [c], [sr] to [c'], [sr'], with or without an error. *)
Definition progress (c : Conn) (sr : streamReader) (c' : Conn) (sr' : streamReader) (e : option wsErr) : Prop :=
  reads c c' ∧ attached sr' = attached sr ∧ balance sr' = balance sr ∧ within c' sr' ∧
  length (buf sr') + length (inp c') ≤ length (buf sr) + length (inp c) ∧
  match e with
  | Some _ => done_ sr' = true ∧ buf sr' = buf sr
  | None => length (inp c') < length (inp c)
  end.

(** A step that leaves the reader's buffer alone. *)
Lemma progress_same c sr c' sr' e : reads c c' → within c sr → length (inp c') < length (inp c) ∨ e ≠ None →
  attached sr' = attached sr → readBytes sr' = readBytes sr → buf sr' = buf sr →
  (e ≠ None → done_ sr' = true) → progress c sr c' sr' e.
Proof.
  intros Hrd Hw Hlt Ha Hb Hbuf He. pose proof Hrd as (_ & Hset & _ & _ & Hle).
  unfold progress, balance, within in *. rewrite Hset, Ha, Hb, Hbuf.
  do 4 (split; [done|]). split; [lia|]. destruct e; [by rewrite He|]. by destruct Hlt.
Qed.

Lemma progress_add c sr c1 sr0 fin payload c' sr' e : reads c c1 → (0 ≤ readLimit (settings c))%Z → within c sr →
  length (inp c1) + 2 + length payload ≤ length (inp c) →
  readBytes sr0 = readBytes sr → buf sr0 = buf sr → attached sr0 = attached sr →
  addFragment sr0 fin payload c1 = (c', sr', e) → progress c sr c' sr' e.
Proof.
  intros Hrd Hlim Hw Hlen Hb Hbuf Ha. pose proof Hrd as (_ & Hset & _). unfold addFragment.
  destruct (appendPayload sr0 payload c1) as [s|e0] eqn:Eapp; intros [= <- <- <-]; [|by apply progress_same; eauto].
  destruct (append_spec _ _ _ _ Eapp) as (Hbal & Hw' & Hat & Hl); [by rewrite Hset|].
  unfold progress, balance, within in *. rewrite Hb, Hbuf in *.
  destruct fin; simpl; (split; [done|]); repeat split; first [congruence | lia].
Qed.

Lemma pull_ok now sr c c' sr' e : pull now sr c = (c', sr', e) → (0 ≤ readLimit (settings c))%Z → within c sr →
  progress c sr c' sr' e.
Proof.
  intros Hp Hlim Hw. unfold pull in Hp. destruct (readFrame c) as [c1 r] eqn:Hr.
  apply readFrame_cases in Hr as [Hrd Hf]. destruct r as [[[op fin] payload]|e0]; cycle 1.
  { simplify_eq. by apply progress_same; eauto. }
  destruct Hf as (Hlen & _ & _). unfold payloadOf in Hlen. simpl in Hlen.
  assert (Hctl : ∀ op' p, length (inp (writeFrame op' true p c1).1) = length (inp c1)).
  { intros op' p. by destruct (writeFrame_shape op' true p c1) as (? & ? & ? & ->). }
  repeat case_match; simplify_eq;
    try (match goal with H : addFragment _ _ _ _ = _ |- _ => by eapply (progress_add _ _ _ _ _ _ _ _ _) in H end).
  all: apply progress_same; rewrite ?Hctl; simpl; eauto with lia; try done.
  all: by etrans; [|apply reads_write].
Qed.

(** The result of [Read]: some bytes, or an error once the buffer is empty. *)
Definition read_result (c : Conn) (sr : streamReader) (r : option (Conn * streamReader * (gostring * option wsErr))) : Prop :=
  ∃ c' sr' bs e, r = Some (c', sr', (bs, e)) ∧ reads c c' ∧ attached sr' = attached sr ∧ within c' sr' ∧
    (balance sr' = balance sr + Z.of_nat (length bs))%Z ∧
    length bs + length (buf sr') + length (inp c') ≤ length (buf sr) + length (inp c) ∧
    match e with None => bs ≠ [] | Some _ => bs = [] ∧ buf sr' = [] ∧ done_ sr' = true end.

Lemma readLoop_ok fuel n now sr c : length (inp c) < fuel → (0 ≤ readLimit (settings c))%Z → within c sr → 0 < n →
  read_result c sr (readLoop fuel n now sr c).
Proof.
  revert sr c. induction fuel as [|fuel IH]; intros sr c Hf Hlim Hw Hn; [lia|]. cbn [readLoop].
  destruct (buf sr) as [|b bs] eqn:Hbuf; cycle 1.
  { eexists _, _, _, _. split; [done|]. split; [done|]. split; [done|]. split; [done|].
    unfold balance. rewrite <- Hbuf. simpl. rewrite length_drop, length_take.
    split; [lia|]. split; [lia|]. rewrite Hbuf. by destruct n; [lia|]. }
  destruct (done_ sr) eqn:Hd.
  { eexists _, _, _, _. split; [done|]. split; [done|]. split; [done|]. split; [done|]. rewrite Hbuf.
    simpl. rewrite Z.add_0_r. auto. }
  destruct (pull now sr c) as [[c1 sr1] e] eqn:Hp.
  apply pull_ok in Hp as (Hrd & Ha & Hb & Hw1 & Hle & He); [|done..]. rewrite Hbuf in *. pose proof Hrd as (_ & Hset & _).
  destruct e as [e|].
  { destruct He as [Hd1 Hbuf1]. eexists _, _, _, _. split; [done|]. split; [done|]. split; [done|]. split; [done|].
    simpl. rewrite Hb, Hbuf1. simpl in *. rewrite Z.add_0_r. auto with lia. }
  destruct (IH sr1 c1) as (c2 & sr2 & bs & e & -> & Hrd2 & Ha2 & Hw2 & Hb2 & Hle2 & He2); [lia|by rewrite Hset|done|done|].
  eexists _, _, _, _. split; [done|]. split; [by etrans|]. rewrite Ha2, Hb2, Hb. simpl in *. auto with lia.
Qed.

Lemma copyLoop_ok fuel sizes now sr c i acc : (∀ i, 0 < sizes i) → length (buf sr) + length (inp c) < fuel →
  (0 ≤ readLimit (settings c))%Z → within c sr → attached sr = true →
  ∃ c' sr' r, copyLoop fuel i sizes now acc sr c = Some (c', sr', r) ∧ reads c c' ∧ done_ sr' = true ∧
    ∀ data, r = Ok data → (Z.of_nat (length data) ≤ Z.of_nat (length acc) + readLimit (settings c) - balance sr)%Z.
Proof.
  intros Hs. revert i acc sr c. induction fuel as [|fuel IH]; intros i acc sr c Hf Hlim Hw Ha; [lia|].
  cbn [copyLoop]. unfold Read. rewrite Ha. cbn [negb].
  destruct (readLoop_ok (S (length (inp c))) (sizes i) now sr c) as
    (c1 & sr1 & bs & e & -> & Hrd & Ha1 & Hw1 & Hb & Hle & He); auto with lia. simpl.
  pose proof Hrd as (_ & Hset & _). destruct e as [e|]; cycle 1.
  { destruct (IH (S i) (acc ++ bs) sr1 c1) as (c2 & sr2 & r & -> & Hrd2 & Hd & Hdata).
    - assert (length bs ≠ 0) by (by destruct bs). lia.
    - by rewrite Hset.
    - done.
    - congruence.
    - eexists _, _, _. split; [done|]. split; [by etrans|]. split; [done|]. intros data Hr.
      specialize (Hdata data Hr). rewrite length_app, Hset in Hdata. lia. }
  destruct He as (-> & Hbuf & Hd). simpl in *.
  assert (Hok : (Z.of_nat (length (acc ++ [])) ≤ Z.of_nat (length acc) + readLimit (settings c) - balance sr)%Z).
  { rewrite app_nil_r. unfold within, balance in *. rewrite Hset in Hw1. rewrite Hbuf in Hb. simpl in Hb. lia. }
  eexists _, _, _. split; [done|]. split; [done|]. split; [done|]. intros data. case_decide; intros [=]. by subst.
Qed.

Lemma firstFrame_ok fuel now c : length (inp c) < fuel → (0 ≤ readLimit (settings c))%Z →
  ∃ c' r, firstFrame fuel now c = Some (c', r) ∧ reads c c' ∧
    ∀ op sr, r = Ok (op, sr) → (op = OpcodeText ∨ op = OpcodeBinary) ∧ attached sr = true ∧ within c' sr ∧ balance sr = 0%Z.
Proof.
  revert c. induction fuel as [|fuel IH]; intros c Hf Hlim; [lia|]. cbn [firstFrame].
  destruct (readFrame c) as [c1 r] eqn:Hr. apply readFrame_cases in Hr as [Hrd Hok]. pose proof Hrd as (_ & Hset & _).
  destruct r as [[[op fin] payload]|e]; [|by eexists _, _].
  destruct Hok as (Hlen & _). unfold payloadOf in Hlen. simpl in Hlen.
  assert (Hnext : ∀ c2, reads c1 c2 → ∃ c' r, firstFrame fuel now c2 = Some (c', r) ∧ reads c c' ∧
    ∀ op sr, r = Ok (op, sr) → (op = OpcodeText ∨ op = OpcodeBinary) ∧ attached sr = true ∧ within c' sr ∧ balance sr = 0%Z).
  { intros c2 Hrd2. pose proof Hrd2 as (_ & Hset2 & _ & _ & Hle2).
    destruct (IH c2) as (c' & r & -> & Hrd' & Hr'); [lia|by rewrite Hset2, Hset|].
    eexists _, _. split; [done|]. split; [|done]. by transitivity c2; [transitivity c1|]. }
  destruct (_ || _) eqn:Hop; [|repeat case_match; eauto using reads_write, reads_withInp].
  - destruct (appendPayload _ payload c1) as [sr|e] eqn:Happ; [|by eexists _, _].
    apply append_spec in Happ as (Hb & Hw & Ha & _); [|by rewrite Hset].
    eexists _, _. split; [done|]. split; [done|]. intros op' sr' [= <- <-].
    split; [unbool; unfold OpcodeText, OpcodeBinary in *; destruct Hop as [?%N.eqb_eq|?%N.eqb_eq]; auto|].
    unfold balance, within in *. by destruct fin.
  - by apply Hnext.
  - eexists _, _. split; [done|]. split; [by etrans; [|apply reads_write]|done].
  - by eexists _, _.
Qed.

(** Reading a message ends on any input, and the message obeys the limit. *)
Lemma ReadMessage_total sizes now c : (∀ i, 0 < sizes i) → (0 ≤ readLimit (settings c))%Z →
  ∃ c' r, ReadMessage sizes now c = Some (c', r) ∧ reads c c' ∧
    ∀ op data, r = Ok (op, data) → (op = OpcodeText ∨ op = OpcodeBinary) ∧
      (Z.of_nat (length data) ≤ readLimit (settings c))%Z.
Proof.
  intros Hs Hlim. unfold ReadMessage, ReadMessageReader. destruct (closed c) eqn:Hc; [by eexists _, _|].
  destruct (firstFrame_ok (S (length (inp c))) now c) as (c1 & r & -> & Hrd & Hr); [lia|done|].
  cbn [mbind option_bind].
  pose proof Hrd as (_ & Hset & _). destruct r as [[op sr]|e]; [|by eexists _, _].
  destruct (Hr op sr eq_refl) as (Hop & Ha & Hw & Hb).
  destruct (copyLoop_ok (S (length (buf sr) + length (inp c1))) sizes now sr c1 0 []) as
    (c2 & sr2 & r2 & -> & Hrd2 & Hd & Hdata); [done|lia|by rewrite Hset|done|done|].
  cbn [mbind option_bind].
  unfold CloseReader. rewrite Hd, andb_false_r.
  destruct r2 as [data|e]; (eexists _, _; split; [done|]; split; [by etrans|]); [|done].
  intros ? ? [= <- <-]. split; [done|]. specialize (Hdata data eq_refl). rewrite Hb, Hset in Hdata. simpl in Hdata. lia.
Qed.
