(* ===== verification/WebSocketProps.v ===== *)
(** * WebSocket messages from end to end

    What a sender puts on the wire through its queue and writer pump, with pings and
    pongs of other goroutines between the fragments, a receiver reads back as the
    same messages in the same order. Reading is bounded on any input. A message cut
    short by a close frame or by the end of the stream is nevertheless delivered as
    if it were whole. *)

From stdpp Require Import options.
From S2P Require Import Prelude GoStrings GoBytes WebSocket WebSocketFacts.
Import WebSocket.

(** ** Frames on the wire *)

Abbreviation keyed := (option gostring * (N * bool * gostring))%type (only parsing).

Definition wireBytes (kfs : list keyed) : gostring := mjoin ((λ kf : keyed, frameBytes kf.1 kf.2) <$> kfs).

(** A frame a connection can take in: well formed, of the right direction and size. *)
Definition readable (c : Conn) (kf : keyed) : Prop :=
  frame_ok kf.2 ∧ key_ok (negb (client c)) kf.1 ∧
  (Z.of_nat (length (payloadOf kf.2)) ≤ readLimit (settings c))%Z.

Definition is_control (f : N * bool * gostring) : bool := (opOf f =? opcodePing)%N || (opOf f =? opcodePong)%N.

(** What a reader does with a ping or a pong, besides going on. *)
Definition onControl (now : Z) (c : Conn) (f : N * bool * gostring) : Conn :=
  if (opOf f =? opcodePing)%N then (writeFrame opcodePong true (payloadOf f) c).1
  else if (opOf f =? opcodePong)%N then withPong now c else c.
Definition after (now : Z) (kfs : list keyed) (rest : gostring) (c : Conn) : Conn :=
  withInp rest (foldl (onControl now) c (snd <$> kfs)).

Lemma onControl_withInp now f rest c : onControl now (withInp rest c) f = withInp rest (onControl now c f).
Proof. unfold onControl, writeFrame, wire. simpl. by repeat case_match. Qed.

Lemma onControl_reads now f c : reads c (onControl now c f) ∧ inp (onControl now c f) = inp c.
Proof.
  unfold onControl. case_match; [|by case_match].
  by destruct (writeFrame_shape opcodePong true (payloadOf f) c) as (? & ? & ? & ->).
Qed.

Lemma after_cons now kf kfs rest rest' c :
  after now kfs rest (withInp rest' (onControl now c kf.2)) = after now (kf :: kfs) rest c.
Proof.
  unfold after. csimpl. generalize (onControl now c kf.2). clear c. induction kfs as [|kf' kfs IH]; intros c; csimpl; [done|].
  by rewrite onControl_withInp.
Qed.

Lemma readable_ext c c' kf : client c' = client c → settings c' = settings c → readable c kf → readable c' kf.
Proof. intros Hc Hs. unfold readable. by rewrite Hc, Hs. Qed.

Lemma wireBytes_cons kf kfs rest : wireBytes (kf :: kfs) ++ rest = frameBytes kf.1 kf.2 ++ (wireBytes kfs ++ rest).
Proof. unfold wireBytes. csimpl. by rewrite app_assoc. Qed.

Lemma read_wire c kf kfs rest : readable c kf → inp c = wireBytes (kf :: kfs) ++ rest →
  readFrame c = (withInp (wireBytes kfs ++ rest) c, Ok kf.2).
Proof. intros (Hf & Hk & Hl) Hi. rewrite wireBytes_cons in Hi. by eapply readFrame_bytes. Qed.

(** ** Reading the rest of a message *)

(** Continuation frames, the last of them final, with control frames between them. *)
Fixpoint tail_ok (kfs : list keyed) : Prop :=
  match kfs with
  | [] => False
  | kf :: kfs =>
      (is_control kf.2 = true ∧ tail_ok kfs) ∨
      (opOf kf.2 = opcodeContinuation ∧ if kf.2.1.2 then kfs = [] else tail_ok kfs)
  end.

(** The payload the data frames carry. *)
Definition content (kfs : list keyed) : gostring :=
  mjoin ((λ kf : keyed, if is_control kf.2 then [] else payloadOf kf.2) <$> kfs).

(** A reader in the middle of a message whose remaining frames are [kfs]. *)
Record mid (kfs : list keyed) (rest : gostring) (sr : streamReader) (c : Conn) : Prop := {
  mid_inp : inp c = wireBytes kfs ++ rest;
  mid_read : Forall (readable c) kfs;
  mid_attached : attached sr = true;
  mid_err : readErr sr = None;
  mid_tail : if done_ sr then kfs = [] else srOp sr ≠ 0%N ∧ tail_ok kfs;
  mid_limit : (readBytes sr + Z.of_nat (length (content kfs)) ≤ readLimit (settings c))%Z
}.

Lemma is_control_cases f : is_control f = true → opOf f = opcodePing ∨ opOf f = opcodePong.
Proof. unfold is_control. rewrite orb_true_iff, !N.eqb_eq. done. Qed.

Lemma pull_control now sr c kf kfs rest : mid (kf :: kfs) rest sr c → done_ sr = false → is_control kf.2 = true →
  ∃ c', pull now sr c = (c', sr, None) ∧ mid kfs rest sr c' ∧ after now kfs rest c' = after now (kf :: kfs) rest c ∧
    content (kf :: kfs) = content kfs.
Proof.
  intros [Hi Hrd Ha He Ht Hl] Hd Hctl. rewrite Hd in Ht. apply Forall_cons in Hrd as [Hkf Hrd].
  assert (Hcont : content (kf :: kfs) = content kfs) by (unfold content; csimpl; by rewrite Hctl).
  exists (withInp (wireBytes kfs ++ rest) (onControl now c kf.2)).
  destruct (onControl_reads now kf.2 c) as [(Hcl & Hset & _) _]. split_and!.
  - unfold pull. rewrite (read_wire c kf kfs rest) by done. rewrite <- onControl_withInp. unfold onControl.
    destruct kf as [k [[op fin] p]]. unfold opOf, payloadOf in *. simpl in *.
    destruct (is_control_cases _ Hctl) as [Heq|Heq]; unfold opOf in Heq; simpl in Heq; by rewrite Heq.
  - split; simpl; try done.
    + eapply Forall_impl; [done|]. intros kf' H'. by eapply readable_ext.
    + rewrite Hd. destruct Ht as [Hop [[_ Ht]|[Heq _]]]; [done|].
      destruct (is_control_cases _ Hctl) as [Hx|Hx]; rewrite Hx in Heq; done.
    + by rewrite Hset, <- Hcont.
  - apply after_cons.
  - done.
Qed.

Lemma pull_data now sr c kf kfs rest : mid (kf :: kfs) rest sr c → done_ sr = false → is_control kf.2 = false →
  ∃ c' sr', pull now sr c = (c', sr', None) ∧ mid kfs rest sr' c' ∧ after now kfs rest c' = after now (kf :: kfs) rest c ∧
    buf sr' = buf sr ++ payloadOf kf.2 ∧ content (kf :: kfs) = payloadOf kf.2 ++ content kfs.
Proof.
  intros [Hi Hrd Ha He Ht Hl] Hd Hctl. rewrite Hd in Ht. apply Forall_cons in Hrd as [Hkf Hrd].
  assert (Hcont : content (kf :: kfs) = payloadOf kf.2 ++ content kfs) by (unfold content; csimpl; by rewrite Hctl).
  assert (Hid : onControl now c kf.2 = c).
  { unfold onControl, is_control in *. apply orb_false_iff in Hctl as [-> ->]. done. }
  rewrite Hcont, length_app in Hl.
  destruct Ht as [Hop [[? _]|[Hcop Hfin]]]; [congruence|].
  set (sr' := MkReader true (srOp sr) (buf sr ++ payloadOf kf.2) (kf.2.1.2) None
                (readBytes sr + Z.of_nat (length (payloadOf kf.2)))).
  exists (withInp (wireBytes kfs ++ rest) c), sr'. split_and!; try done.
  - unfold pull. rewrite (read_wire c kf kfs rest) by done. unfold addFragment, appendPayload, sr'.
    destruct kf as [k [[op fin] p]]. unfold opOf, payloadOf in *. simpl in *. subst op. simpl.
    rewrite (proj2 (N.eqb_neq _ _)) by done. rewrite (proj2 (Z.ltb_ge _ _)) by lia. rewrite andb_false_r.
    unfold finish. simpl. by rewrite Ha, He, Hd; destruct fin.
  - split; simpl; try done; [by case_match|lia].
  - rewrite <- (after_cons now kf kfs rest (wireBytes kfs ++ rest) c), Hid. done.
Qed.

(** Frames take more bytes than they are many. *)
Lemma wireBytes_length kfs : length kfs ≤ length (wireBytes kfs).
Proof.
  unfold wireBytes. induction kfs as [|[k [[op fin] p]] kfs IH]; csimpl; [done|]. rewrite length_app. lia.
Qed.

Lemma content_length kfs : length (content kfs) ≤ length (wireBytes kfs).
Proof.
  unfold content, wireBytes. induction kfs as [|[k [[op fin] p]] kfs IH]; csimpl; [done|]. rewrite !length_app.
  rewrite <- Nat.add_succ_l. apply Nat.add_le_mono; [|done]. unfold payloadOf. simpl.
  destruct (is_control _); simpl; [lia|]. destruct k as [k|]; rewrite ?length_app, ?applyMask_length; lia.
Qed.

Lemma mid_take n kfs rest sr c : mid kfs rest sr c →
  mid kfs rest (MkReader (attached sr) (srOp sr) (drop n (buf sr)) (done_ sr) (readErr sr) (readBytes sr)) c.
Proof. by intros []; split. Qed.

(** [Read] returns the next bytes of the message, or its end. *)
Lemma readLoop_mid fuel n now kfs rest sr c : mid kfs rest sr c → length kfs < fuel → 0 < n →
  (∃ bs sr' c' kfs', readLoop fuel n now sr c = Some (c', sr', (bs, None)) ∧ bs ≠ [] ∧ mid kfs' rest sr' c' ∧
     buf sr ++ content kfs = bs ++ (buf sr' ++ content kfs') ∧ after now kfs' rest c' = after now kfs rest c) ∨
  (∃ sr', readLoop fuel n now sr c = Some (after now kfs rest c, sr', ([], Some WEOF)) ∧ done_ sr' = true ∧
     buf sr ++ content kfs = []).
Proof.
  revert kfs sr c. induction fuel as [|fuel IH]; intros kfs sr c Hmid Hf Hn; [lia|]. cbn [readLoop].
  destruct (buf sr) as [|b l] eqn:Hbuf; cycle 1.
  { left. eexists _, _, _, kfs. split; [done|]. split; [by destruct n; [lia|]|]. rewrite <- Hbuf.
    split; [by apply mid_take|]. split; [|done]. simpl. by rewrite app_assoc, take_drop. }
  destruct (done_ sr) eqn:Hd.
  { right. pose proof (mid_tail _ _ _ _ Hmid) as Ht. rewrite Hd in Ht. subst kfs. exists sr.
    rewrite (mid_err _ _ _ _ Hmid). split; [|done]. simpl. unfold after. simpl.
    pose proof (mid_inp _ _ _ _ Hmid) as Hi. simpl in Hi. destruct c. simpl in *. by subst. }
  pose proof (mid_tail _ _ _ _ Hmid) as Ht. rewrite Hd in Ht. destruct Ht as [_ Ht].
  destruct kfs as [|kf kfs]; [done|]. simpl in Hf. destruct (is_control kf.2) eqn:Hctl.
  - destruct (pull_control now sr c kf kfs rest Hmid Hd Hctl) as (c1 & -> & Hmid1 & Haft & Hcont).
    rewrite Hcont, <- Haft. destruct (IH kfs sr c1 Hmid1) as [H|H]; [lia|done| |]; rewrite Hbuf in H; auto.
  - destruct (pull_data now sr c kf kfs rest Hmid Hd Hctl) as (c1 & sr1 & -> & Hmid1 & Haft & Hb1 & Hcont).
    rewrite Hcont, <- Haft. rewrite Hbuf in Hb1. simpl in Hb1.
    destruct (IH kfs sr1 c1 Hmid1) as [H|H]; [lia|done| |]; rewrite Hb1 in H; auto.
Qed.

Lemma copyLoop_mid fuel sizes now kfs rest sr c i acc : (∀ i, 0 < sizes i) → mid kfs rest sr c →
  length (buf sr ++ content kfs) < fuel →
  ∃ sr', copyLoop fuel i sizes now acc sr c = Some (after now kfs rest c, sr', Ok (acc ++ buf sr ++ content kfs)) ∧
    done_ sr' = true.
Proof.
  intros Hs. revert i acc kfs sr c. induction fuel as [|fuel IH]; intros i acc kfs sr c Hmid Hf; [lia|].
  cbn [copyLoop]. unfold Read. rewrite (mid_attached _ _ _ _ Hmid). cbn [negb].
  pose proof (wireBytes_length kfs) as Hlen.
  destruct (readLoop_mid (S (length (inp c))) (sizes i) now kfs rest sr c Hmid) as
    [(bs & sr' & c' & kfs' & -> & Hne & Hmid' & Heq & Haft)|(sr' & -> & Hd & Heq)].
  - rewrite (mid_inp _ _ _ _ Hmid), length_app. lia.
  - done.
  - cbn [mbind option_bind]. rewrite Heq, length_app in Hf.
    destruct (IH (S i) (acc ++ bs) kfs' sr' c' Hmid') as (sr2 & -> & Hd2).
    { assert (length bs ≠ 0) by (by destruct bs). lia. }
    exists sr2. split; [|done]. by rewrite Haft, Heq, <- app_assoc.
  - cbn [mbind option_bind]. rewrite decide_True by done. exists sr'. by rewrite Heq.
Qed.

(** ** Reading whole messages *)

(** The frames of one message: control frames, the first data frame, and what is left
    of the message unless that frame is final. *)
Fixpoint message_ok (op : N) (kfs : list keyed) : Prop :=
  match kfs with
  | [] => False
  | kf :: kfs =>
      (is_control kf.2 = true ∧ message_ok op kfs) ∨
      (opOf kf.2 = op ∧ if kf.2.1.2 then kfs = [] else tail_ok kfs)
  end.

Lemma firstFrame_message fuel now op kfs rest c : op = OpcodeText ∨ op = OpcodeBinary → message_ok op kfs →
  inp c = wireBytes kfs ++ rest → Forall (readable c) kfs → length kfs ≤ fuel →
  (Z.of_nat (length (content kfs)) ≤ readLimit (settings c))%Z →
  ∃ c' sr kfs', firstFrame fuel now c = Some (c', Ok (op, sr)) ∧ mid kfs' rest sr c' ∧ closed c' = closed c ∧
    after now kfs' rest c' = after now kfs rest c ∧ buf sr ++ content kfs' = content kfs.
Proof.
  intros Hop. revert kfs c. induction fuel as [|fuel IH]; intros kfs c Hm Hi Hrd Hf Hl; destruct kfs as [|kf kfs]; try done.
  { simpl in Hf. lia. }
  apply Forall_cons in Hrd as [Hkf Hrd]. cbn [firstFrame]. rewrite (read_wire c kf kfs rest) by done.
  destruct (onControl_reads now kf.2 c) as [(Hcl & Hset & Hclosed & _) _].
  assert (Hrd' : Forall (readable (withInp (wireBytes kfs ++ rest) (onControl now c kf.2))) kfs).
  { eapply Forall_impl; [done|]. intros kf' H'. by eapply readable_ext. }
  destruct Hm as [[Hctl Hm]|[Hkop Hfin]].
  - assert (Hcont : content (kf :: kfs) = content kfs) by (unfold content; csimpl; by rewrite Hctl).
    rewrite Hcont in *. destruct (IH kfs (withInp (wireBytes kfs ++ rest) (onControl now c kf.2)) Hm) as
      (c' & sr & kfs' & Hfirst & Hmid & Hcl' & Haft & Hb); simpl in *; [done|done|lia|by rewrite Hset|].
    exists c', sr, kfs'. rewrite Hcl', Hclosed, Haft, after_cons. split; [|done]. rewrite <- Hfirst, <- onControl_withInp.
    unfold onControl. destruct kf as [k [[kop fin] p]]. unfold opOf, payloadOf in *. simpl in *.
    destruct (is_control_cases _ Hctl) as [Heq|Heq]; unfold opOf in Heq; simpl in Heq; by rewrite Heq.
  - assert (Hctl : is_control kf.2 = false).
    { unfold is_control. rewrite Hkop. by destruct Hop as [->| ->]. }
    assert (Hcont : content (kf :: kfs) = payloadOf kf.2 ++ content kfs) by (unfold content; csimpl; by rewrite Hctl).
    assert (Hid : onControl now c kf.2 = c).
    { unfold onControl, is_control in *. apply orb_false_iff in Hctl as [-> ->]. done. }
    rewrite Hid in Hrd'. rewrite Hcont, length_app in Hl. unfold appendPayload.
    exists (withInp (wireBytes kfs ++ rest) c),
      (MkReader true (if kf.2.1.2 then 0%N else op) (payloadOf kf.2) kf.2.1.2 None (Z.of_nat (length (payloadOf kf.2)))), kfs.
    destruct kf as [k [[kop fin] p]]. unfold opOf, payloadOf in *. simpl in *. subst kop.
    rewrite (proj2 (Z.ltb_ge _ _)) by lia. rewrite andb_false_r.
    replace ((op =? OpcodeText)%N || (op =? OpcodeBinary)%N) with true by (by destruct Hop as [->| ->]).
    split; [by destruct fin|]. split_and!; try done.
    + split; simpl; try done; [destruct fin; [done|]; by destruct Hop as [->| ->]|lia].
    + rewrite <- (after_cons now (k, (op, fin, p)) kfs rest (wireBytes kfs ++ rest) c). simpl. by rewrite Hid.
Qed.

Lemma ReadMessage_message sizes now op kfs rest c : (∀ i, 0 < sizes i) → op = OpcodeText ∨ op = OpcodeBinary →
  message_ok op kfs → inp c = wireBytes kfs ++ rest → Forall (readable c) kfs → closed c = false →
  (Z.of_nat (length (content kfs)) ≤ readLimit (settings c))%Z →
  ReadMessage sizes now c = Some (after now kfs rest c, Ok (op, content kfs)).
Proof.
  intros Hs Hop Hm Hi Hrd Hcl Hl. unfold ReadMessage, ReadMessageReader. rewrite Hcl.
  pose proof (wireBytes_length kfs) as Hlen.
  destruct (firstFrame_message (S (length (inp c))) now op kfs rest c) as (c' & sr & kfs' & -> & Hmid & _ & Haft & Hb);
    try done; [rewrite Hi, length_app; lia|]. cbn [mbind option_bind].
  destruct (copyLoop_mid (S (length (buf sr) + length (inp c'))) sizes now kfs' rest sr c' 0 [] Hs Hmid) as (sr' & -> & Hd).
  { rewrite length_app, (mid_inp _ _ _ _ Hmid), length_app. pose proof (content_length kfs'). lia. }
  cbn [mbind option_bind]. unfold CloseReader. rewrite Hd, andb_false_r. by rewrite Haft, Hb.
Qed.

(** A sequence of messages. *)
Fixpoint readMessages (sizes : nat → nat) (now : Z) (n : nat) (c : Conn) :
    option (Conn * list (result wsErr (N * gostring))) :=
  match n with
  | O => Some (c, [])
  | S n => '(c, r) ← ReadMessage sizes now c; '(c, rs) ← readMessages sizes now n c; Some (c, r :: rs)
  end.

(** ** The frames of a message *)

Abbreviation frame := (N * bool * gostring)%type (only parsing).

(** The fragments the pump writes from an offset on. *)
Fixpoint fragsFrom (fuel : nat) (op : N) (data : gostring) (offset : nat) (first : bool) : list frame :=
  match fuel with
  | O => []
  | S fuel =>
      let total := length data in
      let end_ := if total <? offset + maxFragmentSize then total else offset + maxFragmentSize in
      (if first then op else opcodeContinuation, end_ =? total, take (end_ - offset) (drop offset data)) ::
      if end_ <? total then fragsFrom fuel op data end_ false else []
  end.
Definition fragments (o : Outbound) : list frame :=
  if length (Data o) <=? maxFragmentSize then [(Op o, true, Data o)]
  else fragsFrom (length (Data o)) (Op o) (Data o) 0 true.

Lemma maxFragmentSize_pos : 0 < maxFragmentSize.
Proof. rewrite <- Nat.neq_0_lt_0. Transparent maxFragmentSize. by apply Nat.pow_nonzero. Qed.
#[global] Opaque maxFragmentSize.
Lemma maxFragmentSize_val : Z.of_nat maxFragmentSize = 65536%Z.
Proof. Transparent maxFragmentSize. unfold maxFragmentSize. by rewrite Nat2Z.inj_pow. Qed.
#[global] Opaque maxFragmentSize.

(** Shapes of data frames, without the control frames. *)
Fixpoint tail_data (fs : list frame) : Prop :=
  match fs with
  | [] => False
  | f :: fs => opOf f = opcodeContinuation ∧ if f.1.2 then fs = [] else tail_data fs
  end.
Definition message_data (op : N) (fs : list frame) : Prop :=
  match fs with
  | [] => False
  | f :: fs => opOf f = op ∧ if f.1.2 then fs = [] else tail_data fs
  end.
Definition payloads (fs : list frame) : gostring := mjoin (payloadOf <$> fs).
Definition dataOf (kfs : list keyed) : list frame := filter (λ f, is_control f = false) (snd <$> kfs).

Lemma dataOf_cons kf kfs : dataOf (kf :: kfs) = if is_control kf.2 then dataOf kfs else kf.2 :: dataOf kfs.
Proof. unfold dataOf. csimpl. rewrite filter_cons. destruct (is_control kf.2) eqn:E; by case_decide. Qed.

Lemma content_cons kf kfs : content (kf :: kfs) = (if is_control kf.2 then [] else payloadOf kf.2) ++ content kfs.
Proof. done. Qed.

Lemma tail_split kfs fs more : dataOf kfs = fs ++ more → tail_data fs →
  ∃ k1 k2, kfs = k1 ++ k2 ∧ tail_ok k1 ∧ content k1 = payloads fs ∧ dataOf k2 = more.
Proof.
  revert fs. induction kfs as [|kf kfs IH]; intros fs Heq Hfs; [by destruct fs|]. rewrite dataOf_cons in Heq.
  destruct (is_control kf.2) eqn:Hctl.
  - destruct (IH fs Heq Hfs) as (k1 & k2 & -> & Ht & Hc & Hm). exists (kf :: k1), k2. rewrite content_cons, Hctl.
    split_and!; [done| |done|done]. by left.
  - destruct fs as [|f fs]; [done|]. injection Heq as <- Heq. destruct Hfs as [Hop Hfs]. destruct (kf.2.1.2) eqn:Hfin.
    + subst fs. exists [kf], kfs. rewrite content_cons, Hctl. split_and!; try done. right. by rewrite Hfin.
    + destruct (IH fs Heq Hfs) as (k1 & k2 & -> & Ht & Hc & Hm). exists (kf :: k1), k2. rewrite content_cons, Hctl, Hc.
      split_and!; try done. right. by rewrite Hfin.
Qed.

Lemma message_split op kfs fs more : dataOf kfs = fs ++ more → message_data op fs →
  ∃ k1 k2, kfs = k1 ++ k2 ∧ message_ok op k1 ∧ content k1 = payloads fs ∧ dataOf k2 = more.
Proof.
  intros Heq Hfs. induction kfs as [|kf kfs IH]; [by destruct fs|]. rewrite dataOf_cons in Heq.
  destruct (is_control kf.2) eqn:Hctl.
  - destruct (IH Heq) as (k1 & k2 & -> & Ht & Hc & Hm). exists (kf :: k1), k2. rewrite content_cons, Hctl.
    split_and!; [done| |done|done]. by left.
  - destruct fs as [|f fs]; [done|]. injection Heq as <- Heq. destruct Hfs as [Hop Hfs]. destruct (kf.2.1.2) eqn:Hfin.
    + subst fs. exists [kf], kfs. rewrite content_cons, Hctl. split_and!; try done. right. by rewrite Hfin.
    + destruct (tail_split kfs fs more Heq Hfs) as (k1 & k2 & -> & Ht & Hc & Hm). exists (kf :: k1), k2.
      rewrite content_cons, Hctl, Hc. split_and!; try done. right. by rewrite Hfin.
Qed.

Lemma fragsFrom_ok fuel op data offset first : offset < length data → length data - offset ≤ fuel →
  payloads (fragsFrom fuel op data offset first) = drop offset data ∧
  if first then message_data op (fragsFrom fuel op data offset first) else tail_data (fragsFrom fuel op data offset first).
Proof.
  revert offset first. induction fuel as [|fuel IH]; intros offset first Ho Hf; [lia|].
  cbn [fragsFrom]. pose proof maxFragmentSize_pos as Hmax.
  set (end_ := if length data <? offset + maxFragmentSize then length data else offset + maxFragmentSize).
  assert (He : offset < end_ ≤ length data).
  { unfold end_. destruct (Nat.ltb_spec (length data) (offset + maxFragmentSize)); lia. }
  unfold payloads, message_data, tail_data. csimpl. fold tail_data.
  destruct (Nat.ltb_spec end_ (length data)) as [Hlt|Hge].
  - destruct (IH end_ false) as [Hp Hs]; [done|lia|]. fold (payloads (fragsFrom fuel op data end_ false)). rewrite Hp.
    rewrite (proj2 (Nat.eqb_neq _ _)) by lia. unfold payloadOf. simpl. split; [|by destruct first].
    replace (drop end_ data) with (drop (end_ - offset) (drop offset data)); [by rewrite take_drop|].
    rewrite drop_drop. f_equal. lia.
  - replace end_ with (length data) by lia. rewrite Nat.eqb_refl. simpl. rewrite app_nil_r.
    split; [|by destruct first]. unfold payloadOf. simpl. apply take_ge. by rewrite length_drop.
Qed.

Lemma fragments_ok o : payloads (fragments o) = Data o ∧ message_data (Op o) (fragments o).
Proof.
  unfold fragments. destruct (Nat.leb_spec (length (Data o)) maxFragmentSize) as [|Hlt].
  - unfold payloads. simpl. by rewrite app_nil_r.
  - apply (fragsFrom_ok (length (Data o)) (Op o) (Data o) 0 true); lia.
Qed.

(** ** Reading back a stream of messages *)

Definition message_fits (c : Conn) (o : Outbound) : Prop :=
  isApplicationWriteOpcode (Op o) = true ∧ (Z.of_nat (length (Data o)) ≤ readLimit (settings c))%Z.

Lemma app_opcode op : isApplicationWriteOpcode op = true → op = OpcodeText ∨ op = OpcodeBinary.
Proof. unfold isApplicationWriteOpcode. rewrite orb_true_iff, !N.eqb_eq. done. Qed.

Lemma after_reads now kfs rest c : client (after now kfs rest c) = client c ∧
  settings (after now kfs rest c) = settings c ∧ closed (after now kfs rest c) = closed c.
Proof.
  unfold after. simpl. revert c. induction kfs as [|kf kfs IH]; intros c; csimpl; [done|].
  destruct (IH (onControl now c kf.2)) as (-> & -> & ->). by destruct (onControl_reads now kf.2 c) as [(-> & -> & -> & _) _].
Qed.

Lemma readMessages_ok sizes now ms kfs rest c : (∀ i, 0 < sizes i) → closed c = false →
  Forall (message_fits c) ms → Forall (readable c) kfs → inp c = wireBytes kfs ++ rest →
  dataOf kfs = mjoin (fragments <$> ms) →
  ∃ c', readMessages sizes now (length ms) c = Some (c', (λ o, Ok (Op o, Data o)) <$> ms).
Proof.
  intros Hs. revert kfs c. induction ms as [|o ms IH]; intros kfs c Hcl Hms Hrd Hi Hdata; [by eexists|]. csimpl in *.
  apply Forall_cons in Hms as [[Hop Hfit] Hms]. destruct (fragments_ok o) as [Hpay Hmd].
  destruct (message_split (Op o) kfs (fragments o) _ Hdata Hmd) as (k1 & k2 & -> & Hok & Hc & Hmore).
  apply Forall_app in Hrd as [Hrd1 Hrd2].
  assert (Hwire : inp c = wireBytes k1 ++ (wireBytes k2 ++ rest)).
  { rewrite Hi. unfold wireBytes. by rewrite fmap_app, list.join_app, app_assoc. }
  rewrite (ReadMessage_message sizes now (Op o) k1 (wireBytes k2 ++ rest) c) by
    first [done | by apply app_opcode | by rewrite Hc, Hpay]. cbn [mbind option_bind].
  destruct (after_reads now k1 (wireBytes k2 ++ rest) c) as (Hcl1 & Hset1 & Hclosed1).
  destruct (IH k2 (after now k1 (wireBytes k2 ++ rest) c)) as [c' ->].
  - by rewrite Hclosed1.
  - eapply Forall_impl; [done|]. intros o' [? ?]. split; [done|]. by rewrite Hset1.
  - eapply Forall_impl; [done|]. intros kf. by apply readable_ext.
  - done.
  - done.
  - cbn [mbind option_bind]. rewrite Hc, Hpay. by eexists.
Qed.

(** ** The sending side *)

(** What can happen on an open connection: sends, waiting sends that look again, turns
    of the pump and its two other branches, pongs the reading goroutine writes in
    answer to pings, the monitor, and closing. *)
Inductive wsEvent :=
| WSend (op : N) (data : gostring)
| WRetry (i : nat) (ctxDone : bool)
| WPump | WTick | WClosed
| WPong (payload : gostring)
| WMonitor (now : Z)
| WWriteClose (code : N) (reason : gostring)
| WClose.

(** A connection, the sends that wait, and the messages that were accepted so far. *)
Record session := MkSession { conn : Conn; waiting : list Outbound; accepted : list Outbound }.

Definition settle (s : session) (waits : list Outbound) (o : Outbound) (r : Conn * sendResult) : session :=
  match r with
  | (c, Sent None) => MkSession c waits (accepted s ++ [o])
  | (c, Sent (Some _)) => MkSession c waits (accepted s)
  | (c, Blocked o) => MkSession c (o :: waits) (accepted s)
  end.

Definition wsStep (e : wsEvent) (s : session) : session :=
  let on c := MkSession c (waiting s) (accepted s) in
  match e with
  | WSend op data => settle s (waiting s) (MkOut op data) (WriteMessageContext op data (conn s))
  | WRetry i ctxDone =>
      match waiting s !! i with
      | Some o => settle s (delete i (waiting s)) o (enqueueBlocking o ctxDone (conn s))
      | None => s
      end
  | WPump => on (pumpStep (conn s))
  | WTick => on (pumpTick (conn s))
  | WClosed => on (pumpClosed (conn s))
  | WPong payload => on (writeFrame opcodePong true payload (conn s)).1
  | WMonitor now => on (pongMonitor now (conn s))
  | WWriteClose code reason => on (WriteClose code reason (conn s)).1
  | WClose => on (Close (conn s))
  end.
Definition wsRun (es : list wsEvent) (s : session) : session := foldl (λ s e, wsStep e s) s es.

(** The frames the pump has still to write. *)
Definition pending (c : Conn) : list frame :=
  match pump c with PSend op data offset first => fragsFrom (length data - offset) op data offset first | _ => [] end ++
  mjoin (fragments <$> sendQueue c).

(** The network takes everything, the random source never fails. *)
Definition healthy (c : Conn) : Prop := accepts c = None ∧ ∀ i, ∃ k, rand c i = Some k ∧ length k = 4.

Definition out_ok (o : Outbound) : Prop :=
  isApplicationWriteOpcode (Op o) = true ∧ (Z.of_nat (length (Data o)) < 2 ^ 63)%Z.
Definition event_ok (e : wsEvent) : Prop :=
  match e with
  | WSend _ data => (Z.of_nat (length data) < 2 ^ 63)%Z
  | WPong payload => (Z.of_nat (length payload) ≤ maxControlPayload)%Z
  | _ => True
  end.

Definition pump_ok (p : pumpState) : Prop :=
  match p with PSend op data offset _ => offset < length data ∧ out_ok (MkOut op data) | _ => True end.

(** Everything accepted is on the wire, in frames, or still to be written. *)
Record conn_ok (cl : bool) (acc : list Outbound) (c : Conn) : Prop := {
  co_client : client c = cl;
  co_healthy : healthy c;
  co_pump : pump_ok (pump c);
  co_queue : Forall out_ok (sendQueue c);
  co_wire : closed c = false → pump c ≠ PStopped ∧
    ∃ kfs, Forall (λ kf : keyed, frame_ok kf.2 ∧ key_ok cl kf.1) kfs ∧ out c = wireBytes kfs ∧
      dataOf kfs ++ pending c = mjoin (fragments <$> acc)
}.
Definition session_ok (cl : bool) (s : session) : Prop :=
  conn_ok cl (accepted s) (conn s) ∧ Forall out_ok (waiting s) ∧ Forall out_ok (accepted s).

Lemma write_healthy op fin payload c : healthy c → closed c = false →
  ∃ key d, key_ok (client c) key ∧ writeFrame op fin payload c =
    (withOut (out c ++ frameBytes key (op, fin, payload)) None (withDraws d c), None).
Proof.
  intros [Hnet Hrand] Hcl. unfold writeFrame. rewrite Hcl. destruct (client c) eqn:Hc.
  - destruct (Hrand (draws c)) as (k & -> & Hk). exists (Some k), (S (draws c)). split; [done|].
    unfold wire. simpl. by rewrite Hnet.
  - exists None, (draws c). split; [done|]. unfold wire. rewrite Hnet. simpl. by destruct c.
Qed.

Lemma wireBytes_snoc kfs kf : wireBytes (kfs ++ [kf]) = wireBytes kfs ++ frameBytes kf.1 kf.2.
Proof. unfold wireBytes. rewrite fmap_app, list.join_app. csimpl. by rewrite app_nil_r. Qed.

Lemma dataOf_snoc kfs kf : dataOf (kfs ++ [kf]) = dataOf kfs ++ if is_control kf.2 then [] else [kf.2].
Proof.
  unfold dataOf. rewrite fmap_app, filter_app. csimpl. rewrite filter_cons.
  by destruct (is_control kf.2) eqn:E; case_decide.
Qed.

Lemma conn_ok_closed cl acc acc' c p : conn_ok cl acc c → pump_ok p → closed c = true → conn_ok cl acc' (withPump p c).
Proof. intros [] Hp Hc. split; simpl; try done. by rewrite Hc. Qed.

Lemma withPump_id c : withPump (pump c) c = c.
Proof. by destruct c. Qed.

(** Writing a frame on an open connection: what is on the wire grows by it, and the
    pump's next state [p] and queue [q] have what is left to write. *)
Lemma conn_wrote cl acc c f p q : conn_ok cl acc c → closed c = false → frame_ok f → pump_ok p → p ≠ PStopped →
  Forall out_ok q →
  pending c = (if is_control f then [] else [f]) ++ pending (withPump p (withQueue q c)) →
  ∃ c1, writeFrame f.1.1 f.1.2 f.2 (withQueue q c) = (c1, None) ∧ conn_ok cl acc (withPump p c1) ∧ closed c1 = false.
Proof.
  intros [Hcl Hh Hp Hq Hw] Hc Hf Hp' Hne Hq' Hpend. destruct (Hw Hc) as (_ & kfs & Hkfs & Hout & Hdata).
  destruct f as [[op fin] payload]. cbn [fst snd].
  destruct (write_healthy op fin payload (withQueue q c)) as (key & d & Hkey & ->); [done|done|].
  eexists. split; [done|]. split; [|done]. split; simpl; try done; [by destruct Hh|]. intros _. split; [done|].
  exists (kfs ++ [(key, (op, fin, payload))]). split_and!.
  - apply Forall_app. split; [done|]. apply Forall_singleton. split; [done|]. by rewrite <- Hcl.
  - by rewrite wireBytes_snoc, Hout.
  - rewrite dataOf_snoc, <- app_assoc. rewrite Hpend in Hdata. done.
Qed.

Lemma conn_ok_close cl acc c : conn_ok cl acc c → conn_ok cl acc (Close c).
Proof. intros []. by split. Qed.

Lemma conn_ok_control cl acc c op payload : conn_ok cl acc c → closed c = false → frame_ok (op, true, payload) →
  is_control (op, true, payload) = true →
  ∃ c1, writeFrame op true payload c = (c1, None) ∧ conn_ok cl acc c1 ∧ closed c1 = false ∧ pump c1 = pump c.
Proof.
  intros Hok Hc Hf Hctl. pose proof Hok as [_ _ Hp Hq Hw]. destruct (Hw Hc) as [Hne _].
  destruct (conn_wrote cl acc c (op, true, payload) (pump c) (sendQueue c)) as (c1 & Hwr & Hok1 & Hc1); try done.
  { by rewrite Hctl. }
  replace (withQueue (sendQueue c) c) with c in Hwr by (by destruct c). simpl in Hwr.
  exists c1. split; [done|].
  destruct (writeFrame_shape op true payload c) as (o & a & d & Hs). rewrite Hwr in Hs. simpl in Hs.
  assert (Hpump : pump c1 = pump c) by by rewrite Hs. split; [|done]. by rewrite <- (withPump_id c1), Hpump.
Qed.

Lemma writeFrame_closed op fin payload c : closed c = true → writeFrame op fin payload c = (c, Some ErrNet).
Proof. intros Hc. unfold writeFrame. by rewrite Hc. Qed.

Lemma conn_ok_pumpStop cl acc c : conn_ok cl acc c → conn_ok cl acc (pumpStop c).
Proof. intros H. by eapply conn_ok_closed; [apply conn_ok_close|..]. Qed.

Lemma pumpTick_ok cl acc c : conn_ok cl acc c → conn_ok cl acc (pumpTick c).
Proof.
  intros Hok. unfold pumpTick. destruct (pump c) eqn:Hp; [|done..]. destruct (closed c) eqn:Hc.
  - rewrite writeFrame_closed by done. by apply conn_ok_pumpStop.
  - by destruct (conn_ok_control cl acc c opcodePing (str "ping") Hok Hc) as (c1 & -> & ? & _).
Qed.

(** ** The pump *)

Lemma fragsFrom_fuel fuel op data offset first : offset < length data → length data - offset ≤ fuel →
  fragsFrom fuel op data offset first = fragsFrom (length data - offset) op data offset first.
Proof.
  assert (H : ∀ n fuel offset first, offset < length data → length data - offset ≤ n → length data - offset ≤ fuel →
    fragsFrom fuel op data offset first = fragsFrom n op data offset first); [|intros; by apply H].
  clear. pose proof maxFragmentSize_pos as Hmax.
  induction n as [|n IH]; intros fuel offset first Ho Hn Hf; [lia|]. destruct fuel as [|fuel]; [lia|]. cbn [fragsFrom].
  f_equal. case_match eqn:He; [|done]. apply Nat.ltb_lt in He.
  destruct (Nat.ltb_spec (length data) (offset + maxFragmentSize)) in *; apply IH; lia.
Qed.

Lemma data_frame_ok op fin payload : op = opcodeContinuation ∨ isApplicationWriteOpcode op = true →
  (Z.of_nat (length payload) < 2 ^ 63)%Z → frame_ok (op, fin, payload) ∧ is_control (op, fin, payload) = false.
Proof. by intros [->|[->| ->]%app_opcode] Hl. Qed.

Lemma pumpFragment_ok cl acc c op data offset first : conn_ok cl acc c → closed c = false →
  pump c = PSend op data offset first →
  conn_ok cl acc (pumpFragment op data offset first c) ∧ closed (pumpFragment op data offset first c) = false ∧
  length (pending (pumpFragment op data offset first c)) < length (pending c) ∧
  sendQueue (pumpFragment op data offset first c) = sendQueue c.
Proof.
  intros Hok Hc Hp. pose proof Hok as [_ _ Hpo Hq _]. rewrite Hp in Hpo. destruct Hpo as [Ho [Hop Hlen]]. simpl in Hop, Hlen.
  unfold pumpFragment. pose proof maxFragmentSize_pos as Hmax.
  set (end_ := if length data <? offset + maxFragmentSize then length data else offset + maxFragmentSize).
  assert (He : offset < end_ ≤ length data).
  { unfold end_. destruct (Nat.ltb_spec (length data) (offset + maxFragmentSize)); lia. }
  set (f := (if first then op else opcodeContinuation, end_ =? length data, take (end_ - offset) (drop offset data))).
  set (p := if end_ <? length data then PSend op data end_ false else PIdle).
  destruct (data_frame_ok f.1.1 f.1.2 f.2) as [Hf Hctl].
  { unfold f. simpl. destruct first; auto. }
  { unfold f. simpl. rewrite length_take, length_drop. lia. }
  change (f.1.1, f.1.2, f.2) with f in Hf, Hctl.
  assert (Hpend : pending c = [f] ++ pending (withPump p (withQueue (sendQueue c) c))).
  { unfold pending at 1. rewrite Hp. destruct (length data - offset) as [|fuel] eqn:Hfuel; [lia|]. cbn [fragsFrom].
    fold end_. unfold pending, p. simpl. f_equal. destruct (Nat.ltb_spec end_ (length data)) as [Hlt|]; [|done].
    by rewrite fragsFrom_fuel by lia. }
  destruct (conn_wrote cl acc c f p (sendQueue c)) as (c1 & Hwr & Hok1 & Hc1).
  { done. } { done. } { done. } { unfold p. by destruct (Nat.ltb_spec end_ (length data)). } { unfold p. by case_match. } { done. }
  { by rewrite Hctl. }
  replace (withQueue (sendQueue c) c) with c in * by (by destruct c).
  change (take _ _) with f.2. change (end_ =? length data) with f.1.2. change (if first then _ else _) with f.1.1.
  destruct (writeFrame_shape f.1.1 f.1.2 f.2 c) as (o & a & d & Hs). rewrite Hwr in *. simpl in Hs.
  split; [done|]. split; [done|]. rewrite Hpend, Hs. unfold pending. simpl. split; [lia|done].
Qed.

Lemma fragments_ne o : fragments o ≠ [].
Proof. destruct (fragments_ok o) as [_ H]. by intros Hn; rewrite Hn in H. Qed.

(** On an open connection a turn of the pump writes a frame or picks up a message. *)
Definition idle (c : Conn) : Prop := pump c = PIdle ∧ sendQueue c = [].
Definition workload (c : Conn) : nat := 2 * length (pending c) + length (sendQueue c).

Lemma pumpStep_ok cl acc c : conn_ok cl acc c →
  conn_ok cl acc (pumpStep c) ∧
  (closed c = false → closed (pumpStep c) = false ∧ (idle c ∨ workload (pumpStep c) < workload c)).
Proof.
  intros Hok. pose proof Hok as [_ _ Hpo Hq Hw]. unfold pumpStep. destruct (pump c) as [|op data offset first|] eqn:Hp.
  - destruct (sendQueue c) as [|o q] eqn:Hsq; [by unfold idle; auto|]. apply Forall_cons in Hq as [[Hop Hlen] Hq].
    destruct (Nat.leb_spec (length (Data o)) maxFragmentSize) as [Hle|Hgt].
    + destruct (closed c) eqn:Hc.
      { rewrite writeFrame_closed by done. split; [|done]. destruct Hok. split; simpl; try done. }
      destruct (data_frame_ok (Op o) true (Data o)) as [Hf Hctl]; [by right|done|].
      assert (Hpend : pending c = [(Op o, true, Data o)] ++ pending (withPump PIdle (withQueue q c))).
      { unfold pending. rewrite Hp, Hsq. csimpl. unfold fragments. by rewrite (proj2 (Nat.leb_le _ _)). }
      destruct (conn_wrote cl acc c (Op o, true, Data o) PIdle q) as (c1 & Hwr & Hok1 & Hc1); try done.
      { by rewrite Hctl. }
      simpl in Hwr. destruct (writeFrame_shape (Op o) true (Data o) (withQueue q c)) as (ou & a & d & Hs).
      rewrite Hwr in *. simpl in Hs. assert (Hpump : pump c1 = PIdle) by by rewrite Hs.
      rewrite <- (withPump_id c1), Hpump. split; [done|]. intros _. split; [done|]. right.
      unfold workload. rewrite Hpend, Hsq, Hs. unfold pending. simpl. lia.
    + assert (Hpend : pending (withPump (PSend (Op o) (Data o) 0 true) (withQueue q c)) = pending c).
      { unfold pending. rewrite Hp, Hsq. csimpl. unfold fragments. rewrite (proj2 (Nat.leb_gt _ _)) by done.
        by rewrite Nat.sub_0_r. }
      split; [|intros Hc; split; [done|right; unfold workload; rewrite Hpend, Hsq; simpl; lia]].
      destruct Hok as [? ? ? ? Hwire]. split; simpl; try done; [split; [lia|done]|].
      intros Hc. destruct (Hwire Hc) as (_ & kfs & ? & ? & ?). split; [done|]. exists kfs. by rewrite Hpend.
  - destruct (closed c) eqn:Hc.
    + unfold pumpFragment. rewrite writeFrame_closed by done. split; [by apply conn_ok_pumpStop|done].
    + destruct (pumpFragment_ok cl acc c op data offset first Hok Hc Hp) as (Hok' & Hc' & Hlt & Hsq). split; [done|].
      intros _. split; [done|]. right. unfold workload. rewrite Hsq. lia.
  - split; [done|]. intros Hc. destruct (Hw Hc) as [? _]. done.
Qed.

Lemma pump_drains cl acc c : conn_ok cl acc c → closed c = false →
  ∃ n, let c' := Nat.iter n pumpStep c in idle c' ∧ conn_ok cl acc c' ∧ closed c' = false.
Proof.
  remember (workload c) as w eqn:Hw. revert c Hw. induction (lt_wf w) as [w _ IH]. intros c -> Hok Hc.
  destruct (pumpStep_ok cl acc c Hok) as [Hok1 H1]. destruct (H1 Hc) as [Hc1 [Hidle|Hlt]]; [by exists 0|].
  destruct (IH _ Hlt (pumpStep c) eq_refl Hok1 Hc1) as [n Hn]. exists (S n). by rewrite Nat.iter_succ_r.
Qed.

(** ** Every event keeps the balance *)

Lemma conn_ok_enqueue cl acc c o : conn_ok cl acc c → out_ok o →
  conn_ok cl (acc ++ [o]) (withQueue (sendQueue c ++ [o]) c).
Proof.
  intros [? ? ? ? Hw] Ho. split; simpl; try done; [apply Forall_app; by rewrite Forall_singleton|].
  intros Hc. destruct (Hw Hc) as (? & kfs & ? & ? & Hdata). split; [done|]. exists kfs. split; [done|]. split; [done|].
  rewrite fmap_app, list.join_app, <- Hdata. unfold pending. simpl.
  by rewrite fmap_app, list.join_app, <- !app_assoc.
Qed.

Lemma send_ok cl s op data : session_ok cl s → (Z.of_nat (length data) < 2 ^ 63)%Z →
  session_ok cl (settle s (waiting s) (MkOut op data) (WriteMessageContext op data (conn s))).
Proof.
  intros (Hok & Hwait & Hacc) Hlen. unfold WriteMessageContext, tryEnqueue.
  destruct (isApplicationWriteOpcode op) eqn:Hop; [|done]. simpl.
  destruct (closed (conn s)); [done|]. destruct (hasRoom (conn s)); simpl.
  - split; [by apply conn_ok_enqueue|]. split; [done|]. apply Forall_app. by rewrite Forall_singleton.
  - destruct (sendBehavior (conn s)); simpl; [|done|].
    + split; [done|]. split; [|done]. by apply Forall_cons.
    + by split; [apply conn_ok_close|].
Qed.

Lemma retry_ok cl s i o ctxDone : session_ok cl s → waiting s !! i = Some o →
  session_ok cl (settle s (delete i (waiting s)) o (enqueueBlocking o ctxDone (conn s))).
Proof.
  intros (Hok & Hwait & Hacc) Hi. unfold enqueueBlocking. pose proof (Forall_lookup_1 _ _ _ _ Hwait Hi) as Ho.
  assert (Hdel : Forall out_ok (delete i (waiting s))) by by apply Forall_delete.
  destruct (closed (conn s)); [done|]. destruct ctxDone; [done|]. destruct (hasRoom (conn s)); simpl.
  - split; [by apply conn_ok_enqueue|]. split; [done|]. apply Forall_app. by rewrite Forall_singleton.
  - split; [done|]. split; [|done]. by apply Forall_cons.
Qed.

Lemma writeClose_ok cl acc c code reason : conn_ok cl acc c → conn_ok cl acc (WriteClose code reason c).1.
Proof.
  intros Hok. unfold WriteClose. destruct (closed c) eqn:Hc; [done|]. do 3 (case_match; [done|]).
  destruct Hok as [Hcl Hh Hp Hq Hw].
  destruct (write_healthy opcodeClose true (be_put 2 code ++ reason) c Hh Hc) as (k & d & _ & ->).
  split; simpl; try done. by destruct Hh.
Qed.

Lemma wsStep_ok cl s e : session_ok cl s → event_ok e → session_ok cl (wsStep e s).
Proof.
  intros (Hok & Hwait & Hacc) He. destruct e as [op data|i ctxDone| | | |payload|now|code reason|]; simpl in *.
  - by apply send_ok.
  - destruct (waiting s !! i) as [o|] eqn:Hi; [|done]. by apply retry_ok.
  - split; [by apply pumpStep_ok|done].
  - split; [by apply pumpTick_ok|done].
  - split; [|done]. unfold pumpClosed. simpl. case_match; try done. case_match; [|done]. by eapply conn_ok_closed.
  - split; [|done]. destruct (closed (conn s)) eqn:Hc; [by rewrite writeFrame_closed|]. simpl.
    destruct (conn_ok_control cl (accepted s) (conn s) opcodePong payload Hok Hc) as (c1 & -> & ? & _); [|done|done].
    split; [done|]. unfold checkControl. simpl. rewrite (proj2 (Z.ltb_ge _ _)) by done. split; [done|]. unfold maxControlPayload in *. lia.
  - split; [|done]. unfold pongMonitor. case_match; [by apply conn_ok_close|done].
  - split; [by apply writeClose_ok|done].
  - split; [by apply conn_ok_close|done].
Qed.

Lemma wsRun_ok cl es s : session_ok cl s → Forall event_ok es → session_ok cl (wsRun es s).
Proof. intros Hs Hes. revert s Hs. induction Hes as [|e es He _ IH]; intros s Hs; [done|]. by apply IH, wsStep_ok. Qed.

Lemma payload_le f fs : f ∈ fs → length (payloadOf f) ≤ length (payloads fs).
Proof.
  unfold payloads. induction fs as [|f' fs IH]; [by intros ?%not_elem_of_nil|].
  intros [->|Hin]%elem_of_cons; csimpl; rewrite length_app; [lia|]. specialize (IH Hin). lia.
Qed.

Lemma control_short f : frame_ok f → is_control f = true → (Z.of_nat (length (payloadOf f)) ≤ maxControlPayload)%Z.
Proof.
  destruct f as [[op fin] p]. unfold frame_ok, payloadOf, checkControl. intros (_ & Hctl & _) Hc.
  destruct (is_control_cases _ Hc) as [Heq|Heq]; unfold opOf in Heq; simpl in *; subst op; simpl in Hctl;
    destruct fin; simpl in Hctl; try done; by destruct (Z.ltb_spec maxControlPayload (Z.of_nat (length p))).
Qed.

Lemma readable_frames peer cl kfs ms : client peer = negb cl →
  Forall (λ kf : keyed, frame_ok kf.2 ∧ key_ok cl kf.1) kfs → dataOf kfs = mjoin (fragments <$> ms) →
  Forall (message_fits peer) ms → (maxControlPayload ≤ readLimit (settings peer))%Z → Forall (readable peer) kfs.
Proof.
  intros Hcl Hkfs Hdata Hms Hlim. apply Forall_forall. intros kf Hkf.
  rewrite Forall_forall in Hkfs. destruct (Hkfs kf Hkf) as [Hf Hk]. split; [done|]. rewrite Hcl, negb_involutive.
  split; [done|]. destruct (is_control kf.2) eqn:Hctl; [etrans; [by apply control_short|done]|].
  assert (Hin : kf.2 ∈ dataOf kfs).
  { unfold dataOf. apply list_elem_of_filter. split; [done|]. by apply list_elem_of_fmap_2. }
  rewrite Hdata in Hin. apply list_elem_of_join in Hin as (fs & Hin & Hfs).
  apply list_elem_of_fmap in Hfs as (o & -> & Ho). rewrite Forall_forall in Hms. destruct (Hms o Ho) as [_ Hfit].
  apply payload_le in Hin. rewrite (proj1 (fragments_ok o)) in Hin. lia.
Qed.

(** A new connection, with nothing sent. *)
Definition open (cl : bool) rnd (queueSize : Z) (behavior : SendBehavior) (now : Z) : session :=
  MkSession (newConnFromHijack [] WEOF None rnd queueSize behavior cl now) [] [].

(** C7: messages arrive as they were sent. After any history of sends (some of them
    waiting for room, some refused), turns of the writer pump, pings, pongs of at most
    125 bytes written by another goroutine between the fragments and changes of mind, as
    long as the connection is open, the source of mask keys never fails and the network
    takes every write: once the pump has run on for a while, the peer at the other end,
    server or client, reads back exactly the accepted messages, whole, with their
    opcodes and in order, however it sizes its reads and whatever follows, provided that
    its read limit is at least 125 bytes and none of the messages exceeds it (a longer
    one is refused by the peer). *)
Theorem ws_end_to_end es cl rnd queueSize behavior now :
  (∀ i, ∃ k, rnd i = Some k ∧ length k = 4) → Forall event_ok es →
  let s := wsRun es (open cl rnd queueSize behavior now) in
  closed (conn s) = false →
  ∃ n, let c := Nat.iter n pumpStep (conn s) in sendQueue c = [] ∧ pump c = PIdle ∧
    ∀ peer rest sizes now', client peer = negb cl → closed peer = false → inp peer = out c ++ rest →
      (∀ i, 0 < sizes i) → (maxControlPayload ≤ readLimit (settings peer))%Z →
      Forall (λ o, (Z.of_nat (length (Data o)) ≤ readLimit (settings peer))%Z) (accepted s) →
      ∃ peer', readMessages sizes now' (length (accepted s)) peer = Some (peer', (λ o, Ok (Op o, Data o)) <$> accepted s).
Proof.
  intros Hrnd Hes s Hc. assert (Hs : session_ok cl s).
  { apply wsRun_ok; [|done]. split; [|done]. split; simpl; try done. intros _. split; [done|]. by exists []. }
  destruct Hs as (Hok & _ & Hacc). destruct (pump_drains cl (accepted s) (conn s) Hok Hc) as (n & [Hp Hq] & Hok' & Hc').
  exists n. intros c. split; [done|]. split; [done|]. intros peer rest sizes now' Hcl Hcp Hi Hsz Hlim Hfit.
  destruct Hok' as [_ _ _ _ Hw]. destruct (Hw Hc') as (_ & kfs & Hkfs & Hout & Hdata). fold c in Hp, Hq, Hdata, Hout.
  unfold pending in Hdata. rewrite Hp, Hq, app_nil_r in Hdata. rewrite Hout in Hi.
  assert (Hms : Forall (message_fits peer) (accepted s)).
  { rewrite Forall_forall in *. intros o Ho. split; [by apply Hacc|by apply Hfit]. }
  by eapply readMessages_ok; [..|eapply readable_frames| |].
Qed.

(** C29: reading is bounded and ends, whatever the peer sends: [ReadMessage] returns on
    any input, and a message it delivers is a text or binary message no longer than
    the read limit. *)
Theorem ws_read_bounded sizes now c : (∀ i, 0 < sizes i) → (0 ≤ readLimit (settings c))%Z →
  ∃ c' r, ReadMessage sizes now c = Some (c', r) ∧
    ∀ op data, r = Ok (op, data) → (op = OpcodeText ∨ op = OpcodeBinary) ∧
      (Z.of_nat (length data) ≤ readLimit (settings c))%Z.
Proof. intros Hs Hl. destruct (ReadMessage_total sizes now c Hs Hl) as (c' & r & ? & _ & ?). by exists c', r. Qed.

(** ** Messages that are cut short *)

Lemma copy_drain fuel sizes now i acc op rb b c c' sr' : (∀ i, 0 < sizes i) → length b < fuel →
  pull now (MkReader true op [] false None rb) c = (c', sr', Some WEOF) →
  copyLoop fuel i sizes now acc (MkReader true op b false None rb) c = Some (c', sr', Ok (acc ++ b)).
Proof.
  intros Hs Hf Hp. revert i acc b Hf. induction fuel as [|fuel IH]; intros i acc b Hf; [lia|].
  cbn [copyLoop]. unfold Read. cbn [attached negb readLoop buf done_]. destruct b as [|x b].
  - rewrite Hp. cbn [mbind option_bind]. by rewrite decide_True.
  - cbn [mbind option_bind attached srOp readErr readBytes]. rewrite IH.
    + by rewrite <- app_assoc, take_drop.
    + specialize (Hs i). rewrite length_drop. simpl in *. lia.
Qed.

(** The input after the first fragment: nothing at all, or a close frame. *)
Definition cut_short (c : Conn) (bs : gostring) : Prop :=
  (bs = [] ∧ inEnd c = WEOF) ∨
  ∃ k payload rest, readable c (k, (opcodeClose, true, payload)) ∧ bs = wireBytes [(k, (opcodeClose, true, payload))] ++ rest.

Lemma pull_cut now op rb c : op ≠ 0%N → cut_short c (inp c) →
  ∃ c' sr', pull now (MkReader true op [] false None rb) c = (c', sr', Some WEOF) ∧ done_ sr' = true.
Proof.
  intros Hop [[Hi He]|(k & p & rest & Hrd & Hi)]; unfold pull.
  - unfold readFrame, readN. rewrite Hi, He. simpl. by eexists _, _.
  - rewrite (read_wire _ _ [] rest Hrd) by done. simpl. by eexists _, _.
Qed.

(** A message that is cut short is delivered as if it were whole: when the first
    fragment of a message is followed by a close frame, or when the connection ends
    cleanly there, [ReadMessage] returns the fragment's payload as a complete message
    and no error. *)
Theorem ws_cut_short_delivered sizes now k op payload c bs :
  (∀ i, 0 < sizes i) → op = OpcodeText ∨ op = OpcodeBinary → closed c = false →
  readable c (k, (op, false, payload)) → inp c = wireBytes [(k, (op, false, payload))] ++ bs → cut_short c bs →
  ∃ c', ReadMessage sizes now c = Some (c', Ok (op, payload)).
Proof.
  intros Hs Hop Hcl Hrd Hi Hcut. unfold ReadMessage, ReadMessageReader. rewrite Hcl. cbn [firstFrame].
  rewrite (read_wire _ _ [] bs Hrd Hi). unfold appendPayload. destruct Hrd as (_ & _ & Hlim). unfold payloadOf in Hlim.
  simpl in Hlim. cbn [snd readBytes settings withInp buf attached srOp done_ readErr wireBytes fmap list_fmap mjoin list_join app].
  rewrite (proj2 (Z.ltb_ge _ _)), andb_false_r by lia.
  replace ((op =? OpcodeText)%N || (op =? OpcodeBinary)%N) with true by (by destruct Hop as [->| ->]).
  cbn [mbind option_bind setOp attached buf done_ readErr readBytes].
  destruct (pull_cut now op (0 + Z.of_nat (length payload)) (withInp bs c)) as (c' & sr' & Hp & Hd).
  { by destruct Hop as [->| ->]. } { done. }
  unfold setOp. cbn [attached buf done_ readErr readBytes]. rewrite (copy_drain _ _ _ _ _ _ _ _ _ c' sr'); [|done|lia|done].
  cbn [mbind option_bind]. unfold CloseReader. rewrite Hd, andb_false_r. simpl. by eexists.
Qed.

(** ** Concrete instances *)

Definition demoKey : nat → option gostring := λ _, Some (str "key!").
Definition demoEvents : list wsEvent :=
  [WSend OpcodeText (str "hello"); WTick; WSend OpcodeBinary (str "x"); WPump; WPong (str "p")].
Definition demoSession : session := wsRun demoEvents (open true demoKey 4 SendDrop 0).

Lemma ws_end_to_end_witness : ∃ n, let c := Nat.iter n pumpStep (conn demoSession) in
  ∃ peer', readMessages (λ _, 3) 0 2 (newConnFromHijack (out c) WEOF None (λ _, None) 1 SendBlock false 0) =
    Some (peer', [Ok (OpcodeText, str "hello"); Ok (OpcodeBinary, str "x")]).
Proof.
  destruct (ws_end_to_end demoEvents true demoKey 4 SendDrop 0) as (n & _ & _ & Hread).
  - intros i. by eexists.
  - repeat constructor; vm_compute; done.
  - reflexivity.
  - exists n. intros c. destruct (Hread (newConnFromHijack (out c) WEOF None (λ _, None) 1 SendBlock false 0) [] (λ _, 3) 0%Z)
      as [peer' Hr]; [done|done|by rewrite app_nil_r|lia|vm_compute; done|repeat constructor; vm_compute; done|].
    exists peer'. exact Hr.
Defined.

Lemma ws_read_bounded_witness :
  let c := newConnFromHijack (str "garbage") WEOF None (λ _, None) 1 SendBlock false 0 in
  ∃ c' r, ReadMessage (λ _, 512) 0 c = Some (c', r).
Proof.
  intros c. destruct (ws_read_bounded (λ _, 512) 0 c) as (c' & r & Hr & _); [lia|vm_compute; done|]. by exists c', r.
Defined.

Definition demoCut : gostring := wireBytes [(demoKey 0, (OpcodeText, false, str "half a mess"))].
Lemma ws_cut_short_delivered_witness :
  let c := newConnFromHijack demoCut WEOF None (λ _, None) 1 SendBlock false 0 in
  ∃ c', ReadMessage (λ _, 512) 0 c = Some (c', Ok (OpcodeText, str "half a mess")).
Proof.
  intros c. apply (ws_cut_short_delivered (λ _, 512) 0 (demoKey 0) OpcodeText (str "half a mess") c []).
  - lia.
  - by left.
  - reflexivity.
  - vm_compute. done.
  - vm_compute. reflexivity.
  - by left.
Defined.
