(* ===== verification/Quota.v ===== *)
(** * Tenant quotas ([x/tenant/core/quota*.go], [config.go], [x/tenant/quota/middleware.go])

    Three managers decide whether a tenant's request fits its quota. The fixed-window
    manager counts in one calendar window, the window manager reserves usage in several
    windows of a store and rolls the reservations back when one is refused, and the
    sliding manager counts what the last minute holds.

    An instant is a number of nanoseconds since the zero [time.Time]. What a call reads
    from the clock is an argument: the time it takes for a request without one, the
    readings of the store's clean-up and the one the retry delay is computed from. *)

From stdpp Require Import options.
From S2P Require Import Prelude GoStrings GoNumbers GoTime.
#[local] Open Scope Z_scope.
#[local] Open Scope plumego_scope.

Module Quota.

(** The package's errors, and those of a provider or a store. *)
Inductive qErr :=
| ErrTenantNotFound | ErrInvalidTenantID | ErrPolicyDenied | ErrQuotaExceeded | ErrRateLimitExceeded
| ErrRoutePolicyNotFound | ErrUnsupportedQuotaWindow | ErrOther (n : Z).
#[export] Instance qErr_eq_dec : EqDecision qErr.
Proof. solve_decision. Defined.

(** ** Times *)

Definition IsZero (t : Z) : bool := t =? 0.
Definition timeMinute : Z := 60 * nanosPerSecond.
Definition timeHour : Z := 3600 * nanosPerSecond.
(** [t.Truncate(d)] *)
Definition Truncate (t d : Z) : Z := t - t mod d.
(** [t.Sub(u)] stays within [time.Duration]. *)
Definition Sub (t u : Z) : Z := int64_min `max` ((t - u) `min` int64_max).
Definition seconds_of (t : Z) : Z := t / nanosPerSecond.
(** [time.Date] at midnight UTC. *)
Definition DateNs (year month day : Z) : Z := Date year month day 0 0 0 * nanosPerSecond.

(** ** Limits and requests *)

Definition QuotaWindow := gostring.
Definition QuotaWindowMinute : QuotaWindow := str "minute".
Definition QuotaWindowHour : QuotaWindow := str "hour".
Definition QuotaWindowDay : QuotaWindow := str "day".
Definition QuotaWindowMonth : QuotaWindow := str "month".

Record QuotaLimit := MkLimit { Window : QuotaWindow; LimRequests : Z; LimTokens : Z }.
Record QuotaConfig := MkQuota { Limits : list QuotaLimit }.
Record QuotaRequest := MkRequest { Requests : Z; Tokens : Z; Now : Z }.
Record QuotaResult := MkResult { Allowed : bool; RemainingRequests : Z; RemainingTokens : Z; RetryAfter : Z }.
#[export] Instance QuotaResult_eq_dec : EqDecision QuotaResult.
Proof. solve_decision. Defined.

(** A decision: the result and the error next to it. *)
Definition decision : Type := QuotaResult * option qErr.
Definition allowedFree : decision := (MkResult true 0 0 0, None).
Definition refusedWith (e : qErr) : decision := (MkResult false 0 0 0, Some e).

Definition normalizeQuotaRequest (clk : Z) (req : QuotaRequest) : QuotaRequest :=
  MkRequest (if Requests req <=? 0 then 1 else Requests req) (Tokens req) (if IsZero (Now req) then clk else Now req).

Definition isValidQuotaWindow (w : QuotaWindow) : bool :=
  bool_decide (w = QuotaWindowMinute) || bool_decide (w = QuotaWindowHour) ||
  bool_decide (w = QuotaWindowDay) || bool_decide (w = QuotaWindowMonth).

Definition normalizeQuotaLimits (cfg : QuotaConfig) : list QuotaLimit :=
  filter (λ l, isValidQuotaWindow (Window l) = true) (Limits cfg).

Definition quotaWindowStart (now : Z) (w : QuotaWindow) : Z :=
  let s := seconds_of now in
  if decide (w = QuotaWindowHour) then Truncate now timeHour
  else if decide (w = QuotaWindowDay) then DateNs (Year s) (Month s) (Day s)
  else if decide (w = QuotaWindowMonth) then DateNs (Year s) (Month s) 1
  else Truncate now timeMinute.

Definition quotaWindowEnd (start : Z) (w : QuotaWindow) : Z :=
  if decide (w = QuotaWindowHour) then start + timeHour
  else if decide (w = QuotaWindowDay) then start + 24 * timeHour
  else if decide (w = QuotaWindowMonth) then
    AddDate 0 1 0 (seconds_of start) * nanosPerSecond + start mod nanosPerSecond
  else start + timeMinute.

Definition remaining (limit used : Z) : Z :=
  if limit <=? 0 then -1
  else let remain := wrap64 (limit - used) in if remain <? 0 then 0 else remain.

Definition notNegative (d : Z) : Z := if d <? 0 then 0 else d.

(** ** Configurations *)

Record PolicyConfig := MkPolicy {
  AllowedModels : list gostring; AllowedTools : list gostring; AllowedMethods : list gostring; AllowedPaths : list gostring }.
Record RateLimitConfig := MkRate { RequestsPerSecond : Z; Burst : Z }.
Record Config := MkConfig {
  TenantID : gostring; TenantQuota : QuotaConfig; Policy : PolicyConfig; RateLimit : RateLimitConfig;
  Metadata : gmap gostring gostring; UpdatedAt : Z }.
Record InMemoryConfigManager := MkConfigs { configs : gmap gostring Config }.
Definition NewInMemoryConfigManager : InMemoryConfigManager := MkConfigs ∅.
Definition SetTenantConfig (clk : Z) (cfg : Config) (m : InMemoryConfigManager) : InMemoryConfigManager :=
  MkConfigs (<[TenantID cfg := MkConfig (TenantID cfg) (TenantQuota cfg) (Policy cfg) (RateLimit cfg) (Metadata cfg) clk]> (configs m)).
Definition GetTenantConfig (m : InMemoryConfigManager) (tenantID : gostring) : result qErr Config :=
  match configs m !! tenantID with Some cfg => Ok cfg | None => Err ErrTenantNotFound end.
Definition QuotaConfigOf (m : InMemoryConfigManager) (tenantID : gostring) : result qErr QuotaConfig :=
  let? cfg := GetTenantConfig m tenantID in Ok (TenantQuota cfg).

Definition PolicyConfigOf (m : InMemoryConfigManager) (tenantID : gostring) : result qErr PolicyConfig :=
  let? cfg := GetTenantConfig m tenantID in Ok (Policy cfg).
Definition RateLimitConfigOf (m : InMemoryConfigManager) (tenantID : gostring) : result qErr RateLimitConfig :=
  let? cfg := GetTenantConfig m tenantID in Ok (RateLimit cfg).

(** What the managers ask of their provider. *)
Definition QuotaConfigProvider : Type := gostring → result qErr QuotaConfig.

(** ** Policies *)

Record PolicyRequest := MkPolicyRequest { Model : gostring; Tool : gostring; Method : gostring; Path : gostring }.
Inductive denial := ModelNotAllowed | ToolNotAllowed | MethodNotAllowed | PathNotAllowed | ProviderFailed (e : qErr).

Definition allowedInList (list_ : list gostring) (value : gostring) : bool :=
  bool_decide (list_ = []) || bool_decide (value = []) || existsb (λ item, bool_decide (item = value)) list_.

(** A pattern with a trailing star is a prefix, any other is the path itself. *)
Definition patternAllows (path pattern : gostring) : bool :=
  if bool_decide (str "*" `suffix_of` pattern) then bool_decide (take (length pattern - 1) pattern `prefix_of` path) else bool_decide (pattern = path).
Definition pathAllowed (allowedPaths : list gostring) (path : gostring) : bool :=
  bool_decide (allowedPaths = []) || bool_decide (path = []) || existsb (patternAllows path) allowedPaths.

(** The reason and the error of a refusal, or nothing. *)
Definition Evaluate (provider : gostring → result qErr PolicyConfig) (tenantID : gostring) (req : PolicyRequest) :
    option (denial * qErr) :=
  match provider tenantID with
  | Err e => Some (ProviderFailed e, e)
  | Ok cfg =>
      if negb (allowedInList (AllowedModels cfg) (Model req)) then Some (ModelNotAllowed, ErrPolicyDenied)
      else if negb (allowedInList (AllowedTools cfg) (Tool req)) then Some (ToolNotAllowed, ErrPolicyDenied)
      else if negb (allowedInList (AllowedMethods cfg) (Method req)) then Some (MethodNotAllowed, ErrPolicyDenied)
      else if negb (pathAllowed (AllowedPaths cfg) (Path req)) then Some (PathNotAllowed, ErrPolicyDenied)
      else None
  end.

(** ** One fixed window *)

Record quotaCounter := MkCounter { windowStart : Z; windowEnd : Z; requests : Z; tokens : Z }.
Record FixedWindowQuotaManager := MkFixed { counters : gmap gostring quotaCounter; lastEviction : Z }.
Definition NewFixedWindowQuotaManager (clk : Z) : FixedWindowQuotaManager := MkFixed ∅ clk.
Definition evictionInterval : Z := timeMinute.

Definition evictStaleLocked (now : Z) (m : FixedWindowQuotaManager) : FixedWindowQuotaManager :=
  if Sub now (lastEviction m) <? evictionInterval then m
  else MkFixed (filter (λ kc, ¬ windowEnd kc.2 < now) (counters m)) now.

(** Both managers' test of the next totals against a limit. *)
Definition exceeds (limitRequests limitTokens nextRequests nextTokens : Z) : bool :=
  ((0 <? limitRequests) && (limitRequests <? nextRequests)) || ((0 <? limitTokens) && (limitTokens <? nextTokens)).

(** [clk] is read when the request has no time, [clk2] for the retry delay. *)
Definition AllowFixed (provider : QuotaConfigProvider) (clk clk2 : Z) (tenantID : gostring) (req : QuotaRequest)
    (m : FixedWindowQuotaManager) : FixedWindowQuotaManager * decision :=
  match provider tenantID with
  | Err e => (m, refusedWith e)
  | Ok cfg =>
      let req := normalizeQuotaRequest clk req in
      match normalizeQuotaLimits cfg with
      | [] => (m, allowedFree)
      | limit :: _ =>
          if (LimRequests limit <=? 0) && (LimTokens limit <=? 0) then (m, allowedFree)
          else
            let start := quotaWindowStart (Now req) (Window limit) in
            let m := evictStaleLocked (Now req) m in
            let fresh := MkCounter start (quotaWindowEnd start (Window limit)) 0 0 in
            let counter := match counters m !! tenantID with
                           | Some c => if windowStart c =? start then c else fresh
                           | None => fresh
                           end in
            let nextRequests := wrap64 (requests counter + Requests req) in
            let nextTokens := wrap64 (tokens counter + Tokens req) in
            if exceeds (LimRequests limit) (LimTokens limit) nextRequests nextTokens then
              (MkFixed (<[tenantID := counter]> (counters m)) (lastEviction m),
               (MkResult false (remaining (LimRequests limit) (requests counter)) (remaining (LimTokens limit) (tokens counter))
                  (notNegative (Sub (windowEnd counter) clk2)), Some ErrQuotaExceeded))
            else
              (MkFixed (<[tenantID := MkCounter (windowStart counter) (windowEnd counter) nextRequests nextTokens]> (counters m))
                 (lastEviction m),
               (MkResult true (remaining (LimRequests limit) nextRequests) (remaining (LimTokens limit) nextTokens) 0, None))
      end
  end.

(** ** Several windows of a store *)

Record quotaKey := MkKey { kTenant : gostring; kWindow : QuotaWindow; kStart : Z }.
#[export] Instance quotaKey_eq_dec : EqDecision quotaKey.
Proof. solve_decision. Defined.
#[export] Instance quotaKey_countable : Countable quotaKey.
Proof.
  refine (inj_countable' (λ k, (kTenant k, kWindow k, kStart k)) (λ '(t, w, s), MkKey t w s) _). by intros [].
Defined.

Record QuotaUsage := MkUsage { WindowStart : Z; WindowEnd : Z; UsedRequests : Z; UsedTokens : Z }.
Record QuotaReserveRequest := MkReserve {
  rKey : quotaKey; DeltaRequests : Z; DeltaTokens : Z; LimitRequests : Z; LimitTokens : Z }.
Record QuotaReleaseRequest := MkRelease { lKey : quotaKey; ReleaseRequests : Z; ReleaseTokens : Z }.

(** The interface the manager calls; [usedIn] is what the store holds for a window. *)
Class QuotaStore (S : Type) := {
  Reserve : Z → QuotaReserveRequest → S → S * (QuotaUsage * bool * option qErr);
  Release : QuotaReleaseRequest → S → S * option qErr;
  usedIn : S → quotaKey → Z * Z;
}.

Definition minRemaining (current candidate : Z) : Z :=
  if candidate <? 0 then current
  else if current <? 0 then candidate
  else if candidate <? current then candidate else current.

Section window_manager.
Context {St : Type} `{!QuotaStore St}.
(** The readings of the [i]-th reservation and of the retry delay. *)
Variables (clk : nat → Z) (clk2 : Z) (tenantID : gostring) (req : QuotaRequest).

Definition releaseAll (reserved : list quotaKey) (s : St) : St :=
  fold_left (λ s k, (Release (MkRelease k (Requests req) (Tokens req)) s).1) reserved s.

Fixpoint reserveLoop (i : nat) (limits : list QuotaLimit) (reserved : list quotaKey) (minReq minTok : Z) (s : St) :
    St * decision :=
  match limits with
  | [] => (s, (MkResult true minReq minTok 0, None))
  | limit :: limits =>
      if (LimRequests limit <=? 0) && (LimTokens limit <=? 0) then reserveLoop i limits reserved minReq minTok s
      else
        let start := quotaWindowStart (Now req) (Window limit) in
        let key := MkKey tenantID (Window limit) start in
        let '(s, (usage, allowed, err)) :=
          Reserve (clk i) (MkReserve key (Requests req) (Tokens req) (LimRequests limit) (LimTokens limit)) s in
        if bool_decide (err ≠ None) || negb allowed then
          let s := releaseAll reserved s in
          (s, (MkResult false (remaining (LimRequests limit) (UsedRequests usage)) (remaining (LimTokens limit) (UsedTokens usage))
                 (notNegative (Sub (quotaWindowEnd start (Window limit)) clk2)),
               Some (default ErrQuotaExceeded err)))
        else reserveLoop (S i) limits (reserved ++ [key])
               (minRemaining minReq (remaining (LimRequests limit) (UsedRequests usage)))
               (minRemaining minTok (remaining (LimTokens limit) (UsedTokens usage))) s
  end.
End window_manager.

Definition AllowWindows `{QuotaStore St} (provider : QuotaConfigProvider) (now0 : Z) (clk : nat → Z) (clk2 : Z)
    (tenantID : gostring) (req : QuotaRequest) (s : St) : St * decision :=
  match provider tenantID with
  | Err e => (s, refusedWith e)
  | Ok cfg =>
      match normalizeQuotaLimits cfg with
      | [] => (s, allowedFree)
      | limits => reserveLoop clk clk2 tenantID (normalizeQuotaRequest now0 req) 0 limits [] (-1) (-1) s
      end
  end.

(** ** The store in memory *)

Record InMemoryQuotaStore := MkMem { entries : gmap quotaKey QuotaUsage; cleanupInterval : Z; lastCleanup : Z }.
Definition NewInMemoryQuotaStore (opt : option Z) (clk : Z) : InMemoryQuotaStore :=
  MkMem ∅ (match opt with Some d => if 0 <? d then d else 5 * timeMinute | None => 5 * timeMinute end) clk.

Definition maybeCleanupLocked (now : Z) (s : InMemoryQuotaStore) : InMemoryQuotaStore :=
  if cleanupInterval s <=? 0 then s
  else if Sub now (lastCleanup s) <? cleanupInterval s then s
  else MkMem (filter (λ ku, ¬ WindowEnd ku.2 < now) (entries s)) (cleanupInterval s) now.

Definition putUsage (k : quotaKey) (u : QuotaUsage) (s : InMemoryQuotaStore) : InMemoryQuotaStore :=
  MkMem (<[k := u]> (entries s)) (cleanupInterval s) (lastCleanup s).

Definition ReserveMem (clk : Z) (r : QuotaReserveRequest) (s : InMemoryQuotaStore) :
    InMemoryQuotaStore * (QuotaUsage * bool * option qErr) :=
  let s := maybeCleanupLocked clk s in
  let k := rKey r in
  let usage := default (MkUsage (kStart k) (quotaWindowEnd (kStart k) (kWindow k)) 0 0) (entries s !! k) in
  let s := putUsage k usage s in
  let nextRequests := wrap64 (UsedRequests usage + DeltaRequests r) in
  let nextTokens := wrap64 (UsedTokens usage + DeltaTokens r) in
  if exceeds (LimitRequests r) (LimitTokens r) nextRequests nextTokens then (s, (usage, false, None))
  else
    let usage := MkUsage (WindowStart usage) (WindowEnd usage) nextRequests nextTokens in
    (putUsage k usage s, (usage, true, None)).

Definition ReleaseMem (r : QuotaReleaseRequest) (s : InMemoryQuotaStore) : InMemoryQuotaStore * option qErr :=
  match entries s !! lKey r with
  | None => (s, None)
  | Some usage =>
      let reqs := wrap64 (UsedRequests usage - ReleaseRequests r) in
      let toks := wrap64 (UsedTokens usage - ReleaseTokens r) in
      (putUsage (lKey r) (MkUsage (WindowStart usage) (WindowEnd usage) (notNegative reqs) (notNegative toks)) s, None)
  end.

Definition Usage (tenantID : gostring) (w : QuotaWindow) (start : Z) (s : InMemoryQuotaStore) : option QuotaUsage :=
  entries s !! MkKey tenantID w start.

#[export] Instance mem_store : QuotaStore InMemoryQuotaStore := {
  Reserve := ReserveMem;
  Release := ReleaseMem;
  usedIn s k := match Usage (kTenant k) (kWindow k) (kStart k) s with
                | Some u => (UsedRequests u, UsedTokens u) | None => (0, 0) end;
}.

(** ** The last minute *)

Record tokenUsage := MkTokens { tuTime : Z; tuTokens : Z }.
Record slidingWindow := MkSliding { requestTimes : list Z; usages : list tokenUsage }.
(** The [sync.Map] of the manager. *)
Abbreviation SlidingWindowQuotaManager := (gmap gostring slidingWindow).
Implicit Types (w : slidingWindow) (windows : SlidingWindowQuotaManager).

Definition DeleteTenant (tenantID : gostring) windows : SlidingWindowQuotaManager := delete tenantID windows.

(** The sum of the token loop wraps around with each addition. *)
Fixpoint sumTokens (acc : Z) (us : list tokenUsage) : Z :=
  match us with [] => acc | u :: us => sumTokens (wrap64 (acc + tuTokens u)) us end.

Definition cleanup (cutoff : Z) w : slidingWindow :=
  let idx := sort_search (length (requestTimes w)) (λ i, cutoff <? nth i (requestTimes w) 0) in
  let tidx := sort_search (length (usages w)) (λ i, cutoff <? nth i (map tuTime (usages w)) 0) in
  MkSliding (drop idx (requestTimes w)) (drop tidx (usages w)).

Definition calculateRequestRetryAfter (now needed : Z) w : Z :=
  if bool_decide (requestTimes w = []) || (needed <=? 0) then 0
  else
    let needed := if Z.of_nat (length (requestTimes w)) <? needed then Z.of_nat (length (requestTimes w)) else needed in
    notNegative (Sub (nth (Z.to_nat (needed - 1)) (requestTimes w) 0 + timeMinute) now).

Fixpoint expireEntry (accumulated needed last : Z) (us : list tokenUsage) : Z :=
  match us with
  | [] => last
  | u :: us =>
      let accumulated := wrap64 (accumulated + tuTokens u) in
      if needed <=? accumulated then tuTime u else expireEntry accumulated needed (tuTime u) us
  end.

Definition calculateTokenRetryAfter (now needed : Z) w : Z :=
  if bool_decide (usages w = []) || (needed <=? 0) then 0
  else notNegative (Sub (expireEntry 0 needed 0 (usages w) + timeMinute) now).

Definition slidingWindowEffectiveLimits (cfg : QuotaConfig) : Z * Z :=
  match list_find (λ l, Window l = QuotaWindowMinute) (Limits cfg) with
  | Some (_, l) => (LimRequests l, LimTokens l)
  | None => (0, 0)
  end.

Definition unsupported (cfg : QuotaConfig) : bool :=
  existsb (λ l, isValidQuotaWindow (Window l) && negb (bool_decide (Window l = QuotaWindowMinute))) (Limits cfg).

(** What [Allow] does with the tenant's window. *)
Definition slide (reqLimit tokLimit : Z) (req : QuotaRequest) w : slidingWindow * decision :=
  let w := cleanup (Now req - timeMinute) w in
  let currentRequests := Z.of_nat (length (requestTimes w)) in
  let currentTokens := sumTokens 0 (usages w) in
  let refused retryAfter :=
    (w, (MkResult false (remaining reqLimit currentRequests) (remaining tokLimit currentTokens) retryAfter,
         Some ErrQuotaExceeded)) in
  if (0 <? reqLimit) && (reqLimit <? wrap64 (currentRequests + Requests req)) then
    refused (calculateRequestRetryAfter (Now req) (wrap64 (wrap64 (currentRequests + Requests req) - reqLimit)) w)
  else if (0 <? tokLimit) && (tokLimit <? wrap64 (currentTokens + Tokens req)) then
    refused (calculateTokenRetryAfter (Now req) (wrap64 (wrap64 (currentTokens + Tokens req) - tokLimit)) w)
  else
    (MkSliding (requestTimes w ++ replicate (Z.to_nat (Requests req)) (Now req))
       (if 0 <? Tokens req then usages w ++ [MkTokens (Now req) (Tokens req)] else usages w),
     (MkResult true (remaining reqLimit (wrap64 (currentRequests + Requests req)))
        (remaining tokLimit (wrap64 (currentTokens + Tokens req))) 0, None)).

Definition AllowSliding (provider : QuotaConfigProvider) (clk : Z) (tenantID : gostring) (req : QuotaRequest) windows :
    SlidingWindowQuotaManager * decision :=
  match provider tenantID with
  | Err e => (windows, refusedWith e)
  | Ok cfg =>
      if unsupported cfg then (windows, refusedWith ErrUnsupportedQuotaWindow)
      else
        let '(reqLimit, tokLimit) := slidingWindowEffectiveLimits cfg in
        if (reqLimit <=? 0) && (tokLimit <=? 0) then (windows, allowedFree)
        else
          let w := default (MkSliding [] []) (windows !! tenantID) in
          let '(w, d) := slide reqLimit tokLimit (normalizeQuotaRequest clk req) w in
          (<[tenantID := w]> windows, d)
  end.

(** ** The middleware *)

(** The tokens a request asks for: the estimator's answer, or the client's header. *)
Definition requestTokens (estimator : option Z) (header : gostring) : Z :=
  match estimator with
  | Some n => n
  | None => if decide (header = []) then 0 else default 0 (Atoi header)
  end.

(** [d.Seconds()], a float. *)
Definition Seconds (d : Z) : float64 :=
  float_add (float_of_Z (d ÷ nanosPerSecond)) (float_div (float_of_Z (Z.rem d nanosPerSecond)) (float_of_Z nanosPerSecond)).
(** The [Retry-After] header, in whole seconds. *)
Definition SetRetryAfterHeader (retry : Z) : option Z :=
  if retry <=? 0 then None else Some (float_trunc (Seconds retry)).

(** The remaining-quota headers. *)
Definition SetQuotaHeaders (remainingRequests remainingTokens : Z) : option Z * option Z :=
  (if 0 <=? remainingRequests then Some remainingRequests else None, if 0 <=? remainingTokens then Some remainingTokens else None).

Inductive response :=
| Served (headers : option Z * option Z)
| Rejected (headers : option Z * option Z) (retryAfter : option Z).

(** The middleware's handler around a manager: one request with the client's tokens. *)
Definition Middleware {M} (allow : QuotaRequest → M → M * decision) (estimator : option Z) (header : gostring) (now : Z) (m : M) :
    M * response :=
  let '(m, (result, err)) := allow (MkRequest 1 (requestTokens estimator header) now) m in
  let headers := SetQuotaHeaders (RemainingRequests result) (RemainingTokens result) in
  if bool_decide (err = None) && Allowed result then (m, Served headers)
  else (m, Rejected headers (SetRetryAfterHeader (RetryAfter result))).
End Quota.
