(* ===== verification/QuotaFacts.v ===== *)
(** * Facts about tenant quotas

    The windows of the calendar, sums over the calls admitted so far, the in-memory
    store against the laws a quota store has to meet, and the reservation loop
    against any store that meets them. *)

From stdpp Require Import options.
From S2P Require Import Prelude GoStrings GoNumbers GoTime Quota.
Import Quota.
#[local] Open Scope Z_scope.

(** ** Windows *)

Lemma nanos_pos : 0 < nanosPerSecond.
Proof. unfold nanosPerSecond. lia. Qed.

Lemma truncate_window d t : 0 < d → Truncate t d ≤ t < Truncate t d + d.
Proof. unfold Truncate. intros. pose proof (Z.mod_pos_bound t d). lia. Qed.
Lemma truncate_same d t u : 0 < d → Truncate t d ≤ u < Truncate t d + d → Truncate u d = Truncate t d.
Proof.
  unfold Truncate. intros Hd Hu. pose proof (Z.div_mod t d ltac:(lia)). pose proof (Z.div_mod u d ltac:(lia)).
  assert (u / d = t / d) as E; [|nia]. symmetry. apply (Z.div_unique u d (t / d) (u - d * (t / d))); lia.
Qed.

(** The first of the month and the first of the next one. *)
Definition firstOf (d : Z) : Z := dayStart (yearOf d) (monthOf d).
Lemma firstOf_eq d d' : yearOf d' = yearOf d → monthOf d' = monthOf d → firstOf d' = firstOf d.
Proof. unfold firstOf. intros -> ->. reflexivity. Qed.
Lemma firstOf_fields d : yearOf (firstOf d) = yearOf d ∧ monthOf (firstOf d) = monthOf d.
Proof.
  unfold firstOf. destruct (monthOf_bounds d) as (Hm & Hl & Hu). pose proof (yearOf_bounds d) as Hy.
  rewrite dayStart_eq in *. set (y := yearOf d) in *. set (m := monthOf d) in *.
  assert (0 ≤ daysBeforeMonth (isLeap y) m) by (apply (daysBeforeMonth_mono (isLeap y) 1 m); lia).
  assert (daysBeforeMonth (isLeap y) m < daysBeforeMonth (isLeap y) (m + 1)) by lia.
  assert (yearOf (daysBeforeYear y + daysBeforeMonth (isLeap y) m) = y) as E by (apply yearOf_unique; lia).
  split; [exact E|]. apply monthOf_unique; rewrite ?dayStart_eq, ?E; lia.
Qed.
Lemma nextMonth_firstOf d : nextMonth (firstOf d) = nextMonth d.
Proof. destruct (firstOf_fields d) as [E1 E2]. unfold nextMonth. by rewrite E1, E2. Qed.
Lemma firstOf_bounds d : firstOf d ≤ d < nextMonth (firstOf d).
Proof. rewrite nextMonth_firstOf. split; [apply monthOf_bounds|apply nextMonth_gt]. Qed.

Definition dayNs : Z := 86400 * nanosPerSecond.
Definition dayIn (t : Z) : Z := dayOf (seconds_of t).
Lemma dayIn_eq t : dayIn t = t / dayNs.
Proof.
  unfold dayIn, dayOf, seconds_of, dayNs, secondsPerDay. rewrite Z.div_div by (unfold nanosPerSecond; lia). reflexivity.
Qed.
Lemma dayIn_mul d : dayIn (d * dayNs) = d.
Proof. rewrite dayIn_eq. apply Z.div_mul. unfold dayNs, nanosPerSecond. lia. Qed.

Lemma day_start now : quotaWindowStart now QuotaWindowDay = Truncate now dayNs.
Proof.
  unfold quotaWindowStart. rewrite decide_False, decide_True by done. unfold DateNs.
  pose proof (Date_same_month (seconds_of now) 0 0 0 0) as E. rewrite (Z.add_0_r (Day _)) in E.
  rewrite E. fold (dayIn now). rewrite dayIn_eq. unfold Truncate.
  pose proof (Z.div_mod now dayNs ltac:(unfold dayNs, nanosPerSecond; lia)). unfold dayNs in *. lia.
Qed.
Lemma month_start now : quotaWindowStart now QuotaWindowMonth = firstOf (dayIn now) * dayNs.
Proof.
  unfold quotaWindowStart. rewrite !decide_False, decide_True by done. unfold DateNs, Date.
  fold (dayIn now). unfold Year, Month. fold (dayIn now). destruct (monthOf_bounds (dayIn now)) as [Hm _].
  rewrite Z.div_small, Z.mod_small by lia. unfold firstOf, dayNs, secondsPerDay.
  replace (monthOf (dayIn now) - 1 + 1) with (monthOf (dayIn now)) by lia. rewrite (Z.add_0_r (yearOf _)). lia.
Qed.
Lemma month_end d : quotaWindowEnd (firstOf d * dayNs) QuotaWindowMonth = nextMonth (firstOf d) * dayNs.
Proof.
  unfold quotaWindowEnd. rewrite !decide_False, decide_True by done.
  assert (seconds_of (firstOf d * dayNs) = firstOf d * 86400 + 0 * 3600 + 0 * 60 + 0) as Es.
  { unfold seconds_of, dayNs. rewrite Z.mul_assoc, Z.div_mul by (unfold nanosPerSecond; lia). lia. }
  destruct (clock_fields (firstOf d) 0 0 0) as (Ed & Eh & Em & E0); [lia..|]. cbv zeta in *. rewrite <- Es in *.
  assert (Day (seconds_of (firstOf d * dayNs)) = 1) as Eday.
  { unfold Day, Year, Month. rewrite Ed. destruct (firstOf_fields d) as [-> ->]. unfold firstOf. lia. }
  unfold AddDate. rewrite Eh, Em, E0, Eday, !Z.add_0_r, Date_next_month, Ed.
  unfold dayNs. rewrite Z.mul_assoc, Z.mod_mul by (unfold nanosPerSecond; lia). lia.
Qed.

(** An instant lies in its window, and the window is that of all its instants. *)
Lemma window_case (P : QuotaWindow → Prop) :
  P QuotaWindowHour → P QuotaWindowDay → P QuotaWindowMonth →
  (∀ w, w ≠ QuotaWindowHour → w ≠ QuotaWindowDay → w ≠ QuotaWindowMonth → P w) → ∀ w, P w.
Proof.
  intros Hh Hd Hm Ho w. destruct (decide (w = QuotaWindowHour)) as [->|]; [done|].
  destruct (decide (w = QuotaWindowDay)) as [->|]; [done|].
  destruct (decide (w = QuotaWindowMonth)) as [->|]; [done|]. by apply Ho.
Qed.
Lemma dayIn_bounds now : dayIn now * dayNs ≤ now < (dayIn now + 1) * dayNs.
Proof. rewrite dayIn_eq. pose proof (Z.div_mod now dayNs). pose proof (Z.mod_pos_bound now dayNs). unfold dayNs, nanosPerSecond in *. lia. Qed.

Lemma window_holds now w :
  quotaWindowStart now w ≤ now < quotaWindowEnd (quotaWindowStart now w) w.
Proof.
  revert w. apply window_case.
  - apply truncate_window. unfold timeHour, nanosPerSecond. lia.
  - rewrite day_start. unfold quotaWindowEnd. rewrite decide_False, decide_True by done.
    apply (truncate_window dayNs). unfold dayNs, nanosPerSecond. lia.
  - rewrite month_start, month_end. pose proof (dayIn_bounds now). pose proof (firstOf_bounds (dayIn now)).
    unfold dayNs, nanosPerSecond in *. nia.
  - intros w ? ? ?. unfold quotaWindowStart, quotaWindowEnd. rewrite !decide_False by done.
    apply truncate_window. unfold timeMinute, nanosPerSecond. lia.
Qed.

Lemma window_same now now' w :
  quotaWindowStart now w ≤ now' < quotaWindowEnd (quotaWindowStart now w) w →
  quotaWindowStart now' w = quotaWindowStart now w.
Proof.
  revert w. apply (window_case (λ w, _ ≤ now' < _ → _)).
  - apply truncate_same. unfold timeHour, nanosPerSecond. lia.
  - rewrite !day_start. unfold quotaWindowEnd. rewrite decide_False, decide_True by done.
    apply (truncate_same dayNs). unfold dayNs, nanosPerSecond. lia.
  - rewrite !month_start, month_end. intros Hn. pose proof (dayIn_bounds now').
    destruct (firstOf_fields (dayIn now)) as [E1 E2].
    destruct (same_month (firstOf (dayIn now)) (dayIn now')) as [E3 E4].
    { unfold dayNs, nanosPerSecond in *. nia. }
    f_equal. apply firstOf_eq; congruence.
  - intros w ? ? ?. unfold quotaWindowStart, quotaWindowEnd. rewrite !decide_False by done.
    apply truncate_same. unfold timeMinute, nanosPerSecond. lia.
Qed.

(** The calendar, without the code's window arithmetic: two instants share a minute, an
    hour, a day or a month, and the instant the shared one ends. *)
Definition period (w : QuotaWindow) : Z :=
  if decide (w = QuotaWindowHour) then 3600 * nanosPerSecond else if decide (w = QuotaWindowDay) then dayNs else 60 * nanosPerSecond.
Definition sameWindow (w : QuotaWindow) (a b : Z) : Prop :=
  if decide (w = QuotaWindowMonth) then yearOf (dayIn a) = yearOf (dayIn b) ∧ monthOf (dayIn a) = monthOf (dayIn b)
  else a / period w = b / period w.
Definition windowEnds (w : QuotaWindow) (now : Z) : Z :=
  if decide (w = QuotaWindowMonth) then nextMonth (dayIn now) * dayNs else (now / period w + 1) * period w.
#[export] Instance sameWindow_dec w a b : Decision (sameWindow w a b).
Proof. unfold sameWindow. case_match; apply _. Defined.

Lemma truncate_eq t d : 0 < d → Truncate t d = t / d * d.
Proof. intros. unfold Truncate. pose proof (Z.div_mod t d ltac:(lia)). lia. Qed.
Lemma sameWindow_start w a b : sameWindow w a b ↔ quotaWindowStart a w = quotaWindowStart b w.
Proof.
  assert (Ht : ∀ d, 0 < d → a / d = b / d ↔ Truncate a d = Truncate b d) by (intros d Hd; rewrite !truncate_eq by done; nia).
  revert w. apply window_case.
  - unfold sameWindow, period. rewrite !(decide_False (P := QuotaWindowHour = QuotaWindowMonth)) by done. rewrite decide_True by done. apply Ht. unfold nanosPerSecond. lia.
  - unfold sameWindow, period. rewrite !day_start. rewrite (decide_False (P := _ = QuotaWindowMonth)) by done.
    rewrite decide_False, decide_True by done. apply Ht. unfold dayNs, nanosPerSecond. lia.
  - unfold sameWindow. rewrite !month_start, decide_True by done. split.
    + intros [E1 E2]. by rewrite (firstOf_eq (dayIn b) (dayIn a)).
    + intros E. assert (firstOf (dayIn a) = firstOf (dayIn b)) as Ef by (unfold dayNs, nanosPerSecond in E; lia).
      destruct (firstOf_fields (dayIn a)) as [<- <-], (firstOf_fields (dayIn b)) as [<- <-]. by rewrite Ef.
  - intros w ? ? ?. unfold sameWindow, period, quotaWindowStart. rewrite !decide_False by done. apply Ht. unfold timeMinute, nanosPerSecond. lia.
Qed.
Lemma windowEnds_eq w now : windowEnds w now = quotaWindowEnd (quotaWindowStart now w) w.
Proof.
  revert w. apply window_case.
  - unfold windowEnds, period, quotaWindowStart, quotaWindowEnd. rewrite (decide_False (P := _ = QuotaWindowMonth)) by done.
    rewrite !(decide_True (P := QuotaWindowHour = QuotaWindowHour)) by done. rewrite truncate_eq by (unfold timeHour, nanosPerSecond; lia). unfold timeHour. lia.
  - rewrite day_start, truncate_eq by (unfold dayNs, nanosPerSecond; lia). unfold windowEnds, period, quotaWindowEnd.
    rewrite (decide_False (P := _ = QuotaWindowMonth)) by done. rewrite !(decide_False (P := _ = QuotaWindowHour)) by done.
    rewrite !(decide_True (P := QuotaWindowDay = QuotaWindowDay)) by done. unfold dayNs, timeHour. lia.
  - rewrite month_start, month_end, nextMonth_firstOf. unfold windowEnds. by rewrite decide_True.
  - intros w ? ? ?. unfold windowEnds, period, quotaWindowStart, quotaWindowEnd. rewrite !decide_False by done.
    rewrite truncate_eq by (unfold timeMinute, nanosPerSecond; lia). unfold timeMinute. lia.
Qed.

(** Of two instants in different windows, the later is past the other's window. *)
Lemma window_next now now' w : now ≤ now' → quotaWindowStart now' w ≠ quotaWindowStart now w →
  quotaWindowEnd (quotaWindowStart now w) w ≤ now'.
Proof.
  intros Hle Hne. destruct (Z.le_gt_cases (quotaWindowEnd (quotaWindowStart now w) w) now') as [|Hlt]; [done|].
  destruct Hne. apply window_same. pose proof (window_holds now w). lia.
Qed.

(** ** What has been admitted *)

Record admitted := MkAdmitted { aTenant : gostring; aNow : Z; aRequests : Z; aTokens : Z }.
Implicit Types (log : list admitted) (e : admitted).

Fixpoint sumOf (f : admitted → Z) (P : admitted → bool) log : Z :=
  match log with [] => 0 | e :: log => (if P e then f e else 0) + sumOf f P log end.

Lemma sumOf_app f P log log' : sumOf f P (log ++ log') = sumOf f P log + sumOf f P log'.
Proof. induction log as [|e log IH]; simpl; lia. Qed.
Lemma sumOf_nonneg f P log : Forall (λ e, 0 ≤ f e) log → 0 ≤ sumOf f P log.
Proof. induction 1; simpl; [lia|]. case_match; lia. Qed.
Lemma sumOf_mono f P Q log : Forall (λ e, 0 ≤ f e) log → Forall (λ e, P e = true → Q e = true) log →
  sumOf f P log ≤ sumOf f Q log.
Proof.
  intros H. induction H as [|e log He Hlog IH]; intros HPQ; simpl; [lia|]. inv HPQ.
  destruct (P e) eqn:E; [rewrite (H1 eq_refl)|destruct (Q e)]; specialize (IH H2); lia.
Qed.
Lemma sumOf_none f P log : Forall (λ e, P e = false) log → sumOf f P log = 0.
Proof. induction 1 as [|e log He Hlog IH]; simpl; [done|]. by rewrite He, IH. Qed.
Lemma sumOf_ext f P Q log : Forall (λ e, P e = Q e) log → sumOf f P log = sumOf f Q log.
Proof. induction 1 as [|e log He Hlog IH]; simpl; [done|]. by rewrite He, IH. Qed.

(** What a tenant has used of the window of [w] that starts at [s]. *)
Definition inWindow (t : gostring) (w : QuotaWindow) (s : Z) e : bool :=
  bool_decide (aTenant e = t) && (quotaWindowStart (aNow e) w =? s).
Definition used log (k : quotaKey) : Z * Z :=
  (sumOf aRequests (inWindow (kTenant k) (kWindow k) (kStart k)) log,
   sumOf aTokens (inWindow (kTenant k) (kWindow k) (kStart k)) log).

(** Whether totals of requests and tokens respect a pair of limits; a limit that is not
    positive is none. *)
Definition fits (limits totals : Z * Z) : Prop :=
  (0 < limits.1 → totals.1 ≤ limits.1) ∧ (0 < limits.2 → totals.2 ≤ limits.2).
#[export] Instance fits_dec limits totals : Decision (fits limits totals).
Proof. unfold fits. solve_decision. Defined.
Lemma exceeds_fits a b n : exceeds a b n.1 n.2 = negb (bool_decide (fits (a, b) n)).
Proof.
  apply eq_true_iff_eq. rewrite negb_true_iff, bool_decide_eq_false. unfold exceeds, fits. cbn [fst snd].
  rewrite orb_true_iff, !andb_true_iff, !Z.ltb_lt. lia.
Qed.

(** ** The laws of a quota store *)

Definition live (clk : Z) (k : quotaKey) : Prop := clk ≤ quotaWindowEnd (kStart k) (kWindow k).
Definition plus2 (a b : Z * Z) : Z * Z := (a.1 + b.1, a.2 + b.2).
Definition minus2 (a b : Z * Z) : Z * Z := (a.1 - b.1, a.2 - b.2).
Definition nonneg2 (a : Z * Z) : Prop := 0 ≤ a.1 ∧ 0 ≤ a.2.
Definition int64_2 (a : Z * Z) : Prop := is_int64 a.1 ∧ is_int64 a.2.

(** [Reserve] adds the amounts when they fit and changes nothing otherwise, answering
    with what the window then holds; a store may fail instead, and may forget windows
    that are over. [Release] takes a reservation back. *)
Class QuotaStoreLaws (St : Type) `{QuotaStore St} := {
  store_ok : St → Prop;
  store_fails : Prop;
  reserve_law : ∀ clk r (s s' : St) usage allowed err,
    let d := (DeltaRequests r, DeltaTokens r) in let u := usedIn s (rKey r) in
    store_ok s → live clk (rKey r) → nonneg2 d → int64_2 (plus2 u d) → Reserve clk r s = (s', (usage, allowed, err)) →
    store_ok s' ∧ (∀ k, live clk k → k ≠ rKey r → usedIn s' k = usedIn s k) ∧
    match err with
    | Some e => store_fails ∧ (∃ n, e = ErrOther n) ∧ usedIn s' (rKey r) = u
    | None => allowed = bool_decide (fits (LimitRequests r, LimitTokens r) (plus2 u d)) ∧
              usedIn s' (rKey r) = (if allowed then plus2 u d else u) ∧ (UsedRequests usage, UsedTokens usage) = usedIn s' (rKey r)
    end;
  release_law : ∀ r (s s' : St) err,
    let d := (ReleaseRequests r, ReleaseTokens r) in let u := usedIn s (lKey r) in
    store_ok s → nonneg2 d → nonneg2 (minus2 u d) → int64_2 u → Release r s = (s', err) →
    store_ok s' ∧ ∀ k, usedIn s' k = if decide (k = lKey r) then minus2 u d else usedIn s k;
}.

(** ** The in-memory store meets them *)

Definition mem_ok (s : InMemoryQuotaStore) : Prop :=
  map_Forall (λ k u, WindowEnd u = quotaWindowEnd (kStart k) (kWindow k)) (entries s).

Lemma used_mem s k : usedIn s k = match entries s !! k with Some u => (UsedRequests u, UsedTokens u) | None => (0, 0) end.
Proof. by destruct k. Qed.
Lemma used_put s k u k' : usedIn (putUsage k u s) k' = if decide (k' = k) then (UsedRequests u, UsedTokens u) else usedIn s k'.
Proof. rewrite !used_mem. unfold putUsage. simpl. destruct (decide (k' = k)) as [->|]; by simplify_map_eq. Qed.
Lemma quota_put_ok s k u : mem_ok s → WindowEnd u = quotaWindowEnd (kStart k) (kWindow k) → mem_ok (putUsage k u s).
Proof. intros. by apply map_Forall_insert_2. Qed.

Lemma quota_cleanup_ok clk s : mem_ok s → mem_ok (maybeCleanupLocked clk s).
Proof.
  unfold maybeCleanupLocked. intros H. repeat case_match; try done.
  intros k u [E _]%map_lookup_filter_Some. by apply (H k).
Qed.
Lemma cleanup_used clk s k : mem_ok s → live clk k → usedIn (maybeCleanupLocked clk s) k = usedIn s k.
Proof.
  unfold maybeCleanupLocked. intros Hs Hl. repeat case_match; try done. rewrite !used_mem. simpl.
  destruct (entries s !! k) as [u|] eqn:E.
  - rewrite (map_lookup_filter_Some_2 _ _ _ _ E); [done|]. simpl. rewrite (Hs _ _ E). unfold live in Hl. lia.
  - by rewrite (map_lookup_filter_None_2 _ _ _ (or_introl E)).
Qed.

#[export] Program Instance mem_laws : QuotaStoreLaws InMemoryQuotaStore := { store_ok := mem_ok; store_fails := False }.
Next Obligation.
  intros clk r s s' usage allowed err d u Hs Hlive Hd Hi HR. cbn [Reserve mem_store] in HR. unfold ReserveMem in HR.
  pose proof (quota_cleanup_ok clk s Hs) as Hc. pose proof (cleanup_used clk s) as Hu.
  set (s1 := maybeCleanupLocked clk s) in *. set (k := rKey r) in *.
  set (us := default _ _) in HR.
  assert ((UsedRequests us, UsedTokens us) = u ∧ WindowEnd us = quotaWindowEnd (kStart k) (kWindow k)) as [Eu Ee].
  { subst us. unfold u. rewrite <- Hu by done. rewrite used_mem. destruct (entries s1 !! k) eqn:E; simpl; [|done].
    split; [done|]. by apply (Hc k). }
  clearbody us.
  assert (mem_ok (putUsage k us s1)) by by apply quota_put_ok.
  assert (∀ k', live clk k' → k' ≠ k → usedIn (putUsage k us s1) k' = usedIn s k').
  { intros. rewrite used_put, decide_False by done. by apply Hu. }
  rewrite <- Eu in Hi. destruct Hi as [H1 H2]. cbn [plus2 fst snd d] in H1, H2. rewrite !wrap64_small in HR by done.
  rewrite <- Eu. change (exceeds _ _ _ _) with (exceeds (LimitRequests r) (LimitTokens r) (plus2 (UsedRequests us, UsedTokens us) d).1
    (plus2 (UsedRequests us, UsedTokens us) d).2) in HR. rewrite exceeds_fits in HR.
  destruct (bool_decide _) eqn:Ex; cbn [negb] in HR; injection HR as <- <- <- <-; cbn [plus2 fst snd d].
  - split; [by apply quota_put_ok|]. rewrite used_put, decide_True by done.
    split; [|split_and!; done]. intros. rewrite used_put, decide_False by done. auto.
  - split; [done|]. split; [done|]. rewrite used_put, decide_True by done. split_and!; done.
Qed.
Next Obligation.
  intros r s s' err d u Hs Hd Hm Hi HR. cbn [Release mem_store] in HR. unfold ReleaseMem in HR.
  unfold u in *. rewrite used_mem in *. destruct Hm as [M1 M2], Hd as [D1 D2], Hi as [I1 I2].
  destruct (entries s !! lKey r) as [us|] eqn:E; injection HR as <- <-.
  - split; [apply quota_put_ok; [done|exact (Hs _ _ E)]|]. intros k. rewrite used_put.
    destruct (decide (k = lKey r)) as [->|]; [|done]. unfold is_int64, int64_min, int64_max in *.
    subst d. cbn [fst snd minus2] in *. unfold minus2 in *. cbn [fst snd UsedRequests UsedTokens] in *.
    rewrite !wrap64_small by (unfold is_int64, int64_min, int64_max; lia). unfold notNegative.
    repeat case_match; unbool; (lia || reflexivity).
  - split; [done|]. intros k. destruct (decide (k = lKey r)) as [->|]; [|done].
    rewrite used_mem, E. unfold minus2 in *. subst d. cbn [fst snd] in *. f_equal; lia.
Qed.

(** ** The decision a request deserves *)

(** A limit of zero is no limit; a limit without any bound is passed over. *)
Definition isActive (l : QuotaLimit) : bool := negb ((LimRequests l <=? 0) && (LimTokens l <=? 0)).
Definition active (limits : list QuotaLimit) : list QuotaLimit := filter (λ l, isActive l = true) limits.

Section spec.
(** The usage so far, and the request. *)
Variables (u : quotaKey → Z * Z) (t : gostring) (req : QuotaRequest) (clk2 : Z).

Definition keyOf (l : QuotaLimit) : quotaKey := MkKey t (Window l) (quotaWindowStart (Now req) (Window l)).
Definition usedAfter (l : QuotaLimit) : Z * Z := plus2 (u (keyOf l)) (Requests req, Tokens req).
Definition tooMuch (l : QuotaLimit) : bool :=
  exceeds (LimRequests l) (LimTokens l) (usedAfter l).1 (usedAfter l).2.
Definition refusal (l : QuotaLimit) : decision :=
  (MkResult false (remaining (LimRequests l) (u (keyOf l)).1) (remaining (LimTokens l) (u (keyOf l)).2)
     (notNegative (Sub (quotaWindowEnd (kStart (keyOf l)) (Window l)) clk2)), Some ErrQuotaExceeded).
Definition leastRequests (m : Z) (ls : list QuotaLimit) : Z :=
  fold_left (λ m l, minRemaining m (remaining (LimRequests l) (usedAfter l).1)) ls m.
Definition leastTokens (m : Z) (ls : list QuotaLimit) : Z :=
  fold_left (λ m l, minRemaining m (remaining (LimTokens l) (usedAfter l).2)) ls m.

(** The first limit the request would exceed refuses it; otherwise what is left is
    the least any limit leaves. *)
Definition decideFrom (m1 m2 : Z) (limits : list QuotaLimit) : decision :=
  match head (filter (λ l, tooMuch l = true) (active limits)) with
  | Some l => refusal l
  | None => (MkResult true (leastRequests m1 (active limits)) (leastTokens m2 (active limits)) 0, None)
  end.
End spec.

(** The answer when the store fails. *)
Definition storeError (dec : decision) : Prop := Allowed dec.1 = false ∧ ∃ n, dec.2 = Some (ErrOther n).

Section loop.
Context {St : Type} `{!QuotaStore St, !QuotaStoreLaws St}.
Variables (clk : nat → Z) (clk2 : Z) (t : gostring) (req : QuotaRequest) (u : quotaKey → Z * Z).
Let d : Z * Z := (Requests req, Tokens req).
Hypothesis d_nonneg : nonneg2 d.
Implicit Types (s : St).

Definition liveAll (k : quotaKey) : Prop := ∀ j, live (clk j) k.
(** A window of this call, whose usage the request does not make overflow. *)
Definition good (k : quotaKey) : Prop := liveAll k ∧ nonneg2 (u k) ∧ int64_2 (plus2 (u k) d).
(** The store holds [u], and the reservations of this call on top. *)
Definition holds s (reserved : list quotaKey) : Prop :=
  ∀ k, liveAll k → usedIn s k = if decide (k ∈ reserved) then plus2 (u k) d else u k.

Lemma holds_nil s : holds s [] ↔ ∀ k, liveAll k → usedIn s k = u k.
Proof. unfold holds. split; intros H k Hk; rewrite (H k Hk); by rewrite ?(decide_False _ _ (not_elem_of_nil k)). Qed.

Lemma releaseAll_spec reserved s : store_ok s → NoDup reserved → Forall good reserved → holds s reserved →
  store_ok (releaseAll req reserved s) ∧ holds (releaseAll req reserved s) [].
Proof using d_nonneg.
  unfold releaseAll. revert s. induction reserved as [|k reserved IH]; intros s Hs Hnd Hl Hu; [done|].
  apply NoDup_cons in Hnd as [Hk Hnd]. inv Hl. cbn [fold_left].
  destruct (Release _ s) as [s' err] eqn:HR. cbn [fst].
  assert (usedIn s k = plus2 (u k) d) as Ek by (rewrite (Hu k), decide_True by (apply H1 || set_solver); done).
  assert (minus2 (plus2 (u k) d) d = u k) as Em.
  { unfold minus2, plus2. destruct (u k). cbn [fst snd]. f_equal; lia. }
  destruct H1 as (Hlk & Hnn & Hb). destruct (release_law (MkRelease k (Requests req) (Tokens req)) s s' err Hs d_nonneg) as [Hs' Hu'];
    cbn [lKey ReleaseRequests ReleaseTokens]; [fold d; by rewrite Ek, Em|by rewrite Ek|done|].
  apply IH; [done..|]. intros k' Hk'. rewrite Hu'. cbn [lKey ReleaseRequests ReleaseTokens]. fold d.
  destruct (decide (k' = k)) as [->|]; [by rewrite Ek, Em, decide_False|].
  rewrite (Hu k' Hk'). apply decide_ext. set_solver.
Qed.

Lemma reserve_step i l reserved s s' usage allowed err :
  let key := keyOf t req l in
  store_ok s → good key → key ∉ reserved → holds s reserved →
  Reserve (clk i) (MkReserve key (Requests req) (Tokens req) (LimRequests l) (LimTokens l)) s = (s', (usage, allowed, err)) →
  store_ok s' ∧
  match err with
  | Some e => store_fails ∧ (∃ n, e = ErrOther n) ∧ holds s' reserved
  | None => allowed = negb (tooMuch u t req l) ∧ holds s' (if allowed then reserved ++ [key] else reserved) ∧
            (UsedRequests usage, UsedTokens usage) = if allowed then usedAfter u t req l else u key
  end.
Proof using d_nonneg.
  intros key Hs (Hl & Hnn & Hb) Hk Hu HR. assert (usedIn s key = u key) as Ek by (by rewrite (Hu key), decide_False).
  destruct (reserve_law (clk i) (MkReserve key (Requests req) (Tokens req) (LimRequests l) (LimTokens l))
    s s' usage allowed err Hs) as (Hs' & Ho & Hr);
    cbn [rKey DeltaRequests DeltaTokens LimitRequests LimitTokens] in *; [apply Hl|done|by rewrite Ek|done|].
  split; [done|]. rewrite Ek in Hr.
  assert (∀ k, liveAll k → k ≠ key → usedIn s' k = if decide (k ∈ reserved) then plus2 (u k) d else u k) as Hother.
  { intros k Hlk Hne. rewrite Ho by done. by apply Hu. }
  destruct err as [e|].
  - destruct Hr as (Hf & He & Hr). split; [done|]. split; [done|]. intros k Hlk. destruct (decide (k = key)) as [->|]; [|auto].
    by rewrite Hr, decide_False.
  - destruct Hr as (-> & Hr & Hv). rewrite <- (negb_involutive (bool_decide _)), <- exceeds_fits in *.
    fold (usedAfter u t req l) in *. fold (tooMuch u t req l) in *. split; [done|].
    split; [|by rewrite Hv]. intros k Hlk. destruct (decide (k = key)) as [->|Hne].
    + rewrite Hr. unfold tooMuch. fold key. destruct (exceeds _ _ _ _) eqn:E; cbn [negb]; cbn.
      * by rewrite decide_False.
      * rewrite decide_True by set_solver. done.
    + rewrite Hother by done. apply decide_ext. case_match; set_solver.
Qed.

Lemma decideFrom_skip m1 m2 l limits : isActive l = false → decideFrom u t req clk2 m1 m2 (l :: limits) = decideFrom u t req clk2 m1 m2 limits.
Proof. intros E. unfold decideFrom, active. by rewrite filter_cons_False by (by rewrite E). Qed.
Lemma decideFrom_refuse m1 m2 l limits : isActive l = true → tooMuch u t req l = true →
  decideFrom u t req clk2 m1 m2 (l :: limits) = refusal u t req clk2 l.
Proof. intros E1 E2. unfold decideFrom, active. by rewrite !filter_cons_True. Qed.
Lemma decideFrom_pass m1 m2 l limits : isActive l = true → tooMuch u t req l = false →
  decideFrom u t req clk2 m1 m2 (l :: limits) =
  decideFrom u t req clk2 (minRemaining m1 (remaining (LimRequests l) (usedAfter u t req l).1))
    (minRemaining m2 (remaining (LimTokens l) (usedAfter u t req l).2)) limits.
Proof.
  intros E1 E2. unfold decideFrom, active. rewrite filter_cons_True by done.
  by rewrite filter_cons_False by (by rewrite E2).
Qed.

(** The loop takes the decision, or reports the store's failure; the store ends with
    the reservations of a request that is let through and with nothing of one that
    is not. *)
Definition loop_result s' (dec : decision) (m1 m2 : Z) (reserved : list quotaKey) (limits : list QuotaLimit) : Prop :=
  store_ok s' ∧
  ((store_fails ∧ storeError dec ∧ holds s' []) ∨
   (dec = decideFrom u t req clk2 m1 m2 limits ∧
    holds s' (if Allowed dec.1 then reserved ++ (keyOf t req <$> active limits) else []))).

Lemma reserveLoop_spec limits i reserved m1 m2 s s' dec :
  store_ok s → NoDup (reserved ++ (keyOf t req <$> active limits)) →
  Forall good (reserved ++ (keyOf t req <$> active limits)) → holds s reserved →
  reserveLoop clk clk2 t req i limits reserved m1 m2 s = (s', dec) →
  loop_result s' dec m1 m2 reserved limits.
Proof using d_nonneg.
  revert i reserved m1 m2 s. induction limits as [|l limits IH]; intros i reserved m1 m2 s Hs Hnd Hl Hu Hloop.
  { simplify_eq/=. unfold loop_result. cbn [active fmap list_fmap]. rewrite app_nil_r in *. split; [done|]. by right. }
  cbn [reserveLoop] in Hloop. change (MkKey t (Window l) (quotaWindowStart (Now req) (Window l))) with (keyOf t req l) in Hloop.
  destruct ((LimRequests l <=? 0) && (LimTokens l <=? 0)) eqn:Ea.
  { assert (isActive l = false) as Ea' by (unfold isActive; by rewrite Ea). unfold loop_result. rewrite decideFrom_skip by done.
    unfold active in *. rewrite filter_cons_False in * by (by rewrite Ea'). by eapply IH. }
  assert (isActive l = true) as Ea' by (unfold isActive; by rewrite Ea).
  assert (active (l :: limits) = l :: active limits) as Eact by (unfold active; by rewrite filter_cons_True).
  unfold loop_result. rewrite Eact in *. cbn [fmap list_fmap] in *.
  destruct (Reserve _ _ s) as [s1 [[usage allowed] err]] eqn:HR.
  apply (reserve_step i l reserved) in HR as [Hs1 HR]; [|done|by apply Forall_app in Hl as [_ [? _]%Forall_cons]
    |apply NoDup_app in Hnd as (_ & Hx & _); intros Hin; by apply (Hx _ Hin); left|done].
  assert (∀ r, holds s1 reserved → r = releaseAll req reserved s1 → store_ok r ∧ holds r []) as Hroll.
  { intros r Hr ->. apply releaseAll_spec; [done| |by apply Forall_app in Hl as [? _]|done].
    by apply NoDup_app in Hnd as (? & _). }
  destruct err as [e|]; [|destruct HR as (-> & HR & Hv); destruct (tooMuch u t req l) eqn:Et].
  - destruct HR as (Hf & [n ->] & HR). rewrite bool_decide_true in Hloop by done. simplify_eq/=.
    destruct (Hroll _ HR eq_refl). split; [done|]. left. split; [done|]. split; [|done]. split; [done|]. by exists n.
  - rewrite bool_decide_false in Hloop by (intros []; done). cbn [negb orb] in Hloop, HR, Hv. injection Hloop as <- <-.
    destruct (Hroll _ HR eq_refl). split; [done|]. right. rewrite decideFrom_refuse by done. cbn [fst Allowed]. split; [|done].
    unfold refusal. rewrite <- Hv. done.
  - rewrite bool_decide_false in Hloop by (intros []; done). cbn [negb orb] in Hloop, HR, Hv. rewrite decideFrom_pass by done.
    rewrite <- Hv. cbn [fst snd]. replace (reserved ++ _) with ((reserved ++ [keyOf t req l]) ++ (keyOf t req <$> active limits)) in *
      by by rewrite <- (assoc_L (++)). by eapply IH.
Qed.
End loop.
