(* ===== verification/QuotaProps.v ===== *)
(** * What the quota managers guarantee

    Against a log of the requests let through: the window manager over any store that
    keeps the laws, and the fixed-window manager, decide every request of a history
    as the log says, so no window ever holds more than its limit; the sliding manager
    bounds every minute, and the delay it tells a refused caller is the exact one. *)

From stdpp Require Import options.
From S2P Require Import Prelude GoStrings GoNumbers GoTime Quota QuotaFacts.
Import Quota.
#[local] Open Scope Z_scope.
Implicit Types (log : list admitted) (t : gostring).

(** ** Histories *)

(** A call and what it reads from the clock. *)
Record call := MkCall { cNow0 : Z; cClk : nat → Z; cClk2 : Z; cTenant : gostring; cReq : QuotaRequest }.
Implicit Types (c : call) (cs : list call).
Definition normal c : QuotaRequest := normalizeQuotaRequest (cNow0 c) (cReq c).
(** What a call means: the clock's time when it brings none, one request when it names none. *)
Definition nowOf c : Z := if Now (cReq c) =? 0 then cNow0 c else Now (cReq c).
Definition asks c : Z * Z := (if Requests (cReq c) <=? 0 then 1 else Requests (cReq c), Tokens (cReq c)).
Definition entryOf c : admitted := MkAdmitted (cTenant c) (nowOf c) (asks c).1 (asks c).2.
Definition everything (e : admitted) : bool := true.

(** The calls come in the order of their times, none asks for a negative number of
    tokens, and all amounts together fit an [int64]. *)
Definition calls_fit cs : Prop :=
  StronglySorted (λ a b, nowOf a ≤ nowOf b) cs ∧ Forall (λ c, 0 ≤ Tokens (cReq c)) cs ∧
  sumOf aRequests everything (entryOf <$> cs) ≤ int64_max ∧ sumOf aTokens everything (entryOf <$> cs) ≤ int64_max.
(** Moreover, no reading of the store's clock during a call is past a window that is open
    at the call's time. *)
Definition calls_ok cs : Prop := calls_fit cs ∧ Forall (λ c, ∀ j w, cClk c j ≤ windowEnds w (nowOf c)) cs.

(** The limits a manager applies to a tenant, or its provider's error. *)
Definition limitsOf : Type := gostring → result qErr (list QuotaLimit).
Definition knownWindow (l : QuotaLimit) : Prop := Window l ∈ [QuotaWindowMinute; QuotaWindowHour; QuotaWindowDay; QuotaWindowMonth].
Definition windowLimits (provider : QuotaConfigProvider) : limitsOf := λ t,
  match provider t with Ok cfg => Ok (filter knownWindow (Limits cfg)) | Err e => Err e end.
Definition fixedLimits (provider : QuotaConfigProvider) : limitsOf := λ t,
  match provider t with
  | Ok cfg => Ok (filter (λ l, 0 < LimRequests l ∨ 0 < LimTokens l) (take 1 (filter knownWindow (Limits cfg))))
  | Err e => Err e
  end.

(** ** The decision the log of admitted requests asks for *)

(** What the log holds for a tenant in the minute, hour, day or month of [now]. *)
Definition countsIn t (w : QuotaWindow) (now : Z) (e : admitted) : bool := bool_decide (aTenant e = t ∧ sameWindow w (aNow e) now).
Definition usedAt log t (w : QuotaWindow) (now : Z) : Z * Z :=
  (sumOf aRequests (countsIn t w now) log, sumOf aTokens (countsIn t w now) log).
Definition boundsOf (l : QuotaLimit) : Z * Z := (LimRequests l, LimTokens l).
(** What a bound leaves, -1 when it does not bound, and the least of several. *)
Definition leftOf (limit total : Z) : Z := if decide (0 < limit) then 0 `max` (limit - total) else -1.
Definition leastOf (xs : list Z) : Z := match filter (λ x, 0 ≤ x) xs with [] => -1 | x :: xs => foldr Z.min x xs end.

(** The first limit whose window would hold too much refuses the call, with what the
    window has left and the time until it ends; otherwise the call passes with the least
    remainder of all limits. *)
Definition specDecide log c (ls : list QuotaLimit) : decision :=
  let before l := usedAt log (cTenant c) (Window l) (nowOf c) in
  let after l := plus2 (before l) (asks c) in
  match head (filter (λ l, ¬ fits (boundsOf l) (after l)) ls) with
  | Some l => (MkResult false (leftOf (LimRequests l) (before l).1) (leftOf (LimTokens l) (before l).2)
                 (0 `max` ((windowEnds (Window l) (nowOf c) - cClk2 c) `min` int64_max)), Some ErrQuotaExceeded)
  | None => (MkResult true (leastOf ((λ l, leftOf (LimRequests l) (after l).1) <$> ls))
                           (leastOf ((λ l, leftOf (LimTokens l) (after l).2) <$> ls)) 0, None)
  end.

Definition specAllow (limits : limitsOf) log c : list admitted * decision :=
  match limits (cTenant c) with
  | Err e => (log, (MkResult false 0 0 0, Some e))
  | Ok [] => (log, (MkResult true 0 0 0, None))
  | Ok ls => let dec := specDecide log c ls in (if Allowed dec.1 then log ++ [entryOf c] else log, dec)
  end.
(** The same decision with the code's window keys. *)
Definition keyAllow (limits : limitsOf) log c : list admitted * decision :=
  match limits (cTenant c) with
  | Err e => (log, refusedWith e)
  | Ok [] => (log, allowedFree)
  | Ok ls =>
      let dec := decideFrom (used log) (cTenant c) (normal c) (cClk2 c) (-1) (-1) ls in
      (if Allowed dec.1 then log ++ [entryOf c] else log, dec)
  end.

Lemma known_normalize cfg : filter knownWindow (Limits cfg) = normalizeQuotaLimits cfg.
Proof.
  unfold normalizeQuotaLimits. apply list_filter_iff. intros l. unfold knownWindow, isValidQuotaWindow.
  rewrite !orb_true_iff, !bool_decide_eq_true, !elem_of_cons, elem_of_nil. tauto.
Qed.
Lemma active_bounded ls : active ls = filter (λ l, 0 < LimRequests l ∨ 0 < LimTokens l) ls.
Proof.
  apply list_filter_iff. intros l. unfold isActive. rewrite negb_true_iff, andb_false_iff, !Z.leb_gt. done.
Qed.

(** A history of decisions and the log it leaves; [fails] says whether the store may. *)
Inductive trace (fails : Prop) (limits : limitsOf) : list admitted → list call → list decision → list admitted → Prop :=
| trace_nil log : trace fails limits log [] [] log
| trace_step log c cs log1 dec decs log2 :
    specAllow limits log c = (log1, dec) → trace fails limits log1 cs decs log2 →
    trace fails limits log (c :: cs) (dec :: decs) log2
| trace_fail log c cs dec decs log2 :
    fails → storeError dec → trace fails limits log cs decs log2 →
    trace fails limits log (c :: cs) (dec :: decs) log2.

(** ** No window holds more than its limit *)

Definition log_within (limits : limitsOf) log : Prop :=
  ∀ t ls l now, limits t = Ok ls → l ∈ ls → fits (boundsOf l) (usedAt log t (Window l) now).

Lemma usedAt_key log t w now : usedAt log t w now = used log (MkKey t w (quotaWindowStart now w)).
Proof.
  assert (∀ e, countsIn t w now e = inWindow t w (quotaWindowStart now w) e) as Hc.
  { intros e. apply eq_true_iff_eq. unfold countsIn, inWindow. by rewrite bool_decide_eq_true, andb_true_iff, bool_decide_eq_true, Z.eqb_eq, sameWindow_start. }
  unfold usedAt, used. f_equal; apply sumOf_ext, Forall_forall; intros e _; apply Hc.
Qed.
Lemma usedAt_snoc log c t w now :
  usedAt (log ++ [entryOf c]) t w now =
  if countsIn t w now (entryOf c) then plus2 (usedAt log t w now) (asks c) else usedAt log t w now.
Proof. unfold usedAt, plus2. rewrite !sumOf_app. simpl. case_match; f_equal; simpl; lia. Qed.
Lemma usedAt_same log t w a b : sameWindow w a b → usedAt log t w a = usedAt log t w b.
Proof. rewrite sameWindow_start, !usedAt_key. by intros ->. Qed.

Lemma specDecide_allowed log c ls : Allowed (specDecide log c ls).1 = true →
  ∀ l, l ∈ ls → fits (boundsOf l) (plus2 (usedAt log (cTenant c) (Window l) (nowOf c)) (asks c)).
Proof.
  unfold specDecide. destruct (filter _ ls) as [|l0 fs] eqn:E; [|done]. intros _ l Hl.
  destruct (decide (fits (boundsOf l) (plus2 (usedAt log (cTenant c) (Window l) (nowOf c)) (asks c)))) as [|Hf]; [done|].
  assert (l ∈ filter (λ l, ¬ fits (boundsOf l) (plus2 (usedAt log (cTenant c) (Window l) (nowOf c)) (asks c))) ls) as Hin by by apply list_elem_of_filter.
  rewrite E in Hin. set_solver.
Qed.

Lemma used_snoc log c k :
  used (log ++ [entryOf c]) k =
  if inWindow (kTenant k) (kWindow k) (kStart k) (entryOf c) then plus2 (used log k) (Requests (normal c), Tokens (normal c))
  else used log k.
Proof. unfold used, plus2. rewrite !sumOf_app. simpl. case_match; f_equal; simpl; lia. Qed.

Lemma inWindow_key t w start c :
  inWindow t w start (entryOf c) = true ↔ t = cTenant c ∧ start = quotaWindowStart (nowOf c) w.
Proof. unfold inWindow. simpl. rewrite andb_true_iff, bool_decide_eq_true, Z.eqb_eq. naive_solver. Qed.

Lemma spec_within limits log c log1 dec : log_within limits log → specAllow limits log c = (log1, dec) → log_within limits log1.
Proof.
  intros Hw Hs t ls l now Hls Hl. unfold specAllow in Hs.
  destruct (limits (cTenant c)) as [lc|e] eqn:Ec; [|simplify_eq; by eapply Hw].
  destruct lc as [|l0 lc]; [simplify_eq; by eapply Hw|]. injection Hs as <- <-.
  destruct (Allowed _) eqn:Ea; [|by eapply Hw]. rewrite usedAt_snoc.
  destruct (countsIn _ _ _ _) eqn:Ei; [|by eapply Hw]. unfold countsIn in Ei. apply bool_decide_eq_true in Ei as [Et Ew]. cbn [aTenant aNow entryOf] in Et, Ew.
  subst t. rewrite Ec in Hls. injection Hls as <-. rewrite <- (usedAt_same _ _ _ _ _ Ew). by eapply specDecide_allowed.
Qed.

Lemma trace_within fails limits log cs decs log' :
  trace fails limits log cs decs log' → log_within limits log → log_within limits log'.
Proof. induction 1; [done| |done]. intros. apply IHtrace. by eapply spec_within. Qed.

Lemma within_nil limits : log_within limits [].
Proof. intros t ls l now _ _. unfold fits. simpl. lia. Qed.

(** ** Sums stay within [int64] *)

Definition bounded log : Prop :=
  Forall (λ e, 0 ≤ aRequests e ∧ 0 ≤ aTokens e) log ∧
  sumOf aRequests everything log ≤ int64_max ∧ sumOf aTokens everything log ≤ int64_max.

Lemma bounded_nonneg log : bounded log → Forall (λ e, 0 ≤ aRequests e) log ∧ Forall (λ e, 0 ≤ aTokens e) log.
Proof. intros [H _]. split; eapply Forall_impl; try exact H; naive_solver. Qed.
Lemma used_nonneg log k : bounded log → nonneg2 (used log k).
Proof. intros [H1 H2]%bounded_nonneg. split; by apply sumOf_nonneg. Qed.
Lemma bounded_sub log1 log2 log3 : bounded (log1 ++ log2 ++ log3) → bounded (log1 ++ log3).
Proof.
  intros (H1 & H2 & H3). apply Forall_app in H1 as [Ha Hbc]. apply Forall_app in Hbc as [Hb Hc].
  split; [by apply Forall_app|]. rewrite !sumOf_app in *.
  assert (0 ≤ sumOf aRequests everything log2) by (apply sumOf_nonneg; eapply Forall_impl; naive_solver).
  assert (0 ≤ sumOf aTokens everything log2) by (apply sumOf_nonneg; eapply Forall_impl; naive_solver). lia.
Qed.
Lemma sum_bounded log (P : admitted → bool) c rest : bounded (log ++ entryOf c :: rest) →
  0 ≤ sumOf aRequests P log ∧ 0 ≤ sumOf aTokens P log ∧ 0 ≤ Requests (normal c) ∧ 0 ≤ Tokens (normal c) ∧
  sumOf aRequests P log + Requests (normal c) ≤ int64_max ∧ sumOf aTokens P log + Tokens (normal c) ≤ int64_max.
Proof.
  intros Hb. assert (bounded (log ++ [entryOf c])) as Hb'.
  { replace (entryOf c :: rest) with ([entryOf c] ++ rest ++ []) in Hb by (by rewrite app_nil_r).
    rewrite (assoc_L (++)) in Hb. apply bounded_sub in Hb. by rewrite app_nil_r in Hb. }
  destruct (bounded_nonneg _ Hb') as [Hr Ht]. destruct Hb' as (_ & B1 & B2). rewrite !sumOf_app in B1, B2. simpl in B1, B2.
  apply Forall_app in Hr as [Hr [Hr1 _]%Forall_cons], Ht as [Ht [Ht1 _]%Forall_cons].
  assert (∀ f, Forall (λ e, 0 ≤ f e) log → 0 ≤ sumOf f P log ≤ sumOf f everything log) as Hle.
  { intros f Hf. split; [by apply sumOf_nonneg|]. apply sumOf_mono; [done|]. by apply Forall_forall. }
  pose proof (Hle _ Hr). pose proof (Hle _ Ht). simpl in *. lia.
Qed.
Lemma used_bounded log k c rest : bounded (log ++ entryOf c :: rest) →
  int64_2 (plus2 (used log k) (Requests (normal c), Tokens (normal c))).
Proof.
  intros Hb. pose proof (sum_bounded log (inWindow (kTenant k) (kWindow k) (kStart k)) c rest Hb).
  unfold int64_2, is_int64, used, plus2. cbn [fst snd]. unfold int64_min in *. lia.
Qed.

Lemma spec_bounded limits log c log1 dec rest :
  specAllow limits log c = (log1, dec) → bounded (log ++ entryOf c :: rest) → bounded (log1 ++ rest).
Proof.
  intros Hs Hb. assert (log1 = log ∨ log1 = log ++ [entryOf c]) as [->| ->]
    by (unfold specAllow in Hs; repeat case_match; simplify_eq; auto).
  - by apply (bounded_sub log [entryOf c]).
  - by rewrite <- (assoc_L (++)).
Qed.

(** ** The code's keys give the decision of the log *)

Lemma remaining_left limit total : limit ≤ int64_max → 0 ≤ total ≤ int64_max → remaining limit total = leftOf limit total.
Proof.
  intros Hl Ht. unfold remaining, leftOf. destruct (limit <=? 0) eqn:E; unbool; [by rewrite decide_False by lia|].
  rewrite decide_True by lia. rewrite wrap64_small by (unfold is_int64, int64_min, int64_max in *; lia). case_match; unbool; lia.
Qed.
Lemma foldr_min_acc m x xs : foldr Z.min (Z.min m x) xs = Z.min x (foldr Z.min m xs).
Proof. induction xs as [|y xs IH]; simpl; lia. Qed.
Lemma leastOf_merge m x xs : leastOf (minRemaining m x :: xs) = leastOf (m :: x :: xs).
Proof.
  unfold leastOf, minRemaining. rewrite !filter_cons. generalize (filter (λ x, 0 ≤ x) xs). intros ys.
  destruct (Z.ltb_spec x 0), (Z.ltb_spec m 0), (Z.ltb_spec x m); repeat (case_decide; try lia); try done; cbn [foldr];
    rewrite <- foldr_min_acc; f_equal; lia.
Qed.
Lemma fold_min (f : QuotaLimit → Z) ls m : fold_left (λ m l, minRemaining m (f l)) ls m = leastOf (m :: (f <$> ls)) ∨ m < -1.
Proof.
  destruct (decide (m < -1)) as [|Hm]; [by right|left]. revert m Hm. induction ls as [|l ls IH]; intros m Hm; simpl.
  - unfold leastOf. rewrite filter_cons. case_decide; simpl; lia.
  - rewrite IH; [apply leastOf_merge|]. unfold minRemaining. repeat case_match; unbool; lia.
Qed.
(** A limit without a bound leaves -1, which changes no minimum. *)
Lemma fold_active (f : QuotaLimit → Z) ls m : (∀ l, isActive l = false → f l = -1) →
  fold_left (λ m l, minRemaining m (f l)) (active ls) m = fold_left (λ m l, minRemaining m (f l)) ls m.
Proof.
  intros Hf. revert m. induction ls as [|l ls IH]; intros m; [done|]. unfold active. rewrite filter_cons. cbn [fold_left].
  case_decide as E; cbn [fold_left]; [apply IH|]. rewrite (Hf l) by (by apply not_true_is_false). apply IH.
Qed.
Lemma least_key (f g : QuotaLimit → Z) ls : (∀ l, isActive l = false → f l = -1) → Forall (λ l, f l = g l) ls →
  fold_left (λ m l, minRemaining m (f l)) (active ls) (-1) = leastOf (g <$> ls).
Proof.
  intros Hf Hg. rewrite fold_active by done. destruct (fold_min f ls (-1)) as [->|]; [|lia].
  transitivity (leastOf (f <$> ls)); [done|]. f_equal. apply list_fmap_ext. intros i l Hl. by apply (Forall_lookup_1 _ _ _ _ Hg Hl).
Qed.

(** Bounds are Go [int]s. *)
Definition int_limits (limits : limitsOf) : Prop :=
  ∀ t ls, limits t = Ok ls → Forall (λ l, LimRequests l ≤ int64_max ∧ LimTokens l ≤ int64_max) ls.

Lemma specDecide_key log c rest ls : bounded (log ++ entryOf c :: rest) →
  Forall (λ l, LimRequests l ≤ int64_max ∧ LimTokens l ≤ int64_max) ls →
  specDecide log c ls = decideFrom (used log) (cTenant c) (normal c) (cClk2 c) (-1) (-1) ls.
Proof.
  intros Hb Hls. unfold specDecide, decideFrom.
  assert (∀ l, usedAt log (cTenant c) (Window l) (nowOf c) = used log (keyOf (cTenant c) (normal c) l)) as Hu by (intros; apply usedAt_key).
  assert (∀ l, plus2 (usedAt log (cTenant c) (Window l) (nowOf c)) (asks c) = usedAfter (used log) (cTenant c) (normal c) l) as Ha
    by (intros l; unfold usedAfter; by rewrite Hu).
  pose proof (λ l, sum_bounded log (inWindow (cTenant c) (Window l) (quotaWindowStart (nowOf c) (Window l))) c rest Hb) as Hs.
  assert (filter (λ l, ¬ fits (boundsOf l) (plus2 (usedAt log (cTenant c) (Window l) (nowOf c)) (asks c))) ls
    = filter (λ l, tooMuch (used log) (cTenant c) (normal c) l = true) (active ls)) as ->.
  { unfold active. rewrite list_filter_filter. apply list_filter_iff. intros l. rewrite Ha. unfold tooMuch. rewrite exceeds_fits.
    rewrite negb_true_iff, bool_decide_eq_false. fold (boundsOf l). unfold isActive. rewrite negb_true_iff, andb_false_iff, !Z.leb_gt.
    unfold fits, boundsOf. cbn [fst snd]. lia. }
  destruct (filter _ (active ls)) as [|l fs] eqn:Ef; cbn [head].
  - f_equal. f_equal; symmetry; apply least_key.
    + intros l Hl. unfold isActive in Hl. unfold remaining. case_match; unbool; [done|lia].
    + eapply Forall_impl; [exact Hls|]. intros l [Hl _]. rewrite Ha. apply remaining_left; [done|].
      specialize (Hs l). unfold usedAfter, used, keyOf, plus2. cbn [fst snd kTenant kWindow kStart]. change (Now (normal c)) with (nowOf c). lia.
    + intros l Hl. unfold isActive in Hl. unfold remaining. case_match; unbool; [done|lia].
    + eapply Forall_impl; [exact Hls|]. intros l [_ Hl]. rewrite Ha. apply remaining_left; [done|].
      specialize (Hs l). unfold usedAfter, used, keyOf, plus2. cbn [fst snd kTenant kWindow kStart]. change (Now (normal c)) with (nowOf c). lia.
  - assert (l ∈ ls) as Hl.
    { assert (l ∈ filter (λ l, tooMuch (used log) (cTenant c) (normal c) l = true) (active ls)) as Hin by (rewrite Ef; left).
      apply list_elem_of_filter in Hin as [_ Hin]. by apply list_elem_of_filter in Hin as [_ ?]. }
    rewrite Forall_forall in Hls. destruct (Hls l Hl) as [L1 L2]. specialize (Hs l). unfold refusal. rewrite Hu, windowEnds_eq.
    unfold used, keyOf. cbn [fst snd kTenant kWindow kStart]. change (Now (normal c)) with (nowOf c).
    rewrite !remaining_left by lia. f_equal. f_equal. unfold notNegative, Sub. unfold int64_min, int64_max. case_match; unbool; lia.
Qed.
Lemma specAllow_key limits log c rest : int_limits limits → bounded (log ++ entryOf c :: rest) →
  specAllow limits log c = keyAllow limits log c.
Proof.
  intros Hi Hb. unfold specAllow, keyAllow. specialize (Hi (cTenant c)). destruct (limits (cTenant c)) as [[|l ls]|e]; try done.
  cbv zeta. rewrite (specDecide_key log c rest) by auto. done.
Qed.

(** ** The window manager *)

Lemma decideFrom_ext u u' t req clk2 m1 m2 ls :
  (∀ l, l ∈ active ls → u (keyOf t req l) = u' (keyOf t req l)) →
  decideFrom u t req clk2 m1 m2 ls = decideFrom u' t req clk2 m1 m2 ls.
Proof.
  revert m1 m2. induction ls as [|l ls IH]; intros m1 m2 Hu; [done|].
  destruct (isActive l) eqn:Ea.
  - assert (active (l :: ls) = l :: active ls) as Eact by (unfold active; by rewrite filter_cons_True). rewrite Eact in Hu.
    assert (usedAfter u t req l = usedAfter u' t req l) as E by (unfold usedAfter; rewrite Hu by set_solver; done).
    destruct (tooMuch u' t req l) eqn:Et; assert (tooMuch u t req l = tooMuch u' t req l) as Et' by (unfold tooMuch; by rewrite E).
    + rewrite !decideFrom_refuse by congruence. unfold refusal. rewrite (Hu l) by set_solver. done.
    + rewrite !decideFrom_pass by congruence. rewrite E. apply IH. set_solver.
  - rewrite !decideFrom_skip by done. apply IH. intros l' Hl'. apply Hu. unfold active in *. by rewrite filter_cons_False by (by rewrite Ea).
Qed.

Section windows.
Context {St : Type} `{!QuotaStore St, !QuotaStoreLaws St}.
Variable provider : QuotaConfigProvider.
Hypothesis one_limit_per_window : ∀ t cfg, provider t = Ok cfg → NoDup (Window <$> active (normalizeQuotaLimits cfg)).
Implicit Types (s : St).

Definition allowCall c s : St * decision :=
  AllowWindows provider (cNow0 c) (cClk c) (cClk2 c) (cTenant c) (cReq c) s.
Fixpoint runWindows cs s : St * list decision :=
  match cs with
  | [] => (s, [])
  | c :: cs => let '(s, dec) := allowCall c s in let '(s, decs) := runWindows cs s in (s, dec :: decs)
  end.

(** From [now] on, the store holds what the log says of every limited window. *)
Definition tracks s log (now : Z) : Prop :=
  ∀ t ls l n, windowLimits provider t = Ok ls → l ∈ active ls → now ≤ n →
  let k := MkKey t (Window l) (quotaWindowStart n (Window l)) in usedIn s k = used log k.

Lemma tracks_later s log now now' : now ≤ now' → tracks s log now → tracks s log now'.
Proof. intros Hle H t ls l n Hls Hl Hn. eapply H; [done..|lia]. Qed.

(** Windows at or after a call's own are still open when its last reading is taken. *)
Lemma later_live c n w t : nowOf c ≤ n → (∀ j w, cClk c j ≤ windowEnds w (nowOf c)) →
  liveAll (cClk c) (MkKey t w (quotaWindowStart n w)).
Proof.
  intros Hn Hclk j. unfold live. simpl. specialize (Hclk j w). rewrite windowEnds_eq in Hclk.
  destruct (decide (quotaWindowStart n w = quotaWindowStart (nowOf c) w)) as [->|Hne]; [done|].
  pose proof (window_next _ _ _ Hn Hne). pose proof (window_holds n w). lia.
Qed.

Lemma keys_nodup c cfg : provider (cTenant c) = Ok cfg →
  NoDup (keyOf (cTenant c) (normal c) <$> active (normalizeQuotaLimits cfg)).
Proof using one_limit_per_window.
  intros H%one_limit_per_window. apply (NoDup_fmap_1 kWindow). rewrite <- list_fmap_compose. exact H.
Qed.

(** The reservations left in the store are the entry added to the log. *)
Lemma tracks_after c s s' log now ls (ok : bool) :
  tracks s log now → now ≤ nowOf c → (∀ j w, cClk c j ≤ windowEnds w (nowOf c)) →
  windowLimits provider (cTenant c) = Ok ls →
  holds (cClk c) (normal c) (usedIn s) s' (if ok then keyOf (cTenant c) (normal c) <$> active ls else []) →
  tracks s' (if ok then log ++ [entryOf c] else log) (nowOf c).
Proof.
  clear one_limit_per_window. intros Htr Hnow Hclk Els Hh t ls' l n Hls Hl Hn k.
  assert (usedIn s k = used log k) as Ek by (eapply Htr; [done..|lia]). rewrite (Hh k) by by apply later_live.
  destruct ok; [|by rewrite decide_False by set_solver]. rewrite used_snoc, Ek. simpl.
  destruct (decide _) as [Hin|Hin], (inWindow _ _ _ _) eqn:Ei; try done.
  - apply list_elem_of_fmap in Hin as (l' & Hk & Hl'). unfold k, keyOf in Hk. injection Hk as -> Hw Hst.
    rewrite <- Hw in Hst. enough (inWindow (cTenant c) (Window l) (quotaWindowStart n (Window l)) (entryOf c) = true) by congruence.
    apply inWindow_key. done.
  - apply inWindow_key in Ei as [-> Est]. rewrite Els in Hls. injection Hls as <-. destruct Hin.
    unfold k. rewrite Est. by apply (list_elem_of_fmap_2 (keyOf (cTenant c) (normal c))).
Qed.

Lemma allow_step c s s' dec log now rest :
  store_ok s → tracks s log now → now ≤ nowOf c → 0 ≤ Tokens (cReq c) →
  (∀ j w, cClk c j ≤ windowEnds w (nowOf c)) → bounded (log ++ entryOf c :: rest) →
  allowCall c s = (s', dec) →
  ∃ log1, store_ok s' ∧ tracks s' log1 (nowOf c) ∧
    (keyAllow (windowLimits provider) log c = (log1, dec) ∨ (store_fails ∧ storeError dec ∧ log1 = log)).
Proof using one_limit_per_window.
  intros Hs Htr Hnow Htok Hclk Hb. unfold allowCall, AllowWindows, keyAllow, windowLimits.
  destruct (provider (cTenant c)) as [cfg|e] eqn:Ep; [|intros; simplify_eq; exists log; eauto using tracks_later].
  assert (windowLimits provider (cTenant c) = Ok (normalizeQuotaLimits cfg)) as Els by (unfold windowLimits; by rewrite Ep, known_normalize).
  rewrite known_normalize.
  pose proof (keys_nodup _ _ Ep) as Hnd. destruct (normalizeQuotaLimits cfg) as [|l0 ls0] eqn:El.
  { intros; simplify_eq; exists log; eauto using tracks_later. }
  rewrite <- El in *. clear l0 ls0 El. set (ls := normalizeQuotaLimits cfg) in *. fold (normal c). intros Hloop.
  assert (∀ l, l ∈ active ls → usedIn s (keyOf (cTenant c) (normal c) l) = used log (keyOf (cTenant c) (normal c) l)) as Hkeys.
  { intros l Hl. by eapply Htr. }
  assert (0 ≤ Requests (normal c)) by (unfold normal, normalizeQuotaRequest; simpl; case_match; unbool; lia).
  eapply (reserveLoop_spec (cClk c) (cClk2 c) (cTenant c) (normal c) (usedIn s)) in Hloop as [Hs' Hloop]; [|done..| |done].
  2: { apply Forall_fmap, Forall_forall. intros l Hl. simpl. unfold good. rewrite Hkeys by done. split_and!.
       - by apply later_live. - apply used_nonneg. rewrite <- (app_nil_r log). eapply (bounded_sub log (entryOf c :: rest) []).
         by rewrite app_nil_r. - by eapply used_bounded. }
  destruct Hloop as [(Hf & He & Hh)|[-> Hh]].
  - exists log. split; [done|]. split; [by eapply (tracks_after c s s' log now ls false)|by right].
  - rewrite app_nil_l in Hh. rewrite (decideFrom_ext _ (used log)) in * by done.
    eexists. split; [done|]. split; [by eapply tracks_after|]. left.
    by rewrite (decideFrom_ext (usedIn s) (used log)).
Qed.

Lemma runWindows_trace cs s log now :
  int_limits (windowLimits provider) → store_ok s → tracks s log now → Forall (λ c, now ≤ nowOf c) cs → StronglySorted (λ a b, nowOf a ≤ nowOf b) cs →
  Forall (λ c, 0 ≤ Tokens (cReq c) ∧ ∀ j w, cClk c j ≤ windowEnds w (nowOf c)) cs →
  bounded (log ++ (entryOf <$> cs)) →
  ∃ log', trace store_fails (windowLimits provider) log cs (runWindows cs s).2 log'.
Proof using one_limit_per_window.
  intros Hint. revert s log now. induction cs as [|c cs IH]; intros s log now Hs Htr Hnow Hsort Hok Hb; [eexists; by apply trace_nil|].
  cbn [runWindows]. destruct (allowCall c s) as [s1 dec] eqn:Ec. destruct (runWindows cs s1) as [s2 decs] eqn:Er.
  inv Hnow. inv Hsort. inv Hok. destruct H5 as [Htok Hclk]. cbn [fmap list_fmap] in Hb.
  destruct (allow_step c s s1 dec log now (entryOf <$> cs)) as (log1 & Hs1 & Htr1 & Hspec); [done..|].
  rewrite <- (specAllow_key _ _ _ _ Hint Hb) in Hspec.
  assert (bounded (log1 ++ (entryOf <$> cs))) as Hb1.
  { destruct Hspec as [Hspec|(_ & _ & ->)]; [by eapply spec_bounded|by apply (bounded_sub log [entryOf c])]. }
  destruct (IH s1 log1 (nowOf c)) as [log' Ht]; [done..|]. rewrite Er in Ht. exists log'.
  destruct Hspec as [Hspec|(Hf & He & ->)]; [by eapply trace_step|by apply trace_fail].
Qed.
End windows.

Lemma calls_bounded cs : calls_fit cs → bounded (entryOf <$> cs).
Proof.
  intros (_ & Hok & H1 & H2). split; [|done]. apply Forall_fmap. eapply Forall_impl; [exact Hok|].
  intros c Htok. simpl in *. case_match; unbool; lia.
Qed.

(** C20: over any quota store that keeps the laws of its interface, starting empty, with at most one bounding limit per
    window and limits that are ints, and for any history of calls made one after the other in the order of their times,
    none with a negative token count, with all requested amounts together within int64 and no store clock reading past
    the end of a window open at the call's time: the window manager decides every request exactly as the log of admitted
    requests says. It refuses a request when the minute, hour, day or month of some limit would hold strictly more than
    the limit, with the error, what is left of the first such limit and the time until its window ends, and otherwise
    lets it through with the least remainder of all limits; a refused request, also one the store fails on half-way,
    leaves no reservation behind; and at the end no window of any tenant holds more than its limit. *)
Theorem tenant_windows_refine {St} `{!QuotaStore St, !QuotaStoreLaws St} (provider : QuotaConfigProvider) (s : St) cs :
  (∀ t ls, windowLimits provider t = Ok ls → NoDup (Window <$> filter (λ l, 0 < LimRequests l ∨ 0 < LimTokens l) ls)) →
  int_limits (windowLimits provider) → store_ok s → (∀ k, usedIn s k = (0, 0)) → calls_ok cs →
  ∃ log, trace store_fails (windowLimits provider) [] cs (runWindows provider cs s).2 log ∧
         log_within (windowLimits provider) log.
Proof.
  intros Hone' Hint Hs Hu Hcs.
  assert (∀ t cfg, provider t = Ok cfg → NoDup (Window <$> active (normalizeQuotaLimits cfg))) as Hone.
  { intros t cfg Hp. rewrite active_bounded, <- known_normalize. apply (Hone' t). unfold windowLimits. by rewrite Hp. }
  destruct (runWindows_trace provider Hone cs s [] (match cs with [] => 0 | c :: _ => nowOf c end))
    as [log Ht]; [done|done|..|by apply Hcs| |by apply calls_bounded, Hcs|].
  - intros t ls l n _ _ _ k. by rewrite Hu.
  - destruct Hcs as [[Hsort _] _]. inv Hsort; constructor; [lia|done].
  - destruct Hcs as [(_ & Htok & _) Hclk]. by apply Forall_and.
  - exists log. split; [done|]. eapply trace_within; [done|apply within_nil].
Qed.

(** A tenant with two requests and 100 tokens a minute, and three requests a day. *)
Definition acme : gostring := str "acme".
Definition demoQuota : QuotaConfig := MkQuota [MkLimit QuotaWindowMinute 2 100; MkLimit QuotaWindowDay 3 0].
Definition demoConfigFor (q : QuotaConfig) : Config := MkConfig acme q (MkPolicy [] [] [] []) (MkRate 0 0) ∅ 0.
Definition demoProvider : QuotaConfigProvider :=
  QuotaConfigOf (SetTenantConfig 0 (demoConfigFor demoQuota) NewInMemoryConfigManager).
Definition demoDay : Z := 738000 * 86400 * nanosPerSecond.
Definition demoCall (sec tok : Z) : call :=
  let now := demoDay + sec * nanosPerSecond in MkCall now (λ _, now) now acme (MkRequest 1 tok now).
Definition demoCalls : list call := [demoCall 0 30; demoCall 1 80; demoCall 2 30; demoCall 3 0; demoCall 61 80; demoCall 122 1].

Lemma demo_provider t cfg : demoProvider t = Ok cfg → t = acme ∧ cfg = demoQuota.
Proof.
  unfold demoProvider, QuotaConfigOf, GetTenantConfig, SetTenantConfig, NewInMemoryConfigManager. cbn [configs TenantID TenantQuota demoConfigFor].
  destruct (decide (t = acme)) as [->|Hne].
  - rewrite lookup_insert_eq. intros H. injection H as <-. done.
  - rewrite lookup_insert_ne, lookup_empty by done. done.
Qed.

Lemma demo_ints (limits : QuotaConfigProvider → limitsOf) :
  (∀ t ls, limits demoProvider t = Ok ls → ls ⊆ Limits demoQuota) → int_limits (limits demoProvider).
Proof.
  intros H t ls Hl%H. apply Forall_forall. intros l Hin%Hl. cbn in Hin. rewrite !elem_of_cons in Hin.
  destruct Hin as [->|[->|Hin]]; [vm_compute; split; discriminate..|set_solver].
Qed.
Lemma windows_demo t ls : windowLimits demoProvider t = Ok ls → ls ⊆ Limits demoQuota.
Proof.
  unfold windowLimits. destruct (demoProvider t) as [cfg|] eqn:E; [|done]. apply demo_provider in E as [_ ->]. intros [= <-].
  intros l Hl. by apply list_elem_of_filter in Hl as [_ ?].
Qed.
Lemma fixed_demo t ls : fixedLimits demoProvider t = Ok ls → ls ⊆ Limits demoQuota.
Proof.
  unfold fixedLimits. destruct (demoProvider t) as [cfg|] eqn:E; [|done]. apply demo_provider in E as [_ ->]. intros [= <-].
  intros l [_ Hl]%list_elem_of_filter. apply list_elem_of_singleton in Hl as ->. left.
Qed.

Lemma demo_calls_ok (l : list (Z * Z)) :
  StronglySorted (λ a b, a.1 ≤ b.1) l → Forall (λ x, 0 ≤ x.2) l →
  sumOf aRequests everything (entryOf <$> ((λ x, demoCall x.1 x.2) <$> l)) ≤ int64_max →
  sumOf aTokens everything (entryOf <$> ((λ x, demoCall x.1 x.2) <$> l)) ≤ int64_max →
  calls_ok ((λ x, demoCall x.1 x.2) <$> l).
Proof.
  intros Hsort Hl H1 H2.
  assert (∀ x, nowOf (demoCall x.1 x.2) = demoDay + x.1 * nanosPerSecond) as Hnow.
  { intros x. unfold nowOf, normal, normalizeQuotaRequest, IsZero. cbn [Now cReq cNow0 demoCall]. by case_match. }
  split_and!; [split_and!; [|apply Forall_fmap; eapply Forall_impl; [exact Hl|done]|done..]|apply Forall_fmap; eapply Forall_impl; [exact Hl|]].
  - clear H1 H2 Hl. induction Hsort as [|x l Hsort IH Hx]; [constructor|]. constructor; [exact IH|].
    apply Forall_fmap. eapply Forall_impl; [exact Hx|]. intros y Hy. unfold compose. simpl in Hy. rewrite !Hnow. unfold nanosPerSecond. lia.
  - intros x Ht. unfold compose. intros j w. rewrite Hnow, windowEnds_eq. cbn [demoCall cClk].
    pose proof (window_holds (demoDay + x.1 * nanosPerSecond) w). lia.
Qed.

Lemma tenant_windows_refine_witness :
  (λ d, Allowed d.1) <$> (runWindows demoProvider demoCalls (NewInMemoryQuotaStore None demoDay)).2 =
    [true; false; true; false; true; false] ∧
  ∃ log, trace False (windowLimits demoProvider) [] demoCalls
           (runWindows demoProvider demoCalls (NewInMemoryQuotaStore None demoDay)).2 log ∧
         log_within (windowLimits demoProvider) log.
Proof.
  split; [vm_compute; reflexivity|]. change False with (store_fails (St := InMemoryQuotaStore)).
  apply (tenant_windows_refine (St := InMemoryQuotaStore) demoProvider (NewInMemoryQuotaStore None demoDay) demoCalls).
  - intros t ls. unfold windowLimits. destruct (demoProvider t) as [cfg|] eqn:E; [|done]. apply demo_provider in E as [_ ->].
    intros [= <-]. vm_compute. repeat constructor; set_solver.
  - exact (demo_ints windowLimits windows_demo).
  - apply map_Forall_empty.
  - intros k. rewrite used_mem. reflexivity.
  - apply (demo_calls_ok [(0, 30); (1, 80); (2, 30); (3, 0); (61, 80); (122, 1)]); [| |vm_compute; discriminate..].
    + repeat constructor; simpl; lia.
    + repeat constructor; vm_compute; discriminate.
Defined.

(** ** The fixed-window manager *)

Section fixed.
Variable provider : QuotaConfigProvider.
Implicit Types (m : FixedWindowQuotaManager).

Definition fixedCall c m : FixedWindowQuotaManager * decision :=
  AllowFixed provider (cNow0 c) (cClk2 c) (cTenant c) (cReq c) m.
Fixpoint runFixed cs m : FixedWindowQuotaManager * list decision :=
  match cs with
  | [] => (m, [])
  | c :: cs => let '(m, dec) := fixedCall c m in let '(m, decs) := runFixed cs m in (m, dec :: decs)
  end.

(** What the counter of a tenant says of the window that starts at [start]. *)
Definition counted (w : QuotaWindow) (start : Z) (oc : option quotaCounter) : Z * Z :=
  match oc with Some cn => if windowStart cn =? start then (requests cn, tokens cn) else (0, 0) | None => (0, 0) end.
Definition counter_ok (w : QuotaWindow) (oc : option quotaCounter) : Prop :=
  match oc with Some cn => windowEnd cn = quotaWindowEnd (windowStart cn) w | None => True end.

(** From [now] on, the counters say what the log says. *)
Definition counts m log (now : Z) : Prop :=
  ∀ t l, fixedLimits provider t = Ok [l] → counter_ok (Window l) (counters m !! t) ∧
    ∀ n, now ≤ n → let start := quotaWindowStart n (Window l) in
      counted (Window l) start (counters m !! t) = used log (MkKey t (Window l) start).

Lemma counts_later m log now now' : now ≤ now' → counts m log now → counts m log now'.
Proof. intros Hle H t l Hl. destruct (H t l Hl) as [H1 H2]. split; [done|]. intros n Hn. apply H2. lia. Qed.

Lemma evict_counts m log now : counts m log now → counts (evictStaleLocked now m) log now.
Proof.
  unfold evictStaleLocked. case_match; [done|]. intros H0 t l Hl. destruct (H0 t l Hl) as [H1 H2]. cbn [counters].
  destruct (counters m !! t) as [cn|] eqn:E.
  - destruct (decide (windowEnd cn < now)) as [Hlt|Hge].
    + rewrite map_lookup_filter_None_2 by (right; intros x Hx; rewrite E in Hx; injection Hx as <-; simpl; tauto).
      split; [done|]. intros n Hn. rewrite <- H2 by done. simpl. set (start := quotaWindowStart _ _). destruct (windowStart cn =? start) eqn:Es; [|done].
      unbool. simpl in H1. pose proof (window_holds n (Window l)) as Hh. fold start in Hh. rewrite <- Es, <- H1 in Hh. lia.
    + rewrite (map_lookup_filter_Some_2 _ _ _ _ E) by done. done.
  - rewrite map_lookup_filter_None_2 by by left. done.
Qed.

(** The limits the specification applies are those of the code. *)
Lemma fixed_cases t cfg : provider t = Ok cfg →
  match normalizeQuotaLimits cfg with
  | [] => fixedLimits provider t = Ok []
  | l :: _ => fixedLimits provider t = Ok (if isActive l then [l] else [])
  end.
Proof.
  unfold fixedLimits. intros ->. rewrite known_normalize, <- active_bounded. destruct (normalizeQuotaLimits cfg) as [|l ls]; [done|]. unfold active. simpl.
  rewrite firstn_O. destruct (isActive l) eqn:E; [by rewrite filter_cons_True|by rewrite filter_cons_False by (by rewrite E)].
Qed.

Lemma decideFrom_single u t req clk2 l : isActive l = true →
  decideFrom u t req clk2 (-1) (-1) [l] =
  if tooMuch u t req l then refusal u t req clk2 l
  else (MkResult true (remaining (LimRequests l) (usedAfter u t req l).1) (remaining (LimTokens l) (usedAfter u t req l).2) 0, None).
Proof.
  intros Ha. destruct (tooMuch u t req l) eqn:Et; [by rewrite decideFrom_refuse|]. rewrite decideFrom_pass by done.
  unfold decideFrom. cbn. unfold minRemaining.
  assert (∀ a b, (if remaining a b <? 0 then -1 else if -1 <? 0 then remaining a b else if remaining a b <? -1 then remaining a b else -1)
    = remaining a b) as Hm; [|by rewrite !Hm].
  intros a b. unfold remaining. repeat case_match; unbool; lia.
Qed.

(** Nothing is logged in windows to come. *)
Lemma used_future log now n t w : Forall (λ e, aNow e ≤ now) log → now ≤ n →
  quotaWindowStart n w ≠ quotaWindowStart now w → used log (MkKey t w (quotaWindowStart n w)) = (0, 0).
Proof.
  intros Hlog Hn Hne. unfold used. cbn [kTenant kWindow kStart].
  assert (Forall (λ e, inWindow t w (quotaWindowStart n w) e = false) log) as Hf; [|by rewrite !sumOf_none].
  eapply Forall_impl; [exact Hlog|]. intros e He. simpl in He. unfold inWindow.
  destruct (Z.eqb_spec (quotaWindowStart (aNow e) w) (quotaWindowStart n w)) as [E|]; [|by rewrite andb_false_r].
  destruct Hne. rewrite <- E. symmetry. apply window_same. pose proof (window_holds n w) as Hh. rewrite <- E in Hh.
  pose proof (window_holds (aNow e) w). lia.
Qed.

Lemma counts_insert m log c l cn le (ok : bool) :
  let log' := if ok then log ++ [entryOf c] else log in
  fixedLimits provider (cTenant c) = Ok [l] → counts m log (nowOf c) → Forall (λ e, aNow e ≤ nowOf c) log →
  let start := quotaWindowStart (nowOf c) (Window l) in
  windowStart cn = start → windowEnd cn = quotaWindowEnd start (Window l) →
  (requests cn, tokens cn) = used log' (MkKey (cTenant c) (Window l) start) →
  counts (MkFixed (<[cTenant c := cn]> (counters m)) le) log' (nowOf c).
Proof.
  intros log' Hl Hc Hlog start Es Ee Eu t l' Hl'. cbn [counters]. destruct (decide (t = cTenant c)) as [->|Hne].
  - rewrite Hl in Hl'. injection Hl' as <-. rewrite lookup_insert_eq. cbn [counter_ok counted]. rewrite Es. split; [done|].
    intros n Hn. destruct (Z.eqb_spec start (quotaWindowStart n (Window l))) as [<-|Hne]; [done|].
    symmetry. apply used_future with (nowOf c); [|done..]. destruct ok; [|done]. apply Forall_app; split; [done|].
    repeat constructor. cbn. lia.
  - rewrite lookup_insert_ne by done. destruct (Hc t l' Hl') as [H1 H2]. split; [done|]. intros n Hn.
    rewrite (H2 n Hn). destruct ok; [|done]. unfold log'. rewrite used_snoc. simpl.
    destruct (inWindow _ _ _ _) eqn:Ei; [|done]. by apply inWindow_key in Ei as [? _].
Qed.

Lemma fixed_step c m m' dec log now rest :
  counts m log now → Forall (λ e, aNow e ≤ now) log → now ≤ nowOf c → 0 ≤ Tokens (cReq c) →
  bounded (log ++ entryOf c :: rest) → fixedCall c m = (m', dec) →
  ∃ log1, counts m' log1 (nowOf c) ∧ Forall (λ e, aNow e ≤ nowOf c) log1 ∧ keyAllow (fixedLimits provider) log c = (log1, dec).
Proof.
  intros Hc Hlog Hnow Htok Hb. unfold fixedCall, AllowFixed, keyAllow.
  assert (Forall (λ e, aNow e ≤ nowOf c) log) as Hlog' by (eapply Forall_impl; [exact Hlog|]; simpl; lia).
  apply (counts_later _ _ _ (nowOf c)) in Hc; [|done].
  destruct (provider (cTenant c)) as [cfg|e] eqn:Ep; [|unfold fixedLimits; rewrite Ep; intros; simplify_eq; eauto].
  pose proof (fixed_cases _ _ Ep) as Hcase. destruct (normalizeQuotaLimits cfg) as [|l ls]; rewrite Hcase.
  { intros; simplify_eq; eauto. }
  assert ((LimRequests l <=? 0) && (LimTokens l <=? 0) = negb (isActive l)) as -> by (unfold isActive; by rewrite negb_involutive).
  destruct (isActive l) eqn:Ha; cbn [negb]; [|intros; simplify_eq; eauto]. rewrite decideFrom_single by done.
  fold (normal c). change (Now (normal c)) with (nowOf c). apply evict_counts in Hc. set (m1 := evictStaleLocked (nowOf c) m) in *.
  set (start := quotaWindowStart (nowOf c) (Window l)). set (cn := match counters m1 !! cTenant c with Some _ => _ | None => _ end).
  set (key := keyOf (cTenant c) (normal c) l).
  assert (windowStart cn = start ∧ windowEnd cn = quotaWindowEnd start (Window l) ∧ (requests cn, tokens cn) = used log key)
    as (Es & Ee & Eu).
  { destruct (Hc _ _ Hcase) as [H1 H2]. specialize (H2 (nowOf c) ltac:(lia)). subst cn. change key with (MkKey (cTenant c) (Window l) start).
    fold start in H2. rewrite <- H2.
    destruct (counters m1 !! cTenant c) as [c0|]; cbn [counted]; [|done].
    destruct (windowStart c0 =? start) eqn:E0; unbool; [|done]. cbn [counter_ok] in H1. by rewrite H1, E0. }
  clearbody cn. pose proof (used_bounded _ key _ _ Hb) as [B1 B2]. unfold plus2 in B1, B2. cbn [fst snd] in B1, B2.
  unfold tooMuch, usedAfter. fold key. rewrite <- Eu in *. cbn [plus2 fst snd] in *. unfold plus2. cbn [fst snd].
  rewrite !wrap64_small by done. destruct (exceeds _ _ _ _) eqn:Ex; intros Hr; injection Hr as <- <-.
  - exists log. split; [|split; [done|]].
    + eapply (counts_insert m1 log c l cn _ false); done.
    + unfold refusal. fold key. rewrite <- Eu. cbn [fst Allowed]. by rewrite Ee.
  - exists (log ++ [entryOf c]). split; [|split; [|done]].
    + eapply (counts_insert m1 log c l _ _ true); [done..|]. rewrite used_snoc. cbn [kTenant kWindow kStart requests tokens].
      rewrite (proj2 (inWindow_key _ _ _ _) (conj eq_refl eq_refl)). change (MkKey _ _ _) with key. by rewrite <- Eu.
    + apply Forall_app; split; [done|]. repeat constructor. cbn. lia.
Qed.

Lemma runFixed_trace cs m log now :
  int_limits (fixedLimits provider) → counts m log now → Forall (λ e, aNow e ≤ now) log → Forall (λ c, now ≤ nowOf c) cs →
  StronglySorted (λ a b, nowOf a ≤ nowOf b) cs → Forall (λ c, 0 ≤ Tokens (cReq c)) cs → bounded (log ++ (entryOf <$> cs)) →
  ∃ log', trace False (fixedLimits provider) log cs (runFixed cs m).2 log'.
Proof.
  intros Hint. revert m log now. induction cs as [|c cs IH]; intros m log now Hc Hlog Hnow Hsort Hok Hb; [eexists; by apply trace_nil|].
  cbn [runFixed]. destruct (fixedCall c m) as [m1 dec] eqn:Ec. destruct (runFixed cs m1) as [m2 decs] eqn:Er.
  inv Hnow. inv Hsort. inv Hok. cbn [fmap list_fmap] in Hb.
  destruct (fixed_step c m m1 dec log now (entryOf <$> cs)) as (log1 & Hc1 & Hlog1 & Hspec); [done..|].
  rewrite <- (specAllow_key _ _ _ _ Hint Hb) in Hspec.
  destruct (IH m1 log1 (nowOf c)) as [log' Ht]; [done..|by eapply spec_bounded|]. rewrite Er in Ht. exists log'.
  by eapply trace_step.
Qed.
End fixed.

(** The fixed-window manager decides every request of a history as the log of admitted requests says of the first
    valid limit of its tenant; evicting stale counters never forgets usage that still counts, and no window ends up
    with more than its limit. *)
Theorem tenant_fixed_refine (provider : QuotaConfigProvider) (clk : Z) cs : int_limits (fixedLimits provider) → calls_fit cs →
  ∃ log, trace False (fixedLimits provider) [] cs (runFixed provider cs (NewFixedWindowQuotaManager clk)).2 log ∧
         log_within (fixedLimits provider) log.
Proof.
  intros Hint Hcs. destruct (runFixed_trace provider cs (NewFixedWindowQuotaManager clk) [] (match cs with [] => 0 | c :: _ => nowOf c end))
    as [log Ht]; [done| |done| |by apply Hcs| |by apply calls_bounded|].
  - intros t l Hl. cbn [counters NewFixedWindowQuotaManager]. by rewrite lookup_empty.
  - destruct Hcs as [Hsort _]. inv Hsort; constructor; [lia|done].
  - by apply Hcs.
  - exists log. split; [done|]. eapply trace_within; [done|apply within_nil].
Qed.
Lemma tenant_fixed_refine_witness :
  (λ d, Allowed d.1) <$> (runFixed demoProvider demoCalls (NewFixedWindowQuotaManager demoDay)).2 =
    [true; false; true; false; true; true] ∧
  ∃ log, trace False (fixedLimits demoProvider) [] demoCalls (runFixed demoProvider demoCalls (NewFixedWindowQuotaManager demoDay)).2 log ∧
         log_within (fixedLimits demoProvider) log.
Proof.
  split; [vm_compute; reflexivity|]. apply (tenant_fixed_refine demoProvider demoDay demoCalls); [exact (demo_ints fixedLimits fixed_demo)|].
  eapply proj1, (demo_calls_ok [(0, 30); (1, 80); (2, 30); (3, 0); (61, 80); (122, 1)]); [| |vm_compute; discriminate..].
  - repeat constructor; simpl; lia.
  - repeat constructor; vm_compute; discriminate.
Defined.

(** ** What a client can do with the token header *)

Definition tokenProvider : QuotaConfigProvider := λ _, Ok (MkQuota [MkLimit QuotaWindowMinute 0 100]).
Definition tokenCall (header : gostring) (m : FixedWindowQuotaManager) :=
  Middleware (λ req, AllowFixed tokenProvider demoDay demoDay acme req) None header demoDay m.
Fixpoint tokenCalls (headers : list gostring) (m : FixedWindowQuotaManager) : list bool :=
  match headers with
  | [] => []
  | h :: hs => let '(m, r) := tokenCall h m in (match r with Served _ => true | _ => false end) :: tokenCalls hs m
  end.
Definition emptyFixed : FixedWindowQuotaManager := NewFixedWindowQuotaManager demoDay.

(** A negative count in the header gives tokens back: the limit of 100 lets 300 pass. *)
Lemma client_refunds_tokens :
  tokenCalls [str "100"; str "100"; str "-200"; str "100"; str "100"] emptyFixed = [true; false; true; true; true].
Proof. vm_compute. reflexivity. Qed.
(** A huge count wraps the counter around to a negative number, and is let through. *)
Lemma client_wraps_counter :
  tokenCalls [str "1"; str "9223372036854775807"; str "100"; str "100"] emptyFixed = [true; true; true; true].
Proof. vm_compute. reflexivity. Qed.

(** A call that reaches the manager late resets the counter of the newer window. *)
Lemma late_call_resets :
  let provider : QuotaConfigProvider := λ _, Ok (MkQuota [MkLimit QuotaWindowMinute 1 0]) in
  (λ d, Allowed d.1) <$> (runFixed provider [demoCall 59 0; demoCall 60 0; demoCall 59 0; demoCall 60 0] emptyFixed).2 =
  [true; true; true; true].
Proof. vm_compute. reflexivity. Qed.

(** Two limits for one window, one for requests and one for tokens, count every request twice. *)
Lemma same_window_counts_twice :
  let provider : QuotaConfigProvider := λ _, Ok (MkQuota [MkLimit QuotaWindowMinute 4 0; MkLimit QuotaWindowMinute 0 100]) in
  (λ d, Allowed d.1) <$> (runWindows provider [demoCall 0 1; demoCall 1 1; demoCall 2 1] (NewInMemoryQuotaStore None demoDay)).2 =
  [true; true; false].
Proof. vm_compute. reflexivity. Qed.

(** A tenant without limits is told it has nothing left, and a short delay is announced as none. *)
Lemma unlimited_shows_zero :
  (Middleware (λ req, AllowFixed (λ _, Ok (MkQuota [])) demoDay demoDay acme req) None [] demoDay emptyFixed).2 =
  Served (Some 0, Some 0).
Proof. vm_compute. reflexivity. Qed.
Lemma retry_header_rounds_down : SetRetryAfterHeader (nanosPerSecond - 1) = Some 0 ∧ SetRetryAfterHeader (1900 * Millisecond) = Some 1.
Proof. vm_compute. done. Qed.
