(* ===== verification/QuotaSliding.v ===== *)
(** * The sliding-window quota manager

    Its window of request times refines the log of admitted requests of the last
    minute; every minute stays within the limits, and the delay told to a refused
    caller is the shortest one after which the request fits. *)

From stdpp Require Import options.
From S2P Require Import Prelude GoStrings GoNumbers GoTime Quota QuotaFacts QuotaProps.
Import Quota.
#[local] Open Scope Z_scope.
Implicit Types (log : list admitted) (t : gostring) (c : call) (cs : list call) (w : slidingWindow) (l : list Z) (us : list tokenUsage).

(** ** Sorted lists cut by binary search *)

Definition by_key {A} (f : A → Z) (x y : A) : Prop := f x ≤ f y.
Definition after {A} (f : A → Z) (cut : Z) (xs : list A) : list A := filter (λ x, cut < f x) xs.

Lemma slide_sorted_lookup {A} (f : A → Z) (xs : list A) i j x y :
  StronglySorted (by_key f) xs → xs !! i = Some x → xs !! j = Some y → (i ≤ j)%nat → f x ≤ f y.
Proof.
  intros H. revert i j. induction H as [|z xs H IH Hz]; intros i j Hi Hj Hij; [done|].
  destruct i as [|i], j as [|j]; simplify_eq/=; [lia| |lia|].
  - apply list_elem_of_lookup_2 in Hj. by apply (proj1 (Forall_forall _ _) Hz y Hj).
  - eapply IH; [done..|lia].
Qed.

Lemma after_all {A} (f : A → Z) cut (xs : list A) : Forall (λ x, cut < f x) xs → after f cut xs = xs.
Proof. induction 1; unfold after in *; [done|]. rewrite filter_cons_True by done. by f_equal. Qed.
Lemma after_none {A} (f : A → Z) cut (xs : list A) : Forall (λ x, f x ≤ cut) xs → after f cut xs = [].
Proof. induction 1; unfold after in *; [done|]. by rewrite filter_cons_False by lia. Qed.
Lemma after_app {A} (f : A → Z) cut (xs ys : list A) : after f cut (xs ++ ys) = after f cut xs ++ after f cut ys.
Proof. apply filter_app. Qed.
Lemma after_after {A} (f : A → Z) cut cut' (xs : list A) : cut ≤ cut' → after f cut' (after f cut xs) = after f cut' xs.
Proof.
  intros Hle. induction xs as [|x xs IH]; [done|]. unfold after in *. destruct (decide (cut < f x)).
  - rewrite (filter_cons_True (λ x, cut < f x)) by done. rewrite !filter_cons. by rewrite IH.
  - rewrite (filter_cons_False (λ x, cut < f x)) by done. by rewrite (filter_cons_False (λ x, cut' < f x)) by lia.
Qed.

Lemma after_Forall {A} (P : A → Prop) (f : A → Z) cut (xs : list A) : Forall P xs → Forall P (after f cut xs).
Proof. rewrite !Forall_forall. intros H x [_ Hx]%list_elem_of_filter. auto. Qed.
Lemma after_sorted {A} (f : A → Z) cut (xs : list A) : StronglySorted (by_key f) xs → StronglySorted (by_key f) (after f cut xs).
Proof.
  induction 1 as [|x xs H IH Hx]; [constructor|]. unfold after. rewrite filter_cons. case_decide; [|done].
  constructor; [done|]. by apply after_Forall.
Qed.

(** [sort.Search] drops what is not after the cut. *)
Lemma search_drop {A} (f : A → Z) cut (xs : list A) : StronglySorted (by_key f) xs →
  drop (sort_search (length xs) (λ i, cut <? nth i (map f xs) 0)) xs = after f cut xs.
Proof.
  intros Hs. assert (∀ i x, xs !! i = Some x → nth i (map f xs) 0 = f x) as Hn.
  { intros i x Hi. apply nth_lookup_Some with (d := 0). by rewrite list_lookup_fmap, Hi. }
  destruct (sort_search_spec (λ i, cut <? nth i (map f xs) 0) (length xs)) as (Hle & Hlo & Hhi).
  { intros a b Hab Hb Ha. destruct (lookup_lt_is_Some_2 xs b Hb) as [y Hy]. destruct (lookup_lt_is_Some_2 xs a) as [x Hx]; [lia|].
    rewrite (Hn _ _ Hx) in Ha. rewrite (Hn _ _ Hy). pose proof (slide_sorted_lookup f xs a b x y Hs Hx Hy Hab). unbool. apply Z.ltb_lt. lia. }
  set (k := sort_search _ _) in *. rewrite <- (take_drop k xs) at 2. rewrite after_app, after_none, after_all; [done|..].
  - apply Forall_lookup. intros i x Hi. rewrite lookup_drop in Hi. specialize (Hhi (k + i)%nat ltac:(lia) (lookup_lt_Some _ _ _ Hi)).
    rewrite (Hn _ _ Hi) in Hhi. by unbool.
  - apply Forall_lookup. intros i x Hi. apply lookup_take_Some in Hi as [Hi Hik]. specialize (Hlo i Hik).
    rewrite (Hn _ _ Hi) in Hlo. by unbool.
Qed.

Definition self (x : Z) : Z := x.
Definition requestsAfter (cut : Z) w : list Z := after self cut (requestTimes w).
Definition tokensAfter (cut : Z) w : list tokenUsage := after tuTime cut (usages w).
Definition tokenSum us : Z := foldr (λ u n, tuTokens u + n) 0 us.

(** Times in order and not after [now]; only positive amounts. *)
Record window_ok w (now : Z) : Prop := {
  times_sorted : StronglySorted (by_key self) (requestTimes w);
  tokens_sorted : StronglySorted (by_key tuTime) (usages w);
  times_past : Forall (λ x, x ≤ now) (requestTimes w);
  tokens_past : Forall (λ u, tuTime u ≤ now ∧ 0 < tuTokens u) (usages w);
}.

Lemma cleanup_spec cut w now : window_ok w now → cleanup cut w = MkSliding (requestsAfter cut w) (tokensAfter cut w).
Proof.
  intros [H1 H2 _ _]. unfold cleanup, requestsAfter, tokensAfter. rewrite (search_drop _ _ _ H2).
  pose proof (search_drop self cut (requestTimes w) H1) as E.
  rewrite (map_id (requestTimes w) : map self (requestTimes w) = requestTimes w) in E. by rewrite E.
Qed.
Lemma cleanup_window_ok cut w now : window_ok w now → window_ok (cleanup cut w) now.
Proof.
  intros Hw. rewrite (cleanup_spec _ _ now Hw). destruct Hw as [H1 H2 H3 H4].
  constructor; cbn [requestTimes usages]; first [by apply after_sorted | by apply after_Forall].
Qed.

(** ** Sums without overflow *)

Lemma tokenSum_app us us' : tokenSum (us ++ us') = tokenSum us + tokenSum us'.
Proof. induction us as [|u us IH]; simpl; lia. Qed.
Lemma tokenSum_nonneg us : Forall (λ u, 0 < tuTokens u) us → 0 ≤ tokenSum us.
Proof. induction 1; simpl; lia. Qed.
Lemma sumTokens_spec us acc : Forall (λ u, 0 < tuTokens u) us → 0 ≤ acc → acc + tokenSum us ≤ int64_max →
  sumTokens acc us = acc + tokenSum us.
Proof.
  intros H. revert acc. induction H as [|u us Hu H IH]; intros acc Ha Hb; simpl in *; [lia|].
  pose proof (tokenSum_nonneg us H). rewrite wrap64_small by (unfold is_int64, int64_min, int64_max in *; lia).
  rewrite IH; lia.
Qed.

(** ** The specification *)

Definition since t (cut : Z) (e : admitted) : bool := bool_decide (aTenant e = t) && (cut <? aNow e).
Definition usedSince log t (cut : Z) : Z * Z := (sumOf aRequests (since t cut) log, sumOf aTokens (since t cut) log).

(** A decision without its retry delay. *)
Definition core (d : decision) : bool * Z * Z * option qErr := (Allowed d.1, RemainingRequests d.1, RemainingTokens d.1, d.2).
Definition keySlide (rl tl : Z) (req : QuotaRequest) (u : Z * Z) : bool * Z * Z * option qErr :=
  let n := plus2 u (Requests req, Tokens req) in
  if exceeds rl tl n.1 n.2 then (false, remaining rl u.1, remaining tl u.2, Some ErrQuotaExceeded)
  else (true, remaining rl n.1, remaining tl n.2, None).

(** The window holds what the log has of the last minute. *)
Definition slides w log t (now : Z) : Prop :=
  window_ok w now ∧ ∀ cut, now - timeMinute ≤ cut →
    Z.of_nat (length (requestsAfter cut w)) = (usedSince log t cut).1 ∧ tokenSum (tokensAfter cut w) = (usedSince log t cut).2.

Lemma since_entry t cut c : since t cut (entryOf c) = true ↔ t = cTenant c ∧ cut < nowOf c.
Proof. unfold since. simpl. rewrite andb_true_iff, bool_decide_eq_true, Z.ltb_lt. naive_solver. Qed.

Lemma slides_later w log t now now' : now ≤ now' → slides w log t now → slides w log t now'.
Proof.
  intros Hle [[H1 H2 H3 H4] Hu]. split; [constructor; try done|intros cut Hc; apply Hu; lia].
  - eapply Forall_impl; [exact H3|]. simpl. lia.
  - eapply Forall_impl; [exact H4|]. simpl. lia.
Qed.

Lemma slides_cleanup w log t now : slides w log t now → slides (cleanup (now - timeMinute) w) log t now.
Proof.
  intros [Hw Hu]. split; [by apply cleanup_window_ok|]. intros cut Hcut. rewrite (cleanup_spec _ _ now Hw).
  unfold requestsAfter, tokensAfter in *. cbn [requestTimes usages]. rewrite !after_after by done. by apply Hu.
Qed.

Lemma sorted_snoc {A} (f : A → Z) (xs : list A) x :
  StronglySorted (by_key f) xs → Forall (λ y, f y ≤ f x) xs → StronglySorted (by_key f) (xs ++ [x]).
Proof.
  induction 1 as [|y xs H IH Hy]; intros Hx; simpl; [repeat constructor|]. inv Hx. constructor; [auto|].
  apply Forall_app; split; [done|]. repeat constructor. done.
Qed.
Lemma sorted_replicate l n now : StronglySorted (by_key self) l → Forall (λ x, x ≤ now) l →
  StronglySorted (by_key self) (l ++ replicate n now).
Proof.
  intros Hl Hn. induction n as [|n IH]; [by rewrite app_nil_r|].
  replace (replicate (S n) now) with (replicate n now ++ [now]) by by rewrite <- replicate_S_end.
  rewrite (assoc_L (++)). apply sorted_snoc; [done|]. apply Forall_app; split; [done|]. apply Forall_replicate. unfold self. lia.
Qed.

(** An admitted request enters both lists. *)
Definition admitReq (req : QuotaRequest) w : slidingWindow :=
  MkSliding (requestTimes w ++ replicate (Z.to_nat (Requests req)) (Now req))
    (if 0 <? Tokens req then usages w ++ [MkTokens (Now req) (Tokens req)] else usages w).

Lemma admit_ok req w : window_ok w (Now req) → window_ok (admitReq req w) (Now req).
Proof.
  intros [H1 H2 H3 H4]. constructor; cbn [admitReq requestTimes usages].
  - by apply sorted_replicate.
  - case_match; [|done]. apply sorted_snoc; [done|]. eapply Forall_impl; [exact H4|]. naive_solver.
  - apply Forall_app; split; [done|]. apply Forall_replicate. lia.
  - case_match; [|done]. apply Forall_app; split; [done|]. unbool. repeat constructor; simpl; [lia|done].
Qed.

Lemma admit_slides c w log : slides w log (cTenant c) (nowOf c) → 0 ≤ Requests (normal c) → 0 ≤ Tokens (normal c) →
  slides (admitReq (normal c) w) (log ++ [entryOf c]) (cTenant c) (nowOf c).
Proof.
  intros [Hw Hu] Hr Ht. split; [by apply admit_ok|]. intros cut Hcut. destruct (Hu cut Hcut) as [U1 U2].
  unfold usedSince, requestsAfter, tokensAfter in *. cbn [admitReq requestTimes usages fst snd] in *. rewrite !sumOf_app, after_app, length_app, Nat2Z.inj_add, U1.
  cbn [sumOf entryOf aRequests aTokens]. fold (entryOf c).
  change (asks c).1 with (Requests (normal c)). change (asks c).2 with (Tokens (normal c)).
  destruct (since (cTenant c) cut (entryOf c)) eqn:E.
  - apply since_entry in E as [_ E]. rewrite (after_all self) by (apply Forall_replicate; done). rewrite length_replicate.
    split; [lia|]. case_match; unbool; [rewrite after_app, tokenSum_app, U2, (after_all tuTime) by (by repeat constructor); simpl|]; lia.
  - assert (nowOf c ≤ cut) as Hle.
    { destruct (Z.le_gt_cases (nowOf c) cut); [done|]. assert (since (cTenant c) cut (entryOf c) = true) by by apply since_entry. congruence. }
    rewrite (after_none self) by (apply Forall_replicate; done). split; [simpl; lia|].
    case_match; [rewrite after_app, tokenSum_app, U2, (after_none tuTime) by (by repeat constructor); simpl|]; lia.
Qed.

(** ** One call *)

Lemma exceeds_split rl tl n1 n2 : exceeds rl tl n1 n2 = ((0 <? rl) && (rl <? n1)) || ((0 <? tl) && (tl <? n2)).
Proof. reflexivity. Qed.

(** What [slide] does, without the wrap-around. *)
Lemma slide_eq rl tl req w now0 :
  window_ok w now0 →
  let w1 := cleanup (Now req - timeMinute) w in
  let n := Z.of_nat (length (requestTimes w1)) in let k := tokenSum (usages w1) in
  0 ≤ Requests req → 0 ≤ Tokens req → n + Requests req ≤ int64_max → k + Tokens req ≤ int64_max →
  slide rl tl req w =
  if (0 <? rl) && (rl <? n + Requests req) then
    (w1, (MkResult false (remaining rl n) (remaining tl k) (calculateRequestRetryAfter (Now req) (n + Requests req - rl) w1), Some ErrQuotaExceeded))
  else if (0 <? tl) && (tl <? k + Tokens req) then
    (w1, (MkResult false (remaining rl n) (remaining tl k) (calculateTokenRetryAfter (Now req) (k + Tokens req - tl) w1), Some ErrQuotaExceeded))
  else (admitReq req w1, (MkResult true (remaining rl (n + Requests req)) (remaining tl (k + Tokens req)) 0, None)).
Proof.
  intros Hw w1 n k Hr Ht Hn Hk. pose proof (cleanup_window_ok (Now req - timeMinute) w now0 Hw) as [_ _ _ Hpos]. fold w1 in Hpos.
  assert (Forall (λ u, 0 < tuTokens u) (usages w1)) as Hp by (eapply Forall_impl; [exact Hpos|]; naive_solver).
  pose proof (tokenSum_nonneg _ Hp). unfold slide. fold w1. fold n.
  rewrite (sumTokens_spec _ 0 Hp) by lia. rewrite Z.add_0_l. fold k.
  rewrite !(wrap64_small (n + Requests req)), !(wrap64_small (k + Tokens req)) by (unfold is_int64, int64_min, int64_max in *; lia).
  destruct ((0 <? rl) && (rl <? n + Requests req)) eqn:E1.
  { unbool. by rewrite wrap64_small by (unfold is_int64, int64_min, int64_max in *; lia). }
  destruct ((0 <? tl) && (tl <? k + Tokens req)) eqn:E2; [|done].
  unbool. by rewrite wrap64_small by (unfold is_int64, int64_min, int64_max in *; lia).
Qed.

Lemma slide_step rl tl c w w' dec log now rest :
  slides w log (cTenant c) now → now ≤ nowOf c → bounded (log ++ entryOf c :: rest) →
  slide rl tl (normal c) w = (w', dec) →
  core dec = keySlide rl tl (normal c) (usedSince log (cTenant c) (nowOf c - timeMinute)) ∧
  slides w' (if Allowed dec.1 then log ++ [entryOf c] else log) (cTenant c) (nowOf c).
Proof.
  intros Hs Hnow Hb. apply (slides_later _ _ _ _ (nowOf c)) in Hs; [|done]. pose proof (slides_cleanup _ _ _ _ Hs) as Hs1.
  pose proof (sum_bounded log (since (cTenant c) (nowOf c - timeMinute)) c rest Hb) as (B1 & B2 & B3 & B4 & B5 & B6).
  destruct Hs as [Hw Hu]. destruct (Hu (nowOf c - timeMinute)) as [U1 U2]; [lia|].
  set (u := usedSince _ _ _) in *. change (sumOf aRequests _ log) with u.1 in *. change (sumOf aTokens _ log) with u.2 in *. clearbody u.
  assert (Z.of_nat (length (requestTimes (cleanup (nowOf c - timeMinute) w))) = u.1 ∧
          tokenSum (usages (cleanup (nowOf c - timeMinute) w)) = u.2) as [E1 E2] by (by rewrite (cleanup_spec _ _ _ Hw)).
  rewrite (slide_eq rl tl (normal c) w (nowOf c) Hw); change (Now (normal c)) with (nowOf c); rewrite ?E1, ?E2; [|lia..].
  unfold keySlide. rewrite exceeds_split. cbn [plus2 fst snd].
  destruct ((0 <? rl) && _); [intros H; injection H as <- <-; by split|]. cbn [orb].
  destruct ((0 <? tl) && _); intros H; injection H as <- <-; [by split|]. split; [done|]. by apply admit_slides.
Qed.

(** ** Histories *)

Section sliding.
Variable provider : QuotaConfigProvider.
Implicit Types (windows : SlidingWindowQuotaManager).

Definition slidingCall c windows : SlidingWindowQuotaManager * decision :=
  AllowSliding provider (cNow0 c) (cTenant c) (cReq c) windows.
Fixpoint runSliding cs windows : SlidingWindowQuotaManager * list decision :=
  match cs with
  | [] => (windows, [])
  | c :: cs => let '(windows, dec) := slidingCall c windows in
               let '(windows, decs) := runSliding cs windows in (windows, dec :: decs)
  end.

(** The limits applied to a tenant: the error, none, or the pair. *)
Definition codeLimits t : result qErr (option (Z * Z)) :=
  match provider t with
  | Err e => Err e
  | Ok cfg => if unsupported cfg then Err ErrUnsupportedQuotaWindow
              else let '(rl, tl) := slidingWindowEffectiveLimits cfg in
                   if (rl <=? 0) && (tl <=? 0) then Ok None else Ok (Some (rl, tl))
  end.

Definition keySliding log c : list admitted * (bool * Z * Z * option qErr) :=
  match codeLimits (cTenant c) with
  | Err e => (log, core (refusedWith e))
  | Ok None => (log, core allowedFree)
  | Ok (Some (rl, tl)) =>
      let d := keySlide rl tl (normal c) (usedSince log (cTenant c) (nowOf c - timeMinute)) in
      (if d.1.1.1 then log ++ [entryOf c] else log, d)
  end.
Fixpoint keyRun log cs : list admitted * list (bool * Z * Z * option qErr) :=
  match cs with
  | [] => (log, [])
  | c :: cs => let '(log, d) := keySliding log c in let '(log, ds) := keyRun log cs in (log, d :: ds)
  end.

Definition allSlide windows log (now : Z) : Prop :=
  ∀ t, slides (default (MkSliding [] []) (windows !! t)) log t now.

Lemma slides_other w log t c now : t ≠ cTenant c → slides w log t now → slides w (log ++ [entryOf c]) t now.
Proof.
  intros Hne [Hw Hu]. split; [done|]. intros cut Hcut. destruct (Hu cut Hcut) as [U1 U2]. unfold usedSince in *. cbn [fst snd] in *.
  rewrite !sumOf_app. assert (since t cut (entryOf c) = false) as E.
  { destruct (since _ _ _) eqn:E; [|done]. by apply since_entry in E as [? _]. }
  cbn [sumOf]. rewrite E. lia.
Qed.

Lemma sliding_step c windows windows' dec log now rest :
  allSlide windows log now → now ≤ nowOf c → bounded (log ++ entryOf c :: rest) →
  slidingCall c windows = (windows', dec) →
  ∃ log1, keySliding log c = (log1, core dec) ∧ allSlide windows' log1 (nowOf c).
Proof.
  intros Ha Hnow Hb. unfold slidingCall, AllowSliding, keySliding, codeLimits.
  assert (allSlide windows log (nowOf c)) as Ha' by (intros t; by eapply slides_later).
  destruct (provider (cTenant c)) as [cfg|e]; [|intros H; injection H as <- <-; by exists log].
  destruct (unsupported cfg); [intros H; injection H as <- <-; by exists log|].
  destruct (slidingWindowEffectiveLimits cfg) as [rl tl].
  destruct ((rl <=? 0) && (tl <=? 0)); [intros H; injection H as <- <-; by exists log|].
  fold (normal c). destruct (slide _ _ _ _) as [w' d] eqn:Es. intros H. injection H as <- <-.
  destruct (slide_step rl tl c _ w' d log now rest (Ha (cTenant c)) Hnow Hb Es) as [Hcore Hsl].
  eexists. rewrite <- Hcore. split; [done|]. cbn [core fst snd]. intros t. destruct (decide (t = cTenant c)) as [->|Hne].
  - by rewrite lookup_insert_eq.
  - rewrite lookup_insert_ne by done. case_match; [apply slides_other; [done|]|]; apply Ha'.
Qed.

Lemma sliding_log log c log1 d : keySliding log c = (log1, d) → log1 = log ∨ log1 = log ++ [entryOf c].
Proof. unfold keySliding. intros. repeat case_match; simplify_eq; auto. Qed.
Lemma sliding_bounded log c log1 d rest : keySliding log c = (log1, d) → bounded (log ++ entryOf c :: rest) → bounded (log1 ++ rest).
Proof. intros [->| ->]%sliding_log Hb; [by apply (bounded_sub log [entryOf c])|by rewrite <- (assoc_L (++))]. Qed.

Lemma runSliding_spec cs windows log now windows' decs :
  allSlide windows log now → Forall (λ c, now ≤ nowOf c) cs → StronglySorted (λ a b, nowOf a ≤ nowOf b) cs →
  bounded (log ++ (entryOf <$> cs)) → runSliding cs windows = (windows', decs) →
  ∃ log', keyRun log cs = (log', core <$> decs) ∧ allSlide windows' log' (default now (nowOf <$> last cs)).
Proof.
  revert windows log now decs. induction cs as [|c cs IH]; intros windows log now decs Ha Hnow Hsort Hb Hr.
  { injection Hr as <- <-. by exists log. }
  cbn [runSliding] in Hr. destruct (slidingCall c windows) as [win1 dec] eqn:Ec.
  destruct (runSliding cs win1) as [win2 decs1] eqn:Er. injection Hr as <- <-. inv Hnow. inv Hsort. cbn [fmap list_fmap] in Hb.
  destruct (sliding_step c windows win1 dec log now (entryOf <$> cs)) as (log1 & Hspec & Ha1); [done..|].
  destruct (IH win1 log1 (nowOf c) decs1) as (log' & Hrun & Ha2); [done..|by eapply sliding_bounded|done|].
  exists log'. cbn [keyRun]. rewrite Hspec, Hrun. split; [done|]. destruct cs as [|c' cs]; [done|].
  by rewrite last_cons_cons; destruct (last (c' :: cs)) eqn:El; [|by apply last_None in El].
Qed.

(** ** Every minute is within the limits *)

Definition inMinuteFrom t (begin : Z) (e : admitted) : bool :=
  bool_decide (aTenant e = t) && (begin <? aNow e) && (aNow e <=? begin + timeMinute).
Definition key_minutes log : Prop :=
  ∀ t rl tl begin, codeLimits t = Ok (Some (rl, tl)) →
    (0 < rl → sumOf aRequests (inMinuteFrom t begin) log ≤ rl) ∧ (0 < tl → sumOf aTokens (inMinuteFrom t begin) log ≤ tl).

Lemma inMinute_since t begin n log f : Forall (λ e, 0 ≤ f e) log → n ≤ begin + timeMinute →
  sumOf f (inMinuteFrom t begin) log ≤ sumOf f (since t (n - timeMinute)) log.
Proof.
  intros Hf Hn. apply sumOf_mono; [done|]. apply Forall_forall. intros e _. unfold inMinuteFrom, since.
  rewrite !andb_true_iff. intros [[-> H1] H2]. unbool. split; [done|]. apply Z.ltb_lt. lia.
Qed.

Lemma minutes_step log c log1 d rest : key_minutes log → bounded (log ++ entryOf c :: rest) →
  keySliding log c = (log1, d) → key_minutes log1.
Proof.
  intros Hm Hb Hs t rl tl begin Hl. assert (bounded log) as [Hr Ht]%bounded_nonneg.
  { rewrite <- (app_nil_r log). eapply (bounded_sub log (entryOf c :: rest) []). by rewrite app_nil_r. }
  destruct (sliding_log _ _ _ _ Hs) as [->| ->]; [by apply Hm|]. rewrite !sumOf_app. cbn [sumOf]. rewrite !Z.add_0_r.
  destruct (inMinuteFrom t begin (entryOf c)) eqn:Ei; [|rewrite !Z.add_0_r; by apply Hm].
  unfold inMinuteFrom in Ei. cbn [aTenant aNow entryOf] in Ei. unbool. subst t. unfold keySliding in Hs. rewrite Hl in Hs. unfold keySlide in Hs.
  destruct (exceeds _ _ _ _) eqn:Ex; cbn [fst] in Hs.
  { assert (length log = length (log ++ [entryOf c])) as Hlen by congruence. rewrite length_app in Hlen. simpl in Hlen. lia. }
  clear Hs.
  rewrite exceeds_split in Ex. cbn [plus2 usedSince fst snd] in Ex.
  pose proof (inMinute_since (cTenant c) begin (nowOf c) log aRequests Hr ltac:(done)).
  pose proof (inMinute_since (cTenant c) begin (nowOf c) log aTokens Ht ltac:(done)).
  cbn [entryOf aRequests aTokens]. change (asks c) with (Requests (normal c), Tokens (normal c)). cbn [fst snd].
  unbool. destruct H3, H4; unbool; lia.
Qed.

Lemma minutes_run cs log log' ds : key_minutes log → bounded (log ++ (entryOf <$> cs)) → keyRun log cs = (log', ds) → key_minutes log'.
Proof.
  revert log ds. induction cs as [|c cs IH]; intros log ds Hm Hb Hr; [by injection Hr as <- <-|].
  cbn [keyRun] in Hr. destruct (keySliding log c) as [log1 d] eqn:Es. destruct (keyRun log1 cs) as [log2 ds2] eqn:Er.
  injection Hr as <- <-. eapply (IH log1); [by eapply minutes_step|by eapply sliding_bounded|done].
Qed.
End sliding.

Lemma empty_slides now : allSlide ∅ [] now.
Proof. intros t. rewrite lookup_empty. split; [repeat constructor|done]. Qed.

Lemma calls_first cs : calls_fit cs → Forall (λ c, (match cs with [] => 0 | c :: _ => nowOf c end) ≤ nowOf c) cs.
Proof. intros [Hsort _]. inv Hsort; constructor; [lia|done]. Qed.

(** ** The specification, without the code's readings *)

Definition aMinute : Z := 60 * 1000000000.
(** What applies to a tenant: the provider's error, an error when a limit is for another
    window, nothing, or the bounds of the first limit per minute. *)
Definition slidingLimits (provider : QuotaConfigProvider) t : result qErr (option (Z * Z)) :=
  match provider t with
  | Err e => Err e
  | Ok cfg =>
      if decide (Exists (λ l : QuotaLimit, Window l ∈ [QuotaWindowHour; QuotaWindowDay; QuotaWindowMonth]) (Limits cfg)) then Err ErrUnsupportedQuotaWindow
      else match filter (λ l : QuotaLimit, Window l = QuotaWindowMinute) (Limits cfg) with
           | [] => Ok None
           | l :: _ => if decide (0 < LimRequests l ∨ 0 < LimTokens l) then Ok (Some (boundsOf l)) else Ok None
           end
  end.
(** A call passes when, with what was admitted after the instant one minute ago, it fits. *)
Definition specSliding (provider : QuotaConfigProvider) log c : list admitted * (bool * Z * Z * option qErr) :=
  match slidingLimits provider (cTenant c) with
  | Err e => (log, (false, 0, 0, Some e))
  | Ok None => (log, (true, 0, 0, None))
  | Ok (Some bounds) =>
      let before := usedSince log (cTenant c) (nowOf c - aMinute) in
      let after := plus2 before (asks c) in
      if decide (fits bounds after) then (log ++ [entryOf c], (true, leftOf bounds.1 after.1, leftOf bounds.2 after.2, None))
      else (log, (false, leftOf bounds.1 before.1, leftOf bounds.2 before.2, Some ErrQuotaExceeded))
  end.
Fixpoint specRun (provider : QuotaConfigProvider) log cs : list admitted * list (bool * Z * Z * option qErr) :=
  match cs with
  | [] => (log, [])
  | c :: cs => let '(log, d) := specSliding provider log c in let '(log, ds) := specRun provider log cs in (log, d :: ds)
  end.

(** In the minute that begins at [begin] the admitted requests fit. *)
Definition inMinute t (begin : Z) (e : admitted) : bool := bool_decide (aTenant e = t ∧ begin < aNow e ≤ begin + aMinute).
Definition minutes_ok (provider : QuotaConfigProvider) log : Prop :=
  ∀ t bounds begin, slidingLimits provider t = Ok (Some bounds) →
    fits bounds (sumOf aRequests (inMinute t begin) log, sumOf aTokens (inMinute t begin) log).
(** Bounds are Go [int]s. *)
Definition int_bounds (provider : QuotaConfigProvider) : Prop :=
  ∀ t bounds, slidingLimits provider t = Ok (Some bounds) → bounds.1 ≤ int64_max ∧ bounds.2 ≤ int64_max.

Lemma unsupported_spec cfg :
  unsupported cfg = bool_decide (Exists (λ l : QuotaLimit, Window l ∈ [QuotaWindowHour; QuotaWindowDay; QuotaWindowMonth]) (Limits cfg)).
Proof.
  apply eq_true_iff_eq. unfold unsupported. rewrite bool_decide_eq_true, existsb_exists, Exists_exists.
  apply exist_proper. intros l. rewrite <- list_elem_of_In. apply and_iff_compat_l.
  unfold isValidQuotaWindow. rewrite andb_true_iff, !orb_true_iff, negb_true_iff, bool_decide_eq_false, !bool_decide_eq_true, !elem_of_cons, elem_of_nil.
  destruct (decide (Window l = QuotaWindowMinute)) as [->|]; [|naive_solver]. split; [tauto|]. intros [H|[H|[H|[]]]]; done.
Qed.
Lemma first_minute (ls : list QuotaLimit) :
  list_find (λ l : QuotaLimit, Window l = QuotaWindowMinute) ls = None ∧ filter (λ l : QuotaLimit, Window l = QuotaWindowMinute) ls = [] ∨
  ∃ i (l : QuotaLimit) rest, list_find (λ l : QuotaLimit, Window l = QuotaWindowMinute) ls = Some (i, l) ∧ filter (λ l : QuotaLimit, Window l = QuotaWindowMinute) ls = l :: rest.
Proof.
  induction ls as [|l ls IH]; [by left|]. cbn [list_find]. rewrite filter_cons. case_decide; [right; by eexists _, _, _|].
  destruct IH as [[-> ->]|(i & l' & rest & -> & ->)]; [by left|right; by eexists _, _, _].
Qed.
Lemma slidingLimits_code provider t : slidingLimits provider t = codeLimits provider t.
Proof.
  unfold slidingLimits, codeLimits. destruct (provider t) as [cfg|]; [|done]. rewrite unsupported_spec. rewrite <- decide_bool_decide.
  case_decide; [done|]. unfold slidingWindowEffectiveLimits.
  destruct (first_minute (Limits cfg)) as [[-> ->]|(i & l & rest & -> & ->)]; [done|]. unfold boundsOf.
  destruct (Z.leb_spec (LimRequests l) 0), (Z.leb_spec (LimTokens l) 0); simpl; case_decide; (done || lia).
Qed.
Lemma specSliding_key provider log c rest : int_bounds provider → bounded (log ++ entryOf c :: rest) →
  specSliding provider log c = keySliding provider log c.
Proof.
  intros Hi Hb. specialize (Hi (cTenant c)). unfold specSliding, keySliding. rewrite <- slidingLimits_code.
  destruct (slidingLimits provider (cTenant c)) as [[[rl tl]|]|]; try done. destruct (Hi _ eq_refl) as [I1 I2]. cbn [fst snd] in I1, I2.
  pose proof (sum_bounded log (since (cTenant c) (nowOf c - aMinute)) c rest Hb) as Hs. unfold keySlide. rewrite exceeds_fits.
  change timeMinute with aMinute. change (Requests (normal c), Tokens (normal c)) with (asks c). rewrite decide_bool_decide.
  destruct (bool_decide _); cbn [negb]; rewrite !remaining_left; try done;
    unfold usedSince, plus2; cbn [fst snd]; change (asks c) with (Requests (normal c), Tokens (normal c)); cbn [fst snd]; lia.
Qed.
Lemma specRun_key provider cs log : int_bounds provider → bounded (log ++ (entryOf <$> cs)) →
  specRun provider log cs = keyRun provider log cs.
Proof.
  intros Hi. revert log. induction cs as [|c cs IH]; intros log Hb; [done|]. cbn [specRun keyRun]. cbn [fmap list_fmap] in Hb.
  rewrite (specSliding_key provider log c (entryOf <$> cs)) by done. destruct (keySliding provider log c) as [log1 d] eqn:E.
  rewrite IH; [done|]. by eapply sliding_bounded.
Qed.
Lemma minutes_key provider log : key_minutes provider log → minutes_ok provider log.
Proof.
  intros H t [rl tl] begin Hl. rewrite slidingLimits_code in Hl. destruct (H t rl tl begin Hl) as [H1 H2].
  assert (∀ f, sumOf f (inMinute t begin) log = sumOf f (inMinuteFrom t begin) log) as E; [|by split; cbn [fst snd]; rewrite E].
  intros f. apply sumOf_ext, Forall_forall. intros e _. apply eq_true_iff_eq. unfold inMinute, inMinuteFrom.
  rewrite bool_decide_eq_true, !andb_true_iff, bool_decide_eq_true, Z.ltb_lt, Z.leb_le. change timeMinute with aMinute. tauto.
Qed.

(** C21: over any history of calls made one after the other in the order of their times, none with a negative token count,
    with all requested amounts together within int64 and limits that are ints, the sliding-window manager takes the
    decisions the log of admitted requests dictates: a request is let through exactly when, with what was admitted in the
    last minute, it stays within both per-minute limits, both remainders are reported, and a tenant with a limit for
    another window is refused; and in every interval of one minute, wherever it begins, the admitted requests and tokens
    of a tenant stay within its limits. *)
Theorem tenant_sliding_refine (provider : QuotaConfigProvider) cs : int_bounds provider → calls_fit cs →
  ∃ log, specRun provider [] cs = (log, core <$> (runSliding provider cs ∅).2) ∧ minutes_ok provider log.
Proof.
  intros Hi Hcs. destruct (runSliding provider cs ∅) as [windows decs] eqn:Er. rewrite specRun_key by (done || by apply calls_bounded).
  destruct (runSliding_spec provider cs ∅ [] (match cs with [] => 0 | c :: _ => nowOf c end) windows decs)
    as (log & Hrun & _); [apply empty_slides|by apply calls_first|by apply Hcs|by apply calls_bounded|done|].
  exists log. split; [done|]. apply minutes_key. eapply (minutes_run provider cs []); [|by apply calls_bounded|done].
  intros t rl tl begin _. simpl. lia.
Qed.

Definition minuteQuota : QuotaConfig := MkQuota [MkLimit QuotaWindowMinute 2 100].
Definition minuteProvider : QuotaConfigProvider :=
  QuotaConfigOf (SetTenantConfig 0 (demoConfigFor minuteQuota) NewInMemoryConfigManager).
Definition minuteCalls : list call := [demoCall 59 30; demoCall 61 60; demoCall 62 1; demoCall 118 1; demoCall 120 30; demoCall 122 80].
Lemma minuteCalls_ok : calls_fit minuteCalls.
Proof.
  eapply proj1, (demo_calls_ok [(59, 30); (61, 60); (62, 1); (118, 1); (120, 30); (122, 80)]); [| |vm_compute; discriminate..].
  - repeat constructor; simpl; lia.
  - repeat constructor; vm_compute; discriminate.
Qed.
Lemma tenant_sliding_refine_witness :
  (λ d, (Allowed d.1, RetryAfter d.1 / nanosPerSecond)) <$> (runSliding minuteProvider minuteCalls ∅).2 =
    [(true, 0); (true, 0); (false, 57); (false, 1); (true, 0); (false, 58)] ∧
  ∃ log, specRun minuteProvider [] minuteCalls = (log, core <$> (runSliding minuteProvider minuteCalls ∅).2) ∧
         minutes_ok minuteProvider log.
Proof.
  split; [vm_compute; reflexivity|]. apply (tenant_sliding_refine minuteProvider minuteCalls); [|apply minuteCalls_ok].
  intros t b. unfold slidingLimits, minuteProvider, QuotaConfigOf, GetTenantConfig, SetTenantConfig, NewInMemoryConfigManager.
  cbn [configs TenantID TenantQuota demoConfigFor]. destruct (decide (t = acme)) as [->|Hne].
  - rewrite lookup_insert_eq. intros H. vm_compute in H. injection H as <-. split; vm_compute; discriminate.
  - rewrite lookup_insert_ne, lookup_empty by done. done.
Defined.

(** ** The retry delay *)

(** An entry of a sorted list splits it at every cut before, and at, its time. *)
Lemma after_split {A} (f : A → Z) (pre post : list A) x cut : StronglySorted (by_key f) (pre ++ x :: post) →
  (cut < f x → ∃ pre', after f cut (pre ++ x :: post) = pre' ++ x :: post) ∧
  (f x ≤ cut → ∃ pre' , post = pre' ++ after f cut (pre ++ x :: post)).
Proof.
  intros Hs. apply StronglySorted_app in Hs as (Hpre & Hpx & Hpost). rewrite after_app. split; intros Hx.
  - exists (after f cut pre). f_equal. apply after_all. inv Hpost. constructor; [done|].
    eapply Forall_impl; [exact H2|]. unfold by_key. simpl. lia.
  - rewrite after_none.
    2: { apply Forall_forall. intros y Hy. specialize (Hpre y x). unfold by_key in Hpre. assert (f y ≤ f x) by (apply Hpre; set_solver). lia. }
    unfold after. rewrite filter_cons_False by lia. fold (after f cut post). rewrite app_nil_l, <- (search_drop f cut post) by by inv Hpost.
    eexists. symmetry. apply take_drop.
Qed.

Lemma retry_sub x now : now - timeMinute < x ≤ now → notNegative (Sub (x + timeMinute) now) = x + timeMinute - now.
Proof. intros H. unfold notNegative, Sub, int64_min, int64_max, timeMinute, nanosPerSecond in *. case_match; unbool; lia. Qed.

(** The state after a call at [now]: sorted, and all within the last minute. *)
Definition fresh w (now : Z) : Prop :=
  window_ok w now ∧ Forall (λ x, now - timeMinute < x) (requestTimes w) ∧ Forall (λ u, now - timeMinute < tuTime u) (usages w).
Lemma cleanup_fresh w now : window_ok w now → fresh (cleanup (now - timeMinute) w) now.
Proof.
  intros Hw. split; [by apply cleanup_window_ok|]. rewrite (cleanup_spec _ _ now Hw). cbn [requestTimes usages].
  split; apply Forall_forall; intros x Hx; by apply list_elem_of_filter in Hx as [? _].
Qed.

(** Both delays lead to a cut: before it the request does not fit, at it it does. *)
Lemma request_retry w now r rl : fresh w now → 0 < rl → r ≤ rl → let n := Z.of_nat (length (requestTimes w)) in
  rl < n + r → let d := calculateRequestRetryAfter now (n + r - rl) w in
  0 < d ≤ timeMinute ∧
  (∀ cut, cut < now + d - timeMinute → rl < Z.of_nat (length (requestsAfter cut w)) + r) ∧
  Z.of_nat (length (requestsAfter (now + d - timeMinute) w)) + r ≤ rl.
Proof.
  intros (Hw & Hf & _) Hrl Hr n Hn d. destruct (lookup_lt_is_Some_2 (requestTimes w) (Z.to_nat (n + r - rl - 1))) as [x Hx]; [lia|].
  assert (now - timeMinute < x ≤ now) as Hxb.
  { split; [by eapply (Forall_lookup_1 _ _ _ _ Hf)|by eapply (Forall_lookup_1 _ _ _ _ (times_past _ _ Hw))]. }
  assert (d = x + timeMinute - now) as ->.
  { unfold d, calculateRequestRetryAfter. rewrite bool_decide_false by (by intros E; rewrite E in Hx).
    rewrite (proj2 (Z.leb_gt _ _)) by lia. cbn [orb]. fold n. rewrite (proj2 (Z.ltb_ge _ _)) by lia.
    erewrite nth_lookup_Some by done. by apply retry_sub. }
  replace (now + (x + timeMinute - now) - timeMinute) with x by lia. split; [lia|].
  unfold requestsAfter. pose proof (times_sorted _ _ Hw) as Hs. rewrite <- (take_drop_middle _ _ _ Hx) in Hs |- *.
  assert (Z.of_nat (length (drop (S (Z.to_nat (n + r - rl - 1))) (requestTimes w))) = rl - r) as Hlen by (rewrite length_drop; lia).
  split.
  - intros cut Hcut. destruct (proj1 (after_split self _ _ x cut Hs)) as [pre' ->]; [done|]. rewrite length_app. simpl. lia.
  - destruct (proj2 (after_split self _ _ x x Hs)) as [pre' E]; [unfold self; lia|].
    apply (f_equal length) in E. rewrite length_app in E. lia.
Qed.

Lemma expireEntry_spec us acc needed last0 : Forall (λ u, 0 < tuTokens u) us → 0 ≤ acc → acc < needed ≤ acc + tokenSum us →
  acc + tokenSum us ≤ int64_max →
  ∃ pre u post, us = pre ++ u :: post ∧ expireEntry acc needed last0 us = tuTime u ∧
    acc + tokenSum pre < needed ≤ acc + tokenSum pre + tuTokens u.
Proof.
  intros H. revert acc last0. induction H as [|u us Hu H IH]; intros acc last0 Ha Hn Hb; simpl in *; [lia|].
  pose proof (tokenSum_nonneg us H). rewrite wrap64_small by (unfold is_int64, int64_min, int64_max in *; lia).
  destruct (needed <=? acc + tuTokens u) eqn:E; unbool.
  - exists [], u, us. simpl. split_and!; [done|done|lia|lia].
  - destruct (IH (acc + tuTokens u) (tuTime u)) as (pre & v & post & -> & -> & ?); [lia..|].
    exists (u :: pre), v, post. simpl. split_and!; [done|done|lia|lia].
Qed.

Lemma token_retry w now k tl : fresh w now → 0 < tl → k ≤ tl → let n := tokenSum (usages w) in
  n ≤ int64_max → tl < n + k → let d := calculateTokenRetryAfter now (n + k - tl) w in
  0 < d ≤ timeMinute ∧
  (∀ cut, cut < now + d - timeMinute → tl < tokenSum (tokensAfter cut w) + k) ∧
  tokenSum (tokensAfter (now + d - timeMinute) w) + k ≤ tl.
Proof.
  intros (Hw & _ & Hf) Htl Hk n Hmax Hn d.
  assert (Forall (λ u, 0 < tuTokens u) (usages w)) as Hp by (eapply Forall_impl; [exact (tokens_past _ _ Hw)|]; naive_solver).
  destruct (expireEntry_spec (usages w) 0 (n + k - tl) 0) as (pre & u & post & E & Ee & Hb); [done|lia..|].
  assert (u ∈ usages w) as Hu by (rewrite E; set_solver).
  assert (now - timeMinute < tuTime u ≤ now) as Hxb.
  { split; [by apply (proj1 (Forall_forall _ _) Hf)|by apply (proj1 (Forall_forall _ _) (tokens_past _ _ Hw) u Hu)]. }
  assert (d = tuTime u + timeMinute - now) as ->.
  { unfold d, calculateTokenRetryAfter. rewrite bool_decide_false by (by intros E0; rewrite E0 in Hu; apply elem_of_nil in Hu).
    rewrite (proj2 (Z.leb_gt _ _)) by lia. cbn [orb]. rewrite Ee. by apply retry_sub. }
  replace (now + (tuTime u + timeMinute - now) - timeMinute) with (tuTime u) by lia. split; [lia|].
  pose proof (tokens_sorted _ _ Hw) as Hs. unfold n in *. unfold tokensAfter. rewrite E in *. clear E.
  pose proof Hp as Hall. apply Forall_app in Hp as [Hp1 Hp2]. inv Hp2. rewrite tokenSum_app in *. simpl in *. pose proof (tokenSum_nonneg _ H2).
  split.
  - intros cut Hcut. destruct (proj1 (after_split tuTime pre post u cut Hs)) as [pre' Ea]; [done|].
    pose proof (after_Forall _ tuTime cut _ Hall) as Hpa.
    rewrite Ea in *. apply Forall_app in Hpa as [Hpa _]. pose proof (tokenSum_nonneg _ Hpa). rewrite tokenSum_app. simpl. lia.
  - destruct (proj2 (after_split tuTime pre post u (tuTime u) Hs)) as [pre' Ea]; [lia|].
    rewrite Ea in H2. apply Forall_app in H2 as [Hpa _]. pose proof (tokenSum_nonneg _ Hpa).
    apply (f_equal tokenSum) in Ea. rewrite tokenSum_app in Ea. lia.
Qed.

Definition laterBy (d : Z) (req : QuotaRequest) : QuotaRequest := MkRequest (Requests req) (Tokens req) (Now req + d).

Lemma after_length {A} (f : A → Z) cut (xs : list A) : (length (after f cut xs) ≤ length xs)%nat.
Proof. apply length_filter. Qed.
Lemma after_tokenSum cut us : Forall (λ u, 0 < tuTokens u) us → tokenSum (after tuTime cut us) ≤ tokenSum us.
Proof. induction 1 as [|u us Hu H IH]; unfold after in *; [done|]. rewrite filter_cons. case_decide; simpl; lia. Qed.

(** The same request on a fresh window, [d] later. *)
Lemma slide_later rl tl req w d :
  fresh w (Now req) → 0 ≤ d → 0 ≤ Requests req → 0 ≤ Tokens req →
  Z.of_nat (length (requestTimes w)) + Requests req ≤ int64_max → tokenSum (usages w) + Tokens req ≤ int64_max →
  let cut := Now req + d - timeMinute in
  core (slide rl tl (laterBy d req) w).2 =
  keySlide rl tl req (Z.of_nat (length (requestsAfter cut w)), tokenSum (tokensAfter cut w)).
Proof.
  intros (Hw & _) Hd Hr Ht Hn Hk cut.
  assert (Forall (λ u, 0 < tuTokens u) (usages w)) as Hp by (eapply Forall_impl; [exact (tokens_past _ _ Hw)|]; naive_solver).
  pose proof (after_tokenSum cut _ Hp). pose proof (after_length self cut (requestTimes w)).
  rewrite (slide_eq rl tl (laterBy d req) w (Now req) Hw); cbn [laterBy Now Requests Tokens]; fold cut;
    rewrite ?(cleanup_spec cut w (Now req) Hw); cbn [requestTimes usages]; unfold requestsAfter, tokensAfter; [|lia..].
  unfold keySlide. rewrite exceeds_split. cbn [plus2 fst snd].
  destruct ((0 <? rl) && _); [done|]. destruct ((0 <? tl) && _); done.
Qed.

Lemma slide_retry rl tl req w w1 res :
  window_ok w (Now req) → 0 ≤ Requests req → 0 ≤ Tokens req →
  Z.of_nat (length (requestsAfter (Now req - timeMinute) w)) + Requests req ≤ int64_max →
  tokenSum (tokensAfter (Now req - timeMinute) w) + Tokens req ≤ int64_max →
  (0 < rl → Requests req ≤ rl) → (0 < tl → Tokens req ≤ tl) → slide rl tl req w = (w1, (res, Some ErrQuotaExceeded)) →
  0 < RetryAfter res ≤ timeMinute ∧
  (∀ d, 0 ≤ d < RetryAfter res → (core (slide rl tl (laterBy d req) w1).2).1.1.1 = false) ∧
  (rl ≤ 0 ∨ tl ≤ 0 → (core (slide rl tl (laterBy (RetryAfter res) req) w1).2).1.1.1 = true).
Proof.
  intros Hw Hr Ht Hn Hk Hrl Htl. pose proof (cleanup_fresh w (Now req) Hw) as Hfr.
  assert (requestTimes (cleanup (Now req - timeMinute) w) = requestsAfter (Now req - timeMinute) w ∧
          usages (cleanup (Now req - timeMinute) w) = tokensAfter (Now req - timeMinute) w) as [E1 E2]
    by (by rewrite (cleanup_spec _ _ _ Hw)). rewrite <- E1, <- E2 in *.
  rewrite (slide_eq rl tl req w (Now req) Hw) by done. set (v := cleanup _ w) in *. clearbody v. clear E1 E2 Hw w.
  pose proof (slide_later rl tl req v) as Hlater.
  destruct ((0 <? rl) && _) eqn:C1; [|destruct ((0 <? tl) && _) eqn:C2; [|done]]; intros H; injection H as <- <-; cbn [RetryAfter]; unbool.
  - destruct (request_retry v (Now req) (Requests req) rl) as (Hd & Hbefore & Hat); [auto..|]. cbv zeta in *.
    split; [done|]. split; [intros d Hd'; rewrite Hlater by (done || lia)|intros Hone; rewrite Hlater by (done || lia)];
      unfold keySlide; rewrite exceeds_split; cbn [plus2 fst snd].
    + specialize (Hbefore (Now req + d - timeMinute) ltac:(lia)). by rewrite (proj2 (Z.ltb_lt 0 rl)), (proj2 (Z.ltb_lt rl _)) by done.
    + rewrite (proj2 (Z.ltb_ge rl _)) by lia. rewrite andb_false_r. by rewrite (proj2 (Z.ltb_ge 0 tl)) by lia.
  - destruct (token_retry v (Now req) (Tokens req) tl) as (Hd & Hbefore & Hat); [auto; lia..|]. cbv zeta in *.
    split; [done|]. split; [intros d Hd'; rewrite Hlater by (done || lia)|intros Hone; rewrite Hlater by (done || lia)];
      unfold keySlide; rewrite exceeds_split; cbn [plus2 fst snd].
    + specialize (Hbefore (Now req + d - timeMinute) ltac:(lia)). rewrite (proj2 (Z.ltb_lt 0 tl)), (proj2 (Z.ltb_lt tl _)) by done.
      by rewrite orb_true_r.
    + rewrite (proj2 (Z.ltb_ge tl _)) by lia. rewrite andb_false_r. by rewrite (proj2 (Z.ltb_ge 0 rl)) by lia.
Qed.

Lemma run_bounded provider cs log log' ds rest :
  keyRun provider log cs = (log', ds) → bounded (log ++ (entryOf <$> cs) ++ rest) → bounded (log' ++ rest).
Proof.
  revert log ds. induction cs as [|c cs IH]; intros log ds Hs Hb; cbn [keyRun] in Hs; [by injection Hs as <- <-|].
  destruct (keySliding provider log c) as [log1 d1] eqn:E1. destruct (keyRun provider log1 cs) as [log2 ds2] eqn:E2.
  injection Hs as <- <-. eapply (IH log1 ds2); [done|]. by eapply sliding_bounded.
Qed.

(** The same call, [d] later. *)
Definition callLater (d : Z) c : call :=
  MkCall (nowOf c + d) (cClk c) (cClk2 c) (cTenant c) (MkRequest (Requests (cReq c)) (Tokens (cReq c)) (nowOf c + d)).
Lemma normal_later d c : normal (callLater d c) = laterBy d (normal c).
Proof. unfold normal, callLater, laterBy, normalizeQuotaRequest, nowOf. simpl. f_equal. by case_match. Qed.

Lemma slidingCall_limited provider c windows rl tl : codeLimits provider (cTenant c) = Ok (Some (rl, tl)) →
  slidingCall provider c windows =
  let '(w, d) := slide rl tl (normal c) (default (MkSliding [] []) (windows !! cTenant c)) in (<[cTenant c := w]> windows, d).
Proof.
  unfold codeLimits, slidingCall, AllowSliding. destruct (provider (cTenant c)); [|done]. destruct (unsupported a); [done|].
  destruct (slidingWindowEffectiveLimits a) as [rl0 tl0]. destruct ((rl0 <=? 0) && (tl0 <=? 0)); [done|].
  intros H. injection H as -> ->. done.
Qed.

Definition minuteProvider2 : QuotaConfigProvider :=
  QuotaConfigOf (SetTenantConfig 0 (demoConfigFor (MkQuota [MkLimit QuotaWindowMinute 2 0])) NewInMemoryConfigManager).

(** A request the sliding manager refuses is told a delay of at most a minute, and the delay is exact: the same
    request, repeated any earlier with nothing else admitted in between, is refused again, and repeated after exactly
    the delay it is let through, when only requests or only tokens are limited (with both limited the delay frees the
    dimension that refused). *)
Theorem tenant_retry_exact (provider : QuotaConfigProvider) cs c rl tl windows decs windows' res :
  calls_fit (cs ++ [c]) → codeLimits provider (cTenant c) = Ok (Some (rl, tl)) →
  (0 < rl → Requests (normal c) ≤ rl) → (0 < tl → Tokens (normal c) ≤ tl) →
  runSliding provider cs ∅ = (windows, decs) →
  slidingCall provider c windows = (windows', (res, Some ErrQuotaExceeded)) →
  0 < RetryAfter res ≤ timeMinute ∧
  (∀ d, 0 ≤ d < RetryAfter res → Allowed (slidingCall provider (callLater d c) windows').2.1 = false) ∧
  (rl ≤ 0 ∨ tl ≤ 0 → Allowed (slidingCall provider (callLater (RetryAfter res) c) windows').2.1 = true).
Proof.
  intros Hok Hl Hrl Htl Hrun Hcall. pose proof (calls_bounded _ Hok) as Hb. pose proof (calls_first _ Hok) as Hf.
  destruct Hok as (Hsort & _). rewrite fmap_app in Hb. cbn [fmap list_fmap] in Hb.
  apply StronglySorted_app in Hsort as (Hle & Hsort & _).
  destruct (runSliding_spec provider cs ∅ [] (match cs ++ [c] with [] => 0 | c :: _ => nowOf c end) windows decs)
    as (log & Hspec & Hall); [apply empty_slides|by apply Forall_app in Hf as [? _]|done| |done|].
  { rewrite app_nil_l. rewrite <- (app_nil_r (entryOf <$> cs)). apply (bounded_sub _ [entryOf c]). by rewrite app_nil_r. }
  assert (slides (default (MkSliding [] []) (windows !! cTenant c)) log (cTenant c) (nowOf c)) as [Hw Hu].
  { eapply slides_later, Hall. destruct (last cs) as [c'|] eqn:El; cbn [fmap option_fmap option_map default].
    - apply Hle; [by apply last_Some_elem_of|set_solver].
    - apply last_None in El as ->. simpl. lia. }
  assert (bounded (log ++ [entryOf c])) as Hbl.
  { eapply (run_bounded provider cs []); [done|exact Hb]. }
  pose proof (sum_bounded log (since (cTenant c) (nowOf c - timeMinute)) c [] Hbl) as (B1 & B2 & B3 & B4 & B5 & B6).
  destruct (Hu (nowOf c - timeMinute)) as [U1 U2]; [lia|]. unfold usedSince in U1, U2. cbn [fst snd] in U1, U2.
  rewrite (slidingCall_limited _ _ _ _ _ Hl) in Hcall. destruct (slide _ _ _ _) as [w1 d1] eqn:Es. injection Hcall as <- ->.
  assert (∀ d, (slidingCall provider (callLater d c) (<[cTenant c := w1]> windows)).2 = (slide rl tl (laterBy d (normal c)) w1).2) as Hlater.
  { intros d. rewrite (slidingCall_limited _ _ _ rl tl) by done. cbn [callLater cTenant]. rewrite lookup_insert_eq, normal_later. cbn [default id].
    by destruct (slide _ _ _ w1). }
  destruct (slide_retry rl tl (normal c) _ w1 res Hw B3 B4) as (Hd & H1 & H2); [change (Now (normal c)) with (nowOf c); lia..|done|done|done|].
  split; [done|]. split; intros; rewrite Hlater; [by apply H1|by apply H2].
Qed.
Definition demoBefore : list call := [demoCall 59 30; demoCall 61 60].
Definition demoWindows : SlidingWindowQuotaManager := (runSliding minuteProvider2 demoBefore ∅).1.
Definition demoRefused : SlidingWindowQuotaManager * decision := slidingCall minuteProvider2 (demoCall 62 1) demoWindows.
Lemma tenant_retry_exact_witness :
  RetryAfter demoRefused.2.1 = 57 * nanosPerSecond ∧
  (∀ d, 0 ≤ d < RetryAfter demoRefused.2.1 →
    Allowed (slidingCall minuteProvider2 (callLater d (demoCall 62 1)) demoRefused.1).2.1 = false) ∧
  Allowed (slidingCall minuteProvider2 (callLater (RetryAfter demoRefused.2.1) (demoCall 62 1)) demoRefused.1).2.1 = true.
Proof.
  destruct (tenant_retry_exact minuteProvider2 demoBefore (demoCall 62 1) 2 0 demoWindows (runSliding minuteProvider2 demoBefore ∅).2
    demoRefused.1 demoRefused.2.1) as (_ & H1 & H2).
  - eapply proj1, (demo_calls_ok [(59, 30); (61, 60); (62, 1)]); [| |vm_compute; discriminate..].
    + repeat constructor; simpl; lia.
    + repeat constructor; vm_compute; discriminate.
  - vm_compute. reflexivity.
  - intros _. vm_compute. discriminate.
  - intros H. exfalso. revert H. vm_compute. discriminate.
  - unfold demoWindows. destruct (runSliding minuteProvider2 demoBefore ∅) as [a b]. reflexivity.
  - fold demoRefused. assert (demoRefused.2.2 = Some ErrQuotaExceeded) as E by (vm_compute; reflexivity).
    destruct demoRefused as [win [res err]]. cbn [fst snd] in *. by rewrite E.
  - split; [vm_compute; reflexivity|]. split; [exact H1|]. apply H2. right. lia.
Defined.
