(* ===== verification/Framing.v ===== *)
(** * Length-prefixed messages over a stream

    [x/gateway/ipc/framing.go]: a [framedClient] turns a byte-stream [Client]
    into a message channel, each message preceded by its length in four
    big-endian bytes, at most 16 MB. The underlying client is an interface: a
    class of operations, with the laws of a reliable stream as a second class,
    against which the framing is proved. Reads may deliver the stream in chunks
    of any size; [io.ReadFull] puts them together. *)

From stdpp Require Import options.
From S2P Require Import Prelude GoBytes.

Module Framing.

Inductive ioErr := errEOF | errUnexpectedEOF | errIO (code : nat) | errTooLarge | errShortWrite | errShortRead.

(** [Read(buf)] and [Write(data)] of the client, with and without a timeout:
    the bytes delivered, or the number written, and possibly an error. *)
Class Client (C : Type) := {
  Read : C → nat → C * (gostring * option ioErr);
  ReadWithTimeout : C → nat → Z → C * (gostring * option ioErr);
  Write : C → gostring → C * (nat * option ioErr);
  WriteWithTimeout : C → gostring → Z → C * (nat * option ioErr)
}.

(** A reliable stream: what the peer has still to be read from and what has been
    sent. A read of a non-empty stream delivers at least one byte and never an
    error; at the end of the stream it reports [io.EOF]; a write takes all. *)
Class StreamLaws (C : Type) `{!Client C} (pending sent : C → gostring) : Prop := {
  read_some c n : 0 < n → pending c ≠ [] → ∃ c' bs, Read c n = (c', (bs, None)) ∧
    bs ≠ [] ∧ length bs ≤ n ∧ pending c = bs ++ pending c' ∧ sent c' = sent c;
  read_end c n : 0 < n → pending c = [] → Read c n = (c, ([], Some errEOF));
  read_timeout c n t : (0 < t)%Z → ReadWithTimeout c n t = Read c n;
  write_all c data : ∃ c', Write c data = (c', (length data, None)) ∧
    sent c' = sent c ++ data ∧ pending c' = pending c;
  write_timeout c data t : (0 < t)%Z → WriteWithTimeout c data t = Write c data
}.

Definition maxFrameSize : N := 16 * 1024 * 1024.
Definition frameLenSize : nat := 4.

Section framing.
Context {C : Type} `{!Client C}.

Record framedClient := NewFramedClient { client : C }.

(** The reader or writer the code picks for a timeout. *)
Definition readT (timeout : Z) (c : C) (n : nat) : C * (gostring * option ioErr) :=
  if (0 <? timeout)%Z then ReadWithTimeout c n timeout else Read c n.
Definition writeT (timeout : Z) (c : C) (data : gostring) : C * (nat * option ioErr) :=
  if (0 <? timeout)%Z then WriteWithTimeout c data timeout else Write c data.

(** [io.ReadFull]: read until [n] bytes are there or an error comes; each turn
    of the loop reads at least a byte from a well-behaved reader, so [n] turns
    are enough. *)
Fixpoint readLoop (timeout : Z) (fuel : nat) (c : C) (n : nat) (acc : gostring) :
    option (C * (gostring * option ioErr)) :=
  if n <=? length acc then Some (c, (acc, None))
  else match fuel with
       | O => None
       | S fuel =>
           let '(c, (bs, err)) := readT timeout c (n - length acc) in
           let acc := acc ++ bs in
           match err with
           | None => readLoop timeout fuel c n acc
           | Some e =>
               Some (c, (acc, if n <=? length acc then None
                              else match acc, e with
                                   | _ :: _, errEOF => Some errUnexpectedEOF
                                   | _, _ => Some e
                                   end))
           end
       end.
Definition io_ReadFull (timeout : Z) (c : C) (n : nat) : option (C * (gostring * option ioErr)) :=
  readLoop timeout n c n [].

(** The prefix, byte by byte, as the code builds it and reads it back. *)
Definition encodeLen (len : N) : gostring :=
  [byte_of (N.shiftr len 24); byte_of (N.shiftr len 16); byte_of (N.shiftr len 8); byte_of len].
Definition decodeLen (p : gostring) : N :=
  match p with
  | [b0; b1; b2; b3] =>
      N.lor (N.lor (N.lor (N.shiftl (byte_val b0) 24) (N.shiftl (byte_val b1) 16))
               (N.shiftl (byte_val b2) 8)) (byte_val b3)
  | _ => 0%N
  end.

Definition WriteMessageWithTimeout (fc : framedClient) (msg : gostring) (timeout : Z) :
    framedClient * option ioErr :=
  if (maxFrameSize <? N.of_nat (length msg))%N then (fc, Some errTooLarge)
  else
    let '(c1, (n1, err1)) := writeT timeout (client fc) (encodeLen (N.of_nat (length msg))) in
    match err1 with
    | Some e => (NewFramedClient c1, Some e)
    | None =>
        if negb (n1 =? frameLenSize) then (NewFramedClient c1, Some errShortWrite)
        else
          let '(c2, (n2, err2)) := writeT timeout c1 msg in
          match err2 with
          | Some e => (NewFramedClient c2, Some e)
          | None => (NewFramedClient c2, if negb (n2 =? length msg) then Some errShortWrite else None)
          end
    end.
Definition WriteMessage (fc : framedClient) (msg : gostring) : framedClient * option ioErr :=
  WriteMessageWithTimeout fc msg 0.

(** [None]: a read that never completes. *)
Definition ReadMessageWithTimeout (fc : framedClient) (timeout : Z) :
    option (framedClient * result ioErr gostring) :=
  '(c1, (prefix, err1)) ← io_ReadFull timeout (client fc) frameLenSize;
  match err1 with
  | Some e => Some (NewFramedClient c1, Err e)
  | None =>
      if negb (length prefix =? frameLenSize) then Some (NewFramedClient c1, Err errShortRead)
      else
        let msgLen := decodeLen prefix in
        if (maxFrameSize <? msgLen)%N then Some (NewFramedClient c1, Err errTooLarge)
        else if (msgLen =? 0)%N then Some (NewFramedClient c1, Ok [])
        else
          '(c2, (msg, err2)) ← io_ReadFull timeout c1 (N.to_nat msgLen);
          match err2 with
          | Some e => Some (NewFramedClient c2, Err e)
          | None => Some (NewFramedClient c2,
                      if negb (length msg =? N.to_nat msgLen) then Err errShortRead else Ok msg)
          end
  end.
Definition ReadMessage (fc : framedClient) : option (framedClient * result ioErr gostring) :=
  ReadMessageWithTimeout fc 0.

(** ** Lengths *)

Lemma encodeLen_be len : encodeLen len = be_put 4 len.
Proof.
  unfold encodeLen. simpl. rewrite !N.Div0.div_div. rewrite !N.shiftr_div_pow2. done.
Qed.

Lemma lor_shift a b : (b < 256)%N → N.lor (N.shiftl a 8) b = (a * 256 + b)%N.
Proof.
  intros Hb. assert (N.land (N.shiftl a 8) b = 0%N) as Hl.
  { apply N.bits_inj_0. intros i. rewrite N.land_spec. destruct (decide (i < 8)%N).
    - by rewrite N.shiftl_spec_low.
    - destruct (N.eq_dec b 0) as [->|]; [by rewrite N.bits_0, andb_false_r|].
      rewrite (N.bits_above_log2 b), andb_false_r; [done|].
      apply N.log2_lt_pow2; [lia|]. eapply N.lt_le_trans; [apply Hb|].
      change 256%N with (2 ^ 8)%N. apply N.pow_le_mono_r; lia. }
  rewrite <- N.lxor_lor, <- N.add_nocarry_lxor by done. by rewrite N.shiftl_mul_pow2.
Qed.

Lemma decodeLen_be p : length p = frameLenSize → decodeLen p = be_get p.
Proof.
  intros H. destruct p as [|b0 [|b1 [|b2 [|b3 [|]]]]]; try done. simpl. unfold be_get. simpl.
  rewrite <- !lor_shift by apply byte_val_bound. rewrite !N.shiftl_lor, !N.shiftl_shiftl. simpl.
  change (24)%N with (16 + 8)%N. done.
Qed.

Lemma decode_encode len : (len < 2 ^ 32)%N → decodeLen (encodeLen len) = len.
Proof.
  intros H. rewrite decodeLen_be by done. rewrite encodeLen_be. by apply be_get_put.
Qed.

(** ** Against a reliable stream *)

Context (pending sent : C → gostring) `{!StreamLaws C pending sent}.

Lemma writeT_all t c data : ∃ c', writeT t c data = (c', (length data, None)) ∧
  sent c' = sent c ++ data ∧ pending c' = pending c.
Proof using Type*.
  unfold writeT. destruct (Z.ltb_spec 0 t); rewrite ?write_timeout by done; apply write_all.
Qed.

Lemma readT_some t c n : 0 < n → pending c ≠ [] → ∃ c' bs, readT t c n = (c', (bs, None)) ∧
  bs ≠ [] ∧ length bs ≤ n ∧ pending c = bs ++ pending c' ∧ sent c' = sent c.
Proof using Type*.
  unfold readT. destruct (Z.ltb_spec 0 t); rewrite ?read_timeout by done; apply read_some.
Qed.

Lemma readT_end t c n : 0 < n → pending c = [] → readT t c n = (c, ([], Some errEOF)).
Proof using Type*.
  unfold readT. destruct (Z.ltb_spec 0 t); rewrite ?read_timeout by done; apply read_end.
Qed.

(** The loop reads the next [n] bytes whatever the chunks, or reports how the
    stream ended. *)
Lemma readLoop_spec t fuel c n acc : length acc ≤ n → n - length acc ≤ fuel →
  ∃ c', sent c' = sent c ∧
    if n <=? length acc + length (pending c) then
      readLoop t fuel c n acc = Some (c', (acc ++ take (n - length acc) (pending c), None)) ∧
      pending c' = drop (n - length acc) (pending c)
    else
      readLoop t fuel c n acc = Some (c', (acc ++ pending c,
        Some (match acc ++ pending c with [] => errEOF | _ => errUnexpectedEOF end))) ∧ pending c' = [].
Proof using Type*.
  revert c acc. induction fuel as [|fuel IH]; intros c acc Hacc Hfuel; cbn [readLoop].
  { exists c. split; [done|]. rewrite !(proj2 (Nat.leb_le _ _)) by lia.
    replace (n - length acc) with 0 by lia. by rewrite take_0, drop_0, app_nil_r. }
  destruct (Nat.leb_spec n (length acc)) as [Hle|Hlt].
  { exists c. split; [done|]. rewrite !(proj2 (Nat.leb_le _ _)) by lia.
    replace (n - length acc) with 0 by lia. by rewrite take_0, drop_0, app_nil_r. }
  destruct (decide (pending c = [])) as [He|Hne].
  - rewrite readT_end by (done || lia). exists c. split; [done|]. rewrite He. simpl.
    rewrite !(proj2 (Nat.leb_gt _ _)) by (rewrite ?app_nil_r; lia). rewrite !app_nil_r.
    split; [|done]. by destruct acc.
  - destruct (readT_some t c (n - length acc)) as (c1 & bs & -> & Hbs & Hlen & Hp & Hs); [lia|done|].
    assert (0 < length bs) by (destruct bs; [done|simpl; lia]).
    destruct (IH c1 (acc ++ bs)) as (c' & Hs' & IH'); [rewrite length_app; lia..|].
    exists c'. split; [congruence|]. rewrite Hp. rewrite length_app in IH'.
    rewrite (length_app bs), Nat.add_assoc. case_match.
    + destruct IH' as [-> ->]. rewrite take_app_ge, drop_app_ge by lia. rewrite <- app_assoc.
      by rewrite <- Nat.sub_add_distr.
    + destruct IH' as [-> ->]. by rewrite <- app_assoc.
Qed.

Lemma readFull_prefix t c n x rest : pending c = x ++ rest → n = length x →
  ∃ c', io_ReadFull t c n = Some (c', (x, None)) ∧ pending c' = rest ∧ sent c' = sent c.
Proof using Type*.
  intros Hp ->. destruct (readLoop_spec t (length x) c (length x) []) as (c' & Hs & H); [simpl; lia..|].
  rewrite Hp, length_app in H. simpl in H. rewrite (proj2 (Nat.leb_le _ _)) in H by lia.
  rewrite Nat.sub_0_r, take_app_length, drop_app_length in H. exists c'. naive_solver.
Qed.

Definition frame (msg : gostring) : gostring := encodeLen (N.of_nat (length msg)) ++ msg.
Definition fits (msg : gostring) : Prop := (N.of_nat (length msg) ≤ maxFrameSize)%N.

Lemma write_spec t fc msg : fits msg →
  ∃ fc', WriteMessageWithTimeout fc msg t = (fc', None) ∧ pending (client fc') = pending (client fc) ∧
    sent (client fc') = sent (client fc) ++ frame msg.
Proof using Type*.
  intros Hfit. unfold WriteMessageWithTimeout. rewrite (proj2 (N.ltb_ge _ _)) by done.
  destruct (writeT_all t (client fc) (encodeLen (N.of_nat (length msg)))) as (c1 & -> & Hs1 & Hp1).
  destruct (writeT_all t c1 msg) as (c2 & -> & Hs2 & Hp2).
  simpl. rewrite Nat.eqb_refl. simpl. eexists. split; [done|]. simpl. split; [congruence|].
  rewrite Hs2, Hs1. unfold frame. by rewrite app_assoc.
Qed.

Lemma read_spec t fc msg rest : fits msg → pending (client fc) = frame msg ++ rest →
  ∃ fc', ReadMessageWithTimeout fc t = Some (fc', Ok msg) ∧ pending (client fc') = rest.
Proof using Type*.
  intros Hfit Hp. unfold frame in Hp. rewrite <- app_assoc in Hp. unfold ReadMessageWithTimeout.
  destruct (readFull_prefix t _ frameLenSize _ _ Hp eq_refl) as (c1 & -> & Hp1 & _).
  cbn [mbind option_bind length encodeLen].
  change (negb (4 =? frameLenSize)) with false. cbn iota.
  fold (encodeLen (N.of_nat (length msg))).
  rewrite decode_encode by (unfold fits, maxFrameSize in Hfit; lia).
  rewrite (proj2 (N.ltb_ge _ _)) by done.
  destruct (N.eqb_spec (N.of_nat (length msg)) 0) as [Hz|Hz].
  { destruct msg; [|done]. eexists. split; [done|]. done. }
  destruct (readFull_prefix t c1 (N.to_nat (N.of_nat (length msg))) msg rest) as (c2 & -> & Hp2 & _);
    [done|lia|].
  cbn [mbind option_bind]. rewrite Nat2N.id, Nat.eqb_refl. eexists. split; [done|]. done.
Qed.

(** ** Sequences of messages *)

Fixpoint writeMessages (t : Z) (fc : framedClient) (msgs : list gostring) : framedClient * option ioErr :=
  match msgs with
  | [] => (fc, None)
  | m :: msgs => let '(fc, err) := WriteMessageWithTimeout fc m t in
                 match err with Some e => (fc, Some e) | None => writeMessages t fc msgs end
  end.

Fixpoint readMessages (t : Z) (fc : framedClient) (n : nat) : option (framedClient * list (result ioErr gostring)) :=
  match n with
  | O => Some (fc, [])
  | S n => '(fc, m) ← ReadMessageWithTimeout fc t; '(fc, ms) ← readMessages t fc n; Some (fc, m :: ms)
  end.

(** C37: Messages survive the stream. Over any pair of clients that behave as
    reliable streams, writing messages of at most 16 MB succeeds, and a reader
    that is given exactly the bytes the writer sent, in chunks of any size,
    with or without timeouts, reads back the same messages in the same order,
    empty ones included, and leaves what follows them unread. *)
Theorem framing_roundtrip msgs fw (tw tr : Z) (Hfit : Forall fits msgs) :
  ∃ fw' data, writeMessages tw fw msgs = (fw', None) ∧
    sent (client fw') = sent (client fw) ++ data ∧
    ∀ fr rest, pending (client fr) = data ++ rest →
      ∃ fr', readMessages tr fr (length msgs) = Some (fr', Ok <$> msgs) ∧ pending (client fr') = rest.
Proof using Type*.
  revert fw. induction Hfit as [|m msgs Hm _ IH]; intros fw.
  { exists fw, []. split; [done|]. rewrite app_nil_r. split; [done|]. intros fr rest Hp. by exists fr. }
  cbn [writeMessages]. destruct (write_spec tw fw m Hm) as (fw1 & -> & _ & Hs1).
  destruct (IH fw1) as (fw' & data & -> & Hs & Hr). exists fw', (frame m ++ data).
  split; [done|]. split; [by rewrite Hs, Hs1, app_assoc|].
  intros fr rest Hp. rewrite <- app_assoc in Hp.
  destruct (read_spec tr fr m _ Hm Hp) as (fr1 & Hr1 & Hp1).
  destruct (Hr fr1 rest Hp1) as (fr' & Hr' & Hp'). exists fr'. split; [|done].
  simpl. rewrite Hr1. simpl. by rewrite Hr'.
Qed.

(** The limits and the end of the stream. A message over 16 MB is refused
    before anything is sent; a prefix that announces more than 16 MB is refused
    without reading the payload; a closed stream is [io.EOF], and a stream cut
    inside the prefix or inside the payload is [io.ErrUnexpectedEOF]. But a
    stream cut exactly between the prefix and a non-empty payload is reported
    as [io.EOF], as if it had been closed cleanly. *)
Theorem framing_errors fc t :
  (∀ msg, ¬ fits msg → WriteMessageWithTimeout fc msg t = (fc, Some errTooLarge)) ∧
  (∀ len rest, (maxFrameSize < len < 2 ^ 32)%N → pending (client fc) = encodeLen len ++ rest →
     ∃ fc', ReadMessageWithTimeout fc t = Some (fc', Err errTooLarge) ∧ pending (client fc') = rest) ∧
  (∀ msg cut, fits msg → cut < length (frame msg) → pending (client fc) = take cut (frame msg) →
     ∃ fc', ReadMessageWithTimeout fc t = Some (fc',
       Err (if (cut =? 0) || (cut =? frameLenSize) then errEOF else errUnexpectedEOF))).
Proof using Type*.
  split; [|split].
  - intros msg Hfit. unfold WriteMessageWithTimeout. rewrite (proj2 (N.ltb_lt _ _)); [done|].
    unfold fits in Hfit. lia.
  - intros len rest Hlen Hp. unfold ReadMessageWithTimeout.
    destruct (readFull_prefix t _ frameLenSize _ _ Hp eq_refl) as (c1 & -> & Hp1 & _).
    cbn [mbind option_bind length encodeLen]. change (negb (4 =? frameLenSize)) with false. cbn iota.
    fold (encodeLen len). rewrite decode_encode, (proj2 (N.ltb_lt _ _)) by lia. eauto.
  - intros msg cut Hfit Hcut Hp. unfold ReadMessageWithTimeout. unfold frame in *.
    rewrite length_app in Hcut. cbn [length encodeLen] in Hcut. fold (encodeLen (N.of_nat (length msg))) in *.
    destruct (decide (cut < frameLenSize)) as [Hc|Hc].
    + destruct (readLoop_spec t frameLenSize (client fc) frameLenSize []) as (c1 & _ & H); [unfold frameLenSize; simpl; lia..|].
      rewrite Hp, length_take, length_app in H. cbn [length encodeLen] in H.
      rewrite (proj2 (Nat.leb_gt _ _)) in H by (unfold frameLenSize in *; lia).
      unfold io_ReadFull. destruct H as [-> _]. cbn [mbind option_bind]. eexists. do 2 f_equal.
      unfold frameLenSize in *. by destruct cut as [|[|[|[|]]]]; [..|lia].
    + rewrite take_app_ge in Hp by (simpl; unfold frameLenSize in *; lia).
      destruct (readFull_prefix t _ frameLenSize _ _ Hp eq_refl) as (c1 & -> & Hp1 & _).
      cbn [mbind option_bind length encodeLen] in *. change (negb (4 =? frameLenSize)) with false. cbn iota.
      fold (encodeLen (N.of_nat (length msg))) in *.
      rewrite decode_encode by (unfold fits, maxFrameSize in Hfit; lia).
      rewrite (proj2 (N.ltb_ge _ _)) by done. unfold frameLenSize in *.
      destruct (N.eqb_spec (N.of_nat (length msg)) 0) as [Hz|Hz]; [lia|]. rewrite Nat2N.id.
      destruct (readLoop_spec t (length msg) c1 (length msg) []) as (c2 & _ & H); [simpl; lia..|].
      rewrite Hp1, length_take in H. cbn [length app] in H.
      rewrite (proj2 (Nat.leb_gt _ _)) in H by lia.
      unfold io_ReadFull. destruct H as [-> _]. cbn [mbind option_bind]. eexists. do 2 f_equal.
      rewrite (proj2 (Nat.eqb_neq cut 0)) by lia. simpl.
      destruct (Nat.eqb_spec cut 4) as [->|]; [by rewrite Nat.sub_diag, take_0|].
      destruct msg; [done|]. by destruct (cut - 4) eqn:E; [lia|].
Qed.

End framing.

(** ** A stream that delivers fixed-size chunks *)

Record pipe := MkPipe { inp : gostring; out : gostring; chunk : nat }.
Definition pipeRead (c : pipe) (n : nat) : pipe * (gostring * option ioErr) :=
  match n, inp c with
  | O, _ => (c, ([], None))
  | _, [] => (c, ([], Some errEOF))
  | _, _ => let k := n `min` S (chunk c) in
            (MkPipe (drop k (inp c)) (out c) (chunk c), (take k (inp c), None))
  end.
Definition pipeWrite (c : pipe) (data : gostring) : pipe * (nat * option ioErr) :=
  (MkPipe (inp c) (out c ++ data) (chunk c), (length data, None)).
#[export] Instance pipe_client : Client pipe := {
  Read := pipeRead;
  ReadWithTimeout c n _ := pipeRead c n;
  Write := pipeWrite;
  WriteWithTimeout c d _ := pipeWrite c d
}.
#[export] Instance pipe_laws : StreamLaws pipe inp out.
Proof.
  split; try done.
  - intros [i o k] [|n] Hn Hp; [lia|]. simpl in *. destruct i as [|b i]; [done|].
    eexists _, _. split; [reflexivity|]. simpl. rewrite take_drop, length_take. split_and!; done || lia.
  - intros [i o k] [|n] Hn Hp; [lia|]. simpl in *. by subst.
  - intros c data. eexists. done.
Qed.

Lemma framing_roundtrip_witness : ∃ fw' data,
  writeMessages 0 (NewFramedClient (MkPipe [] [] 0)) [str "hello"; []; str "x"] = (fw', None) ∧
  out (client fw') = data ∧
  ∃ fr', readMessages 5 (NewFramedClient (MkPipe data [] 2)) 3 = Some (fr', [Ok (str "hello"); Ok []; Ok (str "x")]).
Proof.
  destruct (framing_roundtrip inp out [str "hello"; []; str "x"] (NewFramedClient (MkPipe [] [] 0)) 0 5)
    as (fw' & data & H1 & H2 & H3).
  { repeat constructor; unfold fits; vm_compute; discriminate. }
  exists fw', data. split; [done|]. split; [done|].
  destruct (H3 (NewFramedClient (MkPipe data [] 2)) []) as (fr' & Hr & _); [by rewrite app_nil_r|].
  by exists fr'.
Defined.

Lemma framing_errors_witness : ∃ fc',
  ReadMessageWithTimeout (NewFramedClient (MkPipe (encodeLen 5) [] 1)) 0 = Some (fc', Err errEOF).
Proof.
  destruct (framing_errors inp out (NewFramedClient (MkPipe (encodeLen 5) [] 1)) 0) as (_ & _ & H).
  apply (H (str "hello") 4).
  - unfold fits. vm_compute. discriminate.
  - vm_compute. lia.
  - vm_compute. reflexivity.
Defined.

End Framing.
