(* ===== verification/Lifecycle.v ===== *)
(** * Supervised components

    [core/lifecycle_group.go]: a [LifecycleGroup] starts its components in
    registration order, stops them in reverse, and rolls back when one fails to
    start. Components are arbitrary: each phase may change the world and may
    fail. The operations also return the calls they made, in order, which is
    what the theorems are about. *)

From stdpp Require Import options.
From S2P Require Import Prelude.

Module Lifecycle.

Section group.
Context {W E : Type}.

(** The interface, and the adapter with optional phases. *)
Record LifecycleI := MkLifecycle {
  StartC : W → W * option E;
  StopC : W → W * option E;
  ReadyC : W → option E
}.

Record Component := MkComponent {
  CName : gostring;
  OnStart : option (W → W * option E);
  OnStop : option (W → W * option E);
  OnReady : option (W → option E)
}.
Definition asLifecycle (c : Component) : LifecycleI := {|
  StartC w := match OnStart c with Some f => f w | None => (w, None) end;
  StopC w := match OnStop c with Some f => f w | None => (w, None) end;
  ReadyC w := match OnReady c with Some f => f w | None => None end
|}.

Record LifecycleGroup := MkGroup {
  entries : list (gostring * LifecycleI);
  started : nat;
  didStart : bool
}.
Definition NewLifecycleGroup : LifecycleGroup := MkGroup [] 0 false.

(** A call to component [i]: started, failed to start, or stopped. *)
Inductive event := EvStart (i : nat) | EvFailed (i : nat) | EvStop (i : nat).

Inductive groupErr :=
| ErrAlreadyStarted
| ErrStart (name : gostring) (e : E).

Definition Add (g : LifecycleGroup) (name : gostring) (c : option LifecycleI) : LifecycleGroup :=
  match c with
  | None => g
  | Some c => MkGroup (entries g ++ [(name, c)]) (started g) (didStart g)
  end.

(** The loop of [stopStartedLocked], from [count - 1] down; the errors are
    collected. *)
Fixpoint stopLoop (es : list (gostring * LifecycleI)) (count : nat) (w : W) :
    W * list event * list (gostring * E) :=
  match count with
  | O => (w, [], [])
  | S i =>
      match es !! i with
      | Some (name, c) =>
          let '(w, err) := StopC c w in
          let '(w, tr, errs) := stopLoop es i w in
          (w, EvStop i :: tr, (match err with Some e => [(name, e)] | None => [] end) ++ errs)
      | None => stopLoop es i w
      end
  end.

Definition stopStartedLocked (g : LifecycleGroup) (count : nat) (w : W) :
    LifecycleGroup * W * list event * list (gostring * E) :=
  let '(w, tr, errs) := stopLoop (entries g) count w in
  (MkGroup (entries g) 0 (didStart g), w, tr, errs).

Fixpoint startLoop (todo : list (gostring * LifecycleI)) (i : nat) (g : LifecycleGroup) (w : W) :
    LifecycleGroup * W * list event * option groupErr :=
  match todo with
  | [] => (g, w, [], None)
  | (name, c) :: todo =>
      let '(w, err) := StartC c w in
      match err with
      | Some e =>
          let '(g, w, tr, _) := stopStartedLocked g i w in
          (MkGroup (entries g) 0 (didStart g), w, EvFailed i :: tr, Some (ErrStart name e))
      | None =>
          let '(g, w, tr, err) := startLoop todo (S i) (MkGroup (entries g) (S i) (didStart g)) w in
          (g, w, EvStart i :: tr, err)
      end
  end.

Definition Start (g : LifecycleGroup) (w : W) : LifecycleGroup * W * list event * option groupErr :=
  if didStart g then (g, w, [], Some ErrAlreadyStarted)
  else startLoop (entries g) 0 (MkGroup (entries g) (started g) true) w.

Definition Stop (g : LifecycleGroup) (w : W) : LifecycleGroup * W * list event * list (gostring * E) :=
  stopStartedLocked g (started g) w.

(** [Ready] joins the errors of every registered component. *)
Definition Ready (g : LifecycleGroup) (w : W) : list (gostring * E) :=
  omap (λ '(name, c), pair name <$> ReadyC c w) (entries g).

(** ** Discipline *)

(** Components as a stack: a start pushes its component, a stop must pop the
    one started last. *)
Definition replay1 (stack : option (list nat)) (e : event) : option (list nat) :=
  s ← stack;
  match e with
  | EvStart i => Some (i :: s)
  | EvFailed _ => Some s
  | EvStop i => match s with j :: s => if decide (i = j) then Some s else None | [] => None end
  end.
Definition replay (stack : list nat) (tr : list event) : option (list nat) := foldl replay1 (Some stack) tr.

(** The first [n] components, the last one on top. *)
Definition running (n : nat) : list nat := reverse (seq 0 n).

Lemma replay_app s tr1 tr2 : replay s (tr1 ++ tr2) = replay s tr1 ≫= λ s', replay s' tr2.
Proof.
  unfold replay. rewrite foldl_app. destruct (foldl replay1 (Some s) tr1); [done|].
  simpl. by induction tr2.
Qed.
Lemma replay_cons s e tr : replay s (e :: tr) = replay1 (Some s) e ≫= λ s', replay s' tr.
Proof. apply (replay_app s [e] tr). Qed.

Lemma running_S n : running (S n) = n :: running n.
Proof. unfold running. by rewrite seq_S, reverse_snoc. Qed.

Definition group_ok (g : LifecycleGroup) : Prop :=
  started g ≤ length (entries g) ∧ (didStart g = false → started g = 0).

Lemma stopLoop_replay es n w w' tr errs : n ≤ length es → stopLoop es n w = (w', tr, errs) →
  replay (running n) tr = Some [] ∧ tr = EvStop <$> running n.
Proof.
  revert w w' tr errs. induction n as [|n IH]; intros w w' tr errs Hn H; simpl in H; [by simplify_eq|].
  destruct (lookup_lt_is_Some_2 es n) as [[name c] Hc]; [lia|]. rewrite Hc in H.
  destruct (StopC c w) as [w1 err]. destruct (stopLoop es n w1) as [[w2 tr'] errs'] eqn:E'. simplify_eq.
  destruct (IH _ _ _ _ ltac:(lia) E') as [IH1 IH2].
  rewrite running_S, replay_cons. simpl. rewrite decide_True by done. simpl. by rewrite IH1, IH2.
Qed.

Lemma startLoop_replay todo i g w g' w' tr err :
  started g = i → length (entries g) = i + length todo →
  startLoop todo i g w = (g', w', tr, err) →
  entries g' = entries g ∧ didStart g' = didStart g ∧
  replay (running i) tr = Some (running (started g')) ∧
  started g' = (match err with None => length (entries g) | Some _ => 0 end) ∧
  (err = None → tr = EvStart <$> seq i (length todo)).
Proof.
  revert i g w g' w' tr err. induction todo as [|[name c] todo IH]; intros i g w g' w' tr err Hi Hlen H; simpl in H.
  { simplify_eq. simpl in Hlen. split_and!; try done. lia. }
  simpl in Hlen. destruct (StartC c w) as [w1 [e|]].
  - destruct (stopStartedLocked g i w1) as [[[g2 w2] tr2] errs2] eqn:Hstop. simplify_eq.
    unfold stopStartedLocked in Hstop.
    destruct (stopLoop (entries g) (started g) w1) as [[w3 tr3] errs3] eqn:Hl. simplify_eq. simpl.
    destruct (stopLoop_replay (entries g) (started g) w1 w' tr2 errs2) as [Hr _]; [lia|done|].
    split_and!; done.
  - destruct (startLoop todo (S i) _ w1) as [[[g2 w2] tr2] err2] eqn:Hloop. simplify_eq.
    apply IH in Hloop as (H1 & H2 & H3 & H4 & H5); [|done|simpl; lia].
    split_and!; try done.
    + rewrite replay_cons. simpl. by rewrite <- running_S.
    + intros He. by rewrite (H5 He).
Qed.

(** ** Histories *)

Inductive call := CAdd (name : gostring) (c : option LifecycleI) | CStart | CStop.

Definition step_call (op : call) (g : LifecycleGroup) (w : W) : LifecycleGroup * W * list event :=
  match op with
  | CAdd name c => (Add g name c, w, [])
  | CStart => let '(g, w, tr, _) := Start g w in (g, w, tr)
  | CStop => let '(g, w, tr, _) := Stop g w in (g, w, tr)
  end.

Fixpoint run_calls (ops : list call) (g : LifecycleGroup) (w : W) : LifecycleGroup * W * list event :=
  match ops with
  | [] => (g, w, [])
  | op :: ops => let '(g, w, tr) := step_call op g w in
                 let '(g, w, tr') := run_calls ops g w in (g, w, tr ++ tr')
  end.

Lemma step_call_ok op g w g' w' tr : group_ok g → step_call op g w = (g', w', tr) →
  group_ok g' ∧ replay (running (started g)) tr = Some (running (started g')).
Proof.
  intros [Hle Hd] H. destruct op as [name [c|]| |]; simpl in H.
  - simplify_eq. split; [|done]. split; simpl; [rewrite length_app; lia|done].
  - simplify_eq. by split.
  - destruct (Start g w) as [[[g1 w1] tr1] err] eqn:Hs. simplify_eq. unfold Start in Hs.
    destruct (didStart g) eqn:Hds; [simplify_eq; split; [split; [done|congruence]|done]|].
    rewrite (Hd eq_refl) in *.
    apply startLoop_replay in Hs as (H1 & H2 & H3 & H4 & _); [|done|done]. simpl in *.
    split; [|done]. split; [|by rewrite H2]. rewrite H1, H4. destruct err; lia.
  - unfold Stop, stopStartedLocked in H.
    destruct (stopLoop (entries g) (started g) w) as [[w1 tr1] errs] eqn:Hl. simplify_eq.
    destruct (stopLoop_replay _ _ _ _ _ _ Hle Hl) as [Hr _]. split; [|done]. split; [simpl; lia|done].
Qed.

Lemma run_calls_ok ops g w g' w' tr : group_ok g → run_calls ops g w = (g', w', tr) →
  group_ok g' ∧ replay (running (started g)) tr = Some (running (started g')).
Proof.
  revert g w tr. induction ops as [|op ops IH]; intros g w tr Hg H; simpl in H; [by simplify_eq|].
  destruct (step_call op g w) as [[g1 w1] tr1] eqn:H1. destruct (run_calls ops g1 w1) as [[g2 w2] tr2] eqn:H2.
  simplify_eq. destruct (step_call_ok _ _ _ _ _ _ Hg H1) as [Hg1 Hr1].
  destruct (IH _ _ _ Hg1 H2) as [Hg2 Hr2]. split; [done|]. by rewrite replay_app, Hr1.
Qed.

(** C36: Components are started and stopped like a stack. In any history of
    [Add], [Start] and [Stop] on a new group, whatever the components do and
    whichever fail: every stop hits the component started last among those still
    running, so each started component is stopped at most once and in reverse
    order; the running components are exactly the first [started]; and from any
    such state, a [Start] that returns an error has stopped everything it
    started, a first [Start] that succeeds has started all components in order,
    a second one is refused without any call, and [Stop] stops all that run. *)
Theorem lifecycle_stack ops w g w' tr (Hrun : run_calls ops NewLifecycleGroup w = (g, w', tr)) :
  replay [] tr = Some (running (started g)) ∧
  (let '(g1, w1, tr1, err) := Start g w' in
   if didStart g then err = Some ErrAlreadyStarted ∧ tr1 = [] ∧ g1 = g
   else match err with
        | Some _ => replay [] (tr ++ tr1) = Some [] ∧ started g1 = 0
        | None => tr1 = EvStart <$> seq 0 (length (entries g)) ∧ started g1 = length (entries g)
        end) ∧
  (let '(g2, w2, tr2, errs) := Stop g w' in
   tr2 = EvStop <$> running (started g) ∧ replay [] (tr ++ tr2) = Some [] ∧ started g2 = 0).
Proof.
  destruct (run_calls_ok ops NewLifecycleGroup w g w' tr) as [[Hle Hd] Hr]; [by split|done|].
  change (running (started NewLifecycleGroup)) with (@nil nat) in Hr.
  split; [done|]. split.
  - destruct (Start g w') as [[[g1 w1] tr1] err] eqn:Hs. unfold Start in Hs.
    destruct (didStart g) eqn:Hds; [by simplify_eq|]. rewrite (Hd eq_refl) in *.
    apply startLoop_replay in Hs as (H1 & H2 & H3 & H4 & H5); [|done|done]. simpl in *.
    destruct err; [|by rewrite (H5 eq_refl)]. split; [|done]. rewrite replay_app, Hr. simpl.
    change (@nil nat) with (running 0) at 1. by rewrite H3, H4.
  - unfold Stop, stopStartedLocked.
    destruct (stopLoop (entries g) (started g) w') as [[w1 tr1] errs] eqn:Hl.
    destruct (stopLoop_replay _ _ _ _ _ _ Hle Hl) as [Hr1 ->]. split; [done|]. split; [|done].
    by rewrite replay_app, Hr.
Qed.

End group.

#[global] Arguments LifecycleI : clear implicits.
#[global] Arguments LifecycleGroup : clear implicits.
#[global] Arguments groupErr : clear implicits.
#[global] Arguments call : clear implicits.

(** Three components, the third of which fails to start. *)
Definition demoComponent (fails : bool) : LifecycleI (list nat) nat :=
  MkLifecycle (λ w, (w, if fails then Some 7 else None)) (λ w, (w, None)) (λ _, None).
Definition demoCalls : list (call (list nat) nat) :=
  [CAdd (str "db") (Some (demoComponent false)); CAdd (str "mq") (Some (demoComponent false));
   CAdd (str "hub") (Some (demoComponent true))].

Lemma lifecycle_stack_witness :
  let '(g, w, tr) := run_calls demoCalls NewLifecycleGroup [] in
  let '(g1, _, tr1, _) := Start g w in
  tr1 = [EvStart 0; EvStart 1; EvFailed 2; EvStop 1; EvStop 0] ∧
  replay [] (tr ++ tr1) = Some [] ∧ started g1 = 0.
Proof.
  destruct (run_calls demoCalls NewLifecycleGroup []) as [[g w] tr] eqn:Hr.
  destruct (lifecycle_stack demoCalls [] g w tr Hr) as (_ & H & _).
  vm_compute in Hr. simplify_eq. destruct (Start _ _) as [[[g1 w1] tr1] err] eqn:Hs.
  vm_compute in Hs. simplify_eq. split; [done|]. exact H.
Defined.

End Lifecycle.
