(* ===== verification/Kernel.v ===== *)
(** * The application kernel

    [middleware/middleware.go] (the chain) and [core/app.go], [config.go],
    [app_helpers.go], [middleware.go], [routing.go], [http_handler.go] and
    [lifecycle.go]: an [App] owns a router and a middleware chain, is configured
    while mutable, and freezes when it is prepared or serves its first request.

    A middleware is taken to follow its documented contract: it answers the
    request itself, or calls the next handler exactly once, with a request of
    its choice, and may then rewrite the answer. Loading a certificate
    ([crypto/tls]) is a parameter. Logging and the listening socket are left
    out. *)

From stdpp Require Import options.
From S2P Require Import Prelude GoStrings RouteCache MatchCache RouterPath RouterTrie.
From S2P Require Import RouterMatch ContractContext Router RouterInv RouterProps.

Module Kernel.

(** ** Middleware chains *)

Section kernel.
Context {H : Type}.

Abbreviation state := (AppState H).
Definition handlerT : Type := option request → state → state * response H.

Record Middleware := MkMiddleware {
  before : option request → response H + option request;
  after : option request → response H → response H
}.

(** [mw(next)] as a handler. *)
Definition wrap (m : Middleware) (next : handlerT) : handlerT := λ q st,
  match before m q with
  | inl a => (st, a)
  | inr q' => let '(st', a) := next q' st in (st', after m q a)
  end.

Record Chain := MkChain { middlewares : list Middleware }.
Definition NewChain (mws : list Middleware) : Chain := MkChain mws.
Definition ChainUse (c : Chain) (m : Middleware) : Chain := MkChain (middlewares c ++ [m]).
Definition ChainLen (c : Chain) : nat := length (middlewares c).
Definition ChainSnapshot (c : Chain) : list Middleware := middlewares c.

(** [for i := len - 1; i >= 0; i-- { h = mws[i](h) }] *)
Fixpoint buildLoop (mws : list Middleware) (i : nat) (h : handlerT) : handlerT :=
  match i with
  | O => h
  | S i => buildLoop mws i (match mws !! i with Some m => wrap m h | None => h end)
  end.
Definition Build (c : Chain) (h : handlerT) : handlerT :=
  buildLoop (middlewares c) (length (middlewares c)) h.

(** ** The application *)

Record TLSConfig := MkTLS { Enabled : bool; CertFile : gostring; KeyFile : gostring }.
Record AppConfig := MkAppConfig {
  Addr : gostring;
  TLS : TLSConfig;
  RouterMethodNotAllowed : bool;
  ReadTimeout : Z;
  ReadHeaderTimeout : Z;
  WriteTimeout : Z;
  IdleTimeout : Z;
  MaxHeaderBytes : Z;
  HTTP2Enabled : bool;
  DrainInterval : Z
}.

Definition DefaultConfig : AppConfig :=
  MkAppConfig (str ":8080") (MkTLS false [] []) false 30000000000 5000000000 30000000000 60000000000
    1048576 true 500000000.

Inductive PreparationState := StateMutable | StateHandlerPrepared | StateServerPrepared.
#[export] Instance PreparationState_eq_dec : EqDecision PreparationState.
Proof. solve_decision. Defined.

Inductive coreErr :=
| errImmutable | errNoChain | errNilMiddleware (index : nat) | ErrHandlerNil | errNoRouter
| errRouter (e : routeErr) | errNoConfig | errBadConfig | errTLSFiles | errTLSLoad
| errHandlerNotConfigured | errServerNotPrepared.

(** The parts of [crypto/tls] the kernel calls. *)
Context {cert : Type} (LoadX509KeyPair : gostring → gostring → option cert).

Record Server := MkServer {
  SAddr : gostring;
  SHandler : handlerT;
  STimeouts : Z * Z * Z * Z;
  SMaxHeaderBytes : Z;
  STLS : option cert;
  SNoHTTP2 : bool
}.

Record App := MkApp {
  config : option AppConfig;
  router : option RouterRef;
  rstate : state;
  middlewareChain : option Chain;
  preparationState : PreparationState;
  httpServer : option Server;
  handler : option handlerT;
  handlerOnce : bool;
  handlerFast : option handlerT
}.

Definition NewApp (cfg : AppConfig) : App :=
  let '(r, st) := NewAppRouter H in
  MkApp (Some cfg) (Some r) (SetMethodNotAllowed r (RouterMethodNotAllowed cfg) st)
    (Some (NewChain [])) StateMutable None None false None.

Definition with_rstate (st : state) (a : App) : App :=
  MkApp (config a) (router a) st (middlewareChain a) (preparationState a) (httpServer a)
    (handler a) (handlerOnce a) (handlerFast a).

Definition validateMutableState (s : PreparationState) : option coreErr :=
  if decide (s = StateMutable) then None else Some errImmutable.

(** The index of the first nil middleware. *)
Fixpoint firstNil (mws : list (option Middleware)) (i : nat) : option nat :=
  match mws with
  | [] => None
  | None :: _ => Some i
  | Some _ :: mws => firstNil mws (S i)
  end.

Definition AppUse (mws : list (option Middleware)) (a : App) : App * option coreErr :=
  match validateMutableState (preparationState a) with
  | Some e => (a, Some e)
  | None =>
      match middlewareChain a with
      | None => (a, Some errNoChain)
      | Some chain =>
          match firstNil mws 0 with
          | Some i => (a, Some (errNilMiddleware i))
          | None =>
              let chain := foldl (λ c m, match m with Some m => ChainUse c m | None => c end) chain mws in
              (MkApp (config a) (router a) (rstate a) (Some chain) (preparationState a) (httpServer a)
                 (handler a) (handlerOnce a) (handlerFast a), None)
          end
      end
  end.

(** [registerRoute] with the app's router, [addRoute] with a group's. *)
Definition registerRoute (r : option RouterRef) (method path : gostring) (h : option H)
    (opts : list RouteOption) (a : App) : App * option coreErr :=
  match validateMutableState (preparationState a) with
  | Some e => (a, Some e)
  | None =>
      match h with
      | None => (a, Some ErrHandlerNil)
      | Some _ =>
          match r with
          | None => (a, Some errNoRouter)
          | Some r =>
              let '(st, e) := AddRoute r method path h opts (rstate a) in
              (with_rstate st a, errRouter <$> e)
          end
      end
  end.

Definition freezeConfig (a : App) : App :=
  MkApp (config a) (router a) (rstate a) (middlewareChain a)
    (if decide (preparationState a = StateMutable) then StateHandlerPrepared else preparationState a)
    (httpServer a) (handler a) (handlerOnce a) (handlerFast a).

Definition buildHandler (a : App) : App :=
  match middlewareChain a, router a with
  | Some chain, Some r =>
      let h := Build chain (ServeHTTP r) in
      MkApp (config a) (router a) (rstate a) (middlewareChain a) (preparationState a) (httpServer a)
        (Some h) (handlerOnce a) (Some h)
  | _, _ => MkApp (config a) (router a) (rstate a) (middlewareChain a) (preparationState a)
              (httpServer a) None (handlerOnce a) (handlerFast a)
  end.

(** [handlerOnce.Do(...)] *)
Definition ensureHandlerPrepared (a : App) : App :=
  if handlerOnce a then a
  else
    let a := freezeConfig a in
    let a := match router a with Some r => with_rstate (Freeze r (rstate a)) a | None => a end in
    let a := buildHandler a in
    MkApp (config a) (router a) (rstate a) (middlewareChain a) (preparationState a) (httpServer a)
      (handler a) true (handlerFast a).

Definition validateServerConfig (cfg : AppConfig) : option coreErr :=
  if bool_decide (trim_space (Addr cfg) = []) || (ReadTimeout cfg <? 0)%Z || (ReadHeaderTimeout cfg <? 0)%Z
     || (WriteTimeout cfg <? 0)%Z || (IdleTimeout cfg <? 0)%Z || (MaxHeaderBytes cfg <? 0)%Z
  then Some errBadConfig else None.

Definition prepareTLSConfig (cfg : TLSConfig) : result coreErr (option cert) :=
  if negb (Enabled cfg) then Ok None
  else if bool_decide (trim_space (CertFile cfg) = []) || bool_decide (trim_space (KeyFile cfg) = [])
       then Err errTLSFiles
  else match LoadX509KeyPair (CertFile cfg) (KeyFile cfg) with
       | Some c => Ok (Some c)
       | None => Err errTLSLoad
       end.

Definition serverConfigSnapshot (a : App) : result coreErr AppConfig :=
  match config a with
  | None => Err errNoConfig
  | Some cfg => match router a, middlewareChain a with
                | Some _, Some _ => Ok cfg
                | _, _ => Err errNoConfig
                end
  end.

Definition installHTTPServer (cfg : AppConfig) (tls : option cert) (h : handlerT) (a : App) : App :=
  MkApp (config a) (router a) (rstate a) (middlewareChain a) StateServerPrepared
    (Some (MkServer (Addr cfg) h (ReadTimeout cfg, ReadHeaderTimeout cfg, WriteTimeout cfg, IdleTimeout cfg)
             (MaxHeaderBytes cfg) tls (negb (HTTP2Enabled cfg))))
    (handler a) (handlerOnce a) (handlerFast a).

(** [Prepare] *)
Definition ensureServerPrepared (a : App) : App * option coreErr :=
  match httpServer a with
  | Some _ =>
      (MkApp (config a) (router a) (rstate a) (middlewareChain a) StateServerPrepared (httpServer a)
         (handler a) (handlerOnce a) (handlerFast a), None)
  | None =>
      match serverConfigSnapshot a with
      | Err e => (a, Some e)
      | Ok cfg =>
          match validateServerConfig cfg with
          | Some e => (a, Some e)
          | None =>
              match prepareTLSConfig (TLS cfg) with
              | Err e => (a, Some e)
              | Ok tls =>
                  let a := ensureHandlerPrepared a in
                  match handler a with
                  | None => (a, Some errHandlerNotConfigured)
                  | Some h => (installHTTPServer cfg tls h a, None)
                  end
              end
          end
      end
  end.

Definition GetServer (a : App) : result coreErr Server :=
  match httpServer a with Some s => Ok s | None => Err errServerNotPrepared end.

(** Running a handler against the router state the app owns. *)
Definition runHandler (h : handlerT) (q : option request) (a : App) : App * option (response H) :=
  let '(st, resp) := h q (rstate a) in (with_rstate st a, Some resp).

(** [App.ServeHTTP]; [None] is the "handler not configured" error page. *)
Definition AppServeHTTP (q : option request) (a : App) : App * option (response H) :=
  let a := ensureHandlerPrepared a in
  match handlerFast a with
  | Some h => runHandler h q a
  | None => (a, None)
  end.

(** ** Histories *)

Inductive app_op :=
| AUse (mws : list (option Middleware))
| ARoute (r : RouterRef) (method path : gostring) (h : option H) (opts : list RouteOption)
| APrepare
| AServe (q : option request).

Definition run_app_op (op : app_op) (a : App) : App :=
  match op with
  | AUse mws => (AppUse mws a).1
  | ARoute r method path h opts => (registerRoute (Some r) method path h opts a).1
  | APrepare => (ensureServerPrepared a).1
  | AServe q => (AppServeHTTP q a).1
  end.

(** What the calls accepted, by their return values: the middlewares in order
    and the routes. *)
Definition accept (op : app_op) (a : App) (acc : list Middleware * registry H) : list Middleware * registry H :=
  match op with
  | AUse mws => match (AppUse mws a).2 with
                | None => (acc.1 ++ omap id mws, acc.2)
                | Some _ => acc
                end
  | ARoute r method path (Some h) opts =>
      match (registerRoute (Some r) method path (Some h) opts a).2 with
      | None => (acc.1, add_entry acc.2 method (new_route r method path opts, h))
      | Some _ => acc
      end
  | _ => acc
  end.

Fixpoint history (ops : list app_op) (a : App) (acc : list Middleware * registry H) :
    App * (list Middleware * registry H) :=
  match ops with
  | [] => (a, acc)
  | op :: ops => history ops (run_app_op op a) (accept op a acc)
  end.

(** ** What the application must answer *)

(** The first middleware registered is the outermost. *)
Fixpoint onion (mws : list Middleware) (k : option request → response H) (q : option request) : response H :=
  match mws with
  | [] => k q
  | m :: mws => match before m q with
                | inl a => a
                | inr q' => after m q (onion mws k q')
                end
  end.

Definition spec_answer (a : registry H) (mna : bool) (q : option request) : response H :=
  match q with
  | None => RUnavailable
  | Some {| req_Method := method; req_Path := None |} => RBadRequest
  | Some {| req_Method := method; req_Path := Some url |} =>
      spec_serve a mna method (canonicalRoutePath url)
  end.

(** Requests the theorems cover: a method without a colon, a path that is empty or begins
    with a slash and has no segment that is literally [:] or [*]; and middlewares that keep
    them so. *)
Definition proper (q : option request) : Prop :=
  good_request q ∧
  match q with
  | Some {| req_Path := Some url |} => (url = [] ∨ has_prefix_byte slash url = true) ∧ unmarked (canonicalRoutePath url)
  | _ => True
  end.
Definition mw_ok (m : Middleware) : Prop := ∀ q q', proper q → before m q = inr q' → proper q'.

Definition app_op_ok (op : app_op) : Prop :=
  match op with
  | AUse mws => Forall mw_ok (omap id mws)
  | ARoute r _ path _ _ => ascii_pattern r path ∧ ready r = true
  | APrepare => True
  | AServe q => proper q
  end.

(** ** Handlers *)

Lemma Build_foldr mws h : Build (MkChain mws) h = foldr wrap h mws.
Proof.
  unfold Build. simpl. assert (∀ n h, n ≤ length mws → buildLoop mws n h = foldr wrap h (take n mws)) as Hn.
  { induction n as [|n IH]; intros h' Hle; [done|]. cbn [buildLoop].
    destruct (lookup_lt_is_Some_2 mws n) as [m Hm]; [lia|]. rewrite Hm, IH by lia.
    by rewrite (take_S_r _ _ _ Hm), foldr_app. }
  rewrite Hn by done. by rewrite firstn_all.
Qed.

Lemma ServeHTTP_flags r q (st : state) :
  methodNotAllowed (ServeHTTP r q st).1 = methodNotAllowed st ∧ frozen (ServeHTTP r q st).1 = frozen st.
Proof. unfold ServeHTTP. by repeat case_match. Qed.

Lemma spec_answer_serve r q (st : state) reg : ready r = true → proper q → router_inv st reg →
  (ServeHTTP r q st).2 = spec_answer reg (methodNotAllowed st) q.
Proof.
  intros Hr [Hg Hp] Hi. destruct q as [[method [url|]]|]; simpl in *.
  - destruct Hp as [Hu Hp]. rewrite <- (spec_serve_keys st) by done. by apply ServeHTTP_spec.
  - unfold ServeHTTP. by rewrite Hr.
  - unfold ServeHTTP. by rewrite Hr.
Qed.

Lemma wrap_eq m next q (st : state) : wrap m next q st =
  match before m q with inl a => (st, a) | inr q' => let '(st', a) := next q' st in (st', after m q a) end.
Proof. done. Qed.

(** The wrapped router answers as specified, from the outside in, and its state
    stays a state of the same routes. *)
Lemma chain_answers r mws q (st : state) reg :
  ready r = true → Forall mw_ok mws → proper q → router_inv st reg →
  let res := foldr wrap (ServeHTTP r) mws q st in
  res.2 = onion mws (spec_answer reg (methodNotAllowed st)) q ∧
  router_inv res.1 reg ∧ methodNotAllowed res.1 = methodNotAllowed st ∧ frozen res.1 = frozen st.
Proof.
  intros Hr Hmws. revert q. induction Hmws as [|m mws Hm _ IH]; intros q Hq Hi; simpl.
  - split; [by apply spec_answer_serve|]. split; [by apply ServeHTTP_inv; [apply Hq|]|].
    apply ServeHTTP_flags.
  - rewrite (wrap_eq m _ q st). destruct (before m q) as [a|q'] eqn:Hb; [done|].
    destruct (IH q') as (H1 & H2 & H3 & H4); [by eapply Hm|done|].
    destruct (foldr wrap (ServeHTTP r) mws q' st) as [st' a]. simpl in *. by rewrite H1.
Qed.

(** ** Invariant *)

Definition rootRef : RouterRef := (NewAppRouter H).1.

Record app_inv (mna : bool) (a : App) (mws : list Middleware) (reg : registry H) : Prop := {
  ai_config : is_Some (config a);
  ai_router : router a = Some rootRef;
  ai_chain : middlewareChain a = Some (MkChain mws);
  ai_mws : Forall mw_ok mws;
  ai_routes : router_inv (rstate a) reg;
  ai_mna : methodNotAllowed (rstate a) = mna;
  ai_phase :
    if handlerOnce a then
      preparationState a ≠ StateMutable ∧ frozen (rstate a) = true ∧
      handlerFast a = Some (foldr wrap (ServeHTTP rootRef) mws) ∧
      handler a = Some (foldr wrap (ServeHTTP rootRef) mws) ∧
      ∀ s, httpServer a = Some s → SHandler s = foldr wrap (ServeHTTP rootRef) mws
    else preparationState a = StateMutable ∧ httpServer a = None
}.

Lemma NewApp_inv cfg : app_inv (RouterMethodNotAllowed cfg) (NewApp cfg) [] ∅.
Proof.
  split; simpl; try done. apply SetMethodNotAllowed_inv, new_router_inv.
  - apply MatchCache.new_ok.
  - intros k. simpl. unfold MatchCache.Get. apply lookup_empty.
Qed.

Lemma ensure_inv mna a mws reg : app_inv mna a mws reg →
  app_inv mna (ensureHandlerPrepared a) mws reg ∧ handlerOnce (ensureHandlerPrepared a) = true.
Proof.
  intros Hi. unfold ensureHandlerPrepared. destruct (handlerOnce a) eqn:Ho; [done|].
  destruct Hi. rewrite Ho in ai_phase0. destruct ai_phase0 as [Hst Hsrv].
  unfold freezeConfig, buildHandler, with_rstate. simpl. rewrite ai_router0. simpl. rewrite ai_chain0. simpl.
  split; [|done]. rewrite Build_foldr. split; simpl; try done.
  - by apply Freeze_inv.
  - rewrite Hst. split_and!; try done. by rewrite Hsrv.
Qed.

Lemma prepare_inv mna a mws reg : app_inv mna a mws reg →
  app_inv mna (ensureServerPrepared a).1 mws reg ∧
  match (ensureServerPrepared a).2 with
  | Some _ => (ensureServerPrepared a).1 = a
  | None => handlerOnce (ensureServerPrepared a).1 = true ∧ is_Some (httpServer (ensureServerPrepared a).1)
  end.
Proof.
  intros Hi. unfold ensureServerPrepared. destruct (httpServer a) as [s|] eqn:Hs.
  { destruct Hi. destruct (handlerOnce a) eqn:Ho; [|naive_solver].
    split; simpl; [split; simpl; try done; naive_solver|eauto]. }
  destruct (serverConfigSnapshot a) as [cfg|e]; [|done].
  destruct (validateServerConfig cfg); [done|]. destruct (prepareTLSConfig (TLS cfg)) as [tls|e]; [|done].
  destruct (ensure_inv mna a mws reg Hi) as [Hi' Ho']. destruct Hi'. rewrite Ho' in ai_phase0.
  destruct ai_phase0 as (Hst & Hfr & Hfast & Hh & _). rewrite Hh. simpl.
  split; [|by eauto]. split; simpl; try done. rewrite Ho'. naive_solver.
Qed.

Lemma serve_inv mna a mws reg q : app_inv mna a mws reg → proper q →
  app_inv mna (AppServeHTTP q a).1 mws reg ∧ handlerOnce (AppServeHTTP q a).1 = true ∧
  (AppServeHTTP q a).2 = Some (onion mws (spec_answer reg mna) q).
Proof.
  intros Hi Hq. unfold AppServeHTTP. destruct (ensure_inv mna a mws reg Hi) as [Hi' Ho'].
  set (a' := ensureHandlerPrepared a) in *. destruct Hi'. rewrite Ho' in ai_phase0.
  destruct ai_phase0 as (Hst & Hfr & Hfast & Hh & Hsrv). rewrite Hfast. unfold runHandler.
  destruct (chain_answers rootRef mws q (rstate a') reg) as (H1 & H2 & H3 & H4); try done.
  destruct (foldr wrap (ServeHTTP rootRef) mws q (rstate a')) as [st resp]. simpl in *.
  split; [|by rewrite H1, ai_mna0]. split; simpl; try done; [congruence|].
  rewrite Ho'. split_and!; congruence || done.
Qed.

Lemma firstNil_omap mws i : firstNil mws i = None → Some <$> omap id mws = mws.
Proof.
  revert i. induction mws as [|[m|] mws IH]; intros i Hf; simpl in *; [done| |done].
  f_equal. by eapply IH.
Qed.

Lemma use_all mws chain :
  foldl (λ c m, match m with Some m => ChainUse c m | None => c end) chain (Some <$> mws)
  = MkChain (middlewares chain ++ mws).
Proof.
  revert chain. induction mws as [|m mws IH]; intros chain; simpl.
  - rewrite app_nil_r. by destruct chain.
  - rewrite IH. simpl. by rewrite <- app_assoc.
Qed.

Lemma app_step_inv mna a mws reg op : app_inv mna a mws reg → app_op_ok op →
  app_inv mna (run_app_op op a) (accept op a (mws, reg)).1 (accept op a (mws, reg)).2.
Proof.
  intros Hi Hop. destruct op as [ms|r method path h opts| |q]; simpl in *.
  - unfold AppUse, validateMutableState. case_decide as Hst; [|done]. rewrite (ai_chain _ _ _ _ Hi).
    destruct (firstNil ms 0) eqn:Hf; [done|]. apply firstNil_omap in Hf as Hms. simpl.
    rewrite <- Hms at 1. rewrite use_all. simpl. destruct Hi.
    destruct (handlerOnce a) eqn:Ho; [naive_solver|].
    split; simpl; try done. by apply Forall_app.
  - destruct Hop as [Hasc Hr]. unfold registerRoute, validateMutableState.
    case_decide as Hst; [|by destruct h]. destruct h as [h|]; [|done].
    destruct Hi. pose proof (accept_op_inv (OpAdd r method path (Some h) opts) (rstate a) reg Hasc ai_routes0) as Hacc.
    simpl in Hacc. destruct (handlerOnce a) eqn:Ho; [naive_solver|].
    assert (methodNotAllowed (AddRoute r method path (Some h) opts (rstate a)).1 = methodNotAllowed (rstate a)) as Hm.
    { unfold AddRoute, recordRoute, set_tree. by repeat case_match; simplify_eq/=. }
    destruct (AddRoute r method path (Some h) opts (rstate a)) as [st [e|]]; simpl in *;
      (split; simpl; try done; [congruence|by rewrite Ho]).
  - by apply prepare_inv.
  - by apply serve_inv.
Qed.

Lemma history_inv mna ops a mws reg : Forall app_op_ok ops → app_inv mna a mws reg →
  let '(a', (mws', reg')) := history ops a (mws, reg) in app_inv mna a' mws' reg'.
Proof.
  revert a mws reg. induction ops as [|op ops IH]; intros a mws reg Hok Hi; simpl; [done|].
  apply Forall_cons in Hok as [Hop Hok]. pose proof (app_step_inv mna a mws reg op Hi Hop) as Hi'.
  destruct (accept op a (mws, reg)) as [mws' reg']. by apply IH.
Qed.

Lemma phase_once mna a mws reg : app_inv mna a mws reg →
  preparationState a ≠ StateMutable → handlerOnce a = true.
Proof. intros [] Hp. destruct (handlerOnce a); naive_solver. Qed.

Lemma step_frozen mna a mws reg op : app_inv mna a mws reg → handlerOnce a = true →
  accept op a (mws, reg) = (mws, reg) ∧ (app_op_ok op → handlerOnce (run_app_op op a) = true).
Proof.
  intros Hi Ho. assert (preparationState a ≠ StateMutable) as Hst.
  { destruct Hi. rewrite Ho in ai_phase0. naive_solver. }
  destruct op as [ms|r method path h opts| |q]; simpl.
  - unfold AppUse, validateMutableState. by case_decide.
  - unfold registerRoute, validateMutableState. case_decide; [done|]. by destruct h.
  - split; [done|]. intros _. destruct (prepare_inv mna a mws reg Hi) as [_ Hp].
    destruct (ensureServerPrepared a) as [a' [e|]]; simpl in *; naive_solver.
  - split; [done|]. intros Hq. by apply (serve_inv mna a mws reg q).
Qed.

Lemma history_frozen mna ops a mws reg : Forall app_op_ok ops → app_inv mna a mws reg →
  handlerOnce a = true →
  ∃ a', history ops a (mws, reg) = (a', (mws, reg)) ∧ app_inv mna a' mws reg ∧ handlerOnce a' = true.
Proof.
  revert a. induction ops as [|op ops IH]; intros a Hok Hi Ho; simpl; [eauto|].
  apply Forall_cons in Hok as [Hop Hok]. destruct (step_frozen mna a mws reg op Hi Ho) as [Hacc Ho'].
  pose proof (app_step_inv mna a mws reg op Hi Hop) as Hi'. rewrite Hacc in *. auto.
Qed.

(** ** Claims *)

(** C4: The application serves what was configured. After any history of [Use],
    route registration (on the app or on groups), [Prepare] and served requests,
    the answer to a request is that of the accepted middlewares applied in the
    order they were registered, the first outermost, around the router, whose
    answer is determined by the accepted routes and the configuration; the
    prepared [http.Server] gives the same answer. Requests are served one after the
    other. The segments of patterns start with an ASCII byte (others can make the
    registration panic); the methods of requests hold no colon, their paths are empty
    or begin with a slash and have no segment that is literally [:] or [*], and the
    middlewares pass on only such requests. *)
Theorem kernel_serves cfg ops q (Hops : Forall app_op_ok ops) (Hq : proper q) :
  let '(a, (mws, reg)) := history ops (NewApp cfg) ([], ∅) in
  let answer := Some (onion mws (spec_answer reg (RouterMethodNotAllowed cfg)) q) in
  (AppServeHTTP q a).2 = answer ∧
  ∀ s, GetServer a = Ok s → (runHandler (SHandler s) q a).2 = answer.
Proof using Type*.
  pose proof (history_inv _ ops _ _ _ Hops (NewApp_inv cfg)) as Hi.
  destruct (history ops (NewApp cfg) ([], ∅)) as [a [mws reg]]. split; [by apply serve_inv|].
  intros s Hs. unfold GetServer in Hs. destruct (httpServer a) as [s'|] eqn:Hsrv; simplify_eq.
  destruct Hi. destruct (handlerOnce a); [|naive_solver].
  destruct ai_phase0 as (_ & _ & _ & _ & Hh). unfold runHandler. rewrite (Hh s) by done.
  destruct (chain_answers rootRef mws q (rstate a) reg) as (H1 & _); try done.
  destruct (foldr wrap (ServeHTTP rootRef) mws q (rstate a)). simpl in *. by rewrite H1, ai_mna0.
Qed.

(** Preparing freezes the application, for good. In any reachable state: a
    request freezes it, [Prepare] freezes it or fails and changes nothing, and
    preparing again succeeds; once it is frozen, no later history is accepted in
    any part, every [Use] and registration is refused, and every answer stays
    what it was. *)
Theorem kernel_freezes cfg ops (Hops : Forall app_op_ok ops) :
  let '(a, acc) := history ops (NewApp cfg) ([], ∅) in
  (∀ q, proper q → preparationState (AppServeHTTP q a).1 ≠ StateMutable) ∧
  match ensureServerPrepared a with
  | (a', Some _) => a' = a
  | (a', None) => preparationState a' = StateServerPrepared ∧ (ensureServerPrepared a').2 = None
  end ∧
  (preparationState a ≠ StateMutable → ∀ later, Forall app_op_ok later →
     ∃ a', history later a acc = (a', acc) ∧
       (∀ mws, (AppUse mws a').2 = Some errImmutable) ∧
       (∀ r method path h opts, (registerRoute r method path h opts a').2 = Some errImmutable) ∧
       (∀ q, proper q → (AppServeHTTP q a').2 = (AppServeHTTP q a).2)).
Proof using Type*.
  pose proof (history_inv _ ops _ _ _ Hops (NewApp_inv cfg)) as Hi.
  destruct (history ops (NewApp cfg) ([], ∅)) as [a [mws reg]]. split; [|split].
  - intros q Hq. destruct (serve_inv _ a mws reg q Hi Hq) as (Hi' & Ho & _).
    destruct Hi'. rewrite Ho in ai_phase0. naive_solver.
  - destruct (prepare_inv _ a mws reg Hi) as [_ Hp].
    destruct (ensureServerPrepared a) as [a' [e|]] eqn:He; simpl in *; [done|].
    destruct Hp as [_ [s Hs]]. split; [|unfold ensureServerPrepared; by rewrite Hs].
    unfold ensureServerPrepared in He. by repeat case_match; simplify_eq/=.
  - intros Hst later Hlater. pose proof (phase_once _ _ _ _ Hi Hst) as Ho.
    destruct (history_frozen _ later a mws reg Hlater Hi Ho) as (a' & Hh & Hi' & Ho').
    exists a'. split; [done|].
    assert (preparationState a' ≠ StateMutable) as Hst'.
    { destruct Hi'. rewrite Ho' in ai_phase0. naive_solver. }
    split; [intros ms; unfold AppUse, validateMutableState; by case_decide|].
    split; [intros; unfold registerRoute, validateMutableState; by case_decide|].
    intros q Hq. destruct (serve_inv _ a mws reg q Hi Hq) as (_ & _ & ->).
    by destruct (serve_inv _ a' mws reg q Hi' Hq) as (_ & _ & ->).
Qed.

End kernel.

#[global] Arguments Middleware : clear implicits.
#[global] Arguments app_op : clear implicits.

(** ** A concrete application *)

Definition no_certs (_ _ : gostring) : option unit := None.

(** One middleware answers requests outside [/api] itself, the other hides
    misses as 400s. *)
Definition apiOnly : Middleware nat :=
  MkMiddleware (λ q, match q with
                     | Some {| req_Path := Some p |} => if bool_decide (str "/api" `prefix_of` p) then inr q else inl RNotFound
                     | _ => inr q
                     end) (λ _ a, a).
Definition hideMiss : Middleware nat :=
  MkMiddleware inr (λ _ a, match a with RNotFound => RBadRequest | _ => a end).
Definition demoAppOps : list (app_op nat) :=
  [AUse [Some hideMiss]; ARoute demo_ref MethodGet (str "/api/:id") (Some 5) []; AUse [Some apiOnly];
   APrepare; ARoute demo_ref MethodGet (str "/late") (Some 6) []].
Definition demoGet (p : String.string) : option request := Some {| req_Method := MethodGet; req_Path := Some (str p) |}.

Lemma demoApp_ok : Forall app_op_ok demoAppOps.
Proof.
  assert (mw_ok hideMiss) by (intros q q' Hq [= <-]; done).
  assert (mw_ok apiOnly).
  { intros q q' Hq Hb. simpl in Hb. by repeat case_match; simplify_eq. }
  repeat apply Forall_cons_2; simpl; try done.
  - repeat constructor; done.
  - split; [|done]. apply (bool_decide_unpack _). vm_compute. exact I.
Qed.

Lemma demoGet_proper p : colon ∉ MethodGet → has_prefix_byte slash (str p) = true → unmarked (canonicalRoutePath (str p)) →
  proper (demoGet p).
Proof. intros Hm Hp Hu. split; [done|]. split; [by right|done]. Qed.

Definition demoHistory := history no_certs demoAppOps (NewApp DefaultConfig) ([], ∅).

Lemma kernel_serves_witness :
  (AppServeHTTP (demoGet "/late") demoHistory.1).2 = Some RBadRequest ∧
  (AppServeHTTP (demoGet "/late") demoHistory.1).2 =
    Some (onion demoHistory.2.1 (spec_answer demoHistory.2.2 false) (demoGet "/late")).
Proof.
  split; [vm_compute; reflexivity|].
  pose proof (kernel_serves no_certs DefaultConfig demoAppOps (demoGet "/late") demoApp_ok) as Hk.
  unfold demoHistory. destruct (history no_certs demoAppOps (NewApp DefaultConfig) ([], ∅)) as [a [mws reg]].
  apply Hk. apply demoGet_proper; [|done|]; apply (bool_decide_unpack _); vm_compute; exact I.
Defined.

Lemma kernel_freezes_witness :
  ∃ a', history no_certs [AUse [Some hideMiss]] demoHistory.1 demoHistory.2 = (a', demoHistory.2).
Proof.
  pose proof (kernel_freezes no_certs DefaultConfig demoAppOps demoApp_ok) as Hk.
  assert (preparationState demoHistory.1 = StateServerPrepared) as Hs by (vm_compute; reflexivity).
  unfold demoHistory in *. destruct (history no_certs demoAppOps (NewApp DefaultConfig) ([], ∅)) as [a acc].
  destruct Hk as (_ & _ & Hk). simpl in *.
  destruct (Hk ltac:(by rewrite Hs) [AUse [Some hideMiss]]) as (a' & Ha' & _); [|by exists a'].
  apply Forall_cons_2; [|by apply Forall_nil_2]. apply Forall_cons_2; [|by apply Forall_nil_2].
  by intros q q' Hq [= <-].
Defined.

End Kernel.
